(* ===== verification/_CoqProject ===== *)
-Q . S2P
Prelude.v
Base64.v
JsNumber.v
SupRouting.v
SupHead.v
SupPool.v
SupMain.v
SupWorker.v
Framing.v
Transport.v
Operations.v
PersistentExec.v
Relay.v
Lease.v
SelectSandbox.v
Json.v
JsonText.v
JsonPretty.v
Prog.v
Gate.v
Leaf.v
WorkQueue.v
CpBase.v
Ownership.v
Token.v
Credentials.v
Envelope.v
Stores.v
FileStore.v
K8sStore.v
SubjectQueue.v
Exchange.v
CpRoutes.v
Handlers.v
Identity.v
Boot.v
TurnAuth.v
Tenancy.v
SessionLog.v
TurnStream.v
RunTurn.v
Server.v
ServerProcess.v
StableSort.v
Tar.v
Overlay.v
Regex.v
Promote.v
JsonLines.v
Transcript.v
ClientApi.v
ClientServer.v
SessionManager.v
ActiveSession.v
Blocks.v
ClientConfig.v
CredentialForm.v
Headless.v
RelayServer.v
Presence.v
PromoteCommand.v
