(* ===== verification/Prelude.v ===== *)
(** * MOCA (serverless-harness): a verification development

    MOCA runs coding agents as serverless work.  A _supervisor_ accepts connections and
    passes each socket to one of its _worker_ processes; a worker runs agent _turns_, whose
    tools act in a _sandbox_ (a pod reached with kubectl, or a remote machine reached
    through a _relay_) leased from a pool; units of batch work, _leaves_, arrive over HTTP or
    through a Redis-backed _work queue_, may pause at _gates_ for a human decision, and
    leave a result record.  What a session did is in its _session log_ in Redis.  In a
    deployment with several users a _control plane_ signs users in, keeps their credentials
    sealed in a store and their sessions in an ownership index, and hands a turn that presents a
    session token the credential that session runs on; the server that runs turns verifies
    such tokens and asks it.  Skills, prompts and settings travel to the sandboxes in _config
    bundles_, promoted once and unpacked by every leaf.  A terminal client, _mocactl_, talks to
    both servers.  The source is TypeScript, under [src/packages] and [src/harness]; every path
    below is relative to [src/].

    ** The files

    - [Prelude]: this header, the conventions shared by all files (code that throws,
      JavaScript numbers, maps and strings), automation and generic lemmas.
    - [Base64], [JsNumber], [Json], [JsonText], [JsonPretty], [Prog]: what the sources use of the
      language: base64 and base64url of a [Buffer], [Number()] and decimal printing, JSON values,
      [JSON.stringify], plain and indented, and [JSON.parse] with their round trips, and [async] code as trees
      of awaited calls with a weakest-precondition calculus and runs against a state.
    - [SupRouting] (packages/supervisor/src/routing.ts, admission.ts): least-loaded and
      session-sticky routing, the bounded pin table, the saturation test.
    - [SupHead] (head.ts): the incremental request-head reader and the session-id extractor.
    - [SupPool] (pool.ts): the worker pool.  [Pool] is the object's state, with the worker
      slots, the processes they point to, restart timers and idle waiters; one definition
      per method and event handler, each giving the next state and the effects
      in order; [pool_step] is any of them happening.
    - [SupMain] (config.ts, main.ts): reading the configuration, [route] for one
      connection (suspended while the head is read), the start of [close].
    - [SupWorker] (packages/knative-server/src/worker.ts): the worker's turn counter and IPC
      handlers; [Link] joins it to the pool with one queue in each direction.
    - [Framing], [Transport], [PersistentExec], [Operations] (packages/k8s-sandbox/src): the
      framed shell protocol and its parser; the class [SandboxTransport] with the contract all
      transports share, the per-call kubectl transport and the relayed transport as event
      machines that implement it; the persistent channel with its queue, child and fallback; the
      file, bash and search tools over any transport of the class.
    - [Relay], [RelayServer] (packages/sandbox-relay/src/relay.ts, main.ts): attached workers, sinks per
      request, routed execs as generators, teardown; the gRPC services over them, with their two
      token checks, the way calls end, and the choice of listeners.  [Presence]
      (harness/src/pool-records.ts): the store of presence records, and its use by the relay.
    - [Lease], [SelectSandbox] (harness/src/sandbox-lease.ts, lease-timings.ts,
      select-sandbox.ts): leases in a Redis sorted set, the memoised clients, choosing and
      leasing a sandbox while other processes do the same.
    - [Gate] (harness/src/gate.ts, verdict.ts, budget-voter.ts and the tools): gate state
      recomputed from the session log, and what invocations and agents append to it.
    - [Leaf] (harness/src/run-leaf.ts, converge.ts, swebench-setup.ts, classify-outcome.ts): the
      three kinds of leaf as call trees, session ids, prompts and scripts.
    - [WorkQueue] (packages/work-queue/src/queue.ts, harness/src/leaf-job-runner.ts,
      leaf-result-store.ts, packages/knative-server/src/leaf-job.ts): consumers of the queue as
      call trees, interleaved over one stream.
    - The control plane, packages/control-plane/src.  [CpBase]: errors.ts, and the Redis
      commands the ownership index uses ([CpRedis]).  [Ownership] (ownership.ts): session
      records, owners' listings, runtime reports, deletion.  [Token] (token.ts), [Credentials]
      (credential-store.ts), [Envelope] (envelope.ts, subject-document.ts).  The stores behind
      one interface: [Stores] (vault-store.ts), [FileStore] (file-store.ts), [K8sStore]
      (k8s-secret-store.ts, kubectl.ts), with the queue they write through, [SubjectQueue].
      [Exchange] (exchange.ts, and the dependencies every handler takes), [CpRoutes]
      (routes.ts), [Handlers] (handlers.ts, resources.ts, server.ts: one definition per route,
      and a request from its bytes to its response), [Identity] (identity.ts), [Boot] (main.ts,
      systemd-credentials.ts).
    - [TurnAuth], [Tenancy] (packages/knative-server/src/turn-auth.ts, tenancy.ts): whose turn
      runs and with which credential; the switch between one user and several.
    - [SessionLog] (packages/session-backend/src, harness/src/buffered-redis-backend.ts): the
      log's operations over Redis commands, its connection as a state machine, and the
      write-behind buffer.  Logs and counters are separate maps there: a session id that ends in
      the suffix of the counters' keys, whose log would be another session's counter, is assumed away.
    - [TurnStream] (harness/src/turn-stream.ts, packages/mocactl/src/api/sse-parser.ts,
      frames.ts): the frames of a streamed turn, from the agent's events to the client.
      [RunTurn] (harness/src/run-turn.ts): a turn as a tree of calls, its lease, the model and
      its gateway, the shared session store.
    - [Server], [ServerProcess] (packages/knative-server/src/server.ts, context-service.ts,
      server-process.ts, cron-dispatch.ts): every route of the server, workloads and runs; its
      start-up and the scheduled dispatch.
    - Config bundles (packages/config-bundle/src, harness/src/config-*.ts).  [StableSort] and
      [Regex]: [Array.sort] and the regular expressions the scan uses.  [Tar] (tar.ts,
      config-store.ts): the canonical archive byte by byte, digests, the store.  [Overlay]
      (config-resolver.ts, config-overlay.ts): unpacking, and the reference-counted overlay in a
      pod.  [Promote] (build.ts, resolve.ts, classify.ts, secret-scan.ts, notes.ts,
      preflight.ts): building a bundle.  [PromoteCommand] (harness/src/promote.ts, promote-cli.ts,
      packages/config-bundle/src/lockfile.ts): the command that promotes one, and its lockfile.
    - The terminal client, packages/mocactl/src.  [JsonLines] and [Transcript]
      (core/transcripts.ts): files of JSON lines under appends that fail half-way; the store of
      transcripts.  [ClientApi] (api/errors.ts, control-plane.ts, harness.ts, discovery.ts, url.ts,
      core/auth.ts, messages.ts, sanitize.ts): the clients of both servers as trees of [fetch]
      calls.  [ClientServer] joins them to [Handlers] and [Server].  [SessionManager] and
      [ActiveSession] (core/session-manager.ts): a turn with its retries, and the queue of a
      session as a machine of suspended activations.  [Blocks] (render/blocks.ts,
      views/useSession.ts): what is shown.  [ClientConfig] (config.ts, runtime.ts),
      [CredentialForm] (core/credential-checks.ts), [Headless] (headless.ts, cli.ts,
      core/session-options.ts, core/diagnostics.ts).

    ** How the code is modelled

    A pure function is a function.  A function that throws returns [result].  An object with
    event handlers is a record and one function per handler, from state to state and a list
    of effects; what may happen next is a step relation, and an invariant is proved
    over all reachable states, so a theorem covers every order of events the runtime can
    produce.  Asynchronous code that matters for what it awaits is a [prog].  Mutable state
    shared between closures (a child's handlers, a parked session's sinks, a slot object that a
    late message still refers to) is kept shared, with identities, not copied.

    Integers are [Z] (counters and times, all far below 2^53) or exact rationals where the
    code computes with fractions; [jsnum] adds the infinities and NaN where the code can
    meet them.  Bytes and strings are 8-bit characters.

    Code outside the repository is a parameter: Redis through the classes [RedisZSet],
    [RedisStream] and [CpRedis], Vault through [KvServer], Ed25519, AES-GCM and URL parsing
    through [Ed25519], [AesGcm] and [URLs], whose laws are documented effects, with a model
    of each class; SHA-256, gzip, the base64 decoder, [fetch], the serialisation of URLs, Node's
    [stripVTControlCharacters], kubectl, the clock, [fork], [send] and the agent through
    arguments or arbitrary answers.  The file system, the session log's Redis commands and the Kubernetes
    API are relations between a state, a call, an answer and a state, in which any call may
    fail, before or after it took effect.

    ** What the theorems show

    - Connections and workers: each accepted socket is handed over, refused or destroyed exactly
      once; a hand-off finds a usable worker if there is one; a dead worker is restarted, with
      bounded backoff and never twice; waiting for idleness loses no wake-up; the
      supervisor's load estimate meets the worker's count, so admission cannot wedge; sticky
      routing keeps sessions in place in bounded memory; telemetry changes no decision;
      the head reader equals its rescanning specification and loses no byte.
    - Sandbox: the framing parser inverts the wrapper for any chunking; all three transports keep
      the one contract, against which reading and writing files is proved; quoting admits no
      injection and only allow-listed variables leave the harness; every command submitted to
      the persistent channel is accounted for; no exec of the relay waits for a worker
      that is gone (if it gave an id), and execs do not mix; a call to the relay ends once, with the status of what
      the worker reported; nothing reaches a worker without the exec token, which no sandbox's own
      token can be; the presence records are a map: the sessions of the relay, and what an earlier
      relay left.
    - Leases: the cap holds under any interleaving, a selection leaves its holder exactly the
      lease it reports, no client is orphaned.
    - Leaves: gates are answered once, an abort is final, a verdict that needs approval has a
      decision before it; every path of every kind of leaf gives back what it took; queued
      work is lost only where a consumer is deleted that was listed idle while its process ran, or
      whose name another process had.
    - Tokens and the exchange: only a token signed by a published key, for this audience and
      purpose, is accepted; an exchange hands out exactly what the token's own live session is
      entitled to, after auditing it; both ends of the exchange read the same grant; no bad
      token and no outage turns into ambient credentials.
    - Sessions and handlers: session routes look at ownership first and tell an absent session
      from another's by nothing; nothing happens before authentication; revocation is permanent
      under any interleaving; deletion never hides data; walking the pages ends and is complete;
      from creating a session to its revocation, its token does what it should.
    - Credential stores: what the API accepts is well formed; a sealed secret opens under a
      rotated ring and under no other name or subject; the Vault store loses no concurrent
      update, the file store replaces atomically, the Kubernetes store is linearizable, and
      the queue runs each subject's writes one at a time.
    - The session log: a flush stores everything in order or says it did not, a read returns the
      log, and a failed connection is not replayed.
    - The server: a turn spends the credential the control plane answered to its request's own
      token, at the endpoint of that answer, and no other; each request is answered
      once, runs and workloads are their owner's only, and a process for several users starts
      only with all it needs and with no ambient credential; a turn's lease is renewed while it
      runs and given back on every path, and the agent of a server's turn has no access to the host.
    - Streaming: the frames the agent's events become are the frames the client yields, whatever
      the network's chunks.
    - Config bundles: equal entries have equal digests and an archive reads back as packed; what
      is stored is what was digested; a bundle that a blocking rule for secrets hits is not promoted;
      unpacking stays inside its directory; an overlay is there as long as a leaf of the pod uses
      it, for sessions with one leaf at a time there; only a project's
      own context files are promoted, a promotion is recorded only once it is stored, and its
      lockfile does not depend on the order in which things were found.
    - The terminal client: its turns are shown, recorded and sent as they should be; one turn of a
      session runs at a time, in order, and a session left alone becomes idle; the screen tells
      which prompts wait, what is printed stays, and each turn ends once on it; a history is
      resumed exactly and survives a crash; a token goes to the control plane that issued it; the
      checks of the credential form are the control plane's, but for a reserved name; refusals are understood, the
      trust probe decides, listing and login end, the doctor leaves no session behind, and exit codes
      tell the truth.

    Some lemmas show where the code falls short of what it means to do:
    [stale_close_reruns_command], [close_strands_queue], [second_teardown_evicts_successor],
    [late_heartbeat_exceeds_cap], [session_ids_collide], [solve_keeps_lease],
    [swebench_diff_unterminated], [saturated_is_dead_lettered], [eleventh_is_not_reclaimed],
    [reaper_can_lose_the_record], [gc_race_loses_work], [reused_name_loses_work],
    [second_leaf_loses_cache], [empty_id_never_torn_down], [stale_record_stays], [equal_times_skip_a_session],
    [fractional_limit_unavailable], [create_can_leave_unlisted], [malformed_path_500],
    [unread_body_untyped], [malformed_workload_id_uncaught], [number_name_unrecorded],
    [null_turn_body], [null_item_stops], [negative_size_loops], [restored_lockfile_kept],
    [context_out_of_order], [climbing_skill_packed], [torn_header_disowns],
    [failed_append_loses_next], [delete_removes_foreign], [resend_marks_another],
    [normalise_twice_differs], [given_up_for_good]; [patch_file_removed] shows the case in which it is not.

    ** Fuel

    Recursion that is not structural has fuel computed from its input: the parser's from the
    length of the buffer (a frame consumes at least one byte), the hand-off's from the
    number of slots (each is tried once), the persistent channel's from its queue (each round
    takes one command off it), [JSON.parse]'s from the length of the text (a value
    consumes at least one character), the walk over pages from the number of sessions, the edit
    distance's from the lengths of the words, an archive reader's from the length of the archive (an entry
    consumes a block), a repetition in a regular expression from what is left of the text, the
    parts of an event stream and of an interpolated header from theirs; lemmas show that it is
    enough, and the theorems are about the result, not about a run that may have stopped short.
    Loops that the code does not bound are unrolled any number of times, and the theorems hold
    for each: the drain loop of a queue consumer, the wait for capacity of a run, the attempts of
    a client's turn; the polls of a login and the pages of a listing are, with theorems that say
    how many are enough.

    ** Not modelled

    The agent library and the language-model gateway, which the sources only call; the agent
    extensions, hooks that the library calls back; the client that reports runtime fields; the
    constructors of the stores and Vault's token source; the promotion command's printed report; the
    supervisor's admin pages.  Of the terminal client: its React views, key bindings, themes, markdown
    and diffs, argument parsing, and the names of its files.  The remote worker, which is Go, generated code, logging, metrics pages and process start-up. *)

From stdpp Require Export base tactics list strings gmap sorting.
From Stdlib Require Export ZArith Lia Ascii.
From Stdlib Require String.

#[export] Set Default Goal Selector "!".

(** ** Notation *)

Declare Scope moca_scope.
Delimit Scope moca_scope with moca.
Global Open Scope Z_scope.

Global Open Scope list_scope.
Global Open Scope stdpp_scope.

(** ** Code that throws

    A TypeScript function that can throw is a function into [result E A]; [E]
    is the type of the values it throws. *)

Inductive result (E A : Type) : Type :=
| Ok (a : A)
| Throw (e : E).
Arguments Ok {E A} a.
Arguments Throw {E A} e.

Definition result_bind {E A B} (r : result E A) (k : A → result E B) : result E B :=
  match r with
  | Ok a => k a
  | Throw e => Throw e
  end.

Notation "'try' x <- c ; k" := (result_bind c (fun x => k))
  (at level 60, x binder, c at next level, right associativity) : moca_scope.
Notation "'require' b 'else' e ; k" := (if b then k else Throw e)
  (at level 60, b at level 59, e at level 59, right associativity) : moca_scope.
Global Open Scope moca_scope.

(** ** JavaScript numbers

    Integers are exact in [Z] (every counter of the program stays far below
    [Number.MAX_SAFE_INTEGER]).  [jsnum A] adds the three values
    [Number.isFinite] rejects to the finite readings of type [A]. *)

Inductive jsnum (A : Type) : Type :=
| Fin (a : A)
| PosInf
| NegInf
| NaN.
Arguments Fin {A} a.
Arguments PosInf {A}.
Arguments NegInf {A}.
Arguments NaN {A}.

Definition isFinite {A} (x : jsnum A) : bool :=
  match x with Fin _ => true | _ => false end.

Definition finite_val {A} (x : jsnum A) : option A :=
  match x with Fin a => Some a | _ => None end.

Definition MAX_SAFE_INTEGER : Z := 9007199254740991.

(** ** Byte strings

    A Node [Buffer], and a string read with latin1, is a list of 8-bit
    characters. *)

Abbreviation bytes := (list ascii).

Definition bytes_of (s : string) : bytes := String.list_ascii_of_string s.
Definition string_of (b : bytes) : string := String.string_of_list_ascii b.

(** ** Automation *)

Create HintDb moca.

(** Case analysis on the first [match] or [if] scrutinee of the goal or of the
    hypotheses. *)
Ltac split_match :=
  match goal with
  | |- context [match ?x with _ => _ end] => destruct x eqn:?
  | H : context [match ?x with _ => _ end] |- _ => destruct x eqn:?
  end.

Ltac split_matches := repeat (split_match; simplify_eq/=).

(** Turn boolean tests on integers, booleans and [bool_decide] into propositions. *)
Ltac to_prop :=
  repeat match goal with
  | H : _ && _ = true |- _ => apply andb_prop in H as [??]
  | H : _ || _ = false |- _ => apply orb_false_iff in H as [??]
  | H : negb _ = true |- _ => apply negb_true_iff in H
  | H : negb _ = false |- _ => apply negb_false_iff in H
  | H : (_ <? _)%Z = true |- _ => apply Z.ltb_lt in H
  | H : (_ <? _)%Z = false |- _ => apply Z.ltb_ge in H
  | H : (_ <=? _)%Z = true |- _ => apply Z.leb_le in H
  | H : (_ <=? _)%Z = false |- _ => apply Z.leb_gt in H
  | H : (_ =? _)%Z = true |- _ => apply Z.eqb_eq in H
  | H : (_ =? _)%Z = false |- _ => apply Z.eqb_neq in H
  | H : bool_decide _ = true |- _ => apply bool_decide_eq_true in H
  | H : bool_decide _ = false |- _ => apply bool_decide_eq_false in H
  end.

(** ** JavaScript [Map]

    A [Map] (and an object used as one) iterates in insertion order: it is an
    association list without duplicate keys.  [set] on a present key keeps the
    key's place, [delete] drops it. *)

Section JsMap.
Context {K V : Type} `{EqDecision K}.
Implicit Types (m : list (K * V)) (k : K) (v : V).

Fixpoint map_get k m : option V :=
  match m with
  | [] => None
  | (k', v') :: m' => if decide (k = k') then Some v' else map_get k m'
  end.

Definition map_has k m : bool :=
  match map_get k m with Some _ => true | None => false end.

Fixpoint map_set k v m : list (K * V) :=
  match m with
  | [] => [(k, v)]
  | (k', v') :: m' => if decide (k = k') then (k', v) :: m' else (k', v') :: map_set k v m'
  end.

Fixpoint map_delete k m : list (K * V) :=
  match m with
  | [] => []
  | (k', v') :: m' => if decide (k = k') then map_delete k m' else (k', v') :: map_delete k m'
  end.

Lemma map_get_None k m : map_get k m = None ↔ k ∉ m.*1.
Proof.
  induction m as [|[k' v'] m IH]; simpl; [set_solver|].
  case_decide; set_solver.
Qed.

Lemma map_get_Some_elem k v m : map_get k m = Some v → (k, v) ∈ m.
Proof.
  induction m as [|[k' v'] m IH]; simpl; [done|].
  case_decide; simplify_eq; set_solver.
Qed.

Lemma map_get_elem k v m : NoDup m.*1 → (k, v) ∈ m → map_get k m = Some v.
Proof.
  induction m as [|[k' v'] m IH]; simpl; [set_solver|].
  intros [Hni Hnd]%NoDup_cons Hin. apply elem_of_cons in Hin as [Heq|Hin].
  - simplify_eq. by rewrite decide_True.
  - rewrite decide_False; [by apply IH|]. intros ->. apply Hni.
    apply list_elem_of_fmap. by exists (k', v).
Qed.

Lemma map_get_set k k' v m :
  map_get k (map_set k' v m) = if decide (k = k') then Some v else map_get k m.
Proof. induction m as [|[k1 v1] m IH]; simpl; repeat case_decide; simplify_eq/=; repeat case_decide; simplify_eq/=; done. Qed.

Lemma map_get_delete k k' m :
  map_get k (map_delete k' m) = if decide (k = k') then None else map_get k m.
Proof. induction m as [|[k1 v1] m IH]; simpl; repeat case_decide; simplify_eq/=; repeat case_decide; simplify_eq/=; done. Qed.

Lemma map_delete_not_in k m : k ∉ m.*1 → map_delete k m = m.
Proof.
  induction m as [|[k1 v1] m IH]; simpl; [done|]. intros Hni.
  rewrite decide_False by set_solver. by rewrite IH by set_solver.
Qed.

Lemma map_delete_elem k k' v m : (k', v) ∈ map_delete k m → (k', v) ∈ m ∧ k' ≠ k.
Proof. induction m as [|[k1 v1] m IH]; simpl; repeat case_decide; set_solver. Qed.

Lemma map_delete_keys k m : ∀ k', k' ∈ (map_delete k m).*1 ↔ k' ∈ m.*1 ∧ k' ≠ k.
Proof. induction m as [|[k1 v1] m IH]; simpl; repeat case_decide; set_solver. Qed.

Lemma map_delete_NoDup k m : NoDup m.*1 → NoDup (map_delete k m).*1.
Proof.
  induction m as [|[k1 v1] m IH]; simpl; [done|]. intros [Hni Hnd]%NoDup_cons.
  case_decide; simpl; [by apply IH|]. apply NoDup_cons. split; [|by apply IH].
  rewrite map_delete_keys. naive_solver.
Qed.

Lemma map_delete_app k m1 m2 : map_delete k (m1 ++ m2) = map_delete k m1 ++ map_delete k m2.
Proof. induction m1 as [|[k1 v1] m IH]; simpl; repeat case_decide; simpl; by f_equal. Qed.

Lemma length_map_delete k m : (length (map_delete k m) ≤ length m)%nat.
Proof. induction m as [|[k1 v1] m IH]; simpl; repeat case_decide; simpl; lia. Qed.

Lemma map_set_keys_in k v m : k ∈ m.*1 → (map_set k v m).*1 = m.*1.
Proof.
  induction m as [|[k1 v1] m IH]; simpl; [set_solver|].
  intros Hin. case_decide as Hk; simpl; [done|]. f_equal. apply IH. set_solver.
Qed.

Lemma map_set_fresh k v m : k ∉ m.*1 → map_set k v m = m ++ [(k, v)].
Proof.
  induction m as [|[k1 v1] m IH]; simpl; [done|]. intros Hni.
  rewrite decide_False by set_solver. f_equal. apply IH. set_solver.
Qed.

Lemma map_set_NoDup k v m : NoDup m.*1 → NoDup (map_set k v m).*1.
Proof.
  intros Hnd. destruct (decide (k ∈ m.*1)) as [Hin|Hni].
  - by rewrite map_set_keys_in.
  - rewrite map_set_fresh by done. rewrite fmap_app. apply NoDup_app. simpl.
    split_and!; [done|set_solver|apply NoDup_singleton].
Qed.
End JsMap.

(** ** Strings as JavaScript handles them *)

(** What [String.prototype.trim] strips and the class [\s] matches, among the
    8-bit characters. *)
Definition is_ws (c : ascii) : bool :=
  let n := nat_of_ascii c in
  ((9 <=? n) && (n <=? 13) || (n =? 32) || (n =? 160))%nat.

Fixpoint trim_start (s : bytes) : bytes :=
  match s with
  | c :: s' => if is_ws c then trim_start s' else s
  | [] => []
  end.

Definition trim (s : bytes) : bytes := rev (trim_start (rev (trim_start s))).

Definition trim_str (s : string) : string := string_of (trim (bytes_of s)).

(** [toLowerCase] on the 8-bit characters: A-Z, and the accented capitals
    (all of 192-222 but the multiplication sign). *)
Definition lower_char (c : ascii) : ascii :=
  let n := nat_of_ascii c in
  if ((65 <=? n) && (n <=? 90) || (192 <=? n) && (n <=? 222) && negb (n =? 215))%nat
  then ascii_of_nat (n + 32) else c.

Definition toLowerCase (s : string) : string := string_of (lower_char <$> bytes_of s).

(** The index of the first occurrence of [pat] in [s] ([indexOf]). *)
Fixpoint starts_with (pat s : bytes) : bool :=
  match pat, s with
  | [], _ => true
  | p :: pat', c :: s' => bool_decide (p = c) && starts_with pat' s'
  | _ :: _, [] => false
  end.

Fixpoint index_of (pat s : bytes) : option nat :=
  if starts_with pat s then Some O
  else match s with
       | [] => None
       | _ :: s' => S <$> index_of pat s'
       end.

Lemma starts_with_spec pat s : starts_with pat s = true ↔ pat `prefix_of` s.
Proof.
  revert s. induction pat as [|p pat IH]; intros s; simpl.
  - split; [intros _; apply prefix_nil|done].
  - destruct s as [|c s].
    + split; [done|]. intros H%prefix_nil_inv. done.
    + rewrite andb_true_iff, bool_decide_eq_true, IH. split.
      * intros [-> H]. by apply prefix_cons.
      * intros H. split; [by eapply prefix_cons_inv_1|by eapply prefix_cons_inv_2].
Qed.

Lemma starts_with_app pat s t : starts_with pat s = true → starts_with pat (s ++ t) = true.
Proof. rewrite !starts_with_spec. apply prefix_app_r. Qed.

Lemma index_of_Some pat s i :
  index_of pat s = Some i →
  (i + length pat ≤ length s)%nat ∧ starts_with pat (drop i s) = true
  ∧ ∀ j, (j < i)%nat → starts_with pat (drop j s) = false.
Proof.
  revert i. induction s as [|c s IH]; intros i; simpl.
  - destruct (starts_with pat []) eqn:E; intros ?; simplify_eq.
    apply starts_with_spec in E as E'. apply prefix_nil_inv in E'. subst.
    simpl. split_and!; [done|done|lia].
  - destruct (starts_with pat (c :: s)) eqn:E; intros H; simplify_eq.
    + split_and!; [|done|lia].
      apply starts_with_spec, prefix_length in E. simpl in E. lia.
    + destruct (index_of pat s) as [k|] eqn:Ek; simplify_eq/=.
      destruct (IH k eq_refl) as (Hlen & Hat & Hbefore).
      split_and!; [lia|done|]. intros [|j] Hj; [done|]. apply Hbefore. lia.
Qed.

Lemma index_of_None pat s :
  index_of pat s = None ↔ ∀ j, (j ≤ length s)%nat → starts_with pat (drop j s) = false.
Proof.
  induction s as [|c s IH]; simpl.
  - destruct (starts_with pat []) eqn:E; split; try done.
    + intros H. specialize (H O (le_n _)). simpl in H. congruence.
    + intros _ [|j] Hj; [done|lia].
  - destruct (starts_with pat (c :: s)) eqn:E; split; try done.
    + intros H. specialize (H O ltac:(lia)). simpl in H. congruence.
    + intros H%fmap_None [|j] Hj; [done|]. simpl. apply IH; [done|lia].
    + intros H. apply fmap_None, IH. intros j Hj. apply (H (S j)). lia.
Qed.

(** [split(sep)] on a non-empty separator: fuel bounds the number of pieces, and
    a string has at most one more piece than characters. *)
Fixpoint split_fuel (fuel : nat) (sep s : bytes) : list bytes :=
  match fuel with
  | O => [s]
  | S f => match index_of sep s with
           | None => [s]
           | Some i => take i s :: split_fuel f sep (drop (i + length sep) s)
           end
  end.

Definition split_on (sep s : bytes) : list bytes := split_fuel (length s) sep s.

(** Searching a string in pieces: only the last [length pat - 1] characters of
    what was already searched can take part in a new occurrence. *)
Definition last_n {A} (n : nat) (l : list A) : list A := drop (length l - n) l.

Definition contains (pat s : bytes) : bool :=
  match index_of pat s with Some _ => true | None => false end.

Lemma contains_true pat s : contains pat s = true ↔ ∃ j, starts_with pat (drop j s) = true.
Proof.
  unfold contains. destruct (index_of pat s) as [i|] eqn:E; split; try done.
  - intros _. exists i. by apply index_of_Some in E as (_ & ? & _).
  - intros [j Hj]. pose proof (proj1 (index_of_None pat s) E) as Hnone.
    destruct (decide (j ≤ length s)%nat) as [Hle|Hgt].
    + by rewrite Hnone in Hj.
    + rewrite drop_ge in Hj by lia. specialize (Hnone (length s) (le_n _)).
      rewrite drop_all in Hnone. congruence.
Qed.

Lemma last_n_app {A} n (s t : list A) : last_n n (last_n n s ++ t) = last_n n (s ++ t).
Proof.
  unfold last_n. rewrite !length_app, length_drop.
  destruct (decide (length s ≤ n)%nat) as [Hle|Hgt].
  - replace (length s - n)%nat with O by lia. rewrite drop_0. f_equal. lia.
  - replace (length s + length t - n)%nat
      with ((length s - n) + (n + length t - n))%nat by lia.
    rewrite <-drop_drop. rewrite (drop_app_le s t) by lia. f_equal. lia.
Qed.

Lemma contains_false pat s : contains pat s = false ↔ ∀ j, starts_with pat (drop j s) = false.
Proof.
  rewrite <-not_true_iff_false, contains_true. split.
  - intros H j. apply not_true_iff_false. eauto.
  - intros H [j Hj]. by rewrite H in Hj.
Qed.

Lemma starts_with_app_inv pat s t :
  (length pat ≤ length s)%nat → starts_with pat (s ++ t) = true → starts_with pat s = true.
Proof.
  rewrite !starts_with_spec. intros Hlen [r Hr]. exists (drop (length pat) s).
  apply (f_equal (take (length s))) in Hr.
  rewrite take_app_length, take_app_ge in Hr by lia.
  rewrite Hr. f_equal. rewrite drop_app_ge by lia.
  replace (length pat - length pat)%nat with O by lia. by rewrite drop_0.
Qed.

Lemma contains_app_last_n pat s t :
  contains pat s = false →
  contains pat (s ++ t) = contains pat (last_n (length pat - 1) s ++ t).
Proof.
  intros Hs. pose proof (proj1 (contains_false _ _) Hs) as Hno.
  apply Bool.eq_true_iff_eq. rewrite !contains_true. unfold last_n.
  set (k := (length s - (length pat - 1))%nat). split.
  - intros [j Hj]. destruct (decide (k ≤ j)%nat) as [Hk|Hk].
    + exists (j - k)%nat. rewrite <-(drop_app_le s t) by lia. rewrite drop_drop.
      by replace (k + (j - k))%nat with j by lia.
    + exfalso. specialize (Hno j). rewrite drop_app_le in Hj by lia.
      apply starts_with_app_inv in Hj; [congruence|]. rewrite length_drop. lia.
  - intros [j Hj]. exists (k + j)%nat. rewrite <-drop_drop, drop_app_le by lia. done.
Qed.

Lemma index_of_app pat s t i : index_of pat s = Some i → index_of pat (s ++ t) = Some i.
Proof.
  revert i. induction s as [|c s IH]; intros i.
  - simpl. destruct (starts_with pat []) eqn:E; [|done]. intros [= <-].
    apply (starts_with_app _ _ t) in E. simpl in E. destruct t; simpl; by rewrite E.
  - cbn [index_of app]. destruct (starts_with pat (c :: s)) eqn:E.
    + intros [= <-]. apply (starts_with_app _ _ t) in E. simpl app in E. by rewrite E.
    + destruct (index_of pat s) as [k|] eqn:Ek; [|done]. intros [= <-].
      destruct (starts_with pat (c :: s ++ t)) eqn:E2.
      * apply index_of_Some in Ek as (Hlen & _ & _).
        apply (starts_with_app_inv pat (c :: s) t) in E2; [congruence|simpl; lia].
      * by rewrite (IH k).
Qed.

Lemma index_of_skip pat k s :
  (k ≤ length s)%nat → (∀ j, (j < k)%nat → starts_with pat (drop j s) = false) →
  index_of pat s = Nat.add k <$> index_of pat (drop k s).
Proof.
  revert s. induction k as [|k IH]; intros s Hlen Hno.
  - rewrite drop_0. by destruct (index_of pat s).
  - destruct s as [|c s]; simpl in Hlen; [lia|]. cbn [index_of drop].
    rewrite (Hno O ltac:(lia) : starts_with pat (c :: s) = false).
    rewrite IH; [|lia|intros j Hj; apply (Hno (S j)); lia].
    by destruct (index_of pat (drop k s)).
Qed.

(** No occurrence of [c :: pat] starts inside a piece without [c]. *)
Lemma starts_with_drop_head c pat l r j :
  c ∉ l → (j < length l)%nat → starts_with (c :: pat) (drop j (l ++ r)) = false.
Proof.
  intros Hni Hj. rewrite drop_app_le by lia.
  destruct (drop j l) as [|x d] eqn:E.
  - apply (f_equal length) in E. rewrite length_drop in E. simpl in E. lia.
  - simpl. rewrite bool_decide_eq_false_2; [done|]. intros ->. apply Hni.
    rewrite <-(take_drop j l), E. set_solver.
Qed.

Lemma index_of_after c pat l r :
  c ∉ l → starts_with (c :: pat) r = true → index_of (c :: pat) (l ++ r) = Some (length l).
Proof.
  intros Hni Hr. rewrite (index_of_skip _ (length l)).
  - rewrite drop_app_length. destruct r; cbn [index_of]; rewrite Hr; simpl; f_equal; lia.
  - rewrite length_app. lia.
  - intros j Hj. by apply starts_with_drop_head.
Qed.

(** ** Splitting at a character *)

Fixpoint split_char (c : ascii) (s : bytes) : list bytes :=
  match s with
  | [] => [[]]
  | x :: s' =>
      if bool_decide (x = c) then [] :: split_char c s'
      else match split_char c s' with
           | piece :: rest => (x :: piece) :: rest
           | [] => [[x]]
           end
  end.

Fixpoint join_char (c : ascii) (l : list bytes) : bytes :=
  match l with
  | [] => []
  | [x] => x
  | x :: l' => x ++ c :: join_char c l'
  end.

Lemma split_char_cons c s : ∃ piece rest, split_char c s = piece :: rest.
Proof. induction s as [|x s (p & r & E)]; simpl; [eauto|]. rewrite E. case_bool_decide; eauto. Qed.

Lemma split_char_app c a s : c ∉ a → split_char c (a ++ c :: s) = a :: split_char c s.
Proof.
  induction a as [|x a IH]; intros Hni; simpl.
  - by rewrite bool_decide_eq_true_2.
  - rewrite bool_decide_eq_false_2 by set_solver. by rewrite IH by set_solver.
Qed.

Lemma split_char_none c a : c ∉ a → split_char c a = [a].
Proof.
  induction a as [|x a IH]; intros Hni; simpl; [done|].
  rewrite bool_decide_eq_false_2 by set_solver. by rewrite IH by set_solver.
Qed.

Lemma join_split c s : join_char c (split_char c s) = s.
Proof.
  induction s as [|x s IH]; [done|]. simpl. destruct (split_char_cons c s) as (p & r & E). rewrite E in *.
  case_bool_decide; subst; [done|]. by destruct r.
Qed.

Lemma split_char_pieces c s : Forall (fun p => c ∉ p) (split_char c s).
Proof.
  induction s as [|x s IH]; simpl; [constructor; [set_solver|done]|].
  destruct (split_char_cons c s) as (p & r & E). rewrite E in *. apply Forall_cons in IH as [Hp Hr].
  case_bool_decide; constructor; [set_solver|by constructor|set_solver|done].
Qed.

(** [split] at a one-character separator is that. *)
Lemma index_of_char c s : index_of [c] s = match split_char c s with
                                           | p :: _ :: _ => Some (length p) | _ => None end.
Proof.
  induction s as [|x s IH]; [done|]. cbn [index_of split_char starts_with]. rewrite andb_true_r.
  case_bool_decide as E; subst.
  - rewrite bool_decide_eq_true_2 by done. by destruct (split_char_cons x s) as (p & r & ->).
  - rewrite bool_decide_eq_false_2 by congruence. rewrite IH.
    by destruct (split_char_cons c s) as (p & [|] & ->).
Qed.

Lemma split_fuel_char c f s : (length s ≤ f)%nat → split_fuel f [c] s = split_char c s.
Proof.
  revert s. induction f as [|f IH]; intros s Hf.
  - destruct s; simpl in Hf; [done|lia].
  - cbn [split_fuel]. rewrite index_of_char. pose proof (join_split c s) as Hj.
    pose proof (split_char_pieces c s) as Hp.
    destruct (split_char_cons c s) as (p & [|p2 r] & E); rewrite E in *; [by simpl in Hj; subst|].
    change (join_char c (p :: p2 :: r)) with (p ++ c :: join_char c (p2 :: r)) in Hj.
    rewrite <-Hj, take_app_length. f_equal. cbn [length].
    replace (drop (length p + 1) (p ++ c :: join_char c (p2 :: r))) with (join_char c (p2 :: r)).
    2:{ rewrite drop_app_ge by lia. by replace (length p + 1 - length p)%nat with 1%nat by lia. }
    rewrite IH.
    + rewrite <-Hj, split_char_app in E by (by apply Forall_cons in Hp as [? _]). by injection E.
    + apply (f_equal length) in Hj. rewrite length_app in Hj. simpl in Hj, Hf |- *. lia.
Qed.

Lemma split_on_char c s : split_on [c] s = split_char c s.
Proof. by apply split_fuel_char. Qed.

(** ** Lists and strings *)

Lemma filter_all_true {A} (f : A → bool) (l : list A) : (∀ x, x ∈ l → f x = true) → filter f l = l.
Proof.
  induction l as [|x l IH]; intros H; [done|]. rewrite filter_cons_True by (rewrite H; set_solver).
  f_equal. apply IH. set_solver.
Qed.

Lemma filter_all_false {A} (f : A → bool) (l : list A) : (∀ x, x ∈ l → f x = false) → filter f l = [].
Proof.
  induction l as [|x l IH]; intros H; [done|]. rewrite filter_cons_False by (rewrite H; set_solver).
  apply IH. set_solver.
Qed.

Lemma StronglySorted_filter {A} (R : relation A) (f : A → bool) (l : list A) :
  StronglySorted R l → StronglySorted R (filter f l).
Proof.
  induction 1 as [|x l _ IH Hx]; [constructor|]. rewrite filter_cons. case_decide; [|done].
  constructor; [done|]. rewrite Forall_forall in Hx |- *. intros y Hy%list_elem_of_filter. naive_solver.
Qed.

Lemma Forall_checked {A} (f : A → bool) (P : A → Prop) (l : list A) :
  forallb f l = true → Forall (fun x => f x = true → P x) l → Forall P l.
Proof.
  rewrite List.forallb_forall, !Forall_forall. intros Hf HP x Hx. apply HP; [done|].
  by apply Hf, list_elem_of_In.
Qed.

Lemma bytes_string l : bytes_of (string_of l) = l.
Proof. apply String.list_ascii_of_string_of_list_ascii. Qed.

Lemma string_of_bytes s : string_of (bytes_of s) = s.
Proof. apply String.string_of_list_ascii_of_string. Qed.

Lemma bytes_of_app s t : bytes_of (s +:+ t) = bytes_of s ++ bytes_of t.
Proof. unfold bytes_of. induction s as [|c s IH]; simpl; [done|by rewrite IH]. Qed.

Lemma append_inj_r (a b c : string) : a +:+ c = b +:+ c → a = b.
Proof.
  intros Hc%(f_equal bytes_of). rewrite !bytes_of_app in Hc. apply app_inv_tail in Hc.
  by rewrite <-(string_of_bytes a), Hc, string_of_bytes.
Qed.
