(* ===== verification/Base64.v ===== *)
(** * Base64 (RFC 4648)

    The encoding Node's [Buffer.toString('base64')] and the [base64] command
    emit, without the line breaks of the latter, and a decoder for it.  Both the
    supervisor (hand-off message) and the persistent exec channel (frames) put
    bytes on a text channel this way. *)

From Stdlib Require Import ZifyNat.
From S2P Require Import Prelude.

Definition alphabet : bytes :=
  bytes_of "ABCDEFGHIJKLMNOPQRSTUVWXYZabcdefghijklmnopqrstuvwxyz0123456789+/".

Definition PAD : ascii := "="%char.

Definition digit (n : nat) : ascii := nth n alphabet PAD.

Fixpoint position (c : ascii) (l : bytes) : option nat :=
  match l with
  | [] => None
  | x :: l' => if decide (c = x) then Some O else S <$> position c l'
  end.

Definition undigit (c : ascii) : option nat := position c alphabet.

Local Open Scope nat_scope.

Fixpoint b64_encode (l : bytes) : bytes :=
  match l with
  | [] => []
  | [x] =>
      let a := nat_of_ascii x in
      [digit (a / 4); digit (a mod 4 * 16); PAD; PAD]
  | [x; y] =>
      let a := nat_of_ascii x in let b := nat_of_ascii y in
      [digit (a / 4); digit (a mod 4 * 16 + b / 16); digit (b mod 16 * 4); PAD]
  | x :: y :: z :: r =>
      let a := nat_of_ascii x in let b := nat_of_ascii y in let c := nat_of_ascii z in
      digit (a / 4) :: digit (a mod 4 * 16 + b / 16)
        :: digit (b mod 16 * 4 + c / 64) :: digit (c mod 64) :: b64_encode r
  end.

(** Decodes groups of four; anything after a padded or malformed group is dropped. *)
Fixpoint b64_decode (l : bytes) : bytes :=
  match l with
  | c1 :: c2 :: c3 :: c4 :: r =>
      match undigit c1, undigit c2, undigit c3, undigit c4 with
      | Some d1, Some d2, Some d3, Some d4 =>
          ascii_of_nat (d1 * 4 + d2 / 16) :: ascii_of_nat (d2 mod 16 * 16 + d3 / 4)
            :: ascii_of_nat (d3 mod 4 * 64 + d4) :: b64_decode r
      | Some d1, Some d2, Some d3, None =>
          [ascii_of_nat (d1 * 4 + d2 / 16); ascii_of_nat (d2 mod 16 * 16 + d3 / 4)]
      | Some d1, Some d2, None, None => [ascii_of_nat (d1 * 4 + d2 / 16)]
      | _, _, _, _ => []
      end
  | _ => []
  end.

Lemma undigit_digit n : n < 64 → undigit (digit n) = Some n.
Proof.
  intros Hn. do 64 (destruct n as [|n]; [vm_compute; reflexivity|]). lia.
Qed.

Lemma undigit_PAD : undigit PAD = None.
Proof. reflexivity. Qed.

Lemma digit_not_PAD n : n < 64 → digit n ≠ PAD.
Proof. intros Hn Heq. apply undigit_digit in Hn. by rewrite Heq in Hn. Qed.

Lemma byte_bound c : nat_of_ascii c < 256.
Proof. apply nat_ascii_bounded. Qed.


Lemma group1 a b : a < 256 → b < 256 →
  (a / 4) * 4 + (a mod 4 * 16 + b / 16) / 16 = a.
Proof. lia. Qed.

Lemma group2 a b c : a < 256 → b < 256 → c < 256 →
  (a mod 4 * 16 + b / 16) mod 16 * 16 + (b mod 16 * 4 + c / 64) / 4 = b.
Proof. lia. Qed.

Lemma group3 b c : b < 256 → c < 256 →
  (b mod 16 * 4 + c / 64) mod 4 * 64 + c mod 64 = c.
Proof. lia. Qed.

Lemma digits_bound a b c : a < 256 → b < 256 → c < 256 →
  a / 4 < 64 ∧ a mod 4 * 16 + b / 16 < 64 ∧ b mod 16 * 4 + c / 64 < 64 ∧ c mod 64 < 64.
Proof. lia. Qed.

(** Three-byte groups: the induction the encoder follows. *)
Lemma bytes_ind3 (P : bytes → Prop) :
  P [] → (∀ x, P [x]) → (∀ x y, P [x; y]) → (∀ x y z r, P r → P (x :: y :: z :: r)) → ∀ l, P l.
Proof.
  intros H0 H1 H2 H3 l. induction l as [l IH] using (induction_ltof1 _ (@length _)).
  unfold ltof in IH. destruct l as [|x [|y [|z r]]]; auto.
  apply H3, IH. simpl. lia.
Qed.

(** Decoding inverts encoding, byte for byte. *)
Lemma b64_roundtrip l : b64_decode (b64_encode l) = l.
Proof.
  induction l as [|x|x y|x y z r IH] using bytes_ind3; [done| | |].
  - pose proof (byte_bound x).
    destruct (digits_bound (nat_of_ascii x) 0 0) as (? & H2 & _); [lia..|].
    cbn [b64_encode b64_decode]. rewrite !undigit_digit, undigit_PAD by lia.
    pose proof (group1 (nat_of_ascii x) 0) as Hg. rewrite Nat.add_0_r in Hg.
    rewrite Hg by lia. by rewrite ascii_nat_embedding.
  - pose proof (byte_bound x). pose proof (byte_bound y).
    destruct (digits_bound (nat_of_ascii x) (nat_of_ascii y) 0) as (? & ? & H3 & _); [lia..|].
    cbn [b64_encode b64_decode]. rewrite !undigit_digit, undigit_PAD by lia.
    pose proof (group2 (nat_of_ascii x) (nat_of_ascii y) 0) as Hg.
    rewrite Nat.add_0_r in Hg. rewrite group1, Hg by lia. by rewrite !ascii_nat_embedding.
  - pose proof (byte_bound x). pose proof (byte_bound y). pose proof (byte_bound z).
    destruct (digits_bound (nat_of_ascii x) (nat_of_ascii y) (nat_of_ascii z)) as (?&?&?&?);
      [lia..|].
    cbn [b64_encode b64_decode]. rewrite !undigit_digit by done.
    rewrite group1, group2, group3, IH by done. by rewrite !ascii_nat_embedding.
Qed.

(** The characters base64 text is made of. *)
Definition b64_char (c : ascii) : Prop := c ∈ PAD :: alphabet.

Lemma digit_b64_char n : b64_char (digit n).
Proof.
  unfold b64_char, digit. destruct (nth_in_or_default n alphabet PAD) as [H| ->].
  - apply elem_of_cons. right. by apply list_elem_of_In.
  - set_solver.
Qed.

Lemma b64_encode_chars l : Forall b64_char (b64_encode l).
Proof.
  assert (b64_char PAD) by (unfold b64_char; set_solver).
  induction l as [|x|x y|x y z r IH] using bytes_ind3; cbn [b64_encode];
    repeat (constructor; [by auto using digit_b64_char|]); auto.
Qed.

(** ** base64url

    [Buffer.toString('base64url')]: the URL-safe alphabet, without padding.  The decoder of
    [Buffer.from(s, 'base64url')] takes the digits of either alphabet, ignores everything
    else and drops an incomplete last digit. *)

Definition url_digit (n : nat) : ascii :=
  if n =? 62 then "-"%char else if n =? 63 then "_"%char else digit n.

Definition url_undigit (c : ascii) : option nat :=
  if decide (c = "-"%char) then Some 62 else if decide (c = "_"%char) then Some 63 else undigit c.

(** The 6-bit groups of a byte string. *)
Fixpoint sextets (l : bytes) : list nat :=
  match l with
  | [] => []
  | [x] => let a := nat_of_ascii x in [a / 4; a mod 4 * 16]
  | [x; y] =>
      let a := nat_of_ascii x in let b := nat_of_ascii y in [a / 4; a mod 4 * 16 + b / 16; b mod 16 * 4]
  | x :: y :: z :: r =>
      let a := nat_of_ascii x in let b := nat_of_ascii y in let c := nat_of_ascii z in
      a / 4 :: a mod 4 * 16 + b / 16 :: b mod 16 * 4 + c / 64 :: c mod 64 :: sextets r
  end.

Fixpoint unsextets (l : list nat) : bytes :=
  match l with
  | d1 :: d2 :: d3 :: d4 :: r =>
      ascii_of_nat (d1 * 4 + d2 / 16) :: ascii_of_nat (d2 mod 16 * 16 + d3 / 4)
        :: ascii_of_nat (d3 mod 4 * 64 + d4) :: unsextets r
  | [d1; d2; d3] => [ascii_of_nat (d1 * 4 + d2 / 16); ascii_of_nat (d2 mod 16 * 16 + d3 / 4)]
  | [d1; d2] => [ascii_of_nat (d1 * 4 + d2 / 16)]
  | _ => []
  end.

Definition b64url_encode (l : bytes) : bytes := url_digit <$> sextets l.

Definition b64url_decode (s : bytes) : bytes := unsextets (omap url_undigit s).

Lemma url_undigit_digit n : n < 64 → url_undigit (url_digit n) = Some n.
Proof. intros Hn. do 64 (destruct n as [|n]; [vm_compute; reflexivity|]). lia. Qed.

Lemma sextets_bound l : Forall (fun n => n < 64) (sextets l).
Proof.
  induction l as [|x|x y|x y z r IH] using bytes_ind3; cbn [sextets]; [done| | |];
    try pose proof (byte_bound x); try pose proof (byte_bound y); try pose proof (byte_bound z);
    repeat (constructor; [lia|]); done.
Qed.

Lemma unsextets_sextets l : unsextets (sextets l) = l.
Proof.
  induction l as [|x|x y|x y z r IH] using bytes_ind3; [done| | |].
  - pose proof (byte_bound x). cbn [sextets unsextets].
    pose proof (group1 (nat_of_ascii x) 0) as Hg. rewrite Nat.add_0_r in Hg.
    rewrite Hg by lia. by rewrite ascii_nat_embedding.
  - pose proof (byte_bound x). pose proof (byte_bound y). cbn [sextets unsextets].
    pose proof (group2 (nat_of_ascii x) (nat_of_ascii y) 0) as Hg.
    rewrite Nat.add_0_r in Hg. rewrite group1, Hg by lia. by rewrite !ascii_nat_embedding.
  - pose proof (byte_bound x). pose proof (byte_bound y). pose proof (byte_bound z).
    cbn [sextets unsextets]. rewrite group1, group2, group3, IH by done. by rewrite !ascii_nat_embedding.
Qed.

Lemma b64url_roundtrip l : b64url_decode (b64url_encode l) = l.
Proof.
  unfold b64url_decode, b64url_encode. rewrite <-(unsextets_sextets l) at 2. f_equal.
  induction (sextets_bound l) as [|n ds Hn _ IH]; [done|]. simpl.
  rewrite url_undigit_digit by done. f_equal. exact IH.
Qed.

(** No separator of a token or sealed value is among its characters. *)
Lemma b64url_no_dot l : "."%char ∉ b64url_encode l.
Proof.
  unfold b64url_encode. intros (n & Hn & Hin)%list_elem_of_fmap.
  pose proof (sextets_bound l) as Hb. rewrite Forall_forall in Hb. specialize (Hb n Hin).
  apply url_undigit_digit in Hb. by rewrite <-Hn in Hb.
Qed.

Lemma b64url_nonempty l : l ≠ [] → b64url_encode l ≠ [].
Proof. by destruct l as [|x [|y [|z r]]]. Qed.
