(* ===== verification/JsNumber.v ===== *)
(** * JavaScript numbers from strings

    [Number(string)] as ECMAScript defines it (StringToNumber): white space is
    trimmed, the empty string is 0, hexadecimal, octal and binary literals have no
    sign, a decimal literal has an optional fraction and exponent, and the
    mathematical value is rounded to the nearest double, ties to even.  The
    configuration readers of the supervisor and of the workers go through it. *)

From Stdlib Require Import QArith.
From S2P Require Import Prelude.

Local Open Scope Z_scope.

(** ** Digits *)

Definition digit_val (base : Z) (c : ascii) : option Z :=
  let n := Z.of_nat (nat_of_ascii c) in
  let v := if (48 <=? n) && (n <=? 57) then n - 48
           else if (97 <=? n) && (n <=? 122) then n - 87
           else if (65 <=? n) && (n <=? 90) then n - 55
           else 36 in
  if v <? base then Some v else None.

Definition is_digit (c : ascii) : bool := bool_decide (is_Some (digit_val 10 c)).

(** The longest prefix of decimal digits, and the rest. *)
Fixpoint span_digits (s : bytes) : bytes * bytes :=
  match s with
  | c :: s' => if is_digit c then let '(ds, r) := span_digits s' in (c :: ds, r) else ([], s)
  | [] => ([], [])
  end.

(** The value of a string of digits, if all are digits of the base. *)
Fixpoint digits_value (base acc : Z) (s : bytes) : option Z :=
  match s with
  | [] => Some acc
  | c :: s' => match digit_val base c with
               | Some v => digits_value base (acc * base + v) s'
               | None => None
               end
  end.

(** ** Rounding to a double *)

(** [n / d] to the nearest integer, ties to even; [0 <= n], [0 < d]. *)
Definition round_half_even (n d : Z) : Z :=
  let f := n / d in
  let r := n mod d in
  if 2 * r <? d then f else if d <? 2 * r then f + 1 else if Z.even f then f else f + 1.

Definition log2_floor (n d : Z) : Z :=
  let e := Z.log2 n - Z.log2 d in
  let below := if 0 <=? e then n <? d * 2 ^ e else n * 2 ^ (- e) <? d in
  if below then e - 1 else e.

Definition toDouble (q : Q) : jsnum Q :=
  let n := Z.abs (Qnum q) in
  let d := Zpos (Qden q) in
  if n =? 0 then Fin 0%Q
  else
    let p := Z.max (log2_floor n d - 52) (-1074) in
    let m := if 0 <=? p then round_half_even n (d * 2 ^ p) else round_half_even (n * 2 ^ (- p)) d in
    let s := Z.sgn (Qnum q) in
    if 0 <=? p then
      if 2 ^ 1024 <=? m * 2 ^ p then (if 0 <? s then PosInf else NegInf)
      else Fin (inject_Z (s * m * 2 ^ p))
    else Fin (s * m # Z.to_pos (2 ^ (- p))).

(** ** [Number(string)] *)

Definition radix_of (c : ascii) : option Z :=
  if bool_decide (c = "x"%char ∨ c = "X"%char) then Some 16
  else if bool_decide (c = "o"%char ∨ c = "O"%char) then Some 8
  else if bool_decide (c = "b"%char ∨ c = "B"%char) then Some 2
  else None.

Definition neg_num (x : jsnum Q) : jsnum Q :=
  match x with Fin q => Fin (- q)%Q | PosInf => NegInf | NegInf => PosInf | NaN => NaN end.

Definition pow10_scale (n e : Z) : Q :=
  if 0 <=? e then inject_Z (n * 10 ^ e) else n # Z.to_pos (10 ^ (- e)).

(** The exponent part, after the digits. *)
Definition parse_exponent (s : bytes) : option Z :=
  match s with
  | [] => Some 0
  | c :: r =>
      if bool_decide (c = "e"%char ∨ c = "E"%char) then
        match r with
        | [] => None
        | "+"%char :: [] => None
        | "-"%char :: [] => None
        | "+"%char :: ds => digits_value 10 0 ds
        | "-"%char :: ds => Z.opp <$> digits_value 10 0 ds
        | ds => digits_value 10 0 ds
        end
      else None
  end.

Definition parse_unsigned (s : bytes) : jsnum Q :=
  if bool_decide (s = bytes_of "Infinity") then PosInf
  else
    let '(ip, r1) := span_digits s in
    let '(fp, r2) := match r1 with "."%char :: r => span_digits r | _ => ([], r1) end in
    match ip ++ fp with
    | [] => NaN
    | _ =>
        match digits_value 10 0 (ip ++ fp), parse_exponent r2 with
        | Some n, Some e => toDouble (pow10_scale n (e - Z.of_nat (length fp)))
        | _, _ => NaN
        end
    end.

(** A literal with a radix prefix: the radix and the digits after it. *)
Definition radix_literal (s : bytes) : option (Z * bytes) :=
  match s with
  | "0"%char :: r :: d :: ds => (fun base => (base, d :: ds)) <$> radix_of r
  | _ => None
  end.

Definition Number (str : bytes) : jsnum Q :=
  let s := trim str in
  match radix_literal s with
  | Some (base, ds) =>
      match digits_value base 0 ds with
      | Some n => toDouble (inject_Z n)
      | None => NaN
      end
  | None =>
      match s with
      | [] => Fin 0%Q
      | "+"%char :: s' => parse_unsigned s'
      | "-"%char :: s' => neg_num (parse_unsigned s')
      | _ => parse_unsigned s
      end
  end.

(** [Number.isInteger(x)], with the integer. *)
Definition integer_val (x : jsnum Q) : option Z :=
  match x with
  | Fin q => if Qnum q mod Zpos (Qden q) =? 0 then Some (Qnum q / Zpos (Qden q)) else None
  | _ => None
  end.

(** [parseInt(s, 10)]: after white space and a sign, the longest prefix of digits. *)
Definition parseInt (str : bytes) : jsnum Q :=
  let digits s := match (span_digits s).1 with
                  | [] => NaN
                  | ds => match digits_value 10 0 ds with Some n => toDouble (inject_Z n) | None => NaN end
                  end in
  match trim_start str with
  | "+"%char :: s => digits s
  | "-"%char :: s => neg_num (digits s)
  | s => digits s
  end.

(** [Number.isFinite(n) && n >= 0 ? n : def] of an integer setting that is present. *)
Definition nonneg_or (def : Z) (x : jsnum Q) : Z :=
  match x with
  | Fin q => if Qle_bool 0 q then Qnum q / Zpos (Qden q) else def
  | _ => def
  end.

(** ** Printing an integer *)

Definition digit_char (v : Z) : ascii := ascii_of_nat (Z.to_nat (v + 48)).

Fixpoint dec_fuel (fuel : nat) (n : Z) : bytes :=
  match fuel with
  | O => []
  | S f => if n <? 10 then [digit_char n] else dec_fuel f (n / 10) ++ [digit_char (n mod 10)]
  end.

(** Decimal digits of a non-negative integer; [log2 n + 1] digits are enough. *)
Definition dec (n : Z) : bytes := dec_fuel (S (Z.to_nat (Z.log2 n))) n.

(** [String(n)] of an integer below [2^53] in magnitude. *)
Definition dec_signed (n : Z) : bytes := if n <? 0 then "-"%char :: dec (- n) else dec n.

(** ** Lemmas *)

Lemma nonneg_or_nonneg def x : 0 ≤ def → 0 ≤ nonneg_or def x.
Proof.
  intros Hd. destruct x as [q| | |]; simpl; try done. destruct (Qle_bool 0 q) eqn:E; [|done].
  apply Qle_bool_iff in E. unfold Qle in E. simpl in E. apply Z.div_pos; lia.
Qed.

Lemma digits_value_app base acc a b :
  digits_value base acc (a ++ b) = digits_value base acc a ≫= fun v => digits_value base v b.
Proof.
  revert acc. induction a as [|c a IH]; intros acc; [done|]. simpl.
  destruct (digit_val base c); [apply IH|done].
Qed.

(** A property of the ten digits, checked on each. *)
Lemma digit_cases (P : Z → Prop) v :
  0 ≤ v < 10 → P 0 → P 1 → P 2 → P 3 → P 4 → P 5 → P 6 → P 7 → P 8 → P 9 → P v.
Proof.
  intros Hv. assert (v = 0 ∨ v = 1 ∨ v = 2 ∨ v = 3 ∨ v = 4 ∨ v = 5 ∨ v = 6 ∨ v = 7 ∨ v = 8 ∨ v = 9)
    as H by lia. intros. naive_solver.
Qed.

Definition plain_digit (c : ascii) : Prop :=
  is_digit c = true ∧ is_ws c = false ∧ radix_of c = None
  ∧ c ≠ "+"%char ∧ c ≠ "-"%char ∧ c ≠ "I"%char ∧ c ≠ "010"%char.

Lemma digit_char_val v : 0 ≤ v < 10 → digit_val 10 (digit_char v) = Some v.
Proof. intros Hv. by apply (digit_cases (fun v => digit_val 10 (digit_char v) = Some v)). Qed.

Lemma digit_char_plain v : 0 ≤ v < 10 → plain_digit (digit_char v).
Proof. intros Hv. by apply (digit_cases (fun v => plain_digit (digit_char v))). Qed.

Lemma dec_fuel_value f n : 0 ≤ n < 10 ^ Z.of_nat f → digits_value 10 0 (dec_fuel f n) = Some n.
Proof.
  revert n. induction f as [|f IH]; intros n Hn; [assert (n = 0) as -> by (simpl in Hn; lia); done|].
  cbn [dec_fuel]. destruct (Z.ltb_spec n 10).
  - cbn [digits_value]. by rewrite digit_char_val by lia.
  - rewrite Nat2Z.inj_succ, Z.pow_succ_r in Hn by lia.
    rewrite digits_value_app, IH by (split; [apply Z.div_pos; lia|apply Z.div_lt_upper_bound; lia]).
    simpl. rewrite digit_char_val by (apply Z.mod_pos_bound; lia). f_equal.
    pose proof (Z.div_mod n 10). lia.
Qed.

Lemma dec_fuel_plain f n : 0 ≤ n → Forall plain_digit (dec_fuel f n).
Proof.
  revert n. induction f as [|f IH]; intros n Hn; [constructor|]. cbn [dec_fuel].
  destruct (Z.ltb_spec n 10).
  - apply Forall_singleton, digit_char_plain. lia.
  - apply Forall_app. split; [apply IH, Z.div_pos; lia|].
    apply Forall_singleton, digit_char_plain, Z.mod_pos_bound. lia.
Qed.

Lemma dec_nonempty n : dec n ≠ [].
Proof. unfold dec. cbn [dec_fuel]. destruct (n <? 10); [done|]. by intros [_ ?]%app_eq_nil. Qed.

Lemma dec_plain n : 0 ≤ n → Forall plain_digit (dec n).
Proof. apply dec_fuel_plain. Qed.

Lemma dec_value n : 0 ≤ n → digits_value 10 0 (dec n) = Some n.
Proof.
  intros Hn. apply dec_fuel_value. split; [done|].
  rewrite Nat2Z.inj_succ, Z2Nat.id by apply Z.log2_nonneg.
  destruct (decide (n = 0)) as [->|]; [done|].
  apply (Z.lt_le_trans _ (2 ^ Z.succ (Z.log2 n))); [apply Z.log2_spec; lia|].
  apply Z.pow_le_mono_l. pose proof (Z.log2_nonneg n). lia.
Qed.

Lemma dec_inj n m : 0 ≤ n → 0 ≤ m → dec n = dec m → n = m.
Proof. intros Hn Hm H. apply dec_value in Hn, Hm. rewrite H in Hn. congruence. Qed.

Lemma span_digits_all s : Forall plain_digit s → span_digits s = (s, []).
Proof. induction 1 as [|c s (Hd & _) _ IH]; [done|]. simpl. by rewrite Hd, IH. Qed.

Lemma trim_start_no_ws s : Forall (fun c => is_ws c = false) s → trim_start s = s.
Proof. destruct 1 as [|c s Hc _]; [done|]. simpl. by rewrite Hc. Qed.

Lemma trim_no_ws s : Forall (fun c => is_ws c = false) s → trim s = s.
Proof.
  intros H. unfold trim. rewrite (trim_start_no_ws s), trim_start_no_ws, rev_involutive; [done| |done].
  by apply Forall_rev.
Qed.

Lemma plain_no_ws s : Forall plain_digit s → Forall (fun c => is_ws c = false) s.
Proof. intros H. eapply Forall_impl; [exact H|]. by intros c (_ & ? & _). Qed.

Lemma round_half_even_1 x : round_half_even x 1 = x.
Proof.
  unfold round_half_even. rewrite Z.div_1_r, Z.mod_1_r. done.
Qed.

Lemma toDouble_safe n : Z.abs n ≤ MAX_SAFE_INTEGER → integer_val (toDouble (inject_Z n)) = Some n.
Proof.
  intros Hn. unfold toDouble. cbn [inject_Z Qnum Qden].
  destruct (Z.eqb_spec (Z.abs n) 0) as [H0|H0]; [by assert (n = 0) as -> by lia|].
  assert (Hsn : Z.sgn n * Z.abs n = n) by (rewrite Z.mul_comm; apply Z.abs_sgn). set (a := Z.abs n) in *.
  assert (Ha : 0 < a) by lia. pose proof (Z.log2_spec a Ha) as [Hl Hu].
  assert (Hlog : log2_floor a 1 = Z.log2 a).
  { unfold log2_floor. change (Z.log2 1) with 0. rewrite Z.sub_0_r.
    rewrite (proj2 (Z.leb_le _ _)) by apply Z.log2_nonneg. rewrite Z.mul_1_l.
    by rewrite (proj2 (Z.ltb_ge _ _)). }
  rewrite Hlog.
  assert (Hb : 0 ≤ Z.log2 a ≤ 52).
  { split; [apply Z.log2_nonneg|]. apply Z.lt_succ_r.
    apply Z.log2_lt_pow2; [done|]. unfold MAX_SAFE_INTEGER in Hn. simpl. lia. }
  rewrite Z.max_l by lia. destruct (Z.leb_spec 0 (Z.log2 a - 52)) as [Hp|Hp].
  - replace (Z.log2 a - 52) with 0 by lia. rewrite Z.mul_1_l, Z.pow_0_r, round_half_even_1, Z.mul_1_r.
    rewrite (proj2 (Z.leb_gt _ _)).
    + unfold integer_val, inject_Z. cbn [Qnum Qden]. rewrite Z.mul_1_r, Z.mod_1_r, Z.div_1_r, Hsn. done.
    + unfold MAX_SAFE_INTEGER in Hn. apply (Z.lt_trans _ (2 ^ 53)); [simpl; lia|by apply Z.pow_lt_mono_r].
  - rewrite round_half_even_1. unfold integer_val. cbn [Qnum Qden].
    assert (Hpow : 0 < 2 ^ (- (Z.log2 a - 52))) by (apply Z.pow_pos_nonneg; lia).
    rewrite Z2Pos.id by done. rewrite Z.mul_assoc, Hsn.
    rewrite Z.mod_mul, Z.div_mul by lia. done.
Qed.

Lemma integer_val_neg x : integer_val (neg_num x) = Z.opp <$> integer_val x.
Proof.
  destruct x as [q| | |]; try done. destruct q as [a d]. cbn.
  destruct (Z.eqb_spec (a mod Zpos d) 0) as [H|H].
  - rewrite (proj2 (Z.eqb_eq _ _)) by (by apply Z_mod_zero_opp_full). simpl.
    by rewrite Z_div_zero_opp_full.
  - rewrite (proj2 (Z.eqb_neq _ _)); [done|]. intros H'. apply H.
    rewrite <-(Z.opp_involutive a). by apply Z_mod_zero_opp_full.
Qed.

Lemma parse_unsigned_dec n :
  0 ≤ n ≤ MAX_SAFE_INTEGER → integer_val (parse_unsigned (dec n)) = Some n.
Proof.
  intros Hn. pose proof (dec_plain n ltac:(lia)) as Hp. pose proof (dec_nonempty n) as Hne.
  unfold parse_unsigned. rewrite bool_decide_eq_false_2.
  - rewrite span_digits_all by done. rewrite app_nil_r, dec_value by lia.
    destruct (dec n) eqn:E; [done|]. cbn [parse_exponent length].
    change (0 - Z.of_nat 0) with 0. unfold pow10_scale. simpl (0 <=? 0).
    rewrite Z.pow_0_r, Z.mul_1_r. apply toDouble_safe. lia.
  - intros E. rewrite E in Hp. apply Forall_inv in Hp. by destruct Hp as (_ & _ & _ & _ & _ & Hp & _).
Qed.

Lemma radix_literal_plain s : Forall plain_digit s → radix_literal s = None.
Proof.
  intros H. destruct s as [|c0 [|c1 [|c2 s]]]; try done; try (by destruct c0 as [[] [] [] [] [] [] [] []]).
  apply Forall_cons in H as [_ [(_ & _ & Hr & _) _]%Forall_cons].
  assert (radix_literal (c0 :: c1 :: c2 :: s) = None ∨
          radix_literal (c0 :: c1 :: c2 :: s) = (fun base => (base, c2 :: s)) <$> radix_of c1) as [->| ->]; [|done|].
  - destruct c0 as [[] [] [] [] [] [] [] []]; auto.
  - by rewrite Hr.
Qed.

(** Every safe integer survives printing and [Number]. *)
Lemma Number_dec n : Z.abs n ≤ MAX_SAFE_INTEGER → integer_val (Number (dec_signed n)) = Some n.
Proof.
  intros Hn. unfold dec_signed. destruct (Z.ltb_spec n 0).
  - assert (Hp : Forall plain_digit (dec (- n))) by (apply dec_plain; lia).
    unfold Number. rewrite trim_no_ws by (constructor; [done|by apply plain_no_ws]).
    change (integer_val (neg_num (parse_unsigned (dec (- n)))) = Some n).
    rewrite integer_val_neg, parse_unsigned_dec by lia. simpl. f_equal. lia.
  - assert (Hp : Forall plain_digit (dec n)) by (apply dec_plain; lia).
    unfold Number. rewrite trim_no_ws by (by apply plain_no_ws). rewrite radix_literal_plain by done.
    pose proof (parse_unsigned_dec n ltac:(lia)) as Hv. pose proof (dec_nonempty n) as Hne.
    destruct (dec n) as [|c l]; [done|]. apply Forall_cons in Hp as [(_ & _ & _ & H1 & H2 & _) _].
    destruct c as [[] [] [] [] [] [] [] []]; done.
Qed.
