(* ===== verification/SupRouting.v ===== *)
(** * Supervisor: routing policies and admission

    Models [packages/supervisor/src/routing.ts] and the admission test of
    [packages/supervisor/src/admission.ts]: which worker a connection goes to,
    the affinity table of [stickyBySession] with its memory bound, and when the
    supervisor answers 429. *)

From S2P Require Import Prelude.

(** ** Data *)

(** What the supervisor believes about one worker at decision time. *)
Record WorkerView := mkView {
  wv_id : nat;
  wv_inFlight : Z;
  wv_healthy : bool;
}.

Record ConnectionFacts := mkFacts { sessionId : option string }.

(** ** [pickLeastLoaded] *)

(** One turn of the loop: [best] after looking at [wv]. *)
Definition better (best : option WorkerView) (wv : WorkerView) : option WorkerView :=
  if negb (wv_healthy wv) then best
  else match best with
       | None => Some wv
       | Some b => if wv_inFlight wv <? wv_inFlight b then Some wv else best
       end.

Definition pickLeastLoaded (workers : list WorkerView) : option nat :=
  wv_id <$> foldl better None workers.

(** ** Admission *)

Definition isSaturated (workers : list WorkerView) (turnsPerWorker : Z) : bool :=
  negb (existsb (fun wv => wv_healthy wv && (wv_inFlight wv <? turnsPerWorker)) workers).

(** ** [stickyBySession] *)

Definition MAX_SESSION_PINS : Z := 10000.

(** The [while (pins.size > maxPins)] loop: drop the oldest pin. *)
Fixpoint evict (maxPins : Z) (pins : list (string * nat)) : list (string * nat) :=
  match pins with
  | [] => []
  | _ :: pins' => if maxPins <? Z.of_nat (length pins) then evict maxPins pins' else pins
  end.

Definition remember (maxPins : Z) (sid : string) (id : nat) (pins : list (string * nat)) :
    list (string * nat) :=
  evict maxPins (map_set sid id (map_delete sid pins)).

Definition worker_healthy (workers : list WorkerView) (id : nat) : bool :=
  existsb (fun wv => bool_decide (wv_id wv = id) && wv_healthy wv) workers.

(** [pick] of the sticky policy: the chosen worker and the affinity table after. *)
Definition sticky_pick (maxPins : Z) (pins : list (string * nat))
    (workers : list WorkerView) (facts : ConnectionFacts) : option nat * list (string * nat) :=
  match sessionId facts with
  | None => (pickLeastLoaded workers, pins)
  | Some sid =>
      let fresh :=
        match pickLeastLoaded workers with
        | Some chosen => (Some chosen, remember maxPins sid chosen pins)
        | None => (None, pins)
        end in
      match map_get sid pins with
      | Some pinned =>
          if worker_healthy workers pinned
          then (Some pinned, remember maxPins sid pinned pins)
          else fresh
      | None => fresh
      end
  end.

(** ** Policies *)

Inductive RoutingPolicy :=
| leastInFlight
| stickyBySession (maxPins : Z) (pins : list (string * nat)).

Definition needsHead (p : RoutingPolicy) : bool :=
  match p with leastInFlight => false | stickyBySession _ _ => true end.

Definition pick (p : RoutingPolicy) (workers : list WorkerView) (facts : ConnectionFacts) :
    option nat * RoutingPolicy :=
  match p with
  | leastInFlight => (pickLeastLoaded workers, leastInFlight)
  | stickyBySession maxPins pins =>
      let '(chosen, pins') := sticky_pick maxPins pins workers facts in
      (chosen, stickyBySession maxPins pins')
  end.

Inductive policy_error := UnknownPolicy (raw : string).

Definition policyFromName (name : option string) : result policy_error RoutingPolicy :=
  let raw := trim_str <$> name in
  match raw with
  | None | Some "" => Ok leastInFlight
  | Some r =>
      if decide (r = "leastInFlight") then Ok leastInFlight
      else if decide (r = "stickyBySession") then Ok (stickyBySession MAX_SESSION_PINS [])
      else Throw (UnknownPolicy r)
  end.

(** ** Lemmas *)

(** [w] is the first healthy worker of minimal load of [ws]. *)
Definition first_least (ws : list WorkerView) (w : WorkerView) : Prop :=
  ∃ pre post, ws = pre ++ w :: post ∧ wv_healthy w = true
    ∧ (∀ v, v ∈ pre → wv_healthy v = true → wv_inFlight w < wv_inFlight v)
    ∧ (∀ v, v ∈ post → wv_healthy v = true → wv_inFlight w ≤ wv_inFlight v).

Lemma foldl_better_spec ws :
  match foldl better None ws with
  | Some w => first_least ws w
  | None => ∀ v, v ∈ ws → wv_healthy v = false
  end.
Proof.
  induction ws as [|v ws IH] using rev_ind; [simpl; set_solver|].
  rewrite foldl_app. cbn [foldl].
  destruct (foldl better None ws) as [b|], (wv_healthy v) eqn:Hv;
    unfold better; rewrite Hv; cbn [negb].
  - destruct IH as (pre & post & -> & Hb & Hpre & Hpost).
    destruct (wv_inFlight v <? wv_inFlight b) eqn:Hlt; to_prop.
    + exists (pre ++ b :: post), []. split_and!; [done|done| |set_solver].
      intros u [Hu|[->|Hu]%elem_of_cons]%elem_of_app Hh; [|lia|].
      * specialize (Hpre u Hu Hh). lia.
      * specialize (Hpost u Hu Hh). lia.
    + exists pre, (post ++ [v]). split_and!; [by rewrite <-app_assoc|done|done|].
      intros u [Hu| ->%list_elem_of_singleton]%elem_of_app Hh; [by apply Hpost|lia].
  - destruct IH as (pre & post & -> & Hb & Hpre & Hpost).
    exists pre, (post ++ [v]). split_and!; [by rewrite <-app_assoc|done|done|].
    intros u [Hu| ->%list_elem_of_singleton]%elem_of_app Hh; [by apply Hpost|congruence].
  - exists ws, []. split_and!; [done|done| |set_solver].
    intros u Hu Hh. rewrite IH in Hh; done.
  - intros u [Hu| ->%list_elem_of_singleton]%elem_of_app; [by apply IH|done].
Qed.

Lemma first_least_unique ws w1 w2 : first_least ws w1 → first_least ws w2 → w1 = w2.
Proof.
  intros (p1 & q1 & E1 & H1 & Hp1 & Hq1) (p2 & q2 & E2 & H2 & Hp2 & Hq2).
  rewrite E1 in E2. clear E1.
  revert p2 E2 Hp2. induction p1 as [|x p1 IH]; intros [|y p2] E2 Hp2; simplify_eq/=; try done.
  - assert (wv_inFlight w2 < wv_inFlight y) by (apply Hp2; set_solver).
    assert (wv_inFlight y ≤ wv_inFlight w2) by (apply Hq1; set_solver). lia.
  - assert (wv_inFlight w1 < wv_inFlight w2) by (apply Hp1; set_solver).
    assert (wv_inFlight w2 ≤ wv_inFlight w1) by (apply Hq2; set_solver). lia.
  - apply (IH ltac:(set_solver) p2); [done|set_solver].
Qed.

Lemma pickLeastLoaded_Some ws i :
  pickLeastLoaded ws = Some i ↔ ∃ w, first_least ws w ∧ wv_id w = i.
Proof.
  unfold pickLeastLoaded. pose proof (foldl_better_spec ws) as H. split.
  - destruct (foldl better None ws); intros; simplify_eq/=. eauto.
  - intros (w & Hw & <-). destruct (foldl better None ws) as [w'|].
    + simpl. f_equal. f_equal. by eapply first_least_unique.
    + destruct Hw as (pre & post & -> & Hh & _). rewrite H in Hh; [done|set_solver].
Qed.

Lemma pickLeastLoaded_None ws :
  pickLeastLoaded ws = None ↔ ∀ v, v ∈ ws → wv_healthy v = false.
Proof.
  unfold pickLeastLoaded. pose proof (foldl_better_spec ws) as H.
  destruct (foldl better None ws) as [w|]; simpl; split; try done.
  intros Hall. destruct H as (pre & post & -> & Hh & _). rewrite Hall in Hh; [done|set_solver].
Qed.

Lemma worker_healthy_true ws i :
  worker_healthy ws i = true ↔ ∃ v, v ∈ ws ∧ wv_id v = i ∧ wv_healthy v = true.
Proof.
  unfold worker_healthy. rewrite existsb_exists. split.
  - intros (v & Hv%list_elem_of_In & H). to_prop. eauto.
  - intros (v & Hv%list_elem_of_In & <- & Hh). exists v. split; [done|].
    rewrite Hh, bool_decide_eq_true_2; done.
Qed.

Lemma first_least_healthy ws w : first_least ws w → w ∈ ws ∧ wv_healthy w = true.
Proof. intros (pre & post & -> & ? & _). set_solver. Qed.

(** ** The affinity table *)

Lemma evict_suffix n pins : ∃ dropped, pins = dropped ++ evict n pins.
Proof.
  induction pins as [|p pins [d Hd]]; [by exists []|]. simpl.
  destruct (n <? _).
  - exists (p :: d). simpl. by f_equal.
  - by exists [].
Qed.

Lemma evict_bound n pins : 0 ≤ n → Z.of_nat (length (evict n pins)) ≤ n.
Proof.
  intros Hn. induction pins as [|p pins IH]; [done|]. cbn [evict].
  destruct (_ <? _) eqn:E; to_prop; lia.
Qed.

(** A suffix short enough is not evicted. *)
Lemma evict_keeps n pre suf :
  Z.of_nat (length suf) ≤ n → ∃ pre', evict n (pre ++ suf) = pre' ++ suf.
Proof.
  intros Hle. induction pre as [|p pre [pre' IH]]; cbn [evict app].
  - exists []. destruct suf as [|s suf]; [done|]. cbn [evict].
    destruct (_ <? _) eqn:E; to_prop; [lia|done].
  - destruct (_ <? _); [by exists pre'|by exists (p :: pre)].
Qed.

Lemma sublist_NoDup_suffix (d l : list (string * nat)) :
  NoDup (d ++ l).*1 → NoDup l.*1.
Proof. rewrite fmap_app. intros (_ & _ & H)%NoDup_app. done. Qed.

Definition pins_ok (maxPins : Z) (pins : list (string * nat)) : Prop :=
  NoDup pins.*1 ∧ Z.of_nat (length pins) ≤ maxPins.

Lemma remember_eq n sid w pins :
  remember n sid w pins = evict n (map_delete sid pins ++ [(sid, w)]).
Proof.
  unfold remember. rewrite map_set_fresh; [done|]. rewrite map_delete_keys. tauto.
Qed.

Lemma remember_ok n sid w pins : 0 ≤ n → NoDup pins.*1 → pins_ok n (remember n sid w pins).
Proof.
  intros Hn Hnd. rewrite remember_eq. split; [|by apply evict_bound].
  destruct (evict_suffix n (map_delete sid pins ++ [(sid, w)])) as [d Hd].
  apply (sublist_NoDup_suffix d). rewrite <-Hd, fmap_app. apply NoDup_app. simpl.
  split_and!; [by apply map_delete_NoDup| |apply NoDup_singleton].
  intros x Hx%map_delete_keys. set_solver.
Qed.

(** A sequence of connections, each with the views it was routed on. *)
Fixpoint sticky_run (n : Z) (pins : list (string * nat))
    (reqs : list (list WorkerView * ConnectionFacts)) : list (string * nat) :=
  match reqs with
  | [] => pins
  | (ws, f) :: reqs' => sticky_run n (sticky_pick n pins ws f).2 reqs'
  end.

Definition sids_of (reqs : list (list WorkerView * ConnectionFacts)) : list string :=
  omap (fun r => sessionId r.2) reqs.

Lemma sticky_pick_table n pins ws f :
  (sticky_pick n pins ws f).2 = pins
  ∨ ∃ sid w, sessionId f = Some sid ∧ (sticky_pick n pins ws f).2 = remember n sid w pins.
Proof.
  unfold sticky_pick. destruct (sessionId f) as [sid|]; [|by left].
  destruct (map_get sid pins); [destruct (worker_healthy _ _)|];
    try destruct (pickLeastLoaded ws); simpl; eauto.
Qed.

(** The entry [(sid, w)] sits in the table, and every key behind it belongs to [others]. *)
Definition pinned_within (others : gset string) (sid : string) (w : nat)
    (pins : list (string * nat)) : Prop :=
  NoDup pins.*1 ∧ ∃ pre suf, pins = pre ++ (sid, w) :: suf ∧ (∀ k, k ∈ suf.*1 → k ∈ others).

Lemma pinned_within_get others sid w pins :
  pinned_within others sid w pins → map_get sid pins = Some w.
Proof. intros (Hnd & pre & suf & -> & _). apply map_get_elem; set_solver. Qed.

Lemma pinned_within_remember_self others n sid w pins :
  1 ≤ n → NoDup pins.*1 → pinned_within others sid w (remember n sid w pins).
Proof.
  intros Hn Hnd. destruct (remember_ok n sid w pins) as [Hnd' _]; [lia|done|].
  split; [done|]. rewrite remember_eq.
  destruct (evict_keeps n (map_delete sid pins) [(sid, w)]) as [pre ->]; [simpl; lia|].
  exists pre, []. set_solver.
Qed.

Lemma keys_bound (others : gset string) (l : list (string * nat)) :
  NoDup l.*1 → (∀ k, k ∈ l.*1 → k ∈ others) → (length l ≤ size others)%nat.
Proof.
  intros Hnd Hsub. rewrite <-(length_fmap fst l).
  rewrite <-(size_list_to_set (C := gset string) l.*1) by done.
  apply subseteq_size. intros k. rewrite elem_of_list_to_set. apply Hsub.
Qed.

Lemma pinned_within_remember_other others n sid w sid' w' pins :
  sid' ≠ sid → sid' ∈ others → Z.of_nat (size others) < n →
  pinned_within others sid w pins → pinned_within others sid w (remember n sid' w' pins).
Proof.
  intros Hne Hin Hsz (Hnd & pre & suf & -> & Hsuf).
  assert (Hnd2 := proj1 (remember_ok n sid' w' _ ltac:(lia) Hnd)).
  split; [done|]. rewrite remember_eq in *. rewrite map_delete_app in *. cbn [map_delete] in *.
  rewrite decide_False in * by done.
  set (suf' := map_delete sid' suf ++ [(sid', w')]) in *.
  assert (Hsuf' : ∀ k, k ∈ suf'.*1 → k ∈ others).
  { intros k. unfold suf'. rewrite fmap_app, elem_of_app, map_delete_keys. set_solver. }
  assert (Hlen : (length suf' ≤ size others)%nat).
  { apply keys_bound; [|done]. unfold suf'. rewrite fmap_app. apply NoDup_app.
    split_and!; [| |apply NoDup_singleton].
    - apply map_delete_NoDup. rewrite fmap_app, NoDup_app, fmap_cons, NoDup_cons in Hnd. tauto.
    - intros k Hk%map_delete_keys. set_solver. }
  destruct (evict_keeps n (map_delete sid' pre) ((sid, w) :: suf')) as [pre' Hev];
    [simpl; lia|].
  exists pre', suf'. split; [|done]. rewrite <-Hev. f_equal. rewrite <-app_assoc. done.
Qed.

Lemma sticky_pick_ok n pins ws f : 0 ≤ n → pins_ok n pins → pins_ok n (sticky_pick n pins ws f).2.
Proof.
  intros Hn [Hnd Hlen]. destruct (sticky_pick_table n pins ws f) as [->|(sid & w & _ & ->)];
    [by split|by apply remember_ok].
Qed.

Lemma sticky_run_ok n pins reqs : 0 ≤ n → pins_ok n pins → pins_ok n (sticky_run n pins reqs).
Proof.
  intros Hn. revert pins. induction reqs as [|[ws f] reqs IH]; intros pins Hok; [done|].
  simpl. by apply IH, sticky_pick_ok.
Qed.

Lemma sticky_pick_pinned n pins ws sid w :
  map_get sid pins = Some w → worker_healthy ws w = true →
  sticky_pick n pins ws (mkFacts (Some sid)) = (Some w, remember n sid w pins).
Proof. intros Hget Hh. unfold sticky_pick. simpl. by rewrite Hget, Hh. Qed.

(** Whatever the sticky policy answers for a session id is what it remembers. *)
Lemma sticky_pick_remembers n pins ws sid w pins' :
  sticky_pick n pins ws (mkFacts (Some sid)) = (Some w, pins') →
  pins' = remember n sid w pins.
Proof.
  unfold sticky_pick. simpl. intros H.
  destruct (map_get sid pins) as [p|]; [destruct (worker_healthy ws p)|];
    try destruct (pickLeastLoaded ws); simplify_eq; done.
Qed.

Lemma sticky_run_keeps others n sid w pins reqs :
  Z.of_nat (size others) < n →
  (∀ k, k ∈ sids_of reqs → k ≠ sid → k ∈ others) →
  (∀ ws f, (ws, f) ∈ reqs → sessionId f = Some sid → worker_healthy ws w = true) →
  pinned_within others sid w pins → pinned_within others sid w (sticky_run n pins reqs).
Proof.
  intros Hsz. revert pins. induction reqs as [|[ws f] reqs IH]; intros pins Hoth Hh Hpin; [done|].
  simpl. apply IH.
  { intros k Hk. apply Hoth. unfold sids_of in *. cbn [omap list_omap].
    destruct (sessionId _); set_solver. }
  { intros ws' f' Hin. apply Hh. set_solver. }
  destruct (decide (sessionId f = Some sid)) as [Hf|Hf].
  - destruct f as [s]. simpl in Hf. subst s.
    rewrite (sticky_pick_pinned n pins ws sid w).
    + simpl. apply pinned_within_remember_self; [lia|]. apply Hpin.
    + by eapply pinned_within_get.
    + apply (Hh ws (mkFacts (Some sid))); [set_solver|done].
  - destruct (sticky_pick_table n pins ws f) as [->|(sid' & w' & Hs & ->)]; [done|].
    apply pinned_within_remember_other; [congruence| |done|done].
    apply Hoth; [|congruence]. unfold sids_of. cbn [omap list_omap]. simpl. rewrite Hs. set_solver.
Qed.

(** ** Properties *)

(** [pickLeastLoaded] answers exactly the first of the healthy workers with
    the fewest in-flight turns (ties go to the earlier worker, so to the lowest
    id), and answers [undefined] exactly when no worker is healthy. *)
Theorem pickLeastLoaded_correct ws :
  (∀ i, pickLeastLoaded ws = Some i ↔ ∃ w, first_least ws w ∧ wv_id w = i)
  ∧ (pickLeastLoaded ws = None ↔ ∀ v, v ∈ ws → wv_healthy v = false).
Proof. split; [apply pickLeastLoaded_Some|apply pickLeastLoaded_None]. Qed.

(** Admission and routing agree: the supervisor is not saturated exactly
    when the worker the default policy would pick is below the per-worker cap,
    so an admitted connection always has a healthy worker with room. *)
Theorem admission_agrees_with_routing ws S :
  isSaturated ws S = false ↔
  ∃ w, first_least ws w ∧ pickLeastLoaded ws = Some (wv_id w) ∧ wv_inFlight w < S.
Proof.
  unfold isSaturated. rewrite negb_false_iff, existsb_exists. split.
  - intros (v & Hv%list_elem_of_In & H). to_prop.
    pose proof (foldl_better_spec ws) as Hs. destruct (foldl better None ws) as [w|] eqn:E.
    + exists w. split; [done|]. split; [apply pickLeastLoaded_Some; eauto|].
      destruct Hs as (pre & post & -> & Hh & Hpre & Hpost).
      apply elem_of_app in Hv as [Hv|[->|Hv]%elem_of_cons]; [|done|].
      * specialize (Hpre v Hv ltac:(done)). lia.
      * specialize (Hpost v Hv ltac:(done)). lia.
    + rewrite Hs in *; done.
  - intros (w & Hw & _ & Hlt). destruct (first_least_healthy _ _ Hw) as [Hin Hh].
    exists w. split; [by apply list_elem_of_In|]. rewrite Hh. simpl. by apply Z.ltb_lt.
Qed.

(** C39. The affinity table is bounded whatever session ids clients send: from
    an empty table, after any sequence of connections, it holds at most
    [maxPins] entries, each session once. *)
Theorem sticky_table_bounded n reqs :
  0 ≤ n → pins_ok n (sticky_run n [] reqs).
Proof. intros Hn. apply sticky_run_ok; [done|]. split; [apply NoDup_nil_2|simpl; lia]. Qed.

Lemma sticky_table_bounded_witness :
  pins_ok 2 (sticky_run 2 [] [([mkView 0 0 true], mkFacts (Some "a"));
                              ([mkView 0 0 true], mkFacts (Some "b"));
                              ([mkView 0 0 true], mkFacts (Some "c"))]).
Proof. apply (sticky_table_bounded 2). lia. Defined.

(** Session affinity: once a session has been routed to worker [w], it goes
    to [w] again as long as [w] is healthy whenever the session connects and
    fewer than [maxPins] other sessions connected in between; a flood of other
    session ids below the bound cannot displace it. *)
Theorem sticky_affinity n pins ws0 sid w pins1 reqs ws :
  pins_ok n pins →
  sticky_pick n pins ws0 (mkFacts (Some sid)) = (Some w, pins1) →
  (∀ ws' f, (ws', f) ∈ reqs → sessionId f = Some sid → worker_healthy ws' w = true) →
  Z.of_nat (size (list_to_set (sids_of reqs) ∖ {[sid]} : gset string)) < n →
  worker_healthy ws w = true →
  (sticky_pick n (sticky_run n pins1 reqs) ws (mkFacts (Some sid))).1 = Some w.
Proof.
  intros [Hnd Hlen] Hp Hh Hsz Hw. set (others := _ ∖ _ : gset string) in Hsz.
  apply sticky_pick_remembers in Hp as ->.
  assert (Hpin : pinned_within others sid w (sticky_run n (remember n sid w pins) reqs)).
  { apply sticky_run_keeps; [done|set_solver|done|].
    apply pinned_within_remember_self; [lia|done]. }
  rewrite (sticky_pick_pinned n _ ws sid w); [done| |done]. by eapply pinned_within_get.
Qed.

Lemma sticky_affinity_witness :
  let ws := [mkView 0 3 true; mkView 1 1 true] in
  (sticky_pick 2 (sticky_run 2 [("s", 1%nat)] [(ws, mkFacts (Some "t")); (ws, mkFacts (Some "s"))])
     ws (mkFacts (Some "s"))).1 = Some 1%nat.
Proof.
  intros ws. apply (sticky_affinity 2 [] ws "s" 1 [("s", 1%nat)]).
  - split; [apply NoDup_nil_2|simpl; lia].
  - vm_compute. reflexivity.
  - intros ws' f Hin Hf. rewrite !elem_of_cons in Hin. destruct Hin as [Hin|[Hin|Hin]].
    + simplify_eq/=.
    + simplify_eq/=. vm_compute. reflexivity.
    + by apply elem_of_nil in Hin.
  - vm_compute. reflexivity.
  - vm_compute. reflexivity.
Defined.

(** Both policies only ever answer a healthy worker, and they answer
    [undefined] exactly when there is none. *)
Theorem pick_healthy p ws facts :
  match (pick p ws facts).1 with
  | Some i => ∃ v, v ∈ ws ∧ wv_id v = i ∧ wv_healthy v = true
  | None => ∀ v, v ∈ ws → wv_healthy v = false
  end.
Proof.
  assert (Hleast : match pickLeastLoaded ws with
                   | Some i => ∃ v, v ∈ ws ∧ wv_id v = i ∧ wv_healthy v = true
                   | None => ∀ v, v ∈ ws → wv_healthy v = false
                   end).
  { destruct (pickLeastLoaded ws) as [i|] eqn:E.
    - apply pickLeastLoaded_Some in E as (w & Hw%first_least_healthy & <-). naive_solver.
    - by apply pickLeastLoaded_None. }
  destruct p as [|n pins]; simpl; [done|].
  unfold sticky_pick. destruct (sessionId facts) as [sid|]; [|done].
  destruct (map_get sid pins) as [q|]; [destruct (worker_healthy ws q) eqn:Hq|];
    try (destruct (pickLeastLoaded ws); done).
  by apply worker_healthy_true.
Qed.
