(* ===== verification/SupHead.v ===== *)
(** * Supervisor: the request head pre-read of the sticky policy

    Models [packages/supervisor/src/head.ts]: finding the end of the header
    block, extracting [X-SH-Session-Id] from it, and [readHead], which consumes
    a socket chunk by chunk with a three-byte carry.  [readHead] is a state
    machine over the socket's events; [HeadRef] is the rescan-everything reader
    the incremental one replaced, kept as its reference. *)

From S2P Require Import Prelude.

(** ** Header block and session id *)

Definition CRLF : bytes := [ascii_of_nat 13; ascii_of_nat 10].
Definition TERMINATOR : bytes := CRLF ++ CRLF.

Definition headerBlockEnd (buf : bytes) : option nat :=
  (fun at_ => (at_ + length TERMINATOR)%nat) <$> index_of TERMINATOR buf.

Definition COLON : ascii := ":"%char.

(** The value of a header line [name: value] when its name is [x-sh-session-id]. *)
Definition session_line (line : bytes) : option bytes :=
  match index_of [COLON] line with
  | None => None
  | Some colon =>
      if decide (toLowerCase (string_of (trim (take colon line))) = "x-sh-session-id")
      then Some (trim (drop (colon + 1) line))
      else None
  end.

(** The loop over the lines: the first matching line decides. *)
Fixpoint scan_lines (lines : list bytes) : option string :=
  match lines with
  | [] => None
  | line :: rest =>
      match session_line line with
      | None => scan_lines rest
      | Some [] => None
      | Some value => Some (string_of value)
      end
  end.

Definition sessionIdFromHead (head : bytes) : option string :=
  let block := match headerBlockEnd head with
               | None => head
               | Some e => take e head
               end in
  scan_lines (drop 1 (split_on CRLF block)).

(** ** [readHead] *)

Inductive HeadOutcome := complete | cap | timeout | closed.

#[export] Instance HeadOutcome_eq_dec : EqDecision HeadOutcome.
Proof. solve_decision. Defined.

(** The closure's variables; [settled] holds the outcome once [finish] ran. *)
Record HeadState := mkHead {
  chunks : list bytes;
  total : nat;
  carry : bytes;
  settled : option HeadOutcome;
}.

Definition head_init : HeadState := mkHead [] 0 [] None.

Inductive HeadEvent :=
| Data (chunk : bytes)
| EndOrError
| TimerFired.

Definition finish (outcome : HeadOutcome) (st : HeadState) : HeadState :=
  match settled st with
  | Some _ => st
  | None => mkHead (chunks st) (total st) (carry st) (Some outcome)
  end.

Definition onData (maxBytes : nat) (chunk : bytes) (st : HeadState) : HeadState :=
  let chunks' := chunks st ++ [chunk] in
  let total' := (total st + length chunk)%nat in
  let probe := if (length (carry st) =? 0)%nat then chunk else carry st ++ chunk in
  if contains TERMINATOR probe
  then finish complete (mkHead chunks' total' (carry st) (settled st))
  else
    let carry' := drop (Nat.max 0 (length probe - (length TERMINATOR - 1))) probe in
    let st' := mkHead chunks' total' carry' (settled st) in
    if (maxBytes <=? total')%nat then finish cap st' else st'.

(** After [finish] the listeners are removed and the timer is cleared, so a
    settled reader sees no event. *)
Definition head_step (maxBytes : nat) (st : HeadState) (ev : HeadEvent) : HeadState :=
  match settled st with
  | Some _ => st
  | None =>
      match ev with
      | Data chunk => onData maxBytes chunk st
      | EndOrError => finish closed st
      | TimerFired => finish timeout st
      end
  end.

Definition head_run (maxBytes : nat) (evs : list HeadEvent) : HeadState :=
  foldl (head_step maxBytes) head_init evs.

(** What [resolve] delivers. *)
Definition head_bytes (st : HeadState) : bytes := concat (chunks st).
Definition head_complete (st : HeadState) : bool := bool_decide (settled st = Some complete).

(** ** The reference reader: rescan the whole accumulation on every chunk *)

Definition ref_step (maxBytes : nat) (st : bytes * option HeadOutcome) (ev : HeadEvent) :
    bytes * option HeadOutcome :=
  match st with
  | (_, Some _) => st
  | (acc, None) =>
      match ev with
      | Data chunk =>
          let acc' := acc ++ chunk in
          if contains TERMINATOR acc' then (acc', Some complete)
          else if (maxBytes <=? length acc')%nat then (acc', Some cap)
          else (acc', None)
      | EndOrError => (acc, Some closed)
      | TimerFired => (acc, Some timeout)
      end
  end.

Definition ref_run (maxBytes : nat) (evs : list HeadEvent) : bytes * option HeadOutcome :=
  foldl (ref_step maxBytes) ([], None) evs.

(** ** Lemmas *)

(** What the incremental reader knows while it is still reading. *)
Definition head_inv (st : HeadState) : Prop :=
  total st = length (head_bytes st)
  ∧ (settled st = None →
     carry st = last_n (length TERMINATOR - 1) (head_bytes st)
     ∧ contains TERMINATOR (head_bytes st) = false).

Lemma head_bytes_snoc (cs : list bytes) (c : bytes) : concat (cs ++ [c]) = concat cs ++ c.
Proof. rewrite concat_app. simpl. by rewrite app_nil_r. Qed.

Lemma probe_eq (c chunk : bytes) :
  (if (length c =? 0)%nat then chunk else c ++ chunk) = c ++ chunk.
Proof. by destruct c. Qed.

Lemma onData_eq maxBytes chunk st :
  settled st = None → head_inv st →
  let acc' := head_bytes st ++ chunk in
  let st' := onData maxBytes chunk st in
  head_inv st' ∧ head_bytes st' = acc' ∧
  settled st' = if contains TERMINATOR acc' then Some complete
                else if (maxBytes <=? length acc')%nat then Some cap else None.
Proof.
  intros Hset [Htot Hinv] acc' st'. destruct (Hinv Hset) as [Hcarry Hno].
  unfold st', onData. rewrite probe_eq.
  assert (Hc : contains TERMINATOR acc' = contains TERMINATOR (carry st ++ chunk)).
  { unfold acc'. rewrite Hcarry. by apply contains_app_last_n. }
  assert (Htot' : (total st + length chunk)%nat = length acc').
  { unfold acc'. rewrite length_app. lia. }
  rewrite <-Hc, Htot', Hset.
  destruct (contains TERMINATOR acc') eqn:E; simpl.
  - unfold head_inv, head_bytes. simpl. rewrite head_bytes_snoc. split_and!; done.
  - destruct (maxBytes <=? length acc')%nat; simpl;
      unfold head_inv, head_bytes; simpl; rewrite head_bytes_snoc.
    + split_and!; done.
    + split_and!; try done. intros _. split; [|done].
      rewrite Hcarry. apply (last_n_app (length TERMINATOR - 1) (head_bytes st) chunk).
Qed.

Lemma head_run_snoc maxBytes evs ev :
  head_run maxBytes (evs ++ [ev]) = head_step maxBytes (head_run maxBytes evs) ev.
Proof. unfold head_run. by rewrite foldl_app. Qed.

Lemma ref_run_snoc maxBytes evs ev :
  ref_run maxBytes (evs ++ [ev]) = ref_step maxBytes (ref_run maxBytes evs) ev.
Proof. unfold ref_run. by rewrite foldl_app. Qed.

Lemma head_run_sim maxBytes evs :
  head_inv (head_run maxBytes evs)
  ∧ ref_run maxBytes evs = (head_bytes (head_run maxBytes evs), settled (head_run maxBytes evs)).
Proof.
  induction evs as [|ev evs [Hinv Href]] using rev_ind.
  - split; [|done]. split; [done|]. intros _. by split.
  - rewrite head_run_snoc, ref_run_snoc, Href. set (st := head_run maxBytes evs) in *.
    unfold head_step, ref_step. destruct (settled st) as [o|] eqn:Hset; [by rewrite Hset|].
    destruct ev as [chunk| |].
    + destruct (onData_eq maxBytes chunk st Hset Hinv) as (Hinv' & Hb & Hs).
      split; [done|]. rewrite Hb, Hs.
      destruct (contains _ _); [done|]. by destruct (_ <=? _)%nat.
    + unfold finish. rewrite Hset. destruct Hinv. by split; [split|].
    + unfold finish. rewrite Hset. destruct Hinv. by split; [split|].
Qed.

(** The bytes carried by a list of events. *)
Definition event_bytes (evs : list HeadEvent) : bytes :=
  concat (omap (fun ev => match ev with Data c => Some c | _ => None end) evs).

Lemma event_bytes_snoc evs ev :
  event_bytes (evs ++ [ev]) =
  event_bytes evs ++ match ev with Data c => c | _ => [] end.
Proof.
  unfold event_bytes. rewrite omap_app, concat_app.
  destruct ev; simpl; by rewrite ?app_nil_r.
Qed.

Lemma headerBlockEnd_app s t e : headerBlockEnd s = Some e → headerBlockEnd (s ++ t) = Some e.
Proof.
  unfold headerBlockEnd. destruct (index_of _ s) eqn:E; [|done].
  intros [= <-]. by rewrite (index_of_app _ _ t _ E).
Qed.

Lemma headerBlockEnd_le s e : headerBlockEnd s = Some e → (e ≤ length s)%nat.
Proof.
  unfold headerBlockEnd. destruct (index_of _ s) eqn:E; [|done]. intros [= <-].
  by apply index_of_Some in E as [? _].
Qed.

(** ** Rendered request heads *)

Definition header_line (h : bytes * bytes) : bytes := h.1 ++ COLON :: h.2.

Definition lines_text (lines : list bytes) : bytes := concat ((fun l => l ++ CRLF) <$> lines).

(** A request head as a client sends it. *)
Definition render_head (req : bytes) (hdrs : list (bytes * bytes)) : bytes :=
  lines_text (req :: (header_line <$> hdrs)) ++ CRLF.

(** The session id a list of headers carries: that of the first header named
    [x-sh-session-id], whatever the case and the blanks around it. *)
Fixpoint find_session (hdrs : list (bytes * bytes)) : option string :=
  match hdrs with
  | [] => None
  | (n, v) :: rest =>
      if decide (toLowerCase (string_of (trim n)) = "x-sh-session-id")
      then match trim v with [] => None | v' => Some (string_of v') end
      else find_session rest
  end.

Definition CR : ascii := ascii_of_nat 13.
Definition crlf_free (l : bytes) : Prop := CR ∉ l.

Definition good_header (h : bytes * bytes) : Prop :=
  crlf_free h.1 ∧ crlf_free h.2 ∧ COLON ∉ h.1.

Lemma header_line_ok h : good_header h → crlf_free (header_line h) ∧ header_line h ≠ [].
Proof.
  intros (H1 & H2 & _). unfold crlf_free, header_line in *. split.
  - rewrite elem_of_app, elem_of_cons. intros [?|[?|?]]; done.
  - by destruct h.1.
Qed.

Lemma split_lines f lines :
  Forall crlf_free lines → (S (length lines) ≤ f)%nat →
  split_fuel f CRLF (lines_text lines ++ CRLF) = lines ++ [[]; []].
Proof.
  intros Hall. revert f. induction Hall as [|l lines Hl Hall IH]; intros f Hf; simpl in Hf.
  - destruct f as [|[|f]]; [lia|done|done].
  - destruct f as [|f]; [lia|].
    assert (E : lines_text (l :: lines) ++ CRLF = l ++ CRLF ++ lines_text lines ++ CRLF).
    { unfold lines_text. cbn [fmap list_fmap concat]. by rewrite <-!app_assoc. }
    rewrite E. cbn [split_fuel].
    rewrite (index_of_after CR [ascii_of_nat 10] l _ Hl) by done.
    rewrite take_app_length, drop_app_add. cbn [app]. f_equal.
    change (drop (length CRLF) (CRLF ++ lines_text lines ++ CRLF)) with (lines_text lines ++ CRLF).
    apply IH. lia.
Qed.

Lemma length_lines_text lines : (2 * length lines ≤ length (lines_text lines))%nat.
Proof.
  induction lines as [|l lines IH]; [done|].
  unfold lines_text in *. cbn [fmap list_fmap concat length].
  rewrite !length_app. simpl. lia.
Qed.

(** A line followed by text that does not start with CR holds no terminator. *)
Lemma terminator_skip l r :
  crlf_free l → (∀ c r', r = c :: r' → c ≠ CR) →
  index_of TERMINATOR (l ++ CRLF ++ r) = Nat.add (length l + 2) <$> index_of TERMINATOR r.
Proof.
  intros Hl Hr. rewrite (index_of_skip _ (length l + 2)).
  - by rewrite drop_app_add.
  - rewrite !length_app. simpl. lia.
  - intros j Hj. destruct (decide (j < length l)%nat) as [Hlt|Hge].
    + by apply starts_with_drop_head.
    + rewrite drop_app_ge by lia.
      assert (j - length l = 0 ∨ j - length l = 1)%nat as [-> | ->] by lia.
      * destruct r as [|c r]; [done|]. specialize (Hr c r eq_refl). cbn.
        rewrite (bool_decide_eq_false_2 (CR = c)) by congruence. done.
      * done.
Qed.

Lemma terminator_of_lines lines body :
  Forall crlf_free lines → Forall (fun l => l ≠ []) (drop 1 lines) → lines ≠ [] →
  headerBlockEnd (lines_text lines ++ CRLF ++ body) = Some (length (lines_text lines ++ CRLF)).
Proof.
  intros Hall. induction Hall as [|l lines Hl Hall IH]; intros Hne Hnn; [done|].
  simpl in Hne. rewrite drop_0 in Hne.
  assert (E : ∀ b, lines_text (l :: lines) ++ b = l ++ CRLF ++ lines_text lines ++ b).
  { intros b. unfold lines_text. cbn [fmap list_fmap concat]. by rewrite <-!app_assoc. }
  rewrite !E. destruct lines as [|l2 lines].
  - unfold lines_text. cbn [fmap list_fmap concat]. unfold headerBlockEnd.
    change (CRLF ++ [] ++ CRLF ++ body) with (TERMINATOR ++ body).
    assert (index_of TERMINATOR (l ++ TERMINATOR ++ body) = Some (length l)) as ->
      by (by apply (index_of_after CR (drop 1 TERMINATOR))).
    by rewrite !length_app.
  - unfold headerBlockEnd in *. rewrite terminator_skip; [|done|].
    + inversion Hne as [|? ? Hl2 Hne' Heq]; subst.
      specialize (IH Hne' ltac:(done)).
      destruct (index_of TERMINATOR (lines_text (l2 :: lines) ++ CRLF ++ body)); simplify_eq/=.
      f_equal. rewrite length_app. cbn [length]. rewrite <-IH. lia.
    + intros c r' Hr. inversion Hne as [|? ? Hl2 Hne' Heq]; subst.
      inversion Hall as [|? ? Hf2 ?]; subst.
      destruct l2 as [|x l2]; [done|]. unfold lines_text in Hr. cbn in Hr. simplify_eq.
      intros ->. apply Hf2. set_solver.
Qed.

Lemma session_line_header h :
  good_header h →
  session_line (header_line h) =
    if decide (toLowerCase (string_of (trim h.1)) = "x-sh-session-id") then Some (trim h.2) else None.
Proof.
  intros (_ & _ & Hc). unfold session_line, header_line.
  rewrite (index_of_after COLON [] h.1) by done.
  rewrite take_app_length, drop_app_add. done.
Qed.

Lemma scan_headers hdrs :
  Forall good_header hdrs → scan_lines ((header_line <$> hdrs) ++ [[]; []]) = find_session hdrs.
Proof.
  induction 1 as [|[n v] hdrs Hg _ IH]; [done|]. cbn [fmap list_fmap app scan_lines find_session].
  rewrite (session_line_header (n, v) Hg). cbn [fst snd].
  case_decide; [by destruct (trim v)|done].
Qed.

Lemma head_run_settled maxBytes evs more :
  is_Some (settled (head_run maxBytes evs)) → head_run maxBytes (evs ++ more) = head_run maxBytes evs.
Proof.
  intros [o Ho]. induction more as [|ev more IH] using rev_ind; [by rewrite app_nil_r|].
  rewrite app_assoc, head_run_snoc, IH. unfold head_step. by rewrite Ho.
Qed.

Lemma head_run_consumed maxBytes evs :
  settled (head_run maxBytes evs) = None → head_bytes (head_run maxBytes evs) = event_bytes evs.
Proof.
  induction evs as [|ev evs IH] using rev_ind; [done|].
  rewrite head_run_snoc, event_bytes_snoc. unfold head_step.
  destruct (settled (head_run maxBytes evs)) eqn:Hs; [congruence|].
  destruct (head_run_sim maxBytes evs) as [Hinv _]. destruct ev as [chunk| |].
  - destruct (onData_eq maxBytes chunk _ Hs Hinv) as (_ & -> & _). intros _. by rewrite IH.
  - unfold finish. by rewrite Hs.
  - unfold finish. by rewrite Hs.
Qed.

(** ** Properties *)

(** The incremental reader, which scans each chunk once with a carry of at
    most three bytes, is equivalent to the reader that rescans everything
    received so far on every chunk: for every sequence of socket events both
    stop at the same event, with the same outcome and the same bytes. *)
Theorem readHead_equivalent maxBytes evs :
  ref_run maxBytes evs =
  (head_bytes (head_run maxBytes evs), settled (head_run maxBytes evs)).
Proof. apply head_run_sim. Qed.

(** No byte is lost or invented before the hand-off: while it is reading,
    [readHead] holds every byte received; when it resolves at some event, it
    returns every byte received up to and including that event, whatever the
    outcome, and later events change nothing.  The outcome is [complete] only
    with a terminator in the bytes and [cap] only at [maxBytes] or more without
    one. *)
Theorem readHead_conserves maxBytes evs :
  match settled (head_run maxBytes evs) with
  | None => head_bytes (head_run maxBytes evs) = event_bytes evs
  | Some o =>
      ∃ pre ev post, evs = pre ++ ev :: post
        ∧ settled (head_run maxBytes pre) = None
        ∧ head_run maxBytes evs = head_run maxBytes (pre ++ [ev])
        ∧ head_bytes (head_run maxBytes evs) = event_bytes (pre ++ [ev])
        ∧ (o = complete ↔ contains TERMINATOR (event_bytes (pre ++ [ev])) = true)
        ∧ (o = cap → (maxBytes ≤ length (event_bytes (pre ++ [ev])))%nat)
  end.
Proof.
  destruct (settled (head_run maxBytes evs)) as [o|] eqn:Hs; [|by apply head_run_consumed].
  induction evs as [|ev evs IH] using rev_ind; [done|].
  destruct (settled (head_run maxBytes evs)) as [o'|] eqn:Hs'.
  - rewrite head_run_settled in Hs by (rewrite Hs'; eauto).
    assert (o' = o) as -> by congruence.
    destruct (IH eq_refl) as (pre & e & post & -> & H1 & H2 & H3 & H4 & H5).
    exists pre, e, (post ++ [ev]). rewrite head_run_settled by (rewrite Hs'; eauto).
    split_and!; try done. by rewrite <-app_assoc.
  - exists evs, ev, []. rewrite head_run_snoc in Hs |- *. unfold head_step in *. rewrite Hs' in *.
    destruct (head_run_sim maxBytes evs) as [Hinv _].
    pose proof (proj2 Hinv Hs') as [_ Hno].
    pose proof (head_run_consumed _ _ Hs') as Hb. rewrite event_bytes_snoc, <-Hb.
    destruct ev as [chunk| |].
    + destruct (onData_eq maxBytes chunk _ Hs' Hinv) as (_ & Hb' & Hse). rewrite Hs in Hse.
      cbv zeta in *.
      split_and!; try done.
      * split_matches; naive_solver.
      * intros ->. split_matches. by apply Nat.leb_le.
    + unfold finish in *. rewrite Hs' in *. simplify_eq/=. rewrite app_nil_r.
      split_and!; try done. rewrite Hno. done.
    + unfold finish in *. rewrite Hs' in *. simplify_eq/=. rewrite app_nil_r.
      split_and!; try done. rewrite Hno. done.
Qed.

(** The session id comes from the header block only: once the block is
    terminated, nothing the client sends after it (the body, a pipelined
    request) changes the id. *)
Theorem sessionId_ignores_body s body :
  is_Some (headerBlockEnd s) → sessionIdFromHead (s ++ body) = sessionIdFromHead s.
Proof.
  intros [e He]. unfold sessionIdFromHead. rewrite (headerBlockEnd_app _ body _ He), He.
  by rewrite take_app_le by (by apply headerBlockEnd_le).
Qed.

Lemma sessionId_ignores_body_witness :
  let s := bytes_of "GET / HTTP/1.1" ++ CRLF ++ bytes_of "X-SH-Session-Id: a" ++ TERMINATOR in
  let body := bytes_of "junk" ++ CRLF ++ bytes_of "x-sh-session-id: evil" ++ CRLF in
  sessionIdFromHead (s ++ body) = sessionIdFromHead s ∧ sessionIdFromHead s = Some "a".
Proof.
  intros s body. split.
  - apply (sessionId_ignores_body s body). vm_compute. eauto.
  - vm_compute. reflexivity.
Defined.

(** On a well-formed head the extractor finds the right value: for any
    request line and headers (no CR in them, no colon in a name) followed by
    any body, [sessionIdFromHead] is the trimmed value of the first header
    whose name is [x-sh-session-id] up to case and blanks, and [undefined] when
    there is none or that value is blank. *)
Theorem sessionIdFromHead_render req hdrs body :
  crlf_free req → Forall good_header hdrs →
  sessionIdFromHead (render_head req hdrs ++ body) = find_session hdrs.
Proof.
  intros Hreq Hh. unfold render_head, sessionIdFromHead. rewrite <-app_assoc.
  set (lines := req :: (header_line <$> hdrs)).
  assert (Hall : Forall crlf_free lines).
  { constructor; [done|]. apply Forall_fmap. eapply Forall_impl; [done|].
    intros h Hg. by apply header_line_ok. }
  rewrite terminator_of_lines; [|done| |done].
  - rewrite app_assoc, take_app_length. unfold split_on.
    rewrite split_lines; [|done|].
    + unfold lines. cbn [app drop]. by rewrite drop_0, scan_headers.
    + pose proof (length_lines_text lines). rewrite length_app. change (length CRLF) with 2%nat. lia.
  - unfold lines. cbn [drop]. rewrite drop_0. apply Forall_fmap.
    eapply Forall_impl; [done|]. intros h Hg. by apply header_line_ok.
Qed.

Lemma sessionIdFromHead_render_witness :
  sessionIdFromHead
    (render_head (bytes_of "POST /turn HTTP/1.1")
       [(bytes_of "Host", bytes_of " x"); (bytes_of "x-Sh-session-ID ", bytes_of "  s-1 ")]
     ++ bytes_of "body") = Some "s-1".
Proof.
  rewrite (sessionIdFromHead_render (bytes_of "POST /turn HTTP/1.1")
    [(bytes_of "Host", bytes_of " x"); (bytes_of "x-Sh-session-ID ", bytes_of "  s-1 ")]
    (bytes_of "body")).
  - vm_compute. reflexivity.
  - unfold crlf_free. apply (bool_decide_unpack _). vm_compute. exact I.
  - unfold good_header, crlf_free. apply (bool_decide_unpack _). vm_compute. exact I.
Defined.
