(* ===== verification/SupPool.v ===== *)
(** * Supervisor: the worker pool

    Models [packages/supervisor/src/pool.ts], the class [WorkerPool]: forking and
    restarting workers with exponential backoff, handing sockets over, keeping
    the in-flight estimates reconciled, counting spurious refusals, draining and
    waiting for idleness.

    The event handlers of a worker close over its [Slot] object, and
    [this.slots[id]] is replaced on a restart, so slot objects live in a store
    ([objs]) and [slots] holds references into it: a late event of a dead worker
    updates the old object, not its successor.  Node's side of a worker (is the
    IPC channel connected, has the process exited) and the pending restart timers
    are part of the state because they decide which events can happen. *)

From Stdlib Require Import QArith.
From S2P Require Import Prelude Base64 SupRouting.

Local Open Scope Z_scope.

(** ** Messages *)

Inductive SupervisorToWorker :=
| Conn (head : option bytes)
| Drain.

(** [Load] is any message that is none of the other three: its [inFlight] is
    [None] when the field is missing (a message type of another build). *)
Inductive WorkerToSupervisor :=
| Ready (pid : Z)
| Load (type : string) (inFlight : option (jsnum Z))
| Draining
| Stats (loopLagP99Ms rssBytes leasesHeld leasePoolSize fileOpP95Ms : option (jsnum Q)).

(** ** State *)

Record Telemetry := mkTelemetry {
  loopLagP99Ms : jsnum Q;
  rssBytes : jsnum Q;
  leasesHeld : jsnum Q;
  leasePoolSize : jsnum Q;
  fileOpP95Ms : jsnum Q;
}.

Definition no_telemetry : Telemetry := mkTelemetry NaN NaN NaN NaN NaN.

Record Slot := mkSlot {
  s_id : nat;                      (* the [id] its handlers close over *)
  inFlight : Z;
  healthy : bool;
  startedAt : Z;
  crashes : Z;
  drained : bool;
  refusalEstimate : option Z;
  telem : Telemetry;
  pid : option Z;                  (* [handle.pid] *)
  connected : bool;                (* [handle.connected] *)
  exited : bool;                   (* the process is gone: 'exit' was emitted *)
}.

Record PoolCounters := mkTally {
  restarts : Z;
  handoffRetries : Z;
  handoffFailures : Z;
  overAdmission : Z;
  spuriousRefusals : Z;
  headTruncations : Z;
}.

Record PoolOptions := mkOptions {
  workers : nat;
  restartBackoffMs : Z;
  healthyRunMs : Z;
}.

Record Pool := mkPool {
  objs : gmap nat Slot;
  slots : list nat;
  nextRef : nat;
  shuttingDown : bool;
  idleWaiters : list nat;
  nextWaiter : nat;
  refusalSeq : Z;
  refusalCounted : bool;
  tally : PoolCounters;
  timers : list nat;               (* worker ids with a restart timer pending *)
}.

Definition MAX_BACKOFF_MS : Z := 30000.

(** What the pool does to the outside. *)
Inductive LogLine :=
| HandoffRetry (from : nat)
| HandoffFailed (preferred : nat)
| HeadTruncated (bytes : Z)
| WorkerChannelError (id : nat)
| ReadyIgnoredDraining (id : nat) (pid : Z)
| WorkerReady (id : nat) (pid : Z)
| UnrecognisedMessage (id : nat) (type : string)
| WorkerExit (id : nat) (ranForMs restartInMs : Z)
| OverAdmission (id : nat) (estimate actual : Z)
| RefusalReconciled (seq : Z) (id : nat) (estimate actual : Z).

Inductive effect :=
| Fork (id : nat)
| SendMsg (ref : nat) (msg : SupervisorToWorker) (socket : option nat)
| RefuseSocket (socket : nat)
| SetTimer (id : nat) (ms : Z)
| ResolveWaiter (waiter : nat) (idle : bool)
| Log (line : LogLine).

(** ** Field updates *)

Definition set_inFlight (v : Z) (s : Slot) : Slot :=
  mkSlot (s_id s) v (healthy s) (startedAt s) (crashes s) (drained s) (refusalEstimate s)
    (telem s) (pid s) (connected s) (exited s).
Definition set_healthy (v : bool) (s : Slot) : Slot :=
  mkSlot (s_id s) (inFlight s) v (startedAt s) (crashes s) (drained s) (refusalEstimate s)
    (telem s) (pid s) (connected s) (exited s).
Definition set_crashes (v : Z) (s : Slot) : Slot :=
  mkSlot (s_id s) (inFlight s) (healthy s) (startedAt s) v (drained s) (refusalEstimate s)
    (telem s) (pid s) (connected s) (exited s).
Definition set_drained (v : bool) (s : Slot) : Slot :=
  mkSlot (s_id s) (inFlight s) (healthy s) (startedAt s) (crashes s) v (refusalEstimate s)
    (telem s) (pid s) (connected s) (exited s).
Definition set_refusalEstimate (v : option Z) (s : Slot) : Slot :=
  mkSlot (s_id s) (inFlight s) (healthy s) (startedAt s) (crashes s) (drained s) v
    (telem s) (pid s) (connected s) (exited s).
Definition set_telem (v : Telemetry) (s : Slot) : Slot :=
  mkSlot (s_id s) (inFlight s) (healthy s) (startedAt s) (crashes s) (drained s)
    (refusalEstimate s) v (pid s) (connected s) (exited s).
Definition set_connected (v : bool) (s : Slot) : Slot :=
  mkSlot (s_id s) (inFlight s) (healthy s) (startedAt s) (crashes s) (drained s)
    (refusalEstimate s) (telem s) (pid s) v (exited s).
Definition set_exited (v : bool) (s : Slot) : Slot :=
  mkSlot (s_id s) (inFlight s) (healthy s) (startedAt s) (crashes s) (drained s)
    (refusalEstimate s) (telem s) (pid s) (connected s) v.

Definition with_objs (o : gmap nat Slot) (p : Pool) : Pool :=
  mkPool o (slots p) (nextRef p) (shuttingDown p) (idleWaiters p) (nextWaiter p)
    (refusalSeq p) (refusalCounted p) (tally p) (timers p).
Definition with_tally (t : PoolCounters) (p : Pool) : Pool :=
  mkPool (objs p) (slots p) (nextRef p) (shuttingDown p) (idleWaiters p) (nextWaiter p)
    (refusalSeq p) (refusalCounted p) t (timers p).
Definition with_waiters (w : list nat) (p : Pool) : Pool :=
  mkPool (objs p) (slots p) (nextRef p) (shuttingDown p) w (nextWaiter p)
    (refusalSeq p) (refusalCounted p) (tally p) (timers p).
Definition with_refusal (seq : Z) (counted : bool) (p : Pool) : Pool :=
  mkPool (objs p) (slots p) (nextRef p) (shuttingDown p) (idleWaiters p) (nextWaiter p)
    seq counted (tally p) (timers p).
Definition with_timers (t : list nat) (p : Pool) : Pool :=
  mkPool (objs p) (slots p) (nextRef p) (shuttingDown p) (idleWaiters p) (nextWaiter p)
    (refusalSeq p) (refusalCounted p) (tally p) t.

(** Update of one slot object, in place. *)
Definition upd (r : nat) (f : Slot → Slot) (p : Pool) : Pool := with_objs (alter f r (objs p)) p.

Definition bump_restarts (t : PoolCounters) : PoolCounters :=
  mkTally (restarts t + 1) (handoffRetries t) (handoffFailures t) (overAdmission t)
    (spuriousRefusals t) (headTruncations t).
Definition bump_handoffRetries (t : PoolCounters) : PoolCounters :=
  mkTally (restarts t) (handoffRetries t + 1) (handoffFailures t) (overAdmission t)
    (spuriousRefusals t) (headTruncations t).
Definition bump_handoffFailures (t : PoolCounters) : PoolCounters :=
  mkTally (restarts t) (handoffRetries t) (handoffFailures t + 1) (overAdmission t)
    (spuriousRefusals t) (headTruncations t).
Definition bump_overAdmission (t : PoolCounters) : PoolCounters :=
  mkTally (restarts t) (handoffRetries t) (handoffFailures t) (overAdmission t + 1)
    (spuriousRefusals t) (headTruncations t).
Definition bump_spuriousRefusals (t : PoolCounters) : PoolCounters :=
  mkTally (restarts t) (handoffRetries t) (handoffFailures t) (overAdmission t)
    (spuriousRefusals t + 1) (headTruncations t).
Definition bump_headTruncations (t : PoolCounters) : PoolCounters :=
  mkTally (restarts t) (handoffRetries t) (handoffFailures t) (overAdmission t)
    (spuriousRefusals t) (headTruncations t + 1).

(** ** Reading the pool *)

Definition slot_at (p : Pool) (id : nat) : option (nat * Slot) :=
  r ← slots p !! id; s ← objs p !! r; Some (r, s).

Definition view_of (p : Pool) (id r : nat) : WorkerView :=
  match objs p !! r with
  | Some s => mkView id (inFlight s) (healthy s)
  | None => mkView id 0 false
  end.

Definition views (p : Pool) : list WorkerView := imap (view_of p) (slots p).

Record WorkerTelemetry := mkWorkerTelemetry {
  t_id : nat;
  t_pid : option Z;
  t_inFlight : Z;
  t_healthy : bool;
  t_loopLagP99Ms : jsnum Q;
  t_rssBytes : jsnum Q;
}.

Definition current (p : Pool) : list Slot := omap (fun r => objs p !! r) (slots p).

Definition telemetry (p : Pool) : list WorkerTelemetry :=
  imap (fun id s => mkWorkerTelemetry id (pid s) (inFlight s) (healthy s)
                      (loopLagP99Ms (telem s)) (rssBytes (telem s))) (current p).

Definition Qmax_list (d : Q) (l : list Q) : Q :=
  foldr (fun q m => if Qle_bool m q then q else m) d l.

(** The pool-wide rollup; the result [NaN] stands for "no reading". *)
Definition aggregates (p : Pool) : jsnum Q * jsnum Q :=
  let held := omap (fun s => finite_val (leasesHeld (telem s))) (current p) in
  let sizes := (fun s => default 0%Q (finite_val (leasePoolSize (telem s)))) <$> current p in
  let size := Qmax_list 0 sizes in
  let leaseSaturation :=
    if (length held =? 0)%nat || Qle_bool size 0 then NaN
    else Fin (foldl Qplus 0%Q held / size)%Q in
  let ops := omap (fun s => finite_val (fileOpP95Ms (telem s))) (current p) in
  let worst := match ops with [] => NaN | q :: qs => Fin (Qmax_list q qs) end in
  (leaseSaturation, worst).

Definition allIdle (p : Pool) : bool :=
  forallb (fun s => inFlight s <=? 0) (current p).

(** ** Operations *)

Definition notifyIfIdle (p : Pool) : Pool * list effect :=
  if negb (allIdle p) then (p, [])
  else (with_waiters [] p, (fun w => ResolveWaiter w true) <$> idleWaiters p).

Definition noteRefusal (p : Pool) : Pool :=
  let p1 := with_refusal (refusalSeq p + 1) false p in
  foldl (fun q r => upd r (fun s => set_refusalEstimate (Some (inFlight s)) s) q) p1 (slots p).

Definition noteHeadTruncated (n : Z) (p : Pool) : Pool * list effect :=
  (with_tally (bump_headTruncations (tally p)) p, [Log (HeadTruncated n)]).

Definition conn_msg (head : option bytes) : SupervisorToWorker :=
  match head with
  | Some (c :: h) => Conn (Some (b64_encode (c :: h)))
  | _ => Conn None
  end.

(** The guarded [send] of one turn of the loop: the handle it went to, if it was
    sent.  [throws r] says whether [send] to handle [r] throws. *)
Definition attempt (throws : nat → bool) (target : nat) (p : Pool) : option nat :=
  match slot_at p target with
  | Some (r, s) => if healthy s && connected s && negb (throws r) then Some r else None
  | None => None
  end.

(** The [while] loop of [handOff]; [None] is running out of fuel. *)
Fixpoint handOff_loop (fuel : nat) (throws : nat → bool) (socket : nat) (msg : SupervisorToWorker)
    (tried : list nat) (target : nat) (p : Pool) : option (option nat * Pool * list effect) :=
  match fuel with
  | O => None
  | S f =>
      let tried' := target :: tried in
      match attempt throws target p with
      | Some r =>
          Some (Some target, upd r (fun s => set_inFlight (inFlight s + 1) s) p,
                [SendMsg r msg (Some socket)])
      | None =>
          let p' := with_tally (bump_handoffRetries (tally p)) p in
          match pickLeastLoaded (filter (fun v => wv_id v ∉ tried') (views p')) with
          | None => Some (None, p', [Log (HandoffRetry target)])
          | Some next =>
              '(res, q, effs) ← handOff_loop f throws socket msg tried' next p';
              Some (res, q, Log (HandoffRetry target) :: effs)
          end
      end
  end.

Definition handOff_fuel (p : Pool) : nat := S (length (slots p)).

Definition handOff (throws : nat → bool) (preferred socket : nat) (head : option bytes) (p : Pool) :
    option (option nat * Pool * list effect) :=
  '(res, q, effs) ← handOff_loop (handOff_fuel p) throws socket (conn_msg head) [] preferred p;
  match res with
  | Some target => Some (Some target, q, effs)
  | None =>
      let q1 := with_tally (bump_handoffFailures (tally q)) q in
      Some (None, noteRefusal q1, effs ++ [Log (HandoffFailed preferred); RefuseSocket socket])
  end.

(** [spawn(id)] at time [now]: [pid_] is what the fork returned. *)
Definition set_slot (id r : nat) (l : list nat) : list nat :=
  if (id <? length l)%nat then <[id := r]> l else l ++ [r].

Definition spawn (now : Z) (id : nat) (pid_ : option Z) (p : Pool) : Pool * list effect :=
  let prev := match slot_at p id with Some (_, s) => crashes s | None => 0 end in
  let r := nextRef p in
  let s := mkSlot id 0 false now prev false None no_telemetry pid_ true false in
  (mkPool (<[r := s]> (objs p)) (set_slot id r (slots p)) (S r) (shuttingDown p) (idleWaiters p)
     (nextWaiter p) (refusalSeq p) (refusalCounted p) (tally p) (timers p),
   [Fork id]).

Definition empty_pool : Pool :=
  mkPool ∅ [] 0 false [] 0 0 true (mkTally 0 0 0 0 0 0) [].

(** The constructor: fork workers [0 .. workers-1]; [now] is the clock and
    [pids] what the forks return. *)
Definition new_pool (opts : PoolOptions) (now : nat → Z) (pids : nat → option Z) :
    Pool * list effect :=
  foldl (fun '(p, effs) id => let '(p', e) := spawn (now id) id (pids id) p in (p', effs ++ e))
    (empty_pool, []) (seq 0 (workers opts)).

Definition reconcile (id r : nat) (actual : Z) (p : Pool) : Pool * list effect :=
  match objs p !! r with
  | None => (p, [])
  | Some slot =>
      let estimate := inFlight slot in
      let p1 := upd r (set_inFlight actual) p in
      let '(p2, e2) := notifyIfIdle p1 in
      let '(p3, e3) :=
        if estimate <? actual
        then (with_tally (bump_overAdmission (tally p2)) p2, [Log (OverAdmission id estimate actual)])
        else (p2, []) in
      match refusalEstimate slot with
      | None => (p3, e2 ++ e3)
      | Some atRefusal =>
          let p4 := upd r (set_refusalEstimate None) p3 in
          if (actual <? atRefusal) && negb (refusalCounted p4)
          then (with_tally (bump_spuriousRefusals (tally p4))
                  (with_refusal (refusalSeq p4) true p4),
                e2 ++ e3 ++ [Log (RefusalReconciled (refusalSeq p4) id atRefusal actual)])
          else (p4, e2 ++ e3)
      end
  end.

Definition merge_reading {A} (new : option (jsnum A)) (old : jsnum A) : jsnum A := default old new.

(** The ['message'] handler of the worker whose slot object is [r]. *)
Definition onMessage (r : nat) (msg : WorkerToSupervisor) (p : Pool) : Pool * list effect :=
  match objs p !! r with
  | None => (p, [])
  | Some slot =>
      let id := s_id slot in
      match msg with
      | Ready pid =>
          if drained slot then (p, [Log (ReadyIgnoredDraining id pid)])
          else (upd r (set_healthy true) p, [Log (WorkerReady id pid)])
      | Draining => (upd r (set_healthy false) p, [])
      | Stats lag rss held size op =>
          let t := telem slot in
          (upd r (set_telem (mkTelemetry (merge_reading lag (loopLagP99Ms t))
                    (merge_reading rss (rssBytes t)) (merge_reading held (leasesHeld t))
                    (merge_reading size (leasePoolSize t)) (merge_reading op (fileOpP95Ms t)))) p,
           [])
      | Load _ (Some (Fin n)) => reconcile id r n p
      | Load type _ => (p, [Log (UnrecognisedMessage id type)])
      end
  end.

(** The ['exit'] handler, at time [now]. *)
Definition onExit (opts : PoolOptions) (r : nat) (now : Z) (p : Pool) : Pool * list effect :=
  match objs p !! r with
  | None => (p, [])
  | Some slot =>
      let p1 := upd r (fun s => set_inFlight 0 (set_healthy false s)) p in
      let '(p2, e2) := notifyIfIdle p1 in
      if shuttingDown p2 then (p2, e2)
      else
        let ranFor := now - startedAt slot in
        let c := if healthyRunMs opts <=? ranFor then 0 else crashes slot in
        let delay := Z.min (restartBackoffMs opts * 2 ^ c) MAX_BACKOFF_MS in
        let p3 := upd r (set_crashes (c + 1)) p2 in
        let p4 := with_tally (bump_restarts (tally p3)) p3 in
        (with_timers (s_id slot :: timers p4) p4,
         e2 ++ [Log (WorkerExit (s_id slot) ranFor delay); SetTimer (s_id slot) delay])
  end.

(** The restart timer of worker [id] fires. *)
Definition onTimer (now : Z) (id : nat) (pid_ : option Z) (p : Pool) : Pool * list effect :=
  if shuttingDown p then (p, []) else spawn now id pid_ p.

Definition awaitIdle (p : Pool) : Pool * list effect :=
  let w := nextWaiter p in
  if allIdle p
  then (mkPool (objs p) (slots p) (nextRef p) (shuttingDown p) (idleWaiters p) (S w)
          (refusalSeq p) (refusalCounted p) (tally p) (timers p), [ResolveWaiter w true])
  else (mkPool (objs p) (slots p) (nextRef p) (shuttingDown p) (idleWaiters p ++ [w]) (S w)
          (refusalSeq p) (refusalCounted p) (tally p) (timers p), []).

(** The [awaitIdle] timeout of waiter [w]. *)
Definition onWaiterTimeout (w : nat) (p : Pool) : Pool * list effect :=
  (with_waiters (filter (fun x => x ≠ w) (idleWaiters p)) p, [ResolveWaiter w false]).

(** One turn of the [drainAll] loop; a synchronous throw is swallowed. *)
Definition drain_one (throws : nat → bool) (acc : Pool * list effect) (r : nat) : Pool * list effect :=
  let '(p, effs) := acc in
  match objs p !! r with
  | None => (p, effs)
  | Some s =>
      if drained s then (p, effs)
      else
        let p' := upd r (set_drained true) p in
        if connected s && negb (throws r) then (p', effs ++ [SendMsg r Drain None])
        else (p', effs)
  end.

Definition drainAll (throws : nat → bool) (p : Pool) : Pool * list effect :=
  let p1 := mkPool (objs p) (slots p) (nextRef p) true (idleWaiters p) (nextWaiter p)
              (refusalSeq p) (refusalCounted p) (tally p) (timers p) in
  foldl (drain_one throws) (p1, []) (slots p1).

(** The handlers as one transition relation.  Each rule's premises are what Node
    guarantees of the event: a process exits once, a restart timer fires once
    after it was set, a waiter's timer fires unless it was cleared; [awaitIdle] is
    called by the shutdown sequence only, after [drainAll]. *)
Inductive pool_step (opts : PoolOptions) : Pool → Pool → list effect → Prop :=
| step_handOff throws preferred socket head res p q effs :
    handOff throws preferred socket head p = Some (res, q, effs) → pool_step opts p q effs
| step_truncated n p : pool_step opts p (noteHeadTruncated n p).1 (noteHeadTruncated n p).2
| step_refusal p : pool_step opts p (noteRefusal p) []
| step_awaitIdle p :
    shuttingDown p = true → pool_step opts p (awaitIdle p).1 (awaitIdle p).2
| step_waiterTimeout w p :
    w ∈ idleWaiters p → pool_step opts p (onWaiterTimeout w p).1 (onWaiterTimeout w p).2
| step_drainAll throws p : pool_step opts p (drainAll throws p).1 (drainAll throws p).2
| step_timer now id pid_ p l1 l2 :
    timers p = l1 ++ id :: l2 →
    pool_step opts p (onTimer now id pid_ (with_timers (l1 ++ l2) p)).1
      (onTimer now id pid_ (with_timers (l1 ++ l2) p)).2
| step_message r msg p :
    is_Some (objs p !! r) → pool_step opts p (onMessage r msg p).1 (onMessage r msg p).2
| step_exit r s now p :
    objs p !! r = Some s → exited s = false →
    pool_step opts p (onExit opts r now (upd r (set_exited true) p)).1
      (onExit opts r now (upd r (set_exited true) p)).2
| step_disconnect r p : pool_step opts p (upd r (set_connected false) p) []
| step_error id p : pool_step opts p p [Log (WorkerChannelError id)].

(** States reachable from the constructor, with everything done on the way. *)
Inductive reachable (opts : PoolOptions) (now : nat → Z) (pids : nat → option Z) :
    Pool → list effect → Prop :=
| reach_new :
    reachable opts now pids (new_pool opts now pids).1 (new_pool opts now pids).2
| reach_step p q tr effs :
    reachable opts now pids p tr → pool_step opts p q effs →
    reachable opts now pids q (tr ++ effs).

(** ** Lemmas: the skeleton of the pool

    Which worker objects exist, which of them are gone, which are in [slots] and
    which timers are pending.  Most operations leave all of this alone. *)

Definition slot_skel (s : Slot) : nat * bool := (s_id s, exited s).

Definition skeleton (p : Pool) : gmap nat (nat * bool) * list nat * nat * list nat * bool :=
  (slot_skel <$> objs p, slots p, nextRef p, timers p, shuttingDown p).

Lemma skeleton_upd r f p :
  (∀ s, slot_skel (f s) = slot_skel s) → skeleton (upd r f p) = skeleton p.
Proof.
  intros Hf. unfold skeleton. simpl. f_equal. f_equal. f_equal. f_equal.
  apply map_eq. intros i. rewrite !lookup_fmap, lookup_alter.
  case_decide; [subst|done]. destruct (objs p !! i) as [s|]; simpl; [by rewrite Hf|done].
Qed.

Lemma skeleton_fold_upd (f : Slot → Slot) l p :
  (∀ s, slot_skel (f s) = slot_skel s) →
  skeleton (foldl (fun q r => upd r f q) p l) = skeleton p.
Proof.
  intros Hf. revert p. induction l as [|r l IH]; intros p; simpl; [done|].
  by rewrite IH, skeleton_upd.
Qed.

Lemma skeleton_noteRefusal p : skeleton (noteRefusal p) = skeleton p.
Proof. unfold noteRefusal. by rewrite skeleton_fold_upd. Qed.

Lemma skeleton_notifyIfIdle p : skeleton (notifyIfIdle p).1 = skeleton p.
Proof. unfold notifyIfIdle. by destruct (negb _). Qed.

Lemma skeleton_reconcile id r n p : skeleton (reconcile id r n p).1 = skeleton p.
Proof.
  unfold reconcile. destruct (objs p !! r) as [s|]; [|done].
  pose proof (skeleton_notifyIfIdle (upd r (set_inFlight n) p)) as H.
  rewrite skeleton_upd in H by done.
  destruct (notifyIfIdle _) as [p2 e2]; simpl in H.
  destruct (inFlight s <? n), (refusalEstimate s); try done;
    (destruct (_ && _); simpl; [change (skeleton (upd r (set_refusalEstimate None) p2) = skeleton p)|];
     rewrite skeleton_upd; done).
Qed.

Lemma skeleton_onMessage r msg p : skeleton (onMessage r msg p).1 = skeleton p.
Proof.
  unfold onMessage. destruct (objs p !! r) as [s|]; [|done].
  destruct msg as [pid|ty [[n| | |]|]| |]; try done.
  - destruct (drained s); simpl; [done|]. by rewrite skeleton_upd.
  - apply skeleton_reconcile.
  - simpl. by rewrite skeleton_upd.
  - simpl. by rewrite skeleton_upd.
Qed.

Lemma fst_drain_one throws p effs r :
  (drain_one throws (p, effs) r).1 = p ∨ (drain_one throws (p, effs) r).1 = upd r (set_drained true) p.
Proof.
  unfold drain_one. destruct (objs p !! r) as [s|]; [|by left].
  destruct (drained s); [by left|]. destruct (_ && _); by right.
Qed.

(** An invariant of the state that survives marking any slot as drained survives
    the whole [drainAll] loop. *)
Lemma drain_loop_ind (P : Pool → Prop) throws l p effs :
  (∀ q r, P q → P (upd r (set_drained true) q)) →
  P p → P (foldl (drain_one throws) (p, effs) l).1.
Proof.
  intros Hupd. revert p effs. induction l as [|r l IH]; intros p effs HP; [done|]. cbn [foldl].
  destruct (drain_one throws (p, effs) r) as [p' e'] eqn:E.
  apply IH. destruct (fst_drain_one throws p effs r) as [H|H]; rewrite E in H; simpl in H; subst; auto.
Qed.

(** *** The hand-off loop *)

Definition inc_inFlight (s : Slot) : Slot := set_inFlight (inFlight s + 1) s.

Definition usable (throws : nat → bool) (r : nat) (s : Slot) : bool :=
  healthy s && connected s && negb (throws r).

Definition untried (tried : list nat) (p : Pool) : list WorkerView :=
  filter (fun v => wv_id v ∉ tried) (views p).

Lemma views_lookup p id :
  views p !! id = (fun r => view_of p id r) <$> slots p !! id.
Proof. unfold views. by rewrite list_lookup_imap. Qed.

Lemma elem_of_views p v :
  v ∈ views p ↔ ∃ r, slots p !! wv_id v = Some r ∧ v = view_of p (wv_id v) r.
Proof.
  rewrite list_elem_of_lookup. setoid_rewrite views_lookup. split.
  - intros (i & H). destruct (slots p !! i) as [r|] eqn:E; simplify_eq/=. exists r.
    assert (wv_id (view_of p i r) = i) as -> by (unfold view_of; by destruct (objs p !! r)).
    done.
  - intros (r & Hr & Hv). exists (wv_id v). by rewrite Hr, Hv at 1.
Qed.

Lemma slot_at_view p id r s :
  slot_at p id = Some (r, s) → mkView id (inFlight s) (healthy s) ∈ views p.
Proof.
  unfold slot_at. intros H. destruct (slots p !! id) as [r'|] eqn:E; simplify_eq/=.
  destruct (objs p !! r') eqn:Eo; simplify_eq/=.
  apply elem_of_views. simpl. exists r. split; [done|]. unfold view_of. by rewrite Eo.
Qed.

Lemma untried_shrinks tried next p :
  (∃ v, v ∈ untried tried p ∧ wv_id v = next) →
  (length (untried (next :: tried) p) < length (untried tried p))%nat.
Proof.
  unfold untried. generalize (views p). intros l (v & Hv & Hid).
  apply list_elem_of_filter in Hv as [Hnt Hin].
  assert (Hle : ∀ k, (length (filter (λ v, wv_id v ∉ next :: tried) k)
                 ≤ length (filter (λ v, wv_id v ∉ tried) k))%nat).
  { induction k as [|x k IH]; [done|]. rewrite !filter_cons.
    repeat case_decide; simpl; set_solver by lia. }
  apply list_elem_of_split in Hin as (l1 & l2 & ->).
  rewrite !filter_app, !length_app, !filter_cons.
  rewrite decide_False by set_solver. rewrite decide_True by done. simpl.
  pose proof (Hle l1). pose proof (Hle l2). lia.
Qed.

Lemma pick_untried tried p next :
  pickLeastLoaded (untried tried p) = Some next →
  ∃ v, v ∈ untried tried p ∧ wv_id v = next.
Proof.
  intros (w & Hw%first_least_healthy & <-)%pickLeastLoaded_Some. exists w. tauto.
Qed.

Lemma handOff_loop_total fuel throws socket msg tried target p :
  (length (untried (target :: tried) p) < fuel)%nat →
  is_Some (handOff_loop fuel throws socket msg tried target p).
Proof.
  revert tried target p. induction fuel as [|f IH]; intros tried target p Hf; [lia|].
  cbn [handOff_loop]. set (p' := with_tally _ p).
  assert (Hretry : ∀ next, pickLeastLoaded (untried (target :: tried) p') = Some next →
    is_Some (handOff_loop f throws socket msg (target :: tried) next p')).
  { intros next Hn%pick_untried. apply IH.
    pose proof (untried_shrinks _ _ _ Hn) as Hlt.
    change (untried (target :: tried) p') with (untried (target :: tried) p) in Hlt. lia. }
  change (filter _ (views p')) with (untried (target :: tried) p').
  destruct (attempt throws target p); [eauto|].
  destruct (pickLeastLoaded _) as [next|] eqn:E; [|eauto].
  destruct (Hretry next eq_refl) as [[[res q] effs] ->]. simpl. eauto.
Qed.

Definition is_log (e : effect) : Prop := match e with Log _ => True | _ => False end.

Lemma attempt_Some throws id p r :
  attempt throws id p = Some r ↔ ∃ s, slot_at p id = Some (r, s) ∧ usable throws r s = true.
Proof.
  unfold attempt. destruct (slot_at p id) as [[r' s']|].
  - fold (usable throws r' s'). destruct (usable throws r' s') eqn:E; split.
    + intros [= <-]. eauto.
    + by intros (s & [= -> ->] & _).
    + done.
    + intros (s & [= -> ->] & ?). congruence.
  - split; [done|]. by intros (s & ? & _).
Qed.

(** What the loop did: it handed the socket to a usable slot, or no untried slot
    was usable. *)
Lemma handOff_loop_spec fuel throws socket msg tried target p res q effs :
  handOff_loop fuel throws socket msg tried target p = Some (res, q, effs) →
  ∃ t' logs, Forall is_log logs ∧ spuriousRefusals t' = spuriousRefusals (tally p) ∧
  match res with
  | Some id => ∃ r, attempt throws id p = Some r
      ∧ q = upd r inc_inFlight (with_tally t' p) ∧ effs = logs ++ [SendMsg r msg (Some socket)]
  | None => q = with_tally t' p ∧ effs = logs ∧ attempt throws target p = None
      ∧ ∀ v, v ∈ views p → wv_id v ∉ tried → wv_healthy v = true → attempt throws (wv_id v) p = None
  end.
Proof.
  revert tried target p res q effs.
  induction fuel as [|f IH]; intros tried target p res q effs; [done|].
  cbn [handOff_loop]. set (p' := with_tally _ p). set (tried' := target :: tried).
  change (filter _ (views p')) with (untried tried' p). intros H.
  destruct (attempt throws target p) as [r|] eqn:Ea; simplify_eq.
  { exists (tally p), []. split_and!; [constructor|done|]. exists r. destruct p; done. }
  destruct (pickLeastLoaded (untried tried' p)) as [next|] eqn:Ep; simplify_eq.
  - destruct (handOff_loop f _ _ _ _ _ _) as [[[res' q'] effs']|] eqn:El; simplify_eq/=.
    destruct (IH _ _ _ _ _ _ El) as (t' & logs & Hlogs & Hsp & Hres).
    exists t', (Log (HandoffRetry target) :: logs). split_and!; [by constructor|done|].
    destruct res as [id|].
    + destruct Hres as (r & Hat & -> & ->). exists r. split_and!; done.
    + destruct Hres as (-> & -> & Hn & Hall). split_and!; try done.
      intros v Hv Hnt Hh. destruct (decide (wv_id v = target)) as [->|Hne]; [done|].
      apply Hall; [done| |done]. unfold tried'. set_solver.
  - exists (bump_handoffRetries (tally p)), [Log (HandoffRetry target)]. split_and!; [by repeat constructor|done|done|done|done|].
    intros v Hv Hnt Hh. destruct (decide (wv_id v = target)) as [->|Hne]; [done|].
    apply pickLeastLoaded_None with (v := v) in Ep; [congruence|].
    apply list_elem_of_filter. unfold tried'. set_solver.
Qed.

Lemma handOff_spec throws preferred socket head p res q effs :
  handOff throws preferred socket head p = Some (res, q, effs) →
  ∃ t' logs, Forall is_log logs ∧ spuriousRefusals t' = spuriousRefusals (tally p) ∧
  match res with
  | Some id => ∃ r, attempt throws id p = Some r ∧ q = upd r inc_inFlight (with_tally t' p)
      ∧ effs = logs ++ [SendMsg r (conn_msg head) (Some socket)]
  | None => q = noteRefusal (with_tally t' p) ∧ effs = logs ++ [RefuseSocket socket]
      ∧ ∀ id, attempt throws id p = None
  end.
Proof.
  unfold handOff. destruct (handOff_loop _ _ _ _ _ _ _) as [[[res' q'] effs']|] eqn:E; [|done].
  destruct (handOff_loop_spec _ _ _ _ _ _ _ _ _ _ E) as (t' & logs & Hl & Hsp & Hres).
  destruct res' as [id|]; intros H; simplify_eq/=.
  - exists t', logs. eauto.
  - destruct Hres as (-> & -> & Hpref & Hall).
    exists (bump_handoffFailures t'), (logs ++ [Log (HandoffFailed preferred)]).
    split_and!; [apply Forall_app; split; [done|by repeat constructor]|done|done|
                 by rewrite <-app_assoc|].
    intros id. destruct (attempt throws id p) as [r|] eqn:Ea; [|done].
    apply attempt_Some in Ea as Ea'. destruct Ea' as (s & Hat & Hu).
    specialize (Hall _ (slot_at_view _ _ _ _ Hat)). simpl in Hall.
    unfold usable in Hu. to_prop. rewrite Hall in Ea; [done|set_solver|done].
Qed.

Lemma skeleton_handOff throws preferred socket head p res q effs :
  handOff throws preferred socket head p = Some (res, q, effs) → skeleton q = skeleton p.
Proof.
  intros (t' & logs & _ & _ & Hres)%handOff_spec. destruct res as [id|].
  - destruct Hres as (r & _ & -> & _). by rewrite skeleton_upd.
  - destruct Hres as (-> & _). by rewrite skeleton_noteRefusal.
Qed.

(** *** Supervision: one process per worker, and none abandoned *)

Record supervised (n : nat) (p : Pool) : Prop := {
  sup_len : length (slots p) = n;
  sup_slots : ∀ id r, slots p !! id = Some r → ∃ s, objs p !! r = Some s ∧ s_id s = id;
  sup_ids : ∀ r s, objs p !! r = Some s → (s_id s < n)%nat;
  sup_fresh : ∀ r, is_Some (objs p !! r) → (r < nextRef p)%nat;
  (* a process that has not exited is the one its slot points to *)
  sup_live : ∀ r s, objs p !! r = Some s → exited s = false → slots p !! s_id s = Some r;
  (* a restart is only ever pending for a worker whose process is gone, and only once *)
  sup_timers : NoDup (timers p);
  sup_timer_dead : ∀ id, id ∈ timers p →
    ∃ r s, slots p !! id = Some r ∧ objs p !! r = Some s ∧ exited s = true;
  (* unless the pool is shutting down, a worker whose process is gone will be restarted *)
  sup_restart : shuttingDown p = false → ∀ id r s, slots p !! id = Some r →
    objs p !! r = Some s → exited s = true → id ∈ timers p;
}.

Lemma skel_lookup p r :
  slot_skel <$> objs p !! r = (skeleton p).1.1.1.1 !! r.
Proof. simpl. by rewrite lookup_fmap. Qed.

Lemma skel_transfer p q r s :
  skeleton p = skeleton q → objs p !! r = Some s →
  ∃ s', objs q !! r = Some s' ∧ s_id s' = s_id s ∧ exited s' = exited s.
Proof.
  intros Hsk Hr. pose proof (skel_lookup p r) as Hl. rewrite Hr, Hsk, <-skel_lookup in Hl.
  destruct (objs q !! r) as [s'|]; simplify_eq/=. eauto.
Qed.

Lemma supervised_skel n p q : skeleton p = skeleton q → supervised n p → supervised n q.
Proof.
  intros Hsk [Hlen Hsl Hids Hfr Hlive Htm Htd Hrs].
  assert (slots q = slots p ∧ nextRef q = nextRef p ∧ timers q = timers p
          ∧ shuttingDown q = shuttingDown p) as (E1 & E2 & E3 & E4)
    by (unfold skeleton in Hsk; by simplify_eq).
  assert (Hsk' := eq_sym Hsk).
  split; rewrite ?E1, ?E2, ?E3, ?E4; try done.
  - intros id r (s & Hs & Hid)%Hsl. destruct (skel_transfer _ _ _ _ Hsk Hs) as (s' & ? & ? & _).
    exists s'. by split; [|congruence].
  - intros r s Hs. destruct (skel_transfer _ _ _ _ Hsk' Hs) as (s' & Hs' & <- & _). eauto.
  - intros r [s Hs]. destruct (skel_transfer _ _ _ _ Hsk' Hs) as (s' & Hs' & _). eauto.
  - intros r s Hs He. destruct (skel_transfer _ _ _ _ Hsk' Hs) as (s' & Hs' & <- & E).
    apply Hlive; congruence.
  - intros id (r & s & H1 & Hs & H3)%Htd. destruct (skel_transfer _ _ _ _ Hsk Hs) as (s' & ? & ? & ?).
    exists r, s'. split_and!; congruence.
  - intros Hsd id r s H1 Hs He. destruct (skel_transfer _ _ _ _ Hsk' Hs) as (s' & Hs' & _ & E).
    eapply Hrs; [done|done|done|congruence].
Qed.

(** Marking one process as exited and, unless shutting down, arming its restart. *)
Lemma skeleton_onExit opts r now p s :
  objs p !! r = Some s →
  skeleton (onExit opts r now p).1 =
  (slot_skel <$> objs p, slots p, nextRef p,
   (if shuttingDown p then timers p else s_id s :: timers p), shuttingDown p).
Proof.
  intros Hs. unfold onExit. rewrite Hs. set (p1 := upd _ _ p).
  assert (H1 : skeleton p1 = skeleton p) by by apply skeleton_upd.
  pose proof (skeleton_notifyIfIdle p1) as H2. rewrite H1 in H2.
  destruct (notifyIfIdle p1) as [p2 e2]. simpl in H2.
  assert (shuttingDown p2 = shuttingDown p) as E by (unfold skeleton in H2; by simplify_eq).
  rewrite E. destruct (shuttingDown p) eqn:Esd.
  - cbn [fst]. rewrite H2. unfold skeleton. by rewrite Esd.
  - set (c := if healthyRunMs opts <=? _ then _ else _).
    change (skeleton _) with
      (slot_skel <$> objs (upd r (set_crashes (c + 1)) p2), slots p2, nextRef p2,
       s_id s :: timers p2, shuttingDown p2).
    assert (H3 : skeleton (upd r (set_crashes (c + 1)) p2) = skeleton p)
      by (by rewrite skeleton_upd).
    unfold skeleton in H3. simplify_eq/=. congruence.
Qed.

Lemma supervised_exit n p r s :
  supervised n p → objs p !! r = Some s → exited s = false →
  supervised n (with_timers (if shuttingDown p then timers p else s_id s :: timers p)
                  (upd r (set_exited true) p)).
Proof.
  intros [Hlen Hsl Hids Hfr Hlive Htm Htd Hrs] Hs He.
  pose proof (Hlive r s Hs He) as Hat.
  assert (Hnt : s_id s ∉ timers p).
  { intros (r' & s' & ? & ? & ?)%Htd. simplify_eq. congruence. }
  assert (Hup : ∀ r' s', objs (upd r (set_exited true) p) !! r' = Some s' →
    ∃ s0, objs p !! r' = Some s0 ∧ s_id s' = s_id s0
      ∧ exited s' = if decide (r = r') then true else exited s0).
  { intros r' s' H'. simpl in H'. rewrite lookup_alter in H'. case_decide; [|by eauto].
    subst. rewrite Hs in H'. simplify_eq/=. eauto. }
  assert (Hdn : ∀ r' s0, objs p !! r' = Some s0 → ∃ s', objs (upd r (set_exited true) p) !! r' = Some s'
      ∧ s_id s' = s_id s0 ∧ exited s' = if decide (r = r') then true else exited s0).
  { intros r' s0 H'. simpl. rewrite lookup_alter. case_decide; [|by eauto].
    subst. rewrite Hs in *. simplify_eq/=. eauto. }
  split; cbn [slots timers nextRef shuttingDown objs with_timers upd with_objs] in *.
  - done.
  - intros id r' (s0 & H0 & <-)%Hsl. destruct (Hdn _ _ H0) as (s' & ? & ? & _). eauto.
  - intros r' s' (s0 & H0 & -> & _)%Hup. eauto.
  - intros r' [s' (s0 & H0 & _)%Hup]. eauto.
  - intros r' s' (s0 & H0 & -> & E)%Hup Hex. case_decide; [congruence|]. apply Hlive; congruence.
  - destruct (shuttingDown p); [done|]. by constructor.
  - intros id Hin.
    assert (id = s_id s ∨ id ∈ timers p) as [->|Hin'] by (destruct (shuttingDown p); set_solver).
    + destruct (Hdn _ _ Hs) as (s' & ? & ? & E). rewrite decide_True in E by done. eauto 6.
    + destruct (Htd _ Hin') as (r' & s0 & H1 & H0 & H2).
      destruct (Hdn _ _ H0) as (s' & ? & ? & E). exists r', s'. split_and!; try done.
      rewrite E. by case_decide.
  - intros Hsd id r' s' H1 (s0 & H0 & Hid & E)%Hup Hex. rewrite Hsd.
    destruct (decide (r = r')) as [<-|Hne].
    + apply elem_of_cons. left. destruct (Hsl _ _ H1) as (s1 & ? & ?). congruence.
    + apply elem_of_cons. right. eapply Hrs; [done|done|done|congruence].
Qed.

Lemma supervised_timers n p l1 id l2 :
  supervised n p → timers p = l1 ++ id :: l2 → shuttingDown p = true →
  supervised n (with_timers (l1 ++ l2) p).
Proof.
  intros [Hlen Hsl Hids Hfr Hlive Htm Htd Hrs] Ht Hsd. rewrite Ht in *.
  split; simpl; try done.
  - rewrite NoDup_app, NoDup_cons in Htm. apply NoDup_app. set_solver.
  - intros i Hi. apply Htd. set_solver.
  - congruence.
Qed.

Lemma supervised_spawn n p l1 id l2 now pid_ :
  supervised n p → timers p = l1 ++ id :: l2 →
  supervised n (spawn now id pid_ (with_timers (l1 ++ l2) p)).1.
Proof.
  intros [Hlen Hsl Hids Hfr Hlive Htm Htd Hrs] Ht. rewrite Ht in *.
  destruct (Htd id ltac:(set_solver)) as (r0 & s0 & Hr0 & Hs0 & He0).
  pose proof (lookup_lt_Some _ _ _ Hr0) as Hidn.
  assert (Hni : id ∉ l1 ++ l2).
  { apply NoDup_app in Htm as (_ & H1 & [H2 _]%NoDup_cons). set_solver. }
  assert (Hnew : objs p !! nextRef p = None).
  { destruct (objs p !! nextRef p) eqn:E; [|done].
    specialize (Hfr (nextRef p)). rewrite E in Hfr. specialize (Hfr ltac:(eauto)). lia. }
  unfold spawn, set_slot. rewrite (proj2 (Nat.ltb_lt _ _)) by (simpl; lia).
  split; cbn [fst slots timers nextRef shuttingDown objs with_timers].
  - by rewrite length_insert.
  - intros i r Hi. destruct (decide (i = id)) as [->|Hne].
    + rewrite list_lookup_insert_eq in Hi by done. simplify_eq.
      eexists. by rewrite lookup_insert_eq.
    + rewrite list_lookup_insert_ne in Hi by done. destruct (Hsl _ _ Hi) as (s & Hs & <-).
      exists s. split; [|done]. rewrite lookup_insert_ne; [done|congruence].
  - intros r s. rewrite lookup_insert. case_decide; [|by eauto]. intros [= <-]. simpl. lia.
  - intros r. rewrite lookup_insert. case_decide; [lia|]. intros Hlt%Hfr. lia.
  - intros r s. rewrite lookup_insert. case_decide as Hr.
    + intros [= <-] _. simpl. rewrite list_lookup_insert_eq; congruence.
    + intros Hs He. rewrite list_lookup_insert_ne; [by apply Hlive|].
      intros Heq. specialize (Hlive r s Hs He). simplify_eq. congruence.
  - rewrite NoDup_app, NoDup_cons in Htm. apply NoDup_app. set_solver.
  - intros i Hi. destruct (Htd i ltac:(set_solver)) as (r & s & H1 & H2 & H3).
    assert (i ≠ id) by (intros ->; done).
    exists r, s. rewrite list_lookup_insert_ne by done. split_and!; try done.
    rewrite lookup_insert_ne; [done|]. congruence.
  - intros Hsd i r s Hi. destruct (decide (i = id)) as [->|Hne].
    + rewrite list_lookup_insert_eq in Hi by done. simplify_eq.
      rewrite lookup_insert_eq. intros [= <-]. done.
    + rewrite list_lookup_insert_ne in Hi by done. destruct (Hsl _ _ Hi) as (s' & Hs' & _).
      rewrite lookup_insert_ne by congruence. intros Hs He.
      specialize (Hrs Hsd _ _ _ Hi Hs He). set_solver.
Qed.

Lemma supervised_step opts n p q effs :
  supervised n p → pool_step opts p q effs → supervised n q.
Proof.
  intros Hsup Hstep. destruct Hstep as
    [throws pr so h res p q effs H|k p|p|p Hsd|w p Hw|throws p|now id pid_ p l1 l2 Ht
    |r msg p Hr|r s now p Hs He|r p|id p].
  - apply skeleton_handOff in H. eapply supervised_skel; [symmetry; exact H|done].
  - by eapply supervised_skel; [|done].
  - eapply supervised_skel; [|done]. by rewrite skeleton_noteRefusal.
  - eapply supervised_skel; [|done]. unfold awaitIdle. by destruct (allIdle p).
  - by eapply supervised_skel; [|done].
  - unfold drainAll. apply drain_loop_ind.
    + intros q r Hq. eapply supervised_skel; [|exact Hq]. by rewrite skeleton_upd.
    + destruct Hsup. split; simpl; try done.
  - unfold onTimer. simpl. destruct (shuttingDown p) eqn:Hsd.
    + by eapply supervised_timers.
    + by apply supervised_spawn.
  - eapply supervised_skel; [|done]. by rewrite skeleton_onMessage.
  - eapply supervised_skel; [|by eapply supervised_exit].
    rewrite (skeleton_onExit opts r now (upd r (set_exited true) p) (set_exited true s)).
    + done.
    + simpl. by rewrite lookup_alter_eq, Hs.
  - eapply supervised_skel; [|done]. by rewrite skeleton_upd.
  - done.
Qed.

Lemma supervised_spawn_next n p now pid_ :
  supervised n p → timers p = [] → supervised (S n) (spawn now n pid_ p).1.
Proof.
  intros [Hlen Hsl Hids Hfr Hlive Htm Htd Hrs] Ht.
  assert (Hnew : objs p !! nextRef p = None).
  { destruct (objs p !! nextRef p) eqn:E; [|done].
    specialize (Hfr (nextRef p)). rewrite E in Hfr. specialize (Hfr ltac:(eauto)). lia. }
  unfold spawn, set_slot. rewrite (proj2 (Nat.ltb_ge _ _)) by lia.
  split; cbn [fst slots timers nextRef shuttingDown objs].
  - rewrite length_app. simpl. lia.
  - intros i r [Hi|[Hge Hi]]%lookup_app_Some.
    + destruct (Hsl _ _ Hi) as (s & Hs & <-). exists s. split; [|done].
      rewrite lookup_insert_ne; [done|congruence].
    + apply list_lookup_singleton_Some in Hi as [Hi ->]. eexists.
      rewrite lookup_insert_eq. split; [done|]. simpl. lia.
  - intros r s. rewrite lookup_insert. case_decide; [intros [= <-]; simpl; lia|].
    intros Hs%Hids. lia.
  - intros r. rewrite lookup_insert. case_decide; [lia|]. intros Hlt%Hfr. lia.
  - intros r s. rewrite lookup_insert. case_decide as Hr.
    + intros [= <-] _. simpl. apply lookup_app_Some. right. split; [lia|].
      apply list_lookup_singleton_Some. split; [lia|done].
    + intros Hs He. apply lookup_app_l_Some. by apply Hlive.
  - done.
  - rewrite Ht. set_solver.
  - intros Hsd i r s [Hi|[Hge Hi]]%lookup_app_Some.
    + destruct (Hsl _ _ Hi) as (s' & Hs' & _).
      rewrite lookup_insert_ne by congruence. by apply Hrs.
    + apply list_lookup_singleton_Some in Hi as [Hi ->]. rewrite lookup_insert_eq.
      intros [= <-]. done.
Qed.

Definition boot (now : nat → Z) (pids : nat → option Z) (n : nat) : Pool * list effect :=
  foldl (fun '(p, effs) id => let '(p', e) := spawn (now id) id (pids id) p in (p', effs ++ e))
    (empty_pool, []) (seq 0 n).

Lemma boot_S now pids n :
  boot now pids (S n) =
  ((spawn (now n) n (pids n) (boot now pids n).1).1, (boot now pids n).2 ++ [Fork n]).
Proof.
  unfold boot. rewrite seq_S, foldl_app. cbn [foldl Nat.add].
  by destruct (foldl _ _ _) as [p effs].
Qed.

(** What holds of every pool the constructor has built. *)
Lemma boot_inv now pids n :
  let p := (boot now pids n).1 in
  supervised n p ∧ timers p = [] ∧ shuttingDown p = false ∧ idleWaiters p = [] ∧ nextWaiter p = 0%nat
  ∧ refusalSeq p = 0 ∧ refusalCounted p = true ∧ tally p = mkTally 0 0 0 0 0 0
  ∧ (boot now pids n).2 = Fork <$> seq 0 n.
Proof.
  induction n as [|n IH].
  - split_and!; try done.
    split; simpl; try done; try apply NoDup_nil_2; try set_solver;
      intros; simplify_map_eq; try done.
  - rewrite boot_S. destruct IH as (Hsup & Ht & Hsd & Hw & Hnw & Hseq & Hc & Hta & He).
    cbn [fst snd]. split_and!; try done.
    + by apply supervised_spawn_next.
    + by rewrite He, seq_S, fmap_app.
Qed.

(** *** Waiting for idleness *)

Lemma allIdle_true p :
  allIdle p = true ↔ ∀ id r s, slots p !! id = Some r → objs p !! r = Some s → inFlight s ≤ 0.
Proof.
  unfold allIdle, current. rewrite forallb_forall. split.
  - intros H id r s Hid Hs. apply Z.leb_le. apply (H s), list_elem_of_In, list_elem_of_omap.
    exists r. split; [by eapply list_elem_of_lookup_2|done].
  - intros H s Hs%list_elem_of_In. apply list_elem_of_omap in Hs as (r & Hr & Hs).
    apply list_elem_of_lookup in Hr as [id Hid]. apply Z.leb_le. eauto.
Qed.

Lemma allIdle_false p :
  allIdle p = false ↔ ∃ id r s, slots p !! id = Some r ∧ objs p !! r = Some s ∧ 0 < inFlight s.
Proof.
  split.
  - unfold allIdle, current. intros H.
    apply not_true_iff_false in H. rewrite forallb_forall in H.
    assert (¬ Forall (fun s => inFlight s ≤ 0) (omap (fun r => objs p !! r) (slots p))) as Hn.
    { intros HF. apply H. intros s Hs%list_elem_of_In. apply Z.leb_le.
      rewrite Forall_forall in HF. auto. }
    apply not_Forall_Exists in Hn; [|intros; apply _].
    apply Exists_exists in Hn as (s & Hs & Hlt).
    apply list_elem_of_omap in Hs as (r & Hr & Hs). apply list_elem_of_lookup in Hr as [id Hid].
    exists id, r, s. split_and!; [done|done|simpl in Hlt; lia].
  - intros (id & r & s & H1 & H2 & H3). apply not_true_iff_false. rewrite allIdle_true.
    intros Hall. specialize (Hall _ _ _ H1 H2). lia.
Qed.

Lemma allIdle_upd r f p :
  (∀ s, inFlight s ≤ inFlight (f s)) → allIdle p = false → allIdle (upd r f p) = false.
Proof.
  intros Hf (id & r' & s & H1 & H2 & H3)%allIdle_false. apply allIdle_false.
  destruct (decide (r = r')) as [->|Hne].
  - exists id, r', (f s). simpl. rewrite lookup_alter_eq, H2. split_and!; try done.
    specialize (Hf s). lia.
  - exists id, r', s. simpl. by rewrite lookup_alter_ne.
Qed.

(** Nobody is left waiting on an idle pool: the wait is only entered during a
    shutdown, and whatever makes the pool idle resolves it. *)
Definition no_lost_wakeup (p : Pool) : Prop :=
  idleWaiters p ≠ [] → shuttingDown p = true ∧ allIdle p = false.

Lemma notify_wakes p : idleWaiters (notifyIfIdle p).1 ≠ [] → allIdle (notifyIfIdle p).1 = false.
Proof. unfold notifyIfIdle. destruct (allIdle p) eqn:E; simpl; [done|]. by rewrite E. Qed.

Lemma notify_shuttingDown p : shuttingDown (notifyIfIdle p).1 = shuttingDown p.
Proof. unfold notifyIfIdle. by destruct (allIdle p). Qed.

Lemma notify_waiters p : idleWaiters (notifyIfIdle p).1 ≠ [] → idleWaiters p ≠ [].
Proof. unfold notifyIfIdle. destruct (allIdle p); simpl; done. Qed.

Lemma allIdle_same r f p :
  (∀ s, inFlight (f s) = inFlight s) → allIdle (upd r f p) = allIdle p.
Proof.
  intros Hf. destruct (allIdle p) eqn:E.
  - apply allIdle_true. intros id r' s Hid. simpl. rewrite lookup_alter.
    case_decide; [subst|by eapply allIdle_true].
    destruct (objs p !! r') as [s0|] eqn:E0; [|done]. intros [= <-]. rewrite Hf.
    by eapply allIdle_true.
  - apply allIdle_upd; [|done]. intros s. rewrite Hf. lia.
Qed.

(** An operation that neither touches the waiters nor lowers an estimate. *)
Definition calm (p q : Pool) : Prop :=
  idleWaiters q = idleWaiters p ∧ nextWaiter q = nextWaiter p ∧ shuttingDown q = shuttingDown p
  ∧ (allIdle p = false → allIdle q = false).

Lemma calm_refl p : calm p p.
Proof. by split_and!. Qed.

Lemma calm_trans p q s : calm p q → calm q s → calm p s.
Proof. intros (?&?&?&?) (?&?&?&?). split_and!; [congruence..|auto]. Qed.

Lemma calm_upd r f p : (∀ s, inFlight s ≤ inFlight (f s)) → calm p (upd r f p).
Proof. intros Hf. split_and!; try done. by apply allIdle_upd. Qed.

Lemma calm_noteRefusal p : calm p (noteRefusal p).
Proof.
  unfold noteRefusal. generalize (slots p). intros l.
  assert (H : calm p (with_refusal (refusalSeq p + 1) false p)) by by split_and!.
  revert H. generalize (with_refusal (refusalSeq p + 1) false p) as q.
  induction l as [|r l IH]; intros q Hq; simpl; [done|].
  apply IH. eapply calm_trans; [done|]. apply calm_upd. simpl. lia.
Qed.

Lemma calm_handOff throws preferred socket head p res q effs :
  handOff throws preferred socket head p = Some (res, q, effs) → calm p q.
Proof.
  intros (t' & logs & _ & _ & Hres)%handOff_spec. destruct res as [id|].
  - destruct Hres as (r & _ & -> & _).
    eapply (calm_trans _ (with_tally t' p)); [by split_and!|]. apply calm_upd. simpl. lia.
  - destruct Hres as (-> & _). eapply (calm_trans _ (with_tally t' p)); [by split_and!|].
    apply calm_noteRefusal.
Qed.

Lemma calm_drain throws l p effs : calm p (foldl (drain_one throws) (p, effs) l).1.
Proof.
  apply drain_loop_ind; [|apply calm_refl]. intros q r Hq.
  eapply calm_trans; [done|]. apply calm_upd. simpl. lia.
Qed.

(** The effects of an operation that resolve waiters. *)
Definition resolved (effs : list effect) : list nat :=
  omap (fun e => match e with ResolveWaiter w _ => Some w | _ => None end) effs.

Lemma resolved_app l1 l2 : resolved (l1 ++ l2) = resolved l1 ++ resolved l2.
Proof. apply omap_app. Qed.

Lemma resolved_logs logs : Forall is_log logs → resolved logs = [].
Proof. induction 1 as [|e logs He _ IH]; [done|]. by destruct e. Qed.

Lemma resolved_handOff throws preferred socket head p res q effs :
  handOff throws preferred socket head p = Some (res, q, effs) → resolved effs = [].
Proof.
  intros (t' & logs & Hl & _ & Hres)%handOff_spec. destruct res as [id|].
  - destruct Hres as (r & _ & _ & ->). by rewrite resolved_app, resolved_logs.
  - destruct Hres as (_ & -> & _). by rewrite resolved_app, resolved_logs.
Qed.

Lemma resolved_drain throws l p effs :
  resolved (foldl (drain_one throws) (p, effs) l).2 = resolved effs.
Proof.
  revert p effs. induction l as [|r l IH]; intros p effs; [done|]. cbn [foldl].
  destruct (drain_one throws (p, effs) r) as [p' e'] eqn:E. rewrite IH.
  unfold drain_one in E. split_matches; try done. by rewrite resolved_app, app_nil_r.
Qed.

(** [q] and [effs] come from running [notifyIfIdle] in [p1], followed by bookkeeping
    that touches neither waiters nor estimates. *)
Definition after_notify (p1 q : Pool) (effs : list effect) : Prop :=
  idleWaiters q = idleWaiters (notifyIfIdle p1).1 ∧ nextWaiter q = nextWaiter p1
  ∧ shuttingDown q = shuttingDown p1 ∧ allIdle q = allIdle p1
  ∧ resolved effs = resolved (notifyIfIdle p1).2
  ∧ ∀ w b, ResolveWaiter w b ∈ effs → ResolveWaiter w b ∈ (notifyIfIdle p1).2.

Lemma notify_pool p : objs (notifyIfIdle p).1 = objs p ∧ slots (notifyIfIdle p).1 = slots p
  ∧ nextWaiter (notifyIfIdle p).1 = nextWaiter p.
Proof. unfold notifyIfIdle. by destruct (allIdle p). Qed.

Lemma notify_allIdle p : allIdle (notifyIfIdle p).1 = allIdle p.
Proof. unfold notifyIfIdle. destruct (allIdle p) eqn:E; simpl; done. Qed.

Lemma after_notify_intro p1 q effs0 :
  idleWaiters q = idleWaiters (notifyIfIdle p1).1 → nextWaiter q = nextWaiter (notifyIfIdle p1).1 →
  shuttingDown q = shuttingDown (notifyIfIdle p1).1 → allIdle q = allIdle (notifyIfIdle p1).1 →
  (∀ e, e ∈ effs0 → is_log e ∨ ∃ i ms, e = SetTimer i ms) →
  after_notify p1 q ((notifyIfIdle p1).2 ++ effs0).
Proof.
  destruct (notify_pool p1) as (_ & _ & Hn). intros ? Hw Hsd Hi He.
  rewrite Hn in Hw. rewrite notify_shuttingDown in Hsd. rewrite notify_allIdle in Hi.
  split_and!; try done.
  - rewrite resolved_app. assert (resolved effs0 = []) as ->; [|by rewrite app_nil_r].
    clear -He. induction effs0 as [|e l IH]; [done|].
    destruct (He e) as [Hl|(i & ms & ->)]; [set_solver| |].
    + destruct e; simpl in Hl; try done. apply IH. set_solver.
    + apply IH. set_solver.
  - intros w b [?|Hin]%elem_of_app; [done|].
    destruct (He _ Hin) as [[]|(i & ms & ?)]; done.
Qed.

Lemma reconcile_after id r n p s :
  objs p !! r = Some s →
  after_notify (upd r (set_inFlight n) p) (reconcile id r n p).1 (reconcile id r n p).2.
Proof.
  intros Hs. unfold reconcile. rewrite Hs. set (p1 := upd r (set_inFlight n) p).
  pose proof (after_notify_intro p1) as Hin.
  destruct (notifyIfIdle p1) as [p2 e2]. cbn [fst snd] in Hin.
  assert (Hl : ∀ ls : list effect, Forall is_log ls → ∀ e, e ∈ ls → is_log e ∨ ∃ i ms, e = SetTimer i ms).
  { intros ls HF e He. left. by eapply Forall_forall. }
  destruct (inFlight s <? n), (refusalEstimate s) as [a|]; try destruct (_ && _); cbn [fst snd];
    rewrite <-?app_assoc; rewrite ?app_nil_r;
    (apply Hin || (rewrite <-(app_nil_r e2); apply Hin)); try done;
    try exact (allIdle_same r (set_refusalEstimate None) p2 (fun _ => eq_refl));
    (apply Hl; repeat constructor).
Qed.

Lemma onExit_after opts r now p s :
  objs p !! r = Some s →
  after_notify (upd r (fun s => set_inFlight 0 (set_healthy false s)) p)
    (onExit opts r now p).1 (onExit opts r now p).2.
Proof.
  intros Hs. unfold onExit. rewrite Hs. set (p1 := upd _ _ p).
  pose proof (after_notify_intro p1) as Hin.
  destruct (notifyIfIdle p1) as [p2 e2]. cbn [fst snd] in Hin.
  destruct (shuttingDown p2) eqn:Esd; cbn [fst snd].
  - rewrite <-(app_nil_r e2). apply Hin; [done..|set_solver].
  - set (c := if healthyRunMs opts <=? _ then _ else _).
    apply Hin; [done..|exact (allIdle_same r (set_crashes (c + 1)) p2 (fun _ => eq_refl))|].
    intros e [->|[->|He]%elem_of_cons]%elem_of_cons; [by left|by right; eauto|set_solver].
Qed.

Lemma after_notify_wakeup p1 q effs :
  after_notify p1 q effs → (idleWaiters p1 ≠ [] → shuttingDown p1 = true) → no_lost_wakeup q.
Proof.
  intros (Hw & _ & Hsd & Hi & _) Hp1 Hne. rewrite Hw in Hne. split.
  - rewrite Hsd. apply Hp1. by eapply notify_waiters.
  - rewrite Hi, <-notify_allIdle. by apply notify_wakes.
Qed.

Lemma wakeup_calm p q : calm p q → no_lost_wakeup p → no_lost_wakeup q.
Proof.
  intros (Hw & _ & Hsd & Hi) Hp Hne. rewrite Hw in Hne. destruct (Hp Hne).
  split; [congruence|auto].
Qed.

Lemma wakeup_step opts p q effs : no_lost_wakeup p → pool_step opts p q effs → no_lost_wakeup q.
Proof.
  intros Hp Hstep. destruct Hstep as
    [throws pr so h res p q effs H|k p|p|p Hsd|w p Hw|throws p|now id pid_ p l1 l2 Ht
    |r msg p [s Hr]|r s now p Hs He|r p|id p].
  - apply calm_handOff in H. by eapply wakeup_calm.
  - done.
  - eapply wakeup_calm; [apply calm_noteRefusal|done].
  - unfold awaitIdle. destruct (allIdle p) eqn:E; intros Hne; simpl in *; [by apply Hp|].
    split; [done|]. exact E.
  - intros Hne. apply Hp. intros Hn. apply Hne. simpl. by rewrite Hn.
  - unfold drainAll. eapply wakeup_calm; [apply calm_drain|]. intros Hne. split; [done|].
    by apply Hp.
  - unfold onTimer. simpl. destruct (shuttingDown p) eqn:Esd; [done|].
    intros Hne. destruct (Hp Hne). congruence.
  - unfold onMessage. rewrite Hr. destruct msg as [pi|ty [[n| | |]|]| |]; try done.
    + destruct (drained s); [done|]. eapply wakeup_calm; [apply calm_upd|done]. simpl. lia.
    + eapply after_notify_wakeup; [by eapply reconcile_after|]. intros Hne. by apply Hp.
    + eapply wakeup_calm; [apply calm_upd|done]. simpl. lia.
    + eapply wakeup_calm; [apply calm_upd|done]. simpl. lia.
  - eapply after_notify_wakeup.
    + eapply (onExit_after _ _ _ _ (set_exited true s)). simpl. by rewrite lookup_alter_eq, Hs.
    + intros Hne. by apply Hp.
  - eapply wakeup_calm; [apply calm_upd|done]. simpl. lia.
  - done.
Qed.

(** Every [awaitIdle] call is waiting or resolved, once. *)
Definition waiters_accounted (p : Pool) (tr : list effect) : Prop :=
  idleWaiters p ++ resolved tr ≡ₚ seq 0 (nextWaiter p).

Lemma accounted_quiet p q tr effs :
  idleWaiters q = idleWaiters p → nextWaiter q = nextWaiter p → resolved effs = [] →
  waiters_accounted p tr → waiters_accounted q (tr ++ effs).
Proof.
  unfold waiters_accounted. intros -> -> He. by rewrite resolved_app, He, app_nil_r.
Qed.

Lemma resolved_notify p : resolved ((fun w => ResolveWaiter w true) <$> idleWaiters p) = idleWaiters p.
Proof. induction (idleWaiters p) as [|w l IH]; [done|]. simpl. f_equal. exact IH. Qed.

Lemma accounted_notify p p1 q tr effs :
  idleWaiters p1 = idleWaiters p → nextWaiter p1 = nextWaiter p → after_notify p1 q effs →
  waiters_accounted p tr → waiters_accounted q (tr ++ effs).
Proof.
  unfold waiters_accounted. intros Hw Hn (Hq & Hnq & _ & _ & He & _) Hp.
  rewrite Hq, Hnq, Hn, <-Hp, resolved_app, He.
  unfold notifyIfIdle. destruct (allIdle p1); cbn [negb fst snd].
  - rewrite resolved_notify, Hw. simpl. by rewrite (Permutation_app_comm (resolved tr)).
  - by rewrite app_nil_r, Hw.
Qed.

Lemma filter_remove_perm (w : nat) (l : list nat) :
  NoDup l → w ∈ l → filter (fun x => x ≠ w) l ++ [w] ≡ₚ l.
Proof.
  intros Hnd Hin. apply list_elem_of_split in Hin as (l1 & l2 & ->).
  apply NoDup_app in Hnd as (_ & Hd & [Hni _]%NoDup_cons).
  assert (Hk : ∀ l : list nat, w ∉ l → filter (fun x => x ≠ w) l = l).
  { induction l as [|x l IH]; intros Hl; [done|]. rewrite filter_cons_True by set_solver.
    f_equal. apply IH. set_solver. }
  rewrite filter_app, filter_cons_False by tauto.
  rewrite !Hk by set_solver. rewrite <-app_assoc.
  apply Permutation_app_head, (Permutation_app_comm l2 [w]).
Qed.

Lemma accounted_step opts p q tr effs :
  waiters_accounted p tr → pool_step opts p q effs → waiters_accounted q (tr ++ effs).
Proof.
  intros Hp Hstep. destruct Hstep as
    [throws pr so h res p q effs H|k p|p|p Hsd|w p Hw|throws p|now id pid_ p l1 l2 Ht
    |r msg p [s Hr]|r s now p Hs He|r p|id p].
  - destruct (calm_handOff _ _ _ _ _ _ _ _ H) as (? & ? & _).
    apply resolved_handOff in H. by eapply accounted_quiet.
  - by eapply accounted_quiet.
  - destruct (calm_noteRefusal p) as (? & ? & _). by eapply accounted_quiet.
  - unfold awaitIdle, waiters_accounted in *.
    destruct (allIdle p); cbn [fst snd idleWaiters nextWaiter]; rewrite resolved_app, seq_S, <-Hp; simpl.
    + by rewrite app_assoc.
    + rewrite app_nil_r, <-!app_assoc. by rewrite (Permutation_app_comm [_]).
  - unfold waiters_accounted in *. cbn [onWaiterTimeout fst snd with_waiters idleWaiters nextWaiter].
    rewrite resolved_app. change (resolved [ResolveWaiter w false]) with [w].
    assert (Hnd : NoDup (idleWaiters p)).
    { assert (H : NoDup (idleWaiters p ++ resolved tr)) by (rewrite Hp; apply NoDup_seq).
      by apply NoDup_app in H as [? _]. }
    rewrite <-Hp, (Permutation_app_comm (resolved tr)), app_assoc.
    by rewrite filter_remove_perm.
  - unfold drainAll.
    match goal with |- context [foldl ?f (?p1, []) ?l] =>
      destruct (calm_drain throws l p1 []) as (? & ? & _); pose proof (resolved_drain throws l p1 [])
    end.
    by eapply accounted_quiet.
  - unfold onTimer. destruct (shuttingDown _); by eapply accounted_quiet.
  - unfold onMessage. rewrite Hr. destruct msg as [pi|ty [[n| | |]|]| |]; try by eapply accounted_quiet.
    + destruct (drained s); by eapply accounted_quiet.
    + eapply (accounted_notify p (upd r (set_inFlight n) p)); [done|done|by eapply reconcile_after|done].
  - eapply (accounted_notify p); [| |eapply (onExit_after _ _ _ _ (set_exited true s))|done];
      [done|done|]. simpl. by rewrite lookup_alter_eq, Hs.
  - by eapply accounted_quiet.
  - by eapply accounted_quiet.
Qed.

Lemma notify_true p w b : ResolveWaiter w b ∈ (notifyIfIdle p).2 → allIdle p = true.
Proof. unfold notifyIfIdle. destruct (allIdle p); [done|]. simpl. set_solver. Qed.

Lemma resolved_elem w b effs : ResolveWaiter w b ∈ effs → w ∈ resolved effs.
Proof. intros H. apply list_elem_of_omap. by exists (ResolveWaiter w b). Qed.

(** A wait that resolves [true] finds the pool idle. *)
Lemma resolve_true_idle opts p q effs w :
  pool_step opts p q effs → ResolveWaiter w true ∈ effs → allIdle q = true.
Proof.
  intros Hstep Hin. pose proof (resolved_elem _ _ _ Hin) as Hres. destruct Hstep as
    [throws pr so h res p q effs H|k p|p|p Hsd|w' p Hw|throws p|now id pid_ p l1 l2 Ht
    |r msg p [s Hr]|r s now p Hs He|r p|id p]; try (simpl in *; set_solver).
  - apply resolved_handOff in H. rewrite H in Hres. set_solver.
  - unfold awaitIdle in *. destruct (allIdle p) eqn:E; simpl in *; [exact E|set_solver].
  - unfold drainAll in Hres. rewrite resolved_drain in Hres. simpl in Hres. set_solver.
  - unfold onTimer in Hres. destruct (shuttingDown _); simpl in Hres; set_solver.
  - unfold onMessage in *. rewrite Hr in *. destruct msg as [pi|ty [[n| | |]|]| |];
      try (simpl in Hres; set_solver).
    + destruct (drained s); simpl in Hres; set_solver.
    + destruct (reconcile_after (s_id s) r n p s Hr) as (_ & _ & _ & Hi & _ & Hc).
      rewrite Hi. by eapply notify_true, Hc.
  - destruct (onExit_after opts r now (upd r (set_exited true) p) (set_exited true s))
      as (_ & _ & _ & Hi & _ & Hc); [simpl; by rewrite lookup_alter_eq, Hs|].
    rewrite Hi. by eapply notify_true, Hc.
Qed.

(** *** Refusals *)

(** Every spurious refusal counted is a distinct refusal issued. *)
Definition refusals_ok (p : Pool) : Prop :=
  0 ≤ spuriousRefusals (tally p)
  ∧ spuriousRefusals (tally p) + (if refusalCounted p then 0 else 1) ≤ refusalSeq p.

Lemma fold_upd_fields (f : Slot → Slot) l q :
  let q' := foldl (fun q r => upd r f q) q l in
  refusalSeq q' = refusalSeq q ∧ refusalCounted q' = refusalCounted q ∧ tally q' = tally q.
Proof.
  revert q. induction l as [|r l IH]; intros q; simpl; [done|].
  destruct (IH (upd r f q)) as (-> & -> & ->). done.
Qed.

Lemma noteRefusal_fields p :
  refusalSeq (noteRefusal p) = refusalSeq p + 1 ∧ refusalCounted (noteRefusal p) = false
  ∧ tally (noteRefusal p) = tally p.
Proof.
  apply (fold_upd_fields (λ s, set_refusalEstimate (Some (inFlight s)) s) (slots p)
           (with_refusal (refusalSeq p + 1) false p)).
Qed.

Lemma notify_fields p :
  refusalSeq (notifyIfIdle p).1 = refusalSeq p ∧ refusalCounted (notifyIfIdle p).1 = refusalCounted p
  ∧ tally (notifyIfIdle p).1 = tally p.
Proof. unfold notifyIfIdle. by destruct (allIdle p). Qed.

Lemma drain_fields throws l p effs :
  let q := (foldl (drain_one throws) (p, effs) l).1 in
  refusalSeq q = refusalSeq p ∧ refusalCounted q = refusalCounted p ∧ tally q = tally p.
Proof.
  apply (drain_loop_ind (fun q => refusalSeq q = refusalSeq p
           ∧ refusalCounted q = refusalCounted p ∧ tally q = tally p)); [|done].
  intros q r (? & ? & ?). done.
Qed.

Lemma refusals_reconcile id r n p : refusals_ok p → refusals_ok (reconcile id r n p).1.
Proof.
  intros Hp. unfold reconcile. destruct (objs p !! r) as [s|]; [|done].
  destruct (notify_fields (upd r (set_inFlight n) p)) as (H1 & H2 & H3).
  destruct (notifyIfIdle _) as [p2 e2]. cbn [fst] in H1, H2, H3.
  assert (Hp2 : refusals_ok p2) by (unfold refusals_ok; rewrite H1, H2, H3; exact Hp).
  destruct (inFlight s <? n), (refusalEstimate s) as [a|]; try exact Hp2;
    (destruct (n <? a); cbn [andb]; [|exact Hp2]);
    unfold refusals_ok in *; destruct (refusalCounted p2) eqn:Hc;
    cbn -[Z.add]; rewrite ?Hc; cbn -[Z.add]; rewrite ?Hc; lia.
Qed.

Lemma refusals_step opts p q effs : refusals_ok p → pool_step opts p q effs → refusals_ok q.
Proof.
  intros Hp Hstep. destruct Hstep as
    [throws pr so h res p q effs H|k p|p|p Hsd|w' p Hw|throws p|now id pid_ p l1 l2 Ht
    |r msg p [s Hr]|r s now p Hs He|r p|id p]; try exact Hp.
  - apply handOff_spec in H as (t' & logs & _ & Hsp & Hres). unfold refusals_ok in *.
    destruct res as [id|].
    + destruct Hres as (r & _ & -> & _). simpl. by rewrite Hsp.
    + destruct Hres as (-> & _). destruct (noteRefusal_fields (with_tally t' p)) as (-> & -> & ->).
      simpl. rewrite Hsp. destruct (refusalCounted p); lia.
  - destruct (noteRefusal_fields p) as (E1 & E2 & E3). unfold refusals_ok in *.
    rewrite E1, E2, E3. destruct (refusalCounted p); lia.
  - unfold awaitIdle. by destruct (allIdle p).
  - unfold drainAll.
    match goal with |- context [foldl ?f (?p1, []) ?l] =>
      destruct (drain_fields throws l p1 []) as (E1 & E2 & E3) end.
    unfold refusals_ok. rewrite E1, E2, E3. exact Hp.
  - unfold onTimer. by destruct (shuttingDown _).
  - unfold onMessage. rewrite Hr. destruct msg as [pi|ty [[n| | |]|]| |]; try exact Hp.
    + by destruct (drained s).
    + by apply refusals_reconcile.
  - unfold onExit. simpl. rewrite lookup_alter_eq, Hs. cbn [fmap option_fmap option_map].
    match goal with |- context [notifyIfIdle ?x] => destruct (notify_fields x) as (E1 & E2 & E3) end.
    destruct (notifyIfIdle _) as [p2 e2]. cbn [fst] in E1, E2, E3.
    destruct (shuttingDown p2); unfold refusals_ok in *; simpl in *; by rewrite E1, E2, E3.
Qed.

(** *** A drained worker *)

Definition retired (s : Slot) : Prop := drained s = true ∧ healthy s = false.

(** [r]'s slot object is still there in [q] and [P] survived. *)
Definition keeps (P : Slot → Prop) (r : nat) (p q : Pool) : Prop :=
  ∀ s, objs p !! r = Some s → P s → ∃ s', objs q !! r = Some s' ∧ P s'.

Lemma keeps_refl P r p : keeps P r p p.
Proof. intros s ??. eauto. Qed.

Lemma keeps_trans P r p q t : keeps P r p q → keeps P r q t → keeps P r p t.
Proof. intros H1 H2 s Hs HP. destruct (H1 s Hs HP) as (s' & ? & ?). eauto. Qed.

Lemma keeps_upd (P : Slot → Prop) r r' f p : (∀ s, P s → P (f s)) → keeps P r p (upd r' f p).
Proof.
  intros Hf s Hs HP. simpl. rewrite lookup_alter. case_decide; [subst|by eauto].
  rewrite Hs. simpl. eauto.
Qed.

Lemma keeps_objs P r p q : objs q = objs p → keeps P r p q.
Proof. intros E s ??. rewrite E. eauto. Qed.

Lemma keeps_noteRefusal r p : keeps retired r p (noteRefusal p).
Proof.
  unfold noteRefusal. generalize (slots p). intros l.
  eapply (keeps_trans _ _ _ (with_refusal (refusalSeq p + 1) false p)); [by apply keeps_objs|].
  generalize (with_refusal (refusalSeq p + 1) false p) as q.
  induction l as [|r' l IH]; intros q; simpl; [apply keeps_refl|].
  eapply keeps_trans; [apply keeps_upd|apply IH]. done.
Qed.

Lemma keeps_notify P r p : keeps P r p (notifyIfIdle p).1.
Proof. apply keeps_objs. apply notify_pool. Qed.

#[local] Hint Resolve keeps_refl keeps_notify keeps_noteRefusal : moca.

Lemma keeps_reconcile id r r' n p : keeps retired r p (reconcile id r' n p).1.
Proof.
  unfold reconcile. destruct (objs p !! r') as [s|]; [|apply keeps_refl].
  set (p1 := upd r' (set_inFlight n) p).
  assert (H : keeps retired r p (notifyIfIdle p1).1).
  { eapply keeps_trans; [|apply keeps_notify]. by apply keeps_upd. }
  destruct (notifyIfIdle p1) as [p2 e2]. cbn [fst] in H.
  assert (H' : keeps retired r p (upd r' (set_refusalEstimate None) p2)).
  { eapply keeps_trans; [exact H|]. by apply keeps_upd. }
  destruct (inFlight s <? n), (refusalEstimate s) as [a|]; try exact H;
    destruct (_ && _); exact H'.
Qed.

Lemma keeps_onMessage r r' msg p : keeps retired r p (onMessage r' msg p).1.
Proof.
  unfold onMessage. destruct (objs p !! r') as [s|] eqn:Hs; [|apply keeps_refl].
  destruct msg as [pi|ty [[n| | |]|]| |]; try apply keeps_refl.
  - destruct (drained s) eqn:Hd; [apply keeps_refl|].
    intros s0 Hs0 [Hd0 Hh0]. simpl. rewrite lookup_alter. case_decide; [|by exists s0].
    subst. simplify_eq. congruence.
  - apply keeps_reconcile.
  - apply keeps_upd. intros ? [? ?]. by split.
  - apply keeps_upd. intros ? [? ?]. by split.
Qed.

Lemma keeps_onExit opts r r' now p : keeps retired r p (onExit opts r' now p).1.
Proof.
  unfold onExit. destruct (objs p !! r') as [s|]; [|apply keeps_refl].
  set (p1 := upd _ _ p).
  assert (H : keeps retired r p (notifyIfIdle p1).1).
  { eapply keeps_trans; [|apply keeps_notify]. apply keeps_upd. intros ? [? ?]. by split. }
  destruct (notifyIfIdle p1) as [p2 e2]. cbn [fst] in H.
  destruct (shuttingDown p2); [exact H|]. set (c := if healthyRunMs opts <=? _ then _ else _).
  eapply (keeps_trans _ _ _ (upd r' (set_crashes (c + 1)) p2)); [|by apply keeps_objs].
  eapply keeps_trans; [exact H|]. by apply keeps_upd.
Qed.

Lemma keeps_retired_step opts n r p q effs :
  supervised n p → pool_step opts p q effs → keeps retired r p q.
Proof.
  intros Hsup Hstep. destruct Hstep as
    [throws pr so h res p q effs H|k p|p|p Hsd|w' p Hw|throws p|now id pid_ p l1 l2 Ht
    |r' msg p [s Hr]|r' s now p Hs He|r' p|id p]; try (by apply keeps_objs).
  - apply handOff_spec in H as (t' & logs & _ & _ & Hres). destruct res as [id|].
    + destruct Hres as (r' & _ & -> & _). eapply (keeps_trans _ _ _ (with_tally t' p));
        [by apply keeps_objs|by apply keeps_upd].
    + destruct Hres as (-> & _). eapply (keeps_trans _ _ _ (with_tally t' p));
        [by apply keeps_objs|apply keeps_noteRefusal].
  - apply keeps_noteRefusal.
  - unfold awaitIdle. destruct (allIdle p); by apply keeps_objs.
  - unfold drainAll. apply (drain_loop_ind (keeps retired r p)); [|by apply keeps_objs].
    intros q r' Hq. eapply keeps_trans; [exact Hq|]. apply keeps_upd. intros ? [? ?]. by split.
  - unfold onTimer. simpl. destruct (shuttingDown p); [by apply keeps_objs|].
    intros s Hs HP. exists s. split; [|done]. simpl. rewrite lookup_insert_ne; [done|].
    intros <-. pose proof (sup_fresh _ _ Hsup (nextRef p) ltac:(eauto)). lia.
  - apply keeps_onMessage.
  - eapply keeps_trans; [|apply keeps_onExit]. by apply keeps_upd.
  - by apply keeps_upd.
Qed.

(** *** Telemetry does not influence anything else *)

Definition erase_slot (s : Slot) : Slot := set_telem no_telemetry s.
Arguments erase_slot : simpl never.
Definition erase (p : Pool) : Pool := with_objs (erase_slot <$> objs p) p.

(** Pools equal but for telemetry. *)
Definition tequiv (p q : Pool) : Prop := erase p = erase q.

#[export] Instance tequiv_equivalence : Equivalence tequiv.
Proof. split; unfold tequiv; [done|intros ???; congruence|intros ?????; congruence]. Qed.

Lemma erase_lookup p r : objs (erase p) !! r = erase_slot <$> objs p !! r.
Proof. simpl. by rewrite lookup_fmap. Qed.

Lemma erase_upd r f p :
  (∀ s, erase_slot (f s) = f (erase_slot s)) → upd r f (erase p) = erase (upd r f p).
Proof.
  intros Hf. unfold upd, erase, with_objs. simpl. f_equal. apply map_eq. intros i.
  rewrite lookup_alter, !lookup_fmap, lookup_alter.
  repeat case_decide; try done. subst. destruct (objs p !! i); simpl; [by rewrite Hf|done].
Qed.

Lemma erase_views p : views (erase p) = views p.
Proof.
  unfold views. apply imap_ext. intros i r Hr. unfold view_of. rewrite erase_lookup.
  by destruct (objs p !! r).
Qed.

Lemma erase_slot_at p id : slot_at (erase p) id = (fun '(r, s) => (r, erase_slot s)) <$> slot_at p id.
Proof.
  unfold slot_at. simpl. destruct (slots p !! id) as [r|]; [|done]. simpl.
  rewrite lookup_fmap. by destruct (objs p !! r).
Qed.

Lemma erase_attempt throws id p : attempt throws id (erase p) = attempt throws id p.
Proof. unfold attempt. rewrite erase_slot_at. by destruct (slot_at p id) as [[r s]|]. Qed.

Lemma erase_allIdle p : allIdle (erase p) = allIdle p.
Proof.
  unfold allIdle, current. simpl. induction (slots p) as [|r l IH]; [done|]. cbn [omap list_omap].
  rewrite lookup_fmap. destruct (objs p !! r); simpl; [by f_equal|done].
Qed.

Lemma erase_notify p :
  notifyIfIdle (erase p) = (erase (notifyIfIdle p).1, (notifyIfIdle p).2).
Proof. unfold notifyIfIdle. rewrite erase_allIdle. by destruct (allIdle p). Qed.

Lemma erase_noteRefusal p : noteRefusal (erase p) = erase (noteRefusal p).
Proof.
  unfold noteRefusal. change (slots (erase p)) with (slots p).
  change (with_refusal (refusalSeq (erase p) + 1) false (erase p))
    with (erase (with_refusal (refusalSeq p + 1) false p)).
  generalize (with_refusal (refusalSeq p + 1) false p) as q.
  induction (slots p) as [|r l IH]; intros q; [done|]. cbn [foldl].
  rewrite erase_upd by done. apply IH.
Qed.

Definition erase_out {A} (x : A * Pool * list effect) : A * Pool * list effect :=
  let '(res, q, effs) := x in (res, erase q, effs).

Lemma erase_handOff_loop fuel throws socket msg tried target p :
  handOff_loop fuel throws socket msg tried target (erase p) =
  erase_out <$> handOff_loop fuel throws socket msg tried target p.
Proof.
  revert tried target p. induction fuel as [|f IH]; intros tried target p; [done|].
  cbn [handOff_loop]. rewrite erase_attempt.
  destruct (attempt throws target p) as [r|]; simpl; [by rewrite erase_upd|].
  change (views (with_tally _ (erase p))) with (views (erase p)). rewrite erase_views.
  change (views (with_tally _ p)) with (views p).
  destruct (pickLeastLoaded _) as [next|]; [|done].
  change (with_tally (bump_handoffRetries (tally p)) (erase p))
    with (erase (with_tally (bump_handoffRetries (tally p)) p)).
  rewrite IH. by destruct (handOff_loop f _ _ _ _ _ _) as [[[res q] effs]|].
Qed.

Lemma erase_handOff throws preferred socket head p :
  handOff throws preferred socket head (erase p) = erase_out <$> handOff throws preferred socket head p.
Proof.
  unfold handOff. rewrite erase_handOff_loop. change (handOff_fuel (erase p)) with (handOff_fuel p).
  destruct (handOff_loop _ _ _ _ _ _ _) as [[[[t|] q] effs]|]; simpl; try done.
  do 3 f_equal. apply (erase_noteRefusal (with_tally (bump_handoffFailures (tally q)) q)).
Qed.

Lemma erase_reconcile id r n p :
  reconcile id r n (erase p) = (erase (reconcile id r n p).1, (reconcile id r n p).2).
Proof.
  unfold reconcile. rewrite erase_lookup. destruct (objs p !! r) as [s|]; [|done].
  cbn [fmap option_fmap option_map]. rewrite erase_upd by done. rewrite erase_notify.
  destruct (notifyIfIdle _) as [p2 e2]. cbn [fst snd].
  change (inFlight (erase_slot s)) with (inFlight s).
  change (refusalEstimate (erase_slot s)) with (refusalEstimate s).
  assert (Hu : ∀ t, upd r (set_refusalEstimate None) (with_tally t (erase p2)) =
               erase (upd r (set_refusalEstimate None) (with_tally t p2)))
    by (intros t; apply (erase_upd r (set_refusalEstimate None) (with_tally t p2)); done).
  destruct (inFlight s <? n), (refusalEstimate s) as [a|]; try done; cbn [fst snd].
  - rewrite Hu. by destruct (_ && _).
  - rewrite erase_upd by done. by destruct (_ && _).
Qed.

Lemma erase_idemp q : erase (erase q) = erase q.
Proof. unfold erase, with_objs. simpl. f_equal. by rewrite <-map_fmap_compose. Qed.

Lemma erase_onMessage r msg p :
  erase (onMessage r msg (erase p)).1 = erase (onMessage r msg p).1
  ∧ (onMessage r msg (erase p)).2 = (onMessage r msg p).2.
Proof.
  unfold onMessage. rewrite erase_lookup.
  destruct (objs p !! r) as [s|]; [|by cbn; rewrite erase_idemp].
  cbn [fmap option_fmap option_map]. change (drained (erase_slot s)) with (drained s).
  change (s_id (erase_slot s)) with (s_id s).
  destruct msg as [pi|ty [[n| | |]|]| |]; try (by cbn [fst snd]; rewrite erase_idemp).
  - destruct (drained s); cbn [fst snd]; [by rewrite erase_idemp|].
    rewrite erase_upd by done. by rewrite erase_idemp.
  - rewrite erase_reconcile. cbn [fst snd]. by rewrite erase_idemp.
  - cbn [fst snd]. rewrite erase_upd by done. by rewrite erase_idemp.
  - cbn [fst snd]. split; [|done]. unfold erase, upd, with_objs. simpl. f_equal.
    apply map_eq. intros i. rewrite !lookup_fmap, !lookup_alter, !lookup_fmap.
    repeat case_decide; subst; destruct (objs p !! i); done.
Qed.

Lemma erase_onExit opts r now p :
  onExit opts r now (erase p) = (erase (onExit opts r now p).1, (onExit opts r now p).2).
Proof.
  unfold onExit. rewrite erase_lookup. destruct (objs p !! r) as [s|]; [|done].
  cbn [fmap option_fmap option_map]. rewrite erase_upd by done. rewrite erase_notify.
  destruct (notifyIfIdle _) as [p2 e2]. cbn [fst snd].
  change (shuttingDown (erase p2)) with (shuttingDown p2). destruct (shuttingDown p2); [done|].
  change (startedAt (erase_slot s)) with (startedAt s). change (crashes (erase_slot s)) with (crashes s).
  change (s_id (erase_slot s)) with (s_id s). by rewrite erase_upd.
Qed.

Lemma erase_awaitIdle p : awaitIdle (erase p) = (erase (awaitIdle p).1, (awaitIdle p).2).
Proof. unfold awaitIdle. rewrite erase_allIdle. by destruct (allIdle p). Qed.

Lemma erase_drain throws l p effs :
  foldl (drain_one throws) (erase p, effs) l =
  (erase (foldl (drain_one throws) (p, effs) l).1, (foldl (drain_one throws) (p, effs) l).2).
Proof.
  revert p effs. induction l as [|r l IH]; intros p effs; [done|]. cbn [foldl].
  assert (E : drain_one throws (erase p, effs) r =
              (erase (drain_one throws (p, effs) r).1, (drain_one throws (p, effs) r).2)).
  { unfold drain_one. rewrite erase_lookup. destruct (objs p !! r) as [s|]; [|done].
    cbn [fmap option_fmap option_map]. change (drained (erase_slot s)) with (drained s).
    change (connected (erase_slot s)) with (connected s). destruct (drained s); [done|].
    rewrite erase_upd by done. by destruct (_ && _). }
  rewrite E, IH. by destruct (drain_one throws (p, effs) r).
Qed.

(** What an observer of everything but telemetry sees of an outcome. *)
Definition obs (x : Pool * list effect) : Pool * list effect := (erase x.1, x.2).

(** *** Restart backoff *)

(** The delays worker [id]'s restart timers were armed with. *)
Definition delays_of (id : nat) (effs : list effect) : list Z :=
  omap (fun e => match e with
                 | SetTimer i d => if decide (i = id) then Some d else None
                 | _ => None
                 end) effs.

(** A crash loop of worker [id]: each pair is the time of an exit and the time the
    restart timer fires.  Collects the delays the restart timers were armed with. *)
Fixpoint crash_loop (opts : PoolOptions) (id : nat) (times : list (Z * Z)) (p : Pool) : list Z :=
  match times with
  | [] => []
  | (texit, trestart) :: rest =>
      match slot_at p id with
      | None => []
      | Some (r, _) =>
          let '(p1, effs) := onExit opts r texit (upd r (set_exited true) p) in
          delays_of id effs ++ crash_loop opts id rest (onTimer trestart id None p1).1
      end
  end.

(** Every exit comes less than [healthyRunMs] after the worker last started. *)
Fixpoint quick (opts : PoolOptions) (started : Z) (times : list (Z * Z)) : Prop :=
  match times with
  | [] => True
  | (texit, trestart) :: rest => texit - started < healthyRunMs opts ∧ quick opts trestart rest
  end.

Lemma slot_at_intro p id r s : slots p !! id = Some r → objs p !! r = Some s → slot_at p id = Some (r, s).
Proof. intros H1 H2. unfold slot_at. by rewrite H1; simpl; rewrite H2. Qed.

Lemma slot_at_elim p id r s : slot_at p id = Some (r, s) → slots p !! id = Some r ∧ objs p !! r = Some s.
Proof.
  unfold slot_at. destruct (slots p !! id) as [r'|]; simpl; [|done].
  destruct (objs p !! r') eqn:E; simpl; [|done]. intros [= <- <-]. done.
Qed.

Lemma exit_quick opts p id r s now :
  slot_at p id = Some (r, s) → s_id s = id → shuttingDown p = false →
  now - startedAt s < healthyRunMs opts →
  let '(q, effs) := onExit opts r now (upd r (set_exited true) p) in
  (∃ logs, Forall is_log logs ∧ ∃ res, (∀ e, e ∈ res → ∃ w, e = ResolveWaiter w true) ∧
     effs = res ++ logs ++ [SetTimer id (Z.min (restartBackoffMs opts * 2 ^ crashes s) MAX_BACKOFF_MS)])
  ∧ (∃ s', slot_at q id = Some (r, s') ∧ crashes s' = crashes s + 1) ∧ shuttingDown q = false
  ∧ (id < length (slots q))%nat.
Proof.
  intros [H1 H2]%slot_at_elim Hid Hsd Hq. unfold onExit. cbn [objs upd with_objs].
  rewrite lookup_alter_eq, H2. cbn [fmap option_fmap option_map].
  set (p1 := upd r _ (upd r _ p)).
  assert (Hp1 : slots p1 !! id = Some r ∧ ∃ s1, objs p1 !! r = Some s1).
  { split; [done|]. unfold p1. simpl. rewrite !lookup_alter_eq, H2. eauto. }
  destruct (notify_pool p1) as (Ho & Hs & _). pose proof (notify_shuttingDown p1) as Hd.
  assert (Hw : ∀ e, e ∈ (notifyIfIdle p1).2 → ∃ w, e = ResolveWaiter w true).
  { unfold notifyIfIdle. destruct (allIdle p1); simpl; [|set_solver].
    intros e (w & -> & _)%list_elem_of_fmap. eauto. }
  destruct (notifyIfIdle p1) as [p2 e2]. cbn [fst snd] in *.
  rewrite Hd. change (shuttingDown p1) with (shuttingDown p). rewrite Hsd.
  change (startedAt (set_exited true s)) with (startedAt s).
  change (crashes (set_exited true s)) with (crashes s).
  change (s_id (set_exited true s)) with (s_id s).
  rewrite (proj2 (Z.leb_gt _ _)) by lia. rewrite Hid.
  destruct Hp1 as [Hp1 [s1 Hs1]].
  split_and!.
  - eexists [Log _]. split; [by apply Forall_singleton|]. exists e2. split; [done|done].
  - exists (set_crashes (crashes s + 1) s1). split; [|done]. apply slot_at_intro; simpl.
    + by rewrite Hs.
    + by rewrite lookup_alter_eq, Ho, Hs1.
  - cbn [shuttingDown with_timers with_tally upd with_objs]. by rewrite Hd.
  - simpl. rewrite Hs. by eapply lookup_lt_Some.
Qed.

Lemma timer_restart now id r s p :
  slot_at p id = Some (r, s) → shuttingDown p = false →
  ∃ r' s', slot_at (onTimer now id None p).1 id = Some (r', s')
    ∧ s_id s' = id ∧ startedAt s' = now ∧ crashes s' = crashes s
    ∧ shuttingDown (onTimer now id None p).1 = false.
Proof.
  intros Hat Hsd. unfold onTimer. rewrite Hsd. unfold spawn. rewrite Hat. cbn [fst snd].
  pose proof (slot_at_elim _ _ _ _ Hat) as [H1 _].
  exists (nextRef p), (mkSlot id 0 false now (crashes s) false None no_telemetry None true false).
  split_and!; try done. apply slot_at_intro; cbn [slots objs].
  - unfold set_slot. apply lookup_lt_Some in H1. rewrite (proj2 (Nat.ltb_lt _ _)) by done.
    by apply list_lookup_insert_eq.
  - by rewrite lookup_insert_eq.
Qed.

Lemma delays_spec id logs res d :
  Forall is_log logs → (∀ e, e ∈ res → ∃ w, e = ResolveWaiter w true) →
  delays_of id (res ++ logs ++ [SetTimer id d]) = [d].
Proof.
  intros Hl Hr. unfold delays_of. rewrite !omap_app.
  assert (Hnil : ∀ l, (∀ e, e ∈ l → (∃ w, e = ResolveWaiter w true) ∨ is_log e) → delays_of id l = []).
  { induction l as [|e l IH]; intros H; [done|]. unfold delays_of. cbn [omap list_omap].
    destruct (H e ltac:(set_solver)) as [[w ->]|He]; [|destruct e; try done];
      apply IH; intros e' He'; apply H; set_solver. }
  unfold delays_of in Hnil. rewrite (Hnil res), (Hnil logs).
  - simpl. by rewrite decide_True.
  - intros e He. right. by eapply Forall_forall in Hl.
  - intros e He. left. by apply Hr.
Qed.

(** *** Telemetry: every handler behaves alike on pools equal but for it *)

Lemma obs_tequiv (h : Pool → Pool * list effect) p p' :
  (∀ q, obs (h (erase q)) = obs (h q)) → tequiv p p' → obs (h p) = obs (h p').
Proof. intros Hh Hpp. by rewrite <-(Hh p), <-(Hh p'), Hpp. Qed.

Lemma obs_commutes (h : Pool → Pool * list effect) :
  (∀ p, h (erase p) = (erase (h p).1, (h p).2)) → ∀ q, obs (h (erase q)) = obs (h q).
Proof. intros Hh q. unfold obs. rewrite Hh. cbn [fst snd]. by rewrite erase_idemp. Qed.

Lemma tequiv_lookup p p' r :
  tequiv p p' → erase_slot <$> objs p !! r = erase_slot <$> objs p' !! r.
Proof. intros H. by rewrite <-!erase_lookup, H. Qed.

Lemma tequiv_fields p p' :
  tequiv p p' → timers p = timers p' ∧ idleWaiters p = idleWaiters p' ∧ shuttingDown p = shuttingDown p'.
Proof.
  intros H. split_and!; [change (timers (erase p) = timers (erase p'))
    |change (idleWaiters (erase p) = idleWaiters (erase p'))
    |change (shuttingDown (erase p) = shuttingDown (erase p'))]; by rewrite H.
Qed.

Lemma tequiv_handOff throws pr so h p p' res q effs :
  tequiv p p' → handOff throws pr so h p = Some (res, q, effs) →
  ∃ q', handOff throws pr so h p' = Some (res, q', effs) ∧ tequiv q q'.
Proof.
  intros Hpp H. pose proof (erase_handOff throws pr so h p) as E. rewrite H in E.
  rewrite Hpp, erase_handOff in E. destruct (handOff throws pr so h p') as [[[res' q'] effs']|]; [|done].
  cbn [fmap option_fmap option_map erase_out] in E. unfold tequiv.
  assert (res = res' ∧ erase q = erase q' ∧ effs = effs') as (-> & Hq & ->)
    by (revert E; generalize (erase q) (erase q'); by intros ?? [= -> -> ->]).
  by exists q'.
Qed.

Lemma erase_drainAll throws p :
  drainAll throws (erase p) = (erase (drainAll throws p).1, (drainAll throws p).2).
Proof. unfold drainAll. cbv zeta. rewrite <-erase_drain. done. Qed.

Lemma erase_onTimer now id pid_ p :
  onTimer now id pid_ (erase p) = (erase (onTimer now id pid_ p).1, (onTimer now id pid_ p).2).
Proof.
  unfold onTimer, spawn. change (shuttingDown (erase p)) with (shuttingDown p).
  destruct (shuttingDown p); [done|]. rewrite erase_slot_at. cbn [fst snd].
  destruct (slot_at p id) as [[r s]|]; cbn [fmap option_fmap option_map]; f_equal;
    unfold erase, with_objs; simpl; f_equal; by rewrite fmap_insert.
Qed.

(** One step of a pool is matched by a step, with the same effects, of any pool
    equal to it but for telemetry. *)
Lemma tequiv_step opts p p' q effs :
  tequiv p p' → pool_step opts p q effs → ∃ q', pool_step opts p' q' effs ∧ tequiv q q'.
Proof.
  intros Hpp Hstep.
  assert (Hfn : ∀ h x x', (∀ q, obs (h (erase q)) = obs (h q)) → tequiv x x' →
    pool_step opts p' (h x').1 (h x').2 → ∃ q', pool_step opts p' q' (h x).2 ∧ tequiv (h x).1 q').
  { intros h x x' Hh Hx Hs. pose proof (obs_tequiv h x x' Hh Hx) as E.
    pose proof (f_equal fst E) as E1. pose proof (f_equal snd E) as E2. cbn [obs fst snd] in E1, E2.
    rewrite E2. eauto. }
  destruct (tequiv_fields _ _ Hpp) as (Htm & Hiw & Hsh). destruct Hstep as
    [throws pr so h res p q effs H|k p|p|p Hsd|w' p Hw|throws p|now id pid_ p l1 l2 Ht
    |r msg p [s Hr]|r s now p Hs He|r p|id p].
  - destruct (tequiv_handOff _ _ _ _ _ _ _ _ _ Hpp H) as (q' & H' & ?).
    exists q'. split; [|done]. by eapply step_handOff.
  - apply (Hfn (noteHeadTruncated k) p p'); [by apply obs_commutes|done|constructor].
  - apply (Hfn (fun p => (noteRefusal p, [])) p p'); [|done|apply step_refusal].
    apply (obs_commutes (fun p => (noteRefusal p, []))). intros ?. by rewrite erase_noteRefusal.
  - apply (Hfn awaitIdle p p'); [|done|apply step_awaitIdle; congruence].
    apply obs_commutes, erase_awaitIdle.
  - apply (Hfn (onWaiterTimeout w') p p'); [by apply obs_commutes|done|].
    constructor. by rewrite <-Hiw.
  - apply (Hfn (drainAll throws) p p'); [|done|constructor]. apply obs_commutes, erase_drainAll.
  - apply (Hfn (onTimer now id pid_) (with_timers (l1 ++ l2) p) (with_timers (l1 ++ l2) p')).
    + apply obs_commutes, erase_onTimer.
    + unfold tequiv. change (with_timers (l1 ++ l2) (erase p) = with_timers (l1 ++ l2) (erase p')).
      by rewrite Hpp.
    + constructor. congruence.
  - apply (Hfn (onMessage r msg) p p'); [|done|constructor].
    + intros x. unfold obs. destruct (erase_onMessage r msg x) as [-> ->]. done.
    + pose proof (tequiv_lookup _ _ r Hpp) as E. rewrite Hr in E. simpl in E.
      destruct (objs p' !! r); [eauto|done].
  - pose proof (tequiv_lookup _ _ r Hpp) as E. rewrite Hs in E. simpl in E.
    destruct (objs p' !! r) as [s'|] eqn:Hs'; [|done]. simpl in E.
    apply (Hfn (onExit opts r now) (upd r (set_exited true) p) (upd r (set_exited true) p')).
    + apply obs_commutes, erase_onExit.
    + unfold tequiv. rewrite <-!erase_upd by done. by rewrite Hpp.
    + eapply step_exit; [exact Hs'|]. injection E as E. congruence.
  - apply (Hfn (fun p => (upd r (set_connected false) p, [])) p p'); [|done|apply step_disconnect].
    apply (obs_commutes (fun p => (upd r (set_connected false) p, []))). intros ?. by rewrite erase_upd.
  - apply (Hfn (fun p => (p, [Log (WorkerChannelError id)])) p p'); [|done|apply step_error].
    by apply (obs_commutes (fun p => (p, [Log (WorkerChannelError id)]))).
Qed.

(** ** Properties *)

Lemma handOff_total throws preferred socket head p :
  is_Some (handOff throws preferred socket head p).
Proof.
  unfold handOff.
  destruct (handOff_loop_total (handOff_fuel p) throws socket (conn_msg head) [] preferred p)
    as [[[res q] effs] ->].
  - unfold handOff_fuel, untried. pose proof (length_filter (fun v => wv_id v ∉ [preferred]) (views p)).
    assert (length (views p) = length (slots p)) by apply length_imap. lia.
  - simpl. destruct res; eauto.
Qed.

(** A hand-off always terminates with exactly one of two outcomes.  Either the
    socket was sent, once, to the current process of a worker that is healthy,
    connected and whose [send] did not throw, with the read head base64-encoded in
    the message, and that worker's in-flight estimate went up by one; or the
    socket was refused, once, and then no worker of the pool was usable.  Nothing
    but log lines precedes the outcome, so a socket is never sent twice. *)
Theorem handOff_correct throws preferred socket head p :
  ∃ res q logs last, handOff throws preferred socket head p = Some (res, q, logs ++ [last])
  ∧ Forall is_log logs
  ∧ match res with
    | Some id => ∃ r s, slot_at p id = Some (r, s) ∧ healthy s = true ∧ connected s = true
        ∧ throws r = false ∧ last = SendMsg r (conn_msg head) (Some socket)
        ∧ objs q = <[r := set_inFlight (inFlight s + 1) s]> (objs p) ∧ slots q = slots p
    | None => last = RefuseSocket socket
        ∧ ∀ id r s, slot_at p id = Some (r, s) → healthy s && connected s && negb (throws r) = false
    end.
Proof.
  destruct (handOff_total throws preferred socket head p) as [[[res q] effs] H].
  destruct (handOff_spec _ _ _ _ _ _ _ _ H) as (t' & logs & Hl & _ & Hres).
  destruct res as [id|].
  - destruct Hres as (r & (s & Hat & Hu)%attempt_Some & -> & ->).
    eexists _, _, logs, _. split_and!; [exact H|done|]. exists r, s. unfold usable in Hu.
    destruct (healthy s), (connected s), (throws r); try done. split_and!; try done. simpl.
    apply slot_at_elim in Hat as [_ Hs]. apply map_eq. intros i. rewrite lookup_alter.
    case_decide; [subst; by rewrite Hs, lookup_insert_eq|by rewrite lookup_insert_ne].
  - destruct Hres as (-> & -> & Hno). eexists _, _, logs, _. split_and!; [exact H|done|].
    split; [done|]. intros id r s Hat. specialize (Hno id). unfold attempt in Hno. rewrite Hat in Hno.
    by destruct (_ && _).
Qed.

(** C3. Supervision: in every state the pool can reach, the pool has exactly
    [workers] slots; every process that is alive is the one its slot points to (no
    orphan, no two processes for one worker); a restart timer is pending for a worker
    at most once and only when its process is gone; and unless the pool is
    shutting down, every worker whose process is gone has its restart pending. *)
Theorem pool_supervision opts now pids p tr :
  reachable opts now pids p tr → supervised (workers opts) p.
Proof.
  induction 1 as [|p q tr effs _ IH Hstep].
  - apply (boot_inv now pids (workers opts)).
  - by eapply supervised_step.
Qed.

(** A run used by the witnesses: two workers boot, report ready, one is handed a
    connection, the pool is drained and the shutdown waits for idleness. *)
Definition demo_opts : PoolOptions := mkOptions 2 100 5000.
Definition demo_now (_ : nat) : Z := 0.
Definition demo_pids (id : nat) : option Z := Some (Z.of_nat id + 100).
Definition demo0 : Pool := (new_pool demo_opts demo_now demo_pids).1.
Definition demo1 : Pool := (onMessage 1 (Ready 101) (onMessage 0 (Ready 100) demo0).1).1.
Definition demo2 : Pool := default demo1 ((fun x => x.1.2) <$> handOff (fun _ => false) 0 7 None demo1).
Definition demo3 : Pool := (awaitIdle (drainAll (fun _ => false) demo2).1).1.

Lemma demo_reach : ∃ tr, reachable demo_opts demo_now demo_pids demo3 tr.
Proof.
  eexists. unfold demo3. eapply reach_step; [|apply step_awaitIdle; vm_compute; reflexivity].
  eapply reach_step; [|apply step_drainAll].
  eapply (reach_step _ _ _ demo1 demo2).
  - eapply reach_step; [eapply reach_step; [apply reach_new|]|]; apply step_message;
      vm_compute; eauto.
  - eapply (step_handOff _ (fun _ => false) 0 7 None (Some 0%nat)). vm_compute. reflexivity.
Defined.

Lemma pool_supervision_witness :
  supervised 2 demo3 ∧ length (slots demo3) = 2%nat ∧ shuttingDown demo3 = true.
Proof.
  destruct demo_reach as [tr H]. split; [|by vm_compute].
  exact (pool_supervision demo_opts demo_now demo_pids demo3 tr H).
Defined.

Lemma resolved_forks l : resolved (Fork <$> l) = [].
Proof. by induction l. Qed.

(** Waiting for idleness loses no wake-up: in every reachable state every
    waiter ever created is either still waiting or was resolved, and exactly once;
    if any is still waiting the pool is shutting down and really is not idle; and
    a waiter is only ever told [true] in a state where every worker is idle. *)
Theorem idle_wait_correct opts now pids p tr :
  reachable opts now pids p tr →
  idleWaiters p ++ resolved tr ≡ₚ seq 0 (nextWaiter p)
  ∧ (idleWaiters p ≠ [] → shuttingDown p = true ∧ allIdle p = false)
  ∧ ∀ q effs w, pool_step opts p q effs → ResolveWaiter w true ∈ effs → allIdle q = true.
Proof.
  intros Hr. split_and!; [| |intros q effs w; apply resolve_true_idle].
  - fold (waiters_accounted p tr). induction Hr as [|p q tr effs _ IH Hstep]; [|by eapply accounted_step].
    destruct (boot_inv now pids (workers opts)) as (_ & _ & _ & Hw & Hn & _ & _ & _ & He).
    unfold waiters_accounted. change (new_pool opts now pids) with (boot now pids (workers opts)).
    rewrite Hw, Hn, He, resolved_forks. done.
  - fold (no_lost_wakeup p). induction Hr as [|p q tr effs _ IH Hstep]; [|by eapply wakeup_step].
    destruct (boot_inv now pids (workers opts)) as (_ & _ & _ & Hw & _). intros H. by destruct H.
Qed.

Lemma idle_wait_correct_witness : idleWaiters demo3 = [0%nat] ∧ allIdle demo3 = false.
Proof.
  split; [by vm_compute|]. destruct demo_reach as [tr H].
  apply (idle_wait_correct demo_opts demo_now demo_pids demo3 tr H). by vm_compute.
Defined.

(** [spuriousRefusals] counts each refusal at most once: over any run it never
    exceeds the number of refusals, and while the latest refusal has not been
    counted it is strictly below. *)
Theorem spurious_refusals_bounded opts now pids p tr :
  reachable opts now pids p tr →
  0 ≤ spuriousRefusals (tally p)
  ∧ spuriousRefusals (tally p) + (if refusalCounted p then 0 else 1) ≤ refusalSeq p.
Proof.
  intros Hr. fold (refusals_ok p). induction Hr as [|p q tr effs _ IH Hstep]; [|by eapply refusals_step].
  destruct (boot_inv now pids (workers opts)) as (_ & _ & _ & _ & _ & Hs & Hc & Ht & _).
  unfold refusals_ok. change (new_pool opts now pids) with (boot now pids (workers opts)).
  rewrite Hs, Hc, Ht. done.
Qed.

Lemma spurious_refusals_bounded_witness :
  spuriousRefusals (tally (noteRefusal demo3)) + 1 ≤ refusalSeq (noteRefusal demo3).
Proof.
  destruct demo_reach as [tr H].
  apply (spurious_refusals_bounded demo_opts demo_now demo_pids (noteRefusal demo3) (tr ++ [])).
  eapply reach_step; [exact H|apply step_refusal].
Defined.

(** Telemetry is observed, never acted on: a [Stats] message has no effect and
    changes nothing but telemetry, and two pools that differ only in telemetry
    match each other step by step with identical effects, to states that again
    differ only in telemetry. *)
Theorem telemetry_never_acted_on opts :
  (∀ r lag rss held size op p, let '(q, effs) := onMessage r (Stats lag rss held size op) p in
     tequiv p q ∧ effs = [])
  ∧ ∀ p p' q effs, tequiv p p' → pool_step opts p q effs →
      ∃ q', pool_step opts p' q' effs ∧ tequiv q q'.
Proof.
  split; [|intros p p' q effs; apply tequiv_step].
  intros. unfold onMessage. destruct (objs p !! r) as [s|]; [|done]. split; [|done].
  unfold tequiv, erase, upd, with_objs. simpl. f_equal. apply map_eq. intros i.
  rewrite !lookup_fmap, lookup_alter. case_decide; [subst|done]. by destruct (objs p !! i).
Qed.

(** Restart backoff: while a worker keeps dying before it has run for
    [healthyRunMs], however often, its [i]-th restart is delayed by
    [restartBackoffMs * 2^(crashes + i)], capped at [MAX_BACKOFF_MS]. *)
Theorem crash_loop_backoff opts id times p r s :
  slot_at p id = Some (r, s) → s_id s = id → shuttingDown p = false →
  quick opts (startedAt s) times →
  crash_loop opts id times p =
  (fun i => Z.min (restartBackoffMs opts * 2 ^ (crashes s + Z.of_nat i)) MAX_BACKOFF_MS)
    <$> seq 0 (length times).
Proof.
  revert p r s. induction times as [|[te tr] times IH]; intros p r s Hat Hid Hsd Hq; [done|].
  destruct Hq as [Hq1 Hq2]. cbn [crash_loop length seq fmap list_fmap]. rewrite Hat.
  pose proof (exit_quick opts p id r s te Hat Hid Hsd Hq1) as H.
  destruct (onExit _ _ _ _) as [q effs].
  destruct H as ((logs & Hl & res & Hr & ->) & (s1 & Hat1 & Hc1) & Hsd1 & _).
  rewrite delays_spec by done.
  destruct (timer_restart tr id r s1 q Hat1 Hsd1) as (r2 & s2 & Hat2 & Hid2 & Hst2 & Hc2 & Hsd2).
  rewrite (IH _ r2 s2 Hat2 Hid2 Hsd2) by (by rewrite Hst2).
  cbn [app]. rewrite Z.add_0_r. f_equal. rewrite <-fmap_S_seq, <-list_fmap_compose.
  apply list_fmap_ext. intros i x _. simpl. f_equal. f_equal. f_equal. lia.
Qed.

Lemma crash_loop_backoff_witness :
  crash_loop demo_opts 0 [(10, 110); (120, 320); (400, 800)] demo0 = [100; 200; 400].
Proof.
  rewrite (crash_loop_backoff demo_opts 0 [(10, 110); (120, 320); (400, 800)] demo0 0
             (mkSlot 0 0 false 0 0 false None no_telemetry (Some 100) true false));
    try reflexivity.
  vm_compute. tauto.
Defined.

(** A worker that has been told to drain and has stopped accepting is never
    routed to again: whatever happens next, including a late [Ready] message of its
    process, its slot object stays drained and unhealthy. *)
Theorem drained_stays_unroutable opts now pids p tr q r s :
  reachable opts now pids p tr → rtc (fun x y => ∃ effs, pool_step opts x y effs) p q →
  objs p !! r = Some s → drained s = true → healthy s = false →
  ∃ s', objs q !! r = Some s' ∧ drained s' = true ∧ healthy s' = false.
Proof.
  intros Hp Hsteps Hs Hd Hh.
  assert (Hsup : supervised (workers opts) p).
  { clear -Hp. induction Hp as [|p q tr effs _ IH Hstep]; [|by eapply supervised_step].
    apply (boot_inv now pids (workers opts)). }
  clear Hp. revert s Hs Hd Hh.
  induction Hsteps as [p|p1 p2 p3 [effs Hstep] _ IH]; intros s Hs Hd Hh; [eauto|].
  destruct (keeps_retired_step _ _ r _ _ _ Hsup Hstep s Hs (conj Hd Hh)) as (s' & Hs' & Hd' & Hh').
  by eapply IH, Hh'; [eapply supervised_step| |].
Qed.

Lemma drained_stays_unroutable_witness :
  let p := (onMessage 0 Draining demo3).1 in
  let q := (onMessage 0 (Ready 100) p).1 in
  drained <$> objs p !! 0%nat = Some true
  ∧ ∃ s', objs q !! 0%nat = Some s' ∧ drained s' = true ∧ healthy s' = false.
Proof.
  intros p q. split; [by vm_compute|]. destruct demo_reach as [tr H].
  eapply (drained_stays_unroutable demo_opts demo_now demo_pids p (tr ++ []) q 0).
  - eapply reach_step; [exact H|]. apply (step_message _ 0 Draining demo3). vm_compute. eauto.
  - apply rtc_once. eexists. apply (step_message _ 0 (Ready 100) p). vm_compute. eauto.
  - vm_compute. reflexivity.
  - vm_compute. reflexivity.
  - vm_compute. reflexivity.
Defined.
