(* ===== verification/SupMain.v ===== *)
(** * Supervisor: configuration and the connection path

    Models [packages/supervisor/src/config.ts] ([readInt], [defaultWorkers],
    [readConfig]) and the part of [packages/supervisor/src/main.ts] that carries a
    connection: [route], from admission to hand-off, and the shutdown sequence of
    [close].  [route] awaits [readHead], so between its two halves any other event
    can happen: sockets whose head is being read are part of the state. *)

From Stdlib Require Import QArith.
From S2P Require Import Prelude JsNumber SupRouting SupHead SupPool.

Local Open Scope Z_scope.

(** ** Configuration *)

Definition Env : Type := string → option string.

Inductive config_error :=
| RequiredNoDefault (name : string)
| BadDefault (name : string)
| NotAnInteger (name : string) (raw : bytes)
| TurnsRequired
| PortsCollide (adminPort port : Z)
| BadPolicy (e : policy_error).

(** [env[name]?.trim()]; [undefined] and the empty string are both falsy. *)
Definition env_raw (env : Env) (name : string) : bytes := trim (bytes_of (default "" (env name))).

Definition in_bounds (min max n : Z) : bool := negb ((n <? min) || (max <? n)).

Definition readInt (env : Env) (name : string) (fallback : option (jsnum Q)) (min : Z)
    (max_ : option Z) : result config_error Z :=
  let raw := env_raw env name in
  let max := default MAX_SAFE_INTEGER max_ in
  match raw with
  | [] =>
      match fallback with
      | None => Throw (RequiredNoDefault name)
      | Some f =>
          match integer_val f with
          | Some n => require in_bounds min max n else BadDefault name; Ok n
          | None => Throw (BadDefault name)
          end
      end
  | _ =>
      match integer_val (Number raw) with
      | Some n => require in_bounds min max n else NotAnInteger name raw; Ok n
      | None => Throw (NotAnInteger name raw)
      end
  end.

Definition defaultWorkers (cpuCount : Z) : Z := Z.max 1 cpuCount.

Record SupervisorConfig := mkConfig {
  c_port : Z;
  c_workers : Z;
  c_turnsPerWorker : Z;
  c_policy : RoutingPolicy;
  c_restartBackoffMs : Z;
  c_adminPort : Z;
}.

Definition num (n : Z) : option (jsnum Q) := Some (Fin (inject_Z n)).

Definition lift_policy {A} (r : result policy_error A) : result config_error A :=
  match r with Ok a => Ok a | Throw e => Throw (BadPolicy e) end.

(** [cpus] is what [availableParallelism()] answers. *)
Definition readConfig (env : Env) (cpus : Z) : result config_error SupervisorConfig :=
  require negb (bool_decide (env_raw env "SH_TURNS_PER_WORKER" = [])) else TurnsRequired;
  try port <- readInt env "PORT" (num 8080) 0 (Some 65535);
  try adminPort <- readInt env "SH_ADMIN_PORT" (num 8081) 0 (Some 65535);
  require negb (negb (adminPort =? 0) && (adminPort =? port)) else PortsCollide adminPort port;
  try workers <- readInt env "SH_WORKERS" (num (defaultWorkers cpus)) 1 None;
  try turnsPerWorker <- readInt env "SH_TURNS_PER_WORKER" None 1 None;
  try policy <- lift_policy (policyFromName (env "SH_ROUTING_POLICY"));
  try restartBackoffMs <- readInt env "SH_WORKER_RESTART_BACKOFF_MS" (num 250) 0 None;
  Ok (mkConfig port workers turnsPerWorker policy restartBackoffMs adminPort).

(** ** The connection path *)

Record Supervisor := mkSup {
  sup_pool : Pool;
  sup_policy : RoutingPolicy;
  sup_turns : Z;                   (* [config.turnsPerWorker] *)
  reading : list nat;              (* sockets whose head is being read *)
  nextSocket : nat;                (* sockets accepted so far *)
  accepting : bool;
}.

Inductive sup_effect :=
| PoolEff (e : effect)
| DestroySocket (socket : nat).

Definition with_pool (p : Pool) (st : Supervisor) : Supervisor :=
  mkSup p (sup_policy st) (sup_turns st) (reading st) (nextSocket st) (accepting st).

(** The pool side of a refusal in [route]. *)
Definition route_refuse (socket : nat) (st : Supervisor) : Supervisor * list sup_effect :=
  (with_pool (noteRefusal (sup_pool st)) st, [PoolEff (RefuseSocket socket)]).

(** The end of [route]: pick a worker and hand the socket over. *)
Definition route_pick (throws : nat → bool) (socket : nat) (head : option bytes)
    (sid : option string) (st : Supervisor) : option (Supervisor * list sup_effect) :=
  let '(chosen, policy) := pick (sup_policy st) (views (sup_pool st)) (mkFacts sid) in
  let st1 := mkSup (sup_pool st) policy (sup_turns st) (reading st) (nextSocket st) (accepting st) in
  match chosen with
  | None => Some (route_refuse socket st1)
  | Some target =>
      match handOff throws target socket head (sup_pool st1) with
      | Some (_, p, effs) => Some (with_pool p st1, PoolEff <$> effs)
      | None => None
      end
  end.

(** [route] up to its [await]. *)
Definition route (throws : nat → bool) (socket : nat) (st : Supervisor) :
    option (Supervisor * list sup_effect) :=
  if isSaturated (views (sup_pool st)) (sup_turns st) then Some (route_refuse socket st)
  else if needsHead (sup_policy st) then
    Some (mkSup (sup_pool st) (sup_policy st) (sup_turns st) (reading st ++ [socket]) (nextSocket st)
            (accepting st), [])
  else route_pick throws socket None None st.

(** [route] from the point where [readHead] resolved with [bytes] and [outcome]. *)
Definition route_resume (throws : nat → bool) (socket : nat) (bytes_ : bytes) (outcome : HeadOutcome)
    (st0 : Supervisor) : option (Supervisor * list sup_effect) :=
  let st := mkSup (sup_pool st0) (sup_policy st0) (sup_turns st0)
              (filter (fun s => s ≠ socket) (reading st0)) (nextSocket st0) (accepting st0) in
  match outcome with
  | closed => Some (st, [DestroySocket socket])
  | _ =>
      let sid := if bool_decide (outcome = complete) then sessionIdFromHead bytes_ else None in
      let '(p, e) := if bool_decide (outcome = cap)
                     then noteHeadTruncated (Z.of_nat (length bytes_)) (sup_pool st)
                     else (sup_pool st, []) in
      match route_pick throws socket (Some bytes_) sid (with_pool p st) with
      | Some (st', effs) => Some (st', (PoolEff <$> e) ++ effs)
      | None => None
      end
  end.

(** The first steps of [close]: drain, stop accepting, wait for the turns in flight. *)
Definition close_begin (throws : nat → bool) (st : Supervisor) : Supervisor * list sup_effect :=
  let '(p1, e1) := drainAll throws (sup_pool st) in
  let '(p2, e2) := awaitIdle p1 in
  (mkSup p2 (sup_policy st) (sup_turns st) (reading st) (nextSocket st) false, PoolEff <$> (e1 ++ e2)).

(** Sockets a list of effects disposed of: handed to a worker, refused or
    destroyed. *)
Definition socket_of (e : sup_effect) : option nat :=
  match e with
  | PoolEff (SendMsg _ _ so) => so
  | PoolEff (RefuseSocket s) => Some s
  | DestroySocket s => Some s
  | _ => None
  end.
Definition disposed (effs : list sup_effect) : list nat := omap socket_of effs.

(** Runs of the supervisor.  The pool's own events (messages, exits, timers) are
    the pool steps that concern no socket. *)
Inductive sup_step (opts : PoolOptions) (maxBytes : nat) :
    Supervisor → Supervisor → list sup_effect → Prop :=
| sup_connect throws st st' effs :
    accepting st = true →
    route throws (nextSocket st)
      (mkSup (sup_pool st) (sup_policy st) (sup_turns st) (reading st) (S (nextSocket st)) true)
      = Some (st', effs) →
    sup_step opts maxBytes st st' effs
| sup_head throws socket evs outcome st st' effs :
    socket ∈ reading st → settled (head_run maxBytes evs) = Some outcome →
    route_resume throws socket (head_bytes (head_run maxBytes evs)) outcome st = Some (st', effs) →
    sup_step opts maxBytes st st' effs
| sup_pool_event st q effs :
    pool_step opts (sup_pool st) q effs → disposed (PoolEff <$> effs) = [] →
    sup_step opts maxBytes st (with_pool q st) (PoolEff <$> effs)
| sup_close throws st :
    sup_step opts maxBytes st (close_begin throws st).1 (close_begin throws st).2.

Definition sup_init (cfg : SupervisorConfig) (opts : PoolOptions) now pids : Supervisor :=
  mkSup (new_pool opts now pids).1 (c_policy cfg) (c_turnsPerWorker cfg) [] 0 true.

Inductive sup_reach (cfg : SupervisorConfig) (opts : PoolOptions) now pids (maxBytes : nat) :
    Supervisor → list sup_effect → Prop :=
| sup_reach_init : sup_reach cfg opts now pids maxBytes (sup_init cfg opts now pids) []
| sup_reach_step st st' tr effs :
    sup_reach cfg opts now pids maxBytes st tr → sup_step opts maxBytes st st' effs →
    sup_reach cfg opts now pids maxBytes st' (tr ++ effs).

(** ** Lemmas *)

Lemma disposed_app a b : disposed (a ++ b) = disposed a ++ disposed b.
Proof. apply omap_app. Qed.

Lemma disposed_logs logs : Forall is_log logs → disposed (PoolEff <$> logs) = [].
Proof. induction 1 as [|e l He _ IH]; [done|]. by destruct e. Qed.

(** [handOff] disposes of exactly the socket it is given. *)
Lemma disposed_handOff throws target socket head p res q effs :
  handOff throws target socket head p = Some (res, q, effs) → disposed (PoolEff <$> effs) = [socket].
Proof.
  intros H. apply handOff_spec in H as (t' & logs & Hl & _ & Hres).
  destruct res as [id|]; [destruct Hres as (r & _ & _ & ->)|destruct Hres as (_ & -> & _)];
    rewrite fmap_app, disposed_app, disposed_logs by done; done.
Qed.

Lemma route_pick_spec throws socket head sid st :
  ∃ st' effs, route_pick throws socket head sid st = Some (st', effs)
  ∧ disposed effs = [socket] ∧ reading st' = reading st ∧ nextSocket st' = nextSocket st.
Proof.
  unfold route_pick. destruct (pick _ _ _) as [[target|] policy]; [|by eexists _, _].
  destruct (handOff_total throws target socket head (sup_pool st)) as [[[res q] effs] E].
  cbn [sup_pool]. rewrite E. simpl. eexists _, _. split; [done|]. split; [|done].
  by eapply disposed_handOff.
Qed.

Lemma route_spec throws socket st :
  ∃ st' effs, route throws socket st = Some (st', effs) ∧ nextSocket st' = nextSocket st
  ∧ (disposed effs = [socket] ∧ reading st' = reading st
     ∨ disposed effs = [] ∧ reading st' = reading st ++ [socket]).
Proof.
  unfold route. destruct (isSaturated _ _).
  { eexists _, _. split; [done|]. split; [done|]. by left. }
  destruct (needsHead _).
  { eexists _, _. split; [done|]. split; [done|]. by right. }
  destruct (route_pick_spec throws socket None None st) as (st' & effs & E & ? & ? & ?).
  eexists _, _. split; [exact E|]. auto.
Qed.

Lemma route_resume_spec throws socket bs outcome st :
  ∃ st' effs, route_resume throws socket bs outcome st = Some (st', effs)
  ∧ nextSocket st' = nextSocket st ∧ disposed effs = [socket]
  ∧ reading st' = filter (fun s => s ≠ socket) (reading st).
Proof.
  unfold route_resume.
  assert (Hp : ∀ p (e : list effect) hd sid st1, disposed (PoolEff <$> e) = [] →
    nextSocket st1 = nextSocket st → reading st1 = filter (fun s => s ≠ socket) (reading st) →
    ∃ st' effs, match route_pick throws socket hd sid (with_pool p st1) with
                | Some (st', effs) => Some (st', (PoolEff <$> e) ++ effs)
                | None => None
                end = Some (st', effs)
    ∧ nextSocket st' = nextSocket st ∧ disposed effs = [socket]
    ∧ reading st' = filter (fun s => s ≠ socket) (reading st)).
  { intros p e hd sid st1 He Hn Hr.
    destruct (route_pick_spec throws socket hd sid (with_pool p st1)) as (st' & effs & -> & Hd & Hr' & Hn').
    simpl. eexists _, _. split; [done|]. rewrite disposed_app, He, Hd. simpl in *. split_and!; congruence. }
  destruct outcome; cbn [bool_decide]; try (eexists _, _; done);
    rewrite ?bool_decide_eq_true_2, ?bool_decide_eq_false_2 by done;
    try (destruct (noteHeadTruncated _ _) as [p e] eqn:E); apply Hp; try done.
  by injection E as _ <-.
Qed.

Lemma disposed_drain throws l p effs :
  disposed (PoolEff <$> effs) = [] →
  disposed (PoolEff <$> (foldl (drain_one throws) (p, effs) l).2) = [].
Proof.
  revert p effs. induction l as [|r l IH]; intros p effs He; [done|]. cbn [foldl].
  unfold drain_one at 2. destruct (objs p !! r) as [s|]; [|by apply IH].
  destruct (drained s); [by apply IH|]. destruct (_ && _); apply IH; [|done].
  by rewrite fmap_app, disposed_app, He.
Qed.

Lemma disposed_close throws st : disposed (close_begin throws st).2 = [].
Proof.
  unfold close_begin.
  assert (Hd : disposed (PoolEff <$> (drainAll throws (sup_pool st)).2) = [])
    by (by unfold drainAll; apply disposed_drain).
  destruct (drainAll throws (sup_pool st)) as [p1 e1]. cbn [snd] in Hd.
  unfold awaitIdle. destruct (allIdle p1); cbn [snd]; by rewrite fmap_app, disposed_app, Hd.
Qed.

Lemma close_fields throws st :
  reading (close_begin throws st).1 = reading st ∧ nextSocket (close_begin throws st).1 = nextSocket st
  ∧ accepting (close_begin throws st).1 = false.
Proof. unfold close_begin. destruct (drainAll _ _) as [p1 e1], (awaitIdle p1) as [p2 e2]. done. Qed.

(** Every accepted socket is being read or was disposed of, and only once. *)
Definition sockets_accounted (st : Supervisor) (tr : list sup_effect) : Prop :=
  reading st ++ disposed tr ≡ₚ seq 0 (nextSocket st).

Lemma accounted_NoDup st tr : sockets_accounted st tr → NoDup (reading st).
Proof.
  intros H. assert (Hn : NoDup (reading st ++ disposed tr)) by (rewrite H; apply NoDup_seq).
  by apply NoDup_app in Hn as (? & _).
Qed.

Lemma filter_out_perm (x : nat) l : NoDup l → x ∈ l → l ≡ₚ x :: filter (fun y => y ≠ x) l.
Proof.
  intros Hn Hx. apply NoDup_Permutation; [done| |].
  - apply NoDup_cons. split; [rewrite list_elem_of_filter; tauto|by apply NoDup_filter].
  - intros y. rewrite elem_of_cons, list_elem_of_filter. destruct (decide (y = x)); naive_solver.
Qed.

Lemma sockets_step opts maxBytes st st' tr effs :
  sockets_accounted st tr → sup_step opts maxBytes st st' effs → sockets_accounted st' (tr ++ effs).
Proof.
  unfold sockets_accounted. intros Ha Hstep. rewrite disposed_app.
  destruct Hstep as [throws st st' effs Hacc H|throws so evs o st st' effs Hin Hset H|st q effs H He
    |throws st].
  - destruct (route_spec throws (nextSocket st) (mkSup (sup_pool st) (sup_policy st) (sup_turns st)
      (reading st) (S (nextSocket st)) true)) as (st1 & effs1 & E & Hn & Hcase).
    rewrite H in E. simplify_eq. rewrite Hn. cbn [nextSocket reading] in *. rewrite seq_S, <-Ha.
    destruct Hcase as [[-> ->]|[-> ->]]; cbn [Nat.add].
    + by rewrite app_assoc.
    + rewrite app_nil_r, <-!app_assoc. by rewrite (Permutation_app_comm [_]).
  - destruct (route_resume_spec throws so (head_bytes (head_run maxBytes evs)) o st)
      as (st1 & effs1 & E & Hn & Hd & Hr). rewrite H in E. simplify_eq.
    rewrite Hn, Hr, Hd, <-Ha. rewrite (filter_out_perm so (reading st)) at 2;
      [|by eapply accounted_NoDup|done].
    rewrite app_assoc. by rewrite Permutation_app_comm.
  - cbn [with_pool reading nextSocket]. by rewrite He, app_nil_r.
  - destruct (close_fields throws st) as (-> & -> & _). by rewrite disposed_close, app_nil_r.
Qed.

Lemma in_bounds_true min max n : in_bounds min max n = true ↔ min ≤ n ≤ max.
Proof. unfold in_bounds. destruct (Z.ltb_spec n min), (Z.ltb_spec max n); simpl; intuition lia. Qed.

Lemma readInt_bounds env name fb min max n :
  readInt env name fb min max = Ok n → min ≤ n ≤ default MAX_SAFE_INTEGER max.
Proof.
  unfold readInt. intros H. apply in_bounds_true. destruct (env_raw env name).
  - destruct fb as [f|]; [|done]. destruct (integer_val f); [|done].
    by destruct (in_bounds _ _ _) eqn:E; simplify_eq.
  - destruct (integer_val _); [|done]. by destruct (in_bounds _ _ _) eqn:E; simplify_eq.
Qed.

(** An environment that sets every variable to the decimal rendering of a value. *)
Definition policy_name (sticky : bool) : string :=
  if sticky then "stickyBySession" else "leastInFlight".

Definition render_config (port workers turns backoff adminPort : Z) (sticky : bool) : Env := fun name =>
  if decide (name = "PORT") then Some (string_of (dec_signed port))
  else if decide (name = "SH_WORKERS") then Some (string_of (dec_signed workers))
  else if decide (name = "SH_TURNS_PER_WORKER") then Some (string_of (dec_signed turns))
  else if decide (name = "SH_WORKER_RESTART_BACKOFF_MS") then Some (string_of (dec_signed backoff))
  else if decide (name = "SH_ADMIN_PORT") then Some (string_of (dec_signed adminPort))
  else if decide (name = "SH_ROUTING_POLICY") then Some (policy_name sticky)
  else None.

Lemma trim_dec n : trim (dec_signed n) = dec_signed n ∧ dec_signed n ≠ [].
Proof.
  unfold dec_signed. destruct (Z.ltb_spec n 0).
  - split; [|done]. apply trim_no_ws. constructor; [done|]. apply plain_no_ws, dec_plain. lia.
  - split; [|apply dec_nonempty]. apply trim_no_ws, plain_no_ws, dec_plain. lia.
Qed.

(** What [readInt] makes of a variable set to an integer. *)
Lemma readInt_dec env name fb min max n :
  env name = Some (string_of (dec_signed n)) → Z.abs n ≤ MAX_SAFE_INTEGER →
  readInt env name fb min max =
    if in_bounds min (default MAX_SAFE_INTEGER max) n then Ok n else Throw (NotAnInteger name (dec_signed n)).
Proof.
  intros He Hn. unfold readInt, env_raw. rewrite He.
  change (default "" (Some (string_of (dec_signed n)))) with (string_of (dec_signed n)).
  rewrite bytes_string.
  destruct (trim_dec n) as [-> Hne]. destruct (dec_signed n) as [|c l] eqn:E; [done|].
  rewrite <-E, Number_dec by done. done.
Qed.

(** ** Properties *)

(** A configuration the supervisor accepts is sane: the ports are in range and
    distinct unless the admin port is ephemeral, there is at least one worker and at
    least one turn per worker (so the pool is never permanently saturated by
    configuration), the backoff is not negative, and the routing policy is the one
    named in the environment. *)
Theorem readConfig_sound env cpus c :
  readConfig env cpus = Ok c →
  0 ≤ c_port c ≤ 65535 ∧ 0 ≤ c_adminPort c ≤ 65535 ∧ (c_adminPort c ≠ 0 → c_adminPort c ≠ c_port c)
  ∧ 1 ≤ c_workers c ≤ MAX_SAFE_INTEGER ∧ 1 ≤ c_turnsPerWorker c ≤ MAX_SAFE_INTEGER
  ∧ 0 ≤ c_restartBackoffMs c ≤ MAX_SAFE_INTEGER
  ∧ policyFromName (env "SH_ROUTING_POLICY") = Ok (c_policy c)
  ∧ env_raw env "SH_TURNS_PER_WORKER" ≠ [].
Proof.
  unfold readConfig. destruct (bool_decide (env_raw env _ = [])) eqn:Hb; [done|].
  apply bool_decide_eq_false in Hb.
  destruct (readInt env "PORT" _ _ _) as [port|] eqn:H1; [|done].
  destruct (readInt env "SH_ADMIN_PORT" _ _ _) as [admin|] eqn:H2; [|done].
  cbn [result_bind]. destruct (negb (admin =? 0) && (admin =? port)) eqn:Hp; [done|].
  destruct (readInt env "SH_WORKERS" _ _ _) as [w|] eqn:H3; [|done].
  destruct (readInt env "SH_TURNS_PER_WORKER" _ _ _) as [t|] eqn:H4; [|done].
  destruct (policyFromName _) as [pol|] eqn:H5; [|done].
  destruct (readInt env "SH_WORKER_RESTART_BACKOFF_MS" _ _ _) as [b|] eqn:H6; [|done].
  intros [= <-]. apply readInt_bounds in H1, H2, H3, H4, H6. cbn in *.
  split_and!; try done; try lia.
Qed.

Lemma readConfig_sound_witness :
  ∃ c, readConfig (render_config 0 2 3 250 0 true) 8 = Ok c ∧ 1 ≤ c_workers c ≤ MAX_SAFE_INTEGER.
Proof.
  eexists. split; [vm_compute; reflexivity|].
  apply (readConfig_sound (render_config 0 2 3 250 0 true) 8). vm_compute. reflexivity.
Defined.

(** Every legal configuration can be expressed: an environment that spells out
    in-range values is read back to exactly those values, whatever the number of
    CPUs, so no legal value is refused or altered on the way. *)
Theorem readConfig_roundtrip port workers turns backoff adminPort sticky cpus :
  0 ≤ port ≤ 65535 → 0 ≤ adminPort ≤ 65535 → (adminPort ≠ 0 → adminPort ≠ port) →
  1 ≤ workers ≤ MAX_SAFE_INTEGER → 1 ≤ turns ≤ MAX_SAFE_INTEGER → 0 ≤ backoff ≤ MAX_SAFE_INTEGER →
  readConfig (render_config port workers turns backoff adminPort sticky) cpus =
  Ok (mkConfig port workers turns
        (if sticky then stickyBySession MAX_SESSION_PINS [] else leastInFlight) backoff adminPort).
Proof.
  intros H1 H2 H3 H4 H5 H6. unfold MAX_SAFE_INTEGER in *.
  unfold readConfig. rewrite bool_decide_eq_false_2.
  2:{ unfold env_raw. simpl. rewrite bytes_string. destruct (trim_dec turns) as [-> ?]. done. }
  cbn [negb]. erewrite !readInt_dec by (try reflexivity; unfold MAX_SAFE_INTEGER; lia).
  rewrite !(proj2 (in_bounds_true _ _ _)) by (unfold MAX_SAFE_INTEGER; simpl; lia). cbn [result_bind].
  destruct (negb (adminPort =? 0) && (adminPort =? port)) eqn:Hp.
  - destruct (Z.eqb_spec adminPort 0), (Z.eqb_spec adminPort port); simpl in Hp; try done. exfalso. by apply H3.
  - by destruct sticky.
Qed.

Lemma readConfig_roundtrip_witness :
  readConfig (render_config 8080 4 16 250 8081 true) 1 =
  Ok (mkConfig 8080 4 16 (stickyBySession MAX_SESSION_PINS []) 250 8081).
Proof.
  apply (readConfig_roundtrip 8080 4 16 250 8081 true 1); unfold MAX_SAFE_INTEGER; lia.
Defined.

(** C6. No connection is leaked or served twice: over any run of the supervisor,
    with worker crashes, restarts, a saturated pool, slow and abandoned
    heads and a shutdown in any order, every accepted socket is either still having
    its head read or was disposed of (sent to one worker, refused with 429, or
    destroyed), and exactly once. *)
Theorem connections_conserved cfg opts now pids maxBytes st tr :
  sup_reach cfg opts now pids maxBytes st tr →
  reading st ++ disposed tr ≡ₚ seq 0 (nextSocket st).
Proof.
  intros Hr. fold (sockets_accounted st tr).
  induction Hr as [|st st' tr effs _ IH Hstep]; [by unfold sockets_accounted|by eapply sockets_step].
Qed.

Definition demo_cfg : SupervisorConfig := mkConfig 8080 2 4 leastInFlight 100 8081.

Lemma connections_conserved_witness :
  ∃ tr, sup_reach demo_cfg demo_opts demo_now demo_pids 64
    (with_pool (noteRefusal demo0)
       (mkSup demo0 leastInFlight 4 [] 1 true)) tr ∧ [] ++ disposed tr ≡ₚ seq 0 1.
Proof.
  eexists. match goal with |- ?A ∧ ?B => assert (A) as H end.
  - eapply sup_reach_step; [apply sup_reach_init|].
    apply (sup_connect _ _ (fun _ => false)); vm_compute; reflexivity.
  - split; [exact H|].
    exact (connections_conserved demo_cfg demo_opts demo_now demo_pids 64 _ _ H).
Defined.
