(* ===== verification/SupWorker.v ===== *)
(** * The turn worker and its link to the supervisor

    Models [packages/knative-server/src/worker.ts]: the turn counter, the worker
    runtime ([accept], [drain], the ['request'] listener, the IPC message
    handler), the stats reporter's message, [statsIntervalMs] and [parseRole].  The
    last section puts one worker and its slot of the pool together, with the two
    IPC queues between them, and shows that the supervisor's estimate always
    converges to the worker's true count. *)

From Stdlib Require Import QArith.
From S2P Require Import Prelude Base64 JsNumber SupRouting SupPool.

Local Open Scope Z_scope.

(** ** Requests and arguments *)

Definition TURN_PATHS : list string := ["/turn"; "/v1/turn"].

Definition isTurnRequest (method url : option string) : bool :=
  bool_decide (method = Some "POST") && bool_decide (default "" url ∈ TURN_PATHS).

Definition statsIntervalMs (env : string → option string) (def : Z) : Z :=
  match env "SH_STATS_INTERVAL_MS" with
  | None | Some "" => def
  | Some raw =>
      match integer_val (Number (bytes_of raw)) with
      | Some n => if 0 <? n then n else def
      | None => def
      end
  end.

Definition ROLE_EQ : bytes := bytes_of "--role=".

Fixpoint parseRole (argv : list string) : string :=
  match argv with
  | [] => "turn"
  | a :: rest =>
      if starts_with ROLE_EQ (bytes_of a) then string_of (drop (length ROLE_EQ) (bytes_of a))
      else if decide (a = "--role") then default "" (head rest)
      else parseRole rest
  end.

(** ** The runtime *)

(** [w_open] are the turns whose end function has not run ([ended] is false);
    [w_sockets] the handed-off sockets whose ['close'] has not fired. *)
Record Worker := mkWorker {
  w_n : Z;
  w_open : list nat;
  w_nextTurn : nat;
  w_draining : bool;
  w_sockets : list nat;
  w_stats : bool;                  (* the stats timer is running *)
}.

Inductive worker_effect :=
| Send (msg : WorkerToSupervisor)
| Unshift (socket : nat) (head : bytes)
| EmitConnection (socket : nat)
| CloseIdleConnections.

Definition load (n : Z) : WorkerToSupervisor := Load "load" (Some (Fin n)).

Definition createWorkerRuntime (pid : Z) : Worker * list worker_effect :=
  (mkWorker 0 [] 0 false [] true, [Send (Ready pid)]).

(** [counter.start()]: the new turn's end function is its token. *)
Definition start (w : Worker) : Worker * list worker_effect :=
  let n := w_n w + 1 in
  (mkWorker n (w_nextTurn w :: w_open w) (S (w_nextTurn w)) (w_draining w) (w_sockets w) (w_stats w),
   [Send (load n)]).

(** The end function of turn [t]; a second call does nothing. *)
Definition end_turn (t : nat) (w : Worker) : Worker * list worker_effect :=
  if bool_decide (t ∈ w_open w) then
    let n := w_n w - 1 in
    (mkWorker n (filter (fun x => x ≠ t) (w_open w)) (w_nextTurn w) (w_draining w) (w_sockets w)
       (w_stats w), [Send (load n)])
  else (w, []).

Definition onRequest (method url : option string) (w : Worker) : Worker * list worker_effect :=
  if isTurnRequest method url then start w else (w, []).

(** [accept(socket, head)]; [None] is a [conn] that arrived without a handle. *)
Definition accept (socket : option nat) (head : option bytes) (w : Worker) :
    Worker * list worker_effect :=
  let report := Send (load (w_n w)) in
  match socket with
  | None => (w, [report])
  | Some s =>
      let w' := mkWorker (w_n w) (w_open w) (w_nextTurn w) (w_draining w) (s :: w_sockets w) (w_stats w) in
      (w', report :: (match head with
                      | Some (c :: h) => [Unshift s (c :: h)]
                      | _ => []
                      end) ++ [EmitConnection s])
  end.

(** The one-shot ['close'] listener of a socket. *)
Definition onSocketClose (s : nat) (w : Worker) : Worker * list worker_effect :=
  if bool_decide (s ∈ w_sockets w) then
    (mkWorker (w_n w) (w_open w) (w_nextTurn w) (w_draining w) (filter (fun x => x ≠ s) (w_sockets w))
       (w_stats w), [Send (load (w_n w))])
  else (w, []).

Definition drain (w : Worker) : Worker * list worker_effect :=
  if w_draining w then (w, [])
  else (mkWorker (w_n w) (w_open w) (w_nextTurn w) true (w_sockets w) (w_stats w),
        [Send Draining; CloseIdleConnections]).

(** One tick of the stats reporter, until [stopStats] cleared its timer. *)
Definition onStatsTick (lag rss : jsnum Q) (w : Worker) : Worker * list worker_effect :=
  if w_stats w then (w, [Send (Stats (Some lag) (Some rss) None None None)]) else (w, []).

(** The IPC message handler of the process.  The supervisor encodes the head with
    [toString('base64')], on whose output [b64_decode] and Node's more lenient decoder agree. *)
Definition onIpc (msg : SupervisorToWorker) (handle : option nat) (w : Worker) :
    Worker * list worker_effect :=
  match msg with
  | Conn head =>
      accept handle (match head with
                     | Some (c :: h) => Some (b64_decode (c :: h))
                     | _ => None
                     end) w
  | Drain =>
      drain (mkWorker (w_n w) (w_open w) (w_nextTurn w) (w_draining w) (w_sockets w) false)
  end.

(** What can happen inside a worker. *)
Inductive worker_event :=
| EvRequest (method url : option string)
| EvResponseClose (turn : nat)
| EvSocketClose (socket : nat)
| EvStats (lag rss : jsnum Q).

Definition worker_handle (ev : worker_event) (w : Worker) : Worker * list worker_effect :=
  match ev with
  | EvRequest m u => onRequest m u w
  | EvResponseClose t => end_turn t w
  | EvSocketClose s => onSocketClose s w
  | EvStats lag rss => onStatsTick lag rss w
  end.

Definition sent (effs : list worker_effect) : list WorkerToSupervisor :=
  omap (fun e => match e with Send m => Some m | _ => None end) effs.

(** ** A worker and its slot

    [down] and [up] are the IPC queues, oldest message first. *)

Record Link := mkLink {
  l_pool : Pool;
  l_worker : Worker;
  down : list (SupervisorToWorker * option nat);
  up : list WorkerToSupervisor;
}.

(** What a list of pool effects puts on the channel to slot object [r]. *)
Definition to_worker (r : nat) (effs : list effect) : list (SupervisorToWorker * option nat) :=
  omap (fun e => match e with
                 | SendMsg r' m s => if decide (r' = r) then Some (m, s) else None
                 | _ => None
                 end) effs.

Inductive link_step (r : nat) : Link → Link → Prop :=
| link_handOff throws preferred socket head p q w dn u res effs :
    handOff throws preferred socket head p = Some (res, q, effs) →
    link_step r (mkLink p w dn u) (mkLink q w (dn ++ to_worker r effs) u)
| link_refusal p w dn u : link_step r (mkLink p w dn u) (mkLink (noteRefusal p) w dn u)
| link_drainAll throws p w dn u :
    link_step r (mkLink p w dn u)
      (mkLink (drainAll throws p).1 w (dn ++ to_worker r (drainAll throws p).2) u)
| link_other r' msg p w dn u :
    r' ≠ r → link_step r (mkLink p w dn u) (mkLink (onMessage r' msg p).1 w dn u)
| link_down msg s p w dn u :
    link_step r (mkLink p w ((msg, s) :: dn) u)
      (mkLink p (onIpc msg s w).1 dn (u ++ sent (onIpc msg s w).2))
| link_worker ev p w dn u :
    link_step r (mkLink p w dn u)
      (mkLink p (worker_handle ev w).1 dn (u ++ sent (worker_handle ev w).2))
| link_up msg p w dn u :
    link_step r (mkLink p w dn (msg :: u)) (mkLink (onMessage r msg p).1 w dn u).

(** ** Lemmas *)

Definition worker_ok (w : Worker) : Prop :=
  NoDup (w_open w) ∧ (∀ t, t ∈ w_open w → (t < w_nextTurn w)%nat) ∧ w_n w = Z.of_nat (length (w_open w)).

Lemma filter_out_length (x : nat) l :
  NoDup l → x ∈ l → length l = S (length (filter (fun y => y ≠ x) l)).
Proof.
  induction l as [|y l IH]; intros Hn Hx; [by apply elem_of_nil in Hx|].
  apply NoDup_cons in Hn as [Hy Hn]. cbn [length]. rewrite filter_cons.
  destruct (decide (y ≠ x)) as [Hne|He].
  - cbn [length]. f_equal. apply IH; [done|]. apply elem_of_cons in Hx as [->|?]; done.
  - f_equal. assert (y = x) as -> by (destruct (decide (y = x)); tauto). clear -Hy.
    induction l as [|z l IH]; [done|]. rewrite filter_cons. apply not_elem_of_cons in Hy as [? ?].
    rewrite decide_True by done. cbn [length]. by rewrite <-IH.
Qed.

Lemma onRequest_ok m u w : worker_ok w → worker_ok (onRequest m u w).1.
Proof.
  intros (Hn & Hb & Hc). unfold onRequest. destruct (isTurnRequest m u); [|done]. split_and!; simpl.
  - apply NoDup_cons. split; [|done]. intros H%Hb. lia.
  - intros t [->|Ht%Hb]%elem_of_cons; lia.
  - lia.
Qed.

Lemma end_turn_ok t w : worker_ok w → worker_ok (end_turn t w).1.
Proof.
  intros (Hn & Hb & Hc). unfold end_turn. destruct (bool_decide_reflect (t ∈ w_open w)) as [Ht|]; [|done].
  split_and!; simpl.
  - by apply NoDup_filter.
  - intros t' [_ ?]%list_elem_of_filter. by apply Hb.
  - rewrite (filter_out_length t (w_open w)) in Hc by done. lia.
Qed.

Lemma worker_handle_ok ev w : worker_ok w → worker_ok (worker_handle ev w).1.
Proof.
  intros Hw. destruct ev; simpl; [by apply onRequest_ok|by apply end_turn_ok| |].
  - unfold onSocketClose. by case_match.
  - unfold onStatsTick. by case_match.
Qed.

Lemma onIpc_ok msg s w : worker_ok w → worker_ok (onIpc msg s w).1.
Proof.
  intros Hw. destruct msg as [h|]; simpl; [by destruct s|]. unfold drain. simpl. by destruct (w_draining w).
Qed.

(** The estimate once every message of [u] has been processed. *)
Definition settle (est : Z) (u : list WorkerToSupervisor) : Z :=
  foldl (fun n m => match m with Load _ (Some (Fin k)) => k | _ => n end) est u.

Lemma settle_app est a b : settle est (a ++ b) = settle (settle est a) b.
Proof. apply foldl_app. Qed.

(** Whatever a worker does inside, the estimate will settle on its count if it
    was going to before. *)
Lemma worker_handle_settles ev w est :
  est = w_n w → settle est (sent (worker_handle ev w).2) = w_n (worker_handle ev w).1.
Proof.
  intros ->. destruct ev; simpl.
  - unfold onRequest. by case_match.
  - unfold end_turn. by case_match.
  - unfold onSocketClose. by case_match.
  - unfold onStatsTick. by case_match.
Qed.

Lemma conn_settles h s w est :
  settle est (sent (onIpc (Conn h) s w).2) = w_n w ∧ w_n (onIpc (Conn h) s w).1 = w_n w.
Proof.
  unfold onIpc, accept. destruct s; [|done].
  destruct (match h with Some (c :: h0) => _ | _ => _ end) as [[|c hd]|]; done.
Qed.

Lemma drain_settles s w est :
  settle est (sent (onIpc Drain s w).2) = est ∧ w_n (onIpc Drain s w).1 = w_n w.
Proof. unfold onIpc, drain. simpl. by destruct (w_draining w). Qed.

Definition is_conn (m : SupervisorToWorker * option nat) : Prop :=
  match m.1 with Conn _ => True | Drain => False end.

(** The slot's estimate, wherever the pool keeps the slot object. *)
Definition estimate (r : nat) (p : Pool) : option Z := inFlight <$> objs p !! r.

Lemma estimate_upd r r' f p :
  (∀ s, inFlight (f s) = inFlight s) → estimate r (upd r' f p) = estimate r p.
Proof.
  intros Hf. unfold estimate. simpl. rewrite lookup_alter. case_decide; [subst|done].
  destruct (objs p !! r); simpl; [by rewrite Hf|done].
Qed.

Lemma estimate_noteRefusal r p : estimate r (noteRefusal p) = estimate r p.
Proof.
  unfold noteRefusal.
  change (estimate r p) with (estimate r (with_refusal (refusalSeq p + 1) false p)).
  generalize (with_refusal (refusalSeq p + 1) false p) as q.
  induction (slots p) as [|r' l IH]; intros q; [done|]. cbn [foldl].
  rewrite IH. by rewrite estimate_upd.
Qed.

Lemma estimate_notify r p : estimate r (notifyIfIdle p).1 = estimate r p.
Proof. unfold notifyIfIdle. by destruct (allIdle p). Qed.

Lemma estimate_reconcile r id r' n p :
  estimate r (reconcile id r' n p).1 =
  if decide (r' = r) then (fun _ => n) <$> estimate r p else estimate r p.
Proof.
  unfold reconcile. destruct (objs p !! r') as [s|] eqn:Hs.
  2:{ unfold estimate. cbn [fst]. case_decide; [subst; by rewrite Hs|done]. }
  set (p1 := upd r' (set_inFlight n) p).
  assert (H1 : estimate r (notifyIfIdle p1).1 =
               if decide (r' = r) then (fun _ => n) <$> estimate r p else estimate r p).
  { rewrite estimate_notify. unfold estimate, p1. simpl. rewrite lookup_alter.
    case_decide; [subst; by rewrite Hs|done]. }
  destruct (notifyIfIdle p1) as [p2 e2]. cbn [fst] in H1.
  destruct (inFlight s <? n), (refusalEstimate s) as [a|]; try exact H1.
  - change (estimate r p2) with (estimate r (with_tally (bump_overAdmission (tally p2)) p2)) in H1.
    rewrite <-(estimate_upd r r' (set_refusalEstimate None)) in H1 by done. by destruct (_ && _).
  - rewrite <-(estimate_upd r r' (set_refusalEstimate None)) in H1 by done. by destruct (_ && _).
Qed.

Lemma estimate_onMessage r r' msg p :
  estimate r (onMessage r' msg p).1 =
  if decide (r' = r) then (fun est => settle est [msg]) <$> estimate r p else estimate r p.
Proof.
  unfold onMessage. destruct (objs p !! r') as [s|] eqn:Hs.
  2:{ unfold estimate. cbn [fst]. case_decide; [subst; by rewrite Hs|done]. }
  assert (Hid : estimate r p = if decide (r' = r) then (fun est => est) <$> estimate r p else estimate r p)
    by (case_decide; [by destruct (estimate r p)|done]).
  destruct msg as [pi|ty [[n| | |]|]| |]; try exact Hid.
  - destruct (drained s); [exact Hid|]. cbn [fst]. by rewrite estimate_upd.
  - apply estimate_reconcile.
  - cbn [fst]. by rewrite estimate_upd.
  - cbn [fst]. by rewrite estimate_upd.
Qed.

Lemma estimate_drain r throws l p effs :
  estimate r (foldl (drain_one throws) (p, effs) l).1 = estimate r p.
Proof.
  apply (drain_loop_ind (fun q => estimate r q = estimate r p)); [|done].
  intros q r' Hq. by rewrite estimate_upd.
Qed.

Lemma to_worker_app r a b : to_worker r (a ++ b) = to_worker r a ++ to_worker r b.
Proof. apply omap_app. Qed.

Lemma to_worker_logs r logs : Forall is_log logs → to_worker r logs = [].
Proof. induction 1 as [|e l He _ IH]; [done|]. by destruct e. Qed.

(** The link invariant: once no connection is on its way to the worker, the
    estimate will settle on the worker's count when the queued reports arrive. *)
Definition link_ok (r : nat) (l : Link) : Prop :=
  worker_ok (l_worker l) ∧ ∃ est, estimate r (l_pool l) = Some est
  ∧ (Forall (fun m => ¬ is_conn m) (down l) → settle est (up l) = w_n (l_worker l)).

Lemma handOff_link r throws pr so h p res q effs est :
  handOff throws pr so h p = Some (res, q, effs) → estimate r p = Some est →
  ∃ est', estimate r q = Some est'
  ∧ (est' = est ∨ ¬ Forall (fun m => ¬ is_conn m) (to_worker r effs)).
Proof.
  intros H Hest. apply handOff_spec in H as (t' & logs & Hl & _ & Hres). destruct res as [id|].
  - destruct Hres as (r' & _ & -> & ->). unfold estimate in *. simpl. rewrite lookup_alter.
    destruct (decide (r' = r)) as [->|Hne].
    + destruct (objs p !! r) as [s|]; [|done]. simpl. eexists. split; [done|]. right.
      rewrite to_worker_app, to_worker_logs by done. simpl. rewrite decide_True by done.
      intros Hf%Forall_inv. apply Hf. by destruct h as [[|c h]|].
    + rewrite Hest. eauto.
  - destruct Hres as (-> & _ & _). exists est. split; [|by left].
    rewrite estimate_noteRefusal. exact Hest.
Qed.

Lemma link_step_ok r l l' : link_ok r l → link_step r l l' → link_ok r l'.
Proof.
  intros (Hw & est & Hest & Hset) Hstep. unfold link_ok.
  destruct Hstep as [throws pr so h p q w dn u res effs H|p w dn u|throws p w dn u|r' msg p w dn u Hr
    |msg s p w dn u|ev p w dn u|msg p w dn u]; cbn [l_pool l_worker down up] in *.
  - split; [done|]. destruct (handOff_link r _ _ _ _ _ _ _ _ _ H Hest) as (est' & He' & Hc).
    exists est'. split; [done|]. intros [Hd1 Hd2]%Forall_app. destruct Hc as [->|Hc]; [auto|done].
  - split; [done|]. exists est. by rewrite estimate_noteRefusal.
  - split; [done|]. exists est. split; [unfold drainAll; by rewrite estimate_drain|].
    intros [Hd _]%Forall_app. auto.
  - split; [done|]. exists est. rewrite estimate_onMessage, decide_False by done. auto.
  - split; [by apply onIpc_ok|]. exists est. split; [done|]. intros Hd. rewrite settle_app.
    destruct msg as [hd|].
    + destruct (conn_settles hd s w (settle est u)) as [-> ->]. done.
    + destruct (drain_settles s w (settle est u)) as [-> ->]. apply Hset. constructor; [by intros ?|done].
  - split; [by apply worker_handle_ok|]. exists est. split; [done|]. intros Hd.
    rewrite settle_app. by apply worker_handle_settles, Hset.
  - split; [done|]. exists (settle est [msg]). rewrite estimate_onMessage, decide_True by done.
    rewrite Hest. split; [done|]. intros Hd. rewrite <-settle_app. by apply Hset.
Qed.

(** ** Properties *)

(** No wedge: start a worker and its slot in agreement and let anything happen
    (hand-offs, retries that land elsewhere, refusals, a drain, turns that start
    and end, non-turn requests, sockets that close early or are held open, a [conn]
    without its handle, messages of other workers), with the two IPC queues delivered in
    any interleaving.  Whenever no connection is on its way to the worker and its
    reports have arrived, the supervisor's estimate is exactly the number of turns
    the worker is running. *)
Theorem estimate_converges r l l' :
  link_ok r l → rtc (link_step r) l l' →
  Forall (fun m => ¬ is_conn m) (down l') → up l' = [] →
  estimate r (l_pool l') = Some (Z.of_nat (length (w_open (l_worker l')))).
Proof.
  intros Hok Hsteps. induction Hsteps as [l|l1 l2 l3 Hstep _ IH]; [|by eapply IH, link_step_ok].
  destruct Hok as ((_ & _ & Hn) & est & -> & Hset). intros Hd Hu. rewrite Hu in Hset.
  f_equal. rewrite <-Hn. by apply Hset.
Qed.

(** A worker that was just forked and whose [Ready] has been processed. *)
Definition demo_link : Link := mkLink demo1 (createWorkerRuntime 100).1 [] [].

Lemma demo_link_ok : link_ok 0 demo_link.
Proof.
  split; [|exists 0; split; [by vm_compute|done]].
  split_and!; simpl; [apply NoDup_nil_2|set_solver|done].
Defined.

(** One connection that carries a health probe is handed over, and reported. *)
Lemma estimate_converges_witness :
  ∃ l', rtc (link_step 0) demo_link l' ∧ estimate 0 (l_pool l') = Some 0 ∧ w_sockets (l_worker l') = [7%nat].
Proof.
  eexists. match goal with |- ?A ∧ _ => assert A as H end.
  - eapply rtc_l; [eapply (link_handOff 0 (fun _ => false) 0 7 None); vm_compute; reflexivity|].
    eapply rtc_l; [eapply (link_down 0 (Conn None) (Some 7%nat))|].
    eapply rtc_l; [eapply (link_worker 0 (EvRequest (Some "GET") (Some "/health")))|].
    eapply rtc_l; [eapply (link_up 0)|]. apply rtc_refl.
  - split; [exact H|]. split; [|vm_compute; reflexivity].
    apply (estimate_converges 0 _ _ demo_link_ok H); [apply Forall_nil_2|reflexivity].
Defined.

(** The pre-read head reaches the request unchanged: for any bytes the supervisor
    consumed while routing, the worker that receives the hand-off message puts
    exactly those bytes back on the socket, before the connection is
    served, and nothing when nothing was consumed. *)
Theorem head_handed_over head s w :
  (onIpc (conn_msg head) (Some s) w).2 =
  Send (load (w_n w)) ::
  match head with
  | Some (c :: h) => [Unshift s (c :: h); EmitConnection s]
  | _ => [EmitConnection s]
  end.
Proof.
  destruct head as [[|c h]|]; try done. unfold conn_msg, onIpc.
  pose proof (b64_roundtrip (c :: h)) as H. destruct (b64_encode (c :: h)) as [|c' h'] eqn:E.
  - simpl in H. done.
  - rewrite H. done.
Qed.
