(* ===== verification/Framing.v ===== *)
(** * Sandbox: framing of the persistent bash channel

    Models [packages/k8s-sandbox/src/framing.ts]: [wrapCommand], which brackets one
    command's base64 output with nonce markers, and [FrameParser.push], which
    extracts complete frames from whatever chunks the stream delivers.

    Node's base64 decoder is a parameter of the parser; the theorems assume of it
    only that it decodes what the encoder produces. *)

From S2P Require Import Prelude Base64 JsNumber.

Local Open Scope Z_scope.

Definition SOH : ascii := ascii_of_nat 1.
Definition NL : ascii := ascii_of_nat 10.
Definition CAP_STAGE_FAILED : Z := -2.

Record Frame := mkFrame {
  f_nonce : bytes;
  f_stdout : bytes;
  f_exitCode : Z;
}.

(** ** The command line sent to the shell *)

Definition heredoc_word (nonce : bytes) : bytes := bytes_of "KAGENTI_EOF_" ++ nonce.

(** A double quote. *)
Definition DQ : bytes := [ascii_of_nat 34].

Definition wrap_begin (nonce : bytes) : bytes :=
  bytes_of "printf '" ++ [SOH] ++ bytes_of "B%s\n' " ++ nonce ++ bytes_of "; ".

Definition wrap_end (nonce : bytes) : bytes :=
  bytes_of "st=(" ++ DQ ++ bytes_of "${PIPESTATUS[@]}" ++ DQ ++ bytes_of "); rc="
  ++ DQ ++ bytes_of "${st[0]}" ++ DQ ++ bytes_of "; { [ "
  ++ DQ ++ bytes_of "${st[1]}" ++ DQ ++ bytes_of " = 0 ] && [ "
  ++ DQ ++ bytes_of "${st[2]}" ++ DQ ++ bytes_of " = 0 ]; } || rc="
  ++ dec_signed CAP_STAGE_FAILED ++ bytes_of "; printf '" ++ [SOH] ++ bytes_of "E%s %d\n' " ++ nonce
  ++ bytes_of " " ++ DQ ++ bytes_of "$rc" ++ DQ ++ [NL].

Definition wrap_cap (capBytes : Z) : bytes := bytes_of "head -c " ++ dec_signed (capBytes + 1).

Definition wrapCommand (nonce command : bytes) (stdin : option bytes) (capBytes : Z) : bytes :=
  match stdin with
  | Some body =>
      wrap_begin nonce ++ bytes_of "{ " ++ command ++ bytes_of " <<'" ++ heredoc_word nonce
      ++ bytes_of "'" ++ [NL] ++ body ++ [NL] ++ heredoc_word nonce ++ [NL]
      ++ bytes_of "} | " ++ wrap_cap capBytes ++ bytes_of " | base64; " ++ wrap_end nonce
  | None =>
      wrap_begin nonce ++ bytes_of "{ " ++ command ++ bytes_of "; } | " ++ wrap_cap capBytes
      ++ bytes_of " | base64; " ++ wrap_end nonce
  end.

(** ** The markers *)

(** The text up to the first newline, and what follows it. *)
Fixpoint cut_line (s : bytes) : option (bytes * bytes) :=
  match s with
  | [] => None
  | c :: s' =>
      if decide (c = NL) then Some ([], s')
      else match cut_line s' with Some (l, r) => Some (c :: l, r) | None => None end
  end.

Definition not_ws (c : ascii) : bool := negb (is_ws c).

(** [\x01B(\S+)\n], anchored: no character of the marker is a newline, so it matches
    at a position exactly when the line that starts there has this shape. *)
Definition begin_line (line : bytes) : option bytes :=
  match line with
  | c0 :: c1 :: (n0 :: n) =>
      if bool_decide (c0 = SOH) && bool_decide (c1 = "B"%char) && forallb not_ws (n0 :: n)
      then Some (n0 :: n) else None
  | _ => None
  end.

(** [-?\d+] on a whole string, with its value. *)
Definition int_literal (s : bytes) : option Z :=
  match s with
  | [] => None
  | c :: s' =>
      if decide (c = "-"%char) then
        match s' with [] => None | _ => Z.opp <$> digits_value 10 0 s' end
      else digits_value 10 0 s
  end.

Definition end_prefix (nonce : bytes) : bytes := [SOH; "E"%char] ++ nonce ++ [" "%char].

(** [\x01E<nonce> (-?\d+)\n], anchored; [escapeRe] makes the nonce match itself. *)
Definition end_line (nonce line : bytes) : option Z :=
  if starts_with (end_prefix nonce) line then int_literal (drop (length (end_prefix nonce)) line)
  else None.

(** The leftmost match of a line pattern: what precedes it, its value and the rest. *)
Fixpoint find_line {A} (m : bytes → option A) (s : bytes) : option (bytes * A * bytes) :=
  match s with
  | [] => None
  | c :: s' =>
      let here := match cut_line s with
                  | Some (l, r) => match m l with Some a => Some (a, r) | None => None end
                  | None => None
                  end in
      match here with
      | Some (a, r) => Some ([], a, r)
      | None => match find_line m s' with
                | Some (pre, a, r) => Some (c :: pre, a, r)
                | None => None
                end
      end
  end.

Section Parser.
  (** [Buffer.from(text, 'base64')]. *)
  Variable fromBase64 : bytes → bytes.

(** One turn of the parser's loop: the next frame and the buffer after it. *)
Definition next_frame (buf : bytes) : option (Frame * bytes) :=
  match find_line begin_line buf with
  | None => None
  | Some (_, nonce, after) =>
      match find_line (end_line nonce) after with
      | None => None
      | Some (b64, code, rest) => Some (mkFrame nonce (fromBase64 (filter not_ws b64)) code, rest)
      end
  end.

Fixpoint frames_fuel (fuel : nat) (buf : bytes) : list Frame * bytes :=
  match fuel with
  | O => ([], buf)
  | S f =>
      match next_frame buf with
      | None => ([], buf)
      | Some (fr, rest) => let '(fs, b) := frames_fuel f rest in (fr :: fs, b)
      end
  end.

(** The loop; every frame takes at least one byte off the buffer. *)
Definition frames (buf : bytes) : list Frame * bytes := frames_fuel (S (length buf)) buf.

(** [push]: the parser's state is its buffer. *)
Definition push (buf chunk : bytes) : list Frame * bytes := frames (buf ++ chunk).

Fixpoint push_all (buf : bytes) (chunks : list bytes) : list Frame * bytes :=
  match chunks with
  | [] => ([], buf)
  | c :: cs =>
      let '(fs, b) := push buf c in
      let '(fs', b') := push_all b cs in
      (fs ++ fs', b')
  end.

(** ** Lemmas *)

Lemma cut_line_app s l r x : cut_line s = Some (l, r) → cut_line (s ++ x) = Some (l, r ++ x).
Proof.
  revert l r. induction s as [|c s IH]; intros l r H; [done|]. simpl in *.
  destruct (decide (c = NL)); [by simplify_eq|].
  destruct (cut_line s) as [[l' r']|]; [|done]. simplify_eq. by rewrite (IH _ _ eq_refl).
Qed.

Lemma cut_line_length s l r : cut_line s = Some (l, r) → (length r < length s)%nat.
Proof.
  revert l r. induction s as [|c s IH]; intros l r H; [done|]. simpl in *.
  destruct (decide (c = NL)); [simplify_eq; lia|].
  destruct (cut_line s) as [[l' r']|]; [|done]. simplify_eq. specialize (IH _ _ eq_refl). lia.
Qed.

Lemma cut_line_Some s : is_Some (cut_line s) ↔ NL ∈ s.
Proof.
  induction s as [|c s IH]; simpl; [split; [by intros [? ?]|by intros ?%elem_of_nil]|].
  rewrite elem_of_cons. destruct (decide (c = NL)) as [->|Hc].
  - split; [by left|eauto].
  - destruct (cut_line s) as [[l r]|].
    + split; [intros _; right; by apply IH|eauto].
    + split; [by intros [? ?]|]. intros [Heq|H]; [by destruct Hc|]. apply IH in H. by destruct H.
Qed.

Lemma find_line_NL {A} (m : bytes → option A) s x : find_line m s = Some x → NL ∈ s.
Proof.
  revert x. induction s as [|c s IH]; intros x; [done|]. cbn [find_line].
  destruct (cut_line (c :: s)) as [[l r]|] eqn:E; [intros _; apply cut_line_Some; eauto|].
  destruct (find_line m s) as [[[pre a] r]|]; [|done]. intros _. apply elem_of_cons. right. by eapply IH.
Qed.

(** A match that was found is found again, unchanged, when more bytes arrive. *)
Lemma find_line_app {A} (m : bytes → option A) s pre a r x :
  find_line m s = Some (pre, a, r) → find_line m (s ++ x) = Some (pre, a, r ++ x).
Proof.
  revert pre a r. induction s as [|c s IH]; intros pre a r H; [done|].
  pose proof (find_line_NL m _ _ H) as HNL. apply cut_line_Some in HNL as [[l0 r0] Hc].
  cbn [find_line app] in *. rewrite Hc in H.
  change (c :: s ++ x) with ((c :: s) ++ x). rewrite (cut_line_app _ _ _ x Hc).
  destruct (m l0) as [a0|]; [by simplify_eq|].
  destruct (find_line m s) as [[[pre' a'] r']|]; [|done]. simplify_eq. by rewrite (IH _ _ _ eq_refl).
Qed.

Lemma find_line_length {A} (m : bytes → option A) s pre a r :
  find_line m s = Some (pre, a, r) → (length r < length s)%nat.
Proof.
  revert pre a r. induction s as [|c s IH]; intros pre a r H; [done|]. cbn [find_line] in H.
  destruct (match cut_line (c :: s) with Some _ => _ | None => _ end) as [[a0 r0]|] eqn:E.
  - simplify_eq. destruct (cut_line (c :: s)) as [[l1 r1]|] eqn:Hc; [|done].
    apply cut_line_length in Hc. destruct (m l1); by simplify_eq.
  - destruct (find_line m s) as [[[pre' a'] r']|]; [|done]. simplify_eq.
    specialize (IH _ _ _ eq_refl). simpl. lia.
Qed.

Lemma next_frame_app buf fr rest x :
  next_frame buf = Some (fr, rest) → next_frame (buf ++ x) = Some (fr, rest ++ x).
Proof.
  unfold next_frame. destruct (find_line begin_line buf) as [[[pre n] after]|] eqn:E1; [|done].
  rewrite (find_line_app _ _ _ _ _ x E1).
  destruct (find_line (end_line n) after) as [[[b c] r]|] eqn:E2; [|done].
  rewrite (find_line_app _ _ _ _ _ x E2). intros H. by simplify_eq.
Qed.

Lemma next_frame_length buf fr rest : next_frame buf = Some (fr, rest) → (length rest < length buf)%nat.
Proof.
  unfold next_frame. destruct (find_line begin_line buf) as [[[pre n] after]|] eqn:E1; [|done].
  destruct (find_line (end_line n) after) as [[[b c] r]|] eqn:E2; [|done]. intros H. simplify_eq.
  apply find_line_length in E1, E2. lia.
Qed.

Lemma frames_fuel_enough f buf : (length buf < f)%nat → frames_fuel f buf = frames buf.
Proof.
  unfold frames. revert buf. induction f as [f IH] using lt_wf_ind. intros buf Hf.
  destruct f as [|f]; [lia|]. cbn [frames_fuel]. destruct (next_frame buf) as [[fr rest]|] eqn:E; [|done].
  apply next_frame_length in E. rewrite (IH f) by lia.
  destruct (decide (length buf = f)) as [->|]; [by rewrite (IH f) by lia|].
  by rewrite (IH (length buf)) by lia.
Qed.

Lemma frames_eq buf :
  frames buf = match next_frame buf with
               | None => ([], buf)
               | Some (fr, rest) => let '(fs, b) := frames rest in (fr :: fs, b)
               end.
Proof.
  unfold frames at 1. cbn [frames_fuel]. destruct (next_frame buf) as [[fr rest]|] eqn:E; [|done].
  apply next_frame_length in E. by rewrite frames_fuel_enough.
Qed.

(** The parser's output does not depend on where the stream was cut. *)
Lemma frames_app a b :
  frames (a ++ b) =
  let '(fs, rest) := frames a in let '(fs', rest') := frames (rest ++ b) in (fs ++ fs', rest').
Proof.
  remember (length a) as n eqn:Hn. revert a Hn. induction n as [n IH] using lt_wf_ind. intros a ->.
  rewrite (frames_eq a). destruct (next_frame a) as [[fr rest]|] eqn:E.
  - rewrite (frames_eq (a ++ b)), (next_frame_app _ _ _ b E).
    apply next_frame_length in E. rewrite (IH (length rest)) by done.
    destruct (frames rest) as [fs r]. by destruct (frames (r ++ b)).
  - by destruct (frames (a ++ b)).
Qed.

Lemma push_all_concat buf chunks :
  frames buf = ([], buf) → push_all buf chunks = frames (buf ++ concat chunks).
Proof.
  revert buf. induction chunks as [|c cs IH]; intros buf Hb; simpl; [by rewrite app_nil_r|].
  unfold push. rewrite app_assoc, (frames_app (buf ++ c)).
  destruct (frames (buf ++ c)) as [fs b] eqn:E. rewrite IH; [done|].
  assert (H : frames (b ++ []) = ([], b)); [|by rewrite app_nil_r in H].
  pose proof (frames_app (buf ++ c) []) as H. rewrite app_nil_r, E in H.
  destruct (frames (b ++ [])) as [fs' b']. injection H as Hfs <-.
  apply (f_equal length) in Hfs. rewrite length_app in Hfs.
  by destruct fs' as [|f l]; [|simpl in Hfs; lia].
Qed.
End Parser.

(** A character of a piece of a split string is a character of the string. *)
Lemma split_elem sep s piece c : piece ∈ split_on sep s → c ∈ piece → c ∈ s.
Proof.
  unfold split_on. generalize (length s) as f. intros f. revert s.
  induction f as [|f IH]; intros s Hp Hc; cbn [split_fuel] in Hp.
  - by apply list_elem_of_singleton in Hp as ->.
  - destruct (index_of sep s) as [i|]; [|by apply list_elem_of_singleton in Hp as ->].
    apply elem_of_cons in Hp as [->|Hp].
    + rewrite <-(take_drop i s). apply elem_of_app. by left.
    + rewrite <-(take_drop (i + length sep) s). apply elem_of_app. right. by eapply IH.
Qed.

(** *** What the shell writes back *)

(** One command's output on the stream: anything the shell printed before it, the
    markers, and the base64 text with whatever line breaks [base64] inserts. *)
Record Emitted := mkEmitted {
  e_noise : bytes;
  e_nonce : bytes;
  e_stdout : bytes;
  e_text : bytes;
  e_code : Z;
}.

Definition render (e : Emitted) : bytes :=
  e_noise e ++ ([SOH; "B"%char] ++ e_nonce e ++ [NL]) ++ e_text e
  ++ (end_prefix (e_nonce e) ++ dec_signed (e_code e) ++ [NL]).

Definition emitted_ok (e : Emitted) : Prop :=
  (SOH ∉ e_noise e) ∧ e_nonce e ≠ [] ∧ forallb not_ws (e_nonce e) = true
  ∧ filter not_ws (e_text e) = b64_encode (e_stdout e).

Definition frame_of (e : Emitted) : Frame := mkFrame (e_nonce e) (e_stdout e) (e_code e).

Lemma cut_line_at l r : NL ∉ l → cut_line (l ++ NL :: r) = Some (l, r).
Proof.
  induction l as [|c l IH]; intros H; cbn [cut_line app]; [by rewrite decide_True|].
  apply not_elem_of_cons in H as [Hc Hl]. rewrite decide_False by done. by rewrite IH.
Qed.

Definition soh_led {A} (m : bytes → option A) : Prop := ∀ l a, m l = Some a → head l = Some SOH.

Lemma find_line_skip {A} (m : bytes → option A) pre s :
  soh_led m → SOH ∉ pre →
  find_line m (pre ++ s) =
  match find_line m s with Some (p, a, r) => Some (pre ++ p, a, r) | None => None end.
Proof.
  intros Hm. induction pre as [|c pre IH]; intros Hp; [cbn [app]; by destruct (find_line m s) as [[[??]?]|]|].
  apply not_elem_of_cons in Hp as [Hc Hp]. cbn [app find_line].
  assert (Hhere : match cut_line (c :: pre ++ s) with
                  | Some (l, r) => match m l with Some a => Some (a, r) | None => None end
                  | None => None end = None).
  { cbn [cut_line]. destruct (decide (c = NL)).
    - destruct (m []) eqn:E; [by apply Hm in E|done].
    - destruct (cut_line (pre ++ s)) as [[l r]|]; [|done].
      destruct (m (c :: l)) eqn:E; [apply Hm in E; simpl in E; congruence|done]. }
  rewrite Hhere, IH by done. by destruct (find_line m s) as [[[??]?]|].
Qed.

Lemma find_line_here {A} (m : bytes → option A) l r a :
  l ≠ [] → NL ∉ l → m l = Some a → find_line m (l ++ NL :: r) = Some ([], a, r).
Proof.
  intros Hne Hnl Hm. destruct l as [|c l]; [done|]. cbn [find_line app].
  change (c :: l ++ NL :: r) with ((c :: l) ++ NL :: r). rewrite cut_line_at by done. by rewrite Hm.
Qed.

Lemma begin_soh : soh_led begin_line.
Proof.
  intros l a. destruct l as [|c0 [|c1 [|n0 n]]]; try done. cbn [begin_line].
  destruct (bool_decide_reflect (c0 = SOH)) as [->|]; [done|done].
Qed.

Lemma end_soh n : soh_led (end_line n).
Proof. intros l a. unfold end_line. destruct l as [|c l]; [done|]. simpl. by case_decide; subst. Qed.

Lemma int_literal_dec n : int_literal (dec_signed n) = Some n.
Proof.
  unfold dec_signed. destruct (Z.ltb_spec n 0).
  - cbn [int_literal]. rewrite decide_True by done. pose proof (dec_nonempty (- n)).
    pose proof (dec_value (- n) ltac:(lia)) as Hv. destruct (dec (- n)); [done|].
    rewrite Hv. simpl. f_equal. lia.
  - pose proof (dec_plain n ltac:(lia)) as Hp. pose proof (dec_value n ltac:(lia)) as Hv.
    pose proof (dec_nonempty n). destruct (dec n) as [|c l]; [done|].
    apply Forall_inv in Hp as (_ & _ & _ & _ & Hm & _). cbn [int_literal].
    by rewrite decide_False.
Qed.

Lemma not_ws_NL (l : bytes) : Forall (fun c => is_ws c = false) l → NL ∉ l.
Proof. intros H Hin. eapply Forall_forall in Hin; [|exact H]. done. Qed.

Lemma dec_signed_no_ws n : Forall (fun c => is_ws c = false) (dec_signed n).
Proof.
  unfold dec_signed. destruct (Z.ltb_spec n 0); [constructor; [done|]|]; apply plain_no_ws, dec_plain; lia.
Qed.

Lemma forallb_not_ws l : forallb not_ws l = true → Forall (fun c => is_ws c = false) l.
Proof.
  intros H. apply Forall_forall. intros c Hc. apply list_elem_of_In in Hc.
  eapply forallb_forall in H; [|exact Hc]. unfold not_ws in H. by destruct (is_ws c).
Qed.

Lemma text_no_soh e : emitted_ok e → SOH ∉ e_text e.
Proof.
  intros (_ & _ & _ & Ht) Hin.
  assert (H : SOH ∈ filter not_ws (e_text e)) by (apply list_elem_of_filter; done).
  rewrite Ht in H. pose proof (b64_encode_chars (e_stdout e)) as Hc.
  eapply Forall_forall in H; [|exact Hc]. unfold b64_char in H.
  revert H. change (SOH ∉ PAD :: alphabet). apply (bool_decide_unpack _). by vm_compute.
Qed.

(** The parser finds one emitted command at the head of the buffer, whatever follows. *)
Lemma next_frame_render (fromBase64 : bytes → bytes) e x :
  (∀ l, fromBase64 (b64_encode l) = l) → emitted_ok e →
  next_frame fromBase64 (render e ++ x) = Some (frame_of e, x).
Proof.
  intros Hdec Hok. pose proof (text_no_soh e Hok) as Hsoh. destruct Hok as (Hno & Hne & Hws & Ht).
  pose proof (forallb_not_ws _ Hws) as Hws'. unfold next_frame, render.
  rewrite <-!app_assoc. rewrite find_line_skip by (done || apply begin_soh).
  set (tl_ := e_text e ++ end_prefix (e_nonce e) ++ dec_signed (e_code e) ++ [NL] ++ x).
  change ([SOH; "B"%char] ++ e_nonce e ++ [NL] ++ tl_) with (([SOH; "B"%char] ++ e_nonce e) ++ NL :: tl_).
  rewrite (find_line_here _ _ tl_ (e_nonce e)).
  2: done.
  2:{ rewrite elem_of_app, !elem_of_cons, elem_of_nil. apply not_ws_NL in Hws'. naive_solver. }
  2:{ destruct (e_nonce e) as [|n0 n]; [done|]. cbn [begin_line app]. by rewrite Hws. }
  unfold tl_. rewrite find_line_skip by (done || apply end_soh).
  rewrite app_assoc. change ([NL] ++ x) with (NL :: x).
  rewrite (find_line_here _ _ x (e_code e)).
  - by rewrite app_nil_r, Ht, Hdec.
  - done.
  - unfold end_prefix. rewrite !elem_of_app, !elem_of_cons, !elem_of_nil.
    apply not_ws_NL in Hws'. pose proof (not_ws_NL _ (dec_signed_no_ws (e_code e))). naive_solver.
  - unfold end_line. rewrite starts_with_app by (by apply starts_with_spec).
    by rewrite drop_app_length, int_literal_dec.
Qed.

Lemma frames_render (fromBase64 : bytes → bytes) es tl_ :
  (∀ l, fromBase64 (b64_encode l) = l) → Forall emitted_ok es → SOH ∉ tl_ →
  frames fromBase64 (concat (render <$> es) ++ tl_) = (frame_of <$> es, tl_).
Proof.
  intros Hdec Hes Ht. induction Hes as [|e es He _ IH].
  - rewrite frames_eq. unfold next_frame. simpl.
    pose proof (find_line_skip begin_line tl_ [] begin_soh Ht) as H. rewrite app_nil_r in H.
    by rewrite H.
  - cbn [fmap list_fmap concat]. rewrite <-app_assoc, frames_eq.
    rewrite next_frame_render by done. by rewrite IH.
Qed.

(** ** Properties *)

(** Framing is chunking-invariant: however the byte stream is cut into [data]
    events, the frames the parser emits are, together, those of the whole stream, and it
    ends with the same buffer. *)
Theorem push_chunking_invariant (fromBase64 : bytes → bytes) chunks :
  push_all fromBase64 [] chunks = frames fromBase64 (concat chunks).
Proof. rewrite push_all_concat; [done|]. by rewrite frames_eq. Qed.

(** C35. Framing round trip: for any sequence of commands, any stdout bytes (binary
    included), any exit codes, any line wrapping of the base64 text, any
    marker-free noise around them, and any cutting of the stream into chunks, the
    parser returns exactly one frame per command, in order, with its
    nonce, its stdout and its exit code. *)
Theorem framing_roundtrip (fromBase64 : bytes → bytes) es trailing chunks :
  (∀ l, fromBase64 (b64_encode l) = l) →
  Forall emitted_ok es → SOH ∉ trailing → concat chunks = concat (render <$> es) ++ trailing →
  push_all fromBase64 [] chunks = (frame_of <$> es, trailing).
Proof.
  intros Hdec Hes Ht Hc. rewrite push_all_concat; [|by rewrite frames_eq].
  cbn [app]. rewrite Hc. by apply frames_render.
Qed.

Definition demo_emitted : Emitted :=
  mkEmitted (bytes_of "motd ") (bytes_of "n1") (bytes_of "hi") (bytes_of "aGk=" ++ [NL]) (-2).

Lemma framing_roundtrip_witness :
  push_all b64_decode [] [take 9 (render demo_emitted); drop 9 (render demo_emitted)]
  = ([mkFrame (bytes_of "n1") (bytes_of "hi") (-2)], []).
Proof.
  apply (framing_roundtrip b64_decode [demo_emitted] []).
  - apply b64_roundtrip.
  - apply Forall_singleton. split_and!; try done. apply (bool_decide_unpack _). by vm_compute.
  - by intros ?%elem_of_nil.
  - vm_compute. reflexivity.
Defined.

(** The heredoc that carries a command's stdin cannot be closed early: when the
    payload is base64 text, with any line breaks, no line of it is the delimiter
    word, whatever the nonce. *)
Theorem heredoc_not_closed_early nonce command body capBytes line :
  Forall (fun c => b64_char c ∨ c = NL) body →
  line ∈ split_on [NL] body →
  line ≠ heredoc_word nonce
  ∧ ∃ pre post, wrapCommand nonce command (Some body) capBytes =
      pre ++ [NL] ++ body ++ [NL] ++ heredoc_word nonce ++ [NL] ++ post.
Proof.
  intros Hb Hl. split.
  - intros ->. assert (Hin : "_"%char ∈ body).
    { eapply split_elem; [exact Hl|]. apply elem_of_app. left. apply (bool_decide_unpack _). by vm_compute. }
    eapply Forall_forall in Hin; [|exact Hb]. revert Hin. unfold b64_char.
    apply (bool_decide_unpack (¬ _)). by vm_compute.
  - unfold wrapCommand.
    exists (wrap_begin nonce ++ bytes_of "{ " ++ command ++ bytes_of " <<'" ++ heredoc_word nonce
            ++ bytes_of "'"), (bytes_of "} | " ++ wrap_cap capBytes ++ bytes_of " | base64; " ++ wrap_end nonce).
    by rewrite <-!app_assoc.
Qed.

Lemma heredoc_not_closed_early_witness :
  ["Q"%char] ≠ heredoc_word (bytes_of "n1")
  ∧ ∃ pre post, wrapCommand (bytes_of "n1") (bytes_of "base64 -d > f") (Some (bytes_of "Q")) 10 =
      pre ++ [NL] ++ bytes_of "Q" ++ [NL] ++ heredoc_word (bytes_of "n1") ++ [NL] ++ post.
Proof.
  apply (heredoc_not_closed_early (bytes_of "n1") (bytes_of "base64 -d > f") (bytes_of "Q") 10 ["Q"%char]).
  - apply Forall_singleton. left. apply (bool_decide_unpack _). by vm_compute.
  - vm_compute. constructor.
Defined.
