(* ===== verification/Transport.v ===== *)
(** * Sandbox: the exec seam and the per-call transports

    Models [packages/k8s-sandbox/src/transport.ts] (the result type, the shared
    limits), [packages/k8s-sandbox/src/exec.ts] ([KubectlTransport], one
    [kubectl exec] per command), [packages/k8s-sandbox/src/grpc-relay-transport.ts]
    ([GrpcRelayTransport], one relayed call per command) and
    [packages/k8s-sandbox/src/req-id.ts].  [result_conforms] is the contract every
    transport promises its callers; the class [SandboxTransport] packages it, each
    implementation has an instance, and the callers are verified against the class. *)

From S2P Require Import Prelude Base64.

Local Open Scope Z_scope.

Record ExecResult := mkResult {
  r_stdout : bytes;
  r_exitCode : option Z;
  r_truncated : bool;
}.

Definition DEFAULT_OUTPUT_CAP : Z := 8 * 1024 * 1024.
Definition OUTPUT_TRUNCATED_MARKER : bytes := ascii_of_nat 10 :: bytes_of "[output truncated]".
Definition base64EncodedLength (n : Z) : Z := 4 * ((n + 2) / 3).
Definition EXEC_FRAMING_HEADROOM : Z := 64 * 1024.
Definition MAX_EXEC_MESSAGE_BYTES : Z := 16 * 1024 * 1024.
Definition DEFAULT_EXEC_TIMEOUT_S : Z := 30 * 60.

(** [opts.timeout ?? DEFAULT_EXEC_TIMEOUT_S], and whether a timer is armed. *)
Definition exec_timeout (timeout : option Z) : Z := default DEFAULT_EXEC_TIMEOUT_S timeout.
Definition timer_armed (timeout : option Z) : bool := 0 <? exec_timeout timeout.

(** The contract: a truncated result has no exit code and ends with the marker; any
    other result fits the cap. *)
Definition result_conforms (cap : Z) (r : ExecResult) : Prop :=
  if r_truncated r
  then r_exitCode r = None ∧ OUTPUT_TRUNCATED_MARKER `suffix_of` r_stdout r
  else Z.of_nat (length (r_stdout r)) ≤ cap.

(** The interface the callers of a transport rely on: which results it can resolve an
    exec with, and that all of them keep the contract. *)
Class SandboxTransport (T : Type) := {
  tp_cap : T → Z;
  tp_resolves : T → ExecResult → Prop;
  tp_conforms : ∀ t r, tp_resolves t r → result_conforms (tp_cap t) r;
}.

(** ** [KubectlTransport] *)

Record KubectlConfig := mkKubectlConfig {
  k_namespace : string;
  k_context : option string;
  k_pod : string;
}.

Definition context_args (config : KubectlConfig) : list string :=
  match k_context config with
  | Some "" | None => []
  | Some c => ["--context"; c]
  end.

Definition buildKubectlArgs (config : KubectlConfig) (command : string) : list string :=
  ["exec"; "-i"; "-n"; k_namespace config] ++ context_args config
  ++ [k_pod config; "--"; "bash"; "-c"; command].

Inductive exec_error :=
| Aborted
| TimedOut (seconds : Z)
| SpawnError (msg : string).

(** The closure of one call. *)
Record KCall := mkKCall {
  k_out : list bytes;
  k_bytes : Z;
  k_truncated : bool;
  k_timedOut : bool;
  k_aborted : bool;                 (* [opts.signal?.aborted] *)
  k_timer : bool;                   (* the timeout is armed *)
  k_listening : bool;               (* the ['abort'] listener is registered *)
  k_settled : option (result exec_error ExecResult);
}.

Inductive k_event :=
| KStdout (d : bytes)
| KStderr (d : bytes)
| KTimeout
| KAbort
| KError (msg : string)
| KClose (code : option Z).

Inductive k_effect :=
| KOnData (d : bytes)
| KKill.

Definition k_start (timeout : option Z) (aborted : bool) : KCall :=
  mkKCall [] 0 false false aborted (timer_armed timeout) true None.

(** [listening]: whether the ['abort'] listener survives, which only ['error'] lets it. *)
Definition k_settle (r : result exec_error ExecResult) (listening : bool) (s : KCall) : KCall :=
  match k_settled s with
  | Some _ => s
  | None => mkKCall (k_out s) (k_bytes s) (k_truncated s) (k_timedOut s) (k_aborted s) false listening
              (Some r)
  end.

(** What ['close'] settles the promise with. *)
Definition k_verdict (timeout : option Z) (code : option Z) (s : KCall) : result exec_error ExecResult :=
  if k_aborted s then Throw Aborted
  else if k_truncated s then Ok (mkResult (concat (k_out s)) None true)
  else if k_timedOut s then Throw (TimedOut (exec_timeout timeout))
  else Ok (mkResult (concat (k_out s)) code false).

Definition k_onData (outputCap : Z) (d : bytes) (s : KCall) : KCall * list k_effect :=
  if k_truncated s then (s, [KOnData d])
  else
    let bytes' := k_bytes s + Z.of_nat (length d) in
    if outputCap <? bytes' then
      (mkKCall (k_out s ++ [d; OUTPUT_TRUNCATED_MARKER]) bytes' true (k_timedOut s) (k_aborted s)
         (k_timer s) (k_listening s) (k_settled s), [KOnData d; KKill])
    else
      (mkKCall (k_out s ++ [d]) bytes' false (k_timedOut s) (k_aborted s) (k_timer s) (k_listening s)
         (k_settled s),
       [KOnData d]).

Definition k_step (outputCap : Z) (timeout : option Z) (s : KCall) (ev : k_event) :
    KCall * list k_effect :=
  match ev with
  | KStdout d => k_onData outputCap d s
  | KStderr d => (s, [KOnData d])
  | KTimeout =>
      if k_timer s then
        (mkKCall (k_out s) (k_bytes s) (k_truncated s) true (k_aborted s) false (k_listening s)
           (k_settled s), [KKill])
      else (s, [])
  | KAbort =>
      (mkKCall (k_out s) (k_bytes s) (k_truncated s) (k_timedOut s) true (k_timer s) false (k_settled s),
       if k_listening s then [KKill] else [])
  | KError msg => (k_settle (Throw (SpawnError msg)) (k_listening s) s, [])
  | KClose code => (k_settle (k_verdict timeout code s) false s, [])
  end.

Definition k_run (outputCap : Z) (timeout : option Z) (aborted : bool) (evs : list k_event) : KCall :=
  foldl (fun s ev => (k_step outputCap timeout s ev).1) (k_start timeout aborted) evs.

(** ** Lemmas *)

Definition k_inv (outputCap : Z) (s : KCall) : Prop :=
  (if k_truncated s
   then OUTPUT_TRUNCATED_MARKER `suffix_of` concat (k_out s)
   else k_bytes s = Z.of_nat (length (concat (k_out s))) ∧ k_bytes s ≤ outputCap)
  ∧ ∀ r, k_settled s = Some (Ok r) → result_conforms outputCap r.

Lemma k_onData_inv cap d s : k_inv cap s → k_inv cap (k_onData cap d s).1.
Proof.
  intros [Hs Hr]. unfold k_onData. destruct (k_truncated s) eqn:Et; [split; cbn [fst]; [by rewrite Et|done]|].
  destruct Hs as [Hb Hc]. destruct (Z.ltb_spec cap (k_bytes s + Z.of_nat (length d)));
    (split; [cbn [fst k_truncated k_out k_bytes]|done]).
  - exists (concat (k_out s) ++ d). rewrite concat_app. simpl.
    by rewrite <-app_assoc.
  - rewrite concat_app, length_app. simpl. rewrite app_nil_r. lia.
Qed.

Lemma k_settle_inv cap r b s :
  k_inv cap s → (∀ x, r = Ok x → result_conforms cap x) → k_inv cap (k_settle r b s).
Proof.
  intros [Hs Hr] Hx. unfold k_settle. destruct (k_settled s) eqn:E; [split; [done|by rewrite E]|].
  split; [exact Hs|]. simpl. intros x [= ->]. by apply Hx.
Qed.

Lemma k_step_inv cap timeout s ev : k_inv cap s → k_inv cap (k_step cap timeout s ev).1.
Proof.
  intros Hi. destruct ev; cbn [k_step fst]; try done.
  - by apply k_onData_inv.
  - destruct (k_timer s); [|done]. exact Hi.
  - by apply k_settle_inv.
  - apply k_settle_inv; [done|]. intros x. unfold k_verdict. destruct Hi as [Hs _].
    destruct (k_aborted s); [done|]. destruct (k_truncated s).
    + intros [= <-]. by split.
    + destruct (k_timedOut s); [done|]. intros [= <-]. unfold result_conforms. simpl. lia.
Qed.

Lemma k_run_inv cap timeout aborted evs : 0 ≤ cap → k_inv cap (k_run cap timeout aborted evs).
Proof.
  intros Hc. unfold k_run.
  assert (H0 : k_inv cap (k_start timeout aborted)) by (split; simpl; [lia|done]).
  revert H0. generalize (k_start timeout aborted) as s.
  induction evs as [|ev evs IH]; intros s Hs; [done|]. simpl. by apply IH, k_step_inv.
Qed.

(** ** [GrpcRelayTransport] *)

Record GCall := mkGCall {
  g_stdout : list bytes;
  g_bytes : Z;
  g_truncated : bool;
  g_settled : option (result exec_error ExecResult);
  g_timer : bool;
  g_listening : bool;
}.

Inductive g_event :=
| GChunk (stderr : bool) (data : bytes)
| GEnd (exitCode : Z) (truncated : bool)
| GErrorFrame (msg : string)
| GStreamError (msg : string)
| GStreamEnd
| GTimeout
| GAbort.

Inductive g_effect :=
| GOnData (d : bytes)
| GCancel
| GAbortRpc.

(** The label of a timeout error, in whole seconds, and the armed time in ms. *)
Definition g_timeoutMs (timeout : option Z) (deadlineMs : Z) : Z :=
  match timeout with Some t => t * 1000 | None => deadlineMs end.
Definition g_timeoutLabelS (timeout : option Z) (deadlineMs : Z) : Z :=
  match timeout with Some t => t | None => (deadlineMs + 500) / 1000 end.

Definition g_finish (r : result exec_error ExecResult) (s : GCall) : GCall :=
  match g_settled s with
  | Some _ => s
  | None => mkGCall (g_stdout s) (g_bytes s) (g_truncated s) (Some r) false false
  end.

Definition g_kill (r : result exec_error ExecResult) (s : GCall) : GCall * list g_effect :=
  (g_finish r s, [GCancel; GAbortRpc]).

Definition g_start (timeout : option Z) (deadlineMs : Z) (aborted : bool) : GCall * list g_effect :=
  let s := mkGCall [] 0 false None (0 <? g_timeoutMs timeout deadlineMs) false in
  if aborted then g_kill (Throw Aborted) s
  else (mkGCall [] 0 false None (0 <? g_timeoutMs timeout deadlineMs) true, []).

Definition g_onData (outputCap : Z) (ev : g_event) (s : GCall) : GCall * list g_effect :=
  match g_settled s with
  | Some _ => (s, [])
  | None =>
      match ev with
      | GChunk true d => (s, [GOnData d])
      | GChunk false d =>
          if g_truncated s then (s, [GOnData d])
          else
            let bytes' := g_bytes s + Z.of_nat (length d) in
            if outputCap <? bytes' then
              let out := g_stdout s ++ [d; OUTPUT_TRUNCATED_MARKER] in
              let s' := mkGCall out bytes' true None (g_timer s) (g_listening s) in
              let '(s'', e) := g_kill (Ok (mkResult (concat out) None true)) s' in
              (s'', GOnData d :: e)
            else (mkGCall (g_stdout s ++ [d]) bytes' false None (g_timer s) (g_listening s), [GOnData d])
      | GEnd code truncated =>
          if truncated then
            let out := g_stdout s ++ [OUTPUT_TRUNCATED_MARKER] in
            (g_finish (Ok (mkResult (concat out) None true))
               (mkGCall out (g_bytes s) (g_truncated s) None (g_timer s) (g_listening s)), [])
          else
            (g_finish (Ok (mkResult (concat (g_stdout s)) (if code <? 0 then None else Some code) false)) s,
             [])
      | GErrorFrame msg => (g_finish (Throw (SpawnError msg)) s, [])
      | _ => (s, [])
      end
  end.

Definition g_step (outputCap : Z) (timeout : option Z) (deadlineMs : Z) (s : GCall) (ev : g_event) :
    GCall * list g_effect :=
  match ev with
  | GStreamError msg => (g_finish (Throw (SpawnError msg)) s, [])
  | GStreamEnd => (g_finish (Ok (mkResult (concat (g_stdout s)) None false)) s, [])
  | GTimeout =>
      if g_timer s then g_kill (Throw (TimedOut (g_timeoutLabelS timeout deadlineMs))) s else (s, [])
  | GAbort => if g_listening s then g_kill (Throw Aborted) s else (s, [])
  | _ => g_onData outputCap ev s
  end.

Definition g_run (outputCap : Z) (timeout : option Z) (deadlineMs : Z) (aborted : bool)
    (evs : list g_event) : GCall :=
  foldl (fun s ev => (g_step outputCap timeout deadlineMs s ev).1)
    (g_start timeout deadlineMs aborted).1 evs.

Definition g_inv (outputCap : Z) (s : GCall) : Prop :=
  match g_settled s with
  | Some (Ok r) => result_conforms outputCap r
  | Some (Throw _) => True
  | None => g_truncated s = false ∧ g_bytes s = Z.of_nat (length (concat (g_stdout s)))
            ∧ g_bytes s ≤ outputCap
  end.

Lemma g_finish_inv cap r s :
  (g_settled s ≠ None → g_inv cap s) → (∀ x, r = Ok x → result_conforms cap x) → g_inv cap (g_finish r s).
Proof.
  intros Hs Hr. unfold g_finish. destruct (g_settled s) eqn:E; [apply Hs; congruence|].
  unfold g_inv. simpl. destruct r; [by apply Hr|done].
Qed.

Lemma g_step_inv cap timeout dl s ev : g_inv cap s → g_inv cap (g_step cap timeout dl s ev).1.
Proof.
  intros Hi.
  assert (Hfit : g_settled s = None → ∀ c, result_conforms cap (mkResult (concat (g_stdout s)) c false)).
  { intros E c. unfold g_inv in Hi. rewrite E in Hi. unfold result_conforms. simpl. lia. }
  assert (Hdata : g_inv cap (g_onData cap ev s).1).
  { unfold g_onData. destruct (g_settled s) as [r|] eqn:E; [done|].
    destruct ev as [[] d|code []|msg|msg| | |]; cbn [fst]; try done.
    - pose proof Hi as Hi'. unfold g_inv in Hi'. rewrite E in Hi'. destruct Hi' as (Ht & Hb & Hc).
      rewrite Ht. destruct (Z.ltb_spec cap (g_bytes s + Z.of_nat (length d))).
      + cbn. rewrite concat_app. split; [done|]. exists (concat (g_stdout s) ++ d). by rewrite <-app_assoc.
      + cbn [fst]. unfold g_inv. cbn [g_settled g_truncated g_bytes g_stdout].
        rewrite concat_app, length_app. simpl. rewrite app_nil_r. lia.
    - apply g_finish_inv; [done|]. intros x [= <-]. cbn. rewrite concat_app. split; [done|]. by eexists.
    - apply g_finish_inv; [done|]. intros x [= <-]. by apply Hfit.
    - by apply g_finish_inv. }
  destruct ev; try exact Hdata; cbn [g_step fst].
  - by apply g_finish_inv.
  - unfold g_finish. destruct (g_settled s) eqn:E; [done|]. unfold g_inv. simpl. by apply Hfit.
  - destruct (g_timer s); [|done]. by apply g_finish_inv.
  - destruct (g_listening s); [|done]. by apply g_finish_inv.
Qed.

Lemma g_run_inv cap timeout dl aborted evs : 0 ≤ cap → g_inv cap (g_run cap timeout dl aborted evs).
Proof.
  intros Hc. unfold g_run.
  assert (H0 : g_inv cap (g_start timeout dl aborted).1).
  { unfold g_start, g_inv. destruct aborted; simpl; [done|]. split_and!; [done|done|lia]. }
  revert H0. generalize (g_start timeout dl aborted).1 as s.
  induction evs as [|ev evs IH]; intros s Hs; [done|]. simpl. by apply IH, g_step_inv.
Qed.

(** ** Request ids *)

Definition SALT_BITS : Z := 21.
Definition COUNTER_SPACE : Z := 2 ^ 32.

(** The source's counter is its state; [salt] is drawn once per process. *)
Definition nextReqId (salt counter : Z) : Z * Z :=
  let counter' := (counter + 1) mod COUNTER_SPACE in
  (salt * COUNTER_SPACE + counter', counter').

(** The [n]-th id of a source (from 0). *)
Definition reqId_nth (salt : Z) (n : nat) : Z := (nextReqId salt (Z.of_nat n mod COUNTER_SPACE)).1.

(** ** The size of an encoded file *)

Lemma b64_length content :
  Z.of_nat (length (b64_encode content)) = base64EncodedLength (Z.of_nat (length content)).
Proof.
  unfold base64EncodedLength. induction content as [|a|a b|a b c l IH] using bytes_ind3; try done.
  cbn [b64_encode length]. rewrite !Nat2Z.inj_succ, IH.
  replace (Z.succ (Z.succ (Z.succ (Z.of_nat (length l)))) + 2) with ((Z.of_nat (length l) + 2) + 1 * 3) by lia.
  rewrite Z.div_add by lia. lia.
Qed.

Lemma b64_fits_message content :
  Z.of_nat (length content) ≤ DEFAULT_OUTPUT_CAP →
  Z.of_nat (length (b64_encode content)) + EXEC_FRAMING_HEADROOM ≤ MAX_EXEC_MESSAGE_BYTES.
Proof.
  intros Hc. rewrite b64_length. unfold base64EncodedLength, EXEC_FRAMING_HEADROOM, MAX_EXEC_MESSAGE_BYTES,
    DEFAULT_OUTPUT_CAP in *.
  assert ((Z.of_nat (length content) + 2) / 3 ≤ (8 * 1024 * 1024 + 2) / 3) by (apply Z.div_le_mono; lia).
  assert (E : (8 * 1024 * 1024 + 2) / 3 = 2796203) by reflexivity. lia.
Qed.

(** ** The transports as instances of the interface *)

Record KubectlTransport := mkKubectlTransport { kt_cap : Z; kt_cap_nonneg : 0 ≤ kt_cap }.

#[export] Program Instance kubectl_transport : SandboxTransport KubectlTransport := {
  tp_cap := kt_cap;
  tp_resolves t r := ∃ timeout aborted evs, k_settled (k_run (kt_cap t) timeout aborted evs) = Some (Ok r);
}.
Next Obligation. intros t r (timeout & aborted & evs & H). by eapply (k_run_inv _ timeout aborted evs (kt_cap_nonneg t)). Defined.

Record GrpcRelayTransport := mkGrpcTransport { gt_cap : Z; gt_deadlineMs : Z; gt_cap_nonneg : 0 ≤ gt_cap }.

#[export] Program Instance grpc_transport : SandboxTransport GrpcRelayTransport := {
  tp_cap := gt_cap;
  tp_resolves t r := ∃ timeout aborted evs,
    g_settled (g_run (gt_cap t) timeout (gt_deadlineMs t) aborted evs) = Some (Ok r);
}.
Next Obligation.
  intros t r (timeout & aborted & evs & H).
  pose proof (g_run_inv _ timeout (gt_deadlineMs t) aborted evs (gt_cap_nonneg t)) as Hi.
  unfold g_inv in Hi. by rewrite H in Hi.
Defined.

(** ** Properties *)

(** The per-call transport honours the seam's contract: however the output
    arrives and whatever else happens, a call that resolves either fits the cap or is
    flagged truncated, without an exit code and with the marker at its
    end. *)
Theorem kubectl_conforms cap timeout aborted evs r :
  0 ≤ cap → k_settled (k_run cap timeout aborted evs) = Some (Ok r) → result_conforms cap r.
Proof. intros Hc. by apply k_run_inv. Qed.

Lemma kubectl_conforms_witness :
  result_conforms 2 (mkResult (bytes_of "abc" ++ OUTPUT_TRUNCATED_MARKER) None true).
Proof.
  apply (kubectl_conforms 2 None false [KStdout (bytes_of "ab"); KStdout (bytes_of "c"); KClose None]);
    [lia|vm_compute; reflexivity].
Defined.

(** Write capacity covers read capacity: whatever one exec may return as the
    content of a file, base64-encoded for the way back, together with the framing
    headroom, fits in one message of the relay. *)
Theorem readable_is_writable (content : bytes) :
  Z.of_nat (length content) ≤ DEFAULT_OUTPUT_CAP →
  Z.of_nat (length (b64_encode content)) = base64EncodedLength (Z.of_nat (length content))
  ∧ Z.of_nat (length (b64_encode content)) + EXEC_FRAMING_HEADROOM ≤ MAX_EXEC_MESSAGE_BYTES.
Proof. intros Hc. split; [apply b64_length|by apply b64_fits_message]. Qed.

Lemma readable_is_writable_witness :
  Z.of_nat (length (b64_encode (bytes_of "hello"))) = base64EncodedLength 5
  ∧ Z.of_nat (length (b64_encode (bytes_of "hello"))) + EXEC_FRAMING_HEADROOM ≤ MAX_EXEC_MESSAGE_BYTES.
Proof. apply (readable_is_writable (bytes_of "hello")). vm_compute. discriminate. Defined.

(** The relayed transport honours the seam's contract: however frames,
    stream end, errors, deadline and abort interleave, and even when the worker cut
    the output itself, a call that resolves either fits the cap or is
    flagged truncated, without an exit code and with the marker at its end; and
    it settles at most once. *)
Theorem grpc_conforms cap timeout deadlineMs aborted evs more :
  0 ≤ cap →
  (∀ r, g_settled (g_run cap timeout deadlineMs aborted evs) = Some (Ok r) → result_conforms cap r)
  ∧ (is_Some (g_settled (g_run cap timeout deadlineMs aborted evs)) →
     g_settled (g_run cap timeout deadlineMs aborted (evs ++ more)) =
     g_settled (g_run cap timeout deadlineMs aborted evs)).
Proof.
  intros Hc. split.
  - intros r Hr. pose proof (g_run_inv cap timeout deadlineMs aborted evs Hc) as Hi.
    unfold g_inv in Hi. by rewrite Hr in Hi.
  - intros Hs. unfold g_run. rewrite foldl_app. fold (g_run cap timeout deadlineMs aborted evs).
    revert Hs. generalize (g_run cap timeout deadlineMs aborted evs) as s.
    induction more as [|ev more IH]; intros s [r Hs]; [done|]. cbn [foldl].
    assert (E : g_settled (g_step cap timeout deadlineMs s ev).1 = g_settled s).
    { destruct ev; simpl; unfold g_onData, g_finish; rewrite ?Hs; try done;
        [destruct (g_timer s)|destruct (g_listening s)]; simpl; unfold g_finish; by rewrite ?Hs. }
    rewrite IH by (rewrite E; eauto). exact E.
Qed.

Lemma grpc_conforms_witness :
  result_conforms 2 (mkResult (bytes_of "ab" ++ OUTPUT_TRUNCATED_MARKER) None true).
Proof.
  apply (grpc_conforms 2 None 500 false [GChunk false (bytes_of "ab"); GChunk true (bytes_of "err"); GEnd 0 true] []);
    [lia|vm_compute; reflexivity].
Defined.

(** Request ids: every id fits in a double exactly; a process repeats none
    within [2^32] consecutive ids; and two processes with different salts never produce
    the same id. *)
Theorem reqIds_distinct salt salt' n m :
  0 ≤ salt < 2 ^ SALT_BITS → 0 ≤ salt' < 2 ^ SALT_BITS →
  0 ≤ reqId_nth salt n ≤ MAX_SAFE_INTEGER
  ∧ (reqId_nth salt n = reqId_nth salt' m →
     salt = salt' ∧ (Z.of_nat n - Z.of_nat m) mod COUNTER_SPACE = 0).
Proof.
  unfold reqId_nth, nextReqId, SALT_BITS, COUNTER_SPACE, MAX_SAFE_INTEGER. cbn [fst]. intros Hs Hs'.
  rewrite !Zplus_mod_idemp_l.
  pose proof (Z.mod_pos_bound (Z.of_nat n + 1) (2 ^ 32) ltac:(lia)) as Hn.
  pose proof (Z.mod_pos_bound (Z.of_nat m + 1) (2 ^ 32) ltac:(lia)) as Hm.
  split; [lia|]. intros He.
  assert (salt = salt') as -> by lia. split; [done|].
  replace (Z.of_nat n - Z.of_nat m) with ((Z.of_nat n + 1) - (Z.of_nat m + 1)) by lia.
  rewrite Zminus_mod. replace ((Z.of_nat n + 1) mod 2 ^ 32) with ((Z.of_nat m + 1) mod 2 ^ 32) by lia.
  by rewrite Z.sub_diag.
Qed.

Lemma reqIds_distinct_witness :
  0 ≤ reqId_nth 2097151 7 ≤ MAX_SAFE_INTEGER.
Proof. apply (reqIds_distinct 2097151 0 7 0); unfold SALT_BITS; lia. Defined.
