(* ===== verification/Operations.v ===== *)
(** * Sandbox: the file, search and shell operations

    Models [packages/k8s-sandbox/src/operations.ts], [paths.ts], [sandbox-env.ts] and
    the command builder of [grep-tool.ts]: the operations the agent's tools call, each of
    which builds a shell command, runs it through a transport and decides from the
    result whether to answer or to fail.

    Text is a list of characters.  A transport's [exec] is a parameter: a function from
    the command and its stdin to what the promise settles with.  The theorem about
    reading and writing back is proved for any transport that implements the
    interface [SandboxTransport]. *)

From S2P Require Import Prelude Base64 JsNumber Transport.

Local Open Scope Z_scope.

(** ** Quoting and paths *)

Definition QUOTE : ascii := "'"%char.
Definition BACKSLASH : ascii := ascii_of_nat 92.

Definition quote_char (c : ascii) : bytes :=
  if decide (c = QUOTE) then [QUOTE; BACKSLASH; QUOTE; QUOTE] else [c].

Definition shQuote (s : bytes) : bytes := QUOTE :: (s ≫= quote_char) ++ [QUOTE].

Definition SLASH : ascii := "/"%char.

Definition mapPath (p headCwd podCwd : bytes) : bytes :=
  if decide (p = headCwd) then podCwd
  else if starts_with (headCwd ++ [SLASH]) p then podCwd ++ drop (length headCwd) p
  else p.

Record K8sSandboxConfig := mkSandboxConfig {
  pod : bytes;
  namespace : bytes;
  context : option bytes;
  podCwd : bytes;
  headCwd : bytes;
}.

Definition mapper (cfg : K8sSandboxConfig) (p : bytes) : bytes :=
  shQuote (mapPath p (headCwd cfg) (podCwd cfg)).

Definition resolveConfig (env : string → option bytes) (headCwd : bytes) : option K8sSandboxConfig :=
  match env "KAGENTI_SANDBOX_POD" with
  | None | Some [] => None
  | Some pod =>
      Some (mkSandboxConfig pod (default (bytes_of "default") (env "KAGENTI_SANDBOX_NAMESPACE"))
              (match env "KAGENTI_SANDBOX_CONTEXT" with Some [] => None | c => c end)
              (default (bytes_of "/workspace") (env "KAGENTI_SANDBOX_CWD")) headCwd)
  end.

(** ** The environment that crosses into the sandbox *)

Definition SANDBOX_ENV_ALLOW : list string := ["LANG"; "LC_ALL"; "LC_CTYPE"; "TZ"].

Definition sandboxEnv (env : option (string → option bytes)) : list (string * bytes) :=
  match env with
  | None => []
  | Some e => omap (fun name => (fun v => (name, v)) <$> e name) SANDBOX_ENV_ALLOW
  end.

Definition is_upper (c : ascii) : bool := let n := nat_of_ascii c in ((65 <=? n) && (n <=? 90))%nat.
Definition is_lower (c : ascii) : bool := let n := nat_of_ascii c in ((97 <=? n) && (n <=? 122))%nat.

(** [/^[A-Za-z_][A-Za-z0-9_]*$/] *)
Definition posix_name (k : bytes) : bool :=
  match k with
  | [] => false
  | c :: r => let word c := is_upper c || is_lower c || bool_decide (c = "_"%char) in
              word c && forallb (fun c => word c || is_digit c) r
  end.

(** ** Operations *)

Inductive op_error :=
| ExecFailed (e : exec_error)
| ReadExceedsCap (size : option bytes) (p : bytes)
| ReadSignalled (p : bytes)
| ReadExited (code : Z) (p : bytes)
| NotReadable (p : bytes)
| WriteFailed (p : bytes)
| MkdirFailed (p : bytes)
| NotReadWritable (p : bytes)
| PathNotFound (p : bytes)
| ReaddirExceedsCap (p : bytes)
| ReaddirFailed (p : bytes)
| GlobExceedsCap (p : bytes)
| GlobSignalled (p : bytes)
| GlobExited (code : Z) (p : bytes)
| GrepExceedsCap
| RgFailed (code : option Z).

Definition NEWLINE : ascii := ascii_of_nat 10.
Definition SP : bytes := bytes_of " ".

Fixpoint join (sep : bytes) (l : list bytes) : bytes :=
  match l with
  | [] => []
  | [x] => x
  | x :: l' => x ++ sep ++ join sep l'
  end.

Section Ops.
  Variable exec : bytes → option bytes → result exec_error ExecResult.
  Variable cfg : K8sSandboxConfig.

Definition run (command : bytes) (stdin : option bytes) : result op_error ExecResult :=
  match exec command stdin with Ok r => Ok r | Throw e => Throw (ExecFailed e) end.

Definition readFile (p : bytes) : result op_error bytes :=
  try r <- run (bytes_of "cat " ++ mapper cfg p) None;
  if r_truncated r then
    let size := match exec (bytes_of "stat -c %s " ++ mapper cfg p) None with
                | Ok st => if bool_decide (r_exitCode st = Some 0) then Some (trim (r_stdout st)) else None
                | Throw _ => None
                end in
    Throw (ReadExceedsCap size p)
  else match r_exitCode r with
       | None => Throw (ReadSignalled p)
       | Some 0 => Ok (r_stdout r)
       | Some code => Throw (ReadExited code p)
       end.

Definition must_exit_0 (command : bytes) (stdin : option bytes) (e : op_error) : result op_error unit :=
  try r <- run command stdin;
  require bool_decide (r_exitCode r = Some 0) else e; Ok tt.

Definition access (p : bytes) : result op_error unit :=
  must_exit_0 (bytes_of "test -r " ++ mapper cfg p) None (NotReadable p).

Definition IMAGE_MIMES : list bytes :=
  [bytes_of "image/jpeg"; bytes_of "image/png"; bytes_of "image/gif"; bytes_of "image/webp"].

Definition detectImageMimeType (p : bytes) : result op_error (option bytes) :=
  try r <- run (bytes_of "file --mime-type -b " ++ mapper cfg p) None;
  let mime := trim (r_stdout r) in
  Ok (if bool_decide (mime ∈ IMAGE_MIMES) then Some mime else None).

Definition writeFile (p content : bytes) : result op_error unit :=
  must_exit_0 (bytes_of "base64 -d > " ++ mapper cfg p) (Some (b64_encode content)) (WriteFailed p).

Definition mkdir (dir : bytes) : result op_error unit :=
  must_exit_0 (bytes_of "mkdir -p " ++ mapper cfg dir) None (MkdirFailed dir).

Definition edit_access (p : bytes) : result op_error unit :=
  must_exit_0 (bytes_of "test -r " ++ mapper cfg p ++ bytes_of " && test -w " ++ mapper cfg p) None
    (NotReadWritable p).

(** The command line of the bash tool. *)
Definition bash_wrapped (env : option (string → option bytes)) (cwd command : bytes) : bytes :=
  let pairs := (fun '(k, v) => bytes_of k ++ bytes_of "=" ++ shQuote v)
                 <$> filter (fun kv => posix_name (bytes_of kv.1) = true) (sandboxEnv env) in
  match pairs with
  | [] => bytes_of "cd " ++ mapper cfg cwd ++ bytes_of " && " ++ command
  | _ => bytes_of "cd " ++ mapper cfg cwd ++ bytes_of " && env " ++ join SP pairs
         ++ bytes_of " bash -c " ++ shQuote command
  end.

Definition bash_exec (env : option (string → option bytes)) (cwd command : bytes) :
    result op_error (option Z) :=
  try r <- run (bash_wrapped env cwd command) None;
  Ok (if r_truncated r then Some 137 else r_exitCode r).

Definition exists_ (p : bytes) : result op_error bool :=
  try r <- run (bytes_of "test -e " ++ mapper cfg p) None;
  Ok (bool_decide (r_exitCode r = Some 0)).

Definition stat (p : bytes) : result op_error bool :=
  try r <- run (bytes_of "test -e " ++ mapper cfg p ++ bytes_of " && (test -d " ++ mapper cfg p
                ++ bytes_of " && echo DIR || echo FILE)") None;
  require bool_decide (r_exitCode r = Some 0) else PathNotFound p;
  Ok (bool_decide (trim (r_stdout r) = bytes_of "DIR")).

Definition nonempty_lines (s : bytes) : list bytes := filter (fun l => l ≠ []) (split_on [NEWLINE] s).

Definition readdir (p : bytes) : result op_error (list bytes) :=
  try r <- run (bytes_of "ls -1A " ++ mapper cfg p) None;
  require negb (r_truncated r) else ReaddirExceedsCap p;
  require bool_decide (r_exitCode r = Some 0) else ReaddirFailed p;
  Ok (nonempty_lines (r_stdout r)).

Definition DQ : bytes := [ascii_of_nat 34].

Definition rc_is (n : bytes) : bytes :=
  bytes_of "[ " ++ DQ ++ bytes_of "$rc" ++ DQ ++ bytes_of " = " ++ n ++ bytes_of " ] || ".

Definition glob_command (pattern cwd : bytes) (ignore : list bytes) (limit : Z) : bytes :=
  let globs := (bytes_of "-g " ++ shQuote pattern)
               :: ((fun ig => bytes_of "-g " ++ shQuote ("!"%char :: ig)) <$> ignore) in
  bytes_of "cd " ++ mapper cfg cwd ++ bytes_of " && rg --files --hidden " ++ join SP globs
  ++ bytes_of " | head -n " ++ dec_signed limit ++ bytes_of "; rc=${PIPESTATUS[0]}; "
  ++ rc_is (bytes_of "0") ++ rc_is (bytes_of "1") ++ rc_is (bytes_of "141")
  ++ bytes_of "exit " ++ DQ ++ bytes_of "$rc" ++ DQ.

Definition strip_dot_slash (rel : bytes) : bytes :=
  if starts_with (bytes_of "./") rel then drop 2 rel else rel.

Definition glob (pattern cwd : bytes) (ignore : list bytes) (limit : Z) : result op_error (list bytes) :=
  try r <- run (glob_command pattern cwd ignore limit) None;
  require negb (r_truncated r) else GlobExceedsCap pattern;
  match r_exitCode r with
  | None => Throw (GlobSignalled pattern)
  | Some code =>
      require (code =? 0) || (code =? 1) else GlobExited code pattern;
      Ok (strip_dot_slash <$> nonempty_lines (r_stdout r))
  end.

(** The grep tool; [searchDir] is already absolute. *)
Record GrepParams := mkGrep {
  gp_pattern : bytes;
  gp_path : bytes;
  gp_glob : option bytes;
  gp_ignoreCase : bool;
  gp_literal : bool;
  gp_context : Z;
}.

Definition grep_command (g : GrepParams) : bytes :=
  join SP
    ([bytes_of "rg"; bytes_of "--line-number"; bytes_of "--no-heading"; bytes_of "--color=never";
      bytes_of "--hidden"]
     ++ (if gp_ignoreCase g then [bytes_of "--ignore-case"] else [])
     ++ (if gp_literal g then [bytes_of "--fixed-strings"] else [])
     ++ (if 0 <? gp_context g then [bytes_of "--context"; dec_signed (gp_context g)] else [])
     ++ (match gp_glob g with
         | Some (c :: gl) => [bytes_of "--glob"; shQuote (c :: gl)]
         | _ => []
         end)
     ++ [bytes_of "--"; shQuote (gp_pattern g); shQuote (mapPath (gp_path g) (headCwd cfg) (podCwd cfg))]).

Definition NO_MATCHES : bytes := bytes_of "No matches found".

Definition grep_execute (g : GrepParams) : result op_error bytes :=
  try r <- run (grep_command g) None;
  require negb (r_truncated r) else GrepExceedsCap;
  require bool_decide (r_exitCode r = Some 0 ∨ r_exitCode r = Some 1) else RgFailed (r_exitCode r);
  let text := r_stdout r in
  Ok (if bool_decide (r_exitCode r = Some 1) && bool_decide (trim text = []) then NO_MATCHES
      else match text with [] => NO_MATCHES | _ => text end).
End Ops.

(** ** How a shell reads a word

    The part of the POSIX quoting rules that matters here: outside quotes, a single
    quote opens a quoted run, a backslash quotes the next character, and a
    blank or a metacharacter ends the word; inside single quotes every character but the
    quote is itself. *)

Definition ends_word (c : ascii) : bool :=
  bool_decide (c ∈ [" "; ";"; "&"; "|"; "<"; ">"; "("; ")"]%char)
  || bool_decide (c = ascii_of_nat 9) || bool_decide (c = NEWLINE).

(** Characters with a meaning of their own in an unquoted word. *)
Definition special (c : ascii) : bool :=
  bool_decide (c ∈ ["$"; "`"; "*"; "?"; "["; "~"; "#"; "!"]%char) || bool_decide (c = ascii_of_nat 34).

(** The value of the word at the head of [s], and the rest; [None] when the word is not
    made of literal text only, or a quote is left open. *)
Fixpoint sh_word (quoted : bool) (s : bytes) : option (bytes * bytes) :=
  match s with
  | [] => if quoted then None else Some ([], [])
  | c :: r =>
      if quoted then
        if decide (c = QUOTE) then sh_word false r
        else match sh_word true r with Some (w, t) => Some (c :: w, t) | None => None end
      else if decide (c = QUOTE) then sh_word true r
      else if decide (c = BACKSLASH) then
        match r with
        | [] => None
        | c' :: r' => match sh_word false r' with Some (w, t) => Some (c' :: w, t) | None => None end
        end
      else if ends_word c then Some ([], s)
      else if special c then None
      else match sh_word false r with Some (w, t) => Some (c :: w, t) | None => None end
  end.

(** ** Lemmas *)

(** What can follow a word: the end of the command, or a character that ends it. *)
Definition word_end (t : bytes) : Prop := match t with [] => True | c :: _ => ends_word c = true end.

Lemma sh_word_end t : word_end t → sh_word false t = Some ([], t).
Proof.
  destruct t as [|c t]; [done|]. intros H. cbn [word_end sh_word] in *.
  rewrite decide_False by (intros ->; done). rewrite decide_False by (intros ->; done). by rewrite H.
Qed.

Lemma sh_word_body s t w r :
  sh_word false t = Some (w, r) → sh_word true ((s ≫= quote_char) ++ QUOTE :: t) = Some (s ++ w, r).
Proof.
  intros Ht. induction s as [|c s IH]; cbn [mbind list_bind app].
  - cbn [sh_word]. by rewrite decide_True.
  - unfold quote_char at 1. destruct (decide (c = QUOTE)) as [->|Hc]; cbn [app sh_word].
    + rewrite decide_True by done. rewrite decide_False by done. rewrite !decide_True by done. by rewrite IH.
    + rewrite decide_False by done. by rewrite IH.
Qed.

Lemma sandboxEnv_agree e e' :
  (∀ name, name ∈ SANDBOX_ENV_ALLOW → e name = e' name) → sandboxEnv (Some e) = sandboxEnv (Some e').
Proof.
  intros H. unfold sandboxEnv. revert H. generalize SANDBOX_ENV_ALLOW as l.
  induction l as [|n l IH]; intros H; [done|]. cbn [omap list_omap].
  rewrite (H n) by set_solver. destruct (e' n); cbn; rewrite IH by set_solver; done.
Qed.

Lemma readFile_Ok exec cfg p content :
  readFile exec cfg p = Ok content →
  ∃ r, exec (bytes_of "cat " ++ mapper cfg p) None = Ok r
  ∧ r_truncated r = false ∧ r_exitCode r = Some 0 ∧ r_stdout r = content.
Proof.
  unfold readFile, run. destruct (exec _ None) as [r|]; [|done]. cbn [result_bind].
  destruct (r_truncated r) eqn:Et; [done|]. destruct (r_exitCode r) as [[]|] eqn:Ec; try done.
  intros [= <-]. eauto.
Qed.

(** ** Properties *)

(** No injection: whatever characters a path, pattern, command or value holds
    (quotes, newlines, [$], backquotes), its quoted form is exactly one literal shell
    word with exactly that value, when followed by something that ends a word. *)
Theorem shQuote_is_one_word s t :
  word_end t → sh_word false (shQuote s ++ t) = Some (s, t).
Proof.
  intros Ht. unfold shQuote. cbn [app sh_word]. rewrite decide_True by done.
  rewrite <-app_assoc. cbn [app].
  by rewrite (sh_word_body s t [] t (sh_word_end t Ht)), app_nil_r.
Qed.

Lemma shQuote_is_one_word_witness :
  sh_word false (shQuote (bytes_of "it's; rm -rf $HOME") ++ bytes_of " && x")
  = Some (bytes_of "it's; rm -rf $HOME", bytes_of " && x").
Proof. by apply (shQuote_is_one_word (bytes_of "it's; rm -rf $HOME") (bytes_of " && x")). Defined.

(** Nothing of the harness's environment but the allow-list reaches a sandbox:
    two environments that agree on the allow-listed names give the very same
    command line, so no other variable (a key, a token) can influence it. *)
Theorem bash_env_noninterference cfg e e' cwd command :
  (∀ name, name ∈ SANDBOX_ENV_ALLOW → e name = e' name) →
  bash_wrapped cfg (Some e) cwd command = bash_wrapped cfg (Some e') cwd command.
Proof. intros H. unfold bash_wrapped. by rewrite (sandboxEnv_agree e e' H). Qed.

Definition demo_cfg_sandbox : K8sSandboxConfig :=
  mkSandboxConfig (bytes_of "p") (bytes_of "ns") None (bytes_of "/workspace") (bytes_of "/head").

Lemma bash_env_noninterference_witness :
  bash_wrapped demo_cfg_sandbox (Some (fun n => if decide (n = "TZ") then Some (bytes_of "UTC") else
     if decide (n = "API_KEY") then Some (bytes_of "secret") else None)) (bytes_of "/head/a") (bytes_of "ls")
  = bash_wrapped demo_cfg_sandbox (Some (fun n => if decide (n = "TZ") then Some (bytes_of "UTC") else None))
      (bytes_of "/head/a") (bytes_of "ls").
Proof.
  apply bash_env_noninterference. intros name Hn. unfold SANDBOX_ENV_ALLOW in Hn.
  rewrite !elem_of_cons in Hn. destruct Hn as [->|[->|[->|[->|Hn]]]]; try reflexivity.
  by apply elem_of_nil in Hn.
Defined.

(** Reading is faithful and what is read can be written back, through any
    transport that keeps the interface's contract and is capped at
    [DEFAULT_OUTPUT_CAP]: when [readFile] answers, [cat] had exited 0, its output was
    not cut and is exactly what is returned, and writing these bytes back sends a
    payload that decodes to them and fits in one relay message. *)
Theorem read_then_write_back `{SandboxTransport T} (t : T) exec cfg p content :
  tp_cap t = DEFAULT_OUTPUT_CAP →
  (∀ cmd stdin r, exec cmd stdin = Ok r → tp_resolves t r) →
  readFile exec cfg p = Ok content →
  exec (bytes_of "cat " ++ mapper cfg p) None = Ok (mkResult content (Some 0) false)
  ∧ b64_decode (b64_encode content) = content
  ∧ Z.of_nat (length (b64_encode content)) + EXEC_FRAMING_HEADROOM ≤ MAX_EXEC_MESSAGE_BYTES.
Proof.
  intros Hcap Hexec (r & Hr & Ht & Hc & <-)%readFile_Ok. split_and!.
  - destruct r as [out code tr]. simpl in *. by subst.
  - apply b64_roundtrip.
  - pose proof (tp_conforms t r (Hexec _ _ _ Hr)) as Hconf. unfold result_conforms in Hconf.
    rewrite Ht, Hcap in Hconf. by apply b64_fits_message.
Qed.

Definition demo_kubectl : KubectlTransport.
Proof. refine (mkKubectlTransport DEFAULT_OUTPUT_CAP _). unfold DEFAULT_OUTPUT_CAP. lia. Defined.

Lemma read_then_write_back_witness :
  let exec := fun (_ : bytes) (_ : option bytes) => Ok (mkResult (bytes_of "hi") (Some 0) false) in
  readFile exec demo_cfg_sandbox (bytes_of "/head/f") = Ok (bytes_of "hi")
  ∧ Z.of_nat (length (b64_encode (bytes_of "hi"))) + EXEC_FRAMING_HEADROOM ≤ MAX_EXEC_MESSAGE_BYTES.
Proof.
  intros exec. split; [reflexivity|].
  apply (read_then_write_back demo_kubectl exec demo_cfg_sandbox (bytes_of "/head/f") (bytes_of "hi")).
  - reflexivity.
  - intros cmd stdin r [= <-]. exists None, false, [KStdout (bytes_of "hi"); KClose (Some 0)].
    vm_compute. reflexivity.
  - reflexivity.
Defined.
