(* ===== verification/PersistentExec.v ===== *)
(** * Sandbox: the persistent exec channel

    Models [packages/k8s-sandbox/src/persistent-exec.ts]: one long-lived
    [kubectl exec -i -- bash] shared by all commands, one in flight at a time, with
    retry of a command through the per-call transport when the channel dies, and the
    output-cap stage latch.

    The state is the closure's variables.  An operation is a number; [ops] gives its
    command and options.  [live] are the operations that were started and whose
    [settled] is still false: those have a timer and an abort listener.  The event
    handlers of a child do not look at which child they belong to, so neither do
    the handlers here. *)

From S2P Require Import Prelude Base64 JsNumber Framing Transport.

Local Open Scope Z_scope.

Record Op := mkOp {
  o_command : bytes;
  o_stdin : option bytes;
  o_timeout : option Z;
}.

Record Chan := mkChan {
  child : option nat;
  nextChild : nat;
  parser : bytes;                    (* the [FrameParser]'s buffer *)
  inflight : option (Z * nat);       (* nonce number and operation *)
  queue : list nat;
  seqno : Z;
  isDisposed : bool;
  capStageBroken : bool;
  live : list nat;
  submitted : nat;                   (* operations submitted so far *)
  aborted : list nat;                (* operations whose signal is aborted *)
  dropped : list nat;                (* operations [close] forgot *)
}.

Inductive chan_effect :=
| Spawn (c : nat)
| Kill (c : nat)
| EndStdin (c : nat)
| WriteStdin (c : nat) (text : bytes)
| Resolve (op : nat) (r : ExecResult)
| Reject (op : nat) (e : exec_error)
| Fallback (op : nat)                (* the promise is [deps.fallback]'s *)
| WarnCapStage.

Definition buildPersistentKubectlArgs (config : KubectlConfig) : list string :=
  ["exec"; "-i"; "-n"; k_namespace config] ++ context_args config ++ [k_pod config; "--"; "bash"].

Definition chan_init : Chan := mkChan None 0 [] None [] 0 false false [] 0 [] [].

Definition nonce_of (n : Z) : bytes := "n"%char :: dec n.

(** ** Field updates *)

Definition set_child (c : option nat) (st : Chan) : Chan :=
  mkChan c (nextChild st) (parser st) (inflight st) (queue st) (seqno st) (isDisposed st)
    (capStageBroken st) (live st) (submitted st) (aborted st) (dropped st).
Definition set_parser (b : bytes) (st : Chan) : Chan :=
  mkChan (child st) (nextChild st) b (inflight st) (queue st) (seqno st) (isDisposed st)
    (capStageBroken st) (live st) (submitted st) (aborted st) (dropped st).
Definition set_inflight (i : option (Z * nat)) (st : Chan) : Chan :=
  mkChan (child st) (nextChild st) (parser st) i (queue st) (seqno st) (isDisposed st)
    (capStageBroken st) (live st) (submitted st) (aborted st) (dropped st).
Definition set_queue (q : list nat) (st : Chan) : Chan :=
  mkChan (child st) (nextChild st) (parser st) (inflight st) q (seqno st) (isDisposed st)
    (capStageBroken st) (live st) (submitted st) (aborted st) (dropped st).
Definition set_live (l : list nat) (st : Chan) : Chan :=
  mkChan (child st) (nextChild st) (parser st) (inflight st) (queue st) (seqno st) (isDisposed st)
    (capStageBroken st) l (submitted st) (aborted st) (dropped st).

(** Sequencing of handlers that change the state and have effects. *)
Definition andThen (x : Chan * list chan_effect) (f : Chan → Chan * list chan_effect) :
    Chan * list chan_effect :=
  let '(st, e) := x in let '(st', e') := f st in (st', e ++ e').
Notation "x ~> f" := (andThen x f) (at level 62, left associativity) : moca_scope.

Section Channel.
  (** Node's base64 decoder, the output cap, the operations, and whether
      a [write] to a given child's stdin throws. *)
  Variable fromBase64 : bytes → bytes.
  Variable outputCap : Z.
  Variable ops : nat → Op.
  Variable write_throws : nat → bool.

(** ** Handlers *)

Definition killChild (st : Chan) : Chan * list chan_effect :=
  match child st with
  | None => (st, [])
  | Some c => (set_child None st, [Kill c])
  end.

(** The [settled] guard: run [f] once per operation. *)
Definition once (op : nat) (f : Chan → Chan * list chan_effect) (st : Chan) : Chan * list chan_effect :=
  if bool_decide (op ∈ live st) then f (set_live (filter (fun x => x ≠ op) (live st)) st) else (st, []).

Definition done_op (op : nat) (r : ExecResult) : Chan → Chan * list chan_effect :=
  once op (fun st => (st, [Resolve op r])).

Definition fail_op (op : nat) : Chan → Chan * list chan_effect := once op (fun st => (st, [Fallback op])).

Definition resetParser (st : Chan) : Chan * list chan_effect := (set_parser [] st, []).

(** [failSession], with the [pump] to call at its end. *)
Definition failSession (pump_ : Chan → Chan * list chan_effect) (st : Chan) : Chan * list chan_effect :=
  killChild st ~> fun st =>
  resetParser st ~> fun st =>
  let cur := inflight st in
  match cur with
  | Some (_, op) => fail_op op (set_inflight None st)
  | None => (set_inflight None st, [])
  end ~> pump_.

Definition killAndReject (pump_ : Chan → Chan * list chan_effect) (op : nat) (err : exec_error) :
    Chan → Chan * list chan_effect :=
  once op (fun st =>
    killChild (set_inflight None st) ~> fun st =>
    resetParser st ~> fun st =>
    (st, [Reject op err]) ~> pump_).

Definition ensureChild (st : Chan) : Chan * list chan_effect :=
  match child st with
  | Some _ => (st, [])
  | None =>
      if isDisposed st then (st, [])
      else (mkChan (Some (nextChild st)) (S (nextChild st)) (parser st) (inflight st) (queue st)
              (seqno st) (isDisposed st) (capStageBroken st) (live st) (submitted st) (aborted st)
              (dropped st), [Spawn (nextChild st)])
  end.

(** [start] of operation [op]. *)
Definition start_op (pump_ : Chan → Chan * list chan_effect) (op : nat) (st : Chan) :
    Chan * list chan_effect :=
  ensureChild st ~> fun st =>
  match child st with
  | None => (st, [Fallback op])
  | Some c =>
      let n := seqno st + 1 in
      let st1 := mkChan (child st) (nextChild st) (parser st) (inflight st) (queue st) n (isDisposed st)
                   (capStageBroken st) (op :: live st) (submitted st) (aborted st) (dropped st) in
      if bool_decide (op ∈ aborted st1) then killAndReject pump_ op Aborted st1
      else
        let st2 := set_inflight (Some (n, op)) st1 in
        if write_throws c then failSession pump_ st2
        else (st2, [WriteStdin c (wrapCommand (nonce_of n) (o_command (ops op)) (o_stdin (ops op)) outputCap)])
  end.

(** [pump]: every start takes an operation off the queue, so the queue's length
    bounds the recursion. *)
Fixpoint pump_fuel (fuel : nat) (st : Chan) : Chan * list chan_effect :=
  match fuel with
  | O => (st, [])
  | S f =>
      match inflight st, queue st with
      | None, op :: q => start_op (pump_fuel f) op (set_queue q st)
      | _, _ => (st, [])
      end
  end.

Definition pump (st : Chan) : Chan * list chan_effect := pump_fuel (length (queue st)) st.

(** The body of the loop over the frames of one chunk. *)
Definition onFrame (st : Chan) (f : Frame) : Chan * list chan_effect :=
  match inflight st with
  | Some (n, op) =>
      if bool_decide (f_nonce f = nonce_of n) then
        let st0 := set_inflight None st in
        if f_exitCode f =? CAP_STAGE_FAILED then
          let st1 := mkChan (child st0) (nextChild st0) (parser st0) (inflight st0) (queue st0) (seqno st0)
                       (isDisposed st0) true (live st0) (submitted st0) (aborted st0) (dropped st0) in
          (st1, [WarnCapStage]) ~> killChild ~> resetParser ~> fail_op op ~> pump
        else if outputCap <? Z.of_nat (length (f_stdout f)) then
          done_op op (mkResult (take (Z.to_nat outputCap) (f_stdout f) ++ OUTPUT_TRUNCATED_MARKER) None true)
            st0 ~> pump
        else done_op op (mkResult (f_stdout f) (Some (f_exitCode f)) false) st0 ~> pump
      else (st, [])
  | None => (st, [])
  end.

(** ['data'] on a child's stdout. *)
Definition onChildData (d : bytes) (st : Chan) : Chan * list chan_effect :=
  let '(fs, b) := push fromBase64 (parser st) d in
  foldl (fun acc f => acc ~> fun st => onFrame st f) (set_parser b st, []) fs.

Definition onChildError (st : Chan) : Chan * list chan_effect := failSession pump st.

Definition onChildClose (st : Chan) : Chan * list chan_effect :=
  match inflight st, queue st with
  | None, [] => (set_child None st, [])
  | _, _ => failSession pump st
  end.

Definition onTimeout (op : nat) : Chan → Chan * list chan_effect :=
  killAndReject pump op (TimedOut (exec_timeout (o_timeout (ops op)))).

(** The operation's signal aborts. *)
Definition onAbort (op : nat) (st : Chan) : Chan * list chan_effect :=
  killAndReject pump op Aborted
    (mkChan (child st) (nextChild st) (parser st) (inflight st) (queue st) (seqno st) (isDisposed st)
       (capStageBroken st) (live st) (submitted st) (op :: aborted st) (dropped st)).

(** [exec]: the new operation's number is the number of submissions so far. *)
Definition exec (st : Chan) : Chan * list chan_effect :=
  let op := submitted st in
  let st1 := mkChan (child st) (nextChild st) (parser st) (inflight st) (queue st) (seqno st) (isDisposed st)
               (capStageBroken st) (live st) (S op) (aborted st) (dropped st) in
  if isDisposed st1 || capStageBroken st1 then (st1, [Fallback op])
  else pump (set_queue (queue st1 ++ [op]) st1).

Definition close (st : Chan) : Chan * list chan_effect :=
  let st1 := mkChan (child st) (nextChild st) (parser st) (inflight st) (queue st) (seqno st) true
               (capStageBroken st) (live st) (submitted st) (aborted st) (dropped st) in
  (st1, match child st1 with Some c => [EndStdin c] | None => [] end) ~> killChild ~> fun st =>
  (mkChan (child st) (nextChild st) (parser st) (inflight st) [] (seqno st) (isDisposed st)
     (capStageBroken st) (live st) (submitted st) (aborted st) (dropped st ++ queue st), []).

(** Everything that can happen to the channel.  A timeout exists only for an
    operation whose ceiling is positive. *)
Inductive chan_step : Chan → Chan → list chan_effect → Prop :=
| chan_exec st : chan_step st (exec st).1 (exec st).2
| chan_data d st : chan_step st (onChildData d st).1 (onChildData d st).2
| chan_error st : chan_step st (onChildError st).1 (onChildError st).2
| chan_closed st : chan_step st (onChildClose st).1 (onChildClose st).2
| chan_timeout op st :
    timer_armed (o_timeout (ops op)) = true → chan_step st (onTimeout op st).1 (onTimeout op st).2
| chan_abort op st : chan_step st (onAbort op st).1 (onAbort op st).2
| chan_dispose st : chan_step st (close st).1 (close st).2.

Inductive chan_reach : Chan → list chan_effect → Prop :=
| chan_start : chan_reach chan_init []
| chan_next st st' tr effs : chan_reach st tr → chan_step st st' effs → chan_reach st' (tr ++ effs).

(** ** Lemmas *)

(** The operation an effect settles (its promise resolves, rejects, or becomes the
    fallback's). *)
Definition outcome_of (e : chan_effect) : option nat :=
  match e with
  | Resolve op _ | Reject op _ | Fallback op => Some op
  | _ => None
  end.
Definition outcomes (tr : list chan_effect) : list nat := omap outcome_of tr.

Lemma outcomes_app a b : outcomes (a ++ b) = outcomes a ++ outcomes b.
Proof. apply omap_app. Qed.

Definition effect_ok (e : chan_effect) : Prop :=
  match e with Resolve _ r => result_conforms outputCap r | _ => True end.

(** Every operation is waiting, running, settled once, or was dropped by [close];
    [held] is one that is none of these for the moment, and [k] bounds the queue. *)
Definition acct (k : nat) (held : list nat) (st : Chan) (tr : list chan_effect) : Prop :=
  (isDisposed st = true → queue st = []) ∧ (length (queue st) ≤ k)%nat
  ∧ held ++ queue st ++ live st ++ outcomes tr ++ dropped st ≡ₚ seq 0 (submitted st)
  ∧ Forall effect_ok tr.

(** No operation is running. *)
Definition idle (k : nat) (st : Chan) (tr : list chan_effect) : Prop :=
  inflight st = None ∧ live st = [] ∧ acct k [] st tr.
(** [op]'s promise is about to be settled. *)
Definition settling (k : nat) (op : nat) (st : Chan) (tr : list chan_effect) : Prop :=
  inflight st = None ∧ live st = [op] ∧ acct k [] st tr.
Definition running (k : nat) (st : Chan) (tr : list chan_effect) : Prop :=
  ∃ op, inflight st = Some (seqno st, op) ∧ live st = [op] ∧ acct k [] st tr.
(** What holds between events: the queue never waits for nothing. *)
Definition stable (st : Chan) (tr : list chan_effect) : Prop :=
  ∃ k, running k st tr ∨ idle k st tr ∧ queue st = [].

(** [f] takes [P] to [Q], its effects appended to the trace. *)
Definition triple (P : Chan → list chan_effect → Prop) (f : Chan → Chan * list chan_effect)
    (Q : Chan → list chan_effect → Prop) : Prop :=
  ∀ st tr, P st tr → Q (f st).1 (tr ++ (f st).2).

Lemma andThen_triple (R Q : Chan → list chan_effect → Prop) x f tr :
  R x.1 (tr ++ x.2) → triple R f Q → Q (x ~> f).1 (tr ++ (x ~> f).2).
Proof.
  intros Hx Hf. unfold andThen. destruct x as [st e]. specialize (Hf st (tr ++ e) Hx).
  destruct (f st) as [st' e']. simpl in *. by rewrite <-app_assoc in Hf.
Qed.

Lemma seq_triple (P R Q : Chan → list chan_effect → Prop) f g :
  triple P f R → triple R g Q → triple P (fun st => f st ~> g) Q.
Proof. intros Hf Hg st tr HP. eapply andThen_triple; [by apply Hf|done]. Qed.

(** The fields the invariants look at. *)
Definition core (st : Chan) : option (Z * nat) * list nat * list nat * Z * bool * nat * list nat :=
  (inflight st, queue st, live st, seqno st, isDisposed st, submitted st, dropped st).

Lemma acct_core k held st st' tr effs :
  core st' = core st → outcomes effs = [] → Forall effect_ok effs →
  acct k held st tr → acct k held st' (tr ++ effs).
Proof.
  unfold acct, core. intros [= Hi Hq Hl _ Hd Hs Hdr] Ho Hok (H1 & H2 & H3 & H4).
  rewrite outcomes_app, Ho, app_nil_r, Hq, Hl, Hd, Hs, Hdr. split_and!; [done|done|done|by apply Forall_app].
Qed.

(** Handlers that touch nothing the invariants look at. *)
Definition neutral (f : Chan → Chan * list chan_effect) : Prop :=
  ∀ st, core (f st).1 = core st ∧ outcomes (f st).2 = [] ∧ Forall effect_ok (f st).2.

Lemma neutral_kill : neutral killChild.
Proof. intros st. unfold killChild. destruct (child st); split_and!; try done. by apply Forall_singleton. Qed.

Lemma neutral_reset : neutral resetParser.
Proof. intros st. by split_and!. Qed.

Lemma neutral_triple f P :
  neutral f →
  (∀ st st' tr effs, core st' = core st → outcomes effs = [] → Forall effect_ok effs →
     P st tr → P st' (tr ++ effs)) →
  triple P f P.
Proof. intros Hn HP st tr H. destruct (Hn st) as (? & ? & ?). by eapply HP. Qed.

Lemma core_idle k st st' tr effs :
  core st' = core st → outcomes effs = [] → Forall effect_ok effs → idle k st tr → idle k st' (tr ++ effs).
Proof.
  intros Hc Ho Hok (H1 & H2 & H3). pose proof Hc as [= Hi _ Hl _ _ _ _].
  split_and!; [congruence|congruence|by eapply acct_core].
Qed.

Lemma core_settling k op st st' tr effs :
  core st' = core st → outcomes effs = [] → Forall effect_ok effs →
  settling k op st tr → settling k op st' (tr ++ effs).
Proof.
  intros Hc Ho Hok (H1 & H2 & H3). pose proof Hc as [= Hi _ Hl _ _ _ _].
  split_and!; [congruence|congruence|by eapply acct_core].
Qed.

Lemma core_running k st st' tr effs :
  core st' = core st → outcomes effs = [] → Forall effect_ok effs →
  running k st tr → running k st' (tr ++ effs).
Proof.
  intros Hc Ho Hok (op & H1 & H2 & H3). pose proof Hc as [= Hi _ Hl Hs _ _ _].
  exists op. split_and!; [congruence|congruence|by eapply acct_core].
Qed.

(** Settling an operation: the [settled] guard lets exactly one outcome through. *)
Lemma settle_triple k op e :
  outcome_of e = Some op → effect_ok e → triple (settling k op) (once op (fun st => (st, [e]))) (idle k).
Proof.
  intros He Hok st tr (Hi & Hl & Hd & Hk & Hp & Hf). unfold once. rewrite Hl, bool_decide_eq_true_2 by set_solver.
  rewrite filter_cons, decide_False, filter_nil by tauto. cbn [fst snd].
  split_and!; try done. split_and!; try done.
  - cbn [queue live dropped submitted set_live]. rewrite Hl in Hp. rewrite <-Hp, outcomes_app.
    simpl. rewrite He. simpl. rewrite <-!app_assoc. simpl. by rewrite <-Permutation_middle.
  - apply Forall_app. split; [done|]. by apply Forall_singleton.
Qed.

Lemma fail_triple k op : triple (settling k op) (fail_op op) (idle k).
Proof. by apply settle_triple. Qed.

Lemma done_triple k op r : result_conforms outputCap r → triple (settling k op) (done_op op r) (idle k).
Proof. intros. by apply settle_triple. Qed.

Lemma kill_idle k : triple (idle k) killChild (idle k).
Proof. apply neutral_triple; [apply neutral_kill|apply core_idle]. Qed.
Lemma reset_idle k : triple (idle k) resetParser (idle k).
Proof. apply neutral_triple; [apply neutral_reset|apply core_idle]. Qed.
Lemma kill_settling k op : triple (settling k op) killChild (settling k op).
Proof. apply neutral_triple; [apply neutral_kill|apply core_settling]. Qed.
Lemma reset_settling k op : triple (settling k op) resetParser (settling k op).
Proof. apply neutral_triple; [apply neutral_reset|apply core_settling]. Qed.
Lemma kill_running k : triple (running k) killChild (running k).
Proof. apply neutral_triple; [apply neutral_kill|apply core_running]. Qed.
Lemma reset_running k : triple (running k) resetParser (running k).
Proof. apply neutral_triple; [apply neutral_reset|apply core_running]. Qed.

Definition in_any (k : nat) (st : Chan) (tr : list chan_effect) : Prop := running k st tr ∨ idle k st tr.

Lemma failSession_triple k pump_ Q : triple (idle k) pump_ Q → triple (in_any k) (failSession pump_) Q.
Proof.
  intros Hp st tr Hst. unfold failSession.
  eapply (andThen_triple (in_any k)).
  { destruct Hst; [left; by apply kill_running|right; by apply kill_idle]. }
  clear st tr Hst. intros st tr Hst. eapply (andThen_triple (in_any k)).
  { destruct Hst; [left; by apply reset_running|right; by apply reset_idle]. }
  clear st tr Hst. intros st tr Hst. eapply andThen_triple; [|exact Hp].
  destruct Hst as [(op & Hi & Hl & Ha)|(Hi & Hl & Ha)]; rewrite Hi.
  - by apply fail_triple.
  - by rewrite app_nil_r.
Qed.

(** [killAndReject] of the operation that is running, or being started. *)
Lemma killAndReject_triple k pump_ Q op err :
  triple (idle k) pump_ Q →
  triple (fun st tr => live st = [op] ∧ acct k [] st tr) (killAndReject pump_ op err) Q.
Proof.
  intros Hp st tr (Hl & Ha). unfold killAndReject, once.
  rewrite Hl, bool_decide_eq_true_2 by set_solver. rewrite filter_cons, decide_False, filter_nil by tauto.
  set (st1 := set_live [] st).
  assert (H1 : inflight (set_inflight None st1) = None ∧ live (set_inflight None st1) = []
               ∧ acct k [op] (set_inflight None st1) tr).
  { destruct Ha as (Hd & Hk & Hpm & Hf). split_and!; try done. split_and!; try done.
    cbn [queue live dropped submitted set_inflight set_live st1]. rewrite <-Hpm, Hl. simpl.
    by rewrite <-Permutation_middle. }
  set (held := fun (st : Chan) tr => inflight st = None ∧ live st = [] ∧ acct k [op] st tr).
  assert (Hcore : ∀ st st' tr effs, core st' = core st → outcomes effs = [] → Forall effect_ok effs →
    held st tr → held st' (tr ++ effs)).
  { intros s s' t effs Hc Ho Hok (A & B & C). pose proof Hc as [= Hi _ Hl' _ _ _ _].
    split_and!; [congruence|congruence|by eapply acct_core]. }
  eapply (andThen_triple held); [by apply neutral_triple with (P := held); [apply neutral_kill| |]|].
  clear st tr Hl Ha st1 H1. intros st tr Hst.
  eapply (andThen_triple held); [by apply neutral_triple with (P := held); [apply neutral_reset| |]|].
  clear st tr Hst. intros st tr (Hi & Hl & Hd & Hk & Hpm & Hf).
  eapply andThen_triple; [|exact Hp]. split_and!; try done. split_and!; [done|done| |].
  - rewrite outcomes_app. simpl. rewrite <-Hpm. simpl. rewrite <-!app_assoc. simpl.
    rewrite !(app_assoc (queue st) (live st)). rewrite (app_assoc _ (outcomes tr)).
    rewrite <-Permutation_middle. by rewrite <-!app_assoc.
  - apply Forall_app. split; [done|]. by apply Forall_singleton.
Qed.

Lemma start_triple k pump_ op :
  triple (idle k) pump_ stable →
  triple (fun st tr => inflight st = None ∧ live st = [] ∧ isDisposed st = false ∧ acct k [op] st tr)
    (start_op pump_ op) stable.
Proof.
  intros Hp st tr (Hi & Hl & Hds & Ha). unfold start_op.
  set (ready := fun (st : Chan) tr => inflight st = None ∧ live st = [] ∧ is_Some (child st)
                                      ∧ acct k [op] st tr).
  eapply (andThen_triple ready).
  { unfold ensureChild. destruct (child st) eqn:Ec.
    - cbn [fst snd]. rewrite app_nil_r. by split_and!.
    - rewrite Hds. split_and!; try done. apply (acct_core _ _ st); [by unfold core; rewrite Hds|done|by apply Forall_singleton|done]. }
  clear st tr Hi Hl Hds Ha. intros st tr (Hi & Hl & [c Hc] & Ha). rewrite Hc.
  set (st1 := mkChan _ _ _ _ _ _ _ _ _ _ _ _).
  assert (H1 : live st1 = [op] ∧ acct k [] st1 tr).
  { split; [unfold st1; simpl; by rewrite Hl|]. destruct Ha as (Hd & Hk & Hpm & Hf). split_and!; try done.
    cbn [queue live dropped submitted st1]. rewrite <-Hpm, Hl. simpl. by rewrite <-Permutation_middle. }
  destruct (bool_decide (op ∈ aborted st1)); [by apply (killAndReject_triple k pump_ stable)|].
  assert (H2 : running k (set_inflight (Some (seqno st + 1, op)) st1) tr).
  { exists op. split_and!; [done|apply H1|apply H1]. }
  destruct (write_throws c).
  - apply (failSession_triple k pump_ stable Hp). by left.
  - exists k. left. apply (core_running _ (set_inflight (Some (seqno st + 1, op)) st1)); [done|done|by apply Forall_singleton|done].
Qed.

Lemma pump_fuel_triple f : triple (idle f) (pump_fuel f) stable.
Proof.
  induction f as [|f IH]; intros st tr (Hi & Hl & Ha); cbn [pump_fuel].
  - cbn [fst snd]. rewrite app_nil_r. exists O. right. split; [done|].
    destruct Ha as (_ & Hk & _). by destruct (queue st); simpl in Hk; [|lia].
  - rewrite Hi. destruct (queue st) as [|op q] eqn:Hq.
    { cbn [fst snd]. rewrite app_nil_r. exists (S f). right. done. }
    destruct Ha as (Hd & Hk & Hpm & Hf). rewrite Hq in Hk, Hpm, Hd.
    destruct (isDisposed st) eqn:Hds; [by specialize (Hd eq_refl)|].
    apply (start_triple f); [done|]. split_and!; try done.
    split_and!; try done; cbn [queue set_queue isDisposed]; [congruence|simpl in Hk; lia].
Qed.

Lemma pump_triple k : triple (idle k) pump stable.
Proof.
  intros st tr (Hi & Hl & Hd & _ & Hpm & Hf). apply pump_fuel_triple. by split_and!; try split_and!.
Qed.

Lemma stable_any st tr : stable st tr → ∃ k, in_any k st tr.
Proof. intros (k & [H|[H _]]); exists k; [by left|by right]. Qed.

Lemma stable_failSession : triple stable (failSession pump) stable.
Proof.
  intros st tr (k & Hk)%stable_any. apply (failSession_triple k pump stable (pump_triple k)). exact Hk.
Qed.

(** A timeout or an abort: of the running operation, or of one that is settled,
    queued or unknown, which has no effect. *)
Lemma stable_killAndReject op err : triple stable (killAndReject pump op err) stable.
Proof.
  intros st tr Hst. destruct (decide (op ∈ live st)) as [Hin|Hni].
  - destruct Hst as (k & [(op' & Hi & Hl & Ha)|[(Hi & Hl & Ha) _]]); rewrite Hl in Hin; [|set_solver].
    apply list_elem_of_singleton in Hin as ->.
    by apply (killAndReject_triple k pump stable op' err (pump_triple k)).
  - unfold killAndReject, once. rewrite bool_decide_eq_false_2 by done. cbn [fst snd]. by rewrite app_nil_r.
Qed.

Lemma settling_start st tr k op :
  live st = [op] → acct k [] st tr → settling k op (set_inflight None st) tr.
Proof. intros Hl Ha. by split_and!. Qed.

Lemma onFrame_stable st f tr : 0 ≤ outputCap → stable st tr → stable (onFrame st f).1 (tr ++ (onFrame st f).2).
Proof.
  intros Hcap Hst. unfold onFrame.
  destruct Hst as (k & [(op & Hi & Hl & Ha)|[(Hi & Hl & Ha) Hq]]); rewrite Hi.
  2:{ cbn [fst snd]. rewrite app_nil_r. exists k. by right. }
  destruct (bool_decide _).
  2:{ cbn [fst snd]. rewrite app_nil_r. exists k. left. by exists op. }
  pose proof (settling_start st tr k op Hl Ha) as Hs. cbv zeta.
  destruct (f_exitCode f =? CAP_STAGE_FAILED).
  - eapply andThen_triple; [|exact (pump_triple k)].
    eapply andThen_triple; [|apply fail_triple].
    eapply andThen_triple; [|apply reset_settling].
    eapply andThen_triple; [|apply kill_settling].
    apply (core_settling k op (set_inflight None st)); [done|done|by apply Forall_singleton|done].
  - destruct (Z.ltb_spec outputCap (Z.of_nat (length (f_stdout f)))) as [Hlt|Hge];
      (eapply andThen_triple; [|exact (pump_triple k)]); apply done_triple; try done.
    split; [done|]. by eexists.
Qed.

Lemma onChildData_stable d : 0 ≤ outputCap → triple stable (onChildData d) stable.
Proof.
  intros Hcap st tr Hst. unfold onChildData. destruct (push fromBase64 (parser st) d) as [fs b].
  assert (H0 : stable (set_parser b st) (tr ++ [])).
  { rewrite app_nil_r. destruct Hst as (k & [(op & ?)|?]); exists k; [left; by exists op|by right]. }
  revert H0. generalize (set_parser b st) ([] : list chan_effect). clear st Hst b.
  induction fs as [|f fs IH]; intros st e Hst; [done|]. cbn [foldl andThen].
  pose proof (onFrame_stable st f (tr ++ e) Hcap Hst) as Hf.
  destruct (onFrame st f) as [st' e']. apply IH. by rewrite app_assoc.
Qed.

Lemma exec_stable : triple stable exec stable.
Proof.
  intros st tr Hst. unfold exec. cbv zeta. set (st1 := mkChan _ _ _ _ _ _ _ _ _ _ _ _).
  assert (Hnew : ∀ k held, acct k held st tr → acct k (submitted st :: held) st1 tr).
  { intros k held (Hd & Hk & Hp & Hf). split_and!; try done. cbn [queue live dropped submitted st1].
    rewrite seq_S, <-Hp. apply Permutation_cons_append. }
  destruct (isDisposed st1 || capStageBroken st1) eqn:E; cbn [fst snd].
  - assert (Hfb : ∀ k, acct k [] st tr → acct k [] st1 (tr ++ [Fallback (submitted st)])).
    { intros k (Hd & Hk & Hp & Hf)%Hnew. split_and!; try done.
      - rewrite <-Hp, outcomes_app. simpl. rewrite <-!app_assoc. simpl.
        rewrite !(app_assoc (queue st)), (app_assoc _ (outcomes tr)). by rewrite <-Permutation_middle, <-!app_assoc.
      - apply Forall_app. split; [done|by apply Forall_singleton]. }
    destruct Hst as (k & [(op & Hi & Hl & Ha)|[(Hi & Hl & Ha) Hq]]); exists k.
    + left. exists op. split_and!; [done|done|by apply Hfb].
    + right. split; [|done]. split_and!; [done|done|by apply Hfb].
  - apply orb_false_iff in E as [E1 E2].
    assert (Hq : ∀ k, acct k [] st tr → acct (S k) [] (set_queue (queue st ++ [submitted st]) st1) tr).
    { intros k (Hd & Hk & Hp & Hf)%Hnew. split_and!; try done; cbn [queue set_queue isDisposed live dropped submitted].
      - intros H. change (isDisposed st1) with (isDisposed st) in E1. change (isDisposed st1) with (isDisposed st) in H.
        congruence.
      - rewrite length_app. simpl. cbn [queue st1] in Hk. lia.
      - rewrite <-Hp. simpl. rewrite <-app_assoc. simpl. by rewrite <-Permutation_middle. }
    destruct Hst as (k & [(op & Hi & Hl & Ha)|[(Hi & Hl & Ha) Hqe]]).
    + unfold pump. destruct (length _); cbn [pump_fuel]; cbn [inflight set_queue]; cbn [st1 inflight];
        rewrite ?Hi; cbn [fst snd]; rewrite app_nil_r; exists (S k); left; exists op;
        (split_and!; [done|done|by apply Hq]).
    + apply (pump_triple (S k)). split_and!; [done|done|by apply Hq].
Qed.

Lemma close_stable : triple stable close stable.
Proof.
  intros st tr Hst. unfold close. cbv zeta. set (st1 := mkChan _ _ _ _ _ _ _ _ _ _ _ _).
  (* between here and the end the queue is what it was, though the channel is disposed *)
  set (mid := fun s (t : list chan_effect) => isDisposed s = true
    ∧ stable (mkChan (child s) (nextChild s) (parser s) (inflight s) [] (seqno s) (isDisposed s)
                (capStageBroken s) (live s) (submitted s) (aborted s) (dropped s ++ queue s)) t).
  assert (Hcore : ∀ s s' t effs, core s' = core s → outcomes effs = [] → Forall effect_ok effs →
    mid s t → mid s' (t ++ effs)).
  { intros s s' t effs Hc Ho Hok [Hd Hs]. pose proof Hc as [= Hi Hq Hl Hse Hdi Hsu Hdr].
    split; [congruence|]. destruct Hs as (k & [Hr|[Hr _]]); exists k.
    - left. eapply core_running; [|done|done|exact Hr]. unfold core. simpl. congruence.
    - right. split; [|done]. eapply core_idle; [|done|done|exact Hr]. unfold core. simpl. congruence. }
  eapply (andThen_triple mid).
  - eapply (andThen_triple mid); [|apply neutral_triple; [apply neutral_kill|exact Hcore]].
    cbn [fst snd]. apply (Hcore st1); [done|by destruct (child st1)|by destruct (child st1); repeat constructor|].
    split; [done|].
    assert (Ha' : ∀ k, acct k [] st tr → acct k []
      (mkChan (child st1) (nextChild st1) (parser st1) (inflight st1) [] (seqno st1) (isDisposed st1)
         (capStageBroken st1) (live st1) (submitted st1) (aborted st1) (dropped st1 ++ queue st1)) tr).
    { intros k (Hd & Hk & Hp & Hf). split_and!; try done; [simpl; lia|].
      cbn [queue live dropped submitted st1]. rewrite <-Hp. simpl.
      rewrite !app_assoc. rewrite (Permutation_app_comm _ (queue st)). by rewrite <-!app_assoc. }
    destruct Hst as (k & [(op & Hi & Hl & Ha)|[(Hi & Hl & Ha) Hq]]); exists k.
    + left. exists op. split_and!; [done|done|by apply Ha'].
    + right. split; [|done]. split_and!; [done|done|by apply Ha'].
  - intros s t [Hd Hs]. cbn [fst snd]. by rewrite app_nil_r.
Qed.

Lemma chan_step_stable st st' tr effs :
  0 ≤ outputCap → stable st tr → chan_step st st' effs → stable st' (tr ++ effs).
Proof.
  intros Hcap Hst Hstep. destruct Hstep as [st|d st|st|st|op st _|op st|st].
  - by apply exec_stable.
  - by apply onChildData_stable.
  - by apply stable_failSession.
  - unfold onChildClose. destruct (inflight st) eqn:Hi; [by apply stable_failSession|].
    destruct (queue st) eqn:Hq; [|by apply stable_failSession]. cbn [fst snd]. rewrite app_nil_r.
    destruct Hst as (k & [(op & ?)|?]); exists k; [left; by exists op|by right].
  - by apply stable_killAndReject.
  - unfold onAbort. apply stable_killAndReject.
    destruct Hst as (k & [(op' & ?)|?]); exists k; [left; by exists op'|by right].
  - by apply close_stable.
Qed.

Lemma reach_effects_ok st tr : 0 ≤ outputCap → chan_reach st tr → stable st tr ∧ Forall effect_ok tr.
Proof.
  intros Hcap Hr.
  assert (Hst : stable st tr).
  { induction Hr as [|st st' tr effs _ IH Hstep]; [|by eapply chan_step_stable].
    exists O. right. split; [|done]. by split_and!. }
  split; [done|].
  by destruct Hst as (k & [(op' & _ & _ & (_ & _ & _ & ?))|[(_ & _ & (_ & _ & _ & ?)) _]]).
Qed.

(** ** Properties *)

(** C8. No command is lost, settled twice, or left waiting: whatever the shell
    prints, however the channel dies, and whatever times out or is aborted, every command
    ever submitted is in exactly one place: in the queue, running, settled (its
    promise resolved, rejected or handed to the fallback transport), or dropped by
    [close]; at most one command runs, and the queue is never left waiting while
    none does. *)
Theorem commands_accounted st tr :
  0 ≤ outputCap → chan_reach st tr →
  queue st ++ live st ++ outcomes tr ++ dropped st ≡ₚ seq 0 (submitted st)
  ∧ NoDup (outcomes tr)
  ∧ match inflight st with
    | Some (_, op) => live st = [op]
    | None => live st = [] ∧ queue st = []
    end.
Proof.
  intros Hcap Hr.
  destruct (reach_effects_ok st tr Hcap Hr) as [Hst _].
  destruct Hst as (k & [(op & Hi & Hl & Ha)|[(Hi & Hl & Ha) Hq]]); rewrite Hi;
    destruct Ha as (_ & _ & Hp & _); (split; [exact Hp|]); (split; [|done]).
  all: simpl in Hp; assert (Hn : NoDup (queue st ++ live st ++ outcomes tr ++ dropped st))
    by (rewrite Hp; apply NoDup_seq).
  all: apply NoDup_app in Hn as (_ & _ & Hn); apply NoDup_app in Hn as (_ & _ & Hn);
    by apply NoDup_app in Hn as (Hn & _).
Qed.

(** The persistent transport honours the seam's contract: every result it
    resolves a command with either fits the cap or is flagged truncated, cut to the
    cap with the marker after it, and without an exit code. *)
Theorem persistent_conforms st tr op r :
  0 ≤ outputCap → chan_reach st tr → Resolve op r ∈ tr → result_conforms outputCap r.
Proof.
  intros Hcap Hr Hin.
  destruct (reach_effects_ok st tr Hcap Hr) as [_ Hok].
  by eapply Forall_forall in Hin; [|exact Hok].
Qed.
End Channel.

(** The channel as an instance of the transport interface. *)
Record PersistentTransport := mkPersistent {
  pt_cap : Z;
  pt_ops : nat → Op;
  pt_fromBase64 : bytes → bytes;
  pt_write_throws : nat → bool;
  pt_cap_nonneg : 0 ≤ pt_cap;
}.

#[export] Program Instance persistent_transport : SandboxTransport PersistentTransport := {
  tp_cap := pt_cap;
  tp_resolves t r := ∃ st tr op,
    chan_reach (pt_fromBase64 t) (pt_cap t) (pt_ops t) (pt_write_throws t) st tr ∧ Resolve op r ∈ tr;
}.
Next Obligation.
  intros t r (st & tr & op & Hr & Hin).
  destruct (reach_effects_ok _ _ _ _ st tr (pt_cap_nonneg t) Hr) as [_ Hok].
  by eapply Forall_forall in Hin; [|exact Hok].
Defined.

(** Two commands; the first times out while the second is queued. *)
Definition demo_ops (op : nat) : Op := mkOp (bytes_of "append-line") None (Some 5).

Definition chan1 : Chan * list chan_effect := exec 100 demo_ops (fun _ => false) chan_init.
Definition chan2 : Chan * list chan_effect := exec 100 demo_ops (fun _ => false) chan1.1.
Definition chan3 : Chan * list chan_effect := onTimeout 100 demo_ops (fun _ => false) 0 chan2.1.
Definition trace2 : list chan_effect := ([] ++ chan1.2) ++ chan2.2.
Definition trace3 : list chan_effect := trace2 ++ chan3.2.

Lemma chan2_reach : chan_reach b64_decode 100 demo_ops (fun _ => false) chan2.1 trace2.
Proof.
  eapply chan_next; [|apply chan_exec]. eapply chan_next; [apply chan_start|apply chan_exec].
Defined.

Lemma chan3_reach : chan_reach b64_decode 100 demo_ops (fun _ => false) chan3.1 trace3.
Proof. eapply chan_next; [apply chan2_reach|by apply chan_timeout]. Defined.

Lemma commands_accounted_witness : NoDup (outcomes trace3).
Proof.
  apply (commands_accounted b64_decode 100 demo_ops (fun _ => false) _ _ ltac:(lia) chan3_reach).
Defined.

Definition demo_result : ExecResult := mkResult (bytes_of "hi") (Some 0) false.

Lemma persistent_conforms_witness : result_conforms 100 demo_result.
Proof.
  pose (d := render (mkEmitted [] (nonce_of 2) (bytes_of "hi") (b64_encode (bytes_of "hi")) 0)).
  eapply (persistent_conforms b64_decode 100 demo_ops (fun _ => false)
            (onChildData b64_decode 100 demo_ops (fun _ => false) d chan3.1).1
            (trace3 ++ (onChildData b64_decode 100 demo_ops (fun _ => false) d chan3.1).2) 1).
  - lia.
  - eapply chan_next; [apply chan3_reach|apply chan_data].
  - apply elem_of_app. right. vm_compute. constructor.
Defined.

(** A flaw of the channel: the handlers of a child do not check that the child
    is still the current one.  When a command times out while another is queued,
    the old child is killed, the next command is started on a new child, and the
    old child's late ['close'] event then kills the new child and hands the
    command, already written to a live shell, to the fallback: it runs
    twice. *)
Theorem stale_close_reruns_command :
  ∃ st tr text, chan_reach b64_decode 100 demo_ops (fun _ => false) st tr
  ∧ tr = [Spawn 0; WriteStdin 0 text.1; Kill 0; Reject 0 (TimedOut 5); Spawn 1; WriteStdin 1 text.2]
  ∧ (onChildClose 100 demo_ops (fun _ => false) st).2 = [Kill 1; Fallback 1].
Proof.
  exists chan3.1, trace3.
  exists (wrapCommand (nonce_of 1) (bytes_of "append-line") None 100,
          wrapCommand (nonce_of 2) (bytes_of "append-line") None 100).
  split; [exact chan3_reach|]. split; vm_compute; reflexivity.
Qed.

(** A command still queued when the channel is closed is forgotten: its promise never
    settles. *)
Lemma close_strands_queue :
  ∃ st tr, chan_reach b64_decode 100 demo_ops (fun _ => false) st tr
  ∧ dropped st = [1%nat] ∧ queue st = [] ∧ outcomes tr = [].
Proof.
  exists (close chan2.1).1, (trace2 ++ (close chan2.1).2).
  split; [eapply chan_next; [apply chan2_reach|apply chan_dispose]|].
  split_and!; vm_compute; reflexivity.
Qed.
