(* ===== verification/Relay.v ===== *)
(** * Sandbox relay: parked workers and routed execs

    Models [packages/sandbox-relay/src/relay.ts]: workers attach over a stream and
    park under their sandbox id, execs are routed to the parked worker, and the
    worker's frames come back to the exec that waits for them.

    A [Parked] object is shared between the session map and the generators that were
    started on it, so parked objects live in a store and both hold references.  A
    generator runs its body when its consumer pulls: [pull] is one [next()], [cancel]
    the consumer leaving early. *)

From S2P Require Import Prelude.

Local Open Scope Z_scope.

Inductive ExecEvent :=
| EChunk (data : bytes)
| EEnd (exitCode : Z)
| EError (message : string).

Inductive WorkerFrame :=
| Hello (sandboxId : string)
| WChunk (reqId : Z) (data : bytes)
| WEnd (reqId : Z) (exitCode : Z)
| WError (reqId : Z) (message : string)
| WOther.

Record Parked := mkParked {
  p_stream : nat;
  p_sinks : list (Z * nat);            (* request id to generator, in insertion order *)
}.

Record Gen := mkGen {
  g_parked : nat;
  g_req : Z;
  g_queue : list ExecEvent;
  g_done : bool;
  g_final : bool;                      (* the event last yielded was the last one *)
  g_over : bool;                       (* the generator has returned *)
}.

Record RelayState := mkRelay {
  parkeds : gmap nat Parked;
  nextParked : nat;
  sessions : list (string * nat);
  bound : gmap nat string;             (* the [sandboxId] variable of each stream *)
  gens : gmap nat Gen;
  nextGen : nat;
}.

Inductive relay_effect :=
| EndStream (s : nat)
| WriteExec (s : nat) (reqId : Z)
| WriteAbort (s : nat) (reqId : Z)
| PutRecord (id : string)
| RemoveRecord (id : string).

Inductive relay_error :=
| NoLiveWorker (id : string)
| ReqIdInFlight (reqId : Z) (id : string).

Definition relay_init : RelayState := mkRelay ∅ 0 [] ∅ ∅ 0.

(** ** Bearer tokens *)

(** [bearer(metadata)]: [header] is the first [authorization] value. *)
Definition bearer (header : option bytes) : option bytes :=
  match header with
  | Some v => if starts_with (bytes_of "Bearer ") v then Some (drop 7 v) else None
  | None => None
  end.

(** ** Helpers *)

Definition is_terminal (ev : ExecEvent) : bool :=
  match ev with EChunk _ => false | EEnd _ | EError _ => true end.

(** [toExecEvent], with the frame's request id. *)
Definition toExecEvent (f : WorkerFrame) : option (Z * ExecEvent) :=
  match f with
  | WChunk r d => Some (r, EChunk d)
  | WEnd r c => Some (r, EEnd c)
  | WError r m => Some (r, EError m)
  | Hello _ | WOther => None
  end.

Definition with_gens (g : gmap nat Gen) (st : RelayState) : RelayState :=
  mkRelay (parkeds st) (nextParked st) (sessions st) (bound st) g (nextGen st).
Definition with_parkeds (p : gmap nat Parked) (st : RelayState) : RelayState :=
  mkRelay p (nextParked st) (sessions st) (bound st) (gens st) (nextGen st).
Definition with_sessions (m : list (string * nat)) (st : RelayState) : RelayState :=
  mkRelay (parkeds st) (nextParked st) m (bound st) (gens st) (nextGen st).

(** A sink: queue the event, note whether it is the last. *)
Definition sink (ev : ExecEvent) (g : Gen) : Gen :=
  mkGen (g_parked g) (g_req g) (g_queue g ++ [ev]) (g_done g || is_terminal ev) (g_final g) (g_over g).

Definition deliver (gid : nat) (ev : ExecEvent) (st : RelayState) : RelayState :=
  with_gens (alter (sink ev) gid (gens st)) st.

(** The stream's [sandboxId], when it is truthy. *)
Definition sandbox_of (st : RelayState) (s : nat) : option string :=
  match bound st !! s with
  | Some id => if decide (id = "") then None else Some id
  | None => None
  end.

(** ** Handlers *)

(** ['data'] on stream [s]; [valid] is what [validateToken] says of its bearer. *)
Definition onFrame (valid : bool) (s : nat) (frame : WorkerFrame) (st : RelayState) :
    RelayState * list relay_effect :=
  match frame, sandbox_of st s with
  | Hello id, None =>
      if negb valid then (st, [EndStream s])
      else if map_has id (sessions st) then (st, [EndStream s])
      else
        let r := nextParked st in
        (mkRelay (<[r := mkParked s []]> (parkeds st)) (S r) (map_set id r (sessions st))
           (<[s := id]> (bound st)) (gens st) (nextGen st), [PutRecord id])
  | _, None => (st, [])
  | _, Some id =>
      match r ← map_get id (sessions st); parkeds st !! r with
      | None => (st, [])
      | Some parked =>
          match toExecEvent frame with
          | None => (st, [])
          | Some (reqId, ev) =>
              match map_get reqId (p_sinks parked) with
              | Some gid => (deliver gid ev st, [])
              | None => (st, [])
              end
          end
      end
  end.

Definition DISCONNECTED : ExecEvent := EError "worker disconnected".

(** ['end'] or ['error'] of stream [s]. *)
Definition teardown (s : nat) (st : RelayState) : RelayState * list relay_effect :=
  match sandbox_of st s with
  | None => (st, [])
  | Some id =>
      let st1 := match r ← map_get id (sessions st); parkeds st !! r with
                 | Some parked => foldl (fun q '(_, gid) => deliver gid DISCONNECTED q) st (p_sinks parked)
                 | None => st
                 end in
      (with_sessions (map_delete id (sessions st1)) st1, [RemoveRecord id])
  end.

(** The first [next()] of [routeExec]: register the sink and send the request. *)
Definition routeExec (id : string) (reqId : Z) (st : RelayState) :
    result relay_error (nat * RelayState * list relay_effect) :=
  match map_get id (sessions st) with
  | None => Throw (NoLiveWorker id)
  | Some r =>
      match parkeds st !! r with
      | None => Throw (NoLiveWorker id)
      | Some parked =>
          if map_has reqId (p_sinks parked) then Throw (ReqIdInFlight reqId id)
          else
            let gid := nextGen st in
            Ok (gid,
                mkRelay (<[r := mkParked (p_stream parked) (map_set reqId gid (p_sinks parked))]> (parkeds st))
                  (nextParked st) (sessions st) (bound st)
                  (<[gid := mkGen r reqId [] false false false]> (gens st)) (S gid),
                [WriteExec (p_stream parked) reqId])
      end
  end.

Inductive pulled := Yield (ev : ExecEvent) | Return | Wait.

(** The [finally] block. *)
Definition finally (gid : nat) (g : Gen) (st : RelayState) : RelayState :=
  with_gens (<[gid := mkGen (g_parked g) (g_req g) (g_queue g) (g_done g) (g_final g) true]> (gens st))
    (with_parkeds (alter (fun p => mkParked (p_stream p) (map_delete (g_req g) (p_sinks p)))
                     (g_parked g) (parkeds st)) st).

Definition pull (gid : nat) (st : RelayState) : option (pulled * RelayState) :=
  match gens st !! gid with
  | None => None
  | Some g =>
      if g_over g then Some (Return, st)
      else if g_final g then Some (Return, finally gid g st)
      else match g_queue g with
           | ev :: q =>
               Some (Yield ev, with_gens (<[gid := mkGen (g_parked g) (g_req g) q (g_done g)
                                                      (is_terminal ev) false]> (gens st)) st)
           | [] => if g_done g then Some (Return, finally gid g st) else Some (Wait, st)
           end
  end.

(** The consumer calls [return()] on the generator. *)
Definition cancel (gid : nat) (st : RelayState) : RelayState :=
  match gens st !! gid with
  | None => st
  | Some g => if g_over g then st else finally gid g st
  end.

Definition routeAbort (id : string) (reqId : Z) (st : RelayState) : list relay_effect :=
  match r ← map_get id (sessions st); parkeds st !! r with
  | Some parked => [WriteAbort (p_stream parked) reqId]
  | None => []
  end.

Inductive relay_step : RelayState → RelayState → Prop :=
| relay_frame valid s f st : relay_step st (onFrame valid s f st).1
| relay_teardown s st : relay_step st (teardown s st).1
| relay_route id reqId st gid st' effs :
    routeExec id reqId st = Ok (gid, st', effs) → relay_step st st'
| relay_pull gid st p st' : pull gid st = Some (p, st') → relay_step st st'
| relay_cancel gid st : relay_step st (cancel gid st).

Definition relay_reach (st : RelayState) : Prop := rtc relay_step relay_init st.

(** ** Lemmas *)

(** Generator [gid] has its sink registered in its parked object. *)
Definition registered (st : RelayState) (gid : nat) (g : Gen) : Prop :=
  ∃ p, parkeds st !! g_parked g = Some p ∧ map_get (g_req g) (p_sinks p) = Some gid.

(** Some session points to the generator's parked object. *)
Definition attached (st : RelayState) (g : Gen) : Prop :=
  ∃ id, map_get id (sessions st) = Some (g_parked g).

Record relay_inv (st : RelayState) : Prop := {
  ri_keys : NoDup (sessions st).*1;
  ri_fresh_parked : ∀ r, is_Some (parkeds st !! r) → (r < nextParked st)%nat;
  ri_fresh_gen : ∀ g, is_Some (gens st !! g) → (g < nextGen st)%nat;
  ri_session : ∀ id r, map_get id (sessions st) = Some r → is_Some (parkeds st !! r);
  ri_shared : ∀ id id' r, map_get id (sessions st) = Some r → map_get id' (sessions st) = Some r → id = id';
  (* a sink belongs to a generator that is not over *)
  ri_sink : ∀ r p req gid, parkeds st !! r = Some p → map_get req (p_sinks p) = Some gid →
    ∃ g, gens st !! gid = Some g ∧ g_parked g = r ∧ g_req g = req ∧ g_over g = false;
  ri_sinks : ∀ r p, parkeds st !! r = Some p → NoDup (p_sinks p).*1;
  ri_open : ∀ gid g, gens st !! gid = Some g → g_over g = false → registered st gid g;
  (* a generator that has no terminal event yet is within reach of a teardown *)
  ri_live : ∀ gid g, gens st !! gid = Some g → g_over g = false → g_done g = true ∨ attached st g;
}.

(** Generators changed only in their queues, and never from done to not done. *)
Definition gens_grow (m m' : gmap nat Gen) : Prop :=
  ∀ i, match m !! i, m' !! i with
       | Some g, Some g' => g_parked g' = g_parked g ∧ g_req g' = g_req g ∧ g_over g' = g_over g
                            ∧ (g_done g = true → g_done g' = true)
       | None, None => True
       | _, _ => False
       end.

#[export] Instance gens_grow_refl : Reflexive gens_grow.
Proof. intros m i. by destruct (m !! i). Qed.

#[export] Instance gens_grow_trans : Transitive gens_grow.
Proof.
  intros m1 m2 m3 H1 H2 i. specialize (H1 i). specialize (H2 i).
  destruct (m1 !! i), (m2 !! i), (m3 !! i); try done.
  destruct H1 as (? & ? & ? & ?), H2 as (? & ? & ? & ?). split_and!; [congruence..|auto].
Qed.

Lemma grow_alter f i m :
  (∀ g, g_parked (f g) = g_parked g ∧ g_req (f g) = g_req g ∧ g_over (f g) = g_over g
        ∧ (g_done g = true → g_done (f g) = true)) →
  gens_grow m (alter f i m).
Proof.
  intros Hf j. rewrite lookup_alter. case_decide; [subst|by destruct (m !! j)].
  destruct (m !! j); [apply Hf|done].
Qed.

Lemma grow_sink ev i m : gens_grow m (alter (sink ev) i m).
Proof. apply grow_alter. intros g. split_and!; try done. simpl. by intros ->. Qed.

Lemma relay_inv_grow st m : relay_inv st → gens_grow (gens st) m → relay_inv (with_gens m st).
Proof.
  intros Hi Hg. split; simpl; try apply Hi.
  - intros g [x Hx]. specialize (Hg g). rewrite Hx in Hg. destruct (gens st !! g) eqn:E; [|done].
    apply (ri_fresh_gen _ Hi). eauto.
  - intros r p req gid Hp Hs. destruct (ri_sink _ Hi _ _ _ _ Hp Hs) as (g & Hgs & H1 & H2 & H3).
    specialize (Hg gid). rewrite Hgs in Hg. destruct (m !! gid) as [g'|]; [|done].
    destruct Hg as (E1 & E2 & E3 & _). exists g'. split_and!; [done|congruence..].
  - intros gid g' Hg' Ho. specialize (Hg gid). rewrite Hg' in Hg. destruct (gens st !! gid) as [g|] eqn:E; [|done].
    destruct Hg as (E1 & E2 & E3 & _). rewrite E3 in Ho.
    destruct (ri_open _ Hi gid g E Ho) as (p & ? & ?). exists p. simpl. by rewrite E1, E2.
  - intros gid g' Hg' Ho. specialize (Hg gid). rewrite Hg' in Hg. destruct (gens st !! gid) as [g|] eqn:E; [|done].
    destruct Hg as (E1 & E2 & E3 & E4). rewrite E3 in Ho.
    destruct (ri_live _ Hi gid g E Ho) as [Hd|(id & Hid)]; [left; auto|right].
    exists id. simpl. by rewrite E1.
Qed.

Lemma inv_onFrame valid s f st : relay_inv st → relay_inv (onFrame valid s f st).1.
Proof.
  intros Hi. unfold onFrame. destruct (sandbox_of st s) as [id0|].
  - assert (Hdel : relay_inv (match r ← map_get id0 (sessions st); parkeds st !! r with
       | None => (st, []) | Some parked => match toExecEvent f with None => (st, []) | Some (reqId, ev) =>
         match map_get reqId (p_sinks parked) with Some gid => (deliver gid ev st, []) | None => (st, []) end end end
       : RelayState * list relay_effect).1).
    { destruct (r ← map_get id0 (sessions st); parkeds st !! r) as [p|]; [|done].
      destruct (toExecEvent f) as [[req ev]|]; [|done]. destruct (map_get req (p_sinks p)); [|done].
      apply relay_inv_grow; [done|]. apply grow_sink. }
    destruct f; exact Hdel.
  - destruct f as [id| | | |]; try done. destruct valid; [|done]. cbn [negb].
    destruct (map_has id (sessions st)) eqn:Hh; [done|]. cbn [fst].
    assert (Hni : id ∉ (sessions st).*1).
    { apply map_get_None. unfold map_has in Hh. by destruct (map_get id (sessions st)). }
    assert (Hfresh : ∀ r, is_Some (parkeds st !! r) → r ≠ nextParked st).
    { intros r Hr%(ri_fresh_parked _ Hi). lia. }
    split; simpl.
    + by apply map_set_NoDup, Hi.
    + intros r. rewrite lookup_insert_is_Some'. intros [<-|Hr%(ri_fresh_parked _ Hi)]; lia.
    + apply (ri_fresh_gen _ Hi).
    + intros id' r. rewrite map_get_set. case_decide; [intros [= <-]; rewrite lookup_insert_eq; eauto|].
      intros Hr%(ri_session _ Hi). by rewrite lookup_insert_ne by (intros <-; by apply (Hfresh (nextParked st))).
    + intros id1 id2 r. rewrite !map_get_set. repeat case_decide; subst; try done.
      * intros [= <-] H2%(ri_session _ Hi). by apply Hfresh in H2.
      * intros H1%(ri_session _ Hi) [= <-]. by apply Hfresh in H1.
      * apply (ri_shared _ Hi).
    + intros r p req gid. rewrite lookup_insert. case_decide; [by intros [= <-]|apply (ri_sink _ Hi)].
    + intros r p. rewrite lookup_insert. case_decide; [intros [= <-]; apply NoDup_nil_2|apply (ri_sinks _ Hi)].
    + intros gid g Hg Ho. destruct (ri_open _ Hi gid g Hg Ho) as (p & Hp & Hs). exists p. simpl.
      rewrite lookup_insert_ne; [done|]. intros E. by apply (Hfresh (g_parked g)); [eauto|].
    + intros gid g Hg Ho. destruct (ri_live _ Hi gid g Hg Ho) as [?|(id' & Hid)]; [by left|right].
      exists id'. simpl. rewrite map_get_set, decide_False; [done|]. intros ->.
      apply map_get_None in Hni. congruence.
Qed.

(** A teardown delivers to every sink of the parked object. *)
Lemma deliver_all_spec ev l st :
  let st' := foldl (fun q '(_, gid) => deliver gid ev q) st l in
  gens_grow (gens st) (gens st') ∧ st' = with_gens (gens st') st
  ∧ ∀ req gid g, (req, gid) ∈ (l : list (Z * nat)) → is_terminal ev = true → gens st' !! gid = Some g →
      g_done g = true.
Proof.
  revert st. induction l as [|[req gid] l IH]; intros st; cbn [foldl].
  - split_and!; [done|by destruct st|]. intros req gid g []%elem_of_nil.
  - destruct (IH (deliver gid ev st)) as (Hg & He & Hd). split_and!.
    + etrans; [|exact Hg]. apply grow_sink.
    + rewrite He at 1. done.
    + intros req' gid' g [[= -> ->]|Hin]%elem_of_cons Ht Hl; [|by eapply Hd].
      specialize (Hg gid). rewrite Hl in Hg. cbn [deliver with_gens gens] in Hg.
      rewrite lookup_alter_eq in Hg. destruct (gens st !! gid) as [g0|]; [|done].
      simpl in Hg. apply Hg. simpl. rewrite Ht. by destruct (g_done g0).
Qed.

(** A generator with one sink in the list gets the event exactly once. *)
Lemma deliver_once ev gid req l st g :
  NoDup (l : list (Z * nat)).*1 → map_get req l = Some gid → (∀ req', (req', gid) ∈ l → req' = req) →
  gens st !! gid = Some g →
  gens (foldl (fun q '(_, gid) => deliver gid ev q) st l) !! gid = Some (sink ev g).
Proof.
  revert st g. induction l as [|[r x] l IH]; intros st g Hn Hm Hu Hg; [done|]. cbn [foldl].
  apply NoDup_cons in Hn as [Hr Hn]. simpl in Hm. destruct (decide (req = r)) as [->|Hne].
  - injection Hm as ->.
    assert (Hout : ∀ y st, (∀ r', (r', y) ∉ l) →
      gens (foldl (fun q '(_, gid) => deliver gid ev q) st l) !! y = gens st !! y).
    { clear. induction l as [|[r' x'] l IH]; intros y st Hy; [done|]. cbn [foldl].
      rewrite IH by (intros r'' Hin; apply (Hy r''); by right). simpl. rewrite lookup_alter_ne; [done|].
      intros ->. apply (Hy r'). by left. }
    rewrite Hout.
    + simpl. by rewrite lookup_alter_eq, Hg.
    + intros r' Hin. assert (r' = r) as -> by (apply Hu; by right). apply Hr.
      apply list_elem_of_fmap. by exists (r, gid).
  - apply IH; [done|done|intros r' Hin; apply Hu; by right|].
    simpl. rewrite lookup_alter_ne; [done|]. intros ->. apply Hne. symmetry. apply Hu. by left.
Qed.

Lemma inv_teardown s st : relay_inv st → relay_inv (teardown s st).1.
Proof.
  intros Hi. unfold teardown. destruct (sandbox_of st s) as [id|]; [|done]. cbn [fst].
  set (st1 := match r ← map_get id (sessions st); parkeds st !! r with Some _ => _ | None => _ end).
  assert (H1 : gens_grow (gens st) (gens st1) ∧ st1 = with_gens (gens st1) st
    ∧ ∀ gid g, gens st1 !! gid = Some g → g_over g = false →
        map_get id (sessions st) = Some (g_parked g) → g_done g = true).
  { unfold st1. destruct (map_get id (sessions st)) as [r|] eqn:Es; cbn [mbind option_bind].
    2:{ split_and!; [done|by destruct st|done]. }
    destruct (parkeds st !! r) as [p|] eqn:Ep.
    2:{ apply (ri_session _ Hi) in Es as [? ?]. congruence. }
    destruct (deliver_all_spec DISCONNECTED (p_sinks p) st) as (Hg & He & Hd). split_and!; [done|done|].
    intros gid g Hgid Ho [= ->]. pose proof (Hg gid) as Hgi. rewrite Hgid in Hgi.
    destruct (gens st !! gid) as [g0|] eqn:E0; [|done]. destruct Hgi as (E1 & E2 & E3 & _).
    destruct (ri_open _ Hi gid g0 E0 ltac:(congruence)) as (p' & Hp' & Hs'). rewrite <-E1 in Hp'.
    rewrite Ep in Hp'. injection Hp' as <-. by eapply Hd; [apply map_get_Some_elem| |]. }
  destruct H1 as (Hg & He & Hdone).
  assert (Hi1 : relay_inv st1) by (rewrite He; by apply relay_inv_grow).
  assert (Hss : sessions st1 = sessions st) by (by rewrite He).
  split; simpl; try apply Hi1.
  - apply map_delete_NoDup, Hi1.
  - intros id' r. rewrite map_get_delete. case_decide; [done|]. apply (ri_session _ Hi1).
  - intros id1 id2 r. rewrite !map_get_delete. repeat case_decide; try done. apply (ri_shared _ Hi1).
  - intros gid g Hgid Ho. destruct (ri_live _ Hi1 gid g Hgid Ho) as [?|(id' & Hid')]; [by left|].
    destruct (decide (id' = id)) as [->|Hne].
    + left. eapply Hdone; [done|done|]. by rewrite <-Hss.
    + right. exists id'. simpl. by rewrite map_get_delete, decide_False.
Qed.

Lemma inv_routeExec id reqId st gid st' effs :
  relay_inv st → routeExec id reqId st = Ok (gid, st', effs) → relay_inv st'.
Proof.
  intros Hi. unfold routeExec. destruct (map_get id (sessions st)) as [r|] eqn:Es; [|done].
  destruct (parkeds st !! r) as [p|] eqn:Ep; [|done].
  destruct (map_has reqId (p_sinks p)) eqn:Eh; [done|]. intros [= <- <- <-].
  assert (Hni : map_get reqId (p_sinks p) = None)
    by (unfold map_has in Eh; by destruct (map_get reqId (p_sinks p))).
  assert (Hfg : ∀ g, is_Some (gens st !! g) → g ≠ nextGen st) by (intros g H%(ri_fresh_gen _ Hi); lia).
  split; simpl; try apply Hi.
  - intros r'. rewrite lookup_insert_is_Some'. intros [<-|H]; apply (ri_fresh_parked _ Hi); [by rewrite Ep|done].
  - intros g. rewrite lookup_insert_is_Some'. intros [<-|H%(ri_fresh_gen _ Hi)]; lia.
  - intros id' r' Hr'. rewrite lookup_insert_is_Some'. right. by apply (ri_session _ Hi id').
  - intros r' p' req g. rewrite lookup_insert. case_decide as Hr; [subst r'; intros [= <-]|].
    + simpl. rewrite map_get_set. case_decide; [subst req|].
      * intros [= <-]. rewrite lookup_insert_eq. by eexists.
      * intros Hg. destruct (ri_sink _ Hi _ _ _ _ Ep Hg) as (g' & Hg' & ?). exists g'.
        rewrite lookup_insert_ne; [done|]. intros <-. by apply (Hfg (nextGen st)).
    + intros Hp' Hg. destruct (ri_sink _ Hi _ _ _ _ Hp' Hg) as (g' & Hg' & ?). exists g'.
      rewrite lookup_insert_ne; [done|]. intros <-. by apply (Hfg (nextGen st)).
  - intros r' p'. rewrite lookup_insert. case_decide; [intros [= <-]; by apply map_set_NoDup, (ri_sinks _ Hi r)|].
    apply (ri_sinks _ Hi).
  - intros gid g. rewrite lookup_insert. case_decide; [subst; intros [= <-] _|].
    + exists (mkParked (p_stream p) (map_set reqId (nextGen st) (p_sinks p))). simpl.
      by rewrite lookup_insert_eq, map_get_set, decide_True.
    + intros Hg Ho. destruct (ri_open _ Hi gid g Hg Ho) as (p' & Hp' & Hs').
      destruct (decide (g_parked g = r)) as [Hr|Hr].
      * exists (mkParked (p_stream p) (map_set reqId (nextGen st) (p_sinks p))). simpl.
        rewrite Hr, lookup_insert_eq, map_get_set. split; [done|]. rewrite Hr, Ep in Hp'. injection Hp' as <-.
        rewrite decide_False; [done|]. intros E. rewrite E in Hs'. congruence.
      * exists p'. simpl. by rewrite lookup_insert_ne by done.
  - intros gid g. rewrite lookup_insert. case_decide; [subst; intros [= <-] _|].
    + right. by exists id.
    + intros Hg Ho. exact (ri_live _ Hi gid g Hg Ho).
Qed.

Lemma inv_finally gid g st :
  relay_inv st → gens st !! gid = Some g → g_over g = false → relay_inv (finally gid g st).
Proof.
  intros Hi Hg Ho. unfold finally. destruct (ri_open _ Hi gid g Hg Ho) as (p & Hp & Hs).
  split; simpl; try apply Hi.
  - intros r. rewrite lookup_alter_is_Some. apply (ri_fresh_parked _ Hi).
  - intros x. rewrite lookup_insert_is_Some'. intros [<-|H]; apply (ri_fresh_gen _ Hi); eauto.
  - intros id r Hr. rewrite lookup_alter_is_Some. by apply (ri_session _ Hi id).
  - intros r p' req x. rewrite lookup_alter. case_decide as Hr; [subst r; rewrite Hp; intros [= <-]|].
    + simpl. rewrite map_get_delete. case_decide as Hreq; [done|]. intros Hx.
      destruct (ri_sink _ Hi _ _ _ _ Hp Hx) as (g' & Hg' & H1 & H2 & H3). exists g'.
      rewrite lookup_insert_ne; [done|]. intros <-. congruence.
    + intros Hp' Hx. destruct (ri_sink _ Hi _ _ _ _ Hp' Hx) as (g' & Hg' & H1 & H2 & H3). exists g'.
      rewrite lookup_insert_ne; [done|]. intros <-. congruence.
  - intros r p'. rewrite lookup_alter. case_decide as Hr; [subst r; rewrite Hp; intros [= <-]|].
    + by apply map_delete_NoDup, (ri_sinks _ Hi (g_parked g)).
    + apply (ri_sinks _ Hi).
  - intros x g'. rewrite lookup_insert. case_decide as Hx; [subst; by intros [= <-]|]. intros Hg' Ho'.
    destruct (ri_open _ Hi x g' Hg' Ho') as (p' & Hp' & Hs'). unfold registered. simpl. rewrite lookup_alter.
    case_decide as Hr; [|by exists p']. rewrite Hr, Hp in *. injection Hp' as <-. simpl.
    eexists. split; [done|]. simpl. rewrite map_get_delete, decide_False; [done|].
    intros E. rewrite E in Hs'. congruence.
  - intros x g'. rewrite lookup_insert. case_decide as Hx; [subst; by intros [= <-]|]. intros Hg' Ho'.
    exact (ri_live _ Hi x g' Hg' Ho').
Qed.

Lemma relay_step_inv st st' : relay_inv st → relay_step st st' → relay_inv st'.
Proof.
  intros Hi Hstep. destruct Hstep as [valid s f st|s st|id req st gid st' effs H|gid st p st' H|gid st].
  - by apply inv_onFrame.
  - by apply inv_teardown.
  - by eapply inv_routeExec.
  - unfold pull in H. destruct (gens st !! gid) as [g|] eqn:Hg; [|done].
    destruct (g_over g) eqn:Ho; [by simplify_eq|].
    destruct (g_final g); [simplify_eq; by apply inv_finally|].
    destruct (g_queue g) as [|ev q].
    + destruct (g_done g); simplify_eq; [by apply inv_finally|done].
    + simplify_eq. apply relay_inv_grow; [done|]. intros i. rewrite lookup_insert.
      case_decide; [subst; by rewrite Hg|by destruct (gens st !! i)].
  - unfold cancel. destruct (gens st !! gid) as [g|] eqn:Hg; [|done].
    destruct (g_over g) eqn:Ho; [done|]. by apply inv_finally.
Qed.

Lemma relay_reach_inv st : relay_reach st → relay_inv st.
Proof.
  revert st. apply (rtc_ind_r relay_inv relay_init); [|intros y z _ Hstep Hy; by eapply relay_step_inv].
  split; simpl; try done; try (intros ? [? ?]; done). apply NoDup_nil_2.
Qed.

(** The loss of a worker's stream reaches every exec that waits on it, once. *)
Lemma teardown_delivers s st gid g id p :
  relay_inv st → gens st !! gid = Some g → map_get id (sessions st) = Some (g_parked g) →
  parkeds st !! g_parked g = Some p → map_get (g_req g) (p_sinks p) = Some gid → sandbox_of st s = Some id →
  gens (teardown s st).1 !! gid = Some (sink DISCONNECTED g).
Proof.
  intros Hr Hg Hid Hpk Hs Hsb. unfold teardown. rewrite Hsb, Hid. cbn [mbind option_bind fst with_sessions gens].
  rewrite Hpk. rewrite (deliver_once DISCONNECTED gid (g_req g) (p_sinks p) st g); [done| |done| |done].
  - by apply (ri_sinks _ Hr (g_parked g)).
  - intros req Hin%map_get_elem; [|by apply (ri_sinks _ Hr (g_parked g))].
    destruct (ri_sink _ Hr _ _ _ _ Hpk Hin) as (g' & Hg' & _ & <- & _). congruence.
Qed.

(** ** Properties *)

(** No exec waits on a worker that is gone: in every reachable state, if pulling
    an exec would wait, then its worker's session is still parked with the
    exec's own sink in it, and any stream whose teardown removes that session leaves the
    exec with a terminal event, so that it no longer waits. *)
Theorem relay_no_orphan st gid g st' :
  relay_reach st → gens st !! gid = Some g → pull gid st = Some (Wait, st') →
  ∃ id p, map_get id (sessions st) = Some (g_parked g) ∧ parkeds st !! g_parked g = Some p
  ∧ map_get (g_req g) (p_sinks p) = Some gid
  ∧ ∀ s, sandbox_of st s = Some id →
      ∃ ev q st'', pull gid (teardown s st).1 = Some (Yield ev, st'') ∧ is_terminal ev = true
      ∧ gens st'' !! gid = Some (mkGen (g_parked g) (g_req g) q true true false).
Proof.
  intros Hr%relay_reach_inv Hg Hp. unfold pull in Hp. rewrite Hg in Hp.
  destruct (g_over g) eqn:Ho; [done|]. destruct (g_final g) eqn:Hf; [done|].
  destruct (g_queue g) eqn:Hq; [|done]. destruct (g_done g) eqn:Hd; [done|].
  destruct (ri_open _ Hr gid g Hg Ho) as (p & Hpk & Hs).
  destruct (ri_live _ Hr gid g Hg Ho) as [?|(id & Hid)]; [congruence|].
  exists id, p. split_and!; [done..|]. intros s Hsb.
  pose proof (teardown_delivers s st gid g id p Hr Hg Hid Hpk Hs Hsb) as Hone.
  unfold sink in Hone. rewrite Hq, Hd, Hf, Ho in Hone.
  unfold pull. rewrite Hone. cbn. eexists _, _, _. split; [done|]. split; [done|].
  simpl. by rewrite lookup_insert_eq.
Qed.

(** A worker attaches and an exec is routed to it; nothing has come back yet. *)
Definition relay1 : RelayState := (onFrame true 0 (Hello "sbx") relay_init).1.
Definition relay2 : RelayState :=
  match routeExec "sbx" 7 relay1 with Ok (_, st, _) => st | Throw _ => relay1 end.

Lemma relay2_reach : relay_reach relay2.
Proof.
  apply (rtc_l _ _ relay1); [apply relay_frame|]. apply rtc_once.
  apply (relay_route "sbx" 7 relay1 0 relay2 [WriteExec 0 7]). vm_compute. reflexivity.
Defined.

Lemma relay_no_orphan_witness :
  ∃ ev st'', pull 0 (teardown 0 relay2).1 = Some (Yield ev, st'') ∧ is_terminal ev = true.
Proof.
  destruct (relay_no_orphan relay2 0 (mkGen 0 7 [] false false false) relay2 relay2_reach)
    as (id & p & Hid & _ & _ & H); [vm_compute; reflexivity|vm_compute; reflexivity|].
  destruct (H 0%nat) as (ev & q & st'' & Hp & Ht & _).
  - change (sandbox_of relay2 0) with (Some "sbx"). change (sessions relay2) with [("sbx", 0%nat)] in Hid.
    simpl in Hid. case_decide; [by subst|done].
  - by exists ev, st''.
Defined.

(** Execs do not mix: a second exec with a request id that is in flight on the
    same worker is refused and changes nothing; otherwise the frames of one
    request reach only the exec that registered it. *)
Theorem relay_no_crosstalk st s id r p f reqId ev gid :
  relay_reach st → sandbox_of st s = Some id → map_get id (sessions st) = Some r →
  parkeds st !! r = Some p → toExecEvent f = Some (reqId, ev) → map_get reqId (p_sinks p) = Some gid →
  routeExec id reqId st = Throw (ReqIdInFlight reqId id)
  ∧ (∀ valid other, other ≠ gid → gens (onFrame valid s f st).1 !! other = gens st !! other)
  ∧ ∀ valid, ∃ g, gens st !! gid = Some g ∧ g_req g = reqId
      ∧ gens (onFrame valid s f st).1 !! gid = Some (sink ev g).
Proof.
  intros Hr%relay_reach_inv Hs Hid Hp Hf Hg.
  assert (Hon : ∀ valid, (onFrame valid s f st).1 = deliver gid ev st).
  { intros valid. unfold onFrame. rewrite Hs, Hid. cbn [mbind option_bind]. rewrite Hp.
    destruct f; try done; by rewrite Hf, Hg. }
  destruct (ri_sink _ Hr _ _ _ _ Hp Hg) as (g & Hgg & _ & Hreq & _). split_and!.
  - unfold routeExec. rewrite Hid, Hp. unfold map_has. by rewrite Hg.
  - intros valid other Hne. rewrite Hon. simpl. by rewrite lookup_alter_ne.
  - intros valid. exists g. rewrite Hon. simpl. by rewrite lookup_alter_eq, Hgg.
Qed.

Lemma relay_no_crosstalk_witness : routeExec "sbx" 7 relay2 = Throw (ReqIdInFlight 7 "sbx").
Proof.
  apply (relay_no_crosstalk relay2 0 "sbx" 0 (mkParked 0 [(7, 0%nat)]) (WEnd 7 0) 7 (EEnd 0) 0 relay2_reach);
    vm_compute; reflexivity.
Defined.

(** A teardown is not tied to the session it belongs to: if a stream reports both
    ['error'] and ['end'] and its worker re-attaches in between, the second report
    evicts the live worker. *)
Lemma second_teardown_evicts_successor :
  let st1 := (teardown 0 relay1).1 in
  let st2 := (onFrame true 1 (Hello "sbx") st1).1 in
  map_get "sbx" (sessions st2) = Some 1%nat
  ∧ map_get "sbx" (sessions (teardown 0 st2).1) = None
  ∧ routeExec "sbx" 8 (teardown 0 st2).1 = Throw (NoLiveWorker "sbx").
Proof. by vm_compute. Qed.
