(* ===== verification/Lease.v ===== *)
(** * Sandbox leases

    Models [harness/src/sandbox-lease.ts] (the lease store over a Redis sorted set),
    [harness/src/lease-timings.ts] (its knobs) and the memoised store of
    [harness/src/select-sandbox.ts] ([leaseStore], [recordsStore], [sharedLease],
    [guard], [dropMemo], [resetSharedStores]).

    Redis is not part of the program.  The class [RedisZSet] states what the lease
    store relies on: the documented effect of each sorted-set command on one key.
    An instance over finite maps shows the class has a model.  The Lua
    script runs atomically on the server, so [acquire] is one step. *)

From Stdlib Require Import QArith.
From S2P Require Import Prelude JsNumber.

Local Open Scope Z_scope.

(** ** What Redis promises *)

Class RedisZSet (R : Type) := {
  zset : R → string → gmap string Z;                     (* members and scores of a key *)
  zRemRangeByScore : string → Z → R → R;                 (* from -inf *)
  zCard : string → R → nat;
  zAdd : string → string → Z → R → R;
  zRem : string → string → R → R;
  zset_remRange : ∀ k hi r, zset (zRemRangeByScore k hi r) k = filter (fun ms => hi < ms.2) (zset r k);
  zset_add : ∀ k m s r, zset (zAdd k m s r) k = <[m := s]> (zset r k);
  zset_rem : ∀ k m r, zset (zRem k m r) k = delete m (zset r k);
  zcard_size : ∀ k r, zCard k r = size (zset r k);
  zset_other : ∀ k k' r, k ≠ k' →
    (∀ hi, zset (zRemRangeByScore k hi r) k' = zset r k')
    ∧ (∀ m s, zset (zAdd k m s r) k' = zset r k')
    ∧ (∀ m, zset (zRem k m r) k' = zset r k');
}.

(** A model of it: a function from keys to finite maps. *)
Definition MapRedis : Type := string → gmap string Z.

Definition upd_key (k : string) (f : gmap string Z → gmap string Z) (r : MapRedis) : MapRedis :=
  fun k' => if decide (k = k') then f (r k') else r k'.

#[export] Program Instance map_redis : RedisZSet MapRedis := {
  zset r k := r k;
  zRemRangeByScore k hi := upd_key k (filter (fun ms => hi < ms.2));
  zCard k r := size (r k);
  zAdd k m s := upd_key k (insert m s);
  zRem k m := upd_key k (delete m);
}.
Next Obligation. intros. unfold upd_key. by rewrite decide_True. Qed.
Next Obligation. intros. unfold upd_key. by rewrite decide_True. Qed.
Next Obligation. intros. unfold upd_key. by rewrite decide_True. Qed.
Next Obligation. done. Qed.
Next Obligation. intros. unfold upd_key. split_and!; intros; by rewrite decide_False. Qed.

(** ** The lease store *)

Definition leaseKey (pod : string) : string := "sh:sandbox:" +:+ pod +:+ ":leases".

(** [activeCount(members, now)] *)
Definition activeCount (members : list (string * Z)) (now : Z) : nat :=
  length (filter (fun m => now < m.2) members).

Section Store.
  Context `{RedisZSet R}.

(** [load] at time [now]. *)
Definition load (now : Z) (pod : string) (r : R) : nat * R :=
  let r1 := zRemRangeByScore (leaseKey pod) now r in (zCard (leaseKey pod) r1, r1).

(** The Lua script, with its arguments. *)
Definition acquire_lua (key : string) (now cap : Z) (holder : string) (expiry : Z) (r : R) : bool * R :=
  let r1 := zRemRangeByScore key now r in
  if Z.of_nat (zCard key r1) <? cap then (true, zAdd key holder expiry r1) else (false, r1).

Definition acquire (now : Z) (pod : string) (cap : Z) (holder : string) (ttlMs : Z) (r : R) : bool * R :=
  acquire_lua (leaseKey pod) now cap holder (now + ttlMs) r.

Definition heartbeat (now : Z) (pod holder : string) (ttlMs : Z) (r : R) : R :=
  zAdd (leaseKey pod) holder (now + ttlMs) r.

Definition release (pod holder : string) (r : R) : R := zRem (leaseKey pod) holder r.

(** Leases on a pod that have not expired at [now]. *)
Definition active (now : Z) (pod : string) (r : R) : gmap string Z :=
  filter (fun ms => now < ms.2) (zset r (leaseKey pod)).

(** ** Concurrent use of one pod's leases

    Any number of holders call the store; the clock only moves forward.  A
    heartbeat of a lease that is still in the set is [prompt]; a later one puts the
    member back without asking for capacity. *)
Inductive lease_step (pod : string) (cap : Z) : Z * R → Z * R → Prop :=
| ls_time t t' r : t ≤ t' → lease_step pod cap (t, r) (t', r)
| ls_load t r : lease_step pod cap (t, r) (t, (load t pod r).2)
| ls_acquire t holder ttl r :
    lease_step pod cap (t, r) (t, (acquire t pod cap holder ttl r).2)
| ls_heartbeat t holder ttl r :
    is_Some (zset r (leaseKey pod) !! holder) →
    lease_step pod cap (t, r) (t, heartbeat t pod holder ttl r)
| ls_release t holder r : lease_step pod cap (t, r) (t, release pod holder r)
| ls_other_pod t r r' : zset r' (leaseKey pod) = zset r (leaseKey pod) → lease_step pod cap (t, r) (t, r').

(** ** Lemmas *)

Lemma zset_load now pod r : zset (load now pod r).2 (leaseKey pod) = active now pod r.
Proof. unfold load, active. simpl. by rewrite zset_remRange. Qed.

Lemma load_count now pod r : (load now pod r).1 = size (active now pod r).
Proof. unfold load, active. simpl. by rewrite zcard_size, zset_remRange. Qed.

Lemma acquire_spec now pod cap holder ttl r :
  let '(ok, r') := acquire now pod cap holder ttl r in
  zset r' (leaseKey pod) = (if ok then <[holder := now + ttl]> (active now pod r) else active now pod r)
  ∧ (ok = true ↔ Z.of_nat (size (active now pod r)) < cap).
Proof.
  unfold acquire, acquire_lua, active. rewrite zcard_size, zset_remRange.
  destruct (Z.ltb_spec (Z.of_nat (size (filter (fun ms => now < ms.2) (zset r (leaseKey pod))))) cap).
  - rewrite zset_add, zset_remRange. done.
  - rewrite zset_remRange. split; [done|]. split; [done|lia].
Qed.

Lemma size_insert_le (m : gmap string Z) k v : (size (<[k := v]> m) ≤ S (size m))%nat.
Proof.
  destruct (m !! k) eqn:E; [rewrite map_size_insert_Some by eauto; lia|].
  by rewrite map_size_insert_None.
Qed.

Lemma size_filter_le (P : string * Z → Prop) `{∀ x, Decision (P x)} (m : gmap string Z) :
  (size (filter P m) ≤ size m)%nat.
Proof.
  rewrite <-!size_dom. apply subseteq_size, dom_filter_subseteq.
Qed.

Lemma lease_step_cap pod cap s s' :
  0 ≤ cap → Z.of_nat (size (zset s.2 (leaseKey pod))) ≤ cap → lease_step pod cap s s' →
  Z.of_nat (size (zset s'.2 (leaseKey pod))) ≤ cap.
Proof.
  intros Hcap Hs Hstep. destruct Hstep as [t t' r Ht|t r|t h ttl r|t h ttl r Hh|t h r|t r r' He]; cbn [snd] in *.
  - done.
  - rewrite zset_load. pose proof (size_filter_le (fun ms => t < ms.2) (zset r (leaseKey pod))).
    unfold active. lia.
  - pose proof (acquire_spec t pod cap h ttl r) as Ha. destruct (acquire t pod cap h ttl r) as [ok r'].
    cbn [snd]. destruct Ha as [-> Hok]. destruct ok.
    + pose proof (size_insert_le (active t pod r) h (t + ttl)). destruct Hok as [Hok _]. specialize (Hok eq_refl). lia.
    + pose proof (size_filter_le (fun ms => t < ms.2) (zset r (leaseKey pod))). unfold active. lia.
  - unfold heartbeat. rewrite zset_add. destruct Hh as [v Hv]. rewrite map_size_insert_Some by eauto. done.
  - unfold release. rewrite zset_rem. pose proof (map_size_delete h (zset r (leaseKey pod))) as Hd.
    rewrite Hd. destruct (zset r (leaseKey pod) !! h); unfold id; lia.
  - by rewrite He.
Qed.
End Store.

(** ** The knobs *)

Definition floorQ (q : Q) : Z := Qnum q / Zpos (Qden q).

Definition intEnv (env : string → option string) (name : string) (def min : Z) : Z :=
  match env name with
  | None => def
  | Some raw =>
      match trim (bytes_of raw) with
      | [] => def
      | _ =>
          match Number (bytes_of raw) with
          | Fin q => if Qle_bool (inject_Z min) q then floorQ q else def
          | _ => def
          end
      end
  end.

Record LeaseTimings := mkTimings {
  lt_cap : Z;
  lt_ttlMs : Z;
  lt_heartbeatMs : Z;
}.

Definition leaseTimings (env : string → option string) : LeaseTimings :=
  let cap := intEnv env "KAGENTI_SANDBOX_CAP" 20 1 in
  let ttlMs := intEnv env "KAGENTI_SANDBOX_LEASE_TTL_MS" 60000 1000 in
  let requested := intEnv env "KAGENTI_SANDBOX_HEARTBEAT_MS" 20000 1 in
  mkTimings cap ttlMs (Z.max 1 (Z.min requested (ttlMs / 3))).

Lemma floorQ_ge min q : Qle_bool (inject_Z min) q = true → min ≤ floorQ q.
Proof.
  rewrite Qle_bool_iff. unfold Qle, floorQ, inject_Z. simpl. intros H.
  apply Z.div_le_lower_bound; lia.
Qed.

Lemma intEnv_min env name def min : min ≤ def → min ≤ intEnv env name def min.
Proof.
  intros Hd. unfold intEnv. destruct (env name) as [raw|]; [|done]. destruct (trim _); [done|].
  destruct (Number _) as [q| | |]; try done. destruct (Qle_bool _ _) eqn:E; [by apply floorQ_ge|done].
Qed.

(** ** The memoised store

    [built] counts the clients created so far, which are numbered; [closed] are
    those [close] was called on.  A command is issued on a store and may reject at any
    later time. *)

Record Memo := mkMemo {
  memo : option (option string * nat);          (* url and store *)
  built : nat;
  closed : list nat;
}.

Definition memo_init : Memo := mkMemo None 0 [].

(** [leaseStore(url)] and [recordsStore(url)]. *)
Definition theStore (url : option string) (m : Memo) : nat * Memo :=
  match memo m with
  | Some (url', s) =>
      if decide (url' = url) then (s, m)
      else (built m, mkMemo (Some (url, built m)) (S (built m)) (s :: closed m))
  | None => (built m, mkMemo (Some (url, built m)) (S (built m)) (closed m))
  end.

(** [dropMemo] of store [s], when a command on it rejected. *)
Definition dropMemo (s : nat) (m : Memo) : Memo :=
  match memo m with
  | Some (_, s') => if decide (s' = s) then mkMemo None (built m) (s :: closed m) else m
  | None => m
  end.

Definition resetSharedStores (m : Memo) : Memo :=
  match memo m with
  | Some (_, s) => mkMemo None (built m) (s :: closed m)
  | None => m
  end.

(** A command is issued; a command issued earlier on [s] rejects; a reset. *)
Inductive memo_step : Memo → Memo → Prop :=
| ms_call url m : memo_step m (theStore url m).2
| ms_reject s m : memo_step m (dropMemo s m)
| ms_reset m : memo_step m (resetSharedStores m).

(** Every client but the memoised one is closed, and closed once. *)
Definition memo_ok (m : Memo) : Prop :=
  match memo m with Some (_, s) => [s] | None => [] end ++ closed m ≡ₚ seq 0 (built m).

Lemma memo_step_ok m m' : memo_ok m → memo_step m m' → memo_ok m'.
Proof.
  unfold memo_ok. intros Hm Hstep. destruct Hstep as [url m|s m|m].
  - unfold theStore. destruct (memo m) as [[u s]|] eqn:E.
    + case_decide; cbn [snd memo closed built]; [rewrite E; exact Hm|].
      rewrite seq_S, <-Hm. simpl. apply (Permutation_cons_append (s :: closed m)).
    + cbn [snd memo closed built]. rewrite seq_S, <-Hm. simpl. apply Permutation_cons_append.
  - unfold dropMemo. destruct (memo m) as [[u s']|] eqn:E; [|by rewrite E].
    case_decide; [subst; exact Hm|by rewrite E].
  - unfold resetSharedStores. destruct (memo m) as [[u s']|] eqn:E; [exact Hm|by rewrite E].
Qed.

(** ** Properties *)

(** C9. The soft cap holds under concurrency: any number of holders may
    acquire, renew, release and inspect one pod's leases in any interleaving; as
    long as a holder only renews a lease that is still in the set, the number of
    leases never exceeds the cap. *)
Theorem lease_cap_respected `{RedisZSet R} pod cap (s s' : Z * R) :
  0 ≤ cap → Z.of_nat (size (zset s.2 (leaseKey pod))) ≤ cap → rtc (lease_step pod cap) s s' →
  Z.of_nat (size (active s'.1 pod s'.2)) ≤ cap.
Proof.
  intros Hcap Hs Hsteps.
  assert (Hs' : Z.of_nat (size (zset s'.2 (leaseKey pod))) ≤ cap).
  { induction Hsteps as [|s1 s2 s3 Hstep _ IH]; [done|]. by apply IH, (lease_step_cap pod cap s1). }
  pose proof (size_filter_le (fun ms => s'.1 < ms.2) (zset s'.2 (leaseKey pod))). unfold active. lia.
Qed.

Definition empty_redis : MapRedis := fun _ => ∅.
Definition redis_a : MapRedis := (acquire 0 "pod" 1 "a" 100 empty_redis).2.

Lemma lease_cap_respected_witness :
  Z.of_nat (size (active 10 "pod" (acquire 10 "pod" 1 "b" 100 redis_a).2)) ≤ 1.
Proof.
  apply (lease_cap_respected "pod" 1 (0, empty_redis) (10, (acquire 10 "pod" 1 "b" 100 redis_a).2)).
  - lia.
  - vm_compute. discriminate.
  - eapply rtc_l; [apply (ls_acquire "pod" 1 0 "a" 100 empty_redis)|].
    eapply rtc_l; [apply (ls_time "pod" 1 0 10); lia|]. apply rtc_once, ls_acquire.
Defined.

(** The condition on renewals matters: a holder whose first renewal comes after its lease
    expired (a leaf arms its timer only after the workspace is converged, which may take 300
    s, with a lease of 60 s) puts its lease back over the one given out meanwhile. *)
Lemma late_heartbeat_exceeds_cap :
  let ttl := 60000 in
  let r1 := (acquire 0 "pod" 1 "slow" ttl empty_redis).2 in
  let '(granted, r2) := acquire 60000 "pod" 1 "other" ttl r1 in
  granted = true ∧ size (active 60001 "pod" (heartbeat 60001 "pod" "slow" ttl r2)) = 2%nat.
Proof. vm_compute. done. Qed.

(** Acquire is exact: it succeeds precisely when fewer than [cap] unexpired
    leases exist (so a crashed holder's lease is reclaimed once it expires), and
    then the holder holds a lease until [now + ttl] and no other holder's lease
    changed; when it fails, no unexpired lease changed.  Other pods are untouched. *)
Theorem acquire_exact `{RedisZSet R} now pod cap holder ttl (r : R) :
  let '(ok, r') := acquire now pod cap holder ttl r in
  (ok = true ↔ Z.of_nat (size (active now pod r)) < cap)
  ∧ (ok = true → zset r' (leaseKey pod) !! holder = Some (now + ttl))
  ∧ (∀ h, h ≠ holder ∨ ok = false → zset r' (leaseKey pod) !! h = active now pod r !! h)
  ∧ (∀ pod', leaseKey pod ≠ leaseKey pod' → zset r' (leaseKey pod') = zset r (leaseKey pod')).
Proof.
  pose proof (acquire_spec now pod cap holder ttl r) as Ha.
  assert (Hother : ∀ pod', leaseKey pod ≠ leaseKey pod' →
    zset (acquire now pod cap holder ttl r).2 (leaseKey pod') = zset r (leaseKey pod')).
  { intros pod' Hne. unfold acquire, acquire_lua. destruct (_ <? _); cbn [snd].
    - rewrite (proj1 (proj2 (zset_other (leaseKey pod) (leaseKey pod') _ Hne))).
      by rewrite (proj1 (zset_other (leaseKey pod) (leaseKey pod') _ Hne)).
    - by rewrite (proj1 (zset_other (leaseKey pod) (leaseKey pod') _ Hne)). }
  destruct (acquire now pod cap holder ttl r) as [ok r']. destruct Ha as [Hz Hok]. rewrite Hz.
  split_and!; [done| | |done].
  - intros ->. by rewrite lookup_insert_eq.
  - intros h [Hh| ->]; [|done]. destruct ok; [by rewrite lookup_insert_ne|done].
Qed.

(** Whatever the environment holds, the lease knobs are usable: the cap is
    at least 1, the TTL at least one second, and the renewal interval is positive and
    fits at least three times into the TTL, so a lease cannot expire before its
    first renewal by configuration. *)
Theorem leaseTimings_consistent env :
  let t := leaseTimings env in
  1 ≤ lt_cap t ∧ 1000 ≤ lt_ttlMs t ∧ 1 ≤ lt_heartbeatMs t ∧ 3 * lt_heartbeatMs t ≤ lt_ttlMs t.
Proof.
  unfold leaseTimings. cbn [lt_cap lt_ttlMs lt_heartbeatMs].
  pose proof (intEnv_min env "KAGENTI_SANDBOX_CAP" 20 1 ltac:(lia)).
  pose proof (intEnv_min env "KAGENTI_SANDBOX_LEASE_TTL_MS" 60000 1000 ltac:(lia)) as Ht.
  set (ttl := intEnv env "KAGENTI_SANDBOX_LEASE_TTL_MS" 60000 1000) in *.
  pose proof (Z.mul_div_le ttl 3). assert (333 ≤ ttl / 3) by (apply Z.div_le_lower_bound; lia). lia.
Qed.

(** No Redis connection is orphaned: over any interleaving of commands, changes
    of the URL, resets and late rejections (also of commands on stores that
    were replaced meanwhile), every client ever built is the memoised one or has been
    closed, exactly once; a healthy replacement is never the one dropped. *)
Theorem shared_store_no_orphan m :
  rtc memo_step memo_init m →
  match memo m with Some (_, s) => [s] | None => [] end ++ closed m ≡ₚ seq 0 (built m)
  ∧ ∀ s u s', memo m = Some (u, s') → s ≠ s' → memo (dropMemo s m) = memo m.
Proof.
  intros Hr. split.
  - fold (memo_ok m). revert m Hr. apply (rtc_ind_r memo_ok memo_init); [by unfold memo_ok|].
    intros y z _ Hstep Hy. by eapply memo_step_ok.
  - intros s u s' Hm Hne. unfold dropMemo. rewrite Hm. by rewrite decide_False by done.
Qed.

Lemma shared_store_no_orphan_witness :
  let m := dropMemo 0 (theStore (Some "b") (theStore (Some "a") memo_init).2).2 in
  memo m = Some (Some "b", 1%nat) ∧ [1%nat] ++ closed m ≡ₚ seq 0 2.
Proof.
  intros m. split; [reflexivity|]. apply (shared_store_no_orphan m).
  eapply rtc_l; [apply (ms_call (Some "a"))|]. eapply rtc_l; [apply (ms_call (Some "b"))|].
  apply rtc_once, ms_reject.
Defined.
