(* ===== verification/SelectSandbox.v ===== *)
(** * Choosing a sandbox

    Models [harness/src/select-sandbox.ts] from [orderByLoad] to
    [selectPoolSandbox], with the single-pod resolution of
    [packages/k8s-sandbox/src/resolve-pod.ts] and the pod listing of
    [packages/k8s-sandbox/src/pool.ts].

    [kubectl], the record store's listing and the transport constructor are
    parameters: what they answer is an argument.  Other processes use the same lease
    store while a selection runs, so between two acquires an arbitrary change
    [others] of the store happens. *)

From S2P Require Import Prelude Operations Lease.

Local Open Scope Z_scope.

(** ** Ordering *)

(** [a.active - b.active || a.i - b.i], as "a may come before b". *)
Definition load_le (a b : nat * nat * string) : Prop :=
  (a.1.1 < b.1.1 ∨ a.1.1 = b.1.1 ∧ a.1.2 ≤ b.1.2)%nat.

#[export] Instance load_le_dec a b : Decision (load_le a b).
Proof. unfold load_le. apply _. Defined.

#[export] Instance load_le_trans : Transitive load_le.
Proof. intros [[a i] p] [[b j] q] [[c k] r]. unfold load_le. simpl. lia. Qed.

#[export] Instance load_le_total : Total load_le.
Proof. intros [[a i] p] [[b j] q]. unfold load_le. simpl. lia. Qed.

Definition indexed (loads : list (string * nat)) : list (nat * nat * string) :=
  imap (fun i l => (l.2, i, l.1)) loads.

Definition orderByLoad (loads : list (string * nat)) : list string :=
  snd <$> merge_sort load_le (indexed loads).

(** ** Discovery *)

Inductive DiscoverySource := pods | records | both.

#[export] Instance DiscoverySource_eq_dec : EqDecision DiscoverySource.
Proof. solve_decision. Defined.

Inductive select_error :=
| BadDiscovery (raw : bytes)
| RecordsNeedRemote
| PoolEmpty (selector : bytes) (source : DiscoverySource)
| PoolSaturated (selector : bytes)
| NoSelector (name : bytes)
| NoRunningPod (selector : bytes)
| External (msg : string).

Definition Env : Type := string → option bytes.

Definition resolveDiscoverySource (env : Env) (remoteSandbox : bool) : result select_error DiscoverySource :=
  match trim (default [] (env "SH_SANDBOX_DISCOVERY")) with
  | [] => Ok both
  | raw =>
      if decide (raw = bytes_of "pods") then Ok pods
      else if decide (raw = bytes_of "both") then Ok both
      else if decide (raw = bytes_of "records") then
        require remoteSandbox else RecordsNeedRemote; Ok records
      else Throw (BadDiscovery raw)
  end.

(** [parsePodNames] *)
Definition parsePodNames (stdout : bytes) : list bytes :=
  filter (fun s => s ≠ []) (trim <$> split_on [NEWLINE] stdout).

Definition env_context (env : Env) : option bytes :=
  match env "KAGENTI_SANDBOX_CONTEXT" with Some [] => None | c => c end.

Definition context_flag (context : option bytes) : list bytes :=
  match context with Some (c :: s) => [bytes_of "--context"; c :: s] | _ => [] end.

Definition buildSelectorArgs (name namespace : bytes) (context : option bytes) : list bytes :=
  [bytes_of "get"; bytes_of "sandbox"; name; bytes_of "-n"; namespace] ++ context_flag context
  ++ [bytes_of "-o"; bytes_of "jsonpath={.status.selector}"].

Definition buildPodNameArgs (selector namespace : bytes) (context : option bytes) : list bytes :=
  [bytes_of "get"; bytes_of "pod"; bytes_of "-n"; namespace; bytes_of "-l"; selector;
   bytes_of "--field-selector=status.phase=Running"] ++ context_flag context
  ++ [bytes_of "-o"; bytes_of "jsonpath={.items[0].metadata.name}"].

Definition buildPoolPodsArgs (selector namespace : bytes) (context : option bytes) : list bytes :=
  [bytes_of "get"; bytes_of "pod"; bytes_of "-n"; namespace; bytes_of "-l"; selector;
   bytes_of "--field-selector=status.phase=Running"] ++ context_flag context
  ++ [bytes_of "-o"; bytes_of "jsonpath={range .items[*]}{.metadata.name}{'\n'}{end}"].

Section Select.
  Context `{RedisZSet R} {T : Type}.
  (** [kubectl]: arguments to stdout; the mirrored presence records' ids; the
      transport built for a leased record and a workspace key. *)
  Variable runKubectl : list bytes → result select_error bytes.
  Variable recordIds : result select_error (list bytes).
  Variable makeTransport : bytes → bytes → result select_error T.
  (** Clocks of the loads and of the acquires, and what other processes do to the
      store before the [i]-th acquire. *)
  Variable loadClock acquireClock : nat → Z.
  Variable others : nat → R → R.

Definition resolveSandboxConfig (env : Env) (headCwd : bytes) :
    result select_error (option K8sSandboxConfig) :=
  match resolveConfig env headCwd with
  | Some c => Ok (Some c)
  | None =>
      match env "KAGENTI_SANDBOX_NAME" with
      | None | Some [] => Ok None
      | Some name =>
          let namespace := default (bytes_of "default") (env "KAGENTI_SANDBOX_NAMESPACE") in
          let context := env_context env in
          try out <- runKubectl (buildSelectorArgs name namespace context);
          match trim out with
          | [] => Throw (NoSelector name)
          | selector =>
              try out2 <- runKubectl (buildPodNameArgs selector namespace context);
              match trim out2 with
              | [] => Throw (NoRunningPod selector)
              | pod => Ok (Some (mkSandboxConfig pod namespace context
                                   (default (bytes_of "/workspace") (env "KAGENTI_SANDBOX_CWD")) headCwd))
              end
          end
      end
  end.

Record SelectedSandbox := mkSelected {
  sel_config : K8sSandboxConfig;
  sel_transport : option T;
  sel_leased : bool;
}.

Record SelectOpts := mkSelectOpts {
  o_cap : Z;
  o_ttlMs : Z;
  o_remoteSandbox : bool;
  o_holderId : option string;
}.

Definition lease_name (pod : bytes) : string := string_of pod.

(** The loads of the candidates; each sweeps its pod's expired leases. *)
Fixpoint candidate_loads (i : nat) (names : list bytes) (r : R) : list (string * nat) * R :=
  match names with
  | [] => ([], r)
  | n :: rest =>
      let '(active, r1) := load (loadClock i) (lease_name n) r in
      let '(ls, r2) := candidate_loads (S i) rest r1 in
      ((lease_name n, active) :: ls, r2)
  end.

(** The loop over the candidates, least loaded first. *)
Fixpoint try_acquire (i : nat) (names : list string) (cap : Z) (holder : string) (ttl : Z) (r : R) :
    option (string * Z) * R :=
  match names with
  | [] => (None, r)
  | n :: rest =>
      let '(ok, r1) := acquire (acquireClock i) n cap holder ttl (others i r) in
      if ok : bool then (Some (n, acquireClock i + ttl), r1) else try_acquire (S i) rest cap holder ttl r1
  end.

(** What the caller gets, with the store it leaves. *)
Definition selectPoolSandbox (env : Env) (headCwd sessionId : bytes) (opts : SelectOpts) (r : R) :
    result select_error (option SelectedSandbox) * R :=
  let holderId := default (string_of sessionId) (o_holderId opts) in
  match env "KAGENTI_SANDBOX_POOL_SELECTOR" with
  | None | Some [] =>
      (try c <- resolveSandboxConfig env headCwd;
       Ok ((fun config => mkSelected config None false) <$> c), r)
  | Some selector =>
      let namespace := default (bytes_of "default") (env "KAGENTI_SANDBOX_NAMESPACE") in
      let context := env_context env in
      let podCwd := default (bytes_of "/workspace") (env "KAGENTI_SANDBOX_CWD") in
      match resolveDiscoverySource env (o_remoteSandbox opts) with
      | Throw e => (Throw e, r)
      | Ok source =>
          let listed := if decide (source = records) then Ok []
                        else try out <- runKubectl (buildPoolPodsArgs selector namespace context);
                             Ok (parsePodNames out) in
          let remoteOn := o_remoteSandbox opts && negb (bool_decide (source = pods)) in
          let found := try ps <- listed;
                       try recs <- (if remoteOn then recordIds else Ok []);
                       Ok (ps, recs) in
          match found with
          | Throw e => (Throw e, r)
          | Ok (ps, recs) =>
              match ps ++ recs with
              | [] => (Throw (PoolEmpty selector source), r)
              | candidates =>
                  let '(loads, r1) := candidate_loads 0 candidates r in
                  match try_acquire 0 (orderByLoad loads) (o_cap opts) holderId (o_ttlMs opts) r1 with
                  | (None, r2) => (Throw (PoolSaturated selector), r2)
                  | (Some (name, _), r2) =>
                      let config := mkSandboxConfig (bytes_of name) namespace context podCwd headCwd in
                      let transport := if bool_decide (bytes_of name ∈ recs)
                                       then try t <- makeTransport (bytes_of name) sessionId; Ok (Some t)
                                       else Ok None in
                      match transport with
                      | Ok t => (Ok (Some (mkSelected config t true)), r2)
                      | Throw e => (Throw e, release name holderId r2)
                      end
                  end
              end
          end
      end
  end.

(** [assertServerSandbox]: [true] when the call would throw. *)
Definition assertServerSandbox (serverMode allowLocalTools hasSandbox : bool) : bool :=
  serverMode && negb allowLocalTools && negb hasSandbox.

(** ** Lemmas *)

(** The leases of one holder on every pod. *)
Definition holds (r : R) (holder : string) (k : string) : option Z := zset r k !! holder.

(** [r'] has no lease of [holder] that [r] did not have. *)
Definition no_new_lease (holder : string) (r r' : R) : Prop :=
  ∀ k v, holds r' holder k = Some v → holds r holder k = Some v.

#[export] Instance no_new_lease_trans holder : Transitive (no_new_lease holder).
Proof. intros a b c H1 H2 k v Hv. by apply H1, H2. Qed.

Lemma sweep_no_new holder k now r : no_new_lease holder r (zRemRangeByScore k now r).
Proof.
  intros k' v. unfold holds. destruct (decide (k = k')) as [<-|Hne].
  - rewrite zset_remRange, map_lookup_filter_Some. tauto.
  - by rewrite (proj1 (zset_other k k' r Hne)).
Qed.

Lemma release_no_new holder h pod r : no_new_lease holder r (release pod h r).
Proof.
  intros k v. unfold holds, release. destruct (decide (leaseKey pod = k)) as [<-|Hne].
  - rewrite zset_rem, lookup_delete_Some. tauto.
  - by rewrite (proj2 (proj2 (zset_other (leaseKey pod) k r Hne))).
Qed.

Lemma loads_no_new holder names i r : no_new_lease holder r (candidate_loads i names r).2.
Proof.
  revert i r. induction names as [|n names IH]; intros i r; [by intros k v|]. cbn [candidate_loads].
  pose proof (sweep_no_new holder (leaseKey (lease_name n)) (loadClock i) r) as Hs.
  change (zRemRangeByScore (leaseKey (lease_name n)) (loadClock i) r) with (load (loadClock i) (lease_name n) r).2 in Hs.
  destruct (load (loadClock i) (lease_name n) r) as [a r1]. specialize (IH (S i) r1).
  destruct (candidate_loads (S i) names r1) as [ls r2]. cbn [snd] in *. by etrans.
Qed.

Lemma loads_names names i r : (candidate_loads i names r).1.*1 = lease_name <$> names.
Proof.
  revert i r. induction names as [|n names IH]; intros i r; [done|]. cbn [candidate_loads].
  destruct (load _ _ _) as [a r1]. specialize (IH (S i) r1).
  destruct (candidate_loads (S i) names r1) as [ls r2]. simpl in *. by f_equal.
Qed.

(** One attempt: the new lease, if any, is the one asked for. *)
Lemma acquire_holds now pod cap holder ttl r k v :
  let '(ok, r') := acquire now pod cap holder ttl r in
  holds r' holder k = Some v →
  holds r holder k = Some v ∨ ok = true ∧ k = leaseKey pod ∧ v = now + ttl.
Proof.
  unfold acquire, acquire_lua. destruct (_ <? _).
  - unfold holds. destruct (decide (leaseKey pod = k)) as [<-|Hne].
    + rewrite zset_add, lookup_insert_eq. intros [= <-]. by right.
    + rewrite (proj1 (proj2 (zset_other (leaseKey pod) k _ Hne))).
      rewrite (proj1 (zset_other (leaseKey pod) k r Hne)). by left.
  - intros Hv. left. by apply (sweep_no_new holder (leaseKey pod) now r).
Qed.

Section Quiet.
  (** Other processes never touch this holder's leases. *)
  Variable holder : string.
  Hypothesis others_quiet : ∀ i r k, holds (others i r) holder k = holds r holder k.

Lemma try_acquire_spec i names cap ttl r :
  let '(res, r') := try_acquire i names cap holder ttl r in
  match res with
  | None => no_new_lease holder r r'
  | Some (pod, expiry) => pod ∈ names ∧ holds r' holder (leaseKey pod) = Some expiry
      ∧ ∀ k v, k ≠ leaseKey pod → holds r' holder k = Some v → holds r holder k = Some v
  end.
Proof.
  revert i r. induction names as [|n names IH]; intros i r; cbn [try_acquire]; [by intros k v|].
  pose proof (acquire_holds (acquireClock i) n cap holder ttl (others i r)) as Ha.
  pose proof (acquire_spec (acquireClock i) n cap holder ttl (others i r)) as Hz.
  destruct (acquire (acquireClock i) n cap holder ttl (others i r)) as [[] r1].
  - split_and!; [by left| |].
    + unfold holds. destruct Hz as [-> _]. by rewrite lookup_insert_eq.
    + intros k v Hk Hv. destruct (Ha k v Hv) as [Hold|(_ & -> & _)]; [|done]. by rewrite others_quiet in Hold.
  - assert (Hn : no_new_lease holder r r1).
    { intros k v Hv. destruct (Ha k v Hv) as [Hold|(? & _)]; [|done]. by rewrite others_quiet in Hold. }
    specialize (IH (S i) r1). destruct (try_acquire (S i) names cap holder ttl r1) as [[[pod e]|] r2].
    + destruct IH as (H1 & H2 & H3). split_and!; [by right|done|]. intros k v Hk Hv. by apply Hn, H3.
    + by etrans.
Qed.
End Quiet.
End Select.

Arguments SelectedSandbox : clear implicits.

Lemma imap_snd_perm (loads : list (string * nat)) : snd <$> indexed loads = loads.*1.
Proof.
  unfold indexed. generalize 0%nat as k.
  assert (Hgen : ∀ (f : nat → nat), snd <$> imap (fun i l => (l.2, f i, l.1)) loads = loads.*1);
    [|intros _; apply (Hgen (fun i => i))].
  induction loads as [|l ls IH]; intros f; [done|]. cbn. f_equal. exact (IH (fun i => f (S i))).
Qed.

Lemma orderByLoad_perm loads : orderByLoad loads ≡ₚ loads.*1.
Proof. unfold orderByLoad. rewrite merge_sort_Permutation. by rewrite imap_snd_perm. Qed.

(** ** Properties *)

(** Candidates are tried least loaded first: the order is a permutation of the
    candidates sorted by load, and candidates with equal load keep the order they
    were listed in. *)
Theorem orderByLoad_sorted loads :
  ∃ l, orderByLoad loads = snd <$> l ∧ l ≡ₚ indexed loads ∧ StronglySorted load_le l.
Proof.
  exists (merge_sort load_le (indexed loads)). split_and!; [done|apply merge_sort_Permutation|].
  apply (StronglySorted_merge_sort load_le).
Qed.

(** A selection leaves its holder with exactly the lease it reports: while other
    processes use the store, a selection that answers with a leased sandbox left the
    holder one new lease, on that sandbox, which was one of the candidates; any other
    outcome (saturated, empty, a transport that could not be built, a failed
    listing, no pool at all) left the holder no new lease on any pod. *)
Theorem select_leases_exactly_one `{RedisZSet R} {T : Type}
    runKubectl recordIds (makeTransport : bytes → bytes → result select_error T)
    loadClock acquireClock (others : nat → R → R) env headCwd sessionId opts r :
  let holder := default (string_of sessionId) (o_holderId opts) in
  (∀ i r k, holds (others i r) holder k = holds r holder k) →
  let '(res, r') := selectPoolSandbox runKubectl recordIds makeTransport loadClock acquireClock others
                      env headCwd sessionId opts r in
  match res with
  | Ok (Some sel) =>
      if sel_leased sel then
        let k := leaseKey (string_of (pod (sel_config sel))) in
        is_Some (holds r' holder k)
        ∧ ∀ k' v, k' ≠ k → holds r' holder k' = Some v → holds r holder k' = Some v
      else no_new_lease holder r r'
  | _ => no_new_lease holder r r'
  end.
Proof.
  intros holder Hq. unfold selectPoolSandbox. fold holder.
  assert (Hrefl : no_new_lease holder r r) by (by intros k v).
  destruct (env "KAGENTI_SANDBOX_POOL_SELECTOR") as [[|c sel]|].
  1,3: destruct (resolveSandboxConfig runKubectl env headCwd) as [[cf|]|e]; done.
  destruct (resolveDiscoverySource env (o_remoteSandbox opts)) as [source|e]; [|done].
  match goal with |- context [match ?f with Ok _ => _ | Throw _ => _ end] => destruct f as [[ps recs]|e] end; [|done].
  destruct (ps ++ recs) as [|cand cands]; [done|].
  pose proof (loads_no_new loadClock holder (cand :: cands) 0 r) as Hl.
  destruct (candidate_loads loadClock 0 (cand :: cands) r) as [loads r1]. cbn [snd] in Hl.
  pose proof (try_acquire_spec acquireClock others holder Hq 0 (orderByLoad loads) (o_cap opts) (o_ttlMs opts) r1) as Ht.
  destruct (try_acquire acquireClock others 0 (orderByLoad loads) (o_cap opts) holder (o_ttlMs opts) r1)
    as [[[name expiry]|] r2]; [|by etrans].
  destruct Ht as (_ & Hheld & Hrest).
  match goal with |- context [match ?f with Ok _ => _ | Throw _ => _ end] => destruct f as [t|e] end.
  - cbn [sel_leased sel_config pod]. unfold string_of, bytes_of.
    rewrite String.string_of_list_ascii_of_string. split; [by rewrite Hheld|].
    intros k' v Hk Hv. by apply Hl, (Hrest k').
  - intros k v Hv. apply Hl. destruct (decide (k = leaseKey name)) as [->|Hne].
    + unfold holds, release in Hv. by rewrite zset_rem, lookup_delete_eq in Hv.
    + by apply (Hrest k), (release_no_new holder holder name r2).
Qed.

Definition demo_env : Env := fun n =>
  if decide (n = "KAGENTI_SANDBOX_POOL_SELECTOR") then Some (bytes_of "app=sbx") else None.
Definition demo_kubectl_out (_ : list bytes) : result select_error bytes :=
  Ok (bytes_of "p1" ++ [NEWLINE] ++ bytes_of "p2" ++ [NEWLINE]).
Definition demo_select (r : MapRedis) :=
  selectPoolSandbox (T := unit) demo_kubectl_out (Ok []) (fun _ _ => Ok tt) (fun _ => 5) (fun _ => 6)
    (fun _ r => r) demo_env (bytes_of "/head") (bytes_of "s1") (mkSelectOpts 1 100 false None) r.

Lemma select_leases_exactly_one_witness :
  holds (demo_select redis_a).2 "s1" (leaseKey "p1") = Some 106
  ∧ is_Some (holds (demo_select redis_a).2 "s1" (leaseKey "p1")).
Proof.
  split; [vm_compute; reflexivity|].
  pose proof (select_leases_exactly_one (T := unit) demo_kubectl_out (Ok []) (fun _ _ => Ok tt)
    (fun _ => 5) (fun _ => 6) (fun _ r => r) demo_env (bytes_of "/head") (bytes_of "s1")
    (mkSelectOpts 1 100 false None) redis_a (fun _ _ _ => eq_refl)) as Hs.
  fold (demo_select redis_a) in Hs.
  assert (E : (demo_select redis_a).1 = Ok (Some (mkSelected
    (mkSandboxConfig (bytes_of "p1") (bytes_of "default") None (bytes_of "/workspace") (bytes_of "/head"))
    None true))) by (vm_compute; reflexivity).
  destruct (demo_select redis_a) as [res r']. cbn [fst snd] in *. subst res. exact (proj1 Hs).
Defined.

(** The holder of a lease is not its workspace: a failing transport gives the lease
    back. *)
Lemma select_releases_on_failure :
  let out := selectPoolSandbox (T := unit) demo_kubectl_out (Ok [bytes_of "p1"])
    (fun _ _ => Throw (External "no token")) (fun _ => 5) (fun _ => 6) (fun _ (r : MapRedis) => r)
    demo_env (bytes_of "/head") (bytes_of "s1") (mkSelectOpts 1 100 true None) empty_redis in
  out.1 = Throw (External "no token") ∧ holds out.2 "s1" (leaseKey "p1") = None.
Proof. split; vm_compute; reflexivity. Qed.
