(* ===== verification/Json.v ===== *)
(** * JSON values

    What [JSON.parse] produces and TypeScript code inspects with [typeof], field
    access and comparison.  Numbers are finite (JSON has no others) and exact; an
    object is an association list. *)

From Stdlib Require Import QArith.
From S2P Require Import Prelude.

Local Open Scope Z_scope.

Inductive json :=
| JNull
| JBool (b : bool)
| JNum (q : Q)
| JStr (s : string)
| JArr (l : list json)
| JObj (fields : list (string * json)).

(** [o.name] on a value that passed [typeof o === 'object' && o !== null], or on any
    other non-null value, whose fields of interest are all [undefined]. *)
Definition field (name : string) (j : json) : option json :=
  match j with JObj fs => map_get name fs | _ => None end.

(** [typeof obj === 'object' && obj !== null] *)
Definition is_object (j : json) : bool :=
  match j with JArr _ | JObj _ => true | _ => false end.

Definition is_array (j : json) : bool := match j with JArr _ => true | _ => false end.

Definition as_string (j : option json) : option string :=
  match j with Some (JStr s) => Some s | _ => None end.

Definition as_number (j : option json) : option Q :=
  match j with Some (JNum q) => Some q | _ => None end.

(** [!!v] *)
Definition truthy (j : json) : bool :=
  match j with
  | JNull => false
  | JBool b => b
  | JNum q => negb (Qnum q =? 0)
  | JStr s => negb (bool_decide (s = ""))
  | JArr _ | JObj _ => true
  end.

(** [Number.isInteger(q)], with the integer. *)
Definition integer_of (q : Q) : option Z :=
  if Qnum q mod Zpos (Qden q) =? 0 then Some (Qnum q / Zpos (Qden q)) else None.

Lemma integer_of_Z n : integer_of (inject_Z n) = Some n.
Proof. unfold integer_of. simpl. by rewrite Z.mod_1_r, Z.div_1_r. Qed.

Lemma integer_of_spec q n : integer_of q = Some n → (q == inject_Z n)%Q.
Proof.
  unfold integer_of. destruct (Z.eqb_spec (Qnum q mod Zpos (Qden q)) 0) as [H|]; [|done].
  intros [= <-]. unfold Qeq. simpl. rewrite Z.mul_1_r.
  pose proof (Z.div_mod (Qnum q) (Zpos (Qden q)) ltac:(lia)). lia.
Qed.
