(* ===== verification/JsonText.v ===== *)
(** * JSON as text

    [JSON.stringify] and [JSON.parse] on the values of [Json]: what tokens, stored records
    and request bodies go through.  Characters are 8-bit, so an escape above U+00FF is not
    represented and neither is a number beyond the range of a double; both are parse
    failures here.  [stringify] prints integers; statements about text are of values
    without fractions ([serialisable]).  The parser's fuel is the length of its input, and each call consumes a
    character, so it never runs out ([parse_stringify]). *)

From Stdlib Require Import QArith.
From S2P Require Import Prelude JsNumber Json.

Local Open Scope Z_scope.

(** ** Printing *)

Definition hex_digit (v : nat) : ascii := nth v (bytes_of "0123456789abcdef") "0"%char.

Definition QUOTE : ascii := ascii_of_nat 34.
Definition BACKSLASH : ascii := "\"%char.

Definition escape_char (c : ascii) : bytes :=
  let n := nat_of_ascii c in
  if bool_decide (c = QUOTE) then [BACKSLASH; QUOTE]
  else if bool_decide (c = BACKSLASH) then [BACKSLASH; BACKSLASH]
  else if (n <? 32)%nat then
    match n with
    | 8%nat => [BACKSLASH; "b"%char]
    | 9%nat => [BACKSLASH; "t"%char]
    | 10%nat => [BACKSLASH; "n"%char]
    | 12%nat => [BACKSLASH; "f"%char]
    | 13%nat => [BACKSLASH; "r"%char]
    | _ => [BACKSLASH; "u"%char; "0"%char; "0"%char; hex_digit (n / 16); hex_digit (n mod 16)]
    end
  else [c].

Definition print_string (s : string) : bytes := QUOTE :: (bytes_of s ≫= escape_char) ++ [QUOTE].

(** Pieces separated by commas. *)
Fixpoint commas (l : list bytes) : bytes :=
  match l with
  | [] => []
  | [x] => x
  | x :: l' => x ++ ","%char :: commas l'
  end.

Fixpoint stringify (j : json) : bytes :=
  match j with
  | JNull => bytes_of "null"
  | JBool true => bytes_of "true"
  | JBool false => bytes_of "false"
  | JNum q => match integer_of q with Some n => dec_signed n | None => bytes_of "0" end
  | JStr s => print_string s
  | JArr l => "["%char :: commas (map stringify l) ++ ["]"%char]
  | JObj fs => "{"%char :: commas (map (fun f => print_string f.1 ++ ":"%char :: stringify f.2) fs) ++ ["}"%char]
  end.

(** ** Parsing *)

Definition json_ws (c : ascii) : bool :=
  bool_decide (c ∈ [" "%char; ascii_of_nat 9; ascii_of_nat 10; ascii_of_nat 13]).

Fixpoint skip_ws (s : bytes) : bytes :=
  match s with
  | c :: r => if json_ws c then skip_ws r else s
  | [] => []
  end.

Definition simple_escape (c : ascii) : option ascii :=
  map_get c [(QUOTE, QUOTE); (BACKSLASH, BACKSLASH); ("/"%char, "/"%char); ("b"%char, ascii_of_nat 8);
             ("f"%char, ascii_of_nat 12); ("n"%char, ascii_of_nat 10); ("r"%char, ascii_of_nat 13);
             ("t"%char, ascii_of_nat 9)].

(** The characters of a string literal after its opening quote, and what follows it. *)
Fixpoint pchars (s : bytes) : option (bytes * bytes) :=
  match s with
  | [] => None
  | c :: r =>
      if bool_decide (c = QUOTE) then Some ([], r)
      else if bool_decide (c = BACKSLASH) then
        match r with
        | e :: r1 =>
            match simple_escape e with
            | Some d => prod_map (cons d) id <$> pchars r1
            | None =>
                match r1 with
                | h1 :: h2 :: h3 :: h4 :: r2 =>
                    if bool_decide (e = "u"%char) then
                      match digits_value 16 0 [h1; h2; h3; h4] with
                      | Some v => if v <? 256 then prod_map (cons (ascii_of_nat (Z.to_nat v))) id <$> pchars r2
                                  else None
                      | None => None
                      end
                    else None
                | _ => None
                end
            end
        | [] => None
        end
      else if (nat_of_ascii c <? 32)%nat then None
      else prod_map (cons c) id <$> pchars r
  end.

(** The parts of a number token: each the longest there is, and the rest. *)
Definition lex_sign (s : bytes) : bytes * bytes :=
  match s with "-"%char :: r => (["-"%char], r) | _ => ([], s) end.

Definition lex_int (s : bytes) : bytes * bytes :=
  match s with "0"%char :: r => (["0"%char], r) | _ => span_digits s end.

Definition lex_frac (s : bytes) : bytes * bytes :=
  match s with
  | "."%char :: r => let '(ds, r') := span_digits r in
                     match ds with [] => ([], s) | _ => ("."%char :: ds, r') end
  | _ => ([], s)
  end.

Definition lex_exp (s : bytes) : bytes * bytes :=
  match s with
  | c :: r =>
      if bool_decide (c = "e"%char ∨ c = "E"%char) then
        let '(sg, r1) := match r with
                         | "+"%char :: r1 => (["+"%char], r1)
                         | "-"%char :: r1 => (["-"%char], r1)
                         | _ => ([], r)
                         end in
        let '(ds, r2) := span_digits r1 in
        match ds with [] => ([], s) | _ => (c :: sg ++ ds, r2) end
      else ([], s)
  | [] => ([], s)
  end.

Definition lex_number (s : bytes) : option (bytes * bytes) :=
  let '(sign, s1) := lex_sign s in
  let '(ip, s2) := lex_int s1 in
  let '(fp, s3) := lex_frac s2 in
  let '(ep, s4) := lex_exp s3 in
  match ip with [] => None | _ => Some (sign ++ ip ++ fp ++ ep, s4) end.

(** The number of a token; an integer is represented over 1. *)
Definition token_value (t : bytes) : option Q :=
  match Number t with
  | Fin q => Some (match integer_val (Fin q) with Some n => inject_Z n | None => q end)
  | _ => None
  end.

Definition literal (lit : string) (s : bytes) : option bytes :=
  if starts_with (bytes_of lit) s then Some (drop (length (bytes_of lit)) s) else None.

Fixpoint pvalue (fuel : nat) (s : bytes) : option (json * bytes) :=
  match fuel with
  | O => None
  | S f =>
      match skip_ws s with
      | [] => None
      | c :: r =>
          if bool_decide (c = QUOTE) then prod_map (JStr ∘ string_of) id <$> pchars r
          else if bool_decide (c = "["%char) then
            match skip_ws r with
            | "]"%char :: r' => Some (JArr [], r')
            | _ => prod_map JArr id <$> pelems f r
            end
          else if bool_decide (c = "{"%char) then
            match skip_ws r with
            | "}"%char :: r' => Some (JObj [], r')
            | _ => prod_map JObj id <$> pmembers f [] r
            end
          else
            match literal "null" (c :: r), literal "true" (c :: r), literal "false" (c :: r) with
            | Some r', _, _ => Some (JNull, r')
            | _, Some r', _ => Some (JBool true, r')
            | _, _, Some r' => Some (JBool false, r')
            | _, _, _ =>
                match lex_number (c :: r) with
                | Some (t, r') => (fun q => (JNum q, r')) <$> token_value t
                | None => None
                end
            end
      end
  end
with pelems (fuel : nat) (s : bytes) : option (list json * bytes) :=
  match fuel with
  | O => None
  | S f =>
      match pvalue f s with
      | None => None
      | Some (v, r) =>
          match skip_ws r with
          | ","%char :: r' => prod_map (cons v) id <$> pelems f r'
          | "]"%char :: r' => Some ([v], r')
          | _ => None
          end
      end
  end
with pmembers (fuel : nat) (acc : list (string * json)) (s : bytes) : option (list (string * json) * bytes) :=
  match fuel with
  | O => None
  | S f =>
      match skip_ws s with
      | c :: r =>
          if bool_decide (c = QUOTE) then
            match pchars r with
            | None => None
            | Some (name, r1) =>
                match skip_ws r1 with
                | ":"%char :: r2 =>
                    match pvalue f r2 with
                    | None => None
                    | Some (v, r3) =>
                        let acc' := map_set (string_of name) v acc in
                        match skip_ws r3 with
                        | ","%char :: r4 => pmembers f acc' r4
                        | "}"%char :: r4 => Some (acc', r4)
                        | _ => None
                        end
                    end
                | _ => None
                end
            end
          else None
      | [] => None
      end
  end.

(** [JSON.parse]: one value, with nothing but white space around it. *)
Definition parse (s : bytes) : option json :=
  match pvalue (S (S (length s))) s with
  | Some (j, r) => match skip_ws r with [] => Some j | _ => None end
  | None => None
  end.

(** ** Round trip *)

(** Values the code serialises: whole numbers within the safe range, and objects, whose keys
    are distinct. *)
Fixpoint serialisable (j : json) : bool :=
  match j with
  | JNum q => (Qden q =? 1)%positive && (Z.abs (Qnum q) <=? MAX_SAFE_INTEGER)
  | JArr l => forallb serialisable l
  | JObj fs => bool_decide (NoDup fs.*1) && forallb (fun f => serialisable f.2) fs
  | _ => true
  end.

Lemma json_ind' (P : json → Prop) :
  P JNull → (∀ b, P (JBool b)) → (∀ q, P (JNum q)) → (∀ s, P (JStr s)) →
  (∀ l, Forall P l → P (JArr l)) → (∀ fs, Forall (fun f => P f.2) fs → P (JObj fs)) →
  ∀ j, P j.
Proof.
  intros Hn Hb Hq Hs Ha Ho. fix IH 1. intros [|b|q|s|l|fs]; [done|apply Hb|apply Hq|apply Hs| |].
  - apply Ha. induction l as [|x l IHl]; constructor; [apply IH|exact IHl].
  - apply Ho. induction fs as [|x fs IHl]; constructor; [apply IH|exact IHl].
Qed.

Lemma pchars_char c r : pchars (escape_char c ++ r) = prod_map (cons c) id <$> pchars r.
Proof. destruct c as [[] [] [] [] [] [] [] []]; reflexivity. Qed.

Lemma pchars_string l r : pchars ((l ≫= escape_char) ++ QUOTE :: r) = Some (l, r).
Proof.
  induction l as [|c l IH]; [done|]. rewrite bind_cons, <-app_assoc, pchars_char, IH. done.
Qed.

(** What may follow a value inside a document. *)
Definition delim (r : bytes) : Prop :=
  match r with [] => True | c :: _ => c ∈ [","%char; "]"%char; "}"%char; ascii_of_nat 10] end.

Definition plain_head (r : bytes) : Prop :=
  match r with [] => True | c :: _ => digit_val 10 c = None ∧ c ∉ ["."%char; "e"%char; "E"%char] end.

Lemma delim_plain r : delim r → plain_head r.
Proof.
  destruct r as [|c r]; [done|]. simpl. rewrite !elem_of_cons, elem_of_nil.
  intros [->|[->|[->|[->|[]]]]]; (split; [done|by apply (bool_decide_unpack _)]).
Qed.

Lemma span_digits_app ds r : Forall plain_digit ds → plain_head r → span_digits (ds ++ r) = (ds, r).
Proof.
  intros Hd Hr. induction Hd as [|c ds Hc _ IH]; simpl.
  - destruct r as [|c r]; [done|]. destruct Hr as [Hc _]. simpl. unfold is_digit. rewrite Hc.
    by rewrite bool_decide_eq_false_2 by (by intros []).
  - destruct Hc as [-> _]. by rewrite IH.
Qed.

(** Printed integers have no superfluous zero. *)
Lemma dec_fuel_head f n : 0 < n < 10 ^ Z.of_nat f → ∃ c l, dec_fuel f n = c :: l ∧ c ≠ "0"%char.
Proof.
  revert n. induction f as [|f IH]; intros n Hn; [simpl in Hn; lia|]. cbn [dec_fuel].
  destruct (Z.ltb_spec n 10) as [Hlt|Hge].
  - exists (digit_char n), []. split; [done|].
    assert (n = 1 ∨ n = 2 ∨ n = 3 ∨ n = 4 ∨ n = 5 ∨ n = 6 ∨ n = 7 ∨ n = 8 ∨ n = 9) by lia.
    destruct_or!; by subst.
  - destruct (IH (n / 10)) as (c & l & -> & Hc).
    + rewrite Nat2Z.inj_succ, Z.pow_succ_r in Hn by lia.
      split; [apply Z.div_str_pos; lia|apply Z.div_lt_upper_bound; lia].
    + by exists c, (l ++ [digit_char (n mod 10)]).
Qed.

Lemma dec_head n : 0 < n → ∃ c l, dec n = c :: l ∧ c ≠ "0"%char.
Proof.
  intros Hn. apply dec_fuel_head. split; [done|]. rewrite Nat2Z.inj_succ, Z2Nat.id by apply Z.log2_nonneg.
  destruct (Z.log2_spec n Hn) as [_ Hu].
  eapply Z.lt_le_trans; [exact Hu|]. apply Z.pow_le_mono_l. lia.
Qed.

Lemma lex_int_dec n r : 0 ≤ n → plain_head r → lex_int (dec n ++ r) = (dec n, r).
Proof.
  intros Hn Hr. pose proof (span_digits_app (dec n) r (dec_plain n Hn) Hr) as Hspan.
  destruct (Z.eq_dec n 0) as [->|Hn0]; [done|].
  destruct (dec_head n ltac:(lia)) as (c & l & E & Hc). rewrite E in *.
  by destruct c as [[] [] [] [] [] [] [] []].
Qed.

Lemma lex_sign_dec n r : 0 ≤ n → lex_sign (dec n ++ r) = ([], dec n ++ r).
Proof.
  intros Hn. pose proof (dec_plain n Hn) as Hp. pose proof (dec_nonempty n).
  destruct (dec n) as [|c l]; [done|]. apply Forall_inv in Hp as (_ & _ & _ & _ & Hc & _).
  by destruct c as [[] [] [] [] [] [] [] []].
Qed.

Lemma lex_tail_plain r : plain_head r → lex_frac r = ([], r) ∧ lex_exp r = ([], r).
Proof.
  destruct r as [|c r]; [done|]. intros [_ Hc]. rewrite !not_elem_of_cons in Hc. destruct Hc as (Hc & He & HE & _).
  split; [by destruct c as [[] [] [] [] [] [] [] []]|]. unfold lex_exp.
  by rewrite bool_decide_eq_false_2 by naive_solver.
Qed.

Lemma lex_number_dec n r : plain_head r → lex_number (dec_signed n ++ r) = Some (dec_signed n, r).
Proof.
  intros Hr. destruct (lex_tail_plain r Hr) as [Hf He]. unfold dec_signed, lex_number.
  destruct (Z.ltb_spec n 0) as [Hn|Hn].
  - cbn [app lex_sign]. rewrite lex_int_dec, Hf, He by lia || done.
    pose proof (dec_nonempty (- n)). destruct (dec (- n)); [done|]. by rewrite !app_nil_r.
  - rewrite lex_sign_dec, lex_int_dec, Hf, He by done.
    pose proof (dec_nonempty n). destruct (dec n); [done|]. by rewrite !app_nil_r.
Qed.

Lemma token_value_dec n : Z.abs n ≤ MAX_SAFE_INTEGER → token_value (dec_signed n) = Some (inject_Z n).
Proof.
  intros Hn. pose proof (Number_dec n Hn) as H. unfold token_value.
  destruct (Number (dec_signed n)) as [q| | |]; try done. by rewrite H.
Qed.

Lemma number_head c r :
  is_digit c = true ∨ c = "-"%char →
  json_ws c = false ∧ bool_decide (c = QUOTE) = false ∧ bool_decide (c = "["%char) = false
  ∧ bool_decide (c = "{"%char) = false ∧ literal "null" (c :: r) = None
  ∧ literal "true" (c :: r) = None ∧ literal "false" (c :: r) = None.
Proof.
  intros [H| ->]; [|by vm_compute].
  destruct c as [[] [] [] [] [] [] [] []]; first [by vm_compute in H | by vm_compute].
Qed.

Lemma pvalue_number f n r :
  plain_head r → Z.abs n ≤ MAX_SAFE_INTEGER → pvalue (S f) (dec_signed n ++ r) = Some (JNum (inject_Z n), r).
Proof.
  intros Hr Hn. pose proof (lex_number_dec n r Hr) as Hlex. pose proof (token_value_dec n Hn) as Hv.
  assert (∃ c l, dec_signed n = c :: l ∧ (is_digit c = true ∨ c = "-"%char)) as (c & l & E & Hc).
  { unfold dec_signed. destruct (Z.ltb_spec n 0); [eauto|]. pose proof (dec_plain n ltac:(lia)) as Hp.
    pose proof (dec_nonempty n). destruct (dec n) as [|c l]; [done|].
    apply Forall_inv in Hp as [? _]. eauto. }
  rewrite E in *. destruct (number_head c (l ++ r) Hc) as (H1 & H2 & H3 & H4 & H5 & H6 & H7).
  cbn [pvalue app skip_ws] in *. rewrite H1, H2, H3, H4, H5, H6, H7, Hlex, Hv. done.
Qed.

Ltac no_ws := repeat match goal with |- context [json_ws ?c] => change (json_ws c) with false end; cbv iota.

Definition value_ok (j : json) : Prop :=
  ∀ f r, (length (stringify j) < f)%nat → delim r → pvalue f (stringify j ++ r) = Some (j, r).

Lemma pelems_commas l f r :
  l ≠ [] → Forall value_ok l → (length (commas (map stringify l)) + 1 < f)%nat →
  pelems f (commas (map stringify l) ++ "]"%char :: r) = Some (l, r).
Proof.
  intros Hne Hl. revert f Hne. induction Hl as [|x l Hx Hl IH]; intros f Hne Hf; [done|].
  destruct f as [|f]; [lia|]. destruct l as [|y l].
  - cbn [map commas pelems] in *. rewrite Hx; [done|lia|]. set_solver.
  - change (commas (map stringify (x :: y :: l)))
      with (stringify x ++ ","%char :: commas (map stringify (y :: l))) in *.
    rewrite length_app in Hf. cbn [length] in Hf. rewrite <-app_assoc. cbn [app pelems].
    rewrite Hx; [|lia|set_solver]. cbn [skip_ws]. no_ws.
    by rewrite IH; [..|lia].
Qed.

Definition member (f : string * json) : bytes := print_string f.1 ++ ":"%char :: stringify f.2.

Lemma pmembers_step k x acc f r :
  value_ok x → (length (stringify x) < f)%nat → delim r →
  pmembers (S f) acc (member (k, x) ++ r) =
  match skip_ws r with
  | ","%char :: r4 => pmembers f (map_set k x acc) r4
  | "}"%char :: r4 => Some (map_set k x acc, r4)
  | _ => None
  end.
Proof.
  intros Hx Hf Hr. unfold member, print_string. cbn [fst snd]. rewrite <-!app_assoc. cbn [app].
  rewrite <-!app_assoc. cbn [app pmembers skip_ws].
  no_ws. rewrite bool_decide_eq_true_2 by done.
  rewrite pchars_string. cbn [skip_ws]. no_ws.
  rewrite Hx by done. rewrite string_of_bytes. done.
Qed.

Lemma pmembers_commas fs acc f r :
  fs ≠ [] → Forall (fun x => value_ok x.2) fs → NoDup (acc ++ fs).*1 →
  (length (commas (map member fs)) + 1 < f)%nat →
  pmembers f acc (commas (map member fs) ++ "}"%char :: r) = Some (acc ++ fs, r).
Proof.
  intros Hne Hl. revert f acc Hne. induction Hl as [|[k x] fs Hx Hl IH]; intros f acc Hne Hnd Hf; [done|].
  destruct f as [|f]; [lia|].
  assert (Hset : map_set k x acc = acc ++ [(k, x)]).
  { apply map_set_fresh. rewrite fmap_app, fmap_cons in Hnd.
    apply NoDup_app in Hnd as (_ & Hnd & _). intros Hin. apply (Hnd _ Hin). set_solver. }
  assert (Hlen : ∀ l : bytes, (length (member (k, x) ++ l) > length (stringify x) + length l)%nat).
  { intros l. unfold member. cbn [fst snd]. rewrite !length_app. cbn [length]. lia. }
  destruct fs as [|y fs].
  - change (commas (map member [(k, x)])) with (member (k, x)) in *. specialize (Hlen []).
    rewrite app_nil_r in Hlen. rewrite pmembers_step; [|done|lia|set_solver].
    cbn [skip_ws]. no_ws. by rewrite Hset.
  - change (commas (map member ((k, x) :: y :: fs)))
      with (member (k, x) ++ ","%char :: commas (map member (y :: fs))) in *.
    specialize (Hlen (","%char :: commas (map member (y :: fs)))). cbn [length] in Hlen.
    rewrite <-app_assoc. rewrite pmembers_step; [|done|lia|set_solver].
    cbn [skip_ws app]. no_ws. rewrite Hset, IH; [|done| |lia].
    + by rewrite <-app_assoc.
    + by rewrite <-app_assoc.
Qed.

Lemma commas_head (P : ascii → bool) (l : list bytes) :
  l ≠ [] → Forall (fun b => match b with c :: _ => P c | [] => false end = true) l →
  match commas l with c :: _ => P c | [] => false end = true.
Proof.
  intros Hne Hl. destruct Hl as [|[|c b] [|b2 l] Hb Hl]; done.
Qed.

(** No printed value begins with white space or a closing bracket. *)
Definition value_head (c : ascii) : bool :=
  negb (json_ws c) && negb (bool_decide (c ∈ ["]"%char; "}"%char])).

Lemma stringify_head j : match stringify j with c :: _ => value_head c | [] => false end = true.
Proof.
  destruct j as [|[]|q|s|l|fs]; try done. cbn [stringify].
  destruct (integer_of q) as [n|]; [|done]. unfold dec_signed. destruct (Z.ltb_spec n 0); [done|].
  pose proof (dec_plain n ltac:(lia)) as Hp. pose proof (dec_nonempty n). destruct (dec n) as [|c l]; [done|].
  apply Forall_inv in Hp as [Hp _].
  destruct c as [[] [] [] [] [] [] [] []]; first [by vm_compute in Hp | by vm_compute].
Qed.

Lemma value_head_ws c s : value_head c = true → skip_ws (c :: s) = c :: s.
Proof. unfold value_head. intros [Hc _]%andb_prop. simpl. by destruct (json_ws c). Qed.

Lemma not_close s r x y : match s with c :: _ => value_head c | [] => false end = true →
  match skip_ws (s ++ r) with "]"%char :: r' => x r' | _ => y end = y
  ∧ match skip_ws (s ++ r) with "}"%char :: r' => x r' | _ => y end = (y : option (json * bytes)).
Proof.
  destruct s as [|c s]; [done|]. intros Hc. cbn [app]. rewrite value_head_ws by done.
  destruct c as [[] [] [] [] [] [] [] []]; split; first [reflexivity | by vm_compute in Hc].
Qed.

Lemma stringify_ok j : serialisable j = true → value_ok j.
Proof.
  induction j as [|b|q|s|l IH|fs IH] using json_ind'; intros Hj f r Hf Hr; destruct f as [|f]; try lia.
  - done.
  - by destruct b.
  - apply andb_prop in Hj as [Hd Hn]. apply Pos.eqb_eq in Hd. apply Z.leb_le in Hn.
    destruct q as [n d]. simpl in Hd, Hn. subst d.
    assert (integer_of (n # 1) = Some n) as E by apply (integer_of_Z n).
    cbn [stringify]. rewrite E. apply pvalue_number; [by apply delim_plain|done].
  - cbn [stringify]. unfold print_string. cbn [app pvalue skip_ws]. no_ws.
    rewrite bool_decide_eq_true_2 by done. rewrite <-app_assoc. cbn [app]. rewrite pchars_string. simpl.
    by rewrite string_of_bytes.
  - destruct l as [|x l]; [done|]. cbn [serialisable] in Hj. pose proof (Forall_checked _ _ _ Hj IH) as Hall.
    cbn [stringify app] in *. cbn [pvalue skip_ws]. no_ws.
    rewrite bool_decide_eq_false_2, bool_decide_eq_true_2 by done. rewrite <-app_assoc. cbn [app].
    assert (Hh : match commas (map stringify (x :: l)) with c :: _ => value_head c | [] => false end = true).
    { apply commas_head; [done|]. apply Forall_fmap, Forall_true. intros y. apply stringify_head. }
    etransitivity; [apply (proj1 (not_close _ _ _ _ Hh))|].
    rewrite pelems_commas; [done|done|done|]. cbn [length] in Hf. rewrite length_app in Hf. cbn [length] in Hf. lia.
  - destruct fs as [|x fs]; [done|]. cbn [serialisable] in Hj. apply andb_prop in Hj as [Hnd%bool_decide_eq_true Hj].
    pose proof (Forall_checked _ _ _ Hj IH) as Hall.
    change (stringify (JObj (x :: fs))) with ("{"%char :: commas (map member (x :: fs)) ++ ["}"%char]) in *.
    cbn [app] in *. cbn [pvalue skip_ws]. no_ws.
    rewrite !bool_decide_eq_false_2, bool_decide_eq_true_2 by done. rewrite <-app_assoc. cbn [app].
    assert (Hh : match commas (map member (x :: fs)) with c :: _ => value_head c | [] => false end = true).
    { apply commas_head; [done|]. by apply Forall_fmap, Forall_true. }
    etransitivity; [apply (proj2 (not_close _ _ _ _ Hh))|].
    rewrite pmembers_commas; [done|done|done|done|]. cbn [length] in Hf. rewrite length_app in Hf. cbn [length] in Hf. lia.
Qed.

(** What was serialised is read back as it was. *)
Lemma parse_stringify j : serialisable j = true → parse (stringify j) = Some j.
Proof.
  intros Hj. unfold parse. rewrite <-(app_nil_r (stringify j)) at 2.
  by rewrite (stringify_ok j Hj) by (done || lia).
Qed.
