(* ===== verification/JsonPretty.v ===== *)
(** * Indented JSON

    [JSON.stringify(value, null, 2)], as the lockfile and the client's own files are written,
    and that [JSON.parse] reads it back. *)

From Stdlib Require Import QArith.
From S2P Require Import Prelude JsNumber Json JsonText.

Local Open Scope Z_scope.

(** A line break and [n] spaces. *)
Definition nl (n : nat) : bytes := ascii_of_nat 10 :: replicate n " "%char.

Fixpoint joined (n : nat) (l : list bytes) : bytes :=
  match l with
  | [] => []
  | [x] => x
  | x :: l' => x ++ ","%char :: nl n ++ joined n l'
  end.

Fixpoint pretty (n : nat) (j : json) : bytes :=
  match j with
  | JArr ((_ :: _) as l) => "["%char :: nl (n + 2) ++ joined (n + 2) (map (pretty (n + 2)) l) ++ nl n ++ ["]"%char]
  | JObj ((_ :: _) as fs) =>
      "{"%char :: nl (n + 2)
      ++ joined (n + 2) (map (fun f => print_string f.1 ++ ":"%char :: " "%char :: pretty (n + 2) f.2) fs)
      ++ nl n ++ ["}"%char]
  | _ => stringify j
  end.

(** ** Reading it back *)

Definition pmember (n : nat) (f : string * json) : bytes :=
  print_string f.1 ++ ":"%char :: " "%char :: pretty n f.2.

Lemma skip_ws_nl n s : skip_ws (nl n ++ s) = skip_ws s.
Proof.
  unfold nl. cbn [app skip_ws]. replace (json_ws (ascii_of_nat 10)) with true by done.
  induction n as [|n IH]; [done|]. cbn [replicate app skip_ws].
  replace (json_ws " "%char) with true by done. exact IH.
Qed.

Lemma pvalue_nl f n s : pvalue f (nl n ++ s) = pvalue f s.
Proof. destruct f as [|f]; [done|]. cbn [pvalue]. by rewrite skip_ws_nl. Qed.

Lemma pelems_nl f n s : pelems f (nl n ++ s) = pelems f s.
Proof. destruct f as [|f]; [done|]. cbn [pelems]. by rewrite pvalue_nl. Qed.

Lemma pmembers_nl f n acc s : pmembers f acc (nl n ++ s) = pmembers f acc s.
Proof. destruct f as [|f]; [done|]. cbn [pmembers]. by rewrite skip_ws_nl. Qed.

Lemma pvalue_space f s : pvalue f (" "%char :: s) = pvalue f s.
Proof. destruct f as [|f]; [done|]. cbn [pvalue skip_ws]. by replace (json_ws " "%char) with true by done. Qed.

Definition pretty_ok (j : json) : Prop :=
  ∀ n f r, (length (pretty n j) < f)%nat → delim r → pvalue f (pretty n j ++ r) = Some (j, r).

Lemma delim_nl n r : delim (nl n ++ r).
Proof. unfold delim, nl. set_solver. Qed.

Lemma delim_comma r : delim (","%char :: r).
Proof. unfold delim. set_solver. Qed.

Lemma pelems_joined n m l f r :
  l ≠ [] → Forall pretty_ok l → (length (joined n (map (pretty n) l)) + 1 < f)%nat →
  pelems f (joined n (map (pretty n) l) ++ nl m ++ "]"%char :: r) = Some (l, r).
Proof.
  intros Hne Hl. revert f Hne. induction Hl as [|x l Hx Hl IH]; intros f Hne Hf; [done|].
  destruct f as [|f]; [lia|]. destruct l as [|y l].
  - cbn [map joined pelems] in *. rewrite Hx; [|lia|apply delim_nl]. by rewrite skip_ws_nl.
  - change (joined n (map (pretty n) (x :: y :: l)))
      with (pretty n x ++ ","%char :: nl n ++ joined n (map (pretty n) (y :: l))) in *.
    rewrite length_app in Hf. cbn [length] in Hf. rewrite length_app in Hf.
    rewrite <-app_assoc. cbn [app pelems]. rewrite Hx; [|lia|apply delim_comma]. cbn [skip_ws].
    replace (json_ws ","%char) with false by done. rewrite <-app_assoc, pelems_nl. by rewrite IH; [..|lia].
Qed.

Lemma pmembers_pstep n k x acc f r :
  pretty_ok x → (length (pretty n x) < f)%nat → delim r →
  pmembers (S f) acc (pmember n (k, x) ++ r) =
  match skip_ws r with
  | ","%char :: r4 => pmembers f (map_set k x acc) r4
  | "}"%char :: r4 => Some (map_set k x acc, r4)
  | _ => None
  end.
Proof.
  intros Hx Hf Hr. unfold pmember, print_string. cbn [fst snd]. rewrite <-!app_assoc. cbn [app].
  rewrite <-!app_assoc. cbn [app pmembers skip_ws]. replace (json_ws QUOTE) with false by done.
  rewrite bool_decide_eq_true_2 by done. rewrite pchars_string. cbn [skip_ws].
  replace (json_ws ":"%char) with false by done. rewrite pvalue_space, Hx by done. by rewrite string_of_bytes.
Qed.

Lemma pmembers_joined n m fs acc f r :
  fs ≠ [] → Forall (fun x => pretty_ok x.2) fs → NoDup (acc ++ fs).*1 →
  (length (joined n (map (pmember n) fs)) + 1 < f)%nat →
  pmembers f acc (joined n (map (pmember n) fs) ++ nl m ++ "}"%char :: r) = Some (acc ++ fs, r).
Proof.
  intros Hne Hl. revert f acc Hne. induction Hl as [|[k x] fs Hx Hl IH]; intros f acc Hne Hnd Hf; [done|].
  destruct f as [|f]; [lia|].
  assert (Hset : map_set k x acc = acc ++ [(k, x)]).
  { apply map_set_fresh. rewrite fmap_app, fmap_cons in Hnd.
    apply NoDup_app in Hnd as (_ & Hnd & _). intros Hin. apply (Hnd _ Hin). set_solver. }
  assert (Hlen : (length (pmember n (k, x)) > length (pretty n x))%nat).
  { unfold pmember. cbn [fst snd]. rewrite !length_app. cbn [length]. lia. }
  destruct fs as [|y fs].
  - change (joined n (map (pmember n) [(k, x)])) with (pmember n (k, x)) in *.
    rewrite pmembers_pstep; [|done|lia|apply delim_nl]. rewrite skip_ws_nl. cbn [skip_ws].
    replace (json_ws "}"%char) with false by done. by rewrite Hset.
  - change (joined n (map (pmember n) ((k, x) :: y :: fs)))
      with (pmember n (k, x) ++ ","%char :: nl n ++ joined n (map (pmember n) (y :: fs))) in *.
    rewrite length_app in Hf. cbn [length] in Hf. rewrite length_app in Hf.
    rewrite <-app_assoc, pmembers_pstep; [|done|lia|apply delim_comma]. cbn [skip_ws app].
    replace (json_ws ","%char) with false by done.
    rewrite <-app_assoc, pmembers_nl, Hset, IH; [|done| |lia]; by rewrite <-app_assoc.
Qed.

Lemma pretty_head n j : match pretty n j with c :: _ => value_head c | [] => false end = true.
Proof. destruct j as [|b|q|s|[|x l]|[|x fs]]; try done; apply stringify_head. Qed.

(** After an opening bracket and a line break comes no closing one. *)
Lemma not_close_nl n s r x y : match s with c :: _ => value_head c | [] => false end = true →
  match skip_ws (nl n ++ s ++ r) with "]"%char :: r' => x r' | _ => y end = y
  ∧ match skip_ws (nl n ++ s ++ r) with "}"%char :: r' => x r' | _ => y end = (y : option (json * bytes)).
Proof. rewrite skip_ws_nl. apply not_close. Qed.

Lemma joined_head (P : ascii → bool) n (l : list bytes) :
  l ≠ [] → Forall (fun b => match b with c :: _ => P c | [] => false end = true) l →
  match joined n l with c :: _ => P c | [] => false end = true.
Proof. intros Hne Hl. destruct Hl as [|[|c b] [|b2 l] Hb Hl]; done. Qed.

Lemma pretty_is_ok j : serialisable j = true → pretty_ok j.
Proof.
  induction j as [|b|q|s|l IH|fs IH] using json_ind'; intros Hj n f r Hf Hr;
    try (apply (stringify_ok _ Hj); done).
  - destruct l as [|x l]; [apply (stringify_ok _ Hj); done|]. destruct f as [|f]; [lia|].
    cbn [serialisable] in Hj. pose proof (Forall_checked _ _ _ Hj IH) as Hall.
    change (pretty n (JArr (x :: l))) with
      ("["%char :: nl (n + 2) ++ joined (n + 2) (map (pretty (n + 2)) (x :: l)) ++ nl n ++ ["]"%char]) in *.
    rewrite <-app_comm_cons, <-!app_assoc. cbn [pvalue skip_ws]. replace (json_ws "["%char) with false by done.
    rewrite bool_decide_eq_false_2, bool_decide_eq_true_2 by done. cbn [app].
    assert (Hh : match joined (n + 2) (map (pretty (n + 2)) (x :: l)) with c :: _ => value_head c | [] => false end = true).
    { apply joined_head; [done|]. apply Forall_fmap, Forall_true. intros y. apply pretty_head. }
    etransitivity; [apply (proj1 (not_close_nl _ _ _ _ _ Hh))|].
    rewrite pelems_nl, pelems_joined; [done|done|done|].
    cbn [length] in Hf. rewrite !length_app in Hf. cbn [length nl] in Hf. lia.
  - destruct fs as [|x fs]; [apply (stringify_ok _ Hj); done|]. destruct f as [|f]; [lia|].
    cbn [serialisable] in Hj. apply andb_prop in Hj as [Hnd%bool_decide_eq_true Hj].
    pose proof (Forall_checked _ _ _ Hj IH) as Hall.
    change (pretty n (JObj (x :: fs))) with
      ("{"%char :: nl (n + 2) ++ joined (n + 2) (map (pmember (n + 2)) (x :: fs)) ++ nl n ++ ["}"%char]) in *.
    rewrite <-app_comm_cons, <-!app_assoc. cbn [pvalue skip_ws]. replace (json_ws "{"%char) with false by done.
    rewrite !bool_decide_eq_false_2, bool_decide_eq_true_2 by done. cbn [app].
    assert (Hh : match joined (n + 2) (map (pmember (n + 2)) (x :: fs)) with c :: _ => value_head c | [] => false end = true).
    { apply joined_head; [done|]. by apply Forall_fmap, Forall_true. }
    etransitivity; [apply (proj2 (not_close_nl _ _ _ _ _ Hh))|].
    rewrite pmembers_nl, pmembers_joined; [done|done|done|done|].
    cbn [length] in Hf. rewrite !length_app in Hf. cbn [length nl] in Hf. lia.
Qed.

(** An indented value, with the line break that ends its file, is read back as it was. *)
Lemma parse_pretty j : serialisable j = true → parse (pretty 0 j ++ nl 0) = Some j.
Proof.
  intros Hj. unfold parse. rewrite (pretty_is_ok j Hj); [by rewrite <-(app_nil_r (nl 0)), skip_ws_nl| |].
  - rewrite length_app. cbn. lia.
  - rewrite <-(app_nil_r (nl 0)). apply delim_nl.
Qed.

Definition quoted_name (s : string) : bytes := [QUOTE] ++ bytes_of s ++ [QUOTE].

Example pretty_nested :
  pretty 0 (JObj [("a", JArr [JNum 1; JObj []]); ("b", JArr [])])
  = join_char (ascii_of_nat 10)
      [bytes_of "{"; bytes_of "  " ++ quoted_name "a" ++ bytes_of ": ["; bytes_of "    1,"; bytes_of "    {}"; bytes_of "  ],";
       bytes_of "  " ++ quoted_name "b" ++ bytes_of ": []"; bytes_of "}"].
Proof. by vm_compute. Qed.
