(* ===== verification/Prog.v ===== *)
(** * Asynchronous code

    An [async] function as a tree: it returns, throws, or awaits a call and goes on
    with the answer.  What a call answers is up to the environment, so a statement
    about every run of a tree covers every answer, and every interleaving point is a
    node.  Used for the leaf paths ([Leaf]) and the queue consumer ([WorkQueue]). *)

From S2P Require Import Prelude.

Section Prog.
Context {C : Type} {R : C → Type} {E : Type}.

Inductive prog (A : Type) : Type :=
| Ret (a : A)
| Err (e : E)
| Call (c : C) (k : R c → prog A).
Arguments Ret {A} a.
Arguments Err {A} e.
Arguments Call {A} c k.

Fixpoint pbind {A B} (p : prog A) (f : A → prog B) : prog B :=
  match p with
  | Ret a => f a
  | Err e => Err e
  | Call c k => Call c (fun r => pbind (k r) f)
  end.

(** [try { p } catch (e) { h(e) }] *)
Fixpoint pcatch {A} (p : prog A) (h : E → prog A) : prog A :=
  match p with
  | Ret a => Ret a
  | Err e => h e
  | Call c k => Call c (fun r => pcatch (k r) h)
  end.

(** [try { p } finally { f }]: the outcome of [p], unless [f] throws. *)
Fixpoint pfinally {A} (p : prog A) (f : prog unit) : prog A :=
  match p with
  | Ret a => pbind f (fun _ => Ret a)
  | Err e => pbind f (fun _ => Err e)
  | Call c k => Call c (fun r => pfinally (k r) f)
  end.

(** A completed call and its answer. *)
Definition event : Type := {c : C & R c}.

Definition ev (c : C) (r : R c) : event := existT c r.

(** Runs of a tree to its end. *)
Inductive runs {A} : prog A → list event → result E A → Prop :=
| runs_ret a : runs (Ret a) [] (Ok a)
| runs_err e : runs (Err e) [] (Throw e)
| runs_call c k r tr o : runs (k r) tr o → runs (Call c k) (ev c r :: tr) o.

Lemma runs_inv {A} (p : prog A) tr o :
  runs p tr o →
  match p with
  | Ret a => tr = [] ∧ o = Ok a
  | Err e => tr = [] ∧ o = Throw e
  | Call c k => ∃ r tr', tr = ev c r :: tr' ∧ runs (k r) tr' o
  end.
Proof. destruct 1; eauto. Qed.

Lemma runs_bind {A B} (p : prog A) (f : A → prog B) tr o :
  runs (pbind p f) tr o →
  (∃ e, runs p tr (Throw e) ∧ o = Throw e) ∨ ∃ a t1 t2, tr = t1 ++ t2 ∧ runs p t1 (Ok a) ∧ runs (f a) t2 o.
Proof.
  revert tr. induction p as [a|e|c k IH]; simpl; intros tr Hr.
  - right. exists a, [], tr. split_and!; [done|constructor|done].
  - left. exists e. apply runs_inv in Hr as [-> ->]. split; [constructor|done].
  - apply runs_inv in Hr as (r & tr' & -> & [(e & ? & ?)|(a & t1 & t2 & -> & ? & ?)]%IH).
    + left. exists e. split; [by constructor|done].
    + right. exists a, (ev c r :: t1), t2. split_and!; [done|by constructor|done].
Qed.

Lemma runs_catch {A} (p : prog A) (h : E → prog A) tr o :
  runs (pcatch p h) tr o →
  (∃ a, runs p tr (Ok a) ∧ o = Ok a) ∨ ∃ e t1 t2, tr = t1 ++ t2 ∧ runs p t1 (Throw e) ∧ runs (h e) t2 o.
Proof.
  revert tr. induction p as [a|e|c k IH]; simpl; intros tr Hr.
  - left. exists a. split; [|by apply runs_inv in Hr as [_ ?]]. apply runs_inv in Hr as [-> _]. constructor.
  - right. exists e, [], tr. split_and!; [done|constructor|done].
  - apply runs_inv in Hr as (r & tr' & -> & [(a & ? & ?)|(e & t1 & t2 & -> & ? & ?)]%IH).
    + left. exists a. split; [by constructor|done].
    + right. exists e, (ev c r :: t1), t2. split_and!; [done|by constructor|done].
Qed.

(** Every call the tree can make satisfies [P]. *)
Fixpoint calls {A} (P : C → Prop) (p : prog A) : Prop :=
  match p with
  | Call c k => P c ∧ ∀ r, calls P (k r)
  | _ => True
  end.

Lemma calls_bind {A B} P (p : prog A) (f : A → prog B) :
  calls P p → (∀ a, calls P (f a)) → calls P (pbind p f).
Proof. intros Hp Hf. induction p as [a|e|c k IH]; simpl in *; naive_solver. Qed.

Lemma calls_catch {A} P (p : prog A) (h : E → prog A) :
  calls P p → (∀ e, calls P (h e)) → calls P (pcatch p h).
Proof. intros Hp Hh. induction p as [a|e|c k IH]; simpl in *; naive_solver. Qed.

Lemma calls_runs {A} P (p : prog A) tr o : calls P p → runs p tr o → Forall (fun x : event => P (projT1 x)) tr.
Proof. intros Hp Hr. induction Hr as [| |c k r tr o _ IH]; constructor; [by destruct Hp|apply IH, Hp]. Qed.

Lemma calls_mono {A} (P P' : C → Prop) (p : prog A) : (∀ c, P c → P' c) → calls P p → calls P' p.
Proof. intros HP. induction p as [a|e|c k IH]; simpl; naive_solver. Qed.

(** Every call satisfies [P], and what is returned satisfies [Q]. *)
Fixpoint ensures {A} (P : C → Prop) (Q : A → Prop) (p : prog A) : Prop :=
  match p with
  | Ret a => Q a
  | Err _ => True
  | Call c k => P c ∧ ∀ r, ensures P Q (k r)
  end.

Lemma ensures_bind {A B} P (Q : A → Prop) (Q' : B → Prop) (p : prog A) (f : A → prog B) :
  ensures P Q p → (∀ a, Q a → ensures P Q' (f a)) → ensures P Q' (pbind p f).
Proof. intros Hp Hf. induction p as [a|e|c k IH]; simpl in *; naive_solver. Qed.

Lemma ensures_catch {A} P (Q : A → Prop) (p : prog A) (h : E → prog A) :
  ensures P Q p → (∀ e, ensures P Q (h e)) → ensures P Q (pcatch p h).
Proof. intros Hp Hh. induction p as [a|e|c k IH]; simpl in *; naive_solver. Qed.

Lemma ensures_finally {A} P (Q : A → Prop) (p : prog A) (f : prog unit) :
  ensures P Q p → ensures P (fun _ => True) f → ensures P Q (pfinally p f).
Proof.
  intros Hp Hf. induction p as [a|e|c k IH]; simpl in *; [..|naive_solver].
  - eapply ensures_bind; [exact Hf|]. done.
  - eapply ensures_bind; [exact Hf|]. done.
Qed.

Lemma ensures_mono {A} (P P' : C → Prop) (Q Q' : A → Prop) (p : prog A) :
  (∀ c, P c → P' c) → (∀ a, Q a → Q' a) → ensures P Q p → ensures P' Q' p.
Proof. intros HP HQ. induction p as [a|e|c k IH]; simpl; naive_solver. Qed.

Lemma ensures_runs {A} P (Q : A → Prop) (p : prog A) tr o :
  ensures P Q p → runs p tr o →
  Forall (fun x : event => P (projT1 x)) tr ∧ match o with Ok a => Q a | Throw _ => True end.
Proof.
  intros Hp Hr. induction Hr as [a|e|c k r tr o _ IH]; [by split|by split|].
  destruct Hp as [Hc Hk]. destruct (IH (Hk r)) as [??]. split; [by constructor|done].
Qed.

Lemma runs_finally {A} (p : prog A) (f : prog unit) tr o :
  runs (pfinally p f) tr o →
  ∃ t1 t2 o1 o2, tr = t1 ++ t2 ∧ runs p t1 o1 ∧ runs f t2 o2 ∧ o = match o2 with Ok _ => o1 | Throw e => Throw e end.
Proof.
  revert tr. induction p as [a|e|c k IH]; simpl; intros tr Hr.
  - exists [], tr, (Ok a). apply runs_bind in Hr as [(e & Hf & ->)|(u & t1 & t2 & -> & Hf & [-> ->]%runs_inv)].
    + exists (Throw e). split_and!; [done|constructor|done|done].
    + rewrite app_nil_r. exists (Ok u). split_and!; [done|constructor|done|done].
  - exists [], tr, (Throw e). apply runs_bind in Hr as [(e' & Hf & ->)|(u & t1 & t2 & -> & Hf & [-> ->]%runs_inv)].
    + exists (Throw e'). split_and!; [done|constructor|done|done].
    + rewrite app_nil_r. exists (Ok u). split_and!; [done|constructor|done|done].
  - apply runs_inv in Hr as (r & tr' & -> & (t1 & t2 & o1 & o2 & -> & H1 & H2 & ->)%IH).
    exists (ev c r :: t1), t2, o1, o2. split_and!; [done|by constructor|done|done].
Qed.

(** Every call satisfies [P] of the calls before it, what is returned satisfies [Q] of the
    history and what is thrown [X]. *)
Fixpoint spec {A} (P : list event → C → Prop) (Q : list event → A → Prop) (X : list event → E → Prop)
    (h : list event) (p : prog A) : Prop :=
  match p with
  | Ret a => Q h a
  | Err e => X h e
  | Call c k => P h c ∧ ∀ r, spec P Q X (h ++ [ev c r]) (k r)
  end.

Lemma spec_bind {A B} P (Q : list event → B → Prop) X h (p : prog A) (f : A → prog B) :
  spec P (fun h a => spec P Q X h (f a)) X h p → spec P Q X h (pbind p f).
Proof. revert h. induction p as [a|e|c k IH]; intros h Hp; simpl in *; [done|done|]. destruct Hp. split; auto. Qed.

Lemma spec_catch {A} P (Q : list event → A → Prop) X h (p : prog A) (hd : E → prog A) :
  spec P Q (fun h e => spec P Q X h (hd e)) h p → spec P Q X h (pcatch p hd).
Proof. revert h. induction p as [a|e|c k IH]; intros h Hp; simpl in *; [done|done|]. destruct Hp. split; auto. Qed.

Lemma spec_mono {A} (P P' : list event → C → Prop) (Q Q' : list event → A → Prop) (X X' : list event → E → Prop) h p :
  (∀ h c, P h c → P' h c) → (∀ h a, Q h a → Q' h a) → (∀ h e, X h e → X' h e) → spec P Q X h p → spec P' Q' X' h p.
Proof.
  intros HP HQ HX. revert h. induction p as [a|e|c k IH]; intros h Hp; simpl in *; [by auto|by auto|].
  destruct Hp. split; auto.
Qed.

Lemma spec_runs {A} P (Q : list event → A → Prop) X h (p : prog A) tr o :
  spec P Q X h p → runs p tr o →
  (∀ tr1 c r tr2, tr = tr1 ++ ev c r :: tr2 → P (h ++ tr1) c)
  ∧ match o with Ok a => Q (h ++ tr) a | Throw e => X (h ++ tr) e end.
Proof.
  intros Hp Hr. revert h Hp. induction Hr as [a|e|c k r tr o _ IH]; intros h Hp; simpl in Hp.
  - rewrite app_nil_r. split; [|done]. by intros [] ? ? ? [=].
  - rewrite app_nil_r. split; [|done]. by intros [] ? ? ? [=].
  - destruct Hp as [Hc Hk]. destruct (IH _ (Hk r)) as [Hpre Ho]. rewrite <-app_assoc in Ho. split; [|done].
    intros [|x tr1] c' r' tr2 Heq.
    + rewrite app_nil_r. pose proof (f_equal (fun l => projT1 <$> head l) Heq) as Hc'. by injection Hc' as <-.
    + injection Heq as <- Heq. rewrite (cons_middle (ev c r) h tr1), app_assoc. by eapply Hpre.
Qed.

(** Weakest precondition over the history so far. *)
Fixpoint wp {A} (p : prog A) (Q : list event → result E A → Prop) (h : list event) : Prop :=
  match p with
  | Ret a => Q h (Ok a)
  | Err e => Q h (Throw e)
  | Call c k => ∀ r, wp (k r) Q (h ++ [ev c r])
  end.

Lemma wp_sound {A} (p : prog A) Q h tr o : wp p Q h → runs p tr o → Q (h ++ tr) o.
Proof.
  intros Hwp Hr. revert h Hwp. induction Hr as [a|e|c k r tr o _ IH]; intros h Hwp.
  - by rewrite app_nil_r.
  - by rewrite app_nil_r.
  - rewrite (cons_middle (ev c r)). rewrite app_assoc. by apply IH.
Qed.

Lemma wp_mono {A} (p : prog A) (Q Q' : list event → result E A → Prop) h :
  (∀ h o, Q h o → Q' h o) → wp p Q h → wp p Q' h.
Proof. intros HQ. revert h. induction p as [a|e|c k IH]; intros h Hp; simpl in *; auto. Qed.

Lemma wp_bind {A B} (p : prog A) (f : A → prog B) Q h :
  wp p (fun h o => match o with Ok a => wp (f a) Q h | Throw e => Q h (Throw e) end) h →
  wp (pbind p f) Q h.
Proof. revert h. induction p as [a|e|c k IH]; intros h Hp; simpl in *; auto. Qed.

Lemma wp_finally {A} (p : prog A) (f : prog unit) Q h :
  wp p (fun h o => wp f (fun h' o2 => match o2 with Ok _ => Q h' o | Throw e => Q h' (Throw e) end) h) h →
  wp (pfinally p f) Q h.
Proof.
  revert h. induction p as [a|e|c k IH]; intros h Hp; simpl in *; auto;
    apply wp_bind; (eapply wp_mono; [|exact Hp]); by intros h' [].
Qed.

Lemma wp_catch {A} (p : prog A) (hd : E → prog A) Q h :
  wp p (fun h o => match o with Ok a => Q h (Ok a) | Throw e => wp (hd e) Q h end) h → wp (pcatch p hd) Q h.
Proof. revert h. induction p as [a|e|c k IH]; intros h Hp; simpl in *; auto. Qed.
End Prog.

Arguments prog C R E A : clear implicits.
Arguments Ret {C R E A} a.
Arguments Err {C R E A} e.
Arguments Call {C R E A} c k.

(** ** Runs against a state

    [prun] runs a tree against a responder that answers every call.  [pstep] is one call
    answered in any way [reply] allows, so failures and lost replies are among the
    answers; [always] is the weakest precondition of "[I] holds at every point, and [Q] of
    the outcome". *)

Section State.
Context {C : Type} {R : C → Type} {E St : Type}.

Fixpoint prun {A} (respond : ∀ c, St → R c * St) (p : prog C R E A) (s : St) : result E A * St :=
  match p with
  | Ret a => (Ok a, s)
  | Err e => (Throw e, s)
  | Call c k => let '(r, s') := respond c s in prun respond (k r) s'
  end.

Lemma prun_bind {A B} respond (p : prog C R E A) (f : A → prog C R E B) s :
  prun respond (pbind p f) s =
  match prun respond p s with
  | (Ok a, s') => prun respond (f a) s'
  | (Throw e, s') => (Throw e, s')
  end.
Proof.
  revert s. induction p as [a|e|c k IH]; intros s; simpl; [by destruct (prun respond (f a) s)|done|].
  destruct (respond c s) as [r s']. apply IH.
Qed.

(** The same run, with the calls it makes. *)
Fixpoint ptrace {A} (respond : ∀ c, St → R c * St) (p : prog C R E A) (s : St) : list (@event C R) * result E A :=
  match p with
  | Ret a => ([], Ok a)
  | Err e => ([], Throw e)
  | Call c k =>
      let '(r, s') := respond c s in
      let '(tr, o) := ptrace respond (k r) s' in (ev c r :: tr, o)
  end.

Lemma ptrace_runs {A} respond (p : prog C R E A) s : runs p (ptrace respond p s).1 (ptrace respond p s).2.
Proof.
  revert s. induction p as [a|e|c k IH]; intros s; simpl; [constructor..|].
  destruct (respond c s) as [r s']. specialize (IH r s'). destruct (ptrace respond (k r) s') as [tr o].
  by constructor.
Qed.

Context (reply : ∀ c, St → R c → St → Prop).

Inductive pstep {A} : prog C R E A * St → prog C R E A * St → Prop :=
| pstep_call c k s r s' : reply c s r s' → pstep (Call c k, s) (k r, s').

Definition of_result {A} (o : result E A) : prog C R E A :=
  match o with Ok a => Ret a | Throw e => Err e end.

(** A run is a sequence of steps when the responder is one of the allowed replies. *)
Lemma prun_steps {A} respond (p : prog C R E A) s :
  (∀ c s, reply c s (respond c s).1 (respond c s).2) →
  rtc pstep (p, s) (of_result (prun respond p s).1, (prun respond p s).2).
Proof.
  intros Hr. revert s. induction p as [a|e|c k IH]; intros s; simpl; [apply rtc_refl..|].
  specialize (Hr c s). destruct (respond c s) as [r s']. eapply rtc_l; [by constructor|apply IH].
Qed.

Fixpoint always {A} (I : St → Prop) (p : prog C R E A) (Q : result E A → St → Prop) (s : St) : Prop :=
  I s ∧ match p with
        | Ret a => Q (Ok a) s
        | Err e => Q (Throw e) s
        | Call c k => ∀ r s', reply c s r s' → always I (k r) Q s'
        end.

Lemma always_inv {A} I (p : prog C R E A) Q s : always I p Q s → I s.
Proof. destruct p; by intros [? _]. Qed.

Lemma always_steps {A} I (p p' : prog C R E A) Q s s' :
  always I p Q s → rtc pstep (p, s) (p', s') → always I p' Q s'.
Proof.
  intros Ha Hr. remember (p, s) as c eqn:Ec. remember (p', s') as c' eqn:Ec'.
  revert p s Ha Ec. induction Hr as [x|x y z Hs _ IH]; intros p s Ha Ec; [congruence|].
  destruct Hs as [c k s1 r s2 Hr]. injection Ec as Hp Hst. subst p s1.
  destruct Ha as [_ Hk]. eapply IH; [done|by apply Hk|done].
Qed.

Lemma always_bind {A B} I (p : prog C R E A) (f : A → prog C R E B) Q s :
  always I p (fun o s => match o with Ok a => always I (f a) Q s | Throw e => Q (Throw e) s end) s →
  always I (pbind p f) Q s.
Proof.
  revert s. induction p as [a|e|c k IH]; simpl; intros s [HI H]; [done|by split|].
  split; [done|]. intros r s' Hr. by apply IH, H.
Qed.

Lemma always_mono {A} (I I' : St → Prop) (p : prog C R E A) (Q Q' : result E A → St → Prop) s :
  (∀ s, I s → I' s) → (∀ o s, Q o s → Q' o s) → always I p Q s → always I' p Q' s.
Proof.
  intros HI HQ. revert s. induction p as [a|e|c k IH]; simpl; intros s [Hs H]; split; auto.
Qed.

Lemma always_catch {A} I (p : prog C R E A) (h : E → prog C R E A) Q s :
  always I p (fun o s => match o with Ok a => Q (Ok a) s | Throw e => always I (h e) Q s end) s →
  always I (pcatch p h) Q s.
Proof.
  revert s. induction p as [a|e|c k IH]; simpl; intros s [HI Hp]; [done|done|]. split; [done|]. intros r s' Hr.
  by apply IH, Hp.
Qed.

Lemma always_post {A} I (p : prog C R E A) Q s : always I p Q s → always I p (fun o s => I s ∧ Q o s) s.
Proof. revert s. induction p as [a|e|c k IH]; simpl; intros s [HI Hp]; split; auto. Qed.

Lemma always_finally {A} I (p : prog C R E A) (f : prog C R E unit) Q s :
  always I p (fun o s => always I f (fun o2 s => match o2 with Ok _ => Q o s | Throw e => Q (Throw e) s end) s) s →
  always I (pfinally p f) Q s.
Proof.
  revert s. induction p as [a|e|c k IH]; simpl; intros s [HI Hp].
  - apply always_bind. eapply always_mono; [done| |apply always_post, Hp]. by intros [u|e'] s' [??].
  - apply always_bind. eapply always_mono; [done| |apply always_post, Hp]. by intros [u|e'] s' [??].
  - split; [done|]. intros r s' Hr. by apply IH, Hp.
Qed.
End State.

(** The calls of one component among those of a larger one. *)
Section Lift.
Context {C C' : Type} {R : C → Type} {R' : C' → Type} {E : Type}.
Context (inj : C → C') (back : ∀ c, R' (inj c) → R c).

Fixpoint plift {A} (p : prog C R E A) : prog C' R' E A :=
  match p with
  | Ret a => Ret a
  | Err e => Err e
  | Call c k => Call (inj c) (fun r => plift (k (back c r)))
  end.

Lemma calls_lift {A} (P : C' → Prop) (p : prog C R E A) : calls (fun c => P (inj c)) p → calls P (plift p).
Proof. induction p as [a|e|c k IH]; simpl; naive_solver. Qed.
End Lift.

Lemma calls_of_result {C R E A} (P : C → Prop) (o : result E A) : calls P (of_result (R := R) o).
Proof. by destruct o. Qed.

Notation "'await' x <- p ; k" := (pbind p (fun x => k))
  (at level 60, x binder, p at next level, right associativity) : moca_scope.
