(* ===== verification/Gate.v ===== *)
(** * Approval gates, verdicts and the budget voter

    Models [harness/src/gate.ts], [harness/src/verdict.ts],
    [harness/src/budget-voter.ts], the tool bodies of
    [harness/src/request-approval-tool.ts] and [harness/src/submit-verdict-tool.ts],
    [harness/src/verdict-termination-extension.ts], and the gate front end of
    [realProduceVerdict] in [harness/src/run-leaf.ts].

    The state of a leaf's gates is not kept anywhere: it is recomputed from the
    durable session log at each invocation, so the model is a log and what each
    invocation, and the agent it runs, append to it. *)

From Stdlib Require Import QArith.
From S2P Require Import Prelude JsNumber Json.

Local Open Scope Z_scope.

Inductive GateAction := approve | reject | abort.

#[export] Instance GateAction_eq_dec : EqDecision GateAction.
Proof. solve_decision. Defined.

Record GateRequest := mkRequest {
  r_gateId : Q;
  r_summary : string;
  r_proposed_action : string;
}.

Record Decision := mkDecision {
  d_gateId : Z;
  d_action : GateAction;
  d_feedback : option string;
}.

Inductive decision_error := NotAnObject | BadGateId | BadAction | BadFeedback.

Definition action_of (j : option json) : option GateAction :=
  match as_string j with
  | Some s => if decide (s = "approve") then Some approve
              else if decide (s = "reject") then Some reject
              else if decide (s = "abort") then Some abort else None
  | None => None
  end.

Definition validateDecision (obj : json) : result decision_error Decision :=
  require is_object obj else NotAnObject;
  match (q ← as_number (field "gateId" obj); integer_of q) with
  | Some n =>
      require negb (n <? 0) else BadGateId;
      match action_of (field "action" obj) with
      | None => Throw BadAction
      | Some a =>
          match field "feedback" obj with
          | None => Ok (mkDecision n a None)
          | Some (JStr s) => Ok (mkDecision n a (Some s))
          | Some _ => Throw BadFeedback
          end
      end
  | None => Throw BadGateId
  end.

(** ** Log entries *)

Definition GATE_REQUEST_ENTRY_TYPE : string := "gate-request".
Definition GATE_DECISION_ENTRY_TYPE : string := "gate-decision".

Definition is_custom (customType : string) (entry : json) : bool :=
  truthy entry && bool_decide (as_string (field "type" entry) = Some "custom")
  && bool_decide (as_string (field "customType" entry) = Some customType).

Definition isGateRequestEntry : json → bool := is_custom GATE_REQUEST_ENTRY_TYPE.
Definition isGateDecisionEntry : json → bool := is_custom GATE_DECISION_ENTRY_TYPE.

Definition gateRequestFromEntry (entry : json) : option GateRequest :=
  if isGateRequestEntry entry then
    d ← field "data" entry;
    if truthy d then
      gateId ← as_number (field "gateId" d);
      summary ← as_string (field "summary" d);
      proposed ← as_string (field "proposed_action" d);
      Some (mkRequest gateId summary proposed)
    else None
  else None.

(** A missing [data] is [undefined], which is not an object. *)
Definition gateDecisionFromEntry (entry : json) : option Decision :=
  if isGateDecisionEntry entry then
    match field "data" entry with
    | Some d => match validateDecision d with Ok v => Some v | Throw _ => None end
    | None => None
    end
  else None.

Record GateState := mkGateState {
  gateRequests : list GateRequest;
  gateDecisions : list Decision;
  pendingGate : option GateRequest;
  lastDecision : option Decision;
  nextGateId : Z;
}.

(** [decidedIds.has(id)] *)
Definition decided (ds : list Decision) (id : Q) : bool :=
  existsb (fun d => Qeq_bool (inject_Z (d_gateId d)) id) ds.

Definition computeGateState (entries : list json) : GateState :=
  let requests := omap gateRequestFromEntry entries in
  let decisions := omap gateDecisionFromEntry entries in
  let pending := foldl (fun acc r => if decided decisions (r_gateId r) then acc else Some r) None requests in
  mkGateState requests decisions pending (last decisions) (Z.of_nat (length requests)).

Definition feedback_suffix (feedback : option string) : string :=
  match feedback with Some "" | None => "" | Some f => " " +:+ f end.

Definition NLs : string := string_of [ascii_of_nat 10].

Definition approved_prompt (feedback : option string) : string :=
  "Human decision: APPROVED." +:+ feedback_suffix feedback +:+ NLs
  +:+ "Proceed with the proposed action. When finished, call submit_verdict exactly once, then stop.".

Definition rejected_prompt (feedback : option string) : string :=
  "Human decision: REJECTED. " +:+ default "No feedback provided." feedback +:+ NLs
  +:+ "Revise accordingly. You may call request_approval again when ready, or call submit_verdict when done.".

(** Only called with [approve] and [reject]. *)
Definition continuationPrompt (action : GateAction) (feedback : option string) : string :=
  match action with approve => approved_prompt feedback | _ => rejected_prompt feedback end.

Inductive SeedDecision :=
| Paused (gate : GateRequest)
| AbortSeed (record : option Decision)
| Seed (prompt : string) (record : option Decision).

Definition decideSeed (state : GateState) (decision : option Decision) (freshPrompt : string) : SeedDecision :=
  match pendingGate state with
  | Some pending =>
      match decision with
      | Some d =>
          if Qeq_bool (inject_Z (d_gateId d)) (r_gateId pending) then
            let record := if decided (gateDecisions state) (r_gateId pending) then None
                          else Some (mkDecision (d_gateId d) (d_action d) (d_feedback d)) in
            match d_action d with
            | abort => AbortSeed record
            | a => Seed (continuationPrompt a (d_feedback d)) record
            end
          else Paused pending
      | None => Paused pending
      end
  | None =>
      match lastDecision state with
      | Some d => match d_action d with
                  | abort => AbortSeed None
                  | a => Seed (continuationPrompt a (d_feedback d)) None
                  end
      | None => Seed freshPrompt None
      end
  end.

(** ** Verdicts *)

Inductive VerdictLabel := FLAGGED | CLEAR.

Record Verdict := mkVerdict {
  v_item_id : string;
  v_verdict : VerdictLabel;
  v_reason : string;
}.

Inductive verdict_error := VNotAnObject | VBadItem | VBadVerdict | VBadReason.

Definition label_of (j : option json) : option VerdictLabel :=
  match as_string j with
  | Some s => if decide (s = "FLAGGED") then Some FLAGGED
              else if decide (s = "CLEAR") then Some CLEAR else None
  | None => None
  end.

Definition validateVerdict (obj : json) : result verdict_error Verdict :=
  require is_object obj else VNotAnObject;
  match as_string (field "item_id" obj) with
  | None | Some "" => Throw VBadItem
  | Some item =>
      match label_of (field "verdict" obj) with
      | None => Throw VBadVerdict
      | Some v =>
          match as_string (field "reason" obj) with
          | None => Throw VBadReason
          | Some reason => Ok (mkVerdict item v reason)
          end
      end
  end.

(** ** What the tools append *)

Definition custom_entry (customType : string) (data : json) : json :=
  JObj [("type", JStr "custom"); ("customType", JStr customType); ("data", data)].

Definition request_json (gateId : Z) (summary proposed : string) : json :=
  JObj [("gateId", JNum (inject_Z gateId)); ("summary", JStr summary); ("proposed_action", JStr proposed)].

Definition action_name (a : GateAction) : string :=
  match a with approve => "approve" | reject => "reject" | abort => "abort" end.

(** [JSON.stringify] leaves an [undefined] feedback out. *)
Definition decision_json (d : Decision) : json :=
  JObj ([("gateId", JNum (inject_Z (d_gateId d))); ("action", JStr (action_name (d_action d)))]
        ++ match d_feedback d with Some f => [("feedback", JStr f)] | None => [] end).

Definition VERDICT_ENTRY_TYPE : string := "verdict".
Definition label_name (v : VerdictLabel) : string :=
  match v with FLAGGED => "FLAGGED" | CLEAR => "CLEAR" end.
Definition verdict_json (v : Verdict) : json :=
  JObj [("item_id", JStr (v_item_id v)); ("verdict", JStr (label_name (v_verdict v)));
        ("reason", JStr (v_reason v))].

(** [request_approval]'s [execute]: the entry appended, or [None] for an error result. *)
Definition request_approval (nextGateId : Z) (summary proposed_action : option json) : option json :=
  match as_string summary, as_string proposed_action with
  | Some s, Some p =>
      if bool_decide (s = "") || bool_decide (p = "") then None
      else Some (custom_entry GATE_REQUEST_ENTRY_TYPE (request_json nextGateId s p))
  | _, _ => None
  end.

(** [submit_verdict]'s [execute]. *)
Definition submit_verdict (args : json) : option json :=
  match validateVerdict args with
  | Ok v => Some (custom_entry VERDICT_ENTRY_TYPE (verdict_json v))
  | Throw _ => None
  end.

Definition DEFAULT_MAX_TURNS : Z := 40.

(** The termination extension: may a tool call run? *)
Definition tool_call_blocked (maxTurns : option Z) (hasVerdict : bool) (turns : Z) : bool :=
  let m := match maxTurns with Some n => if 0 <? n then n else DEFAULT_MAX_TURNS | None => DEFAULT_MAX_TURNS end in
  hasVerdict || (0 <? m) && (m <? turns).

(** ** One invocation of a leaf *)

Definition isVerdictEntry : json → bool := is_custom VERDICT_ENTRY_TYPE.

Definition verdictFromCustomEntry (entry : json) : option Verdict :=
  if isVerdictEntry entry then
    match field "data" entry with
    | Some d => match validateVerdict d with Ok v => Some v | Throw _ => None end
    | None => None
    end
  else None.

(** [verdictFromCustomEntry((await store.latestWhere(sid, isVerdictEntry))?.entry)] *)
Definition recovered (log : list json) : option Verdict :=
  row ← last (filter (fun e => isVerdictEntry e = true) log); verdictFromCustomEntry row.

Inductive LeafAction :=
| LRecovered (v : Verdict)
| LPaused (gate : GateRequest)
| LAborted
| LRun (prompt : string) (allowVerdict : bool) (gateId : Z).

(** The gate front end: what the invocation does, and the log after the records it
    appends before the agent runs. *)
Definition gate_front (require_approval : bool) (env_decision : option json) (freshPrompt : string)
    (log : list json) : LeafAction * list json :=
  let state := computeGateState log in
  let decision := match env_decision with
                  | Some j => if truthy j then match validateDecision j with Ok d => Some d | Throw _ => None end
                              else None
                  | None => None
                  end in
  let appended record := match record with
                         | Some d => [custom_entry GATE_DECISION_ENTRY_TYPE (decision_json d)]
                         | None => []
                         end in
  match decideSeed state decision freshPrompt with
  | AbortSeed record => (LAborted, log ++ appended record)
  | Paused gate => (LPaused gate, log)
  | Seed prompt record =>
      (LRun prompt (negb require_approval || negb (bool_decide (gateDecisions state = []))
                    || match record with Some _ => true | None => false end) (nextGateId state),
       log ++ appended record)
  end.

(** [realProduceVerdict] up to the agent's start: a resumed session whose log already has
    a verdict answers it without running anything. *)
Definition leaf_front (require_approval : bool) (env_decision : option json) (freshPrompt : string)
    (log : list json) : LeafAction * list json :=
  match (if bool_decide (log = []) then None else recovered log) with
  | Some v => (LRecovered v, log)
  | None => gate_front require_approval env_decision freshPrompt log
  end.

(** What the agent of a run may append: other entries, requests under the run's gate
    id, and, when the tool is registered, verdicts. *)
Inductive agent_appends (allowVerdict : bool) (gateId : Z) : list json → Prop :=
| aa_nil : agent_appends allowVerdict gateId []
| aa_other e es :
    gateRequestFromEntry e = None → gateDecisionFromEntry e = None → isVerdictEntry e = false →
    agent_appends allowVerdict gateId es → agent_appends allowVerdict gateId (e :: es)
| aa_request s p e es :
    request_approval gateId s p = Some e →
    agent_appends allowVerdict gateId es → agent_appends allowVerdict gateId (e :: es)
| aa_verdict args e es :
    allowVerdict = true → submit_verdict args = Some e →
    agent_appends allowVerdict gateId es → agent_appends allowVerdict gateId (e :: es).

(** A leaf's life: invocations, each with whatever decision it is given; a run may be cut
    short anywhere, so the agent's appends are arbitrary, and the log it leaves is durable
    up to some point, so a prefix of them may be all that is left.  Invocations of one
    leaf follow each other. *)
Inductive leaf_log (require_approval : bool) (freshPrompt : string) : list json → Prop :=
| ll_new : leaf_log require_approval freshPrompt []
| ll_stop d a log log' :
    leaf_log require_approval freshPrompt log →
    leaf_front require_approval d freshPrompt log = (a, log') →
    (∀ p v g, a ≠ LRun p v g) → leaf_log require_approval freshPrompt log'
| ll_run d p v g log log' es :
    leaf_log require_approval freshPrompt log →
    leaf_front require_approval d freshPrompt log = (LRun p v g, log') →
    agent_appends v g es → leaf_log require_approval freshPrompt (log' ++ es).

(** ** The budget voter *)

(** Does the call commit?  Token counts are exact below [2^53]. *)
Definition decideBudget (spent estimated : Q) (limit : jsnum Q) : bool :=
  match limit with
  | Fin l => if Qle_bool l 0 then true else Qle_bool (spent + estimated) l
  | _ => true
  end.

(** Token usage of an entry that counts: an assistant message with usage, whose four
    counts are numbers, as the entry type declares. *)
Definition usage_of (entry : json) : option Q :=
  if bool_decide (as_string (field "type" entry) = Some "message") then
    m ← field "message" entry;
    if bool_decide (as_string (field "role" m) = Some "assistant") then
      u ← field "usage" m;
      if truthy u then
        i ← as_number (field "input" u); o ← as_number (field "output" u);
        cr ← as_number (field "cacheRead" u); cw ← as_number (field "cacheWrite" u);
        Some (i + o + cr + cw)%Q
      else None
    else None
  else None.

Definition branchSpend (branch : option (list json)) : option Q :=
  (fun b => foldl Qplus 0%Q (omap usage_of b)) <$> branch.

(** The ['tool_call'] handler: the abort entry it appends when it blocks the call. *)
Definition onToolCall (branch : option (list json)) (baseline margin : Q) (limit : jsnum Q) : option (Q * jsnum Q) :=
  match branchSpend branch with
  | None => None
  | Some total =>
      let spent := (total - baseline)%Q in
      if decideBudget spent margin limit then None else Some (spent, limit)
  end.

(** ** Lemmas *)

Definition reqs (log : list json) : list GateRequest := omap gateRequestFromEntry log.
Definition decs (log : list json) : list Decision := omap gateDecisionFromEntry log.
Definition has_verdict (log : list json) : Prop := ∃ e, e ∈ log ∧ isVerdictEntry e = true.

Lemma reqs_app a b : reqs (a ++ b) = reqs a ++ reqs b.
Proof. apply omap_app. Qed.
Lemma decs_app a b : decs (a ++ b) = decs a ++ decs b.
Proof. apply omap_app. Qed.

Lemma Qeq_bool_Z a b : Qeq_bool (inject_Z a) (inject_Z b) = true ↔ a = b.
Proof. rewrite Qeq_bool_iff. unfold Qeq. simpl. lia. Qed.

Lemma decided_true ds n : decided ds (inject_Z n) = true ↔ ∃ d, d ∈ ds ∧ d_gateId d = n.
Proof.
  unfold decided. rewrite existsb_exists. split.
  - intros (d & Hd & Hq%Qeq_bool_Z). exists d. by rewrite list_elem_of_In.
  - intros (d & Hd & <-). exists d. rewrite <-list_elem_of_In. split; [done|by apply Qeq_bool_Z].
Qed.

(** What the tools append is read back as it was written. *)
Lemma request_entry_read g s p e :
  request_approval g s p = Some e →
  ∃ s' p', gateRequestFromEntry e = Some (mkRequest (inject_Z g) s' p')
  ∧ gateDecisionFromEntry e = None ∧ isVerdictEntry e = false.
Proof.
  unfold request_approval. destruct (as_string s) as [s'|]; [|done]. destruct (as_string p) as [p'|]; [|done].
  destruct (_ || _); [done|]. intros [= <-]. exists s', p'. split_and!; reflexivity.
Qed.

Lemma validateDecision_json d : 0 ≤ d_gateId d → validateDecision (decision_json d) = Ok d.
Proof.
  intros Hd. destruct d as [n a f]. cbn [d_gateId] in Hd.
  assert (Hn : (q ← as_number (field "gateId" (decision_json (mkDecision n a f))); integer_of q) = Some n).
  { rewrite <-(integer_of_Z n). by destruct f. }
  unfold validateDecision. rewrite Hn. cbn -[Z.ltb field]. rewrite (proj2 (Z.ltb_ge n 0)) by lia.
  by destruct f, a.
Qed.

Lemma decision_entry_read d :
  0 ≤ d_gateId d →
  gateDecisionFromEntry (custom_entry GATE_DECISION_ENTRY_TYPE (decision_json d)) = Some d
  ∧ gateRequestFromEntry (custom_entry GATE_DECISION_ENTRY_TYPE (decision_json d)) = None
  ∧ isVerdictEntry (custom_entry GATE_DECISION_ENTRY_TYPE (decision_json d)) = false.
Proof.
  intros Hd. split_and!; try reflexivity. transitivity (match validateDecision (decision_json d) with
    | Ok v => Some v | Throw _ => None end); [reflexivity|by rewrite validateDecision_json].
Qed.

Lemma validateVerdict_json j v : validateVerdict j = Ok v → validateVerdict (verdict_json v) = Ok v.
Proof.
  unfold validateVerdict at 1. destruct (is_object j); [|done].
  destruct (as_string (field "item_id" j)) as [[|c s]|]; try done.
  destruct (label_of (field "verdict" j)) as [l|]; [|done].
  destruct (as_string (field "reason" j)) as [r|]; [|done]. intros [= <-]. by destruct l.
Qed.

Lemma verdict_entry_read args e :
  submit_verdict args = Some e →
  gateRequestFromEntry e = None ∧ gateDecisionFromEntry e = None ∧ is_Some (verdictFromCustomEntry e).
Proof.
  unfold submit_verdict. destruct (validateVerdict args) as [v|] eqn:E; [|done]. intros [= <-].
  split_and!; [done|done|]. exists v. transitivity (match validateVerdict (verdict_json v) with
    | Ok v => Some v | Throw _ => None end); [reflexivity|by erewrite validateVerdict_json].
Qed.

Lemma validateDecision_nonneg j d : validateDecision j = Ok d → 0 ≤ d_gateId d.
Proof.
  unfold validateDecision. destruct (is_object j); [|done].
  destruct (q ← as_number (field "gateId" j); integer_of q) as [n|]; [|done].
  destruct (Z.ltb_spec n 0); [done|]. cbn [negb]. destruct (action_of _); [|done].
  destruct (field "feedback" j) as [[]|]; try done; by intros [= <-].
Qed.

(** The pending gate is a request without a decision, and there is one whenever some
    request has none. *)
Lemma pending_spec log :
  match pendingGate (computeGateState log) with
  | Some r => r ∈ reqs log ∧ decided (decs log) (r_gateId r) = false
  | None => ∀ r, r ∈ reqs log → decided (decs log) (r_gateId r) = true
  end.
Proof.
  unfold computeGateState. cbn [pendingGate]. fold (reqs log) (decs log).
  generalize (decs log) as ds. intros ds. generalize (reqs log) as l.
  induction l as [|r l IH] using rev_ind; [by intros r []%elem_of_nil|].
  rewrite foldl_snoc. destruct (decided ds (r_gateId r)) eqn:E.
  - destruct (foldl _ _ l) as [r'|].
    + destruct IH as [IH ?]. split; [|done]. apply elem_of_app. by left.
    + intros r' [Hr| ->%list_elem_of_singleton]%elem_of_app; [by apply IH|done].
  - split; [|done]. apply elem_of_app. right. by left.
Qed.

(** What holds of every log a leaf can have. *)
Record gate_inv (require_approval : bool) (log : list json) : Prop := {
  gi_ids : ∀ r, r ∈ reqs log → ∃ n, r_gateId r = inject_Z n ∧ 0 ≤ n < Z.of_nat (length (reqs log));
  gi_asked : ∀ d, d ∈ decs log → ∃ r, r ∈ reqs log ∧ r_gateId r = inject_Z (d_gateId d);
  gi_once : NoDup (d_gateId <$> decs log);
  gi_one_open : ∀ r r', r ∈ reqs log → r' ∈ reqs log →
    decided (decs log) (r_gateId r) = false → decided (decs log) (r_gateId r') = false → r_gateId r = r_gateId r';
  gi_abort : ∀ d, last (decs log) = Some d → d_action d = abort →
    ∀ r, r ∈ reqs log → decided (decs log) (r_gateId r) = true;
  gi_verdict : require_approval = true → has_verdict log → decs log ≠ [];
  gi_readable : ∀ e, e ∈ log → isVerdictEntry e = true → is_Some (verdictFromCustomEntry e);
  gi_abort_verdict : ∀ d, last (decs log) = Some d → d_action d = abort → ¬ has_verdict log;
}.

Lemma recovered_Some log v : recovered log = Some v → has_verdict log.
Proof.
  unfold recovered. destruct (last _) as [row|] eqn:El; [|done]. intros _. exists row.
  apply last_Some_elem_of in El. by apply list_elem_of_filter in El as [??].
Qed.

(** The fast path is taken exactly when the log has a verdict. *)
Lemma recovered_None ra log : gate_inv ra log → recovered log = None → ¬ has_verdict log.
Proof.
  intros Hi Hr (e & He & Hv). unfold recovered in Hr.
  destruct (last (filter (fun e => isVerdictEntry e = true) log)) as [row|] eqn:El.
  - apply last_Some_elem_of in El. apply list_elem_of_filter in El as [Hrow Hin].
    destruct (gi_readable _ _ Hi row Hin Hrow) as [v Hv']. cbn in Hr. congruence.
  - apply last_None in El. assert (Hin : e ∈ filter (fun e => isVerdictEntry e = true) log)
      by (by apply list_elem_of_filter). rewrite El in Hin. by apply elem_of_nil in Hin.
Qed.

(** The log when the agent starts: nothing is undecided and the last word is not an
    abort. *)
Definition ready_to_run (ra v : bool) (g : Z) (log : list json) : Prop :=
  g = Z.of_nat (length (reqs log)) ∧ (∀ r, r ∈ reqs log → decided (decs log) (r_gateId r) = true)
  ∧ (∀ d, last (decs log) = Some d → d_action d ≠ abort)
  ∧ (ra = true → v = true → decs log ≠ []).

Lemma inv_append_decision ra log p d :
  gate_inv ra log → ¬ has_verdict log → p ∈ reqs log → decided (decs log) (r_gateId p) = false →
  r_gateId p = inject_Z (d_gateId d) → 0 ≤ d_gateId d →
  let log' := log ++ [custom_entry GATE_DECISION_ENTRY_TYPE (decision_json d)] in
  gate_inv ra log' ∧ reqs log' = reqs log ∧ decs log' = decs log ++ [d]
  ∧ ∀ r, r ∈ reqs log' → decided (decs log') (r_gateId r) = true.
Proof.
  intros Hi Hnv Hp Hdp Hid Hn log'. destruct (decision_entry_read d Hn) as (Ed & Er & Ev).
  assert (Hreqs : reqs log' = reqs log).
  { unfold log'. rewrite reqs_app. unfold reqs at 2. cbn [omap list_omap]. by rewrite Er, app_nil_r. }
  assert (Hdecs : decs log' = decs log ++ [d]).
  { unfold log'. rewrite decs_app. unfold decs at 2. cbn [omap list_omap]. by rewrite Ed. }
  assert (Hall : ∀ r, r ∈ reqs log' → decided (decs log') (r_gateId r) = true).
  { rewrite Hreqs, Hdecs. intros r Hr. destruct (gi_ids _ _ Hi r Hr) as (n & Hrn & _). rewrite Hrn.
    apply decided_true. destruct (decided (decs log) (r_gateId r)) eqn:E.
    - rewrite Hrn in E. apply decided_true in E as (d' & Hd' & <-). exists d'. rewrite elem_of_app. auto.
    - exists d. split; [rewrite elem_of_app, list_elem_of_singleton; by right|].
      pose proof (gi_one_open _ _ Hi r p Hr Hp E Hdp) as Heq. rewrite Hrn, Hid in Heq. by injection Heq. }
  split_and!; [|done|done|done]. split; rewrite ?Hreqs; try apply Hi.
  - rewrite Hdecs. intros d' [Hd'| ->%list_elem_of_singleton]%elem_of_app; [by apply Hi|eauto].
  - rewrite Hdecs, fmap_app. apply NoDup_app. split_and!; [apply Hi| |apply NoDup_singleton].
    intros n Hin Hn'. apply list_elem_of_singleton in Hn'. subst n.
    apply list_elem_of_fmap in Hin as (d' & Heq & Hd'). rewrite Hid in Hdp.
    assert (decided (decs log) (inject_Z (d_gateId d)) = true) by (apply decided_true; eauto). congruence.
  - rewrite <-Hreqs. intros r r' Hr Hr' E. rewrite Hall in E by done. done.
  - rewrite <-Hreqs. intros d' _ _. exact Hall.
  - intros Hra (e & He & Hv). rewrite Hdecs. by intros [_ ?]%app_eq_nil.
  - intros e [He| ->%list_elem_of_singleton]%elem_of_app Hv; [by eapply Hi|]. by rewrite Ev in Hv.
  - intros _ _ _ (e & [He| ->%list_elem_of_singleton]%elem_of_app & Hv); [apply Hnv; by exists e|].
    by rewrite Ev in Hv.
Qed.

Lemma gate_front_inv ra d fresh log a log' :
  gate_inv ra log → ¬ has_verdict log → gate_front ra d fresh log = (a, log') →
  gate_inv ra log' ∧ (∀ p v g, a = LRun p v g → ready_to_run ra v g log').
Proof.
  intros Hi Hnv. unfold gate_front. set (dec_ := match d with Some j => _ | None => _ end).
  assert (Hdn : ∀ x, dec_ = Some x → 0 ≤ d_gateId x).
  { intros x. unfold dec_. destruct d as [j|]; [|done]. destruct (truthy j); [|done].
    destruct (validateDecision j) eqn:E; [|done]. intros [= <-]. by eapply validateDecision_nonneg. }
  pose proof (pending_spec log) as Hpend. unfold decideSeed.
  change (gateDecisions (computeGateState log)) with (decs log).
  change (lastDecision (computeGateState log)) with (last (decs log)).
  change (nextGateId (computeGateState log)) with (Z.of_nat (length (reqs log))).
  destruct (pendingGate (computeGateState log)) as [p|].
  - destruct Hpend as [Hp Hud]. destruct dec_ as [x|]; [|intros [= <- <-]; done].
    destruct (Qeq_bool (inject_Z (d_gateId x)) (r_gateId p)) eqn:Eq; [|intros [= <- <-]; done].
    rewrite Hud. destruct (gi_ids _ _ Hi p Hp) as (n & Hpn & _). rewrite Hpn in Eq. apply Qeq_bool_Z in Eq.
    set (x' := mkDecision (d_gateId x) (d_action x) (d_feedback x)).
    assert (Hid : r_gateId p = inject_Z (d_gateId x')) by (rewrite Hpn; unfold x'; simpl; by subst).
    destruct (inv_append_decision ra log p x' Hi Hnv Hp Hud Hid (Hdn x eq_refl)) as (Hi' & Hr' & Hd' & Hall).
    destruct (d_action x) eqn:Ea; intros [= <- <-]; (split; [exact Hi'|]); intros pr v g [= <- <- <-];
      (split_and!; [by rewrite Hr'|exact Hall| |rewrite Hd'; by intros _ _ [_ ?]%app_eq_nil]);
      rewrite Hd', last_snoc; intros y [= <-]; unfold x'; simpl; congruence.
  - destruct (last (decs log)) as [y|] eqn:El.
    + destruct (d_action y) eqn:Ea; intros [= <- <-]; rewrite app_nil_r; (split; [exact Hi|]);
        intros pr v g [= <- <- <-]; (split_and!; [done|exact Hpend| |]);
        try (intros z Hz; rewrite El in Hz; injection Hz as <-; congruence);
        intros _ _ Hnil; rewrite Hnil in El; done.
    + intros [= <- <-]. rewrite app_nil_r. split; [exact Hi|]. intros pr v g [= <- <- <-].
      assert (decs log = []) as Hnil by (by destruct (decs log) using rev_ind; [|rewrite last_snoc in El]).
      split_and!; [done|exact Hpend|by rewrite Hnil|]. intros ->. rewrite Hnil.
      rewrite bool_decide_eq_true_2 by done. done.
Qed.

Lemma leaf_front_inv ra d fresh log a log' :
  gate_inv ra log → leaf_front ra d fresh log = (a, log') →
  gate_inv ra log' ∧ (∀ p v g, a = LRun p v g → ready_to_run ra v g log').
Proof.
  intros Hi. unfold leaf_front. case_bool_decide as Hnil.
  - intros Hf. eapply gate_front_inv; [done| |done]. rewrite Hnil. by intros (e & []%elem_of_nil & _).
  - destruct (recovered log) as [v|] eqn:E; [intros [= <- <-]; done|].
    intros Hf. eapply gate_front_inv; [done|by eapply recovered_None|done].
Qed.

Lemma agent_appends_read v g es :
  agent_appends v g es →
  decs es = [] ∧ (∀ r, r ∈ reqs es → r_gateId r = inject_Z g) ∧ (has_verdict es → v = true)
  ∧ (∀ e, e ∈ es → isVerdictEntry e = true → is_Some (verdictFromCustomEntry e)).
Proof.
  induction 1 as [|e es H1 H2 H3 _ (IH1 & IH2 & IH3 & IH4)|s p e es Hreq _ (IH1 & IH2 & IH3 & IH4)
    |args e es Hv Hsub _ (IH1 & IH2 & IH3 & IH4)].
  - split_and!; [done|by intros r []%elem_of_nil|by intros (e & []%elem_of_nil & _)|by intros e []%elem_of_nil].
  - unfold decs, reqs. cbn [omap list_omap]. rewrite H1, H2. split_and!; [done|done| |].
    + intros (e' & [->|He']%elem_of_cons & Hc); [congruence|]. apply IH3. by exists e'.
    + intros e' [->|He']%elem_of_cons Hc; [congruence|by apply IH4].
  - destruct (request_entry_read g s p e Hreq) as (s' & p' & Hr & Hd & Hc).
    unfold decs, reqs. cbn [omap list_omap]. rewrite Hr, Hd. split_and!; [done| | |].
    + intros r [->|Hr']%elem_of_cons; [done|by apply IH2].
    + intros (e' & [->|He']%elem_of_cons & Hc'); [congruence|]. apply IH3. by exists e'.
    + intros e' [->|He']%elem_of_cons Hc'; [congruence|by apply IH4].
  - destruct (verdict_entry_read args e Hsub) as (Hr & Hd & Hread).
    unfold decs, reqs. cbn [omap list_omap]. rewrite Hr, Hd. split_and!; [done|done|done|].
    intros e' [->|He']%elem_of_cons Hc'; [done|by apply IH4].
Qed.

Lemma agent_inv ra v g log es :
  gate_inv ra log → ready_to_run ra v g log → agent_appends v g es → gate_inv ra (log ++ es).
Proof.
  intros Hi (Hg & Hall & Hlast & Hverd) Hes. destruct (agent_appends_read v g es Hes) as (Hd & Hr & Hv & Hread).
  assert (Hdec : decs (log ++ es) = decs log) by (by rewrite decs_app, Hd, app_nil_r).
  assert (Hng : ∀ d, d ∈ decs log → d_gateId d ≠ g).
  { intros d Hin Heq. destruct (gi_asked _ _ Hi d Hin) as (r & Hr' & Hrid).
    destruct (gi_ids _ _ Hi r Hr') as (n & Hrn & Hn). rewrite Hrid in Hrn. injection Hrn as <-. lia. }
  assert (Hopen : ∀ r, r ∈ reqs (log ++ es) → decided (decs log) (r_gateId r) = false → r_gateId r = inject_Z g).
  { rewrite reqs_app. intros r [Hl|He]%elem_of_app E; [rewrite Hall in E; done|by apply Hr]. }
  split; rewrite ?Hdec.
  - rewrite reqs_app, length_app. intros r [Hl|He]%elem_of_app.
    + destruct (gi_ids _ _ Hi r Hl) as (n & ? & ?). exists n. split; [done|lia].
    + exists g. split; [by apply Hr|]. destruct (reqs es); [by apply elem_of_nil in He|]. simpl. lia.
  - intros d Hin. destruct (gi_asked _ _ Hi d Hin) as (r & ? & ?). exists r. rewrite reqs_app, elem_of_app. auto.
  - apply Hi.
  - intros r r' H1 H2 E1 E2. by rewrite (Hopen r), (Hopen r').
  - intros d Hl Ha. by apply Hlast in Hl.
  - intros Hra (e & [He|He]%elem_of_app & Hc); [apply Hi; [done|by exists e]|].
    apply Hverd; [done|]. apply Hv. by exists e.
  - intros e [He|He]%elem_of_app Hc; [by eapply Hi|by apply Hread].
  - intros d Hl Ha. by apply Hlast in Hl.
Qed.

Lemma leaf_log_inv ra fresh log : leaf_log ra fresh log → gate_inv ra log.
Proof.
  induction 1 as [|d a log log' _ IH Hf _|d p v g log log' es _ IH Hf Hes].
  - split; unfold reqs, decs; simpl; try (by intros ? []%elem_of_nil); try done;
      try apply NoDup_nil_2; try (by intros ? ? []%elem_of_nil).
    intros _ (e & []%elem_of_nil & _).
  - by eapply leaf_front_inv.
  - destruct (leaf_front_inv _ _ _ _ _ _ IH Hf) as [Hi Hr]. eapply agent_inv; [done|by eapply Hr|done].
Qed.

(** ** Properties *)

(** Gates are sequential and answered once: in every log a leaf can have,
    whatever decisions it is invoked with (repeated, stale, malformed, for gates that do
    not exist), whenever it is killed, and however often the agent asks, at
    most one gate is undecided, every recorded decision answers a gate that was
    requested, and no gate has two. *)
Theorem gates_answered_once ra fresh log :
  leaf_log ra fresh log →
  NoDup (d_gateId <$> decs log)
  ∧ (∀ d, d ∈ decs log → ∃ r, r ∈ reqs log ∧ r_gateId r = inject_Z (d_gateId d))
  ∧ (∀ r r', r ∈ reqs log → r' ∈ reqs log → decided (decs log) (r_gateId r) = false →
       decided (decs log) (r_gateId r') = false → r_gateId r = r_gateId r').
Proof. intros H%leaf_log_inv. split_and!; apply H. Qed.

(** A leaf that asks once, is approved, and submits its verdict. *)
Definition ex_request : json :=
  custom_entry GATE_REQUEST_ENTRY_TYPE (request_json 0 "looked at it" "push the fix").
Definition ex_answer (a : GateAction) : json :=
  JObj [("gateId", JNum 0); ("action", JStr (action_name a)); ("feedback", JStr "ok")].
Definition ex_decided (a : GateAction) : json :=
  custom_entry GATE_DECISION_ENTRY_TYPE (decision_json (mkDecision 0 a (Some "ok"))).
Definition ex_verdict_args : json :=
  JObj [("item_id", JStr "i1"); ("verdict", JStr "CLEAR"); ("reason", JStr "fine")].
Definition ex_verdict : json :=
  custom_entry VERDICT_ENTRY_TYPE (verdict_json (mkVerdict "i1" CLEAR "fine")).

Lemma ex_asked : leaf_log true "go" [ex_request].
Proof.
  apply (ll_run true "go" None "go" false 0 [] [] [ex_request]); [apply ll_new|reflexivity|].
  eapply (aa_request false 0 (Some (JStr "looked at it")) (Some (JStr "push the fix"))); [reflexivity|apply aa_nil].
Qed.

Lemma ex_approved : leaf_log true "go" [ex_request; ex_decided approve; ex_verdict].
Proof.
  apply (ll_run true "go" (Some (ex_answer approve)) (continuationPrompt approve (Some "ok")) true 1
           [ex_request] [ex_request; ex_decided approve] [ex_verdict]); [apply ex_asked|reflexivity|].
  eapply (aa_verdict true 1 ex_verdict_args); [done|reflexivity|apply aa_nil].
Qed.

Lemma ex_aborted : leaf_log true "go" [ex_request; ex_decided abort].
Proof.
  eapply (ll_stop true "go" (Some (ex_answer abort)) LAborted [ex_request]); [apply ex_asked|reflexivity|done].
Qed.

Lemma gates_answered_once_witness :
  NoDup (d_gateId <$> decs [ex_request; ex_decided approve; ex_verdict]).
Proof. apply (gates_answered_once true "go" _ ex_approved). Defined.

(** No verdict without a human: a leaf that requires approval has a verdict in
    its log only if the log holds a human decision. *)
Theorem verdict_needs_decision fresh log :
  leaf_log true fresh log → has_verdict log → decs log ≠ [].
Proof. intros H%leaf_log_inv. by apply (gi_verdict _ _ H). Qed.

Lemma verdict_needs_decision_witness : decs [ex_request; ex_decided approve; ex_verdict] ≠ [].
Proof.
  apply (verdict_needs_decision "go" _ ex_approved). exists ex_verdict.
  split; [do 2 right; left|reflexivity].
Defined.

(** An abort is final: once the last recorded decision is an abort, every later
    invocation answers [aborted] without running the agent and without adding to the
    log, whatever decision it is given. *)
Theorem abort_is_final ra fresh log d :
  leaf_log ra fresh log → last (decs log) = Some d → d_action d = abort →
  ∀ env_decision fresh', leaf_front ra env_decision fresh' log = (LAborted, log).
Proof.
  intros Hi%leaf_log_inv Hl Ha ed fresh'. unfold leaf_front.
  replace (if bool_decide (log = []) then None else recovered log) with (@None Verdict).
  2:{ case_bool_decide; [done|]. destruct (recovered log) as [v|] eqn:E; [|done].
      destruct (gi_abort_verdict _ _ Hi d Hl Ha). by eapply recovered_Some. }
  unfold gate_front, decideSeed. pose proof (pending_spec log) as Hp.
  change (lastDecision (computeGateState log)) with (last (decs log)).
  destruct (pendingGate (computeGateState log)) as [p|].
  - destruct Hp as [Hp Hu]. rewrite (gi_abort _ _ Hi d Hl Ha p Hp) in Hu. done.
  - rewrite Hl, Ha. by rewrite app_nil_r.
Qed.

Lemma abort_is_final_witness :
  leaf_front true (Some (ex_answer approve)) "again" [ex_request; ex_decided abort]
  = (LAborted, [ex_request; ex_decided abort]).
Proof.
  apply (abort_is_final true "go" _ (mkDecision 0 abort (Some "ok")) ex_aborted); reflexivity.
Defined.
