(* ===== verification/Leaf.v ===== *)
(** * Leaves: one unit of agent work

    Models [harness/src/run-leaf.ts] ([toSessionId], [leafSessionId], [validateItem],
    the prompts, [runLeaf] and the three kinds of leaf with everything they acquire and
    give back), [harness/src/converge.ts] and [harness/src/classify-outcome.ts].

    A leaf path is a [prog]: a tree of awaited calls to the sandbox pool, the session
    store, the sandbox and the agent, whose answers are arbitrary.  [safe_trace] is a
    monitor over the calls that says which orders of leasing, renewing, using and
    releasing a sandbox are right.  JavaScript strings are lists of 8-bit characters. *)

From Stdlib Require Import QArith.
From S2P Require Import Prelude JsNumber Transport Operations Lease SelectSandbox Json Gate Prog.

Local Open Scope Z_scope.

(** ** Session ids *)

Definition in_range (lo hi : nat) (c : ascii) : bool :=
  (lo <=? nat_of_ascii c)%nat && (nat_of_ascii c <=? hi)%nat.

Definition isAlnum (c : ascii) : bool := in_range 48 57 c || in_range 65 90 c || in_range 97 122 c.

(** [[A-Za-z0-9._-]] *)
Definition id_char (c : ascii) : bool :=
  isAlnum c || bool_decide (c = "."%char) || bool_decide (c = "_"%char) || bool_decide (c = "-"%char).

Definition clean_char (c : ascii) : ascii := if id_char c then c else "-"%char.

(** One of the two scans. *)
Fixpoint skip_to_alnum (l : bytes) : bytes :=
  match l with
  | [] => []
  | c :: l' => if isAlnum c then l else skip_to_alnum l'
  end.

Definition toSessionId (sessionId : bytes) : bytes :=
  let cleaned := map clean_char sessionId in
  match reverse (skip_to_alnum (reverse (skip_to_alnum cleaned))) with
  | [] => bytes_of "leaf"
  | s => s
  end.

Record LeafItem := mkItem {
  it_item_id : string;
  it_file : string;
  it_pattern : string;
  it_require_approval : bool;
}.

(** The fields the leaf paths read. *)
Record LeafEnvelope := mkEnvelope {
  e_sessionId : string;
  e_tenant : option string;
  e_item : json;
  e_decision : option json;
  e_workspaceRef : option string;
  e_repoUrl : option string;
  e_ref : option string;
  e_configRef : option string;
  e_kind : option string;
  e_problemStatement : option string;
  e_prompt : option string;
  e_env_key : option string;
}.

Definition truthy_str (s : option string) : bool :=
  match s with None | Some "" => false | Some _ => true end.

Definition leafSessionId (sessionId : string) (tenant : option string) : bytes :=
  toSessionId (bytes_of match tenant with
                        | None | Some "" => sessionId
                        | Some t => t +:+ "/" +:+ sessionId
                        end).

Definition isSwebenchEnvelope (env : LeafEnvelope) : bool :=
  bool_decide (e_kind env = Some "solve") && truthy_str (e_env_key env).

Definition validateItem (o : json) : option LeafItem :=
  if is_object o then
    item_id ← as_string (field "item_id" o);
    file ← as_string (field "file" o);
    pattern ← as_string (field "pattern" o);
    Some (mkItem item_id file pattern
            (match field "require_approval" o with Some (JBool true) => true | _ => false end))
  else None.

(** ** Prompts *)

Fixpoint skip_slashes (l : bytes) : bytes :=
  match l with
  | [] => []
  | c :: l' => if decide (c = SLASH) then skip_slashes l' else l
  end.

Definition stripTrailingSlashes (ref : bytes) : bytes := reverse (skip_slashes (reverse ref)).

Fixpoint join_lines (l : list string) : string :=
  match l with
  | [] => ""
  | [x] => x
  | x :: l' => x +:+ NLs +:+ join_lines l'
  end.

(** A double quote. *)
Definition DQ : string := string_of [ascii_of_nat 34].

Definition buildLeafPrompt (item : LeafItem) (workspaceRef : option string) : string :=
  let filePath := match workspaceRef with
                  | None | Some "" => it_file item
                  | Some w => string_of (stripTrailingSlashes (bytes_of w)) +:+ "/" +:+ it_file item
                  end in
  join_lines
    ([ "You are reviewing one candidate finding in a sandboxed workspace.";
       "Item id: " +:+ it_item_id item;
       "File (read this exact absolute path with the read tool): " +:+ filePath;
       "Pattern of interest: " +:+ it_pattern item;
       "Read the file, decide whether the pattern is present and relevant." ]
     ++ if it_require_approval item then
       [ "A human MUST approve before you finish. Your FIRST and ONLY action now is to call the";
         "request_approval tool exactly once, with a short summary of what you found and a";
         "proposed_action stating the verdict you intend to submit. Do NOT submit your verdict yet —";
         "you will be asked to submit it after the human responds. Call request_approval, then stop." ]
     else
       [ "Report by calling the submit_verdict tool exactly once with item_id=" +:+ DQ +:+ it_item_id item
         +:+ DQ +:+ ". Do not do anything else." ]).

Definition buildSolvePrompt (problemStatement workspaceRef : string) : string :=
  let root := string_of (stripTrailingSlashes (bytes_of workspaceRef)) in
  join_lines
    [ "You are fixing a software issue in a checked-out repository.";
      "Repository root (an absolute path in your sandbox): " +:+ root;
      "Use your bash, read, and edit tools with absolute paths under that root. You may run the";
      "project's own tests to check your work.";
      "";
      "## Issue";
      problemStatement;
      "";
      "Implement a fix by editing files under " +:+ root +:+ ". When you are confident the fix is complete,";
      "stop — do not ask questions and do not call any reporting tool." ].

(** ** Converging a workspace *)

(** [sq] of converge.ts quotes as [shQuote] does. *)
Definition sq : bytes → bytes := shQuote.

Definition leafWorkspaceRef (sessionId : bytes) : bytes := bytes_of "/workspace/leaves/" ++ sessionId.

Definition NLb : bytes := [ascii_of_nat 10].
Definition DQb : bytes := [ascii_of_nat 34].
Definition lines_of (l : list bytes) : bytes := join NLb l.
(** A text in double quotes. *)
Definition dq (s : string) : bytes := DQb ++ bytes_of s ++ DQb.
Definition b (s : string) : bytes := bytes_of s.

Definition fetch_command (repoUrl ref : bytes) : bytes :=
  b "git -C " ++ dq "$REPO" ++ b " fetch --quiet " ++ sq repoUrl ++ b " " ++ sq ref.
Definition init_command : bytes := b "rm -rf " ++ dq "$REPO" ++ b "; git init -q " ++ dq "$REPO".

Definition buildConvergeScript (repoUrl ref sessionId : bytes) : bytes :=
  let LEAF := leafWorkspaceRef sessionId in
  let fetch := fetch_command repoUrl ref in
  let init := init_command in
  lines_of
    [ b "set -eu";
      b "REPO=/workspace/repo; LOCK=/workspace/.sh-fetch.lock; LEAF=" ++ sq LEAF;
      b "mkdir -p /workspace/leaves";
      b "(";
      b "  flock 9";
      b "  [ -d " ++ dq "$REPO/.git" ++ b " ] || { " ++ init ++ b "; }";
      b "  " ++ fetch ++ b " || { " ++ init ++ b "; " ++ fetch ++ b "; }";
      b ") 9>" ++ dq "$LOCK";
      b "COMMIT=$(git -C " ++ dq "$REPO" ++ b " rev-parse FETCH_HEAD)";
      b "[ -d " ++ dq "$LEAF" ++ b " ] || git -C " ++ dq "$REPO"
        ++ b " worktree add --quiet --detach " ++ dq "$LEAF" ++ b " " ++ dq "$COMMIT";
      b "printf '%s' " ++ dq "$LEAF" ].

Definition buildCleanupScript (sessionId : bytes) : bytes :=
  lines_of
    [ b "set -u";
      b "REPO=/workspace/repo; LEAF=" ++ sq (leafWorkspaceRef sessionId);
      b "git -C " ++ dq "$REPO" ++ b " worktree remove --force " ++ dq "$LEAF" ++ b " 2>/dev/null || rm -rf "
        ++ dq "$LEAF";
      b "git -C " ++ dq "$REPO" ++ b " worktree prune 2>/dev/null || true" ].

Definition buildDiffCaptureScript (sessionId : bytes) : bytes :=
  lines_of
    [ b "set -eu";
      b "LEAF=" ++ sq (leafWorkspaceRef sessionId);
      b "git -C " ++ dq "$LEAF" ++ b " add -A";
      b "git -C " ++ dq "$LEAF" ++ b " diff --cached" ].

Inductive converge_error := OutputCap | ExitCode (code : option Z).

(** The two results of a script: what [convergeWorkspace] and [captureWorkspaceDiff] make
    of the transport's answer. *)
Definition convergeWorkspace (sessionId : bytes) (r : ExecResult) : result converge_error bytes :=
  require negb (r_truncated r) else OutputCap;
  require bool_decide (r_exitCode r = Some 0) else ExitCode (r_exitCode r);
  Ok (match trim (r_stdout r) with [] => leafWorkspaceRef sessionId | w => w end).

Definition captureWorkspaceDiff (r : ExecResult) : result converge_error bytes :=
  require negb (r_truncated r) else OutputCap;
  require bool_decide (r_exitCode r = Some 0) else ExitCode (r_exitCode r);
  let patch := r_stdout r in
  Ok (match last patch with
      | Some c => if decide (c = ascii_of_nat 10) then patch else patch ++ NLb
      | None => patch
      end).

(** ** The contained SWE-bench workspace *)

Definition envDirFromKey (envKey : bytes) : bytes :=
  let tag := b ":latest" in
  if bool_decide (drop (length envKey - length tag) envKey = tag) then take (length envKey - length tag) envKey
  else envKey.

Definition swebenchCheckoutDir (sessionId : bytes) : bytes := b "/workspace/co-" ++ sessionId.
Definition swebenchVenvDir (sessionId : bytes) : bytes := b "/workspace/venv-" ++ sessionId.

Definition buildSwebenchSetupScript (repoUrl baseCommit envKey sessionId : bytes) : bytes :=
  let ENV_PY := b "/opt/miniconda3/envs/" ++ envDirFromKey envKey ++ b "/bin/python" in
  lines_of
    [ b "set -eu";
      b "CO=" ++ sq (swebenchCheckoutDir sessionId);
      b "VENV=" ++ sq (swebenchVenvDir sessionId);
      b "rm -rf " ++ dq "$CO" ++ b " " ++ dq "$VENV";
      b "git clone --no-hardlinks " ++ sq repoUrl ++ b " " ++ dq "$CO" ++ b " >&2";
      b "git -C " ++ dq "$CO" ++ b " checkout -q " ++ sq baseCommit;
      sq ENV_PY ++ b " -m venv --system-site-packages " ++ dq "$VENV" ++ b " >&2";
      b "HOME=/workspace " ++ dq "$VENV/bin/pip" ++ b " install -e " ++ dq "$CO"
        ++ b " --no-build-isolation --no-cache-dir >&2 \";
      b "  || HOME=/workspace " ++ dq "$VENV/bin/pip" ++ b " install -e " ++ dq "$CO" ++ b " --no-cache-dir >&2";
      b "printf '%s' " ++ dq "$CO" ].

Definition buildSwebenchDiffScript (sessionId : bytes) : bytes :=
  let CO := swebenchCheckoutDir sessionId in
  lines_of [ b "set -eu"; b "git -C " ++ sq CO ++ b " add -A"; b "git -C " ++ sq CO ++ b " diff --cached" ].

Definition buildSwebenchCleanupScript (sessionId : bytes) : bytes :=
  lines_of [ b "set -u"; b "rm -rf " ++ sq (swebenchCheckoutDir sessionId) ++ b " " ++ sq (swebenchVenvDir sessionId) ].

Definition buildSwebenchSolvePrompt (problemStatement checkoutDir venvPython : string) : string :=
  let root := string_of (stripTrailingSlashes (bytes_of checkoutDir)) in
  join_lines
    [ "You are fixing a software issue in a checked-out Python repository.";
      "Repository root (an absolute path in your sandbox): " +:+ root;
      "The repository is installed (editable) into a virtualenv. Run its tests with this interpreter:";
      "  " +:+ venvPython +:+ " -m pytest ...";
      "Use your bash, read, and edit tools with absolute paths under the repository root.";
      "";
      "## Issue";
      problemStatement;
      "";
      "Implement a fix by editing files under " +:+ root +:+ ". When you are confident the fix is complete,";
      "stop — do not ask questions and do not call any reporting tool." ].

Definition setupSwebenchWorkspace (sessionId : bytes) (r : ExecResult) : result converge_error bytes :=
  require negb (r_truncated r) else OutputCap;
  require bool_decide (r_exitCode r = Some 0) else ExitCode (r_exitCode r);
  Ok (match trim (r_stdout r) with [] => swebenchCheckoutDir sessionId | w => w end).

Definition captureSwebenchDiff (r : ExecResult) : result converge_error bytes :=
  require negb (r_truncated r) else OutputCap;
  require bool_decide (r_exitCode r = Some 0) else ExitCode (r_exitCode r);
  Ok (r_stdout r).

(** ** Results *)

Record LeafUsage := mkUsage {
  u_input : Q;
  u_output : Q;
  u_cacheRead : Q;
  u_cacheWrite : Q;
  u_total : Q;
}.

Inductive fail_reason := no_verdict | invalid_verdict | bad_inputs | error | saturated.

Inductive LeafResult :=
| RDone (v : Verdict)
| RPaused (gateId : Q) (summary proposed_action : string)
| RAborted
| RSolved (patch : string) (usage : option LeafUsage)
| RResponded (text : string) (usage : option LeafUsage)
| RFailed (reason : fail_reason) (message : option string).

Record Outcome := mkOutcome { o_ack : bool; o_retryable : bool }.

Definition classifyOutcome (result : LeafResult) : Outcome :=
  match result with
  | RFailed error _ | RFailed saturated _ => mkOutcome false true
  | _ => mkOutcome true false
  end.

(** ** The calls a leaf awaits *)

Inductive leaf_error := SandboxPoolSaturated (msg : string) | OtherError (msg : string).

Definition err_message (e : leaf_error) : string :=
  match e with SandboxPoolSaturated m | OtherError m => m end.

Record LeafCapture := mkCapture {
  c_verdict : option json;
  c_gate : option GateRequest;
  c_aborted : bool;
}.

Inductive stop_reason := StopAborted | StopError | StopOther.

Record TurnResult := mkTurnResult {
  t_stopReason : stop_reason;
  t_errorMessage : option string;
  t_response : string;
  t_usage : option LeafUsage;
}.

(** Calls on a sandbox the leaf made itself ([KubectlTransport(selected.config)]) and on
    the transport leased with the sandbox are told apart by [OpenKubectl] and
    [CloseKubectl], whose [close] is a no-op that cannot fail. *)
Inductive lcmd :=
| ResolveModel
| ReadSession
| OpenFromCheckpoint
| LatestVerdict
| Select
| SelectPod
| SetHeartbeat
| ClearHeartbeat
| OpenKubectl
| CloseKubectl
| ResolveConfig (digest : string)
| Overlay (digest : string)
| ConfigCleanup (digest : string)
| ExecTurn
| Converge (swebench : bool)
| CleanupWorkspace (swebench : bool)
| AppendDecision (d : Decision)
| LoadAgent
| RunAgent (prompt : string) (allowVerdict : bool) (gateId : Z)
| SumUsage
| CaptureDiff (swebench : bool)
| Flush
| Release
| CloseTransport.

(** [Select] answers whether a sandbox was chosen, and if so whether it came with a
    relay transport.  [SelectPod] is the same call without [remoteSandbox], which
    offers pods only.  [RunAgent] answers what the tools captured. *)
Definition answer (c : lcmd) : Type :=
  match c with
  | ReadSession => list json
  | LatestVerdict => option json
  | Select => option bool
  | SelectPod => option unit
  | ExecTurn => TurnResult
  | Converge _ => string
  | RunAgent _ _ _ => LeafCapture
  | SumUsage => option LeafUsage
  | CaptureDiff _ => string
  | _ => unit
  end.

Definition reply (c : lcmd) : Type := result leaf_error (answer c).

Definition leaf_prog : Type → Type := prog lcmd reply leaf_error.

(** A call whose failure is the caller's, and one that does not fail. *)
Definition throwing (c : lcmd) : leaf_prog (answer c) :=
  Call c (fun r : reply c => match r with Ok a => Ret a | Throw e => Err e end).
Definition quiet (c : lcmd) : leaf_prog unit := Call c (fun _ => Ret tt).
Definition when_ (cond : bool) (p : leaf_prog unit) : leaf_prog unit := if cond then p else Ret tt.

(** The part of [TurnConfig] the leaf paths test. *)
Record TurnConfig := mkTurnConfig { cfg_serverMode : bool; cfg_allowLocalTools : bool }.

Definition refuses_local (config : TurnConfig) (has_sandbox : bool) : bool :=
  assertServerSandbox (cfg_serverMode config) (cfg_allowLocalTools config) has_sandbox.

Definition SandboxRequired : leaf_error :=
  OtherError "no sandbox resolved for this turn; a server refuses to run tools in its own process (configure a sandbox pool, or set SH_LOCAL_TOOLS=1 for single-tenant development)".

Definition is_selected (sel : option bool) : bool := match sel with Some _ => true | None => false end.
(** [selected?.transport] *)
Definition has_transport (sel : option bool) : bool := match sel with Some t => t | None => false end.

(** ** The prompt leaf *)

Definition failed_error (e : leaf_error) : LeafResult := RFailed error (Some (err_message e)).
Definition failed_select (e : leaf_error) : LeafResult :=
  match e with
  | SandboxPoolSaturated m => RFailed saturated (Some m)
  | OtherError m => RFailed error (Some m)
  end.

Definition EMPTY_CONFIG_REF : string :=
  "configRef is present but empty: it must name a bundle digest (sha256:…). Omit the field entirely to run without promoted configuration.".

(** The promoted configuration: an early result if it cannot be had, and the digest whose
    overlay was attempted. *)
Definition prompt_config (env : LeafEnvelope) (sel : option bool) :
    leaf_prog (option LeafResult * option string) :=
  match e_configRef env with
  | None => Ret (None, None)
  | Some digest =>
      if bool_decide (trim_str digest = "") then Ret (Some (RFailed error (Some EMPTY_CONFIG_REF)), None)
      else
        Call (ResolveConfig digest) (fun r => match r with
        | Throw e => Ret (Some (failed_error e), None)
        | Ok _ =>
            match sel with
            | None => Ret (None, None)
            | Some leased =>
                await _ <- when_ (negb leased) (quiet OpenKubectl);
                Call (Overlay digest) (fun r =>
                  await _ <- when_ (negb leased) (quiet CloseKubectl);
                  match r with
                  | Ok _ => Ret (None, Some digest)
                  | Throw e => Ret (Some (failed_error e), Some digest)
                  end)
            end
        end)
  end.

Definition prompt_turn : leaf_prog LeafResult :=
  Call ExecTurn (fun r => match r with
  | Throw e => Ret (failed_error e)
  | Ok t => match t_stopReason t with
            | StopAborted => Ret RAborted
            | StopError => Ret (RFailed error (t_errorMessage t))
            | StopOther => Ret (RResponded (t_response t) (t_usage t))
            end
  end).

(** The [finally] block. *)
Definition prompt_finally (sel : option bool) (overlayDigest : option string) : leaf_prog unit :=
  await _ <- when_ (is_selected sel) (quiet ClearHeartbeat);
  await _ <- (match overlayDigest, sel with
              | Some digest, Some leased =>
                  await _ <- when_ (negb leased) (quiet OpenKubectl);
                  await _ <- quiet (ConfigCleanup digest);
                  when_ (negb leased) (quiet CloseKubectl)
              | _, _ => Ret tt
              end);
  await _ <- when_ (is_selected sel) (throwing Release);
  when_ (has_transport sel) (throwing CloseTransport).

(** The body of the [try] catches whatever its calls throw, so the [finally] block
    always follows a result. *)
Definition runPromptLeaf (config : TurnConfig) (env : LeafEnvelope) : leaf_prog LeafResult :=
  if negb (truthy_str (e_prompt env)) then Ret (RFailed bad_inputs None) else
  await _ <- throwing ResolveModel;
  Call Select (fun r => match r with
  | Throw e => Ret (failed_select e)
  | Ok sel =>
      if refuses_local config (is_selected sel) then
        await _ <- when_ (is_selected sel) (throwing Release);
        await _ <- when_ (has_transport sel) (throwing CloseTransport);
        Ret (failed_error SandboxRequired)
      else
        await _ <- when_ (is_selected sel) (quiet SetHeartbeat);
        await early <- prompt_config env sel;
        await res <- (match fst early with Some res => Ret res | None => prompt_turn end);
        await _ <- prompt_finally sel (snd early);
        Ret res
  end).

(** ** The solve leaf *)

Record SolveCapture := mkSolve { s_patch : option string; s_usage : option LeafUsage }.

Definition solve_prompt (env : LeafEnvelope) (workspaceRef : string) : string :=
  let problem := default "" (e_problemStatement env) in
  if isSwebenchEnvelope env then
    buildSwebenchSolvePrompt problem workspaceRef
      (string_of (swebenchVenvDir (leafSessionId (e_sessionId env) (e_tenant env))) +:+ "/bin/python")
  else buildSolvePrompt problem workspaceRef.

(** The [finally] block clears the heartbeat first if it was set, so that clearing is a
    [finally] of the part that follows [setInterval]. *)
Definition realProduceSolve (config : TurnConfig) (env : LeafEnvelope) : leaf_prog SolveCapture :=
  let swebench := isSwebenchEnvelope env in
  await _ <- throwing ResolveModel;
  await sel <- throwing SelectPod;
  match sel with
  | None => Err (OtherError "solve leaf requires a configured sandbox pool")
  | Some _ =>
      if refuses_local config true then
        await _ <- throwing Release;
        Err SandboxRequired
      else
        await prior <- throwing ReadSession;
        await _ <- when_ (negb (bool_decide (prior = []))) (throwing OpenFromCheckpoint);
        pfinally
          (await _ <- quiet OpenKubectl;
           await workspaceRef <- throwing (Converge swebench);
           await _ <- quiet SetHeartbeat;
           pfinally
             (await _ <- throwing LoadAgent;
              pfinally
                (await _ <- throwing (RunAgent (solve_prompt env workspaceRef) false 0);
                 Call SumUsage (fun u =>
                   await patch <- throwing (CaptureDiff swebench);
                   Ret (mkSolve (Some patch) (match u with Ok u => u | Throw _ => None end))))
                (throwing Flush))
             (quiet ClearHeartbeat))
          (await _ <- quiet (CleanupWorkspace swebench);
           throwing Release)
  end.

Definition runSolveLeaf (config : TurnConfig) (env : LeafEnvelope) : leaf_prog LeafResult :=
  if negb (truthy_str (e_problemStatement env)) || negb (truthy_str (e_repoUrl env)) || negb (truthy_str (e_ref env))
  then Ret (RFailed bad_inputs None)
  else pcatch (await c <- realProduceSolve config env; Ret (RSolved (default "" (s_patch c)) (s_usage c)))
              (fun e => Ret (failed_select e)).

(** ** The converge leaf *)

Definition no_capture : LeafCapture := mkCapture None None false.

(** From the gate front end to the end of the agent's run.  [workspaceRef] is the
    converged worktree, or the envelope's. *)
Definition verdict_run (item : LeafItem) (env : LeafEnvelope) (prior : list json) (workspaceRef : option string) :
    leaf_prog LeafCapture :=
  let state := computeGateState prior in
  let decision := match e_decision env with
                  | Some j => if truthy j then match validateDecision j with Ok d => Some d | Throw _ => None end
                              else None
                  | None => None
                  end in
  let append record := match record with Some d => quiet (AppendDecision d) | None => Ret tt end in
  match decideSeed state decision (buildLeafPrompt item workspaceRef) with
  | AbortSeed record =>
      await _ <- append record;
      await _ <- throwing Flush;
      Ret (mkCapture None None true)
  | Paused gate =>
      await _ <- throwing Flush;
      Ret (mkCapture None (Some gate) false)
  | Seed prompt record =>
      await _ <- append record;
      let allowVerdict := negb (it_require_approval item) || negb (bool_decide (gateDecisions state = []))
                          || match record with Some _ => true | None => false end in
      await _ <- throwing LoadAgent;
      pfinally
        (await capture <- throwing (RunAgent prompt allowVerdict (nextGateId state));
         match c_verdict capture, c_gate capture with
         | None, None =>
             await row <- throwing LatestVerdict;
             match (e ← row; verdictFromCustomEntry e) with
             | Some v => Ret (mkCapture (Some (verdict_json v)) None (c_aborted capture))
             | None => Ret capture
             end
         | _, _ => Ret capture
         end)
        (throwing Flush)
  end.

(** What runs with the sandbox in hand. *)
Definition verdict_with_sandbox (item : LeafItem) (env : LeafEnvelope) (prior : list json) (sel : option bool) :
    leaf_prog LeafCapture :=
  let leased := has_transport sel in
  let converging := is_selected sel && truthy_str (e_repoUrl env) && truthy_str (e_ref env) in
  pfinally
    (await workspaceRef <-
       (if converging then
          await _ <- when_ (negb leased) (quiet OpenKubectl);
          await w <- pfinally (throwing (Converge false)) (when_ (negb leased) (quiet CloseKubectl));
          Ret (Some w)
        else Ret (e_workspaceRef env));
     await _ <- when_ (is_selected sel) (quiet SetHeartbeat);
     pfinally (verdict_run item env prior workspaceRef) (when_ (is_selected sel) (quiet ClearHeartbeat)))
    (await _ <- when_ converging
                  (await _ <- when_ (negb leased) (quiet OpenKubectl);
                   await _ <- quiet (CleanupWorkspace false);
                   when_ (negb leased) (quiet CloseKubectl));
     await _ <- when_ (is_selected sel) (throwing Release);
     when_ leased (throwing CloseTransport)).

Definition realProduceVerdict (config : TurnConfig) (item : LeafItem) (env : LeafEnvelope) : leaf_prog LeafCapture :=
  await _ <- throwing ResolveModel;
  await prior <- throwing ReadSession;
  let resuming := negb (bool_decide (prior = [])) in
  await _ <- when_ resuming (throwing OpenFromCheckpoint);
  await found <- (if resuming then
                    await row <- throwing LatestVerdict;
                    Ret (e ← row; verdictFromCustomEntry e)
                  else Ret None);
  match found with
  | Some v => await _ <- throwing Flush; Ret (mkCapture (Some (verdict_json v)) None false)
  | None =>
      await sel <- throwing Select;
      if refuses_local config (is_selected sel) then
        await _ <- when_ (is_selected sel) (throwing Release);
        await _ <- when_ (has_transport sel) (throwing CloseTransport);
        Err SandboxRequired
      else verdict_with_sandbox item env prior sel
  end.

Definition verdict_message (e : verdict_error) : string :=
  match e with
  | VNotAnObject => "verdict must be an object"
  | VBadItem => "item_id must be a non-empty string"
  | VBadVerdict => "verdict must be " +:+ DQ +:+ "FLAGGED" +:+ DQ +:+ " or " +:+ DQ +:+ "CLEAR" +:+ DQ
  | VBadReason => "reason must be a string"
  end.

(** What the captures become. *)
Definition captured (capture : LeafCapture) : LeafResult :=
  if c_aborted capture then RAborted else
  match c_gate capture with
  | Some g => RPaused (r_gateId g) (r_summary g) (r_proposed_action g)
  | None =>
      match c_verdict capture with
      | None => RFailed no_verdict None
      | Some v =>
          match validateVerdict v with
          | Ok v => RDone v
          | Throw e => RFailed invalid_verdict (Some (verdict_message e))
          end
      end
  end.

Definition runLeaf (config : TurnConfig) (env : LeafEnvelope) : leaf_prog LeafResult :=
  if decide (e_kind env = Some "solve") then runSolveLeaf config env
  else if decide (e_kind env = Some "prompt") then runPromptLeaf config env
  else match validateItem (e_item env) with
       | None => Ret (RFailed bad_inputs None)
       | Some item =>
           pcatch (await c <- realProduceVerdict config item env; Ret (captured c))
                  (fun e => Ret (failed_select e))
       end.

(** ** The monitor *)

Record Mon := mkMon {
  m_held : bool;       (* a sandbox is held *)
  m_released : bool;   (* it was given back *)
  m_transport : bool;  (* its relay transport is open *)
  m_beating : bool;    (* the renewal timer runs *)
  m_kubectl : bool;    (* a transport of the leaf's own is open *)
  m_overlay : bool;    (* the sandbox may hold a config overlay of this leaf *)
  m_worktree : bool;   (* the sandbox may hold a worktree of this leaf *)
}.

Definition mon_start : Mon := mkMon false false false false false false false.

Definition leaf_event : Type := event (C := lcmd) (R := reply).

(** [None] when a call is made in a state where it must not be. *)
Definition mon_step (m : Mon) (e : leaf_event) : option Mon :=
  let 'mkMon held rel tp beat kube ov wt := m in
  match e with
  | existT Select (Ok (Some t)) => if held || rel then None else Some (mkMon true rel t beat kube ov wt)
  | existT SelectPod (Ok (Some _)) => if held || rel then None else Some (mkMon true rel false beat kube ov wt)
  | existT SetHeartbeat _ => if held && negb beat then Some (mkMon held rel tp true kube ov wt) else None
  | existT ClearHeartbeat _ => if beat then Some (mkMon held rel tp false kube ov wt) else None
  | existT OpenKubectl _ => if held && negb kube then Some (mkMon held rel tp beat true ov wt) else None
  | existT CloseKubectl _ => if kube then Some (mkMon held rel tp beat false ov wt) else None
  | existT (Overlay _) _ => if held && beat && negb ov then Some (mkMon held rel tp beat kube true wt) else None
  | existT (ConfigCleanup _) _ => if held then Some (mkMon held rel tp beat kube false wt) else None
  | existT (Converge _) _ => if held && negb wt then Some (mkMon held rel tp beat kube ov true) else None
  | existT (CleanupWorkspace _) _ => if held then Some (mkMon held rel tp beat kube ov false) else None
  | existT (CaptureDiff _) _ => if held && wt then Some m else None
  | existT (RunAgent _ _ _) _ | existT ExecTurn _ => if rel || held && negb beat then None else Some m
  | existT Release _ => if held && negb beat && negb ov && negb wt
                        then Some (mkMon false true tp beat kube ov wt) else None
  | existT CloseTransport _ => if tp && negb held then Some (mkMon held rel false beat kube ov wt) else None
  | _ => Some m
  end.

Definition monitor (tr : list leaf_event) : option Mon :=
  foldl (fun om e => m ← om; mon_step m e) (Some mon_start) tr.

(** Everything was given back. *)
Definition settled (m : Mon) : bool :=
  negb (m_held m) && negb (m_transport m) && negb (m_beating m) && negb (m_overlay m) && negb (m_worktree m).

Definition failed_call (e : leaf_event) : bool :=
  match e with existT _ (Throw _) => true | _ => false end.

Definition is_release (e : leaf_event) : bool := match e with existT Release _ => true | _ => false end.
Definition is_session_read (e : leaf_event) : bool :=
  match e with existT ReadSession _ | existT OpenFromCheckpoint _ => true | _ => false end.

(** Some call of a kind threw. *)
Definition threw (kind : leaf_event → bool) (tr : list leaf_event) : bool :=
  existsb (fun e => kind e && failed_call e) tr.

(** ** Lemmas *)

(** A trace the monitor accepts, and at whose end everything was given back, the
    relay transport excepted when the release itself threw. *)
Definition safe_trace (tr : list leaf_event) : bool :=
  match monitor tr with
  | Some m => settled m || threw is_release tr && negb (m_held m) && negb (m_beating m)
                          && negb (m_overlay m) && negb (m_worktree m)
  | None => false
  end.

(** Walk a tree of calls: case on every answer and every test. *)
Ltac walk :=
  repeat (cbn -[computeGateState validateDecision decideSeed buildLeafPrompt solve_prompt safe_trace monitor];
    lazymatch goal with
    | |- ∀ r : reply Select, _ => intros [[[]|]|?]
    | |- ∀ r : reply SelectPod, _ => intros [[[]|]|?]
    | |- ∀ r : reply _, _ => intros [?|?]
    | |- wp ?p _ _ => match p with context [match ?x with _ => _ end] => destruct x end
    end).

Lemma prompt_safe config env :
  wp (runPromptLeaf config env) (fun h _ => safe_trace h = true) [].
Proof.
  unfold runPromptLeaf, prompt_config, prompt_turn, prompt_finally, throwing, quiet, when_.
  walk; reflexivity.
Qed.

Lemma verdict_safe config item env :
  wp (realProduceVerdict config item env) (fun h _ => safe_trace h = true) [].
Proof.
  unfold realProduceVerdict, verdict_with_sandbox, verdict_run, throwing, quiet, when_.
  walk; reflexivity.
Qed.

Lemma solve_safe config env :
  wp (realProduceSolve config env)
     (fun h _ => (safe_trace h || threw is_session_read h) = true) [].
Proof.
  unfold realProduceSolve, throwing, quiet, when_.
  walk; reflexivity.
Qed.

(** A producer under [runLeaf]'s [try]: what it awaits decides, and nothing is thrown. *)
Lemma produce_wp {A} (p : leaf_prog A) (f : A → LeafResult) (P : list leaf_event → Prop) :
  wp p (fun h _ => P h) [] →
  wp (pcatch (await c <- p; Ret (f c)) (fun e => Ret (failed_select e)))
     (fun h o => P h ∧ ∃ res, o = Ok res) [].
Proof.
  intros Hp. apply wp_catch, wp_bind. eapply wp_mono; [|exact Hp].
  intros h [a|e] HP; simpl; eauto.
Qed.

Definition is_rejecting (e : leaf_event) : bool :=
  match e with existT ResolveModel _ | existT Release _ | existT CloseTransport _ => true | _ => false end.

Lemma prompt_rejects config env :
  wp (runPromptLeaf config env) (fun h o => ∀ e, o = Throw e → threw is_rejecting h = true) [].
Proof.
  unfold runPromptLeaf, prompt_config, prompt_turn, prompt_finally, throwing, quiet, when_.
  walk; by intros ? [=].
Qed.

(** The agent is run as the gate front end of [Gate] says: with its prompt, its gate id, and
    the verdict tool only when it allows it. *)
Definition runs_as (a : LeafAction) (e : leaf_event) : Prop :=
  match e with existT (RunAgent p v g) _ => a = LRun p v g | _ => True end.

Lemma verdict_run_follows_gate item env prior w tr o :
  runs (verdict_run item env prior w) tr o →
  Forall (runs_as (gate_front (it_require_approval item) (e_decision env) (buildLeafPrompt item w) prior).1) tr.
Proof.
  intros Hr. set (a := (gate_front _ _ _ _).1).
  assert (Hwp : wp (verdict_run item env prior w) (fun h _ => Forall (runs_as a) h) []);
    [|exact (wp_sound _ _ [] tr o Hwp Hr)].
  unfold a, gate_front, verdict_run, throwing, quiet, when_.
  destruct (decideSeed _ _ _) as [g|record|p record]; cbn [fst]; walk;
    repeat (apply Forall_cons; split; [done|]); apply Forall_nil; done.
Qed.

(** *** Session ids *)

Definition valid_id (s : bytes) : Prop :=
  Forall (fun c => id_char c = true) s
  ∧ (∃ c, head s = Some c ∧ isAlnum c = true) ∧ (∃ c, last s = Some c ∧ isAlnum c = true).

Lemma skip_suffix l : ∃ k, l = k ++ skip_to_alnum l.
Proof.
  induction l as [|c l [k IH]]; [by exists []|]. simpl. destruct (isAlnum c); [by exists []|].
  exists (c :: k). simpl. by rewrite <-IH.
Qed.

Lemma skip_head l : skip_to_alnum l = [] ∨ ∃ c l', skip_to_alnum l = c :: l' ∧ isAlnum c = true.
Proof.
  induction l as [|c l IH]; [by left|]. simpl. destruct (isAlnum c) eqn:E; [|done]. right. eauto.
Qed.

Lemma skip_id c l : isAlnum c = true → skip_to_alnum (c :: l) = c :: l.
Proof. intros E. simpl. by rewrite E. Qed.

Lemma clean_char_id c : id_char (clean_char c) = true.
Proof. unfold clean_char. by destruct (id_char c) eqn:E. Qed.

Lemma valid_id_leaf : valid_id (bytes_of "leaf").
Proof. split_and!; [by repeat constructor|by eexists|by eexists]. Qed.

Lemma toSessionId_is_valid s : valid_id (toSessionId s).
Proof.
  unfold toSessionId. set (a := skip_to_alnum (map clean_char s)).
  destruct (skip_head (reverse a)) as [->|(z & r & Hr & Hz)]; [apply valid_id_leaf|].
  destruct (skip_suffix (reverse a)) as [k Hk]. rewrite Hr in *.
  assert (Ha : a = reverse (z :: r) ++ reverse k) by (by rewrite <-reverse_app, <-Hk, reverse_involutive).
  destruct (reverse (z :: r)) as [|c l] eqn:El.
  { apply (f_equal length) in El. rewrite length_reverse in El. done. }
  split_and!.
  - apply Forall_forall. intros x Hx. destruct (skip_suffix (map clean_char s)) as [k' Hk'].
    assert (Hin : x ∈ map clean_char s).
    { rewrite Hk'. fold a. rewrite Ha, !elem_of_app. by right; left. }
    apply list_elem_of_In, in_map_iff in Hin as (y & <- & _). apply clean_char_id.
  - destruct (skip_head (map clean_char s)) as [E|(c' & l' & E & Hc')]; fold a in E; rewrite E in Ha; [done|].
    injection Ha as -> _. eauto.
  - exists z. rewrite <-El, reverse_cons, last_snoc. done.
Qed.

Lemma toSessionId_of_valid s : valid_id s → toSessionId s = s.
Proof.
  intros (Hall & (c & Hh & Hc) & (z & Hl & Hz)). unfold toSessionId.
  replace (map clean_char s) with s.
  2:{ clear -Hall. induction Hall as [|x l Hx _ IH]; [done|]. simpl. rewrite <-IH. unfold clean_char. by rewrite Hx. }
  destruct s as [|c' s]; [done|]. injection Hh as ->. rewrite skip_id by done.
  destruct (reverse (c :: s)) as [|z' r] eqn:Er.
  { apply (f_equal length) in Er. by rewrite length_reverse in Er. }
  assert (z' = z) as ->.
  { rewrite <-(reverse_involutive (c :: s)), Er, reverse_cons, last_snoc in Hl. by injection Hl. }
  rewrite skip_id by done. by rewrite <-Er, reverse_involutive.
Qed.

(** ** Properties *)

(** C5. A leaf gives back what it takes, on every path: whatever the pool, the session
    store, the sandbox and the agent answer, and wherever they fail, a leaf leases at
    most one sandbox, renews its lease from before the agent starts until it is done,
    runs the clean-up of its config overlay and of its worktree while it still holds the lease,
    releases the lease exactly once, after its timer is stopped, closes the relay transport after that
    (unless the release threw), and never touches the sandbox again.  The exception is
    a solve leaf whose session cannot be read. *)
Theorem leaf_gives_back config env tr o :
  runs (runLeaf config env) tr o →
  safe_trace tr = true ∨ e_kind env = Some "solve" ∧ threw is_session_read tr = true.
Proof.
  intros Hr. assert (Hwp : wp (runLeaf config env) (fun h _ =>
    safe_trace h = true ∨ e_kind env = Some "solve" ∧ threw is_session_read h = true) []).
  { unfold runLeaf. case_decide as Hk.
    - unfold runSolveLeaf. destruct (_ || _); [by left|].
      eapply wp_mono, produce_wp, solve_safe. intros h o' [[Hs|Hs]%orb_prop _]; auto.
    - case_decide; [eapply wp_mono, prompt_safe; by left|].
      destruct (validateItem (e_item env)); [|by left].
      eapply wp_mono, produce_wp, verdict_safe. intros h o' [Hs _]. by left. }
  exact (wp_sound _ _ [] tr o Hwp Hr).
Qed.

(** A prompt leaf on a sandbox of the relay. *)
Definition ex_env : LeafEnvelope :=
  mkEnvelope "run-1" None JNull None None None None None (Some "prompt") None (Some "hello") None.
Definition ex_config : TurnConfig := mkTurnConfig true false.
Definition ex_turn : TurnResult := mkTurnResult StopOther None "hi" None.
Definition ex_until_release : list leaf_event :=
  [ev ResolveModel (Ok tt); ev Select (Ok (Some true)); ev SetHeartbeat (Ok tt); ev ExecTurn (Ok ex_turn);
   ev ClearHeartbeat (Ok tt)].

Lemma leaf_gives_back_witness :
  runs (runLeaf ex_config ex_env) (ex_until_release ++ [ev Release (Ok tt); ev CloseTransport (Ok tt)])
    (Ok (RResponded "hi" None))
  ∧ (safe_trace (ex_until_release ++ [ev Release (Ok tt); ev CloseTransport (Ok tt)]) = true
     ∨ e_kind ex_env = Some "solve"
       ∧ threw is_session_read (ex_until_release ++ [ev Release (Ok tt); ev CloseTransport (Ok tt)]) = true).
Proof.
  assert (H : runs (runLeaf ex_config ex_env) (ex_until_release ++ [ev Release (Ok tt); ev CloseTransport (Ok tt)])
    (Ok (RResponded "hi" None))) by (do 7 apply runs_call; apply runs_ret).
  split; [exact H|exact (leaf_gives_back ex_config ex_env _ _ H)].
Defined.

(** C40. A leaf answers: a converge or solve leaf always comes to a result value, whatever
    fails; a prompt leaf does too unless resolving the model, the release or closing the
    transport throws. *)
Theorem leaf_answers config env tr e :
  runs (runLeaf config env) tr (Throw e) →
  e_kind env = Some "prompt" ∧ threw is_rejecting tr = true.
Proof.
  intros Hr. assert (Hwp : wp (runLeaf config env) (fun h o => ∀ e, o = Throw e →
    e_kind env = Some "prompt" ∧ threw is_rejecting h = true) []).
  { unfold runLeaf. case_decide as Hk.
    - unfold runSolveLeaf. destruct (_ || _); [done|].
      eapply wp_mono, produce_wp, solve_safe. by intros h o [_ [res ->]].
    - case_decide as Hp; [eapply wp_mono, prompt_rejects; intros h o Hs e' He; split; [done|by eapply Hs]|].
      destruct (validateItem (e_item env)); [|done].
      eapply wp_mono, produce_wp, verdict_safe. by intros h o [_ [res ->]]. }
  by apply (wp_sound _ _ [] tr _ Hwp Hr e).
Qed.

Lemma leaf_answers_witness :
  threw is_rejecting (ex_until_release ++ [ev Release (Throw (OtherError "redis is gone"))]) = true.
Proof.
  apply (leaf_answers ex_config ex_env _ (OtherError "redis is gone")).
  do 6 apply runs_call. apply runs_err.
Defined.

(** Session ids are what the session store accepts: of the characters [A-Za-z0-9._-],
    starting and ending with a letter or digit, never empty; and an id that is one already is
    left alone, so that a retry under the returned id reaches the same session. *)
Theorem toSessionId_valid s :
  valid_id (toSessionId s) ∧ toSessionId (toSessionId s) = toSessionId s.
Proof. split; [|apply toSessionId_of_valid]; apply toSessionId_is_valid. Qed.

(** The tenant does not separate sessions: tenant [acme] with session [run-1] and no tenant
    with session [acme-run-1] have the same session and the same result record. *)
Lemma session_ids_collide :
  leafSessionId "run-1" (Some "acme") = leafSessionId "acme-run-1" None.
Proof. reflexivity. Qed.

(** A solve leaf that cannot read its session keeps its lease until it expires. *)
Lemma solve_keeps_lease config env :
  truthy_str (e_problemStatement env) = true → truthy_str (e_repoUrl env) = true → truthy_str (e_ref env) = true →
  e_kind env = Some "solve" →
  ∃ tr, runs (runLeaf config env) tr (Ok (RFailed error (Some "read failed")))
  ∧ (m_held <$> monitor tr) = Some true.
Proof.
  intros H1 H2 H3 Hk. unfold runLeaf. rewrite decide_True by done. unfold runSolveLeaf. rewrite H1, H2, H3.
  assert (Hl : refuses_local config true = false) by (unfold refuses_local, assertServerSandbox; by rewrite andb_false_r).
  eexists [ev ResolveModel (Ok tt); ev SelectPod (Ok (Some tt)); ev ReadSession (Throw (OtherError "read failed"))].
  split; [|reflexivity]. unfold realProduceSolve. do 2 apply runs_call. cbn. rewrite Hl. cbn.
  apply runs_call. apply runs_ret.
Qed.

(** The SWE-bench diff is returned as the transport gave it, without the final newline
    [captureWorkspaceDiff] restores. *)
Lemma swebench_diff_unterminated :
  let r := mkResult (bytes_of "+x") (Some 0) false in
  captureWorkspaceDiff r = Ok (bytes_of "+x" ++ NLb) ∧ captureSwebenchDiff r = Ok (bytes_of "+x").
Proof. done. Qed.
