(* ===== verification/WorkQueue.v ===== *)
(** * The work queue and its consumers

    Models [packages/work-queue/src/queue.ts], [harness/src/leaf-job-runner.ts]
    ([processOne]), [harness/src/leaf-result-store.ts] ([toResultRecord], [writeResult])
    and [packages/knative-server/src/leaf-job.ts] ([main]).

    A consumer process is a [prog] over Redis commands and [runLeaf].  Any number of them
    run against one stream, interleaved at every await; a process may die, and a command may
    fail before or after it took effect.  A process may start under any consumer name, and a
    listing of the consumers may show a running one as idle; ghost state remembers both, because
    deleting a consumer drops what is pending for it.  Redis is a parameter: the class [RedisStream] is
    a store whose commands have the documented effect on a stream and its one consumer
    group. *)

From Stdlib Require Import QArith.
From S2P Require Import Prelude JsNumber Json Gate Prog Leaf.

Local Open Scope Z_scope.

(** ** The stream *)

(** The [envelope] field of an entry: text that is not JSON, JSON that is not an object, or
    an envelope. *)
Inductive payload := Garbled | NotObject | Envelope (env : LeafEnvelope).

Record Row := mkRow {
  row_id : nat;
  row_consumer : string;
  row_time : Z;       (* of the last delivery *)
  row_count : Z;      (* deliveries *)
}.

(** Entries in id order, the group's last delivered id, its pending entries in id order. *)
Record Stream := mkStream {
  entries : list (nat * payload);
  lastDelivered : nat;
  pel : list Row;
}.

Inductive scmd :=
| XAdd (p : payload)
| XAutoClaim (consumer : string) (minIdle : Z)       (* from 0, COUNT 1 *)
| XReadGroup (consumer : string)                     (* >, COUNT 1 *)
| XPendingCount (id : nat)                           (* XPENDING id id 1 *)
| XPendingRange (count : nat)                        (* XPENDING - + count *)
| XClaim (consumer : string) (minIdle : Z) (id : nat)
| XClaimJustId (consumer : string) (id : nat)        (* min-idle 0 *)
| XAck (id : nat)
| XDelConsumer (consumer : string).

Definition sanswer (c : scmd) : Type :=
  match c with
  | XAdd _ => nat
  | XAutoClaim _ _ | XReadGroup _ => option (nat * payload)
  | XPendingCount _ => option Z
  | XPendingRange _ => list (Row * Z)                (* with the idle time *)
  | XClaim _ _ _ => option payload
  | _ => unit
  end.

Definition payload_of (s : Stream) (id : nat) : option payload := map_get id (entries s).

Definition claim_row (consumer : string) (now : Z) (bump : Z) (id : nat) (rows : list Row) : list Row :=
  map (fun r => if decide (row_id r = id) then mkRow id consumer now (row_count r + bump) else r) rows.

Definition stale (now minIdle : Z) (r : Row) : bool := minIdle <=? now - row_time r.

(** XAUTOCLAIM looks at ten pending entries for each one it may claim. *)
Definition AUTOCLAIM_SCAN : nat := 10.

(** The documented effect of each command. *)
Definition stream_do (now : Z) (c : scmd) (s : Stream) : sanswer c * Stream :=
  match c with
  | XAdd p =>
      let id := S (foldr (fun e n => Nat.max e.1 n) (lastDelivered s) (entries s)) in
      (id, mkStream (entries s ++ [(id, p)]) (lastDelivered s) (pel s))
  | XAutoClaim c minIdle =>
      match list_find (fun r => stale now minIdle r = true) (take AUTOCLAIM_SCAN (pel s)) with
      | Some (_, r) =>
          ((fun p => (row_id r, p)) <$> payload_of s (row_id r),
           mkStream (entries s) (lastDelivered s) (claim_row c now 1 (row_id r) (pel s)))
      | None => (None, s)
      end
  | XReadGroup c =>
      match list_find (fun e => (lastDelivered s < e.1)%nat) (entries s) with
      | Some (_, (id, p)) => (Some (id, p), mkStream (entries s) id (pel s ++ [mkRow id c now 1]))
      | None => (None, s)
      end
  | XPendingCount id => (row_count <$> head (filter (fun r => row_id r = id) (pel s)), s)
  | XPendingRange n => ((fun r => (r, now - row_time r)) <$> take n (pel s), s)
  | XClaim c minIdle id =>
      match head (filter (fun r => row_id r = id ∧ stale now minIdle r = true) (pel s)) with
      | Some _ => (payload_of s id, mkStream (entries s) (lastDelivered s) (claim_row c now 1 id (pel s)))
      | None => (None, s)
      end
  | XClaimJustId c id => (tt, mkStream (entries s) (lastDelivered s) (claim_row c now 0 id (pel s)))
  | XAck id => (tt, mkStream (entries s) (lastDelivered s) (filter (fun r => row_id r ≠ id) (pel s)))
  | XDelConsumer c => (tt, mkStream (entries s) (lastDelivered s) (filter (fun r => row_consumer r ≠ c) (pel s)))
  end.

(** ** What Redis promises *)

Class RedisStream (R : Type) := {
  view : R → Stream;
  redis : ∀ (now : Z) (c : scmd), R → sanswer c * R;
  redis_effect : ∀ now c r, view (redis now c r).2 = (stream_do now c (view r)).2;
  redis_answer : ∀ now c r, (redis now c r).1 = (stream_do now c (view r)).1;
}.

#[export, refine] Instance stream_redis : RedisStream Stream := {
  view s := s;
  redis := stream_do;
}.
Proof. all: done. Defined.

(** ** Result records *)

Inductive record_status := SDone | SFailed | SAborted | SPaused | SSolved | SResponded.

Record LeafResultRecord := mkRecord {
  rr_status : record_status;
  rr_verdict : option Verdict;
  rr_gate : option GateRequest;
  rr_reason : option fail_reason;
  rr_patch : option string;
  rr_text : option string;
  rr_usage : option LeafUsage;
  rr_sessionId : string;
  rr_ts : string;
}.

Definition resultKey (leafSessionId : bytes) : bytes := bytes_of "leaf:result:" ++ leafSessionId.

Definition toResultRecord (result : LeafResult) (rawSessionId ts : string) : LeafResultRecord :=
  match result with
  | RDone v => mkRecord SDone (Some v) None None None None None rawSessionId ts
  | RSolved patch usage => mkRecord SSolved None None None (Some patch) None usage rawSessionId ts
  | RResponded text usage => mkRecord SResponded None None None None (Some text) usage rawSessionId ts
  | RPaused gateId summary proposed =>
      mkRecord SPaused None (Some (mkRequest gateId summary proposed)) None None None None rawSessionId ts
  | RAborted => mkRecord SAborted None None None None None None rawSessionId ts
  | RFailed reason _ => mkRecord SFailed None None (Some reason) None None None rawSessionId ts
  end.

(** ** The consumer's calls *)

Inductive qcmd :=
| Redis (c : scmd)
| InfoConsumers
| SetResult (key : bytes) (record : LeafResultRecord)
| RunLeaf (env : LeafEnvelope)
| Now.

Record ConsumerInfo := mkInfo { ci_name : string; ci_pending : Z; ci_idle : Z }.

Definition qanswer (c : qcmd) : Type :=
  match c with
  | Redis c => sanswer c
  | InfoConsumers => list ConsumerInfo
  | SetResult _ _ => unit
  | RunLeaf _ => LeafResult
  | Now => string
  end.

Inductive queue_error := RedisError | SyntaxError | TypeError | LeafRejected.

Definition qreply (c : qcmd) : Type := result queue_error (qanswer c).
Definition qprog : Type → Type := prog qcmd qreply queue_error.

Definition call (c : qcmd) : qprog (qanswer c) :=
  Call c (fun r : qreply c => match r with Ok a => Ret a | Throw e => Err e end).
Definition xcall (c : scmd) : qprog (sanswer c) := call (Redis c).

(** ** [RedisWorkQueue] *)

Record ClaimedEntry := mkClaimed { ce_entryId : nat; ce_envelope : payload; ce_deliveryCount : Z }.

Definition enqueue (env : LeafEnvelope) : qprog nat := xcall (XAdd (Envelope env)).

Definition deliveryCount (id : nat) : qprog Z :=
  await n <- xcall (XPendingCount id); Ret (default 1 n).

(** [JSON.parse] of the envelope field. *)
Definition parse_envelope (p : payload) : qprog payload :=
  match p with Garbled => Err SyntaxError | _ => Ret p end.

Definition claim (consumerId : string) (minIdleMs : Z) : qprog (option ClaimedEntry) :=
  await auto <- xcall (XAutoClaim consumerId minIdleMs);
  match auto : option (nat * payload) with
  | Some (id, p) =>
      await envelope <- parse_envelope p;
      await n <- deliveryCount id;
      Ret (Some (mkClaimed id envelope n))
  | None =>
      await msg <- xcall (XReadGroup consumerId);
      match msg : option (nat * payload) with
      | None => Ret None
      | Some (id, p) =>
          await envelope <- parse_envelope p;
          Ret (Some (mkClaimed id envelope 1))
      end
  end.

Definition ack (entryId : nat) : qprog unit := xcall (XAck entryId).
Definition touch (entryId : nat) (consumerId : string) : scmd := XClaimJustId consumerId entryId.
Definition deleteConsumer (consumerId : string) : qprog unit := xcall (XDelConsumer consumerId).

Fixpoint gc_loop (minIdleMs : Z) (info : list ConsumerInfo) (removed : nat) : qprog nat :=
  match info with
  | [] => Ret removed
  | c :: rest =>
      if (ci_pending c =? 0) && (minIdleMs <=? ci_idle c) then
        await _ <- deleteConsumer (ci_name c); gc_loop minIdleMs rest (S removed)
      else gc_loop minIdleMs rest removed
  end.

Definition gcIdleConsumers (minIdleMs : Z) : qprog nat :=
  await info <- call InfoConsumers; gc_loop minIdleMs info 0.

Definition REAP_BATCH : nat := 100.

Fixpoint reap_loop (consumerId : string) (minIdleMs maxAttempts : Z) (pending : list (Row * Z))
    (deadLettered : list (nat * payload)) : qprog (list (nat * payload)) :=
  match pending with
  | [] => Ret deadLettered
  | (entry, idle) :: rest =>
      if (minIdleMs <=? idle) && (maxAttempts <? row_count entry) then
        await claimed <- xcall (XClaim consumerId minIdleMs (row_id entry));
        match claimed : option payload with
        | None => reap_loop consumerId minIdleMs maxAttempts rest deadLettered
        | Some p =>
            await _ <- ack (row_id entry);
            reap_loop consumerId minIdleMs maxAttempts rest (deadLettered ++ [(row_id entry, p)])
        end
      else reap_loop consumerId minIdleMs maxAttempts rest deadLettered
  end.

Definition reapDeadLetters (consumerId : string) (minIdleMs maxAttempts : Z) : qprog (list (nat * payload)) :=
  await pending <- xcall (XPendingRange REAP_BATCH);
  reap_loop consumerId minIdleMs maxAttempts pending [].

(** ** [processOne] *)

Inductive job_outcome := JIdle | JDeadletter | JRetry | JStatus (s : record_status).

Definition maxAttempts : Z := 3.
Definition MIN_IDLE_MS : Z := 90000.

(** The key a leaf's result is written under, when its envelope has one. *)
Definition env_key (env : LeafEnvelope) : bytes := resultKey (leafSessionId (e_sessionId env) (e_tenant env)).

Definition writeResult (env : LeafEnvelope) (result : LeafResult) : qprog unit :=
  await ts <- call Now;
  call (SetResult (env_key env) (toResultRecord result (e_sessionId env) ts)).

Definition processOne (consumerId : string) : qprog job_outcome :=
  await claimed <- claim consumerId MIN_IDLE_MS;
  match claimed with
  | None => Ret JIdle
  | Some c =>
      match ce_envelope c with
      | Envelope env =>
          if maxAttempts <? ce_deliveryCount c then
            await _ <- writeResult env (RFailed error None);
            await _ <- ack (ce_entryId c);
            Ret JDeadletter
          else
            await result <- call (RunLeaf env);
            let outcome := classifyOutcome result in
            if o_retryable outcome then Ret JRetry else
            await _ <- writeResult env result;
            if o_ack outcome then
              await _ <- ack (ce_entryId c);
              Ret (JStatus (rr_status (toResultRecord result "" "")))
            else Ret JRetry
      | _ => Err TypeError
      end
  end.

(** ** [main] *)

Definition MAX_ATTEMPTS : Z := 3.
Definition CONSUMER_GC_IDLE_MS : Z := 300000.

(** The records of the reaped entries, best effort. *)
Fixpoint write_dead (dead : list (nat * payload)) : qprog unit :=
  match dead with
  | [] => Ret tt
  | (_, Envelope env) :: rest =>
      await _ <- pcatch (writeResult env (RFailed error None)) (fun _ => Ret tt);
      write_dead rest
  | _ :: rest => write_dead rest
  end.

(** The drain loop, [n] times round; [Ret true] is exit 0. *)
Fixpoint drain (n : nat) (consumerId : string) : qprog bool :=
  match n with
  | O => Ret false
  | S n =>
      await outcome <- processOne consumerId;
      match outcome with
      | JIdle => await _ <- deleteConsumer consumerId; Ret true
      | JRetry => Ret false
      | _ => drain n consumerId
      end
  end.

Definition main (n : nat) (consumerId : string) : qprog bool :=
  await dead <- reapDeadLetters consumerId MIN_IDLE_MS MAX_ATTEMPTS;
  await _ <- write_dead dead;
  await _ <- gcIdleConsumers CONSUMER_GC_IDLE_MS;
  drain n consumerId.

(** ** Many consumers, one stream *)

(** What a consumer process holds, and what it learned (ghost state of the proofs): the
    entry it claimed and whether the result is written; consumers whose process is gone;
    entries delivered more than [MAX_ATTEMPTS] times. *)
Inductive wst := Idle | Holding (id : nat) (p : payload) (written : bool) | Reaping (id : nat) | Ended.
Record Know := mkKnow { k_gone : list string; k_over : list nat }.

Definition payload_key (p : payload) : option bytes :=
  match p with Envelope env => Some (env_key env) | _ => None end.

Definition post (st : wst) (c : qcmd) : qreply c → wst :=
  match c with
  | Redis (XAutoClaim _ _) | Redis (XReadGroup _) => fun r =>
      match r with Ok (Some (id, p)) => Holding id p false | Ok None => st | Throw _ => Ended end
  | Redis (XClaim _ _ id) => fun r =>
      match r with Ok (Some _) => Reaping id | Ok None => st | Throw _ => Ended end
  | Redis (XAck _) => fun r => match r with Ok _ => Idle | Throw _ => Ended end
  | SetResult key _ => fun r =>
      match r, st with
      | Ok _, Holding id p w => Holding id p (w || bool_decide (payload_key p = Some key))
      | _, _ => st
      end
  | _ => fun _ => st
  end.

Definition gone (i : ConsumerInfo) : bool := (ci_pending i =? 0) && (CONSUMER_GC_IDLE_MS <=? ci_idle i).

Definition learn (kn : Know) (c : qcmd) : qreply c → Know :=
  match c with
  | Redis (XPendingRange _) => fun r =>
      match r with
      | Ok rows => mkKnow (k_gone kn) ((fun x => row_id x.1) <$> filter (fun x => MAX_ATTEMPTS < row_count x.1) rows)
      | Throw _ => kn
      end
  | InfoConsumers => fun r =>
      match r with
      | Ok l => mkKnow (ci_name <$> filter (fun i => gone i = true) l) (k_over kn)
      | Throw _ => kn
      end
  | _ => fun _ => kn
  end.

(** Where the collection of idle consumers can go wrong (ghost state): consumers that a listing
    showed idle with nothing pending while their process was running; names that a second
    process was started under; the pending entries that deleting a consumer took with it. *)
Record Gaps := mkGaps { g_listed : list string; g_reused : list string; g_swept : list (nat * string) }.

Definition excused (g : Gaps) (c : string) : Prop := c ∈ g_listed g ∨ c ∈ g_reused g.

Record Worker := mkWorker { wk_consumer : string; wk_st : wst; wk_know : Know; wk_prog : qprog bool }.

Section System.
Context `{RedisStream R}.

Record Sys := mkSys {
  s_clock : Z;
  s_redis : R;
  s_results : list (bytes * LeafResultRecord);   (* every write, in order *)
  s_dead : list nat;                             (* ghost: acked beyond MAX_ATTEMPTS *)
  s_workers : list Worker;
  s_names : list string;                         (* consumer names used so far *)
  s_gaps : Gaps;                                 (* ghost *)
}.

Definition live (s : Sys) : list string := wk_consumer <$> s_workers s.

(** Entries that an acknowledgement drops although they were delivered too often. *)
Definition dropped (c : scmd) (s : Stream) : list nat :=
  match c with
  | XAck id => row_id <$> filter (fun r => row_id r = id ∧ MAX_ATTEMPTS < row_count r) (pel s)
  | _ => []
  end.

(** Pending entries that go with a deleted consumer. *)
Definition swept (c : scmd) (s : Stream) : list (nat * string) :=
  match c with
  | XDelConsumer n => (fun r => (row_id r, n)) <$> filter (fun r => row_consumer r = n) (pel s)
  | _ => []
  end.

Definition sweep (c : scmd) (s : Stream) (g : Gaps) : Gaps :=
  mkGaps (g_listed g) (g_reused g) (swept c s ++ g_swept g).

Definition run_redis (c : scmd) (s : Sys) : Sys :=
  mkSys (s_clock s) (redis (s_clock s) c (s_redis s)).2 (s_results s) (dropped c (view (s_redis s)) ++ s_dead s)
    (s_workers s) (s_names s) (sweep c (view (s_redis s)) (s_gaps s)).

Definition run_set (key : bytes) (record : LeafResultRecord) (s : Sys) : Sys :=
  mkSys (s_clock s) (s_redis s) (s_results s ++ [(key, record)]) (s_dead s) (s_workers s) (s_names s) (s_gaps s).

(** A listing that shows a running process's consumer as gone is remembered. *)
Definition note_listing (l : list ConsumerInfo) (s : Sys) : Sys :=
  mkSys (s_clock s) (s_redis s) (s_results s) (s_dead s) (s_workers s) (s_names s)
    (mkGaps (filter (fun n => n ∈ live s) (ci_name <$> filter (fun i => gone i = true) l) ++ g_listed (s_gaps s))
       (g_reused (s_gaps s)) (g_swept (s_gaps s))).

Definition pending_of (n : string) (s : Stream) : Z :=
  Z.of_nat (length (filter (fun r => row_consumer r = n) (pel s))).

(** One call.  It answers, or fails, and a failed command may have taken effect.  XINFO
    CONSUMERS lists consumers by name with the number of their pending entries at that moment; the
    idle times are whatever Redis says, also of a process that is running. *)
Definition perform (c : qcmd) : Sys → qreply c → Sys → Prop :=
  match c with
  | Redis c => fun s r s' =>
      r = Ok (redis (s_clock s) c (s_redis s)).1 ∧ s' = run_redis c s
      ∨ (∃ e, r = Throw e) ∧ (s' = run_redis c s ∨ s' = s)
  | InfoConsumers => fun s r s' =>
      match r with
      | Ok l => (∀ i, i ∈ l → ci_name i ∈ s_names s ∧ ci_pending i = pending_of (ci_name i) (view (s_redis s)))
                ∧ s' = note_listing l s
      | Throw _ => s' = s
      end
  | SetResult key record => fun s r s' =>
      match r with
      | Ok _ => s' = run_set key record s
      | Throw _ => s' = run_set key record s ∨ s' = s
      end
  | RunLeaf _ => fun s _ s' => s' = s
  | Now => fun s r s' => s' = s ∧ ∃ ts, r = Ok ts
  end.

Definition set_workers (ws : list Worker) (s : Sys) : Sys :=
  mkSys (s_clock s) (s_redis s) (s_results s) (s_dead s) ws (s_names s) (s_gaps s).

(** A process starts under any name; a name used before is remembered. *)
Definition spawn (n : nat) (c : string) (s : Sys) : Sys :=
  mkSys (s_clock s) (s_redis s) (s_results s) (s_dead s)
    (s_workers s ++ [mkWorker c Idle (mkKnow [] []) (main n c)]) (c :: s_names s)
    (mkGaps (g_listed (s_gaps s))
       (if bool_decide (c ∈ s_names s) then c :: g_reused (s_gaps s) else g_reused (s_gaps s))
       (g_swept (s_gaps s))).

(** [touch] is the heartbeat of a running leaf. *)
Inductive queue_step : Sys → Sys → Prop :=
| qs_time s t :
    s_clock s ≤ t →
    queue_step s (mkSys t (s_redis s) (s_results s) (s_dead s) (s_workers s) (s_names s) (s_gaps s))
| qs_enqueue s p : queue_step s (run_redis (XAdd p) s)
| qs_spawn s c n : queue_step s (spawn n c s)
| qs_call s s' i w c k r :
    s_workers s !! i = Some w → wk_prog w = Call c k → perform c s r s' →
    queue_step s (set_workers
      (<[i := mkWorker (wk_consumer w) (post (wk_st w) c r) (learn (wk_know w) c r) (k r)]> (s_workers s)) s')
| qs_touch s i w id p wr :
    s_workers s !! i = Some w → wk_st w = Holding id p wr →
    queue_step s (run_redis (touch id (wk_consumer w)) s)
| qs_die s i : queue_step s (set_workers (delete i (s_workers s)) s).

Definition start_sys (r : R) : Sys := mkSys 0 r [] [] [] [] (mkGaps [] [] []).

(** Where an entry is. *)
Definition accounted (s : Sys) (id : nat) (p : payload) : Prop :=
  (lastDelivered (view (s_redis s)) < id)%nat
  ∨ id ∈ row_id <$> pel (view (s_redis s))
  ∨ (∃ key, payload_key p = Some key ∧ key ∈ (s_results s).*1)
  ∨ id ∈ s_dead s.
End System.

(** ** Lemmas: what a consumer's program may do *)

(** When a command is allowed. *)
Definition pre (c : string) (kn : Know) (st : wst) (cmd : qcmd) : Prop :=
  match cmd with
  | Redis (XAutoClaim c' _) | Redis (XReadGroup c') => c' = c ∧ st = Idle
  | Redis (XClaim c' _ id) => c' = c ∧ st = Idle ∧ id ∈ k_over kn
  | Redis (XAck id) => (∃ p, st = Holding id p true) ∨ st = Reaping id
  | Redis (XDelConsumer c') => c' = c ∧ st = Idle ∨ c' ∈ k_gone kn
  | Redis (XAdd _) | Redis (XClaimJustId _ _) => False
  | _ => True
  end.

Fixpoint ok {A} (c : string) (Q : Know → wst → A → Prop) (kn : Know) (st : wst) (p : qprog A) : Prop :=
  match p with
  | Ret a => Q kn st a
  | Err _ => True
  | Call cmd k => pre c kn st cmd ∧ ∀ r, ok c Q (learn kn cmd r) (post st cmd r) (k r)
  end.

Lemma ok_mono {A} c (Q Q' : Know → wst → A → Prop) kn st p :
  (∀ kn st a, Q kn st a → Q' kn st a) → ok c Q kn st p → ok c Q' kn st p.
Proof.
  intros HQ. revert kn st. induction p as [a|e|cmd k IH]; intros kn st; simpl; [auto|done|].
  intros [??]. split; auto.
Qed.

Lemma ok_bind {A B} c (Q : Know → wst → B → Prop) kn st (p : qprog A) (f : A → qprog B) :
  ok c (fun kn st a => ok c Q kn st (f a)) kn st p → ok c Q kn st (pbind p f).
Proof.
  revert kn st. induction p as [a|e|cmd k IH]; intros kn st; simpl; [auto|done|].
  intros [??]. split; auto.
Qed.

Lemma ok_writeResult c (Q : Know → wst → unit → Prop) kn st env result :
  (∀ w, (∃ id p w0, st = Holding id p w0) → Q kn (match st with
     | Holding id p w0 => Holding id p (w0 || bool_decide (payload_key p = Some (env_key env)))
     | _ => st end) w) →
  ((∀ id p w0, st ≠ Holding id p w0) → ∀ w, Q kn st w) →
  ok c Q kn st (writeResult env result).
Proof.
  intros H1 H2. cbn. split; [done|]. intros [ts|e]; cbn; [|done]. split; [done|]. intros [[]|e]; cbn; [|done].
  destruct st; try (apply H2; done). apply H1. eauto.
Qed.

Lemma ok_claim c kn :
  ok c (fun kn' st o => kn' = kn ∧ match o with
         | None => st = Idle
         | Some ce => st = Holding (ce_entryId ce) (ce_envelope ce) false
         end) kn Idle (claim c MIN_IDLE_MS).
Proof.
  cbn. split; [done|]. intros [[[id p]|]|e]; cbn; [| |done].
  - destruct p; cbn; [done| |]; (split; [done|]); intros [n|e]; cbn; done.
  - split; [done|]. intros [[[id p]|]|e]; cbn; [|done|done]. by destruct p; cbn.
Qed.

Lemma ok_processOne c kn :
  ok c (fun kn' st o => kn' = kn ∧ (o = JRetry ∨ st = Idle)) kn Idle (processOne c).
Proof.
  apply ok_bind. eapply ok_mono, ok_claim. cbn beta. intros kn' st [ce|] [-> ->]; [|cbn; auto].
  destruct (ce_envelope ce) as [| |env]; [done|done|].
  assert (Hw : ∀ res A (f : unit → qprog A) Q,
    ok c Q kn (Holding (ce_entryId ce) (Envelope env) true) (f tt) →
    ok c Q kn (Holding (ce_entryId ce) (Envelope env) false) (pbind (writeResult env res) f)).
  { intros res A f Q Hf. apply ok_bind, ok_writeResult; [|intros Hn; by destruct (Hn _ _ _ eq_refl)].
    intros [] _. cbn. by rewrite bool_decide_eq_true_2. }
  assert (Ha : ∀ A (f : unit → qprog A) Q, ok c Q kn Idle (f tt) →
    ok c Q kn (Holding (ce_entryId ce) (Envelope env) true) (pbind (ack (ce_entryId ce)) f)).
  { intros A f Q Hf. cbn. split; [eauto|]. by intros [[]|e]. }
  destruct (_ <? _); [apply Hw, Ha; cbn; auto|].
  cbn [pbind call]. cbn. split; [done|]. intros [res|e]; cbn; [|done].
  destruct (classifyOutcome res) as [[] []]; cbn [o_retryable o_ack]; try (cbn; by auto).
  - apply Hw, Ha. cbn. auto.
  - apply Hw. cbn. auto.
Qed.

Lemma ok_drain n c kn : ok c (fun _ _ _ => True) kn Idle (drain n c).
Proof.
  induction n as [|n IH]; [done|]. cbn [drain]. apply ok_bind. eapply ok_mono, ok_processOne. cbn beta.
  intros kn' st o [-> [->| ->]]; [done|]. destruct o; [|done|done|done]. cbn. split; [by left|]. by intros [[]|].
Qed.

Lemma ok_gc c kn info removed :
  (∀ i, i ∈ info → gone i = true → ci_name i ∈ k_gone kn) →
  ok c (fun _ st _ => st = Idle) kn Idle (gc_loop CONSUMER_GC_IDLE_MS info removed).
Proof.
  revert removed. induction info as [|i info IH]; intros removed Hall; [done|]. cbn [gc_loop].
  assert (Hrest : ∀ j, j ∈ info → gone j = true → ci_name j ∈ k_gone kn) by (intros; apply Hall; [by right|done]).
  fold (gone i). destruct (gone i) eqn:E; [|auto]. cbn.
  split; [right; apply Hall; [by left|done]|]. intros [[]|e]; cbn; auto.
Qed.

Lemma ok_reap c kn pending dead :
  (∀ x, x ∈ pending → MAX_ATTEMPTS < row_count x.1 → row_id x.1 ∈ k_over kn) →
  ok c (fun _ st _ => st = Idle) kn Idle (reap_loop c MIN_IDLE_MS MAX_ATTEMPTS pending dead).
Proof.
  revert dead. induction pending as [|[e idle] pending IH]; intros dead Hall; [done|]. cbn [reap_loop].
  assert (Hrest : ∀ x, x ∈ pending → MAX_ATTEMPTS < row_count x.1 → row_id x.1 ∈ k_over kn)
    by (intros; apply Hall; [by right|done]).
  destruct (_ && _) eqn:E; [|auto]. to_prop. cbn.
  split; [split_and!; [done|done|apply (Hall (e, idle)); [by left|done]]|].
  intros [[p|]|er]; cbn; [|auto|done]. split; [by right|]. intros [[]|er]; cbn; [auto|done].
Qed.

Lemma ok_write_dead c kn dead : ok c (fun _ st _ => st = Idle) kn Idle (write_dead dead).
Proof.
  induction dead as [|[id p] dead IH]; [done|]. destruct p as [| |env]; cbn; [done|done|].
  split; [done|]. intros [ts|e]; cbn; [|done]. split; [done|]. by intros [[]|e]; cbn.
Qed.

Lemma ok_gcIdleConsumers c kn :
  ok c (fun _ st _ => st = Idle) kn Idle (gcIdleConsumers CONSUMER_GC_IDLE_MS).
Proof.
  apply ok_bind. cbn. split; [done|]. intros [info|e]; cbn; [|done]. apply ok_gc.
  cbn. intros i Hi Hg. apply list_elem_of_fmap. exists i. split; [done|]. by apply list_elem_of_filter.
Qed.

Lemma ok_reapDeadLetters c kn :
  ok c (fun _ st _ => st = Idle) kn Idle (reapDeadLetters c MIN_IDLE_MS MAX_ATTEMPTS).
Proof.
  apply ok_bind. cbn. split; [done|]. intros [rows|e]; cbn; [|done]. apply ok_reap.
  cbn. intros x Hx Hc. apply list_elem_of_fmap. exists x. split; [done|]. by apply list_elem_of_filter.
Qed.

Lemma ok_main n c : ok c (fun _ _ _ => True) (mkKnow [] []) Idle (main n c).
Proof.
  unfold main. apply ok_bind. eapply ok_mono, ok_reapDeadLetters. cbn beta. intros kn st dead ->.
  apply ok_bind. eapply ok_mono, ok_write_dead. cbn beta. intros kn' st' _ ->.
  apply ok_bind. eapply ok_mono, ok_gcIdleConsumers. cbn beta. intros kn'' st'' _ ->. apply ok_drain.
Qed.

(** ** Lemmas: what a command does to the stream *)

(** The consumer a command gives entries to. *)
Definition actor (cmd : scmd) : option string :=
  match cmd with
  | XAutoClaim c _ | XReadGroup c | XClaim c _ _ | XClaimJustId c _ => Some c
  | _ => None
  end.

Definition drops (cmd : scmd) : bool :=
  match cmd with XAck _ | XDelConsumer _ => true | _ => false end.

Lemma claim_row_elem c now bump id rows r' :
  r' ∈ claim_row c now bump id rows →
  (r' ∈ rows ∧ row_id r' ≠ id) ∨ (∃ r, r ∈ rows ∧ row_id r = id ∧ r' = mkRow id c now (row_count r + bump)).
Proof.
  intros H. apply list_elem_of_In, in_map_iff in H as (r & Hr & Hin). apply list_elem_of_In in Hin.
  case_decide; subst; [right|left]; eauto.
Qed.

Lemma claim_row_ids c now bump id rows : row_id <$> claim_row c now bump id rows = row_id <$> rows.
Proof.
  induction rows as [|r rows IH]; [done|]. cbn. rewrite <-IH. f_equal. by case_decide.
Qed.

(** Where the rows after a command come from. *)
Lemma stream_rows now cmd s r' :
  r' ∈ pel (stream_do now cmd s).2 →
  r' ∈ pel s
  ∨ (∃ r, r ∈ pel s ∧ row_id r = row_id r' ∧ row_count r ≤ row_count r' ∧ actor cmd = Some (row_consumer r'))
  ∨ (actor cmd = Some (row_consumer r') ∧ (lastDelivered s < row_id r')%nat
       ∧ lastDelivered (stream_do now cmd s).2 = row_id r' ∧ row_id r' ∈ (entries s).*1).
Proof.
  destruct cmd as [p|c m|c|id|n|c m id|c id|id|c]; cbn.
  - auto.
  - destruct (list_find _ _) as [[i r]|]; [|auto]. cbn.
    intros [[? _]|(r0 & Hr0 & Hid & ->)]%claim_row_elem; [auto|]. right; left. exists r0. cbn.
    split_and!; [done|done|lia|done].
  - destruct (list_find _ _) as [[i [id p]]|] eqn:E; [|auto]. cbn. apply list_find_Some in E as (Hi & Hlt & _).
    intros [?| ->%list_elem_of_singleton]%elem_of_app; [auto|]. right; right. cbn in *.
    split_and!; [done|done|done|]. apply list_elem_of_fmap. exists (id, p). split; [done|].
    by eapply list_elem_of_lookup_2.
  - auto.
  - auto.
  - destruct (head _); [|auto]. cbn.
    intros [[? _]|(r0 & Hr0 & Hid & ->)]%claim_row_elem; [auto|]. right; left. exists r0. cbn.
    split_and!; [done|done|lia|done].
  - intros [[? _]|(r0 & Hr0 & Hid & ->)]%claim_row_elem; [auto|]. right; left. exists r0. cbn.
    split_and!; [done|done|lia|done].
  - intros [? ?]%list_elem_of_filter. auto.
  - intros [? ?]%list_elem_of_filter. auto.
Qed.

(** Only acknowledging and deleting a consumer drop rows. *)
Lemma stream_keeps now cmd s id :
  drops cmd = false → id ∈ row_id <$> pel s → id ∈ row_id <$> pel (stream_do now cmd s).2.
Proof.
  destruct cmd as [p|c m|c|id'|n|c m id'|c id'|id'|c]; cbn; try done; intros _ Hid; [| | |by rewrite claim_row_ids].
  - destruct (list_find _ _) as [[i r]|]; [|done]. cbn. by rewrite claim_row_ids.
  - destruct (list_find _ _) as [[i [id0 p]]|]; [|done]. cbn. rewrite fmap_app, elem_of_app. by left.
  - destruct (head _); [|done]. cbn. by rewrite claim_row_ids.
Qed.

Lemma stream_last now cmd s : (lastDelivered s ≤ lastDelivered (stream_do now cmd s).2)%nat.
Proof.
  destruct cmd; cbn; try done; [by destruct (list_find _ _) as [[??]|]| |by destruct (head _)].
  destruct (list_find _ _) as [[i [id p]]|] eqn:E; [|done]. apply list_find_Some in E as (_ & Hlt & _).
  cbn in *. lia.
Qed.

Lemma stream_entries now cmd s e : e ∈ entries s → e ∈ entries (stream_do now cmd s).2.
Proof.
  destruct cmd; cbn; try done.
  - intros ?. rewrite elem_of_app. by left.
  - by destruct (list_find _ _) as [[??]|].
  - by destruct (list_find _ _) as [[? [??]]|].
  - by destruct (head _).
Qed.

(** ** Lemmas: the invariant of the queue *)

Definition answered (keys : list bytes) (p : payload) : Prop := ∃ key, payload_key p = Some key ∧ key ∈ keys.

(** Delivered, and more than [MAX_ATTEMPTS] times if it is pending. *)
Definition over (S : Stream) (id : nat) : Prop :=
  (id ≤ lastDelivered S)%nat ∧ ∀ r, r ∈ pel S → row_id r = id → MAX_ATTEMPTS < row_count r.

Record core (S : Stream) (keys : list bytes) (dead : list nat) : Prop := {
  co_sorted : StronglySorted lt (entries S).*1;
  co_rows : ∀ r, r ∈ pel S → row_id r ∈ (entries S).*1 ∧ (row_id r ≤ lastDelivered S)%nat;
  co_nodup : NoDup (row_id <$> pel S);
  co_acc : ∀ id p, (id, p) ∈ entries S →
    (lastDelivered S < id)%nat ∨ id ∈ row_id <$> pel S ∨ answered keys p ∨ id ∈ dead;
}.

Definition cmd_safe (S : Stream) (keys : list bytes) (cmd : scmd) : Prop :=
  match cmd with
  | XAck id => (∀ p, (id, p) ∈ entries S → answered keys p) ∨ over S id
  | _ => True
  end.

Lemma foldr_max_ge (l : list (nat * payload)) n :
  (n ≤ foldr (fun e n => Nat.max e.1 n) n l)%nat ∧ ∀ e, e ∈ l → (e.1 ≤ foldr (fun e n => Nat.max e.1 n) n l)%nat.
Proof.
  induction l as [|e l [IH1 IH2]]; simpl; [split; [done|by intros ? []%elem_of_nil]|].
  split; [lia|]. intros e' [->|He]%elem_of_cons; [lia|]. specialize (IH2 _ He). lia.
Qed.

Lemma SSorted_snoc (l : list nat) x : StronglySorted lt l → (∀ y, y ∈ l → (y < x)%nat) → StronglySorted lt (l ++ [x]).
Proof.
  induction 1 as [|y l Hs IH Hf]; intros Hx; cbn; [by repeat constructor|].
  constructor; [apply IH; intros; apply Hx; by right|].
  apply Forall_app; split; [done|]. apply Forall_singleton, Hx. by left.
Qed.

Lemma SSorted_lookup (l : list nat) i j x y :
  StronglySorted lt l → l !! i = Some x → l !! j = Some y → (i < j)%nat → (x < y)%nat.
Proof.
  intros Hs. revert i j. induction Hs as [|z l Hs IH Hf]; intros i j; [done|].
  destruct j as [|j]; [lia|]. destruct i as [|i]; cbn; intros Hi Hj Hij.
  - injection Hi as <-. eapply Forall_forall in Hf; [exact Hf|]. by eapply list_elem_of_lookup_2.
  - apply (IH i j); [done|done|lia].
Qed.

(** The entry XREADGROUP delivers is the least undelivered one. *)
Lemma next_undelivered S i id p id' p' :
  StronglySorted lt (entries S).*1 →
  list_find (fun e => (lastDelivered S < e.1)%nat) (entries S) = Some (i, (id, p)) →
  (id', p') ∈ entries S → (lastDelivered S < id')%nat → (id' ≤ id)%nat → id' = id.
Proof.
  intros Hs (Hi & _ & Hbefore)%list_find_Some [j Hj]%list_elem_of_lookup_1 Hlt Hle.
  destruct (lt_eq_lt_dec i j) as [[Hij| ->]|Hji]; [|congruence|].
  - assert ((id < id')%nat); [|lia].
    eapply (SSorted_lookup _ i j); [exact Hs| | |done]; rewrite list_lookup_fmap; [by rewrite Hi|by rewrite Hj].
  - destruct (Hbefore j (id', p') Hj Hji Hlt).
Qed.

Lemma core_sorted now cmd S keys dead :
  core S keys dead → StronglySorted lt (entries (stream_do now cmd S).2).*1.
Proof.
  intros Hc. destruct cmd; cbn; try apply Hc.
  - rewrite fmap_app. apply SSorted_snoc; [apply Hc|]. intros y (e & -> & He)%list_elem_of_fmap.
    pose proof (proj2 (foldr_max_ge (entries S) (lastDelivered S)) e He). cbn [fst]. lia.
  - destruct (list_find _ _) as [[??]|]; apply Hc.
  - destruct (list_find _ _) as [[? [??]]|]; apply Hc.
  - destruct (head _); apply Hc.
Qed.

Lemma core_rows now cmd S keys dead r' :
  core S keys dead → r' ∈ pel (stream_do now cmd S).2 →
  row_id r' ∈ (entries (stream_do now cmd S).2).*1 ∧ (row_id r' ≤ lastDelivered (stream_do now cmd S).2)%nat.
Proof.
  intros Hc Hr. pose proof (stream_last now cmd S).
  assert (Hent : ∀ id, id ∈ (entries S).*1 → id ∈ (entries (stream_do now cmd S).2).*1).
  { intros id (e & -> & He)%list_elem_of_fmap. apply list_elem_of_fmap. exists e. split; [done|]. by apply stream_entries. }
  apply stream_rows in Hr as [Hr|[(r & Hr & <- & _)|(_ & _ & Hl & Hin)]].
  - destruct (co_rows _ _ _ Hc r' Hr). split; [auto|lia].
  - destruct (co_rows _ _ _ Hc r Hr). split; [auto|lia].
  - split; [auto|by rewrite Hl].
Qed.

Lemma core_acc now cmd S keys dead id p :
  core S keys dead → cmd_safe S keys cmd → (id, p) ∈ entries S →
  let S' := (stream_do now cmd S).2 in
  (lastDelivered S' < id)%nat ∨ id ∈ row_id <$> pel S' ∨ answered keys p
  ∨ id ∈ (dropped cmd S ++ (swept cmd S).*1) ++ dead.
Proof.
  intros Hc Hsafe He S'. rewrite !elem_of_app.
  destruct (co_acc _ _ _ Hc id p He) as [Hlt|[Hp|[Ha|Hd]]]; [| |by auto|by auto].
  - destruct cmd as [?|c m|c|?|?|c m ?|c ?|?|c]; unfold S'; cbn; auto.
    + destruct (list_find _ _) as [[??]|]; cbn; auto.
    + destruct (list_find _ _) as [[i [id0 p0]]|] eqn:E; cbn; auto.
      destruct (decide (id0 < id)%nat); [by left|]. right; left.
      rewrite (next_undelivered S i id0 p0 id p) by (done || apply Hc || lia).
      rewrite fmap_app, elem_of_app. right. by apply list_elem_of_singleton.
    + destruct (head _); cbn; auto.
  - destruct (drops cmd) eqn:Ed; [|right; left; by apply stream_keeps].
    apply list_elem_of_fmap in Hp as (r & -> & Hr). destruct cmd as [?|?|?|?|?|?|?|id0|c]; try done; unfold S'; cbn.
    + destruct (decide (row_id r = id0)) as [<-|Hne].
      * right; right. destruct Hsafe as [Hs|[_ Hs]]; [left; by apply Hs|]. right; left; left.
        apply list_elem_of_fmap. exists r. split; [done|]. apply list_elem_of_filter. auto.
      * right; left. apply list_elem_of_fmap. exists r. split; [done|]. by apply list_elem_of_filter.
    + destruct (decide (row_consumer r = c)) as [Heq|Hne].
      * right; right; right; left; right. apply list_elem_of_fmap. exists (row_id r, c). split; [done|].
        apply list_elem_of_fmap. exists r. split; [done|]. by apply list_elem_of_filter.
      * right; left. apply list_elem_of_fmap. exists r. split; [done|]. by apply list_elem_of_filter.
Qed.

Lemma stream_entries_inv now cmd S e :
  e ∈ entries (stream_do now cmd S).2 → e ∈ entries S ∨ (lastDelivered (stream_do now cmd S).2 < e.1)%nat.
Proof.
  destruct cmd; cbn; auto.
  - intros [?| ->%list_elem_of_singleton]%elem_of_app; [auto|]. right. cbn [fst].
    pose proof (proj1 (foldr_max_ge (entries S) (lastDelivered S))). lia.
  - destruct (list_find _ _) as [[??]|]; auto.
  - destruct (list_find _ _) as [[? [??]]|]; auto.
  - destruct (head _); auto.
Qed.

Lemma core_nodup now cmd S keys dead : core S keys dead → NoDup (row_id <$> pel (stream_do now cmd S).2).
Proof.
  intros Hc. pose proof (co_nodup _ _ _ Hc) as Hn.
  assert (Hf : ∀ P `{∀ x, base.Decision (P x)}, NoDup (row_id <$> filter P (pel S))).
  { intros P ?. eapply sublist_NoDup; [exact Hn|]. apply fmap_sublist, sublist_filter. }
  destruct cmd; cbn; rewrite ?claim_row_ids; auto.
  - destruct (list_find _ _) as [[??]|]; cbn; by rewrite ?claim_row_ids.
  - destruct (list_find _ _) as [[i [id p]]|] eqn:E; cbn; [|done].
    apply list_find_Some in E as (_ & Hlt & _). rewrite fmap_app. apply NoDup_app. split_and!; [done| |apply NoDup_singleton].
    intros x (r & -> & Hr)%list_elem_of_fmap Hx%list_elem_of_singleton. cbn in *.
    pose proof (proj2 (co_rows _ _ _ Hc r Hr)). lia.
  - destruct (head _); cbn; by rewrite ?claim_row_ids.
Qed.

Lemma core_do now cmd S keys dead :
  core S keys dead → cmd_safe S keys cmd → core (stream_do now cmd S).2 keys ((dropped cmd S ++ (swept cmd S).*1) ++ dead).
Proof.
  intros Hc Hs. split; [by eapply core_sorted|intros r'; by eapply core_rows|by eapply core_nodup|].
  intros id p [Hin|Hnew]%stream_entries_inv; [by apply core_acc|by left].
Qed.

Lemma core_keys S keys keys' dead : keys ⊆ keys' → core S keys dead → core S keys' dead.
Proof.
  intros Hk Hc. split; try apply Hc. intros id p He.
  destruct (co_acc _ _ _ Hc id p He) as [?|[?|[(k & ? & ?)|?]]]; auto. right; right; left. exists k. auto.
Qed.

Lemma core_dead S keys dead dead' : dead ⊆ dead' → core S keys dead → core S keys dead'.
Proof.
  intros Hk Hc. split; try apply Hc. intros id p He.
  destruct (co_acc _ _ _ Hc id p He) as [?|[?|[?|?]]]; auto.
Qed.

Lemma entries_functional S id p p' :
  StronglySorted lt (entries S).*1 → (id, p) ∈ entries S → (id, p') ∈ entries S → p = p'.
Proof.
  intros Hs [i Hi]%list_elem_of_lookup_1 [j Hj]%list_elem_of_lookup_1.
  assert (Hi' : (entries S).*1 !! i = Some id) by (by rewrite list_lookup_fmap, Hi).
  assert (Hj' : (entries S).*1 !! j = Some id) by (by rewrite list_lookup_fmap, Hj).
  destruct (lt_eq_lt_dec i j) as [[Hij| ->]|Hji]; [| congruence |].
  - pose proof (SSorted_lookup _ i j id id Hs Hi' Hj' Hij). lia.
  - pose proof (SSorted_lookup _ j i id id Hs Hj' Hi' Hji). lia.
Qed.

(** What is true of a consumer process. *)
Definition mine (st : wst) (r : Row) : Prop :=
  match st with
  | Idle => False
  | Holding id _ _ | Reaping id => row_id r = id
  | Ended => True
  end.

Definition st_ok (S : Stream) (keys : list bytes) (st : wst) : Prop :=
  match st with
  | Holding id p w => (id, p) ∈ entries S ∧ (w = true → answered keys p)
  | Reaping id => over S id
  | _ => True
  end.

Definition no_rows (S : Stream) (n : string) : Prop := ∀ r, r ∈ pel S → row_consumer r ≠ n.

(** What deleting a consumer may find. *)
Definition gone_ok (S : Stream) (g : Gaps) (names lv : list string) (n : string) : Prop :=
  n ∈ names ∧ (excused g n ∨ ¬ n ∈ lv ∧ no_rows S n).

(** The rows of a process's consumer are its own, unless another one had the name. *)
Definition mine_ok (S : Stream) (keys : list bytes) (g : Gaps) (c : string) (st : wst) : Prop :=
  (c ∈ g_reused g ∨ ∀ r, r ∈ pel S → row_consumer r = c → mine st r) ∧ st_ok S keys st.

Record wok (S : Stream) (keys : list bytes) (g : Gaps) (names lv : list string) (w : Worker) : Prop := {
  wo_ok : ok (wk_consumer w) (fun _ _ _ => True) (wk_know w) (wk_st w) (wk_prog w);
  wo_mine : mine_ok S keys g (wk_consumer w) (wk_st w);
  wo_over : ∀ id, id ∈ k_over (wk_know w) → over S id;
  wo_gone : ∀ n, n ∈ k_gone (wk_know w) → gone_ok S g names lv n;
}.

Lemma over_do now cmd S id : over S id → over (stream_do now cmd S).2 id.
Proof.
  intros [Hle Hc]. pose proof (stream_last now cmd S). split; [lia|].
  intros r' [Hr|[(r & Hr & Hid & Hcnt & _)|(_ & Hlt & _ & _)]]%stream_rows Heq; [by apply Hc| |lia].
  assert (MAX_ATTEMPTS < row_count r) by (apply Hc; [done|congruence]). lia.
Qed.

Lemma st_ok_do now cmd S keys st : st_ok S keys st → st_ok (stream_do now cmd S).2 keys st.
Proof.
  destruct st; cbn; [done| |by apply over_do|done]. intros [??]. split; [by apply stream_entries|done].
Qed.

Lemma st_ok_keys S keys keys' st : keys ⊆ keys' → st_ok S keys st → st_ok S keys' st.
Proof.
  intros Hk. destruct st; cbn; [done| |done|done]. intros [? Ha]. split; [done|].
  intros ->. destruct Ha as (k & ? & ?); [done|]. exists k. auto.
Qed.

Lemma gone_ok_do now cmd S g names lv n :
  (∀ c, actor cmd = Some c → c ∈ lv) → gone_ok S g names lv n → gone_ok (stream_do now cmd S).2 g names lv n.
Proof.
  intros Hlive [Hn [?|[Hnl Hrows]]]; split; auto. right. split; [done|].
  intros r' [Hr|[(r & _ & _ & _ & Hact)|(Hact & _)]]%stream_rows; [by apply Hrows| |];
    intros <-; destruct Hnl; by apply Hlive.
Qed.

(** Another consumer's command. *)
Lemma wok_frame now cmd S keys g names lv w :
  wok S keys g names lv w → actor cmd ≠ Some (wk_consumer w) ∨ wk_consumer w ∈ g_reused g →
  (∀ c, actor cmd = Some c → c ∈ lv) →
  wok (stream_do now cmd S).2 keys g names lv w.
Proof.
  intros Hw Ha Hlive. destruct (wo_mine _ _ _ _ _ _ Hw) as [Hm Hst].
  split; [apply Hw| |intros id ?; by apply over_do, Hw|intros n ?; by apply gone_ok_do, Hw].
  split; [|by apply st_ok_do]. destruct Ha as [Ha|?]; [|by left]. destruct Hm as [?|Hm]; [by left|right].
  intros r' [Hr|[(r & _ & _ & _ & Hact)|(Hact & _)]]%stream_rows Hc; [by apply Hm| |]; congruence.
Qed.

(** A process's own command. *)
Lemma row_payload S keys dead r :
  core S keys dead → r ∈ pel S → ∃ p, payload_of S (row_id r) = Some p ∧ (row_id r, p) ∈ entries S.
Proof.
  intros Hc Hr. destruct (payload_of S (row_id r)) as [p|] eqn:E.
  - exists p. split; [done|]. by apply map_get_Some_elem.
  - apply map_get_None in E. by destruct (co_rows _ _ _ Hc r Hr).
Qed.

Lemma learned_over S keys dead r :
  core S keys dead → r ∈ pel S → MAX_ATTEMPTS < row_count r → over S (row_id r).
Proof.
  intros Hc Hr Hn. split; [by apply (co_rows _ _ _ Hc)|]. intros r' Hr' Heq.
  apply list_elem_of_lookup_1 in Hr as [i Hi], Hr' as [j Hj].
  assert (i = j) as ->; [|congruence].
  apply (NoDup_lookup _ i j (row_id r) (co_nodup _ _ _ Hc)); rewrite list_lookup_fmap; [by rewrite Hi|].
  rewrite Hj. cbn. by rewrite Heq.
Qed.

Lemma pre_safe S keys g names lv w cmd :
  StronglySorted lt (entries S).*1 → wok S keys g names lv w →
  pre (wk_consumer w) (wk_know w) (wk_st w) (Redis cmd) → cmd_safe S keys cmd.
Proof.
  intros Hs Hw. destruct cmd as [?|?|?|?|?|?|?|id|c]; cbn; try done.
  destruct (wo_mine _ _ _ _ _ _ Hw) as [_ Hst]. intros [[p Hp]|Hp]; rewrite Hp in Hst; cbn in Hst; [left|by right].
  intros p' Hp'. destruct Hst as [He Ha]. rewrite (entries_functional S id p' p Hs Hp' He). auto.
Qed.

(** What a process's command sweeps away belongs to an excused consumer. *)
Lemma pre_swept S keys g names lv w cmd id c :
  wok S keys g names lv w → pre (wk_consumer w) (wk_know w) (wk_st w) (Redis cmd) →
  (id, c) ∈ swept cmd S → excused g c.
Proof.
  intros Hw. destruct cmd as [?|?|?|?|?|?|?|?|n]; cbn; try (by intros _ []%elem_of_nil).
  intros Hpre ([r0 ?] & Heq & Hr)%list_elem_of_fmap. injection Heq as _ ->.
  apply list_elem_of_filter in Hr as [Hc Hr]. destruct Hpre as [[-> Hi]|Hg].
  - destruct (wo_mine _ _ _ _ _ _ Hw) as [[?|Hm] _]; [by right|]. specialize (Hm _ Hr Hc). by rewrite Hi in Hm.
  - destruct (wo_gone _ _ _ _ _ _ Hw n Hg) as [_ [?|[_ Hno]]]; [done|]. by destruct (Hno _ Hr).
Qed.

Lemma own_answer now cmd S keys dead g c kn st :
  core S keys dead → pre c kn st (Redis cmd) → (∀ id, id ∈ k_over kn → over S id) → mine_ok S keys g c st →
  mine_ok (stream_do now cmd S).2 keys g c (post st (Redis cmd) (Ok (stream_do now cmd S).1)).
Proof.
  intros Hc Hpre Hov [Hm Hst]. destruct cmd as [?|c' m|c'|?|?|c' m id|?|id|c']; try done.
  - destruct Hpre as [-> ->]. cbn. destruct (list_find _ _) as [[i r]|] eqn:E; cbn; [|done].
    apply list_find_Some in E as (Hi & _ & _). apply list_elem_of_lookup_2, (list_elem_of_In) in Hi.
    assert (Hr : r ∈ pel S).
    { apply list_elem_of_In in Hi. eapply subseteq_take. exact Hi. }
    destruct (row_payload _ _ _ r Hc Hr) as (p & Hp & He). rewrite Hp. cbn. split; [|by split].
    destruct Hm as [?|Hm]; [by left|right].
    intros r' [[Hr' _]|(r0 & _ & _ & ->)]%claim_row_elem Hcons; [by destruct (Hm r' Hr' Hcons)|done].
  - destruct Hpre as [-> ->]. cbn. destruct (list_find _ _) as [[i [id p]]|] eqn:E; cbn; [|done].
    apply list_find_Some in E as (Hi & _ & _). split; [|split; [by eapply list_elem_of_lookup_2|done]].
    destruct Hm as [?|Hm]; [by left|right].
    intros r' [Hr'| ->%list_elem_of_singleton]%elem_of_app Hcons; [by destruct (Hm r' Hr' Hcons)|done].
  - destruct Hpre as (-> & -> & Hid). pose proof (over_do now (XClaim c m id) S id (Hov id Hid)) as Ho. revert Ho.
    cbn. destruct (head _) as [r|] eqn:E; cbn; [|done]. intros Ho.
    apply head_Some_elem_of, list_elem_of_filter in E as [[<- _] Hr].
    destruct (row_payload _ _ _ r Hc Hr) as (p & Hp & He). rewrite Hp. split; [|exact Ho].
    destruct Hm as [?|Hm]; [by left|right].
    intros r' [[Hr' _]|(r0 & _ & _ & ->)]%claim_row_elem Hcons; [by destruct (Hm r' Hr' Hcons)|done].
  - cbn. split; [|done]. destruct Hm as [?|Hm]; [by left|right].
    intros r' [Hne Hr']%list_elem_of_filter Hcons. specialize (Hm r' Hr' Hcons).
    destruct Hpre as [[p ->]| ->]; by cbn in Hm.
  - split; [|exact (st_ok_do now (XDelConsumer c') S keys st Hst)]. destruct Hm as [?|Hm]; [by left|right].
    cbn. intros r' [_ Hr']%list_elem_of_filter Hcons. by apply Hm.
Qed.

(** An answer that never came. *)
Lemma own_lost now cmd S keys g c kn st e :
  pre c kn st (Redis cmd) → mine_ok S keys g c st →
  mine_ok (stream_do now cmd S).2 keys g c (post st (Redis cmd) (Throw e))
  ∧ mine_ok S keys g c (post st (Redis cmd) (Throw e)).
Proof.
  intros Hpre [Hm Hst].
  destruct cmd as [?|c' m|c'|?|?|c' m id|?|id|c']; try done; try (by split; (split; [right|])).
  split; [|done]. split; [|exact (st_ok_do now (XDelConsumer c') S keys st Hst)].
  destruct Hm as [?|Hm]; [by left|right]. cbn. intros r' [_ Hr']%list_elem_of_filter Hcons. by apply Hm.
Qed.

Lemma learn_redis S keys dead kn now cmd r :
  core S keys dead → (∀ id, id ∈ k_over kn → over S id) → r = Ok (stream_do now cmd S).1 ∨ (∃ e, r = Throw e) →
  (∀ id, id ∈ k_over (learn kn (Redis cmd) r) → over S id) ∧ k_gone (learn kn (Redis cmd) r) = k_gone kn.
Proof.
  intros Hc Hk [->|[e ->]]; destruct cmd as [?|?|?|?|n|?|?|?|?]; try done.
  cbn. split; [|done]. intros id (x & -> & [Hx Hin]%list_elem_of_filter)%list_elem_of_fmap.
  apply list_elem_of_fmap in Hin as (r & -> & Hr). cbn in *.
  eapply learned_over; [done| |done]. eapply subseteq_take. exact Hr.
Qed.

Section Invariant.
Context `{RedisStream R}.

Record queue_inv (s : Sys (R := R)) : Prop := {
  qi_core : core (view (s_redis s)) (s_results s).*1 (s_dead s ++ (g_swept (s_gaps s)).*1);
  qi_same : ∀ i j v w, s_workers s !! i = Some v → s_workers s !! j = Some w → i ≠ j →
    wk_consumer v = wk_consumer w → wk_consumer w ∈ g_reused (s_gaps s);
  qi_names : live s ⊆ s_names s;
  qi_owners : ∀ r, r ∈ pel (view (s_redis s)) → row_consumer r ∈ s_names s;
  qi_swept : ∀ id c, (id, c) ∈ g_swept (s_gaps s) → excused (s_gaps s) c;
  qi_workers : ∀ w, w ∈ s_workers s →
    wok (view (s_redis s)) (s_results s).*1 (s_gaps s) (s_names s) (live s) w;
}.

Lemma live_insert (s : Sys (R := R)) i w w' :
  s_workers s !! i = Some w → wk_consumer w' = wk_consumer w →
  wk_consumer <$> <[i := w']> (s_workers s) = live s.
Proof.
  intros Hi Hc. unfold live. rewrite list_fmap_insert, Hc. apply list_insert_id. by rewrite list_lookup_fmap, Hi.
Qed.

(** Gaps only grow. *)
Definition gaps_le (g g' : Gaps) : Prop := g_listed g ⊆ g_listed g' ∧ g_reused g ⊆ g_reused g'.

Lemma excused_le g g' n : gaps_le g g' → excused g n → excused g' n.
Proof. intros [??] [?|?]; [left|right]; auto. Qed.

(** The weakest facts about a process survive new names, new gaps and processes that end. *)
Lemma wok_mono S keys keys' g g' names names' lv lv' w :
  keys ⊆ keys' → gaps_le g g' → names ⊆ names' →
  (∀ n, n ∈ names → ¬ n ∈ lv → ¬ n ∈ lv' ∨ excused g' n) →
  wok S keys g names lv w → wok S keys' g' names' lv' w.
Proof.
  intros Hk Hg Hn Hl Hw. destruct (wo_mine _ _ _ _ _ _ Hw) as [Hm Hst]. split; try apply Hw.
  - split; [|by eapply st_ok_keys]. destruct Hm as [?|?]; [left; by apply Hg|by right].
  - intros n Hin. destruct (wo_gone _ _ _ _ _ _ Hw n Hin) as [Hnn [He|[Hnl Hno]]]; (split; [auto|]).
    + left. by eapply excused_le.
    + destruct (Hl n Hnn Hnl); auto.
Qed.

(** One process changed, the stream, the results and the gaps moved on. *)
Lemma inv_update (s : Sys (R := R)) i w w' r' results' dead' g' :
  queue_inv s → s_workers s !! i = Some w → wk_consumer w' = wk_consumer w →
  core (view r') results'.*1 (dead' ++ (g_swept g').*1) →
  gaps_le (s_gaps s) g' → (∀ id c, (id, c) ∈ g_swept g' → excused g' c) →
  (∀ r, r ∈ pel (view r') → row_consumer r ∈ s_names s) →
  wok (view r') results'.*1 g' (s_names s) (live s) w' →
  (∀ v, v ∈ s_workers s → wk_consumer v ≠ wk_consumer w ∨ wk_consumer v ∈ g_reused (s_gaps s) →
     wok (view r') results'.*1 g' (s_names s) (live s) v) →
  queue_inv (mkSys (s_clock s) r' results' dead' (<[i := w']> (s_workers s)) (s_names s) g').
Proof.
  intros Hi Hw Hcons Hcore Hg Hsw Hrows Hown Hoth.
  assert (Hback : ∀ j v, <[i := w']> (s_workers s) !! j = Some v →
    ∃ v0, s_workers s !! j = Some v0 ∧ wk_consumer v0 = wk_consumer v ∧ (j = i ∧ v = w' ∨ j ≠ i ∧ v = v0)).
  { intros j v Hj. destruct (decide (i = j)) as [<-|Hne].
    - rewrite list_lookup_insert_eq in Hj by (by eapply lookup_lt_Some). injection Hj as <-. exists w. auto.
    - rewrite list_lookup_insert_ne in Hj by done. exists v. auto. }
  split; unfold live; cbn; rewrite ?(live_insert s i w w' Hw Hcons); [done| |apply Hi|done|done|].
  - intros j j' v v' (v0 & H0 & <- & _)%Hback (v1 & H1 & <- & _)%Hback Hne Heq.
    apply Hg. by eapply (qi_same _ Hi j j').
  - intros v [j Hj]%list_elem_of_lookup_1. destruct (Hback j v Hj) as (v0 & H0 & _ & [[-> ->]|[Hne ->]]); [done|].
    apply Hoth; [by eapply list_elem_of_lookup_2|].
    destruct (decide (wk_consumer v0 = wk_consumer w)) as [Heq|]; [right|by left].
    by apply (qi_same _ Hi i j w v0).
Qed.

Lemma actor_pre c kn st cmd c' : pre c kn st (Redis cmd) → actor cmd = Some c' → c' = c.
Proof. destruct cmd; cbn; try done; intros Hp [= <-]; apply Hp. Qed.

Lemma owners_do now cmd (s : Sys (R := R)) r :
  queue_inv s → (∀ c, actor cmd = Some c → c ∈ live s) →
  r ∈ pel (stream_do now cmd (view (s_redis s))).2 → row_consumer r ∈ s_names s.
Proof.
  intros Hi Hlive [Hr|[(r0 & _ & _ & _ & Hact)|(Hact & _)]]%stream_rows;
    [by apply (qi_owners _ Hi)| |]; by apply (qi_names _ Hi), Hlive.
Qed.

Lemma core_run now cmd (s : Sys (R := R)) :
  queue_inv s → cmd_safe (view (s_redis s)) (s_results s).*1 cmd →
  core (stream_do now cmd (view (s_redis s))).2 (s_results s).*1
    ((dropped cmd (view (s_redis s)) ++ s_dead s) ++ (g_swept (sweep cmd (view (s_redis s)) (s_gaps s))).*1).
Proof.
  intros Hi Hsafe. eapply core_dead; [|by apply core_do; [apply (qi_core _ Hi)|]].
  intros x. cbn. rewrite fmap_app, !elem_of_app. tauto.
Qed.

(** A process's Redis command. *)
Lemma inv_redis (s : Sys (R := R)) i w cmd k r s' :
  queue_inv s → s_workers s !! i = Some w → wk_prog w = Call (Redis cmd) k → perform (Redis cmd) s r s' →
  queue_inv (set_workers
    (<[i := mkWorker (wk_consumer w) (post (wk_st w) (Redis cmd) r) (learn (wk_know w) (Redis cmd) r) (k r)]>
       (s_workers s)) s').
Proof.
  intros Hi Hw Hp Hperf. pose proof (qi_core _ Hi) as Hcore.
  assert (Hwok := qi_workers _ Hi w (list_elem_of_lookup_2 _ _ _ Hw)).
  pose proof (wo_ok _ _ _ _ _ _ Hwok) as Hok. rewrite Hp in Hok. destruct Hok as [Hpre Hk].
  pose proof (pre_safe _ _ _ _ _ _ _ (co_sorted _ _ _ Hcore) Hwok Hpre) as Hsafe.
  assert (Hlive : ∀ c, actor cmd = Some c → c ∈ live s).
  { intros c Hc. rewrite (actor_pre _ _ _ _ _ Hpre Hc). apply list_elem_of_fmap. exists w.
    split; [done|]. by eapply list_elem_of_lookup_2. }
  pose proof (wo_mine _ _ _ _ _ _ Hwok) as Hmine.
  assert (Hr : r = Ok (stream_do (s_clock s) cmd (view (s_redis s))).1 ∨ ∃ e, r = Throw e).
  { destruct Hperf as [[-> _]|[He _]]; [left; by rewrite redis_answer|by right]. }
  destruct (learn_redis _ _ _ (wk_know w) _ _ _ Hcore (wo_over _ _ _ _ _ _ Hwok) Hr) as [Hov Hgone].
  assert (Hs' : s' = run_redis cmd s ∨ s' = s ∧ ∃ e, r = Throw e) by (destruct Hperf as [[_ ->]|[? [->| ->]]]; auto).
  assert (Hself : gaps_le (s_gaps s) (sweep cmd (view (s_redis s)) (s_gaps s))) by done.
  destruct Hs' as [->|[-> [e ->]]].
  - unfold set_workers, run_redis. cbn [s_clock s_redis s_results s_dead s_workers s_names s_gaps].
    eapply inv_update; [done|done|done| |done| | | |]; rewrite ?redis_effect.
    + by apply core_run.
    + intros id c Hin. change (excused (s_gaps s) c).
      apply elem_of_app in Hin as [?|?]; [by eapply pre_swept|by eapply (qi_swept _ Hi)].
    + intros r0. by apply owners_do.
    + split; cbn [wk_consumer wk_st wk_know wk_prog]; [apply Hk| |intros; by apply over_do, Hov|].
      * destruct Hr as [->|[e ->]]; [by apply (own_answer _ cmd _ _ _ _ _ _ _ Hcore Hpre (wo_over _ _ _ _ _ _ Hwok))|].
        exact (proj1 (own_lost _ cmd _ _ _ _ _ _ e Hpre Hmine)).
      * intros n Hn. apply gone_ok_do; [done|]. apply (wo_gone _ _ _ _ _ _ Hwok). by rewrite <-Hgone.
    + intros v Hv Hne. eapply wok_mono; [done|exact Hself|done|by left|]. apply wok_frame; [by apply Hi| |done].
      destruct Hne as [Hne|?]; [left|by right]. intros Hact. apply Hne. by eapply actor_pre.
  - unfold set_workers. eapply inv_update; [done|done|done|done|done|apply Hi|apply Hi| |intros; by apply Hi].
    split; cbn [wk_consumer wk_st wk_know wk_prog]; [apply Hk| |done|intros n Hn; apply Hwok; by rewrite <-Hgone].
    exact (proj2 (own_lost (s_clock s) cmd _ _ _ _ _ _ e Hpre Hmine)).
Qed.

(** Calls that leave the stream alone. *)
Lemma inv_quiet (s : Sys (R := R)) i w st kn p results g' :
  queue_inv s → s_workers s !! i = Some w → (s_results s).*1 ⊆ results.*1 →
  gaps_le (s_gaps s) g' → g_swept g' = g_swept (s_gaps s) →
  ok (wk_consumer w) (fun _ _ _ => True) kn st p →
  mine_ok (view (s_redis s)) results.*1 (s_gaps s) (wk_consumer w) st →
  k_over kn = k_over (wk_know w) →
  (∀ n, n ∈ k_gone kn → gone_ok (view (s_redis s)) g' (s_names s) (live s) n) →
  queue_inv (mkSys (s_clock s) (s_redis s) results (s_dead s) (<[i := mkWorker (wk_consumer w) st kn p]> (s_workers s))
               (s_names s) g').
Proof.
  intros Hi Hw Hsub Hg Hsw Hok [Hm Hst] Hov Hgo.
  assert (Hwok := qi_workers _ Hi w (list_elem_of_lookup_2 _ _ _ Hw)).
  eapply inv_update; [done|done|done| |done| |apply Hi| |].
  - rewrite Hsw. eapply core_keys; [exact Hsub|apply Hi].
  - intros id c Hin. rewrite Hsw in Hin. eapply excused_le; [done|]. by eapply (qi_swept _ Hi).
  - split; cbn [wk_consumer wk_st wk_know wk_prog]; [done| |rewrite Hov; apply Hwok|done].
    split; [|done]. destruct Hm as [?|?]; [left; by apply Hg|by right].
  - intros v Hv _. eapply wok_mono; [exact Hsub|done|done|by left|by apply Hi].
Qed.

Lemma set_result_post (s : Sys (R := R)) key record g c st :
  mine_ok (view (s_redis s)) (s_results s).*1 g c st →
  mine_ok (view (s_redis s)) (s_results s ++ [(key, record)]).*1 g c (post st (SetResult key record) (Ok tt)).
Proof.
  intros [Hm Hst]. rewrite fmap_app. cbn. destruct st as [|id p w|id|]; cbn in *; [by split| |by split|by split].
  split; [done|]. cbn. destruct Hst as [? Ha]. split; [done|]. intros [Hw|Hk]%orb_prop.
  - destruct (Ha Hw) as (key' & ? & ?). exists key'. split; [done|]. rewrite elem_of_app. by left.
  - exists key. split; [by apply bool_decide_eq_true in Hk|]. rewrite elem_of_app, list_elem_of_singleton. by right.
Qed.

Lemma mine_ok_keys S keys keys' g c st : keys ⊆ keys' → mine_ok S keys g c st → mine_ok S keys' g c st.
Proof. intros Hk [??]. split; [done|by eapply st_ok_keys]. Qed.

(** A consumer with nothing pending has no rows. *)
Lemma gone_no_rows S i : ci_pending i = pending_of (ci_name i) S → gone i = true → no_rows S (ci_name i).
Proof.
  intros Hp Hg r Hr Hc. unfold gone in Hg. to_prop. unfold pending_of in Hp.
  assert (Hin : r ∈ filter (fun r => row_consumer r = ci_name i) (pel S)) by (by apply list_elem_of_filter).
  destruct (filter (fun r => row_consumer r = ci_name i) (pel S)); [by apply elem_of_nil in Hin|]. cbn in Hp. lia.
Qed.

Lemma listing_gone (s : Sys (R := R)) l n :
  (∀ i, i ∈ l → ci_name i ∈ s_names s ∧ ci_pending i = pending_of (ci_name i) (view (s_redis s))) →
  n ∈ ci_name <$> filter (fun i => gone i = true) l →
  gone_ok (view (s_redis s)) (s_gaps (note_listing l s)) (s_names s) (live s) n.
Proof.
  intros Hl Hn. assert (Hn' := Hn). apply list_elem_of_fmap in Hn' as (i & -> & [Hg Hin]%list_elem_of_filter).
  destruct (Hl i Hin) as [Hnames Hp]. split; [done|]. destruct (decide (ci_name i ∈ live s)) as [Hlive|Hnl].
  - left; left. cbn. rewrite elem_of_app. left. by apply list_elem_of_filter.
  - right. split; [done|]. by apply gone_no_rows.
Qed.

Lemma inv_call (s : Sys (R := R)) i w c k r s' :
  queue_inv s → s_workers s !! i = Some w → wk_prog w = Call c k → perform c s r s' →
  queue_inv (set_workers
    (<[i := mkWorker (wk_consumer w) (post (wk_st w) c r) (learn (wk_know w) c r) (k r)]> (s_workers s)) s').
Proof.
  intros Hi Hw Hp Hperf. assert (Hwok := qi_workers _ Hi w (list_elem_of_lookup_2 _ _ _ Hw)).
  pose proof (wo_ok _ _ _ _ _ _ Hwok) as Hok. rewrite Hp in Hok. destruct Hok as [Hpre Hk]. specialize (Hk r).
  pose proof (wo_mine _ _ _ _ _ _ Hwok) as Hmine. assert (Hg : gaps_le (s_gaps s) (s_gaps s)) by done.
  assert (Happ : ∀ x, (s_results s).*1 ⊆ (s_results s ++ [x]).*1).
  { intros x. rewrite fmap_app. intros y Hy. rewrite elem_of_app. by left. }
  destruct c as [cmd| |key record|env|]; [by eapply inv_redis| | | |].
  - destruct r as [l|e]; [destruct Hperf as [Hl ->]|rewrite Hperf; by apply inv_quiet; [..|apply Hwok]].
    unfold set_workers, note_listing. cbn [s_clock s_redis s_results s_dead s_names s_gaps]. apply inv_quiet; [done|done|done| |done|done|done|done|].
    + split; [|done]. cbn. intros x ?. rewrite elem_of_app. by right.
    + intros n. by apply listing_gone.
  - unfold set_workers. destruct r as [[]|e]; [rewrite Hperf|destruct Hperf as [->| ->]];
      cbn [run_set s_clock s_redis s_results s_dead s_names s_gaps].
    + apply inv_quiet; [done|done|apply Happ|done|done|done|by apply set_result_post|done|apply Hwok].
    + apply inv_quiet; [done|done|apply Happ|done|done|done| |done|apply Hwok].
      destruct (wk_st w); by (eapply mine_ok_keys; [apply Happ|]).
    + apply inv_quiet; [done|done|done|done|done|done| |done|apply Hwok]. by destruct (wk_st w).
  - rewrite Hperf. by apply inv_quiet; [..|apply Hwok].
  - destruct Hperf as [-> _]. by apply inv_quiet; [..|apply Hwok].
Qed.

(** A command no process's program issued: the enqueuer's, or a heartbeat. *)
Lemma inv_outside (s : Sys (R := R)) cmd :
  queue_inv s → cmd_safe (view (s_redis s)) (s_results s).*1 cmd → swept cmd (view (s_redis s)) = [] →
  (∀ c, actor cmd = Some c → c ∈ live s) →
  (∀ v, v ∈ s_workers s → mine_ok (stream_do (s_clock s) cmd (view (s_redis s))).2 (s_results s).*1 (s_gaps s)
     (wk_consumer v) (wk_st v)) →
  queue_inv (run_redis cmd s).
Proof.
  intros Hi Hsafe Hsw Hlive Hm.
  split; cbn [run_redis s_redis s_results s_dead s_workers s_names s_gaps]; rewrite ?redis_effect;
    [by apply core_run|apply Hi|apply Hi| | |].
  - intros r. by apply owners_do.
  - cbn. rewrite Hsw. apply Hi.
  - intros v Hv. pose proof (qi_workers _ Hi v Hv) as Hvw.
    split; [apply Hvw|by apply Hm|intros; by apply over_do, Hvw|]. intros n Hn. by apply gone_ok_do, Hvw.
Qed.

Lemma inv_enqueue (s : Sys (R := R)) p : queue_inv s → queue_inv (run_redis (XAdd p) s).
Proof.
  intros Hi. apply inv_outside; [done|done|done|done|]. intros v Hv.
  apply (wok_frame _ (XAdd p) _ _ _ _ _ _ (qi_workers _ Hi v Hv)); [by left|done].
Qed.

Lemma inv_touch (s : Sys (R := R)) i w id p wr :
  queue_inv s → s_workers s !! i = Some w → wk_st w = Holding id p wr →
  queue_inv (run_redis (touch id (wk_consumer w)) s).
Proof.
  intros Hi Hw Hst. assert (Hin : w ∈ s_workers s) by (by eapply list_elem_of_lookup_2).
  assert (Hlive : wk_consumer w ∈ live s) by (apply list_elem_of_fmap; eauto).
  apply inv_outside; [done|done|done|by intros c [= <-]|].
  intros v [j Hv]%list_elem_of_lookup_1. pose proof (qi_workers _ Hi v (list_elem_of_lookup_2 _ _ _ Hv)) as Hvw.
  destruct (decide (i = j)) as [<-|Hne].
  - rewrite Hw in Hv. injection Hv as <-. destruct (wo_mine _ _ _ _ _ _ Hvw) as [Hm Hs].
    split; [|by apply st_ok_do]. destruct Hm as [?|Hm]; [by left|right]. rewrite Hst in *. cbn.
    intros r' [[Hr' _]|(r0 & _ & _ & ->)]%claim_row_elem Hc; [by apply Hm|done].
  - apply (wok_frame _ (touch id (wk_consumer w)) _ _ _ _ _ _ Hvw); [|by intros c [= <-]].
    destruct (decide (wk_consumer w = wk_consumer v)) as [Heq|Hc]; [right|left; by intros [= ?]].
    by apply (qi_same _ Hi i j w v).
Qed.

Lemma inv_spawn (s : Sys (R := R)) c n : queue_inv s → queue_inv (spawn n c s).
Proof.
  intros Hi. set (g' := s_gaps (spawn n c s)).
  assert (Hg : gaps_le (s_gaps s) g').
  { split; [done|]. cbn. case_bool_decide; [intros x; by right|done]. }
  assert (Hre : c ∈ s_names s → c ∈ g_reused g') by (intros ?; cbn; rewrite bool_decide_eq_true_2 by done; by left).
  assert (Hsub : s_names s ⊆ c :: s_names s) by (intros x; by right).
  assert (Hlast : ∀ j v, s_workers (spawn n c s) !! j = Some v →
    s_workers s !! j = Some v ∨ wk_consumer v = c ∧ j = length (s_workers s)).
  { cbn. intros j v [?|[? Hj]]%lookup_app_Some; [by left|right].
    destruct (j - _)%nat eqn:E; [|done]. injection Hj as <-. split; [done|lia]. }
  assert (Hold : ∀ j v, s_workers s !! j = Some v → wk_consumer v ∈ s_names s).
  { intros j v Hv. apply (qi_names _ Hi), list_elem_of_fmap. exists v. split; [done|]. by eapply list_elem_of_lookup_2. }
  split; fold g'; unfold live; cbn [spawn s_redis s_results s_dead s_workers s_names]; rewrite ?fmap_app; cbn [fmap list_fmap].
  - apply Hi.
  - intros i j v w [Hv|[Hv ->]]%Hlast [Hw|[Hw ->]]%Hlast Hne Heq; [| | |done].
    + apply Hg. by eapply (qi_same _ Hi i j).
    + rewrite Hw. apply Hre. rewrite <-Hw, <-Heq. by eapply Hold.
    + rewrite <-Heq, Hv. apply Hre. rewrite <-Hv, Heq. by eapply Hold.
  - intros x [Hx| ->%list_elem_of_singleton]%elem_of_app; [right; by apply (qi_names _ Hi)|left].
  - intros r Hr. by apply Hsub, (qi_owners _ Hi).
  - intros id m Hin. eapply excused_le; [exact Hg|]. by eapply (qi_swept _ Hi).
  - intros w [Hw| ->%list_elem_of_singleton]%elem_of_app.
    + eapply wok_mono; [done|exact Hg|exact Hsub| |by apply Hi].
      intros m Hm Hl. destruct (decide (m = c)) as [->|Hne]; [right; right; auto|left].
      by intros [Hx|Hx%list_elem_of_singleton]%elem_of_app.
    + split; cbn; [apply ok_main| |by intros ? []%elem_of_nil|by intros ? []%elem_of_nil]. split; [|done].
      destruct (decide (c ∈ s_names s)) as [Hc|Hc]; [left; by apply Hre|right]. intros r Hr Hrc. apply Hc.
      rewrite <-Hrc. by apply (qi_owners _ Hi).
Qed.

Lemma inv_die (s : Sys (R := R)) i : queue_inv s → queue_inv (set_workers (delete i (s_workers s)) s).
Proof.
  intros Hi.
  assert (Hsub : live (set_workers (delete i (s_workers s)) s) `sublist_of` live s)
    by (apply fmap_sublist, sublist_delete).
  assert (Hdel : ∀ j, ∃ j', delete i (s_workers s) !! j = s_workers s !! j' ∧ (j' = if decide (j < i)%nat then j else S j)).
  { intros j. eexists. split; [|done]. case_decide; [by apply list_lookup_delete_lt|apply list_lookup_delete_ge; lia]. }
  split; cbn.
  - apply Hi.
  - intros j k v w Hv Hw Hne. destruct (Hdel j) as (j' & Hj & ->), (Hdel k) as (k' & Hk & ->).
    rewrite Hj in Hv. rewrite Hk in Hw. apply (qi_same _ Hi _ _ v w Hv Hw). repeat case_decide; lia.
  - intros x Hx. apply (qi_names _ Hi). by eapply elem_of_sublist.
  - apply Hi.
  - apply Hi.
  - intros w Hw. eapply wok_mono; [done|done|done| |].
    + intros n Hn Hl. left. intros Hx. apply Hl. by eapply elem_of_sublist.
    + apply (qi_workers _ Hi). eapply elem_of_sublist; [exact Hw|apply sublist_delete].
Qed.

Lemma queue_step_inv (s s' : Sys (R := R)) : queue_inv s → queue_step s s' → queue_inv s'.
Proof.
  intros Hi Hstep. destruct Hstep as [s t Ht|s p|s c n|s s' i w c k r Hw Hp Hperf|s i w id p wr Hw Hst|s i].
  - destruct Hi. by split.
  - by apply inv_enqueue.
  - by apply inv_spawn.
  - by eapply inv_call.
  - by eapply inv_touch.
  - by apply inv_die.
Qed.

Lemma queue_inv_reachable (r : R) s :
  view r = mkStream [] 0 [] → rtc queue_step (start_sys r) s → queue_inv s.
Proof.
  intros Hr Hs. eapply (rtc_ind_r queue_inv (start_sys r)); [|intros y z _ Hstep Hy; by eapply queue_step_inv|exact Hs].
  split; unfold live; cbn; rewrite ?Hr; cbn; try (by intros ? []%elem_of_nil); try (by intros ?? []%elem_of_nil); try done.
  split; cbn; [constructor|by intros ? []%elem_of_nil|apply NoDup_nil_2|by intros ? ? []%elem_of_nil].
Qed.
End Invariant.

(** ** Properties *)

(** C1. No accepted work is lost, but for one gap that is stated: whatever processes start,
    run interleaved, lose a Redis answer or die, every entry ever put in the queue is still
    undelivered, or pending (so that it can be reclaimed), or has a result written under its
    session id, or was dropped after more than [MAX_ATTEMPTS] deliveries; or else it was pending
    for a consumer that another process deleted from the group, and that consumer was either
    listed as idle with nothing pending while its process was still running (the race of
    [gcIdleConsumers]) or had been started twice under one name.  So nothing is lost as
    long as no listing shows a running process as gone and every process has a name of its own. *)
Theorem no_work_lost `{RedisStream R} (r : R) (s : Sys) :
  view r = mkStream [] 0 [] → rtc queue_step (start_sys r) s →
  ∀ id p, (id, p) ∈ entries (view (s_redis s)) →
    accounted s id p
    ∨ ∃ c, (id, c) ∈ g_swept (s_gaps s) ∧ (c ∈ g_listed (s_gaps s) ∨ c ∈ g_reused (s_gaps s)).
Proof.
  intros Hr Hs id p He. pose proof (queue_inv_reachable r s Hr Hs) as Hi.
  destruct (co_acc _ _ _ (qi_core _ Hi) id p He) as [?|[?|[?|[?|Hsw]%elem_of_app]]];
    [by left; left|by left; right; left|by left; do 2 right; left|by left; do 3 right|right].
  apply list_elem_of_fmap in Hsw as ([id' c] & -> & Hin). exists c. split; [done|]. by eapply (qi_swept _ Hi).
Qed.

Definition ex_job : LeafEnvelope :=
  mkEnvelope "run/7" None JNull None None None None None (Some "prompt") None (Some "hello") None.

Lemma no_work_lost_witness :
  let s := mkSys 0 (mkStream [(1%nat, Envelope ex_job)] 0 []) [] []
             [mkWorker "pod-a" Idle (mkKnow [] []) (main 3 "pod-a")] ["pod-a"] (mkGaps [] [] []) in
  rtc queue_step (start_sys (mkStream [] 0 [])) s ∧ accounted s 1 (Envelope ex_job).
Proof.
  intros s.
  assert (Hs : rtc queue_step (start_sys (mkStream [] 0 [])) s).
  { set (s0 := start_sys (mkStream [] 0 [])). set (s1 := run_redis (XAdd (Envelope ex_job)) s0).
    apply rtc_l with s1; [apply qs_enqueue|]. apply rtc_once.
    assert (He : spawn 3 "pod-a" s1 = s) by reflexivity.
    rewrite <-He. apply qs_spawn. }
  split; [exact Hs|].
  destruct (@no_work_lost Stream stream_redis (mkStream [] 0 []) s eq_refl Hs 1%nat (Envelope ex_job)) as [Ha|(c & Hc & _)];
    [left|exact Ha|by apply elem_of_nil in Hc].
Defined.

(** Calls of a consumer that have a lasting effect. *)
Definition effect_free (e : event (C := qcmd) (R := qreply)) : bool :=
  match e with
  | existT (RunLeaf _) _ | existT (SetResult _ _) _ | existT (Redis (XAck _)) _ => false
  | _ => true
  end.

(** What one round did, by its outcome. *)
Definition round_did (tr : list (event (C := qcmd) (R := qreply))) (o : job_outcome) : Prop :=
  match o with
  | JIdle => forallb effect_free tr = true
  | JRetry => ∃ pre env res, forallb effect_free pre = true ∧ o_retryable (classifyOutcome res) = true
      ∧ tr = pre ++ [ev (RunLeaf env) (Ok res)]
  | JDeadletter => ∃ pre id env n ts, forallb effect_free pre = true ∧ maxAttempts < n
      ∧ tr = pre ++ [ev (Redis (XPendingCount id)) (Ok (Some n)); ev Now (Ok ts);
                     ev (SetResult (env_key env) (toResultRecord (RFailed error None) (e_sessionId env) ts)) (Ok tt);
                     ev (Redis (XAck id)) (Ok tt)]
  | JStatus st => ∃ pre id env res ts, forallb effect_free pre = true
      ∧ classifyOutcome res = mkOutcome true false ∧ st = rr_status (toResultRecord res (e_sessionId env) ts)
      ∧ tr = pre ++ [ev (RunLeaf env) (Ok res); ev Now (Ok ts);
                     ev (SetResult (env_key env) (toResultRecord res (e_sessionId env) ts)) (Ok tt);
                     ev (Redis (XAck id)) (Ok tt)]
  end.

Lemma classify_cases res :
  (o_retryable (classifyOutcome res) = true ∧ ∃ r m, res = RFailed r m) ∨ classifyOutcome res = mkOutcome true false.
Proof. destruct res as [| | | | |[] m]; cbn; eauto. Qed.

(** The rest of a round once an entry is claimed. *)
Lemma round_tail id env n pre :
  forallb effect_free pre = true →
  (maxAttempts < n → ∃ pre', forallb effect_free pre' = true ∧ pre = pre' ++ [ev (Redis (XPendingCount id)) (Ok (Some n))]) →
  wp (if maxAttempts <? n then
        await _ <- writeResult env (RFailed error None); await _ <- ack id; Ret JDeadletter
      else
        await result <- call (RunLeaf env);
        let outcome := classifyOutcome result in
        if o_retryable outcome then Ret JRetry else
        await _ <- writeResult env result;
        if o_ack outcome then
          await _ <- ack id; Ret (JStatus (rr_status (toResultRecord result "" "")))
        else Ret JRetry)
     (fun h o => ∀ a, o = Ok a → round_did h a) pre.
Proof.
  intros Hpre Hn. destruct (Z.ltb_spec maxAttempts n) as [Hlt|Hle].
  - destruct (Hn Hlt) as (pre' & Hp & ->). cbn. intros [ts|e]; cbn; [|done]. intros [[]|e]; cbn; [|done].
    intros [[]|e]; cbn; [|done]. intros a [= <-]. exists pre', id, env, n, ts.
    split_and!; [done|done|]. by rewrite <-!app_assoc.
  - cbn. intros [res|e]; cbn; [|done]. destruct (classify_cases res) as [[Hr _]|Hc].
    + rewrite Hr. cbn. intros a [= <-]. by exists pre, env, res.
    + rewrite Hc. cbn. intros [ts|e]; cbn; [|done]. intros [[]|e]; cbn; [|done].
      intros [[]|e]; cbn; [|done]. intros a [= <-]. exists pre, id, env, res, ts.
      split_and!; [done|done|by destruct res|]. by rewrite <-!app_assoc.
Qed.

Lemma wp_claim c :
  wp (claim c MIN_IDLE_MS) (fun h o => match o with
    | Ok None => forallb effect_free h = true
    | Ok (Some ce) => forallb effect_free h = true ∧ (maxAttempts < ce_deliveryCount ce →
        ∃ pre', forallb effect_free pre' = true
        ∧ h = pre' ++ [ev (Redis (XPendingCount (ce_entryId ce))) (Ok (Some (ce_deliveryCount ce)))])
    | Throw _ => True
    end) [].
Proof.
  cbn. intros [[[id p]|]|e]; cbn; [| |done].
  - destruct p as [| |env]; cbn; [done| |]; intros [[n|]|e]; cbn; try done; (split; [done|]); intros Hlt;
      (by refine (ex_intro _ [_] (conj _ eq_refl))) || (unfold maxAttempts in Hlt; lia).
  - intros [[[id p]|]|e]; cbn; [|done|done]. destruct p; cbn; [done| |]; (split; [done|]); intros Hlt;
      unfold maxAttempts in Hlt; lia.
Qed.

(** One round of a consumer: an idle round changes nothing; a leaf that failed with
    [error] or [saturated] is left pending, with no record; an entry delivered more than
    three times is not run, but recorded as failed and then acknowledged; any other outcome is
    recorded as it was answered, and acknowledged after that and only then. *)
Theorem processOne_rounds c tr o :
  runs (processOne c) tr (Ok o) → round_did tr o.
Proof.
  intros Hr. assert (Hwp : wp (processOne c) (fun h o => ∀ a, o = Ok a → round_did h a) []);
    [|by apply (wp_sound _ _ [] tr _ Hwp Hr)].
  unfold processOne. apply wp_bind. eapply wp_mono, wp_claim. intros h [[ce|]|e]; [|by intros Hh a [= <-]|done].
  intros [Hh Hn]. destruct (ce_envelope ce) as [| |env]; [done|done|]. by apply round_tail.
Qed.

Lemma processOne_rounds_witness :
  let tr := [ev (Redis (XAutoClaim "pod" MIN_IDLE_MS)) (Ok None);
             ev (Redis (XReadGroup "pod")) (Ok (Some (1%nat, Envelope ex_job)));
             ev (RunLeaf ex_job) (Ok (RResponded "hi" None)); ev Now (Ok "ts");
             ev (SetResult (env_key ex_job) (toResultRecord (RResponded "hi" None) "run/7" "ts")) (Ok tt);
             ev (Redis (XAck 1)) (Ok tt)] in
  round_did tr (JStatus SResponded).
Proof.
  intros tr. apply (processOne_rounds "pod" tr (JStatus SResponded)). do 6 apply runs_call. apply runs_ret.
Defined.

(** *** A leaf that keeps finding the pool saturated *)

(** A round alone on the stream, at time [now], with [leaf] for [runLeaf]: its outcome
    (if it does not throw), the stream, and what was written. *)
Fixpoint round_alone {A} (leaf : LeafEnvelope → LeafResult) (now : Z) (p : qprog A)
    (s : Stream) (out : list (bytes * LeafResultRecord)) : option A * Stream * list (bytes * LeafResultRecord) :=
  match p with
  | Ret a => (Some a, s, out)
  | Err _ => (None, s, out)
  | Call c k =>
      match c as c0 return (qreply c0 → qprog A) → _ with
      | Redis c => fun k => round_alone leaf now (k (Ok (stream_do now c s).1)) (stream_do now c s).2 out
      | InfoConsumers => fun k => round_alone leaf now (k (Ok [])) s out
      | SetResult key record => fun k => round_alone leaf now (k (Ok tt)) s (out ++ [(key, record)])
      | RunLeaf env => fun k => round_alone leaf now (k (Ok (leaf env))) s out
      | Now => fun k => round_alone leaf now (k (Ok "ts")) s out
      end k
  end.

Definition saturated_pool (_ : LeafEnvelope) : LeafResult := RFailed saturated None.

Definition rounds_alone (times : list Z) (s : Stream) : list (option job_outcome) * Stream * list (bytes * LeafResultRecord) :=
  foldl (fun '(os, s, out) now =>
    let '(o, s', out') := round_alone saturated_pool now (processOne "pod") s out in (os ++ [o], s', out'))
    ([], s, []) times.

(** Saturation is transient, and a saturated leaf is left pending; but the attempts count, so
    after three of them the entry is recorded as failed with reason [error] and dropped, however
    busy the pool was. *)
Lemma saturated_is_dead_lettered :
  rounds_alone [0; 90000; 180000; 270000] (mkStream [(1%nat, Envelope ex_job)] 0 [])
  = ([Some JRetry; Some JRetry; Some JRetry; Some JDeadletter],
     mkStream [(1%nat, Envelope ex_job)] 1 [],
     [(env_key ex_job, toResultRecord (RFailed error None) "run/7" "ts")]).
Proof. reflexivity. Qed.

(** *** A crashed leaf behind ten running ones *)

(** XAUTOCLAIM always starts at the oldest pending entry and looks at ten: entry 11, whose
    consumer died long ago, is not found while the ten before it are being renewed. *)
Definition busy_stream : Stream :=
  mkStream ((fun i => (i, Envelope ex_job)) <$> seq 1 11) 11
    (((fun i => mkRow i "busy" 1000000 1) <$> seq 1 10) ++ [mkRow 11 "dead" 0 1]).

Lemma eleventh_is_not_reclaimed :
  (round_alone saturated_pool 1000000 (claim "pod" MIN_IDLE_MS) busy_stream []).1 = (Some None, busy_stream)
  ∧ stale 1000000 MIN_IDLE_MS (mkRow 11 "dead" 0 1) = true.
Proof. split; reflexivity. Qed.

(** *** The startup reaper *)

(** The reaper acknowledges before the record is written: a process that dies between the
    two leaves an entry that is neither pending nor answered. *)
Lemma reaper_can_lose_the_record :
  let s r ws := mkSys 1000000 (mkStream [(1%nat, Envelope ex_job)] 1 r) [] [] ws ["pod"] (mkGaps [] [] []) in
  ∃ ws, queue_step (R := Stream)
      (set_workers [mkWorker "pod" Idle (mkKnow [] []) (main 3 "pod")] (s [mkRow 1 "old" 0 4] [])) ws
  ∧ ∃ s', rtc queue_step ws s'
  ∧ pel (s_redis s') = [] ∧ s_results s' = [] ∧ s_workers s' = [] ∧ lastDelivered (s_redis s') = 1%nat.
Proof.
  intros s. eexists. split.
  { eapply (qs_call _ _ 0); [reflexivity|reflexivity|]. left. split; reflexivity. }
  eexists. split.
  { eapply rtc_l; [eapply (qs_call _ _ 0); [reflexivity|reflexivity|left; split; reflexivity]|].
    eapply rtc_l; [eapply (qs_call _ _ 0); [reflexivity|reflexivity|left; split; reflexivity]|].
    eapply rtc_l; [apply (qs_die _ 0)|apply rtc_refl]. }
  split_and!; reflexivity.
Qed.

(** *** Deleting a consumer drops what is pending for it *)

(** The next call of process [i] is answered; [l] is what a listing of the consumers says. *)
Definition answer_next (l : list ConsumerInfo) (i : nat) (s : Sys (R := Stream)) : Sys :=
  match s_workers s !! i with
  | Some w =>
      match wk_prog w with
      | Call c k =>
          let next r s' := set_workers
            (<[i := mkWorker (wk_consumer w) (post (wk_st w) c r) (learn (wk_know w) c r) (k r)]> (s_workers s)) s' in
          match c as c0 return (qreply c0 → Sys → Sys) → Sys with
          | Redis c => fun next => next (Ok (stream_do (s_clock s) c (s_redis s)).1) (run_redis c s)
          | InfoConsumers => fun next => next (Ok l) (note_listing l s)
          | _ => fun _ => s
          end next
      | _ => s
      end
  | None => s
  end.

Definition answers (ps : list nat) (s : Sys) : Sys := foldl (fun s i => answer_next [] i s) s ps.

Lemma answer_next_steps l i (s : Sys) :
  (∀ x, x ∈ l → ci_name x ∈ s_names s ∧ ci_pending x = pending_of (ci_name x) (s_redis s)) →
  rtc queue_step s (answer_next l i s).
Proof.
  intros Hl. unfold answer_next. destruct (s_workers s !! i) as [w|] eqn:Hw; [|done].
  destruct (wk_prog w) as [| |c k] eqn:Hp; [done|done|].
  destruct c as [c| | | |]; [| |done..]; apply rtc_once; eapply qs_call; [exact Hw|exact Hp| |exact Hw|exact Hp|].
  - by left.
  - by split.
Qed.

Lemma answers_steps ps (s : Sys) : rtc queue_step s (answers ps s).
Proof.
  revert s. induction ps as [|i ps IH]; intros s; [done|]. cbn.
  etrans; [|apply IH]. apply answer_next_steps. by intros ? []%elem_of_nil.
Qed.

(** A process [a] has looked for stale entries and found none; five minutes later a process [b]
    is about to list the consumers. *)
Definition race_listing : Sys :=
  let s1 := answers [0; 0; 0]%nat (spawn 1 "a" (start_sys (mkStream [] 0 []))) in
  let s2 := mkSys 300000 (s_redis s1) (s_results s1) (s_dead s1) (s_workers s1) (s_names s1) (s_gaps s1) in
  answers [1]%nat (spawn 1 "b" s2).

(** The listing; then an entry arrives, [a] reads it, [b] deletes [a]'s consumer, [a] dies. *)
Definition race_done : Sys :=
  let s := run_redis (XAdd (Envelope ex_job)) (answer_next [mkInfo "a" 0 300000] 1 race_listing) in
  let s := answers [0; 1]%nat s in
  set_workers (delete 0%nat (s_workers s)) s.

Lemma lost_job (s : Sys (R := Stream)) :
  s_redis s = mkStream [(1%nat, Envelope ex_job)] 1 [] → s_results s = [] → s_dead s = [] →
  ¬ accounted s 1 (Envelope ex_job).
Proof.
  intros Hr Hres Hd [Hl|[Hl|[(key & _ & Hl)|Hl]]]; cbn in Hl; rewrite ?Hr, ?Hres, ?Hd in Hl; cbn in Hl;
    [lia|by apply elem_of_nil in Hl..].
Qed.

(** [gcIdleConsumers] lists first and deletes later.  A process that did nothing for five
    minutes (paused before its read) is listed idle with nothing pending; it then reads the
    entry, and the deletion that follows takes the entry's pending row with it: when that
    process dies no one will ever see the entry again. *)
Lemma gc_race_loses_work :
  rtc queue_step (start_sys (mkStream [] 0 [])) race_done
  ∧ s_redis race_done = mkStream [(1%nat, Envelope ex_job)] 1 []
  ∧ ¬ accounted race_done 1 (Envelope ex_job)
  ∧ g_listed (s_gaps race_done) = ["a"] ∧ g_reused (s_gaps race_done) = [].
Proof.
  split_and!; [|vm_compute; reflexivity|apply lost_job; vm_compute; reflexivity|vm_compute; reflexivity..].
  trans race_listing.
  - eapply rtc_l; [apply (qs_spawn _ "a" 1)|]. etrans; [apply (answers_steps [0; 0; 0]%nat)|].
    eapply rtc_l; [apply (qs_time _ 300000)|]; [by vm_compute|].
    eapply rtc_l; [apply (qs_spawn _ "b" 1)|]. apply answers_steps.
  - etrans; [apply (answer_next_steps [mkInfo "a" 0 300000] 1)|].
    { intros x ->%list_elem_of_singleton. split; [|vm_compute; reflexivity].
      apply (bool_decide_eq_true_1 ("a" ∈ s_names race_listing)). vm_compute. reflexivity. }
    eapply rtc_l; [apply (qs_enqueue _ (Envelope ex_job))|].
    etrans; [apply (answers_steps [0; 1]%nat)|]. eapply rtc_once, (qs_die _ 0).
Qed.

(** A process starts, reads the entry and dies; another one of the same name starts, finds
    nothing to claim yet and deletes its consumer. *)
Definition reuse_done : Sys :=
  let s1 := run_redis (XAdd (Envelope ex_job)) (start_sys (mkStream [] 0 [])) in
  let s2 := answers [0; 0; 0; 0]%nat (spawn 1 "leaf-job-1" s1) in
  answers [0; 0; 0; 0; 0]%nat (spawn 1 "leaf-job-1" (set_workers (delete 0%nat (s_workers s2)) s2)).

(** A process that finds the queue idle deletes its own consumer.  When the name is not its
    own (without HOSTNAME it is [leaf-job-<pid>]), that drops the entry an earlier process of
    the name died with before it could be reclaimed. *)
Lemma reused_name_loses_work :
  rtc queue_step (start_sys (mkStream [] 0 [])) reuse_done
  ∧ s_redis reuse_done = mkStream [(1%nat, Envelope ex_job)] 1 []
  ∧ ¬ accounted reuse_done 1 (Envelope ex_job)
  ∧ g_listed (s_gaps reuse_done) = [] ∧ g_reused (s_gaps reuse_done) = ["leaf-job-1"].
Proof.
  split_and!; [|vm_compute; reflexivity|apply lost_job; vm_compute; reflexivity|vm_compute; reflexivity..].
  eapply rtc_l; [apply (qs_enqueue _ (Envelope ex_job))|].
  eapply rtc_l; [apply (qs_spawn _ "leaf-job-1" 1)|]. etrans; [apply (answers_steps [0; 0; 0; 0]%nat)|].
  eapply rtc_l; [apply (qs_die _ 0)|]. eapply rtc_l; [apply (qs_spawn _ "leaf-job-1" 1)|]. apply answers_steps.
Qed.
