(* ===== verification/CpBase.v ===== *)
(** * The control plane's errors and its Redis

    Models [packages/control-plane/src/errors.ts], and states what the ownership index
    relies on of Redis: the documented effect of each command it issues on the key space
    ([key_do]).  The class [CpRedis] is any server with that effect; a command that fails may
    or may not have taken effect before the reply was lost ([answers]). *)

From Stdlib Require Import QArith.
From S2P Require Import Prelude JsNumber Prog Json.

Local Open Scope Z_scope.

(** ** Errors *)

Inductive CpErrorCode :=
| invalid_json | invalid_request | token_required | token_invalid | token_expired
| subject_conflict | unauthorized | forbidden | session_not_found | session_mismatch
| credential_required | credential_ambiguous | credential_not_found | credential_unavailable
| endpoint_unresolved | authorization_pending | identity_provider_misconfigured
| redis_unavailable | internal_error.

#[export] Instance CpErrorCode_eq_dec : EqDecision CpErrorCode.
Proof. solve_decision. Defined.

Definition CP_ERROR_CODES : list CpErrorCode :=
  [invalid_json; invalid_request; token_required; token_invalid; token_expired;
   subject_conflict; unauthorized; forbidden; session_not_found; session_mismatch;
   credential_required; credential_ambiguous; credential_not_found; credential_unavailable;
   endpoint_unresolved; authorization_pending; identity_provider_misconfigured;
   redis_unavailable; internal_error].

Definition code_name (c : CpErrorCode) : string :=
  match c with
  | invalid_json => "invalid_json" | invalid_request => "invalid_request"
  | token_required => "token_required" | token_invalid => "token_invalid"
  | token_expired => "token_expired" | subject_conflict => "subject_conflict"
  | unauthorized => "unauthorized" | forbidden => "forbidden"
  | session_not_found => "session_not_found" | session_mismatch => "session_mismatch"
  | credential_required => "credential_required" | credential_ambiguous => "credential_ambiguous"
  | credential_not_found => "credential_not_found"
  | credential_unavailable => "credential_unavailable"
  | endpoint_unresolved => "endpoint_unresolved"
  | authorization_pending => "authorization_pending"
  | identity_provider_misconfigured => "identity_provider_misconfigured"
  | redis_unavailable => "redis_unavailable" | internal_error => "internal_error"
  end.

Definition statusFor (c : CpErrorCode) : Z :=
  match c with
  | invalid_json | invalid_request => 400
  | token_required | token_invalid | token_expired => 401
  | subject_conflict => 400
  | unauthorized => 401
  | forbidden => 403
  | session_not_found => 404
  | session_mismatch | credential_required | credential_ambiguous => 400
  | credential_not_found => 404
  | credential_unavailable => 503
  | endpoint_unresolved => 400
  | authorization_pending => 428
  | identity_provider_misconfigured => 502
  | redis_unavailable => 503
  | internal_error => 500
  end.

Record CpError := mkCpError {
  code : CpErrorCode;
  message : string;
  err_sessionId : option string;
}.

(** [new CpError(code, message, sessionId)] *)
Definition cpError (c : CpErrorCode) (msg : option string) (sid : option string) : CpError :=
  mkCpError c (default (code_name c) msg) sid.

(** What code of the control plane throws: a typed error, or anything else. *)
Inductive thrown :=
| Cp (e : CpError)
| Other.

Abbreviation fail c msg := (Cp (cpError c (Some msg) None)).

(** [writeError]: the status and the body's fields, in order. *)
Definition writeError (err : thrown) : Z * list (string * string) :=
  match err with
  | Cp e =>
      (statusFor (code e),
       [("error", code_name (code e))]
       ++ (if bool_decide (message e = "") || bool_decide (message e = code_name (code e)) then []
           else [("message", message e)])
       ++ match err_sessionId e with
          | Some sid => if bool_decide (sid = "") then [] else [("sessionId", sid)]
          | None => []
          end)
  | Other => (500, [("error", "internal_error")])
  end.

(** ** Redis *)

(** The upper end of a range by score: [+inf], or below a score ([ (score ]). *)
Inductive zmax := PlusInf | Below (q : Q).

Inductive rcmd :=
| HSet (k : string) (fields : list (string * string))
| HGetAll (k : string)
| ZAdd (k : string) (score : jsnum Q) (m : string)
| ZRem (k m : string)
| ZRange (k : string) (max : zmax) (count : Z)   (* BY SCORE, REV, from the top, to -inf *)
| ZScore (k : string) (m : option string)        (* [None] is [undefined] *)
| Del (ks : list string)
| XAdd (k : string) (fields : list (string * string)).

Definition rvalue_of (c : rcmd) : Type :=
  match c with
  | HGetAll _ => gmap string string
  | ZRange _ _ _ => list string
  | ZScore _ _ => option Q
  | _ => unit
  end.

(** A command is answered, or rejected. *)
Definition ranswer (c : rcmd) : Type := result unit (rvalue_of c).

Inductive rvalue :=
| RHash (h : gmap string string)
| RZSet (z : gmap string Q)
| RStream (entries : list (list (string * string)))
| RString (s : string).

Abbreviation keyspace := (gmap string rvalue).

(** Rank in a sorted set, from the highest: by score, then by member. *)
Definition zbefore (a b : string * Q) : Prop :=
  (b.2 < a.2)%Q ∨ (b.2 == a.2)%Q ∧ String.le b.1 a.1.

#[export] Instance zbefore_dec a b : Decision (zbefore a b).
Proof.
  destruct (Qlt_le_dec b.2 a.2) as [Hlt|Hle]; [by left; left|].
  destruct (Qeq_dec b.2 a.2) as [Heq|Hne].
  - destruct (decide (String.le b.1 a.1)); [by left; right|].
    right. intros [H|[_ H]]; [by apply (Qle_not_lt _ _ Hle)|done].
  - right. intros [H|[H _]]; [by apply (Qle_not_lt _ _ Hle)|done].
Defined.

Definition zrev (z : gmap string Q) : list (string * Q) := merge_sort zbefore (map_to_list z).

Definition zbelow (max : zmax) (x : string * Q) : bool :=
  match max with PlusInf => true | Below q => negb (Qle_bool q x.2) end.

Definition hash_of (v : option rvalue) : option (gmap string string) :=
  match v with None => Some ∅ | Some (RHash h) => Some h | _ => None end.

Definition zset_of (v : option rvalue) : option (gmap string Q) :=
  match v with None => Some ∅ | Some (RZSet z) => Some z | _ => None end.

Definition stream_of (v : option rvalue) : option (list (list (string * string))) :=
  match v with None => Some [] | Some (RStream l) => Some l | _ => None end.

(** A command on a key of another type is an error, and so are [HSET] without fields, a
    score that is not finite (the code computes none) and an undefined argument. *)
Definition key_do (c : rcmd) (K : keyspace) : ranswer c * keyspace :=
  match c as c return ranswer c * keyspace with
  | HSet k fs =>
      match hash_of (K !! k), fs with
      | Some h, _ :: _ => (Ok tt, <[k := RHash (list_to_map fs ∪ h)]> K)
      | _, _ => (Throw tt, K)
      end
  | HGetAll k => match hash_of (K !! k) with Some h => (Ok h, K) | None => (Throw tt, K) end
  | ZAdd k score m =>
      match zset_of (K !! k), score with
      | Some z, Fin q => (Ok tt, <[k := RZSet (<[m := q]> z)]> K)
      | _, _ => (Throw tt, K)
      end
  | ZRem k m =>
      match zset_of (K !! k) with
      | Some z => let z' := delete m z in
                  (Ok tt, if decide (z' = ∅) then delete k K else <[k := RZSet z']> K)
      | None => (Throw tt, K)
      end
  | ZRange k max count =>
      match zset_of (K !! k) with
      | Some z => (Ok (take (Z.to_nat count) (filter (zbelow max) (zrev z))).*1, K)
      | None => (Throw tt, K)
      end
  | ZScore k m =>
      match zset_of (K !! k), m with
      | Some z, Some m => (Ok (z !! m), K)
      | _, _ => (Throw tt, K)
      end
  | Del ks => (Ok tt, foldr delete K ks)
  | XAdd k fs =>
      match stream_of (K !! k) with
      | Some l => (Ok tt, <[k := RStream (l ++ [fs])]> K)
      | None => (Throw tt, K)
      end
  end.

Class CpRedis (R : Type) := {
  keys : R → keyspace;
  redis : ∀ c : rcmd, R → ranswer c * R;
  redis_effect : ∀ c r, keys (redis c r).2 = (key_do c (keys r)).2;
  redis_answer : ∀ c r, (redis c r).1 = (key_do c (keys r)).1;
}.

#[export, refine] Instance key_redis : CpRedis keyspace := { keys K := K; redis := key_do }.
Proof. all: done. Defined.

(** A reply over a connection that can break: the server's, or a rejection after the
    command ran or without its having run. *)
Definition answers `{CpRedis R} (c : rcmd) (r : R) (a : ranswer c) (r' : R) : Prop :=
  redis c r = (a, r') ∨ a = Throw tt ∧ (r' = r ∨ r' = (redis c r).2).

Abbreviation rprog := (prog rcmd ranswer thrown).

Lemma prun_keys `{CpRedis R} {A} (p : rprog A) (r : R) :
  (prun redis p r).1 = (prun key_do p (keys r)).1
  ∧ keys (prun redis p r).2 = (prun key_do p (keys r)).2.
Proof.
  revert r. induction p as [a|e|c k IH]; intros r; simpl; [done..|].
  pose proof (redis_effect c r) as He. pose proof (redis_answer c r) as Ha.
  destruct (redis c r) as [a r'], (key_do c (keys r)) as [a' K']. simpl in *. subst. apply IH.
Qed.

(** What any reply leaves of the key space. *)
Lemma answers_keys `{CpRedis R} c (r : R) a r' :
  answers c r a r' → a = Throw tt ∧ keys r' = keys r ∨ keys r' = (key_do c (keys r)).2.
Proof.
  intros [Hr|(-> & [->| ->])].
  - right. by rewrite <-redis_effect, Hr.
  - by left.
  - right. by rewrite redis_effect.
Qed.

Lemma answers_ok `{CpRedis R} c (r : R) v r' :
  answers c r (Ok v) r' → key_do c (keys r) = (Ok v, keys r').
Proof.
  intros [Hr|[[=] _]]. rewrite (surjective_pairing (key_do c (keys r))).
  by rewrite <-redis_effect, <-redis_answer, Hr.
Qed.

(** ** Sorted sets *)

#[export] Instance zbefore_total : Total zbefore.
Proof.
  intros [m q] [m' q']. unfold zbefore. simpl.
  destruct (Q_dec q q') as [[?|?]|E]; [by right; left|by left; left|].
  destruct (total String.le m m'); [right|left]; right; split; try done; by rewrite E.
Qed.

Lemma zrev_perm z : zrev z ≡ₚ map_to_list z.
Proof. apply merge_sort_Permutation. Qed.

Lemma zrev_sorted z : StronglySorted (fun a b => (b.2 <= a.2)%Q) (zrev z).
Proof.
  assert (Transitive (fun a b : string * Q => (b.2 <= a.2)%Q)).
  { intros a b c Hab Hbc. by eapply Qle_trans. }
  apply Sorted_StronglySorted; [done|]. pose proof (Sorted_merge_sort zbefore (map_to_list z)) as Hs.
  fold (zrev z) in Hs. induction Hs as [|x l Hs IH Hd]; constructor; [done|].
  destruct Hd as [|y l [Hlt|[Heq _]]]; constructor; [by apply Qlt_le_weak|].
  rewrite Heq. apply Qle_refl.
Qed.

Lemma zrev_elem z m q : (m, q) ∈ zrev z ↔ z !! m = Some q.
Proof. rewrite zrev_perm. apply elem_of_map_to_list. Qed.

Lemma zrev_NoDup z : NoDup (zrev z).*1.
Proof. rewrite zrev_perm. apply NoDup_fst_map_to_list. Qed.
