(* ===== verification/Ownership.v ===== *)
(** * The session-ownership index

    Models [packages/control-plane/src/ownership.ts]: the index of sessions by owner, kept in
    Redis.  Each method is a tree of Redis commands ([CpBase.rcmd]); a rejected command is
    [redis_unavailable].  SHA-256 is a parameter, as a function to the hexadecimal digest
    ([subjectHash] of [subject-document.ts] is its first 16 characters). *)

From Stdlib Require Import QArith Qround.
From S2P Require Import Prelude JsNumber Prog CpBase.

Local Open Scope Z_scope.

Inductive session_state := active | deleting.

Record SessionRecord := mkSession {
  sessionId : string;
  owner : string;
  tenant : string;
  createdAt : jsnum Q;
  state : session_state;
  poolSelector : option string;
  credentialName : string;
  tombstone : bool;
}.

Definition AUDIT_STREAM : string := "sh:cp:audit".
Definition DEFAULT_PAGE_SIZE : Z := 50.
Definition MAX_PAGE_SIZE : Z := 200.

Definition sessionKey (sid : string) : string := "sh:cp:session:" +:+ sid.
Definition runtimeKey (sid : string) : string := "sh:cp:session:" +:+ sid +:+ ":runtime".

Definition dataKeys (sid : string) : list string :=
  ["session:" +:+ sid; "session:" +:+ sid +:+ ":seq"; "leaf:result:" +:+ sid].

Definition RUNTIME_FIELDS : list string :=
  ["harnessPod"; "revision"; "sandboxPod"; "sandboxSelector"; "leaseKey"; "lastTurnAt"; "turns";
   "turnStartedAt"; "turnEndedAt"].

(** [String(n)] of the numbers the index prints: integers, and what is not finite.  No
    fraction is printed: a creation time is a whole number of milliseconds. *)
Definition num_string (x : jsnum Q) : string :=
  match x with
  | Fin q => match integer_val (Fin q) with Some z => string_of (dec_signed z) | None => "" end
  | PosInf => "Infinity"
  | NegInf => "-Infinity"
  | NaN => "NaN"
  end.

(** [guard(() => this.redis.c(...))] *)
Definition guard (c : rcmd) : rprog (rvalue_of c) :=
  Call c (fun a => match a with
                   | Ok v => Ret v
                   | Throw _ => Err (fail redis_unavailable "redis is not answering")
                   end).

#[global] Arguments guard : simpl never.

Section Index.
Context (sha256 : string → string).

Definition subjectHash (subject : string) : string :=
  string_of (take 16 (bytes_of (sha256 subject))).

Definition ownerKey (subject : string) : string :=
  "sh:cp:owner:" +:+ subjectHash subject +:+ ":sessions".

Definition state_name (s : session_state) : string :=
  match s with active => "active" | deleting => "deleting" end.

Definition session_fields (rec : SessionRecord) : list (string * string) :=
  [("owner", owner rec); ("tenant", tenant rec); ("createdAt", num_string (createdAt rec));
   ("state", state_name (state rec)); ("poolSelector", default "" (poolSelector rec));
   ("credentialName", credentialName rec); ("tombstone", if tombstone rec then "1" else "0")].

Definition create (rec : SessionRecord) : rprog unit :=
  await _ <- guard (HSet (sessionKey (sessionId rec)) (session_fields rec));
  guard (ZAdd (ownerKey (owner rec)) (createdAt rec) (sessionId rec)).

(** [s ? s : null] of a field that may be absent *)
Definition nonempty (s : option string) : option string :=
  match s with Some s => if bool_decide (s = "") then None else Some s | None => None end.

Definition record_of (sid : string) (h : gmap string string) : option SessionRecord :=
  match nonempty (h !! "owner") with
  | None => None
  | Some o =>
      Some (mkSession sid o (default o (h !! "tenant"))
              (match h !! "createdAt" with Some s => Number (bytes_of s) | None => Fin 0%Q end)
              (if bool_decide (h !! "state" = Some "deleting") then deleting else active)
              (nonempty (h !! "poolSelector"))
              (default "" (h !! "credentialName"))
              (bool_decide (h !! "tombstone" = Some "1")))
  end.

Definition get (sid : string) : rprog (option SessionRecord) :=
  await h <- guard (HGetAll (sessionKey sid));
  Ret (record_of sid h).

Definition page_limit (limit : option (jsnum Q)) : Z :=
  match default (Fin (inject_Z DEFAULT_PAGE_SIZE)) limit with
  | Fin q => if negb (Qle_bool q 0) then Z.min (Qfloor q) MAX_PAGE_SIZE else DEFAULT_PAGE_SIZE
  | _ => DEFAULT_PAGE_SIZE
  end.

(** [for (const sid of ids) { const rec = await this.get(sid); if (rec) sessions.push(rec); }] *)
Fixpoint get_all (ids : list string) : rprog (list SessionRecord) :=
  match ids with
  | [] => Ret []
  | sid :: ids' =>
      await rec <- get sid;
      await rest <- get_all ids';
      Ret (match rec with Some r => r :: rest | None => rest end)
  end.

Record Page := mkPage { sessions : list SessionRecord; nextCursor : option (jsnum Q) }.

Definition listByOwner (subject : string) (limit : option (jsnum Q)) (cursor : option Q) : rprog Page :=
  let lim := page_limit limit in
  let max := match cursor with None => PlusInf | Some q => Below q end in
  await ids <- guard (ZRange (ownerKey subject) max lim);
  await recs <- get_all ids;
  if Z.of_nat (length ids) =? lim then
    await score <- guard (ZScore (ownerKey subject) (last ids));
    Ret (mkPage recs (match score with Some q => Some (Fin q) | None => createdAt <$> last recs end))
  else Ret (mkPage recs None).

Definition tombstone_fields : list (string * string) := [("tombstone", "1"); ("state", "deleting")].

Definition set_tombstone (sid : string) : rprog unit := guard (HSet (sessionKey sid) tombstone_fields).

(** The fields of the allow-list that are present, in its order. *)
Definition allowed (fields : gmap string string) : list (string * string) :=
  omap (fun f => pair f <$> fields !! f) RUNTIME_FIELDS.

Definition putRuntime (sid : string) (fields : gmap string string) : rprog unit :=
  match allowed fields with
  | [] => Ret tt
  | fs => guard (HSet (runtimeKey sid) fs)
  end.

Definition getRuntime (sid : string) : rprog (gmap string string) :=
  await h <- guard (HGetAll (runtimeKey sid));
  Ret (list_to_map (allowed h)).

(** [ts] is [Date.now()]; an empty session id or credential name is left out. *)
Definition audit (ts : Z) (subject : string) (sid credential : option string) (decision : string) : rprog unit :=
  guard (XAdd AUDIT_STREAM
    ([("ts", string_of (dec_signed ts)); ("subject", subject); ("decision", decision)]
     ++ match nonempty sid with Some s => [("sessionId", s)] | None => [] end
     ++ match nonempty credential with Some c => [("credential", c)] | None => [] end)).

Definition cascadeDelete (rec : SessionRecord) : rprog unit :=
  await _ <- set_tombstone (sessionId rec);
  await _ <- guard (Del (dataKeys (sessionId rec) ++ [runtimeKey (sessionId rec)]));
  await _ <- guard (ZRem (ownerKey (owner rec)) (sessionId rec));
  guard (Del [sessionKey (sessionId rec)]).
End Index.

#[global] Arguments get : simpl never.
#[global] Arguments set_tombstone : simpl never.

(** ** Keys *)

#[export] Instance sessionKey_inj : Inj (=) (=) sessionKey.
Proof. intros a b [=]. done. Qed.

Lemma runtimeKey_session sid : runtimeKey sid = sessionKey (sid +:+ ":runtime").
Proof. done. Qed.

Lemma app_runtime_ne sid : sid +:+ ":runtime" ≠ sid.
Proof. induction sid as [|c sid IH]; [done|]. intros [= H]. done. Qed.

Lemma runtimeKey_ne sid : runtimeKey sid ≠ sessionKey sid.
Proof. rewrite runtimeKey_session. intros H%sessionKey_inj. by apply app_runtime_ne in H. Qed.

(** ** Runs *)

Definition unavailable : thrown := fail redis_unavailable "redis is not answering".

Lemma run_guard c K :
  prun key_do (guard c) K =
  (match (key_do c K).1 with Ok v => Ok v | Throw _ => Throw unavailable end, (key_do c K).2).
Proof. unfold guard. simpl. by destruct (key_do c K) as [[v|[]] K']. Qed.

(** What [get] answers of a key space. *)
Definition record_at (K : keyspace) (sid : string) : result thrown (option SessionRecord) :=
  match hash_of (K !! sessionKey sid) with
  | Some h => Ok (record_of sid h)
  | None => Throw unavailable
  end.

Lemma run_get K sid : prun key_do (get sid) K = (record_at K sid, K).
Proof.
  unfold get, record_at. rewrite prun_bind, run_guard. simpl.
  by destruct (hash_of (K !! sessionKey sid)).
Qed.

Definition visible (K : keyspace) (sid : string) : option SessionRecord :=
  match record_at K sid with Ok r => r | Throw _ => None end.

(** The session keys of the set's members hold hashes, where they hold anything. *)
Definition typed (K : keyspace) (z : gmap string Q) : Prop :=
  map_Forall (fun sid _ => is_Some (hash_of (K !! sessionKey sid))) z.

Lemma typed_record K sid : is_Some (hash_of (K !! sessionKey sid)) → record_at K sid = Ok (visible K sid).
Proof. unfold visible, record_at. by intros [h ->]. Qed.

Lemma run_get_all K ids :
  Forall (fun sid => is_Some (hash_of (K !! sessionKey sid))) ids →
  prun key_do (get_all ids) K = (Ok (omap (visible K) ids), K).
Proof.
  induction 1 as [|sid ids HK _ IH]; [done|]. cbn [get_all].
  rewrite prun_bind, run_get, typed_record, prun_bind, IH by done. simpl.
  by destruct (visible K sid).
Qed.

(** ** Paging *)

Section Paging.
Context (sha256 : string → string).

(** A client's walk over the pages, from [cursor] on. *)
Fixpoint walk `{CpRedis R} (fuel : nat) (subject : string) (limit : option (jsnum Q)) (cursor : option Q)
    (r : R) : option (list SessionRecord) :=
  match fuel with
  | O => None
  | S fuel =>
      match (prun redis (listByOwner sha256 subject limit cursor) r).1 with
      | Ok (mkPage ss None) => Some ss
      | Ok (mkPage ss (Some (Fin q))) => app ss <$> walk fuel subject limit (Some q) r
      | _ => None
      end
  end.

(** No two sessions of the set were created in the same millisecond. *)
Definition distinct_scores (z : gmap string Q) : Prop :=
  ∀ m m' q q', z !! m = Some q → z !! m' = Some q' → (q == q')%Q → m = m'.

Abbreviation newer := (fun a b : string * Q => (b.2 < a.2)%Q).

Lemma zrev_strict z : distinct_scores z → StronglySorted newer (zrev z).
Proof.
  intros Hd. pose proof (zrev_sorted z) as Hs. pose proof (zrev_NoDup z) as Hn.
  assert (Hin : ∀ x, x ∈ zrev z → z !! x.1 = Some x.2) by (intros []; apply zrev_elem).
  induction Hs as [|x l Hs IH Hall]; constructor.
  - apply IH; [by apply NoDup_cons in Hn as [_ ?]|set_solver].
  - apply NoDup_cons in Hn as [Hni _]. rewrite Forall_forall in Hall |- *. intros y Hy.
    destruct (Qle_lt_or_eq _ _ (Hall y Hy)) as [?|Heq]; [done|]. exfalso. apply Hni.
    rewrite <-(Hd y.1 x.1 y.2 x.2); [by apply list_elem_of_fmap_2|apply Hin; set_solver..|done].
Qed.

Lemma zbelow_spec q x : zbelow (Below q) x = true ↔ (x.2 < q)%Q.
Proof.
  simpl. rewrite negb_true_iff, <-not_true_iff_false, Qle_bool_iff.
  split; [apply Qnot_le_lt|apply Qlt_not_le].
Qed.

(** What is below the last of the first [n]: the rest. *)
Lemma filter_below_rest (l : list (string * Q)) n m q :
  StronglySorted newer l → last (take n l) = Some (m, q) → filter (zbelow (Below q)) l = drop n l.
Proof.
  intros Hs Hl. apply last_Some in Hl as [l1 Hl].
  rewrite <-(take_drop n l) at 1. rewrite Hl. rewrite <-(take_drop n l), Hl in Hs.
  rewrite <-app_assoc in Hs |- *. rewrite filter_app.
  apply StronglySorted_app in Hs as (Hx & _ & Hs). simpl in *.
  apply StronglySorted_cons in Hs as [Hs _]. rewrite Forall_forall in Hs.
  rewrite filter_all_false, filter_cons_False, filter_all_true; [done| | |].
  - intros y Hy. by apply zbelow_spec, Hs.
  - intros H%Is_true_true%zbelow_spec. by apply Qlt_irrefl in H.
  - intros y Hy. apply not_true_iff_false. intros H%zbelow_spec.
    assert (q < y.2)%Q as Hq by (apply (Hx y (m, q)); set_solver).
    by apply (Qlt_irrefl q), (Qlt_trans _ _ _ Hq).
Qed.

Definition bound_of (cursor : option Q) : zmax := match cursor with None => PlusInf | Some q => Below q end.

(** One page of a set [z]: its members below the cursor, newest first, and the score of the
    last of a full page. *)
Lemma run_listByOwner K subject limit cursor z :
  typed K z → zset_of (K !! ownerKey sha256 subject) = Some z → 1 ≤ page_limit limit →
  let ids := take (Z.to_nat (page_limit limit)) (filter (zbelow (bound_of cursor)) (zrev z)) in
  prun key_do (listByOwner sha256 subject limit cursor) K =
  (Ok (mkPage (omap (visible K) ids.*1)
         (if Z.of_nat (length ids) =? page_limit limit then Fin ∘ snd <$> last ids else None)), K).
Proof.
  intros HK Hz Hlim ids. unfold listByOwner.
  assert (Hin : ∀ x, x ∈ ids → z !! x.1 = Some x.2).
  { intros [m q] (i & Hi%list_elem_of_lookup_2 & _)%elem_of_take. apply zrev_elem.
    by apply list_elem_of_filter in Hi as [_ ?]. }
  assert (HK' : Forall (fun sid => is_Some (hash_of (K !! sessionKey sid))) ids.*1).
  { apply Forall_fmap, Forall_forall. intros x Hx. by apply (HK _ x.2), Hin. }
  rewrite prun_bind, run_guard. cbn [key_do]. fold (bound_of cursor). rewrite Hz. cbn [fst snd]. fold ids.
  rewrite prun_bind, run_get_all by done. rewrite length_fmap.
  destruct (Z.eqb_spec (Z.of_nat (length ids)) (page_limit limit)) as [Hfull|]; [|done].
  rewrite prun_bind, run_guard. cbn [key_do]. rewrite Hz, fmap_last.
  destruct (last ids) as [[m q]|] eqn:El.
  - simpl. assert (z !! m = Some q) as ->; [|done]. apply (Hin (m, q)).
    apply last_Some in El as [l ->]. set_solver.
  - apply last_None in El. rewrite El in Hfull. simpl in Hfull. lia.
Qed.

Lemma walk_complete `{CpRedis R} fuel subject limit cursor (r : R) z :
  typed (keys r) z → zset_of (keys r !! ownerKey sha256 subject) = Some z → distinct_scores z →
  1 ≤ page_limit limit → (length (filter (zbelow (bound_of cursor)) (zrev z)) < fuel)%nat →
  walk fuel subject limit cursor r =
  Some (omap (visible (keys r)) (filter (zbelow (bound_of cursor)) (zrev z)).*1).
Proof.
  intros HK Hz Hd Hlim. revert cursor. induction fuel as [|fuel IH]; intros cursor Hf; [lia|].
  cbn [walk]. rewrite (proj1 (prun_keys _ _)), (run_listByOwner _ _ _ _ z) by done. simpl.
  set (L := filter _ _) in *. set (n := Z.to_nat (page_limit limit)) in *.
  destruct (Z.eqb_spec (Z.of_nat (length (take n L))) (page_limit limit)) as [Hfull|Hpart].
  - destruct (last (take n L)) as [[m q]|] eqn:El; simpl.
    2:{ apply last_None in El. rewrite El in Hfull. simpl in Hfull. lia. }
    assert (HL : StronglySorted newer L) by apply StronglySorted_filter, zrev_strict, Hd.
    assert (Hrest : filter (zbelow (bound_of (Some q))) (zrev z) = drop n L).
    { rewrite <-(filter_below_rest L n m q) by done. symmetry. apply list_filter_filter_l.
      intros x Hx%Is_true_true%zbelow_spec. apply Is_true_true.
      apply last_Some in El as [l El]. assert (Hin : (m, q) ∈ take n L) by (rewrite El; set_solver).
      apply elem_of_take in Hin as (i & Hi%list_elem_of_lookup_2 & _).
      apply list_elem_of_filter in Hi as [Hb%Is_true_true _].
      destruct cursor as [c|]; [|done]. apply zbelow_spec in Hb. apply zbelow_spec.
      by eapply Qlt_trans. }
    rewrite IH, Hrest; [|rewrite Hrest, length_drop; rewrite length_take in Hfull; lia].
    simpl. by rewrite <-omap_app, <-fmap_app, take_drop.
  - rewrite take_ge; [done|]. rewrite length_take in Hpart. lia.
Qed.
End Paging.

(** ** What operations change *)

Lemma foldr_delete_lookup (K : keyspace) ks k :
  foldr delete K ks !! k = if decide (k ∈ ks) then None else K !! k.
Proof.
  induction ks as [|k' ks IH]; simpl; [done|].
  destruct (decide (k = k')) as [->|Hne].
  - by rewrite lookup_delete_eq, decide_True by set_solver.
  - rewrite lookup_delete_ne, IH by done. apply decide_ext. set_solver.
Qed.

Section Effects.
Context (sha256 : string → string).

Lemma record_at_insert K k v sid : k ≠ sessionKey sid → record_at (<[k := v]> K) sid = record_at K sid.
Proof. intros Hk. unfold record_at. by rewrite lookup_insert_ne. Qed.

(** The fields [get] reads. *)
Definition session_field_names : list string :=
  ["owner"; "tenant"; "createdAt"; "state"; "poolSelector"; "credentialName"; "tombstone"].

Lemma record_of_ext sid h h' :
  (∀ f, f ∈ session_field_names → h !! f = h' !! f) → record_of sid h = record_of sid h'.
Proof. intros H. unfold record_of. rewrite !H by set_solver. done. Qed.

Lemma allowed_fields fields f v : (f, v) ∈ allowed fields → f ∈ RUNTIME_FIELDS ∧ fields !! f = Some v.
Proof. unfold allowed. intros (g & Hg & Hv)%list_elem_of_omap. by destruct (fields !! g) eqn:E; simplify_eq/=. Qed.

Lemma allowed_session_field fields f :
  f ∈ session_field_names → list_to_map (M := gmap string string) (allowed fields) !! f = None.
Proof.
  intros Hf. apply not_elem_of_list_to_map_1. intros ([f' v] & -> & Hin)%list_elem_of_fmap.
  apply allowed_fields in Hin as [Hin _].
  assert (Hd : Forall (.∉ RUNTIME_FIELDS) session_field_names) by by apply (bool_decide_unpack _).
  rewrite Forall_forall in Hd. by apply (Hd f').
Qed.

(** A write of allow-listed fields leaves every record as it was, whatever key it goes to. *)
Lemma record_at_runtime K sid fields :
  let K' := (key_do (HSet (runtimeKey sid) (allowed fields)) K).2 in
  (∀ sid', record_at K' sid' = record_at K sid')
  ∧ (∀ subject, K' !! ownerKey sha256 subject = K !! ownerKey sha256 subject).
Proof.
  simpl. destruct (hash_of (K !! runtimeKey sid)) as [h|] eqn:Eh; [|done].
  destruct (allowed fields) as [|x l] eqn:Ea; [done|]. rewrite <-Ea. simpl. split.
  - intros sid'. destruct (decide (runtimeKey sid = sessionKey sid')) as [Hk|Hk].
    + unfold record_at. rewrite <-Hk, lookup_insert_eq, Eh. simpl. f_equal. apply record_of_ext.
      intros f Hf. by rewrite lookup_union_r by (by apply allowed_session_field).
    + by apply record_at_insert.
  - intros subject. by rewrite lookup_insert_ne.
Qed.

(** What listing sees of a key space. *)
Definition same_index (K K' : keyspace) : Prop :=
  (∀ sid, record_at K sid = record_at K' sid)
  ∧ (∀ subject, zset_of (K !! ownerKey sha256 subject) = zset_of (K' !! ownerKey sha256 subject)).

Lemma run_get_all_ext K K' ids : same_index K K' →
  (prun key_do (get_all ids) K).1 = (prun key_do (get_all ids) K').1
  ∧ (prun key_do (get_all ids) K).2 = K.
Proof.
  intros [HR _]. induction ids as [|sid ids [IH1 IH2]]; [done|]. cbn [get_all].
  rewrite !prun_bind, !run_get, <-HR. destruct (record_at K sid) as [rec|e]; [|done].
  rewrite !prun_bind. destruct (prun key_do (get_all ids) K) as [[l|e] K1],
    (prun key_do (get_all ids) K') as [[l'|e'] K2]; simpl in *; by simplify_eq.
Qed.

Lemma run_listByOwner_ext K K' subject limit cursor : same_index K K' →
  (prun key_do (listByOwner sha256 subject limit cursor) K).1 =
  (prun key_do (listByOwner sha256 subject limit cursor) K').1.
Proof.
  intros HK. pose proof (proj2 HK subject) as Hz. unfold listByOwner.
  rewrite !prun_bind, !run_guard. cbn [key_do]. rewrite <-Hz.
  destruct (zset_of (K !! ownerKey sha256 subject)) as [z|] eqn:Ez; [|done]. cbn [fst snd].
  match goal with |- context [get_all ?l] => set (ids := l) end.
  rewrite !prun_bind. pose proof (run_get_all_ext K K' ids HK) as [H1 H2].
  assert (same_index K' K) as HK' by (split; intros; symmetry; apply HK).
  pose proof (proj2 (run_get_all_ext K' K ids HK')) as H3.
  destruct (prun key_do (get_all ids) K) as [[l|e] K1],
    (prun key_do (get_all ids) K') as [[l'|e'] K2]; simpl in H1, H2, H3; simplify_eq; [|done].
  destruct (_ =? _); [|done]. rewrite !prun_bind, !run_guard. cbn [key_do]. rewrite <-Hz, Ez.
  by destruct (last ids).
Qed.
(** ** Deletion *)

Definition session_data (sid : string) : list string := dataKeys sid ++ [runtimeKey sid].

Definition has_data (K : keyspace) (sid : string) : Prop := ∃ k, k ∈ session_data sid ∧ is_Some (K !! k).

(** The session shows in its owner's listing. *)
Definition listed (K : keyspace) (rec : SessionRecord) : Prop :=
  (∃ z q, K !! ownerKey sha256 (owner rec) = Some (RZSet z) ∧ z !! sessionId rec = Some q)
  ∧ ∃ rec', record_at K (sessionId rec) = Ok (Some rec') ∧ owner rec' = owner rec.

(** Nothing of the session is left. *)
Definition erased (K : keyspace) (rec : SessionRecord) : Prop :=
  ¬ has_data K (sessionId rec) ∧ K !! sessionKey (sessionId rec) = None
  ∧ ∀ z, zset_of (K !! ownerKey sha256 (owner rec)) = Some z → z !! sessionId rec = None.

Lemma data_key_ne_session sid k : k ∈ session_data sid → k ≠ sessionKey sid.
Proof.
  unfold session_data, dataKeys. simpl. rewrite !elem_of_cons.
  intros [->|[->|[->|[->|[]%not_elem_of_nil]]]]; [done..|apply runtimeKey_ne].
Qed.

Lemma data_key_ne_owner sid k subject : k ∈ session_data sid → k ≠ ownerKey sha256 subject.
Proof.
  unfold session_data, dataKeys. simpl. rewrite !elem_of_cons.
  by intros [->|[->|[->|[->|[]%not_elem_of_nil]]]].
Qed.

(** A record with the tombstone set. *)
Definition tombstoned (rec : SessionRecord) : SessionRecord :=
  mkSession (sessionId rec) (owner rec) (tenant rec) (createdAt rec) deleting (poolSelector rec)
    (credentialName rec) true.

Lemma record_of_tombstone sid h :
  record_of sid (list_to_map tombstone_fields ∪ h) = tombstoned <$> record_of sid h.
Proof.
  unfold record_of. rewrite !lookup_union. simpl. simplify_map_eq.
  destruct (nonempty (h !! "owner")); [|done]. by destruct (h !! "state"), (h !! "tombstone").
Qed.

Lemma listed_tombstone K rec :
  (has_data K (sessionId rec) → listed K rec) →
  let K' := (key_do (HSet (sessionKey (sessionId rec)) tombstone_fields) K).2 in
  has_data K' (sessionId rec) → listed K' rec.
Proof.
  intros HI. simpl. destruct (hash_of (K !! sessionKey (sessionId rec))) as [h|] eqn:Eh; [|done]. simpl.
  intros (k & Hk & Hd). rewrite lookup_insert_ne in Hd by (symmetry; by apply data_key_ne_session).
  destruct HI as [(z & q & Hz & Hq) (rec' & Hr & Ho)]; [by exists k|]. split.
  - exists z, q. by rewrite lookup_insert_ne.
  - unfold record_at in *. rewrite Eh in Hr. rewrite lookup_insert_eq. simpl. injection Hr as Hr.
    exists (tombstoned rec'). by rewrite record_of_tombstone, Hr.
Qed.
Lemma no_data_kept K K' sid :
  (∀ k, k ∈ session_data sid → K' !! k = K !! k) → ¬ has_data K sid → ¬ has_data K' sid.
Proof. intros HK Hn (k & Hk & Hd). apply Hn. exists k. by rewrite <-HK. Qed.

Lemma no_data_del K sid : ¬ has_data (key_do (Del (session_data sid)) K).2 sid.
Proof. cbn [key_do snd]. intros (k & Hk & [v Hv]). rewrite foldr_delete_lookup, decide_True in Hv; done. Qed.

Lemma zrem_spec K k m K' :
  key_do (ZRem k m) K = (Ok tt, K') →
  (∀ z, zset_of (K' !! k) = Some z → z !! m = None) ∧ ∀ k', k' ≠ k → K' !! k' = K !! k'.
Proof.
  simpl. destruct (zset_of (K !! k)) as [z|]; [|done]. intros [= <-].
  case_decide as He; split; intros x Hx.
  - rewrite lookup_delete_eq in Hx. by simplify_eq/=.
  - by rewrite lookup_delete_ne.
  - rewrite lookup_insert_eq in Hx. simplify_eq/=. apply lookup_delete_eq.
  - by rewrite lookup_insert_ne.
Qed.

Lemma zrem_others K k m k' : k' ≠ k → (key_do (ZRem k m) K).2 !! k' = K !! k'.
Proof.
  intros Hk. simpl. destruct (zset_of (K !! k)) as [z|]; [|done]. simpl.
  case_decide; [by rewrite lookup_delete_ne|by rewrite lookup_insert_ne].
Qed.
End Effects.

Section Cascade.
Context (sha256 : string → string) `{CpRedis R}.
Implicit Types (r : R) (rec : SessionRecord).

Abbreviation hides_nothing rec r :=
  (has_data (keys r) (sessionId rec) → listed sha256 (keys r) rec).

Abbreviation deleted rec :=
  (fun (o : result thrown unit) (r : R) =>
     match o with Ok _ => erased sha256 (keys r) rec | Throw e => e = unavailable end).

Lemma always_guard (I : R → Prop) c Q r :
  I r →
  (∀ a r', answers c r a r' →
     I r' ∧ Q (match a with Ok v => Ok v | Throw _ => Throw unavailable end) r') →
  always answers I (guard c) Q r.
Proof. intros HI HQ. split; [done|]. intros [v|[]] r' Ha; by destruct (HQ _ _ Ha). Qed.

(** The last two steps, once the data is gone. *)
Lemma cascade_tail rec r :
  ¬ has_data (keys r) (sessionId rec) →
  always answers (fun r => ¬ has_data (keys r) (sessionId rec))
    (await _ <- guard (ZRem (ownerKey sha256 (owner rec)) (sessionId rec));
     guard (Del [sessionKey (sessionId rec)])) (deleted rec) r.
Proof.
  intros Hn. apply always_bind, always_guard; [done|]. intros a r1 Ha. split.
  { destruct (answers_keys _ _ _ _ Ha) as [[_ ->]|E]; [done|]. rewrite E.
    eapply no_data_kept, Hn. intros k Hk. apply zrem_others. by eapply data_key_ne_owner. }
  destruct a as [[]|[]]; [|done]. apply answers_ok in Ha.
  destruct (zrem_spec _ _ _ _ Ha) as [Hz Ho].
  assert (Hn1 : ¬ has_data (keys r1) (sessionId rec)).
  { eapply no_data_kept, Hn. intros k Hk. apply Ho. by eapply data_key_ne_owner. }
  apply always_guard; [done|]. intros a r2 Ha2. split.
  { destruct (answers_keys _ _ _ _ Ha2) as [[_ ->]|E]; [done|]. rewrite E.
    eapply no_data_kept, Hn1. intros k Hk. simpl. rewrite lookup_delete_ne; [done|].
    symmetry. by apply data_key_ne_session. }
  destruct a as [[]|[]]; [|done]. apply answers_ok in Ha2. injection Ha2 as Ha2. rewrite <-Ha2. split_and!.
  - eapply no_data_kept, Hn1. intros k Hk. rewrite lookup_delete_ne; [done|].
    symmetry. by apply data_key_ne_session.
  - apply lookup_delete_eq.
  - intros z. rewrite lookup_delete_ne by done. apply Hz.
Qed.

Lemma cascade_always rec r :
  hides_nothing rec r → always answers (fun r => hides_nothing rec r) (cascadeDelete sha256 rec) (deleted rec) r.
Proof.
  intros HI. apply always_bind, always_guard; [done|]. intros a r1 Ha.
  assert (HI1 : hides_nothing rec r1).
  { destruct (answers_keys _ _ _ _ Ha) as [[_ ->]|E]; [done|]. rewrite E. by apply listed_tombstone. }
  split; [done|]. destruct a as [[]|[]]; [|done].
  apply always_bind, always_guard; [done|]. intros a r2 Ha2. split.
  { destruct (answers_keys _ _ _ _ Ha2) as [[_ ->]|E]; [done|]. intros Hd. rewrite E in Hd.
    by apply no_data_del in Hd. }
  destruct a as [[]|[]]; [|done].
  eapply always_mono; [| |apply cascade_tail].
  - intros r' Hn' Hd. by apply Hn' in Hd.
  - done.
  - apply answers_ok in Ha2. injection Ha2 as E. rewrite <-E. apply no_data_del.
Qed.
End Cascade.

(** ** Revocation

    The writes the index makes ([create] is given fresh ids), and any number of its
    operations running at once, each command of each answered in any way. *)

Inductive index_write (sha256 : string → string) (sid : string) : rcmd → Prop :=
| iw_create_hash rec : sessionId rec ≠ sid → index_write sha256 sid (HSet (sessionKey (sessionId rec)) (session_fields rec))
| iw_create_index rec : index_write sha256 sid (ZAdd (ownerKey sha256 (owner rec)) (createdAt rec) (sessionId rec))
| iw_tombstone sid' : index_write sha256 sid (HSet (sessionKey sid') tombstone_fields)
| iw_runtime sid' fields : index_write sha256 sid (HSet (runtimeKey sid') (allowed fields))
| iw_audit fs : index_write sha256 sid (XAdd AUDIT_STREAM fs)
| iw_delete_data sid' : index_write sha256 sid (Del (session_data sid'))
| iw_unlist subject sid' : index_write sha256 sid (ZRem (ownerKey sha256 subject) sid')
| iw_delete sid' : index_write sha256 sid (Del [sessionKey sid']).

(** No live record of the session can be read. *)
Definition revoked (K : keyspace) (sid : string) : Prop :=
  ∀ rec, record_at K sid = Ok (Some rec) → tombstone rec = true.

Lemma record_at_del K ks sid :
  record_at (foldr delete K ks) sid = if decide (sessionKey sid ∈ ks) then Ok None else record_at K sid.
Proof.
  unfold record_at. rewrite (foldr_delete_lookup K ks). by case_decide.
Qed.

Lemma revoked_write sha256 sid c K :
  index_write sha256 sid c → revoked K sid → revoked (key_do c K).2 sid.
Proof.
  intros Hc HK rec Hr. destruct Hc as [rec' Hne|rec'|sid'|sid' fields|fs|sid'|subject sid'|sid'].
  - apply HK. revert Hr. simpl. destruct (hash_of _); [|done]. simpl.
    by rewrite record_at_insert by (by intros ?%sessionKey_inj).
  - apply HK. revert Hr. simpl. destruct (zset_of _), (createdAt rec'); try done. simpl.
    by rewrite record_at_insert.
  - revert Hr. simpl. destruct (hash_of (K !! sessionKey sid')) as [h|] eqn:Eh; [|apply HK]. simpl.
    destruct (decide (sid' = sid)) as [->|Hne].
    + unfold record_at. rewrite lookup_insert_eq. simpl. rewrite record_of_tombstone.
      intros [= (rec0 & _ & ->)%fmap_Some]. done.
    + rewrite record_at_insert by (by intros ?%sessionKey_inj). apply HK.
  - rewrite (proj1 (record_at_runtime sha256 K sid' fields)) in Hr. by apply HK.
  - apply HK. revert Hr. simpl. destruct (stream_of _); [|done]. simpl. by rewrite record_at_insert.
  - cbn [key_do snd] in Hr. rewrite record_at_del in Hr. case_decide; [done|by apply HK].
  - apply HK. revert Hr. unfold record_at. by rewrite zrem_others.
  - cbn [key_do snd] in Hr. rewrite record_at_del in Hr. case_decide; [done|by apply HK].
Qed.

(** Commands that write nothing. *)
Definition reads (c : rcmd) : bool :=
  match c with HGetAll _ | ZRange _ _ _ | ZScore _ _ => true | _ => false end.

Lemma reads_nothing c K : reads c = true → (key_do c K).2 = K.
Proof. destruct c; try done; simpl; intros _; by repeat case_match. Qed.

Definition harmless (sha256 : string → string) (sid : string) (c : rcmd) : Prop :=
  reads c = true ∨ index_write sha256 sid c.

Inductive index_op (sha256 : string → string) (sid : string) : rprog unit → Prop :=
| op_create rec : sessionId rec ≠ sid → index_op sha256 sid (create sha256 rec)
| op_get sid' : index_op sha256 sid (pbind (get sid') (fun _ => Ret tt))
| op_list subject limit cursor : index_op sha256 sid (pbind (listByOwner sha256 subject limit cursor) (fun _ => Ret tt))
| op_tombstone sid' : index_op sha256 sid (set_tombstone sid')
| op_putRuntime sid' fields : index_op sha256 sid (putRuntime sid' fields)
| op_getRuntime sid' : index_op sha256 sid (pbind (getRuntime sid') (fun _ => Ret tt))
| op_audit ts subject s c d : index_op sha256 sid (audit ts subject s c d)
| op_delete rec : index_op sha256 sid (cascadeDelete sha256 rec).

Lemma guard_calls (P : rcmd → Prop) c : P c → calls P (guard c).
Proof. intros Hc. split; [done|]. by intros [v|[]]. Qed.

Lemma op_calls sha256 sid p : index_op sha256 sid p → calls (harmless sha256 sid) p.
Proof.
  assert (Hread : ∀ c, reads c = true → calls (harmless sha256 sid) (guard c)) by (intros; apply guard_calls; by left).
  assert (Hget : ∀ s, calls (harmless sha256 sid) (get s)).
  { intros s. apply calls_bind; [by apply Hread|done]. }
  destruct 1; unfold create, listByOwner, putRuntime, getRuntime, audit, cascadeDelete, set_tombstone;
    repeat first [by apply Hread | by apply Hget | apply guard_calls; right; by constructor | done
                 | apply calls_bind; [|intros ?]].
  - match goal with |- context [get_all ?l] => induction l as [|x l IH]; [done|] end. cbn [get_all].
    repeat first [by apply Hget | exact IH | done | apply calls_bind; [|intros ?]].
  - destruct (_ =? _); repeat first [by apply Hread | done | apply calls_bind; [|intros ?]].
  - case_match eqn:E; [done|]. rewrite <-E. apply guard_calls. right. constructor.
Qed.

(** Operations start at any time, and any of those running makes its next call. *)
Inductive index_step (sha256 : string → string) `{CpRedis R} (sid : string) :
    list (rprog unit) * R → list (rprog unit) * R → Prop :=
| is_start p ps r : index_op sha256 sid p → index_step sha256 sid (ps, r) (p :: ps, r)
| is_call ps1 p ps2 r p' r' :
    pstep answers (p, r) (p', r') → index_step sha256 sid (ps1 ++ p :: ps2, r) (ps1 ++ p' :: ps2, r').

Lemma pstep_calls `{CpRedis R} (P : rcmd → Prop) (p p' : rprog unit) (r r' : R) :
  pstep answers (p, r) (p', r') → calls P p →
  calls P p' ∧ ∃ c, P c ∧ (keys r' = keys r ∨ keys r' = (key_do c (keys r)).2).
Proof.
  intros Hs Hp. remember (p, r) as x eqn:Ex. remember (p', r') as y eqn:Ey.
  destruct Hs as [c k s a s' Ha]. injection Ex as Hc Hst. injection Ey as Hk Hst'. subst p s p' s'.
  destruct Hp as [HP Hk]. split; [apply Hk|]. exists c. split; [done|].
  destruct (answers_keys _ _ _ _ Ha) as [[_ ?]|?]; auto.
Qed.

Lemma index_step_revoked sha256 `{CpRedis R} sid (x y : list (rprog unit) * R) :
  index_step sha256 sid x y →
  Forall (calls (harmless sha256 sid)) x.1 ∧ revoked (keys x.2) sid →
  Forall (calls (harmless sha256 sid)) y.1 ∧ revoked (keys y.2) sid.
Proof.
  destruct 1 as [p ps r Hop|ps1 p ps2 r p' r' Hs]; simpl; intros [Hps Hr].
  - split; [|done]. constructor; [by apply op_calls|done].
  - apply Forall_app in Hps as [H1 [Hp H2]%Forall_cons].
    destruct (pstep_calls _ _ _ _ _ Hs Hp) as (Hp' & c & Hc & Hk). split; [by apply Forall_app; split; [|constructor]|].
    destruct Hk as [->| ->]; [done|]. destruct Hc as [Hc|Hc]; [by rewrite reads_nothing|by eapply revoked_write].
Qed.

Lemma index_pool sha256 `{CpRedis R} sid (r0 : R) x :
  rtc (index_step sha256 sid) ([], r0) x → Forall (calls (harmless sha256 sid)) x.1.
Proof.
  intros Hr. remember ([], r0) as x0 eqn:E. assert (Hx : Forall (calls (harmless sha256 sid)) x0.1) by by subst.
  clear E. induction Hr as [|x y z Hs _ IH]; [done|]. apply IH. clear IH.
  destruct Hs as [p ps r Hop|ps1 p ps2 r p' r' Hs]; simpl in *.
  - constructor; [by apply op_calls|done].
  - apply Forall_app in Hx as [H1 [Hp H2]%Forall_cons].
    destruct (pstep_calls _ _ _ _ _ Hs Hp) as (Hp' & _). by apply Forall_app; split; [|constructor].
Qed.

(** ** The theorems *)

(** Records that differ at most in how their creation time is represented. *)
#[export] Instance SessionRecord_equiv : Equiv SessionRecord := fun a b =>
  sessionId a = sessionId b ∧ owner a = owner b ∧ tenant a = tenant b
  ∧ integer_val (createdAt a) = integer_val (createdAt b) ∧ state a = state b
  ∧ poolSelector a = poolSelector b ∧ credentialName a = credentialName b ∧ tombstone a = tombstone b.

#[export] Instance SessionRecord_equivalence : Equivalence (≡@{SessionRecord}).
Proof.
  unfold equiv, SessionRecord_equiv. split.
  - intros a. by split_and!.
  - intros a b H. destruct_and!. by split_and!.
  - intros a b c H1 H2. destruct_and!. split_and!; congruence.
Qed.

Lemma record_of_session_fields rec t h :
  owner rec ≠ "" → poolSelector rec ≠ Some "" → createdAt rec = Fin (inject_Z t) →
  Z.abs t ≤ MAX_SAFE_INTEGER →
  ∃ rec', record_of (sessionId rec) (list_to_map (session_fields rec) ∪ h) = Some rec' ∧ rec' ≡ rec.
Proof.
  intros Ho Hp Hc Ht. unfold record_of. rewrite !lookup_union. simpl. simplify_map_eq.
  rewrite !(union_Some_l _ _). simpl. rewrite bool_decide_eq_false_2 by done.
  eexists. split; [done|]. unfold equiv, SessionRecord_equiv. simpl. split_and!; try done.
  - rewrite Hc. unfold num_string. assert (integer_val (Fin (inject_Z t)) = Some t) as ->.
    { unfold integer_val. simpl. by rewrite Z.mod_1_r, Z.div_1_r. }
    by rewrite bytes_string, Number_dec.
  - by destruct (state rec).
  - destruct (poolSelector rec) as [p|]; simpl; [|done]. rewrite bool_decide_eq_false_2; [done|congruence].
  - by destruct (tombstone rec).
Qed.

Lemma run_create sha256 rec t K h z :
  createdAt rec = Fin (inject_Z t) → hash_of (K !! sessionKey (sessionId rec)) = Some h →
  zset_of (K !! ownerKey sha256 (owner rec)) = Some z →
  prun key_do (create sha256 rec) K =
    (Ok tt, <[ownerKey sha256 (owner rec) := RZSet (<[sessionId rec := inject_Z t]> z)]>
            (<[sessionKey (sessionId rec) := RHash (list_to_map (session_fields rec) ∪ h)]> K)).
Proof.
  intros Hc Hh Hz.
  assert (Hset : key_do (HSet (sessionKey (sessionId rec)) (session_fields rec)) K =
    (Ok tt, <[sessionKey (sessionId rec) := RHash (list_to_map (session_fields rec) ∪ h)]> K))
    by (cbn [key_do]; by rewrite Hh).
  unfold create. rewrite prun_bind, run_guard, Hset. cbn [fst snd].
  etransitivity; [apply (run_guard (ZAdd _ _ _))|]. cbn [key_do]. rewrite lookup_insert_ne, Hz, Hc by done. done.
Qed.

Section Theorems.
Context (sha256 : string → string) `{CpRedis R}.
Implicit Types (r : R) (rec : SessionRecord).

(** A session that was created is read back as it was written, is in its owner's index at its
    creation time, and changes no other session. *)
Theorem create_then_get rec t r h z :
  owner rec ≠ "" → poolSelector rec ≠ Some "" → createdAt rec = Fin (inject_Z t) →
  Z.abs t ≤ MAX_SAFE_INTEGER →
  hash_of (keys r !! sessionKey (sessionId rec)) = Some h →
  zset_of (keys r !! ownerKey sha256 (owner rec)) = Some z →
  ∃ rec' r', prun redis (create sha256 rec) r = (Ok tt, r')
  ∧ (prun redis (get (sessionId rec)) r').1 = Ok (Some rec') ∧ rec' ≡ rec
  ∧ keys r' !! ownerKey sha256 (owner rec) = Some (RZSet (<[sessionId rec := inject_Z t]> z))
  ∧ ∀ sid, sid ≠ sessionId rec → (prun redis (get sid) r').1 = (prun redis (get sid) r).1.
Proof.
  intros Ho Hp Hc Ht Hh Hz.
  destruct (record_of_session_fields rec t h Ho Hp Hc Ht) as (rec' & Hrec & Heq).
  pose proof (prun_keys (create sha256 rec) r) as [H1 H2].
  rewrite (run_create sha256 rec t _ h z Hc Hh Hz) in H1, H2. cbn [fst snd] in H1, H2. exists rec', (prun redis (create sha256 rec) r).2. split_and!.
  - rewrite <-H1. apply surjective_pairing.
  - rewrite (proj1 (prun_keys _ _)), H2, run_get. cbn [fst]. rewrite record_at_insert by done.
    unfold record_at. rewrite lookup_insert_eq. cbn [hash_of]. by rewrite Hrec.
  - done.
  - rewrite H2. apply lookup_insert_eq.
  - intros sid Hsid. rewrite !(proj1 (prun_keys _ _)), H2, !run_get. cbn [fst].
    rewrite !record_at_insert; [done|by intros ?%sessionKey_inj|done].
Qed.

(** Walking the pages of an owner's sessions, at any page size of at least one, ends and gives
    every readable session exactly once, newest first, when no two were created in the same
    millisecond: at most one page more than there are sessions is fetched. *)
Theorem paging_complete subject limit r z :
  typed (keys r) z → zset_of (keys r !! ownerKey sha256 subject) = Some z → distinct_scores z →
  1 ≤ page_limit limit →
  walk sha256 (S (size z)) subject limit None r = Some (omap (visible (keys r)) (zrev z).*1).
Proof.
  intros HK Hz Hd Hl. assert (Hall : filter (zbelow (bound_of None)) (zrev z) = zrev z) by by apply filter_all_true.
  rewrite (walk_complete _ _ _ _ _ _ z); [by rewrite Hall|done..|].
  rewrite Hall, zrev_perm, <-length_map_to_list. lia.
Qed.

(** What a harness reports about a session's turns, whatever fields it sends and whether or
    not the write is acknowledged, changes neither what the index answers about any session
    nor what it lists for any owner. *)
Theorem runtime_reports_inert sid fields r p' r' :
  rtc (pstep answers) (putRuntime sid fields, r) (p', r') →
  (∀ sid', (prun redis (get sid') r').1 = (prun redis (get sid') r).1)
  ∧ ∀ subject limit cursor, (prun redis (listByOwner sha256 subject limit cursor) r').1
                            = (prun redis (listByOwner sha256 subject limit cursor) r).1.
Proof.
  intros Hr. assert (Hs : same_index sha256 (keys r') (keys r)).
  { eapply (always_inv answers (fun r' => same_index sha256 (keys r') (keys r)) p' (fun _ _ => True)).
    eapply always_steps, Hr. unfold putRuntime. destruct (allowed fields) as [|x l] eqn:Ea; [done|]. rewrite <-Ea.
    apply always_guard; [done|]. intros a r1 Ha. split; [|done].
    destruct (answers_keys _ _ _ _ Ha) as [[_ ->]|E]; [done|]. rewrite E.
    destruct (record_at_runtime sha256 (keys r) sid fields) as [HR HO]. split; [apply HR|].
    intros subject. by rewrite HO. }
  split; intros; rewrite !(proj1 (prun_keys _ _)).
  - rewrite !run_get. apply Hs.
  - by apply run_listByOwner_ext.
Qed.

(** Deleting a session, interrupted at any point by any failure, never leaves data of a session
    that its owner's listing does not show; a deletion that reports success has erased
    everything, from whatever state an earlier attempt left. *)
Theorem cascade_never_hides_data rec r p' r' :
  (has_data (keys r) (sessionId rec) → listed sha256 (keys r) rec) →
  rtc (pstep answers) (cascadeDelete sha256 rec, r) (p', r') →
  (has_data (keys r') (sessionId rec) → listed sha256 (keys r') rec)
  ∧ (p' = Ret tt → erased sha256 (keys r') rec) ∧ (∀ e, p' = Err e → e = unavailable).
Proof.
  intros HI Hr. pose proof (always_steps _ _ _ _ _ _ _ (cascade_always sha256 rec r HI) Hr) as Ha.
  split_and!; [by apply (always_inv _ _ _ _ _ Ha)| |]; [intros ->|intros e ->]; apply Ha.
Qed.

(** C37. Once a session is tombstoned, no interleaving of the index's operations, by any number of
    requests, with commands failing at any point, makes it readable as a live session again.  A session that is created has another
    id than this one: ids are random UUIDs. *)
Theorem revocation_permanent sid (r0 : R) ps r ps' r' :
  rtc (index_step sha256 sid) ([], r0) (ps, r) → revoked (keys r) sid →
  rtc (index_step sha256 sid) (ps, r) (ps', r') → revoked (keys r') sid.
Proof.
  intros Hps%index_pool Hr Hrun. simpl in Hps.
  pose (Inv := fun x : list (rprog unit) * R => Forall (calls (harmless sha256 sid)) x.1 ∧ revoked (keys x.2) sid).
  enough (Inv (ps', r')) as [_ ?] by done.
  assert (Inv (ps, r)) as Hi by done. revert Hi. clear -Hrun.
  induction Hrun as [|x y z Hs _ IH]; [done|]. intros Hi. apply IH. by eapply index_step_revoked.
Qed.
End Theorems.

(** ** Witnesses *)

Definition id_hash (s : string) : string := s.

Definition alice (sid : string) (t : Z) : SessionRecord :=
  mkSession sid "github:1" "github:1" (Fin (inject_Z t)) active None "main" false.

Definition two_sessions : keyspace :=
  (prun key_do (pbind (create id_hash (alice "a" 5)) (fun _ => create id_hash (alice "b" 7))) ∅).2.

Lemma create_then_get_witness :
  ∃ rec' K', prun key_do (create id_hash (alice "c" 9)) two_sessions = (Ok tt, K')
  ∧ (prun key_do (get "c") K').1 = Ok (Some rec') ∧ rec' ≡ alice "c" 9.
Proof.
  destruct (create_then_get (R := keyspace) id_hash (alice "c" 9) 9 two_sessions ∅
              {["a" := inject_Z 5; "b" := inject_Z 7]}) as (rec' & K' & H1 & H2 & H3 & _);
    [done|done|done|done|by vm_compute|by vm_compute|].
  by exists rec', K'.
Defined.

Lemma paging_complete_witness :
  walk id_hash 3 "github:1" (Some (Fin 1%Q)) None two_sessions
  = Some (omap (visible two_sessions) ["b"; "a"]).
Proof.
  pose (z := {["a" := inject_Z 5; "b" := inject_Z 7]} : gmap string Q).
  transitivity (walk id_hash (S (size z)) "github:1" (Some (Fin 1%Q)) None two_sessions); [done|].
  rewrite (paging_complete id_hash "github:1" (Some (Fin 1%Q)) two_sessions z); [by vm_compute| |by vm_compute| |done].
  - by apply (bool_decide_unpack _).
  - intros m m' q q' H1 H2.
    apply lookup_insert_Some in H1 as [[<- <-]|[_ [<- <-]%lookup_singleton_Some]],
      H2 as [[<- <-]|[_ [<- <-]%lookup_singleton_Some]]; done.
Defined.

Lemma runtime_reports_inert_witness :
  ∃ K', rtc (pstep answers) (putRuntime "a" {["owner" := "eve"; "turns" := "3"]}, two_sessions) (Ret tt, K')
  ∧ (prun key_do (get "a:runtime") K').1 = (prun key_do (get "a:runtime") two_sessions).1.
Proof.
  pose (p := putRuntime "a" {["owner" := "eve"; "turns" := "3"]}).
  assert (Hr : rtc (pstep answers) (p, two_sessions) (Ret tt, (prun key_do p two_sessions).2)).
  { apply (prun_steps answers key_do p two_sessions). intros c K. left. apply surjective_pairing. }
  exists (prun key_do p two_sessions).2. split; [exact Hr|].
  apply (runtime_reports_inert (R := keyspace) id_hash _ _ _ _ _ Hr).
Defined.

Lemma cascade_never_hides_data_witness :
  ∃ K', rtc (pstep answers) (cascadeDelete id_hash (alice "a" 5), two_sessions) (Ret tt, K')
  ∧ erased id_hash K' (alice "a" 5).
Proof.
  pose (p := cascadeDelete id_hash (alice "a" 5)).
  assert (Hr : rtc (pstep answers) (p, two_sessions) (Ret tt, (prun key_do p two_sessions).2)).
  { apply (prun_steps answers key_do p two_sessions). intros c K. left. apply surjective_pairing. }
  exists (prun key_do p two_sessions).2. split; [exact Hr|].
  refine (proj1 (proj2 (cascade_never_hides_data (R := keyspace) id_hash (alice "a" 5) two_sessions _ _ _ Hr))
            eq_refl).
  intros (k & Hk & [v Hv]). exfalso. unfold session_data, dataKeys in Hk. simpl in Hk.
  repeat (apply elem_of_cons in Hk as [->|Hk]; [by vm_compute in Hv|]). by apply not_elem_of_nil in Hk.
Defined.

Lemma call_step {A} c (k : ranswer c → rprog A) K :
  pstep answers (Call c k, K) (k (key_do c K).1, (key_do c K).2).
Proof. constructor. left. apply surjective_pairing. Qed.

Lemma revocation_permanent_witness :
  let report := putRuntime "a" {["tombstone" := "0"; "turns" := "1"]} in
  revoked (prun key_do (pbind (set_tombstone "a") (fun _ => report)) two_sessions).2 "a".
Proof.
  intros report. pose (K1 := (prun key_do (set_tombstone "a") two_sessions).2).
  refine (revocation_permanent (R := keyspace) id_hash "a" two_sessions [Ret tt] K1 [Ret tt; Ret tt]
            (prun key_do (pbind (set_tombstone "a") (fun _ => report)) two_sessions).2 _ _ _).
  - eapply rtc_l; [apply is_start, (op_tombstone _ _ "a")|]. eapply rtc_l; [|apply rtc_refl].
    refine (is_call _ _ [] (set_tombstone "a") [] two_sessions (Ret tt) K1 (call_step _ _ _)).
  - intros rec. vm_compute. by intros [= <-].
  - eapply rtc_l; [apply is_start, (op_putRuntime _ _ "a" {["tombstone" := "0"; "turns" := "1"]})|].
    eapply rtc_l; [|apply rtc_refl].
    refine (is_call _ _ [] report [Ret tt] K1 (Ret tt) _ (call_step _ _ _)).
Defined.

(** Two sessions created in the same millisecond on a page boundary: the exclusive cursor
    skips the second. *)
Lemma equal_times_skip_a_session :
  let K := (prun key_do (pbind (create id_hash (alice "a" 5)) (fun _ => create id_hash (alice "b" 5))) ∅).2 in
  option_map (List.map sessionId) (walk id_hash 5 "github:1" (Some (Fin 1%Q)) None K) = Some ["b"].
Proof. by vm_compute. Qed.

(** A limit between 0 and 1 is floored to an empty page, whose cursor asks for the score of
    no member: the listing answers 503. *)
Lemma fractional_limit_unavailable :
  (prun key_do (listByOwner id_hash "github:1" (Some (Fin (1 # 2))) None) two_sessions).1
  = Throw unavailable.
Proof. by vm_compute. Qed.

(** A creation interrupted between its two writes leaves a session that no listing shows. *)
Lemma create_can_leave_unlisted :
  ∃ K' e, rtc (pstep answers) (create id_hash (alice "a" 5), (∅ : keyspace)) (Err e, K')
  ∧ (∃ rec, visible K' "a" = Some rec) ∧ K' !! ownerKey id_hash "github:1" = None.
Proof.
  eexists _, _. split_and!.
  - eapply rtc_l; [constructor; by left|]. unfold guard. simpl.
    eapply rtc_l; [refine (pstep_call answers _ _ _ (Throw tt : ranswer _) _ _); right; split; [done|by left]|]. apply rtc_refl.
  - eexists. by vm_compute.
  - by vm_compute.
Qed.
