(* ===== verification/Token.v ===== *)
(** * Session and API tokens

    Models [packages/control-plane/src/token.ts]: the compact JWS the control plane signs
    and both planes verify.  Ed25519, its key encodings and SHA-256 come from the platform's
    crypto library: the class [Ed25519] has the one law the code relies on, that what a key
    signs its public half accepts.  Tokens are byte strings. *)

From Stdlib Require Import QArith.
From S2P Require Import Prelude Base64 JsNumber Json JsonText Prog CpBase.

Local Open Scope Z_scope.

Class Ed25519 := {
  PrivateKey : Type;
  PublicKey : Type;
  createPublicKey : PrivateKey → PublicKey;
  cryptoSign : PrivateKey → bytes → bytes;
  cryptoVerify : PublicKey → bytes → bytes → bool;
  spki : PublicKey → bytes;                       (* DER export *)
  from_spki : bytes → option PublicKey;           (* [None]: not an Ed25519 key, or not DER *)
  sha256_hex : bytes → bytes;
  verify_sign : ∀ k m, cryptoVerify (createPublicKey k) m (cryptoSign k m) = true;
  sign_nonempty : ∀ k m, cryptoSign k m ≠ [];
}.

Definition TOKEN_AUDIENCE : string := "harness".
Definition DEFAULT_ISSUER : string := "sh-control-plane".

Record MintInput := mkMint {
  in_sub : string;
  in_tenant : string;
  in_roles : list string;
  in_scope : list string;
  in_ttlSeconds : Z;
  in_sid : option string;
  in_iss : option string;
}.

(** What a verified token's payload says; optional members as they may be absent. *)
Record TokenClaims := mkClaims {
  sub : string;
  tenant : option string;
  roles : option (list string);
  sid : option string;
}.

Section Token.
Context `{Ed25519}.

Definition keyIdFor (pk : PublicKey) : string := string_of (take 16 (sha256_hex (spki pk))).

Inductive keyset_error :=
| NotKidColonKey (entry : bytes)
| NotEd25519 (kid : bytes)
| KidMismatch (kid : bytes) (expected : string).

Definition publicKeyFromBase64 (b64 : bytes) : option PublicKey := from_spki (b64url_decode b64).

Definition parse_entry (keys : list (string * PublicKey)) (trimmed : bytes) :
    result keyset_error (list (string * PublicKey)) :=
  match index_of [":"%char] trimmed with
  | None | Some O => Throw (NotKidColonKey trimmed)
  | Some idx =>
      let kid := trim (take idx trimmed) in
      match publicKeyFromBase64 (trim (drop (S idx) trimmed)) with
      | None => Throw (NotEd25519 kid)
      | Some key =>
          if bool_decide (keyIdFor key = string_of kid) then Ok (map_set (string_of kid) key keys)
          else Throw (KidMismatch kid (keyIdFor key))
      end
  end.

Fixpoint parse_entries (keys : list (string * PublicKey)) (entries : list bytes) :
    result keyset_error (list (string * PublicKey)) :=
  match entries with
  | [] => Ok keys
  | entry :: rest =>
      match trim entry with
      | [] => parse_entries keys rest
      | trimmed => try keys' <- parse_entry keys trimmed; parse_entries keys' rest
      end
  end.

Definition parseKeyset (raw : option bytes) : result keyset_error (list (string * PublicKey)) :=
  parse_entries [] (split_on [","%char] (default [] raw)).

(** ** Minting *)

Definition header_json (kid : string) : json :=
  JObj [("alg", JStr "EdDSA"); ("typ", JStr "JWT"); ("kid", JStr kid)].

Definition truthy_str (s : option string) : option string :=
  match s with Some s => if bool_decide (s = "") then None else Some s | None => None end.

Definition claims_json (input : MintInput) (iat : Z) (jti : string) : json :=
  JObj ([("iss", JStr (default DEFAULT_ISSUER (in_iss input))); ("aud", JStr TOKEN_AUDIENCE);
         ("sub", JStr (in_sub input)); ("tenant", JStr (in_tenant input));
         ("roles", JArr (JStr <$> in_roles input)); ("scope", JArr (JStr <$> in_scope input));
         ("iat", JNum (inject_Z iat)); ("exp", JNum (inject_Z (iat + in_ttlSeconds input)));
         ("jti", JStr jti)]
        ++ match truthy_str (in_sid input) with Some s => [("sid", JStr s)] | None => [] end).

Definition DOT : ascii := "."%char.

(** [makeSigner(key).mint(input)], at time [iat] with the fresh id [jti]. *)
Definition mint (key : PrivateKey) (input : MintInput) (iat : Z) (jti : string) : bytes :=
  let kid := keyIdFor (createPublicKey key) in
  let signingInput := b64url_encode (stringify (header_json kid)) ++ DOT
                        :: b64url_encode (stringify (claims_json input iat jti)) in
  signingInput ++ DOT :: b64url_encode (cryptoSign key signingInput).

(** ** Verifying *)

Definition bad (why : string) : thrown := fail token_invalid why.

(** [(claims.scope ?? []).includes(s)]: membership for an array, substring for a string; any
    other value has no such method. *)
Definition scope_includes (scope : option json) (s : string) : result thrown bool :=
  match scope with
  | None | Some JNull => Ok false
  | Some (JArr l) => Ok (existsb (fun j => match j with JStr x => bool_decide (x = s) | _ => false end) l)
  | Some (JStr x) => Ok (contains (bytes_of s) (bytes_of x))
  | Some _ => Throw Other
  end.

(** The checks of the payload, once the signature is known to be good. *)
Definition check_claims (claims : json) (now : Z) (requiredScope : option string) : result thrown json :=
  require is_object claims else bad "unparseable token payload";
  require bool_decide (as_string (field "aud" claims) = Some TOKEN_AUDIENCE) else bad "wrong token audience";
  require bool_decide (as_string (field "iss" claims) = Some DEFAULT_ISSUER) else bad "wrong token issuer";
  match as_string (field "sub" claims) with
  | None | Some "" => Throw (bad "token has no subject")
  | Some _ =>
      match as_number (field "exp" claims) with
      | None => Throw (bad "token has no expiry")
      | Some exp =>
          if negb (Qle_bool (inject_Z now) exp) then Throw (fail token_expired "token expired")
          else match requiredScope with
               | None => Ok claims
               | Some s =>
                   try ok <- scope_includes (field "scope" claims) s;
                   require ok else bad ("token scope does not include " +:+ s);
                   Ok claims
               end
      end
  end.

Definition verifyToken (token : bytes) (keys : list (string * PublicKey)) (now : Z)
    (requiredScope : option string) : result thrown json :=
  match split_on [DOT] token with
  | [h; p; s] =>
      require negb (bool_decide (h = [])) && negb (bool_decide (p = [])) && negb (bool_decide (s = []))
        else bad "malformed token";
      match parse (b64url_decode h) with
      | None => Throw (bad "unparseable token header")
      | Some header =>
          require is_object header else bad "unparseable token header";
          require bool_decide (as_string (field "alg" header) = Some "EdDSA") else bad "unsupported alg";
          match as_string (field "kid" header) with
          | None => Throw (bad "token header has no kid")
          | Some kid =>
              match map_get kid keys with
              | None => Throw (bad "unknown token key id")
              | Some key =>
                  require cryptoVerify key (h ++ DOT :: p) (b64url_decode s) else bad "bad token signature";
                  match parse (b64url_decode p) with
                  | None => Throw (bad "unparseable token payload")
                  | Some claims => check_claims claims now requiredScope
                  end
              end
          end
      end
  | _ => Throw (bad "malformed token")
  end.

(** The claims as the handlers use them.  Only the signer decides their types, and it writes
    strings ([claims_json]); a member of another type counts as absent. *)
Definition strings_of (j : option json) : option (list string) :=
  match j with
  | Some (JArr l) => Some (omap (fun x => match x with JStr s => Some s | _ => None end) l)
  | _ => None
  end.

Definition claims_of (claims : json) : TokenClaims :=
  mkClaims (default "" (as_string (field "sub" claims))) (as_string (field "tenant" claims))
    (strings_of (field "roles" claims)) (as_string (field "sid" claims)).
End Token.

Section Theorems.
Context `{Ed25519}.
Implicit Types (keys : list (string * PublicKey)).

Lemma stringify_nonempty j : stringify j ≠ [].
Proof. pose proof (stringify_head j). by destruct (stringify j). Qed.

Lemma split_token (h p s : bytes) :
  DOT ∉ h → DOT ∉ p → DOT ∉ s → split_on [DOT] (h ++ DOT :: p ++ DOT :: s) = [h; p; s].
Proof. intros. by rewrite split_on_char, !split_char_app, split_char_none. Qed.

Lemma split_token_inv token h p s :
  split_on [DOT] token = [h; p; s] → token = h ++ DOT :: p ++ DOT :: s.
Proof. rewrite split_on_char. intros E. by rewrite <-(join_split DOT token), E. Qed.

Lemma strings_serialisable l : forallb serialisable (JStr <$> l) = true.
Proof. by induction l. Qed.

Lemma claims_serialisable input iat jti :
  Z.abs iat ≤ MAX_SAFE_INTEGER → Z.abs (iat + in_ttlSeconds input) ≤ MAX_SAFE_INTEGER →
  serialisable (claims_json input iat jti) = true.
Proof.
  intros H1 H2. apply Z.leb_le in H1, H2. unfold claims_json.
  destruct (truthy_str (in_sid input)); cbn [app serialisable forallb snd Qden Qnum inject_Z];
    rewrite !strings_serialisable, H1, H2; reflexivity.
Qed.

Lemma scope_includes_strings l s : s ∈ l → scope_includes (Some (JArr (JStr <$> l))) s = Ok true.
Proof.
  intros Hin. simpl. f_equal. apply existsb_exists. exists (JStr s).
  split; [by apply list_elem_of_In, list_elem_of_fmap_2|by apply bool_decide_eq_true_2].
Qed.

Lemma check_minted input iat jti now scope :
  in_iss input = None → in_sub input ≠ "" → now ≤ iat + in_ttlSeconds input → scope ∈ in_scope input →
  check_claims (claims_json input iat jti) now (Some scope) = Ok (claims_json input iat jti).
Proof.
  intros Hiss Hsub Hexp Hscope. unfold check_claims.
  change (is_object (claims_json input iat jti)) with true.
  change (field "aud" (claims_json input iat jti)) with (Some (JStr TOKEN_AUDIENCE)).
  change (field "iss" (claims_json input iat jti)) with (Some (JStr (default DEFAULT_ISSUER (in_iss input)))).
  change (field "sub" (claims_json input iat jti)) with (Some (JStr (in_sub input))).
  change (field "exp" (claims_json input iat jti)) with (Some (JNum (inject_Z (iat + in_ttlSeconds input)))).
  change (field "scope" (claims_json input iat jti)) with (Some (JArr (JStr <$> in_scope input))).
  rewrite Hiss, scope_includes_strings by done. cbn [as_string as_number default].
  rewrite !bool_decide_eq_true_2 by done. destruct (in_sub input) as [|c l]; [done|].
  by rewrite (proj2 (Qle_bool_iff _ _)) by (by rewrite <-Zle_Qle).
Qed.

Lemma verify_minted key keys input iat jti now scope :
  map_get (keyIdFor (createPublicKey key)) keys = Some (createPublicKey key) →
  in_iss input = None → in_sub input ≠ "" → scope ∈ in_scope input →
  now ≤ iat + in_ttlSeconds input →
  Z.abs iat ≤ MAX_SAFE_INTEGER → Z.abs (iat + in_ttlSeconds input) ≤ MAX_SAFE_INTEGER →
  verifyToken (mint key input iat jti) keys now (Some scope) = Ok (claims_json input iat jti).
Proof.
  intros Hkey Hiss Hsub Hscope Hexp H1 H2. unfold mint, verifyToken.
  set (kid := keyIdFor (createPublicKey key)) in *.
  set (h := b64url_encode (stringify (header_json kid))).
  set (p := b64url_encode (stringify (claims_json input iat jti))).
  rewrite <-app_assoc. cbn [app]. rewrite split_token by apply b64url_no_dot.
  rewrite !bool_decide_eq_false_2 by (apply b64url_nonempty; (apply stringify_nonempty || apply sign_nonempty)).
  assert (Eh : parse (b64url_decode h) = Some (header_json kid)).
  { unfold h. by rewrite b64url_roundtrip, parse_stringify. }
  assert (Ep : parse (b64url_decode p) = Some (claims_json input iat jti)).
  { unfold p. by rewrite b64url_roundtrip, parse_stringify by (by apply claims_serialisable). }
  rewrite Eh, Ep, b64url_roundtrip. cbn [negb andb].
  change (is_object (header_json kid)) with true.
  change (field "alg" (header_json kid)) with (Some (JStr "EdDSA")).
  change (field "kid" (header_json kid)) with (Some (JStr kid)).
  cbn [as_string]. rewrite bool_decide_eq_true_2, Hkey, verify_sign by done.
  by apply check_minted.
Qed.

(** A token the signer issues is accepted, with the claims it was minted with, by everyone
    who holds the signer's public half under its key id, for each of its scopes and through
    the second it expires in. *)
Theorem verify_mint key keys input iat jti now scope :
  map_get (keyIdFor (createPublicKey key)) keys = Some (createPublicKey key) →
  in_iss input = None → in_sub input ≠ "" → scope ∈ in_scope input →
  now ≤ iat + in_ttlSeconds input →
  Z.abs iat ≤ MAX_SAFE_INTEGER → Z.abs (iat + in_ttlSeconds input) ≤ MAX_SAFE_INTEGER →
  verifyToken (mint key input iat jti) keys now (Some scope) = Ok (claims_json input iat jti).
Proof. apply verify_minted. Qed.

(** C7. A token is accepted only if a published key, the one its header names, verifies its
    signature over exactly the header and payload it carries, and the payload is for this
    audience, from this issuer, unexpired, with a subject and the required scope. *)
Theorem verify_sound token keys now scope claims :
  verifyToken token keys now (Some scope) = Ok claims →
  ∃ h p s header kid key exp,
    token = h ++ DOT :: p ++ DOT :: s
    ∧ parse (b64url_decode h) = Some header ∧ field "alg" header = Some (JStr "EdDSA")
    ∧ field "kid" header = Some (JStr kid) ∧ map_get kid keys = Some key
    ∧ cryptoVerify key (h ++ DOT :: p) (b64url_decode s) = true
    ∧ parse (b64url_decode p) = Some claims
    ∧ field "aud" claims = Some (JStr TOKEN_AUDIENCE) ∧ field "iss" claims = Some (JStr DEFAULT_ISSUER)
    ∧ field "sub" claims = Some (JStr (sub (claims_of claims))) ∧ sub (claims_of claims) ≠ ""
    ∧ field "exp" claims = Some (JNum exp) ∧ (inject_Z now <= exp)%Q
    ∧ scope_includes (field "scope" claims) scope = Ok true.
Proof.
  unfold verifyToken. destruct (split_on [DOT] token) as [|h [|p [|s [|]]]] eqn:Es; try done.
  destruct (negb _ && _ && _); [|done]. destruct (parse (b64url_decode h)) as [header|] eqn:Eh; [|done].
  destruct (is_object header); [|done]. case_bool_decide as Halg; [|done].
  destruct (as_string (field "kid" header)) as [kid|] eqn:Ek; [|done].
  destruct (map_get kid keys) as [key|] eqn:Ekey; [|done].
  destruct (cryptoVerify _ _ _) eqn:Ev; [|done].
  destruct (parse (b64url_decode p)) as [j|] eqn:Ep; [|done]. unfold check_claims.
  destruct (is_object j); [|done]. case_bool_decide as Haud; [|done]. case_bool_decide as Hiss; [|done].
  destruct (as_string (field "sub" j)) as [su|] eqn:Esub; [|done].
  destruct (as_number (field "exp" j)) as [exp|] eqn:Eexp; [|by destruct su].
  destruct (Qle_bool (inject_Z now) exp) eqn:Eq; [|by destruct su].
  destruct (scope_includes (field "scope" j) scope) as [[|]|] eqn:Esc; [|by destruct su..].
  destruct su as [|c su]; [done|]. cbn [negb result_bind]. intros [= <-].
  assert (Hs : ∀ f x, as_string f = Some x → f = Some (JStr x)).
  { intros f x. by destruct f as [[]|]; simpl; intros; simplify_eq. }
  exists h, p, s, header, kid, key, exp. unfold claims_of. simpl. rewrite Esub.
  split_and!; try done; try by apply Hs.
  - by apply split_token_inv.
  - destruct (field "exp" j) as [[]|]; by simplify_eq/=.
  - by apply Qle_bool_iff.
Qed.

(** Nothing of the payload is looked at before the signature: of two tokens with the same
    header and signatures that do not verify, both are refused alike. *)
Theorem unsigned_payload_unread h p p' s s' keys now now' scope scope' :
  DOT ∉ h → DOT ∉ p → DOT ∉ s → DOT ∉ p' → DOT ∉ s' →
  p ≠ [] → s ≠ [] → p' ≠ [] → s' ≠ [] →
  (∀ kid key, map_get kid keys = Some key → cryptoVerify key (h ++ DOT :: p) (b64url_decode s) = false
                                            ∧ cryptoVerify key (h ++ DOT :: p') (b64url_decode s') = false) →
  verifyToken (h ++ DOT :: p ++ DOT :: s) keys now scope = verifyToken (h ++ DOT :: p' ++ DOT :: s') keys now' scope'
  ∧ ∃ why, verifyToken (h ++ DOT :: p ++ DOT :: s) keys now scope = Throw (bad why).
Proof.
  intros ????? ???? Hbad. unfold verifyToken. rewrite !split_token by done.
  rewrite !(bool_decide_eq_false_2 (p = [])), !(bool_decide_eq_false_2 (p' = [])),
    !(bool_decide_eq_false_2 (s = [])), !(bool_decide_eq_false_2 (s' = [])) by done.
  case_bool_decide; cbn [negb andb]; [eauto|]. destruct (parse (b64url_decode h)) as [header|]; [|eauto].
  destruct (is_object header); [|eauto]. case_bool_decide; [|eauto].
  destruct (as_string (field "kid" header)) as [kid|]; [|eauto].
  destruct (map_get kid keys) as [key|] eqn:E; [|eauto]. destruct (Hbad kid key E) as [-> ->]. eauto.
Qed.

(** A published key set maps every key id to the key it is derived from. *)
Lemma parseKeyset_derived raw keys kid key :
  parseKeyset raw = Ok keys → map_get kid keys = Some key → keyIdFor key = kid.
Proof.
  unfold parseKeyset. set (l := split_on _ _). clearbody l.
  assert (Hgen : ∀ l keys0, (∀ k v, map_get k keys0 = Some v → keyIdFor v = k) →
    parse_entries keys0 l = Ok keys → ∀ k v, map_get k keys = Some v → keyIdFor v = k).
  { clear. intros l. induction l as [|e l IH]; intros keys0 H0 Hp; [by simplify_eq/=|]. cbn [parse_entries] in Hp.
    destruct (trim e) as [|c t] eqn:Et; [by eapply IH|]. rewrite <-Et in Hp. unfold parse_entry in Hp.
    destruct (index_of [":"%char] (trim e)) as [[|i]|]; try done.
    destruct (publicKeyFromBase64 _) as [pk|]; [|done]. case_bool_decide as Hk; [|done].
    eapply IH, Hp. intros k v. rewrite map_get_set. case_decide; [intros [= <-]; congruence|apply H0]. }
  intros Hp Hk. by eapply (Hgen l [] ltac:(done)).
Qed.
End Theorems.

(** ** A model of the class, and witnesses *)

Definition toy_ed25519 : Ed25519.
Proof.
  refine {| PrivateKey := bytes; PublicKey := bytes; createPublicKey k := k; cryptoSign k m := "s"%char :: k ++ m;
            cryptoVerify k m s := bool_decide (s = "s"%char :: k ++ m); spki k := k; from_spki b := Some b;
            sha256_hex b := b |}.
  - intros. by apply bool_decide_eq_true_2.
  - done.
Defined.

Definition toy_input : MintInput := mkMint "github:1" "github:1" [] ["turn:write"] 60 (Some "s1") None.

Lemma verify_mint_witness :
  let e := toy_ed25519 in
  verifyToken (H := e) (mint (H := e) (bytes_of "k1") toy_input 1000 "j")
    [(keyIdFor (H := e) (bytes_of "k1"), bytes_of "k1")] 1060 (Some "turn:write")
  = Ok (claims_json toy_input 1000 "j").
Proof. apply (verify_mint (H := toy_ed25519)); first [done | by vm_compute | set_solver]. Defined.

Lemma verify_sound_witness :
  let e := toy_ed25519 in
  ∃ h p s kid key, mint (H := e) (bytes_of "k1") toy_input 1000 "j" = h ++ DOT :: p ++ DOT :: s
  ∧ map_get kid [(keyIdFor (H := e) (bytes_of "k1"), bytes_of "k1")] = Some key
  ∧ cryptoVerify (Ed25519 := e) key (h ++ DOT :: p) (b64url_decode s) = true.
Proof.
  destruct (verify_sound (H := toy_ed25519) (mint (H := toy_ed25519) (bytes_of "k1") toy_input 1000 "j")
    [(keyIdFor (H := toy_ed25519) (bytes_of "k1"), bytes_of "k1")] 1000 "turn:write" (claims_json toy_input 1000 "j"))
    as (h & p & s & hd & kid & key & exp & H1 & _ & _ & _ & H2 & H3 & _); [by vm_compute|].
  by exists h, p, s, kid, key.
Defined.

Lemma unsigned_payload_unread_witness :
  let e := toy_ed25519 in
  let h := b64url_encode (stringify (header_json "k1")) in
  verifyToken (H := e) (h ++ DOT :: bytes_of "e30" ++ DOT :: bytes_of "AA") [("k1", bytes_of "k1")] 5 None
  = verifyToken (H := e) (h ++ DOT :: bytes_of "AAAA" ++ DOT :: bytes_of "AA") [("k1", bytes_of "k1")] 9 None.
Proof.
  intros e h. apply (unsigned_payload_unread (H := e)); try (by apply b64url_no_dot);
    try (by apply (bool_decide_unpack _)); done.
Defined.
