(* ===== verification/Credentials.v ===== *)
(** * Credentials

    Models [packages/control-plane/src/credential-store.ts]: descriptors, kinds, the checks on
    what may be stored, which credential a session uses, and the in-memory store.  The
    registry of kinds is module state, an argument here.  URL parsing is the platform's
    [URL], a parameter ([URLs]).  The texts of refusals are abridged. *)

From S2P Require Import Prelude JsNumber Json Prog CpBase.

Local Open Scope Z_scope.

(** [Other] values come only from stored descriptors of another version. *)
Inductive Consumer := inference | sandbox_egress | control_plane | other_consumer (s : string).

#[export] Instance Consumer_eq_dec : EqDecision Consumer.
Proof. solve_decision. Defined.

Definition CONSUMERS : list Consumer := [inference; sandbox_egress; control_plane].

Definition consumer_name (c : Consumer) : string :=
  match c with
  | inference => "inference" | sandbox_egress => "sandbox-egress" | control_plane => "control-plane"
  | other_consumer s => s
  end.

Definition consumer_of (s : string) : option Consumer :=
  List.find (fun c => bool_decide (consumer_name c = s)) CONSUMERS.

Record CredentialBinding := mkBinding { header : string; format : string }.

Inductive InferenceAuthHeader := authorization | x_api_key.

#[export] Instance InferenceAuthHeader_eq_dec : EqDecision InferenceAuthHeader.
Proof. solve_decision. Defined.

Definition inferenceAuthHeader (binding : CredentialBinding) (fld : string) : option InferenceAuthHeader :=
  let h := toLowerCase (header binding) in
  if bool_decide (h = "authorization") && bool_decide (format binding = "Bearer {" +:+ fld +:+ "}")
  then Some authorization
  else if bool_decide (h = "x-api-key") && bool_decide (format binding = "{" +:+ fld +:+ "}")
  then Some x_api_key
  else None.

Record URL := mkURL { protocol : string; hostname : string; pathname : string; search : string }.

(** [new URL(s)]: [None] when it throws. *)
Class URLs := url_parse : string → option URL.

Record CredentialDescriptor := mkDescriptor {
  name : string;
  kind : string;
  consumer : Consumer;
  hosts : list string;
  binding : CredentialBinding;
  endpoint : option string;
}.

Record StoredCredential := mkStored {
  descriptor : CredentialDescriptor;
  secret : list (string * string);
}.

Definition invalid (why : string) : thrown := fail invalid_request why.

(** [s.startsWith(p)] *)
Definition startsWith (s p : string) : bool := starts_with (bytes_of p) (bytes_of s).

(** [parts.join(sep)] *)
Fixpoint join_str (sep : string) (l : list string) : string :=
  match l with
  | [] => ""
  | [x] => x
  | x :: l' => x +:+ sep +:+ join_str sep l'
  end.

(** ** Names *)

Definition alnum (c : ascii) : bool :=
  let n := nat_of_ascii c in ((97 <=? n) && (n <=? 122) || (48 <=? n) && (n <=? 57))%nat.

(** [/^[a-z0-9]([a-z0-9-]{0,38}[a-z0-9])?$/] *)
Definition valid_name (s : string) : bool :=
  match bytes_of s with
  | [] => false
  | c :: r => alnum c && match last r with None => true | Some e => alnum e end
              && forallb (fun c => alnum c || bool_decide (c = "-"%char)) r
              && (length r <=? 39)%nat
  end.

Definition validateCredentialName (n : string) : result thrown string :=
  if valid_name n then Ok n
  else Throw (invalid "credential name must match ^[a-z0-9]([a-z0-9-]{0,38}[a-z0-9])?$").

(** ** Kinds *)

Record KindSpec := mkKind { secretFields : list string; defaultBinding : CredentialBinding }.

Abbreviation registry := (list (string * KindSpec)).

Definition KINDS : registry :=
  [("bearer", mkKind ["token"] (mkBinding "Authorization" "Bearer {token}"));
   ("basic", mkKind ["username"; "password"] (mkBinding "Authorization" "Basic {base64(username:password)}"));
   ("api-key", mkKind ["key"] (mkBinding "X-API-Key" "{key}"));
   ("oauth2-token", mkKind ["accessToken"] (mkBinding "Authorization" "Bearer {accessToken}"))].

Definition registerKind (k : string) (spec : KindSpec) (kinds : registry) : registry := map_set k spec kinds.

Definition unregisterKind (k : string) (kinds : registry) : bool * registry :=
  (map_has k kinds, map_delete k kinds).

Definition kindSpec (kinds : registry) (k : string) : result thrown KindSpec :=
  match map_get k kinds with
  | Some spec => Ok spec
  | None => Throw (invalid ("unknown credential kind '" +:+ k +:+ "' (known: " +:+ join_str ", " kinds.*1 +:+ ")"))
  end.

(** ** Bodies *)

Definition isRecord (j : json) : bool := match j with JObj _ => true | _ => false end.

Definition isCredentialBinding (j : json) : option CredentialBinding :=
  match as_string (field "header" j), as_string (field "format" j) with
  | Some h, Some f => if isRecord j then Some (mkBinding h f) else None
  | _, _ => None
  end.

Definition ANTHROPIC_API_HOST : string := "api.anthropic.com".

Definition header_name (h : InferenceAuthHeader) : string :=
  match h with authorization => "authorization" | x_api_key => "x-api-key" end.

Section Bodies.
Context `{URLs} (kinds : registry).

(** The message of a host that is no string prints it; only strings are printed here. *)
Definition validateHost (h : json) : result thrown string :=
  match h with
  | JStr s =>
      if bool_decide (s = "") || existsb (fun c => bool_decide (c ∈ [":"%char; "/"%char; "?"%char; "#"%char])) (bytes_of s)
      then Throw (invalid ("destination.hosts entries must be bare hostnames, got '" +:+ s +:+ "'"))
      else Ok s
  | _ => Throw (invalid "destination.hosts entries must be bare hostnames")
  end.

Fixpoint validate_hosts (l : list json) : result thrown (list string) :=
  match l with
  | [] => Ok []
  | h :: l' => try x <- validateHost h; try r <- validate_hosts l'; Ok (x :: r)
  end.

Definition checkInferenceShape (fld : string) (b : CredentialBinding) (ep : option string) (value : string) :
    result thrown unit :=
  match inferenceAuthHeader b fld with
  | None => Throw (invalid ("an inference credential is sent as 'Authorization: Bearer {" +:+ fld +:+ "}' or "
                            +:+ "'x-api-key: {" +:+ fld +:+ "}'; binding '" +:+ header b +:+ ": " +:+ format b +:+ "' is neither"))
  | Some h =>
      require negb (startsWith value "sk-ant-oat")
        else invalid "Anthropic OAuth tokens are not supported as inference credentials";
      require negb (startsWith value "sk-ant-api" && bool_decide (h = authorization))
        else invalid "an Anthropic API key is read from x-api-key, not Authorization: store it with kind 'api-key'";
      match ep with
      | None | Some "" => Ok tt
      | Some e =>
          match url_parse e with
          | None => Throw Other
          | Some url =>
              if bool_decide (hostname url = ANTHROPIC_API_HOST) then
                require negb (bool_decide (h = authorization))
                  else invalid "api.anthropic.com reads API keys from x-api-key, not Authorization";
                require bool_decide (pathname url = "/") && bool_decide (search url = "")
                  else invalid "the endpoint for api.anthropic.com is the bare origin";
                Ok tt
              else Ok tt
          end
      end
  end.

(** The binding given, or the kind's. *)
Definition parse_binding (spec : KindSpec) (body : json) : result thrown CredentialBinding :=
  match field "binding" body with
  | None => Ok (defaultBinding spec)
  | Some b => match isCredentialBinding b with
              | Some x => Ok x
              | None => Throw (invalid "binding must be { header, format }")
              end
  end.

Definition parse_endpoint (c : Consumer) (body : json) : result thrown (option string) :=
  match field "endpoint" body with
  | None | Some JNull => Ok None
  | Some e =>
      require bool_decide (c = inference) else invalid "endpoint is only valid for consumer: inference";
      match e with
      | JStr s =>
          match url_parse s with
          | None => Throw (invalid "endpoint must be an absolute URL, e.g. https://litellm.internal/v1")
          | Some url =>
              require bool_decide (protocol url = "https:") || bool_decide (protocol url = "http:")
                else invalid "endpoint must be http(s)";
              Ok (Some s)
          end
      | _ => Throw (invalid "endpoint must be a string")
      end
  end.

(** The declared fields' values, in the kind's order. *)
Fixpoint read_fields (given : list (string * json)) (fields : list string) : result thrown (list (string * string)) :=
  match fields with
  | [] => Ok []
  | f :: fields' =>
      match map_get f given with
      | Some (JStr v) =>
          require negb (bool_decide (v = "")) else invalid ("secret." +:+ f +:+ " must be a non-empty string");
          try r <- read_fields given fields'; Ok ((f, v) :: r)
      | _ => Throw (invalid ("secret." +:+ f +:+ " must be a non-empty string"))
      end
  end.

Definition parse_secret (k : string) (spec : KindSpec) (body : json) : result thrown (list (string * string)) :=
  match field "secret" body with
  | Some (JObj given) =>
      require bool_decide (merge_sort String.le given.*1 = merge_sort String.le (secretFields spec))
        else invalid ("kind '" +:+ k +:+ "' requires secret fields: "
                      +:+ join_str ", " (merge_sort String.le (secretFields spec)));
      read_fields given (secretFields spec)
  | _ => Throw (invalid "secret must be an object")
  end.

Definition parseCredentialBody (n : string) (body : json) : result thrown StoredCredential :=
  try _ <- validateCredentialName n;
  require isRecord body else invalid "credential body must be a JSON object";
  match as_string (field "kind" body) with
  | None => Throw (invalid "kind is required")
  | Some k =>
      try spec <- kindSpec kinds k;
      match as_string (field "consumer" body) ≫= consumer_of with
      | None => Throw (invalid ("consumer must be one of " +:+ join_str ", " (consumer_name <$> CONSUMERS)))
      | Some c =>
          require negb (bool_decide (c = inference) && negb (length (secretFields spec) =? 1)%nat)
            else invalid ("consumer 'inference' needs a single-secret-field kind; '" +:+ k +:+ "' declares several");
          match field "destination" body with
          | Some (JObj dest) =>
              match map_get "hosts" dest with
              | Some (JArr (h0 :: hs)) =>
                  try hs' <- validate_hosts (h0 :: hs);
                  try b <- parse_binding spec body;
                  try ep <- parse_endpoint c body;
                  try sec <- parse_secret k spec body;
                  try _ <- (match c, sec with
                            | inference, (f, v) :: _ => checkInferenceShape f b ep v
                            | _, _ => Ok tt
                            end);
                  Ok (mkStored (mkDescriptor n k c hs' b ep) sec)
              | _ => Throw (invalid "destination.hosts must be a non-empty array")
              end
          | _ => Throw (invalid "destination.hosts must be a non-empty array")
          end
      end
  end.
End Bodies.

(** ** Which credential a session uses *)

Definition resolveInferenceName (ds : list CredentialDescriptor) (requested : option string) : result thrown string :=
  match requested with
  | Some r =>
      match List.find (fun d => bool_decide (name d = r)) ds with
      | None => Throw (fail credential_not_found ("no credential named '" +:+ r +:+ "'"))
      | Some d =>
          require bool_decide (consumer d = inference)
            else invalid ("credential '" +:+ r +:+ "' has consumer '" +:+ consumer_name (consumer d) +:+ "', not 'inference'");
          Ok r
      end
  | None =>
      match filter (fun d => consumer d = inference) ds with
      | [] => Throw (fail credential_required "no credential with consumer: inference")
      | [d] => Ok (name d)
      | l => Throw (fail credential_ambiguous
                      ("several inference credentials (" +:+ join_str ", " (name <$> l) +:+ "); name one"))
      end
  end.

(** ** The in-memory store *)

Abbreviation MemoryStore := (gmap string (list (string * StoredCredential))).

Definition mem_put (subject : string) (cred : StoredCredential) (s : MemoryStore) : MemoryStore :=
  <[subject := map_set (name (descriptor cred)) cred (default [] (s !! subject))]> s.

Definition mem_get (subject n : string) (s : MemoryStore) : option StoredCredential :=
  s !! subject ≫= map_get n.

Definition mem_list (subject : string) (s : MemoryStore) : list CredentialDescriptor :=
  descriptor <$> (default [] (s !! subject)).*2.

Definition mem_delete (subject n : string) (s : MemoryStore) : MemoryStore := alter (map_delete n) subject s.

(** ** What is stored *)

Section Stored.
Context `{URLs} (kinds : registry).

Definition bare_host (s : string) : Prop :=
  s ≠ "" ∧ ∀ c, c ∈ bytes_of s → c ∉ [":"%char; "/"%char; "?"%char; "#"%char].

Lemma validateHost_bare h s : validateHost h = Ok s → bare_host s.
Proof.
  destruct h; try done. simpl. destruct (bool_decide (s0 = "")) eqn:E1; [done|].
  destruct (existsb _ _) eqn:E2; [done|]. simpl. intros [= <-]. to_prop. split; [done|].
  intros c Hc Hin. apply not_true_iff_false in E2. apply E2, existsb_exists. exists c.
  split; [by apply list_elem_of_In|by apply bool_decide_eq_true_2].
Qed.

Lemma validate_hosts_bare l hs : validate_hosts l = Ok hs → length hs = length l ∧ Forall bare_host hs.
Proof.
  revert hs. induction l as [|h l IH]; intros hs; simpl; [by intros [= <-]|].
  destruct (validateHost h) as [x|] eqn:E; [|done]. destruct (validate_hosts l) as [r|]; [|done].
  intros [= <-]. destruct (IH r eq_refl) as [Hl Hr]. simpl. split; [by rewrite Hl|].
  constructor; [by eapply validateHost_bare|done].
Qed.

Lemma read_fields_spec given fields r :
  read_fields given fields = Ok r → r.*1 = fields ∧ Forall (fun kv => kv.2 ≠ "") r.
Proof.
  revert r. induction fields as [|f fields IH]; intros r; simpl; [by intros [= <-]|].
  destruct (map_get f given) as [[]|]; try done. case_bool_decide; [done|]. simpl.
  destruct (read_fields given fields) as [r'|]; [|done]. intros [= <-].
  destruct (IH r' eq_refl) as [Hk Hv]. split; [by rewrite fmap_cons, Hk|by constructor].
Qed.

(** An inference credential that can be sent: one secret, a header both the binding and the
    secret fit, and an endpoint that reads that header. *)
Definition sendable (b : CredentialBinding) (ep : option string) (sec : list (string * string)) : Prop :=
  ∃ f v h, sec = [(f, v)] ∧ inferenceAuthHeader b f = Some h
  ∧ startsWith v "sk-ant-oat" = false ∧ (startsWith v "sk-ant-api" = true → h = x_api_key)
  ∧ ∀ e url, ep = Some e → e ≠ "" → url_parse e = Some url → hostname url = ANTHROPIC_API_HOST →
      h = x_api_key ∧ pathname url = "/" ∧ search url = "".

Lemma checkInferenceShape_sendable f v b ep :
  checkInferenceShape f b ep v = Ok tt → sendable b ep [(f, v)].
Proof.
  unfold checkInferenceShape. destruct (inferenceAuthHeader b f) as [h|] eqn:Eh; [|done].
  destruct (startsWith v "sk-ant-oat") eqn:Eo; [done|]. simpl. intros Hc. exists f, v, h.
  assert (Hapi : startsWith v "sk-ant-api" = true → h = x_api_key).
  { intros E. rewrite E in Hc. by destruct h. }
  destruct (negb _); [|done]. split_and!; try done. intros e url -> Hne Hu Hh.
  destruct e as [|c e]; [done|]. rewrite Hu, Hh in Hc. rewrite bool_decide_eq_true_2 in Hc by done.
  destruct h; [done|]. simpl in Hc. destruct (bool_decide (pathname url = "/")) eqn:E1; [|done].
  destruct (bool_decide (search url = "")) eqn:E2; [|done]. by to_prop.
Qed.

Lemma parse_endpoint_inference c body ep : parse_endpoint c body = Ok ep → ep ≠ None → c = inference.
Proof.
  unfold parse_endpoint. destruct (field "endpoint" body) as [[]|]; try (by intros [= <-]);
    (case_bool_decide; [done|by intros]).
Qed.

Lemma parsed_wellformed n body cred :
  parseCredentialBody kinds n body = Ok cred →
  let d := descriptor cred in
  name d = n ∧ valid_name n = true
  ∧ (∃ spec, map_get (kind d) kinds = Some spec ∧ (secret cred).*1 = secretFields spec)
  ∧ Forall (fun kv => kv.2 ≠ "") (secret cred)
  ∧ hosts d ≠ [] ∧ Forall bare_host (hosts d)
  ∧ (endpoint d ≠ None → consumer d = inference)
  ∧ (consumer d = inference → sendable (binding d) (endpoint d) (secret cred)).
Proof.
  unfold parseCredentialBody, validateCredentialName. destruct (valid_name n) eqn:En; [|done]. cbn [result_bind].
  destruct (isRecord body); [|done]. destruct (as_string (field "kind" body)) as [k|]; [|done].
  unfold kindSpec. destruct (map_get k kinds) as [spec|] eqn:Ek; [|done]. cbn [result_bind].
  destruct (as_string (field "consumer" body) ≫= consumer_of) as [c|]; [|done].
  destruct (bool_decide (c = inference) && _) eqn:Ec; [done|]. cbn [negb].
  destruct (field "destination" body) as [[| | | | |dest]|]; try done.
  destruct (map_get "hosts" dest) as [[| | | |[|h0 hs]|]|]; try done.
  destruct (validate_hosts (h0 :: hs)) as [hs'|] eqn:Eh; [|done]. cbn [result_bind].
  destruct (parse_binding spec body) as [b|]; [|done]. cbn [result_bind].
  destruct (parse_endpoint c body) as [ep|] eqn:Ee; [|done]. cbn [result_bind].
  destruct (parse_secret k spec body) as [sec|] eqn:Es; [|done]. cbn [result_bind].
  destruct (validate_hosts_bare _ _ Eh) as [Hl Hb].
  assert (sec.*1 = secretFields spec ∧ Forall (fun kv => kv.2 ≠ "") sec) as [Hk Hv].
  { unfold parse_secret in Es. destruct (field "secret" body) as [[| | | | |given]|]; try done.
    case_bool_decide; [|done]. by eapply read_fields_spec. }
  intros Hc. destruct (match c with inference => _ | _ => _ end) as [[]|] eqn:Eshape; [|done].
  injection Hc as <-. simpl. split_and!; try done.
  - by exists spec.
  - by destruct hs'.
  - by apply parse_endpoint_inference with body.
  - intros ->. rewrite bool_decide_eq_true_2 in Ec by done. apply negb_false_iff, Nat.eqb_eq in Ec.
    rewrite <-Hk, length_fmap in Ec. destruct sec as [|[f v] [|]]; try done.
    by apply checkInferenceShape_sendable.
Qed.

(** C38. Every credential the API accepts has a valid name, a registered kind with exactly its secret
    fields, all non-empty, bare host names, and an endpoint only for inference; one for
    inference can be sent as its binding says. *)
Theorem parsed_credential_wellformed n body cred :
  parseCredentialBody kinds n body = Ok cred →
  let d := descriptor cred in
  name d = n ∧ valid_name n = true
  ∧ (∃ spec, map_get (kind d) kinds = Some spec ∧ (secret cred).*1 = secretFields spec)
  ∧ Forall (fun kv => kv.2 ≠ "") (secret cred)
  ∧ hosts d ≠ [] ∧ Forall bare_host (hosts d)
  ∧ (endpoint d ≠ None → consumer d = inference)
  ∧ (consumer d = inference → sendable (binding d) (endpoint d) (secret cred)).
Proof. apply parsed_wellformed. Qed.
End Stored.

(** A credential that is stored can be found, and only by its own subject. *)
Lemma in_memory_put_get subject cred subject' n s :
  mem_get subject' n (mem_put subject cred s) =
  if decide (subject' = subject ∧ n = name (descriptor cred)) then Some cred else mem_get subject' n s.
Proof.
  unfold mem_get, mem_put. destruct (decide (subject' = subject)) as [->|Hne].
  - rewrite lookup_insert_eq. simpl. rewrite map_get_set. destruct (decide (n = name (descriptor cred))).
    + by rewrite decide_True.
    + rewrite decide_False by naive_solver. by destruct (s !! subject).
  - rewrite lookup_insert_ne by done. by rewrite decide_False by naive_solver.
Qed.

(** ** Witnesses *)

#[local] Instance toy_urls : URLs := fun s =>
  if startsWith s "https://api.anthropic.com" then Some (mkURL "https:" "api.anthropic.com" "/" "")
  else if startsWith s "https://" then Some (mkURL "https:" "gateway.internal" "/" "") else None.

Definition toy_body : json :=
  JObj [("kind", JStr "api-key"); ("consumer", JStr "inference");
        ("destination", JObj [("hosts", JArr [JStr "api.anthropic.com"])]);
        ("endpoint", JStr "https://api.anthropic.com"); ("secret", JObj [("key", JStr "sk-ant-api-1")])].

Definition toy_credential : StoredCredential :=
  mkStored (mkDescriptor "main" "api-key" inference ["api.anthropic.com"] (mkBinding "X-API-Key" "{key}")
              (Some "https://api.anthropic.com")) [("key", "sk-ant-api-1")].

Lemma parsed_credential_wellformed_witness :
  sendable (binding (descriptor toy_credential)) (endpoint (descriptor toy_credential)) (secret toy_credential).
Proof.
  apply (parsed_credential_wellformed KINDS "main" toy_body toy_credential); by vm_compute.
Defined.
