(* ===== verification/Envelope.v ===== *)
(** * Sealed credentials

    Models [packages/control-plane/src/envelope.ts] (envelope encryption under a ring of
    keys) and [subject-document.ts] (one JSON document per subject, with the sealed secret of
    each credential beside its descriptor).  AES-256-GCM is the platform's: the class [AesGcm]
    has the laws of an authenticated cipher, that decryption inverts encryption and that no
    other key or associated data opens what one sealed. *)

From Stdlib Require Import QArith.
From S2P Require Import Prelude Base64 JsNumber Json JsonText Prog CpBase Credentials.

Local Open Scope Z_scope.

Class AesGcm := {
  gcm_encrypt : bytes → bytes → bytes → bytes → bytes * bytes;            (* key iv aad text: ciphertext, tag *)
  gcm_decrypt : bytes → bytes → bytes → bytes → bytes → option bytes;     (* key iv aad tag ciphertext *)
  gcm_roundtrip : ∀ k iv aad pt,
    let '(ct, tag) := gcm_encrypt k iv aad pt in gcm_decrypt k iv aad tag ct = Some pt;
  gcm_authentic : ∀ k iv aad pt k' aad' pt',
    let '(ct, tag) := gcm_encrypt k iv aad pt in
    gcm_decrypt k' iv aad' tag ct = Some pt' → k' = k ∧ aad' = aad;
}.

Definition KEK_BYTES : nat := 32.
Definition VERSION : bytes := bytes_of "v1".

Inductive envelope_error :=
| KekUnset
| KekLength (entry : nat) (len : nat)
| NoKek
| Malformed
| BadVersion (v : bytes)
| DecryptFailed (name : string).

Definition check_kek (i : nat) (entry : bytes) : result envelope_error bytes :=
  let kek := b64url_decode entry in
  if (length kek =? KEK_BYTES)%nat then Ok kek else Throw (KekLength (i + 1) (length kek)).

Fixpoint check_keks (i : nat) (entries : list bytes) : result envelope_error (list bytes) :=
  match entries with
  | [] => Ok []
  | e :: rest => try k <- check_kek i e; try ks <- check_keks (S i) rest; Ok (k :: ks)
  end.

Definition keksFromBase64 (raw : option bytes) : result envelope_error (list bytes) :=
  match filter (fun e => e ≠ []) (trim <$> split_on [","%char] (default [] raw)) with
  | [] => Throw KekUnset
  | entries => check_keks 0 entries
  end.

Definition credentialAad (subject n : string) : bytes := bytes_of (subject +:+ "|" +:+ n).

(** The fields of a document that passed [parseDocument]. *)
Abbreviation SubjectDocument := (list (string * json)).

Section Envelope.
Context `{AesGcm}.

(** [iv] is the random nonce. *)
Definition seal (keks : list bytes) (iv : bytes) (subject n : string) (plaintext : bytes) :
    result envelope_error bytes :=
  match keks with
  | [] => Throw NoKek
  | primary :: _ =>
      let '(ct, tag) := gcm_encrypt primary iv (credentialAad subject n) plaintext in
      Ok (join_char "." [VERSION; b64url_encode iv; b64url_encode tag; b64url_encode ct])
  end.

Fixpoint try_keys (i : nat) (keks : list bytes) (iv aad tag ct : bytes) : option (bytes * nat) :=
  match keks with
  | [] => None
  | kek :: rest =>
      match gcm_decrypt kek iv aad tag ct with
      | Some plaintext => Some (plaintext, i)
      | None => try_keys (S i) rest iv aad tag ct
      end
  end.

(** The plaintext, and which key of the ring opened it. *)
Definition open (keks : list bytes) (subject n : string) (sealed : bytes) : result envelope_error (bytes * nat) :=
  match split_on ["."%char] sealed with
  | [version; ivB64; tagB64; ctB64] =>
      if bool_decide (version = VERSION) then
        match try_keys 0 keks (b64url_decode ivB64) (credentialAad subject n) (b64url_decode tagB64) (b64url_decode ctB64) with
        | Some r => Ok r
        | None => Throw (DecryptFailed n)
        end
      else Throw (BadVersion version)
  | _ => Throw Malformed
  end.

(** ** Subject documents *)

Definition emptyDocument : SubjectDocument := [("v", JNum 1); ("credentials", JObj [])].

Definition parseDocument (raw : json) : result thrown SubjectDocument :=
  let bad := Throw (fail credential_unavailable "the credential store returned an unexpected shape") in
  match raw with
  | JObj fs =>
      match map_get "v" fs, map_get "credentials" fs with
      | Some (JNum v), Some (JObj _) => if Qeq_bool v 1 then Ok fs else bad
      | _, _ => bad
      end
  | _ => bad
  end.

Definition credentials (doc : SubjectDocument) : list (string * json) :=
  match map_get "credentials" doc with Some (JObj cs) => cs | _ => [] end.

Definition binding_json (b : CredentialBinding) : json :=
  JObj [("header", JStr (header b)); ("format", JStr (format b))].

Definition descriptor_json (d : CredentialDescriptor) : json :=
  JObj [("name", JStr (name d)); ("kind", JStr (kind d)); ("consumer", JStr (consumer_name (consumer d)));
        ("destination", JObj [("hosts", JArr (JStr <$> hosts d))]); ("binding", binding_json (binding d));
        ("endpoint", match endpoint d with Some e => JStr e | None => JNull end)].

(** A stored value read at the type the code gives it; a member of another type counts as absent. *)
Definition strings (l : list json) : list string :=
  omap (fun x => match x with JStr s => Some s | _ => None end) l.

Definition read_consumer (s : string) : Consumer := default (other_consumer s) (consumer_of s).

Record Entry := mkEntry { e_descriptor : CredentialDescriptor; e_sealed : string }.

Definition parseEntry (n : string) (entry : json) : option Entry :=
  match as_string (field "sealed" entry), field "descriptor" entry with
  | Some sealed, Some (JObj d) =>
      match map_get "name" d, map_get "kind" d, map_get "consumer" d, map_get "destination" d, map_get "binding" d with
      | Some (JStr n'), Some (JStr k), Some (JStr c), Some (JObj dest), Some (JObj b) =>
          match map_get "hosts" dest with
          | Some (JArr hs) =>
              if bool_decide (n' = n) then
                Some (mkEntry (mkDescriptor n k (read_consumer c) (strings hs)
                                 (mkBinding (default "" (as_string (map_get "header" b)))
                                            (default "" (as_string (map_get "format" b))))
                                 (as_string (map_get "endpoint" d))) sealed)
              else None
          | _ => None
          end
      | _, _, _, _, _ => None
      end
  | _, _ => None
  end.

Definition secret_json (s : list (string * string)) : json := JObj (prod_map id JStr <$> s).

Definition withCredential (doc : SubjectDocument) (keks : list bytes) (iv : bytes) (subject : string)
    (cred : StoredCredential) : result thrown SubjectDocument :=
  let d := descriptor cred in
  match seal keks iv subject (name d) (stringify (secret_json (secret cred))) with
  | Throw _ => Throw Other
  | Ok sealed =>
      let entry := JObj [("descriptor", descriptor_json d); ("sealed", JStr (string_of sealed))] in
      Ok (map_set "credentials" (JObj (map_set (name d) entry (credentials doc))) doc)
  end.

Definition withoutCredential (doc : SubjectDocument) (n : string) : SubjectDocument :=
  map_set "credentials" (JObj (map_delete n (credentials doc))) doc.

(** [localeCompare] is a parameter: the order of the listing is the platform's collation. *)
Definition describeAll (collate : string → string → bool) (doc : SubjectDocument) : list CredentialDescriptor :=
  merge_sort (fun a b => collate (name a) (name b))
    (omap (fun x => e_descriptor <$> parseEntry x.1 x.2) (credentials doc)).

(** [openOrBlameSubject]: either failure is a plain error, which reaches no caller. *)
Definition openOrBlameSubject (keks : list bytes) (subject n : string) (sealed : bytes) : result thrown bytes :=
  match open keks subject n sealed with Throw _ => Throw Other | Ok (plaintext, _) => Ok plaintext end.

(** [JSON.parse(plaintext) as Record<string, string>] *)
Definition secret_of (plaintext : bytes) : result thrown (list (string * string)) :=
  match parse plaintext with
  | Some (JObj fs) => Ok (omap (fun x => pair x.1 <$> as_string (Some x.2)) fs)
  | Some _ => Ok []
  | None => Throw Other
  end.

Definition readCredential (doc : SubjectDocument) (keks : list bytes) (subject n : string) :
    result thrown (option StoredCredential) :=
  match map_get n (credentials doc) with
  | None => Ok None
  | Some entry =>
      match parseEntry n entry with
      | None => Ok None
      | Some e =>
          try plaintext <- openOrBlameSubject keks subject n (bytes_of (e_sealed e));
          try s <- secret_of plaintext;
          Ok (Some (mkStored (e_descriptor e) s))
      end
  end.
End Envelope.

(** ** Sealing and opening *)

Section Sealing.
Context `{AesGcm}.

Lemma cut_unique (c : ascii) a x b y : c ∉ a → c ∉ b → a ++ c :: x = b ++ c :: y → a = b ∧ x = y.
Proof.
  intros Ha Hb E. assert (a = b) as ->.
  { apply (f_equal (split_char c)) in E. rewrite !split_char_app in E by done. by injection E. }
  split; [done|]. apply app_inv_head in E. by injection E.
Qed.

#[local] Instance bytes_of_inj : Inj (=) (=) bytes_of.
Proof. intros s t E. by rewrite <-(string_of_bytes s), E, string_of_bytes. Qed.

(** The associated data names one subject and one credential: a valid name has no bar. *)
Lemma aad_injective subject n subject' n' :
  "|"%char ∉ bytes_of n → "|"%char ∉ bytes_of n' →
  credentialAad subject n = credentialAad subject' n' → subject = subject' ∧ n = n'.
Proof.
  unfold credentialAad. rewrite !bytes_of_app. intros Hn Hn' E. apply (f_equal reverse) in E.
  change (bytes_of "|") with ["|"%char] in E. rewrite !reverse_app, <-!app_assoc in E.
  apply cut_unique in E as [E1 E2]; [|by rewrite elem_of_reverse..].
  apply (inj reverse), (inj bytes_of) in E1, E2. done.
Qed.

Lemma valid_name_no_bar n : valid_name n = true → ("|"%char ∉ bytes_of n) ∧ ("."%char ∉ bytes_of n).
Proof.
  unfold valid_name. destruct (bytes_of n) as [|c r]; [done|].
  rewrite !andb_true_iff, List.forallb_forall. intros [[[Hc _] Hr] _].
  split; intros [<-|Hin]%elem_of_cons; try done; apply list_elem_of_In, Hr in Hin; done.
Qed.

Definition sealed_parts (iv tag ct : bytes) : bytes :=
  join_char "." [VERSION; b64url_encode iv; b64url_encode tag; b64url_encode ct].

Lemma open_parts keks subject n iv tag ct :
  open keks subject n (sealed_parts iv tag ct) =
  match try_keys 0 keks iv (credentialAad subject n) tag ct with
  | Some r => Ok r
  | None => Throw (DecryptFailed n)
  end.
Proof.
  unfold open, sealed_parts. cbn [join_char]. rewrite split_on_char.
  rewrite !split_char_app, split_char_none; [|apply b64url_no_dot..|by apply (bool_decide_unpack _)].
  rewrite bool_decide_eq_true_2 by done. by rewrite !b64url_roundtrip.
Qed.

Lemma open_sealed newer k older old_ring iv subject n pt sealed :
  k ∉ newer → seal (k :: old_ring) iv subject n pt = Ok sealed →
  open (newer ++ k :: older) subject n sealed = Ok (pt, length newer).
Proof.
  intros Hk. unfold seal. destruct (gcm_encrypt k iv (credentialAad subject n) pt) as [ct tag] eqn:E.
  intros [= <-]. etransitivity; [apply (open_parts _ _ _ iv tag ct)|].
  assert (Ht : ∀ i, try_keys i (newer ++ k :: older) iv (credentialAad subject n) tag ct = Some (pt, (i + length newer)%nat)).
  { induction newer as [|k' l IH]; intros i; simpl.
    - pose proof (gcm_roundtrip k iv (credentialAad subject n) pt) as Hr. rewrite E in Hr. rewrite Hr.
      by rewrite Nat.add_0_r.
    - destruct (gcm_decrypt k' iv (credentialAad subject n) tag ct) as [pt'|] eqn:Ed.
      + pose proof (gcm_authentic k iv (credentialAad subject n) pt k' (credentialAad subject n) pt') as Ha.
        rewrite E in Ha. destruct (Ha Ed) as [-> _]. set_solver.
      + rewrite IH by set_solver. by rewrite Nat.add_succ_r. }
  by rewrite Ht.
Qed.

(** What a key sealed is opened by a ring in which it stands behind any number of newer keys,
    and the answer says at which place. *)
Theorem open_seal_rotated newer k older old_ring iv subject n pt sealed :
  k ∉ newer → seal (k :: old_ring) iv subject n pt = Ok sealed →
  open (newer ++ k :: older) subject n sealed = Ok (pt, length newer).
Proof. apply open_sealed. Qed.

(** A sealed secret moved to another subject or another name, by someone who can write the
    store, is opened by no ring whatsoever. *)
Theorem relabelled_refused keks ring iv subject n subject' n' pt sealed :
  valid_name n = true → valid_name n' = true → (subject', n') ≠ (subject, n) →
  seal ring iv subject n pt = Ok sealed →
  open keks subject' n' sealed = Throw (DecryptFailed n').
Proof.
  intros Hn%valid_name_no_bar Hn'%valid_name_no_bar Hne. unfold seal. destruct ring as [|k ring]; [done|].
  destruct (gcm_encrypt k iv (credentialAad subject n) pt) as [ct tag] eqn:E.
  intros [= <-]. etransitivity; [apply (open_parts _ _ _ iv tag ct)|].
  assert (Ht : ∀ i, try_keys i keks iv (credentialAad subject' n') tag ct = None).
  { induction keks as [|k' l IH]; intros i; simpl; [done|].
    destruct (gcm_decrypt k' iv (credentialAad subject' n') tag ct) as [pt'|] eqn:Ed; [|apply IH].
    pose proof (gcm_authentic k iv (credentialAad subject n) pt k' (credentialAad subject' n') pt') as Ha.
    rewrite E in Ha. destruct (Ha Ed) as [_ Haad]. apply aad_injective in Haad as [-> ->]; naive_solver. }
  by rewrite Ht.
Qed.

(** ** Documents *)

Lemma read_consumer_name c : (∀ s, c ≠ other_consumer s) → read_consumer (consumer_name c) = c.
Proof. destruct c as [| | |s]; try done. intros Hs. by destruct (Hs s). Qed.

Lemma strings_JStr (l : list string) : strings (JStr <$> l) = l.
Proof. induction l as [|x l IH]; [done|]. unfold strings in *. simpl. by f_equal. Qed.

Lemma parseEntry_written d sealed :
  (∀ s, consumer d ≠ other_consumer s) →
  parseEntry (name d) (JObj [("descriptor", descriptor_json d); ("sealed", JStr sealed)]) = Some (mkEntry d sealed).
Proof.
  intros Hc. unfold parseEntry, descriptor_json, binding_json. simpl.
  rewrite bool_decide_eq_true_2 by done. rewrite read_consumer_name, strings_JStr by done.
  destruct d as [nm k c hs [h f] [e|]]; done.
Qed.

Lemma secret_json_serialisable (s : list (string * string)) : NoDup s.*1 → serialisable (secret_json s) = true.
Proof.
  intros Hs. unfold secret_json. simpl. rewrite bool_decide_eq_true_2.
  - simpl. apply List.forallb_forall. intros x ([k v] & -> & _)%list_elem_of_In%list_elem_of_fmap. done.
  - rewrite <-list_fmap_compose. by rewrite (list_fmap_ext _ fst).
Qed.

Lemma read_secret (s : list (string * string)) : omap (fun x : string * json => pair x.1 <$> as_string (Some x.2)) (prod_map id JStr <$> s) = s.
Proof. induction s as [|[k v] s IH]; [done|]. simpl. by f_equal. Qed.

(** What was sealed is read back with the ring it was sealed with. *)
Lemma open_written keks iv subject n (sec : list (string * string)) sealed :
  NoDup sec.*1 → seal keks iv subject n (stringify (secret_json sec)) = Ok sealed →
  (try plaintext <- openOrBlameSubject keks subject n sealed; secret_of plaintext) = Ok sec.
Proof.
  intros Hs Es. destruct keks as [|k ks]; [done|].
  pose proof (open_sealed [] k ks ks iv _ _ _ _ ltac:(set_solver) Es) as Hopen. cbn [app length] in Hopen.
  unfold openOrBlameSubject, secret_of. rewrite Hopen. cbn [result_bind].
  rewrite parse_stringify by (by apply secret_json_serialisable). unfold secret_json. by rewrite read_secret.
Qed.

Lemma credentials_set cs doc : credentials (map_set "credentials" (JObj cs) doc) = cs.
Proof. unfold credentials. by rewrite map_get_set, decide_True. Qed.

Lemma document_put doc keks iv subject cred doc' :
  NoDup (secret cred).*1 → (∀ s, consumer (descriptor cred) ≠ other_consumer s) →
  withCredential doc keks iv subject cred = Ok doc' →
  readCredential doc' keks subject (name (descriptor cred)) = Ok (Some cred)
  ∧ (∀ n, n ≠ name (descriptor cred) → map_get n (credentials doc') = map_get n (credentials doc))
  ∧ (∀ n, n ≠ name (descriptor cred) → readCredential doc' keks subject n = readCredential doc keks subject n)
  ∧ (∀ f, f ≠ "credentials" → map_get f doc' = map_get f doc).
Proof.
  intros Hs Hc. unfold withCredential. destruct (seal _ _ _ _ _) as [sealed|] eqn:Es; [|done]. intros [= <-].
  assert (Hother : ∀ n, n ≠ name (descriptor cred) → map_get n (credentials (map_set "credentials"
    (JObj (map_set (name (descriptor cred)) (JObj [("descriptor", descriptor_json (descriptor cred)); ("sealed", JStr (string_of sealed))])
       (credentials doc))) doc)) = map_get n (credentials doc)).
  { intros n Hn. by rewrite credentials_set, map_get_set, decide_False. }
  split_and!.
  - unfold readCredential. rewrite credentials_set, map_get_set, decide_True by done.
    rewrite parseEntry_written by done. cbn [e_sealed e_descriptor]. rewrite bytes_string.
    pose proof (open_written _ _ _ _ _ _ Hs Es) as Ho.
    destruct (openOrBlameSubject _ _ _ _) as [pt|]; [|done]. cbn in Ho |- *. rewrite Ho.
    by destruct cred.
  - done.
  - intros n Hn. unfold readCredential. by rewrite Hother.
  - intros f Hf. by rewrite map_get_set, decide_False.
Qed.

(** Storing a credential in a subject's document: it is read back as it was, every other
    credential and every other member of the document, of whatever version, is left as it was. *)
Theorem document_put_get doc keks iv subject cred doc' :
  NoDup (secret cred).*1 → (∀ s, consumer (descriptor cred) ≠ other_consumer s) →
  withCredential doc keks iv subject cred = Ok doc' →
  readCredential doc' keks subject (name (descriptor cred)) = Ok (Some cred)
  ∧ (∀ n, n ≠ name (descriptor cred) → map_get n (credentials doc') = map_get n (credentials doc))
  ∧ (∀ n, n ≠ name (descriptor cred) → readCredential doc' keks subject n = readCredential doc keks subject n)
  ∧ (∀ f, f ≠ "credentials" → map_get f doc' = map_get f doc).
Proof. apply document_put. Qed.

(** Removing one leaves the rest. *)
Lemma document_delete doc n keks subject :
  readCredential (withoutCredential doc n) keks subject n = Ok None
  ∧ ∀ n', n' ≠ n → readCredential (withoutCredential doc n) keks subject n' = readCredential doc keks subject n'.
Proof.
  unfold readCredential, withoutCredential. rewrite credentials_set, map_get_delete, decide_True by done.
  split; [done|]. intros n' Hn. by rewrite map_get_delete, decide_False.
Qed.
End Sealing.

(** ** A model of the class, and witnesses *)

(** The tag spells out the key and the associated data. *)
Definition toy_tag (k aad : bytes) : bytes := (k ≫= fun c => ["1"%char; c]) ++ "0"%char :: aad.

Lemma toy_tag_inj k aad k' aad' : toy_tag k aad = toy_tag k' aad' → k = k' ∧ aad = aad'.
Proof.
  unfold toy_tag. revert k'. induction k as [|c k IH]; intros [|c' k'] E; simplify_eq/=; [done|].
  destruct (IH k') as [-> ->]; [|done]. done.
Qed.

Definition toy_gcm : AesGcm.
Proof.
  refine {| gcm_encrypt k iv aad pt := (pt, toy_tag k aad);
            gcm_decrypt k iv aad tag ct := if bool_decide (tag = toy_tag k aad) then Some ct else None |}.
  - intros. by rewrite bool_decide_eq_true_2.
  - intros k iv aad pt k' aad' pt'. case_bool_decide as E; [|done]. intros _. by apply toy_tag_inj in E as [-> ->].
Defined.

Lemma open_seal_rotated_witness :
  let g := toy_gcm in
  ∃ sealed, seal (H := g) [bytes_of "old"] (bytes_of "iv") "github:1" "main" (bytes_of "secret") = Ok sealed
  ∧ open (H := g) [bytes_of "new"; bytes_of "old"] "github:1" "main" sealed = Ok (bytes_of "secret", 1%nat).
Proof.
  eexists. split; [reflexivity|].
  apply (open_seal_rotated (H := toy_gcm) [bytes_of "new"] (bytes_of "old") [] [] (bytes_of "iv")); [|reflexivity].
  by apply (bool_decide_unpack _).
Defined.

Lemma relabelled_refused_witness :
  let g := toy_gcm in
  ∃ sealed, seal (H := g) [bytes_of "k"] (bytes_of "iv") "github:1" "main" (bytes_of "secret") = Ok sealed
  ∧ open (H := g) [bytes_of "k"] "github:2" "main" sealed = Throw (DecryptFailed "main").
Proof.
  eexists. split; [reflexivity|].
  by apply (relabelled_refused (H := toy_gcm) _ [bytes_of "k"] (bytes_of "iv") "github:1" "main" _ _ (bytes_of "secret")).
Defined.

Lemma document_put_get_witness :
  let g := toy_gcm in
  ∃ doc', withCredential (H := g) emptyDocument [bytes_of "k"] (bytes_of "iv") "github:1" toy_credential = Ok doc'
  ∧ readCredential (H := g) doc' [bytes_of "k"] "github:1" "main" = Ok (Some toy_credential).
Proof.
  eexists. split; [reflexivity|].
  apply (document_put_get (H := toy_gcm) emptyDocument [bytes_of "k"] (bytes_of "iv") "github:1" toy_credential);
    [by apply (bool_decide_unpack _)|done|reflexivity].
Defined.
