(* ===== verification/Stores.v ===== *)
(** * The Vault credential store

    Models [packages/control-plane/src/vault-store.ts].  Each operation is a tree of calls:
    reading the Vault token, one HTTP request, drawing a nonce.  Vault's KV v2 engine is the class [KvServer]: every path has a history of
    versions that only grows, whoever writes; a read answers the latest version; a write with
    check-and-set is accepted exactly as the successor of the version it names. *)

From Stdlib Require Import QArith.
From S2P Require Import Prelude Base64 JsNumber Json JsonText Prog CpBase Credentials Envelope.

Local Open Scope Z_scope.

(** ** Calls *)

Inductive vcall :=
| ReadToken                                          (* [this.token()] *)
| Fetch (post : bool) (url : string) (body : option (Q * list (string * json)))
    (* the body, if any, is [{options: {cas}, data}] *)
| Nonce.                                            (* [randomBytes(12)] *)

Definition vanswer (c : vcall) : Type :=
  match c with
  | ReadToken => result unit string
  | Fetch _ _ _ => result unit (Z * bytes)            (* rejected, or status and body text *)
  | Nonce => bytes
  end.

Abbreviation vprog := (prog vcall vanswer thrown).

Definition unanswered : thrown := fail credential_unavailable "the credential store is not answering".

Definition CAS_ATTEMPTS : nat := 5.

(** Leading and trailing slashes cut off. *)
Definition is_slash (c : ascii) : bool := bool_decide (c = "/"%char).

Fixpoint drop_slashes (s : bytes) : bytes :=
  match s with
  | c :: s' => if is_slash c then drop_slashes s' else s
  | [] => []
  end.

Definition trimSlashes (s : bytes) : bytes := rev (drop_slashes (rev (drop_slashes s))).

Section Vault.
Context `{AesGcm} (base : string) (subjectHash : string → string) (keks : list bytes).
Context (collate : string → string → bool).

Definition url (subject : string) : string := base +:+ "/" +:+ subjectHash subject.

(** [call]: the status and the parsed body, [null] when it is empty. *)
Definition call (post : bool) (u : string) (body : option (Q * SubjectDocument)) : vprog (Z * json) :=
  Call ReadToken (fun t =>
    match t with
    | Throw _ => Err unanswered
    | Ok _ =>
        Call (Fetch post u body) (fun r =>
          match r with
          | Throw _ => Err unanswered
          | Ok (status, []) => Ret (status, JNull)
          | Ok (status, text) =>
              match parse text with
              | Some j => Ret (status, j)
              | None => Err (fail credential_unavailable "the credential store returned a non-JSON body")
              end
          end)
    end).

(** [json?.data] and [data?.metadata?.version], 0 when that is not a number. *)
Definition response_data (j : json) : json := default JNull (field "data" j).

Definition response_version (data : json) : Q :=
  default 0%Q (as_number (field "version" (default JNull (field "metadata" data)))).

Definition answered (status : Z) : thrown :=
  fail credential_unavailable ("the credential store answered " +:+ string_of (dec_signed status)).

(** The document in the answer, if there is one. *)
Definition stored_document (d : option json) : result thrown (option SubjectDocument) :=
  match d with
  | None | Some JNull => Ok None
  | Some d => match parseDocument d with Ok doc => Ok (Some doc) | Throw e => Throw e end
  end.

Definition read (subject : string) : vprog (option SubjectDocument * Q) :=
  await r <- call false (url subject) None;
  let '(status, j) := r in
  let data := response_data j in
  let version := response_version data in
  if status =? 404 then Ret (None, version)
  else if negb (status =? 200) then Err (answered status)
  else match stored_document (field "data" data) with
       | Ok doc => Ret (doc, version)
       | Throw e => Err e
       end.

(** What an update does to the document: [null] is "nothing to write". *)
Inductive Change := Put (cred : StoredCredential) | Delete (n : string).

Definition change (subject : string) (c : Change) (doc : option SubjectDocument) : vprog (option SubjectDocument) :=
  match c with
  | Put cred =>
      Call Nonce (fun iv =>
        match withCredential (default emptyDocument doc) keks iv subject cred with
        | Ok d => Ret (Some d)
        | Throw e => Err e
        end)
  | Delete n =>
      match doc with
      | Some d => Ret (if map_has n (credentials d) then Some (withoutCredential d n) else None)
      | None => Ret None
      end
  end.

Definition isCasMismatch (j : json) : bool :=
  match field "errors" j with
  | Some (JArr es) => existsb (fun e => match e with JStr s => contains (bytes_of "check-and-set") (bytes_of s) | _ => false end) es
  | _ => false
  end.

(** [attempts] are left. *)
Fixpoint updateOnce (attempts : nat) (subject : string) (c : Change) : vprog unit :=
  match attempts with
  | O => Err (fail credential_unavailable "the credential store kept losing a concurrent-write race; retry")
  | S attempts' =>
      await dv <- read subject;
      await next <- change subject c dv.1;
      match next with
      | None => Ret tt
      | Some d =>
          await r <- call true (url subject) (Some (dv.2, d));
          let '(status, j) := r in
          if (status =? 200) || (status =? 204) then Ret tt
          else if (status =? 400) && isCasMismatch j then updateOnce attempts' subject c
          else Err (answered status)
      end
  end.

Definition vault_put (subject : string) (cred : StoredCredential) : vprog unit :=
  updateOnce CAS_ATTEMPTS subject (Put cred).

Definition vault_delete (subject n : string) : vprog unit := updateOnce CAS_ATTEMPTS subject (Delete n).

Definition vault_get (subject n : string) : vprog (option StoredCredential) :=
  await dv <- read subject;
  match dv.1 with
  | None => Ret None
  | Some doc => match readCredential doc keks subject n with Ok r => Ret r | Throw e => Err e end
  end.

Definition vault_list (subject : string) : vprog (list CredentialDescriptor) :=
  await dv <- read subject;
  Ret (match dv.1 with Some doc => describeAll collate doc | None => [] end).
End Vault.

(** ** Vault's versions *)

(** Every version ever written at a path, oldest first; [None] was deleted out of band. *)
Class KvServer (St : Type) := {
  history : St → string → list (option json);
  served : ∀ c : vcall, St → vanswer c → St → Prop;
  history_grows : ∀ c s a s' u, served c s a s' → history s u `prefix_of` history s' u;
  get_found : ∀ u b s text s', served (Fetch false u b) s (Ok (200, text)) s' →
    ∃ h doc j, history s u `prefix_of` h ∧ h `prefix_of` history s' u ∧ last h = Some (Some doc)
    ∧ parse text = Some j ∧ field "data" (response_data j) = Some doc
    ∧ (response_version (response_data j) == inject_Z (Z.of_nat (length h)))%Q;
  get_absent : ∀ u b s text s', served (Fetch false u b) s (Ok (404, text)) s' →
    ∃ h, history s u `prefix_of` h ∧ h `prefix_of` history s' u ∧ (last h = None ∨ last h = Some None)
    ∧ (text = [] → h = [])
    ∧ ∀ j, parse text = Some j → (response_version (response_data j) == inject_Z (Z.of_nat (length h)))%Q;
  cas_accepted : ∀ u v d s status text s',
    served (Fetch true u (Some (v, d))) s (Ok (status, text)) s' → status = 200 ∨ status = 204 →
    ∃ h, history s u `prefix_of` h ∧ (h ++ [Some (JObj d)]) `prefix_of` history s' u
    ∧ (v == inject_Z (Z.of_nat (length h)))%Q;
}.

Section VaultTheorems.
Context `{AesGcm} `{KvServer St} (base : string) (subjectHash : string → string) (keks : list bytes).
Implicit Types (s : St).

(** The document a version holds. *)
Definition reads_as (v : option (option json)) : result thrown (option SubjectDocument) :=
  stored_document (mjoin v).

Abbreviation U subject := (url base subjectHash subject).

Lemma always_call post u body (Q : result thrown (Z * json) → St → Prop) s :
  (∀ s' e, history s u `prefix_of` history s' u → Q (Throw e) s') →
  (∀ s1 s' status text j, history s u `prefix_of` history s1 u →
     served (Fetch post u body) s1 (Ok (status, text)) s' →
     (text = [] ∧ j = JNull ∨ parse text = Some j) → Q (Ok (status, j)) s') →
  always served (fun _ => True) (call post u body) Q s.
Proof.
  intros Hthrow Hok. split; [done|]. intros [t|[]] s1 Hs1; simpl.
  - split; [done|]. pose proof (history_grows _ _ _ _ u Hs1) as H1.
    intros a s2 Hs2. pose proof (history_grows _ _ _ _ u Hs2) as H2. destruct a as [[status text]|[]]; simpl.
    + destruct text as [|c text]; [split; [done|]; eapply Hok; eauto|].
      destruct (parse (c :: text)) as [j|] eqn:Ep; (split; [done|]); [eapply Hok; eauto|].
      apply Hthrow. by etrans.
    + split; [done|]. apply Hthrow. by etrans.
  - split; [done|]. apply Hthrow. by apply (history_grows _ _ _ _ u Hs1).
Qed.

(** A read answers the document of a version that was the latest while it ran. *)
Lemma always_read subject s :
  always served (fun _ => True) (read base subjectHash subject)
    (fun o s' => history s (U subject) `prefix_of` history s' (U subject) ∧
       match o with
       | Ok (d, v) => ∃ h, history s (U subject) `prefix_of` h ∧ h `prefix_of` history s' (U subject)
                      ∧ reads_as (last h) = Ok d ∧ (v == inject_Z (Z.of_nat (length h)))%Q
       | Throw _ => True
       end) s.
Proof.
  unfold read. apply always_bind, always_call; [done|]. intros s1 s' status text j Hs1 Hserved Hj.
  pose proof (history_grows _ _ _ _ (U subject) Hserved) as Hg.
  assert (Hp : history s (U subject) `prefix_of` history s' (U subject)) by (by etrans).
  destruct (Z.eqb_spec status 404) as [->|H404].
  - split; [done|]. split; [done|]. apply get_absent in Hserved as (h & Hh1 & Hh2 & Hl & He & Hv).
    exists h. split_and!; [by transitivity (history s1 (U subject))|done|by destruct Hl as [->| ->]|].
    destruct Hj as [[-> ->]|Hj]; [by rewrite He|by apply Hv].
  - destruct (Z.eqb_spec status 200) as [->|H200]; [|by split].
    apply get_found in Hserved as (h & doc & j' & Hh1 & Hh2 & Hl & Hp' & Hd & Hv).
    assert (j = j') as <-. { destruct Hj as [[-> ->]|Hj]; [by vm_compute in Hp'|congruence]. }
    rewrite Hd. cbn [negb]. destruct (stored_document (Some doc)) as [d|e] eqn:E; [|by split].
    split; [done|]. split; [done|]. exists h. split_and!; [by transitivity (history s1 (U subject))|done| |done].
    by rewrite Hl.
Qed.

Lemma always_change subject c d s :
  always served (fun _ => True) (change keks subject c d)
    (fun o s' => history s (U subject) `prefix_of` history s' (U subject)
                 ∧ ∃ tr, runs (change keks subject c d) tr o) s.
Proof.
  destruct c as [cred|n]; simpl.
  - split; [done|]. intros iv s' Hs. pose proof (history_grows _ _ _ _ (U subject) Hs).
    destruct (withCredential _ _ _ _ _) as [d'|e] eqn:E; (split; [done|]; split; [done|]);
      exists [ev Nonce iv]; apply runs_call; rewrite E; constructor.
  - destruct d as [d|]; (split; [done|]; split; [done|]); exists []; constructor.
Qed.

(** The version an update wrote, or the one that left it nothing to write. *)
Definition update_landed (subject : string) (c : Change) s s' : Prop :=
  (∃ h d d' tr, history s (U subject) `prefix_of` h
     ∧ (h ++ [Some (JObj d')]) `prefix_of` history s' (U subject)
     ∧ reads_as (last h) = Ok d ∧ runs (change keks subject c d) tr (Ok (Some d')))
  ∨ (∃ h d tr, history s (U subject) `prefix_of` h ∧ h `prefix_of` history s' (U subject)
     ∧ reads_as (last h) = Ok d ∧ runs (change keks subject c d) tr (Ok None)).

Lemma update_landed_mono subject c s0 s s' :
  history s0 (U subject) `prefix_of` history s (U subject) → update_landed subject c s s' → update_landed subject c s0 s'.
Proof.
  intros Hp [(h & d & d' & tr & H1 & ?)|(h & d & tr & H1 & ?)]; [left|right].
  - exists h, d, d', tr. split; [by etrans|done].
  - exists h, d, tr. split; [by etrans|done].
Qed.

Lemma Z_of_length_inj (n m : nat) : (inject_Z (Z.of_nat n) == inject_Z (Z.of_nat m))%Q → n = m.
Proof. rewrite inject_Z_injective. lia. Qed.

Lemma always_update n subject c s :
  always served (fun _ => True) (updateOnce base subjectHash keks n subject c)
    (fun o s' => match o with Ok _ => update_landed subject c s s' | Throw _ => True end) s.
Proof.
  revert s. induction n as [|n IH]; intros s; [done|]. cbn [updateOnce].
  apply always_bind. eapply always_mono; [done| |apply always_read]. intros [[d v]|e] s1 [Hp1 Hr]; [|done].
  destruct Hr as (h & Hh1 & Hh2 & Hd & Hv). apply always_bind.
  eapply always_mono; [done| |apply always_change]. intros [[d'|]|e] s2 [Hp2 [tr Htr]]; [| |done].
  - cbn [fst snd]. apply always_bind, always_call; [done|]. intros s3 s4 status text j Hp3 Hserved _.
    pose proof (history_grows _ _ _ _ (U subject) Hserved) as Hp4.
    destruct ((status =? 200) || (status =? 204)) eqn:Eok.
    + split; [done|]. left. apply cas_accepted in Hserved as (h' & Hh3 & Hh4 & Hv'); [|lia].
      assert (h = h') as <-.
      { apply prefix_length_eq.
        - transitivity (history s1 (U subject)); [done|]. transitivity (history s2 (U subject)); [done|].
          by transitivity (history s3 (U subject)).
        - assert (length h = length h') as ->; [|done]. apply Z_of_length_inj. by rewrite <-Hv, Hv'. }
      by exists h, d, d', tr.
    + destruct ((status =? 400) && isCasMismatch j); [|by split].
      eapply always_mono; [done| |apply IH]. intros [[]|e] s5; [|done].
      apply update_landed_mono. transitivity (history s1 (U subject)); [done|].
      transitivity (history s2 (U subject)); [done|]. by transitivity (history s3 (U subject)).
  - split; [done|]. right. exists h, d, tr. split_and!; [done|by transitivity (history s1 (U subject))|done|done].
Qed.

(** A credential stored in Vault, while any number of other replicas write the same subject's
    document: when the store reports success, some version has been written that directly
    follows the version [h] the change was computed from, so nothing another writer stored is
    lost; the new version reads back the credential, and every other one as before. *)
Theorem vault_put_lands subject cred s s' :
  NoDup (secret cred).*1 → (∀ x, consumer (descriptor cred) ≠ other_consumer x) →
  rtc (pstep served) (vault_put base subjectHash keks subject cred, s) (Ret tt, s') →
  ∃ h d d', history s (U subject) `prefix_of` h
  ∧ (h ++ [Some (JObj d')]) `prefix_of` history s' (U subject)
  ∧ reads_as (last h) = Ok d
  ∧ readCredential d' keks subject (name (descriptor cred)) = Ok (Some cred)
  ∧ ∀ n, n ≠ name (descriptor cred) →
      readCredential d' keks subject n = readCredential (default emptyDocument d) keks subject n.
Proof.
  intros Hnd Hc Hr. pose proof (always_steps _ _ _ _ _ _ _ (always_update CAS_ATTEMPTS subject (Put cred) s) Hr) as [_ Hl].
  destruct Hl as [(h & d & d' & tr & H1 & H2 & H3 & Hrun)|(h & d & tr & _ & _ & _ & Hrun)].
  - exists h, d, d'. assert (∃ iv, withCredential (default emptyDocument d) keks iv subject cred = Ok d') as [iv Hw].
    { apply runs_inv in Hrun as (iv & tr' & _ & Hk%runs_inv). exists iv.
      destruct (withCredential _ _ _ _ _); destruct Hk as [_ [= ->]]; done. }
    destruct (document_put _ _ _ _ _ _ Hnd Hc Hw) as (? & _ & ? & _). done.
  - apply runs_inv in Hrun as (iv & tr' & _ & Hk%runs_inv).
    destruct (withCredential _ _ _ _ _); by destruct Hk as [_ ?].
Qed.
End VaultTheorems.

(** A server that answers at once, and nobody else writing. *)
Section ToyVault.
Abbreviation toy_vault := (gmap string (list (option json))).

Definition toy_history (s : toy_vault) (u : string) : list (option json) := default [] (s !! u).

Definition toy_served (c : vcall) : toy_vault → vanswer c → toy_vault → Prop :=
  match c return toy_vault → vanswer c → toy_vault → Prop with
  | ReadToken => fun s _ s' => s' = s
  | Nonce => fun s _ s' => s' = s
  | Fetch false u _ => fun s a s' =>
      s' = s ∧ match a with
               | Throw _ => True
               | Ok (status, text) =>
                   (status = 200 ∧ ∃ doc j, last (toy_history s u) = Some (Some doc) ∧ parse text = Some j
                      ∧ field "data" (response_data j) = Some doc
                      ∧ response_version (response_data j) = inject_Z (Z.of_nat (length (toy_history s u))))
                   ∨ (status = 404 ∧ toy_history s u = [] ∧ text = [])
               end
  | Fetch true u body => fun s a s' =>
      match a with
      | Throw _ => s' = s
      | Ok (status, _) =>
          (status = 200 ∧ ∃ v d, body = Some (v, d) ∧ (v == inject_Z (Z.of_nat (length (toy_history s u))))%Q
             ∧ s' = <[u := toy_history s u ++ [Some (JObj d)]]> s)
          ∨ (status = 400 ∧ s' = s)
      end
  end.

Lemma toy_history_insert s u l : toy_history (<[u := l]> s) u = l.
Proof. unfold toy_history. by rewrite lookup_insert_eq. Qed.

Definition toy_kv : KvServer toy_vault.
Proof.
  refine {| history := toy_history; served := toy_served |}.
  - intros [|[] u b|] s a s' u' Hs; simpl in Hs; try by subst.
    + destruct a as [[st t]|]; [|by subst]. destruct Hs as [(_ & v & d & _ & _ & ->)|[_ ->]]; [|done].
      unfold toy_history. destruct (decide (u = u')) as [->|Hne].
      * rewrite lookup_insert_eq. simpl. by apply prefix_app_r.
      * by rewrite lookup_insert_ne.
    + by destruct Hs as [-> _].
  - intros u b s t s' [-> [(_ & doc & j & H1 & H2 & H3 & H4)|(? & _)]]; [|done].
    exists (toy_history s u), doc, j. rewrite H4. done.
  - intros u b s t s' [-> [(? & _)|(_ & Hh & ->)]]; [done|].
    exists []. rewrite Hh. split_and!; [done..|by left|done|]. intros j Hj. by vm_compute in Hj.
  - intros u v d s st t s' Hs Hst. destruct Hs as [(_ & v' & d' & Hb & Hv & ->)|[-> _]]; [|by destruct Hst].
    injection Hb as -> ->. exists (toy_history s u). by rewrite toy_history_insert.
Defined.

Definition toy_respond (c : vcall) (s : toy_vault) : vanswer c * toy_vault :=
  match c return vanswer c * toy_vault with
  | ReadToken => (Ok "t", s)
  | Nonce => (bytes_of "iv", s)
  | Fetch false u _ => (match toy_history s u with [] => Ok (404, []) | _ => Throw tt end, s)
  | Fetch true u (Some (v, d)) =>
      if Qeq_bool v (inject_Z (Z.of_nat (length (toy_history s u))))
      then (Ok (200, []), <[u := toy_history s u ++ [Some (JObj d)]]> s)
      else (Ok (400, []), s)
  | Fetch true _ None => (Throw tt, s)
  end.

Lemma toy_respond_served c s : toy_served c s (toy_respond c s).1 (toy_respond c s).2.
Proof.
  destruct c as [|[] u body|]; [done| |simpl; by destruct (toy_history s u); auto|done].
  destruct body as [[v d]|]; simpl; [|done].
  destruct (Qeq_bool v (inject_Z (Z.of_nat (length (toy_history s u))))) eqn:E; simpl; [left|by right].
  split; [done|]. exists v, d. split; [done|]. split; [by apply Qeq_bool_iff|done].
Qed.

Lemma vault_put_lands_witness :
  let k := toy_kv in let g := toy_gcm in
  ∃ h d d' s', rtc (pstep (served (KvServer := k)))
      (vault_put (H := g) "b" (fun s => s) [bytes_of "k"] "github:1" toy_credential, ∅ : toy_vault) (Ret tt, s')
  ∧ (h ++ [Some (JObj d')]) `prefix_of` history (KvServer := k) s' "b/github:1" ∧ reads_as (last h) = Ok d
  ∧ readCredential (H := g) d' [bytes_of "k"] "github:1" "main" = Ok (Some toy_credential).
Proof.
  intros k g.
  assert (∃ s', rtc (pstep (served (KvServer := k)))
      (vault_put (H := g) "b" (fun s => s) [bytes_of "k"] "github:1" toy_credential, ∅ : toy_vault) (Ret tt, s')) as [s' Hr].
  { pose proof (prun_steps (served (KvServer := k)) toy_respond
      (vault_put (H := g) "b" (fun s => s) [bytes_of "k"] "github:1" toy_credential) ∅ toy_respond_served) as Hp.
    eexists. exact Hp. }
  destruct (vault_put_lands (H := g) (H0 := k) "b" (fun s => s) [bytes_of "k"] "github:1" toy_credential ∅ s')
    as (h & d & d' & _ & H2 & H3 & H4 & _); [by apply (bool_decide_unpack _)|done|exact Hr|].
  by exists h, d, d', s'.
Defined.
End ToyVault.
