(* ===== verification/FileStore.v ===== *)
(** * The file credential store

    Models [packages/control-plane/src/file-store.ts]: one file per subject, replaced by writing
    a temporary file, syncing it and renaming it over.  A file has what was written to it and
    whether that is synced; what an unsynced file holds after a crash is unknown.  Any call may
    fail ([fs_replies]): a write may leave any content, a rename or an unlink may have
    happened.  Operations on one subject are queued one after the other ([SubjectQueue]). *)

From S2P Require Import Prelude Json JsonText Prog CpBase Credentials Envelope Stores.

Local Open Scope Z_scope.

Inductive fcall :=
| FileRead (p : string)
| OpenX (p : string)                   (* [open(p, 'wx', 0o600)] *)
| WriteAll (p : string) (b : bytes)    (* [fh.writeFile] *)
| Sync (p : string)
| Close (p : string)
| Rename (from to : string)
| Unlink (p : string)
| FUuid
| FNonce.

Inductive read_result := Contents (b : bytes) | ENOENT | ReadFailed.

Definition fanswer (c : fcall) : Type :=
  match c with
  | FileRead _ => read_result
  | FUuid => string
  | FNonce => bytes
  | _ => result unit unit
  end.

Record file := mkFile { content : bytes; synced : bool }.

Abbreviation fs := (gmap string file).

Definition fs_replies (c : fcall) : fs → fanswer c → fs → Prop :=
  match c return fs → fanswer c → fs → Prop with
  | FileRead p => fun s a s' =>
      s' = s ∧ match a with
               | Contents b => content <$> s !! p = Some b
               | ENOENT => s !! p = None
               | ReadFailed => True
               end
  | OpenX p => fun s a s' =>
      match a with
      | Ok _ => s !! p = None ∧ s' = <[p := mkFile [] false]> s
      | Throw _ => s' = s ∨ (s !! p = None ∧ s' = <[p := mkFile [] false]> s)
      end
  | WriteAll p b => fun s a s' =>
      match a with
      | Ok _ => s' = <[p := mkFile b false]> s
      | Throw _ => ∃ b', s' = <[p := mkFile b' false]> s
      end
  | Sync p => fun s a s' =>
      match a with
      | Ok _ => s' = alter (fun f => mkFile (content f) true) p s
      | Throw _ => s' = s
      end
  | Close p => fun s a s' => s' = s
  | Rename x y => fun s a s' =>
      match a with
      | Ok _ => ∃ f, s !! x = Some f ∧ s' = <[y := f]> (delete x s)
      | Throw _ => s' = s ∨ ∃ f, s !! x = Some f ∧ s' = <[y := f]> (delete x s)
      end
  | Unlink p => fun s a s' => s' = delete p s ∨ s' = s
  | FUuid => fun s a s' => s' = s
  | FNonce => fun s a s' => s' = s
  end.

Abbreviation fprog := (prog fcall fanswer thrown).

(** A call that rejects. *)
Definition sys (c : fcall) (k : fprog unit) : fanswer c → fprog unit :=
  match c return fanswer c → fprog unit with
  | FileRead _ | FUuid | FNonce => fun _ => k
  | _ => fun a => match a with Ok _ => k | Throw _ => Err Other end
  end.

Definition fs_call (c : fcall) : fprog unit := Call c (sys c (Ret tt)).

Section FileStore.
Context `{AesGcm} (dir : string) (subjectHash : string → string) (keks : list bytes).
Context (collate : string → string → bool).

Definition path (subject : string) : string := dir +:+ "/" +:+ subjectHash subject +:+ ".json".

Definition read_file (subject : string) : fprog (option SubjectDocument) :=
  Call (FileRead (path subject)) (fun a =>
    match a with
    | ENOENT => Ret None
    | ReadFailed => Err unanswered
    | Contents raw =>
        match parse raw with
        | None => Err (fail credential_unavailable "the credential store returned a non-JSON body")
        | Some j => match parseDocument j with Ok d => Ret (Some d) | Throw e => Err e end
        end
    end).

Definition tmp_path (final uuid : string) : string := final +:+ "." +:+ uuid +:+ ".tmp".

Definition replace_file (final tmp : string) (doc : SubjectDocument) : fprog unit :=
  await _ <- fs_call (OpenX tmp);
  await _ <- pfinally
    (await _ <- fs_call (WriteAll tmp (stringify (JObj doc))); fs_call (Sync tmp))
    (fs_call (Close tmp));
  fs_call (Rename tmp final).

Definition write_file (subject : string) (doc : SubjectDocument) : fprog unit :=
  let final := path subject in
  await uuid <- Call FUuid Ret;
  pcatch (replace_file final (tmp_path final uuid) doc) (fun _ =>
    await _ <- pcatch (fs_call (Unlink (tmp_path final uuid))) (fun _ => Ret tt);
    Err unanswered).

Definition file_put (subject : string) (cred : StoredCredential) : fprog unit :=
  await doc <- read_file subject;
  await iv <- Call FNonce Ret;
  await next <- of_result (withCredential (default emptyDocument doc) keks iv subject cred);
  write_file subject next.

Definition file_get (subject n : string) : fprog (option StoredCredential) :=
  await doc <- read_file subject;
  match doc with
  | Some d => of_result (readCredential d keks subject n)
  | None => Ret None
  end.

Definition file_list (subject : string) : fprog (list CredentialDescriptor) :=
  await doc <- read_file subject;
  Ret (match doc with Some d => describeAll collate d | None => [] end).

Definition file_delete (subject n : string) : fprog unit :=
  await doc <- read_file subject;
  match doc with
  | Some d => if map_has n (credentials d) then write_file subject (withoutCredential d n) else Ret tt
  | None => Ret tt
  end.
End FileStore.

(** ** Replacing a file *)

Section Atomic.
Context `{AesGcm} (dir : string) (subjectHash : string → string) (keks : list bytes).

Lemma tmp_ne final uuid : tmp_path final uuid ≠ final.
Proof.
  unfold tmp_path. intros E%(f_equal (fun s => length (bytes_of s))). rewrite !bytes_of_app, !length_app in E.
  simpl in E. lia.
Qed.

(** The file of a subject is what it was, or the whole of the new document, on disk. *)
Definition old_or_new (final : string) (old : option file) (new : bytes) (s : fs) : Prop :=
  s !! final = old ∨ s !! final = Some (mkFile new true).

Lemma always_fs (I : fs → Prop) c (Q : result thrown unit → fs → Prop) s :
  I s → (∀ a s', fs_replies c s a s' → I s' ∧ match sys c (Ret tt) a with
                                              | Ret u => Q (Ok u) s'
                                              | Err e => Q (Throw e) s'
                                              | Call _ _ => False
                                              end) →
  always fs_replies I (fs_call c) Q s.
Proof.
  intros HI Hk. split; [done|]. intros a s' Hr. destruct (Hk a s' Hr) as [HI' HQ].
  by destruct (sys c (Ret tt) a).
Qed.

Lemma always_replace final tmp doc s old :
  tmp ≠ final → s !! final = old →
  always fs_replies (old_or_new final old (stringify (JObj doc))) (replace_file final tmp doc)
    (fun o s' => match o with
                 | Ok _ => s' !! final = Some (mkFile (stringify (JObj doc)) true)
                 | Throw _ => old_or_new final old (stringify (JObj doc)) s'
                 end) s.
Proof.
  intros Hne Hold. set (new := stringify (JObj doc)). set (I := old_or_new final old new).
  assert (Hkeep : ∀ f s, s !! final = old → <[tmp := f]> s !! final = old) by (intros; by rewrite lookup_insert_ne).
  unfold replace_file. apply always_bind, always_fs; [by left|]. intros a s1 H1.
  assert (Hs1 : s1 !! final = old).
  { destruct a; cbn [fs_replies] in H1; [destruct H1 as [_ ->]|destruct H1 as [->|[_ ->]]]; auto. }
  split; [by left|]. destruct a as [[]|[]]; cbn [sys]; [|by left].
  apply always_bind, always_finally, always_bind, always_fs; [by left|]. intros a s2 H2.
  assert (Hs2 : s2 !! final = old) by (destruct a; cbn [fs_replies] in H2; [subst|destruct H2 as [b' ->]]; auto).
  assert (Hclose : ∀ s o, s !! final = old → (o = Ok tt → s !! tmp = Some (mkFile new true)) →
    always fs_replies I (fs_call (Close tmp)) (fun o2 s => match (match o2 with Ok _ => o | Throw e => Throw e end) with
      | Ok _ => always fs_replies I (fs_call (Rename tmp final))
          (fun o s' => match o with Ok _ => s' !! final = Some (mkFile new true) | Throw _ => I s' end) s
      | Throw e => I s
      end) s).
  { intros s0 o H0 Htmp. apply always_fs; [by left|]. intros a' s3 H3. cbn [fs_replies] in H3. subst s3. split; [by left|].
    destruct a' as [[]|[]]; cbn [sys]; [|by left]. destruct o as [[]|]; [|by left].
    apply always_fs; [by left|]. specialize (Htmp eq_refl). intros a' s4 H4.
    assert (Hr : s4 = s0 ∨ s4 = <[final := mkFile new true]> (delete tmp s0)).
    { destruct a'; cbn [fs_replies] in H4; [|destruct H4 as [->|H4]; [by left|]]; destruct H4 as (f & Hf & ->); right;
        rewrite Htmp in Hf; by injection Hf as <-. }
    assert (HI : I s4).
    { destruct Hr as [->| ->]; [by left|right]. apply lookup_insert_eq. }
    split; [done|]. destruct a' as [[]|[]]; cbn [sys]; [|done].
    cbn [fs_replies] in H4. destruct H4 as (f & Hf & ->). rewrite Htmp in Hf. injection Hf as <-. apply lookup_insert_eq. }
  split; [by left|]. destruct a as [[]|[]]; cbn [sys].
  - cbn [fs_replies] in H2. subst s2. apply always_fs; [by left|]. intros a s3 H3.
    assert (Hs3 : s3 !! final = old).
    { destruct a; cbn [fs_replies] in H3; subst s3; [by rewrite lookup_alter_ne|done]. }
    split; [by left|]. destruct a as [[]|[]]; cbn [sys].
    + eapply always_mono; [done| |apply (Hclose s3 (Ok tt) Hs3)]; [by intros [[]|e]|].
      intros _. cbn [fs_replies] in H3. subst s3. by rewrite lookup_alter_eq, lookup_insert_eq.
    + eapply always_mono; [done| |by apply (Hclose s3 (Throw Other) Hs3)]. by intros [[]|e].
  - eapply always_mono; [done| |by apply (Hclose s2 (Throw Other) Hs2)]. by intros [[]|e].
Qed.

Lemma always_write subject doc s old :
  s !! path dir subjectHash subject = old →
  let I := old_or_new (path dir subjectHash subject) old (stringify (JObj doc)) in
  always fs_replies I (write_file dir subjectHash subject doc)
    (fun o s' => match o with
                 | Ok _ => s' !! path dir subjectHash subject = Some (mkFile (stringify (JObj doc)) true)
                 | Throw e => e = unanswered ∧ I s'
                 end) s.
Proof.
  intros Hold I. split; [by left|]. intros uuid s1 ->. cbn [pbind]. apply always_catch.
  eapply always_mono; [done| |apply (always_replace _ _ doc s old (tmp_ne _ uuid) Hold)].
  intros [[]|e] s2 H2; [done|]. apply always_bind, always_catch, always_fs; [done|]. intros a s3 H3.
  assert (HI : I s3).
  { destruct H3 as [->| ->]; [|done]. unfold I, old_or_new. by rewrite !lookup_delete_ne by apply tmp_ne. }
  split; [done|]. by destruct a as [[]|[]].
Qed.

(** The document a file holds: none for no file. *)
Definition doc_in (f : option file) : option (option SubjectDocument) :=
  match f with
  | None => Some None
  | Some f => match parse (content f) with
              | Some j => match parseDocument j with Ok d => Some (Some d) | Throw _ => None end
              | None => None
              end
  end.

Lemma always_read_file (I : fs → Prop) subject s Q :
  I s → (∀ e, Q (Throw e) s) → (∀ d, doc_in (s !! path dir subjectHash subject) = Some d → Q (Ok d) s) →
  always fs_replies I (read_file dir subjectHash subject) Q s.
Proof.
  intros HI Ht Hok. split; [done|]. intros a s' [-> Ha]. destruct a as [raw| |]; cbn in Ha.
  - assert (Hd : doc_in (s !! path dir subjectHash subject)
      = match parse raw with
        | Some j => match parseDocument j with Ok d => Some (Some d) | Throw _ => None end | None => None end).
    { destruct (s !! path dir subjectHash subject) as [f|]; [|done]. by injection Ha as <-. }
    destruct (parse raw) as [j|]; [|by split]. destruct (parseDocument j) as [d|e]; (split; [done|]); [by apply Hok|done].
  - split; [done|]. apply Hok. by rewrite Ha.
  - by split.
Qed.

(** What a successful put leaves. *)
Definition put_done (subject : string) (cred : StoredCredential) (s s' : fs) : Prop :=
  ∃ old iv d, doc_in (s !! path dir subjectHash subject) = Some old
    ∧ withCredential (default emptyDocument old) keks iv subject cred = Ok d
    ∧ s' !! path dir subjectHash subject = Some (mkFile (stringify (JObj d)) true).

(** Storing a credential in a file is atomic, whatever calls fail and wherever the process
    stops: at every point the subject's file is the one it was or, synced to disk, the whole of
    the new document; and success means the new one, which holds the credential and every other
    as before.  The unsynced temporary file is never under the subject's name. *)
Theorem file_put_atomic subject cred s p' s' :
  NoDup (secret cred).*1 → (∀ x, consumer (descriptor cred) ≠ other_consumer x) →
  rtc (pstep fs_replies) (file_put dir subjectHash keks subject cred, s) (p', s') →
  (s' !! path dir subjectHash subject = s !! path dir subjectHash subject ∨ put_done subject cred s s')
  ∧ (p' = Ret tt →
     ∃ old d, doc_in (s !! path dir subjectHash subject) = Some old
       ∧ s' !! path dir subjectHash subject = Some (mkFile (stringify (JObj d)) true)
       ∧ readCredential d keks subject (name (descriptor cred)) = Ok (Some cred)
       ∧ ∀ n, n ≠ name (descriptor cred) →
           readCredential d keks subject n = readCredential (default emptyDocument old) keks subject n).
Proof.
  intros Hnd Hc Hr. set (f := path dir subjectHash subject) in *.
  set (I := fun s' => s' !! f = s !! f ∨ put_done subject cred s s').
  assert (Ha : always fs_replies I (file_put dir subjectHash keks subject cred)
    (fun o s' => match o with Ok _ => put_done subject cred s s' | Throw _ => True end) s).
  { apply always_bind, always_read_file; [by left|done|]. intros old Hold.
    split; [by left|]. intros iv s1 ->. cbn [pbind].
    destruct (withCredential (default emptyDocument old) keks iv subject cred) as [d|e] eqn:Ew; [|by split; [left|]].
    cbn [of_result pbind]. eapply always_mono; [| |apply (always_write subject d s (s !! f) eq_refl)].
    - intros s2 [H2|H2]; [by left|right]. by exists old, iv, d.
    - intros [[]|e] s2 H2; [|done]. by exists old, iv, d. }
  pose proof (always_steps _ _ _ _ _ _ _ Ha Hr) as Hend. split; [by eapply (always_inv _ I), Hend|].
  intros ->. destruct Hend as [_ (old & iv & d & H1 & H2 & H3)]. exists old, d.
  destruct (document_put _ _ _ _ _ _ Hnd Hc H2) as (? & _ & ? & _). done.
Qed.
End Atomic.

(** ** Witnesses *)

(** A disk that never fails. *)
Definition disk (c : fcall) (s : fs) : fanswer c * fs :=
  match c return fanswer c * fs with
  | FileRead p => (match s !! p with Some f => Contents (content f) | None => ENOENT end, s)
  | OpenX p => match s !! p with None => (Ok tt, <[p := mkFile [] false]> s) | Some _ => (Throw tt, s) end
  | WriteAll p b => (Ok tt, <[p := mkFile b false]> s)
  | Sync p => (Ok tt, alter (fun f => mkFile (content f) true) p s)
  | Close _ => (Ok tt, s)
  | Rename x y => match s !! x with Some f => (Ok tt, <[y := f]> (delete x s)) | None => (Throw tt, s) end
  | Unlink p => (Ok tt, delete p s)
  | FUuid => ("u", s)
  | FNonce => (bytes_of "iv", s)
  end.

Lemma disk_replies c s : fs_replies c s (disk c s).1 (disk c s).2.
Proof.
  destruct c; cbn [disk fs_replies fst snd]; try done; try (by left).
  - by destruct (s !! p).
  - destruct (s !! p) eqn:E; cbn [fst snd]; [by left|done].
  - destruct (s !! from) as [f|] eqn:E; cbn [fst snd]; [by exists f|by left].
Qed.

Lemma file_put_atomic_witness :
  let g := toy_gcm in
  ∃ s', rtc (pstep fs_replies) (file_put "/c" (fun s => s) [bytes_of "k"] "github:1" toy_credential, ∅ : fs) (Ret tt, s')
  ∧ ∃ d, s' !! "/c/github:1.json" = Some (mkFile (stringify (JObj d)) true)
    ∧ readCredential d [bytes_of "k"] "github:1" "main" = Ok (Some toy_credential).
Proof.
  intros g.
  pose proof (prun_steps fs_replies disk (file_put "/c" (fun s => s) [bytes_of "k"] "github:1" toy_credential) ∅ disk_replies)
    as Hr.
  assert (E : (prun disk (file_put "/c" (fun s => s) [bytes_of "k"] "github:1" toy_credential) (∅ : fs)).1 = Ok tt)
    by by vm_compute.
  rewrite E in Hr. cbn [of_result] in Hr. eexists. split; [exact Hr|].
  destruct (file_put_atomic "/c" (fun s => s) [bytes_of "k"] "github:1" toy_credential ∅ _ _
    ltac:(by apply (bool_decide_unpack _)) ltac:(done) Hr) as [_ Hd].
  destruct (Hd eq_refl) as (old & d & _ & H2 & H3 & _). by exists d.
Defined.
