(* ===== verification/K8sStore.v ===== *)
(** * The Kubernetes Secret credential store

    Models [packages/control-plane/src/k8s-secret-store.ts] and the parts of [kubectl.ts] it
    uses: one Secret per subject, read whole and written by merge patches.  [Kube] is what the
    patches act on (the Secrets of one namespace), [kubectl_reply] what one kubectl command may
    do and answer, failures before and after the effect included; a client's store call is a
    tree of such commands, and [store_step] interleaves the calls of any number of replicas. *)

From S2P Require Import Prelude Base64 JsNumber Json JsonText Prog CpBase Token Credentials Envelope Stores.

Local Open Scope Z_scope.

(** ** kubectl.ts *)

Definition buildCreateSecretArgs (name namespace : string) : list string :=
  ["create"; "secret"; "generic"; name; "-n"; namespace].

Definition buildPatchSecretArgs (name namespace : string) : list string :=
  ["patch"; "secret"; name; "-n"; namespace; "--type=merge"; "--patch-file=/dev/stdin"].

Definition buildGetSecretArgs (name namespace : string) : list string :=
  ["get"; "secret"; name; "-n"; namespace; "-o"; "json"; "--ignore-not-found"].

Definition buildDeleteSecretArgs (name namespace : string) : list string :=
  ["delete"; "secret"; name; "-n"; namespace; "--ignore-not-found"].

(** What a rejected command throws is an [Error]; this is its message. *)
Definition isAlreadyExists (msg : string) : bool :=
  contains (bytes_of "AlreadyExists") (bytes_of msg) || contains (bytes_of "already exists") (bytes_of msg).

(** *** Running it

    The system calls of [defaultRunKubectl]; a child settles with an error event or with its
    exit code ([null] after a signal) and its output. *)

Inductive scall :=
| RandomName                                    (* [randomBytes(16).toString('hex')] *)
| WritePatch (path : string) (body : bytes)     (* [writeFile(path, stdin, { mode: 0o600, flag: 'wx' })] *)
| Spawn (args : list string)
| RemovePatch (path : string).

Inductive child_end := ChildError (msg : string) | Closed (code : option Z) (out err : bytes).

Definition sanswer (c : scall) : Type :=
  match c with
  | RandomName => string
  | WritePatch _ _ => result string unit
  | Spawn _ => child_end
  | RemovePatch _ => result string unit
  end.

Abbreviation sprog := (prog scall sanswer string).

Definition spawnKubectl (args : list string) : sprog bytes :=
  Call (Spawn args) (fun e =>
    match e with
    | ChildError msg => Err msg
    | Closed (Some 0) out _ => Ret out
    | Closed code _ err =>
        Err ("kubectl " +:+ join_str " " (take 3 args) +:+ " failed ("
             +:+ match code with Some c => string_of (dec_signed c) | None => "null" end +:+ "): "
             +:+ string_of (trim err))
    end).

(** [a.replaceAll(pat, by)] *)
Definition replaceAll (pat by' s : string) : string :=
  match split_on (bytes_of pat) (bytes_of s) with
  | [] => s
  | x :: l => string_of (x ++ mjoin ((fun y => bytes_of by' ++ y) <$> l))
  end.

Definition defaultRunKubectl (tmpdir : string) (args : list string) (stdin : option bytes) : sprog bytes :=
  match stdin with
  | None => spawnKubectl args
  | Some body =>
      await hex <- Call RandomName Ret;
      let path := tmpdir +:+ "/sh-cp-patch-" +:+ hex +:+ ".json" in
      await _ <- Call (WritePatch path body) (fun r => of_result r);
      pfinally (spawnKubectl (replaceAll "/dev/stdin" path <$> args))
        (Call (RemovePatch path) (fun _ => Ret tt))
  end.

(** ** k8s-secret-store.ts *)

Definition FIELDS : list string := ["kind"; "consumer"; "destination"; "binding"; "endpoint"].

Definition annotationKey (fld n : string) : string := "sh.io/" +:+ fld +:+ "." +:+ n.

(** Rebuilds a descriptor from the annotations, looked up with [a].  The parsed values are read at
    the types the code gives them. *)
Definition describe (n : string) (a : string → option string) : option CredentialDescriptor :=
  let get f := a (annotationKey f n) in
  match truthy_str (get "kind"), truthy_str (get "consumer"), truthy_str (get "destination"), truthy_str (get "binding") with
  | Some k, Some c, Some dest, Some b =>
      match parse (bytes_of dest), parse (bytes_of b) with
      | Some hs, Some bj =>
          Some (mkDescriptor n k (read_consumer c) (match hs with JArr l => strings l | _ => [] end)
                  (mkBinding (default "" (as_string (field "header" bj))) (default "" (as_string (field "format" bj))))
                  (get "endpoint"))
      | _, _ => None
      end
  | _, _, _, _ => None
  end.

Definition parseSecretJson (raw : bytes) : result thrown json :=
  match parse raw with
  | None => Throw (fail credential_unavailable "the credential store returned a non-JSON body")
  | Some parsed =>
      require isRecord parsed else fail credential_unavailable "the credential store returned an unexpected shape";
      require match field "metadata" parsed with Some m => isRecord m | None => true end
        else fail credential_unavailable "the credential store returned unexpected metadata";
      require match field "data" parsed with Some d => isRecord d | None => true end
        else fail credential_unavailable "the credential store returned unexpected data";
      Ok parsed
  end.

Definition members (j : option json) : list (string * json) := match j with Some (JObj fs) => fs | _ => [] end.

(** [secret.metadata?.annotations ?? {}] and [secret.data ?? {}] *)
Definition annotations_of (j : json) : list (string * json) := members (field "annotations" (default JNull (field "metadata" j))).
Definition data_of (j : json) : list (string * json) := members (field "data" j).

Definition strings_in (fs : list (string * json)) (k : string) : option string := as_string (map_get k fs).

Inductive kcall := Kubectl (args : list string) (stdin : option bytes) | KNonce.

Definition kanswer (c : kcall) : Type :=
  match c with Kubectl _ _ => result string bytes | KNonce => bytes end.

Abbreviation kprog := (prog kcall kanswer thrown).

Section Store.
Context `{AesGcm} (namespace : string) (subjectHash : string → string) (keks : list bytes).
Context (collate : string → string → bool).

Definition secretNameFor (subject : string) : string := "sh-cred-" +:+ subjectHash subject.

(** [guard(() => this.run(args, stdin))] *)
Definition guarded (args : list string) (stdin : option bytes) : kprog bytes :=
  Call (Kubectl args stdin) (fun r => match r with Ok out => Ret out | Throw _ => Err unanswered end).

Definition fetch (subject : string) : kprog (option json) :=
  await out <- guarded (buildGetSecretArgs (secretNameFor subject) namespace) None;
  match trim out with
  | [] => Ret None
  | raw => await j <- of_result (parseSecretJson raw); Ret (Some j)
  end.

Definition ensureSecret (subject : string) : kprog unit :=
  Call (Kubectl (buildCreateSecretArgs (secretNameFor subject) namespace) None) (fun r =>
    match r with
    | Ok _ => Ret tt
    | Throw msg => if isAlreadyExists msg then Ret tt else Err unanswered
    end).

Definition put_patch (d : CredentialDescriptor) (sealed : bytes) : json :=
  JObj [("metadata", JObj [("annotations", JObj
          [(annotationKey "kind" (name d), JStr (kind d));
           (annotationKey "consumer" (name d), JStr (consumer_name (consumer d)));
           (annotationKey "destination" (name d), JStr (string_of (stringify (JArr (JStr <$> hosts d)))));
           (annotationKey "binding" (name d), JStr (string_of (stringify (binding_json (binding d)))));
           (annotationKey "endpoint" (name d), match endpoint d with Some e => JStr e | None => JNull end)])]);
        ("stringData", JObj [(name d, JStr (string_of sealed))])].

(** From the patch's construction on. *)
Definition put_sealed (subject : string) (cred : StoredCredential) : kprog unit :=
  let d := descriptor cred in
  await iv <- Call KNonce Ret;
  match seal keks iv subject (name d) (stringify (secret_json (secret cred))) with
  | Throw _ => Err Other
  | Ok sealed =>
      await _ <- guarded (buildPatchSecretArgs (secretNameFor subject) namespace) (Some (stringify (put_patch d sealed)));
      Ret tt
  end.

Definition k8s_put (subject : string) (cred : StoredCredential) : kprog unit :=
  await _ <- ensureSecret subject;
  put_sealed subject cred.

(** What [get] makes of the data and the annotations. *)
Definition credential_in (subject n : string) (data a : string → option string) : result thrown (option StoredCredential) :=
  match truthy_str (data n) with
  | None => Ok None
  | Some sealed =>
      match describe n a with
      | None => Ok None
      | Some d =>
          try s <- (try opened <- openOrBlameSubject keks subject n (b64url_decode (bytes_of sealed)); secret_of opened);
          Ok (Some (mkStored d s))
      end
  end.

Definition k8s_get (subject n : string) : kprog (option StoredCredential) :=
  await j <- fetch subject;
  match j with
  | None => Ret None
  | Some j => of_result (credential_in subject n (strings_in (data_of j)) (strings_in (annotations_of j)))
  end.

Definition k8s_list (subject : string) : kprog (list CredentialDescriptor) :=
  await j <- fetch subject;
  match j with
  | None => Ret []
  | Some j => Ret (merge_sort (fun a b => collate (name a) (name b))
                     (omap (fun n => describe n (strings_in (annotations_of j))) (data_of j).*1))
  end.

Definition delete_patch (n : string) : json :=
  JObj [("metadata", JObj [("annotations", JObj ((fun f => (annotationKey f n, JNull)) <$> FIELDS))]);
        ("data", JObj [(n, JNull)])].

Definition k8s_delete (subject n : string) : kprog unit :=
  await j <- fetch subject;
  match j with
  | None => Ret tt
  | Some _ =>
      await _ <- guarded (buildPatchSecretArgs (secretNameFor subject) namespace) (Some (stringify (delete_patch n)));
      Ret tt
  end.
End Store.

(** ** The API server *)

Record Secret := mkSecret { s_annotations : gmap string string; s_data : gmap string bytes }.

Abbreviation Kube := (gmap string Secret).

(** A merge patch of a map of strings: a string sets its key, a null deletes it. *)
Fixpoint merge_fields {V} (decode : string → V) (p : list (string * json)) (m : gmap string V) : option (gmap string V) :=
  match p with
  | [] => Some m
  | (k, JStr v) :: p' => merge_fields decode p' (<[k := decode v]> m)
  | (k, JNull) :: p' => merge_fields decode p' (delete k m)
  | _ => None
  end.

(** [stringData] is written into [data]; a null in it does nothing. *)
Fixpoint merge_stringData (p : list (string * json)) (m : gmap string bytes) : option (gmap string bytes) :=
  match p with
  | [] => Some m
  | (k, JStr v) :: p' => merge_stringData p' (<[k := bytes_of v]> m)
  | (_, JNull) :: p' => merge_stringData p' m
  | _ => None
  end.

Definition apply_patch (j : json) (o : Secret) : option Secret :=
  a ← merge_fields id (annotations_of j) (s_annotations o);
  d ← merge_fields (fun v => b64url_decode (bytes_of v)) (data_of j) (s_data o);
  d' ← merge_stringData (members (field "stringData" j)) d;
  Some (mkSecret a d').

(** [data] is base64 on the wire. *)
Definition wire_data (o : Secret) (k : string) : option string := string_of ∘ b64_encode <$> s_data o !! k.

(** The JSON object kubectl prints for a Secret. *)
Record shows (j : json) (o : Secret) : Prop := {
  shows_object : isRecord j = true ∧ ∀ f v, f ∈ ["metadata"; "data"] → field f j = Some v → isRecord v = true;
  shows_annotations : ∀ k, strings_in (annotations_of j) k = s_annotations o !! k;
  shows_data : ∀ k, strings_in (data_of j) k = wire_data o k;
}.

Section Server.
Context (namespace : string).

Inductive kubectl_reply : list string → option bytes → Kube → result string bytes → Kube → Prop :=
| reply_created n s out :
    s !! n = None → kubectl_reply (buildCreateSecretArgs n namespace) None s (Ok out) (<[n := mkSecret ∅ ∅]> s)
| reply_exists n s msg :
    is_Some (s !! n) → isAlreadyExists msg = true →
    kubectl_reply (buildCreateSecretArgs n namespace) None s (Throw msg) s
| reply_absent n s out :
    s !! n = None → trim out = [] → kubectl_reply (buildGetSecretArgs n namespace) None s (Ok out) s
| reply_found n s o j out :
    s !! n = Some o → shows j o → parse (trim out) = Some j →
    kubectl_reply (buildGetSecretArgs n namespace) None s (Ok out) s
| reply_patched n body s j o o' out :
    s !! n = Some o → parse body = Some j → apply_patch j o = Some o' →
    kubectl_reply (buildPatchSecretArgs n namespace) (Some body) s (Ok out) (<[n := o']> s)
| reply_failed args stdin s msg s' :
    (s' = s ∨ ∃ out, kubectl_reply args stdin s (Ok out) s') → isAlreadyExists msg = false →
    kubectl_reply args stdin s (Throw msg) s'.

Definition kube_replies (c : kcall) : Kube → kanswer c → Kube → Prop :=
  match c return Kube → kanswer c → Kube → Prop with
  | Kubectl args stdin => kubectl_reply args stdin
  | KNonce => fun s _ s' => s' = s
  end.
End Server.

(** ** What a store operation does *)
Lemma annotationKey_ne f f' n n' : f ∈ FIELDS → f' ∈ FIELDS → (f, n) ≠ (f', n') → annotationKey f n ≠ annotationKey f' n'.
Proof.
  intros Hf Hf' Hne. unfold FIELDS in *. set_unfold.
  destruct_or! Hf; destruct_or! Hf'; subst; unfold annotationKey; intros [=]; by apply Hne, (f_equal (pair _)).
Qed.

Lemma b64_node_roundtrip l : b64url_decode (b64_encode l) = l.
Proof.
  unfold b64url_decode. rewrite <-(unsextets_sextets l) at 2. f_equal. pose proof (sextets_bound l) as Hb.
  assert (Hd : ∀ n, (n < 64)%nat → url_undigit (digit n) = Some n).
  { intros n Hn. do 64 (destruct n as [|n]; [vm_compute; reflexivity|]). lia. }
  induction l as [|x|x y|x y z r IH] using bytes_ind3; cbn [sextets b64_encode omap list_omap] in *;
    repeat (apply Forall_cons in Hb as [? Hb]); try done; rewrite !Hd by done; cbn [option_map]; try done.
  rewrite IH; done.
Qed.

Lemma merge_fields_other {V} (decode : string → V) p m m' k :
  k ∉ p.*1 → merge_fields decode p m = Some m' → m' !! k = m !! k.
Proof.
  revert m. induction p as [|[k' v] p IH]; simpl; intros m Hk Hm; [by injection Hm as ->|].
  destruct v; try done; rewrite (IH _ ltac:(set_solver) Hm);
    [apply lookup_delete_ne|apply lookup_insert_ne]; set_solver.
Qed.

Section Views.
Context `{AesGcm} (keks : list bytes) (subject : string).

(** What a subject's reader finds under a name, and whether anything sealed is kept there. *)
Definition view_of (o : Secret) (n : string) : result thrown (option StoredCredential) * bool :=
  (credential_in keks subject n (wire_data o) (s_annotations o !!.), bool_decide (is_Some (s_data o !! n))).

Definition view (subjectHash : string → string) (s : Kube) (n : string) : result thrown (option StoredCredential) * bool :=
  match s !! secretNameFor subjectHash subject with Some o => view_of o n | None => (Ok None, false) end.

Inductive write := WPut (cred : StoredCredential) | WDelete (n : string).

(** The abstract store: a map from names to credentials. *)
Definition written (w : write) (v : string → result thrown (option StoredCredential) * bool) (n : string) :=
  match w with
  | WPut cred => if bool_decide (n = name (descriptor cred)) then (Ok (Some cred), true) else v n
  | WDelete m => if bool_decide (n = m) then (Ok None, false) else v n
  end.

(** What [parseCredentialBody] guarantees of a credential, as far as storing it needs. *)
Definition storable (w : write) : Prop :=
  match w with
  | WPut cred => NoDup (secret cred).*1 ∧ (∀ s, consumer (descriptor cred) ≠ other_consumer s)
                 ∧ kind (descriptor cred) ≠ ""
  | WDelete _ => True
  end.

Lemma describe_ext n a b : (∀ f, f ∈ FIELDS → a (annotationKey f n) = b (annotationKey f n)) → describe n a = describe n b.
Proof. intros He. unfold describe. rewrite !He; [done|unfold FIELDS; set_solver..]. Qed.

Lemma credential_in_ext n d d' a a' :
  d n = d' n → (∀ f, f ∈ FIELDS → a (annotationKey f n) = a' (annotationKey f n)) →
  credential_in keks subject n d a = credential_in keks subject n d' a'.
Proof. intros Hd Ha. unfold credential_in. by rewrite Hd, (describe_ext _ _ _ Ha). Qed.

Lemma put_patch_serialisable d sealed : serialisable (put_patch d sealed) = true.
Proof.
  unfold put_patch. cbn [serialisable forallb snd fmap list_fmap fst]. rewrite !andb_true_iff.
  repeat split; try (by apply bool_decide_eq_true_2, (bool_decide_unpack _)).
  by destruct (endpoint d).
Qed.

Lemma delete_patch_serialisable n : serialisable (delete_patch n) = true.
Proof.
  unfold delete_patch. cbn [serialisable forallb snd fmap list_fmap fst FIELDS]. rewrite !andb_true_iff.
  repeat split; try (by apply bool_decide_eq_true_2, (bool_decide_unpack _)).
Qed.

(** The annotations a put sets are the descriptor's. *)
Lemma describe_put d sealed m a :
  (∀ s, consumer d ≠ other_consumer s) → kind d ≠ "" →
  merge_fields id (annotations_of (put_patch d sealed)) m = Some a → describe (name d) (a !!.) = Some d.
Proof.
  intros Hc Hk Hm.
  assert (Hget : a !! annotationKey "kind" (name d) = Some (kind d)
    ∧ a !! annotationKey "consumer" (name d) = Some (consumer_name (consumer d))
    ∧ a !! annotationKey "destination" (name d) = Some (string_of (stringify (JArr (JStr <$> hosts d))))
    ∧ a !! annotationKey "binding" (name d) = Some (string_of (stringify (binding_json (binding d))))
    ∧ a !! annotationKey "endpoint" (name d) = endpoint d).
  { unfold put_patch, annotations_of in Hm. simpl in Hm.
    destruct (endpoint d); simpl in Hm; injection Hm as <-;
      split_and!; repeat first [rewrite lookup_insert_eq|rewrite lookup_delete_eq|rewrite lookup_insert_ne by done
                               |rewrite lookup_delete_ne by done]; done. }
  destruct Hget as (H1 & H2 & H3 & H4 & H5). unfold describe. rewrite H1, H2, H3, H4, H5.
  assert (Ht : ∀ s, s ≠ "" → truthy_str (Some s) = Some s).
  { intros s Hs. unfold truthy_str. by rewrite bool_decide_eq_false_2. }
  rewrite !Ht; [|try done..].
  2:{ destruct (consumer d) as [| | |x]; try done. by destruct (Hc x). }
  rewrite !bytes_string, !parse_stringify; [|done|].
  - rewrite strings_JStr, read_consumer_name by done. simpl. by destruct d as [? ? ? ? [] ?].
  - simpl. apply List.forallb_forall. intros x (? & -> & _)%list_elem_of_In%list_elem_of_fmap. done.
Qed.

(** A patch about one name leaves what is seen under every other as it was. *)
Lemma view_other n o o' :
  s_data o' !! n = s_data o !! n →
  (∀ f, f ∈ FIELDS → s_annotations o' !! annotationKey f n = s_annotations o !! annotationKey f n) →
  view_of o' n = view_of o n.
Proof.
  intros Hd Ha. unfold view_of. rewrite Hd. f_equal. apply credential_in_ext; [|done].
  unfold wire_data. by rewrite Hd.
Qed.

Lemma annotation_frame p m a n n' :
  n ≠ n' → (∀ k, k ∈ p.*1 → ∃ f, f ∈ FIELDS ∧ k = annotationKey f n') → merge_fields id p m = Some a →
  ∀ f, f ∈ FIELDS → a !! annotationKey f n = m !! annotationKey f n.
Proof.
  intros Hne Hp Hm f Hf. eapply merge_fields_other; [|exact Hm]. intros (f' & Hf' & He)%Hp.
  eapply annotationKey_ne; [..|exact He]; [done|done|congruence].
Qed.

Lemma put_patch_keys d sealed k :
  k ∈ (annotations_of (put_patch d sealed)).*1 → ∃ f, f ∈ FIELDS ∧ k = annotationKey f (name d).
Proof.
  change (k ∈ (fun f => annotationKey f (name d)) <$> FIELDS → ∃ f, f ∈ FIELDS ∧ k = annotationKey f (name d)).
  intros (f & -> & Hf)%list_elem_of_fmap. eauto.
Qed.

Lemma put_patch_view cred iv sealed o :
  storable (WPut cred) →
  seal keks iv subject (name (descriptor cred)) (stringify (secret_json (secret cred))) = Ok sealed →
  ∃ o', apply_patch (put_patch (descriptor cred) sealed) o = Some o'
  ∧ ∀ n, view_of o' n = written (WPut cred) (view_of o) n.
Proof.
  intros (Hnd & Hc & Hk) Hs. set (d := descriptor cred) in *.
  assert (∃ a, merge_fields id (annotations_of (put_patch d sealed)) (s_annotations o) = Some a) as [a Ha].
  { unfold annotations_of, put_patch. simpl. destruct (endpoint d); simpl; eauto. }
  exists (mkSecret a (<[name d := sealed]> (s_data o))). split.
  { unfold apply_patch. rewrite Ha. simpl. by rewrite bytes_string. }
  intros n. simpl. case_bool_decide as Hn; [subst n|].
  - unfold view_of, credential_in, wire_data. cbn [s_data s_annotations]. rewrite lookup_insert_eq.
    cbn [fmap option_fmap option_map]. fold d. rewrite (describe_put d sealed _ a Hc Hk Ha).
    assert (sealed ≠ []) as Hne.
    { intros ->. destruct keks; [done|]. simpl in Hs. by destruct (gcm_encrypt _ _ _ _). }
    destruct (truthy_str _) as [t|] eqn:Et.
    + unfold truthy_str in Et. case_bool_decide; simplify_eq. unfold compose. rewrite bytes_string, b64_node_roundtrip.
      rewrite (open_written _ _ _ _ _ _ Hnd Hs). simpl. by destruct cred.
    + exfalso. unfold truthy_str in Et. case_bool_decide as E; [|done].
      by destruct sealed as [|x [|y [|z r]]].
  - apply view_other; simpl; [by rewrite lookup_insert_ne|].
    eapply annotation_frame; [exact Hn|apply put_patch_keys|exact Ha].
Qed.

Lemma delete_patch_view n o :
  ∃ o', apply_patch (delete_patch n) o = Some o' ∧ ∀ m, view_of o' m = written (WDelete n) (view_of o) m.
Proof.
  assert (∃ a, merge_fields id (annotations_of (delete_patch n)) (s_annotations o) = Some a) as [a Ha] by (simpl; eauto).
  exists (mkSecret a (delete n (s_data o))). split.
  { unfold apply_patch. by rewrite Ha. }
  intros m. simpl. case_bool_decide as Hm; [subst m|].
  - unfold view_of, credential_in, wire_data. simpl. by rewrite lookup_delete_eq.
  - apply view_other; simpl; [by rewrite lookup_delete_ne|].
    eapply annotation_frame; [exact Hm| |exact Ha].
    change (∀ k, k ∈ (fun f => annotationKey f n) <$> FIELDS → ∃ f, f ∈ FIELDS ∧ k = annotationKey f n).
    intros k (f & -> & Hf)%list_elem_of_fmap. eauto.
Qed.
End Views.

(** ** Concurrent writers *)

Section Linear.
Context `{AesGcm} (namespace : string) (subjectHash : string → string) (keks : list bytes) (subject : string).
#[local] Abbreviation N := (secretNameFor subjectHash subject).
#[local] Abbreviation V := (view keks subject subjectHash).

Definition write_prog (w : write) : kprog unit :=
  match w with
  | WPut cred => k8s_put namespace subjectHash keks subject cred
  | WDelete n => k8s_delete namespace subjectHash subject n
  end.

(** One step: a command of one of the writers is answered, or something happens to Secrets of
    other subjects. *)
Inductive store_step : list (kprog unit) * Kube → list (kprog unit) * Kube → Prop :=
| step_writer ps i p p' s s' :
    ps !! i = Some p → pstep (kube_replies namespace) (p, s) (p', s') → store_step (ps, s) (<[i := p']> ps, s')
| step_others ps s s' : s' !! N = s !! N → store_step (ps, s) (ps, s').

(** The writes at [hist], one after the other. *)
Definition replay (ws : list write) (hist : list nat) (v : string → result thrown (option StoredCredential) * bool) :=
  foldl (fun v i => match ws !! i with Some w => written w v | None => v end) v hist.

(** Whatever is answered, the program changes what is seen at most once, then exactly by its
    write, and returns only after that. *)
Fixpoint atomic (w : write) (landed : bool) (p : kprog unit) : Prop :=
  match p with
  | Ret _ => landed = true
  | Err _ => True
  | Call c k => ∀ s r s', kube_replies namespace c s r s' →
      ((∀ n, V s' n = V s n) ∧ atomic w landed (k r))
      ∨ (landed = false ∧ (∀ n, V s' n = written w (V s) n) ∧ atomic w true (k r))
  end.

Lemma view_insert o s n : V (<[N := o]> s) n = view_of keks subject o n.
Proof. unfold view. by rewrite lookup_insert_eq. Qed.

Lemma view_empty n : view_of keks subject (mkSecret ∅ ∅) n = (Ok None, false).
Proof. unfold view_of, credential_in, wire_data. simpl. by rewrite lookup_empty. Qed.

Lemma create_reply s r s' :
  kubectl_reply namespace (buildCreateSecretArgs N namespace) None s r s' → ∀ n, V s' n = V s n.
Proof.
  assert (Hc : ∀ out, kubectl_reply namespace (buildCreateSecretArgs N namespace) None s (Ok out) s' → ∀ n, V s' n = V s n).
  { intros out Hr n. inversion Hr; simplify_eq/=. rewrite view_insert, view_empty. unfold view. by case_match. }
  intros Hr. destruct r as [out|msg]; [by eapply Hc|]. inversion Hr as [| | | | |? ? ? ? ? [->|[out Ho]]]; simplify_eq; eauto.
Qed.

Lemma get_reply s r s' :
  kubectl_reply namespace (buildGetSecretArgs N namespace) None s r s' →
  s' = s ∧ match r with
           | Ok out => (s !! N = None ∧ trim out = []) ∨ ∃ o j, s !! N = Some o ∧ shows j o ∧ parse (trim out) = Some j
           | Throw _ => True
           end.
Proof.
  intros Hr. inversion Hr as [| | | | |? ? ? ? ? [->|[out Ho]]]; simplify_eq/=; eauto 10.
  by inversion Ho; simplify_eq/=.
Qed.

Lemma patch_reply body s r s' :
  kubectl_reply namespace (buildPatchSecretArgs N namespace) (Some body) s r s' →
  (s' = s ∧ ∃ msg, r = Throw msg)
  ∨ ∃ j o o', s !! N = Some o ∧ parse body = Some j ∧ apply_patch j o = Some o' ∧ s' = <[N := o']> s.
Proof.
  intros Hr. inversion Hr as [| | | | |? ? ? ? ? [->|[out Ho]]]; simplify_eq/=; eauto 10.
  inversion Ho; simplify_eq/=. eauto 10.
Qed.

Lemma fetched j o out : shows j o → parse (trim out) = Some j → trim out ≠ [] ∧ parseSecretJson (trim out) = Ok j.
Proof.
  intros [[Hr Hm] _ _] Hp. split; [intros E; by rewrite E in Hp|]. unfold parseSecretJson. rewrite Hp, Hr.
  destruct (field "metadata" j) as [m|] eqn:Em; [rewrite (Hm "metadata" _ ltac:(set_solver) Em)|];
    (destruct (field "data" j) as [d|] eqn:Ed; [rewrite (Hm "data" _ ltac:(set_solver) Ed)|]); done.
Qed.

(** A patch is where the write lands. *)
Lemma patch_atomic w j :
  (∀ o, ∃ o', apply_patch j o = Some o' ∧ ∀ n, view_of keks subject o' n = written w (view_of keks subject o) n) →
  serialisable j = true →
  atomic w false (pbind (guarded (buildPatchSecretArgs N namespace) (Some (stringify j))) (fun _ => Ret tt)).
Proof.
  intros Ho Hj s r s' Hr. apply patch_reply in Hr as [[-> [msg ->]]|(j' & o & o' & Es & Hp & Ha & ->)]; [by left|].
  rewrite parse_stringify in Hp by done. injection Hp as <-. destruct (Ho o) as (o'' & Ha' & Hv). simplify_eq.
  right. split_and!; [done| |by destruct r]. intros n. rewrite view_insert, Hv.
  assert (∀ n, V s n = view_of keks subject o n) as Hs by (intros; unfold view; by rewrite Es).
  unfold written. by rewrite Hs.
Qed.

Lemma fetch_atomic w (k : option json → kprog unit) :
  (∀ s, s !! N = None → ∀ n, V s n = written w (V s) n) → atomic w true (k None) → (∀ j, atomic w false (k (Some j))) →
  atomic w false (pbind (fetch namespace subjectHash subject) k).
Proof.
  intros Hn H0 H1 s r s' Hr. apply get_reply in Hr as [-> Hr]. destruct r as [out|msg]; [|by left]. cbn [pbind].
  destruct Hr as [[Es Et]|(o & j & Es & Hsh & Hp)].
  - right. rewrite Et. auto.
  - left. split; [done|]. destruct (fetched _ _ _ Hsh Hp) as [Ht Hj].
    destruct (trim out) as [|c l] eqn:E; [done|]. rewrite Hj. apply H1.
Qed.

Lemma write_atomic w : storable w → atomic w false (write_prog w).
Proof.
  destruct w as [cred|n]; intros Hw; unfold write_prog.
  - assert (Hk : atomic (WPut cred) false (put_sealed namespace subjectHash keks subject cred)).
    { intros s1 iv s2 ->. left. split; [done|]. cbn [pbind].
      destruct (seal _ _ _ _ _) as [sealed|e] eqn:Es; [|done].
      apply patch_atomic; [intros o; by apply (put_patch_view keks subject cred iv)|apply put_patch_serialisable]. }
    intros s r s' Hr. left. split; [exact (create_reply _ _ _ Hr)|].
    destruct r as [out|msg]; [exact Hk|]. destruct (isAlreadyExists msg); [exact Hk|done].
  - apply fetch_atomic.
    + intros s Es m. unfold view. rewrite Es. simpl. by case_bool_decide.
    + done.
    + intros j. apply patch_atomic; [apply delete_patch_view|apply delete_patch_serialisable].
Qed.

Lemma written_ext w v v' n : (∀ m, v m = v' m) → written w v n = written w v' n.
Proof. intros Hv. destruct w; simpl; by rewrite Hv. Qed.

Lemma replay_snoc ws hist i w v : ws !! i = Some w → replay ws (hist ++ [i]) v = written w (replay ws hist v).
Proof. intros Hw. unfold replay. rewrite foldl_app. simpl. by rewrite Hw. Qed.

(** What is seen is the result of the writes that have landed, each once. *)
Record linear (ws : list write) (s0 : Kube) (ps : list (kprog unit)) (s : Kube) (hist : list nat) : Prop := {
  lin_once : NoDup hist;
  lin_own : ∀ i, i ∈ hist → is_Some (ws !! i);
  lin_seen : ∀ n, V s n = replay ws hist (V s0) n;
  lin_atomic : ∀ i w p, ws !! i = Some w → ps !! i = Some p → atomic w (bool_decide (i ∈ hist)) p;
}.

Lemma linear_step ws s0 ps s hist ps' s' :
  length ps = length ws → linear ws s0 ps s hist → store_step (ps, s) (ps', s') →
  length ps' = length ws ∧ ∃ hist', linear ws s0 ps' s' hist'.
Proof.
  intros Hlen [Hnd Hown Hseen Hat] Hstep. inversion Hstep as [? i p p' ? ? Hi Hp|? ? ? Hs]; subst.
  - split; [by rewrite length_insert|]. inversion Hp as [c k ? r ? Hr]; subst.
    destruct (lookup_lt_is_Some_2 ws i) as [w Hw]; [rewrite <-Hlen; by eapply lookup_lt_Some|].
    assert (Hothers : ∀ hist' : list nat, (∀ j, j ≠ i → j ∈ hist' ↔ j ∈ hist) → atomic w (bool_decide (i ∈ hist')) (k r) →
      ∀ j w' q, ws !! j = Some w' → <[i := k r]> ps !! j = Some q → atomic w' (bool_decide (j ∈ hist')) q).
    { intros hist' Hj Hk j w' q Hw' [(<- & <- & _)|(Hne & Hq)]%list_lookup_insert_Some; [by simplify_eq|].
      rewrite (bool_decide_ext _ _ (Hj j (not_eq_sym Hne))). by apply Hat. }
    destruct (Hat i w _ Hw Hi _ _ _ Hr) as [[Hv Hk]|(Hl & Hv & Hk)].
    + exists hist. split; [done|done|intros n; by rewrite Hv|by apply Hothers].
    + apply bool_decide_eq_false in Hl. exists (hist ++ [i]). split.
      * apply NoDup_app. split_and!; [done|set_solver|apply NoDup_singleton].
      * intros j. rewrite elem_of_app, list_elem_of_singleton. intros [Hj| ->]; eauto.
      * intros n. rewrite (replay_snoc _ _ _ _ _ Hw), Hv. by apply written_ext.
      * apply Hothers; [set_solver|]. rewrite bool_decide_eq_true_2 by set_solver. done.
  - split; [done|]. exists hist. split; try done. intros n. rewrite <-Hseen. unfold view. by rewrite Hs.
Qed.

Lemma linear_steps ws s0 x y :
  rtc store_step x y → length x.1 = length ws → (∃ hist, linear ws s0 x.1 x.2 hist) →
  length y.1 = length ws ∧ ∃ hist, linear ws s0 y.1 y.2 hist.
Proof.
  induction 1 as [x|[ps s] [ps' s'] z Hs _ IH]; intros Hlen [hist Hl]; [by eauto|].
  destruct (linear_step _ _ _ _ _ _ _ Hlen Hl Hs) as [Hlen' Hl']. by apply IH.
Qed.

Lemma linear_start ws s0 : Forall storable ws → linear ws s0 (write_prog <$> ws) s0 [].
Proof.
  intros Hws. split; [constructor|set_solver|done|]. intros i w p Hw Hp.
  rewrite list_lookup_fmap, Hw in Hp. injection Hp as <-. apply write_atomic. rewrite Forall_lookup in Hws. eauto.
Qed.

(** A read answers what is seen at the time of its one command. *)
Lemma get_answers s n c s' :
  rtc (pstep (kube_replies namespace)) (k8s_get namespace subjectHash keks subject n, s) (Ret c, s') → (V s n).1 = Ok c.
Proof.
  intros Hr. apply (always_steps _ (fun _ => True) _ _ (fun o _ => ∀ c, o = Ok c → (V s n).1 = Ok c)) in Hr.
  - destruct Hr as [_ Hr]. by apply Hr.
  - split; [done|]. intros r s1 [-> Ha]%get_reply. destruct r as [out|msg]; [|by split]. cbn [pbind].
    unfold view. destruct Ha as [[-> ->]|(o & j & -> & Hsh & Hp)]; [split; naive_solver|].
    destruct (fetched _ _ _ Hsh Hp) as [Ht Hj]. destruct (trim out) as [|x l] eqn:E; [done|]. rewrite Hj.
    cbn [of_result pbind]. destruct Hsh as [_ Ha Hd].
    rewrite (credential_in_ext keks subject n _ (wire_data o) _ (s_annotations o !!.)); [|apply Hd|intros; apply Ha].
    unfold view_of. cbn [fst]. destruct (credential_in _ _ _ _ _); simpl; naive_solver.
Qed.

(** C19. Any number of puts and deletes of one subject's credentials, by any number of replicas,
    their commands interleaved and failing anyhow: what a reader finds is what the writes that
    landed leave when done one after the other in some order, each at most once and none lost
    to another; every write that was reported done has landed; and a deleted credential leaves
    no sealed value behind. *)
Theorem k8s_writes_linearize ws s0 ps s :
  Forall storable ws → rtc store_step (write_prog <$> ws, s0) (ps, s) →
  ∃ hist, NoDup hist ∧ (∀ i, i ∈ hist → is_Some (ws !! i)) ∧ (∀ i, ps !! i = Some (Ret tt) → i ∈ hist)
  ∧ (∀ n, V s n = replay ws hist (V s0) n)
  ∧ ∀ n c s', rtc (pstep (kube_replies namespace)) (k8s_get namespace subjectHash keks subject n, s) (Ret c, s') →
      (replay ws hist (V s0) n).1 = Ok c.
Proof.
  intros Hws Hr. destruct (linear_steps ws s0 _ _ Hr (length_fmap _ _) (ex_intro _ [] (linear_start _ _ Hws))) as [Hlen Hl].
  destruct Hl as (hist & [Hnd Hown Hseen Hat]). simpl in *. exists hist. split_and!; [done|done| |done|].
  - intros i Hi. destruct (lookup_lt_is_Some_2 ws i) as [w Hw]; [rewrite <-Hlen; by eapply lookup_lt_Some|].
    exact (bool_decide_eq_true_1 _ (Hat i w _ Hw Hi)).
  - intros n c s' Hg%get_answers. by rewrite <-Hseen.
Qed.

Lemma writer_runs ps i p p' s s' :
  ps !! i = Some p → rtc (pstep (kube_replies namespace)) (p, s) (p', s') → rtc store_step (ps, s) (<[i := p']> ps, s').
Proof.
  intros Hi Hr. remember (p, s) as x eqn:Ex. remember (p', s') as y eqn:Ey. revert ps p s Hi Ex.
  induction Hr as [x|x [p1 s1] z Hs _ IH]; intros ps p s Hi Ex; simplify_eq.
  - rewrite list_insert_id by done. apply rtc_refl.
  - eapply rtc_l; [by eapply step_writer|]. rewrite <-(list_insert_insert_eq ps i p' p1).
    eapply IH; [done|..|done]. apply list_lookup_insert_eq. by eapply lookup_lt_Some.
Qed.
End Linear.

(** ** One run *)

Section ToyKube.
#[local] Instance toy_cipher : AesGcm := toy_gcm.

(** A server that carries out every create and patch it can. *)
Definition toy_kube (c : kcall) (s : Kube) : kanswer c * Kube :=
  match c return kanswer c * Kube with
  | KNonce => (bytes_of "iv", s)
  | Kubectl args stdin =>
      let n := secretNameFor (fun x => x) "github:1" in
      if bool_decide (args = buildCreateSecretArgs n "ns" ∧ stdin = None ∧ s !! n = None)
      then (Ok [], <[n := mkSecret ∅ ∅]> s)
      else if bool_decide (args = buildPatchSecretArgs n "ns")
      then match (body ← stdin; j ← parse body; o ← s !! n; o' ← apply_patch j o; Some (n, o')) with
           | Some (n, o') => (Ok [], <[n := o']> s)
           | None => (Throw "refused", s)
           end
      else (Throw "refused", s)
  end.

Lemma toy_kube_replies c s : kube_replies "ns" c s (toy_kube c s).1 (toy_kube c s).2.
Proof.
  destruct c as [args stdin|]; [|done].
  assert (Hf : kubectl_reply "ns" args stdin s (Throw "refused") s) by (apply reply_failed; [by left|by vm_compute]).
  unfold toy_kube, kube_replies. case_bool_decide as E1; [destruct E1 as (-> & -> & ?); by apply reply_created|].
  case_bool_decide as E2; [subst args|done].
  destruct stdin as [body|]; [|done]. simpl. destruct (parse body) as [j|] eqn:Ej; [|done]. simpl.
  destruct (s !! _) as [o|] eqn:Eo; [|done]. simpl. destruct (apply_patch j o) as [o'|] eqn:Eo'; [|done]. simpl.
  by eapply reply_patched.
Qed.

Lemma k8s_writes_linearize_witness :
  ∃ hist ps s, rtc (store_step "ns" (fun x => x) "github:1")
      (write_prog "ns" (fun x => x) [bytes_of "k"] "github:1" <$> [WPut toy_credential; WDelete "other"], ∅) (ps, s)
  ∧ ps !! 0%nat = Some (Ret tt) ∧ 0%nat ∈ hist
  ∧ view [bytes_of "k"] "github:1" (fun x => x) s "main"
    = replay [WPut toy_credential; WDelete "other"] hist (view [bytes_of "k"] "github:1" (fun x => x) ∅) "main".
Proof.
  set (ws := [WPut toy_credential; WDelete "other"]).
  set (p := write_prog "ns" (fun x => x) [bytes_of "k"] "github:1" (WPut toy_credential)).
  pose proof (prun_steps (kube_replies "ns") toy_kube p ∅ toy_kube_replies) as Hp.
  assert (Ho : (prun toy_kube p ∅).1 = Ok tt) by (by vm_compute). rewrite Ho in Hp.
  apply (writer_runs "ns" (fun x => x) "github:1" (write_prog "ns" (fun x => x) [bytes_of "k"] "github:1" <$> ws) 0%nat)
    in Hp; [|done].
  assert (Hws : Forall storable ws).
  { constructor; [split_and!; [by apply (bool_decide_unpack _)|done|done]|]. by constructor. }
  destruct (k8s_writes_linearize "ns" (fun x => x) [bytes_of "k"] "github:1" ws ∅ _ _ Hws Hp) as (hist & _ & _ & H1 & H2 & _).
  exists hist. eexists _, _. split; [exact Hp|]. split; [done|]. split; [by apply H1|apply H2].
Defined.
End ToyKube.

(** ** The patch file *)

(** Running kubectl with a patch: its body is in no argument of the command, only the name of a
    fresh file is; once the file is written the command runs exactly once, the file is removed on
    every path after that, and the outcome is the command's, whether or not removing it worked. *)
Theorem patch_file_removed tmpdir args body tr o :
  runs (defaultRunKubectl tmpdir args (Some body)) tr o →
  ∃ hex, let path := tmpdir +:+ "/sh-cp-patch-" +:+ hex +:+ ".json" in
  (∃ msg, tr = [ev RandomName hex; ev (WritePatch path body) (Throw msg)] ∧ o = Throw msg)
  ∨ ∃ e r, tr = [ev RandomName hex; ev (WritePatch path body) (Ok tt);
                 ev (Spawn (replaceAll "/dev/stdin" path <$> args)) e; ev (RemovePatch path) r]
    ∧ runs (spawnKubectl (replaceAll "/dev/stdin" path <$> args)) [ev (Spawn _) e] o.
Proof.
  intros (hex & tr1 & -> & Hr)%runs_inv. exists hex. cbn [pbind] in Hr. intros path.
  apply runs_inv in Hr as (w & tr2 & -> & Hr). destruct w as [[]|msg]; cbn [of_result pbind] in Hr.
  - right. apply runs_inv in Hr as (e & tr3 & -> & Hr). exists e.
    destruct e as [msg|[[| |]|] out err]; cbn [pfinally pbind] in Hr;
      apply runs_inv in Hr as (r & tr4 & -> & [-> ->]%runs_inv); exists r; (split; [done|]); repeat constructor.
  - left. apply runs_inv in Hr as [-> ->]. by exists msg.
Qed.
