(* ===== verification/SubjectQueue.v ===== *)
(** * One read-modify-write at a time per subject

    Models the class [SubjectQueue] of [packages/control-plane/src/subject-document.ts], through
    which the file and the Vault store run their writes.  A promise of the chain is the position
    of its operation in [ops]; an operation is its program ([op_body]), run against its subject's
    part of the store.  The runtime may start an operation whose predecessor has settled, answer
    one of its calls, settle it, or run the callback that tidies the map, in any order. *)

From S2P Require Import Prelude Prog.

Section Queue.
Context {C : Type} {R : C → Type} {E St : Type} (reply : ∀ c, St → R c → St → Prop).

Inductive status :=
| Waiting
| Running (p : prog C R E unit)
| Settled (r : result E unit).

Record Op := mkOp {
  op_subject : string;
  op_prev : option nat;          (* [prev], unless it is [Promise.resolve()] *)
  op_body : prog C R E unit;
  op_status : status;
  op_tidied : bool;              (* the [tail.then] callback has run *)
}.

Record SubjectQueue := mkQueue { chains : list (string * nat); ops : list Op }.

Definition set_status (st : status) (o : Op) : Op :=
  mkOp (op_subject o) (op_prev o) (op_body o) st (op_tidied o).

(** [run(subject, op)] *)
Definition run (subject : string) (body : prog C R E unit) (q : SubjectQueue) : SubjectQueue :=
  mkQueue (map_set subject (length (ops q)) (chains q))
          (ops q ++ [mkOp subject (map_get subject (chains q)) body Waiting false]).

(** The callback of [tail.then]. *)
Definition tidy (i : nat) (q : SubjectQueue) : SubjectQueue :=
  match ops q !! i with
  | Some o =>
      mkQueue (if bool_decide (map_get (op_subject o) (chains q) = Some i)
               then map_delete (op_subject o) (chains q) else chains q)
              (<[i := mkOp (op_subject o) (op_prev o) (op_body o) (op_status o) true]> (ops q))
  | None => q
  end.

Definition settled (o : Op) : Prop := ∃ r, op_status o = Settled r.

(** [prev.then(op, op)] runs [op] once [prev] has settled either way. *)
Definition can_start (l : list Op) (o : Op) : Prop :=
  op_status o = Waiting
  ∧ match op_prev o with None => True | Some j => ∃ oj, l !! j = Some oj ∧ settled oj end.

Inductive queue_step : SubjectQueue * (string → St) → SubjectQueue * (string → St) → Prop :=
| step_run q st subject body : queue_step (q, st) (run subject body q, st)
| step_start q st i o :
    ops q !! i = Some o → can_start (ops q) o →
    queue_step (q, st) (mkQueue (chains q) (<[i := set_status (Running (op_body o)) o]> (ops q)), st)
| step_act q st i o p p' s' :
    ops q !! i = Some o → op_status o = Running p → pstep reply (p, st (op_subject o)) (p', s') →
    queue_step (q, st) (mkQueue (chains q) (<[i := set_status (Running p') o]> (ops q)),
                        fun x => if decide (x = op_subject o) then s' else st x)
| step_settle q st i o r :
    ops q !! i = Some o → op_status o = Running (of_result r) →
    queue_step (q, st) (mkQueue (chains q) (<[i := set_status (Settled r) o]> (ops q)), st)
| step_tidy q st i o :
    ops q !! i = Some o → settled o → op_tidied o = false → queue_step (q, st) (tidy i q, st).

(** ** Invariant *)

Record queue_ok (q : SubjectQueue) : Prop := {
  ok_prev : ∀ i o j, ops q !! i = Some o → op_prev o = Some j →
    (j < i)%nat ∧ (∃ oj, ops q !! j = Some oj ∧ op_subject oj = op_subject o)
    ∧ ∀ k ok, (j < k < i)%nat → ops q !! k = Some ok → op_subject ok ≠ op_subject o;
  ok_first : ∀ i o k ok, ops q !! i = Some o → op_prev o = None →
    (k < i)%nat → ops q !! k = Some ok → op_subject ok = op_subject o → settled ok;
  ok_order : ∀ i o k ok, ops q !! i = Some o → op_status o ≠ Waiting →
    (k < i)%nat → ops q !! k = Some ok → op_subject ok = op_subject o → settled ok;
  ok_tail : ∀ x j, map_get x (chains q) = Some j →
    (∃ oj, ops q !! j = Some oj ∧ op_subject oj = x ∧ op_tidied oj = false)
    ∧ ∀ k ok, (j < k)%nat → ops q !! k = Some ok → op_subject ok ≠ x;
  ok_none : ∀ x k ok, map_get x (chains q) = None → ops q !! k = Some ok → op_subject ok = x → settled ok;
}.

(** Rewriting one operation, without forgetting that it settled. *)
Lemma ok_update q i o o' ch :
  queue_ok q → ops q !! i = Some o → op_subject o' = op_subject o → op_prev o' = op_prev o →
  (settled o → settled o') →
  (op_status o' ≠ Waiting → ∀ k ok, (k < i)%nat → ops q !! k = Some ok → op_subject ok = op_subject o → settled ok) →
  (∀ x j, map_get x ch = Some j → map_get x (chains q) = Some j ∧ (j = i → op_tidied o' = false)) →
  (∀ x k ok, map_get x ch = None → is_Some (map_get x (chains q)) → ops q !! k = Some ok → op_subject ok = x → settled ok) →
  queue_ok (mkQueue ch (<[i := o']> (ops q))).
Proof.
  intros [H1 H2 H3 H4 H5] Hi Hsub Hprev Hset Hord Hch Hgone.
  assert (Hget : ∀ k ok, <[i := o']> (ops q) !! k = Some ok →
    ∃ ok0, ops q !! k = Some ok0 ∧ op_subject ok = op_subject ok0 ∧ op_prev ok = op_prev ok0 ∧ (settled ok0 → settled ok)
    ∧ (k = i ∧ ok = o' ∨ k ≠ i ∧ ok = ok0)).
  { intros k ok [(<- & <- & _)|(Hne & Hk)]%list_lookup_insert_Some; [exists o; by split_and!; auto|]. exists ok. by split_and!; auto. }
  assert (Hput : ∀ k ok0, ops q !! k = Some ok0 → ∃ ok, <[i := o']> (ops q) !! k = Some ok ∧ op_subject ok = op_subject ok0).
  { intros k ok0 Hk. destruct (decide (k = i)) as [->|Hne].
    - exists o'. simplify_eq. split; [|done]. apply list_lookup_insert_eq. by eapply lookup_lt_Some.
    - exists ok0. by rewrite list_lookup_insert_ne. }
  split; simpl.
  - intros a oa j (oa0 & Ha & Hs & Hp & _)%Hget Hj. rewrite Hp in Hj. destruct (H1 _ _ _ Ha Hj) as (Hlt & (oj & Hoj & Hsj) & Hk).
    destruct (Hput _ _ Hoj) as (oj' & Hoj' & Hsj'). split_and!; [done|exists oj'; split; [done|congruence]|].
    intros k ok Hlt' (ok0 & Hok & Hsk & _)%Hget. rewrite Hsk, Hs. by eapply Hk.
  - intros a oa k ok (oa0 & Ha & Hs & Hp & _)%Hget Hj Hlt (ok0 & Hok & Hsk & _ & Hst & _)%Hget He.
    apply Hst. eapply H2; [exact Ha|congruence|exact Hlt|exact Hok|congruence].
  - intros a oa k ok (oa0 & Ha & Hs & _ & _ & Hor)%Hget Hw Hlt (ok0 & Hok & Hsk & _ & Hst & _)%Hget He. apply Hst.
    destruct Hor as [[-> ->]|[Hne ->]]; [eapply Hord; [done..|congruence]|eapply H3; [exact Ha|done..|congruence]].
  - intros x j [Hj Ht]%Hch. destruct (H4 _ _ Hj) as ((oj & Hoj & Hsj & Htj) & Hk). split.
    + destruct (decide (j = i)) as [->|Hne].
      * exists o'. simplify_eq. split_and!; [|done|by apply Ht]. apply list_lookup_insert_eq. by eapply lookup_lt_Some.
      * exists oj. by rewrite list_lookup_insert_ne.
    + intros k ok Hlt (ok0 & Hok & Hsk & _)%Hget. rewrite Hsk. by eapply Hk.
  - intros x k ok Hx (ok0 & Hok & Hsk & _ & Hst & _)%Hget He. apply Hst.
    destruct (map_get x (chains q)) eqn:Ex; [eapply Hgone|eapply H5]; eauto; congruence.
Qed.

Lemma ok_run q subject body : queue_ok q → queue_ok (run subject body q).
Proof.
  intros [H1 H2 H3 H4 H5].
  assert (Hget : ∀ k ok, ops (run subject body q) !! k = Some ok →
    ops q !! k = Some ok ∨ k = length (ops q) ∧ ok = mkOp subject (map_get subject (chains q)) body Waiting false).
  { intros k ok [|[Hle Hk]]%lookup_app_Some; [by left|right]. apply list_lookup_singleton_Some in Hk as [Hk <-]. split; [lia|done]. }
  assert (Hput : ∀ k ok, ops q !! k = Some ok → ops (run subject body q) !! k = Some ok) by (intros; by apply lookup_app_l_Some).
  assert (Hlt : ∀ k ok, ops q !! k = Some ok → (k < length (ops q))%nat) by (intros; by eapply lookup_lt_Some).
  split.
  - intros a oa j [Ha|[-> ->]]%Hget Hj.
    + destruct (H1 _ _ _ Ha Hj) as (? & (oj & ? & ?) & Hk). split_and!; [done|by eauto|].
      intros k ok Hb [Hok|[-> _]]%Hget; [by eapply Hk|]. apply Hlt in Ha. lia.
    + simpl in Hj. destruct (H4 _ _ Hj) as ((oj & Hoj & Hs & _) & Hk). split_and!; [by eapply Hlt|by eauto|].
      intros k ok Hb [Hok|[-> _]]%Hget; [eapply Hk; [|done]; lia|lia].
  - intros a oa k ok [Ha|[-> ->]]%Hget Hp Hl [Hok|[-> ->]]%Hget He; try (by eauto); try (apply Hlt in Ha; lia); try lia.
  - intros a oa k ok [Ha|[-> ->]]%Hget Hw Hl [Hok|[-> ->]]%Hget He; try (by eauto); try done. apply Hlt in Ha. lia.
  - intros x j. simpl. rewrite map_get_set. case_decide as Hx; [intros [= <-]; subst x|intros Hj].
    + split.
      * eexists. split; [apply list_lookup_middle; done|done].
      * intros k ok Hl [Hok|[-> _]]%Hget; [apply Hlt in Hok|]; lia.
    + destruct (H4 _ _ Hj) as ((oj & Hoj & ? & ?) & Hk). split; [exists oj; auto|].
      intros k ok Hl [Hok|[-> ->]]%Hget; [by eapply Hk|]. simpl. congruence.
  - intros x k ok. simpl. rewrite map_get_set. case_decide as Hx; [done|]. intros Hn [Hok|[-> ->]]%Hget He; [by eapply H5|].
    simpl in He. congruence.
Qed.

Lemma ok_set_status q i o st :
  queue_ok q → ops q !! i = Some o → ¬ settled o →
  (∀ k ok, (k < i)%nat → ops q !! k = Some ok → op_subject ok = op_subject o → settled ok) →
  queue_ok (mkQueue (chains q) (<[i := set_status st o]> (ops q))).
Proof.
  intros Hok Hi Hns Hord. eapply ok_update; try done.
  - intros x j Hx. split; [done|intros ->]. destruct (ok_tail _ Hok _ _ Hx) as ((oi & ? & _ & ?) & _). by simplify_eq.
  - by intros x k ok -> [? ?].
Qed.

(** An operation that may start has only settled ones of its subject before it. *)
Lemma ok_started q i o k ok :
  queue_ok q → ops q !! i = Some o → can_start (ops q) o → (k < i)%nat → ops q !! k = Some ok →
  op_subject ok = op_subject o → settled ok.
Proof.
  intros Hok Hi [Hw Hprev] Hk Hok' He. destruct (op_prev o) as [j|] eqn:Ej; [|exact (ok_first _ Hok _ _ _ _ Hi Ej Hk Hok' He)].
  destruct Hprev as (oj & Hoj & Hsj). destruct (ok_prev _ Hok _ _ _ Hi Ej) as (Hji & (oj' & Hoj' & Hsub) & Hbet).
  simplify_eq. destruct (decide (k < j)%nat) as [Hlt|Hge].
  - eapply (ok_order _ Hok); [exact Hoj| |exact Hlt|done|congruence]. destruct Hsj as [? ->]. done.
  - destruct (decide (k = j)) as [->|Hne]; [by simplify_eq|]. exfalso. eapply Hbet; [|exact Hok'|done]. lia.
Qed.

Lemma ok_tidy q i o : queue_ok q → ops q !! i = Some o → settled o → queue_ok (tidy i q).
Proof.
  intros Hok Hi Hset. unfold tidy. rewrite Hi.
  eapply ok_update; try done.
  - intros Hw k ok Hk Hok' He. by eapply (ok_order _ Hok); [exact Hi|..].
  - intros x j. case_bool_decide as Ht; simpl; [rewrite map_get_delete; case_decide as Hx; [done|]|]; intros Hj; (split; [done|]).
    + intros ->. destruct (ok_tail _ Hok _ _ Hj) as ((oi & ? & ? & _) & _). simplify_eq.
    + intros ->. destruct (ok_tail _ Hok _ _ Hj) as ((oi & ? & ? & _) & _). simplify_eq.
  - intros x k ok. case_bool_decide as Ht; [rewrite map_get_delete; case_decide as Hx; [|by intros -> [? ?]]|by intros -> [? ?]].
    intros _ _ Hok' He. subst x. destruct (ok_tail _ Hok _ _ Ht) as (_ & Hlast).
    destruct (decide (k < i)%nat); [|destruct (decide (k = i)) as [->|]].
    + eapply (ok_order _ Hok); [exact Hi| |done..]. destruct Hset as [? ->]. done.
    + by simplify_eq.
    + exfalso. eapply (Hlast k); [lia|done..].
Qed.

Lemma ok_step x y : queue_step x y → queue_ok x.1 → queue_ok y.1.
Proof.
  intros Hs Hok. destruct Hs as [q st subject body|q st i o Hi Hst|q st i o p p' s' Hi Hp Hact|q st i o r Hi Hp|q st i o Hi Hset Ht]; simpl in *.
  - by apply ok_run.
  - apply ok_set_status; [done..| |intros k ok Hk Hok' He; exact (ok_started _ _ _ _ _ Hok Hi Hst Hk Hok' He)]. intros [r Hr]. destruct Hst. congruence.
  - apply ok_set_status; [done..| |]; [intros [r Hr]; congruence|].
    intros k ok Hk Hok' He. eapply (ok_order _ Hok); [exact Hi|congruence|done..].
  - apply ok_set_status; [done..| |]; [intros [r' Hr]; congruence|].
    intros k ok Hk Hok' He. eapply (ok_order _ Hok); [exact Hi|congruence|done..].
  - by eapply ok_tidy.
Qed.

(** ** Serial execution *)

(** A subject's operations, oldest first. *)
Definition of_subject (x : string) (l : list Op) : list Op := filter (fun o => op_subject o = x) l.

(** The settled ones ran whole, one after the other. *)
Inductive ran : list Op → St → St → Prop :=
| ran_nil s : ran [] s s
| ran_one o l r s s1 s' :
    op_status o = Settled r → rtc (pstep reply) (op_body o, s) (of_result r, s1) → ran l s1 s' → ran (o :: l) s s'.

(** Then the one that runs, if there is one, has run alone from there; the rest wait. *)
Definition serial (l : list Op) (s s' : St) : Prop :=
  ∃ before now after s1, l = before ++ now ++ after ∧ ran before s s1
  ∧ (now = [] ∧ s' = s1
     ∨ ∃ o p, now = [o] ∧ op_status o = Running p ∧ rtc (pstep reply) (op_body o, s1) (p, s'))
  ∧ Forall (fun o => op_status o = Waiting) after.

Lemma ran_snoc l o r s s1 s' :
  ran l s s1 → op_status o = Settled r → rtc (pstep reply) (op_body o, s1) (of_result r, s') → ran (l ++ [o]) s s'.
Proof. intros Hr Ho Hb. induction Hr as [s|o' l r' s s2 s3 Ho' Hb' _ IH]; simpl; econstructor; eauto. constructor. Qed.

Lemma ran_settled l s s' : ran l s s' → Forall settled l.
Proof. induction 1; constructor; [by eexists|done]. Qed.

(** Two ways of cutting a list whose parts differ in status agree. *)
Lemma cut_agrees (P Q : Op → Prop) l1 l2 l1' l2' :
  l1 ++ l2 = l1' ++ l2' → Forall P l1 → Forall P l1' →
  (∀ o, P o → Q o → False) → (∀ o, head l2 = Some o → Q o) → (∀ o, head l2' = Some o → Q o) → l1 = l1' ∧ l2 = l2'.
Proof.
  intros He H1 H1' Hx H2 H2'. revert l1' He H1'. induction H1 as [|o l1 Ho _ IH]; intros [|o' l1'] He H1'; simpl in *.
  - done.
  - exfalso. apply Forall_cons in H1' as [? _]. subst l2. eauto.
  - exfalso. subst l2'. eauto.
  - apply Forall_cons in H1' as [_ H1']. injection He as -> He. destruct (IH l1' He H1') as [-> ->]. done.
Qed.

Lemma of_subject_insert l i o o' x :
  l !! i = Some o → op_subject o' = op_subject o →
  of_subject x (<[i := o']> l)
  = (if decide (op_subject o = x) then of_subject x (take i l) ++ o' :: of_subject x (drop (S i) l) else of_subject x l).
Proof.
  intros Hi Hs. rewrite insert_take_drop by (by eapply lookup_lt_Some). unfold of_subject.
  rewrite filter_app, filter_cons, Hs. case_decide as Hx; [done|].
  rewrite <-(take_drop_middle l i o Hi) at 3. by rewrite filter_app, filter_cons, decide_False.
Qed.

Lemma of_subject_middle l i o :
  l !! i = Some o →
  of_subject (op_subject o) l = of_subject (op_subject o) (take i l) ++ o :: of_subject (op_subject o) (drop (S i) l).
Proof.
  intros Hi. unfold of_subject. rewrite <-(take_drop_middle l i o Hi) at 1. by rewrite filter_app, filter_cons, decide_True.
Qed.

Lemma of_subject_elem x l o : o ∈ of_subject x l → op_subject o = x ∧ ∃ i, l !! i = Some o.
Proof. intros [Hx Ho]%list_elem_of_filter. split; [done|by apply list_elem_of_lookup_1]. Qed.

(** Around an operation that has not settled and may run: settled ones before, waiting ones after. *)
Lemma ok_around q i o :
  queue_ok q → ops q !! i = Some o → ¬ settled o →
  (∀ k ok, (k < i)%nat → ops q !! k = Some ok → op_subject ok = op_subject o → settled ok) →
  Forall settled (of_subject (op_subject o) (take i (ops q)))
  ∧ Forall (fun o => op_status o = Waiting) (of_subject (op_subject o) (drop (S i) (ops q))).
Proof.
  intros Hok Hi Hns Hbefore. split; apply Forall_forall; intros ok [Hs [k Hk]]%of_subject_elem.
  - apply lookup_take_Some in Hk as [Hk Hlt]. by eapply Hbefore.
  - rewrite lookup_drop in Hk. destruct (op_status ok) eqn:Est; [done|exfalso..];
      (apply Hns; eapply (ok_order _ Hok); [exact Hk|congruence| |exact Hi|done]; lia).
Qed.

Lemma serial_cut l1 o l2 s s' :
  serial (l1 ++ o :: l2) s s' → Forall settled l1 → ¬ settled o →
  ∃ s1, ran l1 s s1 ∧ (op_status o = Waiting ∧ s' = s1
                       ∨ ∃ p, op_status o = Running p ∧ rtc (pstep reply) (op_body o, s1) (p, s')).
Proof.
  intros (before & now & after & s1 & He & Hran & Hnow & Hafter) H1 Hns.
  assert (Hh : ∀ o', head (now ++ after) = Some o' → ¬ settled o').
  { intros o'. destruct Hnow as [[-> _]|(o1 & p & -> & Ho1 & _)]; simpl.
    - destruct Hafter as [|o2 l Ho2 _]; [done|]. intros [= <-] [r Hr]. congruence.
    - intros [= <-] [r Hr]. congruence. }
  destruct (cut_agrees settled (fun o => ¬ settled o) _ _ _ _ He H1 (ran_settled _ _ _ Hran)) as [-> Hl];
    [by auto|by intros ? [= <-]|done|].
  exists s1. split; [done|]. destruct Hnow as [[-> ->]|(o1 & p & -> & Ho1 & Hp)]; simpl in Hl.
  - left. subst after. by apply Forall_cons in Hafter as [? _].
  - right. injection Hl as <- _. by exists p.
Qed.

Lemma serial_running l1 o l2 p s s1 s' :
  ran l1 s s1 → op_status o = Running p → rtc (pstep reply) (op_body o, s1) (p, s') →
  Forall (fun o => op_status o = Waiting) l2 → serial (l1 ++ o :: l2) s s'.
Proof. intros. exists l1, [o], l2, s1. split_and!; [done|done|right; by exists o, p|done]. Qed.

Lemma serial_settled l1 o l2 r s s1 s' :
  ran l1 s s1 → op_status o = Settled r → rtc (pstep reply) (op_body o, s1) (of_result r, s') →
  Forall (fun o => op_status o = Waiting) l2 → serial (l1 ++ o :: l2) s s'.
Proof.
  intros. exists (l1 ++ [o]), [], l2, s'. split_and!; [by rewrite <-app_assoc|by eapply ran_snoc|by left|done].
Qed.

(** Tidying changes neither what an operation is nor how far it got. *)
Definition same (o o' : Op) : Prop := op_status o' = op_status o ∧ op_body o' = op_body o.

Lemma ran_same l l' s s' : Forall2 same l l' → ran l s s' → ran l' s s'.
Proof.
  intros Hl Hr. revert l' Hl. induction Hr as [s|o l r s s1 s' Ho Hb _ IH]; intros l' Hl; inversion Hl as [|? o' ? l'' [H1 H2]]; subst.
  - constructor.
  - econstructor; [by rewrite H1|by rewrite H2|by apply IH].
Qed.

Lemma serial_same l l' s s' : Forall2 same l l' → serial l s s' → serial l' s s'.
Proof.
  intros Hl (before & now & after & s1 & -> & Hran & Hnow & Hafter).
  apply Forall2_app_inv_l in Hl as (before' & rest & Hb & (now' & after' & Hn & Ha & ->)%Forall2_app_inv_l & ->).
  exists before', now', after', s1. split_and!; [done|by eapply ran_same| |].
  - destruct Hnow as [[-> ->]|(o & p & -> & Ho & Hp)]; [left; by inversion Hn|right].
    inversion Hn as [|? o' ? l'' [H1 H2] Hnil]; subst. inversion Hnil; subst. exists o', p. by rewrite H1, H2.
  - clear -Hafter Ha. induction Ha as [|o o' l l' [H1 _] _ IH]; [constructor|].
    apply Forall_cons in Hafter as [? ?]. constructor; [congruence|auto].
Qed.

Lemma same_insert l i o o' x : l !! i = Some o → op_subject o' = op_subject o → same o o' →
  Forall2 same (of_subject x l) (of_subject x (<[i := o']> l)).
Proof.
  intros Hi Hs Hsame. rewrite (of_subject_insert _ _ _ _ _ Hi Hs).
  assert (Hr : ∀ l, Forall2 same l l) by (intros k; by apply Forall_Forall2_diag, Forall_true).
  case_decide as Hx; [|apply Hr]. subst x. rewrite (of_subject_middle _ _ _ Hi). by apply Forall2_app; [|constructor].
Qed.

Lemma cut_at q i o s s' :
  queue_ok q → ops q !! i = Some o → ¬ settled o →
  (∀ k ok, (k < i)%nat → ops q !! k = Some ok → op_subject ok = op_subject o → settled ok) →
  serial (of_subject (op_subject o) (ops q)) s s' →
  Forall (fun o => op_status o = Waiting) (of_subject (op_subject o) (drop (S i) (ops q)))
  ∧ ∃ s1, ran (of_subject (op_subject o) (take i (ops q))) s s1
    ∧ (op_status o = Waiting ∧ s' = s1
       ∨ ∃ p, op_status o = Running p ∧ rtc (pstep reply) (op_body o, s1) (p, s')).
Proof.
  intros Hok Hi Hns Hb Hser. destruct (ok_around _ _ _ Hok Hi Hns Hb) as [H1 H2]. split; [done|].
  rewrite (of_subject_middle _ _ _ Hi) in Hser. by eapply serial_cut.
Qed.

(** A running operation has only settled ones of its subject before it. *)
Lemma running_cut q i o p s s' :
  queue_ok q → ops q !! i = Some o → op_status o = Running p → serial (of_subject (op_subject o) (ops q)) s s' →
  Forall (fun o => op_status o = Waiting) (of_subject (op_subject o) (drop (S i) (ops q)))
  ∧ ∃ s1, ran (of_subject (op_subject o) (take i (ops q))) s s1 ∧ rtc (pstep reply) (op_body o, s1) (p, s').
Proof.
  intros Hok Hi Hp Hser. edestruct (cut_at q i o) as (H1 & s1 & Hran & Hor); [done|done| | |exact Hser|].
  - intros [r Hr]. congruence.
  - intros k ok Hk Hok' He. eapply (ok_order _ Hok); [exact Hi|congruence|done..].
  - split; [done|]. exists s1. split; [done|]. destruct Hor as [[? _]|(p1 & ? & ?)]; [congruence|].
    by assert (p = p1) as -> by congruence.
Qed.

Lemma serial_step st0 x y :
  queue_step x y → queue_ok x.1 → (∀ z, serial (of_subject z (ops x.1)) (st0 z) (x.2 z)) →
  ∀ z, serial (of_subject z (ops y.1)) (st0 z) (y.2 z).
Proof.
  intros Hs Hok Hser z. specialize (Hser z).
  destruct Hs as [q st subject body|q st i o Hi Hst|q st i o p p' s' Hi Hp Hact|q st i o r Hi Hp|q st i o Hi Hset Ht]; simpl in *.
  - destruct Hser as (before & now & after & s1 & He & Hran & Hnow & Hafter). unfold of_subject in *.
    exists before, now, (after ++ filter (fun o => op_subject o = z) [mkOp subject (map_get subject (chains q)) body Waiting false]), s1.
    rewrite filter_app, He, <-!app_assoc. split_and!; [done..|]. apply Forall_app. split; [done|].
    rewrite filter_cons, filter_nil. case_decide; repeat constructor.
  - rewrite (of_subject_insert _ _ _ _ _ Hi) by done. case_decide as Hz; [subst z|done].
    destruct (cut_at q i o (st0 (op_subject o)) (st (op_subject o)) Hok Hi) as (H2 & s1 & Hran & Hor); [|by intros; eapply (ok_started _ _ _ _ _ Hok Hi Hst)|exact Hser|].
    + intros [r Hr]. destruct Hst. congruence.
    + destruct Hor as [[_ ->]|(p & Hp & _)]; [|destruct Hst; congruence].
      eapply serial_running; [exact Hran|done|apply rtc_refl|done].
  - rewrite (of_subject_insert _ _ _ _ _ Hi) by done. case_decide as Hz; [subst z; rewrite decide_True by done|by rewrite decide_False by congruence].
    destruct (running_cut _ _ _ _ _ _ Hok Hi Hp Hser) as (H2 & s1 & Hran & Hr).
    eapply serial_running; [exact Hran|done| |done]. by eapply rtc_r.
  - rewrite (of_subject_insert _ _ _ _ _ Hi) by done. case_decide as Hz; [subst z|done].
    destruct (running_cut _ _ _ _ _ _ Hok Hi Hp Hser) as (H2 & s1 & Hran & Hr). by eapply serial_settled.
  - unfold tidy. rewrite Hi. simpl. eapply serial_same; [|exact Hser]. by eapply same_insert.
Qed.

Definition new_queue : SubjectQueue := mkQueue [] [].

Lemma queue_steps st0 x y :
  rtc queue_step x y → queue_ok x.1 → (∀ z, serial (of_subject z (ops x.1)) (st0 z) (x.2 z)) →
  queue_ok y.1 ∧ ∀ z, serial (of_subject z (ops y.1)) (st0 z) (y.2 z).
Proof.
  induction 1 as [x|x y z Hs _ IH]; intros Hok Hser; [done|]. apply IH; [by eapply ok_step|by eapply serial_step].
Qed.

Lemma queue_reach st0 x :
  rtc queue_step (new_queue, st0) x → queue_ok x.1 ∧ ∀ z, serial (of_subject z (ops x.1)) (st0 z) (x.2 z).
Proof.
  intros Hr. eapply queue_steps; [exact Hr|by split|]. intros z.
  exists [], [], [], (st0 z). split_and!; [done|constructor|by left|constructor].
Qed.

(** The oldest operation of a subject that has not settled runs or may start. *)
Lemma oldest_goes q i o :
  queue_ok q → ops q !! i = Some o → ¬ settled o →
  ∃ j oj, ops q !! j = Some oj ∧ op_subject oj = op_subject o ∧ ((∃ p, op_status oj = Running p) ∨ can_start (ops q) oj).
Proof.
  intros Hok. revert o. induction i as [i IH] using lt_wf_ind. intros o Hi Hns.
  destruct (op_status o) as [|p|r] eqn:Est; [|by exists i, o; eauto|by destruct Hns; exists r].
  destruct (op_prev o) as [j|] eqn:Ej.
  - destruct (ok_prev _ Hok _ _ _ Hi Ej) as (Hlt & (oj & Hoj & Hs) & _).
    destruct (op_status oj) as [|p|r] eqn:Estj.
    + destruct (IH j Hlt oj Hoj) as (k & ok & ? & ? & ?); [intros [? ?]; congruence|]. exists k, ok. by rewrite <-Hs.
    + exists j, oj. eauto.
    + exists i, o. split_and!; [done..|right]. split; [done|]. rewrite Ej. exists oj. split; [done|by exists r].
  - exists i, o. split_and!; [done..|right]. split; [done|]. by rewrite Ej.
Qed.

(** However the runtime orders starting, answering, settling and tidying: each subject's
    operations run whole, one at a time and in the order they were submitted, each from the
    state the one before it left, failed or not, whatever other subjects' do meanwhile;
    while one of a subject's has not settled, one of that subject's is running or can start, so none is
    stuck; and the map is empty once everything is tidied. *)
Theorem queue_serialises st0 q st :
  rtc queue_step (new_queue, st0) (q, st) →
  (∀ x, serial (of_subject x (ops q)) (st0 x) (st x))
  ∧ (∀ i o, ops q !! i = Some o → ¬ settled o →
       ∃ j oj, ops q !! j = Some oj ∧ op_subject oj = op_subject o
       ∧ ((∃ p, op_status oj = Running p) ∨ can_start (ops q) oj))
  ∧ (Forall (fun o => op_tidied o = true) (ops q) → chains q = []).
Proof.
  intros [Hok Hser]%queue_reach. split_and!; [exact Hser|by intros; eapply oldest_goes|]. intros Ht.
  destruct (chains q) as [|[x j] l] eqn:Ech; [done|exfalso].
  destruct (ok_tail _ Hok x j) as ((oj & Hoj & _ & Hf) & _); [simpl in *; rewrite Ech; simpl; by rewrite decide_True|].
  rewrite Forall_lookup in Ht. specialize (Ht _ _ Hoj). congruence.
Qed.
End Queue.

(** ** One run: two operations on a counter, the second submitted while the first runs. *)

Section Toy.
#[local] Abbreviation tprog := (prog unit (fun _ => nat) unit).

(** Reads a number and leaves it one higher. *)
Definition bump : tprog unit := Call tt (fun _ => Ret tt).

Definition counts (c : unit) (s : nat) (a : nat) (s' : nat) : Prop := a = s ∧ s' = S s.

Lemma queue_serialises_witness :
  ∃ q st, rtc (queue_step (E := unit) counts) (new_queue, fun _ => 0%nat) (q, st)
  ∧ st "a" = 1%nat ∧ serial counts (of_subject "a" (ops q)) 0%nat (st "a")
  ∧ ∃ o, ops q !! 1%nat = Some o ∧ can_start (ops q) o.
Proof.
  set (o0 s := mkOp (E := unit) (R := fun _ : unit => nat) "a" None bump s false).
  set (o1 := mkOp (E := unit) (R := fun _ : unit => nat) "a" (Some 0%nat) bump Waiting false).
  assert (Hr : rtc (queue_step (E := unit) counts) (new_queue, fun _ => 0%nat)
    (mkQueue [("a", 1%nat)] [o0 (Settled (Ok tt)); o1], fun x => if decide (x = "a") then 1%nat else 0%nat)).
  { eapply rtc_l; [apply (step_run _ _ _ "a" bump)|]. eapply rtc_l; [apply (step_start _ _ _ 0%nat (o0 Waiting)); done|].
    eapply rtc_l; [apply (step_run _ _ _ "a" bump)|].
    eapply rtc_l; [eapply (step_act _ _ _ 0%nat (o0 (Running bump)) bump (Ret tt) 1%nat);
                   [done|done|by apply (pstep_call counts tt (fun _ => Ret tt) 0%nat 0%nat 1%nat)]|].
    eapply rtc_l; [apply (step_settle _ _ _ 0%nat (o0 (Running (Ret tt))) (Ok tt)); done|]. apply rtc_refl. }
  eexists _, _. split; [exact Hr|]. destruct (queue_serialises counts _ _ _ Hr) as (Hs & _ & _).
  split; [done|]. split; [apply Hs|]. exists o1. split; [done|]. split; [done|]. eexists. split; [done|by eexists].
Defined.
End Toy.
