(* ===== verification/Exchange.v ===== *)
(** * The credential exchange

    Models [packages/control-plane/src/exchange.ts] and the control plane's dependencies
    ([CpConfig] and [CpDeps] of [handlers.ts]).  An awaited call on a dependency is a [cpcall]:
    a Redis command of the ownership index, an operation of whichever credential store is
    configured, the identity provider, the clocks, fresh ids, [kubectl] and the log.  Nothing
    is assumed of the answers, so a theorem about every run covers every behaviour of the
    stores. *)

From Stdlib Require Import QArith.
From S2P Require Import Prelude JsNumber Json Prog CpBase Ownership Token Credentials.

Local Open Scope Z_scope.

Record DeviceStart := mkDevice {
  deviceCode : string;
  userCode : string;
  verificationUri : string;
  interval : Q;
  expiresIn : Q;
}.

Record Principal := mkPrincipal { subject : string; displayName : string; pr_roles : list string }.

Inductive cpcall :=
| Redis (c : rcmd)
| CredGet (subject name : string)
| CredList (subject : string)
| CredPut (subject : string) (cred : StoredCredential)
| CredDelete (subject name : string)
| StartDevice
| CompleteDevice (code : string)
| Now                      (* deps.now(), in milliseconds *)
| DateNow                  (* Date.now(), for the audit *)
| NewId                    (* deps.newId() *)
| Uuid                     (* randomUUID(), a token's jti *)
| Kubectl (args : list string)
| Log (line : string).

Definition cpanswer (c : cpcall) : Type :=
  match c with
  | Redis c => ranswer c
  | CredGet _ _ => result thrown (option StoredCredential)
  | CredList _ => result thrown (list CredentialDescriptor)
  | CredPut _ _ | CredDelete _ _ => result thrown unit
  | StartDevice => result thrown DeviceStart
  | CompleteDevice _ => result thrown Principal
  | Now | DateNow => Z
  | NewId | Uuid => string
  | Kubectl _ => result unit string
  | Log _ => unit
  end.

Abbreviation cpprog := (prog cpcall cpanswer thrown).
Abbreviation cpevent := (@event cpcall cpanswer).
Abbreviation ask c := (Call c (@Ret cpcall cpanswer thrown (cpanswer c))).
Abbreviation awaits c := (Call c (fun a => of_result (C := cpcall) (R := cpanswer) a)).

(** A method of the ownership index. *)
Definition index {A} (p : rprog A) : cpprog A :=
  plift (R := ranswer) (R' := cpanswer) Redis (fun _ r => r) p.

Record CpConfig := mkConfig {
  apiTokenTtlSeconds : Z;
  sessionTokenTtlSeconds : Z;
  exchangeToken : option string;
  defaultInferenceEndpoint : option string;
  operatorInferenceToken : option string;
  operatorInferenceHeader : option InferenceAuthHeader;
  allowOperatorFallback : bool;
  injectorConfigured : bool;
  sandboxNamespace : string;
  publicHarnessUrl : option string;
}.

(** [CpDeps], but for what is reached through calls. *)
Record CpDeps `{Ed25519} := mkDeps {
  config : CpConfig;
  signer : PrivateKey;
  verifyKeys : list (string * PublicKey);
  runKubectl : bool;
}.

Inductive CredentialMode := placeholder | direct.

Record ExchangeResponse := mkExchange {
  mode : CredentialMode;
  anthropicAuthToken : string;
  anthropicBaseUrl : string;
  ex_sessionId : string;
  ex_subject : string;
  authHeader : option InferenceAuthHeader;
}.

Definition placeholderFor (subject : string) : string := "sh-placeholder-" +:+ subject.

(** [timingSafeEqual] on equal lengths is equality of bytes. *)
Definition checkExchangeAuth (presented configured : option string) : result thrown unit :=
  match truthy_str configured, truthy_str presented with
  | Some c, Some p =>
      if bool_decide (bytes_of p = bytes_of c) then Ok tt
      else Throw (fail unauthorized "exchange authentication failed")
  | _, _ => Throw (fail unauthorized "exchange authentication failed")
  end.

Definition OPERATOR_FALLBACK_NAME : string := "operator-fallback".

Inductive DirectModeMismatch := bearer_to_anthropic | raw_key_elsewhere.

(** An error about a session. *)
Abbreviation failAt c msg sid := (Cp (cpError c (Some msg) (Some sid))).
Abbreviation notFound sid := (Cp (cpError session_not_found None (Some sid))).

Section Exchange.
Context `{Ed25519} `{URLs} (d : CpDeps).

Definition url_host (url : string) : option string := hostname <$> url_parse url.

Definition directModeMismatch (h : InferenceAuthHeader) (secret baseUrl : string) : option DirectModeMismatch :=
  let host := url_host baseUrl in
  if bool_decide (h = authorization) && bool_decide (host = Some "api.anthropic.com")
  then Some bearer_to_anthropic
  else if startsWith secret "sk-ant-api" && negb (bool_decide (host = Some "api.anthropic.com"))
  then Some raw_key_elsewhere
  else None.

(** What the exchange settles on: the value, the name the audit gives it, its endpoint, the
    header, and whether it is the operator's. *)
Record chosen := mkChosen {
  secretValue : option string;
  auditName : string;
  ch_endpoint : option string;
  ch_header : InferenceAuthHeader;
  usedOperatorFallback : bool;
}.

Definition choose (rec : SessionRecord) (stored : option StoredCredential) : result thrown chosen :=
  let cfg := config d in
  match stored with
  | Some cred =>
      match secret cred with
      | (fld, v) :: _ =>
          match (if bool_decide (fld = "") then None else inferenceAuthHeader (binding (descriptor cred)) fld) with
          | Some h => Ok (mkChosen (Some v) (credentialName rec) (endpoint (descriptor cred)) h false)
          | None => Throw (failAt credential_required
              ("credential '" +:+ credentialName rec +:+ "' has a binding the inference path cannot send; store it "
               +:+ "again as kind 'bearer' (gateway token) or 'api-key' (Anthropic API key)") (sessionId rec))
          end
      | [] => Throw (failAt credential_required
              ("credential '" +:+ credentialName rec +:+ "' has a binding the inference path cannot send; store it "
               +:+ "again as kind 'bearer' (gateway token) or 'api-key' (Anthropic API key)") (sessionId rec))
      end
  | None =>
      match bool_decide (credentialName rec = ""), allowOperatorFallback cfg, truthy_str (operatorInferenceToken cfg) with
      | true, true, Some v =>
          Ok (mkChosen (Some v) OPERATOR_FALLBACK_NAME None (default authorization (operatorInferenceHeader cfg)) true)
      | _, _, _ => Ok (mkChosen None (credentialName rec) None authorization false)
      end
  end.

Definition misdirected (ch : chosen) (host : option string) (m : DirectModeMismatch) (sid : string) : cpprog unit :=
  let host := default "an unparseable URL" host in
  if usedOperatorFallback ch then
    let why := match m with
      | bearer_to_anthropic =>
          "the operator fallback token (SH_OPERATOR_INFERENCE_TOKEN) is sent as Bearer, but "
          +:+ "SH_DEFAULT_INFERENCE_ENDPOINT is api.anthropic.com, which reads API keys from "
          +:+ "x-api-key; the deployment operator must set SH_OPERATOR_INFERENCE_HEADER=x-api-key or "
          +:+ "point SH_DEFAULT_INFERENCE_ENDPOINT at a gateway"
      | raw_key_elsewhere =>
          "the operator fallback token (SH_OPERATOR_INFERENCE_TOKEN) is an Anthropic API key, but "
          +:+ "SH_DEFAULT_INFERENCE_ENDPOINT resolves to " +:+ host +:+ "; the "
          +:+ "deployment operator must fix the pair, or you can store your own inference credential"
      end in
    Call (Log ("[control-plane] operator fallback misconfigured: " +:+ why))
      (fun _ => Err (failAt credential_unavailable why sid))
  else match m with
  | bearer_to_anthropic => Err (failAt credential_required
      ("credential '" +:+ auditName ch +:+ "' is a Bearer token, but its endpoint resolves to "
       +:+ "api.anthropic.com, which reads API keys from x-api-key: store the key with kind 'api-key'") sid)
  | raw_key_elsewhere => Err (failAt credential_required
      ("credential '" +:+ auditName ch +:+ "' is an Anthropic API key, but its endpoint resolves to "
       +:+ host +:+ ": set its endpoint to https://api.anthropic.com") sid)
  end.

(** [deps.index.audit(entry)], which reads the wall clock. *)
Definition audited (subject : string) (sid credential : option string) (decision : string) : cpprog unit :=
  await ts <- ask DateNow;
  index (audit ts subject sid credential decision).

(** From the choice on: the refusals, the audit and the answer. *)
Definition settle (rec : SessionRecord) (ch : chosen) : cpprog ExchangeResponse :=
  let cfg := config d in
  match truthy_str (secretValue ch) with
  | None => Err (failAt credential_required
      (if bool_decide (credentialName rec = "") then
         "this session was started on the operator fallback, which is now off: store an "
         +:+ "inference credential and start a new session"
       else "subject has no usable inference credential '" +:+ credentialName rec +:+ "': store it again, "
            +:+ "or start a new session") (sessionId rec))
  | Some v =>
      match truthy_str (match ch_endpoint ch with Some e => Some e | None => defaultInferenceEndpoint cfg end) with
      | None => Err (failAt endpoint_unresolved
          ("credential '" +:+ auditName ch +:+ "' has no endpoint and no deployment default is set") (sessionId rec))
      | Some baseUrl =>
          let m := if injectorConfigured cfg then placeholder else direct in
          await _ <- (match m, directModeMismatch (ch_header ch) v baseUrl with
                      | direct, Some mis => misdirected ch (url_host baseUrl) mis (sessionId rec)
                      | _, _ => Ret tt
                      end);
          await _ <- audited (owner rec) (Some (sessionId rec)) (Some (auditName ch))
                       (if usedOperatorFallback ch then "operator_fallback_used" else "credential_issued");
          Ret (mkExchange m (match m with placeholder => placeholderFor (owner rec) | direct => v end) baseUrl
                 (sessionId rec) (owner rec)
                 (match m, ch_header ch with direct, x_api_key => Some x_api_key | _, _ => None end))
      end
  end.

(** From the verified claims on. *)
Definition exchange_for (claims : TokenClaims) : cpprog ExchangeResponse :=
  match truthy_str (sid claims) with
  | None => Err (fail token_invalid "token names no session")
  | Some s =>
      await found <- index (get s);
      match found with
      | None => Err (notFound s)
      | Some rec =>
          if negb (bool_decide (owner rec = sub claims)) then Err (notFound s)
          else if tombstone rec then Err (notFound s)
          else
            await stored <- (if bool_decide (credentialName rec = "") then Ret None
                             else awaits (CredGet (owner rec) (credentialName rec)));
            await ch <- of_result (choose rec stored);
            settle rec ch
      end
  end.

Definition exchangeCredential (presentedToken : bytes) : cpprog ExchangeResponse :=
  await now <- ask Now;
  await payload <- of_result (verifyToken presentedToken (verifyKeys d) (now / 1000) (Some "turn:write"));
  exchange_for (claims_of payload).
End Exchange.

Lemma record_of_id s h rec : record_of s h = Some rec → sessionId rec = s.
Proof. unfold record_of. by destruct (nonempty (h !! "owner")); intros [= <-]. Qed.

(** Runs of the methods of the index. *)
Lemma runs_index_guard {A} c (f : rvalue_of c → cpprog A) tr o :
  runs (pbind (index (guard c)) f) tr o →
  ∃ a tr', tr = ev (Redis c) a :: tr'
    ∧ match a with Ok v => runs (f v) tr' o | Throw _ => tr' = [] ∧ o = Throw unavailable end.
Proof. intros (a & tr' & -> & Hr)%runs_inv. exists a, tr'. split; [done|]. by destruct a; [|apply runs_inv in Hr]. Qed.

Lemma runs_get {A} s (f : option SessionRecord → cpprog A) tr o :
  runs (pbind (index (get s)) f) tr o →
  ∃ a tr', tr = ev (Redis (HGetAll (sessionKey s))) a :: tr'
    ∧ match a with Ok h => runs (f (record_of s h)) tr' o | Throw _ => tr' = [] ∧ o = Throw unavailable end.
Proof. intros (a & tr' & -> & Hr)%runs_inv. exists a, tr'. split; [done|]. by destruct a; [|apply runs_inv in Hr]. Qed.

(** ** What an exchange hands out *)

Section Theorems.
Context `{Ed25519} `{URLs} (d : CpDeps).

Lemma truthy_str_Some o s : truthy_str o = Some s → o = Some s ∧ s ≠ "".
Proof. destruct o as [x|]; simpl; [case_bool_decide|]; by intros [= <-]. Qed.

(** The value, header, endpoint and audit entry of a session's grant, and the reads that
    found them: the subject's own credential under the name the session recorded, or the
    operator's for a session that recorded none. *)
Inductive entitled (rec : SessionRecord) :
    list cpevent → string → InferenceAuthHeader → option string → string → string → Prop :=
| own_credential cred fld v rest h :
    credentialName rec ≠ "" → secret cred = (fld, v) :: rest →
    inferenceAuthHeader (binding (descriptor cred)) fld = Some h →
    entitled rec [ev (CredGet (owner rec) (credentialName rec)) (Ok (Some cred))] v h
      (match endpoint (descriptor cred) with Some e => Some e | None => defaultInferenceEndpoint (config d) end)
      (credentialName rec) "credential_issued"
| operator_credential v :
    credentialName rec = "" → allowOperatorFallback (config d) = true →
    operatorInferenceToken (config d) = Some v →
    entitled rec [] v (default authorization (operatorInferenceHeader (config d)))
      (defaultInferenceEndpoint (config d)) OPERATOR_FALLBACK_NAME "operator_fallback_used".

Lemma choose_entitled rec stored ch v tr :
  choose d rec stored = Ok ch → truthy_str (secretValue ch) = Some v →
  tr = (if bool_decide (credentialName rec = "") then []
        else [ev (CredGet (owner rec) (credentialName rec)) (Ok stored)]) →
  (credentialName rec = "" → stored = None) →
  entitled rec tr v (ch_header ch)
    (match ch_endpoint ch with Some e => Some e | None => defaultInferenceEndpoint (config d) end)
    (auditName ch) (if usedOperatorFallback ch then "operator_fallback_used" else "credential_issued").
Proof.
  intros Hc [Hv Hne]%truthy_str_Some -> Hs. destruct stored as [cred|]; simpl in Hc.
  - destruct (secret cred) as [|[fld x] rest] eqn:Es; [done|]. case_bool_decide as Ef; [done|].
    destruct (inferenceAuthHeader _ fld) as [h|] eqn:Eh; [|done]. injection Hc as <-. injection Hv as <-.
    case_bool_decide as En; [by specialize (Hs En)|]. by eapply own_credential.
  - case_bool_decide as En; [|by injection Hc as <-].
    destruct (allowOperatorFallback (config d)) eqn:Ea; [|by injection Hc as <-].
    destruct (truthy_str (operatorInferenceToken (config d))) as [t|] eqn:Et; injection Hc as <-; [|done].
    apply truthy_str_Some in Et as [Et _]. injection Hv as <-. by apply operator_credential.
Qed.

(** The audit entry of a grant. *)
Definition grant_entry (ts : Z) (rec : SessionRecord) (credential decision : string) : rcmd :=
  XAdd AUDIT_STREAM
    ([("ts", string_of (dec_signed ts)); ("subject", owner rec); ("decision", decision)]
     ++ match nonempty (Some (sessionId rec)) with Some s => [("sessionId", s)] | None => [] end
     ++ match nonempty (Some credential) with Some c => [("credential", c)] | None => [] end).

Lemma settle_runs rec ch tr resp :
  runs (settle d rec ch) tr (Ok resp) →
  ∃ v baseUrl ts,
    truthy_str (secretValue ch) = Some v
    ∧ truthy_str (match ch_endpoint ch with Some e => Some e | None => defaultInferenceEndpoint (config d) end)
      = Some baseUrl
    ∧ tr = [ev DateNow ts;
            ev (Redis (grant_entry ts rec (auditName ch)
                         (if usedOperatorFallback ch then "operator_fallback_used" else "credential_issued"))) (Ok tt)]
    ∧ resp = (if injectorConfigured (config d)
              then mkExchange placeholder (placeholderFor (owner rec)) baseUrl (sessionId rec) (owner rec) None
              else mkExchange direct v baseUrl (sessionId rec) (owner rec)
                     (match ch_header ch with x_api_key => Some x_api_key | authorization => None end))
    ∧ (injectorConfigured (config d) = false → directModeMismatch (ch_header ch) v baseUrl = None).
Proof.
  unfold settle. destruct (truthy_str (secretValue ch)) as [v|]; [|by intros [_ ?]%runs_inv].
  destruct (truthy_str (match ch_endpoint ch with Some e => Some e | None => _ end)) as [u|];
    [|by intros [_ ?]%runs_inv].
  assert (Ha : ∀ tr' (k : cpprog ExchangeResponse),
    runs (pbind (audited (owner rec) (Some (sessionId rec)) (Some (auditName ch))
            (if usedOperatorFallback ch then "operator_fallback_used" else "credential_issued"))
            (fun _ => k)) tr' (Ok resp) →
    ∃ ts tr'', tr' = ev DateNow ts :: ev (Redis (grant_entry ts rec (auditName ch)
      (if usedOperatorFallback ch then "operator_fallback_used" else "credential_issued"))) (Ok tt) :: tr''
      ∧ runs k tr'' (Ok resp)).
  { intros tr' k. cbn. intros (ts & t1 & -> & Hr)%runs_inv.
    apply runs_inv in Hr as ([[]|[]] & t2 & -> & Hr); [|by apply runs_inv in Hr as [_ ?]].
    exists ts, t2. split; [done|exact Hr]. }
  destruct (injectorConfigured (config d)).
  - intros Hr. change (pbind (Ret tt) ?f) with (f tt) in Hr.
    destruct (Ha tr _ Hr) as (ts & tr' & -> & [-> [= ->]]%runs_inv). by exists v, u, ts.
  - destruct (directModeMismatch (ch_header ch) v u) as [m|] eqn:Em.
    + unfold misdirected. destruct (usedOperatorFallback ch), m; cbn;
        (by intros [_ ?]%runs_inv) || (by intros (? & ? & _ & [_ ?]%runs_inv)%runs_inv).
    + intros Hr. change (pbind (Ret tt) ?f) with (f tt) in Hr.
      destruct (Ha tr _ Hr) as (ts & tr' & -> & [-> [= ->]]%runs_inv). by exists v, u, ts.
Qed.
(** C2. An exchange that answers was asked with a token the control plane signed for turns,
    naming a session that Redis holds, that is the token's subject's and not tombstoned.  It
    hands out the credential that session is entitled to, at the endpoint that credential
    names: behind an injector only the inert placeholder, otherwise the secret, in the header
    its binding names and to no endpoint known to refuse it.  The grant was in the audit
    stream before the answer, under the name of what was handed out, and nothing else was
    read or written. *)
Theorem exchange_sound token tr resp :
  runs (exchangeCredential d token) tr (Ok resp) →
  ∃ now payload rec h fetched v hd ep name decision ts,
    verifyToken token (verifyKeys d) (now / 1000) (Some "turn:write") = Ok payload
    ∧ sid (claims_of payload) = Some (sessionId rec)
    ∧ record_of (sessionId rec) h = Some rec ∧ owner rec = sub (claims_of payload) ∧ tombstone rec = false
    ∧ entitled rec fetched v hd ep name decision
    ∧ tr = [ev Now now; ev (Redis (HGetAll (sessionKey (sessionId rec)))) (Ok h)] ++ fetched
           ++ [ev DateNow ts; ev (Redis (grant_entry ts rec name decision)) (Ok tt)]
    ∧ ex_sessionId resp = sessionId rec ∧ ex_subject resp = owner rec
    ∧ ep = Some (anthropicBaseUrl resp) ∧ anthropicBaseUrl resp ≠ ""
    ∧ if injectorConfigured (config d)
      then mode resp = placeholder ∧ anthropicAuthToken resp = placeholderFor (owner rec) ∧ authHeader resp = None
      else mode resp = direct ∧ anthropicAuthToken resp = v ∧ v ≠ ""
           ∧ default authorization (authHeader resp) = hd
           ∧ directModeMismatch hd v (anthropicBaseUrl resp) = None.
Proof.
  unfold exchangeCredential. cbn [pbind]. intros (now & t1 & -> & Hr)%runs_inv. cbn beta in Hr.
  destruct (verifyToken _ _ _ _) as [payload|] eqn:Ev; [|by apply runs_inv in Hr as [_ ?]]. cbn [of_result pbind] in Hr. unfold exchange_for in Hr.
  destruct (truthy_str (sid _)) as [s|] eqn:Es; [|by apply runs_inv in Hr as [_ ?]].
  apply truthy_str_Some in Es as [Es _].
  apply runs_get in Hr as ([h|[]] & t2 & -> & Hr); [|by destruct Hr].
  destruct (record_of s h) as [rec|] eqn:Erec; [|by apply runs_inv in Hr as [_ ?]].
  case_bool_decide as Eo; cbn [negb] in Hr; [|by apply runs_inv in Hr as [_ ?]].
  destruct (tombstone rec) eqn:Et; [by apply runs_inv in Hr as [_ ?]|].
  assert (Hid : sessionId rec = s) by by apply record_of_id in Erec.
  subst s.
  assert (∃ fetched stored t3, t2 = fetched ++ t3
    ∧ fetched = (if bool_decide (credentialName rec = "") then []
                 else [ev (CredGet (owner rec) (credentialName rec)) (Ok stored)])
    ∧ (credentialName rec = "" → stored = None)
    ∧ runs (pbind (of_result (choose d rec stored)) (settle d rec)) t3 (Ok resp))
    as (fetched & stored & t3 & -> & Hf & Hn & Hr').
  { case_bool_decide as Ec; [by exists [], None, t2|].
    apply runs_inv in Hr as ([stored|e] & t3 & -> & Hr); [|by apply runs_inv in Hr as [_ ?]].
    by exists [ev (CredGet (owner rec) (credentialName rec)) (Ok stored)], stored, t3. }
  destruct (choose d rec stored) as [ch|] eqn:Ech; [|by apply runs_inv in Hr' as [_ ?]].
  apply settle_runs in Hr' as (v & u & ts & Hv & Hu & -> & -> & Hm).
  pose proof (choose_entitled _ _ _ _ _ Ech Hv Hf Hn) as Hent.
  apply truthy_str_Some in Hu as [Hu Hne]. apply truthy_str_Some in Hv as [_ Hv].
  eexists now, payload, rec, h, fetched, v, _, _, _, _, ts.
  split_and!; try done; [by destruct (injectorConfigured (config d))..|].
  destruct (injectorConfigured (config d)); [done|].
  split_and!; [done..|by destruct (ch_header ch)|by apply Hm].
Qed.
End Theorems.

(** ** An example deployment *)

Definition toy_config : CpConfig :=
  mkConfig 3600 3600 (Some "shared") None None None false false "default" None.

Definition toy_deps : @CpDeps toy_ed25519 :=
  mkDeps toy_ed25519 toy_config (bytes_of "k1") [(keyIdFor (H := toy_ed25519) (bytes_of "k1"), bytes_of "k1")] false.

(** Redis with the session [s1] of [github:1] and a store holding one credential. *)
Definition toy_keys : keyspace :=
  <[sessionKey "s1" := RHash (list_to_map [("owner", "github:1"); ("credentialName", "main")])]> ∅.

Definition toy_answer (c : cpcall) (K : keyspace) : cpanswer c * keyspace :=
  match c return cpanswer c * keyspace with
  | Redis c => key_do c K
  | CredGet _ n => (Ok (if bool_decide (n = "main") then Some toy_credential else None), K)
  | CredList _ => (Ok [descriptor toy_credential], K)
  | CredPut _ _ | CredDelete _ _ => (Ok tt, K)
  | StartDevice => (Throw Other, K)
  | CompleteDevice _ => (Ok (mkPrincipal "github:1" "Ada" []), K)
  | Now | DateNow => (1000000, K)
  | NewId => ("s2", K)
  | Uuid => ("j", K)
  | Kubectl _ => (Throw tt, K)
  | Log _ => (tt, K)
  end.

Definition toy_token : bytes := mint (H := toy_ed25519) (bytes_of "k1") toy_input 1000 "j".

Definition toy_grant : ExchangeResponse :=
  mkExchange direct "sk-ant-api-1" "https://api.anthropic.com" "s1" "github:1" (Some x_api_key).

Lemma exchange_sound_witness :
  let u := toy_urls in
  ∃ tr, runs (exchangeCredential toy_deps toy_token) tr (Ok toy_grant)
  ∧ ∃ rec fetched v hd ep name decision,
      entitled toy_deps rec fetched v hd ep name decision ∧ anthropicAuthToken toy_grant = v.
Proof.
  intros u. pose proof (ptrace_runs toy_answer (exchangeCredential toy_deps toy_token) toy_keys) as Hr.
  assert (E : (ptrace toy_answer (exchangeCredential toy_deps toy_token) toy_keys).2 = Ok toy_grant)
    by by vm_compute.
  rewrite E in Hr. eexists. split; [exact Hr|].
  destruct (exchange_sound toy_deps toy_token _ _ Hr)
    as (now & pl & rec & h & fetched & v & hd & ep & n & dec & ts & _ & _ & _ & _ & _ & Hent & _ & _ & _ & _ & _ & Hm).
  exists rec, fetched, v, hd, ep, n, dec. split; [done|apply Hm].
Defined.
