(* ===== verification/CpRoutes.v ===== *)
(** * The control plane's routes

    Models [packages/control-plane/src/routes.ts], with [decodeURIComponent],
    [encodeURIComponent] and [URLSearchParams] as the language defines them, on UTF-8 bytes.
    A template's anchored expression is the list of its segments: its parameters match one
    non-empty segment, its other segments only themselves. *)

From S2P Require Import Prelude JsNumber CpBase.

Inductive Method := GET | POST | PUT | DELETE.

Definition method_name (m : Method) : string :=
  match m with GET => "GET" | POST => "POST" | PUT => "PUT" | DELETE => "DELETE" end.

Inductive Auth := no_auth | api | exchange.

Record RouteSpec := mkRoute {
  method : Method;
  path : string;
  auth : Auth;
  sessionScoped : bool;
  adminOnlyQuery : option string;
  bodyRequired : bool;             (* [bodyRequired !== false] *)
  operationId : string;
}.

Definition ROUTES : list RouteSpec :=
  [mkRoute GET "/healthz" no_auth false None true "healthz";
   mkRoute GET "/readyz" no_auth false None true "readyz";
   mkRoute GET "/v1/discovery" no_auth false None true "getDiscovery";
   mkRoute POST "/v1/auth/device" no_auth false None false "startDeviceAuth";
   mkRoute POST "/v1/auth/device/token" no_auth false None true "completeDeviceAuth";
   mkRoute GET "/v1/me" api false None true "getMe";
   mkRoute POST "/v1/sessions" api false None true "createSession";
   mkRoute GET "/v1/sessions" api false (Some "owner") true "listSessions";
   mkRoute GET "/v1/sessions/{id}" api true None true "getSession";
   mkRoute DELETE "/v1/sessions/{id}" api true None true "deleteSession";
   mkRoute GET "/v1/sessions/{id}/resources" api true None true "getSessionResources";
   mkRoute POST "/v1/sessions/{id}/token" api true None false "mintSessionToken";
   mkRoute GET "/v1/credentials" api false None true "listCredentials";
   mkRoute PUT "/v1/credentials/{name}" api false None true "putCredential";
   mkRoute DELETE "/v1/credentials/{name}" api false None true "deleteCredential";
   mkRoute POST "/internal/credentials" exchange false None true "exchangeCredential"].

(** ** Percent encoding *)

(** A character as it stands, or an escaped byte. *)
Inductive item := Raw (c : ascii) | Pct (n : nat).

Fixpoint items (s : bytes) : option (list item) :=
  match s with
  | [] => Some []
  | c :: r =>
      if bool_decide (c = "%"%char) then
        match r with
        | a :: b :: r' =>
            match digit_val 16 a, digit_val 16 b with
            | Some x, Some y => cons (Pct (Z.to_nat (16 * x + y))) <$> items r'
            | _, _ => None
            end
        | _ => None
        end
      else cons (Raw c) <$> items r
  end.

Definition cont (n : nat) : bool := ((128 <=? n) && (n <=? 191))%nat.
Definition lead2 (n : nat) : bool := ((194 <=? n) && (n <=? 223))%nat.

(** The first two bytes of a three-byte character: no overlong form and no surrogate. *)
Definition lead3 (n n1 : nat) : bool :=
  ((224 <=? n) && (n <=? 239) && cont n1
   && implb (n =? 224) (160 <=? n1) && implb (n =? 237) (n1 <=? 159))%nat.

Definition lead4 (n n1 : nat) : bool :=
  ((240 <=? n) && (n <=? 244) && cont n1
   && implb (n =? 240) (144 <=? n1) && implb (n =? 244) (n1 <=? 143))%nat.

(** Escaped bytes must be characters in UTF-8. *)
Fixpoint utf8 (l : list item) : option bytes :=
  match l with
  | [] => Some []
  | Raw c :: l0 => cons c <$> utf8 l0
  | Pct n :: l0 =>
      if (n <? 128)%nat then cons (ascii_of_nat n) <$> utf8 l0
      else match l0 with
           | Pct n1 :: l1 =>
               if lead2 n && cont n1 then app (ascii_of_nat <$> [n; n1]) <$> utf8 l1
               else match l1 with
                    | Pct n2 :: l2 =>
                        if lead3 n n1 && cont n2 then app (ascii_of_nat <$> [n; n1; n2]) <$> utf8 l2
                        else match l2 with
                             | Pct n3 :: l3 =>
                                 if lead4 n n1 && cont n2 && cont n3
                                 then app (ascii_of_nat <$> [n; n1; n2; n3]) <$> utf8 l3
                                 else None
                             | _ => None
                             end
                    | _ => None
                    end
           | _ => None
           end
  end.

(** [None] is a thrown [URIError]. *)
Definition decodeURIComponent (s : bytes) : option bytes := items s ≫= utf8.

(** Letters, digits and [-_.!~*'()] stay. *)
Definition unreserved (c : ascii) : bool :=
  let n := nat_of_ascii c in
  ((97 <=? n) && (n <=? 122) || (65 <=? n) && (n <=? 90) || (48 <=? n) && (n <=? 57))%nat
  || bool_decide (c ∈ bytes_of "-_.!~*'()").

Definition HEX (v : nat) : ascii := nth v (bytes_of "0123456789ABCDEF") "0"%char.

Definition escape (c : ascii) : bytes :=
  if unreserved c then [c]
  else let n := nat_of_ascii c in ["%"%char; HEX (n / 16); HEX (n mod 16)].

Definition encodeURIComponent (s : bytes) : bytes := s ≫= escape.

(** ** Templates *)

Inductive seg := Lit (s : bytes) | Param (name : string).

Definition letter (c : ascii) : bool :=
  let n := nat_of_ascii c in ((97 <=? n) && (n <=? 122) || (65 <=? n) && (n <=? 90))%nat.

Definition word_char (c : ascii) : bool := letter c || is_digit c || bool_decide (c = "_"%char).

(** [/^\{([A-Za-z][A-Za-z0-9_]* )\}$/] *)
Definition compile_seg (s : bytes) : seg :=
  match s with
  | o :: r =>
      let inner := take (length r - 1) r in
      if bool_decide (o = "{"%char) && bool_decide (last r = Some "}"%char)
         && match inner with c :: w => letter c && forallb word_char w | [] => false end
      then Param (string_of inner) else Lit s
  | [] => Lit s
  end.

Definition SLASH : ascii := "/"%char.

Definition compile (p : string) : list seg := compile_seg <$> split_char SLASH (bytes_of p).

Definition COMPILED : list (RouteSpec * list seg) := (fun r => (r, compile (path r))) <$> ROUTES.

(** [re.exec(pathname)]: the captured segments by name. *)
Fixpoint exec (re : list seg) (pieces : list bytes) : option (list (string * bytes)) :=
  match re, pieces with
  | [], [] => Some []
  | Lit s :: re', x :: pieces' => if bool_decide (x = s) then exec re' pieces' else None
  | Param n :: re', x :: pieces' =>
      if bool_decide (x = []) then None else cons (n, x) <$> exec re' pieces'
  | _, _ => None
  end.

Definition pathname_of (url : bytes) : bytes := default [] (head (split_char "?"%char url)).

Fixpoint params_of (caps : list (string * bytes)) (acc : list (string * string)) :
    result thrown (list (string * string)) :=
  match caps with
  | [] => Ok acc
  | (n, x) :: caps' =>
      match decodeURIComponent x with
      | Some v => params_of caps' (map_set n (string_of v) acc)
      | None => Throw Other
      end
  end.

Fixpoint match_in (table : list (RouteSpec * list seg)) (m : string) (pieces : list bytes) :
    result thrown (option (RouteSpec * list (string * string))) :=
  match table with
  | [] => Ok None
  | (route, re) :: table' =>
      if negb (bool_decide (method_name (method route) = m)) then match_in table' m pieces
      else match exec re pieces with
           | None => match_in table' m pieces
           | Some caps => try ps <- params_of caps []; Ok (Some (route, ps))
           end
  end.

Definition matchRoute (m : string) (url : bytes) : result thrown (option (RouteSpec * list (string * string))) :=
  match_in COMPILED m (split_char SLASH (pathname_of url)).

(** ** Queries *)

(** The query of a request target: up to a fragment, after the first question mark. *)
Definition search_of (url : bytes) : bytes :=
  match split_char "?"%char (default [] (head (split_char "#"%char url))) with
  | _ :: rest => join_char "?"%char rest
  | [] => []
  end.

(** Form decoding: a plus is a space, and a stray percent sign stays. *)
Fixpoint form_decode (s : bytes) : bytes :=
  match s with
  | [] => []
  | c :: r =>
      if bool_decide (c = "+"%char) then " "%char :: form_decode r
      else if bool_decide (c = "%"%char) then
        match r with
        | a :: b :: r' =>
            match digit_val 16 a, digit_val 16 b with
            | Some x, Some y => ascii_of_nat (Z.to_nat (16 * x + y)) :: form_decode r'
            | _, _ => c :: form_decode r
            end
        | _ => c :: form_decode r
        end
      else c :: form_decode r
  end.

Definition searchParams (url : bytes) : list (string * string) :=
  (fun piece =>
     match split_char "="%char piece with
     | n :: v => (string_of (form_decode n), string_of (form_decode (join_char "="%char v)))
     | [] => ("", "")
     end)
  <$> filter (fun piece => negb (bool_decide (piece = []))) (split_char "&"%char (search_of url)).

(** ** Round trips *)

Definition is_ascii (c : ascii) : Prop := (nat_of_ascii c < 128)%nat.

Lemma items_escape c r :
  items (escape c ++ r) = cons (if unreserved c then Raw c else Pct (nat_of_ascii c)) <$> items r.
Proof. destruct c as [[] [] [] [] [] [] [] []]; reflexivity. Qed.

Lemma escape_chars c x : x ∈ escape c → x ≠ SLASH ∧ x ≠ "?"%char.
Proof.
  assert (Hf : forallb (fun x => negb (bool_decide (x = SLASH)) && negb (bool_decide (x = "?"%char))) (escape c) = true)
    by (destruct c as [[] [] [] [] [] [] [] []]; reflexivity).
  intros Hx%list_elem_of_In. rewrite List.forallb_forall in Hf. apply Hf, andb_true_iff in Hx as [H1 H2].
  by apply negb_true_iff, bool_decide_eq_false in H1, H2.
Qed.

Lemma decode_encode s : Forall is_ascii s → decodeURIComponent (encodeURIComponent s) = Some s.
Proof.
  unfold decodeURIComponent, encodeURIComponent. induction 1 as [|c s Hc Hs IH]; [done|].
  cbn [mbind list_bind]. rewrite items_escape. destruct (items (s ≫= escape)) as [l|]; [|done]. simpl in *.
  destruct (unreserved c); simpl; rewrite IH; [done|]. unfold is_ascii in Hc.
  destruct (Nat.ltb_spec (nat_of_ascii c) 128); [|lia].
  simpl. by rewrite ascii_nat_embedding.
Qed.

Lemma encode_chars s x : x ∈ encodeURIComponent s → x ≠ SLASH ∧ x ≠ "?"%char.
Proof. unfold encodeURIComponent. rewrite list_elem_of_bind. intros (c & Hx & _). by eapply escape_chars. Qed.

Lemma encode_nonempty s : s ≠ [] → encodeURIComponent s ≠ [].
Proof. destruct s as [|c s]; [done|]. intros _. unfold encodeURIComponent. simpl. unfold escape. by destruct (unreserved c). Qed.

(** ** Matching *)

(** Some path could match both. *)
Fixpoint overlap (re re' : list seg) : bool :=
  match re, re' with
  | [], [] => true
  | Lit s :: r, Lit s' :: r' => bool_decide (s = s') && overlap r r'
  | Param _ :: r, Param _ :: r' => overlap r r'
  | Lit s :: r, Param _ :: r' | Param _ :: r, Lit s :: r' => negb (bool_decide (s = [])) && overlap r r'
  | _, _ => false
  end.

Lemma exec_overlap re re' pieces :
  is_Some (exec re pieces) → is_Some (exec re' pieces) → overlap re re' = true.
Proof.
  revert re' pieces. induction re as [|g re IH]; intros re' pieces H H'.
  - destruct pieces; [|by destruct H]. by destruct re' as [|[]]; [|destruct H'..].
  - destruct pieces as [|x pieces]; [by destruct g; destruct H|].
    destruct re' as [|g' re']; [by destruct H'|].
    destruct g as [s|n], g' as [s'|n']; simpl in *; repeat case_bool_decide; subst; simpl;
      rewrite ?fmap_is_Some in *; try (by destruct H); try (by destruct H'); by eapply IH.
Qed.

Definition path_matches (m : string) (pieces : list bytes) (c : RouteSpec * list seg) : Prop :=
  method_name (method c.1) = m ∧ is_Some (exec c.2 pieces).

Lemma compiled_disjoint :
  forallb (fun i => forallb (fun j =>
    match COMPILED !! i, COMPILED !! j with
    | Some c, Some c' =>
        implb (bool_decide (method_name (method c.1) = method_name (method c'.1)) && overlap c.2 c'.2) (i =? j)%nat
    | _, _ => true
    end) (seq 0 (length COMPILED))) (seq 0 (length COMPILED)) = true.
Proof. by vm_compute. Qed.

Lemma in_seq_lookup {A} (l : list A) i x : l !! i = Some x → In i (seq 0 (length l)).
Proof. intros H%lookup_lt_Some. apply List.in_seq. lia. Qed.

Lemma compiled_unique m pieces c c' :
  c ∈ COMPILED → c' ∈ COMPILED → path_matches m pieces c → path_matches m pieces c' → c = c'.
Proof.
  intros [i Hi]%list_elem_of_lookup [j Hj]%list_elem_of_lookup [Hm He] [Hm' He'].
  pose proof compiled_disjoint as Hd. rewrite List.forallb_forall in Hd. specialize (Hd i (in_seq_lookup _ _ _ Hi)).
  rewrite List.forallb_forall in Hd. specialize (Hd j (in_seq_lookup _ _ _ Hj)).
  rewrite Hi, Hj, (exec_overlap _ _ _ He He'), bool_decide_eq_true_2 in Hd by congruence.
  apply Nat.eqb_eq in Hd. congruence.
Qed.

Lemma match_in_inv table m pieces r ps :
  match_in table m pieces = Ok (Some (r, ps)) →
  ∃ re caps, (r, re) ∈ table ∧ method_name (method r) = m ∧ exec re pieces = Some caps ∧ params_of caps [] = Ok ps.
Proof.
  induction table as [|[r' re] table IH]; simpl; [done|]. case_bool_decide as Em; simpl.
  - destruct (exec re pieces) as [caps|] eqn:E.
    + destruct (params_of caps []) as [ps'|] eqn:Ep; [|done]. intros [= <- <-]. exists re, caps. set_solver.
    + intros (re' & caps & ? & ?)%IH. exists re', caps. set_solver.
  - intros (re' & caps & ? & ?)%IH. exists re', caps. set_solver.
Qed.

Lemma matchRoute_route m url r ps : matchRoute m url = Ok (Some (r, ps)) → r ∈ ROUTES.
Proof.
  unfold matchRoute, COMPILED. intros (re & caps & Hin & _)%match_in_inv.
  by apply list_elem_of_fmap in Hin as (r' & [= -> _] & ?).
Qed.

Lemma pathname_plain s : "?"%char ∉ s → pathname_of s = s.
Proof. intros. unfold pathname_of. by rewrite split_char_none. Qed.

(** The paths the client builds ([mocactl]'s [api/control-plane.ts]): method, before and after
    the encoded parameter, its name, and the operation meant. *)
Definition client_paths : list (string * string * string * string * string) :=
  [("GET", "/v1/sessions/", "", "id", "getSession");
   ("DELETE", "/v1/sessions/", "", "id", "deleteSession");
   ("POST", "/v1/sessions/", "/token", "id", "mintSessionToken");
   ("PUT", "/v1/credentials/", "", "name", "putCredential");
   ("DELETE", "/v1/credentials/", "", "name", "deleteCredential")].

Lemma client_exec m pre suf n op e :
  (m, pre, suf, n, op) ∈ client_paths → e ≠ [] → SLASH ∉ e → "?"%char ∉ e →
  ∃ r re, (r, re) ∈ COMPILED ∧ operationId r = op ∧ method_name (method r) = m
    ∧ exec re (split_char SLASH (pathname_of (bytes_of pre ++ e ++ bytes_of suf))) = Some [(n, e)].
Proof.
  intros Hin Hne Hs Hq.
  assert (found : ∀ k r re pieces, COMPILED !! k = Some (r, re) → operationId r = op → method_name (method r) = m →
    exec re pieces = Some [(n, e)] → ∃ r re, (r, re) ∈ COMPILED ∧ operationId r = op ∧ method_name (method r) = m
    ∧ exec re pieces = Some [(n, e)]).
  { intros k r re pieces Hk%list_elem_of_lookup_2 ???. by exists r, re. }
  assert (Hpre : ∀ p r, p ∈ ["v1/sessions"; "v1/credentials"] →
    split_char SLASH (bytes_of ("/" +:+ p +:+ "/") ++ r) = [] :: split_char SLASH (bytes_of p) ++ split_char SLASH r).
  { intros p r Hp. repeat (apply elem_of_cons in Hp as [->|Hp]); [done..|by apply elem_of_nil in Hp]. }
  assert (Hpq : "?"%char ∉ bytes_of pre ∧ "?"%char ∉ bytes_of suf).
  { clear found. unfold client_paths in Hin. repeat (apply elem_of_cons in Hin as [[= -> -> -> -> ->]|Hin]);
      [..|by apply elem_of_nil in Hin]; split; by apply (bool_decide_unpack _). }
  rewrite pathname_plain by (rewrite !elem_of_app; tauto). clear Hpq.
  assert (H0 : split_char SLASH (e ++ bytes_of "") = [e]) by (simpl; by rewrite app_nil_r, split_char_none).
  assert (H1 : ∀ t, split_char SLASH (e ++ bytes_of ("/" +:+ t)) = e :: split_char SLASH (bytes_of t))
    by (intros t; by apply split_char_app).
  assert (He : bool_decide (e = []) = false) by by apply bool_decide_eq_false_2.
  unfold client_paths in Hin. repeat (apply elem_of_cons in Hin as [[= -> -> -> -> ->]|Hin]);
    [..|by apply elem_of_nil in Hin].
  all: first [rewrite (Hpre "v1/sessions") by set_solver | rewrite (Hpre "v1/credentials") by set_solver].
  all: first [rewrite H0 | change (bytes_of "/token") with (bytes_of ("/" +:+ "token")); rewrite H1].
  - eapply (found 8%nat); [done..|]. simpl. by rewrite He.
  - eapply (found 9%nat); [done..|]. simpl. by rewrite He.
  - eapply (found 11%nat); [done..|]. simpl. by rewrite He.
  - eapply (found 13%nat); [done..|]. simpl. by rewrite He.
  - eapply (found 14%nat); [done..|]. simpl. by rewrite He.
Qed.

Lemma match_in_first table m pieces c caps :
  c ∈ table → path_matches m pieces c → exec c.2 pieces = Some caps →
  (∀ c', c' ∈ table → path_matches m pieces c' → c' = c) →
  match_in table m pieces = try ps <- params_of caps []; Ok (Some (c.1, ps)).
Proof.
  intros Hc Hm He Hu. induction table as [|[r re] table IH]; [by apply elem_of_nil in Hc|]. simpl.
  case_bool_decide as Em; simpl; [destruct (exec re pieces) as [caps'|] eqn:E|].
  - assert ((r, re) = c) as <- by (apply Hu; [left|by split]). simpl in He. by rewrite He in E; injection E as ->.
  - apply IH; [|set_solver]. apply elem_of_cons in Hc as [->|]; [|done]. by simpl in He; rewrite He in E.
  - apply IH; [|set_solver]. apply elem_of_cons in Hc as [->|]; [|done]. by destruct Hm.
Qed.

(** The path a client builds around an encoded session id or credential name reaches the
    route meant for it, with exactly that id or name as its parameter, whatever characters it
    has; and no other route of the table would match it, so the table's order is immaterial. *)
Theorem client_path_routed m pre suf n op s :
  (m, pre, suf, n, op) ∈ client_paths → s ≠ [] → Forall is_ascii s →
  let url := bytes_of pre ++ encodeURIComponent s ++ bytes_of suf in
  (∃ r, matchRoute m url = Ok (Some (r, [(n, string_of s)])) ∧ operationId r = op)
  ∧ ∀ c, c ∈ COMPILED → path_matches m (split_char SLASH (pathname_of url)) c → operationId c.1 = op.
Proof.
  intros Hin Hne Ha url.
  assert (Hsep : SLASH ∉ encodeURIComponent s ∧ "?"%char ∉ encodeURIComponent s)
    by (split; intros [? ?]%encode_chars; done).
  destruct (client_exec _ _ _ _ _ _ Hin (encode_nonempty _ Hne) (proj1 Hsep) (proj2 Hsep))
    as (r & re & Hc & Hop & Hm & He). fold url in He.
  assert (Hp : path_matches m (split_char SLASH (pathname_of url)) (r, re)) by (split; [done|by eexists]).
  assert (Hu : ∀ c, c ∈ COMPILED → path_matches m (split_char SLASH (pathname_of url)) c → c = (r, re))
    by (intros c Hin' Hp'; by eapply compiled_unique).
  split; [|intros c Hin' Hp'; by rewrite (Hu c)].
  exists r. split; [|done]. unfold matchRoute. rewrite (match_in_first _ _ _ (r, re) [(n, encodeURIComponent s)]) by done.
  simpl. by rewrite decode_encode.
Qed.

Lemma client_path_routed_witness :
  ∃ r, matchRoute "PUT" (bytes_of "/v1/credentials/" ++ encodeURIComponent (bytes_of "a/b") ++ bytes_of "")
       = Ok (Some (r, [("name", "a/b")])) ∧ operationId r = "putCredential".
Proof.
  apply (client_path_routed "PUT" "/v1/credentials/" "" "name" "putCredential" (bytes_of "a/b"));
    [set_solver|done|]. repeat constructor; by apply Nat.ltb_lt.
Defined.
