(* ===== verification/Handlers.v ===== *)
(** * The control plane's handlers and server

    Models [packages/control-plane/src/handlers.ts], [resources.ts], the argument builders of
    [kubectl.ts] it uses, and [server.ts] from a request to its response.  A handler is a tree
    of calls ([Exchange.cpcall]).  A body of [None] is [undefined]; a number that is not finite
    is printed as [null] by [JSON.stringify].  The views of a page of sessions are read
    together by [Promise.all]; their reads are sequenced here. *)

From Stdlib Require Import QArith.
From S2P Require Import Prelude JsNumber Json JsonText Prog CpBase Ownership Token Credentials Exchange CpRoutes.

Local Open Scope Z_scope.

Record RequestCtx := mkCtx {
  params : list (string * string);
  query : list (string * string);
  body : option json;
  principal : option TokenClaims;
  exchangeAuthorized : bool;
}.

Abbreviation response := (Z * option json)%type.

Definition jnum (x : jsnum Q) : json := match x with Fin q => JNum q | _ => JNull end.
Definition jopt (s : option string) : json := match s with Some s => JStr s | None => JNull end.
Definition jint (z : Z) : json := JNum (inject_Z z).
Definition jstrs (l : list string) : json := JArr (JStr <$> l).

(** ** Sandboxes and resources *)

Definition buildGetPodPhaseArgs (pod namespace : string) : list string :=
  ["get"; "pod"; pod; "-n"; namespace; "-o"; "jsonpath={.status.phase}"; "--ignore-not-found"].

Definition TAB : ascii := ascii_of_nat 9.

Definition buildFindPodBySelectorArgs (selector namespace : string) : list string :=
  ["get"; "pods"; "-n"; namespace; "-l"; selector; "--field-selector=status.phase=Running"; "-o";
   "jsonpath={.items[0].metadata.name}" +:+ string_of [TAB] +:+ "{.items[0].status.phase}"].

Record SandboxView := mkSandbox { podName : option string; phase : string; sb_tenant : option string }.

Abbreviation runtime_hash := (gmap string string).

Definition or_unknown (s : string) : string := if bool_decide (s = "") then "unknown" else s.

Definition resolveSandbox (runtime : runtime_hash) (namespace : string) (run : bool) (t : string) : cpprog SandboxView :=
  let pinned := runtime !! "sandboxPod" in
  let unknown := mkSandbox pinned "unknown" (Some t) in
  match run, nonempty pinned, nonempty (runtime !! "sandboxSelector") with
  | true, Some pod, _ =>
      Call (Kubectl (buildGetPodPhaseArgs pod namespace)) (fun a =>
        match a with
        | Ok out => Ret (mkSandbox (Some pod) (or_unknown (trim_str out)) (Some t))
        | Throw _ => Ret unknown
        end)
  | true, None, Some selector =>
      Call (Kubectl (buildFindPodBySelectorArgs selector namespace)) (fun a =>
        match a with
        | Ok out =>
            let parts := split_char TAB (bytes_of (trim_str out)) in
            Ret (mkSandbox (nonempty (string_of <$> parts !! 0%nat))
                   (or_unknown (default "" (string_of <$> parts !! 1%nat))) (Some t))
        | Throw _ => Ret unknown
        end)
  | _, _, _ => Ret unknown
  end.

Definition num (v : option string) : json :=
  match v with
  | Some s => match Number (bytes_of s) with Fin q => JNum q | _ => JNull end
  | None => JNull
  end.

Definition projectResources (rec : SessionRecord) (runtime : runtime_hash) (sandbox : SandboxView) : json :=
  let harnessPod := runtime !! "harnessPod" in
  JObj [
    ("session", JObj [("id", JStr (sessionId rec)); ("state", JStr (state_name (state rec)));
                      ("createdAt", jnum (createdAt rec)); ("lastTurnAt", num (runtime !! "lastTurnAt"));
                      ("turns", match num (runtime !! "turns") with JNull => jint 0 | n => n end)]);
    ("harness", JObj [("mode", JStr (match harnessPod with
                                     | Some p => if startsWith p "leaf-worker" then "leaf-job" else "knative"
                                     | None => "knative"
                                     end));
                      ("podName", jopt harnessPod); ("revision", jopt (runtime !! "revision"));
                      ("ready", JBool (bool_decide (is_Some harnessPod)))]);
    ("sandbox", JObj [("podName", jopt (podName sandbox)); ("phase", JStr (phase sandbox));
                      ("tenant", jopt (sb_tenant sandbox))]);
    ("lease", match nonempty (runtime !! "leaseKey") with
              | Some k => JObj [("key", JStr k); ("expiresAt", JNull); ("ttlSeconds", JNull)]
              | None => JNull
              end);
    ("queue", JNull)].

(** ** Helpers *)

Definition requirePrincipal (ctx : RequestCtx) : result thrown TokenClaims :=
  match principal ctx with
  | Some p => Ok p
  | None => Throw (fail token_required "this route requires a token")
  end.

(** [if (!rec || rec.owner !== principal.sub)] *)
Definition owned (sid : string) (p : TokenClaims) (found : option SessionRecord) : result thrown SessionRecord :=
  match found with
  | Some rec => if bool_decide (owner rec = sub p) then Ok rec else Throw (notFound sid)
  | None => Throw (notFound sid)
  end.

Definition assertOwner (sid : string) (p : option TokenClaims) : cpprog SessionRecord :=
  match p with
  | None => Err (fail token_required "this route requires a token")
  | Some p => await found <- index (get sid); of_result (owned sid p found)
  end.

Definition asRecord (b : option json) : list (string * json) :=
  match b with Some (JObj fs) => fs | _ => [] end.

Definition intQuery (q : list (string * string)) (name : string) : result thrown (option Q) :=
  match map_get name q with
  | None => Ok None
  | Some raw =>
      match Number (bytes_of raw) with
      | Fin n => Ok (Some n)
      | _ => Throw (fail invalid_request (name +:+ " must be a number"))
      end
  end.

Definition seconds : cpprog Z := await now <- ask Now; Ret (now / 1000).

(** [Number(v ?? 0)] *)
Definition number_or_0 (v : option string) : jsnum Q :=
  match v with Some s => Number (bytes_of s) | None => Fin 0%Q end.

(** [a > b] *)
Definition gt_num (a b : jsnum Q) : bool :=
  match a, b with
  | NaN, _ | _, NaN => false
  | PosInf, PosInf => false
  | PosInf, _ => true
  | _, PosInf => false
  | Fin x, Fin y => negb (Qle_bool x y)
  | Fin _, NegInf => true
  | NegInf, _ => false
  end.

Definition in_flight (runtime : runtime_hash) : bool :=
  let started := number_or_0 (runtime !! "turnStartedAt") in
  let ended := number_or_0 (runtime !! "turnEndedAt") in
  gt_num started (Fin 0%Q) && gt_num started ended.

Definition turnInFlight (sid : string) : cpprog bool :=
  await runtime <- index (getRuntime sid); Ret (in_flight runtime).

Definition thrown_message (e : thrown) : string := match e with Cp e => message e | Other => "" end.

Definition auditBestEffort (route name subject decision : string) : cpprog unit :=
  pcatch (audited subject None (Some name) decision) (fun err =>
    ask (Log ("[control-plane] audit write failed for " +:+ route +:+ " credential=" +:+ name +:+ ": "
              +:+ thrown_message err +:+ " -- the credential write itself SUCCEEDED"))).

Definition session_view (rec : SessionRecord) (runtime : runtime_hash) : json :=
  JObj [("sessionId", JStr (sessionId rec)); ("owner", JStr (owner rec)); ("tenant", JStr (Ownership.tenant rec));
        ("createdAt", jnum (createdAt rec)); ("state", JStr (state_name (state rec)));
        ("lastTurnAt", match nonempty (runtime !! "lastTurnAt") with
                       | Some s => jnum (Number (bytes_of s)) | None => JNull end);
        ("turns", match nonempty (runtime !! "turns") with
                  | Some s => jnum (Number (bytes_of s)) | None => jint 0 end)].

Definition sessionView (rec : SessionRecord) : cpprog json :=
  await runtime <- index (getRuntime (sessionId rec)); Ret (session_view rec runtime).

Fixpoint session_views (recs : list SessionRecord) : cpprog (list json) :=
  match recs with
  | [] => Ret []
  | rec :: recs' => await v <- sessionView rec; await vs <- session_views recs'; Ret (v :: vs)
  end.

(** ** Handlers *)

Section Handlers.
Context (sha256 : string → string).
Context `{Ed25519} `{URLs} (kinds : registry) (d : CpDeps).

Definition healthz (ctx : RequestCtx) : cpprog response := Ret (200, Some (JStr "ok")).

Definition getDiscovery (ctx : RequestCtx) : cpprog response :=
  Ret (200, Some (JObj [("harnessUrl", jopt (publicHarnessUrl (config d)))])).

Definition startDeviceAuth (ctx : RequestCtx) : cpprog response :=
  await s <- awaits StartDevice;
  Ret (200, Some (JObj [("deviceCode", JStr (deviceCode s)); ("userCode", JStr (userCode s));
                        ("verificationUri", JStr (verificationUri s)); ("interval", JNum (interval s));
                        ("expiresIn", JNum (expiresIn s))])).

(** [deps.signer.mint({ ..., now: iat })] and the expiry answered with it. *)
Definition mint_at (input : MintInput) (iat : Z) : cpprog string :=
  await jti <- ask Uuid; Ret (string_of (mint (signer d) input iat jti)).

Definition completeDeviceAuth (ctx : RequestCtx) : cpprog response :=
  match as_string (map_get "deviceCode" (asRecord (body ctx))) with
  | None | Some "" => Err (fail invalid_request "deviceCode is required")
  | Some code =>
      await pr <- awaits (CompleteDevice code);
      await iat <- seconds;
      let ttl := apiTokenTtlSeconds (config d) in
      await tok <- mint_at (mkMint (subject pr) (subject pr) (pr_roles pr) ["api"] ttl None None) iat;
      Ret (200, Some (JObj [("token", JStr tok); ("subject", JStr (subject pr));
                            ("displayName", JStr (displayName pr)); ("roles", jstrs (pr_roles pr));
                            ("expiresAt", jint (iat + ttl))]))
  end.

Definition getMe (ctx : RequestCtx) : cpprog response :=
  await p <- of_result (requirePrincipal ctx);
  Ret (200, Some (JObj ([("subject", JStr (sub p))]
                        ++ match Token.tenant p with Some t => [("tenant", JStr t)] | None => [] end
                        ++ [("roles", jstrs (default [] (Token.roles p)))]))).

(** [credentials.inference] of the body: absent, or a string. *)
Definition requested_inference (b : option json) : result thrown (option string) :=
  match map_get "inference" (asRecord (map_get "credentials" (asRecord b))) with
  | None => Ok None
  | Some (JStr s) => Ok (Some s)
  | Some _ => Throw (fail invalid_request "credentials.inference must be a string")
  end.

(** The credential a new session records: none when it runs on the operator's. *)
Definition session_credential (ds : list CredentialDescriptor) (requested : option string) : result thrown string :=
  if bool_decide (requested = None) && allowOperatorFallback (config d)
     && bool_decide (is_Some (truthy_str (operatorInferenceToken (config d))))
     && negb (existsb (fun x => bool_decide (consumer x = inference)) ds)
  then Ok "" else resolveInferenceName ds requested.

Definition turn_token (p : TokenClaims) (own tnt sid : string) : MintInput :=
  mkMint own tnt (default [] (Token.roles p)) ["turn:write"] (sessionTokenTtlSeconds (config d)) (Some sid) None.

Definition createSession (ctx : RequestCtx) : cpprog response :=
  await p <- of_result (requirePrincipal ctx);
  await requested <- of_result (requested_inference (body ctx));
  await ds <- awaits (CredList (sub p));
  await cname <- of_result (session_credential ds requested);
  await sid <- ask NewId;
  await created <- ask Now;
  let rec := mkSession sid (sub p) (default (sub p) (Token.tenant p)) (Fin (inject_Z created)) active None cname false in
  await _ <- index (create sha256 rec);
  await _ <- audited (sub p) (Some sid) (Some (default OPERATOR_FALLBACK_NAME (truthy_str (Some cname)))) "session_created";
  await iat <- seconds;
  await tok <- mint_at (turn_token p (sub p) (Ownership.tenant rec) sid) iat;
  Ret (201, Some (JObj [("sessionId", JStr sid); ("token", JStr tok);
                        ("expiresAt", jint (iat + sessionTokenTtlSeconds (config d)))])).

(** Whose sessions are listed. *)
Definition listed_owner (p : TokenClaims) (q : list (string * string)) : result thrown string :=
  match map_get "owner" q with
  | None => Ok (sub p)
  | Some o =>
      if bool_decide (o = sub p) then Ok (sub p)
      else require bool_decide ("admin" ∈ default [] (Token.roles p)) else fail forbidden "?owner= requires the admin role";
           Ok o
  end.

Definition listSessions (ctx : RequestCtx) : cpprog response :=
  await p <- of_result (requirePrincipal ctx);
  await o <- of_result (listed_owner p (query ctx));
  await limit <- of_result (intQuery (query ctx) "limit");
  await cursor <- of_result (intQuery (query ctx) "cursor");
  await page <- index (listByOwner sha256 o (Some (Fin (default (inject_Z DEFAULT_PAGE_SIZE) limit))) cursor);
  await views <- session_views (sessions page);
  Ret (200, Some (JObj [("sessions", JArr views);
                        ("nextCursor", match nextCursor page with Some c => jnum c | None => JNull end)])).

(** [ctx.params.id!], as a template literal prints it. *)
Definition param_id (ctx : RequestCtx) : string := default "undefined" (map_get "id" (params ctx)).

Definition getSession (ctx : RequestCtx) : cpprog response :=
  await rec <- assertOwner (param_id ctx) (principal ctx);
  await view <- sessionView rec;
  Ret (200, Some view).

Definition mintSessionToken (ctx : RequestCtx) : cpprog response :=
  await rec <- assertOwner (param_id ctx) (principal ctx);
  if tombstone rec then Err (notFound (sessionId rec)) else
  await p <- of_result (requirePrincipal ctx);
  await iat <- seconds;
  await tok <- mint_at (turn_token p (owner rec) (Ownership.tenant rec) (sessionId rec)) iat;
  Ret (200, Some (JObj [("token", JStr tok); ("expiresAt", jint (iat + sessionTokenTtlSeconds (config d)))])).

Definition deleteSession (ctx : RequestCtx) : cpprog response :=
  await rec <- assertOwner (param_id ctx) (principal ctx);
  await inFlight <- turnInFlight (sessionId rec);
  await _ <- index (cascadeDelete sha256 rec);
  await _ <- audited (owner rec) (Some (sessionId rec)) None
               (if inFlight then "session_deleted_in_flight" else "session_deleted");
  Ret (if inFlight then 202 else 204, None).

Definition putCredential (ctx : RequestCtx) : cpprog response :=
  await p <- of_result (requirePrincipal ctx);
  await n <- of_result (validateCredentialName (default "" (map_get "name" (params ctx))));
  if bool_decide (n = OPERATOR_FALLBACK_NAME)
  then Err (fail invalid_request ("credential name '" +:+ n +:+ "' is reserved"))
  else
    await cred <- of_result (parseCredentialBody kinds n (default JNull (body ctx)));
    await _ <- awaits (CredPut (sub p) cred);
    await _ <- auditBestEffort "putCredential" n (sub p) "credential_written";
    Ret (204, None).

Definition descriptor_json (x : CredentialDescriptor) : json :=
  JObj [("name", JStr (name x)); ("kind", JStr (kind x)); ("consumer", JStr (consumer_name (consumer x)));
        ("destination", JObj [("hosts", jstrs (hosts x))]);
        ("binding", JObj [("header", JStr (header (binding x))); ("format", JStr (format (binding x)))]);
        ("endpoint", jopt (endpoint x))].

Definition listCredentials (ctx : RequestCtx) : cpprog response :=
  await p <- of_result (requirePrincipal ctx);
  await ds <- awaits (CredList (sub p));
  Ret (200, Some (JObj [("credentials", JArr (descriptor_json <$> ds))])).

Definition deleteCredential (ctx : RequestCtx) : cpprog response :=
  await p <- of_result (requirePrincipal ctx);
  await n <- of_result (validateCredentialName (default "" (map_get "name" (params ctx))));
  await _ <- awaits (CredDelete (sub p) n);
  await _ <- auditBestEffort "deleteCredential" n (sub p) "credential_deleted";
  Ret (204, None).

Definition getSessionResources (ctx : RequestCtx) : cpprog response :=
  await rec <- assertOwner (param_id ctx) (principal ctx);
  await runtime <- index (getRuntime (sessionId rec));
  await sandbox <- resolveSandbox runtime (sandboxNamespace (config d)) (runKubectl d) (Ownership.tenant rec);
  Ret (200, Some (projectResources rec runtime sandbox)).

Definition exchange_json (r : ExchangeResponse) : json :=
  JObj ([("mode", JStr (match mode r with placeholder => "placeholder" | direct => "direct" end));
         ("anthropicAuthToken", JStr (anthropicAuthToken r)); ("anthropicBaseUrl", JStr (anthropicBaseUrl r));
         ("sessionId", JStr (ex_sessionId r)); ("subject", JStr (ex_subject r))]
        ++ match authHeader r with Some h => [("authHeader", JStr (header_name h))] | None => [] end).

Definition exchangeCredential_handler (ctx : RequestCtx) : cpprog response :=
  if negb (exchangeAuthorized ctx) then Err (fail unauthorized "exchange authentication failed") else
  match as_string (map_get "token" (asRecord (body ctx))) with
  | None | Some "" => Err (fail invalid_request "token is required")
  | Some token => await r <- exchangeCredential d (bytes_of token); Ret (200, Some (exchange_json r))
  end.

Definition readyz (ctx : RequestCtx) : cpprog response :=
  await _ <- pcatch (index (get "__readyz__")) (fun _ => Err (fail redis_unavailable "redis is not answering"));
  Ret (200, Some (JStr "ok")).

Definition HANDLERS : list (string * (RequestCtx → cpprog response)) :=
  [("healthz", healthz); ("getDiscovery", getDiscovery); ("startDeviceAuth", startDeviceAuth);
   ("completeDeviceAuth", completeDeviceAuth); ("getMe", getMe); ("createSession", createSession);
   ("listSessions", listSessions); ("getSession", getSession); ("mintSessionToken", mintSessionToken);
   ("deleteSession", deleteSession); ("putCredential", putCredential); ("listCredentials", listCredentials);
   ("deleteCredential", deleteCredential); ("getSessionResources", getSessionResources);
   ("exchangeCredential", exchangeCredential_handler); ("readyz", readyz)].

(** ** The server *)

Record Request := mkRequest {
  req_method : string;
  req_url : bytes;
  req_authorization : option string;
  req_chunks : result unit (list bytes);    (* the body as it arrives, or a broken connection *)
}.

Definition MAX_BODY_BYTES : nat := 64 * 1024.

Fixpoint read_chunks (size : nat) (tooLarge : bool) (acc : bytes) (chunks : list bytes) : result thrown bytes :=
  match chunks with
  | [] => if tooLarge then Throw (fail invalid_request "request body too large") else Ok acc
  | c :: chunks' =>
      let size' := (size + length c)%nat in
      if (MAX_BODY_BYTES <? size')%nat then read_chunks size' true acc chunks'
      else read_chunks size' tooLarge (acc ++ c) chunks'
  end.

Definition readBody (req : Request) : result thrown bytes :=
  match req_chunks req with Ok chunks => read_chunks 0 false [] chunks | Throw _ => Throw Other end.

Definition bearer (req : Request) : option string :=
  match truthy_str (req_authorization req) with
  | None => None
  | Some h =>
      match split_char " "%char (bytes_of h) with
      | scheme :: rest =>
          if bool_decide (toLowerCase (string_of scheme) = "bearer")
          then nonempty (Some (string_of (trim (join_char " "%char rest)))) else None
      | [] => None
      end
  end.

Definition authorize (route : RouteSpec) (req : Request) (ctx : RequestCtx) : cpprog RequestCtx :=
  match auth route with
  | no_auth => Ret ctx
  | exchange =>
      await _ <- of_result (checkExchangeAuth (bearer req) (exchangeToken (config d)));
      Ret (mkCtx (params ctx) (query ctx) (body ctx) (principal ctx) true)
  | api =>
      match bearer req with
      | None => Err (fail token_required "this route requires a token")
      | Some presented =>
          await now <- ask Now;
          await payload <- of_result (verifyToken (bytes_of presented) (verifyKeys d) (now / 1000) (Some "api"));
          Ret (mkCtx (params ctx) (query ctx) (body ctx) (Some (claims_of payload)) (exchangeAuthorized ctx))
      end
  end.

(** The body of a POST or PUT. *)
Definition parse_body (route : RouteSpec) (req : Request) : result thrown (option json) :=
  if bool_decide (req_method req = "POST") || bool_decide (req_method req = "PUT") then
    try raw <- readBody req;
    match raw with
    | [] => if bodyRequired route then Throw (fail invalid_json "body is required") else Ok None
    | _ => match parse raw with
           | Some j => Ok (Some j)
           | None => Throw (fail invalid_json "body is not valid JSON")
           end
    end
  else Ok None.

Definition route_request (req : Request) : cpprog response :=
  await matched <- of_result (matchRoute (req_method req) (req_url req));
  match matched with
  | None => Ret (404, Some (JObj [("error", JStr "not_found")]))
  | Some (route, ps) =>
      await ctx <- authorize route req (mkCtx ps (searchParams (req_url req)) None None false);
      await b <- of_result (parse_body route req);
      match map_get (operationId route) HANDLERS with
      | None => Err (fail internal_error "route has no handler")
      | Some handler => handler (mkCtx (params ctx) (query ctx) b (principal ctx) (exchangeAuthorized ctx))
      end
  end.

Definition error_response (err : thrown) : response :=
  let '(status, fields) := writeError err in
  (status, Some (JObj ((fun f => (f.1, JStr f.2)) <$> fields))).

Definition handle (req : Request) : cpprog response :=
  pcatch (route_request req) (fun err =>
    await _ <- (match err with Other => ask (Log "[control-plane] unhandled") | Cp _ => Ret tt end);
    Ret (error_response err)).
End Handlers.

(** ** Who is served *)

Section Theorems.
Context (sha256 : string → string).
Context `{Ed25519} `{URLs} (kinds : registry) (d : CpDeps).
Abbreviation handlers := (HANDLERS sha256 kinds d).

(** Every route has its handler. *)
Lemma routes_wired r : r ∈ ROUTES → is_Some (map_get (operationId r) handlers).
Proof.
  unfold ROUTES. intros Hr. repeat (apply elem_of_cons in Hr as [->|Hr]); [by eexists..|by apply elem_of_nil in Hr].
Qed.

Lemma runs_assertOwner {A} s p (f : SessionRecord → cpprog A) tr o :
  runs (pbind (assertOwner s (Some p)) f) tr o →
  ∃ a tr', tr = ev (Redis (HGetAll (sessionKey s))) a :: tr'
    ∧ (tr' = [] ∧ o = Throw (match a with Ok _ => notFound s | Throw _ => unavailable end)
       ∨ ∃ h rec, a = Ok h ∧ record_of s h = Some rec ∧ owner rec = sub p ∧ runs (f rec) tr' o).
Proof.
  intros (a & tr' & -> & Hr)%runs_inv. exists a, tr'. split; [done|].
  destruct a as [h|[]]; [|by left; apply runs_inv in Hr]. unfold owned in Hr. simpl in Hr.
  destruct (record_of s h) as [rec|] eqn:E; [|by left; apply runs_inv in Hr].
  case_bool_decide; [|by left; apply runs_inv in Hr]. right. by exists h, rec.
Qed.

(** C4. Every session-scoped route asks the index for its session before anything else, and goes
    on only with a record whose owner is the caller.  A session that does not exist and one
    of somebody else's get the same error, after the same single read. *)
Theorem session_routes_guarded r h ctx p tr o :
  r ∈ ROUTES → sessionScoped r = true → map_get (operationId r) handlers = Some h →
  principal ctx = Some p → runs (h ctx) tr o →
  ∃ a tr', tr = ev (Redis (HGetAll (sessionKey (param_id ctx)))) a :: tr'
    ∧ (tr' = [] ∧ o = Throw (match a with Ok _ => notFound (param_id ctx) | Throw _ => unavailable end)
       ∨ ∃ hash rec, a = Ok hash ∧ record_of (param_id ctx) hash = Some rec ∧ owner rec = sub p).
Proof.
  intros Hr Hs Hh Hp Hrun.
  assert (∃ f, h ctx = pbind (assertOwner (param_id ctx) (principal ctx)) f) as [f Hf].
  { unfold ROUTES in Hr. repeat (apply elem_of_cons in Hr as [->|Hr]); try discriminate Hs;
      [injection Hh as <-; by eexists..|by apply elem_of_nil in Hr]. }
  rewrite Hf, Hp in Hrun. apply runs_assertOwner in Hrun as (a & tr' & -> & Ho). exists a, tr'. split; [done|].
  destruct Ho as [?|(hash & rec & ? & ? & ? & _)]; [by left|right; eauto].
Qed.

(** The calls an unauthenticated request can cause. *)
Definition clock_or_log (x : cpevent) : Prop := match projT1 x with Now | Log _ => True | _ => False end.

(** A refusal for want of authentication, or of a token whose signed scope is no list. *)
Definition refusal (e : thrown) : Prop := (error_response e).1 = 401 ∨ e = Other.

Lemma verify_refusal token keys now scope e : verifyToken token keys now scope = Throw e → refusal e.
Proof.
  assert (Hb : ∀ why, refusal (bad why)) by by left.
  assert (Hs : ∀ o s, scope_includes o s = Throw e → refusal e)
    by (intros [[]|] sc; try done; by intros [= <-]; right).
  unfold verifyToken, check_claims.
  repeat (case_match; simplify_eq; try by intros [= <-]); try by intros [= <-]; left.
  all: destruct (scope_includes _ _) as [[]|] eqn:E; simpl; try done; intros [= <-]; [by left|by eapply Hs].
Qed.

(** What lets a caller in. *)
Definition let_in (r : RouteSpec) (req : Request) (tr : list cpevent) : Prop :=
  ∃ tok, bearer req = Some tok
    ∧ match auth r with
      | exchange => exchangeToken (config d) = Some tok
      | _ => ∃ now payload tr', tr = ev Now now :: tr'
               ∧ verifyToken (bytes_of tok) (verifyKeys d) (now / 1000) (Some "api") = Ok payload
      end.

Lemma let_in_app r req tr tr' : let_in r req tr → let_in r req (tr ++ tr').
Proof.
  intros (tok & Hb & Ha). exists tok. split; [done|]. destruct (auth r); try done;
    destruct Ha as (now & pl & t & -> & ?); by exists now, pl, (t ++ tr').
Qed.

Lemma runs_authorize r req ctx tr o :
  auth r ≠ no_auth → runs (authorize d r req ctx) tr o →
  match o with
  | Ok _ => let_in r req tr
  | Throw e => Forall clock_or_log tr ∧ refusal e
  end.
Proof.
  intros Hn. unfold authorize, let_in. destruct (auth r); [done| |].
  - destruct (bearer req) as [tok|]; [|by intros [-> ->]%runs_inv; split; [constructor|left]].
    intros (now & tr' & -> & Hr)%runs_inv. simpl in Hr.
    destruct (verifyToken _ _ _ _) as [pl|e] eqn:E; apply runs_inv in Hr as [-> ->].
    + exists tok. split; [done|]. by exists now, pl, [].
    + split; [by repeat constructor|by eapply verify_refusal].
  - unfold checkExchangeAuth. destruct (truthy_str (exchangeToken (config d))) as [c|] eqn:Ec;
      [|by intros [-> ->]%runs_inv; split; [constructor|left]].
    destruct (truthy_str (bearer req)) as [t|] eqn:Et; [|by intros [-> ->]%runs_inv; split; [constructor|left]].
    case_bool_decide as Eb; [|by intros [-> ->]%runs_inv; split; [constructor|left]].
    intros [-> ->]%runs_inv. exists t. apply truthy_str_Some in Ec as [-> _], Et as [-> _].
    split; [done|]. by rewrite <-(string_of_bytes c), <-Eb, string_of_bytes.
Qed.

(** A request on a route that needs authentication is let in only with the configured
    exchange token as its bearer, on the exchange route, or a token signed with one of the
    keys for the API, on the others.  Any other is refused with a 401 (a 500 for a signed
    token whose scope is no list), having caused no call but the clock's and the log's. *)
Theorem calls_need_authentication req r ps tr resp :
  matchRoute (req_method req) (req_url req) = Ok (Some (r, ps)) → auth r ≠ no_auth →
  runs (handle sha256 kinds d req) tr (Ok resp) →
  let_in r req tr ∨ (Forall clock_or_log tr ∧ (resp.1 = 401 ∨ resp.1 = 500)).
Proof.
  intros Hm Ha. unfold handle, route_request. rewrite Hm. cbn [of_result pbind].
  intros [(a & Hr & [= <-])|(e & t1 & t2 & -> & Hr & Hh)]%runs_catch.
  - apply runs_bind in Hr as [(e & _ & ?)|(ctx & t1 & t2 & -> & Hr & _)]; [done|]. left.
    by apply let_in_app, (runs_authorize _ _ _ _ _ Ha Hr).
  - apply runs_bind in Hr as [(e' & Hr & [= <-])|(ctx & t3 & t4 & -> & Hr & _)].
    + right. destruct (runs_authorize _ _ _ _ _ Ha Hr) as [Hc He].
      destruct He as [He| ->].
      * destruct e as [e|]; [|done]. apply runs_inv in Hh as [-> [= ->]]. rewrite app_nil_r. auto.
      * apply runs_inv in Hh as ([] & t3 & -> & [-> [= ->]]%runs_inv).
        split; [|by right]. apply Forall_app. split; [done|by repeat constructor].
    + left. by apply let_in_app, let_in_app, (runs_authorize _ _ _ _ _ Ha Hr).
Qed.
(** ** Whose credentials are touched *)

(** A call of the credential store in the caller's own name, and no read of a secret. *)
Definition own_store_call (ctx : RequestCtx) (c : cpcall) : Prop :=
  match c with
  | CredGet _ _ => False
  | CredList s | CredPut s _ | CredDelete s _ => sub <$> principal ctx = Some s
  | _ => True
  end.

Lemma calls_index {A} ctx (p : rprog A) : calls (own_store_call ctx) (index p).
Proof. apply calls_lift. by induction p; simpl. Qed.

Lemma calls_principal {A} ctx (f : TokenClaims → cpprog A) :
  (∀ p, principal ctx = Some p → calls (own_store_call ctx) (f p)) →
  calls (own_store_call ctx) (pbind (of_result (requirePrincipal ctx)) f).
Proof. unfold requirePrincipal. intros Hf. destruct (principal ctx) as [p|] eqn:E; simpl; auto. Qed.

Lemma calls_assertOwner ctx s p : calls (own_store_call ctx) (assertOwner s p).
Proof. destruct p; [|done]. apply calls_bind; [apply calls_index|]. intros. apply calls_of_result. Qed.

Lemma calls_views ctx recs : calls (own_store_call ctx) (session_views recs).
Proof.
  induction recs as [|rec recs IH]; [done|]. apply calls_bind.
  - apply calls_bind; [apply calls_index|done].
  - intros v. by apply calls_bind.
Qed.

Lemma calls_sandbox ctx rt ns run t : calls (own_store_call ctx) (resolveSandbox rt ns run t).
Proof. unfold resolveSandbox. repeat case_match; simpl; try done; (split; [done|]); by intros []. Qed.

Ltac store_calls :=
  repeat first
    [ done
    | match goal with Hp : principal _ = Some _ |- _ <$> _ = _ => by rewrite Hp end
    | apply calls_principal; intros ?? | apply calls_index | apply calls_of_result | apply calls_views
    | apply calls_assertOwner | apply calls_sandbox
    | apply calls_bind; [|intros ?] | apply calls_catch; [|intros ?]
    | progress case_match | progress simpl; split; [|intros ?] ].

(** No handler of the public API reads a stored secret back, so none can answer with one;
    and whatever it asks of the credential store it asks in the name of the token's subject,
    never of one named in the path, the query or the body. *)
Theorem handlers_touch_own_credentials r h ctx :
  r ∈ ROUTES → operationId r ≠ "exchangeCredential" → map_get (operationId r) handlers = Some h →
  calls (own_store_call ctx) (h ctx).
Proof.
  intros Hr Hne Hh. unfold ROUTES in Hr.
  repeat (apply elem_of_cons in Hr as [->|Hr]); [..|by apply elem_of_nil in Hr];
    injection Hh as <-; try done; clear Hne.
  all: unfold readyz, startDeviceAuth, completeDeviceAuth, getMe, createSession, listSessions, getSession, deleteSession,
    getSessionResources, mintSessionToken, listCredentials, putCredential, deleteCredential, auditBestEffort,
    audited, mint_at, seconds, turnInFlight, sessionView.
  all: store_calls.
Qed.

(** The store has done what it was asked. *)
Definition store_written (x : cpevent) : Prop :=
  match x with
  | existT (CredPut _ _) (Ok _) | existT (CredDelete _ _) (Ok _) => True
  | _ => False
  end.

Lemma runs_auditBestEffort {A} route n s decision (f : unit → cpprog A) tr o :
  runs (pbind (auditBestEffort route n s decision) f) tr o → ∃ t1 t2, tr = t1 ++ t2 ∧ runs (f tt) t2 o.
Proof.
  intros (ts & t1 & -> & ([[]|[]] & t2 & -> & Hr)%runs_inv)%runs_inv.
  - eexists [_; _], t2. split; [reflexivity|exact Hr].
  - apply runs_inv in Hr as ([] & t3 & -> & Hr). eexists [_; _; _], t3. split; [reflexivity|exact Hr].
Qed.

(** The credential routes answer 204 exactly when the store has written or deleted the
    credential, even if Redis then refuses the audit entry: an outage of Redis neither fails
    nor hides a credential's repair. *)
Theorem credential_writes_survive_redis h ctx tr o :
  h = putCredential kinds ∨ h = deleteCredential → runs (h ctx) tr o →
  (o = Ok (204, None) ↔ Exists store_written tr).
Proof.
  assert (Hno : ∀ e : thrown, (Throw e : result thrown response) = Ok (204, None) ↔ Exists store_written [])
    by (intros e; split; [done|by intros ?%Exists_nil]).
  assert (Htail : ∀ (c : cpcall) (a : cpanswer c) route n s dec t2, store_written (ev c a) →
    runs (pbind (auditBestEffort route n s dec) (fun _ => Ret (204, None))) t2 o →
    o = Ok (204, None) ↔ Exists store_written (ev c a :: t2)).
  { intros c a route n s dec t2 Hw (t3 & t4 & -> & [-> ->]%runs_inv)%runs_auditBestEffort. split; [by left|done]. }
  intros [-> | ->]; unfold putCredential, deleteCredential.
  all: unfold requirePrincipal; destruct (principal ctx) as [p|]; [|by intros [-> ->]%runs_inv].
  all: cbn [of_result pbind]; destruct (validateCredentialName _) as [n|]; [|by intros [-> ->]%runs_inv].
  all: cbn [of_result pbind].
  - case_bool_decide; [by intros [-> ->]%runs_inv|].
    destruct (parseCredentialBody _ _ _) as [cred|]; [|by intros [-> ->]%runs_inv].
    intros ([[]|e] & t1 & -> & Hr)%runs_inv; [eapply Htail; [done|exact Hr]|].
    apply runs_inv in Hr as [-> ->]. split; [done|]. by intros [?|?%Exists_nil]%Exists_cons.
  - intros ([[]|e] & t1 & -> & Hr)%runs_inv; [eapply Htail; [done|exact Hr]|].
    apply runs_inv in Hr as [-> ->]. split; [done|]. by intros [?|?%Exists_nil]%Exists_cons.
Qed.
End Theorems.

(** A path with a malformed escape makes [decodeURIComponent] throw: the caller is answered an
    internal error, before any authentication. *)
Lemma malformed_path_500 sha256 `{Ed25519} `{URLs} kinds (d : CpDeps) a :
  ∃ tr, runs (handle sha256 kinds d (mkRequest "GET" (bytes_of "/v1/sessions/%zz") a (Ok []))) tr
    (Ok (500, Some (JObj [("error", JStr "internal_error")]))).
Proof. eexists. eapply (runs_call (R := cpanswer) (Log "[control-plane] unhandled") _ tt). constructor. Qed.

(** ** From a stored credential to a turn *)

(** Dependencies that answer: a server of Redis, a store of credentials, a clock. *)
Record Env := mkEnv { e_now : Z; e_id : string; e_uuid : string; e_creds : MemoryStore }.

Definition env_answer `{CpRedis R} (e : Env) (c : cpcall) (r : R) : cpanswer c * R :=
  match c return cpanswer c * R with
  | Redis c => redis c r
  | CredGet s n => (Ok (mem_get s n (e_creds e)), r)
  | CredList s => (Ok (mem_list s (e_creds e)), r)
  | CredPut _ _ | CredDelete _ _ => (Throw Other, r)
  | StartDevice | CompleteDevice _ => (Throw Other, r)
  | Now | DateNow => (e_now e, r)
  | NewId => (e_id e, r)
  | Uuid => (e_uuid e, r)
  | Kubectl _ => (Throw tt, r)
  | Log _ => (tt, r)
  end.

Section Lifecycle.
Context (sha256 : string → string) `{CpRedis R}.
Context `{Ed25519} `{URLs} (kinds : registry) (d : CpDeps).
Implicit Types (r : R) (e : Env).

Lemma run_index {A} e (p : rprog A) r : prun (env_answer e) (index p) r = prun redis p r.
Proof.
  revert r. induction p as [a|x|c k IH]; intros r; [done..|]. simpl. destruct (redis c r) as [a r']. apply IH.
Qed.

Lemma run_redis {A} e (p : rprog A) r o K :
  prun key_do p (keys r) = (o, K) → ∃ r', prun (env_answer e) (index p) r = (o, r') ∧ keys r' = K.
Proof.
  intros Hp. rewrite run_index. destruct (prun_keys p r) as [H2 H3]. rewrite Hp in H2, H3.
  exists (prun redis p r).2. split; [|done]. rewrite (surjective_pairing (prun redis p r)) at 1. by rewrite H2.
Qed.

Lemma run_audited e s sid cr dec r l :
  stream_of (keys r !! AUDIT_STREAM) = Some l →
  ∃ r' l', prun (env_answer e) (audited s sid cr dec) r = (Ok tt, r')
    ∧ keys r' = <[AUDIT_STREAM := RStream l']> (keys r).
Proof.
  intros Hl. unfold audited. rewrite prun_bind. cbn [prun env_answer].
  edestruct (run_redis e (audit (e_now e) s sid cr dec) r) as (r' & -> & Hk); [|by eexists r', _].
  unfold audit. etransitivity; [apply (run_guard (XAdd _ _))|]. cbn [key_do]. by rewrite Hl.
Qed.

Lemma audit_key_session s : AUDIT_STREAM ≠ sessionKey s.
Proof. done. Qed.

(** A session is there, and the exchange can write its audit. *)
Definition serves (K : keyspace) (rec : SessionRecord) : Prop :=
  record_at K (sessionId rec) = Ok (Some rec) ∧ is_Some (stream_of (K !! AUDIT_STREAM)).

Lemma run_create_session e ctx p requested cname r z l :
  principal ctx = Some p → sub p ≠ "" → requested_inference (body ctx) = Ok requested →
  session_credential d (mem_list (sub p) (e_creds e)) requested = Ok cname →
  keys r !! sessionKey (e_id e) = None → zset_of (keys r !! ownerKey sha256 (sub p)) = Some z →
  stream_of (keys r !! AUDIT_STREAM) = Some l → Z.abs (e_now e) ≤ MAX_SAFE_INTEGER →
  let tnt := default (sub p) (Token.tenant p) in
  let iat := e_now e / 1000 in
  ∃ r' rec,
    prun (env_answer e) (createSession sha256 d ctx) r =
      (Ok (201, Some (JObj [("sessionId", JStr (e_id e));
                            ("token", JStr (string_of (mint (signer d) (turn_token d p (sub p) tnt (e_id e)) iat (e_uuid e))));
                            ("expiresAt", jint (iat + sessionTokenTtlSeconds (config d)))])), r')
    ∧ serves (keys r') rec ∧ sessionId rec = e_id e ∧ owner rec = sub p ∧ credentialName rec = cname
    ∧ tombstone rec = false.
Proof.
  intros Hp Hs Hreq Hc Hnew Hz Hl Ht tnt iat. unfold createSession, requirePrincipal. rewrite Hp, Hreq.
  cbn [of_result pbind prun env_answer]. rewrite Hc. cbn [of_result pbind prun env_answer].
  set (rec := mkSession _ _ _ _ _ _ _ _). rewrite prun_bind.
  edestruct (run_redis e (create sha256 rec) r) as (r1 & -> & Hk1).
  { apply (run_create sha256 rec (e_now e) _ ∅ z); [done| |done]. simpl. by rewrite Hnew. }
  rewrite prun_bind.
  match goal with |- context [prun _ (audited ?a ?b ?c ?k) _] =>
    destruct (run_audited e a b c k r1 l) as (r2 & v & -> & Hk2) end.
  { rewrite Hk1, !lookup_insert_ne by done. done. }
  cbn [pbind prun env_answer seconds mint_at].
  destruct (record_of_session_fields rec (e_now e) ∅) as (rec' & Hrec & Heq); [done..|].
  exists r2, rec'. split; [done|]. destruct Heq as (? & ? & ? & ? & ? & ? & ? & ?).
  split_and!; try done. split.
  - rewrite (record_of_id _ _ _ Hrec), Hk2, Hk1, !record_at_insert by done. unfold record_at.
    rewrite lookup_insert_eq. cbn [hash_of]. by rewrite Hrec.
  - by rewrite Hk2, lookup_insert_eq.
Qed.

(** The exchange of a token that was minted for a session, before it expires. *)
Lemma run_exchange e p tnt s iat jti r :
  map_get (keyIdFor (createPublicKey (signer d))) (verifyKeys d) = Some (createPublicKey (signer d)) →
  sub p ≠ "" → s ≠ "" → Z.abs iat ≤ MAX_SAFE_INTEGER →
  Z.abs (iat + sessionTokenTtlSeconds (config d)) ≤ MAX_SAFE_INTEGER →
  e_now e / 1000 ≤ iat + sessionTokenTtlSeconds (config d) →
  ∃ claims, sub claims = sub p ∧ sid claims = Some s
    ∧ prun (env_answer e) (exchangeCredential d (mint (signer d) (turn_token d p (sub p) tnt s) iat jti)) r
      = prun (env_answer e) (exchange_for d claims) r.
Proof.
  intros. eexists. split_and!.
  3:{ unfold exchangeCredential. cbn [pbind prun env_answer].
      rewrite verify_minted by first [done|set_solver]. done. }
  all: unfold claims_json; simpl; by rewrite ?bool_decide_eq_false_2 by done.
Qed.

Lemma run_exchange_dead e claims s r :
  sid claims = Some s → s ≠ "" → revoked (keys r) s → is_Some (hash_of (keys r !! sessionKey s)) →
  (prun (env_answer e) (exchange_for d claims) r).1 = Throw (notFound s).
Proof.
  intros Hsid Hs Hrev Hh. unfold exchange_for. rewrite Hsid. cbn [truthy_str].
  rewrite bool_decide_eq_false_2 by done. rewrite prun_bind.
  destruct (run_redis e (get s) r (Ok (visible (keys r) s)) (keys r)) as (r1 & -> & _).
  { by rewrite run_get, typed_record. }
  destruct (visible (keys r) s) as [rec|] eqn:Ev; [|done].
  rewrite (Hrev rec) by (by rewrite typed_record, Ev). by destruct (negb _).
Qed.

Lemma run_exchange_live e claims s r rec cred fld v rest h u :
  sid claims = Some s → s ≠ "" → serves (keys r) rec → sessionId rec = s → owner rec = sub claims →
  credentialName rec ≠ "" → tombstone rec = false →
  mem_get (owner rec) (credentialName rec) (e_creds e) = Some cred →
  secret cred = (fld, v) :: rest → fld ≠ "" → v ≠ "" → inferenceAuthHeader (binding (descriptor cred)) fld = Some h →
  truthy_str (match endpoint (descriptor cred) with Some x => Some x | None => defaultInferenceEndpoint (config d) end)
    = Some u →
  injectorConfigured (config d) = true ∨ directModeMismatch h v u = None →
  ∃ resp r', prun (env_answer e) (exchange_for d claims) r = (Ok resp, r')
    ∧ ex_sessionId resp = s ∧ ex_subject resp = owner rec ∧ anthropicBaseUrl resp = u
    ∧ anthropicAuthToken resp = if injectorConfigured (config d) then placeholderFor (owner rec) else v.
Proof.
  intros Hsid Hs [Hrec [l Hl]] Hid Hown Hcn Htomb Hcred Hsec Hf Hv Hh Hu Hm. unfold exchange_for.
  rewrite Hsid. cbn [truthy_str]. rewrite bool_decide_eq_false_2 by done. rewrite prun_bind.
  destruct (run_redis e (get s) r (Ok (Some rec)) (keys r)) as (r1 & -> & Hk1).
  { rewrite run_get. by rewrite <-Hid, Hrec. }
  rewrite bool_decide_eq_true_2, Htomb, (bool_decide_eq_false_2 (credentialName rec = "")) by done.
  cbn [negb pbind prun env_answer]. rewrite Hcred. cbn [of_result pbind]. unfold choose at 1. rewrite Hsec.
  rewrite bool_decide_eq_false_2, Hh by done. cbn [of_result pbind]. unfold settle.
  cbn [secretValue ch_endpoint ch_header auditName usedOperatorFallback truthy_str].
  rewrite bool_decide_eq_false_2, Hu by done.
  edestruct (run_audited e (owner rec) (Some (sessionId rec)) (Some (credentialName rec)) "credential_issued" r1 l)
    as (r2 & l2 & Ha & _); [by rewrite Hk1|].
  assert (Hg : (if injectorConfigured (config d) then placeholder else direct) = placeholder
               ∧ injectorConfigured (config d) = true
             ∨ (if injectorConfigured (config d) then placeholder else direct) = direct
               ∧ injectorConfigured (config d) = false ∧ directModeMismatch h v u = None)
    by (destruct (injectorConfigured (config d)); [by left|right; by destruct Hm]).
  destruct Hg as [[-> ->]|(-> & -> & ->)]; cbn [pbind]; rewrite prun_bind, Ha; by eexists _, _.
Qed.

(** C20. The life of a session's token, when every call of the handlers succeeds (a Redis and a
    credential store that answer; key rotation has kept the signer's key among those verified;
    times are exact as JavaScript numbers, and the fields of the registered kinds have names).
    Creating a session for a caller whose resolved credential has a name (one was stored or
    requested; an operator's fallback has none), under an id not yet taken, records that name and
    answers with a token.  Until the token expires, and as long as the session's own hash is as
    creation left it, its exchange hands out what the owner has by then stored under that name
    through the API for inference, provided an endpoint is known (the credential's or the
    deployment's default) and, without an injector, the secret's kind does not contradict header and
    endpoint, which the code refuses: the secret at its endpoint, or the placeholder behind an
    injector.  The rest of the keyspace and of the credential store may have changed in any way.
    Once the session is tombstoned or gone the same token is answered [session_not_found]. *)
Theorem session_token_lifecycle e ctx p requested cname r z l :
  map_get (keyIdFor (createPublicKey (signer d))) (verifyKeys d) = Some (createPublicKey (signer d)) →
  Forall (fun k => "" ∉ secretFields k.2) kinds →
  principal ctx = Some p → sub p ≠ "" → requested_inference (body ctx) = Ok requested →
  session_credential d (mem_list (sub p) (e_creds e)) requested = Ok cname → cname ≠ "" →
  e_id e ≠ "" → keys r !! sessionKey (e_id e) = None →
  zset_of (keys r !! ownerKey sha256 (sub p)) = Some z → stream_of (keys r !! AUDIT_STREAM) = Some l →
  Z.abs (e_now e) ≤ MAX_SAFE_INTEGER →
  Z.abs (e_now e / 1000 + sessionTokenTtlSeconds (config d)) ≤ MAX_SAFE_INTEGER →
  ∃ r' tok body', prun (env_answer e) (createSession sha256 d ctx) r = (Ok (201, Some body'), r')
  ∧ field "sessionId" body' = Some (JStr (e_id e)) ∧ field "token" body' = Some (JStr tok)
  ∧ ∀ e2 r2, e_now e2 / 1000 ≤ e_now e / 1000 + sessionTokenTtlSeconds (config d) →
      (keys r2 !! sessionKey (e_id e) = keys r' !! sessionKey (e_id e) →
       is_Some (stream_of (keys r2 !! AUDIT_STREAM)) →
       ∀ n b cred u, parseCredentialBody kinds n b = Ok cred → consumer (descriptor cred) = inference →
         mem_get (sub p) cname (e_creds e2) = Some cred →
         truthy_str (match endpoint (descriptor cred) with Some x => Some x
                     | None => defaultInferenceEndpoint (config d) end) = Some u →
         (injectorConfigured (config d) = true
          ∨ ∀ f v h, secret cred = [(f, v)] → inferenceAuthHeader (binding (descriptor cred)) f = Some h →
              directModeMismatch h v u = None) →
         ∃ resp f v, (prun (env_answer e2) (exchangeCredential d (bytes_of tok)) r2).1 = Ok resp
         ∧ secret cred = [(f, v)] ∧ ex_sessionId resp = e_id e ∧ ex_subject resp = sub p
         ∧ anthropicBaseUrl resp = u
         ∧ anthropicAuthToken resp = if injectorConfigured (config d) then placeholderFor (sub p) else v)
      ∧ (revoked (keys r2) (e_id e) → is_Some (hash_of (keys r2 !! sessionKey (e_id e))) →
         (prun (env_answer e2) (exchangeCredential d (bytes_of tok)) r2).1 = Throw (notFound (e_id e))).
Proof.
  intros Hkey Hkinds Hp Hs Hreq Hc Hcn Hid Hnew Hz Hl Ht Hexp.
  assert (Hiat : Z.abs (e_now e / 1000) ≤ MAX_SAFE_INTEGER) by (unfold MAX_SAFE_INTEGER in *; lia).
  destruct (run_create_session e ctx p requested cname r z l) as (r' & rec & Hrun & [Hrec _] & Hsid & Hown & Hname & Htomb);
    [done..|].
  eexists r', _, _. split; [exact Hrun|]. split; [done|]. split; [done|]. intros e2 r2 Hlive.
  rewrite bytes_string.
  edestruct (run_exchange e2 p (default (sub p) (Token.tenant p)) (e_id e) (e_now e / 1000) (e_uuid e) r2)
    as (claims & Hsub & Hclaim & ->); [done..|]. split.
  - intros Hsame [l2 Hl2] n b cred u Hparse Hinf Hget Hu Hm.
    pose proof (parsed_wellformed kinds n b cred Hparse) as (_ & _ & (spec & Hspec & Hfs) & Hne & _ & _ & _ & Hsend).
    destruct (Hsend Hinf) as (f & v & h & Hsec & Hh & _).
    assert (Hf : f ≠ "").
    { intros ->. apply map_get_Some_elem in Hspec. rewrite Forall_forall in Hkinds.
      apply (Hkinds _ Hspec). simpl. rewrite <-Hfs, Hsec. simpl. set_solver. }
    rewrite Hsec in Hne. apply Forall_cons in Hne as [Hv _].
    destruct (run_exchange_live e2 claims (e_id e) r2 rec cred f v [] h u) as (resp & r3 & Hx & Hrest);
      try done; try congruence.
    + split; [|by eexists]. unfold record_at in *. by rewrite Hsid in *; rewrite Hsame.
    + destruct Hm as [?|Hm]; [by left|right; by eapply Hm].
    + rewrite Hx, <-Hown. by exists resp, f, v.
  - intros Hrev Hty. by eapply run_exchange_dead.
Qed.
End Lifecycle.

(** ** Witnesses *)

Definition toy_claims : TokenClaims := mkClaims "github:2" None None None.

Definition toy_ctx (p : TokenClaims) : RequestCtx := mkCtx [("id", "s1"); ("name", "main")] [] None (Some p) false.

(** Somebody else's session: one read, and not found. *)
Lemma session_routes_guarded_witness :
  let u := toy_urls in
  ∃ tr, runs (getSession (toy_ctx toy_claims)) tr (Throw (notFound "s1"))
  ∧ ∃ a tr', tr = ev (Redis (HGetAll (sessionKey "s1"))) a :: tr'.
Proof.
  intros u. pose proof (ptrace_runs toy_answer (getSession (toy_ctx toy_claims)) toy_keys) as Hr.
  assert (E : (ptrace toy_answer (getSession (toy_ctx toy_claims)) toy_keys).2 = Throw (notFound "s1"))
    by by vm_compute.
  rewrite E in Hr. eexists. split; [exact Hr|].
  destruct (session_routes_guarded (fun s => s) KINDS toy_deps
    (mkRoute GET "/v1/sessions/{id}" api true None true "getSession") getSession (toy_ctx toy_claims) toy_claims _ _
    ltac:(unfold ROUTES; set_solver) eq_refl eq_refl eq_refl Hr) as (a & tr' & Htr & _).
  by exists a, tr'.
Defined.

Definition toy_request : Request := mkRequest "GET" (bytes_of "/v1/me") None (Ok []).

Lemma calls_need_authentication_witness :
  let u := toy_urls in
  ∃ tr resp, runs (handle (fun s => s) KINDS toy_deps toy_request) tr (Ok resp)
  ∧ Forall clock_or_log tr ∧ (resp.1 = 401 ∨ resp.1 = 500).
Proof.
  intros u. pose proof (ptrace_runs toy_answer (handle (fun s => s) KINDS toy_deps toy_request) toy_keys) as Hr.
  assert (E : (ptrace toy_answer (handle (fun s => s) KINDS toy_deps toy_request) toy_keys).2
    = Ok (error_response (fail token_required "this route requires a token"))) by by vm_compute.
  rewrite E in Hr. eexists _, _. split; [exact Hr|].
  destruct (calls_need_authentication (fun s => s) KINDS toy_deps toy_request
    (mkRoute GET "/v1/me" api false None true "getMe") [] _ _ eq_refl ltac:(done) Hr)
    as [(tok & [=] & _)|Hc]; done.
Defined.

Lemma handlers_touch_own_credentials_witness :
  let u := toy_urls in
  calls (own_store_call (toy_ctx toy_claims)) (listCredentials (toy_ctx toy_claims)).
Proof.
  intros u. apply (handlers_touch_own_credentials (fun s => s) KINDS toy_deps
    (mkRoute GET "/v1/credentials" api false None true "listCredentials")); [unfold ROUTES; set_solver|done|done].
Defined.

(** Redis down, and the credential deleted. *)
Definition redis_down (c : cpcall) (K : keyspace) : cpanswer c * keyspace :=
  match c return cpanswer c * keyspace with Redis c => (Throw tt, K) | c => toy_answer c K end.

Lemma credential_writes_survive_redis_witness :
  let u := toy_urls in
  ∃ tr, runs (deleteCredential (toy_ctx toy_claims)) tr (Ok (204, None)) ∧ Exists store_written tr.
Proof.
  intros u. pose proof (ptrace_runs redis_down (deleteCredential (toy_ctx toy_claims)) toy_keys) as Hr.
  assert (E : (ptrace redis_down (deleteCredential (toy_ctx toy_claims)) toy_keys).2 = Ok (204, None)) by by vm_compute.
  rewrite E in Hr. eexists. split; [exact Hr|].
  by apply (credential_writes_survive_redis KINDS deleteCredential (toy_ctx toy_claims) _ (Ok (204, None))); [right|..].
Defined.

Definition toy_env : Env := mkEnv 1000000 "s2" "j" {["github:2" := [("main", toy_credential)]]}.

Lemma session_token_lifecycle_witness :
  let u := toy_urls in let g := toy_ed25519 in
  ∃ r' tok resp, (prun (env_answer toy_env) (createSession (fun s => s) toy_deps (toy_ctx toy_claims)) (∅ : keyspace)).2 = r'
  ∧ (prun (env_answer toy_env) (exchangeCredential toy_deps (bytes_of tok)) r').1 = Ok resp
  ∧ anthropicAuthToken resp = "sk-ant-api-1".
Proof.
  intros u g.
  destruct (session_token_lifecycle (fun s => s) (R := keyspace) KINDS toy_deps toy_env (toy_ctx toy_claims) toy_claims
    None "main" ∅ ∅ []) as (r' & tok & b & Hrun & _ & _ & Hlater); try done.
  - by apply (bool_decide_unpack _).
  - destruct (Hlater toy_env r') as [Hlive _]; [done|].
    destruct (Hlive eq_refl) with (n := "main") (b := toy_body) (cred := toy_credential) (u := "https://api.anthropic.com")
      as (resp & f & v & Hx & Hsec & _ & _ & _ & Htok); try done.
    + apply (f_equal snd) in Hrun. cbn [snd] in Hrun. rewrite <-Hrun. vm_compute. by eexists.
    + right. intros f v h [= <- <-] [= <-]. done.
    + exists r', tok, resp. rewrite Hrun. split; [done|]. split; [done|]. rewrite Htok. by injection Hsec as <- <-.
Defined.
