(* ===== verification/Identity.v ===== *)
(** * Identity: GitHub's device flow

    Models [packages/control-plane/src/identity.ts].  Requests to GitHub are calls, answered
    with a status and a body or rejected; a request's form is given by its fields, and the
    Accept header's effect (JSON replies) is not assumed: any body may come back. *)

From Stdlib Require Import QArith.
From S2P Require Import Prelude JsNumber Json JsonText Prog CpBase Ownership Exchange.

Local Open Scope Z_scope.

Inductive icall :=
| PostForm (url : string) (form : list (string * string))
| GetUser (url accessToken : string)
| IdLog (line : string).

Definition ianswer (c : icall) : Type :=
  match c with IdLog _ => unit | _ => result unit (Z * bytes) end.

Abbreviation iprog := (prog icall ianswer thrown).

Definition adminSubjectsFromEnv (raw : option string) : list string :=
  filter (fun s => s ≠ "") ((fun s => string_of (trim s)) <$> split_char ","%char (bytes_of (default "" raw))).

Definition rolesFor (subject : string) (adminSubjects : list string) : list string :=
  if bool_decide (subject ∈ adminSubjects) then ["admin"] else [].

Definition GRANT_DEVICE_CODE : string := "urn:ietf:params:oauth:grant-type:device_code".
Definition SCOPE : string := "read:user".

(** Enough of a client id to spot a typo, on its bytes; the ellipsis is three. *)
Definition shortClientId (clientId : string) : string :=
  let n := String.length clientId in
  string_of (take (Nat.min 6 (n / 2)) (bytes_of clientId)) +:+ string_of (ascii_of_nat <$> [226; 128; 166]%nat)
  +:+ " (" +:+ string_of (dec (Z.of_nat n)) +:+ " char" +:+ (if (n =? 1)%nat then "" else "s") +:+ ")".

Definition parseBody (text : bytes) (status : Z) : result thrown json :=
  match parse text with
  | Some j =>
      require is_object j
        else fail unauthorized ("github replied " +:+ string_of (dec_signed status) +:+ " with a non-JSON body");
      Ok j
  | None => Throw (fail unauthorized ("github replied " +:+ string_of (dec_signed status) +:+ " with a non-JSON body"))
  end.

(** A rejected request is no typed error. *)
Definition fetched {A} (a : result unit (Z * bytes)) (k : Z → json → iprog A) : iprog A :=
  match a with
  | Ok (status, text) => await j <- of_result (parseBody text status); k status j
  | Throw _ => Err Other
  end.

Record GithubOAuthProvider := mkGithub {
  clientId : string;
  adminSubjects : list string;
  oauthBase : string;
  apiBase : string;
}.

(** The constructor refuses an empty client id ([None]). *)
Definition github_provider (cid : string) (admins : option (list string)) (oauth apib : option string) :
    option GithubOAuthProvider :=
  if bool_decide (cid = "") then None
  else Some (mkGithub cid (default [] admins) (default "https://github.com" oauth)
               (default "https://api.github.com" apib)).

Section Provider.
Context (g : GithubOAuthProvider).

Definition postJson {A} (url : string) (form : list (string * string)) (k : Z → json → iprog A) : iprog A :=
  Call (PostForm url form) (fun a => fetched a k).

Definition misconfigured {A} (msg : string) : iprog A :=
  Call (IdLog ("[control-plane] GitHub refused the OAuth app: " +:+ msg))
    (fun _ => Err (fail identity_provider_misconfigured msg)).

Definition string_or (j : option json) (dflt : string) : string := default dflt (as_string j).

Definition start_reply (status : Z) (b : json) : iprog DeviceStart :=
  match as_string (field "error" b) with
  | Some err =>
      if bool_decide (err = "device_flow_disabled") then
        misconfigured ("the control plane's GitHub OAuth app has the device flow off (device_flow_disabled): "
                       +:+ "tick Enable Device Flow on the app")
      else if status =? 404 then
        misconfigured ("GitHub knows no OAuth app with client id " +:+ shortClientId (clientId g) +:+ " ("
                       +:+ err +:+ "): check SH_GITHUB_CLIENT_ID")
      else Err (fail unauthorized ("github device code failed: " +:+ err))
  | None =>
      match as_string (field "device_code" b), as_string (field "user_code" b) with
      | Some dc, Some uc =>
          Ret (mkDevice dc uc (string_or (field "verification_uri" b) "https://github.com/login/device")
                 (match as_number (field "interval" b) with
                  | Some n => if negb (Qle_bool n 0) then n else 5%Q
                  | None => 5%Q
                  end)
                 (default 900%Q (as_number (field "expires_in" b))))
      | _, _ => Err (fail unauthorized "github device code reply had no device_code")
      end
  end.

Definition startDeviceAuth : iprog DeviceStart :=
  postJson (oauthBase g +:+ "/login/device/code") [("client_id", clientId g); ("scope", SCOPE)] start_reply.

Definition user_reply (user : json) : iprog Principal :=
  match as_number (field "id" user) with
  | None => Err (fail unauthorized "github /user returned no numeric id")
  | Some id =>
      let s := "github:" +:+ num_string (Fin id) in
      Ret (mkPrincipal s
             (match nonempty (as_string (field "name" user)) with
              | Some n => n
              | None => string_or (field "login" user) s
              end)
             (rolesFor s (adminSubjects g)))
  end.

Definition completeDeviceAuth (code : string) : iprog Principal :=
  postJson (oauthBase g +:+ "/login/oauth/access_token")
    [("client_id", clientId g); ("device_code", code); ("grant_type", GRANT_DEVICE_CODE)] (fun _ token =>
    match as_string (field "error" token) with
    | Some err =>
        if bool_decide (err = "authorization_pending") || bool_decide (err = "slow_down")
        then Err (fail authorization_pending ("github: " +:+ err))
        else Err (fail unauthorized ("github device authorization failed: " +:+ err))
    | None =>
        match nonempty (as_string (field "access_token" token)) with
        | None => Err (fail unauthorized "github returned no access token")
        | Some tok => Call (GetUser (apiBase g +:+ "/user") tok) (fun a => fetched a (fun _ user => user_reply user))
        end
    end).
End Provider.

(** ** Who is logged in *)

Lemma runs_fetched {A} a (k : Z → json → iprog A) tr x :
  runs (fetched a k) tr (Ok x) →
  ∃ status text j, a = Ok (status, text) ∧ parse text = Some j ∧ runs (k status j) tr (Ok x).
Proof.
  destruct a as [[status text]|]; [|by intros [_ ?]%runs_inv]. unfold fetched, parseBody.
  destruct (parse text) as [j|] eqn:E; [|by intros [_ ?]%runs_inv].
  destruct (is_object j); [|by intros [_ ?]%runs_inv]. intros Hr. by exists status, text, j.
Qed.

Lemma dec_signed_inj z z' :
  Z.abs z ≤ MAX_SAFE_INTEGER → Z.abs z' ≤ MAX_SAFE_INTEGER → dec_signed z = dec_signed z' → z = z'.
Proof.
  intros Hz Hz' E. apply (f_equal (fun s => integer_val (Number s))) in E. rewrite !Number_dec in E by done. by injection E.
Qed.

Lemma num_string_int z : num_string (Fin (inject_Z z)) = string_of (dec_signed z).
Proof.
  unfold num_string. assert (integer_val (Fin (inject_Z z)) = Some z) as ->; [|done].
  unfold integer_val. simpl. by rewrite Z.mod_1_r, Z.div_1_r.
Qed.

(** A login that succeeds is that of the account whose numeric id GitHub's user endpoint
    gave for the access token of that very device code: the subject is made of the id alone,
    so two accounts never share one and a renamed account keeps its own, and it is an
    administrator only if the operator listed that subject. *)
Theorem login_is_by_numeric_id g code tr pr :
  runs (completeDeviceAuth g code) tr (Ok pr) →
  ∃ st st' b b' token user tok id,
    tr = [ev (PostForm (oauthBase g +:+ "/login/oauth/access_token")
                [("client_id", clientId g); ("device_code", code); ("grant_type", GRANT_DEVICE_CODE)]) (Ok (st, b));
          ev (GetUser (apiBase g +:+ "/user") tok) (Ok (st', b'))]
    ∧ parse b = Some token ∧ field "access_token" token = Some (JStr tok) ∧ tok ≠ ""
    ∧ parse b' = Some user ∧ field "id" user = Some (JNum id)
    ∧ subject pr = "github:" +:+ num_string (Fin id)
    ∧ ("admin" ∈ pr_roles pr ↔ subject pr ∈ adminSubjects g)
    ∧ ∀ z z', id = inject_Z z → Z.abs z ≤ MAX_SAFE_INTEGER → Z.abs z' ≤ MAX_SAFE_INTEGER →
        subject pr = "github:" +:+ num_string (Fin (inject_Z z')) → z = z'.
Proof.
  unfold completeDeviceAuth, postJson. intros (a & t1 & -> & Hr)%runs_inv.
  apply runs_fetched in Hr as (st & b & token & -> & Hp & Hr).
  destruct (as_string (field "error" token)) as [err|]; [by destruct (_ || _); apply runs_inv in Hr as [_ ?]|].
  destruct (nonempty (as_string (field "access_token" token))) as [tok|] eqn:Et; [|by apply runs_inv in Hr as [_ ?]].
  apply runs_inv in Hr as (a & t2 & -> & Hr). apply runs_fetched in Hr as (st' & b' & user & -> & Hp' & Hr).
  unfold user_reply in Hr. destruct (as_number (field "id" user)) as [id|] eqn:Ei; [|by apply runs_inv in Hr as [_ ?]].
  apply runs_inv in Hr as [-> Hpr].
  assert (Hs : subject pr = "github:" +:+ num_string (Fin id) ∧ pr_roles pr = rolesFor (subject pr) (adminSubjects g))
    by (by injection Hpr as ->). clear Hpr. destruct Hs as [Hs Hroles]. exists st, st', b, b', token, user, tok, id.
  destruct (field "id" user) as [[]|]; try done. injection Ei as ->.
  destruct (field "access_token" token) as [[]|]; try done. cbn in Et. case_bool_decide; [done|]. injection Et as ->.
  split_and!; try done.
  - rewrite Hroles. unfold rolesFor. case_bool_decide; set_solver.
  - intros z z' -> Hz Hz' E. rewrite Hs, !num_string_int in E.
    apply (inj (String.append "github:")), (f_equal bytes_of) in E. rewrite !bytes_string in E.
    by apply dec_signed_inj.
Qed.

Definition toy_github : GithubOAuthProvider := mkGithub "cid" ["github:7"] "https://github.com" "https://api.github.com".

Definition toy_reply (c : icall) (s : unit) : ianswer c * unit :=
  match c return ianswer c * unit with
  | PostForm _ _ => (Ok (200, stringify (JObj [("access_token", JStr "t")])), s)
  | GetUser _ _ => (Ok (200, stringify (JObj [("id", JNum 7); ("login", JStr "ada")])), s)
  | IdLog _ => (tt, s)
  end.

Lemma login_is_by_numeric_id_witness :
  ∃ tr, runs (completeDeviceAuth toy_github "code") tr (Ok (mkPrincipal "github:7" "ada" ["admin"]))
  ∧ ∃ id, "github:7" = "github:" +:+ num_string (Fin id).
Proof.
  pose proof (ptrace_runs toy_reply (completeDeviceAuth toy_github "code") tt) as Hr.
  assert (E : (ptrace toy_reply (completeDeviceAuth toy_github "code") tt).2
              = Ok (mkPrincipal "github:7" "ada" ["admin"])) by by vm_compute.
  rewrite E in Hr. eexists. split; [exact Hr|].
  destruct (login_is_by_numeric_id _ _ _ _ Hr) as (_ & _ & _ & _ & _ & _ & _ & id & _ & _ & _ & _ & _ & _ & Hs & _).
  by exists id.
Defined.
