(* ===== verification/Boot.v ===== *)
(** * Starting the control plane

    Models [packages/control-plane/src/main.ts] (settings, their checks at boot, the stores and
    keys chosen from them) and [systemd-credentials.ts].  The environment is a map of
    variables; a thrown [Error] is its message.  Decoding the private key is the platform's
    ([from_pkcs8], a parameter), and so is reading a credential file.  [path.join] is taken on
    a directory in normal form. *)

From Stdlib Require Import QArith Qround.
From S2P Require Import Prelude Base64 JsNumber Json Prog CpBase Ownership Token Credentials Envelope Exchange.

Local Open Scope Z_scope.

Abbreviation environ := (gmap string string).

(** [env[name] || undefined] *)
Definition setting (env : environ) (n : string) : option string := truthy_str (env !! n).

Definition required (env : environ) (n : string) : result string string :=
  match setting env n with Some v => Ok v | None => Throw (n +:+ " is required") end.

Definition intEnv (env : environ) (n : string) (def : Z) : Z :=
  match env !! n with
  | Some s => match Number (bytes_of s) with
              | Fin q => if negb (Qle_bool q 0) then Qfloor q else def
              | _ => def
              end
  | None => def
  end.

(** The trailing slashes cut off. *)
Fixpoint drop_leading (c : ascii) (s : bytes) : bytes :=
  match s with
  | x :: s' => if bool_decide (x = c) then drop_leading c s' else s
  | [] => []
  end.

Definition drop_trailing_slashes (v : string) : string := string_of (rev (drop_leading "/"%char (rev (bytes_of v)))).

Section Urls.
Context `{URLs}.

Definition urlEnv (env : environ) (n : string) : result string (option string) :=
  match setting env n with
  | None => Ok None
  | Some v =>
      match url_parse v with
      | None => Throw (n +:+ " must be an absolute http(s) URL, got '" +:+ v +:+ "'")
      | Some u =>
          require bool_decide (protocol u = "http:") || bool_decide (protocol u = "https:")
            else n +:+ " must be an absolute http(s) URL, got '" +:+ v +:+ "'";
          Ok (Some (drop_trailing_slashes v))
      end
  end.

Definition portFromEnv (env : environ) : Z := intEnv env "SH_CONTROL_PLANE_PORT" 8080.
Definition hostFromEnv (env : environ) : option string := setting env "SH_CONTROL_PLANE_HOST".

Definition CONTROL_PLANE_SECRETS : list string :=
  ["SH_SESSION_TOKEN_PRIVATE_KEY"; "SH_CREDENTIAL_KEK"; "SH_EXCHANGE_TOKEN"; "SH_OPERATOR_INFERENCE_TOKEN"].

Definition operatorHeaderFromEnv (env : environ) : result string InferenceAuthHeader :=
  match default "authorization" (setting env "SH_OPERATOR_INFERENCE_HEADER") with
  | "authorization" => Ok authorization
  | "x-api-key" => Ok x_api_key
  | v => Throw ("SH_OPERATOR_INFERENCE_HEADER must be 'authorization' or 'x-api-key', got '" +:+ v +:+ "'")
  end.

(** The checks of the default endpoint. *)
Definition check_default_endpoint (dflt : option string) : result string unit :=
  match truthy_str dflt with
  | None => Ok tt
  | Some s =>
      match url_parse s with
      | None => Throw "SH_DEFAULT_INFERENCE_ENDPOINT is not a URL (want an origin, e.g. https://gateway.example)"
      | Some url =>
          if bool_decide (hostname url = "api.anthropic.com")
             && (negb (bool_decide (pathname url = "/")) || negb (bool_decide (search url = "")))
          then Throw ("SH_DEFAULT_INFERENCE_ENDPOINT for api.anthropic.com is the bare origin "
                      +:+ "https://api.anthropic.com (no /v1): the client adds /v1/messages itself")
          else Ok tt
      end
  end.

Definition checkInferenceConfig (c : CpConfig) : result string unit :=
  try _ <- check_default_endpoint (defaultInferenceEndpoint c);
  if negb (allowOperatorFallback c) then Ok tt else
  match truthy_str (operatorInferenceToken c) with
  | None => Throw ("SH_ALLOW_OPERATOR_FALLBACK=true needs SH_OPERATOR_INFERENCE_TOKEN (on deploy/vm, the file "
                   +:+ "/etc/serverless-harness/credentials/operator-inference-token, then re-run setup-vm.sh)")
  | Some token =>
      match truthy_str (defaultInferenceEndpoint c) with
      | None => Throw ("SH_ALLOW_OPERATOR_FALLBACK=true needs SH_DEFAULT_INFERENCE_ENDPOINT: the operator token has "
                       +:+ "no endpoint of its own")
      | Some dflt =>
          require negb (startsWith token "sk-ant-oat")
            else "SH_OPERATOR_INFERENCE_TOKEN is an Anthropic OAuth token, which the inference path cannot send; use an API key";
          if injectorConfigured c then Ok tt else
          match directModeMismatch (default authorization (operatorInferenceHeader c)) token dflt with
          | Some bearer_to_anthropic =>
              Throw ("SH_OPERATOR_INFERENCE_TOKEN would go as Bearer to api.anthropic.com, which reads API keys "
                     +:+ "from x-api-key: set SH_OPERATOR_INFERENCE_HEADER=x-api-key for an Anthropic API key, or "
                     +:+ "point SH_DEFAULT_INFERENCE_ENDPOINT at a gateway")
          | Some raw_key_elsewhere =>
              Throw ("SH_OPERATOR_INFERENCE_TOKEN is an Anthropic API key, but SH_DEFAULT_INFERENCE_ENDPOINT is not "
                     +:+ "https://api.anthropic.com: set it to https://api.anthropic.com with "
                     +:+ "SH_OPERATOR_INFERENCE_HEADER=x-api-key, or use a gateway token")
          | None => Ok tt
          end
      end
  end.

Definition keks_of (env : environ) : result string (list bytes) :=
  match keksFromBase64 (bytes_of <$> env !! "SH_CREDENTIAL_KEK") with
  | Ok ks => Ok ks
  | Throw _ => Throw "SH_CREDENTIAL_KEK"
  end.

Definition configFromEnv (env : environ) : result string CpConfig :=
  try _ <- required env "SH_SESSION_TOKEN_PRIVATE_KEY";
  try _ <- required env "SH_GITHUB_CLIENT_ID";
  try _ <- required env "SH_CREDENTIAL_KEK";
  try _ <- keks_of env;
  try exch <- required env "SH_EXCHANGE_TOKEN";
  try hdr <- operatorHeaderFromEnv env;
  try harness <- urlEnv env "SH_PUBLIC_HARNESS_URL";
  let config := mkConfig (intEnv env "SH_API_TOKEN_TTL_SECONDS" 3600) (intEnv env "SH_SESSION_TOKEN_TTL_SECONDS" 300)
    (Some exch) (setting env "SH_DEFAULT_INFERENCE_ENDPOINT") (setting env "SH_OPERATOR_INFERENCE_TOKEN") (Some hdr)
    (bool_decide (env !! "SH_ALLOW_OPERATOR_FALLBACK" = Some "true"))
    (bool_decide (env !! "SH_INJECTOR_CONFIGURED" = Some "true"))
    (default "default" (setting env "SH_SANDBOX_NAMESPACE")) harness in
  try _ <- checkInferenceConfig config;
  Ok config.

(** ** Stores, keys and dependencies *)

Inductive CredentialStoreKind :=
| FileCredentialStore (dir : string)
| VaultCredentialStore (addr : string) (namespace : option string) (mount prefix : string)
| K8sSecretStore (namespace : string).

(** Which store, and with which settings; each holds the ring of keys.  [vault_token] is
    [vaultTokenSource], which reads the token file once at boot. *)
Definition credentialStoreFromEnv (vault_token : environ → result string unit) (env : environ) :
    result string (CredentialStoreKind * list bytes) :=
  let kind := default "kubernetes" (setting env "SH_CREDENTIAL_STORE") in
  require bool_decide (kind ∈ ["kubernetes"; "file"; "vault"])
    else "SH_CREDENTIAL_STORE must be one of kubernetes, file, vault, got '" +:+ kind +:+ "'";
  try keks <- keks_of env;
  if bool_decide (kind = "file") then
    try dir <- required env "SH_CREDENTIAL_DIR"; Ok (FileCredentialStore dir, keks)
  else if bool_decide (kind = "vault") then
    try addr <- required env "VAULT_ADDR";
    try _ <- vault_token env;
    Ok (VaultCredentialStore addr (env !! "VAULT_NAMESPACE") (default "secret" (setting env "SH_VAULT_KV_MOUNT"))
          (default "moca/credentials" (setting env "SH_VAULT_PATH")), keks)
  else Ok (K8sSecretStore (default "sh-credentials" (env !! "SH_CREDENTIAL_NAMESPACE")), keks).

Context `{Ed25519} (from_pkcs8 : string → option PrivateKey).

Definition verifyKeysFromEnv (env : environ) (signerPublicKeyBase64 : bytes) :
    result string (list (string * PublicKey)) :=
  match parseKeyset (bytes_of <$> env !! "SH_SESSION_TOKEN_PUBLIC_KEYS") with
  | Throw _ => Throw "SH_SESSION_TOKEN_PUBLIC_KEYS"
  | Ok keys =>
      match publicKeyFromBase64 signerPublicKeyBase64 with
      | None => Throw "signer public key"
      | Some own => Ok (map_set (keyIdFor own) own keys)
      end
  end.

(** [makeSigner]'s [publicKeyBase64] *)
Definition publicKeyBase64 (key : PrivateKey) : bytes := b64url_encode (spki (createPublicKey key)).

(** The parts of the dependencies that settings decide. *)
Definition depsFromEnv (vault_token : environ → result string unit) (env : environ) :
    result string (CpDeps * (CredentialStoreKind * list bytes)) :=
  try config <- configFromEnv env;
  match from_pkcs8 (default "" (env !! "SH_SESSION_TOKEN_PRIVATE_KEY")) with
  | None => Throw "SH_SESSION_TOKEN_PRIVATE_KEY"
  | Some key =>
      try store <- credentialStoreFromEnv vault_token env;
      try keys <- verifyKeysFromEnv env (publicKeyBase64 key);
      Ok (mkDeps _ config key keys true, store)
  end.
End Urls.

(** ** Systemd credentials *)

(** A credential file: absent, unreadable, or its text. *)
Inductive cred_file := Absent | Unreadable (why : string) | Text (raw : bytes).

Definition NL : ascii := ascii_of_nat 10.
Definition CR : ascii := ascii_of_nat 13.

(** Exactly one trailing newline cut off. *)
Definition strip_newline (raw : bytes) : bytes :=
  match rev raw with
  | x :: y :: r => if bool_decide (x = NL) then if bool_decide (y = CR) then rev r else rev (y :: r) else raw
  | [x] => if bool_decide (x = NL) then [] else raw
  | [] => raw
  end.

Definition credentialValue (file : string → cred_file) (env : environ) (n : string) : result string (option string) :=
  let fromEnv := setting env n in
  match setting env "CREDENTIALS_DIRECTORY" with
  | None => Ok fromEnv
  | Some dir =>
      let path := dir +:+ "/" +:+ n in
      match file path with
      | Absent => Ok fromEnv
      | Unreadable why => Throw (n +:+ ": cannot read systemd credential " +:+ path +:+ ": " +:+ why)
      | Text raw =>
          match strip_newline raw with
          | [] => Throw (n +:+ ": systemd credential " +:+ path +:+ " is empty")
          | value =>
              match fromEnv with
              | Some _ => Throw (n +:+ " is set both in the environment and as a systemd credential ("
                                 +:+ path +:+ "); set exactly one")
              | None => Ok (Some (string_of value))
              end
          end
      end
  end.

Fixpoint with_names (file : string → cred_file) (env : environ) (names : list string) (out : environ) :
    result string environ :=
  match names with
  | [] => Ok out
  | n :: names' =>
      try v <- credentialValue file env n;
      with_names file env names' (match v with None => delete n out | Some v => <[n := v]> out end)
  end.

Definition withCredentials (file : string → cred_file) (env : environ) (names : list string) : result string environ :=
  with_names file env names env.

(** ** What a control plane that started can rely on *)

Section Theorems.
Context `{URLs} `{Ed25519}.
Context (from_pkcs8 : string → option PrivateKey) (vault_token : environ → result string unit).
Abbreviation boots env d st := (depsFromEnv from_pkcs8 vault_token env = Ok (d, st)).

Lemma boots_config env d st : boots env d st → configFromEnv env = Ok (config d).
Proof.
  unfold depsFromEnv. destruct (configFromEnv env) as [c|]; [|done]. cbn [result_bind].
  destruct (from_pkcs8 _) as [key|]; [|done]. destruct (credentialStoreFromEnv vault_token env) as [s|]; [|done].
  cbn [result_bind]. destruct (verifyKeysFromEnv env _) as [keys|]; [|done]. cbn [result_bind]. by intros [= <- _].
Qed.

Lemma config_checked env c : configFromEnv env = Ok c → checkInferenceConfig c = Ok tt.
Proof.
  unfold configFromEnv.
  repeat match goal with
         | |- result_bind ?x _ = Ok _ → _ =>
             lazymatch x with checkInferenceConfig _ => fail | _ => destruct x; [|done]; cbn [result_bind] end
         end.
  destruct (checkInferenceConfig _) as [[]|] eqn:E; [|done]. by intros [= <-].
Qed.

(** The whole triple of the operator's fallback is fit to send. *)
Lemma checked_fallback c :
  checkInferenceConfig c = Ok tt → allowOperatorFallback c = true →
  ∃ token url, truthy_str (operatorInferenceToken c) = Some token
    ∧ truthy_str (defaultInferenceEndpoint c) = Some url
    ∧ (injectorConfigured c = false →
       directModeMismatch (default authorization (operatorInferenceHeader c)) token url = None).
Proof.
  unfold checkInferenceConfig. destruct (check_default_endpoint _) as [[]|]; [|done]. cbn [result_bind].
  intros Hc Ha. rewrite Ha in Hc. cbn [negb] in Hc.
  destruct (truthy_str (operatorInferenceToken c)) as [token|]; [|done].
  destruct (truthy_str (defaultInferenceEndpoint c)) as [url|]; [|done].
  destruct (startsWith token "sk-ant-oat"); [done|]. cbn [negb] in Hc. exists token, url. split_and!; [done..|].
  intros Hi. rewrite Hi in Hc. by destruct (directModeMismatch _ _ _) as [[]|].
Qed.

(** In a control plane that started with the operator's fallback on, a session that recorded
    no credential can always be served: the exchange's refusals for a fallback without token or
    endpoint, or misdirected, are never reached, and only a failed audit stops the grant. *)
Theorem booted_fallback_serves env d st rec :
  depsFromEnv from_pkcs8 vault_token env = Ok (d, st) → allowOperatorFallback (config d) = true → credentialName rec = "" →
  ∃ ch, choose d rec None = Ok ch ∧ usedOperatorFallback ch = true
    ∧ ∀ tr o, runs (settle d rec ch) tr o → o = Throw unavailable ∨ ∃ resp, o = Ok resp.
Proof.
  intros Hd%boots_config%config_checked Ha Hn.
  destruct (checked_fallback _ Hd Ha) as (token & url & Ht & Hu & Hm).
  unfold choose. rewrite Hn, Ha, Ht, bool_decide_eq_true_2 by done. eexists. split; [done|]. split; [done|].
  intros tr o. apply truthy_str_Some in Ht as [_ Hne]. unfold settle.
  cbn [secretValue ch_endpoint ch_header auditName usedOperatorFallback truthy_str].
  rewrite bool_decide_eq_false_2, Hu by done.
  assert (Hg : ∀ (k : cpprog ExchangeResponse) resp tr' s sid cr dec, k = Ret resp →
    runs (pbind (audited s sid cr dec) (fun _ => k)) tr' o → o = Throw unavailable ∨ ∃ resp, o = Ok resp).
  { intros k resp tr' s sid cr dec -> (ts & t1 & -> & ([[]|[]] & t2 & -> & Hr)%runs_inv)%runs_inv;
      apply runs_inv in Hr as [_ ->]; eauto. }
  destruct (injectorConfigured (config d)); [|rewrite Hm by done]; cbn [pbind]; by eapply Hg.
Qed.

(** The signer's own public half is among the keys that verify. *)
Lemma booted_signer_verifies env d st :
  (∀ pk, from_spki (spki pk) = Some pk) → boots env d st →
  map_get (keyIdFor (createPublicKey (signer d))) (verifyKeys d) = Some (createPublicKey (signer d)).
Proof.
  intros Hspki. unfold depsFromEnv. destruct (configFromEnv env) as [c|]; [|done]. cbn [result_bind].
  destruct (from_pkcs8 _) as [key|]; [|done]. destruct (credentialStoreFromEnv vault_token env) as [s|]; [|done].
  cbn [result_bind]. unfold verifyKeysFromEnv, publicKeyBase64, publicKeyFromBase64.
  destruct (parseKeyset _) as [keys|]; [|done]. rewrite b64url_roundtrip, Hspki. cbn [result_bind].
  intros [= <- _]. cbn. by rewrite map_get_set, decide_True.
Qed.
End Theorems.

Section Secrets.
Context (file : string → cred_file) (env : environ).

Lemma with_names_lookup names out out' :
  NoDup names → with_names file env names out = Ok out' →
  ∀ n, if decide (n ∈ names) then ∃ v, credentialValue file env n = Ok v ∧ out' !! n = v else out' !! n = out !! n.
Proof.
  intros Hnd. revert out. induction names as [|m names IH]; intros out; cbn [with_names].
  - intros [= <-] n. destruct (decide _) as [Hn|]; [by apply elem_of_nil in Hn|done].
  - apply NoDup_cons in Hnd as [Hm Hnd]. destruct (credentialValue file env m) as [v|] eqn:Ev; [|done].
    cbn [result_bind]. intros Hw n. specialize (IH Hnd _ Hw n).
    destruct (decide (n = m)) as [->|Hne].
    + rewrite decide_True by set_solver. rewrite decide_False in IH by done. exists v. split; [done|].
      rewrite IH. by destruct v; [rewrite lookup_insert_eq|rewrite lookup_delete_eq].
    + destruct (decide (n ∈ names)) as [Hin|Hin].
      * by rewrite decide_True by set_solver.
      * rewrite decide_False by set_solver. rewrite IH.
        by destruct v; [rewrite lookup_insert_ne|rewrite lookup_delete_ne].
Qed.

(** The file of a secret, if there is a directory of them. *)
Definition secret_file (n : string) : cred_file :=
  match setting env "CREDENTIALS_DIRECTORY" with Some dir => file (dir +:+ "/" +:+ n) | None => Absent end.

(** After startup resolved the secrets, each has one source: its non-empty credential file,
    with the environment not setting it too, or the environment where there is no such file;
    every other variable is as it was. *)
Theorem secrets_single_source names out :
  NoDup names → withCredentials file env names = Ok out →
  (∀ n, n ∉ names → out !! n = env !! n)
  ∧ ∀ n, n ∈ names →
      (secret_file n = Absent ∧ out !! n = setting env n)
      ∨ ∃ raw, secret_file n = Text raw ∧ strip_newline raw ≠ [] ∧ setting env n = None
               ∧ out !! n = Some (string_of (strip_newline raw)).
Proof.
  intros Hnd Hw. pose proof (with_names_lookup _ _ _ Hnd Hw) as Hl. split; intros n Hn; specialize (Hl n).
  - by rewrite decide_False in Hl.
  - rewrite decide_True in Hl by done. destruct Hl as (v & Hv & ->). unfold credentialValue in Hv. unfold secret_file.
    destruct (setting env "CREDENTIALS_DIRECTORY") as [dir|]; [|left; by injection Hv as <-].
    destruct (file _) as [|why|raw]; [left; by injection Hv as <-|done|]. right. exists raw.
    destruct (strip_newline raw) as [|c s] eqn:Es; [done|]. destruct (setting env n); [done|]. by injection Hv as <-.
Qed.
End Secrets.

(** ** Witnesses *)

Definition toy_environ : environ :=
  list_to_map [("SH_SESSION_TOKEN_PRIVATE_KEY", "k1"); ("SH_GITHUB_CLIENT_ID", "cid"); ("SH_EXCHANGE_TOKEN", "x");
               ("SH_CREDENTIAL_KEK", "AAAAAAAAAAAAAAAAAAAAAAAAAAAAAAAAAAAAAAAAAAA");
               ("SH_ALLOW_OPERATOR_FALLBACK", "true"); ("SH_OPERATOR_INFERENCE_TOKEN", "gw-1");
               ("SH_DEFAULT_INFERENCE_ENDPOINT", "https://gateway.internal")].

Definition toy_pkcs8 (s : string) : option (@PrivateKey toy_ed25519) := Some (bytes_of s).

Definition fallback_session : SessionRecord := mkSession "s" "a" "a" (Fin 0%Q) active None "" false.

Lemma booted_fallback_serves_witness :
  let u := toy_urls in let g := toy_ed25519 in
  ∃ (d : CpDeps) st, depsFromEnv toy_pkcs8 (fun _ => Ok tt) toy_environ = Ok (d, st)
  ∧ ∃ ch, choose d fallback_session None = Ok ch ∧ usedOperatorFallback ch = true.
Proof.
  intros u g.
  assert (Hb : match depsFromEnv toy_pkcs8 (fun _ => Ok tt) toy_environ with
               | Ok (d, _) => allowOperatorFallback (config d) | Throw _ => false end = true) by by vm_compute.
  destruct (depsFromEnv toy_pkcs8 (fun _ => Ok tt) toy_environ) as [[d st]|e] eqn:E; [|done].
  exists d, st. split; [done|].
  destruct (booted_fallback_serves toy_pkcs8 (fun _ => Ok tt) toy_environ d st fallback_session E)
    as (ch & Hc & Hu & _); [exact Hb|reflexivity|by exists ch].
Defined.

Lemma secrets_single_source_witness :
  let file := fun p => if bool_decide (p = "/run/SH_CREDENTIAL_KEK") then Text (bytes_of "k" ++ [NL]) else Absent in
  let env := list_to_map [("CREDENTIALS_DIRECTORY", "/run"); ("SH_EXCHANGE_TOKEN", "x")] in
  ∃ out, withCredentials file env CONTROL_PLANE_SECRETS = Ok out ∧ out !! "SH_EXCHANGE_TOKEN" = env !! "SH_EXCHANGE_TOKEN".
Proof.
  intros file env.
  assert (Hb : match withCredentials file env CONTROL_PLANE_SECRETS with Ok _ => true | _ => false end = true)
    by by vm_compute.
  destruct (withCredentials file env CONTROL_PLANE_SECRETS) as [out|] eqn:E; [|discriminate Hb].
  exists out. split; [done|].
  destruct (secrets_single_source file env CONTROL_PLANE_SECRETS out) as [_ Hin];
    [by apply (bool_decide_unpack _)|done|].
  destruct (Hin "SH_EXCHANGE_TOKEN") as [[_ ->]|(raw & Hf & _)]; [unfold CONTROL_PLANE_SECRETS; set_solver|done|].
  by vm_compute in Hf.
Defined.
