(* ===== verification/TurnAuth.v ===== *)
(** * Caller authentication on the data plane

    Models [packages/knative-server/src/turn-auth.ts]: whose turn a request may drive, and the
    client of the control plane's credential exchange ([Exchange], [Handlers]).  The HTTP call
    is answered with a status and a body, or fails, before the reply or while its body is read.
    Header names are lower case, as Node's server gives them. *)

From Stdlib Require Import QArith.
From S2P Require Import Prelude JsNumber Json JsonText Prog CpBase Ownership Token Credentials Exchange CpRoutes Handlers.

Local Open Scope Z_scope.

Inductive CredentialHeader := OneValue (s : string) | Values (l : list string).

Abbreviation headers := (gmap string CredentialHeader).

Definition header (hs : headers) (n : string) : option string :=
  match hs !! n with Some (OneValue s) => Some s | Some (Values l) => head l | None => None end.

(** As the control plane's own. *)
Definition bearer (hs : headers) : option string :=
  Handlers.bearer (mkRequest "" [] (header hs "authorization") (Ok [])).

Inductive tcall :=
| TurnNow
| PostExchange (url : string) (authorization : option string) (body : json).

Inductive fetch_reply :=
| NoReply                                   (* [fetch] rejected *)
| NoBody (status : Z)                       (* [res.text()] rejected *)
| Reply (status : Z) (text : bytes).

Definition tanswer (c : tcall) : Type := match c with TurnNow => Z | PostExchange _ _ _ => fetch_reply end.

Abbreviation tprog := (prog tcall tanswer thrown).

(** [UpstreamCredential] and the endpoint it is for. *)
Record Upstream := mkUpstream {
  up_mode : CredentialMode;
  up_value : string;
  up_header : option InferenceAuthHeader;
  up_baseUrl : string;
}.

Record TurnAuth := mkTurnAuth { ta_subject : string; ta_sessionId : string; ta_credential : Upstream }.

Definition PASSTHROUGH : list CpErrorCode :=
  [credential_required; credential_ambiguous; credential_not_found; endpoint_unresolved; session_not_found;
   token_invalid; token_expired].

(** The member of [PASSTHROUGH] of that name. *)
Definition passthrough (code : string) : option CpErrorCode :=
  List.find (fun c => bool_decide (code_name c = code)) PASSTHROUGH.

Definition unavail (why : string) : thrown := fail credential_unavailable why.

Definition mode_of (j : option json) : option CredentialMode :=
  match j with
  | Some (JStr "direct") => Some direct
  | Some (JStr "placeholder") => Some placeholder
  | _ => None
  end.

(** [body.authHeader]: absent, one of the two headers, or anything else. *)
Definition header_of (j : option json) : option (option InferenceAuthHeader) :=
  match j with
  | None => Some None
  | Some (JStr "authorization") => Some (Some authorization)
  | Some (JStr "x-api-key") => Some (Some x_api_key)
  | Some _ => None
  end.

(** What the reply to the exchange says. *)
Definition read_reply (status : Z) (raw : bytes) : result thrown Upstream :=
  match parse raw with
  | None => Throw (unavail "control plane returned a non-JSON body")
  | Some body =>
      if negb (status =? 200) then
        match passthrough (default "" (as_string (field "error" body))) with
        | Some code => Throw (Cp (cpError code (as_string (field "message" body)) None))
        | None => Throw (unavail ("control plane returned " +:+ string_of (dec_signed status)))
        end
      else
        match mode_of (field "mode" body) with
        | None => Throw (unavail "control plane returned an unknown credential mode")
        | Some m =>
            match truthy_str (as_string (field "anthropicAuthToken" body)) with
            | None => Throw (unavail "control plane returned no credential")
            | Some v =>
                match truthy_str (as_string (field "anthropicBaseUrl" body)) with
                | None => Throw (fail endpoint_unresolved "control plane returned no gateway endpoint")
                | Some u =>
                    match header_of (field "authHeader" body) with
                    | None => Throw (unavail "control plane returned an unknown credential header")
                    | Some h => Ok (mkUpstream m v (match h with Some x_api_key => Some x_api_key | _ => None end) u)
                    end
                end
            end
        end
  end.

Section Turn.
Context `{Ed25519}.

Record TurnAuthDeps := mkTurnDeps {
  keys : list (string * PublicKey);
  requireAuth : bool;
  controlPlaneUrl : option string;
  td_exchangeToken : option string;
}.

(** [turnAuthDepsFromEnv], given the exchange token [credentialValue] resolved. *)
Definition turnAuthDepsFromEnv (env : gmap string string) (exchangeToken : option string) : result thrown TurnAuthDeps :=
  match parseKeyset (bytes_of <$> env !! "SH_SESSION_TOKEN_PUBLIC_KEYS") with
  | Throw _ => Throw (unavail "the token keyset is not usable")
  | Ok ks => Ok (mkTurnDeps ks (bool_decide (env !! "SH_REQUIRE_AUTH" = Some "true"))
                   (truthy_str (env !! "SH_CONTROL_PLANE_URL")) exchangeToken)
  end.

Context (deps : TurnAuthDeps).

Definition exchange_body (token : string) : json := JObj [("token", JStr token)].

Definition exchange_authorization : option string :=
  match truthy_str (td_exchangeToken deps) with Some t => Some ("Bearer " +:+ t) | None => None end.

Definition exchange (token : string) : tprog Upstream :=
  match truthy_str (controlPlaneUrl deps) with
  | None => Err (unavail "no control plane configured")
  | Some base =>
      Call (PostExchange (base +:+ "/internal/credentials") exchange_authorization (exchange_body token)) (fun r =>
        match r with
        | NoReply => Err (unavail "control plane unreachable")
        | NoBody _ => Err Other
        | Reply status text => of_result (read_reply status text)
        end)
  end.

(** [verifyToken(presented, deps.keys, { now, requiredScope: 'turn:write' })] *)
Definition turn_claims (presented : string) : tprog TokenClaims :=
  Call TurnNow (fun now =>
    match verifyToken (bytes_of presented) (keys deps) (now / 1000) (Some "turn:write") with
    | Ok payload => Ret (claims_of payload)
    | Throw e => Err e
    end).

(** [bodySession] is whatever the body has for [sessionId]. *)
Definition resolveTurnAuth (hs : headers) (bodySession : option json) : tprog (option TurnAuth) :=
  match bearer hs with
  | None => if requireAuth deps then Err (fail token_required "this deployment requires a token") else Ret None
  | Some presented =>
      await claims <- turn_claims presented;
      match truthy_str (sid claims) with
      | None => Err (fail token_invalid "token names no session")
      | Some s =>
          if match bodySession with Some (JStr b) => negb (bool_decide (b = s)) | Some _ => true | None => false end
          then Err (Cp (cpError session_mismatch (Some "token does not name this session") (as_string bodySession)))
          else if match header hs "x-sh-subject" with Some a => negb (bool_decide (a = sub claims)) | None => false end
          then Err (fail subject_conflict "X-SH-Subject conflicts with the token subject")
          else
            await up <- exchange presented;
            Ret (Some (mkTurnAuth (sub claims) s up))
      end
  end.

Definition authorizeRunRead (hs : headers) (sessionId : string) : tprog bool :=
  match bearer hs with
  | None => if requireAuth deps then Err (fail token_required "this deployment requires a token") else Ret false
  | Some presented =>
      await claims <- turn_claims presented;
      if bool_decide (sid claims = Some sessionId) then Ret true
      else Err (Cp (cpError session_mismatch (Some "token does not name this session") (Some sessionId)))
  end.

Definition authenticateSubject (hs : headers) : tprog (option string) :=
  match bearer hs with
  | None => if requireAuth deps then Err (fail token_required "this deployment requires a token") else Ret None
  | Some presented => await claims <- turn_claims presented; Ret (Some (sub claims))
  end.
End Turn.

(** ** Runtime reports *)

Inductive turn_phase := turn_start | turn_end.

(** At time [now]; the fields in the order they are set. *)
Definition runtimeFieldsForTurn (env : gmap string string) (p : turn_phase) (now : Z) : list (string * string) :=
  let t := string_of (dec_signed now) in
  let opt n k := match truthy_str (env !! n) with Some v => [(k, v)] | None => [] end in
  opt "HOSTNAME" "harnessPod" ++ opt "K_REVISION" "revision"
  ++ match truthy_str (env !! "KAGENTI_SANDBOX_POD") with
     | Some v => [("sandboxPod", v)]
     | None => opt "KAGENTI_SANDBOX_POOL_SELECTOR" "sandboxSelector"
     end
  ++ match p with
     | turn_start => [("turnStartedAt", t)]
     | turn_end => [("turnEndedAt", t); ("lastTurnAt", t)]
     end.

(** ** Whose turn runs *)

Section Theorems.
Context `{Ed25519} `{URLs}.

Lemma runs_turn_claims (deps : TurnAuthDeps) presented {A} (f : TokenClaims → tprog A) tr o :
  runs (pbind (turn_claims deps presented) f) tr o →
  ∃ now tr', tr = ev TurnNow now :: tr'
    ∧ match verifyToken (bytes_of presented) (keys deps) (now / 1000) (Some "turn:write") with
      | Ok payload => runs (f (claims_of payload)) tr' o
      | Throw e => tr' = [] ∧ o = Throw e
      end.
Proof.
  intros (now & tr' & -> & Hr)%runs_inv. exists now, tr'. split; [done|]. cbn in Hr.
  destruct (verifyToken _ _ _ _); [done|]. by apply runs_inv in Hr.
Qed.

Lemma runs_exchange (deps : TurnAuthDeps) token {A} (f : Upstream → tprog A) tr x :
  runs (pbind (exchange deps token) f) tr (Ok x) →
  ∃ base status text up tr',
    truthy_str (controlPlaneUrl deps) = Some base
    ∧ tr = ev (PostExchange (base +:+ "/internal/credentials") (exchange_authorization deps) (exchange_body token))
             (Reply status text) :: tr'
    ∧ read_reply status text = Ok up ∧ runs (f up) tr' (Ok x).
Proof.
  unfold exchange. destruct (truthy_str (controlPlaneUrl deps)) as [base|]; [|by intros [_ ?]%runs_inv].
  intros (r & tr' & -> & Hr)%runs_inv. destruct r as [|st|status text]; [by apply runs_inv in Hr as [_ ?]..|].
  cbn in Hr. destruct (read_reply status text) as [up|] eqn:E; [|by apply runs_inv in Hr as [_ ?]].
  by exists base, status, text, up, tr'.
Qed.

Lemma resolve_sound (deps : TurnAuthDeps) hs bodySession tr a :
  runs (resolveTurnAuth deps hs bodySession) tr (Ok a) →
  match a with
  | None => bearer hs = None ∧ requireAuth deps = false ∧ tr = []
  | Some a =>
      ∃ tok now payload base status text,
        bearer hs = Some tok
        ∧ verifyToken (bytes_of tok) (keys deps) (now / 1000) (Some "turn:write") = Ok payload
        ∧ ta_subject a = sub (claims_of payload) ∧ sid (claims_of payload) = Some (ta_sessionId a)
        ∧ (bodySession = None ∨ bodySession = Some (JStr (ta_sessionId a)))
        ∧ (header hs "x-sh-subject" = None ∨ header hs "x-sh-subject" = Some (ta_subject a))
        ∧ tr = [ev TurnNow now;
                ev (PostExchange (base +:+ "/internal/credentials") (exchange_authorization deps) (exchange_body tok))
                  (Reply status text)]
        ∧ read_reply status text = Ok (ta_credential a) ∧ controlPlaneUrl deps = Some base
  end.
Proof.
  unfold resolveTurnAuth. destruct (bearer hs) as [tok|] eqn:Eb.
  - intros (now & tr' & -> & Hr)%runs_turn_claims.
    destruct (verifyToken _ _ _ _) as [payload|] eqn:Ev; [|by destruct Hr].
    destruct (truthy_str (sid _)) as [s|] eqn:Es; [|by apply runs_inv in Hr as [_ ?]].
    apply truthy_str_Some in Es as [Es _].
    destruct (match bodySession with Some _ => _ | None => _ end) eqn:Em1; [by apply runs_inv in Hr as [_ ?]|].
    destruct (match header hs _ with Some _ => _ | None => _ end) eqn:Em2; [by apply runs_inv in Hr as [_ ?]|].
    apply runs_exchange in Hr as (base & status & text & up & t2 & Hb & -> & Hrep & [-> [= ->]]%runs_inv).
    exists tok, now, payload, base, status, text. split_and!; try done.
    3:{ by apply truthy_str_Some in Hb as [? _]. }
    + destruct bodySession as [[]|]; try done; [right|by left]. apply negb_false_iff in Em1. by to_prop; subst.
    + destruct (header hs _); [right|by left]. apply negb_false_iff in Em2. by to_prop; subst.
  - destruct (requireAuth deps); [by intros [_ ?]%runs_inv|]. by intros [-> [= ->]]%runs_inv.
Qed.

Definition mode_name (m : CredentialMode) : string := match m with direct => "direct" | placeholder => "placeholder" end.

(** A credential is read only from a reply of 200, field by field. *)
Lemma read_reply_fields status raw up :
  read_reply status raw = Ok up →
  ∃ body, status = 200 ∧ parse raw = Some body
    ∧ field "anthropicAuthToken" body = Some (JStr (up_value up)) ∧ up_value up ≠ ""
    ∧ field "anthropicBaseUrl" body = Some (JStr (up_baseUrl up)) ∧ up_baseUrl up ≠ ""
    ∧ field "mode" body = Some (JStr (mode_name (up_mode up)))
    ∧ field "authHeader" body ∈ match up_header up with
                                | Some x_api_key => [Some (JStr "x-api-key")]
                                | _ => [None; Some (JStr "authorization")]
                                end.
Proof.
  unfold read_reply. destruct (parse raw) as [body|]; [|done].
  destruct (Z.eqb_spec status 200) as [->|]; cbn [negb]; [|by destruct (passthrough _)].
  destruct (mode_of _) as [m|] eqn:Em; [|done].
  destruct (truthy_str (as_string (field "anthropicAuthToken" body))) as [v|] eqn:Ev; [|done].
  destruct (truthy_str (as_string (field "anthropicBaseUrl" body))) as [u|] eqn:Eu; [|done].
  destruct (header_of _) as [h|] eqn:Eh; [|done]. intros [= <-]. exists body. cbn.
  apply truthy_str_Some in Ev as [Ev ?], Eu as [Eu ?]. split_and!; try done.
  - by destruct (field "anthropicAuthToken" body) as [[]|]; simplify_eq/=.
  - by destruct (field "anthropicBaseUrl" body) as [[]|]; simplify_eq/=.
  - unfold mode_of in Em. repeat case_match; simplify_eq/=; done.
  - unfold header_of in Eh. repeat case_match; simplify_eq/=; set_solver.
Qed.

(** A turn runs authenticated only for a bearer token signed for turns, naming the body's
    session if it has one, with no conflicting subject header: as that token's subject, in that
    token's session, with the credential the control plane answered to that very token.  It
    runs unauthenticated only without a bearer and where none is required, asking nobody: no
    bad token and no failure of the exchange turns into ambient credentials. *)
Theorem turn_auth_sound (deps : TurnAuthDeps) hs bodySession tr a :
  runs (resolveTurnAuth deps hs bodySession) tr (Ok a) →
  match a with
  | None => bearer hs = None ∧ requireAuth deps = false ∧ tr = []
  | Some a =>
      ∃ tok now payload base status text,
        bearer hs = Some tok
        ∧ verifyToken (bytes_of tok) (keys deps) (now / 1000) (Some "turn:write") = Ok payload
        ∧ ta_subject a = sub (claims_of payload) ∧ sid (claims_of payload) = Some (ta_sessionId a)
        ∧ (bodySession = None ∨ bodySession = Some (JStr (ta_sessionId a)))
        ∧ (header hs "x-sh-subject" = None ∨ header hs "x-sh-subject" = Some (ta_subject a))
        ∧ tr = [ev TurnNow now;
                ev (PostExchange (base +:+ "/internal/credentials") (exchange_authorization deps) (exchange_body tok))
                  (Reply status text)]
        ∧ read_reply status text = Ok (ta_credential a) ∧ controlPlaneUrl deps = Some base
  end.
Proof. apply resolve_sound. Qed.

(** ** Both ends of the exchange *)

(** The request of the data plane, as the control plane's server sees it. *)
Definition exchange_request (deps : TurnAuthDeps) (token : string) : Request :=
  mkRequest "POST" (bytes_of "/internal/credentials") (exchange_authorization deps)
    (Ok [stringify (exchange_body token)]).

Lemma error_status e : (error_response e).1 ≠ 200.
Proof. destruct e as [e|]; [|done]. unfold error_response, writeError. by destruct (code e). Qed.

Lemma exchange_json_serialisable r : serialisable (exchange_json r) = true.
Proof. unfold exchange_json. by destruct (authHeader r). Qed.

(** The header as the data plane keeps it: absent for the default. *)
Definition sent_header (h : option InferenceAuthHeader) : option InferenceAuthHeader :=
  match h with Some x_api_key => Some x_api_key | _ => None end.

Lemma read_granted r up :
  read_reply 200 (stringify (exchange_json r)) = Ok up →
  up = mkUpstream (mode r) (anthropicAuthToken r) (sent_header (authHeader r)) (anthropicBaseUrl r).
Proof.
  unfold read_reply. rewrite parse_stringify by apply exchange_json_serialisable. cbn [negb Z.eqb].
  set (body := exchange_json r).
  change (field "anthropicAuthToken" body) with (Some (JStr (anthropicAuthToken r))).
  change (field "anthropicBaseUrl" body) with (Some (JStr (anthropicBaseUrl r))). cbn [as_string].
  assert (mode_of (field "mode" body) = Some (mode r)) as -> by (unfold body, exchange_json; by destruct (mode r)).
  assert (header_of (field "authHeader" body) = Some (authHeader r)) as ->
    by (unfold body, exchange_json; by destruct (authHeader r) as [[]|]).
  destruct (truthy_str (Some (anthropicAuthToken r))) as [t|] eqn:Et; [|done]. apply truthy_str_Some in Et as [[= <-] _].
  destruct (truthy_str (Some (anthropicBaseUrl r))) as [u|] eqn:Eu; [|done]. apply truthy_str_Some in Eu as [[= <-] _].
  by intros [= <-].
Qed.

Lemma read_reply_throws status raw e :
  read_reply status raw = Throw e →
  ∃ c msg, e = Cp (cpError c msg None) ∧ (c ∈ PASSTHROUGH ∨ c = credential_unavailable).
Proof.
  unfold read_reply. destruct (parse raw) as [body|]; [|intros [= <-]; by eexists _, _; split; [done|right]].
  destruct (status =? 200); cbn [negb].
  - destruct (mode_of _); [|intros [= <-]; by eexists _, _; split; [done|right]].
    destruct (truthy_str _); [|intros [= <-]; by eexists _, _; split; [done|right]].
    destruct (truthy_str _); [|intros [= <-]; eexists _, _; split; [done|left; unfold PASSTHROUGH; set_solver]].
    destruct (header_of _); [done|intros [= <-]; by eexists _, _; split; [done|right]].
  - unfold passthrough. destruct (List.find _ PASSTHROUGH) as [c|] eqn:E; intros [= <-]; eexists _, _; split; try done.
    + left. by apply list_elem_of_In, (List.find_some _ _ E).
    + by right.
Qed.

Lemma read_reply_ok status raw up : read_reply status raw = Ok up → status = 200.
Proof.
  unfold read_reply. destruct (parse raw); [|done]. destruct (Z.eqb_spec status 200); [done|]. cbn [negb].
  by destruct (passthrough _).
Qed.

(** The control plane's side of the request: a success is the exchange's. *)
Lemma runs_exchange_request (deps : TurnAuthDeps) (d : CpDeps) sha256 kinds token tr body :
  runs (handle sha256 kinds d (exchange_request deps token)) tr (Ok (200, Some body)) →
  Handlers.bearer (exchange_request deps token) = exchangeToken (config d)
  ∧ ∃ grant, runs (exchangeCredential d (bytes_of token)) tr (Ok grant) ∧ body = exchange_json grant.
Proof.
  unfold handle. intros [(x & Hr & [= <-])|(e & t1 & t2 & _ & _ & Hh)]%runs_catch.
  2:{ exfalso. apply (error_status e). destruct e as [e|].
      - apply runs_inv in Hh as [_ Hh].
        apply (f_equal (fun o : result thrown response => match o with Ok x => x.1 | Throw _ => 0 end)) in Hh. by symmetry.
      - by apply runs_inv in Hh as ([] & t3 & _ & [_ ?]%runs_inv). }
  unfold route_request in Hr.
  assert (Hm : matchRoute (req_method (exchange_request deps token)) (req_url (exchange_request deps token))
    = Ok (Some (mkRoute POST "/internal/credentials" CpRoutes.exchange false None true "exchangeCredential", [])))
    by by vm_compute.
  rewrite Hm in Hr. cbn [of_result pbind] in Hr. unfold authorize in Hr. cbn [auth] in Hr.
  unfold checkExchangeAuth in Hr.
  destruct (truthy_str (exchangeToken (config d))) as [c|] eqn:Ec; [|by apply runs_inv in Hr as [_ ?]].
  destruct (truthy_str (Handlers.bearer _)) as [t|] eqn:Et; [|by apply runs_inv in Hr as [_ ?]].
  case_bool_decide as Eb; [|by apply runs_inv in Hr as [_ ?]].
  apply truthy_str_Some in Ec as [-> _], Et as [-> _].
  assert (t = c) as -> by (rewrite <-(string_of_bytes t), Eb; apply string_of_bytes). split; [done|].
  cbn [of_result pbind] in Hr.
  assert (Hb : parse_body (mkRoute POST "/internal/credentials" CpRoutes.exchange false None true "exchangeCredential")
      (exchange_request deps token) = Ok (Some (exchange_body token))
    ∨ ∃ e, parse_body (mkRoute POST "/internal/credentials" CpRoutes.exchange false None true "exchangeCredential")
      (exchange_request deps token) = Throw e).
  { unfold parse_body. cbn [req_method exchange_request]. rewrite bool_decide_eq_true_2 by done. cbn [orb].
    unfold readBody. cbn [req_chunks exchange_request read_chunks].
    destruct (_ <? _)%nat; [by right; eexists|]. left. cbn [result_bind app].
    pose proof (parse_stringify (exchange_body token) eq_refl) as Hp.
    destruct (stringify (exchange_body token)) eqn:Es; [by apply stringify_nonempty in Es|]. by rewrite Hp. }
  destruct Hb as [Hb|[e Hb]]; rewrite Hb in Hr; [|by apply runs_inv in Hr as [_ ?]].
  cbn [of_result pbind] in Hr.
  change (runs (exchangeCredential_handler d (mkCtx [] (searchParams (bytes_of "/internal/credentials"))
    (Some (exchange_body token)) None true)) tr (Ok (200, Some body))) in Hr.
  unfold exchangeCredential_handler in Hr. cbn [exchangeAuthorized negb Handlers.body] in Hr.
  change (as_string (map_get "token" (asRecord (Some (exchange_body token))))) with (Some token) in Hr.
  destruct token as [|ch token]; [by apply runs_inv in Hr as [_ ?]|].
  apply runs_bind in Hr as [(e & _ & ?)|(grant & t1 & t2 & -> & Hr & [-> [= ->]]%runs_inv)]; [done|].
  exists grant. by rewrite app_nil_r.
Qed.

(** C21. What the data plane reads from the control plane's answer is what the control plane
    granted: when its reading of the answer to its own request succeeds, an exchange of that
    very token ran, and mode, value, header and endpoint are its grant's, unaltered by the wire.
    Otherwise it fails with a code that blames the caller, or with [credential_unavailable]. *)
Theorem exchange_wire_agreement (deps : TurnAuthDeps) (d : CpDeps) sha256 kinds token tr status body :
  runs (handle sha256 kinds d (exchange_request deps token)) tr (Ok (status, Some body)) →
  match read_reply status (stringify body) with
  | Ok up =>
      Handlers.bearer (exchange_request deps token) = exchangeToken (config d)
      ∧ ∃ grant, runs (exchangeCredential d (bytes_of token)) tr (Ok grant)
        ∧ up = mkUpstream (mode grant) (anthropicAuthToken grant) (sent_header (authHeader grant)) (anthropicBaseUrl grant)
  | Throw e => ∃ c msg, e = Cp (cpError c msg None) ∧ (c ∈ PASSTHROUGH ∨ c = credential_unavailable)
  end.
Proof.
  intros Hr. destruct (read_reply status (stringify body)) as [up|e] eqn:E; [|by eapply read_reply_throws].
  pose proof (read_reply_ok _ _ _ E) as ->. apply runs_exchange_request in Hr as (Hb & grant & Hg & ->).
  split; [done|]. exists grant. split; [done|]. by apply read_granted.
Qed.
End Theorems.

(** Every code passed through is the caller's to act on: its status is in the 400s. *)
Lemma passthrough_blames_caller c : c ∈ PASSTHROUGH → 400 ≤ statusFor c < 500.
Proof.
  unfold PASSTHROUGH. intros Hc. repeat (apply elem_of_cons in Hc as [->|Hc]); [done..|by apply elem_of_nil in Hc].
Qed.

(** ** Witnesses *)

Definition toy_turn_deps : @TurnAuthDeps toy_ed25519 :=
  mkTurnDeps (H := toy_ed25519) (verifyKeys toy_deps) true (Some "http://cp") (Some "shared").

Definition toy_headers : headers := {["authorization" := OneValue ("Bearer " +:+ string_of toy_token)]}.

Definition toy_exchange_reply (c : tcall) (s : unit) : tanswer c * unit :=
  match c return tanswer c * unit with
  | TurnNow => (1000000, s)
  | PostExchange _ _ _ => (Reply 200 (stringify (exchange_json toy_grant)), s)
  end.

Definition toy_turn_auth : TurnAuth :=
  mkTurnAuth "github:1" "s1" (mkUpstream direct "sk-ant-api-1" (Some x_api_key) "https://api.anthropic.com").

Lemma turn_auth_sound_witness :
  ∃ tr, runs (resolveTurnAuth toy_turn_deps toy_headers (Some (JStr "s1"))) tr (Ok (Some toy_turn_auth))
  ∧ ∃ tok, bearer toy_headers = Some tok.
Proof.
  pose proof (ptrace_runs toy_exchange_reply (resolveTurnAuth toy_turn_deps toy_headers (Some (JStr "s1"))) tt) as Hr.
  assert (E : (ptrace toy_exchange_reply (resolveTurnAuth toy_turn_deps toy_headers (Some (JStr "s1"))) tt).2
              = Ok (Some toy_turn_auth)) by by vm_compute.
  rewrite E in Hr. eexists. split; [exact Hr|].
  destruct (turn_auth_sound toy_turn_deps toy_headers (Some (JStr "s1")) _ _ Hr) as (tok & _ & _ & _ & _ & _ & Hb & _).
  by exists tok.
Defined.

Lemma exchange_wire_agreement_witness :
  let u := toy_urls in
  ∃ tr, runs (handle (fun s => s) KINDS toy_deps (exchange_request toy_turn_deps (string_of toy_token))) tr
          (Ok (200, Some (exchange_json toy_grant)))
  ∧ ∃ grant, runs (exchangeCredential toy_deps (bytes_of (string_of toy_token))) tr (Ok grant)
      ∧ anthropicAuthToken grant = "sk-ant-api-1".
Proof.
  intros u.
  pose proof (ptrace_runs toy_answer (handle (fun s => s) KINDS toy_deps
    (exchange_request toy_turn_deps (string_of toy_token))) toy_keys) as Hr.
  assert (E : (ptrace toy_answer (handle (fun s => s) KINDS toy_deps
    (exchange_request toy_turn_deps (string_of toy_token))) toy_keys).2 = Ok (200, Some (exchange_json toy_grant)))
    by by vm_compute.
  rewrite E in Hr. eexists. split; [exact Hr|].
  pose proof (exchange_wire_agreement toy_turn_deps toy_deps (fun s => s) KINDS (string_of toy_token) _ 200
    (exchange_json toy_grant) Hr) as Hw.
  assert (Hup : read_reply 200 (stringify (exchange_json toy_grant)) = Ok (ta_credential toy_turn_auth)) by by vm_compute.
  rewrite Hup in Hw. destruct Hw as (_ & grant & Hg & Heq). exists grant. split; [exact Hg|]. by injection Heq as _ <-.
Defined.

(** A reply whose body cannot be read rejects with the transport's own error, not a typed one. *)
Lemma unread_body_untyped :
  ∃ tr, runs (resolveTurnAuth toy_turn_deps toy_headers None) tr (Throw Other).
Proof.
  pose (broken := fun (c : tcall) (s : unit) =>
    match c return tanswer c * unit with TurnNow => (1000000, s) | PostExchange _ _ _ => (NoBody 200, s) end).
  pose proof (ptrace_runs broken (resolveTurnAuth toy_turn_deps toy_headers None) tt) as Hr.
  assert (E : (ptrace broken (resolveTurnAuth toy_turn_deps toy_headers None) tt).2 = Throw Other) by by vm_compute.
  rewrite E in Hr. by eexists.
Qed.
