(* ===== verification/Tenancy.v ===== *)
(** * The tenancy switch

    Models [packages/knative-server/src/tenancy.ts]: the deployment's tenancy mode, and which
    misspelt variables refuse to boot.  Names of variables are ASCII, so upper-casing is that of
    its letters. *)

From S2P Require Import Prelude JsNumber.

Inductive Tenancy := single | multi.

Definition CORE : bytes := bytes_of "TENANCY".
Definition LEADING : list bytes := bytes_of <$> ["MOCA"; "KAGENTI"; "SH"; "MULTI"].
Definition TENAN : bytes := bytes_of "TENAN".

Definition upper (c : ascii) : bool := let n := nat_of_ascii c in ((65 <=? n) && (n <=? 90))%nat.

Definition upper_char (c : ascii) : ascii :=
  let n := nat_of_ascii c in if ((97 <=? n) && (n <=? 122))%nat then ascii_of_nat (n - 32) else c.

(** [/_(SERVICE_HOST|SERVICE_PORT(_[A-Z0-9_]+)?|PORT|PORT_\d+_(TCP|UDP|SCTP)(_[A-Z]+)?)$/], at the
    front of the string. *)
Definition after (lit : string) (s : bytes) : option bytes :=
  if starts_with (bytes_of lit) s then Some (drop (String.length lit) s) else None.

Definition nonempty_all (f : ascii → bool) (s : bytes) : bool :=
  match s with [] => false | _ => forallb f s end.

Definition port_tail (s : bytes) : bool :=
  let '(ds, r) := span_digits s in
  match ds with
  | [] => false
  | _ => existsb (fun proto => match after proto r with
                               | Some [] => true
                               | Some (c :: t) => bool_decide (c = "_"%char) && nonempty_all upper t
                               | None => false
                               end) ["_TCP"; "_UDP"; "_SCTP"]
  end.

Definition link_here (s : bytes) : bool :=
  bool_decide (s = bytes_of "_SERVICE_HOST") || bool_decide (s = bytes_of "_SERVICE_PORT")
  || match after "_SERVICE_PORT_" s with
     | Some r => nonempty_all (fun c => upper c || is_digit c || bool_decide (c = "_"%char)) r
     | None => false
     end
  || bool_decide (s = bytes_of "_PORT")
  || match after "_PORT_" s with Some r => port_tail r | None => false end.

Fixpoint service_link (s : bytes) : bool :=
  link_here s || match s with [] => false | _ :: s' => service_link s' end.

(** The loop of [editDistanceAtMostOne] from where it stands: what is left of both names, and
    the edits so far.  The lengths compared are those of the whole names. *)
Fixpoint edit_loop (fuel : nat) (la lb : nat) (a b : bytes) (edits : nat) : bool :=
  match fuel with
  | O => false
  | S fuel =>
      match a, b with
      | x :: a', y :: b' =>
          if bool_decide (x = y) then edit_loop fuel la lb a' b' edits
          else if (1 <? S edits)%nat then false
          else if (lb <? la)%nat then edit_loop fuel la lb a' b (S edits)
          else if (la <? lb)%nat then edit_loop fuel la lb a b' (S edits)
          else edit_loop fuel la lb a' b' (S edits)
      | _, _ => (edits + length a + length b <=? 1)%nat
      end
  end.

Definition editDistanceAtMostOne (a b : bytes) : bool :=
  let la := length a in
  let lb := length b in
  if (1 <? (la - lb) + (lb - la))%nat then false
  else edit_loop (S (la + lb)) la lb a b 0.

(** One pass over the leading words. *)
Definition strip_pass (s : bytes) : bytes :=
  fold_left (fun out p => if starts_with p out && (length p <? length out)%nat then drop (length p) out else out)
    LEADING s.

Fixpoint core_fuel (fuel : nat) (s : bytes) : bytes :=
  match fuel with
  | O => s
  | S fuel => let s' := strip_pass s in if (length s' <? length s)%nat then core_fuel fuel s' else s
  end.

Definition core (segment : bytes) : bytes := core_fuel (length segment) segment.

Definition tenancyLike (c : bytes) : bool := starts_with CORE c || editDistanceAtMostOne c CORE.

(** [split(/[^A-Z0-9]+/).filter(Boolean)] *)
Fixpoint segments_of (s : bytes) (cur : bytes) : list bytes :=
  match s with
  | [] => match cur with [] => [] | _ => [cur] end
  | c :: s' =>
      if upper c || is_digit c then segments_of s' (cur ++ [c])
      else match cur with [] => segments_of s' [] | _ => cur :: segments_of s' [] end
  end.

Fixpoint near_miss_in (segments : list bytes) (led : bool) : bool :=
  match segments with
  | [] => false
  | segment :: rest =>
      let c := core segment in
      let led := led || negb (bool_decide (c = segment)) in
      if tenancyLike c || (led && starts_with TENAN c) then true
      else if bool_decide (segment ∈ LEADING) then near_miss_in rest true else false
  end.

Definition isTenancyNearMiss (name : string) : bool :=
  if bool_decide (name = "MOCA_TENANCY") then false
  else
    let up := upper_char <$> bytes_of name in
    if service_link (trim up) then false
    else near_miss_in (segments_of up []) false.

Definition readTenancy (env : list (string * string)) : result string Tenancy :=
  match List.find isTenancyNearMiss env.*1 with
  | Some misnamed =>
      Throw ("unrecognised variable '" +:+ misnamed +:+ "': the tenancy switch is MOCA_TENANCY (unset '"
             +:+ misnamed +:+ "' to boot)")
  | None =>
      match map_get "MOCA_TENANCY" env with
      | None => Ok single
      | Some raw =>
          if bool_decide (raw = "single") then Ok single
          else if bool_decide (raw = "multi") then Ok multi
          else Throw ("MOCA_TENANCY must be 'single' or 'multi', got '" +:+ raw +:+ "'")
      end
  end.

(** The names the documentation of [isTenancyNearMiss] gives. *)
Example documented_refusals :
  forallb isTenancyNearMiss
    ["SH_TENANCY"; "MULTI_TENANCY"; "SH_MOCA_TENANCY"; "MOCA_MULTITENANCY"; "MOCA_TENENCY"; "MOCA__TENANCY";
     "MOCA_TENANCY_MODE"; "MOCA_TENANCIES"; "MOCA_TENANT"; "MOCA_MULTI_TENANT"; "MOCA_MULTITENANT"; "SH_MULTI_TENANT";
     "MOCA_TENANCY_OLD"] = true.
Proof. by vm_compute. Qed.

Example documented_exemptions :
  forallb (fun n => negb (isTenancyNearMiss n))
    ["MOCA_TENANCY"; "OCI_CLI_TENANCY"; "MAINTENANCE_MODE"; "TENANT"; "TENANCY_SERVICE_HOST"; "MOCA_TENANCY_PORT_80_TCP_ADDR"]
  = true.
Proof. by vm_compute. Qed.

(** ** Edit distance *)

(** One name is the other, but for at most one character put in, left out or replaced. *)
Inductive within_one_edit : bytes → bytes → Prop :=
| no_edit a : within_one_edit a a
| left_out p x s : within_one_edit (p ++ x :: s) (p ++ s)
| put_in p x s : within_one_edit (p ++ s) (p ++ x :: s)
| replaced p x y s : within_one_edit (p ++ x :: s) (p ++ y :: s).

Lemma loop_done fuel la lb a b :
  length a = length b → (length a < fuel)%nat → edit_loop fuel la lb a b 1 = true ↔ a = b.
Proof.
  revert a b. induction fuel as [|fuel IH]; intros a b Hl Hf; [lia|].
  destruct a as [|x a], b as [|y b]; try done. cbn [edit_loop]. case_bool_decide as E.
  - subst. rewrite IH; simpl in *; [|lia..]. split; [by intros ->|by intros [=]].
  - simpl. split; [done|]. by intros [= ? _].
Qed.

Lemma loop_replaced fuel n a b :
  length a = length b → (length a < fuel)%nat →
  edit_loop fuel n n a b 0 = true ↔ a = b ∨ ∃ p x y s, a = p ++ x :: s ∧ b = p ++ y :: s.
Proof.
  revert a b. induction fuel as [|fuel IH]; intros a b Hl Hf; [lia|].
  destruct a as [|x a], b as [|y b]; try done.
  { split; [by left|]. done. }
  cbn [edit_loop]. case_bool_decide as E; simpl in Hl, Hf.
  - subst. rewrite IH by lia. split.
    + intros [->|(p & u & v & s & -> & ->)]; [by left|right]. by exists (y :: p), u, v, s.
    + intros [[= ->]|([|z p] & u & v & s & Ha & Hb)]; [by left| |].
      * left. simpl in Ha, Hb. congruence.
      * right. injection Ha as -> ->. injection Hb as ->. by exists p, u, v, s.
  - rewrite !Nat.ltb_irrefl, loop_done by lia. split.
    + intros ->. right. by exists [], x, y, b.
    + intros [[= ? _]|([|z p] & u & v & s & Ha & Hb)]; [done| |]; simpl in Ha, Hb; congruence.
Qed.

Lemma loop_left_out fuel la lb a b :
  (lb < la)%nat → length a = S (length b) → (length a < fuel)%nat →
  edit_loop fuel la lb a b 0 = true ↔ ∃ p x s, a = p ++ x :: s ∧ b = p ++ s.
Proof.
  intros Hlt. revert a b. induction fuel as [|fuel IH]; intros a b Hl Hf; [lia|].
  destruct a as [|x a]; [done|]. destruct b as [|y b].
  { destruct a; [|done]. split; [|done]. intros _. by exists [], x, []. }
  cbn [edit_loop]. simpl in Hl, Hf. case_bool_decide as E.
  - subst. rewrite IH by lia. split.
    + intros (p & u & s & -> & ->). by exists (y :: p), u, s.
    + intros ([|z p] & u & s & Ha & Hb); simpl in Ha, Hb.
      * injection Ha as <- <-. subst a. by exists [], y, b.
      * injection Ha as -> ->. injection Hb as ->. by exists p, u, s.
  - change (1 <? 1)%nat with false. rewrite (proj2 (Nat.ltb_lt lb la)) by done.
    rewrite loop_done by (simpl; lia). split.
    + intros ->. by exists [], x, (y :: b).
    + intros ([|z p] & u & s & Ha & Hb); simpl in Ha, Hb; [congruence|].
      injection Ha as -> _. by injection Hb as -> _.
Qed.

Lemma loop_put_in fuel la lb a b :
  (la < lb)%nat → S (length a) = length b → (length b < fuel)%nat →
  edit_loop fuel la lb a b 0 = true ↔ ∃ p x s, a = p ++ s ∧ b = p ++ x :: s.
Proof.
  intros Hlt. revert a b. induction fuel as [|fuel IH]; intros a b Hl Hf; [lia|].
  destruct b as [|y b]; [done|]. destruct a as [|x a].
  { destruct b; [|done]. split; [|done]. intros _. by exists [], y, []. }
  cbn [edit_loop]. simpl in Hl, Hf. case_bool_decide as E.
  - subst. rewrite IH by lia. split.
    + intros (p & u & s & -> & ->). by exists (y :: p), u, s.
    + intros ([|z p] & u & s & Ha & Hb); simpl in Ha, Hb.
      * injection Hb as <- <-. subst b. by exists [], y, a.
      * injection Ha as -> ->. injection Hb as ->. by exists p, u, s.
  - change (1 <? 1)%nat with false. rewrite (proj2 (Nat.ltb_ge lb la)), (proj2 (Nat.ltb_lt la lb)) by lia.
    rewrite loop_done by (simpl; lia). split.
    + intros <-. by exists [], y, (x :: a).
    + intros ([|z p] & u & s & Ha & Hb); simpl in Ha, Hb; [congruence|].
      injection Ha as -> _. by injection Hb as -> _.
Qed.

(** The comparison of a misspelt name with the switch's is exact: it holds precisely when
    the names differ by at most one character put in, left out or replaced. *)
Theorem edit_distance_exact a b : editDistanceAtMostOne a b = true ↔ within_one_edit a b.
Proof.
  assert (Hlen : within_one_edit a b → (length a - length b + (length b - length a) ≤ 1)%nat).
  { destruct 1; rewrite ?length_app; simpl; lia. }
  unfold editDistanceAtMostOne. destruct (Nat.ltb_spec 1 (length a - length b + (length b - length a))).
  { split; [done|]. intros Hw. specialize (Hlen Hw). lia. }
  destruct (lt_eq_lt_dec (length a) (length b)) as [[Hc|Hc]|Hc].
  - rewrite loop_put_in by lia. split; [intros (p & x & s & -> & ->); constructor|].
    destruct 1 as [|p x s|p x s|p x y s]; rewrite ?length_app in Hc; simpl in Hc; try lia. by exists p, x, s.
  - rewrite <-Hc, loop_replaced by lia. split; [intros [->|(p & x & y & s & -> & ->)]; constructor|].
    destruct 1 as [|p x s|p x s|p x y s]; rewrite ?length_app in Hc; simpl in Hc; try lia; [by left|].
    right. by exists p, x, y, s.
  - rewrite loop_left_out by lia. split; [intros (p & x & s & -> & ->); constructor|].
    destruct 1 as [|p x s|p x s|p x y s]; rewrite ?length_app in Hc; simpl in Hc; try lia. by exists p, x, s.
Qed.

(** A deployment that boots has no misspelt switch, and is multi-tenant exactly when the
    switch says so. *)
Lemma tenancy_never_silent env t :
  readTenancy env = Ok t →
  Forall (fun n => isTenancyNearMiss n = false) env.*1 ∧ (t = multi ↔ map_get "MOCA_TENANCY" env = Some "multi").
Proof.
  unfold readTenancy. destruct (List.find isTenancyNearMiss env.*1) as [m|] eqn:E; [done|]. intros Ht. split.
  - apply Forall_forall. intros n Hn. by eapply List.find_none; [|apply list_elem_of_In].
  - destruct (map_get "MOCA_TENANCY" env) as [v|]; [|by injection Ht as <-].
    case_bool_decide; [by subst; injection Ht as <-|]. case_bool_decide; [by subst; injection Ht as <-|done].
Qed.
