(* ===== verification/SessionLog.v ===== *)
(** * The session log

    Models [packages/session-backend/src] ([entry.ts], [redis-backend.ts], the reconnect bound of
    [redis-errors.ts]) and the write-behind buffer of [harness/src/buffered-redis-backend.ts].  A
    session is a Redis stream and a counter.  [log_do] is the documented effect of the commands
    issued: INCR counts from 1, XADD refuses an id that is not above the stream's last, XRANGE
    answers the entries from an id on.  A command that fails may or may not have taken effect
    ([log_replies]); one sent on a connection that cannot be opened has not. *)

From Stdlib Require Import QArith.
From S2P Require Import Prelude JsNumber Json JsonText Prog.

Local Open Scope Z_scope.

Definition streamKey (sid : string) : string := "session:" +:+ sid.
Definition seqKey (sid : string) : string := "session:" +:+ sid +:+ ":seq".

(** ** Entries *)

Record StoredEntry := mkStoredEntry {
  position : jsnum Q;
  session_id : string;
  piType : string;
  entry : json;
  content_sha256 : bytes;
  timestamp : jsnum Q;
}.

Definition makeStoredEntry (sha256 : bytes → bytes) (pos : Z) (sid pi : string) (e : json) (ts : option Z) : StoredEntry :=
  mkStoredEntry (Fin (inject_Z pos)) sid pi e (sha256 (stringify e)) (Fin (inject_Z (default 0 ts))).

(** ** Commands *)

Inductive lcmd :=
| Incr (k : string)
| XAddAt (k : string) (id : Z) (fields : list (string * bytes))   (* id [<id>-0] *)
| XRangeFrom (k : string) (from : option Z)                       (* [None] is [-]; to [+] *)
| Keys                                                            (* KEYS session:* *)
| DelAll (ks : list string)
| Clock.                                                          (* [Date.now()] *)

Definition lvalue (c : lcmd) : Type :=
  match c with
  | Incr _ | Clock => Z
  | XRangeFrom _ _ => list (list (string * bytes))
  | Keys => list string
  | _ => unit
  end.

Definition lanswer (c : lcmd) : Type := result unit (lvalue c).

(** A stream: its entries by id, and the last id it ever had. *)
Record stream := mkStream { rows : list (Z * list (string * bytes)); top : Z }.

Record logs := mkLogs { counters : gmap string Z; streams : gmap string stream; log_now : Z }.

Definition stream_at (s : logs) (k : string) : stream := default (mkStream [] 0) (streams s !! k).

Definition in_range (from : option Z) (r : Z * list (string * bytes)) : bool :=
  match from with Some n => n <=? r.1 | None => true end.

Definition log_do (c : lcmd) (s : logs) : lanswer c * logs :=
  match c return lanswer c * logs with
  | Incr k =>
      let n := default 0 (counters s !! k) + 1 in
      (Ok n, mkLogs (<[k := n]> (counters s)) (streams s) (log_now s))
  | XAddAt k id fs =>
      let st := stream_at s k in
      if top st <? id
      then (Ok tt, mkLogs (counters s) (<[k := mkStream (rows st ++ [(id, fs)]) id]> (streams s)) (log_now s))
      else (Throw tt, s)
  | XRangeFrom k from =>
      (Ok (snd <$> filter (in_range from) (rows (stream_at s k))), s)
  | Keys => (Ok (filter (fun k => starts_with (bytes_of "session:") (bytes_of k)) (elements (dom (counters s) ∪ dom (streams s)))), s)
  | DelAll ks => (Ok tt, mkLogs (foldr delete (counters s) ks) (foldr delete (streams s) ks) (log_now s))
  | Clock => (Ok (log_now s), s)
  end.

(** The server's reply, or a rejection after the command ran or without its having run. *)
Definition log_replies (c : lcmd) (s : logs) (a : lanswer c) (s' : logs) : Prop :=
  log_do c s = (a, s') ∨ a = Throw tt ∧ c ≠ Clock ∧ (s' = s ∨ s' = (log_do c s).2).

Abbreviation lprog := (prog lcmd lanswer unit).

Definition send (c : lcmd) : lprog (lvalue c) := Call c (fun a => of_result a).

#[global] Arguments send : simpl never.

(** ** [RedisSessionBackend] *)

Definition entry_fields (e : StoredEntry) (pos ts : Z) : list (string * bytes) :=
  [("position", dec_signed pos); ("timestamp", dec_signed ts); ("piType", bytes_of (piType e));
   ("entry", stringify (entry e)); ("content_sha256", content_sha256 e)].

Section Backend.
Context (sha256 : bytes → bytes).

Definition nextPosition (sid : string) : lprog Z := send (Incr (seqKey sid)).

Definition append (sid : string) (e : json) (pi : string) : lprog StoredEntry :=
  await pos <- nextPosition sid;
  await ts <- send Clock;
  let stored := makeStoredEntry sha256 pos sid pi e (Some ts) in
  await _ <- send (XAddAt (streamKey sid) pos (entry_fields stored pos ts));
  Ret stored.

(** One row; [JSON.parse] may throw. *)
Definition parse_row (sid : string) (fs : list (string * bytes)) : result unit StoredEntry :=
  match parse (default [] (map_get "entry" fs)) with
  | None => Throw tt
  | Some e =>
      Ok (mkStoredEntry (Number (default [] (map_get "position" fs))) sid
            (string_of (default [] (map_get "piType" fs))) e (default [] (map_get "content_sha256" fs))
            (Number (default [] (map_get "timestamp" fs))))
  end.

Fixpoint parse_rows (sid : string) (l : list (list (string * bytes))) : result unit (list StoredEntry) :=
  match l with
  | [] => Ok []
  | fs :: l' => try e <- parse_row sid fs; try r <- parse_rows sid l'; Ok (e :: r)
  end.

Definition read (sid : string) (fromPosition : Z) : lprog (list StoredEntry) :=
  await rs <- send (XRangeFrom (streamKey sid) (if fromPosition <=? 1 then None else Some fromPosition));
  of_result (parse_rows sid rs).

Definition latestWhere (sid : string) (predicate : json → bool) : lprog (option StoredEntry) :=
  await all <- read sid 1;
  Ret (last (filter (fun e => predicate (entry e)) all)).

Definition positionOfId (sid id : string) : lprog (option (jsnum Q)) :=
  await all <- read sid 1;
  Ret (position <$> List.find (fun e => bool_decide (as_string (field "id" (entry e)) = Some id)) all).

Definition ends_with (suf s : bytes) : bool := starts_with (rev suf) (rev s).

Definition list_sessions : lprog (list string) :=
  await ks <- send Keys;
  Ret ((fun k => string_of (drop 8 (bytes_of k))) <$> filter (fun k => negb (ends_with (bytes_of ":seq") (bytes_of k))) ks).

Definition reset (sid : string) : lprog unit := send (DelAll [streamKey sid; seqKey sid]).

(** ** [BufferedRedisBackend]

    The chain of writes not yet done, and the last error of those done. *)

Record Buffered := mkBuffered { queue : list (string * json); lastError : bool }.

Definition buf_append (b : Buffered) (sid : string) (e : json) : Buffered :=
  mkBuffered (queue b ++ [(sid, e)]) (lastError b).

(** [entry.type] *)
Definition pi_of (e : json) : string := default "undefined" (as_string (field "type" e)).

(** The chain, in order; an error is kept, and the next write goes on. *)
Fixpoint drain (q : list (string * json)) (err : bool) : lprog bool :=
  match q with
  | [] => Ret err
  | (sid, e) :: q' =>
      await ok <- pcatch (await _ <- append sid e (pi_of e); Ret true) (fun _ => Ret false);
      drain q' (err || negb ok)
  end.

(** [flush]: throws the error kept, and forgets it. *)
Definition flush (b : Buffered) : lprog (result unit unit * Buffered) :=
  await err <- drain (queue b) (lastError b);
  Ret (if err then Throw tt else Ok tt, mkBuffered [] false).

Definition buf_read (sid : string) (fromPosition : Z) : lprog (list json) :=
  await rs <- read sid fromPosition; Ret (entry <$> rs).

Definition is_checkpoint (e : json) : bool :=
  bool_decide (as_string (field "type" e) = Some "custom")
  && bool_decide (as_string (field "customType" e) = Some "checkpoint").

Definition latestCheckpoint (sid : string) : lprog (option json) :=
  await row <- latestWhere sid is_checkpoint; Ret (entry <$> row).
End Backend.

(** [reconnectStrategy]: the delay before another attempt, or giving up. *)
Definition DEFAULT_MAX_RECONNECT_ATTEMPTS : Z := 10.

Definition reconnectStrategy (maxAttempts retries : Z) : option Z :=
  if maxAttempts <? retries then None else Some (Z.min (retries * 100) 1000).

(** ** The abstract log *)

Record item := mkItem { i_pos : Z; i_ts : Z; i_pi : string; i_entry : json }.

Section Theorems.
Context (sha256 : bytes → bytes).

Definition row_of (sid : string) (i : item) : Z * list (string * bytes) :=
  (i_pos i, entry_fields (makeStoredEntry sha256 (i_pos i) sid (i_pi i) (i_entry i) (Some (i_ts i))) (i_pos i) (i_ts i)).

Definition counter_at (s : logs) (sid : string) : Z := default 0 (counters s !! seqKey sid).

(** The stream of a session holds the entries [l], at strictly increasing positions that the
    counter has passed. *)
Record holds_log (s : logs) (sid : string) (l : list item) : Prop := {
  hl_rows : rows (stream_at s (streamKey sid)) = row_of sid <$> l;
  hl_sorted : StronglySorted Z.lt (i_pos <$> l);
  hl_range : Forall (fun p => 0 < p ≤ top (stream_at s (streamKey sid))) (i_pos <$> l);
  hl_top : 0 ≤ top (stream_at s (streamKey sid)) ≤ counter_at s sid;
}.

Definition holds (s : logs) (L : string → list item) : Prop := ∀ sid, holds_log s sid (L sid).

Definition upd (L : string → list item) (sid : string) (l : list item) : string → list item :=
  fun x => if decide (x = sid) then l else L x.

#[export] Instance streamKey_inj : Inj (=) (=) streamKey.
Proof. intros a b [=]. done. Qed.

#[export] Instance seqKey_inj : Inj (=) (=) seqKey.
Proof. intros a b [= E]. by eapply append_inj_r. Qed.

Lemma stream_insert s k st k' n :
  stream_at (mkLogs (counters s) (<[k := st]> (streams s)) n) k' = if decide (k' = k) then st else stream_at s k'.
Proof.
  unfold stream_at. simpl. destruct (decide (k' = k)) as [->|]; [by rewrite lookup_insert_eq|by rewrite lookup_insert_ne].
Qed.

(** Counting leaves the logs as they are, and answers a position above them. *)
Lemma holds_incr s L sid :
  holds s L → let s' := (log_do (Incr (seqKey sid)) s).2 in
  holds s' L ∧ (log_do (Incr (seqKey sid)) s).1 = Ok (counter_at s' sid)
  ∧ top (stream_at s' (streamKey sid)) < counter_at s' sid.
Proof.
  intros Hs s'. assert (Hc : ∀ x, counter_at s' x = if decide (x = sid) then counter_at s sid + 1 else counter_at s x).
  { intros x. unfold counter_at, s'. simpl. destruct (decide (x = sid)) as [->|Hne].
    - by rewrite lookup_insert_eq.
    - rewrite lookup_insert_ne; [done|]. by intros E%seqKey_inj. }
  split; [|split].
  - intros x. destruct (Hs x) as [Hr Hso Hra Ht]. split; try done. change (stream_at s') with (stream_at s).
    rewrite Hc. case_decide; [subst; lia|done].
  - rewrite Hc, decide_True by done. done.
  - destruct (Hs sid) as [_ _ _ Ht]. rewrite Hc, decide_True by done. change (stream_at s') with (stream_at s). lia.
Qed.

Lemma StronglySorted_snoc (l : list Z) x : StronglySorted Z.lt l → Forall (fun y => y < x) l → StronglySorted Z.lt (l ++ [x]).
Proof.
  induction 1 as [|y l Hs IH Hy]; simpl; intros Hx; [by repeat constructor|].
  apply Forall_cons in Hx as [Hyx Hx]. constructor; [by apply IH|]. apply Forall_app. split; [done|by constructor].
Qed.

(** Adding the entry of a position above the log's extends it. *)
Lemma holds_xadd s L sid i :
  holds s L → top (stream_at s (streamKey sid)) < i_pos i ≤ counter_at s sid →
  let '(a, s') := log_do (XAddAt (streamKey sid) (i_pos i) (row_of sid i).2) s in
  a = Ok tt ∧ holds s' (upd L sid (L sid ++ [i])).
Proof.
  intros Hs Hp. cbn [log_do]. destruct (Z.ltb_spec (top (stream_at s (streamKey sid))) (i_pos i)); [|lia].
  split; [done|]. intros x. destruct (Hs x) as [Hr Hso Hra Ht]. unfold upd.
  destruct (decide (x = sid)) as [->|Hne].
  - split; rewrite ?stream_insert, ?decide_True by done; cbn [rows top].
    + by rewrite Hr, fmap_app.
    + rewrite fmap_app. apply StronglySorted_snoc; [done|]. eapply Forall_impl; [exact Hra|]. simpl. lia.
    + rewrite fmap_app. apply Forall_app. split; [|constructor; [lia|done]].
      eapply Forall_impl; [exact Hra|]. simpl. lia.
    + unfold counter_at in *. simpl. lia.
  - assert (streamKey x ≠ streamKey sid) by (by intros ?%streamKey_inj).
    split; rewrite ?stream_insert, ?decide_False by done; done.
Qed.

Lemma replies_incr s L sid a s' :
  holds s L → log_replies (Incr (seqKey sid)) s a s' →
  holds s' L ∧ match a with
               | Ok pos => pos = counter_at s' sid ∧ top (stream_at s' (streamKey sid)) < pos
               | Throw _ => True
               end.
Proof.
  intros Hs. destruct (holds_incr s L sid Hs) as (H1 & H2 & H3).
  intros [E|(-> & _ & [->| ->])]; [|done|done].
  assert (a = (log_do (Incr (seqKey sid)) s).1) as Ea by (by rewrite E).
  assert (s' = (log_do (Incr (seqKey sid)) s).2) as -> by (by rewrite E). rewrite H2 in Ea. by subst a.
Qed.

(** An append that may lose any reply: the logs stay as they were until its own entry, and no
    other, is at the end of its own session's; it returns only then. *)
Lemma always_append s L sid e pi (Q : result unit StoredEntry → logs → Prop) :
  holds s L →
  (∀ s', holds s' L → Q (Throw tt) s') →
  (∀ s' i o, i_entry i = e → i_pi i = pi → holds s' (upd L sid (L sid ++ [i])) → Q o s') →
  always log_replies (fun _ => True) (append sha256 sid e pi) Q s.
Proof.
  intros Hs Hfail Hdone. split; [done|]. intros a s1 H1. apply (replies_incr _ L) in H1 as [Hs1 Ha]; [|done].
  destruct a as [pos|[]]; [|split; [done|]; by apply Hfail]. destruct Ha as [-> Htop].
  split; [done|]. intros a s2 [E|(_ & ? & _)]; [|done]. cbn in E. injection E as <- <-.
  set (i := mkItem (counter_at s1 sid) (log_now s1) pi e).
  pose proof (holds_xadd s1 L sid i Hs1 (conj Htop (Z.le_refl _))) as Hx.
  split; [done|]. intros a s3 H3.
  change (log_replies (XAddAt (streamKey sid) (i_pos i) (row_of sid i).2) s1 a s3) in H3. unfold log_replies in H3.
  destruct (log_do (XAddAt (streamKey sid) (i_pos i) (row_of sid i).2) s1) as [a0 s3'] eqn:E3. destruct Hx as [-> Hx].
  destruct H3 as [H3|(-> & _ & [->| ->])].
  - injection H3 as <- <-. split; [done|]. by apply (Hdone _ i).
  - split; [done|]. by apply Hfail.
  - split; [done|]. by apply (Hdone _ i).
Qed.

(** The entries of a queue that belong to a session. *)
Definition entries_for (sid : string) (q : list (string * json)) : list json :=
  snd <$> filter (fun x => x.1 = sid) q.

(** Every log has grown by some of its queued entries, in the order they were queued. *)
Definition grown (L L' : string → list item) (q : list (string * json)) : Prop :=
  ∀ sid, ∃ new, L' sid = L sid ++ new ∧ (i_entry <$> new) `sublist_of` entries_for sid q.

(** Every log has grown by all of them. *)
Definition stored_all (L L' : string → list item) (q : list (string * json)) : Prop :=
  ∀ sid, ∃ new, L' sid = L sid ++ new ∧ i_entry <$> new = entries_for sid q.

Lemma entries_for_cons sid x e q :
  entries_for sid ((x, e) :: q) = (if decide (x = sid) then [e] else []) ++ entries_for sid q.
Proof. unfold entries_for. rewrite filter_cons. simpl. by case_decide. Qed.

Lemma grown_skip L L' x e q : grown L L' q → grown L L' ((x, e) :: q).
Proof.
  intros Hg sid. destruct (Hg sid) as (new & ? & ?). exists new. split; [done|]. rewrite entries_for_cons.
  case_decide; [by apply sublist_cons|done].
Qed.

Lemma grown_take L L' x e q i :
  i_entry i = e → grown (upd L x (L x ++ [i])) L' q → grown L L' ((x, e) :: q).
Proof.
  intros Hi Hg sid. destruct (Hg sid) as (new & Heq & Hsub). unfold upd in Heq. rewrite entries_for_cons.
  destruct (decide (sid = x)) as [->|Hne].
  - exists (i :: new). rewrite Heq, <-app_assoc, decide_True by done. split; [done|].
    rewrite fmap_cons, Hi. by apply sublist_skip.
  - exists new. rewrite decide_False by congruence. by rewrite Heq.
Qed.

Lemma stored_take L L' x e q i :
  i_entry i = e → stored_all (upd L x (L x ++ [i])) L' q → stored_all L L' ((x, e) :: q).
Proof.
  intros Hi Hg sid. destruct (Hg sid) as (new & Heq & Hsub). unfold upd in Heq. rewrite entries_for_cons.
  destruct (decide (sid = x)) as [->|Hne].
  - exists (i :: new). rewrite Heq, <-app_assoc, decide_True by done. split; [done|]. by rewrite fmap_cons, Hi, Hsub.
  - exists new. rewrite decide_False by congruence. by rewrite Heq.
Qed.

Lemma always_drain q err s L :
  holds s L →
  always log_replies (fun _ => True) (drain sha256 q err)
    (fun o s' => ∃ L', holds s' L' ∧ grown L L' q ∧ (o = Ok false → err = false ∧ stored_all L L' q)) s.
Proof.
  revert err s L. induction q as [|[sid e] q IH]; intros err s L Hs.
  - split; [done|]. exists L. split; [done|]. split.
    + intros sid. exists []. by rewrite app_nil_r.
    + intros [= ->]. split; [done|]. intros sid. exists []. by rewrite app_nil_r.
  - cbn [drain]. apply always_bind, always_catch, always_bind. eapply (always_append s L sid e); [done| |].
    + intros s' Hs'. split; [done|]. rewrite orb_true_r. eapply always_mono; [done| |apply (IH true s' L Hs')].
      intros o s'' (L' & ? & Hg & Ho). exists L'. split; [done|]. split; [by apply grown_skip|]. intros E. by destruct (Ho E).
    + intros s' i o Hi _ Hs'. assert (Hb : ∀ b, always log_replies (fun _ => True) (drain sha256 q (err || negb b))
        (fun o s'' => ∃ L', holds s'' L' ∧ grown L L' ((sid, e) :: q) ∧ (o = Ok false → err = false ∧ stored_all L L' ((sid, e) :: q))) s').
      { intros b. eapply always_mono; [done| |apply (IH _ s' _ Hs')]. intros o' s'' (L' & ? & Hg & Ho). exists L'.
        split; [done|]. split; [by eapply grown_take|]. intros E. destruct (Ho E) as [[-> _]%orb_false_elim Hall].
        split; [done|]. by eapply stored_take. }
      destruct o as [st|[]]; (split; [done|]); [apply (Hb true)|apply (Hb false)].
Qed.

(** C10. Flushing the write-behind buffer, over a connection that may lose any reply: every
    session's log has grown only by its own buffered entries, each at most once and in the order
    they were appended, at positions above all before; and a flush that succeeds has stored all
    of them, with no earlier error left unreported. *)
Theorem flush_durable b s L o b' s' :
  holds s L → rtc (pstep log_replies) (flush sha256 b, s) (Ret (o, b'), s') →
  ∃ L', holds s' L' ∧ grown L L' (queue b) ∧ b' = mkBuffered [] false
    ∧ (o = Ok tt → lastError b = false ∧ stored_all L L' (queue b)).
Proof.
  intros Hs Hr.
  assert (Ha : always log_replies (fun _ => True) (flush sha256 b)
    (fun o s' => ∃ L', holds s' L' ∧ grown L L' (queue b)
       ∧ ∀ r b', o = Ok (r, b') → b' = mkBuffered [] false
           ∧ (r = Ok tt → lastError b = false ∧ stored_all L L' (queue b))) s).
  { apply always_bind. eapply always_mono; [done| |by apply always_drain].
    intros [err|e] s1 (L' & H1 & H2 & H3); [split; [done|]|]; exists L'; split_and!; try done.
    intros r b1 [= <- <-]. split; [done|]. destruct err; [done|]. intros _. by apply H3. }
  destruct (always_steps _ _ _ _ _ _ _ Ha Hr) as (_ & L' & H1 & H2 & H3).
  destruct (H3 _ _ eq_refl) as [-> H4]. by exists L'.
Qed.

(** ** Reading back *)

Record row_matches (sid : string) (i : item) (r : StoredEntry) : Prop := {
  rm_position : integer_val (position r) = Some (i_pos i);
  rm_timestamp : integer_val (timestamp r) = Some (i_ts i);
  rm_session : session_id r = sid;
  rm_type : piType r = i_pi i;
  rm_entry : entry r = i_entry i;
  rm_hash : content_sha256 r = sha256 (stringify (i_entry i));
}.

(** What JSON and the printed numbers carry exactly. *)
Definition storable (i : item) : Prop :=
  serialisable (i_entry i) = true ∧ Z.abs (i_pos i) ≤ MAX_SAFE_INTEGER ∧ Z.abs (i_ts i) ≤ MAX_SAFE_INTEGER.

Lemma parse_row_of sid i : storable i → ∃ r, parse_row sid (row_of sid i).2 = Ok r ∧ row_matches sid i r.
Proof.
  intros (He & Hp & Ht). unfold parse_row.
  change (default [] (map_get "entry" (row_of sid i).2)) with (stringify (i_entry i)).
  rewrite parse_stringify by done. eexists. split; [done|].
  split; cbn; first [done | by apply Number_dec | apply string_of_bytes].
Qed.

Lemma parse_rows_of sid l :
  Forall storable l → ∃ rs, parse_rows sid (snd <$> (row_of sid <$> l)) = Ok rs ∧ Forall2 (row_matches sid) l rs.
Proof.
  induction 1 as [|i l Hi _ (rs & Hrs & Hm)]; [by exists []; repeat constructor|].
  destruct (parse_row_of sid i Hi) as (r & Hr & Hrm). exists (r :: rs). split; [|by constructor].
  rewrite !fmap_cons. cbn [parse_rows]. rewrite Hr. cbn [result_bind]. by rewrite Hrs.
Qed.

Lemma filter_range sid from l :
  Forall (fun p => 0 < p) (i_pos <$> l) →
  filter (in_range (if from <=? 1 then None else Some from)) (row_of sid <$> l)
  = row_of sid <$> filter (fun i => from ≤ i_pos i) l.
Proof.
  induction l as [|i l IH]; intros Hp; [done|]. rewrite fmap_cons in Hp. apply Forall_cons in Hp as [Hi Hp].
  rewrite fmap_cons, !filter_cons, IH by done.
  destruct (decide (from ≤ i_pos i)) as [Hle|Hle], (decide (in_range _ _)) as [Hr|Hr]; try done; exfalso; revert Hr;
    destruct (Z.leb_spec from 1); simpl.
  - tauto.
  - intros Hr. apply Hr, Is_true_true, Z.leb_le. lia.
  - lia.
  - intros Hr%Is_true_true%Z.leb_le. lia.
Qed.

(** Reading a session from a position on gives exactly the entries appended at that position
    or later, in order, each with its position, type, time and content as it was written and the
    hash of that content; the read changes nothing. *)
Theorem read_returns_log s L sid from :
  holds s L → Forall storable (L sid) →
  ∃ rs, prun log_do (read sid from) s = (Ok rs, s)
    ∧ Forall2 (row_matches sid) (filter (fun i => from ≤ i_pos i) (L sid)) rs.
Proof.
  intros Hs Hst. destruct (Hs sid) as [Hr _ Hra _].
  destruct (parse_rows_of sid (filter (fun i => from ≤ i_pos i) (L sid))) as (rs & Hrs & Hm).
  { rewrite Forall_forall in Hst |- *. intros i [_ Hi]%list_elem_of_filter. by apply Hst. }
  exists rs. split; [|done]. unfold read. rewrite prun_bind. unfold send at 1. cbn [prun log_do].
  rewrite Hr, filter_range; [|eapply Forall_impl; [exact Hra|]; simpl; lia]. cbn [of_result prun]. by rewrite Hrs.
Qed.
End Theorems.

(** ** Connecting

    [arm] and [open] of [RedisSessionBackend].  Attempts are numbered; the client's socket is
    open from the start of an attempt until that attempt fails, the reconnect bound is passed or
    the client is closed.  Connecting a client whose socket is open rejects. *)

Record conn := mkConn {
  ready : option nat;
  isOpen : bool;
  current : option nat;        (* the attempt behind the open socket *)
  rejected : list nat;
  fresh : nat;
}.

(** [arm()], with the assignment of its result to [ready]. *)
Definition arm (c : conn) : conn :=
  if isOpen c then mkConn (Some (fresh c)) true (current c) (fresh c :: rejected c) (S (fresh c))
  else mkConn (Some (fresh c)) true (Some (fresh c)) (rejected c) (S (fresh c)).

Definition conn_init : conn := arm (mkConn None false None [] 0).

(** [open()]: the attempt awaited. *)
Definition open_conn (c : conn) : option nat * conn :=
  let c1 := match ready c with
            | Some _ => if isOpen c then c else mkConn None (isOpen c) (current c) (rejected c) (fresh c)
            | None => c
            end in
  let c2 := match ready c1 with Some _ => c1 | None => arm c1 end in
  (ready c2, c2).

Definition drop_ready (n : nat) (c : conn) : conn :=
  mkConn (if bool_decide (ready c = Some n) then None else ready c) (isOpen c) (current c) (rejected c) (fresh c).

Inductive conn_step : conn → conn → Prop :=
| step_open c : conn_step c (open_conn c).2
| step_fail c n : current c = Some n → isOpen c = true →
    conn_step c (mkConn (ready c) false None (n :: rejected c) (fresh c))
| step_late_fail c n : current c ≠ Some n → (n < fresh c)%nat →
    conn_step c (mkConn (ready c) (isOpen c) (current c) (n :: rejected c) (fresh c))
| step_catch c n : n ∈ rejected c → conn_step c (drop_ready n c)
| step_closed c : conn_step c (mkConn (ready c) false None (rejected c) (fresh c)).

Record conn_ok (c : conn) : Prop := {
  ok_none : ready c = None → isOpen c = false;
  ok_some : ∀ n, ready c = Some n → isOpen c = true → current c = Some n ∧ n ∉ rejected c;
  ok_current : ∀ n, current c = Some n → (n < fresh c)%nat;
  ok_fresh : ∀ n, n ∈ rejected c → (n < fresh c)%nat;
}.

Lemma arm_ok c :
  isOpen c = false → (∀ n, n ∈ rejected c → (n < fresh c)%nat) →
  conn_ok (arm c) ∧ isOpen (arm c) = true ∧ ready (arm c) = Some (fresh c).
Proof.
  intros Ho H3. unfold arm. rewrite Ho. split; [|done]. split; simpl; [done| | |].
  - intros n [= <-] _. split; [done|]. intros Hn%H3. lia.
  - intros n [= <-]. lia.
  - intros n Hn%H3. lia.
Qed.

Lemma open_ok c : conn_ok c → ∃ n, (open_conn c).1 = Some n ∧ ready (open_conn c).2 = Some n ∧ conn_ok (open_conn c).2 ∧ isOpen (open_conn c).2 = true.
Proof.
  intros Hc. unfold open_conn. destruct (ready c) as [n|] eqn:Er; [destruct (isOpen c) eqn:Eo|].
  - exists n. rewrite Er. cbn [fst snd]. by rewrite Er.
  - set (c0 := mkConn None false (current c) (rejected c) (fresh c)). cbn [ready c0 fst snd].
    destruct (arm_ok c0) as (H1 & H2 & H3); [done|apply Hc|]. exists (fresh c). by split_and!.
  - rewrite Er. cbn [fst snd]. destruct (arm_ok c) as (H1 & H2 & H3); [by apply Hc|apply Hc|].
    exists (fresh c). by split_and!.
Qed.

Lemma step_ok c c' : conn_ok c → conn_step c c' → conn_ok c'.
Proof.
  intros Hc Hs. destruct Hs as [c|c n Hn Ho|c n Hn Hf|c n Hn|c].
  - by destruct (open_ok c Hc) as (n & _ & _ & ? & _).
  - destruct Hc as [H1 H2 H3 H4]. split; simpl; try done. intros m [->|Hm]%elem_of_cons; [by apply H3|by apply H4].
  - destruct Hc as [H1 H2 H3 H4]. split; simpl; [done| |done|].
    + intros m Hm Ho. destruct (H2 m Hm Ho) as [Hcur Hni]. split; [done|]. rewrite elem_of_cons. intros [->|?]; done.
    + intros m [->|Hm]%elem_of_cons; [done|by apply H4].
  - destruct Hc as [H1 H2 H3 H4]. split; simpl; [|by case_bool_decide; auto|done|done].
    case_bool_decide as E; [|done]. intros _. destruct (isOpen c) eqn:Eo; [|done]. by destruct (H2 n E eq_refl).
  - destruct Hc as [H1 H2 H3 H4]. by split.
Qed.

(** However connection attempts fail, late or early, and whenever the socket is given up or
    closed, a later call awaits an attempt that has not failed, over a socket that is open:
    a failed connection is never replayed, so an outage costs the calls made during it and
    not the process. *)
Theorem open_never_replays c :
  rtc conn_step conn_init c → ∃ n, (open_conn c).1 = Some n ∧ n ∉ rejected (open_conn c).2 ∧ isOpen (open_conn c).2 = true.
Proof.
  intros Hr. assert (Hc : conn_ok c).
  { revert Hr. apply (rtc_ind_r (fun c => conn_ok c)); [|intros ?? _ Hs Hc; by eapply step_ok].
    apply (arm_ok (mkConn None false None [] 0)); [done|]. intros n Hn. by apply elem_of_nil in Hn. }
  destruct (open_ok c Hc) as (n & H1 & H2 & [_ H3 _ _] & H4). exists n. split; [done|]. by destruct (H3 n H2 H4).
Qed.

Lemma open_never_replays_witness :
  let c := mkConn (Some 0%nat) false None [0%nat] 1 in
  rtc conn_step conn_init c ∧ ∃ n, (open_conn c).1 = Some n ∧ n ∉ rejected (open_conn c).2.
Proof.
  intros c. assert (Hr : rtc conn_step conn_init c).
  { eapply rtc_l; [|apply rtc_refl]. by apply (step_fail conn_init 0). }
  split; [done|]. destruct (open_never_replays c Hr) as (n & H1 & H2 & _). by exists n.
Defined.

(** The delays of all attempts at the default bound: 5.5 seconds. *)
Example default_reconnect_delay :
  foldr (fun r acc => default 0 (reconnectStrategy DEFAULT_MAX_RECONNECT_ATTEMPTS (Z.of_nat r)) + acc) 0 (seq 0 11) = 5500
  ∧ reconnectStrategy DEFAULT_MAX_RECONNECT_ATTEMPTS 11 = None.
Proof. done. Qed.

(** ** Witnesses *)

Definition id_sha (b : bytes) : bytes := b.

Definition empty_logs : logs := mkLogs ∅ ∅ 7.

Lemma empty_holds : holds id_sha empty_logs (fun _ => []).
Proof.
  intros sid. split; [done|constructor|constructor|]. unfold counter_at, stream_at. simpl. rewrite !lookup_empty.
  simpl. lia.
Qed.

Definition toy_buffer : Buffered := mkBuffered [("s", JObj [("type", JStr "message")])] false.

Lemma log_do_replies c s : log_replies c s (log_do c s).1 (log_do c s).2.
Proof. left. apply surjective_pairing. Qed.

Lemma flush_durable_witness :
  ∃ s' L', rtc (pstep log_replies) (flush id_sha toy_buffer, empty_logs) (Ret (Ok tt, mkBuffered [] false), s')
  ∧ holds id_sha s' L' ∧ i_entry <$> L' "s" = [JObj [("type", JStr "message")]].
Proof.
  pose proof (prun_steps log_replies log_do (flush id_sha toy_buffer) empty_logs log_do_replies) as Hr.
  assert (E : (prun log_do (flush id_sha toy_buffer) empty_logs).1 = Ok (Ok tt, mkBuffered [] false)) by by vm_compute.
  rewrite E in Hr. cbn [of_result] in Hr.
  destruct (flush_durable id_sha toy_buffer empty_logs (fun _ => []) _ _ _ empty_holds Hr) as (L' & H1 & _ & _ & H2).
  destruct (H2 eq_refl) as [_ Hall]. destruct (Hall "s") as (new & Heq & Hnew).
  eexists _, L'. split; [exact Hr|]. split; [exact H1|]. rewrite Heq. exact Hnew.
Defined.

(** A log of one entry, as [append] writes it. *)
Definition one_item : item := mkItem 1 7 "message" (JObj [("type", JStr "message")]).

Definition one_log : logs :=
  mkLogs {[seqKey "s" := 1]} {[streamKey "s" := mkStream [row_of id_sha "s" one_item] 1]} 7.

Lemma one_log_holds : holds id_sha one_log (upd (fun _ => []) "s" [one_item]).
Proof.
  pose proof (holds_incr id_sha empty_logs (fun _ => []) "s" empty_holds) as (H1 & _ & H3).
  pose proof (holds_xadd id_sha _ (fun _ => []) "s" one_item H1) as Hx. apply Hx. by vm_compute.
Qed.

Lemma read_returns_log_witness :
  ∃ rs, prun log_do (read "s" 1) one_log = (Ok rs, one_log) ∧ Forall2 (row_matches id_sha "s") [one_item] rs.
Proof.
  apply (read_returns_log id_sha one_log (upd (fun _ => []) "s" [one_item]) "s" 1 one_log_holds).
  repeat constructor; by vm_compute.
Defined.
