(* ===== verification/TurnStream.v ===== *)
(** * Streamed turns

    Models [harness/src/turn-stream.ts] (the frames of a turn), the streamed half of [/turn] in
    [packages/knative-server/src/server.ts] ([makeFrameWriter], [handleTurnStream] and the error
    mapping it shares with the plain half), and the reader at the other end:
    [packages/mocactl/src/api/sse-parser.ts], [frames.ts] and the stream of [harness.ts].
    While the turn runs, the response sees the agent's events, ticks of the heartbeat and the
    client's disconnection, in any order; the code after the [await] then runs to its end.
    Text is UTF-8: a string is the list of its bytes, and [TextDecoder] hands the reader whole
    characters, so the chunks it pushes are a way of cutting that list. *)

From Stdlib Require Import QArith.
From S2P Require Import Prelude JsNumber Json JsonText Leaf.

Local Open Scope Z_scope.

(** ** Frames *)

Inductive TurnStreamFrame :=
| FText (delta : string)
| FThinking (delta : string)
| FToolUse (id name : string) (args : option json)
| FToolResult (id : string) (isError : bool) (preview : string)
| FDone (sessionId stopReason : string) (usage : option LeafUsage)
| FError (sessionId stopReason : string) (errorMessage : option string) (usage : option LeafUsage).

Definition frame_type (f : TurnStreamFrame) : string :=
  match f with
  | FText _ => "text" | FThinking _ => "thinking" | FToolUse _ _ _ => "tool_use"
  | FToolResult _ _ _ => "tool_result" | FDone _ _ _ => "done" | FError _ _ _ _ => "error"
  end.

Definition usage_json (u : LeafUsage) : json :=
  JObj [("input", JNum (u_input u)); ("output", JNum (u_output u)); ("cacheRead", JNum (u_cacheRead u));
        ("cacheWrite", JNum (u_cacheWrite u)); ("total", JNum (u_total u))].

(** A property that is left out when it is [undefined]. *)
Definition opt_field (name : string) (v : option json) : list (string * json) :=
  match v with Some j => [(name, j)] | None => [] end.

Definition frame_json (f : TurnStreamFrame) : json :=
  JObj (("type", JStr (frame_type f)) ::
    match f with
    | FText d | FThinking d => [("delta", JStr d)]
    | FToolUse id name args => [("id", JStr id); ("name", JStr name)] ++ opt_field "args" args
    | FToolResult id e p => [("id", JStr id); ("isError", JBool e); ("preview", JStr p)]
    | FDone sid reason u =>
        [("sessionId", JStr sid); ("stopReason", JStr reason)] ++ opt_field "usage" (usage_json <$> u)
    | FError sid reason m u =>
        [("sessionId", JStr sid); ("stopReason", JStr reason)] ++ opt_field "errorMessage" (JStr <$> m)
        ++ opt_field "usage" (usage_json <$> u)
    end).

(** ** Previews *)

Definition DEFAULT_PREVIEW_BYTES : Z := 2048.

(** The override is a whole number or not finite. *)
Definition previewCap (raw : option string) (override : option (jsnum Z)) : Z :=
  match override with
  | Some (Fin n) => if 0 <=? n then n else DEFAULT_PREVIEW_BYTES
  | Some _ => DEFAULT_PREVIEW_BYTES
  | None => match raw with
            | None => DEFAULT_PREVIEW_BYTES
            | Some r => nonneg_or DEFAULT_PREVIEW_BYTES (parseInt (bytes_of r))
            end
  end.

Definition continuation (c : ascii) : bool := let n := nat_of_ascii c in ((128 <=? n) && (n <? 192))%nat.

Definition REPLACEMENT : bytes := ascii_of_nat <$> [239; 191; 189]%nat.
Definition TRUNCATED : bytes := (ascii_of_nat <$> [226; 128; 166]%nat) ++ bytes_of "[truncated]".

(** The bytes up to the last character begun, given in reverse. *)
Fixpoint drop_partial (r : bytes) : bytes :=
  match r with
  | [] => []
  | c :: r' => if continuation c then drop_partial r' else r'
  end.

(** [buf.subarray(0, cap).toString('utf8')] of the encoding of a string: a character cut in two
    is replaced. *)
Definition decode_prefix (cap : nat) (buf : bytes) : bytes :=
  match buf !! cap with
  | Some c => if continuation c then reverse (drop_partial (reverse (take cap buf))) ++ REPLACEMENT else take cap buf
  | None => take cap buf
  end.

Definition clip (cap : Z) (result : option json) : string :=
  let text := match result with Some (JStr s) => bytes_of s | Some j => stringify j | None => [] end in
  string_of (if Z.of_nat (length text) <=? cap then text
             else decode_prefix (Z.to_nat cap) text ++ TRUNCATED).

(** ** The agent's events *)

Inductive pi_event :=
| MessageUpdate (type : string) (delta : string)
| ToolExecutionStart (id name : string) (args : option json)
| ToolExecutionEnd (id : string) (isError : bool) (result : option json)
| OtherPiEvent.

Definition sseExtension (cap : Z) (e : pi_event) : option TurnStreamFrame :=
  match e with
  | MessageUpdate t d =>
      if bool_decide (t = "text_delta") && negb (bool_decide (d = "")) then Some (FText d)
      else if bool_decide (t = "thinking_delta") && negb (bool_decide (d = "")) then Some (FThinking d)
      else None
  | ToolExecutionStart id name args => Some (FToolUse id name args)
  | ToolExecutionEnd id e r => Some (FToolResult id e (clip cap r))
  | OtherPiEvent => None
  end.

(** ** The end of a turn *)

Record TurnResult := mkTurnResult {
  tr_sessionId : string;
  tr_response : string;
  tr_stopReason : string;
  tr_errorMessage : option string;
  tr_usage : option LeafUsage;
}.

Definition CLEAN_STOP_REASONS : list string := ["stop"; "length"; "end_turn"; "max_tokens"].

Definition nonempty (s : option string) : option string :=
  match s with Some s => if bool_decide (s = "") then None else Some s | None => None end.

Definition terminalFrame (r : TurnResult) : TurnStreamFrame :=
  if bool_decide (tr_stopReason r ∈ CLEAN_STOP_REASONS)
  then FDone (tr_sessionId r) (tr_stopReason r) (tr_usage r)
  else FError (tr_sessionId r) (tr_stopReason r) (nonempty (tr_errorMessage r)) (tr_usage r).

(** What a failed turn throws: an [Error] with its name, or any other value, as text. *)
Inductive turn_error := AnError (name message : string) | NotAnError (text : string).

Definition error_text (e : turn_error) : string := match e with AnError _ m => m | NotAnError t => t end.

Definition NO_CAPACITY : list string := ["SandboxPoolSaturatedError"; "SandboxPoolEmptyError"].

Definition turnErrorStatus (e : turn_error) : Z :=
  match e with
  | AnError name _ => if bool_decide (name ∈ NO_CAPACITY) then 503
                      else if contains (bytes_of "no session in backend") (bytes_of (error_text e)) then 404 else 500
  | NotAnError _ => if contains (bytes_of "no session in backend") (bytes_of (error_text e)) then 404 else 500
  end.

Abbreviation http_headers := (list (string * string)).

Definition JSON_HEADERS : http_headers := [("Content-Type", "application/json")].
Definition SSE_HEADERS : http_headers :=
  [("Content-Type", "text/event-stream"); ("Cache-Control", "no-cache"); ("Connection", "keep-alive");
   ("X-Accel-Buffering", "no")].

(** [intEnv] on the text of the setting. *)
Definition intEnv (raw : option string) (def : Z) : Z :=
  match raw with None => def | Some r => nonneg_or def (parseInt (bytes_of r)) end.

Record SaturationWait := mkWait { waitMs : Z; backoffMs : Z; maxBackoffMs : Z; retryAfterS : Z }.

Definition saturationWaitConfig (env : gmap string string) : SaturationWait :=
  mkWait (intEnv (env !! "KAGENTI_SYNC_SATURATION_WAIT_MS") 30000)
         (intEnv (env !! "KAGENTI_SYNC_SATURATION_BACKOFF_MS") 250)
         (intEnv (env !! "KAGENTI_SYNC_SATURATION_MAX_BACKOFF_MS") 5000)
         (intEnv (env !! "KAGENTI_SYNC_SATURATION_RETRY_AFTER_S") 5).

Definition dec_str (n : Z) : string := string_of (dec_signed n).

Definition turnErrorHeaders (env : gmap string string) (status : Z) : http_headers :=
  if status =? 503 then JSON_HEADERS ++ [("Retry-After", dec_str (retryAfterS (saturationWaitConfig env)))]
  else JSON_HEADERS.

(** [...(v ? { name: v } : {})] *)
Definition truthy_field (name : string) (v : option json) : list (string * json) :=
  match v with Some j => if truthy j then [(name, j)] else [] | None => [] end.

Definition turn_error_body (e : turn_error) (sessionId : option json) : json :=
  JObj (("error", JStr (if turnErrorStatus e =? 404 then "session_not_found" else error_text e))
        :: truthy_field "sessionId" sessionId).

(** ** The response *)

Inductive res_out :=
| Head (status : Z) (hs : http_headers)
| Write (chunk : bytes)
| End (body : option bytes).

Record Res := mkRes {
  headersSent : bool;
  writableEnded : bool;
  clientGone : bool;
  aborted : bool;                  (* [ac.abort()] was called *)
  heartbeat : bool;                (* an interval is pending *)
  written : list res_out;
}.

Definition res_init : Res := mkRes false false false false false [].

Definition writeHead (status : Z) (hs : http_headers) (r : Res) : Res :=
  mkRes true (writableEnded r) (clientGone r) (aborted r) (heartbeat r) (written r ++ [Head status hs]).
Definition write (chunk : bytes) (r : Res) : Res :=
  mkRes (headersSent r) (writableEnded r) (clientGone r) (aborted r) (heartbeat r) (written r ++ [Write chunk]).
Definition end_ (body : option bytes) (r : Res) : Res :=
  mkRes (headersSent r) true (clientGone r) (aborted r) (heartbeat r) (written r ++ [End body]).
Definition set_heartbeat (h : bool) (r : Res) : Res :=
  mkRes (headersSent r) (writableEnded r) (clientGone r) (aborted r) h (written r).

Definition LF : ascii := ascii_of_nat 10.
Definition BLANK : bytes := [LF; LF].

Definition event_wire (type : string) (data : json) : bytes :=
  bytes_of "event: " ++ bytes_of type ++ LF :: bytes_of "data: " ++ stringify data ++ BLANK.

Definition KEEPALIVE : bytes := bytes_of ": keepalive" ++ BLANK.

(** [arm] and [writeFrame] of the frame writer. *)
Definition arm (keepaliveMs : Z) (r : Res) : Res := if keepaliveMs <=? 0 then r else set_heartbeat true r.

Definition writeFrame (keepaliveMs : Z) (f : TurnStreamFrame) (r : Res) : Res :=
  let r := if headersSent r then r else writeHead 200 SSE_HEADERS r in
  arm keepaliveMs (write (event_wire (frame_type f) (frame_json f)) r).

(** The interval's callback, and [stop]. *)
Definition tick (r : Res) : Res :=
  if heartbeat r then if writableEnded r then r else write KEEPALIVE r else r.
Definition stop (r : Res) : Res := set_heartbeat false r.

(** The response's ['close']. *)
Definition on_close (r : Res) : Res :=
  if writableEnded r then r
  else mkRes (headersSent r) (writableEnded r) true true (heartbeat r) (written r).

Inductive stream_event := OnPi (e : pi_event) | Tick | Close.

Definition stream_step (cap keepaliveMs : Z) (r : Res) (e : stream_event) : Res :=
  match e with
  | OnPi e => match sseExtension cap e with Some f => writeFrame keepaliveMs f r | None => r end
  | Tick => tick r
  | Close => on_close r
  end.

Definition stream_error_json (sessionId : option json) (message : string) : json :=
  JObj [("type", JStr "error");
        ("sessionId", match sessionId with None | Some JNull => JStr "" | Some j => j end);
        ("stopReason", JStr "error"); ("errorMessage", JStr message)].

(** The reply to a failed turn, before anything was sent. *)
Definition error_reply (env : gmap string string) (e : turn_error) (sessionId : option json) (r : Res) : Res :=
  let status := turnErrorStatus e in
  end_ (Some (stringify (turn_error_body e sessionId))) (writeHead status (turnErrorHeaders env status) r).

(** The [finally] block. *)
Definition stream_finally (r : Res) : Res := let r := stop r in if writableEnded r then r else end_ None r.

(** [handleTurnStream], from the events during the turn and its outcome. *)
Definition handleTurnStream (env : gmap string string) (sessionId : option json)
    (events : list stream_event) (outcome : result turn_error TurnResult) : Res :=
  let cap := previewCap (env !! "SH_TURN_STREAM_TOOL_RESULT_PREVIEW_BYTES") None in
  let keepaliveMs := intEnv (env !! "SH_TURN_STREAM_KEEPALIVE_MS") 20000 in
  let r := foldl (stream_step cap keepaliveMs) res_init events in
  stream_finally
    match outcome with
    | Ok result =>
        if negb (clientGone r) && negb (writableEnded r) then writeFrame keepaliveMs (terminalFrame result) r else r
    | Throw err =>
        if headersSent r then
          if negb (clientGone r) && negb (writableEnded r)
          then write (event_wire "error" (stream_error_json sessionId (error_text err))) r else r
        else stop (error_reply env err sessionId r)
    end.

(** ** The reader *)

Record SseEvent := mkSse { se_event : string; se_data : string }.

Record SseParser := mkParser { buf : bytes; pendingCr : bool }.

Definition CR : ascii := ascii_of_nat 13.

(** [s.replace(/\r\n?/g, '\n')] *)
Fixpoint normalize (s : bytes) : bytes :=
  match s with
  | [] => []
  | c :: s' =>
      if bool_decide (c = CR) then
        LF :: match s' with
              | d :: s'' => if bool_decide (d = LF) then normalize s'' else normalize s'
              | [] => []
              end
      else c :: normalize s'
  end.

(** The fields of one block, line by line. *)
Fixpoint parse_lines (lines : list bytes) (event : bytes) (data : list bytes) : bytes * list bytes :=
  match lines with
  | [] => (event, data)
  | line :: rest =>
      if bool_decide (line = []) || starts_with (bytes_of ":") line then parse_lines rest event data
      else
        let colon := index_of (bytes_of ":") line in
        let field := match colon with Some i => take i line | None => line end in
        let value := match colon with Some i => drop (S i) line | None => [] end in
        let value := if starts_with (bytes_of " ") value then drop 1 value else value in
        if bool_decide (field = bytes_of "event") then parse_lines rest value data
        else if bool_decide (field = bytes_of "data") then parse_lines rest event (data ++ [value])
        else parse_lines rest event data
  end.

Definition parseBlock (block : bytes) : option SseEvent :=
  let '(event, data) := parse_lines (split_char LF block) (bytes_of "message") [] in
  match data with
  | [] => None
  | _ => Some (mkSse (string_of event) (string_of (join_char LF data)))
  end.

(** The loop of [push]: the blocks before each blank line, and what is left.  A block takes two
    characters at least, so the length of the buffer is enough fuel. *)
Fixpoint take_blocks (fuel : nat) (buf : bytes) : list bytes * bytes :=
  match fuel with
  | O => ([], buf)
  | S f => match index_of BLANK buf with
           | None => ([], buf)
           | Some idx => let '(bs, rest) := take_blocks f (drop (idx + 2) buf) in (take idx buf :: bs, rest)
           end
  end.

Definition push (chunk : bytes) (p : SseParser) : list SseEvent * SseParser :=
  let s := if pendingCr p then CR :: chunk else chunk in
  let pendingCr := bool_decide (last s = Some CR) in
  let s := if pendingCr then take (length s - 1) s else s in
  let buf := buf p ++ normalize s in
  let '(bs, rest) := take_blocks (length buf) buf in
  (omap parseBlock bs, mkParser rest pendingCr).

Definition flush (p : SseParser) : list SseEvent :=
  let rest := buf p ++ (if pendingCr p then [LF] else []) in
  match trim rest with [] => [] | _ => option_list (parseBlock rest) end.

Fixpoint pushes (chunks : list bytes) (p : SseParser) : list SseEvent * SseParser :=
  match chunks with
  | [] => ([], p)
  | c :: cs => let '(es, p') := push c p in let '(es', p'') := pushes cs p' in (es ++ es', p'')
  end.

(** [readSse], the body's chunks decoded. *)
Definition readSse (chunks : list bytes) : list SseEvent :=
  let '(es, p) := pushes chunks (mkParser [] false) in es ++ flush p.

(** What the client makes of an event: a frame it knows, as it came, or one it does not. *)
Inductive TurnFrame := Known (type : string) (data : json) | UnknownFrame (event : string) (data : json).

Definition KNOWN_FRAME_TYPES : list string := ["text"; "thinking"; "tool_use"; "tool_result"; "done"; "error"].

Definition toFrame (e : SseEvent) : TurnFrame :=
  match parse (bytes_of (se_data e)) with
  | None => UnknownFrame (se_event e) (JStr (se_data e))
  | Some data =>
      if bool_decide (se_event e ∈ KNOWN_FRAME_TYPES) && bool_decide (as_string (field "type" data) = Some (se_event e))
      then Known (se_event e) data
      else UnknownFrame (se_event e) data
  end.

Definition isTerminal (f : TurnFrame) : bool :=
  match f with Known t _ => bool_decide (t = "done" ∨ t = "error") | UnknownFrame _ _ => false end.

Inductive stream_end := Finished | StreamTruncated.

(** The frames [streamTurn] yields from a stream that is read to its end, and how it ends. *)
Fixpoint stream_frames (events : list SseEvent) : list TurnFrame * stream_end :=
  match events with
  | [] => ([], StreamTruncated)
  | e :: rest =>
      let frame := toFrame e in
      if isTerminal frame then ([frame], Finished)
      else let '(fs, o) := stream_frames rest in (frame :: fs, o)
  end.

(** ** Reading is independent of the chunks *)

Lemma normalize_app a b :
  ¬ (last a = Some CR ∧ head b = Some LF) → normalize (a ++ b) = normalize a ++ normalize b.
Proof.
  remember (length a) as n eqn:Hn. revert a Hn. induction (lt_wf n) as [n _ IH]. intros a -> Hab.
  destruct a as [|c [|d a]]; [done| |].
  - cbn [app normalize]. case_bool_decide as Hc; [|done]. subst c. destruct b as [|e b]; [done|].
    rewrite bool_decide_eq_false_2; [done|]. intros ->. by apply Hab.
  - assert (H1 : normalize ((d :: a) ++ b) = normalize (d :: a) ++ normalize b).
    { apply (IH (length (d :: a))); [simpl; lia|done|]. intros [Hl Hh]. apply Hab. by rewrite last_cons_cons. }
    cbn [app] in *. change (normalize (c :: d :: a ++ b)) with
      (if bool_decide (c = CR) then LF :: (if bool_decide (d = LF) then normalize (a ++ b) else normalize (d :: a ++ b))
       else c :: normalize (d :: a ++ b)).
    change (normalize (c :: d :: a)) with
      (if bool_decide (c = CR) then LF :: (if bool_decide (d = LF) then normalize a else normalize (d :: a))
       else c :: normalize (d :: a)).
    case_bool_decide; [|by rewrite H1]. case_bool_decide as Hd; [|by rewrite H1].
    rewrite (IH (length a)); [done|simpl; lia|done|].
    intros [Hl Hh]. apply Hab. split; [|done]. rewrite last_cons_cons, last_cons. by rewrite Hl.
Qed.

Lemma take_blocks_S f s : (length s ≤ f)%nat → take_blocks f s = take_blocks (S f) s.
Proof.
  revert s. induction f as [|f IH]; intros s Hf.
  - by destruct s; [|simpl in Hf; lia].
  - cbn [take_blocks]. destruct (index_of BLANK s) as [i|] eqn:E; [|done].
    apply index_of_Some in E as (Hlen & _). simpl in Hlen. rewrite IH; [done|]. rewrite length_drop. lia.
Qed.

Lemma take_blocks_fuel f s : (length s ≤ f)%nat → take_blocks f s = take_blocks (length s) s.
Proof.
  intros Hf. replace f with (f - length s + length s)%nat by lia. induction (f - length s)%nat as [|k IH]; [done|].
  rewrite <-IH. symmetry. apply take_blocks_S. lia.
Qed.

(** The blocks of a buffer and what is left. *)
Definition blocks_of (s : bytes) : list bytes * bytes := take_blocks (length s) s.

Lemma blocks_of_eq s :
  blocks_of s = match index_of BLANK s with
                | None => ([], s)
                | Some i => let '(bs, rest) := blocks_of (drop (i + 2) s) in (take i s :: bs, rest)
                end.
Proof.
  unfold blocks_of at 1. rewrite take_blocks_S by done. cbn [take_blocks].
  destruct (index_of BLANK s) as [i|] eqn:E; [|done].
  rewrite take_blocks_fuel; [done|]. rewrite length_drop. lia.
Qed.

Lemma blocks_of_app s t :
  blocks_of (s ++ t) =
  let '(bs, rest) := blocks_of s in let '(bs', rest') := blocks_of (rest ++ t) in (bs ++ bs', rest').
Proof.
  remember (length s) as n eqn:Hn. revert s Hn. induction (lt_wf n) as [n _ IH]. intros s ->.
  rewrite (blocks_of_eq s). destruct (index_of BLANK s) as [i|] eqn:E; [|by destruct (blocks_of (s ++ t))].
  rewrite blocks_of_eq, (index_of_app _ _ _ _ E). apply index_of_Some in E as (Hlen & _). simpl in Hlen.
  rewrite drop_app_le, take_app_le by lia.
  rewrite (IH (length (drop (i + 2) s))); [|rewrite length_drop; lia|done].
  destruct (blocks_of (drop (i + 2) s)) as [bs rest]. by destruct (blocks_of (rest ++ t)) as [bs' rest'].
Qed.

Lemma push_eq chunk p :
  push chunk p =
  let s := if pendingCr p then CR :: chunk else chunk in
  let cr := bool_decide (last s = Some CR) in
  let '(bs, rest) := blocks_of (buf p ++ normalize (if cr then take (length s - 1) s else s)) in
  (omap parseBlock bs, mkParser rest cr).
Proof. done. Qed.

(** The text of [s] that is processed now, and the carriage return that is held back. *)
Lemma held_back (s : bytes) :
  let cr := bool_decide (last s = Some CR) in
  s = (if cr then take (length s - 1) s else s) ++ (if cr then [CR] else []).
Proof.
  intros cr. subst cr. case_bool_decide as E; [|by rewrite app_nil_r].
  apply last_Some in E as [l ->]. rewrite length_app. simpl. by rewrite Nat.add_sub, take_app_length.
Qed.

Lemma held_unique (t u : bytes) :
  let cr := bool_decide (last u = Some CR) in
  (u = [] → last t ≠ Some CR) →
  bool_decide (last (t ++ u) = Some CR) = cr
  ∧ (if cr then take (length (t ++ u) - 1) (t ++ u) else t ++ u) = t ++ (if cr then take (length u - 1) u else u).
Proof.
  intros cr Hu. assert (Hl : bool_decide (last (t ++ u) = Some CR) = cr).
  { unfold cr. destruct u as [|x u]; [by rewrite app_nil_r, (bool_decide_eq_false_2 (last t = _)) by auto|].
    by rewrite last_app; destruct (last (x :: u)) eqn:E; [|by apply last_None in E]. }
  split; [done|]. unfold cr in *. clear Hl.
  destruct (bool_decide (last u = Some CR)) eqn:E; [apply bool_decide_eq_true in E|done].
  assert (u ≠ []) by (by intros ->). rewrite length_app, take_app_ge by (destruct u; simpl in *; [done|lia]).
  f_equal. f_equal. destruct u; simpl in *; [done|lia].
Qed.

Lemma push_push a b p :
  (let '(es1, p1) := push a p in let '(es2, p2) := push b p1 in (es1 ++ es2, p2)) = push (a ++ b) p.
Proof.
  rewrite (push_eq a p). cbn zeta. set (s1 := if pendingCr p then CR :: a else a).
  assert (Hs : (if pendingCr p then CR :: a ++ b else a ++ b) = s1 ++ b) by (unfold s1; by destruct (pendingCr p)).
  rewrite (push_eq (a ++ b) p). cbn zeta. rewrite Hs.
  pose proof (held_back s1) as Hb. cbn zeta in Hb.
  set (c1 := bool_decide (last s1 = Some CR)) in *. set (t1 := if c1 then take (length s1 - 1) s1 else s1) in *.
  destruct (blocks_of (buf p ++ normalize t1)) as [bs1 rest1] eqn:E1. rewrite push_eq. cbn zeta. cbn [buf pendingCr].
  set (s2 := if c1 then CR :: b else b). assert (Hs2 : s1 ++ b = t1 ++ s2).
  { rewrite Hb, <-app_assoc. f_equal. unfold s2. by destruct c1. }
  assert (Hempty : s2 = [] → last t1 ≠ Some CR).
  { unfold s2, t1. destruct c1 eqn:Ec; [done|]. intros _. unfold c1 in Ec. by apply bool_decide_eq_false in Ec. }
  rewrite Hs2. destruct (held_unique t1 s2 Hempty) as [-> ->].
  set (c2 := bool_decide (last s2 = Some CR)). set (u := if c2 then take (length s2 - 1) s2 else s2).
  rewrite normalize_app, (app_assoc (buf p)), (blocks_of_app (buf p ++ normalize t1)), E1.
  - destruct (blocks_of (rest1 ++ normalize u)) as [bs2 rest2]. by rewrite omap_app.
  - intros [Hl Hh]. unfold u, s2, t1 in *. destruct c1 eqn:Ec.
    + destruct c2; [|by injection Hh]. destruct b as [|x b]; [done|by injection Hh].
    + apply bool_decide_eq_false in Ec. done.
Qed.

Lemma pushes_push chunks p : chunks ≠ [] → pushes chunks p = push (concat chunks) p.
Proof.
  revert p. induction chunks as [|c cs IH]; intros p Hne; [done|]. cbn [pushes concat].
  destruct cs as [|c2 cs].
  - rewrite app_nil_r. destruct (push c p) as [es p1]. simpl. by rewrite app_nil_r.
  - rewrite <-push_push. destruct (push c p) as [es1 p1]. rewrite IH by done. done.
Qed.

(** However the body is cut into chunks, the reader yields the same events. *)
Lemma readSse_chunks chunks : readSse chunks = readSse [concat chunks].
Proof.
  unfold readSse. destruct chunks as [|c cs]; [done|]. rewrite pushes_push by done.
  rewrite (pushes_push [concat (c :: cs)]) by done. simpl. by rewrite app_nil_r.
Qed.

(** ** What is on the wire *)

(** The pieces of a stream: a frame, or a comment that keeps the connection open. *)
Inductive piece := PFrame (type : string) (data : json) | PKeepalive.

Definition piece_wire (x : piece) : bytes :=
  match x with PFrame t d => event_wire t d | PKeepalive => KEEPALIVE end.

Definition piece_frame (x : piece) : option (string * json) :=
  match x with PFrame t d => Some (t, d) | PKeepalive => None end.

(** Printed JSON has no control characters, so neither line breaks. *)
Definition plain_text (s : bytes) : Prop := Forall (fun c => 32 ≤ nat_of_ascii c)%nat s.

Lemma plain_app s t : plain_text s → plain_text t → plain_text (s ++ t).
Proof. apply Forall_app_2. Qed.

Lemma escape_plain c : plain_text (escape_char c).
Proof. destruct c as [[] [] [] [] [] [] [] []]; repeat constructor; vm_compute; lia. Qed.

Lemma print_string_plain s : plain_text (print_string s).
Proof.
  unfold print_string. constructor; [vm_compute; lia|]. apply plain_app; [|repeat constructor; vm_compute; lia].
  induction (bytes_of s) as [|c l IH]; [constructor|]. rewrite bind_cons. by apply plain_app; [apply escape_plain|].
Qed.

Lemma dec_fuel_plain_text f n : 0 ≤ n → plain_text (dec_fuel f n).
Proof.
  revert n. induction f as [|f IH]; intros n Hn; [constructor|]. cbn [dec_fuel].
  assert (Hd : ∀ v, 0 ≤ v < 10 → plain_text [digit_char v]).
  { intros v Hv. by apply (digit_cases (fun v => plain_text [digit_char v]) v Hv); repeat constructor; vm_compute; lia. }
  destruct (Z.ltb_spec n 10); [apply Hd; lia|]. apply plain_app; [apply IH, Z.div_pos; lia|].
  apply Hd, Z.mod_pos_bound. lia.
Qed.

Lemma dec_signed_plain n : plain_text (dec_signed n).
Proof.
  unfold dec_signed. destruct (Z.ltb_spec n 0); [constructor; [vm_compute; lia|]|]; apply dec_fuel_plain_text; lia.
Qed.

Lemma commas_plain l : Forall plain_text l → plain_text (commas l).
Proof.
  induction 1 as [|x l Hx Hl IH]; [constructor|]. destruct l; [done|]. cbn [commas].
  apply plain_app; [done|]. constructor; [vm_compute; lia|done].
Qed.

Lemma stringify_plain j : plain_text (stringify j).
Proof.
  induction j as [|b|q|s|l IH|fs IH] using json_ind'; simpl.
  - repeat constructor; vm_compute; lia.
  - destruct b; repeat constructor; vm_compute; lia.
  - destruct (integer_of q); [apply dec_signed_plain|]. repeat constructor; vm_compute; lia.
  - apply print_string_plain.
  - constructor; [vm_compute; lia|]. apply plain_app; [|repeat constructor; vm_compute; lia].
    apply commas_plain. by apply Forall_map.
  - constructor; [vm_compute; lia|]. apply plain_app; [|repeat constructor; vm_compute; lia].
    apply commas_plain, Forall_map. eapply Forall_impl; [exact IH|]. intros f Hf.
    apply (plain_app (print_string f.1)); [apply print_string_plain|]. constructor; [vm_compute; lia|done].
Qed.

Lemma plain_not_in c s : plain_text s → (nat_of_ascii c < 32)%nat → c ∉ s.
Proof. unfold plain_text. rewrite Forall_forall. intros Hs Hc Hin%Hs. lia. Qed.

(** A block that is not cut by a blank line. *)
Fixpoint whole_block (b : bytes) : bool :=
  match b with
  | [] => true
  | c :: b' => (if bool_decide (c = LF) then match b' with d :: _ => negb (bool_decide (d = LF)) | [] => false end
                else true) && whole_block b'
  end.

Lemma whole_block_plain s : LF ∉ s → whole_block s = true.
Proof.
  induction s as [|c s IH]; intros Hs; [done|]. cbn [whole_block].
  rewrite bool_decide_eq_false_2 by set_solver. apply IH. set_solver.
Qed.

Lemma whole_block_line a b : LF ∉ a → LF ∉ b → b ≠ [] → whole_block (a ++ LF :: b) = true.
Proof.
  induction a as [|c a IH]; intros Ha Hb Hne.
  - cbn [app whole_block]. rewrite bool_decide_eq_true_2 by done. destruct b as [|d b]; [done|].
    rewrite bool_decide_eq_false_2 by set_solver. by apply whole_block_plain.
  - cbn [app whole_block]. rewrite bool_decide_eq_false_2 by set_solver. apply IH; set_solver.
Qed.

Lemma whole_block_index b r : whole_block b = true → index_of BLANK (b ++ BLANK ++ r) = Some (length b).
Proof.
  induction b as [|c b IH]; intros Hb; [done|]. cbn [whole_block] in Hb. apply andb_prop in Hb as [Hc Hb].
  rewrite <-app_comm_cons. cbn [index_of length].
  assert (starts_with BLANK (c :: b ++ BLANK ++ r) = false) as ->.
  { unfold BLANK. cbn [starts_with]. destruct (decide (c = LF)) as [->|Hne]; [|by rewrite bool_decide_eq_false_2].
    rewrite (bool_decide_eq_true_2 (LF = LF)) in Hc by done. destruct b as [|d b]; [done|]. to_prop.
    cbn [app starts_with]. by rewrite (bool_decide_eq_false_2 (LF = d)), andb_false_r by congruence. }
  by rewrite IH.
Qed.

Lemma blocks_of_whole b r :
  whole_block b = true → blocks_of (b ++ BLANK ++ r) = let '(bs, rest) := blocks_of r in (b :: bs, rest).
Proof.
  intros Hb. rewrite blocks_of_eq, whole_block_index, take_app_length by done.
  by rewrite drop_app_ge, (Nat.add_comm (length b)), Nat.add_sub by lia.
Qed.

Lemma blocks_of_wholes (bs : list bytes) :
  Forall (fun b => whole_block b = true) bs → blocks_of (concat ((fun b => b ++ BLANK) <$> bs)) = (bs, []).
Proof.
  induction 1 as [|b bs Hb _ IH]; [done|]. rewrite fmap_cons; cbn [concat]. rewrite <-app_assoc.
  rewrite blocks_of_whole by done. by rewrite IH.
Qed.

Definition piece_block (x : piece) : bytes :=
  match x with
  | PFrame t d => (bytes_of "event: " ++ bytes_of t) ++ LF :: bytes_of "data: " ++ stringify d
  | PKeepalive => bytes_of ": keepalive"
  end.

Lemma piece_wire_block x : piece_wire x = piece_block x ++ BLANK.
Proof. destruct x as [t d|]; [|done]. unfold piece_wire, event_wire, piece_block. by rewrite <-!app_assoc, <-app_comm_cons, <-app_assoc. Qed.

(** The names of the frames are printable. *)
Definition piece_ok (x : piece) : Prop :=
  match x with
  | PFrame t d => t ∈ KNOWN_FRAME_TYPES ∧ field "type" d = Some (JStr t) ∧ serialisable d = true
  | PKeepalive => True
  end.

Lemma known_plain t : t ∈ KNOWN_FRAME_TYPES → plain_text (bytes_of t).
Proof.
  unfold KNOWN_FRAME_TYPES. intros Ht.
  repeat (apply elem_of_cons in Ht as [->|Ht]; [repeat constructor; vm_compute; lia|]).
  by apply elem_of_nil in Ht.
Qed.

Lemma frame_lines t d :
  t ∈ KNOWN_FRAME_TYPES →
  plain_text (bytes_of "event: " ++ bytes_of t) ∧ plain_text (bytes_of "data: " ++ stringify d).
Proof.
  intros Ht. split; (apply plain_app; [repeat constructor; vm_compute; lia|]);
    [by apply known_plain|apply stringify_plain].
Qed.

Lemma piece_whole x : piece_ok x → whole_block (piece_block x) = true.
Proof.
  destruct x as [t d|]; [|done]. intros (Ht & _ & _). destruct (frame_lines t d Ht) as [H1 H2].
  apply whole_block_line; [by apply plain_not_in; [|vm_compute; lia]..|]. by intros [=].
Qed.

Lemma piece_no_cr x : piece_ok x → CR ∉ piece_wire x.
Proof.
  rewrite piece_wire_block. destruct x as [t d|]; intros Hok.
  - destruct Hok as (Ht & _ & _). destruct (frame_lines t d Ht) as [H1 H2].
    assert (CR ≠ LF) by (intros [=]).
    pose proof (plain_not_in CR _ H1 ltac:(vm_compute; lia)). pose proof (plain_not_in CR _ H2 ltac:(vm_compute; lia)).
    unfold piece_block, BLANK. intros Hin. apply elem_of_app in Hin as [Hin|Hin].
    + apply elem_of_app in Hin as [Hin|Hin]; [done|]. by apply elem_of_cons in Hin as [?|?].
    + do 2 (apply elem_of_cons in Hin as [?|Hin]; [done|]). by apply elem_of_nil in Hin.
  - refine (bool_decide_eq_false_1 _ _). by vm_compute.
Qed.

Lemma field_line name v (event : bytes) data rest :
  index_of (bytes_of ":") (name ++ bytes_of ": " ++ v) = Some (length name) → name ≠ [] → head name ≠ Some ":"%char →
  parse_lines ((name ++ bytes_of ": " ++ v) :: rest) event data =
  if bool_decide (name = bytes_of "event") then parse_lines rest v data
  else if bool_decide (name = bytes_of "data") then parse_lines rest event (data ++ [v])
  else parse_lines rest event data.
Proof.
  intros Hi Hne Hh. cbn [parse_lines]. rewrite Hi, take_app_length.
  assert (bool_decide (name ++ bytes_of ": " ++ v = []) = false) as -> by (apply bool_decide_eq_false; by destruct name).
  assert (starts_with (bytes_of ":") (name ++ bytes_of ": " ++ v) = false) as ->.
  { destruct name as [|c name]; [done|]. simpl. rewrite bool_decide_eq_false_2; [done|]. intros <-. by apply Hh. }
  replace (drop (S (length name)) (name ++ bytes_of ": " ++ v)) with (" "%char :: v).
  2:{ rewrite drop_app_ge by lia. by replace (S (length name) - length name)%nat with 1%nat by lia. }
  done.
Qed.

Lemma parseBlock_frame t d :
  t ∈ KNOWN_FRAME_TYPES → parseBlock (piece_block (PFrame t d)) = Some (mkSse t (string_of (stringify d))).
Proof.
  intros Ht. destruct (frame_lines t d Ht) as [H1 H2]. unfold parseBlock, piece_block.
  rewrite split_char_app by (by apply plain_not_in; [|vm_compute; lia]).
  rewrite split_char_none by (by apply plain_not_in; [|vm_compute; lia]).
  change (bytes_of "event: " ++ bytes_of t) with (bytes_of "event" ++ bytes_of ": " ++ bytes_of t).
  change (bytes_of "data: " ++ stringify d) with (bytes_of "data" ++ bytes_of ": " ++ stringify d).
  rewrite field_line by done. rewrite bool_decide_eq_true_2 by done.
  rewrite field_line by done. rewrite bool_decide_eq_false_2 by done. rewrite bool_decide_eq_true_2 by done.
  simpl. by rewrite string_of_bytes.
Qed.

Lemma normalize_id s : CR ∉ s → normalize s = s.
Proof.
  induction s as [|c s IH]; intros Hs; [done|]. cbn [normalize].
  rewrite bool_decide_eq_false_2 by set_solver. rewrite IH by set_solver. done.
Qed.

(** The events the reader yields for a stream are its frames, in order. *)
Lemma readSse_pieces pieces :
  Forall piece_ok pieces →
  readSse [concat (piece_wire <$> pieces)] =
  (fun x : string * json => mkSse x.1 (string_of (stringify x.2))) <$> omap piece_frame pieces.
Proof.
  intros Hok. unfold readSse. cbn [pushes]. rewrite push_eq. cbn zeta. cbn [pendingCr buf app].
  assert (Hcr : CR ∉ concat (piece_wire <$> pieces)).
  { intros (w & Hin%list_elem_of_In & Hw%list_elem_of_In)%list_elem_of_In%in_concat.
    apply list_elem_of_fmap in Hin as (x & -> & Hx).
    rewrite Forall_forall in Hok. by eapply piece_no_cr; [apply Hok|]. }
  rewrite bool_decide_eq_false_2.
  2:{ intros (l & El)%last_Some. apply Hcr. rewrite El. set_solver. }
  rewrite normalize_id by done.
  assert (concat (piece_wire <$> pieces) = concat ((fun b => b ++ BLANK) <$> (piece_block <$> pieces))) as ->.
  { rewrite <-list_fmap_compose. f_equal. apply list_fmap_ext. intros i x _. apply piece_wire_block. }
  rewrite blocks_of_wholes.
  - rewrite !app_nil_r. cbn [flush buf pendingCr]. simpl. rewrite ?app_nil_r.
    induction Hok as [|x pieces Hx _ IH]; [done|]. cbn [fmap list_fmap omap list_omap].
    destruct x as [t d|]; cbn [piece_frame].
    + destruct Hx as (Ht & _ & _). rewrite parseBlock_frame by done. cbn [fmap list_fmap]. f_equal. apply IH.
      intros Hin. apply Hcr. rewrite fmap_cons; cbn [concat]. set_solver.
    + change (parseBlock (piece_block PKeepalive)) with (@None SseEvent). apply IH.
      intros Hin. apply Hcr. rewrite fmap_cons; cbn [concat]. set_solver.
  - apply Forall_fmap. eapply Forall_impl; [exact Hok|]. apply piece_whole.
Qed.

Lemma toFrame_piece t d : piece_ok (PFrame t d) → toFrame (mkSse t (string_of (stringify d))) = Known t d.
Proof.
  intros (Ht & Hf & Hs). unfold toFrame. cbn [se_event se_data]. rewrite bytes_string, parse_stringify by done.
  rewrite Hf. rewrite !bool_decide_eq_true_2 by done. done.
Qed.

(** ** What the server sends *)

(** The frames of the agent's events, and whether the client left. *)
Definition progress (cap : Z) (events : list stream_event) : list TurnStreamFrame :=
  omap (fun e => match e with OnPi e => sseExtension cap e | _ => None end) events.

Definition disconnected (events : list stream_event) : bool :=
  existsb (fun e => match e with Close => true | _ => false end) events.

Definition frame_data (f : TurnStreamFrame) : string * json := (frame_type f, frame_json f).

Definition stream_cap (env : gmap string string) : Z :=
  previewCap (env !! "SH_TURN_STREAM_TOOL_RESULT_PREVIEW_BYTES") None.

Record streaming (cap : Z) (events : list stream_event) (r : Res) (ps : list piece) : Prop := {
  st_written : written r = (if headersSent r then [Head 200 SSE_HEADERS] else []) ++ ((Write ∘ piece_wire) <$> ps);
  st_head : headersSent r = match progress cap events with [] => false | _ => true end;
  st_silent : headersSent r = false → ps = [] ∧ heartbeat r = false;
  st_open : writableEnded r = false;
  st_gone : clientGone r = disconnected events ∧ aborted r = disconnected events;
  st_frames : omap piece_frame ps = frame_data <$> progress cap events;
}.

Lemma streaming_init cap : streaming cap [] res_init [].
Proof. by split. Qed.

Lemma progress_app cap a b : progress cap (a ++ b) = progress cap a ++ progress cap b.
Proof. apply omap_app. Qed.

Lemma disconnected_app a b : disconnected (a ++ b) = disconnected a || disconnected b.
Proof. apply existsb_app. Qed.

Lemma writeFrame_written keep f r ps :
  written r = (if headersSent r then [Head 200 SSE_HEADERS] else []) ++ ((Write ∘ piece_wire) <$> ps) →
  (headersSent r = false → ps = []) →
  headersSent (writeFrame keep f r) = true
  ∧ written (writeFrame keep f r) =
    [Head 200 SSE_HEADERS] ++ ((Write ∘ piece_wire) <$> ps ++ [PFrame (frame_type f) (frame_json f)])
  ∧ writableEnded (writeFrame keep f r) = writableEnded r
  ∧ clientGone (writeFrame keep f r) = clientGone r ∧ aborted (writeFrame keep f r) = aborted r.
Proof.
  intros Hw Hs. unfold writeFrame, arm. rewrite fmap_app, app_assoc.
  destruct (headersSent r) eqn:E; destruct (keep <=? 0); simpl; rewrite Hw; split_and!; try done.
  all: by rewrite (Hs eq_refl).
Qed.

Lemma streaming_step cap keep events r ps e :
  streaming cap events r ps → ∃ ps', streaming cap (events ++ [e]) (stream_step cap keep r e) ps'.
Proof.
  intros [Hw Hh Hs Ho [Hg Ha] Hf].
  assert (Hd : disconnected (events ++ [e]) = match e with Close => true | _ => disconnected events end).
  { rewrite disconnected_app. destruct e; simpl; by rewrite ?orb_false_r, ?orb_true_r. }
  destruct e as [e| |]; cbn [stream_step]; cbn iota in Hd.
  - assert (Hp : progress cap (events ++ [OnPi e]) = progress cap events ++ option_list (sseExtension cap e)).
    { by rewrite progress_app. }
    destruct (sseExtension cap e) as [f|] eqn:E.
    + destruct (writeFrame_written keep f r ps Hw (fun H => proj1 (Hs H))) as (H1 & H2 & H3 & H4 & H5).
      exists (ps ++ [PFrame (frame_type f) (frame_json f)]).
      split; rewrite ?H1, ?H2, ?H3, ?H4, ?H5, ?Hd, ?Hp; try done.
      * by destruct (progress cap events).
      * rewrite omap_app, fmap_app, Hf. done.
    + exists ps. split; rewrite ?Hd, ?Hp, ?app_nil_r; done.
  - unfold tick. assert (Hp : progress cap (events ++ [Tick]) = progress cap events).
    { by rewrite progress_app, app_nil_r. }
    destruct (heartbeat r) eqn:Eh; [|exists ps; split; rewrite ?Hd, ?Hp; naive_solver].
    rewrite Ho. exists (ps ++ [PKeepalive]). destruct (headersSent r) eqn:E; [|by destruct (Hs eq_refl)].
    split; simpl; rewrite ?Hd, ?Hp, ?E; try done.
    + rewrite Hw, fmap_app. done.
    + rewrite omap_app, Hf. simpl. by rewrite app_nil_r.
  - unfold on_close. rewrite Ho. assert (Hp : progress cap (events ++ [Close]) = progress cap events).
    { by rewrite progress_app, app_nil_r. }
    exists ps. split; simpl; rewrite ?Hd, ?Hp; done.
Qed.

Lemma streaming_run cap keep events : ∃ ps, streaming cap events (foldl (stream_step cap keep) res_init events) ps.
Proof.
  induction events as [|e events [ps IH]] using rev_ind; [exists []; apply streaming_init|].
  rewrite foldl_app. simpl. by eapply streaming_step.
Qed.

(** The frame a turn ends with. *)
Definition last_frame (sessionId : option json) (outcome : result turn_error TurnResult) : string * json :=
  match outcome with
  | Ok result => frame_data (terminalFrame result)
  | Throw err => ("error", stream_error_json sessionId (error_text err))
  end.

Definition all_frames (cap : Z) (sessionId : option json) (events : list stream_event)
    (outcome : result turn_error TurnResult) : list (string * json) :=
  (frame_data <$> progress cap events) ++ (if disconnected events then [] else [last_frame sessionId outcome]).

Definition failed_early (cap : Z) (events : list stream_event) (outcome : result turn_error TurnResult) : option turn_error :=
  match progress cap events, outcome with [], Throw err => Some err | _, _ => None end.

Lemma transcript env sid events outcome :
  let r := handleTurnStream env sid events outcome in
  heartbeat r = false ∧ writableEnded r = true ∧ aborted r = disconnected events
  ∧ match failed_early (stream_cap env) events outcome with
    | Some err => written r = written (error_reply env err sid res_init)
    | None => ∃ ps, omap piece_frame ps = all_frames (stream_cap env) sid events outcome
        ∧ written r = match all_frames (stream_cap env) sid events outcome with
                      | [] => [End None]
                      | _ => Head 200 SSE_HEADERS :: ((Write ∘ piece_wire) <$> ps) ++ [End None]
                      end
    end.
Proof.
  cbv zeta. unfold handleTurnStream. fold (stream_cap env). cbn zeta.
  set (keep := intEnv _ 20000). set (cap := stream_cap env).
  destruct (streaming_run cap keep events) as [ps [Hw Hh Hs Ho [Hg Ha] Hf]].
  set (r := foldl _ _ _) in *. rewrite Hg, Ho, andb_true_r.
  unfold failed_early, all_frames. destruct outcome as [result|err].
  - assert (E : match progress cap events with [] => None | _ => None end = @None turn_error)
      by by destruct (progress cap events).
    rewrite E. clear E. destruct (disconnected events) eqn:Ed; cbn [negb].
    + unfold stream_finally, stop. simpl. rewrite Ho. simpl. rewrite Ha, app_nil_r. split_and!; [done..|].
      exists ps. split; [done|]. rewrite Hw, Hh. destruct (progress cap events) as [|f fs]; [|done].
      by destruct (Hs ltac:(by rewrite Hh)) as [-> _].
    + destruct (writeFrame_written keep (terminalFrame result) r ps Hw (fun H => proj1 (Hs H))) as (H1 & H2 & H3 & H4 & H5).
      unfold stream_finally, stop. simpl. rewrite H3, Ho. simpl. rewrite H2, H5, Ha.
      split_and!; [done..|]. exists (ps ++ [PFrame (frame_type (terminalFrame result)) (frame_json (terminalFrame result))]).
      rewrite omap_app, Hf. split; [done|]. by destruct (progress cap events).
  - rewrite Hh. destruct (progress cap events) as [|f fs] eqn:Ep.
    + destruct (Hs ltac:(by rewrite Hh)) as [-> _]. unfold stream_finally, stop, error_reply. simpl.
      rewrite Ha, Hw, Hh. done.
    + rewrite Hh in Hw. destruct (disconnected events) eqn:Ed; cbn [negb]; unfold stream_finally, stop; simpl; rewrite Ho; simpl;
        rewrite Ha, Hw.
      * split_and!; [done..|]. exists ps. by rewrite app_nil_r.
      * split_and!; [done..|]. exists (ps ++ [PFrame "error" (stream_error_json sid (error_text err))]).
        rewrite omap_app, Hf. split; [done|]. rewrite fmap_app. simpl. by rewrite <-app_assoc.
Qed.

(** ** Theorems *)

(** Whatever the agent does, however its events, the heartbeat and a disconnection
    interleave, and however the turn ends: the response has one head, is ended exactly once and
    last, and leaves no timer; the turn is aborted exactly when the client left early.  A turn
    that fails before its first frame is answered with the very status, headers and body of the
    plain route; any other sends the agent's frames in order, then exactly one terminal frame,
    which only a client that left is spared. *)
Theorem stream_transcript env sid events outcome :
  let r := handleTurnStream env sid events outcome in
  heartbeat r = false ∧ writableEnded r = true ∧ aborted r = disconnected events
  ∧ match failed_early (stream_cap env) events outcome with
    | Some err => written r = [Head (turnErrorStatus err) (turnErrorHeaders env (turnErrorStatus err));
                               End (Some (stringify (turn_error_body err sid)))]
    | None => ∃ ps, omap piece_frame ps = all_frames (stream_cap env) sid events outcome
        ∧ written r = match all_frames (stream_cap env) sid events outcome with
                      | [] => [End None]
                      | _ => Head 200 SSE_HEADERS :: ((Write ∘ piece_wire) <$> ps) ++ [End None]
                      end
    end.
Proof. apply transcript. Qed.

(** The body of a response. *)
Definition body_of (out : list res_out) : bytes :=
  concat (omap (fun o => match o with Head _ _ => None | Write c => Some c | End b => b end) out).

Lemma body_of_stream ps : body_of (Head 200 SSE_HEADERS :: ((Write ∘ piece_wire) <$> ps) ++ [End None]) = concat (piece_wire <$> ps).
Proof.
  unfold body_of. cbn [omap list_omap]. rewrite omap_app. cbn [omap list_omap]. rewrite app_nil_r. f_equal.
  induction ps as [|x ps IH]; [done|]. rewrite !fmap_cons. cbn [omap list_omap]. by f_equal.
Qed.

Lemma sse_incremental cap e f : sseExtension cap e = Some f → isTerminal (Known (frame_type f) (frame_json f)) = false.
Proof. destruct e; simpl; repeat case_match; intros [= <-]; by vm_compute. Qed.

Lemma progress_incremental cap events :
  Forall (fun f => isTerminal (Known (frame_type f) (frame_json f)) = false) (progress cap events).
Proof.
  apply Forall_forall. intros f (e & _ & He)%list_elem_of_omap. destruct e; try done. by eapply sse_incremental.
Qed.

Lemma frame_known f : frame_type f ∈ KNOWN_FRAME_TYPES ∧ field "type" (frame_json f) = Some (JStr (frame_type f)).
Proof. split; [|by destruct f]. refine (bool_decide_eq_true_1 _ _). by destruct f; vm_compute. Qed.

Lemma last_frame_known sid outcome :
  (last_frame sid outcome).1 ∈ KNOWN_FRAME_TYPES
  ∧ field "type" (last_frame sid outcome).2 = Some (JStr (last_frame sid outcome).1)
  ∧ isTerminal (Known (last_frame sid outcome).1 (last_frame sid outcome).2) = true.
Proof.
  destruct outcome as [result|err]; cbn [last_frame].
  - destruct (frame_known (terminalFrame result)) as [H1 H2]. split_and!; [done..|].
    unfold terminalFrame. by case_bool_decide.
  - split_and!; [|done..]. refine (bool_decide_eq_true_1 _ _). by vm_compute.
Qed.

Lemma stream_frames_all (fs : list (string * json)) (l : string * json) :
  Forall (fun x => piece_ok (PFrame x.1 x.2)) (fs ++ [l]) →
  Forall (fun x => isTerminal (Known x.1 x.2) = false) fs → isTerminal (Known l.1 l.2) = true →
  stream_frames ((fun x : string * json => mkSse x.1 (string_of (stringify x.2))) <$> fs ++ [l]) =
  ((fun x => Known x.1 x.2) <$> fs ++ [l], Finished).
Proof.
  intros Hok Hinc Hterm. induction Hinc as [|x fs Hx _ IH].
  - rewrite app_nil_l, Forall_singleton in Hok. destruct l as [t d]. cbn [app fmap list_fmap stream_frames fst snd] in *.
    rewrite (toFrame_piece t d Hok). by rewrite Hterm.
  - destruct x as [t d]. rewrite <-app_comm_cons in *. apply Forall_cons in Hok as [Hxok Hok].
    rewrite !fmap_cons. cbn [stream_frames fst snd] in *. rewrite (toFrame_piece t d Hxok). by rewrite Hx, IH by done.
Qed.

Lemma pieces_ok ps (fs : list (string * json)) :
  omap piece_frame ps = fs → Forall (fun x => piece_ok (PFrame x.1 x.2)) fs → Forall piece_ok ps.
Proof.
  revert fs. induction ps as [|x ps IH]; intros fs Hfs Hok; [constructor|]. destruct x as [t d|]; simpl in Hfs; subst.
  - apply Forall_cons in Hok as [? Hok]. constructor; [done|]. by eapply IH.
  - constructor; [done|]. by eapply IH.
Qed.

(** C18. End to end, a streamed turn reaches its caller: whatever the server sent to a client that
    stayed, cut into chunks in any way, with heartbeats anywhere, the client's reader yields
    exactly the agent's frames in their order and then the turn's terminal frame, with every
    field, and finishes; it never reports a truncated stream. *)
Theorem streamed_turn_reaches_client env sid events outcome chunks :
  disconnected events = false → failed_early (stream_cap env) events outcome = None →
  Forall (fun x => serialisable x.2 = true) (all_frames (stream_cap env) sid events outcome) →
  concat chunks = body_of (written (handleTurnStream env sid events outcome)) →
  stream_frames (readSse chunks) =
  ((fun x => Known x.1 x.2) <$> (frame_data <$> progress (stream_cap env) events) ++ [last_frame sid outcome], Finished).
Proof.
  intros Hd Hearly Hser Hchunks. pose proof (transcript env sid events outcome) as (_ & _ & _ & Ht).
  rewrite Hearly in Ht. destruct Ht as (ps & Hps & Hw). unfold all_frames in *. rewrite Hd in *.
  set (fs := frame_data <$> progress (stream_cap env) events) in *.
  assert (Hok : Forall (fun x => piece_ok (PFrame x.1 x.2)) (fs ++ [last_frame sid outcome])).
  { apply Forall_app in Hser as [Hs1 Hs2]. apply Forall_app. split.
    - apply Forall_forall. intros x Hx. rewrite Forall_forall in Hs1. specialize (Hs1 x Hx).
      apply list_elem_of_fmap in Hx as (f & -> & _). destruct (frame_known f) as [H1 H2]. done.
    - rewrite Forall_singleton in Hs2 |- *.
      destruct (last_frame_known sid outcome) as (H1 & H2 & _). done. }
  assert (Hne : fs ++ [last_frame sid outcome] ≠ []) by (by destruct fs).
  destruct (fs ++ [last_frame sid outcome]) as [|x l] eqn:El; [done|]. rewrite <-El in *. clear El Hne x l.
  rewrite readSse_chunks, Hchunks, Hw, body_of_stream, readSse_pieces by (by eapply pieces_ok). rewrite Hps.
  apply stream_frames_all; [done| |by apply last_frame_known].
  unfold fs. apply Forall_fmap. apply progress_incremental.
Qed.

Definition ex_events : list stream_event :=
  [OnPi (MessageUpdate "text_delta" "hi"); Tick; OnPi (ToolExecutionStart "t1" "bash" (Some (JObj [("cmd", JStr "ls")])));
   Tick; OnPi (ToolExecutionEnd "t1" false (Some (JStr "a"))); OnPi OtherPiEvent].

Definition ex_result : TurnResult := mkTurnResult "s1" "hi" "stop" None (Some (mkUsage 1 2 0 0 3)).

Definition ex_body : bytes := body_of (written (handleTurnStream ∅ (Some (JStr "s1")) ex_events (Ok ex_result))).

Lemma streamed_turn_reaches_client_witness :
  stream_frames (readSse [take 7 ex_body; take 30 (drop 7 ex_body); []; drop 37 ex_body]) =
  ((fun x => Known x.1 x.2) <$> (frame_data <$> progress (stream_cap ∅) ex_events)
     ++ [last_frame (Some (JStr "s1")) (Ok ex_result)], Finished).
Proof.
  apply (streamed_turn_reaches_client ∅ (Some (JStr "s1")) ex_events (Ok ex_result)).
  - reflexivity.
  - reflexivity.
  - repeat constructor.
  - vm_compute. reflexivity.
Defined.

(** ** Previews are bounded *)

Lemma drop_partial_length r : (length (drop_partial r) ≤ length r)%nat.
Proof. induction r as [|c r IH]; simpl; [done|]. destruct (continuation c); lia. Qed.

Lemma decode_prefix_length cap buf : (length (decode_prefix cap buf) ≤ cap + 3)%nat.
Proof.
  unfold decode_prefix. destruct (buf !! cap) as [c|]; [|rewrite length_take; lia].
  destruct (continuation c); [|rewrite length_take; lia]. rewrite length_app, length_reverse. simpl.
  pose proof (drop_partial_length (reverse (take cap buf))) as H. rewrite length_reverse, length_take in H. lia.
Qed.

(** A preview is the result itself, or at most the cap, a replacement character and the marker. *)
Lemma clip_bounded cap result : 0 ≤ cap → Z.of_nat (length (bytes_of (clip cap result))) ≤ cap + 17.
Proof.
  intros Hc. unfold clip. rewrite bytes_string. set (text := match result with Some _ => _ | None => _ end).
  destruct (Z.leb_spec (Z.of_nat (length text)) cap); [lia|]. rewrite length_app.
  pose proof (decode_prefix_length (Z.to_nat cap) text). change (length TRUNCATED) with 14%nat. lia.
Qed.

(** A character the cap cuts in two becomes the replacement character: [aé€] in 4 bytes. *)
Example clip_cuts_whole : clip 4 (Some (JStr (string_of (ascii_of_nat <$> [97; 195; 169; 226; 130; 172]%nat))))
  = string_of ((ascii_of_nat <$> [97; 195; 169]%nat) ++ REPLACEMENT ++ TRUNCATED).
Proof. reflexivity. Qed.

Lemma previewCap_nonneg raw override : 0 ≤ previewCap raw override.
Proof.
  unfold previewCap. assert (0 ≤ DEFAULT_PREVIEW_BYTES) by by vm_compute.
  destruct override as [[n| | |]|]; try done.
  - destruct (Z.leb_spec 0 n); lia.
  - destruct raw as [r|]; [|done]. by apply nonneg_or_nonneg.
Qed.
