(* ===== verification/RunTurn.v ===== *)
(** * Turns

    Models [harness/src/run-turn.ts] with [ambient-sentinel.ts], and of [config-resolver.ts]
    the loader options a promoted bundle gives: the model and credential a turn uses, the
    sandbox it leases, and the turn itself as a tree of calls ([Prog]).  The agent library (its
    model registry, session manager and resource loader) answers calls or is a parameter.
    [process.env] is read and written by calls, since every turn of a process shares it. *)

From Stdlib Require Import QArith.
From S2P Require Import Prelude JsNumber Json JsonText Prog Lease Operations SelectSandbox Credentials Exchange CpRoutes Gate Leaf TurnStream.

Local Open Scope Z_scope.

Abbreviation environ := (gmap string string).

(** [a || b] on strings that may be missing. *)
Definition str_or (a b : option string) : option string :=
  match nonempty a with Some s => Some s | None => b end.

(** [v] if it is truthy. *)
Definition truthy_opt (v : option json) : option json :=
  match v with Some j => if truthy j then Some j else None | None => None end.

(** ** Configuration *)

Record UpstreamCredential := mkUpstreamCred {
  uc_mode : CredentialMode;
  uc_value : string;
  uc_header : option InferenceAuthHeader;
}.

Record TurnConfig := mkTurnConfig {
  tc_redisUrl : option string;
  tc_cwd : option string;
  tc_anthropicBaseUrl : option string;
  tc_anthropicAuthToken : option string;
  tc_upstreamCredential : option UpstreamCredential;
  tc_model : option string;
  tc_provider : option string;
  tc_serverMode : bool;
  tc_allowLocalTools : bool;
}.

Record ModelSelection := mkSelection { ms_provider : string; ms_modelId : string }.

Definition resolveModelSelection (config : option TurnConfig) (env : environ) : ModelSelection :=
  let or2 a b d := match a with Some x => x | None => default d b end in
  mkSelection (or2 (config ≫= tc_provider) (env !! "SH_MODEL_PROVIDER") "anthropic")
              (or2 (config ≫= tc_model) (env !! "SH_MODEL") "claude-opus-4-8").

(** ** Models *)

(** A header of [None] is [null]: the request does not carry it. *)
Record Model := mkModel {
  m_id : string;
  m_name : string;
  m_api : option string;
  m_provider : string;
  m_baseUrl : option string;
  m_headers : option (list (string * option string));
  m_compat : list (string * json);
  m_contextWindow : jsnum Q;
  m_maxTokens : jsnum Q;
}.

(** [String(v)] of a parsed value; numbers are whole. *)
Fixpoint js_string (j : json) : bytes :=
  match j with
  | JStr s => bytes_of s
  | JArr l => join_char ","%char (map (fun x => match x with JNull => [] | _ => js_string x end) l)
  | JObj _ => bytes_of "[object Object]"
  | _ => stringify j
  end.

Fixpoint span_word (s : bytes) : bytes * bytes :=
  match s with
  | c :: s' => if word_char c then let '(w, r) := span_word s' in (c :: w, r) else ([], s)
  | [] => ([], [])
  end.

(** [/\$\{([A-Za-z_][A-Za-z0-9_]* )\}/] at the head of [s]: the name and what follows. *)
Definition placeholder_at (s : bytes) : option (bytes * bytes) :=
  if starts_with (bytes_of "${") s then
    match span_word (drop 2 s) with
    | (c :: w, "}"%char :: r) => if letter c || bool_decide (c = "_"%char) then Some (c :: w, r) else None
    | _ => None
    end
  else None.

(** Each step drops a character, so the length of the text is enough fuel. *)
Fixpoint interpolate (fuel : nat) (env : environ) (s : bytes) : bytes :=
  match fuel, s with
  | O, _ | _, [] => s
  | S f, c :: s' =>
      match placeholder_at s with
      | Some (name, r) => bytes_of (default "" (env !! string_of name)) ++ interpolate f env r
      | None => c :: interpolate f env s'
      end
  end.

Definition parseModelHeaders (env : environ) : result string (list (string * string)) :=
  match nonempty (env !! "SH_MODEL_HEADERS") with
  | None => Ok []
  | Some raw =>
      match parse (bytes_of raw) with
      | None => Throw ("SH_MODEL_HEADERS must be a JSON object of header name→value pairs (got: " +:+ raw +:+ ").")
      | Some (JObj fs) =>
          Ok ((fun f => (f.1, string_of (match f.2 with
                                         | JStr s => interpolate (length (bytes_of s)) env (bytes_of s)
                                         | v => js_string v
                                         end))) <$> fs)
      | Some _ => Throw "SH_MODEL_HEADERS must be a JSON object of header name→value pairs."
      end
  end.

(** [Number(env[name]) || def] *)
Definition number_or (env : environ) (name : string) (def : Z) : jsnum Q :=
  match env !! name with
  | None => Fin (inject_Z def)
  | Some s => match Number (bytes_of s) with
              | Fin q => if Qeq_bool q 0 then Fin (inject_Z def) else Fin q
              | NaN => Fin (inject_Z def)
              | x => x
              end
  end.

Definition custom_model (modelId api provider baseUrl : string) (headers : option (list (string * option string)))
    (env : environ) : Model :=
  mkModel modelId modelId (Some api) (default provider (env !! "SH_MODEL_PROVIDER")) (Some baseUrl) headers []
    (number_or env "SH_MODEL_CONTEXT_WINDOW" 131072) (number_or env "SH_MODEL_MAX_TOKENS" 8192).

Definition synthesizeCustomModel (modelId : string) (env : environ) : result string Model :=
  match nonempty (str_or (env !! "SH_MODEL_BASE_URL") (env !! "ANTHROPIC_BASE_URL")) with
  | None => Throw ("SH_MODEL_CUSTOM=1 (anthropic) requires SH_MODEL_BASE_URL or ANTHROPIC_BASE_URL (the Anthropic-compatible endpoint to send " +:+ DQ +:+ modelId +:+ DQ +:+ " to).")
  | Some baseUrl => Ok (custom_model modelId "anthropic-messages" "anthropic" baseUrl None env)
  end.

(** With the variable it sets, if it does. *)
Definition synthesizeOpenAICompletionsModel (modelId : string) (env : environ) :
    result string (Model * list (string * string)) :=
  match nonempty (str_or (env !! "SH_MODEL_BASE_URL") (env !! "OPENAI_BASE_URL")) with
  | None => Throw ("SH_MODEL_CUSTOM=1 with SH_MODEL_API=openai-completions requires SH_MODEL_BASE_URL or OPENAI_BASE_URL (the OpenAI-compatible endpoint to send " +:+ DQ +:+ modelId +:+ DQ +:+ " to).")
  | Some baseUrl =>
      try hs <- parseModelHeaders env;
      let headers := prod_map id Some <$> hs in
      let auth := default "bearer" (env !! "SH_MODEL_AUTH") in
      let stripped := bool_decide (auth = "custom-header") || bool_decide (auth = "none") in
      Ok (custom_model modelId "openai-completions" "openai" baseUrl
            (Some (if stripped then map_set "Authorization" None headers else headers)) env,
          if stripped then match nonempty (env !! "OPENAI_API_KEY") with
                           | None => [("OPENAI_API_KEY", "unused")]
                           | Some _ => []
                           end
          else [])
  end.

Fixpoint comma_list (l : list string) : string :=
  match l with [] => "" | [x] => x | x :: l' => x +:+ ", " +:+ comma_list l' end.

(** [s.replace(/[.\-]/g, '').toLowerCase()] *)
Definition norm (s : string) : string :=
  toLowerCase (string_of (filter (fun c => negb (bool_decide (c = "."%char ∨ c = "-"%char))) (bytes_of s))).

Section Registry.
(** The agent library's registry of models. *)
Context (getModel : string → string → option Model) (getProviders : list string) (getModels : string → list string).

Definition requireModel (provider modelId : string) (env : environ) : result string (Model * list (string * string)) :=
  if bool_decide (env !! "SH_MODEL_CUSTOM" = Some "1") then
    let api := default "anthropic" (env !! "SH_MODEL_API") in
    if bool_decide (api = "anthropic") || bool_decide (api = "anthropic-messages") then
      try m <- synthesizeCustomModel modelId env; Ok (m, [])
    else if bool_decide (api = "openai-completions") then synthesizeOpenAICompletionsModel modelId env
    else if bool_decide (api = "openai-responses") then
      Throw "SH_MODEL_API=openai-responses is not yet implemented (deferred; see docs/specs/2026-08-20-multi-protocol-model-provider-design.md §7). Use openai-completions."
    else Throw ("Unknown SH_MODEL_API " +:+ DQ +:+ api +:+ DQ +:+ ". Expected: anthropic | openai-completions | openai-responses.")
  else
    match getModel provider modelId with
    | Some m => Ok (m, [])
    | None =>
        if negb (bool_decide (provider ∈ getProviders)) then
          Throw ("Unknown model provider " +:+ DQ +:+ provider +:+ DQ +:+ ". Known providers: " +:+ comma_list getProviders +:+ ".")
        else
          let ids := getModels provider in
          let suggestions := filter (fun id => norm id = norm modelId) ids in
          let hint := match suggestions with
                      | [] => "Known " +:+ DQ +:+ provider +:+ DQ +:+ " ids include: " +:+ comma_list (take 12 ids)
                              +:+ (if (12 <? length ids)%nat then ", …" else "") +:+ "."
                      | _ => "Did you mean: " +:+ comma_list suggestions +:+ "?"
                      end in
          Throw ("Unknown model " +:+ DQ +:+ provider +:+ "/" +:+ modelId +:+ DQ +:+ " — not in the pi-ai registry. " +:+ hint)
    end.
End Registry.

(** ** Credentials *)

Definition AMBIENT_KEY_SENTINEL : string := "sh-unused-see-authorization-header".

Definition gateway_compat : list (string * json) :=
  [("supportsEagerToolInputStreaming", JBool false); ("supportsCacheControlOnTools", JBool false);
   ("supportsLongCacheRetention", JBool false)].

(** [{ ...m, ...upd }] *)
Definition spread {V} (upd m : list (string * V)) : list (string * V) :=
  foldl (fun m kv => map_set kv.1 kv.2 m) m upd.

Definition auth_headers (h : InferenceAuthHeader) (token : string) : list (string * option string) :=
  match h with
  | x_api_key => [("x-api-key", Some token); ("Authorization", None)]
  | authorization => [("Authorization", Some ("Bearer " +:+ token)); ("x-api-key", None)]
  end.

(** The rewritten model, with the variable it sets, if it does. *)
Definition applyModelGateway (base : Model) (config : option TurnConfig) (env : environ) :
    result string (Model * list (string * string)) :=
  let api := default "anthropic-messages" (m_api base) in
  if negb (bool_decide (api = "anthropic-messages")) then
    match config ≫= tc_upstreamCredential with
    | Some _ => Throw ("a per-caller upstream credential cannot be applied to a '" +:+ api +:+ "' model: only anthropic-messages models carry it")
    | None => Ok (base, [])
    end
  else
    let upstream := match config ≫= tc_upstreamCredential with
                    | Some c => if bool_decide (uc_value c = "") then None else Some c
                    | None => None
                    end in
    let authToken := nonempty (str_or (uc_value <$> upstream)
                                 (str_or (config ≫= tc_anthropicAuthToken) (env !! "ANTHROPIC_AUTH_TOKEN"))) in
    let authHeader := default authorization (upstream ≫= uc_header) in
    let writes := match authToken, nonempty (env !! "ANTHROPIC_API_KEY") with
                  | Some _, None => [("ANTHROPIC_API_KEY", AMBIENT_KEY_SENTINEL)]
                  | _, _ => []
                  end in
    let gatewayBase := nonempty (str_or (config ≫= tc_anthropicBaseUrl) (env !! "ANTHROPIC_BASE_URL")) in
    match gatewayBase, authToken with
    | None, None => Ok (base, writes)
    | _, _ =>
        Ok (mkModel (m_id base) (m_name base) (m_api base) (m_provider base)
              (match gatewayBase with Some u => Some u | None => m_baseUrl base end)
              (match authToken with
               | Some t => Some (spread (auth_headers authHeader t) (default [] (m_headers base)))
               | None => m_headers base
               end)
              (match gatewayBase with Some _ => spread gateway_compat (m_compat base) | None => m_compat base end)
              (m_contextWindow base) (m_maxTokens base), writes)
    end.

(** ** Usage *)

Definition count (u : json) (f : string) : option Q := as_number (field f u).

(** An entry of a session's branch, when it counts: its four token counts. *)
Definition entry_usage (entry : json) : option json :=
  if bool_decide (as_string (field "type" entry) = Some "message") then
    m ← field "message" entry;
    if bool_decide (as_string (field "role" m) = Some "assistant") then
      u ← field "usage" m; if truthy u then Some u else None
    else None
  else None.

Definition total_of (branch : list json) (f : string) : Q :=
  foldl Qplus 0%Q (omap (fun e => u ← entry_usage e; count u f) branch).

Definition sumBranchUsage (branch : option (list json)) : LeafUsage :=
  let b := default [] branch in
  let i := total_of b "input" in let o := total_of b "output" in
  let cr := total_of b "cacheRead" in let cw := total_of b "cacheWrite" in
  mkUsage i o cr cw (i + o + cr + cw)%Q.

(** ** The resource loader *)

Record PromotedConfig := mkPromoted {
  pc_digest : string;
  pc_skillsDir : string;
  pc_promptsDir : string;
  pc_sandboxSkillsDir : option string;
  pc_context : list (string * string);              (* path and content *)
  pc_promptFragments : list string;
}.

Inductive extension :=
| flushExtension
| k8sSandboxExtension (pod : option K8sSandboxConfig) (transport : bool)
| checkpointExtension
| toolChoiceExtension
| budgetVoterExtension (limit baseline : Q) (margin : option Q)
| sseExtension.

(** A flag that is absent is off; a list that is absent is [None]. *)
Record LoaderOptions := mkLoader {
  lo_cwd : string;
  lo_extensionFactories : list extension;
  lo_additionalSkillPaths : option (list string);
  lo_additionalPromptTemplatePaths : option (list string);
  lo_noContextFiles : bool;
  lo_noSkills : bool;
  lo_noPromptTemplates : bool;
  lo_noExtensions : bool;
  lo_noThemes : bool;
  lo_agentsFiles : option (list (string * string));
  lo_appendSystemPrompt : option (list string);
  lo_skillsOverride : option (string * string);     (* pod's directory and the sandbox's *)
}.

(** [resourceLoaderOptionsFor], with [promotedLoaderOptions] and [buildLoaderOptions]. *)
Definition resourceLoaderOptionsFor (cwd : string) (exts : list extension) (promoted : option PromotedConfig) : LoaderOptions :=
  match promoted with
  | None => mkLoader cwd exts None None false false false false false None None None
  | Some p =>
      mkLoader cwd exts (Some [pc_skillsDir p]) (Some [pc_promptsDir p]) true true true false false
        (Some (pc_context p)) (Some (pc_promptFragments p))
        ((fun d => (pc_skillsDir p, d)) <$> nonempty (pc_sandboxSkillsDir p))
  end.

(** [swapPrefix] and the rewriting of a skill's path. *)
Definition swapPrefix (p from to : bytes) : bytes :=
  if bool_decide (p = from) then to
  else if starts_with (from ++ [SLASH]) p then to ++ drop (length from) p else p.

(** Whether the project is trusted, and the loader's options. *)
Definition turnLoaderInputs (config : option TurnConfig) (cwd : string) (exts : list extension)
    (promoted : option PromotedConfig) : bool * LoaderOptions :=
  let locked := match config with Some c => tc_serverMode c | None => false end in
  let o := resourceLoaderOptionsFor cwd exts promoted in
  (negb locked,
   if locked then
     mkLoader (lo_cwd o) (lo_extensionFactories o) (lo_additionalSkillPaths o) (lo_additionalPromptTemplatePaths o)
       true true true true true (lo_agentsFiles o) (lo_appendSystemPrompt o) (lo_skillsOverride o)
   else o).

(** ** The session store of the process *)

(** [built] numbers the stores; [closed] are those [close] was called on. *)
Record StoreMemo := mkStoreMemo { memo_of : option (string * nat); stores_built : nat; stores_closed : list nat }.

Definition close_memo (m : StoreMemo) : list nat :=
  match memo_of m with Some (_, s) => s :: stores_closed m | None => stores_closed m end.

Definition sharedSessionStore (url : string) (m : StoreMemo) : nat * StoreMemo :=
  match memo_of m with
  | Some (u, s) => if bool_decide (u = url) then (s, m)
                   else (stores_built m, mkStoreMemo (Some (url, stores_built m)) (S (stores_built m)) (close_memo m))
  | None => (stores_built m, mkStoreMemo (Some (url, stores_built m)) (S (stores_built m)) (close_memo m))
  end.

Definition resetSharedSessionStore (m : StoreMemo) : StoreMemo := mkStoreMemo None (stores_built m) (close_memo m).

(** ** The calls of a turn *)

Record TurnSandbox := mkTurnSandbox { ts_config : option K8sSandboxConfig; ts_transport : bool }.

Record SelectRequest := mkSelectRequest {
  sr_headCwd : string;
  sr_workspace : string;
  sr_cap : Z;
  sr_ttlMs : Z;
  sr_holderId : string;
  sr_remoteSandbox : bool;
}.

Record Selected := mkSel { sd_config : K8sSandboxConfig; sd_transport : bool; sd_leased : bool }.

Record AssistantMessage := mkMessage {
  am_role : string;
  am_stopReason : option string;
  am_errorMessage : option string;
  am_content : list (string * string);              (* type and text *)
}.

(** [Release], [SetRenewal] and [ClearRenewal] are of the lease this turn took. *)
Inductive turn_call :=
| GetEnv
| SetEnv (name value : string)
| SessionStore (url : string)
| OpenFromCheckpoint (sessionId : json)
| CreateSession (sessionId : option json)
| RandomUUID
| SelectPool (req : SelectRequest)
| Release
| SetRenewal (ms : Z)
| ClearRenewal
| GetBranch
| Reload (projectTrusted : bool) (opts : LoaderOptions)
| CreateAgentSession (model : Model)
| WireAbort
| Prompt (prompt : json)
| FlushBackend.

(** A session is its id; [Prompt] answers the last message.  Calls that cannot fail have no error. *)
Definition turn_reply (c : turn_call) : Type :=
  match c with
  | GetEnv => environ
  | RandomUUID => string
  | SetEnv _ _ | SessionStore _ | SetRenewal _ | ClearRenewal | WireAbort => unit
  | OpenFromCheckpoint _ | CreateSession _ => result turn_error string
  | SelectPool _ => result turn_error (option Selected)
  | GetBranch => result turn_error (option (list json))
  | Prompt _ => result turn_error (option AssistantMessage)
  | Release | Reload _ _ | CreateAgentSession _ | FlushBackend => result turn_error unit
  end.

Definition turn_prog : Type → Type := prog turn_call turn_reply turn_error.

Definition ask (c : turn_call) : turn_prog (turn_reply c) := Call c Ret.

(** A call whose failure is the turn's. *)
Abbreviation must c := (pbind (ask c) of_result).

Fixpoint set_all (l : list (string * string)) : turn_prog unit :=
  match l with [] => Ret tt | (n, v) :: l' => await _ <- ask (SetEnv n v); set_all l' end.

(** Throws of the pure code are [Error]s. *)
Definition throwing {A} (r : result string A) : turn_prog A :=
  match r with Ok a => Ret a | Throw m => Err (AnError "Error" m) end.

(** The prompt and the session's id are as the caller gave them, which may be any JSON. *)
Record ExecuteTurnInput := mkInput {
  in_prompt : json;
  in_sessionId : option json;
  in_config : option TurnConfig;
  in_createIfAbsent : bool;
  in_selection : option ModelSelection;
  in_streams : bool;                                (* [onEvent] is present *)
  in_signal : bool;                                 (* [signal] is present *)
  in_sandbox : option TurnSandbox;
  in_promotedConfig : option PromotedConfig;
}.

Definition turnLeaseHolder (sessionId : option string) : turn_prog string :=
  await u <- ask RandomUUID; Ret (default "anon" sessionId +:+ ":" +:+ u).

(** [aq_owned]: [release] is the one of the sandbox that was selected. *)
Record AcquiredTurnSandbox := mkAcquired { aq_sandbox : TurnSandbox; aq_leased : bool; aq_owned : bool }.

Definition acquireTurnSandbox (injected : option TurnSandbox) (headCwd : string) (sessionId : option string) :
    turn_prog AcquiredTurnSandbox :=
  match injected with
  | Some s => Ret (mkAcquired s false false)
  | None =>
      await env <- ask GetEnv;
      let t := leaseTimings (fun n => env !! n) in
      await holderId <- turnLeaseHolder sessionId;
      await selected <- must (SelectPool (mkSelectRequest headCwd (default holderId sessionId) (lt_cap t) (lt_ttlMs t)
                                             holderId (bool_decide (env !! "SH_REMOTE_SANDBOX" = Some "1"))));
      match selected with
      | None => Ret (mkAcquired (mkTurnSandbox None false) false false)
      | Some s => Ret (mkAcquired (mkTurnSandbox (Some (sd_config s)) (sd_transport s)) (sd_leased s) true)
      end
  end.

Definition no_session (e : turn_error) : bool :=
  match e with AnError _ m => contains (bytes_of "no session in backend") (bytes_of m) | NotAnError _ => false end.

Definition openTurnSession (input : ExecuteTurnInput) : turn_prog string :=
  await _ <- ask (SessionStore (default "redis://localhost:6379" (in_config input ≫= tc_redisUrl)));
  match truthy_opt (in_sessionId input) with
  | Some sid =>
      if in_createIfAbsent input then
        pcatch (must (OpenFromCheckpoint sid)) (fun e => if no_session e then must (CreateSession (Some sid)) else Err e)
      else must (OpenFromCheckpoint sid)
  | None => must (CreateSession None)
  end.

(** [Number(env[name])], when it is finite and positive. *)
Definition positive_setting (env : environ) (name : string) : option Q :=
  match env !! name with
  | None => None
  | Some s => match Number (bytes_of s) with
              | Fin q => if Qle_bool q 0 then None else Some q
              | _ => None
              end
  end.

Definition budget_extension (env : environ) : turn_prog (list extension) :=
  match positive_setting env "SH_BUDGET_TOKENS" with
  | None => Ret []
  | Some limit =>
      await branch <- must GetBranch;
      Ret [budgetVoterExtension limit (default 0%Q (branchSpend branch)) (positive_setting env "SH_BUDGET_MARGIN")]
  end.

(** The response, the reason the turn stopped and the error, from the last message. *)
Definition read_last (m : option AssistantMessage) : string * string * option string :=
  match m with
  | Some m =>
      if bool_decide (am_role m = "assistant") then
        let stopReason := default "end_turn" (am_stopReason m) in
        if bool_decide (stopReason = "error") || bool_decide (stopReason = "aborted")
        then ("", stopReason, Some (default ("Request " +:+ stopReason) (nonempty (am_errorMessage m))))
        else (foldl (fun r c => if bool_decide (c.1 = "text") then r +:+ c.2 else r) "" (am_content m), stopReason, None)
      else ("", "end_turn", None)
  | None => ("", "end_turn", None)
  end.

Section Execute.
Context (getModel : string → string → option Model) (getProviders : list string) (getModels : string → list string).
(** [process.cwd()] *)
Context (proc_cwd : string).

(** The turn's model, its credential applied. *)
Definition turn_model (input : ExecuteTurnInput) (env : environ) : turn_prog Model :=
  let sel := match in_selection input with Some s => s | None => resolveModelSelection (in_config input) env end in
  await base <- throwing (requireModel getModel getProviders getModels (ms_provider sel) (ms_modelId sel) env);
  await _ <- set_all base.2;
  await env2 <- ask GetEnv;
  await model <- throwing (applyModelGateway base.1 (in_config input) env2);
  await _ <- set_all model.2;
  Ret model.1.

Definition executeTurnCore (input : ExecuteTurnInput) (sandbox : TurnSandbox) (sessionId : string) : turn_prog TurnResult :=
  let cwd := default proc_cwd (in_config input ≫= tc_cwd) in
  await env <- ask GetEnv;
  await budget <- budget_extension env;
  let exts := [flushExtension; k8sSandboxExtension (ts_config sandbox) (ts_transport sandbox); checkpointExtension;
               toolChoiceExtension] ++ budget ++ (if in_streams input then [sseExtension] else []) in
  let loader := turnLoaderInputs (in_config input) cwd exts (in_promotedConfig input) in
  await _ <- must (Reload loader.1 loader.2);
  await env <- ask GetEnv;
  await model <- turn_model input env;
  await _ <- must (CreateAgentSession model);
  await _ <- (if in_signal input then ask WireAbort else Ret tt);
  await lastMessage <- must (Prompt (in_prompt input));
  let '(response, stopReason, errorMessage) := read_last lastMessage in
  await _ <- must FlushBackend;
  await usage <- pcatch (await branch <- must GetBranch; Ret (Some (sumBranchUsage branch))) (fun _ => Ret None);
  Ret (mkTurnResult sessionId response stopReason errorMessage usage).

Definition turn_finally (acquired : AcquiredTurnSandbox) : turn_prog unit :=
  await _ <- (if aq_leased acquired then ask ClearRenewal else Ret tt);
  if aq_owned acquired then await _ <- ask Release; Ret tt else Ret tt.

Definition executeTurn (input : ExecuteTurnInput) : turn_prog TurnResult :=
  let cwd := default proc_cwd (in_config input ≫= tc_cwd) in
  await sessionId <- openTurnSession input;
  await acquired <- acquireTurnSandbox (in_sandbox input) cwd (Some sessionId);
  let server := match in_config input with Some c => (tc_serverMode c, tc_allowLocalTools c) | None => (false, false) end in
  if assertServerSandbox server.1 server.2 (bool_decide (is_Some (ts_config (aq_sandbox acquired)))) then
    await _ <- (if aq_owned acquired then must Release else Ret tt);
    Err (AnError "SandboxRequiredError" (err_message SandboxRequired))
  else
    await _ <- (if aq_leased acquired
                then await env <- ask GetEnv; ask (SetRenewal (lt_heartbeatMs (leaseTimings (fun n => env !! n))))
                else Ret tt);
    pfinally (executeTurnCore input (aq_sandbox acquired) sessionId) (turn_finally acquired).

(** [/turn]'s contract. *)
Definition runTurn (prompt : json) (sessionId : option json) (config : option TurnConfig) : turn_prog TurnResult :=
  executeTurn (mkInput prompt sessionId config false None false false None None).
End Execute.

(** ** Whose credential a turn spends *)

Definition CONSTANT_WRITES : list (string * string) :=
  [("ANTHROPIC_API_KEY", AMBIENT_KEY_SENTINEL); ("OPENAI_API_KEY", "unused")].

(** The request carries [token] in the header [h] and not in the other. *)
Definition carries (h : InferenceAuthHeader) (token : string) (m : Model) : Prop :=
  ∃ hs, m_headers m = Some hs
    ∧ match h with
      | x_api_key => map_get "x-api-key" hs = Some (Some token) ∧ map_get "Authorization" hs = Some None
      | authorization => map_get "Authorization" hs = Some (Some ("Bearer " +:+ token)) ∧ map_get "x-api-key" hs = Some None
      end.

Lemma auth_headers_get h token hs :
  let hs' := spread (auth_headers h token) hs in
  match h with
  | x_api_key => map_get "x-api-key" hs' = Some (Some token) ∧ map_get "Authorization" hs' = Some None
  | authorization => map_get "Authorization" hs' = Some (Some ("Bearer " +:+ token)) ∧ map_get "x-api-key" hs' = Some None
  end.
Proof. destruct h; cbn [auth_headers spread foldl fst snd]; by rewrite !map_get_set. Qed.

Lemma nonempty_Some s : s ≠ "" → nonempty (Some s) = Some s.
Proof. intros H. unfold nonempty. by rewrite bool_decide_eq_false_2. Qed.

Lemma gateway_writes base config env m writes :
  applyModelGateway base config env = Ok (m, writes) → ∀ w, w ∈ writes → w ∈ CONSTANT_WRITES.
Proof.
  unfold applyModelGateway. destruct (negb _); [destruct (config ≫= _); [done|]; by intros [= _ <-] w ?%elem_of_nil|].
  set (token := nonempty (str_or _ (str_or _ _))). set (gw := nonempty (str_or _ (env !! "ANTHROPIC_BASE_URL"))).
  set (ws := match token with Some _ => match nonempty (env !! _) with Some _ => [] | None => [_] end | None => [] end). intros Heq. assert (writes = ws) as ->.
  { destruct gw, token; by injection Heq. }
  intros w. unfold ws. destruct token; [|by intros ?%elem_of_nil].
  destruct (nonempty (env !! _)); [by intros ?%elem_of_nil|]. intros ->%list_elem_of_singleton. by left.
Qed.

(** The model of a caller with a credential of its own: that credential, that endpoint, and no
    other; nothing of it is written to the environment. *)
Lemma gateway_carries base config env c m writes :
  tc_upstreamCredential config = Some c → uc_value c ≠ "" →
  applyModelGateway base (Some config) env = Ok (m, writes) →
  carries (default authorization (uc_header c)) (uc_value c) m
  ∧ (∀ w, w ∈ writes → w ∈ CONSTANT_WRITES)
  ∧ m_baseUrl m = match nonempty (str_or (tc_anthropicBaseUrl config) (env !! "ANTHROPIC_BASE_URL")) with
                  | Some u => Some u | None => m_baseUrl base end.
Proof.
  intros Hc Hv. assert (Ht : ∀ x, nonempty (str_or (Some (uc_value c)) x) = Some (uc_value c)).
  { intros x. unfold str_or. by rewrite !nonempty_Some. }
  intros Ha. split_and!; [|by eapply gateway_writes|].
  all: revert Ha; unfold applyModelGateway; cbn [mbind option_bind]; rewrite Hc; (destruct (negb _); [done|]);
    rewrite bool_decide_eq_false_2 by done; cbn [fmap option_fmap option_map]; rewrite Ht; intros Heq;
    destruct (nonempty (str_or (tc_anthropicBaseUrl config) _)); injection Heq as <- _; try done.
  all: eexists; split; [reflexivity|apply auth_headers_get].
Qed.

Lemma openai_writes modelId env m writes :
  synthesizeOpenAICompletionsModel modelId env = Ok (m, writes) → ∀ w, w ∈ writes → w ∈ CONSTANT_WRITES.
Proof.
  unfold synthesizeOpenAICompletionsModel. destruct (nonempty (str_or _ _)) as [u|]; [|done].
  destruct (parseModelHeaders env) as [hs|]; [|done]. cbn [result_bind]. intros [= _ <-] w.
  destruct (_ || _); [|by intros ?%elem_of_nil]. destruct (nonempty _); [by intros ?%elem_of_nil|].
  intros ->%list_elem_of_singleton. by right; left.
Qed.

Lemma requireModel_writes gm gp gms provider modelId env m writes :
  requireModel gm gp gms provider modelId env = Ok (m, writes) → ∀ w, w ∈ writes → w ∈ CONSTANT_WRITES.
Proof.
  unfold requireModel. destruct (bool_decide _); [|destruct (gm provider modelId)].
  - destruct (_ || _); [|destruct (bool_decide _); [apply openai_writes|by destruct (bool_decide _)]].
    destruct (synthesizeCustomModel modelId env); [|done]. by intros [= _ <-] w ?%elem_of_nil.
  - by intros [= _ <-] w ?%elem_of_nil.
  - by destruct (negb _).
Qed.

(** Take the answer of a call. *)
Ltac go := cbn [pbind ask of_result pcatch].

Section Turns.
Context (gm : string → string → option Model) (gp : list string) (gms : string → list string) (proc_cwd : string).

Lemma set_all_ensures (P : turn_call → Prop) l :
  (∀ n v, (n, v) ∈ l → P (SetEnv n v)) → ensures P (fun _ => True) (set_all l).
Proof.
  induction l as [|[n v] l IH]; intros Hl; [done|]. split; [apply Hl; set_solver|]. intros u. simpl. apply IH. set_solver.
Qed.

Lemma turn_model_ensures (P : turn_call → Prop) (Q : Model → Prop) input env :
  P GetEnv → (∀ n v, (n, v) ∈ CONSTANT_WRITES → P (SetEnv n v)) →
  (∀ base env m writes, applyModelGateway base (in_config input) env = Ok (m, writes) →
     Q m ∧ ∀ w, w ∈ writes → w ∈ CONSTANT_WRITES) →
  ensures P Q (turn_model gm gp gms input env).
Proof.
  intros HE HS HQ. unfold turn_model. set (sel := match in_selection input with Some _ => _ | None => _ end).
  destruct (requireModel gm gp gms _ _ env) as [[base ws]|] eqn:Er; [|done]. cbn [throwing pbind fst snd].
  eapply ensures_bind; [apply set_all_ensures; intros n v Hin; apply HS; by eapply requireModel_writes|]. intros _ _.
  split; [done|]. intros env2. cbn [pbind]. destruct (applyModelGateway base (in_config input) env2) as [[m ws2]|] eqn:Ea; [|done].
  destruct (HQ _ _ _ _ Ea) as [Hm Hws]. cbn [throwing pbind fst snd].
  eapply ensures_bind; [apply set_all_ensures; intros n v Hin; apply HS, Hws, Hin|]. done.
Qed.

(** Calls of no interest to [P] may be made anywhere in a turn. *)
Definition core_neutral (P : turn_call → Prop) (input : ExecuteTurnInput) (sandbox : TurnSandbox) : Prop :=
  P GetEnv ∧ P GetBranch ∧ P WireAbort ∧ P FlushBackend ∧ P (Prompt (in_prompt input))
  ∧ (∀ n v, (n, v) ∈ CONSTANT_WRITES → P (SetEnv n v))
  ∧ ∀ exts, k8sSandboxExtension (ts_config sandbox) (ts_transport sandbox) ∈ exts →
            P (Reload (turnLoaderInputs (in_config input) (default proc_cwd (in_config input ≫= tc_cwd)) exts
                          (in_promotedConfig input)).1
                       (turnLoaderInputs (in_config input) (default proc_cwd (in_config input ≫= tc_cwd)) exts
                          (in_promotedConfig input)).2).

Lemma must_ensures (P : turn_call → Prop) {A} (r : result turn_error A) : ensures P (fun _ => True) (of_result (R := turn_reply) r).
Proof. by destruct r. Qed.

Lemma core_ensures (P : turn_call → Prop) input sandbox sid :
  core_neutral P input sandbox → (∀ env, ensures P (fun m => P (CreateAgentSession m)) (turn_model gm gp gms input env)) →
  ensures P (fun _ => True) (executeTurnCore gm gp gms proc_cwd input sandbox sid).
Proof.
  intros (HE & HB & HW & HF & HP & HS & HR) HM. unfold executeTurnCore. cbn zeta. split; [done|]. intros env. go.
  eapply (ensures_bind _ (fun _ => True)).
  { unfold budget_extension. destruct (positive_setting env "SH_BUDGET_TOKENS"); [|done].
    split; [done|]. intros r. by destruct r. }
  intros budget _. split; [apply HR; by right; left|]. intros [u|e]; [|done]. go. split; [done|]. intros env2. go.
  eapply ensures_bind; [apply HM|]. intros m Hm. go. split; [done|]. intros [u2|e]; [|done]. go.
  eapply (ensures_bind _ (fun _ => True)); [by destruct (in_signal input)|]. intros x _. go.
  split; [done|]. intros [msg|e]; [|done]. go. destruct (read_last msg) as [[resp reason] em].
  split; [done|]. intros [u3|e]; [|done]. go.
  split; [done|]. by intros [br|e].
Qed.

Abbreviation execute := (executeTurn gm gp gms proc_cwd).
Abbreviation core := (executeTurnCore gm gp gms proc_cwd).

Lemma open_ensures (P : turn_call → Prop) input :
  (∀ u, P (SessionStore u)) → (∀ s, P (OpenFromCheckpoint s)) → (∀ s, P (CreateSession s)) →
  ensures P (fun _ => True) (openTurnSession input).
Proof.
  intros H1 H2 H3. unfold openTurnSession. split; [done|]. intros u. go.
  destruct (truthy_opt (in_sessionId input)) as [sid|]; [destruct (in_createIfAbsent input)|].
  - split; [done|]. intros [s|e]; go; [done|]. destruct (no_session e); [|done]. split; [done|]. by intros [s|e'].
  - split; [done|]. by intros [s|e].
  - split; [done|]. by intros [s|e].
Qed.

Lemma acquire_ensures (P : turn_call → Prop) injected cwd sid :
  P GetEnv → P RandomUUID → (∀ r, P (SelectPool r)) →
  ensures P (fun a => injected = Some (aq_sandbox a) ∨ injected = None) (acquireTurnSandbox injected cwd sid).
Proof.
  intros H1 H2 H3. unfold acquireTurnSandbox. destruct injected as [s|]; [by left|].
  split; [done|]. intros env. go. split; [done|]. intros u. go. split; [done|]. intros [[s|]|e]; [by right|by right|done].
Qed.

(** What every call of a turn satisfies, if those of its core do. *)
Lemma execute_ensures (P : turn_call → Prop) input :
  (∀ c, match c with SetEnv _ _ | GetBranch | Reload _ _ | CreateAgentSession _ | WireAbort | Prompt _ | FlushBackend => True
        | _ => P c end) →
  (∀ sandbox sid,
     (let server := match in_config input with Some c => (tc_serverMode c, tc_allowLocalTools c) | None => (false, false) end in
      assertServerSandbox server.1 server.2 (bool_decide (is_Some (ts_config sandbox))) = false) →
     ensures P (fun _ => True) (core input sandbox sid)) →
  ensures P (fun _ => True) (execute input).
Proof.
  intros HP Hcore. unfold executeTurn. cbn zeta.
  eapply ensures_bind.
  { apply open_ensures; [intros u; apply (HP (SessionStore u))|intros s; apply (HP (OpenFromCheckpoint s))|intros s; apply (HP (CreateSession s))]. }
  intros sid _. eapply ensures_bind.
  { apply acquire_ensures; [apply (HP GetEnv)|apply (HP RandomUUID)|intros r; apply (HP (SelectPool r))]. }
  intros acquired _. destruct (assertServerSandbox _ _ _) eqn:Ea.
  - eapply (ensures_bind _ (fun _ => True)); [|done]. destruct (aq_owned acquired); [|done].
    split; [apply (HP Release)|]. by intros [u|e].
  - eapply (ensures_bind _ (fun _ => True)).
    { destruct (aq_leased acquired); [|done]. split; [apply (HP GetEnv)|]. intros env. go. split; [apply (HP (SetRenewal _))|done]. }
    intros _ _. apply ensures_finally; [by apply Hcore|]. unfold turn_finally.
    eapply (ensures_bind _ (fun _ => True)).
    { destruct (aq_leased acquired); [|done]. split; [apply (HP ClearRenewal)|done]. }
    intros _ _. destruct (aq_owned acquired); [|done]. split; [apply (HP Release)|done].
Qed.

Abbreviation turn_event := (event (C := turn_call) (R := turn_reply)).

Lemma credential_isolated input config c tr o :
  in_config input = Some config → tc_upstreamCredential config = Some c → uc_value c ≠ "" →
  runs (execute input) tr o →
  Forall (fun e : turn_event =>
    match projT1 e with
    | CreateAgentSession m => carries (default authorization (uc_header c)) (uc_value c) m
        ∧ ∀ u, tc_anthropicBaseUrl config = Some u → u ≠ "" → m_baseUrl m = Some u
    | SetEnv n v => (n, v) ∈ CONSTANT_WRITES
    | _ => True
    end) tr.
Proof.
  intros Hcfg Hc Hv Hr.
  pose (P := fun call => match call with
    | CreateAgentSession m => carries (default authorization (uc_header c)) (uc_value c) m
        ∧ ∀ u, tc_anthropicBaseUrl config = Some u → u ≠ "" → m_baseUrl m = Some u
    | SetEnv n v => (n, v) ∈ CONSTANT_WRITES
    | _ => True end).
  refine (proj1 (ensures_runs P (fun _ => True) _ _ _ _ Hr)).
  apply execute_ensures; [by intros []|]. intros sandbox sid _. apply core_ensures.
  - unfold core_neutral. split_and!; try done.
  - intros env. apply turn_model_ensures; [done|done|]. intros base env' m writes. rewrite Hcfg. intros Ha.
    destruct (gateway_carries _ _ _ _ _ _ Hc Hv Ha) as (H1 & H2 & H3). split; [|done]. split; [done|].
    intros u Hu Hne. rewrite H3, Hu. unfold str_or. by rewrite !nonempty_Some.
Qed.

(** A turn that carries its caller's credential spends that one: every model the agent is
    given has it in the header the control plane chose and the other header stripped, whatever
    is in the process's environment or the model's own headers; the only values the turn writes
    to the environment are constants that name no one; a model that cannot carry the
    credential fails the turn instead. *)
Theorem turn_credential_isolated input config c tr o :
  in_config input = Some config → tc_upstreamCredential config = Some c → uc_value c ≠ "" →
  runs (execute input) tr o →
  Forall (fun e : turn_event =>
    match projT1 e with
    | CreateAgentSession m => carries (default authorization (uc_header c)) (uc_value c) m
    | SetEnv n v => (n, v) ∈ CONSTANT_WRITES
    | _ => True
    end) tr.
Proof.
  intros Hcfg Hc Hv Hr. eapply Forall_impl; [by eapply credential_isolated|].
  intros [[] r]; cbn; try done. by intros [??].
Qed.

(** A server's turn is locked down: every resource loader it builds, promoted bundle or not,
    is told to discover no extension, context file, skill, prompt template or theme and not to
    trust the project, and routes the agent's tools into a sandbox, unless the deployment allows
    local tools. *)
Theorem server_turn_locked_down input config tr o :
  in_config input = Some config → tc_serverMode config = true →
  runs (execute input) tr o →
  Forall (fun e : turn_event =>
    match projT1 e with
    | Reload trusted opts =>
        trusted = false ∧ lo_noExtensions opts = true ∧ lo_noContextFiles opts = true ∧ lo_noSkills opts = true
        ∧ lo_noPromptTemplates opts = true ∧ lo_noThemes opts = true
        ∧ (tc_allowLocalTools config = true
           ∨ ∃ pod transport, k8sSandboxExtension (Some pod) transport ∈ lo_extensionFactories opts)
    | _ => True
    end) tr.
Proof.
  intros Hcfg Hs Hr.
  pose (P := fun call => match call with
    | Reload trusted opts =>
        trusted = false ∧ lo_noExtensions opts = true ∧ lo_noContextFiles opts = true ∧ lo_noSkills opts = true
        ∧ lo_noPromptTemplates opts = true ∧ lo_noThemes opts = true
        ∧ (tc_allowLocalTools config = true
           ∨ ∃ pod transport, k8sSandboxExtension (Some pod) transport ∈ lo_extensionFactories opts)
    | _ => True end).
  refine (proj1 (ensures_runs P (fun _ => True) _ _ _ _ Hr)).
  apply execute_ensures; [by intros []|]. intros sandbox sid Hsand. rewrite Hcfg in Hsand. simpl in Hsand.
  apply core_ensures.
  - unfold core_neutral. split_and!; try done. intros exts Hin. rewrite Hcfg. unfold turnLoaderInputs. rewrite Hs.
    cbn [fst snd lo_noExtensions lo_noContextFiles lo_noSkills lo_noPromptTemplates lo_noThemes lo_extensionFactories P].
    split_and!; try done. unfold assertServerSandbox in Hsand. rewrite Hs in Hsand.
    destruct (tc_allowLocalTools config); [by left|right]. simpl in Hsand. to_prop. destruct Hsand as [pod Hpod].
    exists pod, (ts_transport sandbox). rewrite <-Hpod. by destruct (in_promotedConfig input).
  - intros env. apply turn_model_ensures; [done|done|]. intros base env' m writes Ha. split; [done|].
    by eapply gateway_writes.
Qed.

(** ** The lease of a turn *)

(** [ls_taken]: a lease was taken; [ls_held]: and not given back. *)
Record LeaseState := mkLeaseState { ls_opened : bool; ls_taken : bool; ls_held : bool; ls_renewing : bool }.

Definition lease_start : LeaseState := mkLeaseState false false false false.

(** Next, or [None] where the protocol is broken: a sandbox is asked for once and after the
    session is open; the renewal runs only while the lease is held, and is stopped before the
    lease is given back; the agent works only while it is held. *)
Definition lease_step (m : LeaseState) (e : turn_event) : option LeaseState :=
  let '(mkLeaseState opened taken held renewing) := m in
  match e with
  | existT c r =>
      match c return turn_reply c → option LeaseState with
      | OpenFromCheckpoint _ | CreateSession _ => fun r => match r with Ok _ => Some (mkLeaseState true taken held renewing) | Throw _ => Some m end
      | SelectPool _ => fun r =>
          if opened && negb taken then
            match r with Ok (Some s) => Some (mkLeaseState opened (sd_leased s) (sd_leased s) renewing) | _ => Some m end
          else None
      | SetRenewal _ => fun _ => if held && negb renewing then Some (mkLeaseState opened taken held true) else None
      | ClearRenewal => fun _ => if renewing then Some (mkLeaseState opened taken held false) else None
      | Release => fun _ => if renewing then None else Some (mkLeaseState opened taken false renewing)
      | Reload _ _ | CreateAgentSession _ | Prompt _ | FlushBackend => fun _ => if implb taken (held && renewing) then Some m else None
      | _ => fun _ => Some m
      end r
  end.

Fixpoint lease_run (m : LeaseState) (tr : list turn_event) : option LeaseState :=
  match tr with [] => Some m | e :: tr' => m' ← lease_step m e; lease_run m' tr' end.

Lemma lease_run_app m t1 t2 : lease_run m (t1 ++ t2) = m' ← lease_run m t1; lease_run m' t2.
Proof. revert m. induction t1 as [|e t1 IH]; intros m; [done|]. simpl. destruct (lease_step m e); [apply IH|done]. Qed.

(** Calls that do not touch the session or the lease. *)
Definition lease_neutral (c : turn_call) : bool :=
  match c with
  | GetEnv | SetEnv _ _ | GetBranch | Reload _ _ | CreateAgentSession _ | WireAbort | Prompt _ | FlushBackend => true
  | _ => false
  end.

Lemma lease_run_neutral m tr :
  implb (ls_taken m) (ls_held m && ls_renewing m) = true →
  Forall (fun e : turn_event => lease_neutral (projT1 e) = true) tr → lease_run m tr = Some m.
Proof.
  destruct m as [op tk he re]. intros Hm Htr. simpl in Hm. induction Htr as [|[c r] tr Hc _ IH]; [done|]. simpl in Hc |- *.
  destruct c; try done; simpl; rewrite ?Hm; exact IH.
Qed.

Lemma core_neutral_calls input sandbox sid tr o :
  runs (core input sandbox sid) tr o → Forall (fun e : turn_event => lease_neutral (projT1 e) = true) tr.
Proof.
  intros Hr. refine (proj1 (ensures_runs (fun c => lease_neutral c = true) (fun _ => True) _ _ _ _ Hr)).
  apply core_ensures; [unfold core_neutral; by split_and!|].
  intros env. apply turn_model_ensures; [done|done|]. intros. split; [done|]. by eapply gateway_writes.
Qed.

Lemma runs_ask c {A} (f : turn_reply c → turn_prog A) tr o :
  runs (pbind (ask c) f) tr o → ∃ r tr', tr = ev c r :: tr' ∧ runs (f r) tr' o.
Proof. intros Hr%runs_inv. exact Hr. Qed.

(** The session is opened, or the turn ends with what opening it threw. *)
Lemma open_lease input tr o :
  runs (openTurnSession input) tr o →
  lease_run lease_start tr = Some (match o with Ok _ => mkLeaseState true false false false | Throw _ => lease_start end).
Proof.
  unfold openTurnSession. intros (u & t1 & -> & Hr)%runs_ask. cbn in Hr |- *.
  destruct (truthy_opt (in_sessionId input)) as [sid|]; [destruct (in_createIfAbsent input)|].
  - apply runs_inv in Hr as (r & t2 & -> & Hr). destruct r as [s|e]; cbn in Hr |- *.
    + by apply runs_inv in Hr as [-> ->].
    + destruct (no_session e).
      * apply runs_ask in Hr as (r & t3 & -> & Hr). by destruct r; apply runs_inv in Hr as [-> ->].
      * by apply runs_inv in Hr as [-> ->].
  - apply runs_inv in Hr as (r & t2 & -> & Hr). by destruct r; apply runs_inv in Hr as [-> ->].
  - apply runs_inv in Hr as (r & t2 & -> & Hr). by destruct r; apply runs_inv in Hr as [-> ->].
Qed.

(** A sandbox the caller brought is neither leased nor owned here. *)
Lemma acquire_lease injected cwd sid tr o :
  runs (acquireTurnSandbox injected cwd sid) tr o →
  match o with
  | Ok a => lease_run (mkLeaseState true false false false) tr = Some (mkLeaseState true (aq_leased a) (aq_leased a) false)
            ∧ (aq_leased a = true → aq_owned a = true)
            ∧ (is_Some injected → tr = [] ∧ aq_leased a = false ∧ aq_owned a = false)
  | Throw _ => lease_run (mkLeaseState true false false false) tr = Some (mkLeaseState true false false false) ∧ injected = None
  end.
Proof.
  unfold acquireTurnSandbox. destruct injected as [s|].
  - by intros [-> ->]%runs_inv.
  - intros (env & t1 & -> & (u & t2 & -> & (r & t3 & -> & Hr)%runs_ask)%runs_ask)%runs_ask.
    destruct r as [[s|]|e]; cbn in Hr |- *; apply runs_inv in Hr as [-> ->]; simpl; split_and!; try done.
    all: by intros [? [=]].
Qed.

Lemma finally_lease a tr o :
  runs (turn_finally a) tr o →
  (aq_leased a = true → aq_owned a = true) →
  o = Ok tt ∧ ∃ m, lease_run (mkLeaseState true (aq_leased a) (aq_leased a) (aq_leased a)) tr = Some m
    ∧ ls_held m = false ∧ ls_renewing m = false ∧ (aq_leased a = false → aq_owned a = false → tr = []).
Proof.
  unfold turn_finally. intros Hr Ho. destruct (aq_leased a) eqn:El.
  - rewrite (Ho eq_refl) in Hr. apply runs_ask in Hr as (u & t1 & -> & (r & t2 & -> & [-> ->]%runs_inv)%runs_ask).
    split; [done|]. by exists (mkLeaseState true true false false).
  - cbn in Hr. destruct (aq_owned a).
    + apply runs_ask in Hr as (r & t2 & -> & [-> ->]%runs_inv). split; [done|]. by exists (mkLeaseState true false false false).
    + apply runs_inv in Hr as [-> ->]. split; [done|]. by exists (mkLeaseState true false false false).
Qed.

Definition lease_call (c : turn_call) : bool :=
  match c with SelectPool _ | Release | SetRenewal _ | ClearRenewal => true | _ => false end.

Definition server_flags (input : ExecuteTurnInput) : bool * bool :=
  match in_config input with Some c => (tc_serverMode c, tc_allowLocalTools c) | None => (false, false) end.

(** How a run of a turn goes. *)
Lemma execute_runs input tr o :
  runs (execute input) tr o →
  ∃ t1 o1, runs (openTurnSession input) t1 o1 ∧
  match o1 with
  | Throw e => tr = t1 ∧ o = Throw e
  | Ok sid => ∃ t2 o2, runs (acquireTurnSandbox (in_sandbox input) (default proc_cwd (in_config input ≫= tc_cwd)) (Some sid)) t2 o2 ∧
    match o2 with
    | Throw e => tr = t1 ++ t2 ∧ o = Throw e
    | Ok a => ∃ t3, tr = t1 ++ t2 ++ t3 ∧
        if assertServerSandbox (server_flags input).1 (server_flags input).2 (bool_decide (is_Some (ts_config (aq_sandbox a))))
        then (∃ e, o = Throw e) ∧ if aq_owned a then ∃ r, t3 = [ev (R := turn_reply) Release r] else t3 = []
        else ∃ t4 t5 t6 o5, t3 = t4 ++ t5 ++ t6
          ∧ (if aq_leased a then ∃ env ms, t4 = [ev (R := turn_reply) GetEnv env; ev (R := turn_reply) (SetRenewal ms) tt] else t4 = [])
          ∧ runs (core input (aq_sandbox a) sid) t5 o5 ∧ runs (turn_finally a) t6 (Ok tt) ∧ o = o5
    end
  end.
Proof.
  unfold executeTurn. cbn zeta. fold (server_flags input).
  intros [(e & Hr & ->)|(sid & t1 & tr1 & -> & Hr & Hr1)]%runs_bind; [by exists tr, (Throw e)|].
  exists t1, (Ok sid). split; [done|].
  apply runs_bind in Hr1 as [(e & Hr1 & ->)|(a & t2 & tr2 & -> & Hr1 & Hr2)]; [by exists tr1, (Throw e)|].
  exists t2, (Ok a). split; [done|]. exists tr2. split; [done|].
  destruct (assertServerSandbox _ _ _).
  - apply runs_bind in Hr2 as [(e & Hr2 & ->)|(u & t3 & t4 & -> & Hr2 & [-> ->]%runs_inv)].
    + split; [by eauto|]. destruct (aq_owned a); [|by apply runs_inv in Hr2 as [_ ?]].
      apply runs_ask in Hr2 as (r & t4 & -> & Hr2). exists r. by destruct r; apply runs_inv in Hr2 as [-> ?].
    + split; [by eauto|]. rewrite app_nil_r. destruct (aq_owned a); [|by apply runs_inv in Hr2 as [-> _]].
      apply runs_ask in Hr2 as (r & t4 & -> & Hr2). exists r. by destruct r; apply runs_inv in Hr2 as [-> ?].
  - apply runs_bind in Hr2 as [(e & Hr2 & ->)|(u & t4 & t56 & -> & Hr2 & Hr3)].
    { destruct (aq_leased a); [|by apply runs_inv in Hr2 as [_ ?]].
      apply runs_ask in Hr2 as (env & t5 & -> & (u & t6 & -> & [_ ?]%runs_inv)%runs_inv). done. }
    apply runs_finally in Hr3 as (t5 & t6 & o5 & o6 & -> & Hcore & Hf & ->).
    assert (o6 = Ok tt) as ->.
    { unfold turn_finally in Hf. destruct (aq_leased a), (aq_owned a); cbn in Hf;
        repeat (apply runs_inv in Hf as (? & ? & -> & Hf)); by apply runs_inv in Hf as [_ ->]. }
    exists t4, t5, t6, o5. split_and!; try done. destruct (aq_leased a); [|by apply runs_inv in Hr2 as [-> _]].
    apply runs_ask in Hr2 as (env & t7 & -> & (v & t8 & -> & [-> _]%runs_inv)%runs_inv). destruct v. by eexists env, _.
Qed.

Lemma open_no_lease input tr o :
  runs (openTurnSession input) tr o → Forall (fun e : turn_event => lease_call (projT1 e) = false) tr.
Proof.
  intros Hr. by refine (proj1 (ensures_runs (fun c => lease_call c = false) (fun _ => True) _ _ _ (open_ensures _ _ _ _ _) Hr)).
Qed.

Lemma neutral_no_lease (tr : list turn_event) :
  Forall (fun e : turn_event => lease_neutral (projT1 e) = true) tr → Forall (fun e : turn_event => lease_call (projT1 e) = false) tr.
Proof. intros Htr. eapply Forall_impl; [exact Htr|]. intros [c r]. by destruct c. Qed.

(** C13. Whatever fails and whenever, a turn gives back the sandbox it leased: the session is
    opened before a sandbox is asked for, the agent works only while the lease is held and
    renewed, the renewal is stopped before the lease is released, and at the end the release of every
    lease has been asked for and no timer is left.  (The code ignores a release that fails: the
    lease then stays with Redis until it expires, which counts as given back here.)  A turn given
    a sandbox neither leases, renews nor releases one. *)
Theorem turn_lease_lifecycle input tr o :
  runs (execute input) tr o →
  (∃ m, lease_run lease_start tr = Some m ∧ ls_held m = false ∧ ls_renewing m = false)
  ∧ (is_Some (in_sandbox input) → Forall (fun e : turn_event => lease_call (projT1 e) = false) tr).
Proof.
  intros (t1 & o1 & Ho & Hr)%execute_runs. pose proof (open_lease _ _ _ Ho) as Hl1.
  pose proof (open_no_lease _ _ _ Ho) as Hn1. destruct o1 as [sid|e]; [|by destruct Hr as [-> _]; eauto].
  destruct Hr as (t2 & o2 & Ha & Hr). pose proof (acquire_lease _ _ _ _ _ Ha) as Hl2. destruct o2 as [a|e].
  2:{ destruct Hr as [-> _], Hl2 as [Hl2 ->]. rewrite lease_run_app, Hl1. cbn [mbind option_bind]. rewrite Hl2.
      split; [by eauto|]. by intros [? [=]]. }
  destruct Hl2 as (Hl2 & Howned & Hinj), Hr as (t3 & -> & Hr).
  rewrite lease_run_app, Hl1. cbn [mbind option_bind]. rewrite lease_run_app, Hl2. cbn [mbind option_bind].
  destruct (assertServerSandbox _ _ _).
  - destruct Hr as [_ Hr]. split.
    + destruct (aq_owned a) eqn:Eo; [destruct Hr as [r ->]; by eexists|subst t3].
      destruct (aq_leased a); [by specialize (Howned eq_refl)|by eauto].
    + intros Hs. destruct (Hinj Hs) as (-> & _ & Eo). rewrite Eo in Hr. subst t3. by rewrite app_nil_r.
  - destruct Hr as (t4 & t5 & t6 & o5 & -> & H4 & H5 & H6 & _). pose proof (core_neutral_calls _ _ _ _ _ H5) as Hn5.
    pose proof (finally_lease _ _ _ H6 Howned) as (_ & m & Hm & Hh & Hren & H6nil). split.
    + assert (Hl4 : lease_run (mkLeaseState true (aq_leased a) (aq_leased a) false) t4
                    = Some (mkLeaseState true (aq_leased a) (aq_leased a) (aq_leased a))).
      { destruct (aq_leased a); [by destruct H4 as (env & ms & ->)|by subst t4]. }
      rewrite lease_run_app, Hl4. cbn [mbind option_bind]. rewrite lease_run_app, lease_run_neutral by (done || by destruct (aq_leased a)).
      cbn [mbind option_bind]. by eauto.
    + intros Hs. destruct (Hinj Hs) as (-> & El & Eo). rewrite El in H4. subst t4. rewrite (H6nil El Eo).
      rewrite app_nil_l, app_nil_l, app_nil_r. apply Forall_app. split; [done|]. by apply neutral_no_lease.
Qed.

(** A session that does not exist is the caller's error, whether or not there is capacity: the
    turn ends there and asks for no sandbox. *)
Lemma missing_session_first input sid tr o :
  in_createIfAbsent input = false → truthy_opt (in_sessionId input) = Some sid → runs (execute input) tr o →
  ∃ url u r tr', tr = ev (R := turn_reply) (SessionStore url) u :: ev (R := turn_reply) (OpenFromCheckpoint sid) r :: tr'
    ∧ match r with Throw e => tr' = [] ∧ o = Throw e | Ok _ => True end.
Proof.
  intros Hc Hs. unfold executeTurn, openTurnSession. rewrite Hs, Hc. cbn zeta.
  intros (u & t1 & -> & (r & t2 & -> & Hr)%runs_inv)%runs_inv. eexists _, u, r, t2. split; [done|].
  destruct r as [s|e]; [done|]. by apply runs_inv in Hr.
Qed.
End Turns.

(** One store is open at a time: every store ever built but the current one has been closed,
    once. *)
Inductive store_step : StoreMemo → StoreMemo → Prop :=
| store_use url m : store_step m (sharedSessionStore url m).2
| store_reset m : store_step m (resetSharedSessionStore m).

Lemma session_store_no_orphan m :
  rtc store_step (mkStoreMemo None 0 []) m → close_memo m ≡ₚ seq 0 (stores_built m).
Proof.
  revert m. apply (rtc_ind_r (fun m => close_memo m ≡ₚ seq 0 (stores_built m))); [done|].
  intros y z _ Hs IH. destruct Hs as [url m|m]; [|done]. unfold sharedSessionStore, close_memo in *.
  destruct (memo_of m) as [[u s]|] eqn:E; [case_bool_decide|]; cbn [snd memo_of stores_closed stores_built].
  - by rewrite E.
  - rewrite seq_S, <-IH. apply Permutation_cons_append.
  - rewrite seq_S, <-IH. apply Permutation_cons_append.
Qed.

(** ** Witnesses *)

Definition ex_model : Model :=
  mkModel "claude" "claude" (Some "anthropic-messages") "anthropic" None (Some [("Authorization", Some "Bearer ambient")]) []
    (Fin 1%Q) (Fin 1%Q).

Definition ex_config : TurnConfig :=
  mkTurnConfig None None (Some "https://gw") None (Some (mkUpstreamCred direct "sk-caller" (Some x_api_key))) None None true false.

Definition ex_input : ExecuteTurnInput := mkInput (JStr "hi") (Some (JStr "s1")) (Some ex_config) true None false false None None.

Definition ex_pod : K8sSandboxConfig := mkSandboxConfig [] [] None [] [].

(** A pool with a free sandbox, an agent that answers, and the operator's keys in the environment. *)
Definition ex_world (c : turn_call) (s : unit) : turn_reply c * unit :=
  match c return turn_reply c * unit with
  | GetEnv => ({["ANTHROPIC_AUTH_TOKEN" := "ambient"]}, s)
  | RandomUUID => ("u", s)
  | SetEnv _ _ | SessionStore _ | SetRenewal _ | ClearRenewal | WireAbort => (tt, s)
  | OpenFromCheckpoint _ => (Throw (AnError "Error" "no session in backend"), s)
  | CreateSession _ => (Ok "s1", s)
  | SelectPool _ => (Ok (Some (mkSel ex_pod false true)), s)
  | GetBranch => (Ok (Some []), s)
  | Prompt _ => (Ok (Some (mkMessage "assistant" (Some "stop") None [("text", "hello")])), s)
  | Release | Reload _ _ | CreateAgentSession _ | FlushBackend => (Ok tt, s)
  end.

Definition ex_execute : turn_prog TurnResult := executeTurn (fun _ _ => Some ex_model) [] (fun _ => []) "/w" ex_input.

Definition ex_trace : list (event (C := turn_call) (R := turn_reply)) := (ptrace ex_world ex_execute tt).1.

Example ex_turn_result : (ptrace ex_world ex_execute tt).2 = Ok (mkTurnResult "s1" "hello" "stop" None (Some (mkUsage 0 0 0 0 0))).
Proof. by vm_compute. Qed.

Lemma turn_credential_isolated_witness :
  ∃ m, CreateAgentSession m ∈ projT1 <$> ex_trace ∧ carries x_api_key "sk-caller" m.
Proof.
  pose proof (ptrace_runs ex_world ex_execute tt) as Hr.
  pose proof (turn_credential_isolated _ _ _ _ ex_input ex_config (mkUpstreamCred direct "sk-caller" (Some x_api_key)) _ _
    eq_refl eq_refl ltac:(done) Hr) as Hall.
  assert (Hin : existsb (fun c => match c with CreateAgentSession _ => true | _ => false end) (projT1 <$> ex_trace) = true)
    by by vm_compute.
  apply existsb_exists in Hin as (c & Hin%list_elem_of_In & Hc). destruct c; try done. exists model. split; [done|].
  apply list_elem_of_fmap in Hin as (e & He & Hin). rewrite Forall_forall in Hall. specialize (Hall e Hin).
  by rewrite <-He in Hall.
Defined.

Lemma server_turn_locked_down_witness :
  ∃ opts, Reload false opts ∈ projT1 <$> ex_trace ∧ lo_noExtensions opts = true.
Proof.
  pose proof (ptrace_runs ex_world ex_execute tt) as Hr.
  pose proof (server_turn_locked_down _ _ _ _ ex_input ex_config _ _ eq_refl eq_refl Hr) as Hall.
  assert (Hin : existsb (fun c => match c with Reload _ _ => true | _ => false end) (projT1 <$> ex_trace) = true)
    by by vm_compute.
  apply existsb_exists in Hin as (c & Hin%list_elem_of_In & Hc). destruct c; try done. exists opts.
  pose proof Hin as Hin'. apply list_elem_of_fmap in Hin' as (e & He & Hin'). rewrite Forall_forall in Hall.
  specialize (Hall e Hin'). rewrite <-He in Hall. destruct Hall as (-> & Hx & _). done.
Defined.

Definition ex_releases (e : event (C := turn_call) (R := turn_reply)) : bool := match projT1 e with Release => true | _ => false end.

Lemma turn_lease_lifecycle_witness :
  (∃ m, lease_run lease_start ex_trace = Some m ∧ ls_held m = false) ∧ existsb ex_releases ex_trace = true.
Proof.
  pose proof (ptrace_runs ex_world ex_execute tt) as Hr.
  destruct (turn_lease_lifecycle _ _ _ _ ex_input _ _ Hr) as [(m & Hm & Hh & _) _]. split; [by exists m|].
  vm_compute. reflexivity.
Defined.
