(* ===== verification/Server.v ===== *)
(** * The HTTP server

    Models [packages/knative-server/src/server.ts] (the streamed half of a turn is
    [TurnStream.handleTurnStream]), [context-service.ts] and [server-process.ts].  A route is a
    tree of calls ([Prog]): the caller's token and the control plane ([TurnAuth]), the stores,
    Context Service, turns ([RunTurn]) and leaves ([Leaf]), and the response.  Bodies and stored
    records are parsed JSON of any shape, as at run time; a record built here lists the
    properties that are not [undefined].  The environment does not change during a request,
    except for the two constants a turn may set ([RunTurn.CONSTANT_WRITES]). *)

From Stdlib Require Import QArith.
From S2P Require Import Prelude JsNumber Json JsonText Prog CpBase Token Exchange CpRoutes Handlers Boot TurnAuth Tenancy.
From S2P Require Import Gate Leaf WorkQueue TurnStream RunTurn.

Local Open Scope Z_scope.

Abbreviation environ := (gmap string string).

(** What a route rejects with: a typed error of the control plane, or another value, as text. *)
Inductive failure := FCp (e : CpError) | FOther (text : string).

Definition error_string (message : string) : string := "Error: " +:+ message.
Definition type_error (message : string) : failure := FOther ("TypeError: " +:+ message).

(** ** Workloads *)

(** Context Service's reply: none, or a status with its body, [None] if that is not JSON. *)
Inductive fetch_result := FetchFailed (text : string) | Fetched (status : Z) (body : option json).

Inductive store_error := StoreError (text : string).

Inductive server_call :=
| Caller (c : tcall)
| ReadBody
| StoreGet (key : bytes)
| StoreSet (key value : bytes)
| SetResult (key : bytes) (record : LeafResultRecord)
| ContextRequest (method : string) (path : string) (body : option json)
| RandomUUID
| DateNow
| IsoNow
| Sleep (ms : Z)
| RunLeaf (body : json) (config : TurnConfig)
| ExecuteTurn (input : ExecuteTurnInput)
| StreamTurn (input : ExecuteTurnInput)
| ReportRuntime (sessionId : string) (phase : turn_phase)
| EnsureGroup
| Enqueue (body : json)
| Respond (status : Z) (hs : http_headers) (body : option bytes)
| RespondStream (r : Res).

(** [StreamTurn] answers what the response saw while the turn ran, and the turn's outcome. *)
Definition server_reply (c : server_call) : Type :=
  match c with
  | Caller c => tanswer c
  | ReadBody => option bytes                              (* [None]: the request failed *)
  | StoreGet _ => result store_error (option bytes)
  | StoreSet _ _ | SetResult _ _ | EnsureGroup | Enqueue _ => result store_error unit
  | ContextRequest _ _ _ => fetch_result
  | RandomUUID | IsoNow => string
  | DateNow => Z
  | RunLeaf _ _ => result store_error LeafResult
  | ExecuteTurn _ => result turn_error TurnResult
  | StreamTurn _ => list stream_event * result turn_error TurnResult
  | Sleep _ | ReportRuntime _ _ | Respond _ _ _ | RespondStream _ => unit
  end.

Definition server_prog : Type → Type := prog server_call server_reply failure.

Definition query (c : server_call) : server_prog (server_reply c) := Call c Ret.

Definition ok {A} (r : result store_error A) : server_prog A :=
  match r with Ok a => Ret a | Throw (StoreError t) => Err (FOther t) end.

(** [res.writeHead(status, JSON_HEADERS).end(JSON.stringify(body))] *)
Definition reply_json (status : Z) (body : json) : server_prog unit :=
  query (Respond status JSON_HEADERS (Some (stringify body))).

Definition error_json (code : string) : json := JObj [("error", JStr code)].

(** A call on the token's tier, its errors those of a route. *)
Section Caller.
(** [String(err)] of what reading an exchange's reply rejects with. *)
Context (other_text : string).

Definition fail_of (e : thrown) : failure := match e with Cp e => FCp e | Other => FOther other_text end.

Fixpoint as_caller {A} (p : tprog A) : server_prog A :=
  match p with
  | Ret a => Ret a
  | Err e => Err (fail_of e)
  | Call c k => Call (Caller c) (fun r => as_caller (k r))
  end.
End Caller.

(** ** Context Service *)

(** [ms] is the field of an object that may be missing, or of [null]. *)
Definition opt_get (name : string) (o : option json) : option json := o ≫= field name.

(** [v ?? d] *)
Definition nullish (v : option json) (d : json) : json := match v with None | Some JNull => d | Some j => j end.

Definition contextServiceConfigured (env : environ) : bool :=
  match env !! "CONTEXT_SERVICE_URL" with Some u => negb (bool_decide (trim_str u = "")) | None => false end.

(** [request]: the body of a reply in the 200s. *)
Definition request (method path : string) (body : option json) : server_prog (option json) :=
  await r <- query (ContextRequest method path body);
  match r with
  | FetchFailed t => Err (FOther t)
  | Fetched status parsed =>
      if (200 <=? status) && (status <? 300) then Ret parsed
      else
        match default (JObj []) parsed with
        | JNull => Err (type_error "Cannot read properties of null (reading 'message')")
        | b => Err (FOther (error_string (string_of (js_string
                 (nullish (field "message" b) (JStr ("Context Service returned " +:+ dec_str status)))))))
        end
  end.

(** [response.json()] *)
Definition body_json (parsed : option json) : server_prog json :=
  match parsed with Some j => Ret j | None => Err (FOther "SyntaxError: the body is not JSON") end.

(** [workload]: the record of a pool. *)
Definition workload (pool : json) : server_prog json :=
  match pool with
  | JNull => Err (type_error "Cannot read properties of null (reading 'name')")
  | _ => Ret (JObj (opt_field "workloadId" (field "name" pool) ++ opt_field "status" (field "status" pool)
                    ++ opt_field "replicas" (field "replicas" pool) ++ opt_field "readyReplicas" (field "readyReplicas" pool)
                    ++ opt_field "sandboxSelector" (field "sandboxSelector" pool)
                    ++ opt_field "workspace" (field "workspace" pool)))
  end.

Definition is_true (j : option json) : bool := match j with Some (JBool true) => true | _ => false end.

Definition pool_request (workloadId spec : json) : json :=
  let ws := field "workspace" spec in
  let shared := is_true (opt_get "shared" ws) in
  let workspace := match truthy_opt (opt_get "claimName" ws) with
                   | Some c => JObj (("claimName", c) :: opt_field "readOnly" (opt_get "readOnly" ws))
                   | None => JObj ([("size", nullish (opt_get "size" ws) (JStr "1Gi"));
                                    ("accessMode", JStr (if shared then "ReadWriteMany" else "ReadWriteOnce"))]
                                   ++ opt_field "storageClass" (truthy_opt (opt_get "storageClass" ws)))
                   end in
  JObj [("name", workloadId);
        ("replicas", nullish (field "sandboxes" spec) (jint (if shared then 2 else 1))); ("workspace", workspace)].

Definition createWorkload (workloadId spec : json) : server_prog json :=
  await pool <- request "POST" "/v1/sandbox-pools" (Some (pool_request workloadId spec));
  await j <- body_json pool; workload j.

Definition pool_path (workloadId : string) : string :=
  "/v1/sandbox-pools/" +:+ string_of (encodeURIComponent (bytes_of workloadId)).

Definition getWorkload (workloadId : string) : server_prog json :=
  await pool <- request "GET" (pool_path workloadId) None; await j <- body_json pool; workload j.

Definition deleteWorkload (workloadId : string) : server_prog unit :=
  await _ <- request "DELETE" (pool_path workloadId) None; Ret tt.

(** ** Records of workloads *)

Definition workload_key (id : option json) : bytes :=
  bytes_of "sh:workload:" ++ match id with Some j => js_string j | None => bytes_of "undefined" end.
Definition workloadKey (id : json) : bytes := workload_key (Some id).

Definition withOwner (record : json) (subject : option string) : json :=
  match record with
  | JObj fs => JObj (map_delete "owner" fs ++ opt_field "owner" (JStr <$> subject))
  | j => j
  end.

Definition saveWorkload (record : json) : server_prog unit :=
  await r <- query (StoreSet (workload_key (field "workloadId" record)) (stringify record)); ok r.

(** What a stored text holds; [None] when there is none, it is not JSON, or it is falsy, which
    every caller tests. *)
Definition stored_json (raw : option bytes) : option json :=
  match raw with None | Some [] => None | Some text => truthy_opt (parse text) end.

Definition findWorkload (id : json) : server_prog (option json) :=
  await r <- query (StoreGet (workloadKey id)); await raw <- ok r; Ret (stored_json raw).

(** [(record.owner ?? null) === subject] *)
Definition ownedBy (record : json) (subject : option string) : bool :=
  match field "owner" record with
  | None | Some JNull => bool_decide (subject = None)
  | Some (JStr o) => bool_decide (subject = Some o)
  | Some _ => false
  end.

Definition mayDelete (record : json) (subject : option string) : bool :=
  match field "owner" record with None => true | Some _ => ownedBy record subject end.

Definition is_deleted (record : json) : bool := bool_decide (as_string (field "status" record) = Some "deleted").

(** [===] on what the values here can be: strings, numbers and booleans. *)
Definition same_json (a : option json) (b : json) : bool :=
  match a, b with
  | Some (JStr x), JStr y => bool_decide (x = y)
  | Some (JNum x), JNum y => Qeq_bool x y
  | Some (JBool x), JBool y => Bool.eqb x y
  | _, _ => false
  end.

Definition sameWorkload (record workloadId : json) : server_prog json :=
  if same_json (field "workloadId" record) workloadId then Ret record
  else Err (FOther (error_string ("Context Service answered for '" +:+
         match field "workloadId" record with Some j => string_of (js_string j) | None => "undefined" end
         +:+ "', not '" +:+ string_of (js_string workloadId) +:+ "'"))).

(** [/^[a-z0-9](?:[-a-z0-9]*[a-z0-9])?$/] on the text of a value. *)
Definition name_char (c : ascii) : bool := is_digit c || (letter c && negb (upper c)).

Definition WORKLOAD_NAME (s : bytes) : bool :=
  match s with
  | [] => false
  | c :: _ => name_char c && match last s with Some d => name_char d | None => false end
              && forallb (fun c => name_char c || bool_decide (c = "-"%char)) s
  end.

(** [v.length > 50] *)
Definition too_long (v : json) : bool :=
  match v with
  | JStr s => (50 <? String.length s)%nat
  | JArr l => (50 <? length l)%nat
  | JObj fs => match map_get "length" fs with Some (JNum q) => negb (Qle_bool q 50) | _ => false end
  | _ => false
  end.

Definition workload_name_ok (v : json) : bool := negb (too_long v) && WORKLOAD_NAME (js_string v).

(** ** Envelopes *)

Definition str_field (name : string) (o : json) : bool := match field name o with Some (JStr _) => true | _ => false end.

Definition kind_is (k : string) (o : json) : bool := bool_decide (as_string (field "kind" o) = Some k).

Definition isLeafEnvelope (o : json) : bool :=
  truthy o && str_field "sessionId" o && match field "item" o with Some i => bool_decide (is_Some (validateItem i)) | None => false end.

Definition isSolveEnvelope (o : json) : bool :=
  truthy o && str_field "sessionId" o && kind_is "solve" o && str_field "problemStatement" o && str_field "repoUrl" o
  && str_field "ref" o.

Definition isPromptEnvelope (o : json) : bool :=
  truthy o && str_field "sessionId" o && kind_is "prompt" o && str_field "prompt" o.

Definition isRunEnvelope (o : json) : bool := isLeafEnvelope o || isSolveEnvelope o || isPromptEnvelope o.

Definition configRefValid (o : json) : bool :=
  match field "configRef" o with
  | None | Some JNull => true
  | Some (JStr s) => negb (bool_decide (trim_str s = ""))
  | Some _ => false
  end.

(** [leafSessionId], on an envelope as parsed. *)
Definition leaf_id (sessionId tenant : option json) : bytes :=
  let sid := match sessionId with Some j => js_string j | None => bytes_of "undefined" end in
  toSessionId (match truthy_opt tenant with Some t => js_string t ++ SLASH :: sid | None => sid end).

(** ** Results on the wire *)

Definition reason_name (r : fail_reason) : string :=
  match r with
  | no_verdict => "no_verdict" | invalid_verdict => "invalid_verdict" | bad_inputs => "bad_inputs"
  | error => "error" | saturated => "saturated"
  end.

Definition verdict_json (v : Verdict) : json :=
  JObj [("item_id", JStr (v_item_id v));
        ("verdict", JStr (match v_verdict v with FLAGGED => "FLAGGED" | CLEAR => "CLEAR" end));
        ("reason", JStr (v_reason v))].

Definition result_json (r : LeafResult) : json :=
  JObj match r with
       | RDone v => [("status", JStr "done"); ("verdict", verdict_json v)]
       | RPaused g s a => [("status", JStr "paused"); ("gateId", JNum g);
                           ("gate", JObj [("summary", JStr s); ("proposed_action", JStr a)])]
       | RAborted => [("status", JStr "aborted")]
       | RSolved p u => [("status", JStr "solved"); ("patch", JStr p)] ++ opt_field "usage" (usage_json <$> u)
       | RResponded t u => [("status", JStr "responded"); ("text", JStr t)] ++ opt_field "usage" (usage_json <$> u)
       | RFailed r m => [("status", JStr "failed"); ("reason", JStr (reason_name r))] ++ opt_field "message" (JStr <$> m)
       end.

Definition isSaturated (r : LeafResult) : bool := match r with RFailed saturated _ => true | _ => false end.

Definition turn_result_json (r : TurnResult) : json :=
  JObj ([("sessionId", JStr (tr_sessionId r)); ("response", JStr (tr_response r)); ("stopReason", JStr (tr_stopReason r))]
        ++ opt_field "errorMessage" (JStr <$> nonempty (tr_errorMessage r)) ++ opt_field "usage" (usage_json <$> tr_usage r)).

(** ** Routes *)

(** A run that was cut off while it still waited for a sandbox. *)
Inductive progress_of := Finished | Waiting.

Section Routes.
Context `{Ed25519}.
Context (env_list : list (string * string)) (proc_cwd : string).
(** [credentialValue(env, 'SH_EXCHANGE_TOKEN')], and [String(err)] of a reply that cannot be read. *)
Context (exchange_token : result string (option string)) (other_text : string).

Definition env : environ := list_to_map env_list.

Definition buildConfig (auth : option TurnAuth) : TurnConfig :=
  let cwd := Some (match TurnStream.nonempty (env !! "HARNESS_CWD") with Some d => d | None => proc_cwd end) in
  let allowLocalTools := bool_decide (env !! "SH_LOCAL_TOOLS" = Some "1") in
  match auth with
  | Some a =>
      let c := ta_credential a in
      mkTurnConfig (env !! "REDIS_URL") cwd (Some (up_baseUrl c)) None
        (Some (mkUpstreamCred (up_mode c) (up_value c) (up_header c))) None None true allowLocalTools
  | None =>
      mkTurnConfig (env !! "REDIS_URL") cwd (env !! "ANTHROPIC_BASE_URL") (env !! "ANTHROPIC_AUTH_TOKEN") None None None
        true allowLocalTools
  end.

(** [turnAuthDepsFromEnv(process.env)]: the keyset is read first. *)
Definition turnAuthDeps : server_prog TurnAuthDeps :=
  match turnAuthDepsFromEnv env None with
  | Throw e => Err (fail_of other_text e)
  | Ok _ =>
      match exchange_token with
      | Throw m => Err (FOther (error_string m))
      | Ok t => match turnAuthDepsFromEnv env t with Ok d => Ret d | Throw e => Err (fail_of other_text e) end
      end
  end.

(** An error that is not typed is thrown on. *)
Definition writeAuthError (err : failure) (sessionId : option json) : server_prog unit :=
  match err with
  | FOther _ => Err err
  | FCp e =>
      reply_json (statusFor (code e))
        (JObj (("error", JStr (code_name (code e)))
               :: (if bool_decide (message e = "") || bool_decide (message e = code_name (code e)) then []
                   else [("message", JStr (message e))])
               ++ truthy_field "sessionId" sessionId))
  end.

(** [try { ... } catch (err) { writeAuthError(res, err, sessionId); return; }] *)
Definition caller_or {A} (p : server_prog A) (sessionId : option json) : server_prog (option A) :=
  pcatch (await a <- p; Ret (Some a)) (fun err => await _ <- writeAuthError err sessionId; Ret None).

Definition turn_error_reply (e : turn_error) (sessionId : option json) : server_prog unit :=
  let status := turnErrorStatus e in
  query (Respond status (turnErrorHeaders env status) (Some (stringify (turn_error_body e sessionId)))).

Definition wantsStream (hs : headers) : bool :=
  contains (bytes_of "text/event-stream") (bytes_of (toLowerCase (default "" (header hs "accept")))).

Definition turn_input (prompt : json) (sessionId : option json) (auth : option TurnAuth) (streams : bool) : ExecuteTurnInput :=
  mkInput prompt (match auth with Some a => Some (JStr (ta_sessionId a)) | None => sessionId end) (Some (buildConfig auth))
    (bool_decide (is_Some auth)) None streams streams None None.

Definition report (auth : option TurnAuth) (p : turn_phase) : server_prog unit :=
  match auth with Some a => query (ReportRuntime (ta_sessionId a) p) | None => Ret tt end.

Definition stream_turn (prompt : json) (sessionId : option json) (auth : option TurnAuth) : server_prog unit :=
  await _ <- report auth turn_start;
  await seen <- query (StreamTurn (turn_input prompt sessionId auth true));
  await _ <- report auth turn_end;
  query (RespondStream (handleTurnStream env sessionId seen.1 seen.2)).

Definition plain_turn (prompt : json) (sessionId : option json) (auth : option TurnAuth) : server_prog unit :=
  await _ <- report auth turn_start;
  await r <- query (ExecuteTurn (turn_input prompt sessionId auth false));
  match r with
  | Ok result =>
      await _ <- reply_json 200 (turn_result_json result);
      report auth turn_end
  | Throw e => await _ <- report auth turn_end; turn_error_reply e sessionId
  end.

Definition handleTurn (hs : headers) : server_prog unit :=
  await b <- query ReadBody;
  match b with
  | None => reply_json 400 (error_json "read_error")
  | Some body =>
      match parse body with
      | None => reply_json 400 (error_json "invalid_json")
      | Some JNull => Err (type_error "Cannot destructure property 'sessionId' of 'parsed' as it is null.")
      | Some parsed =>
          let sessionId := field "sessionId" parsed in
          match truthy_opt (field "prompt" parsed) with
          | None => reply_json 400 (error_json "prompt_required")
          | Some prompt =>
              await who <- caller_or (await deps <- turnAuthDeps; as_caller other_text (resolveTurnAuth deps hs sessionId)) sessionId;
              match who with
              | None => Ret tt
              | Some auth => if wantsStream hs then stream_turn prompt sessionId auth else plain_turn prompt sessionId auth
              end
          end
      end
  end.

(** ** Workload routes *)

(** The caller's subject, [None] for an anonymous one; [None] when the request was refused. *)
Definition workloadCaller (hs : headers) : server_prog (option (option string)) :=
  caller_or (await deps <- turnAuthDeps; as_caller other_text (authenticateSubject deps hs)) None.

Definition context_failure {A} (p : server_prog A) : server_prog (option A) :=
  pcatch (await a <- p; Ret (Some a))
    (fun _ => await _ <- reply_json 502 (error_json "context_service_error"); Ret None).

(** The guards of the three routes: the caller, then Context Service. *)
Definition with_caller (hs : headers) (k : option string → server_prog unit) : server_prog unit :=
  await who <- workloadCaller hs;
  match who with
  | None => Ret tt
  | Some subject =>
      if contextServiceConfigured env then k subject
      else reply_json 501 (error_json "context_service_not_configured")
  end.

Definition is_multi : server_prog bool :=
  match readTenancy env_list with
  | Ok t => Ret (match t with multi => true | single => false end)
  | Throw m => Err (FOther (error_string m))
  end.

Definition names_claim (spec : json) : bool :=
  match opt_get "claimName" (field "workspace" spec) with Some _ => true | None => false end.

(** [subject !== null || readTenancy(process.env) === 'multi'] *)
Definition claims_refused (subject : option string) : server_prog bool :=
  match subject with Some _ => Ret true | None => is_multi end.

Definition create_named (subject : option string) (workloadId spec : json) : server_prog unit :=
  if negb (workload_name_ok workloadId) then reply_json 400 (error_json "workload_name_invalid")
  else
    await refused <- (if names_claim spec then claims_refused subject else Ret false);
    if refused then reply_json 400 (error_json "claim_name_not_allowed")
    else
      await existing <- findWorkload workloadId;
      if match existing with Some r => negb (is_deleted r) && negb (ownedBy r subject) | None => false end
      then reply_json 409 (error_json "workload_name_taken")
      else
        await _ <- context_failure (
          await made <- createWorkload workloadId spec;
          await same <- sameWorkload made workloadId;
          let record := withOwner same subject in
          await _ <- saveWorkload record;
          reply_json 201 record);
        Ret tt.

Definition handleCreateWorkload (hs : headers) : server_prog unit :=
  with_caller hs (fun subject =>
    await b <- query ReadBody;
    match b ≫= parse with
    | None => reply_json 400 (error_json "invalid_json")
    | Some JNull => Err (type_error "Cannot read properties of null (reading 'name')")
    | Some spec =>
        await workloadId <- (match field "name" spec with
                             | None | Some JNull => await u <- query RandomUUID; Ret (JStr ("wl-" +:+ String.substring 0 8 u))
                             | Some n => Ret n
                             end);
        create_named subject workloadId spec
    end).

Definition handleGetWorkload (hs : headers) (id : string) : server_prog unit :=
  with_caller hs (fun subject =>
    await stored <- findWorkload (JStr id);
    if match stored with Some r => ownedBy r subject | None => false end then
      await _ <- context_failure (
        await found <- getWorkload id;
        await same <- sameWorkload found (JStr id);
        let record := withOwner same subject in
        await _ <- saveWorkload record;
        reply_json 200 record);
      Ret tt
    else reply_json 404 (error_json "workload_not_found")).

(** [{ ...record, status: 'deleted', readyReplicas: 0 }]; a stored record is an object. *)
Definition deleted_record (record : json) : json :=
  match record with
  | JObj fs => JObj (map_set "readyReplicas" (jint 0) (map_set "status" (JStr "deleted") fs))
  | _ => JObj [("status", JStr "deleted"); ("readyReplicas", jint 0)]
  end.

Definition handleDeleteWorkload (hs : headers) (id : string) : server_prog unit :=
  with_caller hs (fun subject =>
    await stored <- findWorkload (JStr id);
    match stored with
    | Some record =>
        if is_deleted record || negb (mayDelete record subject) then reply_json 404 (error_json "workload_not_found")
        else
          await _ <- context_failure (
            await _ <- deleteWorkload id;
            await _ <- saveWorkload (deleted_record record);
            query (Respond 204 [] None));
          Ret tt
    | None => reply_json 404 (error_json "workload_not_found")
    end).

(** ** Run routes *)

(** The body a run goes on with, its pool's selector added; [None] when it was refused. *)
Definition resolveRunWorkload (body : json) (subject : option string) : server_prog (option json) :=
  match truthy_opt (field "workloadId" body) with
  | None => Ret (Some body)
  | Some id =>
      await record <- findWorkload id;
      match record with
      | Some r =>
          if is_deleted r || negb (ownedBy r subject) then
            await _ <- reply_json 404 (error_json "workload_not_found"); Ret None
          else Ret (Some (match body with
                          | JObj fs => JObj (match field "sandboxSelector" r with
                                             | Some s => map_set "sandboxPoolSelector" s fs
                                             | None => map_delete "sandboxPoolSelector" fs
                                             end)
                          | j => j
                          end))
      | None => await _ <- reply_json 404 (error_json "workload_not_found"); Ret None
      end
  end.

(** The envelope's checks, then [k] with the workload resolved. *)
Definition with_run (body : json) (subject : option string) (k : json → server_prog progress_of) : server_prog progress_of :=
  if negb (isRunEnvelope body) then await _ <- reply_json 400 (error_json "envelope_invalid"); Ret Finished
  else if negb (configRefValid body) then await _ <- reply_json 400 (error_json "configRef_invalid"); Ret Finished
  else await b <- resolveRunWorkload body subject; match b with None => Ret Finished | Some b => k b end.

Definition handleEnqueueLeafParsed (body : json) : server_prog progress_of :=
  with_run body None (fun b =>
    await r1 <- query EnsureGroup; await _ <- ok r1;
    await r2 <- query (Enqueue b); await _ <- ok r2;
    await _ <- reply_json 202 (JObj (("status", JStr "accepted") :: opt_field "sessionId" (field "sessionId" b)));
    Ret Finished).

(** The bounded wait, at most [n] more attempts: [None] while still waiting after them. *)
Fixpoint saturation_wait (n : nat) (body : json) (config : TurnConfig) (deadline maxBackoff delay : Z) (result : LeafResult) :
    server_prog (option LeafResult) :=
  if isSaturated result then
    await now <- query DateNow;
    if now <? deadline then
      match n with
      | O => Ret None
      | S n =>
          await now2 <- query DateNow;
          await _ <- query (Sleep (Z.min delay (Z.max 0 (deadline - now2))));
          await r <- query (RunLeaf body config);
          await result <- ok r;
          saturation_wait n body config deadline maxBackoff (Z.min (delay * 2) maxBackoff) result
      end
    else Ret (Some result)
  else Ret (Some result).

Definition handleRunLeafParsed (n : nat) (body : json) (auth : option TurnAuth) : server_prog progress_of :=
  with_run body (ta_subject <$> auth) (fun b =>
    let cfg := saturationWaitConfig env in
    await now <- query DateNow;
    await r <- query (RunLeaf b (buildConfig auth));
    await first <- ok r;
    await result <- saturation_wait n b (buildConfig auth) (now + waitMs cfg) (maxBackoffMs cfg) (backoffMs cfg) first;
    match result with
    | None => Ret Waiting
    | Some result =>
        if isSaturated result then
          await _ <- query (Respond 503 (JSON_HEADERS ++ [("Retry-After", dec_str (retryAfterS cfg))])
                              (Some (stringify (JObj [("status", JStr "failed"); ("reason", JStr "saturated")]))));
          Ret Finished
        else
          await ts <- query IsoNow;
          await w <- query (SetResult (resultKey (leaf_id (field "sessionId" b) (field "tenant" b)))
                              (toResultRecord result (default "" (as_string (field "sessionId" b))) ts));
          await _ <- ok w;
          await _ <- reply_json 200 (result_json result);
          Ret Finished
    end).

(** The body of [POST /runs], as parsed, without the caller's pool selector. *)
Definition run_body (raw : bytes) : json :=
  match parse raw with
  | Some (JObj fs) => JObj (map_delete "sandboxPoolSelector" fs)
  | Some j => j
  | None => JObj []
  end.

Definition runs_route (n : nat) (hs : headers) : server_prog progress_of :=
  await b <- query ReadBody;
  match b with
  | None => Err (FOther (error_string "aborted"))
  | Some raw =>
      let parsed := run_body raw in
      await who <- caller_or (await deps <- turnAuthDeps;
                              await auth <- as_caller other_text (resolveTurnAuth deps hs (field "sessionId" parsed));
                              Ret (requireAuth deps, auth)) (field "sessionId" parsed);
      match who with
      | None => Ret Finished
      | Some (required, auth) =>
          if bool_decide (is_Some auth) && truthy parsed && bool_decide (is_Some (field "tenant" parsed)) then
            await _ <- reply_json 400 (error_json "tenant_not_allowed"); Ret Finished
          else if is_true (field "async" parsed) then
            if required || bool_decide (is_Some auth) then
              await _ <- reply_json 501 (JObj [("error", JStr "async_runs_unavailable");
                           ("message", JStr "asynchronous runs are not available when callers authenticate")]);
              Ret Finished
            else handleEnqueueLeafParsed parsed
          else handleRunLeafParsed n parsed auth
      end
  end.

(** ** Status of a run *)

Definition status_body (record : json) : json :=
  let get n := opt_field n (field n record) in
  match as_string (field "status" record) with
  | Some "done" => JObj (("status", JStr "done") :: get "verdict")
  | Some "solved" => JObj (("status", JStr "solved") :: get "patch")
  | Some "paused" => JObj (("status", JStr "paused") :: opt_field "gateId" (opt_get "gateId" (field "gate" record)) ++ get "gate")
  | Some "failed" => JObj (("status", JStr "failed") :: match field "reason" record with None | Some JNull => [] | Some r => [("reason", r)] end)
  | Some "responded" => JObj (("status", JStr "responded") :: get "text")
  | _ => JObj (get "status")
  end.

Definition readResult (leafSessionId : bytes) : server_prog (option json) :=
  await r <- query (StoreGet (resultKey leafSessionId)); await raw <- ok r; Ret (stored_json raw).

Definition handleLeafStatus (params : list (string * string)) : server_prog unit :=
  match TurnStream.nonempty (map_get "sessionId" params) with
  | None => reply_json 400 (error_json "sessionId_required")
  | Some sessionId =>
      await record <- readResult (leaf_id (Some (JStr sessionId)) (JStr <$> map_get "tenant" params));
      reply_json 200 (match record with None => JObj [("status", JStr "queued")] | Some r => status_body r end)
  end.

Definition status_route (hs : headers) (url : bytes) : server_prog unit :=
  let params := searchParams url in
  match TurnStream.nonempty (map_get "sessionId" params) with
  | None => reply_json 400 (error_json "sessionId_required")
  | Some sessionId =>
      await who <- caller_or (await deps <- turnAuthDeps; as_caller other_text (authorizeRunRead deps hs sessionId))
                     (Some (JStr sessionId));
      match who with
      | None => Ret tt
      | Some authenticated =>
          if authenticated && map_has "tenant" params then reply_json 400 (error_json "tenant_not_allowed")
          else handleLeafStatus params
      end
  end.

(** ** The handler *)

(** [route().catch(err => { if (!res.headersSent) ... })] *)
Definition failure_text (e : failure) : string := match e with FCp e => "CpError: " +:+ message e | FOther t => t end.

Definition sends (c : server_call) : bool := match c with Respond _ _ _ | RespondStream _ => true | _ => false end.

Fixpoint caught {A} (done : A) (sent : bool) (p : server_prog A) : server_prog A :=
  match p with
  | Ret a => Ret a
  | Err e => if sent then Ret done else await _ <- reply_json 500 (error_json (failure_text e)); Ret done
  | Call c k => Call c (fun r => caught done (sent || sends c) (k r))
  end.

(** [/^\/workloads\/([^/?]+)$/] *)
Definition workload_match (url : bytes) : option bytes :=
  match url with
  | [] => None
  | _ => if starts_with (bytes_of "/workloads/") url then
           let id := drop 11 url in
           if bool_decide (id = []) || bool_decide (SLASH ∈ id) || bool_decide ("?"%char ∈ id) then None else Some id
         else None
  end.

(** What the listener does with a request: a route's promise, or an exception out of it. *)
Inductive listened := Promise (p : server_prog progress_of) | Uncaught (text : string).

Definition whole (p : server_prog unit) : server_prog progress_of := caught Finished false (await _ <- p; Ret Finished).

Definition with_id (id : bytes) (k : string → server_prog unit) : listened :=
  match decodeURIComponent id with
  | Some s => Promise (whole (k (string_of s)))
  | None => Uncaught "URIError: URI malformed"
  end.

Definition handler (n : nat) (method : string) (url : bytes) (hs : headers) : listened :=
  let exact u := bool_decide (url = bytes_of u) in
  let under u := starts_with (bytes_of u) url in
  let meth m := bool_decide (method = m) in
  if meth "GET" && exact "/health" then Promise (await _ <- query (Respond 200 [] (Some (bytes_of "ok"))); Ret Finished)
  else if meth "POST" && exact "/workloads" then Promise (whole (handleCreateWorkload hs))
  else
    match workload_match url with
    | Some id => if meth "GET" then with_id id (handleGetWorkload hs)
                 else if meth "DELETE" then with_id id (handleDeleteWorkload hs)
                 else Promise (await _ <- query (Respond 404 [] None); Ret Finished)
    | None =>
        if meth "GET" && (under "/runs/status" || under "/run-leaf/status") then Promise (whole (status_route hs url))
        else if meth "POST" && (exact "/runs" || exact "/run-leaf" || exact "/v1/runs") then Promise (caught Finished false (runs_route n hs))
        else if meth "POST" && (exact "/turn" || exact "/v1/turn") then Promise (whole (handleTurn hs))
        else Promise (await _ <- query (Respond 404 [] None); Ret Finished)
    end.

(** ** Callers *)

Abbreviation server_event := (event (C := server_call) (R := server_reply)).
Abbreviation history := (list server_event).

(** The settings a caller is checked with. *)
Definition deps_of (deps : TurnAuthDeps) : Prop :=
  ∃ t, exchange_token = Ok t ∧ turnAuthDepsFromEnv env t = Ok deps.

(** A request without a token, where none is required. *)
Definition anonymous (hs : headers) : Prop := bearer hs = None ∧ ∃ deps, deps_of deps ∧ requireAuth deps = false.

(** The request's own token, signed for turns at a time read while it was served. *)
Definition signed (hs : headers) (h : history) (tok : string) (claims : json) : Prop :=
  ∃ deps now, deps_of deps ∧ bearer hs = Some tok ∧ ev (R := server_reply) (Caller TurnNow) now ∈ h
    ∧ verifyToken (bytes_of tok) (keys deps) (now / 1000) (Some "turn:write") = Ok claims.

(** The request is [subject]'s, or nobody's ([None]). *)
Definition is_subject (hs : headers) (h : history) (subject : option string) : Prop :=
  match subject with
  | None => anonymous hs
  | Some s => ∃ tok claims, signed hs h tok claims ∧ s = sub (claims_of claims)
  end.

(** What the control plane answered while the request was served, when it was asked with [tok]. *)
Definition granted (h : history) (tok : string) (c : Upstream) : Prop :=
  ∃ deps base text body, deps_of deps ∧ controlPlaneUrl deps = Some base
    ∧ ev (R := server_reply) (Caller (PostExchange (base +:+ "/internal/credentials") (exchange_authorization deps)
                                        (JObj [("token", JStr tok)]))) (Reply 200 text) ∈ h
    ∧ parse text = Some body
    ∧ field "anthropicAuthToken" body = Some (JStr (up_value c)) ∧ up_value c ≠ ""
    ∧ field "anthropicBaseUrl" body = Some (JStr (up_baseUrl c)) ∧ up_baseUrl c ≠ ""
    ∧ field "mode" body = Some (JStr (mode_name (up_mode c)))
    ∧ field "authHeader" body ∈ match up_header c with
                                | Some Credentials.x_api_key => [Some (JStr "x-api-key")]
                                | _ => [None; Some (JStr "authorization")]
                                end.

(** The request may drive the session its body names, as [auth] or as nobody: [auth] is the
    token's subject and session, with the credential granted to that token. *)
Definition is_turn_caller (hs : headers) (h : history) (sessionId : option json) (auth : option TurnAuth) : Prop :=
  match auth with
  | None => anonymous hs
  | Some a => ∃ tok claims, signed hs h tok claims
      ∧ ta_subject a = sub (claims_of claims) ∧ sid (claims_of claims) = Some (ta_sessionId a)
      ∧ (sessionId = None ∨ sessionId = Some (JStr (ta_sessionId a)))
      ∧ granted h tok (ta_credential a)
  end.

Lemma elem_app_l {A} (x : A) l l' : x ∈ l → x ∈ l ++ l'.
Proof. intros. apply elem_of_app. by left. Qed.

Lemma signed_app hs h h' tok claims : signed hs h tok claims → signed hs (h ++ h') tok claims.
Proof. intros (deps & now & ? & ? & ? & ?). exists deps, now. split_and!; auto using elem_app_l. Qed.

Lemma is_subject_app hs h h' subject : is_subject hs h subject → is_subject hs (h ++ h') subject.
Proof. destruct subject; [|done]. intros (tok & claims & ? & ->). exists tok, claims. auto using signed_app. Qed.

Lemma granted_app h h' tok c : granted h tok c → granted (h ++ h') tok c.
Proof.
  intros (deps & base & text & body & ? & ? & Hin & ?). exists deps, base, text, body.
  split; [done|]. split; [done|]. split; [by apply elem_app_l|done].
Qed.

Lemma is_turn_caller_app hs h h' sessionId auth : is_turn_caller hs h sessionId auth → is_turn_caller hs (h ++ h') sessionId auth.
Proof.
  destruct auth; [|done]. intros (tok & claims & ? & ? & ? & ? & ?). exists tok, claims.
  split_and!; auto using signed_app, granted_app.
Qed.

(** The calls of a check of the caller, as the request's history has them. *)
Definition lifted (tr : list (event (C := tcall) (R := tanswer))) : history :=
  (fun e => ev (R := server_reply) (Caller (projT1 e)) (projT2 e)) <$> tr.

Lemma resolve_caller deps hs sessionId tr auth h :
  deps_of deps → runs (resolveTurnAuth deps hs sessionId) tr (Ok auth) → is_turn_caller hs (h ++ lifted tr) sessionId auth.
Proof.
  intros Hd Hr. pose proof (resolve_sound _ _ _ _ _ Hr) as Hs. destruct auth as [a|].
  - destruct Hs as (tok & now & payload & base & status & text & Hb & Hv & Hsub & Hsid & Hbody & _ & -> & Hrep & Hbase).
    apply read_reply_fields in Hrep as (body & -> & Hp & Hfields).
    exists tok, payload. split_and!; try done.
    + exists deps, now. split_and!; try done. apply elem_of_app. right. by left.
    + exists deps, base, text, body. split_and!; try done; try apply Hfields. apply elem_of_app. right. by right; left.
  - destruct Hs as (Hb & Hreq & _). split; [done|]. by exists deps.
Qed.

Lemma authenticate_subject deps hs tr subject h :
  deps_of deps → runs (authenticateSubject deps hs) tr (Ok subject) → is_subject hs (h ++ lifted tr) subject.
Proof.
  intros Hd. unfold authenticateSubject. destruct (bearer hs) as [tok|] eqn:Hb.
  - intros (now & tr' & -> & Hr)%runs_turn_claims. destruct (verifyToken _ _ _ _) as [payload|] eqn:Hv; [|by destruct Hr].
    apply runs_inv in Hr as [-> [= ->]]. exists tok, payload. split; [|done]. exists deps, now. split_and!; try done.
    apply elem_of_app. right. by left.
  - destruct (requireAuth deps) eqn:Hreq; [by intros [_ ?]%runs_inv|]. intros [-> [= ->]]%runs_inv. split; [done|]. by exists deps.
Qed.

(** Calls that neither send nor act for anyone. *)
Definition idle (c : server_call) : bool := match c with Caller _ => true | _ => false end.

Lemma as_caller_spec {A} P (Q : history → A → Prop) X h (q : tprog A) :
  (∀ h c, P h (Caller c)) →
  (∀ tr o, runs q tr o →
     match o with Ok a => Q (h ++ lifted tr) a | Throw e => X (h ++ lifted tr) (fail_of other_text e) end) →
  spec P Q X h (as_caller other_text q).
Proof.
  intros HP. revert h. induction q as [a|e|c k IH]; intros h HQ; simpl.
  - specialize (HQ [] (Ok a) (runs_ret a)). by rewrite app_nil_r in HQ.
  - specialize (HQ [] (Throw e) (runs_err e)). by rewrite app_nil_r in HQ.
  - split; [done|]. intros r. apply IH. intros tr o Hr. rewrite <-app_assoc. apply (HQ (ev c r :: tr)). by constructor.
Qed.

Lemma deps_spec P (Q : history → TurnAuthDeps → Prop) X h :
  (∀ deps, deps_of deps → Q h deps) → (∀ e, X h e) → spec P Q X h turnAuthDeps.
Proof.
  intros HQ HX. unfold turnAuthDeps. destruct (turnAuthDepsFromEnv env None); [|apply HX].
  destruct exchange_token as [t|] eqn:Et; [|apply HX]. destruct (turnAuthDepsFromEnv env t) as [d|] eqn:Ed; [|apply HX].
  apply HQ. by exists t.
Qed.

Lemma statusFor_error c : 400 ≤ statusFor c.
Proof. by destruct c. Qed.

(** A refusal says why, and nothing of what is stored. *)
Definition refusal_body (b : option bytes) : Prop :=
  ∃ fs, b = Some (stringify (JObj fs)) ∧ fs.*1 ⊆ ["error"; "message"; "sessionId"].

Lemma error_refusal code : refusal_body (Some (stringify (error_json code))).
Proof. eexists. split; [reflexivity|]. cbn. set_solver. Qed.

Lemma auth_refusal e sessionId :
  refusal_body (Some (stringify (JObj (("error", JStr (code_name (code e)))
               :: (if bool_decide (message e = "") || bool_decide (message e = code_name (code e)) then []
                   else [("message", JStr (message e))])
               ++ truthy_field "sessionId" sessionId)))).
Proof.
  eexists. split; [reflexivity|]. unfold truthy_field, opt_field.
  repeat (case_match; simplify_eq/=); set_solver.
Qed.

(** A check of the caller: it answers for the caller found, or refuses with one response. *)
Lemma caller_or_spec {A} P (Q : history → option A → Prop) X h (k : TurnAuthDeps → server_prog A) sessionId :
  let refusal h' := (∀ status hs b, 400 ≤ status → refusal_body b →
                       P h' (Respond status hs b) ∧ ∀ r, Q (h' ++ [ev (Respond status hs b) r]) None)
                    ∧ ∀ e, X h' e in
  refusal h →
  (∀ deps, deps_of deps → spec P (fun h' a => Q h' (Some a)) (fun h' _ => refusal h') h (k deps)) →
  spec P Q X h (caller_or (await deps <- turnAuthDeps; k deps) sessionId).
Proof.
  intros refusal Hr Hk. unfold caller_or. apply spec_catch.
  assert (Hrefuse : ∀ h' e, refusal h' → spec P Q X h' (await _ <- writeAuthError e sessionId; Ret None)).
  { intros h' [e|t] [HR HX]; [|apply HX]. simpl.
    destruct (HR (statusFor (code e)) JSON_HEADERS _ (statusFor_error _) (auth_refusal e sessionId)). by split. }
  apply spec_bind, spec_bind, deps_spec; [|by intros e; apply Hrefuse]. intros deps Hd.
  eapply spec_mono; [| | |by apply Hk]; try done.
Qed.

(** ** One response *)

Definition sent (h : history) : nat := length (filter (fun e : server_event => sends (projT1 e) = true) h).

Lemma sent_app a b : sent (a ++ b) = (sent a + sent b)%nat.
Proof. unfold sent. by rewrite filter_app, length_app. Qed.

Lemma sent_one (e : server_event) : sent [e] = if sends (projT1 e) then 1%nat else 0%nat.
Proof. unfold sent. rewrite filter_cons. by destruct (sends (projT1 e)). Qed.

(** A response is sent only where none was. *)
Definition sends_first (h : history) (c : server_call) : Prop := sends c = true → sent h = 0%nat.

(** [p] returns having sent [n] responses in all, and throws having sent none or one. *)
Definition sends_n {A} (n : A → nat) : history → server_prog A → Prop :=
  spec sends_first (fun h a => sent h = n a) (fun h _ => (sent h ≤ 1)%nat).

Abbreviation once := (sends_n (fun _ => 1%nat)).

Lemma sends_call {A} (n : A → nat) h c (k : server_reply c → server_prog A) :
  sends c = false → (∀ r, sends_n n (h ++ [ev c r]) (k r)) → sends_n n h (Call c k).
Proof. intros Hc Hk. split; [by unfold sends_first; rewrite Hc|done]. Qed.

Lemma sent_silent h c (r : server_reply c) : sends c = false → sent (h ++ [ev c r]) = sent h.
Proof. intros Hc. rewrite sent_app, sent_one. simpl. rewrite Hc. lia. Qed.

Lemma sent_sends h c (r : server_reply c) : sends c = true → sent (h ++ [ev c r]) = S (sent h).
Proof. intros Hc. rewrite sent_app, sent_one. simpl. rewrite Hc. lia. Qed.

Lemma reply_sends {A} (n : A → nat) h status hs b (a : A) :
  sent h = 0%nat → n a = 1%nat → sends_n n h (await _ <- query (Respond status hs b); Ret a).
Proof. intros Hh Ha. split; [by intros _|]. intros r. simpl. by rewrite sent_sends, Hh, Ha. Qed.

Lemma reply_once h status hs b : sent h = 0%nat → once h (query (Respond status hs b)).
Proof. intros Hh. split; [by intros _|]. intros r. simpl. by rewrite sent_sends, Hh. Qed.

(** A step that sends nothing, then the rest. *)
Lemma sends_bind {A B} (n : B → nat) h (p : server_prog A) (f : A → server_prog B) :
  spec sends_first (fun h a => sends_n n h (f a)) (fun h _ => (sent h ≤ 1)%nat) h p → sends_n n h (pbind p f).
Proof. apply spec_bind. Qed.

(** Take the answer of a call. *)
Ltac srv := cbn [pbind query pcatch ok].

(** Programs that send nothing. *)
Definition calm {A} (p : server_prog A) : Prop := calls (fun c => sends c = false) p.

Lemma calm_spec {A} (Q : history → A → Prop) (X : history → failure → Prop) h p :
  calm p → sent h = 0%nat → (∀ h' a, sent h' = 0%nat → Q h' a) → (∀ h' e, sent h' = 0%nat → X h' e) →
  spec sends_first Q X h p.
Proof.
  intros Hp Hh HQ HX. revert h Hh. induction p as [a|e|c k IH]; intros h Hh; simpl in *; [by auto|by auto|].
  destruct Hp as [Hc Hk]. split; [by unfold sends_first; rewrite Hc|]. intros r. apply IH; [apply Hk|].
  by rewrite sent_silent.
Qed.

Lemma calm_bind {A B} (n : B → nat) h (p : server_prog A) (f : A → server_prog B) :
  calm p → sent h = 0%nat → (∀ h' a, sent h' = 0%nat → sends_n n h' (f a)) → sends_n n h (pbind p f).
Proof. intros Hp Hh Hf. apply sends_bind, calm_spec; [done|done|done|]. intros h' e He. lia. Qed.

Lemma as_caller_calm {A} (q : tprog A) : calm (as_caller other_text q).
Proof. induction q as [a|e|c k IH]; [done|done|]. by split. Qed.

Lemma caller_sends {A B} (n : B → nat) h (k : TurnAuthDeps → server_prog A) sessionId (f : option A → server_prog B) :
  (∀ deps, calm (k deps)) → sent h = 0%nat →
  (∀ h' a, sent h' = 0%nat → sends_n n h' (f (Some a))) → (∀ h', sent h' = 1%nat → sends_n n h' (f None)) →
  sends_n n h (pbind (caller_or (await deps <- turnAuthDeps; k deps) sessionId) f).
Proof.
  intros Hk Hh Hf Hn. apply sends_bind, caller_or_spec.
  - split; [|intros e; lia]. intros status hs b _ _. split; [by intros _|]. intros r. apply Hn. by rewrite sent_sends, Hh.
  - intros deps _. apply calm_spec; [done|done|done|]. intros h' e He. split; [|intros _; lia].
    intros status hs b _ _. split; [by intros _|]. intros r. apply Hn. by rewrite sent_sends, He.
Qed.

Lemma ok_calm {A} (r : result store_error A) : calm (ok r).
Proof. destruct r as [a|[t]]; done. Qed.

Lemma find_calm id : calm (findWorkload id).
Proof. split; [done|]. intros r. srv. apply calls_bind; [apply ok_calm|done]. Qed.

Lemma request_calm m p b : calm (request m p b).
Proof. split; [done|]. intros [t|status parsed]; [done|]. simpl. destruct (_ && _); [done|]. by destruct (default _ parsed). Qed.

Lemma body_calm p : calm (body_json p).
Proof. by destruct p. Qed.

Lemma workload_calm p : calm (workload p).
Proof. by destruct p. Qed.

Lemma same_calm r id : calm (sameWorkload r id).
Proof. unfold sameWorkload. by destruct (same_json _ _). Qed.

Lemma save_calm r : calm (saveWorkload r).
Proof. split; [done|]. intros x. apply ok_calm. Qed.

(** The guarded part of a workload route responds once, whether it fails or not. *)
Abbreviation strict := (spec sends_first (fun h (_ : unit) => sent h = 1%nat) (fun h _ => sent h = 0%nat)).

Lemma strict_bind {A} h (p : server_prog A) (f : A → server_prog unit) :
  calm p → sent h = 0%nat → (∀ h' a, sent h' = 0%nat → strict h' (f a)) → strict h (pbind p f).
Proof. intros Hp Hh Hf. by apply spec_bind, calm_spec. Qed.

Lemma strict_reply h status hs b : sent h = 0%nat → strict h (query (Respond status hs b)).
Proof. intros Hh. split; [by intros _|]. intros r. simpl. by rewrite sent_sends, Hh. Qed.

Lemma context_once h (p : server_prog unit) : strict h p → once h (await _ <- context_failure p; Ret tt).
Proof.
  intros Hp. apply sends_bind. unfold context_failure. apply spec_catch, spec_bind.
  eapply spec_mono; [| | |exact Hp]; [done|done|]. intros h' e He. split; [by intros _|]. intros r.
  unfold sends_n. simpl. by rewrite sent_sends, He.
Qed.

Lemma with_caller_once hs h k :
  sent h = 0%nat → (∀ h' subject, sent h' = 0%nat → once h' (k subject)) → once h (with_caller hs k).
Proof.
  intros Hh Hk. apply caller_sends; [intros deps; apply as_caller_calm|done| |done].
  intros h' subject H'. destruct (contextServiceConfigured env); [by apply Hk|by apply reply_once].
Qed.

Lemma create_once hs h : sent h = 0%nat → once h (handleCreateWorkload hs).
Proof.
  intros Hh. apply with_caller_once; [done|]. intros h1 subject H1. apply sends_call; [done|]. intros b. srv.
  assert (H2 : sent (h1 ++ [ev ReadBody b]) = 0%nat) by (by rewrite sent_silent).
  destruct (b ≫= parse) as [spec|]; [|by apply reply_once].
  assert (Hnamed : ∀ h' id, sent h' = 0%nat → once h' (create_named subject id spec)).
  { intros h' id H'. unfold create_named. destruct (negb _); [by apply reply_once|].
    apply calm_bind; [|done|].
    { destruct (names_claim spec); [|done]. unfold claims_refused, is_multi. destruct subject; [done|].
      by destruct (readTenancy env_list). }
    intros h2 refused Hr. destruct refused; [by apply reply_once|].
    apply calm_bind; [apply find_calm|done|]. intros h3 existing H3. destruct (match existing with Some _ => _ | None => _ end);
      [by apply reply_once|].
    apply context_once. unfold createWorkload. apply strict_bind; [|done|].
    { apply calls_bind; [apply request_calm|]. intros pool. apply calls_bind; [apply body_calm|]. intros j. apply workload_calm. }
    intros h4 made H4. apply strict_bind; [apply same_calm|done|]. intros h5 same H5.
    apply strict_bind; [apply save_calm|done|]. intros h6 u H6. by apply strict_reply. }
  assert (Hid : ∀ n, once (h1 ++ [ev ReadBody b]) (await workloadId <- (match n with
      | None | Some JNull => await u <- query RandomUUID; Ret (JStr ("wl-" +:+ String.substring 0 8 u))
      | Some n => Ret n end); create_named subject workloadId spec)).
  { intros n. apply calm_bind; [|done|by intros h3 id H3; apply Hnamed]. destruct n as [[]|]; by repeat split. }
  destruct spec; try apply Hid. unfold sends_n. simpl. lia.
Qed.

Lemma get_once hs id h : sent h = 0%nat → once h (handleGetWorkload hs id).
Proof.
  intros Hh. apply with_caller_once; [done|]. intros h1 subject H1. apply calm_bind; [apply find_calm|done|].
  intros h2 stored H2. destruct (match stored with Some _ => _ | None => _ end); [|by apply reply_once].
  apply context_once. unfold getWorkload. apply strict_bind; [|done|].
  { apply calls_bind; [apply request_calm|]. intros pool. apply calls_bind; [apply body_calm|]. intros j. apply workload_calm. }
  intros h4 made H4. apply strict_bind; [apply same_calm|done|]. intros h5 same H5.
  apply strict_bind; [apply save_calm|done|]. intros h6 u H6. by apply strict_reply.
Qed.

Lemma delete_once hs id h : sent h = 0%nat → once h (handleDeleteWorkload hs id).
Proof.
  intros Hh. apply with_caller_once; [done|]. intros h1 subject H1. apply calm_bind; [apply find_calm|done|].
  intros h2 stored H2. destruct stored as [record|]; [|by apply reply_once].
  destruct (_ || _); [by apply reply_once|]. apply context_once. apply strict_bind; [|done|].
  { apply calls_bind; [apply request_calm|done]. }
  intros h3 u H3. apply strict_bind; [apply save_calm|done|]. intros h4 u2 H4. by apply strict_reply.
Qed.

Lemma report_calm auth p : calm (report auth p).
Proof. by destruct auth; [split|]. Qed.

Lemma turn_once hs h : sent h = 0%nat → once h (handleTurn hs).
Proof.
  intros Hh. apply sends_call; [done|]. intros b. srv.
  assert (H1 : sent (h ++ [ev ReadBody b]) = 0%nat) by (by rewrite sent_silent). set (h1 := h ++ _) in *. clearbody h1.
  destruct b as [body|]; [|by apply reply_once]. destruct (parse body) as [parsed|]; [|by apply reply_once].
  assert (Hgo : once h1 (match truthy_opt (field "prompt" parsed) with
    | None => reply_json 400 (error_json "prompt_required")
    | Some prompt =>
        await who <- caller_or (await deps <- turnAuthDeps; as_caller other_text (resolveTurnAuth deps hs (field "sessionId" parsed)))
                       (field "sessionId" parsed);
        match who with
        | None => Ret tt
        | Some auth => if wantsStream hs then stream_turn prompt (field "sessionId" parsed) auth
                       else plain_turn prompt (field "sessionId" parsed) auth
        end
    end)).
  { destruct (truthy_opt _) as [prompt|]; [|by apply reply_once].
    apply caller_sends; [intros; apply as_caller_calm|done| |done]. intros h2 auth H2. destruct (wantsStream hs).
    - apply calm_bind; [apply report_calm|done|]. intros h3 u H3. apply sends_call; [done|]. intros seen. srv.
      apply calm_bind; [apply report_calm|by rewrite sent_silent|]. intros h4 u2 H4. split; [by intros _|].
      intros r. simpl. by rewrite sent_sends, H4.
    - apply calm_bind; [apply report_calm|done|]. intros h3 u H3. apply sends_call; [done|]. intros r. srv.
      assert (H4 : sent (h3 ++ [ev (ExecuteTurn (turn_input prompt (field "sessionId" parsed) auth false)) r]) = 0%nat)
        by (by rewrite sent_silent).
      destruct r as [result|e].
      + split; [by intros _|]. intros x. srv. destruct auth as [a|]; [|by unfold sends_n; simpl; rewrite sent_sends, H4].
        split; [by intros ?|]. intros y. simpl. by rewrite sent_silent, sent_sends, H4.
      + apply calm_bind; [apply report_calm|done|]. intros h5 u5 H5. by apply reply_once. }
  destruct parsed; try exact Hgo. unfold sends_n. simpl. lia.
Qed.

Lemma status_once hs url h : sent h = 0%nat → once h (status_route hs url).
Proof.
  intros Hh. unfold status_route. destruct (TurnStream.nonempty _) as [sid|]; [|by apply reply_once].
  apply caller_sends; [intros; apply as_caller_calm|done| |done]. intros h1 authenticated H1.
  destruct (_ && _); [by apply reply_once|]. unfold handleLeafStatus.
  destruct (TurnStream.nonempty _); [|by apply reply_once].
  apply calm_bind; [|done|]; [split; [done|]; intros r; srv; apply calls_bind; [apply ok_calm|done]|].
  intros h2 record H2. by apply reply_once.
Qed.

(** How many responses a run has sent. *)
Definition run_sent (p : progress_of) : nat := match p with Finished => 1 | Waiting => 0 end.

Lemma with_run_sends body subject k h :
  sent h = 0%nat → (∀ h' b, sent h' = 0%nat → sends_n run_sent h' (k b)) → sends_n run_sent h (with_run body subject k).
Proof.
  intros Hh Hk. unfold with_run. destruct (negb _); [by apply reply_sends|]. destruct (negb _); [by apply reply_sends|].
  apply sends_bind. unfold resolveRunWorkload. destruct (truthy_opt _) as [id|]; [|by apply Hk].
  apply spec_bind, calm_spec; [apply find_calm|done| |].
  - intros h1 record H1. assert (Hrefuse : spec sends_first
      (fun h a => sends_n run_sent h (match a with None => Ret Finished | Some b => k b end)) (fun h _ => (sent h ≤ 1)%nat) h1
      (await _ <- reply_json 404 (error_json "workload_not_found"); Ret None)).
    { split; [by intros _|]. intros r. simpl. unfold sends_n. simpl. by rewrite sent_sends, H1. }
    destruct record as [r|]; [|done]. destruct (_ || _); [done|]. by apply Hk.
  - intros h1 e H1. lia.
Qed.

Lemma wait_calm n body config deadline maxb delay result : calm (saturation_wait n body config deadline maxb delay result).
Proof.
  revert delay result. induction n as [|n IH]; intros delay result; cbn [saturation_wait].
  - destruct (isSaturated result); [|done]. split; [done|]. intros now. srv. by destruct (_ <? _).
  - destruct (isSaturated result); [|done]. split; [done|]. intros now. srv. destruct (_ <? _); [|done].
    split; [done|]. intros now2. srv. split; [done|]. intros u. srv. split; [done|]. intros r. srv.
    apply calls_bind; [apply ok_calm|]. intros r2. apply IH.
Qed.

Lemma run_leaf_sends n body auth h : sent h = 0%nat → sends_n run_sent h (handleRunLeafParsed n body auth).
Proof.
  intros Hh. apply with_run_sends; [done|]. intros h1 b H1. apply sends_call; [done|]. intros now. srv.
  apply sends_call; [done|]. intros r. srv. apply calm_bind; [apply ok_calm|by rewrite !sent_silent|].
  intros h2 first H2. apply calm_bind; [apply wait_calm|done|]. intros h3 result H3.
  destruct result as [result|]; [|by unfold sends_n]. destruct (isSaturated result); [by apply reply_sends|].
  apply sends_call; [done|]. intros ts. srv. apply sends_call; [done|]. intros w. srv.
  apply calm_bind; [apply ok_calm|by rewrite !sent_silent|]. intros h4 u H4. by apply reply_sends.
Qed.

Lemma enqueue_sends body h : sent h = 0%nat → sends_n run_sent h (handleEnqueueLeafParsed body).
Proof.
  intros Hh. apply with_run_sends; [done|]. intros h1 b H1. apply sends_call; [done|]. intros r1. srv.
  apply calm_bind; [apply ok_calm|by rewrite sent_silent|]. intros h2 u H2. apply sends_call; [done|]. intros r2. srv.
  apply calm_bind; [apply ok_calm|by rewrite sent_silent|]. intros h3 u2 H3. by apply reply_sends.
Qed.

Lemma runs_sends n hs h : sent h = 0%nat → sends_n run_sent h (runs_route n hs).
Proof.
  intros Hh. apply sends_call; [done|]. intros b. srv.
  assert (H1 : sent (h ++ [ev ReadBody b]) = 0%nat) by (by rewrite sent_silent). set (h1 := h ++ _) in *. clearbody h1.
  destruct b as [raw|]; [|unfold sends_n; simpl; lia]. cbn zeta.
  apply caller_sends; [|done| |done].
  { intros deps. apply calls_bind; [apply as_caller_calm|done]. }
  intros h2 [required auth] H2. destruct (_ && _ && _); [by apply reply_sends|].
  destruct (is_true _); [|by apply run_leaf_sends]. destruct (_ || _); [by apply reply_sends|by apply enqueue_sends].
Qed.

Lemma caught_sends {A} (n : A → nat) h (p : server_prog A) (done_ : A) :
  n done_ = 1%nat → sends_n n h p →
  spec sends_first (fun h a => sent h = n a) (fun _ _ => False) h (caught done_ (0 <? sent h)%nat p).
Proof.
  intros Hn. unfold sends_n. revert h. induction p as [a|e|c k IH]; intros h Hp; simpl in *; [done| |].
  - destruct (Nat.ltb_spec 0 (sent h)); [simpl; rewrite Hn; lia|]. assert (sent h = 0%nat) by lia.
    split; [by intros _|]. intros r. simpl. rewrite sent_sends by done. lia.
  - destruct Hp as [Hc Hk]. split; [done|]. intros r. specialize (IH r _ (Hk r)).
    assert ((0 <? sent (h ++ [ev c r]))%nat = (0 <? sent h)%nat || sends c) as <-; [|done].
    rewrite sent_app, sent_one. cbn [projT1 ev].
    destruct (sends c); [|by rewrite Nat.add_0_r, orb_false_r]. rewrite orb_true_r. apply Nat.ltb_lt. lia.
Qed.

Lemma whole_sends (p : server_prog unit) :
  once [] p → spec sends_first (fun h a => sent h = run_sent a) (fun _ _ => False) [] (whole p).
Proof. intros Hp. apply (caught_sends run_sent []); [done|]. by apply spec_bind. Qed.

(** Whatever its stores, its callers, Context Service and its turns do, every request the
    listener takes on gets exactly one response, and its promise never rejects; only a run that
    still waits for a sandbox has none yet. *)
Theorem answered_once n method url hs p tr o :
  handler n method url hs = Promise p → runs p tr o →
  ∃ x, o = Ok x ∧ sent tr = run_sent x.
Proof.
  intros Hh Hr.
  assert (Hp : spec sends_first (fun h a => sent h = run_sent a) (fun _ _ => False) [] p).
  { assert (H0 : ∀ status h b, spec sends_first (fun h a => sent h = run_sent a) (fun _ _ => False) []
      (await _ <- query (Respond status h b); Ret Finished)).
    { intros status h b. split; [by intros _|]. intros r. done. }
    revert Hh. unfold handler, with_id. intros Hh.
    repeat (match type of Hh with
            | context [if ?x then _ else _] => destruct x
            | context [match ?x with Some _ => _ | None => _ end] => destruct x
            end; try discriminate).
    all: apply (f_equal (fun l => match l with Promise q => q | Uncaught _ => p end)) in Hh; subst p; first [apply H0|apply whole_sends|apply (caught_sends run_sent []); [done|by apply runs_sends]].
    all: first [by apply create_once|by apply get_once|by apply delete_once|by apply status_once|by apply turn_once]. }
  destruct (spec_runs _ _ _ _ _ _ _ Hp Hr) as [_ Ho]. destruct o as [x|e]; [|done]. by exists x.
Qed.

(** ** Whose workload *)

Abbreviation anything := (fun _ _ => True).

(** What the store held under an id when the route looked. *)
Definition read_as (h : history) (id : json) (found : option json) : Prop :=
  ∃ raw, ev (R := server_reply) (StoreGet (bytes_of "sh:workload:" ++ js_string id)) (Ok raw) ∈ h ∧ found = stored_json raw.

Lemma read_as_app h h' id found : read_as h id found → read_as (h ++ h') id found.
Proof. intros (raw & Hin & ->). exists raw. split; [by apply elem_app_l|done]. Qed.

Lemma find_spec P (Q : history → option json → Prop) X h id :
  P h (StoreGet (workloadKey id)) → (∀ h' e, X h' e) →
  (∀ h' found, read_as (h ++ h') id found → Q (h ++ h') found) → spec P Q X h (findWorkload id).
Proof.
  intros HP HX HQ. split; [done|]. intros [raw|[t]]; srv; [|apply HX]. apply HQ. exists raw. split; [|done].
  apply elem_of_app. right. by left.
Qed.

(** The record's owner is [subject]; a record of nobody's names none. *)
Definition belongs (record : json) (subject : option string) : Prop :=
  match subject with
  | Some s => field "owner" record = Some (JStr s)
  | None => field "owner" record = None ∨ field "owner" record = Some JNull
  end.

Definition is_live (record : json) : Prop := field "status" record ≠ Some (JStr "deleted").

(** The record is of the workload [id]. *)
Definition named (record id : json) : Prop :=
  match id with
  | JStr s => field "workloadId" record = Some (JStr s)
  | JNum q => ∃ q', field "workloadId" record = Some (JNum q') ∧ (q' == q)%Q
  | JBool b => field "workloadId" record = Some (JBool b)
  | _ => False
  end.

(** [key] is where the record belongs. *)
Definition keyed (record : json) (key : bytes) : Prop :=
  ∀ w, field "workloadId" record = Some w → key = bytes_of "sh:workload:" ++ js_string w.

Lemma owned_belongs r subject : ownedBy r subject = true → belongs r subject.
Proof.
  unfold ownedBy, belongs. destruct (field "owner" r) as [[]|]; try done;
    intros H1%bool_decide_eq_true; subst; auto.
Qed.

Lemma not_deleted_live r : is_deleted r = false → is_live r.
Proof. unfold is_deleted, is_live. intros Hd%bool_decide_eq_false Hs. by rewrite Hs in Hd. Qed.

Lemma deleted_not_live r : is_deleted r = true → ¬ is_live r.
Proof.
  unfold is_deleted, is_live. intros Hd%bool_decide_eq_true Hs. apply Hs.
  by destruct (field "status" r) as [[]|]; simplify_eq/=.
Qed.

Lemma same_named r id : same_json (field "workloadId" r) id = true → named r id.
Proof.
  unfold same_json, named. destruct (field "workloadId" r) as [[]|], id; try done.
  - by intros ->%Bool.eqb_prop.
  - intros Hq%Qeq_bool_iff. eauto.
  - by intros ->%bool_decide_eq_true.
Qed.

Lemma map_get_app {V} k (m m' : list (string * V)) :
  map_get k (m ++ m') = match map_get k m with Some v => Some v | None => map_get k m' end.
Proof. induction m as [|[k' v] m IH]; simpl; [done|]. by case_decide. Qed.

Lemma withOwner_belongs fs subject : belongs (withOwner (JObj fs) subject) subject.
Proof.
  unfold belongs, withOwner. cbn [field]. destruct subject as [s|]; cbn [fmap option_fmap option_map opt_field].
  - by rewrite map_get_app, map_get_delete, decide_True by done.
  - left. by rewrite app_nil_r, map_get_delete, decide_True.
Qed.

Lemma withOwner_id fs subject : field "workloadId" (withOwner (JObj fs) subject) = field "workloadId" (JObj fs).
Proof.
  unfold withOwner. cbn [field]. rewrite map_get_app, map_get_delete, decide_False by done.
  destruct (map_get "workloadId" fs); [done|]. by destruct subject.
Qed.

(** Calls every workload route may make: checks of the caller, and refusals. *)
Definition welcomes (P : history → server_call → Prop) : Prop :=
  (∀ h c, P h (Caller c)) ∧ ∀ h status hs b, 300 ≤ status → refusal_body b → P h (Respond status hs b).

Lemma refuse_spec P h status code :
  welcomes P → 300 ≤ status → spec P anything anything h (reply_json status (error_json code)).
Proof. intros [_ HP] Hs. split; [|done]. apply HP; [done|apply error_refusal]. Qed.

Lemma with_caller_spec P hs h k :
  welcomes P →
  (∀ h' subject, is_subject hs h' subject → spec P anything anything h' (k subject)) →
  spec P anything anything h (with_caller hs k).
Proof.
  intros HP Hk. apply spec_bind, caller_or_spec.
  { split; [|done]. intros status hs' b Hs Hb. split; [apply HP; [lia|done]|done]. }
  intros deps Hd. apply as_caller_spec; [intros; apply HP|]. intros tr [subject|e] Hr.
  - destruct (contextServiceConfigured env); [|by apply refuse_spec]. by eapply Hk, authenticate_subject.
  - split; [|done]. intros status hs' b Hs Hb. split; [apply HP; [lia|done]|done].
Qed.

Lemma context_spec P h (p : server_prog unit) :
  welcomes P → spec P anything anything h p → spec P anything anything h (await _ <- context_failure p; Ret tt).
Proof.
  intros HP Hp. apply spec_bind, spec_catch, spec_bind. eapply spec_mono; [| | |exact Hp]; [done|done|].
  intros h' e _. apply spec_bind. by apply refuse_spec.
Qed.

Lemma request_spec P (Q : history → option json → Prop) h m path b :
  P h (ContextRequest m path b) → (∀ h' parsed, Q (h ++ h') parsed) → spec P Q anything h (request m path b).
Proof.
  intros HP HQ. split; [done|]. intros [t|status parsed]; [done|]. srv. destruct (_ && _); [apply HQ|].
  by destruct (default _ parsed).
Qed.

(** The pool Context Service answers with, as a record. *)
Lemma pool_spec P (Q : history → json → Prop) h m path b :
  P h (ContextRequest m path b) → (∀ h' fs, Q (h ++ h') (JObj fs)) →
  spec P Q anything h (await pool <- request m path b; await j <- body_json pool; workload j).
Proof.
  intros HP HQ. apply spec_bind, request_spec; [done|]. intros h' [j|]; [|done]. srv. destruct j; try apply HQ. done.
Qed.

(** Keeping the record, and answering with it. *)
Lemma keep_spec P h fs subject id status :
  (∀ h' key record, named record id → belongs record subject → keyed record key →
     P (h ++ h') (StoreSet key (stringify record)) ∧ P (h ++ h') (Respond status JSON_HEADERS (Some (stringify record)))) →
  spec P anything anything h
    (await same <- sameWorkload (JObj fs) id;
     let record := withOwner same subject in
     await _ <- saveWorkload record;
     reply_json status record).
Proof.
  intros HP. unfold sameWorkload. destruct (same_json _ _) eqn:Es; [|done]. srv.
  assert (Hn : named (withOwner (JObj fs) subject) id) by (apply same_named; by rewrite withOwner_id).
  pose proof (withOwner_belongs fs subject) as Hb. set (record := withOwner (JObj fs) subject) in *. clearbody record.
  assert (Hk : keyed record (workload_key (field "workloadId" record))) by (by intros w ->).
  split; [specialize (HP [] _ record Hn Hb Hk) as [HP _]; by rewrite app_nil_r in HP|].
  intros [u|[t]]; [|done]. srv. split; [by apply (HP _ _ record Hn Hb Hk)|done].
Qed.

(** *** Reading *)

(** The caller, who owns what the store held under the id. *)
Definition may_read (hs : headers) (h : history) (id : string) (subject : option string) : Prop :=
  is_subject hs h subject ∧ ∃ record, read_as h (JStr id) (Some record) ∧ belongs record subject.

Lemma may_read_app hs h h' id subject : may_read hs h id subject → may_read hs (h ++ h') id subject.
Proof. intros (? & r & ? & ?). split; [by apply is_subject_app|]. exists r. split; [by apply read_as_app|done]. Qed.

(** Where the pool of a workload is. *)
Definition pool_url (id : string) : string := "/v1/sandbox-pools/" +:+ string_of (encodeURIComponent (bytes_of id)).

Definition get_allowed (hs : headers) (id : string) (h : history) (c : server_call) : Prop :=
  match c with
  | Caller _ => True
  | StoreGet key => key = bytes_of "sh:workload:" ++ bytes_of id
  | ContextRequest method path body =>
      method = "GET" ∧ path = pool_url id ∧ body = None ∧ ∃ subject, may_read hs h id subject
  | StoreSet key value => key = bytes_of "sh:workload:" ++ bytes_of id
      ∧ ∃ subject record, may_read hs h id subject ∧ value = stringify record
          ∧ named record (JStr id) ∧ belongs record subject
  | Respond status _ b => 300 ≤ status ∧ refusal_body b
      ∨ status = 200 ∧ ∃ subject record, may_read hs h id subject ∧ b = Some (stringify record)
          ∧ named record (JStr id) ∧ belongs record subject
  | _ => False
  end.

Lemma get_guarded hs id h : spec (get_allowed hs id) anything anything h (handleGetWorkload hs id).
Proof.
  assert (Hw : welcomes (get_allowed hs id)) by (split; [done|by left]).
  apply with_caller_spec; [done|]. intros h1 subject Hs. apply spec_bind, find_spec; [done|done|]. intros h2 found Hf.
  destruct found as [record|]; [|by apply refuse_spec].
  destruct (ownedBy record subject) eqn:Eo; [|by apply refuse_spec]. apply owned_belongs in Eo.
  assert (Hm : may_read hs (h1 ++ h2) id subject) by (split; [by apply is_subject_app|eauto]).
  set (h3 := h1 ++ h2) in *. clearbody h3. apply context_spec; [done|]. apply spec_bind, pool_spec; [cbn; eauto|].
  intros h4 fs. apply keep_spec. intros h5 key r Hn Hb Hk. rewrite <-app_assoc. split.
  - split; [by apply (Hk (JStr id))|]. exists subject, r. auto using may_read_app.
  - right. split; [done|]. exists subject, r. auto using may_read_app.
Qed.

(** *** Deleting *)

(** The caller, and the live record the store held, which is the caller's or nobody's. *)
Definition may_delete (hs : headers) (h : history) (id : string) (record : json) : Prop :=
  ∃ subject, is_subject hs h subject ∧ read_as h (JStr id) (Some record) ∧ is_live record
    ∧ (field "owner" record = None ∨ belongs record subject).

Lemma may_delete_app hs h h' id record : may_delete hs h id record → may_delete hs (h ++ h') id record.
Proof. intros (s & ? & ? & ? & ?). exists s. split_and!; auto using is_subject_app, read_as_app. Qed.

Definition delete_allowed (hs : headers) (id : string) (h : history) (c : server_call) : Prop :=
  match c with
  | Caller _ => True
  | StoreGet key => key = bytes_of "sh:workload:" ++ bytes_of id
  | ContextRequest method path body =>
      method = "DELETE" ∧ path = pool_url id ∧ body = None ∧ ∃ record, may_delete hs h id record
  | StoreSet key value => ∃ record after, may_delete hs h id record ∧ keyed record key ∧ value = stringify after
      ∧ field "status" after = Some (JStr "deleted")
      ∧ ∀ n, n ≠ "status" → n ≠ "readyReplicas" → field n after = field n record
  | Respond status _ b => 300 ≤ status ∧ refusal_body b
      ∨ status = 204 ∧ b = None ∧ ∃ record, may_delete hs h id record
  | _ => False
  end.

Lemma deleted_record_fields record n :
  field n (deleted_record record)
  = if decide (n = "readyReplicas") then Some (jint 0) else if decide (n = "status") then Some (JStr "deleted") else field n record.
Proof.
  destruct record; cbn -[decide]; rewrite ?map_get_set; repeat case_decide; subst; done.
Qed.

Lemma delete_guarded hs id h : spec (delete_allowed hs id) anything anything h (handleDeleteWorkload hs id).
Proof.
  assert (Hw : welcomes (delete_allowed hs id)) by (split; [done|by left]).
  apply with_caller_spec; [done|]. intros h1 subject Hs. apply spec_bind, find_spec; [done|done|]. intros h2 found Hf.
  destruct found as [record|]; [|by apply refuse_spec].
  destruct (is_deleted record || negb (mayDelete record subject)) eqn:E; [by apply refuse_spec|].
  apply orb_false_iff in E as [Hlive%not_deleted_live Hmay%negb_false_iff].
  assert (Hm : may_delete hs (h1 ++ h2) id record).
  { exists subject. split_and!; [by apply is_subject_app|done|done|]. unfold mayDelete in Hmay.
    destruct (field "owner" record) eqn:Eo; [right; by apply owned_belongs|by left]. }
  set (h3 := h1 ++ h2) in *. clearbody h3. apply context_spec; [done|].
  apply spec_bind, spec_bind, request_spec; [cbn; eauto|]. intros h4 parsed. split.
  - exists record, (deleted_record record). split_and!; [by apply may_delete_app| |done|by rewrite deleted_record_fields|].
    + intros w Hw'. rewrite deleted_record_fields, !decide_False, Hw' by done. done.
    + intros n Hn1 Hn2. by rewrite deleted_record_fields, !decide_False.
  - intros [u|[t]]; [|done]. srv. split; [|done]. right. split_and!; [done|done|]. exists record. by do 2 apply may_delete_app.
Qed.

(** *** Creating *)

(** The name the request gave, or one made for it. *)
Definition asked_for (h : history) (id : json) : Prop :=
  ∃ raw spec, ev (R := server_reply) ReadBody (Some raw) ∈ h ∧ parse raw = Some spec
    ∧ (field "name" spec = Some id
       ∨ ∃ u, ev (R := server_reply) RandomUUID u ∈ h ∧ id = JStr ("wl-" +:+ String.substring 0 8 u)).

(** The caller, when no live workload of the name is another's. *)
Definition may_create (hs : headers) (h : history) (id : json) (subject : option string) : Prop :=
  is_subject hs h subject ∧ asked_for h id
  ∧ ∃ found, read_as h id found ∧ ∀ r, found = Some r → is_live r → belongs r subject.

Lemma asked_for_app h h' id : asked_for h id → asked_for (h ++ h') id.
Proof.
  intros (raw & spec & ? & ? & Hn). exists raw, spec. split_and!; [by apply elem_app_l|done|].
  destruct Hn as [?|(u & ? & ?)]; [by left|right]. exists u. split; [by apply elem_app_l|done].
Qed.

Lemma may_create_app hs h h' id subject : may_create hs h id subject → may_create hs (h ++ h') id subject.
Proof.
  intros (? & ? & f & ? & ?). split_and!; [by apply is_subject_app|by apply asked_for_app|].
  exists f. split; [by apply read_as_app|done].
Qed.

Definition create_allowed (hs : headers) (h : history) (c : server_call) : Prop :=
  match c with
  | Caller _ | ReadBody | RandomUUID | StoreGet _ => True
  | ContextRequest method path body =>
      method = "POST" ∧ path = "/v1/sandbox-pools"
      ∧ ∃ subject id pool, may_create hs h id subject ∧ body = Some pool ∧ field "name" pool = Some id
          ∧ (is_Some (opt_get "claimName" (field "workspace" pool)) → subject = None ∧ readTenancy env_list = Ok single)
  | StoreSet key value => ∃ subject id record, may_create hs h id subject ∧ value = stringify record
      ∧ keyed record key ∧ named record id ∧ belongs record subject
  | Respond status _ b => 300 ≤ status ∧ refusal_body b
      ∨ status = 201 ∧ ∃ subject id record, may_create hs h id subject ∧ b = Some (stringify record)
          ∧ named record id ∧ belongs record subject
  | _ => False
  end.

Lemma create_welcomes hs : welcomes (create_allowed hs).
Proof. split; [done|by left]. Qed.

(** A pool is asked for with a claim only if the request names one. *)
Lemma pool_claim id spec :
  is_Some (opt_get "claimName" (field "workspace" (pool_request id spec))) → names_claim spec = true.
Proof.
  unfold pool_request, names_claim, truthy_opt. cbn.
  destruct (opt_get "claimName" (field "workspace" spec)) as [c|] eqn:E; [done|]. cbn.
  destruct (match opt_get "storageClass" _ with Some _ => _ | None => _ end); by intros [? [=]].
Qed.

Lemma create_made hs h subject id spec :
  may_create hs h id subject →
  (names_claim spec = true → subject = None ∧ readTenancy env_list = Ok single) →
  Prog.spec (create_allowed hs) anything anything h
    (await _ <- context_failure (
       await made <- createWorkload id spec;
       await same <- sameWorkload made id;
       let record := withOwner same subject in
       await _ <- saveWorkload record;
       reply_json 201 record);
     Ret tt).
Proof.
  intros Hm Hclaim. apply context_spec; [apply create_welcomes|]. apply spec_bind, pool_spec.
  - split_and!; [done|done|]. exists subject, id, (pool_request id spec). split_and!; [done|done|done|].
    intros Hc%pool_claim. auto.
  - intros h1 fs. apply keep_spec. intros h2 key r Hn Hb Hk. rewrite <-app_assoc. split.
    + exists subject, id, r. auto using may_create_app.
    + right. split; [done|]. exists subject, id, r. auto using may_create_app.
Qed.

Lemma create_named_guarded hs h subject id spec :
  is_subject hs h subject → asked_for h id → Prog.spec (create_allowed hs) anything anything h (create_named subject id spec).
Proof.
  intros Hs Ha. pose proof (create_welcomes hs) as Hw. unfold create_named.
  destruct (workload_name_ok id); cbn [negb]; [|by apply refuse_spec].
  assert (Hgo : ∀ refused, (names_claim spec = true → refused = false → subject = None ∧ readTenancy env_list = Ok single) →
    Prog.spec (create_allowed hs) anything anything h
      (if refused then reply_json 400 (error_json "claim_name_not_allowed")
       else await existing <- findWorkload id;
            if match existing with Some r => negb (is_deleted r) && negb (ownedBy r subject) | None => false end
            then reply_json 409 (error_json "workload_name_taken")
            else await _ <- context_failure (
                   await made <- createWorkload id spec;
                   await same <- sameWorkload made id;
                   let record := withOwner same subject in
                   await _ <- saveWorkload record;
                   reply_json 201 record);
                 Ret tt)).
  { intros [] Hclaim; [by apply refuse_spec|]. apply spec_bind, find_spec; [done|done|].
    intros h2 found Hf. destruct (match found with Some _ => _ | None => _ end) eqn:E; [by apply refuse_spec|].
    apply create_made; [|auto]. split_and!; [by apply is_subject_app|by apply asked_for_app|].
    exists found. split; [done|]. intros r -> Hlive. apply owned_belongs.
    apply andb_false_iff in E as [Hd%negb_false_iff|Ho%negb_false_iff]; [|done]. by apply deleted_not_live in Hd. }
  destruct (names_claim spec) eqn:Hnc; [|by apply (Hgo false)]. unfold claims_refused, is_multi.
  destruct subject as [s|]; [by apply (Hgo true)|].
  destruct (readTenancy env_list) as [[]|] eqn:Et; [by apply (Hgo false)|by apply (Hgo true)|done].
Qed.

Lemma create_guarded hs h : spec (create_allowed hs) anything anything h (handleCreateWorkload hs).
Proof.
  apply with_caller_spec; [apply create_welcomes|]. intros h1 subject Hs. split; [done|]. intros b. srv.
  destruct b as [raw|]; [|by apply refuse_spec; [apply create_welcomes|]]. simpl.
  destruct (parse raw) as [spec|] eqn:Ep; [|by apply refuse_spec; [apply create_welcomes|]].
  set (h2 := h1 ++ [ev ReadBody (Some raw)]).
  assert (Hs2 : is_subject hs h2 subject) by (by apply is_subject_app).
  assert (Hin : ev (R := server_reply) ReadBody (Some raw) ∈ h2) by (apply elem_of_app; right; by left).
  clearbody h2.
  assert (Hid : ∀ n, field "name" spec = n → Prog.spec (create_allowed hs) anything anything h2 (await workloadId <- (match n with
      | None | Some JNull => await u <- query RandomUUID; Ret (JStr ("wl-" +:+ String.substring 0 8 u))
      | Some n => Ret n end); create_named subject workloadId spec)).
  { assert (Hnew : Prog.spec (create_allowed hs) anything anything h2
      (await u <- query RandomUUID; create_named subject (JStr ("wl-" +:+ String.substring 0 8 u)) spec)).
    { split; [done|]. intros u. apply create_named_guarded; [by apply is_subject_app|]. exists raw, spec.
      split_and!; [by apply elem_app_l|done|]. right. exists u. split; [apply elem_of_app; right; by left|done]. }
    assert (Hgiven : ∀ n, field "name" spec = Some n → asked_for h2 n) by (intros n Hn; exists raw, spec; auto).
    intros [[]|] Hn; try exact Hnew; by apply create_named_guarded; [|apply Hgiven]. }
  destruct spec; try (by apply Hid). done.
Qed.

(** C15. Workloads belong to their subject: of a caller whose token, verified while the request
    was served, names the subject, or an anonymous one where none is required.  A read asks
    Context Service for the pool of the id in its path and for no other, and only when the store
    held a record under that id whose owner is exactly the caller; what it stores and answers is
    a record of that very id owned by the caller.  A delete asks for the removal of that
    id's pool alone, only when the stored record is live and its owner is the caller or none is
    named; it changes that record's status and replica count and nothing else, under the id the
    record carries.  A create asks for a pool of the name requested (or one made up), only
    when no live workload of that name is another's, with a volume claim only for an
    anonymous caller of a single-tenant deployment; what it stores, under the id it carries, and
    answers is a record of that name owned by the caller.  Every other response is an
    error that has no field of a record. *)
Theorem workloads_isolated hs tr o tr1 c r tr2 :
  tr = tr1 ++ ev c r :: tr2 →
  (∀ id, runs (handleGetWorkload hs id) tr o → get_allowed hs id tr1 c)
  ∧ (∀ id, runs (handleDeleteWorkload hs id) tr o → delete_allowed hs id tr1 c)
  ∧ (runs (handleCreateWorkload hs) tr o → create_allowed hs tr1 c).
Proof.
  intros Htr. split_and!.
  - intros id Hr. destruct (spec_runs _ _ _ [] _ _ _ (get_guarded hs id []) Hr) as [Hg _]. by eapply Hg.
  - intros id Hr. destruct (spec_runs _ _ _ [] _ _ _ (delete_guarded hs id []) Hr) as [Hg _]. by eapply Hg.
  - intros Hr. destruct (spec_runs _ _ _ [] _ _ _ (create_guarded hs []) Hr) as [Hg _]. by eapply Hg.
Qed.

(** ** Whose run *)

Lemma spec_calls {A} (K : server_call → Prop) P (Q : history → A → Prop) X h (p : server_prog A) :
  calls K p → (∀ h' c, K c → P (h ++ h') c) → (∀ h' a, Q (h ++ h') a) → (∀ h' e, X (h ++ h') e) → spec P Q X h p.
Proof.
  revert h. induction p as [a|e|c k IH]; intros h Hp HP HQ HX; simpl.
  - specialize (HQ [] a). by rewrite app_nil_r in HQ.
  - specialize (HX [] e). by rewrite app_nil_r in HX.
  - destruct Hp as [Hc Hk]. split; [specialize (HP [] c Hc); by rewrite app_nil_r in HP|]. intros r.
    apply IH; [done|intros h' c'|intros h' a|intros h' e]; rewrite <-app_assoc; auto.
Qed.

Lemma run_body_no_selector raw : field "sandboxPoolSelector" (run_body raw) = None.
Proof.
  unfold run_body. destruct (parse raw) as [[| | | | |fs]|]; try done. simpl. by rewrite map_get_delete, decide_True.
Qed.

(** A run's pool, if it has one, is that of a live workload the store held for this subject. *)
Definition pool_owned (h : history) (b : json) (subject : option string) : Prop :=
  match field "sandboxPoolSelector" b with
  | None => True
  | Some selector => ∃ id record, read_as h id (Some record) ∧ is_live record
      ∧ belongs record subject ∧ field "sandboxSelector" record = Some selector
  end.

Lemma pool_owned_app h h' b subject : pool_owned h b subject → pool_owned (h ++ h') b subject.
Proof.
  unfold pool_owned. destruct (field _ b); [|done]. intros (id & rec & Hr & ?). exists id, rec.
  split; [by apply read_as_app|done].
Qed.

(** The request's body; one that is not JSON counts as empty. *)
Definition body_read (h : history) (body : json) : Prop :=
  ∃ raw, ev (R := server_reply) ReadBody (Some raw) ∈ h ∧ body = default (JObj []) (parse raw).

Lemma body_read_app h h' body : body_read h body → body_read (h ++ h') body.
Proof. intros (raw & ? & ->). exists raw. split; [by apply elem_app_l|done]. Qed.

Lemma run_body_field raw n : n ≠ "sandboxPoolSelector" → field n (run_body raw) = field n (default (JObj []) (parse raw)).
Proof.
  intros Hn. unfold run_body. destruct (parse raw) as [[| | | | |fs]|]; try done. simpl. by rewrite map_get_delete, decide_False.
Qed.

(** What a turn or a leaf of the caller is configured with: its own credential and endpoint and
    none of the operator's; the operator's for nobody's. *)
Definition config_of (auth : option TurnAuth) (config : TurnConfig) : Prop :=
  match auth with
  | Some a =>
      tc_upstreamCredential config = Some (mkUpstreamCred (up_mode (ta_credential a)) (up_value (ta_credential a))
                                             (up_header (ta_credential a)))
      ∧ tc_anthropicBaseUrl config = Some (up_baseUrl (ta_credential a)) ∧ tc_anthropicAuthToken config = None
  | None =>
      tc_upstreamCredential config = None ∧ tc_anthropicBaseUrl config = env !! "ANTHROPIC_BASE_URL"
      ∧ tc_anthropicAuthToken config = env !! "ANTHROPIC_AUTH_TOKEN"
  end ∧ tc_serverMode config = true ∧ (tc_allowLocalTools config = true ↔ env !! "SH_LOCAL_TOOLS" = Some "1").

Lemma buildConfig_of auth : config_of auth (buildConfig auth).
Proof. destruct auth; cbn; (split; [done|]); (split; [done|]); apply bool_decide_eq_true. Qed.

(** What a run may do: [body] is the request's. *)
Definition run_allowed (hs : headers) (h : history) (c : server_call) : Prop :=
  match c with
  | RunLeaf b config =>
      ∃ body auth, body_read h body ∧ is_turn_caller hs h (field "sessionId" body) auth
        ∧ config_of auth config ∧ (is_Some auth → field "tenant" body = None)
        ∧ pool_owned h b (ta_subject <$> auth) ∧ field "sessionId" b = field "sessionId" body
        ∧ field "tenant" b = field "tenant" body
  | Enqueue b => anonymous hs ∧ pool_owned h b None
  | SetResult key record =>
      ∃ body auth result ts, body_read h body ∧ is_turn_caller hs h (field "sessionId" body) auth
        ∧ (is_Some auth → field "tenant" body = None)
        ∧ key = resultKey (leaf_id (field "sessionId" body) (field "tenant" body))
        ∧ record = toResultRecord result (default "" (as_string (field "sessionId" body))) ts ∧ isSaturated result = false
  | StoreSet _ _ | ContextRequest _ _ _ | ExecuteTurn _ | StreamTurn _ | ReportRuntime _ _ | RespondStream _ => False
  | _ => True
  end.

(** Fields a resolved workload leaves as they are. *)
Definition same_run (b body : json) : Prop :=
  field "sessionId" b = field "sessionId" body ∧ field "tenant" b = field "tenant" body.

Lemma with_run_spec hs h body subject k :
  field "sandboxPoolSelector" body = None →
  (∀ h' b, pool_owned (h ++ h') b subject → same_run b body → spec (run_allowed hs) anything anything (h ++ h') (k b)) →
  spec (run_allowed hs) anything anything h (with_run body subject k).
Proof.
  intros Hsel Hk. unfold with_run. destruct (negb _); [done|]. destruct (negb _); [done|].
  apply spec_bind. unfold resolveRunWorkload. destruct (truthy_opt _) as [id|].
  2:{ specialize (Hk [] body). rewrite app_nil_r in Hk. apply Hk; [|done]. unfold pool_owned. by rewrite Hsel. }
  apply spec_bind, find_spec; [done|done|]. intros h1 [r|] Hread; [|by repeat split].
  destruct (is_deleted r || negb (ownedBy r subject)) eqn:E; [by repeat split|].
  apply orb_false_iff in E as [Ed%not_deleted_live Eo%negb_false_iff%owned_belongs]. apply Hk.
  - unfold pool_owned. destruct body as [| | | | |fs]; try done. cbn [field].
    assert (Hget : map_get "sandboxPoolSelector" (match field "sandboxSelector" r with
              | Some s => map_set "sandboxPoolSelector" s fs | None => map_delete "sandboxPoolSelector" fs end)
            = field "sandboxSelector" r).
    { destruct (field "sandboxSelector" r); [by rewrite map_get_set, decide_True|by rewrite map_get_delete, decide_True]. }
    rewrite Hget. destruct (field "sandboxSelector" r) as [sel|] eqn:Es; [|done]. by exists id, r.
  - destruct body as [| | | | |fs]; try done. unfold same_run. simpl.
    destruct (field "sandboxSelector" r); simpl; by rewrite ?map_get_set, ?map_get_delete, !decide_False by done.
Qed.

Lemma wait_calls n body config deadline maxb delay result :
  calls (fun c => match c with DateNow | Sleep _ => True | RunLeaf b c => b = body ∧ c = config | _ => False end)
    (saturation_wait n body config deadline maxb delay result).
Proof.
  revert delay result. induction n as [|n IH]; intros delay result; cbn [saturation_wait].
  - destruct (isSaturated result); [|done]. split; [done|]. intros now. srv. by destruct (_ <? _).
  - destruct (isSaturated result); [|done]. split; [done|]. intros now. srv. destruct (_ <? _); [|done].
    split; [done|]. intros now2. srv. split; [done|]. intros u. srv. split; [done|]. intros r. srv.
    apply calls_bind; [by destruct r as [|[]]|]. intros r2. apply IH.
Qed.

Lemma run_leaf_allowed n hs h raw auth (body := default (JObj []) (parse raw)) :
  body_read h body → is_turn_caller hs h (field "sessionId" body) auth → (is_Some auth → field "tenant" body = None) →
  spec (run_allowed hs) anything anything h (handleRunLeafParsed n (run_body raw) auth).
Proof.
  intros Hb Hc Ht. apply with_run_spec; [apply run_body_no_selector|]. intros h1 b Hp [Hsid Hten].
  rewrite !run_body_field in Hsid, Hten by done.
  assert (Hleaf : ∀ h', run_allowed hs ((h ++ h1) ++ h') (RunLeaf b (buildConfig auth))).
  { intros h'. exists body, auth. pose proof (buildConfig_of auth).
    split_and!; try done; repeat first [done|apply body_read_app|apply is_turn_caller_app|apply pool_owned_app]. }
  assert (Hset : ∀ h' result ts, isSaturated result = false → run_allowed hs ((h ++ h1) ++ h')
    (SetResult (resultKey (leaf_id (field "sessionId" b) (field "tenant" b)))
       (toResultRecord result (default "" (as_string (field "sessionId" b))) ts))).
  { intros h' result ts Hr. exists body, auth, result, ts. rewrite Hsid, Hten.
    split_and!; try done; repeat first [done|apply body_read_app|apply is_turn_caller_app]. }
  set (h2 := h ++ h1) in *. clearbody h2. split; [done|]. intros now. srv. split; [apply Hleaf|]. intros [first|[t]]; srv; [|done].
  apply spec_bind. rewrite <-app_assoc. eapply spec_calls; [apply wait_calls| | |done].
  - intros h' c Hc'. rewrite <-app_assoc. destruct c; try done. destruct Hc' as [-> ->]. apply Hleaf.
  - intros h' result. destruct result as [result|]; [|done]. destruct (isSaturated result) eqn:E; [done|].
    split; [done|]. intros ts. srv. rewrite <-!app_assoc. split; [by apply Hset|]. intros [u|[t]]; done.
Qed.

Lemma enqueue_allowed hs h raw :
  anonymous hs → spec (run_allowed hs) anything anything h (handleEnqueueLeafParsed (run_body raw)).
Proof.
  intros Ha. apply with_run_spec; [apply run_body_no_selector|]. intros h1 b Hp Hsame.
  split; [done|]. intros [u|[t]]; srv; [|done]. split; [|by intros [u2|[t]]].
  split; [done|]. by apply pool_owned_app.
Qed.

Lemma runs_allowed n hs h : spec (run_allowed hs) anything anything h (runs_route n hs).
Proof.
  split; [done|]. intros [raw|]; [|done]. srv.
  assert (Hb : ∀ h', body_read ((h ++ [ev ReadBody (Some raw)]) ++ h') (default (JObj []) (parse raw))).
  { intros h'. exists raw. split; [|done]. rewrite !elem_of_app. left. right. by left. }
  set (h1 := h ++ _) in *. clearbody h1. apply spec_bind, caller_or_spec; [done|].
  intros deps Hd. apply spec_bind, as_caller_spec; [done|]. intros tr [auth|e] Hrun; [|done]. simpl.
  pose proof (resolve_caller deps hs _ tr auth h1 Hd Hrun) as Hc. rewrite run_body_field in Hc by done.
  destruct (_ && _ && _) eqn:Et; [done|]. destruct (is_true _) eqn:Ea.
  - destruct (requireAuth deps) eqn:Er; [done|]. destruct auth as [a|]; [done|]. cbn [orb bool_decide]. by apply enqueue_allowed.
  - apply run_leaf_allowed; [done|done|]. intros [a ->]. rewrite <-run_body_field by done.
    rewrite bool_decide_eq_true_2 in Et by done. apply andb_false_iff in Et as [Et|Et]; [|by to_prop; apply eq_None_not_Some].
    simpl in Et. unfold run_body in *. by destruct (parse raw) as [[]|].
Qed.

(** C14. A run acts only for its caller.  Every leaf it runs is configured for the caller this
    very request authenticated as, for the session its body names: with a token, verified
    while the request was served, the configuration holds exactly the credential, its header and
    mode, and the endpoint that the control plane answered in this request to that token, and no
    credential of the operator's; without one, and only where none is required, the operator's.
    An authenticated run names no tenant; the sandbox pool is never the request's own choice
    but that of a live workload whose record the store held with that subject as its owner.  Only
    an anonymous request of a deployment that requires no token is queued.  A result is stored under
    the session the body names, and one that says only that the pool was full never is. *)
Theorem runs_authorised n hs tr o tr1 c r tr2 :
  runs (runs_route n hs) tr o → tr = tr1 ++ ev c r :: tr2 → run_allowed hs tr1 c.
Proof.
  intros Hr Htr. destruct (spec_runs _ _ _ [] _ _ _ (runs_allowed n hs []) Hr) as [Hg _]. by eapply Hg.
Qed.

(** ** Whose status *)

Definition status_allowed (hs : headers) (url : bytes) (h : history) (c : server_call) : Prop :=
  match c with
  | StoreGet key => ∃ sessionId,
      map_get "sessionId" (searchParams url) = Some sessionId
      ∧ key = resultKey (leaf_id (Some (JStr sessionId)) (JStr <$> map_get "tenant" (searchParams url)))
      ∧ (anonymous hs ∨ map_get "tenant" (searchParams url) = None
           ∧ ∃ tok claims, signed hs h tok claims ∧ sid (claims_of claims) = Some sessionId)
  | _ => idle c = true ∨ sends c = true
  end.

Lemma authorised_reader deps hs sessionId tr authenticated h :
  deps_of deps → runs (authorizeRunRead deps hs sessionId) tr (Ok authenticated) →
  if authenticated then ∃ tok claims, signed hs (h ++ lifted tr) tok claims ∧ sid (claims_of claims) = Some sessionId
  else anonymous hs.
Proof.
  intros Hd. unfold authorizeRunRead. destruct (bearer hs) as [tok|] eqn:Hb.
  - intros (now & tr' & -> & Hr)%runs_turn_claims. destruct (verifyToken _ _ _ _) as [payload|] eqn:Hv; [|by destruct Hr].
    case_bool_decide; [|by apply runs_inv in Hr as [_ ?]]. apply runs_inv in Hr as [-> [= ->]].
    exists tok, payload. split; [|done]. exists deps, now. split_and!; try done. apply elem_of_app. right. by left.
  - destruct (requireAuth deps) eqn:Hreq; [by intros [_ ?]%runs_inv|]. intros [-> [= ->]]%runs_inv. split; [done|]. by exists deps.
Qed.

Lemma nonempty_inv s x : TurnStream.nonempty s = Some x → s = Some x ∧ x ≠ "".
Proof. destruct s as [y|]; [|done]. simpl. case_bool_decide; [done|]. by intros [= ->]. Qed.

(** The status of a run is read only for a caller who may: with a token, one that names the
    session the request asks for, and then of no other tenant's; without, only where no token is
    required.  It is the record of that session, and nothing else is touched. *)
Theorem status_authorised hs url tr o tr1 c r tr2 :
  runs (status_route hs url) tr o → tr = tr1 ++ ev c r :: tr2 → status_allowed hs url tr1 c.
Proof.
  intros Hr Htr. assert (Hs : spec (status_allowed hs url) anything anything [] (status_route hs url)).
  { unfold status_route. destruct (TurnStream.nonempty _) as [sid|] eqn:Es; [|split; [by right|done]].
    apply nonempty_inv in Es as [Es Hne]. apply spec_bind.
    apply caller_or_spec; [split; [by split; [right|]|done]|]. intros deps Hd. apply as_caller_spec; [by left|].
    intros tr' [authenticated|e] Hrun; [|split; [by split; [right|]|done]].
    pose proof (authorised_reader deps hs sid tr' authenticated [] Hd Hrun) as Hauth.
    destruct (authenticated && map_has "tenant" (searchParams url)) eqn:Et; [split; [by right|done]|].
    unfold handleLeafStatus. destruct (TurnStream.nonempty _) as [sid2|] eqn:Es2; [|split; [by right|done]].
    apply nonempty_inv in Es2 as [Es2 _]. rewrite Es in Es2. injection Es2 as <-.
    split.
    - exists sid. split_and!; try done. destruct authenticated; [right|by left]. split; [|done].
      simpl in Et. unfold map_has in Et. by destruct (map_get "tenant" _).
    - intros [raw|[t]]; srv; [|done]. split; [by right|done]. }
  destruct (spec_runs _ _ _ [] _ _ _ Hs Hr) as [Hg _]. by eapply Hg.
Qed.

(** ** Whose turn *)

Definition turn_allowed (hs : headers) (h : history) (c : server_call) : Prop :=
  match c with
  | ExecuteTurn input | StreamTurn input =>
      ∃ prompt sessionId auth streams, is_turn_caller hs h sessionId auth ∧ input = turn_input prompt sessionId auth streams
  | _ => True
  end.

Lemma turn_guarded hs h : spec (turn_allowed hs) anything anything h (handleTurn hs).
Proof.
  split; [done|]. intros b. srv. set (h1 := h ++ _). clearbody h1.
  destruct b as [body|]; [|done]. destruct (parse body) as [parsed|]; [|done].
  assert (Hgo : spec (turn_allowed hs) anything anything h1 (match truthy_opt (field "prompt" parsed) with
    | None => reply_json 400 (error_json "prompt_required")
    | Some prompt =>
        await who <- caller_or (await deps <- turnAuthDeps; as_caller other_text (resolveTurnAuth deps hs (field "sessionId" parsed)))
                       (field "sessionId" parsed);
        match who with
        | None => Ret tt
        | Some auth => if wantsStream hs then stream_turn prompt (field "sessionId" parsed) auth
                       else plain_turn prompt (field "sessionId" parsed) auth
        end
    end)).
  { destruct (truthy_opt _) as [prompt|]; [|done]. apply spec_bind.
    apply caller_or_spec; [done|]. intros deps Hd. apply as_caller_spec; [done|].
    intros tr [auth|e] Hrun; [|done].
    pose proof (resolve_caller deps hs _ tr auth h1 Hd Hrun) as Hc. set (h2 := h1 ++ lifted tr) in *. clearbody h2.
    assert (Hin : ∀ h'' streams, turn_allowed hs (h2 ++ h'') (ExecuteTurn (turn_input prompt (field "sessionId" parsed) auth streams)))
      by (intros h'' streams; exists prompt, (field "sessionId" parsed), auth, streams; split; [by apply is_turn_caller_app|done]).
    assert (Hin0 : ∀ streams, turn_allowed hs h2 (ExecuteTurn (turn_input prompt (field "sessionId" parsed) auth streams)))
      by (intros streams; specialize (Hin [] streams); by rewrite app_nil_r in Hin).
    unfold stream_turn, plain_turn. destruct (wantsStream hs).
    - apply spec_bind. destruct auth as [a|]; simpl.
      + split; [done|]. intros u. split; [apply (Hin _ true)|]. intros seen. repeat split.
      + split; [apply (Hin0 true)|]. intros seen. repeat split.
    - apply spec_bind. destruct auth as [a|]; simpl.
      + split; [done|]. intros u. split; [apply Hin|]. intros [result|e]; repeat split.
      + split; [apply Hin0|]. intros [result|e]; repeat split. }
  destruct parsed; try exact Hgo. done.
Qed.

(** C11. From the request to the model: a request that carries a token starts a turn only after
    that token was verified while serving it and the control plane was asked with that very token
    and answered; the turn is in the session the token names, and whatever then happens in it, every
    model the agent is given sends exactly the credential of that answer, in the header it
    chose, with the other header stripped, to the endpoint of that answer.  The operator's
    credential is used only for a request without a token, where none is required. *)
Theorem turn_spends_callers_credential gm gp gms cwd hs tr o tr1 c r tr2 input tr' o' :
  runs (handleTurn hs) tr o → tr = tr1 ++ ev c r :: tr2 → c = ExecuteTurn input ∨ c = StreamTurn input →
  runs (executeTurn gm gp gms cwd input) tr' o' →
  match bearer hs with
  | None => anonymous hs ∧ ∃ config, in_config input = Some config ∧ config_of None config
  | Some tok => ∃ claims session up, signed hs tr1 tok claims
      ∧ sid (claims_of claims) = Some session ∧ in_sessionId input = Some (JStr session) ∧ granted tr1 tok up
      ∧ Forall (fun e : event (C := turn_call) (R := turn_reply) =>
          match projT1 e with
          | CreateAgentSession m =>
              carries (default Credentials.authorization (up_header up)) (up_value up) m ∧ m_baseUrl m = Some (up_baseUrl up)
          | SetEnv n v => (n, v) ∈ CONSTANT_WRITES
          | _ => True
          end) tr'
  end.
Proof.
  intros Hr Htr Hin Hturn. destruct (spec_runs _ _ _ [] _ _ _ (turn_guarded hs []) Hr) as [Hg _].
  specialize (Hg _ _ _ _ Htr).
  assert (Hall : ∃ prompt sessionId auth streams, is_turn_caller hs tr1 sessionId auth ∧ input = turn_input prompt sessionId auth streams)
    by (by destruct Hin as [-> | ->]).
  destruct Hall as (prompt & sessionId & auth & streams & Hc & ->). destruct auth as [a|].
  - destruct Hc as (tok & claims & Hs & _ & Hsid & _ & Hup). assert (Hb : bearer hs = Some tok) by (by destruct Hs as (? & ? & ? & ? & _)).
    rewrite Hb. exists claims, (ta_sessionId a), (ta_credential a). split_and!; [done|done|done|done|].
    destruct Hup as (_ & _ & _ & _ & _ & _ & _ & _ & _ & Hv & _ & Hu & _).
    eapply Forall_impl; [exact (credential_isolated _ _ _ _ (turn_input prompt sessionId (Some a) streams) (buildConfig (Some a))
      (mkUpstreamCred (up_mode (ta_credential a)) (up_value (ta_credential a)) (up_header (ta_credential a)))
      _ _ eq_refl eq_refl Hv Hturn)|].
    intros [[] x]; cbn; try done. intros [? Hm]. split; [done|]. by apply Hm.
  - rewrite (proj1 Hc). split; [done|]. eexists. split; [reflexivity|]. apply buildConfig_of.
Qed.

(** ** The wait ends *)

(** Times read along a run: the clock does not go back, and a timer does not fire early (a
    delay below a millisecond is one, as Node's timers have it). *)
Fixpoint timely (t : Z) (tr : history) : Prop :=
  match tr with
  | [] => True
  | existT c r :: tr' =>
      match c return server_reply c → Prop with
      | DateNow => fun now => t ≤ now ∧ timely now tr'
      | Sleep ms => fun _ => timely (t + Z.max 1 ms) tr'
      | _ => fun _ => timely t tr'
      end r
  end.

Lemma timely_app t tr1 tr2 : timely t (tr1 ++ tr2) → ∃ t', t ≤ t' ∧ timely t' tr2.
Proof.
  revert t. induction tr1 as [|[c r] tr1 IH]; intros t Ht; [by exists t|].
  destruct c; simpl in Ht; try by apply IH.
  - destruct Ht as [Hle Ht]. destruct (IH _ Ht) as (t' & ? & ?). exists t'. split; [lia|done].
  - destruct (IH _ Ht) as (t' & ? & ?). exists t'. split; [lia|done].
Qed.

Lemma wait_ends n body config deadline maxb delay result t tr :
  runs (saturation_wait n body config deadline maxb delay result) tr (Ok None) → timely t tr → t + Z.of_nat n < deadline.
Proof.
  revert delay result t tr. induction n as [|n IH]; intros delay result t tr; cbn [saturation_wait];
    (destruct (isSaturated result); [|by intros [_ [=]]%runs_inv]);
    intros (now & tr1 & -> & Hr)%runs_inv [Hle Ht]; cbn in Hr; destruct (Z.ltb_spec now deadline); try by apply runs_inv in Hr as [_ [=]].
  - lia.
  - apply runs_inv in Hr as (now2 & tr2 & -> & Hr). apply runs_inv in Hr as (u & tr3 & -> & Hr).
    apply runs_inv in Hr as (r & tr4 & -> & Hr). destruct Ht as [Hle2 Ht]. simpl in Ht.
    destruct r as [first|[e]]; [|by apply runs_inv in Hr as [_ [=]]]. cbn in Hr.
    specialize (IH _ _ _ _ Hr Ht). lia.
Qed.

(** A program whose runs are never cut off in the wait. *)
Definition ends (p : server_prog progress_of) : Prop := ∀ t tr x, runs p tr (Ok x) → timely t tr → x = Finished.

Lemma ends_bind {A} (p : server_prog A) f : (∀ a, ends (f a)) → ends (pbind p f).
Proof.
  intros Hf t tr x [(e & _ & [=])|(a & t1 & t2 & -> & _ & Hr)]%runs_bind Ht. apply timely_app in Ht as (t' & _ & Ht). by eapply Hf.
Qed.

Lemma ends_finished : ends (Ret Finished).
Proof. by intros t tr x [_ [= ->]]%runs_inv _. Qed.

Lemma ends_err e : ends (Err e).
Proof. by intros t tr x [_ [=]]%runs_inv. Qed.

Lemma with_run_ends body subject k : (∀ b, ends (k b)) → ends (with_run body subject k).
Proof.
  intros Hk. unfold with_run. destruct (negb _); [apply ends_bind; intros; apply ends_finished|].
  destruct (negb _); [apply ends_bind; intros; apply ends_finished|]. apply ends_bind. intros [b|]; [apply Hk|apply ends_finished].
Qed.

(** A run does not wait forever for a sandbox: with a clock that runs forward and timers
    that do not fire early, as many attempts as the budget has milliseconds are enough, so the
    wait ends and the caller is answered ([answered_once]); the backoff may be set to zero. *)
Theorem run_wait_bounded n hs t tr x :
  waitMs (saturationWaitConfig env) ≤ Z.of_nat n →
  runs (runs_route n hs) tr (Ok x) → timely t tr → x = Finished.
Proof.
  intros Hn. revert t tr x. change (ends (runs_route n hs)).
  apply ends_bind. intros [raw|]; [|apply ends_err]. cbn zeta. apply ends_bind. intros [[required auth]|]; [|apply ends_finished].
  assert (Hreply : ∀ {A} (p : server_prog A), ends (await _ <- p; Ret Finished))
    by (intros; apply ends_bind; intros; apply ends_finished).
  destruct (_ && _ && _); [apply Hreply|]. destruct (is_true _); [destruct (_ || _); [apply Hreply|]|].
  - apply with_run_ends. intros b. do 4 (apply ends_bind; intros ?). apply Hreply.
  - apply with_run_ends. intros b. intros t tr x (now & tr1 & -> & Hr)%runs_inv [Hle Ht].
    apply runs_inv in Hr as (r & tr2 & -> & Hr). destruct r as [first|[e]]; [|by apply runs_inv in Hr as [_ [=]]].
    cbn in Hr, Ht. apply runs_bind in Hr as [(e & _ & [=])|(result & t1 & t2 & -> & Hw & Hr)].
    destruct result as [result|].
    + apply timely_app in Ht as (t' & _ & Ht). revert t' t2 x Hr Ht.
      change (ends (if isSaturated result then
        await _ <- query (Respond 503 (JSON_HEADERS ++ [("Retry-After", dec_str (retryAfterS (saturationWaitConfig env)))])
                            (Some (stringify (JObj [("status", JStr "failed"); ("reason", JStr "saturated")])))); Ret Finished
        else
          await ts <- query IsoNow;
          await w <- query (SetResult (resultKey (leaf_id (field "sessionId" b) (field "tenant" b)))
                              (toResultRecord result (default "" (as_string (field "sessionId" b))) ts));
          await _ <- ok w;
          await _ <- reply_json 200 (result_json result);
          Ret Finished)).
      destruct (isSaturated result); [apply Hreply|]. do 3 (apply ends_bind; intros ?). apply Hreply.
    + exfalso. apply runs_inv in Hr as [-> _]. rewrite app_nil_r in Ht. pose proof (wait_ends _ _ _ _ _ _ _ _ _ Hw Ht). unfold waitMs, saturationWaitConfig in Hn. lia.
Qed.
End Routes.

(** ** Witnesses *)

Definition ex_env : list (string * string) :=
  [("SH_SESSION_TOKEN_PUBLIC_KEYS", "k1:azE="); ("SH_REQUIRE_AUTH", "true"); ("SH_CONTROL_PLANE_URL", "http://cp");
   ("CONTEXT_SERVICE_URL", "http://cs"); ("KAGENTI_SYNC_SATURATION_WAIT_MS", "2")].

Definition ex_record : json :=
  JObj [("workloadId", JStr "w1"); ("status", JStr "ready"); ("sandboxSelector", JStr "pool=w1"); ("owner", JStr "github:1")].

(** A deployment with one workload, in which every leaf finds the pool full; the state is the
    clock, in milliseconds. *)
Definition ex_reply (body : bytes) (c : server_call) (t : Z) : server_reply c * Z :=
  match c return server_reply c * Z with
  | Caller c => ((toy_exchange_reply c tt).1, t)
  | ReadBody => (Some body, t)
  | StoreGet _ => (Ok (Some (stringify ex_record)), t)
  | StoreSet _ _ | SetResult _ _ | EnsureGroup | Enqueue _ => (Ok tt, t)
  | ContextRequest _ _ _ => (Fetched 200 (Some (JObj [("name", JStr "w1"); ("status", JStr "ready")])), t)
  | RandomUUID | IsoNow => ("2026", t)
  | DateNow => (t, t)
  | Sleep ms => (tt, t + Z.max 1 ms)
  | RunLeaf _ _ => (Ok (RFailed saturated None), t)
  | ExecuteTurn _ => (Ok (mkTurnResult "s1" "hello" "stop" None None), t)
  | StreamTurn _ => (([], Ok (mkTurnResult "s1" "hello" "stop" None None)), t)
  | ReportRuntime _ _ | Respond _ _ _ | RespondStream _ => (tt, t)
  end.

Section Examples.
Local Existing Instance toy_ed25519.

Definition ex_turn_body : bytes := bytes_of "{" ++ [ascii_of_nat 34] ++ bytes_of "prompt" ++ [ascii_of_nat 34] ++ bytes_of ":1}".
Definition ex_run_body : bytes :=
  stringify (JObj [("sessionId", JStr "s1"); ("kind", JStr "prompt"); ("prompt", JStr "hi"); ("workloadId", JStr "w1")]).
Definition ex_status_url : bytes := bytes_of "/runs/status?sessionId=s1".

Definition ex_get := handleGetWorkload ex_env (Ok None) "" toy_headers "w1".
Definition ex_run := runs_route ex_env "/" (Ok None) "" 2 toy_headers.
Definition ex_status := status_route ex_env (Ok None) "" toy_headers ex_status_url.
Definition ex_turn := handleTurn ex_env "/" (Ok None) "" toy_headers.

Lemma answered_once_witness :
  ∃ p tr x, handler ex_env "/" (Ok None) "" 2 "GET" ex_status_url toy_headers = Promise p ∧ runs p tr (Ok x) ∧ sent tr = run_sent x.
Proof.
  pose (p := whole ex_status). pose proof (ptrace_runs (ex_reply []) p 1000000) as Hr.
  assert (Hh : handler ex_env "/" (Ok None) "" 2 "GET" ex_status_url toy_headers = Promise p) by reflexivity.
  destruct (answered_once ex_env "/" (Ok None) "" 2 "GET" ex_status_url toy_headers p _ _ Hh Hr) as (x & Ho & Hs).
  rewrite Ho in Hr. eexists p, _, x. split_and!; [exact Hh|exact Hr|exact Hs].
Defined.

(** The call number [i] of a run, between what came before it and what came after. *)
Lemma event_at {A} (p : server_prog A) body t i e (tr := (ptrace (ex_reply body) p t).1) :
  tr !! i = Some e → tr = take i tr ++ ev (projT1 e) (projT2 e) :: drop (S i) tr.
Proof. intros He. destruct e as [c r]. symmetry. exact (take_drop_middle _ _ _ He). Qed.

Lemma workloads_isolated_witness :
  let tr := (ptrace (ex_reply []) ex_get 1000000).1 in
  (projT1 <$> tr !! 2%nat) = Some (ContextRequest "GET" "/v1/sandbox-pools/w1" None)
  ∧ get_allowed ex_env (Ok None) toy_headers "w1" (take 2 tr) (ContextRequest "GET" "/v1/sandbox-pools/w1" None).
Proof.
  intros tr. pose proof (ptrace_runs (ex_reply []) ex_get 1000000) as Hr. fold tr in Hr.
  assert (Hc : projT1 <$> tr !! 2%nat = Some (ContextRequest "GET" "/v1/sandbox-pools/w1" None)) by (vm_compute; reflexivity).
  split; [exact Hc|]. destruct (tr !! 2%nat) as [e|] eqn:He; [|discriminate Hc].
  assert (Hk : projT1 e = ContextRequest "GET" "/v1/sandbox-pools/w1" None) by exact (inj Some _ _ Hc). rewrite <-Hk.
  destruct (workloads_isolated ex_env (Ok None) "" toy_headers tr (ptrace (ex_reply []) ex_get 1000000).2 _ _ _ _
    (event_at ex_get [] 1000000 2 e He)) as (Hget & _). exact (Hget "w1" Hr).
Defined.

Lemma runs_authorised_witness :
  let tr := (ptrace (ex_reply ex_run_body) ex_run 1000000).1 in
  ∃ b config, (projT1 <$> tr !! 5%nat) = Some (RunLeaf b config)
  ∧ run_allowed ex_env (Ok None) toy_headers (take 5 tr) (RunLeaf b config).
Proof.
  intros tr. pose proof (ptrace_runs (ex_reply ex_run_body) ex_run 1000000) as Hr. fold tr in Hr.
  assert (Hc : match projT1 <$> tr !! 5%nat with Some (RunLeaf _ _) => true | _ => false end = true) by (vm_compute; reflexivity).
  destruct (tr !! 5%nat) as [e|] eqn:He; [|discriminate Hc].
  pose proof (runs_authorised ex_env "/" (Ok None) "" 2 toy_headers _ _ _ _ _ _ Hr (event_at ex_run ex_run_body 1000000 5 e He)) as Ha.
  destruct e as [c r]. destruct c; try discriminate Hc. eexists _, _. split; [reflexivity|exact Ha].
Defined.

Lemma status_authorised_witness :
  let tr := (ptrace (ex_reply []) ex_status 1000000).1 in
  (projT1 <$> tr !! 1%nat) = Some (StoreGet (bytes_of "leaf:result:s1"))
  ∧ status_allowed ex_env (Ok None) toy_headers ex_status_url (take 1 tr) (StoreGet (bytes_of "leaf:result:s1")).
Proof.
  intros tr. pose proof (ptrace_runs (ex_reply []) ex_status 1000000) as Hr. fold tr in Hr.
  assert (Hc : projT1 <$> tr !! 1%nat = Some (StoreGet (bytes_of "leaf:result:s1"))) by (vm_compute; reflexivity).
  split; [exact Hc|]. destruct (tr !! 1%nat) as [e|] eqn:He; [|discriminate Hc]. 
  assert (Hk : projT1 e = StoreGet (bytes_of "leaf:result:s1")) by exact (inj Some _ _ Hc). rewrite <-Hk.
  exact (status_authorised ex_env (Ok None) "" toy_headers ex_status_url _ _ _ _ _ _ Hr (event_at ex_status [] 1000000 1 e He)).
Defined.

Definition ex_turn_input : ExecuteTurnInput := turn_input ex_env "/" (jint 1) None (Some toy_turn_auth) false.
Definition ex_turn_run := executeTurn (fun _ _ => Some ex_model) [] (fun _ => []) "/w" ex_turn_input.

Lemma turn_spends_callers_credential_witness :
  let tr := (ptrace (ex_reply ex_turn_body) ex_turn 1000000).1 in
  ∃ tok up, bearer toy_headers = Some tok ∧ granted ex_env (Ok None) (take 4 tr) tok up
  ∧ Forall (fun e : event (C := turn_call) (R := turn_reply) =>
      match projT1 e with
      | CreateAgentSession m =>
          carries (default Credentials.authorization (up_header up)) (up_value up) m ∧ m_baseUrl m = Some (up_baseUrl up)
      | SetEnv n v => (n, v) ∈ CONSTANT_WRITES
      | _ => True
      end) (ptrace ex_world ex_turn_run tt).1.
Proof.
  intros tr. pose proof (ptrace_runs (ex_reply ex_turn_body) ex_turn 1000000) as Hr. fold tr in Hr.
  pose proof (ptrace_runs ex_world ex_turn_run tt) as Ht.
  assert (Hc : projT1 <$> tr !! 4%nat = Some (ExecuteTurn ex_turn_input)) by (vm_compute; reflexivity).
  destruct (tr !! 4%nat) as [e|] eqn:He; [|discriminate Hc].
  assert (Hk : projT1 e = ExecuteTurn ex_turn_input) by exact (inj Some _ _ Hc).
  pose proof (turn_spends_callers_credential ex_env "/" (Ok None) "" _ _ _ _ toy_headers _ _ _ _ _ _ _ _ _ Hr
    (event_at ex_turn ex_turn_body 1000000 4 e He) (or_introl Hk) Ht) as Hs.
  destruct (bearer toy_headers) as [tok|] eqn:Hb; [|vm_compute in Hb; discriminate Hb].
  destruct Hs as (claims & sid & up & _ & _ & _ & H1 & H2). exists tok, up. split_and!; [reflexivity|exact H1|exact H2].
Defined.

Lemma run_wait_bounded_witness :
  waitMs (saturationWaitConfig (env ex_env)) = 2
  ∧ (ptrace (ex_reply ex_run_body) ex_run 1000000).2 = Ok Finished.
Proof.
  assert (Hw : waitMs (saturationWaitConfig (env ex_env)) = 2) by (vm_compute; reflexivity). split; [exact Hw|].
  pose proof (ptrace_runs (ex_reply ex_run_body) ex_run 1000000) as Hr.
  destruct (ptrace (ex_reply ex_run_body) ex_run 1000000).2 as [x|e] eqn:Ho; [|vm_compute in Ho; discriminate Ho].
  rewrite (run_wait_bounded ex_env "/" (Ok None) "" 2 toy_headers 1000000 _ x ltac:(rewrite Hw; reflexivity) Hr); [reflexivity|].
  vm_compute. repeat split; discriminate.
Defined.

(** ** What the code does that it does not mean to *)

(** A request for a workload whose id has a malformed percent escape throws out of the listener,
    before the caller is known, where nothing catches it. *)
Lemma malformed_workload_id_uncaught n hs :
  handler ex_env "/" (Ok None) "" n "GET" (bytes_of "/workloads/%") hs = Uncaught "URIError: URI malformed".
Proof. reflexivity. Qed.

(** A body of [null] is answered as the server's failure, not as an invalid request. *)
Lemma null_turn_body :
  projT1 <$> (ptrace (ex_reply (bytes_of "null")) (whole ex_turn) 0).1
  = [ReadBody; Respond 500 JSON_HEADERS (Some (stringify
       (error_json "TypeError: Cannot destructure property 'sessionId' of 'parsed' as it is null.")))].
Proof. vm_compute. reflexivity. Qed.

(** A name that is not a string passes the check on names, is sent to Context Service, and then
    does not match the name it answers with: the pool is made and no record of it is kept. *)
Definition ex_number_name : bytes := stringify (JObj [("name", jint 7)]).

Definition ex_unrecorded (c : server_call) (t : Z) : server_reply c * Z :=
  match c return server_reply c * Z with
  | StoreGet _ => (Ok None, t)
  | ContextRequest _ _ _ => (Fetched 201 (Some (JObj [("name", JStr "7")])), t)
  | c => ex_reply ex_number_name c t
  end.

Lemma number_name_unrecorded :
  (projT1 <$> (ptrace ex_unrecorded (handleCreateWorkload ex_env (Ok None) "" toy_headers) 1000000).1) !! 3%nat
    = Some (ContextRequest "POST" "/v1/sandbox-pools" (Some (pool_request (jint 7) (JObj [("name", jint 7)]))))
  ∧ (projT1 <$> (ptrace ex_unrecorded (handleCreateWorkload ex_env (Ok None) "" toy_headers) 1000000).1) !! 4%nat
    = Some (Respond 502 JSON_HEADERS (Some (stringify (error_json "context_service_error")))).
Proof. vm_compute. split; reflexivity. Qed.
End Examples.
