(* ===== verification/ServerProcess.v ===== *)
(** * The server's process

    Models [packages/knative-server/src/server-process.ts] (the preparation shared by the HTTP
    server, the worker and the job that drains the queue), and [cron-dispatch.ts], a client of
    [POST /runs].  The environment is the list of its variables, as [readTenancy] reads it; the
    file system is a parameter, as in [Boot.credentialValue]. *)

From S2P Require Import Prelude JsNumber Json JsonText Prog CpBase Token Exchange CpRoutes Handlers Boot TurnAuth Tenancy.
From S2P Require Import Gate Leaf TurnStream RunTurn Server.

Local Open Scope Z_scope.

(** ** Credentials in the environment *)

Definition ends_in (suffix : string) (name : string) : bool := starts_with (rev (bytes_of suffix)) (rev (bytes_of name)).

Definition AWS_SOURCES : list string :=
  ["AWS_PROFILE"; "AWS_ACCESS_KEY_ID"; "AWS_SECRET_ACCESS_KEY"; "AWS_SESSION_TOKEN"; "AWS_BEARER_TOKEN_BEDROCK";
   "AWS_CONTAINER_CREDENTIALS_RELATIVE_URI"; "AWS_CONTAINER_CREDENTIALS_FULL_URI"; "AWS_WEB_IDENTITY_TOKEN_FILE"].

Definition PROVIDER_CREDENTIAL (name : string) : bool :=
  ends_in "_API_KEY" name || ends_in "_AUTH_TOKEN" name || ends_in "_OAUTH_TOKEN" name
  || bool_decide (name ∈ ["HF_TOKEN"; "COPILOT_GITHUB_TOKEN"; "GOOGLE_APPLICATION_CREDENTIALS"])
  || bool_decide (name ∈ AWS_SOURCES).

Definition scrubAmbientCredentials (env : list (string * string)) : list (string * string) :=
  map_set "ANTHROPIC_API_KEY" AMBIENT_KEY_SENTINEL (List.filter (fun kv => negb (PROVIDER_CREDENTIAL kv.1)) env).

(** [ensurePrivateAgentDir]: [made] is what [mkdtempSync] would make. *)
Definition ensurePrivateAgentDir (memo : option string) (made : string) : string :=
  match memo with Some d => if bool_decide (d = "") then made else d | None => made end.

Inductive boot_error := BadKeyset (e : keyset_error) | BootError (message : string).

Definition boots {A} (r : result string A) : result boot_error A :=
  match r with Ok a => Ok a | Throw m => Throw (BootError m) end.

Section Process.
Context `{Ed25519}.
Context (file : string → cred_file).

(** The environment the process goes on with; the directory is also the new memo. *)
Definition prepareServerProcess (memo : option string) (made : string) (env : list (string * string)) :
    result boot_error (Tenancy * string * list (string * string)) :=
  match parseKeyset (bytes_of <$> map_get "SH_SESSION_TOKEN_PUBLIC_KEYS" env) with
  | Throw e => Throw (BadKeyset e)
  | Ok _ =>
      try _ <- boots (credentialValue file (list_to_map env) "SH_EXCHANGE_TOKEN");
      try tenancy <- boots (readTenancy env);
      try env1 <- (match tenancy with
                   | multi =>
                       if bool_decide (map_get "SH_LOCAL_TOOLS" env = Some "1") then
                         Throw (BootError "MOCA_TENANCY=multi refuses SH_LOCAL_TOOLS=1: tools must run in a sandbox")
                       else if negb (bool_decide (map_get "SH_REQUIRE_AUTH" env = Some "true")) then
                         Throw (BootError "MOCA_TENANCY=multi requires SH_REQUIRE_AUTH=true")
                       else Ok (scrubAmbientCredentials env)
                   | single => Ok env
                   end);
      let dir := ensurePrivateAgentDir memo made in
      Ok (tenancy, dir, map_set "PI_CODING_AGENT_DIR" dir env1)
  end.

(** ** A multi-tenant server holds no provider credential *)

Lemma env_lookup (e : list (string * string)) n : env e !! n = map_get n e.
Proof.
  unfold env. induction e as [|[k v] e IH]; simpl; [done|].
  case_decide as Hk; [subst k; apply lookup_insert_eq|by rewrite lookup_insert_ne by done].
Qed.

Lemma map_get_filter (f : string → bool) (e : list (string * string)) n :
  map_get n (List.filter (fun kv => f kv.1) e) = if f n then map_get n e else None.
Proof.
  induction e as [|[k v] e IH]; simpl; [by destruct (f n)|]. destruct (f k) eqn:Ef; simpl; case_decide; subst; rewrite ?Ef; try done.
  by rewrite IH, Ef.
Qed.

Lemma scrubbed e n :
  map_get n (scrubAmbientCredentials e)
  = if decide (n = "ANTHROPIC_API_KEY") then Some AMBIENT_KEY_SENTINEL
    else if PROVIDER_CREDENTIAL n then None else map_get n e.
Proof.
  unfold scrubAmbientCredentials. rewrite map_get_set. case_decide; [done|].
  rewrite (map_get_filter (fun k => negb (PROVIDER_CREDENTIAL k))). by destruct (PROVIDER_CREDENTIAL n).
Qed.

Lemma prepared memo made e t dir e' :
  prepareServerProcess memo made e = Ok (t, dir, e') →
  readTenancy e = Ok t
  ∧ (t = multi → map_get "SH_LOCAL_TOOLS" e ≠ Some "1" ∧ map_get "SH_REQUIRE_AUTH" e = Some "true")
  ∧ e' = map_set "PI_CODING_AGENT_DIR" dir (match t with multi => scrubAmbientCredentials e | single => e end).
Proof.
  unfold prepareServerProcess. destruct (parseKeyset _) as [ks|]; [|done]. destruct (credentialValue _ _ _) as [x|]; [|done]. cbn.
  destruct (readTenancy e) as [[]|] eqn:Et; [| |done]; cbn.
  - intros [= <- <- <-]. by split_and!.
  - case_bool_decide; [done|]. case_bool_decide; [|done]. cbn. intros [= <- <- <-]. by split_and!.
Qed.

(** What a turn of a server that tells its callers apart may be given: the credential and the
    endpoint the control plane answered, while the request was served, to the request's own
    token, which was verified; nothing of the operator's, and no tools on the server. *)
Definition tenant_config (e : list (string * string)) (xt : result string (option string)) (hs : headers)
    (h : list (event (C := server_call) (R := server_reply))) (config : TurnConfig) : Prop :=
  tc_anthropicAuthToken config = None ∧ tc_allowLocalTools config = false
  ∧ ∃ tok claims up, signed e xt hs h tok claims ∧ granted e xt h tok up
    ∧ tc_upstreamCredential config = Some (mkUpstreamCred (up_mode up) (up_value up) (up_header up))
    ∧ tc_anthropicBaseUrl config = Some (up_baseUrl up).

Lemma required_never_anonymous e xt hs : map_get "SH_REQUIRE_AUTH" e = Some "true" → ¬ anonymous e xt hs.
Proof.
  intros Hreq (_ & deps & (t & _ & Hd) & Hf). unfold turnAuthDepsFromEnv in Hd. destruct (parseKeyset _); [|done].
  injection Hd as <-. cbn in Hf. apply bool_decide_eq_false in Hf. by rewrite env_lookup in Hf.
Qed.

Lemma tenant_caller e xt hs h sid auth config :
  map_get "SH_LOCAL_TOOLS" e ≠ Some "1" → map_get "SH_REQUIRE_AUTH" e = Some "true" →
  is_turn_caller e xt hs h sid auth → config_of e auth config → tenant_config e xt hs h config.
Proof.
  intros Hl Hreq Hc [Hcfg [_ Htools]]. destruct auth as [a|]; [|by destruct (required_never_anonymous e xt hs)].
  destruct Hc as (tok & claims & Hs & _ & _ & _ & Hg), Hcfg as (Hu & Hb & Ht). split_and!; [done| |].
  - apply not_true_is_false. rewrite Htools. by rewrite env_lookup.
  - by exists tok, claims, (ta_credential a).
Qed.

(** C12. A deployment that serves more than one tenant boots without any provider's credential:
    of every variable a credential is read from, only the sentinel remains, and nothing else is
    lost.  It refuses to boot with local tools or without required tokens, so from then on no
    request without a token starts a turn or a leaf and none is queued; each turn and leaf
    is configured with the credential, its header and mode, and the endpoint that the control plane
    answered to that request's own verified token while the request was served, with no ambient
    credential and no tools on the server. *)
Theorem multi_tenant_boot memo made e dir e' :
  prepareServerProcess memo made e = Ok (multi, dir, e') →
  (∀ n v, map_get n e' = Some v → PROVIDER_CREDENTIAL n = true → n = "ANTHROPIC_API_KEY" ∧ v = AMBIENT_KEY_SENTINEL)
  ∧ (∀ n, PROVIDER_CREDENTIAL n = false → n ≠ "PI_CODING_AGENT_DIR" → map_get n e' = map_get n e)
  ∧ ∀ cwd xt other n hs tr tr1 c r tr2,
      tr = tr1 ++ ev c r :: tr2 →
      (∀ o input, runs (handleTurn e' cwd xt other hs) tr o →
          c = ExecuteTurn input ∨ c = StreamTurn input →
          ∃ config, in_config input = Some config ∧ tenant_config e' xt hs tr1 config)
      ∧ (∀ o', runs (runs_route e' cwd xt other n hs) tr o' →
          match c with
          | RunLeaf _ config => tenant_config e' xt hs tr1 config
          | Enqueue _ => False
          | _ => True
          end).
Proof.
  intros (Ht & Hm & He)%prepared. destruct (Hm eq_refl) as [Hlocal Hreq].
  assert (Hget : ∀ n, n ≠ "PI_CODING_AGENT_DIR" → map_get n e' = map_get n (scrubAmbientCredentials e)).
  { intros n Hn. rewrite He, map_get_set. by rewrite decide_False. }
  assert (Hl' : map_get "SH_LOCAL_TOOLS" e' ≠ Some "1") by (rewrite Hget by done; by rewrite scrubbed).
  assert (Hr' : map_get "SH_REQUIRE_AUTH" e' = Some "true") by (rewrite Hget by done; by rewrite scrubbed).
  split_and!.
  - intros n v Hn Hp. destruct (decide (n = "PI_CODING_AGENT_DIR")) as [->|Hne]; [done|]. rewrite Hget, scrubbed in Hn by done.
    case_decide; [by simplify_eq|]. by rewrite Hp in Hn.
  - intros n Hp Hne. rewrite Hget, scrubbed by done. rewrite Hp. case_decide; [by subst n|done].
  - intros cwd xt other n hs tr tr1 c r tr2 Htr. split.
    + intros o input Hr Hc. destruct (spec_runs _ _ _ [] _ _ _ (turn_guarded e' cwd xt other hs []) Hr) as [Hg _].
      specialize (Hg _ _ _ _ Htr).
      destruct Hc as [-> | ->]; destruct Hg as (prompt & sid & auth & streams & Hcaller & ->);
        (eexists; split; [reflexivity|]; eapply tenant_caller; [done|done|exact Hcaller|apply buildConfig_of]).
    + intros o' Hr. destruct (spec_runs _ _ _ [] _ _ _ (runs_allowed e' cwd xt other n hs []) Hr) as [Hg _].
      specialize (Hg _ _ _ _ Htr). destruct c; try done; cbn in Hg.
      * destruct Hg as (body' & auth & _ & Hcaller & Hcfg & _). by eapply tenant_caller.
      * destruct Hg as [Hanon _]. by apply (required_never_anonymous e' xt hs).
Qed.
End Process.

(** ** Scheduled dispatch *)

Definition FIRE : bytes := bytes_of "__FIRE__".

(** [v.split('__FIRE__').join(fireId)] *)
Fixpoint join_with (sep : bytes) (l : list bytes) : bytes :=
  match l with
  | [] => []
  | [x] => x
  | x :: l' => x ++ sep ++ join_with sep l'
  end.

(** [Object.entries(v)]; [None] when it throws. *)
Definition entries (v : json) : option (list (string * json)) :=
  match v with
  | JNull => None
  | JObj fs => Some fs
  | JArr l => Some (imap (fun i x => (dec_str (Z.of_nat i), x)) l)
  | JStr s => Some (imap (fun i c => (dec_str (Z.of_nat i), JStr (string_of [c]))) (bytes_of s))
  | JBool _ | JNum _ => Some []
  end.

Definition fire_value (fireId : string) (v : json) : json :=
  match v with JStr s => JStr (string_of (join_with (bytes_of fireId) (split_on FIRE (bytes_of s)))) | v => v end.

Definition applyFire (envelope : json) (fireId : string) : option (list (string * json)) :=
  List.map (fun kv => (kv.1, fire_value fireId kv.2)) <$> entries envelope.

Record DispatchResult := mkDispatch { d_total : Z; d_accepted : Z; d_failed : Z }.

(** [post]: the reply to an envelope, [None] when it throws. *)
Inductive cron_call := Post (env : json).
Definition cron_reply (_ : cron_call) : Type := option bool.

Definition dispatched (item : json) (fireId : string) : option json :=
  (fun fs => JObj (map_set "async" (JBool true) fs)) <$> applyFire item fireId.

Fixpoint dispatch_from (items : list json) (fireId : string) (total accepted failed : Z) :
    prog cron_call cron_reply string DispatchResult :=
  match items with
  | [] => Ret (mkDispatch total accepted failed)
  | item :: rest =>
      match dispatched item fireId with
      | None => Err "TypeError: Cannot convert undefined or null to object"
      | Some e => Call (Post e) (fun r =>
          match r with
          | Some true => dispatch_from rest fireId total (accepted + 1) failed
          | _ => dispatch_from rest fireId total accepted (failed + 1)
          end)
      end
  end.

Definition dispatchAll (items : list json) (fireId : string) : prog cron_call cron_reply string DispatchResult :=
  dispatch_from items fireId (Z.of_nat (length items)) 0 0.

Definition exitCodeFor (r : DispatchResult) : Z := if 0 <? d_failed r then 1 else 0.

(** What [buildPost]'s function makes of the service's reply. *)
Definition buildPost (r : fetch_result) : option bool :=
  match r with
  | FetchFailed _ => None
  | Fetched status body =>
      if negb (status =? 202) then Some false
      else match default (JObj []) body with
           | JNull => None
           | b => Some (bool_decide (as_string (field "status" b) = Some "accepted"))
           end
  end.

(** Accepted replies along a run. *)
Definition was_accepted (e : event (C := cron_call) (R := cron_reply)) : bool := match projT2 e with Some true => true | _ => false end.

Lemma dispatch_from_runs items fireId total a f tr o :
  JNull ∉ items → runs (dispatch_from items fireId total a f) tr o →
  (fun e => match projT1 e with Post env => Some env end) <$> tr = (fun item => dispatched item fireId) <$> items
  ∧ let n := Z.of_nat (length (List.filter was_accepted tr)) in
    o = Ok (mkDispatch total (a + n) (f + (Z.of_nat (length items) - n))).
Proof.
  revert a f tr. induction items as [|item items IH]; intros a f tr Hn; cbn [dispatch_from].
  - intros [-> ->]%runs_inv. cbn. split; [done|]. f_equal. f_equal; lia.
  - assert (∃ e, dispatched item fireId = Some e) as [e He].
    { destruct item; try (by eexists). set_solver. }
    rewrite He. intros (r & tr' & -> & Hr)%runs_inv. rewrite !fmap_cons. cbn [projT1]. rewrite He.
    destruct r as [[]|]; apply IH in Hr as [<- ->]; try set_solver; (split; [done|]); cbn; do 2 f_equal; lia.
Qed.

(** Every item that is an object is attempted, in order, marked asynchronous, whatever became of
    the others, and the process exits 0 only when the service took them all. *)
Lemma dispatch_complete items fireId tr o :
  JNull ∉ items → runs (dispatchAll items fireId) tr o →
  (fun e => match projT1 e with Post env => Some env end) <$> tr = (fun item => dispatched item fireId) <$> items
  ∧ ∃ res, o = Ok res ∧ d_total res = d_accepted res + d_failed res ∧ (exitCodeFor res = 0 ↔ Forall was_accepted tr).
Proof.
  intros Hn Hr. apply dispatch_from_runs in Hr as [Hposts ->]; [|done]. split; [done|]. eexists. split; [done|].
  assert (Hlen : length tr = length items) by (apply (f_equal length) in Hposts; by rewrite !length_fmap in Hposts).
  split; [cbn [d_total d_accepted d_failed]; lia|]. unfold exitCodeFor. cbn [d_failed]. rewrite <-Hlen.
  assert (Hf : (length (List.filter was_accepted tr) ≤ length tr)%nat ∧ (length (List.filter was_accepted tr) = length tr ↔ Forall was_accepted tr)).
  { clear. induction tr as [|e tr [IH1 IH2]]; cbn; [by split; [lia|split; [constructor|]]|].
    destruct (was_accepted e) eqn:Ee; cbn; (split; [lia|]); rewrite Forall_cons; split.
    - intros ?. split; [by rewrite Ee|]. apply IH2. lia.
    - intros [_ ?]. f_equal. by apply IH2.
    - lia.
    - rewrite Ee. by intros []. }
  destruct Hf as [Hle Hall]. rewrite <-Hall. match goal with |- context [0 <? ?x] => destruct (Z.ltb_spec 0 x) end; lia.
Qed.

(** An item that is [null] stops the dispatch: the items after it are not attempted. *)
Lemma null_item_stops fireId items : dispatchAll (JNull :: items) fireId = Err "TypeError: Cannot convert undefined or null to object".
Proof. done. Qed.

(** ** Witnesses *)

Section Examples.
Local Existing Instance toy_ed25519.

Definition ex_boot_env : list (string * string) :=
  ("MOCA_TENANCY", "multi") :: ("ANTHROPIC_AUTH_TOKEN", "ambient") :: ("HF_TOKEN", "ambient") :: ex_env.

Definition ex_booted : list (string * string) :=
  [("MOCA_TENANCY", "multi")] ++ ex_env ++ [("ANTHROPIC_API_KEY", AMBIENT_KEY_SENTINEL); ("PI_CODING_AGENT_DIR", "/tmp/sh-agent-1")].

Definition ex_boot_turn := handleTurn ex_booted "/" (Ok None) "" toy_headers.

Lemma multi_tenant_boot_witness :
  prepareServerProcess (fun _ => Absent) None "/tmp/sh-agent-1" ex_boot_env = Ok (multi, "/tmp/sh-agent-1", ex_booted)
  ∧ ∃ config, in_config (turn_input ex_booted "/" (jint 1) None (Some toy_turn_auth) false) = Some config
      ∧ tenant_config ex_booted (Ok None) toy_headers (take 4 (ptrace (ex_reply ex_turn_body) ex_boot_turn 1000000).1) config.
Proof.
  assert (Hp : prepareServerProcess (fun _ => Absent) None "/tmp/sh-agent-1" ex_boot_env = Ok (multi, "/tmp/sh-agent-1", ex_booted))
    by (vm_compute; reflexivity).
  split; [exact Hp|]. destruct (multi_tenant_boot _ _ _ _ _ _ Hp) as (_ & _ & Hserve).
  pose proof (ptrace_runs (ex_reply ex_turn_body) ex_boot_turn 1000000) as Hr.
  set (tr := (ptrace (ex_reply ex_turn_body) ex_boot_turn 1000000).1) in *.
  assert (Hc : projT1 <$> tr !! 4%nat = Some (ExecuteTurn (turn_input ex_booted "/" (jint 1) None (Some toy_turn_auth) false)))
    by (vm_compute; reflexivity).
  destruct (tr !! 4%nat) as [x|] eqn:He; [|discriminate Hc].
  assert (Hk : projT1 x = ExecuteTurn (turn_input ex_booted "/" (jint 1) None (Some toy_turn_auth) false)) by exact (inj Some _ _ Hc).
  destruct (Hserve "/" (Ok None) "" 0%nat toy_headers _ _ _ _ _ (event_at ex_boot_turn ex_turn_body 1000000 4 x He)) as [Hturn _].
  exact (Hturn _ _ Hr (or_introl Hk)).
Defined.
End Examples.
