(* ===== verification/StableSort.v ===== *)
(** * Stable sorting

    [Array.prototype.sort] on a comparator that orders its values: a stable sort, here by
    insertion, of values by a boolean order; and the order of [Buffer.compare] on bytes. *)

From S2P Require Import Prelude.

Section Sort.
Context {A : Type} (le : A → A → bool).

Fixpoint insert_sorted (x : A) (l : list A) : list A :=
  match l with
  | [] => [x]
  | y :: l' => if le x y then x :: l else y :: insert_sorted x l'
  end.

Definition sort (l : list A) : list A := foldr insert_sorted [] l.

Class TotalPreorder := {
  le_trans x y z : le x y = true → le y z = true → le x z = true;
  le_total x y : le x y = false → le y x = true;
}.
Context `{!TotalPreorder}.

Abbreviation sorted := (StronglySorted (fun x y => le x y = true)).

Lemma insert_perm x l : insert_sorted x l ≡ₚ x :: l.
Proof. induction l as [|y l IH]; simpl; [done|]. destruct (le x y); [done|]. rewrite IH. constructor. Qed.

Lemma sort_perm l : sort l ≡ₚ l.
Proof. induction l as [|x l IH]; simpl; [done|]. by rewrite insert_perm, IH. Qed.

Lemma insert_is_sorted x l : sorted l → sorted (insert_sorted x l).
Proof.
  induction 1 as [|y l Hl IH Hy]; simpl; [by repeat constructor|]. destruct (le x y) eqn:E.
  - constructor; [by constructor|]. constructor; [done|]. eapply Forall_impl; [exact Hy|]. intros z. by apply le_trans.
  - constructor; [done|]. rewrite insert_perm. constructor; [by apply le_total|done].
Qed.

Lemma sort_sorted l : sorted (sort l).
Proof. induction l as [|x l IH]; simpl; [constructor|]. by apply insert_is_sorted. Qed.

Lemma insert_first x l : Forall (fun y => le x y = true) l → insert_sorted x l = x :: l.
Proof. destruct 1 as [|y l Hy]; simpl; [done|]. by rewrite Hy. Qed.

Lemma sort_sorted_id l : sorted l → sort l = l.
Proof. induction 1 as [|x l Hl IH Hx]; simpl; [done|]. by rewrite IH, insert_first. Qed.

Lemma sort_idemp l : sort (sort l) = sort l.
Proof. apply sort_sorted_id, sort_sorted. Qed.

Lemma insert_filter (f : A → bool) x l :
  sorted l → List.filter f (insert_sorted x l) = if f x then insert_sorted x (List.filter f l) else List.filter f l.
Proof.
  induction 1 as [|y l Hl IH Hy]; simpl; [done|]. destruct (le x y) eqn:E; simpl.
  - destruct (f x) eqn:Ex; [|done]. destruct (f y); simpl; [by rewrite E|].
    symmetry. apply insert_first, Forall_forall. intros z Hz%list_elem_of_In. apply filter_In in Hz as [Hz%list_elem_of_In _].
    rewrite Forall_forall in Hy. apply (le_trans x y z); [done|by apply Hy].
  - rewrite IH. destruct (f x), (f y); simpl; by rewrite ?E.
Qed.

(** Leaving out some values before or after sorting is the same. *)
Lemma sort_filter (f : A → bool) l : sort (List.filter f l) = List.filter f (sort l).
Proof. induction l as [|x l IH]; simpl; [done|]. rewrite insert_filter by apply sort_sorted. destruct (f x); simpl; by rewrite IH. Qed.

(** With no two values of the same rank, the result depends on the values alone. *)
Lemma sort_unique l l' :
  l ≡ₚ l' → (∀ x y, x ∈ l → y ∈ l → le x y = true → le y x = true → x = y) → sort l = sort l'.
Proof.
  intros Hp Hanti. apply (StronglySorted_unique_strong (fun x y => le x y = true)); [|apply sort_sorted..|by rewrite !sort_perm].
  intros x y Hx Hy. rewrite sort_perm in Hx, Hy. rewrite <-Hp in Hy. by apply Hanti.
Qed.
End Sort.

(** A change of the values that keeps their ranks keeps their order. *)
Lemma sort_map {A B} (f : A → B) (leA : A → A → bool) (leB : B → B → bool) l :
  (∀ x y, x ∈ l → y ∈ l → leB (f x) (f y) = leA x y) → sort leB (f <$> l) = f <$> sort leA l.
Proof.
  induction l as [|x l IH]; intros Hle; [done|]. cbn [sort foldr fmap list_fmap]. fold (sort leB (f <$> l)) (sort leA l).
  rewrite IH by (intros; apply Hle; by constructor).
  assert (Hx : ∀ y, y ∈ sort leA l → leB (f x) (f y) = leA x y).
  { intros y Hy. rewrite sort_perm in Hy. apply Hle; by constructor. }
  clear -Hx. induction (sort leA l) as [|y s IH]; simpl; [done|]. rewrite Hx by constructor. destruct (leA x y); [done|].
  simpl. f_equal. apply IH. intros z Hz. apply Hx. by constructor.
Qed.

(** ** [Buffer.compare] *)

Fixpoint bytes_le (a b : bytes) : bool :=
  match a, b with
  | [], _ => true
  | _ :: _, [] => false
  | x :: a', y :: b' =>
      if (nat_of_ascii x <? nat_of_ascii y)%nat then true
      else if (nat_of_ascii x =? nat_of_ascii y)%nat then bytes_le a' b' else false
  end.

Lemma bytes_le_refl a : bytes_le a a = true.
Proof. induction a as [|x a IH]; simpl; [done|]. by rewrite Nat.ltb_irrefl, Nat.eqb_refl. Qed.

Lemma bytes_le_trans a b c : bytes_le a b = true → bytes_le b c = true → bytes_le a c = true.
Proof.
  revert b c. induction a as [|x a IH]; intros [|y b] [|z c]; simpl; try done.
  destruct (Nat.ltb_spec (nat_of_ascii x) (nat_of_ascii y)), (Nat.eqb_spec (nat_of_ascii x) (nat_of_ascii y)),
    (Nat.ltb_spec (nat_of_ascii y) (nat_of_ascii z)), (Nat.eqb_spec (nat_of_ascii y) (nat_of_ascii z)),
    (Nat.ltb_spec (nat_of_ascii x) (nat_of_ascii z)), (Nat.eqb_spec (nat_of_ascii x) (nat_of_ascii z)); try done; try lia.
  apply IH.
Qed.

Lemma bytes_le_total a b : bytes_le a b = false → bytes_le b a = true.
Proof.
  revert b. induction a as [|x a IH]; intros [|y b]; simpl; try done.
  destruct (Nat.ltb_spec (nat_of_ascii x) (nat_of_ascii y)), (Nat.eqb_spec (nat_of_ascii x) (nat_of_ascii y)),
    (Nat.ltb_spec (nat_of_ascii y) (nat_of_ascii x)), (Nat.eqb_spec (nat_of_ascii y) (nat_of_ascii x)); try done; try lia.
  apply IH.
Qed.

Lemma bytes_le_antisym a b : bytes_le a b = true → bytes_le b a = true → a = b.
Proof.
  revert b. induction a as [|x a IH]; intros [|y b]; simpl; try done.
  destruct (Nat.ltb_spec (nat_of_ascii x) (nat_of_ascii y)), (Nat.eqb_spec (nat_of_ascii x) (nat_of_ascii y)) as [E|],
    (Nat.ltb_spec (nat_of_ascii y) (nat_of_ascii x)), (Nat.eqb_spec (nat_of_ascii y) (nat_of_ascii x)); try done; try lia.
  intros H1 H2. f_equal; [|by apply IH]. rewrite <-(ascii_nat_embedding x), <-(ascii_nat_embedding y). by rewrite E.
Qed.

(** Ordering values by the bytes of a key. *)
#[export] Instance by_key {A} (key : A → bytes) : TotalPreorder (fun x y => bytes_le (key x) (key y)).
Proof. split; intros *; [apply bytes_le_trans|apply bytes_le_total]. Qed.
