(* ===== verification/Tar.v ===== *)
(** * Bundle archives

    Models [packages/config-bundle/src/tar.ts] (the canonical USTAR archive, its reader, digests),
    [contentDigest] of [build.ts], [skillContentHash] of [lockfile.ts] and
    [harness/src/config-store.ts] (bundles in Redis under their digest).  A string is the list of
    its UTF-8 bytes; [Buffer]'s [write], [subarray] and [toString] are as Node documents them.
    SHA-256 and gzip are parameters. *)

From S2P Require Import Prelude Base64 JsNumber Prog CpRoutes StableSort.

Local Open Scope Z_scope.

(** ** Buffers *)

Definition NUL : ascii := Ascii.zero.
Definition zeros (n : nat) : bytes := replicate n NUL.

(** [b.write(s, off, len)] *)
Definition write (b s : bytes) (off len : nat) : bytes :=
  let s := take (length b - off) (take len s) in take off b ++ s ++ drop (off + length s) b.

(** An index of [subarray]: from the end when negative. *)
Definition clamp (len i : Z) : Z := if i <? 0 then Z.max 0 (len + i) else Z.min i len.

(** [b.subarray(s, e)] *)
Definition subarray (b : bytes) (s e : Z) : bytes :=
  let len := Z.of_nat (length b) in
  take (Z.to_nat (clamp len e - clamp len s)) (drop (Z.to_nat (clamp len s)) b).

(** [b.indexOf(0)], [None] for -1. *)
Fixpoint index_nul (b : bytes) : option nat :=
  match b with
  | [] => None
  | c :: b' => if bool_decide (c = NUL) then Some O else S <$> index_nul b'
  end.

(** [b.toString('utf8')]: every ill-formed sequence becomes U+FFFD, as many bytes at a time as
    are the start of a character. *)
Definition FFFD : bytes := ascii_of_nat <$> [239; 191; 189]%nat.

Fixpoint to_utf8 (b : bytes) : bytes :=
  match b with
  | [] => []
  | c :: b1 =>
      let n := nat_of_ascii c in
      if (n <? 128)%nat then c :: to_utf8 b1
      else match b1 with
           | [] => FFFD
           | c1 :: b2 =>
               let n1 := nat_of_ascii c1 in
               if lead2 n && cont n1 then c :: c1 :: to_utf8 b2
               else if lead3 n n1 || lead4 n n1 then
                 match b2 with
                 | [] => FFFD
                 | c2 :: b3 =>
                     if negb (cont (nat_of_ascii c2)) then FFFD ++ to_utf8 b2
                     else if lead3 n n1 then c :: c1 :: c2 :: to_utf8 b3
                     else match b3 with
                          | [] => FFFD
                          | c3 :: b4 => if cont (nat_of_ascii c3) then c :: c1 :: c2 :: c3 :: to_utf8 b4 else FFFD ++ to_utf8 b3
                          end
                 end
               else FFFD ++ to_utf8 b1
           end
  end.

(** ** Writing an archive *)

Definition BLOCK : nat := 512.
Definition MAX_USTAR_PATH : Z := 255.

Record TarEntry := mkEntry { path : bytes; content : bytes; mode : option Z }.

(** [n.toString(8)] of a non-negative integer. *)
Fixpoint octal_fuel (fuel : nat) (n : Z) : bytes :=
  match fuel with
  | O => []
  | S f => if n <? 8 then [digit_char n] else octal_fuel f (n / 8) ++ [digit_char (n mod 8)]
  end.
Definition octal (n : Z) : bytes := octal_fuel (S (Z.to_nat (Z.log2 n))) n.

(** [s.padStart(len, '0')] *)
Definition padStart (s : bytes) (len : nat) : bytes := replicate (len - length s) "0"%char ++ s.

Definition writeOctal (b : bytes) (n : Z) (off len : nat) : bytes :=
  write b (padStart (octal n) (len - 1) ++ [NUL]) off len.

(** The split points, [pre] what is before them. *)
Fixpoint ustar_split (pre p : bytes) : option (bytes * bytes) :=
  match p with
  | [] => None
  | c :: p' =>
      if bool_decide (c = "/"%char) && (length pre <=? 155)%nat && (length p' <=? 100)%nat then Some (p', pre)
      else ustar_split (pre ++ [c]) p'
  end.

(** [(name, prefix)] *)
Definition splitUstarPath (p : bytes) : result string (bytes * bytes) :=
  if (length p <=? 100)%nat then Ok (p, [])
  else match ustar_split [] p with
       | Some np => Ok np
       | None => Throw ("path too long for USTAR (max 255 with a '/' split point): " +:+ string_of p)
       end.

Definition byte_sum (b : bytes) : Z := foldr (fun c s => Z.of_nat (nat_of_ascii c) + s) 0 b.

Definition header (p : bytes) (size mode : Z) : result string bytes :=
  try np <- splitUstarPath p;
  let h := zeros BLOCK in
  let h := write h np.1 0 100 in
  let h := writeOctal h (Z.land mode 4095) 100 8 in
  let h := writeOctal h 0 108 8 in
  let h := writeOctal h 0 116 8 in
  let h := writeOctal h size 124 12 in
  let h := writeOctal h 0 136 12 in
  let h := write h (bytes_of "        ") 148 8 in
  let h := write h (bytes_of "0") 156 1 in
  let h := write h (bytes_of "ustar" ++ [NUL]) 257 6 in
  let h := write h (bytes_of "00") 263 2 in
  let h := write h np.2 345 155 in
  Ok (write h (padStart (octal (byte_sum h)) 6 ++ [NUL] ++ bytes_of " ") 148 8).

Definition path_le (a b : TarEntry) : bool := bytes_le (path a) (path b).

Definition pad (n : nat) : nat := ((BLOCK - n mod BLOCK) mod BLOCK)%nat.

Fixpoint tar_parts (es : list TarEntry) : result string bytes :=
  match es with
  | [] => Ok []
  | e :: es =>
      try h <- header (path e) (Z.of_nat (length (content e))) (default 420 (mode e));
      try rest <- tar_parts es;
      Ok (h ++ content e ++ zeros (pad (length (content e))) ++ rest)
  end.

Definition canonicalTar (entries : list TarEntry) : result string bytes :=
  try parts <- tar_parts (sort path_le entries);
  Ok (parts ++ zeros (BLOCK * 2)).

(** ** Reading it back *)

(** The longest prefix of octal digits. *)
Fixpoint octal_digits (s : bytes) : list Z :=
  match s with
  | c :: s' => match digit_val 8 c with Some v => v :: octal_digits s' | None => [] end
  | [] => []
  end.

Definition octal_value (s : bytes) : option Z :=
  match octal_digits s with [] => None | ds => Some (foldl (fun a v => a * 8 + v) 0 ds) end.

(** [trim], whose characters beyond ASCII take two or three bytes, at the start of a string; what
    [parseInt] reads does not depend on the spaces that end one. *)
Definition ws3 (a b c : nat) : bool :=
  ((a =? 225) && (b =? 154) && (c =? 128)
   || (a =? 226) && (b =? 128) && ((128 <=? c) && (c <=? 138) || (c =? 168) || (c =? 169) || (c =? 175))
   || (a =? 226) && (b =? 129) && (c =? 159)
   || (a =? 227) && (b =? 128) && (c =? 128)
   || (a =? 239) && (b =? 187) && (c =? 191))%nat.

Fixpoint trim_utf8 (s : bytes) : bytes :=
  match s with
  | [] => []
  | c :: s1 =>
      let n := nat_of_ascii c in
      if ((9 <=? n) && (n <=? 13) || (n =? 32))%nat then trim_utf8 s1
      else match s1 with
           | [] => s
           | c1 :: s2 =>
               if ((n =? 194) && (nat_of_ascii c1 =? 160))%nat then trim_utf8 s2
               else match s2 with
                    | [] => s
                    | c2 :: s3 => if ws3 n (nat_of_ascii c1) (nat_of_ascii c2) then trim_utf8 s3 else s
                    end
           end
  end.

(** [parseInt(s, 8)], [None] for NaN. *)
Definition parseInt8 (s : bytes) : option Z :=
  match trim_utf8 s with
  | c :: s' => if bool_decide (c = "-"%char) then Z.opp <$> octal_value s'
               else if bool_decide (c = "+"%char) then octal_value s' else octal_value (c :: s')
  | [] => None
  end.

Definition cstr (h : bytes) (s n : Z) : bytes :=
  let raw := subarray h s (s + n) in
  to_utf8 (subarray raw 0 (match index_nul raw with None => n | Some z => Z.of_nat z end)).

(** [parseInt(cstr(s, n).trim() || '0', 8)] *)
Definition octal_at (h : bytes) (s n : Z) : option Z :=
  parseInt8 (match trim_utf8 (cstr h s n) with [] => bytes_of "0" | t => t end).

(** [h.subarray(156, 157).toString('ascii')] is ['0'] or NUL; that encoding ignores the top bit. *)
Definition regular (h : bytes) : bool :=
  match subarray h 156 157 with
  | c :: _ => let n := (nat_of_ascii c mod 128)%nat in ((n =? 48) || (n =? 0))%nat
  | [] => false
  end.

(** [off + Math.ceil(size / BLOCK) * BLOCK] *)
Definition after (off size : Z) : Z := off + (size + 511) / 512 * 512.

Definition is_zero (b : bytes) : bool := forallb (fun c => bool_decide (c = NUL)) b.

(** At most [fuel] turns of the loop: [None] when it has not ended by then.  An offset of NaN
    ends it. *)
Fixpoint untar_from (fuel : nat) (tar : bytes) (off : Z) : option (list TarEntry) :=
  if off + 512 <=? Z.of_nat (length tar) then
    let h := subarray tar off (off + 512) in
    if is_zero h then Some []
    else
      match fuel with
      | O => None
      | S fuel =>
          let name := cstr h 0 100 in
          let prefix := cstr h 345 155 in
          let mode := octal_at h 100 8 in
          let size := octal_at h 124 12 in
          let off := off + 512 in
          let e := mkEntry (if bool_decide (prefix = []) then name else prefix ++ "/"%char :: name)
                     (match size with Some n => subarray tar off (off + n) | None => subarray tar off 0 end) mode in
          let rest := match size with Some n => untar_from fuel tar (after off n) | None => Some [] end in
          (if regular h then cons e else id) <$> rest
      end
  else Some [].

(** A turn moves forward by a block or more unless a size is negative, so this is enough for
    every archive without one. *)
Definition untar (tar : bytes) : option (list TarEntry) := untar_from (length tar) tar 0.

(** ** Slices *)

Definition slice (b : bytes) (s n : nat) : bytes := take n (drop s b).

Lemma subarray_slice b (s n : nat) : (s + n ≤ length b)%nat → subarray b (Z.of_nat s) (Z.of_nat s + Z.of_nat n) = slice b s n.
Proof.
  intros Hl. unfold subarray, clamp, slice. destruct (Z.ltb_spec (Z.of_nat s) 0), (Z.ltb_spec (Z.of_nat s + Z.of_nat n) 0); try lia.
  do 2 f_equal; lia.
Qed.

Lemma subarray_prefix b (n : nat) : (n ≤ length b)%nat → subarray b 0 (Z.of_nat n) = take n b.
Proof. intros Hn. pose proof (subarray_slice b 0 n Hn) as H. rewrite Z.add_0_l in H. exact H. Qed.

Lemma length_write b s off len : length (write b s off len) = length b.
Proof. unfold write. rewrite !length_app, length_drop, !length_take. lia. Qed.

Lemma slice_write_other b t off len s n :
  (off ≤ length b)%nat → (s + n ≤ off ∨ off + len ≤ s)%nat → slice (write b t off len) s n = slice b s n.
Proof.
  intros Ho Hd. unfold slice. apply list_eq. intros i. destruct (decide (i < n)%nat); [|rewrite !lookup_take_ge by lia; done].
  rewrite !lookup_take_lt, !lookup_drop by lia. unfold write. set (u := take _ (take len t)).
  assert (length u ≤ len)%nat by (unfold u; rewrite !length_take; lia). destruct Hd.
  - rewrite lookup_app_l by (rewrite length_take; lia). rewrite lookup_take_lt by lia. done.
  - rewrite lookup_app_r by (rewrite length_take; lia). rewrite lookup_app_r by (rewrite length_take; lia).
    rewrite lookup_drop, length_take. f_equal. lia.
Qed.

Lemma slice_write_same b t off len :
  (off + len ≤ length b)%nat → (length t ≤ len)%nat →
  slice (write b t off len) off len = t ++ slice b (off + length t) (len - length t).
Proof.
  intros Ho Ht. unfold slice, write. rewrite (take_ge t len), (take_ge t (length b - off)) by lia.
  rewrite drop_app_length' by (rewrite length_take; lia). by rewrite take_app, (take_ge t len) by lia.
Qed.

Lemma slice_zeros n s k : (s + k ≤ n)%nat → slice (zeros n) s k = zeros k.
Proof. intros. unfold slice, zeros. rewrite drop_replicate, take_replicate. f_equal. lia. Qed.

Lemma slice_app_l a b s n : (s + n ≤ length a)%nat → slice (a ++ b) s n = slice a s n.
Proof. intros. unfold slice. rewrite drop_app_le by lia. rewrite take_app_le; [done|]. rewrite length_drop. lia. Qed.

Lemma slice_app_r a b n : slice (a ++ b) (length a) n = take n b.
Proof. unfold slice. by rewrite drop_app_length. Qed.

Lemma index_nul_zeros s k : NUL ∉ s → index_nul (s ++ zeros k) = if decide (k = 0%nat) then None else Some (length s).
Proof.
  induction s as [|c s IH]; intros Hs.
  - by destruct k.
  - simpl. rewrite bool_decide_eq_false_2 by set_solver. rewrite IH by set_solver. by case_decide.
Qed.

Lemma cstr_field h (s n : nat) t :
  slice h s n = t ++ zeros (n - length t) → (s + n ≤ length h)%nat → (length t ≤ n)%nat → NUL ∉ t →
  cstr h (Z.of_nat s) (Z.of_nat n) = to_utf8 t.
Proof.
  intros Hs Hl Ht Hn. unfold cstr. rewrite subarray_slice, Hs, index_nul_zeros by done. f_equal.
  assert (Hlen : length (t ++ zeros (n - length t)) = n) by (rewrite length_app; unfold zeros; rewrite length_replicate; lia).
  case_decide as E.
  - rewrite subarray_prefix by lia. apply take_app_length'. lia.
  - rewrite subarray_prefix by lia. apply take_app_length.
Qed.

(** ** Octal fields *)

Definition octal_char (c : ascii) : Prop := (48 ≤ nat_of_ascii c ≤ 55)%nat.

Lemma octal_char_digit v : 0 ≤ v < 8 → octal_char (digit_char v) ∧ digit_val 8 (digit_char v) = Some v.
Proof.
  intros Hv. assert (v = 0 ∨ v = 1 ∨ v = 2 ∨ v = 3 ∨ v = 4 ∨ v = 5 ∨ v = 6 ∨ v = 7) as H by lia.
  unfold octal_char. destruct H as [->|[->|[->|[->|[->|[->|[-> | ->]]]]]]]; vm_compute; (split; [lia|done]).
Qed.

Lemma octal_fuel_chars f n : 0 ≤ n → Forall octal_char (octal_fuel f n).
Proof.
  revert n. induction f as [|f IH]; intros n Hn; [constructor|]. cbn [octal_fuel]. destruct (Z.ltb_spec n 8).
  - apply Forall_singleton, octal_char_digit. lia.
  - apply Forall_app. split; [apply IH, Z.div_pos; lia|]. apply Forall_singleton, octal_char_digit, Z.mod_pos_bound. lia.
Qed.

Lemma octal_fuel_value f n : 0 ≤ n < 8 ^ Z.of_nat f → digits_value 8 0 (octal_fuel f n) = Some n.
Proof.
  revert n. induction f as [|f IH]; intros n Hn; [assert (n = 0) as -> by (simpl in Hn; lia); done|].
  cbn [octal_fuel]. destruct (Z.ltb_spec n 8).
  - cbn [digits_value]. by rewrite (proj2 (octal_char_digit n ltac:(lia))).
  - rewrite Nat2Z.inj_succ, Z.pow_succ_r in Hn by lia.
    rewrite digits_value_app, IH by (split; [apply Z.div_pos; lia|apply Z.div_lt_upper_bound; lia]).
    simpl. rewrite (proj2 (octal_char_digit (n mod 8) ltac:(apply Z.mod_pos_bound; lia))). f_equal. pose proof (Z.div_mod n 8). lia.
Qed.

Lemma octal_fuel_length f n k : 0 ≤ n < 8 ^ Z.of_nat k → (0 < k)%nat → (length (octal_fuel f n) ≤ k)%nat.
Proof.
  revert n k. induction f as [|f IH]; intros n k Hn Hk; [simpl; lia|]. cbn [octal_fuel]. destruct (Z.ltb_spec n 8); [done|].
  destruct k as [|[|k]]; [lia|change (8 ^ Z.of_nat 1) with 8 in Hn; lia|]. rewrite length_app. simpl.
  rewrite Nat2Z.inj_succ, Z.pow_succ_r in Hn by lia.
  pose proof (IH (n / 8) (S k) ltac:(split; [apply Z.div_pos; lia|apply Z.div_lt_upper_bound; lia]) ltac:(lia)). lia.
Qed.

Lemma octal_value_of n : 0 ≤ n → digits_value 8 0 (octal n) = Some n.
Proof.
  intros Hn. apply octal_fuel_value. split; [done|]. rewrite Nat2Z.inj_succ, Z2Nat.id by apply Z.log2_nonneg.
  destruct (decide (n = 0)) as [->|]; [done|]. pose proof (Z.log2_spec n ltac:(lia)) as [_ Hl].
  eapply Z.lt_le_trans; [exact Hl|]. apply Z.pow_le_mono_l. lia.
Qed.

Lemma octal_nonempty n : octal n ≠ [].
Proof. unfold octal. cbn [octal_fuel]. destruct (n <? 8); [done|]. by intros [_ ?]%app_eq_nil. Qed.

Lemma octal_chars_text s : Forall octal_char s → (NUL ∉ s) ∧ to_utf8 s = s ∧ trim_utf8 s = s.
Proof.
  intros Hs. split_and!.
  - intros Hin. rewrite Forall_forall in Hs. specialize (Hs _ Hin). vm_compute in Hs. lia.
  - induction Hs as [|c s Hc _ IH]; [done|]. cbn [to_utf8]. unfold octal_char in Hc.
    destruct (Nat.ltb_spec (nat_of_ascii c) 128); [|lia]. by rewrite IH.
  - destruct Hs as [|c s Hc Hs]; [done|]. unfold octal_char in Hc. cbn [trim_utf8]. unfold ws3.
    destruct (Nat.leb_spec 9 (nat_of_ascii c)), (Nat.leb_spec (nat_of_ascii c) 13), (Nat.eqb_spec (nat_of_ascii c) 32),
      (Nat.eqb_spec (nat_of_ascii c) 194), (Nat.eqb_spec (nat_of_ascii c) 225), (Nat.eqb_spec (nat_of_ascii c) 226),
      (Nat.eqb_spec (nat_of_ascii c) 227), (Nat.eqb_spec (nat_of_ascii c) 239); try lia.
    by destruct s as [|c1 [|c2 s]].
Qed.

Lemma octal_digits_value acc s v :
  digits_value 8 acc s = Some v → foldl (fun a d => a * 8 + d) acc (octal_digits s) = v.
Proof.
  revert acc. induction s as [|c s IH]; intros acc; cbn [digits_value octal_digits]; [by intros [= ->]|].
  destruct (digit_val 8 c) as [d|]; [|done]. intros Hv. cbn [foldl]. by apply IH.
Qed.

Lemma parse_octal s v : Forall octal_char s → s ≠ [] → digits_value 8 0 s = Some v → parseInt8 s = Some v.
Proof.
  intros Hs Hne Hv. unfold parseInt8. destruct (octal_chars_text s Hs) as (_ & _ & ->). destruct s as [|c s]; [done|].
  assert (Hc : octal_char c) by by inversion Hs. unfold octal_char in Hc.
  rewrite bool_decide_eq_false_2 by (intros ->; vm_compute in Hc; lia).
  rewrite bool_decide_eq_false_2 by (intros ->; vm_compute in Hc; lia).
  pose proof (octal_digits_value _ _ _ Hv) as Hd. unfold octal_value.
  destruct (octal_digits (c :: s)) as [|d ds] eqn:E; [|by rewrite Hd].
  cbn [octal_digits digits_value] in E, Hv. by destruct (digit_val 8 c).
Qed.

Lemma zero_digits k s : digits_value 8 0 (replicate k "0"%char ++ s) = digits_value 8 0 s.
Proof. by induction k as [|k IH]. Qed.

(** What a numeric field holds: digits, then NULs. *)
Definition octal_field (f : bytes) (len : nat) (n : Z) : Prop :=
  ∃ t, f = t ++ zeros (len - length t) ∧ (length t ≤ len)%nat ∧ Forall octal_char t ∧ t ≠ [] ∧ digits_value 8 0 t = Some n.

Lemma slice_writeOctal b n off len :
  0 ≤ n < 8 ^ Z.of_nat len → (0 < len)%nat → (off + len ≤ length b)%nat →
  octal_field (slice (writeOctal b n off len) off len) len n.
Proof.
  intros Hn Hlen Hb. set (t := padStart (octal n) (len - 1)).
  assert (Ht : length t = (len - 1)%nat ∨ length t = len).
  { unfold t, padStart. rewrite length_app, length_replicate. pose proof (octal_fuel_length (S (Z.to_nat (Z.log2 n))) n len Hn Hlen).
    unfold octal. lia. }
  exists t. unfold writeOctal. fold t. split_and!.
  - destruct Ht as [Ht|Ht].
    + rewrite slice_write_same by (rewrite ?length_app; simpl; lia). rewrite length_app. simpl.
      replace (len - (length t + 1))%nat with 0%nat by lia. replace (len - length t)%nat with 1%nat by lia. by rewrite <-app_assoc.
    + replace (write b (t ++ [NUL]) off len) with (write b t off len).
      * rewrite slice_write_same by lia. by rewrite Ht, Nat.sub_diag.
      * unfold write. by rewrite take_app_length', (take_ge t len) by lia.
  - lia.
  - apply Forall_app. split; [|apply octal_fuel_chars; lia]. apply Forall_replicate. vm_compute. lia.
  - unfold t, padStart. intros [_ H]%app_eq_nil. by apply (octal_nonempty n).
  - unfold t, padStart. rewrite zero_digits. apply octal_value_of. lia.
Qed.

Lemma octal_at_field h (s n : nat) v :
  octal_field (slice h s n) n v → (s + n ≤ length h)%nat → octal_at h (Z.of_nat s) (Z.of_nat n) = Some v.
Proof.
  intros (t & Hs & Hl & Hc & Hne & Hv) Hlen. destruct (octal_chars_text t Hc) as (Hn & Hu & Ht). unfold octal_at.
  rewrite (cstr_field h s n t Hs Hlen Hl Hn), Hu, Ht. destruct t; [done|]. by apply parse_octal.
Qed.

(** ** Text *)

Lemma bytes_wf_ind (P : bytes → Prop) : (∀ b, (∀ b', (length b' < length b)%nat → P b') → P b) → ∀ b, P b.
Proof.
  intros Hi b. assert (Hgen : ∀ n b, (length b < n)%nat → P b); [|by apply (Hgen (S (length b))); lia].
  induction n as [|n IH]; intros b' Hb; [lia|]. apply Hi. intros b'' ?. apply IH. lia.
Qed.

Lemma cont_slash n : cont 47 = false ∧ lead3 n 47 = false ∧ lead4 n 47 = false.
Proof. unfold lead3, lead4. change (cont 47) with false. by rewrite !andb_false_r. Qed.

(** A slash never is part of another character. *)
Lemma to_utf8_slash a b : to_utf8 (a ++ "/"%char :: b) = to_utf8 a ++ "/"%char :: to_utf8 b.
Proof.
  induction a as [[|c a1] IH] using bytes_wf_ind; [done|].
  change ((c :: a1) ++ "/"%char :: b) with (c :: (a1 ++ "/"%char :: b)). cbn [to_utf8].
  destruct (nat_of_ascii c <? 128)%nat; [rewrite IH by (simpl; lia); done|].
  change (nat_of_ascii "/") with 47%nat. destruct (cont_slash (nat_of_ascii c)) as (Hc & H3 & H4).
  destruct a1 as [|c1 a2].
  { cbn [app]. change (nat_of_ascii "/") with 47%nat. rewrite Hc, H3, H4, andb_false_r. done. }
  cbn [app]. destruct (lead2 _ && cont _); [rewrite IH by (simpl; lia); done|].
  destruct (lead3 _ _ || lead4 _ _).
  - destruct a2 as [|c2 a3].
    + cbn [app]. change (nat_of_ascii "/") with 47%nat. rewrite Hc. reflexivity.
    + cbn [app]. destruct (negb _).
      * rewrite <-app_assoc. f_equal. apply (IH (c2 :: a3)). simpl. lia.
      * destruct (lead3 (nat_of_ascii c) (nat_of_ascii c1)); [rewrite IH by (simpl; lia); done|]. destruct a3 as [|c3 a4].
        -- cbn [app]. change (nat_of_ascii "/") with 47%nat. rewrite Hc. reflexivity.
        -- cbn [app]. destruct (cont (nat_of_ascii c3)); [rewrite IH by (simpl; lia); done|]. rewrite <-app_assoc. f_equal.
           apply (IH (c3 :: a4)). simpl. lia.
  - rewrite <-app_assoc. f_equal. apply (IH (c1 :: a2)). simpl. lia.
Qed.

Lemma to_utf8_length b : (length b ≤ length (to_utf8 b))%nat.
Proof.
  induction b as [[|c b1] IH] using bytes_wf_ind; [done|]. cbn [to_utf8].
  assert (Hlen : ∀ b', (length b' < length (c :: b1))%nat → (length b' ≤ length (to_utf8 b'))%nat) by exact IH.
  destruct (nat_of_ascii c <? 128)%nat; [specialize (Hlen b1 ltac:(simpl; lia)); simpl; lia|].
  destruct b1 as [|c1 b2]; [simpl; lia|]. pose proof (Hlen (c1 :: b2) ltac:(simpl; lia)).
  pose proof (Hlen b2 ltac:(simpl; lia)). destruct (lead2 _ && cont _); [simpl in *; lia|].
  destruct (lead3 _ _ || lead4 _ _); [|rewrite length_app; simpl in *; lia].
  destruct b2 as [|c2 b3]; [simpl; lia|]. pose proof (Hlen b3 ltac:(simpl; lia)).
  destruct (negb _); [rewrite length_app; simpl in *; lia|]. destruct (lead3 _ _); [simpl in *; lia|].
  destruct b3 as [|c3 b4]; [simpl; lia|]. pose proof (Hlen b4 ltac:(simpl; lia)).
  destruct (cont _); [simpl in *; lia|]. rewrite length_app. simpl in *. lia.
Qed.

Lemma to_utf8_parts a b : to_utf8 (a ++ "/"%char :: b) = a ++ "/"%char :: b → to_utf8 a = a ∧ to_utf8 b = b.
Proof.
  rewrite to_utf8_slash. intros H. pose proof (to_utf8_length a). pose proof (to_utf8_length b).
  pose proof (f_equal length H) as Hl. rewrite !length_app in Hl. simpl in Hl.
  apply app_inj_1 in H as [Ha Hb]; [|lia]. by injection Hb as Hb.
Qed.

(** ** What is written *)

Lemma ustar_split_spec pre p name prefix :
  ustar_split pre p = Some (name, prefix) →
  pre ++ p = prefix ++ "/"%char :: name ∧ (length prefix ≤ 155)%nat ∧ (length name ≤ 100)%nat.
Proof.
  revert pre. induction p as [|c p IH]; intros pre; [done|]. cbn [ustar_split].
  destruct (bool_decide_reflect (c = "/"%char)) as [->|]; cbn [andb].
  - destruct (Nat.leb_spec (length pre) 155), (Nat.leb_spec (length p) 100); cbn [andb]; [by intros [= <- <-]|..];
      intros (Hx & ?)%IH; by rewrite <-app_assoc in Hx.
  - intros (H & ?)%IH. by rewrite <-app_assoc in H.
Qed.

Definition path_ok (p : bytes) : Prop := (NUL ∉ p) ∧ to_utf8 p = p ∧ head p ≠ Some "/"%char.

Lemma split_path_ok p name prefix :
  splitUstarPath p = Ok (name, prefix) → path_ok p →
  (NUL ∉ name) ∧ (NUL ∉ prefix) ∧ to_utf8 name = name ∧ to_utf8 prefix = prefix ∧ (length name ≤ 100)%nat ∧ (length prefix ≤ 155)%nat
  ∧ (if bool_decide (prefix = []) then name else prefix ++ "/"%char :: name) = p.
Proof.
  intros Hsp (Hn & Hu & Hh). unfold splitUstarPath in Hsp. destruct (Nat.leb_spec (length p) 100).
  - injection Hsp as <- <-. split_and!; try done; [set_solver|simpl; lia].
  - destruct (ustar_split [] p) as [np|] eqn:E; [|done]. injection Hsp as ->. apply ustar_split_spec in E as (E & ? & ?).
    simpl in E. subst p. apply to_utf8_parts in Hu as [? ?]. split_and!; try done; [set_solver|set_solver|].
    by destruct prefix.
Qed.

Lemma length_zeros n : length (zeros n) = n.
Proof. apply length_replicate. Qed.

Ltac sized := unfold writeOctal, BLOCK; rewrite ?length_write, ?length_zeros; lia.

Lemma Ok_inj {E A} (a b : A) : @Ok E A a = Ok b → a = b.
Proof. by injection 1. Qed.

(** The fields of a header that are read back. *)
Lemma header_fields p size md h :
  header p size md = Ok h → 0 ≤ size < 8 ^ 12 →
  length h = BLOCK ∧ slice h 156 1 = ["0"%char] ∧ octal_field (slice h 100 8) 8 (Z.land md 4095)
  ∧ octal_field (slice h 124 12) 12 size
  ∧ ∃ name prefix, splitUstarPath p = Ok (name, prefix)
    ∧ ((length name ≤ 100)%nat → slice h 0 100 = name ++ zeros (100 - length name))
    ∧ ((length prefix ≤ 155)%nat → slice h 345 155 = prefix ++ zeros (155 - length prefix)).
Proof.
  unfold header. destruct (splitUstarPath p) as [[name prefix]|] eqn:E; [|done]. cbv zeta. cbn [fst snd].
  intros Hh%Ok_inj Hsize. subst h. match goal with |- context [write ?b ?t 148 8] => set (h := b); set (sum := t) end. clearbody sum.
  assert (Hmode : 0 ≤ Z.land md 4095 < 8 ^ Z.of_nat 8).
  { change 4095 with (Z.ones 12). rewrite Z.land_ones by lia. pose proof (Z.mod_pos_bound md (2 ^ 12)). lia. }
  assert (Hl : length h = 512%nat) by (unfold h; sized).
  split_and!.
  - by rewrite length_write.
  - rewrite slice_write_other by lia. unfold h. do 3 rewrite slice_write_other by sized.
    by rewrite slice_write_same by first [sized|vm_compute; lia].
  - rewrite slice_write_other by lia. unfold h. do 5 rewrite slice_write_other by sized.
    unfold writeOctal at 1. rewrite slice_write_other by sized. unfold writeOctal at 1. rewrite slice_write_other by sized.
    unfold writeOctal at 1. rewrite slice_write_other by sized. unfold writeOctal at 1. rewrite slice_write_other by sized.
    apply slice_writeOctal; [done|lia|sized].
  - rewrite slice_write_other by lia. unfold h. do 5 rewrite slice_write_other by sized.
    unfold writeOctal at 1. rewrite slice_write_other by sized. apply slice_writeOctal; [done|lia|sized].
  - eexists _, _. split; [done|]. split; intros Hn.
    + rewrite slice_write_other by lia. unfold h, writeOctal. cbn [fst snd]. do 10 rewrite slice_write_other by sized.
      rewrite slice_write_same by sized. by rewrite slice_zeros by (unfold BLOCK; lia).
    + rewrite slice_write_other by lia. unfold h. cbn [fst snd]. rewrite slice_write_same by sized. f_equal. unfold writeOctal.
      do 9 rewrite slice_write_other by sized. rewrite slice_write_other by sized. by rewrite slice_zeros by (unfold BLOCK; lia).
Qed.

(** ** The round trip *)

(** An entry as it is read back: the bits of its mode. *)
Definition normal (e : TarEntry) : TarEntry := mkEntry (path e) (content e) (Some (Z.land (default 420 (mode e)) 4095)).

(** What a file system and a [Buffer] give: a relative path without NUL, in UTF-8; a size of at
    most twelve octal digits. *)
Definition entry_ok (e : TarEntry) : Prop := path_ok (path e) ∧ Z.of_nat (length (content e)) < 8 ^ 12.

Lemma after_part (n : nat) off : after off (Z.of_nat n) = off + Z.of_nat (n + pad n).
Proof.
  unfold after, pad, BLOCK. pose proof (Nat.div_mod_eq n 512) as Hd. set (q := (n / 512)%nat) in *. set (r := (n mod 512)%nat) in *.
  assert (Hr : (r < 512)%nat) by (apply Nat.mod_upper_bound; lia). destruct (decide (r = 0%nat)) as [Er|Er].
  - rewrite Er. change ((512 - 0) mod 512)%nat with 0%nat.
    replace (Z.of_nat n + 511) with (511 + Z.of_nat q * 512) by lia. rewrite Z.div_add by lia. change (511 / 512) with 0. lia.
  - rewrite (Nat.mod_small (512 - r)) by lia.
    replace (Z.of_nat n + 511) with (Z.of_nat r - 1 + (Z.of_nat q + 1) * 512) by lia. rewrite Z.div_add by lia.
    rewrite Z.div_small by lia. lia.
Qed.

Lemma is_zero_zeros n : is_zero (zeros n) = true.
Proof. induction n as [|n IH]; simpl; [done|]. exact IH. Qed.

Lemma untar_end pre fuel : untar_from fuel (pre ++ zeros (BLOCK * 2)) (Z.of_nat (length pre)) = Some [].
Proof.
  assert (Hz : is_zero (subarray (pre ++ zeros (BLOCK * 2)) (Z.of_nat (length pre)) (Z.of_nat (length pre) + 512)) = true).
  { change 512 with (Z.of_nat 512). rewrite subarray_slice by (rewrite length_app, length_zeros; unfold BLOCK; lia).
    rewrite slice_app_r. unfold zeros. rewrite take_replicate. apply is_zero_zeros. }
  destruct fuel; cbn [untar_from]; rewrite Hz; by destruct (_ <=? _).
Qed.

Lemma untar_entry pre h e rest fuel :
  header (path e) (Z.of_nat (length (content e))) (default 420 (mode e)) = Ok h → entry_ok e →
  let tar := pre ++ h ++ content e ++ zeros (pad (length (content e))) ++ rest in
  untar_from (S fuel) tar (Z.of_nat (length pre))
  = cons (normal e) <$> untar_from fuel tar (Z.of_nat (length (pre ++ h ++ content e ++ zeros (pad (length (content e)))))).
Proof.
  intros Hh (Hp & Hsize) tar. destruct (header_fields _ _ _ _ Hh ltac:(lia)) as (Hl & Ht & Hm & Hs & name & prefix & Hsp & Hn & Hx).
  destruct (split_path_ok _ _ _ Hsp Hp) as (Nn & Np & Un & Up & Ln & Lp & Hpath). specialize (Hn Ln). specialize (Hx Lp).
  unfold BLOCK in Hl.
  assert (Hsub : subarray tar (Z.of_nat (length pre)) (Z.of_nat (length pre) + 512) = h).
  { change 512 with (Z.of_nat 512). rewrite subarray_slice by (unfold tar; rewrite !length_app; lia). unfold tar.
    rewrite slice_app_r. by rewrite take_app_length'. }
  assert (Hz : is_zero h = false).
  { destruct (is_zero h) eqn:E; [|done]. exfalso. unfold is_zero in E. rewrite forallb_forall in E.
    assert (Hin : "0"%char ∈ h).
    { rewrite <-(take_drop 156 h). apply elem_of_app. right. rewrite <-(take_drop 1 (drop 156 h)). apply elem_of_app. left.
      change (take 1 (drop 156 h)) with (slice h 156 1). rewrite Ht. constructor. }
    apply list_elem_of_In in Hin. specialize (E _ Hin). by apply bool_decide_eq_true in E. }
  assert (Hreg : regular h = true).
  { unfold regular. change 156 with (Z.of_nat 156). change 157 with (Z.of_nat 156 + Z.of_nat 1).
    rewrite subarray_slice by lia. by rewrite Ht. }
  cbn [untar_from]. rewrite Hsub, Hz, Hreg.
  destruct (Z.leb_spec (Z.of_nat (length pre) + 512) (Z.of_nat (length tar))) as [_|Hlt];
    [|unfold tar in Hlt; rewrite !length_app in Hlt; lia].
  pose proof (cstr_field h 0 100 name Hn ltac:(lia) Ln Nn) as Cn. pose proof (cstr_field h 345 155 prefix Hx ltac:(lia) Lp Np) as Cp.
  pose proof (octal_at_field h 100 8 _ Hm ltac:(lia)) as Om. pose proof (octal_at_field h 124 12 _ Hs ltac:(lia)) as Os.
  change (Z.of_nat 0) with 0 in Cn. change (Z.of_nat 100) with 100 in Cn, Om. change (Z.of_nat 345) with 345 in Cp.
  change (Z.of_nat 155) with 155 in Cp. change (Z.of_nat 8) with 8 in Om. change (Z.of_nat 124) with 124 in Os.
  change (Z.of_nat 12) with 12 in Os. rewrite Cn, Cp, Om, Os, Un, Up, Hpath. cbv zeta. rewrite after_part. f_equal.
  - unfold normal. f_equal. f_equal.
    replace (Z.of_nat (length pre) + 512) with (Z.of_nat (length (pre ++ h))) by (rewrite length_app; lia).
    rewrite subarray_slice by (unfold tar; rewrite !length_app; lia). unfold tar. rewrite app_assoc, slice_app_r.
    apply take_app_length.
  - f_equal. rewrite !length_app, length_zeros. lia.
Qed.

Lemma untar_parts es : ∀ parts pre fuel,
  tar_parts es = Ok parts → Forall entry_ok es → (length es ≤ fuel)%nat →
  untar_from fuel (pre ++ parts ++ zeros (BLOCK * 2)) (Z.of_nat (length pre)) = Some (normal <$> es).
Proof.
  induction es as [|e es IH]; intros parts pre fuel; cbn [tar_parts].
  - intros <-%Ok_inj _ _. apply untar_end.
  - destruct (header _ _ _) as [h|] eqn:Hh; [|done]. destruct (tar_parts es) as [rest|]; [|done]. cbn [result_bind]. intros <-%Ok_inj.
    intros [He Hes]%Forall_cons Hf. destruct fuel as [|fuel]; [simpl in Hf; lia|].
    pose proof (untar_entry pre h e (rest ++ zeros (BLOCK * 2)) fuel Hh He) as Hu. cbv zeta in Hu.
    rewrite <-!app_assoc in *. rewrite Hu.
    specialize (IH rest (pre ++ h ++ content e ++ zeros (pad (length (content e)))) fuel eq_refl Hes ltac:(simpl in Hf; lia)).
    rewrite <-!app_assoc in IH. by rewrite IH.
Qed.

Lemma tar_parts_length es parts : tar_parts es = Ok parts → (length es ≤ length parts)%nat.
Proof.
  revert parts. induction es as [|e es IH]; intros parts; cbn [tar_parts]; [simpl; lia|].
  destruct (header _ _ _) as [h|] eqn:Hh; [|done]. destruct (tar_parts es) as [rest|]; [|done]. cbn [result_bind].
  intros <-%Ok_inj. specialize (IH rest eq_refl). rewrite !length_app.
  assert (length h = 512)%nat; [|simpl; lia].
  unfold header in Hh. destruct (splitUstarPath _); [|done]. cbv zeta in Hh. cbn [result_bind] in Hh. apply Ok_inj in Hh. subst h. sized.
Qed.

Lemma untar_canonical es tar : canonicalTar es = Ok tar → Forall entry_ok es → untar tar = Some (normal <$> sort path_le es).
Proof.
  unfold canonicalTar. destruct (tar_parts _) as [parts|] eqn:Hp; [|done]. cbn [result_bind]. intros <-%Ok_inj Hok.
  pose proof (tar_parts_length _ _ Hp). apply (untar_parts _ parts [] _ Hp).
  - by rewrite sort_perm.
  - unfold untar. rewrite length_app. lia.
Qed.

#[export] Instance path_le_order : TotalPreorder path_le := by_key path.

Lemma header_land p n m : header p n (Z.land m 4095) = header p n m.
Proof. unfold header. by rewrite <-Z.land_assoc. Qed.

Lemma tar_parts_normal es : tar_parts (normal <$> es) = tar_parts es.
Proof.
  induction es as [|e es IH]; [done|]. cbn [fmap list_fmap tar_parts]. rewrite IH.
  change (path (normal e)) with (path e). change (content (normal e)) with (content e).
  change (default 420 (mode (normal e))) with (Z.land (default 420 (mode e)) 4095). by rewrite header_land.
Qed.

Lemma sort_normal es : sort path_le (normal <$> es) = normal <$> sort path_le es.
Proof. by apply sort_map. Qed.

Lemma canonicalTar_normal es : canonicalTar (normal <$> es) = canonicalTar es.
Proof. unfold canonicalTar. by rewrite sort_normal, tar_parts_normal. Qed.

Lemma canonicalTar_sort es : canonicalTar (sort path_le es) = canonicalTar es.
Proof. unfold canonicalTar. by rewrite (sort_idemp path_le). Qed.

Lemma canonicalTar_perm es es' : es ≡ₚ es' → NoDup (path <$> es) → canonicalTar es = canonicalTar es'.
Proof.
  intros Hp Hnd. unfold canonicalTar. rewrite (sort_unique path_le es es' Hp); [done|].
  intros x y (i & Hi)%list_elem_of_lookup (j & Hj)%list_elem_of_lookup H1 H2.
  pose proof (bytes_le_antisym _ _ H1 H2) as E.
  assert (i = j) as <-; [|congruence]. eapply NoDup_lookup; [exact Hnd|..]; rewrite list_lookup_fmap; [by rewrite Hi|rewrite Hj; simpl; by rewrite E].
Qed.

(** ** Digests *)

Section Digests.
Context (sha256_hex : bytes → bytes).

Definition digestOf (tar : bytes) : bytes := bytes_of "sha256:" ++ sha256_hex tar.

Definition LOCKFILE_PATH : bytes := bytes_of "lockfile.json".

Definition is_content (e : TarEntry) : bool := negb (bool_decide (path e = LOCKFILE_PATH)).

Definition contentDigest (entries : list TarEntry) : result string bytes :=
  try tar <- canonicalTar (List.filter is_content entries); Ok (digestOf tar).

Definition lower_hex (c : ascii) : bool := let n := nat_of_ascii c in ((48 <=? n) && (n <=? 57) || (97 <=? n) && (n <=? 102))%nat.

(** [DIGEST_RE] *)
Definition valid_digest (d : bytes) : bool :=
  starts_with (bytes_of "sha256:") d && (length d =? 71)%nat && forallb lower_hex (drop 7 d).

Definition assertValidDigest (d : bytes) : result string bytes :=
  if valid_digest d then Ok d else Throw "InvalidDigestError".

Definition digestDirName (d : bytes) : bytes := (fun c => if bool_decide (c = ":"%char) then "-"%char else c) <$> d.

Lemma contentDigest_stored es tar es' :
  canonicalTar es = Ok tar → Forall entry_ok es → untar tar = Some es' → contentDigest es' = contentDigest es.
Proof.
  intros Ht Hok Hu. rewrite (untar_canonical _ _ Ht Hok) in Hu. injection Hu as <-. unfold contentDigest.
  replace (List.filter is_content (normal <$> sort path_le es)) with (normal <$> sort path_le (List.filter is_content es)).
  - by rewrite canonicalTar_normal, canonicalTar_sort.
  - rewrite (sort_filter path_le). clear. induction (sort path_le es) as [|e l IH]; [done|].
    cbn [List.filter fmap list_fmap]. change (is_content (normal e)) with (is_content e).
    destruct (is_content e); [cbn [fmap list_fmap]; by f_equal|exact IH].
Qed.

(** C22. An archive is its content.  Reading a canonical archive gives back its entries, in the
    order of their paths, with the bits of their modes; the archive does not depend on the order
    the entries came in, two lists with the same archive have the same entries, and what is read
    back has the digest of what was written, the lockfile apart. *)
Theorem archive_identity es es' tar :
  canonicalTar es = Ok tar → Forall entry_ok es →
  untar tar = Some (normal <$> sort path_le es)
  ∧ (es ≡ₚ es' → NoDup (path <$> es) → canonicalTar es' = Ok tar)
  ∧ (canonicalTar es' = Ok tar → Forall entry_ok es' → normal <$> es ≡ₚ normal <$> es')
  ∧ (∀ read lock, untar tar = Some read → path lock = LOCKFILE_PATH →
       contentDigest read = contentDigest es ∧ contentDigest (lock :: es) = contentDigest es).
Proof.
  intros Ht Hok. pose proof (untar_canonical _ _ Ht Hok) as Hu. split_and!; [done|..].
  - intros Hp Hnd. by rewrite <-(canonicalTar_perm _ _ Hp Hnd).
  - intros Ht' Hok'. rewrite (untar_canonical _ _ Ht' Hok') in Hu. injection Hu as Hu.
    rewrite <-(sort_perm path_le es), <-(sort_perm path_le es'). by rewrite Hu.
  - intros read lock Hread Hlock. split; [by eapply contentDigest_stored|]. unfold contentDigest. cbn [List.filter].
    unfold is_content at 1. by rewrite bool_decide_eq_true_2.
Qed.

(** The name of a bundle's directory: one per digest, and a single plain name. *)
Lemma digest_dir_names d d' :
  assertValidDigest d = Ok d → assertValidDigest d' = Ok d' →
  ("/"%char ∉ digestDirName d) ∧ (digestDirName d ∉ [[]; bytes_of "."; bytes_of ".."]) ∧ (digestDirName d = digestDirName d' → d = d').
Proof.
  assert (Hform : ∀ d, assertValidDigest d = Ok d → ∃ x, d = bytes_of "sha256:" ++ x ∧ forallb lower_hex x = true
            ∧ digestDirName d = bytes_of "sha256-" ++ x).
  { intros x. unfold assertValidDigest, valid_digest. destruct (starts_with _ x) eqn:Ep; [|done]. destruct (_ =? _)%nat; [|done].
    destruct (forallb lower_hex (drop 7 x)) eqn:Eh; [|done]. intros _. apply starts_with_spec in Ep as [y ->]. exists y.
    change (drop 7 (bytes_of "sha256:" ++ y)) with y in Eh. split_and!; try done. unfold digestDirName.
    rewrite fmap_app. change ((fun c : ascii => if bool_decide (c = ":"%char) then "-"%char else c) <$> bytes_of "sha256:") with (bytes_of "sha256-"). f_equal.
    clear -Eh. induction y as [|c y IH]; [done|]. cbn [forallb] in Eh. apply andb_prop in Eh as [Hc Hy]. cbn [fmap list_fmap].
    rewrite IH by done. f_equal. case_bool_decide; [|done]. by subst c. }
  intros (x & -> & Hx & ->)%Hform (x' & -> & _ & ->)%Hform. split_and!.
  - rewrite elem_of_app. intros [H|H]; [set_solver|]. rewrite forallb_forall in Hx. apply list_elem_of_In in H.
    specialize (Hx _ H). done.
  - intros H. set_solver.
  - intros H. by apply app_inv_head in H as ->.
Qed.

(** ** Bundles in Redis *)

Definition DEFAULT_BUNDLE_TTL_SECONDS : Z := 60 * 60 * 24 * 30.

Definition bundleKey (digest : bytes) : bytes := bytes_of "config:bundle:" ++ digest.

(** [Hangs]: reading the archive does not come back. *)
Inductive bundle_error :=
| BundleNotFound (digest : bytes)
| BundleDigestMismatch (expected actual : bytes)
| RedisError (text : string)
| Hangs.

Inductive redis_call :=
| RExists (key : bytes)
| RExpire (key : bytes) (seconds : Z)
| RSet (key value : bytes) (ex : Z)
| RGet (key : bytes).

Definition redis_reply (c : redis_call) : Type :=
  match c with
  | RExists _ => result string Z
  | RExpire _ _ | RSet _ _ _ => result string unit
  | RGet _ => result string (option bytes)
  end.

Definition bundle_prog : Type → Type := prog redis_call redis_reply bundle_error.

Definition redis {A} (r : result string A) : bundle_prog A := match r with Ok a => Ret a | Throw t => Err (RedisError t) end.

(** gzip, and [Buffer.from(text, 'base64')]. *)
Context (gzipSync : bytes → bytes) (gunzipSync : bytes → option bytes) (fromBase64 : bytes → bytes).

(** [contentDigest(untar(tar))] against [digest]. *)
Definition verify (digest tar : bytes) : result bundle_error unit :=
  match untar tar with
  | None => Throw Hangs
  | Some entries =>
      match contentDigest entries with
      | Throw _ => Throw (BundleDigestMismatch digest (bytes_of "unreadable (untar failed)"))
      | Ok actual => if bool_decide (actual = digest) then Ok tt else Throw (BundleDigestMismatch digest actual)
      end
  end.

Definition of_verify (r : result bundle_error unit) : bundle_prog unit := match r with Ok u => Ret u | Throw e => Err e end.

(** Whether the bundle was uploaded. *)
Definition putBundle (digest tar : bytes) (ttlSeconds : Z) : bundle_prog bool :=
  await _ <- of_verify (verify digest tar);
  Call (RExists (bundleKey digest)) (fun r =>
    await n <- redis r;
    if 0 <? n then
      Call (RExpire (bundleKey digest) ttlSeconds) (fun r => await _ <- redis r; Ret false)
    else
      Call (RSet (bundleKey digest) (b64_encode (gzipSync tar)) ttlSeconds) (fun r => await _ <- redis r; Ret true)).

Definition getBundle (digest : bytes) : bundle_prog bytes :=
  Call (RGet (bundleKey digest)) (fun r =>
    await raw <- redis r;
    match raw with
    | None => Err (BundleNotFound digest)
    | Some raw =>
        match gunzipSync (fromBase64 raw) with
        | None => Err (BundleDigestMismatch digest (bytes_of "unreadable (gunzip failed)"))
        | Some tar => await _ <- of_verify (verify digest tar); Ret tar
        end
    end).

(** A bundle whose content has the digest. *)
Definition has_digest (digest tar : bytes) : Prop := ∃ es, untar tar = Some es ∧ contentDigest es = Ok digest.

Lemma verify_ok digest tar u : verify digest tar = Ok u ↔ has_digest digest tar.
Proof.
  unfold verify, has_digest. destruct u. split.
  - destruct (untar tar) as [es|]; [|done]. destruct (contentDigest es) as [d|] eqn:Ed; [|done]. case_bool_decide; [|done]. subst d. by exists es.
  - intros (es & -> & ->). by rewrite bool_decide_eq_true_2.
Qed.

(** A Redis that keeps what it is given, as long as nothing expires. *)
Definition redis_answer (c : redis_call) (m : gmap bytes bytes) : redis_reply c * gmap bytes bytes :=
  match c return redis_reply c * gmap bytes bytes with
  | RExists k => (Ok (match m !! k with Some _ => 1 | None => 0 end), m)
  | RExpire _ _ => (Ok tt, m)
  | RSet k v _ => (Ok tt, <[k := v]> m)
  | RGet k => (Ok (m !! k), m)
  end.

Lemma get_sound digest tr tar :
  runs (getBundle digest) tr (Ok tar) →
  ∃ raw, tr = [ev (R := redis_reply) (RGet (bundleKey digest)) (Ok (Some raw))]
    ∧ gunzipSync (fromBase64 raw) = Some tar ∧ has_digest digest tar.
Proof.
  intros (r & tr1 & -> & Hr)%runs_inv. destruct r as [raw|t]; [|by apply runs_inv in Hr as [_ [=]]]. cbn in Hr.
  destruct raw as [raw|]; [|by apply runs_inv in Hr as [_ [=]]]. exists raw.
  destruct (gunzipSync _) as [tar'|]; [|by apply runs_inv in Hr as [_ [=]]].
  destruct (verify digest tar') as [u|e] eqn:Ev; cbn in Hr; apply runs_inv in Hr as [-> Ho]; [|done].
  injection Ho as ->. split_and!; [done..|]. by apply verify_ok in Ev.
Qed.

Lemma put_sound digest tar ttl tr o k v ex r :
  runs (putBundle digest tar ttl) tr o → ev (RSet k v ex) r ∈ tr →
  k = bundleKey digest ∧ v = b64_encode (gzipSync tar) ∧ ex = ttl ∧ has_digest digest tar.
Proof.
  unfold putBundle. destruct (verify digest tar) as [u|e] eqn:Ev; cbn; [|intros [-> _]%runs_inv; set_solver].
  apply verify_ok in Ev. intros (n & tr1 & -> & Hr)%runs_inv Hin. apply elem_of_cons in Hin as [[=]|Hin].
  destruct n as [n|t]; cbn in Hr; [|apply runs_inv in Hr as [-> _]; set_solver].
  destruct (0 <? n); apply runs_inv in Hr as (q & tr2 & -> & Hr); apply elem_of_cons in Hin as [Hin|Hin]; try discriminate Hin;
    try (destruct q; cbn in Hr; apply runs_inv in Hr as [-> _]; set_solver).
Qed.

Lemma built_has_digest es lock tar digest :
  path lock = LOCKFILE_PATH → Forall entry_ok (es ++ [lock]) → contentDigest es = Ok digest →
  canonicalTar (es ++ [lock]) = Ok tar → has_digest digest tar.
Proof.
  intros Hl Hok Hd Ht. pose proof (untar_canonical _ _ Ht Hok) as Hu. eexists. split; [exact Hu|].
  rewrite (contentDigest_stored _ _ _ Ht Hok Hu), <-Hd. unfold contentDigest. rewrite List.filter_app. cbn [List.filter].
  unfold is_content at 2. by rewrite bool_decide_eq_true_2, app_nil_r.
Qed.

Context (gunzip_gzip : ∀ x, gunzipSync (gzipSync x) = Some x) (base64_roundtrip : ∀ l, fromBase64 (b64_encode l) = l).

Lemma put_then_get digest tar ttl m :
  has_digest digest tar → m !! bundleKey digest = None →
  let '(put, m') := prun redis_answer (putBundle digest tar ttl) m in
  put = Ok true ∧ (prun redis_answer (getBundle digest) m').1 = Ok tar.
Proof.
  intros Hh%(verify_ok digest tar tt) Hm. unfold putBundle. rewrite Hh. cbn -[bundleKey]. rewrite Hm. cbn -[bundleKey]. split; [done|].
  unfold getBundle. cbn -[bundleKey]. rewrite lookup_insert_eq. cbn -[bundleKey]. by rewrite base64_roundtrip, gunzip_gzip, Hh.
Qed.

(** A bundle is served as it was stored.  Nothing is written for a digest but an archive whose
    content has it, whatever Redis answers; nothing is returned for a digest but such an archive,
    whatever Redis holds; a bundle that was built, then stored under a digest Redis does not have,
    is read back byte for byte. *)
Theorem bundle_store_sound digest tar ttl m es lock :
  (∀ tr o k v ex r, runs (putBundle digest tar ttl) tr o → ev (RSet k v ex) r ∈ tr →
     k = bundleKey digest ∧ v = b64_encode (gzipSync tar) ∧ ex = ttl ∧ has_digest digest tar)
  ∧ (∀ tr t, runs (getBundle digest) tr (Ok t) →
       has_digest digest t ∧ ∃ raw, tr = [ev (R := redis_reply) (RGet (bundleKey digest)) (Ok (Some raw))] ∧ gunzipSync (fromBase64 raw) = Some t)
  ∧ (path lock = LOCKFILE_PATH → Forall entry_ok (es ++ [lock]) → contentDigest es = Ok digest →
     canonicalTar (es ++ [lock]) = Ok tar → m !! bundleKey digest = None →
     let '(put, m') := prun redis_answer (putBundle digest tar ttl) m in
     put = Ok true ∧ (prun redis_answer (getBundle digest) m').1 = Ok tar).
Proof.
  split_and!.
  - intros. by eapply put_sound.
  - intros tr t (raw & ? & ? & ?)%get_sound. by eauto.
  - intros Hl Hok Hd Ht Hm. assert (Hh : has_digest digest tar) by by eapply built_has_digest.
    by apply put_then_get.
Qed.

(** The digest leaves the lockfile out, so a bundle that differs from the stored one only there
    is not stored: the first lockfile stays. *)
Lemma restored_lockfile_kept digest tar ttl m old :
  has_digest digest tar → m !! bundleKey digest = Some old →
  prun redis_answer (putBundle digest tar ttl) m = (Ok false, m).
Proof. intros Hh%(verify_ok digest tar tt) Hm. unfold putBundle. rewrite Hh. cbn -[bundleKey]. by rewrite Hm. Qed.
End Digests.

(** ** Archives that are not canonical *)

(** A size may be read with a sign: a header that says minus one block sends the reader back to
    itself, for ever. *)
Definition looping_header : bytes := write (zeros BLOCK) (bytes_of "-00000001000") 124 12.

Lemma negative_size_loops fuel : untar_from fuel looping_header 0 = None.
Proof.
  assert (Hsize : octal_at looping_header 124 12 = Some (-512)) by by vm_compute.
  assert (Hz : is_zero (subarray looping_header 0 512) = false) by by vm_compute.
  assert (Hsub : subarray looping_header 0 512 = looping_header) by by vm_compute.
  assert (Hreg : regular looping_header = true) by by vm_compute.
  induction fuel as [|fuel IH]; cbn [untar_from].
  - rewrite Z.add_0_l, Hz. by vm_compute.
  - rewrite Z.add_0_l, Hz. rewrite Hsub, Hsize, Hreg. change (after 512 (-512)) with 0. rewrite IH. by vm_compute.
Qed.

(** ** Witnesses *)

Definition ex_skill : TarEntry := mkEntry (bytes_of "skills/a/SKILL.md") (bytes_of "hello") None.
Definition ex_script : TarEntry := mkEntry (bytes_of "skills/a/run.sh") (bytes_of "echo") (Some 493).
Definition ex_lock : TarEntry := mkEntry LOCKFILE_PATH (bytes_of "{}") None.
Definition ex_entries : list TarEntry := [ex_script; ex_skill].
Definition toy_sha (b : bytes) : bytes := replicate 64 "0"%char.

Definition entry_okb (e : TarEntry) : bool :=
  bool_decide (NUL ∉ path e) && bool_decide (to_utf8 (path e) = path e) && bool_decide (head (path e) ≠ Some "/"%char)
  && (Z.of_nat (length (content e)) <? 8 ^ 12).

Lemma entry_okb_ok es : forallb entry_okb es = true → Forall entry_ok es.
Proof.
  intros H. apply Forall_forall. intros e He. rewrite forallb_forall in H. specialize (H e (proj1 (list_elem_of_In _ _) He)).
  unfold entry_okb in H. repeat apply andb_prop in H as [H ?]. apply bool_decide_eq_true in H.
  split; [split_and!; [done|by eapply bool_decide_eq_true|by eapply bool_decide_eq_true]|by apply Z.ltb_lt].
Qed.

Definition tar_of (r : result string bytes) : bytes := match r with Ok t => t | Throw _ => [] end.

Lemma archive_identity_witness :
  untar (tar_of (canonicalTar ex_entries)) = Some [normal ex_skill; normal ex_script].
Proof.
  assert (Ht : canonicalTar ex_entries = Ok (tar_of (canonicalTar ex_entries))) by (vm_compute; reflexivity).
  destruct (archive_identity toy_sha ex_entries ex_entries _ Ht) as [Hu _]; [by apply entry_okb_ok; vm_compute|]. exact Hu.
Defined.

Lemma bundle_store_sound_witness :
  let digest := digestOf toy_sha [] in
  let tar := tar_of (canonicalTar (ex_entries ++ [ex_lock])) in
  let '(put, m') := prun redis_answer (putBundle toy_sha (fun x => x) digest tar DEFAULT_BUNDLE_TTL_SECONDS) ∅ in
  put = Ok true ∧ (prun redis_answer (getBundle toy_sha Some b64_decode digest) m').1 = Ok tar.
Proof.
  intros digest tar.
  assert (Ht : canonicalTar (ex_entries ++ [ex_lock]) = Ok tar) by (vm_compute; reflexivity).
  destruct (bundle_store_sound toy_sha (fun x => x) Some b64_decode (fun x => eq_refl) b64_roundtrip digest tar
    DEFAULT_BUNDLE_TTL_SECONDS ∅ ex_entries ex_lock) as (_ & _ & Hs).
  apply Hs; [reflexivity|by apply entry_okb_ok; vm_compute|vm_compute; reflexivity|exact Ht|reflexivity].
Defined.
