(* ===== verification/Overlay.v ===== *)
(** * Promoted configuration, unpacked

    Models the rest of [harness/src/config-resolver.ts] ([unpackBundle], [resolvePromotedConfig];
    the loader's options are in [RunTurn]) and [harness/src/config-overlay.ts], the copy in the
    sandbox.  The file system of the harness's pod is a tree of calls; the sandbox's is the state
    the overlay's scripts read and write, each script's locked section one step.  Strings are
    UTF-8 bytes, paths absolute, and JavaScript's order on strings is that of their bytes, which
    it is below U+10000. *)

From S2P Require Import Prelude JsNumber Prog CpRoutes Operations Leaf StableSort Tar.

Local Open Scope Z_scope.

(** ** Paths *)

(** A reversed list of segments, with [.] and empty ones dropped and [..] taking one back. *)
Fixpoint normalize (acc segs : list bytes) : list bytes :=
  match segs with
  | [] => acc
  | s :: segs =>
      if bool_decide (s = []) || bool_decide (s = bytes_of ".") then normalize acc segs
      else if bool_decide (s = bytes_of "..") then normalize (tail acc) segs
      else normalize (s :: acc) segs
  end.

Definition abs_path (acc : list bytes) : bytes :=
  match rev acc with [] => bytes_of "/" | l => flat_map (cons "/"%char) l end.

(** [resolve(base, p)], [base] absolute. *)
Definition resolve (base p : bytes) : bytes :=
  let from := if starts_with (bytes_of "/") p then [] else normalize [] (split_char "/" base) in
  abs_path (normalize from (split_char "/" p)).

(** [join(base, name)], of a normal [base] and a plain [name]. *)
Definition join (base name : bytes) : bytes := base ++ "/"%char :: name.

Definition dirname (p : bytes) : bytes :=
  match split_char "/" p with
  | [] | [_] => bytes_of "."
  | l => match join_char "/" (removelast l) with [] => bytes_of "/" | d => d end
  end.

(** ** Unpacking *)

Inductive fs_call :=
| ExistsSync (p : bytes)
| MkdirP (p : bytes)
| Mkdtemp (prefix : bytes)
| WriteFile (p content : bytes) (mode : Z)
| RenameSync (a b : bytes)
| RmRf (p : bytes).

Definition fs_reply (c : fs_call) : Type :=
  match c with
  | ExistsSync _ => bool
  | Mkdtemp _ => result string bytes
  | _ => result string unit
  end.

Definition fs_prog : Type → Type := prog fs_call fs_reply string.

Definition fs_ok {A} (r : result string A) : fs_prog A := match r with Ok a => Ret a | Throw e => Err e end.

Definition mkdirp (p : bytes) : fs_prog unit := Call (MkdirP p) fs_ok.

Definition DEFAULT_CONFIG_BASE_DIR : bytes := bytes_of "/tmp/sh-config".

Definition inside (staging target : bytes) : bool :=
  bool_decide (target = staging) || starts_with (staging ++ bytes_of "/") target.

Definition unpack_entry (staging : bytes) (e : TarEntry) : fs_prog unit :=
  let target := resolve staging (path e) in
  if negb (inside staging target) then Err ("bundle entry escapes the unpack root: " +:+ string_of (path e))
  else if negb (starts_with (bytes_of "skills/") (path e)) && negb (starts_with (bytes_of "prompts/") (path e)) then Ret tt
  else
    await _ <- mkdirp (dirname target);
    Call (WriteFile target (content e) (default 420 (mode e))) fs_ok.

Fixpoint unpack_entries (staging : bytes) (es : list TarEntry) : fs_prog unit :=
  match es with
  | [] => Ret tt
  | e :: es => await _ <- unpack_entry staging e; unpack_entries staging es
  end.

Definition unpack_files (root baseDir : bytes) (entries : list TarEntry) : fs_prog unit :=
  Call (ExistsSync root) (fun there : bool =>
    if there then Ret tt
    else
      await _ <- mkdirp baseDir;
      Call (Mkdtemp (join baseDir (bytes_of ".tmp-"))) (fun r : result string bytes =>
        await staging <- fs_ok r;
        pcatch (await _ <- unpack_entries staging entries;
                await _ <- mkdirp (join staging (bytes_of "skills"));
                await _ <- mkdirp (join staging (bytes_of "prompts"));
                Call (RenameSync staging root) fs_ok)
          (fun err =>
             Call (RmRf staging) (fun r : result string unit =>
               await _ <- fs_ok r;
               Call (ExistsSync root) (fun there : bool => if there then Ret tt else Err err))))).

(** ** What is read into memory *)

Definition strip_suffix (suf s : bytes) : option bytes :=
  let i := (length s - length suf)%nat in if bool_decide (drop i s = suf) then Some (take i s) else None.

Fixpoint trailing_digits (rev_s : bytes) : bytes * bytes :=
  match rev_s with
  | c :: r => if is_digit c then let '(ds, rest) := trailing_digits r in (ds ++ [c], rest) else ([], rev_s)
  | [] => ([], [])
  end.

(** [/-(\d+)\.md$/], the number; [None] for NaN. *)
Definition indexOf (p : bytes) : option Z :=
  match strip_suffix (bytes_of ".md") p with
  | None => None
  | Some s =>
      match trailing_digits (rev s) with
      | ([], _) => None
      | (ds, c :: _) => if bool_decide (c = "-"%char) then digits_value 10 0 ds else None
      | (_, []) => None
      end
  end.

(** [compare(a, b) <= 0] *)
Definition text_le (a b : TarEntry) : bool :=
  match indexOf (path a), indexOf (path b) with
  | Some ia, Some ib => if ia =? ib then bytes_le (path a) (path b) else ia <? ib
  | _, _ => bytes_le (path a) (path b)
  end.

(** The sort is determined when all of the paths have an index or none has. *)
Definition text (entries : list TarEntry) (prefix : bytes) : list TarEntry :=
  sort text_le (List.filter (fun e => starts_with prefix (path e)) entries).

Record Promoted := mkPromotedConfig {
  pr_digest : bytes;
  pr_root : bytes;
  pr_skillsDir : bytes;
  pr_promptsDir : bytes;
  pr_context : list (bytes * bytes);
  pr_promptFragments : list bytes;
  pr_entries : list TarEntry;
}.

Definition promoted_of (digest root : bytes) (entries : list TarEntry) : Promoted :=
  mkPromotedConfig digest root (join root (bytes_of "skills")) (join root (bytes_of "prompts"))
    ((fun e => (path e, to_utf8 (content e))) <$> text entries (bytes_of "context/"))
    ((fun e => to_utf8 (content e)) <$> text entries (bytes_of "prompt/")) entries.

(** [entries] is [untar(tar)]. *)
Definition unpackBundle (entries : list TarEntry) (digest baseDir : bytes) : fs_prog Promoted :=
  match assertValidDigest digest with
  | Throw e => Err e
  | Ok d =>
      let root := join baseDir (digestDirName d) in
      await _ <- unpack_files root baseDir entries;
      Ret (promoted_of digest root entries)
  end.

(** ** Where a bundle is written *)

Abbreviation fs_history := (list (event (C := fs_call) (R := fs_reply))).

Definition staged (h : fs_history) (staging : bytes) : Prop := ∃ prefix, ev (R := fs_reply) (Mkdtemp prefix) (Ok staging) ∈ h.

Definition is_file (e : TarEntry) : bool := starts_with (bytes_of "skills/") (path e) || starts_with (bytes_of "prompts/") (path e).

(** An entry that is done: it stays inside, and is there if it is a file. *)
Definition unpacked (h : fs_history) (staging : bytes) (e : TarEntry) : Prop :=
  inside staging (resolve staging (path e)) = true
  ∧ (is_file e = true → ev (R := fs_reply) (WriteFile (resolve staging (path e)) (content e) (default 420 (mode e))) (Ok tt) ∈ h).

Section Unpack.
Context (root baseDir : bytes) (entries : list TarEntry).

Definition unpack_allowed (h : fs_history) (c : fs_call) : Prop :=
  match c with
  | WriteFile p text m => ∃ staging e, staged h staging ∧ e ∈ entries ∧ is_file e = true
      ∧ p = resolve staging (path e) ∧ inside staging p = true ∧ text = content e
  | RenameSync a b => b = root ∧ staged h a ∧ Forall (unpacked h a) entries
  | RmRf p => staged h p
  | _ => True
  end.

Lemma staged_app h t staging : staged h staging → staged (h ++ t) staging.
Proof. intros [prefix H]. exists prefix. set_solver. Qed.

Lemma unpacked_app h t staging e : unpacked h staging e → unpacked (h ++ t) staging e.
Proof. intros [H1 H2]. split; [done|]. intros Hf. specialize (H2 Hf). set_solver. Qed.

Lemma entry_spec staging e h Q X :
  staged h staging → e ∈ entries → (∀ t, unpacked (h ++ t) staging e → Q (h ++ t) tt) → (∀ t err, X (h ++ t) err) →
  spec unpack_allowed Q X h (unpack_entry staging e).
Proof.
  intros Hs He HQ HX. unfold unpack_entry. destruct (inside staging _) eqn:Ei; cbn [negb].
  2:{ cbn. specialize (HX []). rewrite app_nil_r in HX. apply HX. }
  destruct (negb (starts_with (bytes_of "skills/") (path e)) && negb (starts_with (bytes_of "prompts/") (path e))) eqn:Ef.
  - cbn. specialize (HQ []). rewrite app_nil_r in HQ. apply HQ. split; [done|]. unfold is_file. intros Hf.
    by destruct (starts_with (bytes_of "skills/") _), (starts_with (bytes_of "prompts/") _).
  - assert (Hf : is_file e = true) by (unfold is_file; by destruct (starts_with (bytes_of "skills/") _), (starts_with (bytes_of "prompts/") _)).
    apply spec_bind. split; [done|]. intros [u|err]; cbn [fs_ok spec]; [|apply HX]. split.
    + exists staging, e. split_and!; try done. by apply staged_app.
    + intros [[]|err]; cbn [fs_ok spec]; rewrite <-app_assoc; [|apply HX]. apply HQ. split; [done|]. intros _. set_solver.
Qed.

Lemma entries_spec staging es h Q X :
  staged h staging → es ⊆ entries → (∀ t, Forall (unpacked (h ++ t) staging) es → Q (h ++ t) tt) → (∀ t err, X (h ++ t) err) →
  spec unpack_allowed Q X h (unpack_entries staging es).
Proof.
  revert h. induction es as [|e es IH]; intros h Hs Hsub HQ HX; cbn [unpack_entries].
  - cbn. specialize (HQ []). rewrite app_nil_r in HQ. by apply HQ.
  - apply spec_bind, entry_spec; [done|set_solver| |done]. intros t He. apply IH; [by apply staged_app|set_solver| |].
    + intros t' Hes. rewrite <-app_assoc in *. apply HQ. constructor; [|done]. rewrite app_assoc. by apply unpacked_app.
    + intros t' err. rewrite <-app_assoc. apply HX.
Qed.

(** Another process, or this one, put the root in place. *)
Definition installed (h : fs_history) : Prop :=
  ev (R := fs_reply) (ExistsSync root) true ∈ h ∨ ∃ a, ev (R := fs_reply) (RenameSync a root) (Ok tt) ∈ h.

Lemma unpack_spec h : spec unpack_allowed (fun h _ => installed h) (fun _ _ => True) h (unpack_files root baseDir entries).
Proof.
  split; [done|]. intros there. destruct there; [cbn; left; set_solver|].
  apply spec_bind. split; [done|]. intros [u|err]; cbn [fs_ok spec]; [|done]. split; [done|]. intros [staging|err]; [|done].
  cbn [fs_ok pbind]. set (h1 := _ ++ [ev (Mkdtemp _) _]).
  assert (Hs : staged h1 staging) by (eexists; unfold h1; apply elem_of_app; right; constructor). clearbody h1.
  apply spec_catch.
  assert (HX : ∀ t err, spec unpack_allowed (fun h _ => installed h) (fun _ _ => True) (h1 ++ t)
     (Call (RmRf staging) (fun r : result string unit =>
               await _ <- fs_ok r;
               Call (ExistsSync root) (fun there : bool => if there then Ret tt else Err err)))).
  { intros t err. split; [by apply staged_app|]. intros [v|e2]; [|done]. cbn. split; [done|]. intros []; [left; set_solver|done]. }
  apply spec_bind, entries_spec; [done|done| |exact HX]. intros t Hall.
  apply spec_bind. split; [done|]. intros [v1|e1]; cbn [fs_ok spec]; rewrite <-app_assoc; [|apply HX].
  apply spec_bind. split; [done|]. intros [v2|e2]; cbn [fs_ok spec]; rewrite <-app_assoc; [|apply HX]. split.
  - split_and!; [done|by apply staged_app|]. eapply Forall_impl; [exact Hall|]. intros e [H1 H2]. split; [done|]. intros Hf. specialize (H2 Hf). set_solver.
  - intros [[]|e3]; cbn [fs_ok spec]; rewrite <-?app_assoc; [|apply HX]. right. exists staging. set_solver.
Qed.
End Unpack.

(** ** Normal paths *)

Definition plain_segment (s : bytes) : Prop := s ∉ [[]; bytes_of "."; bytes_of ".."].

Lemma normalize_plain acc segs : Forall plain_segment acc → Forall plain_segment (normalize acc segs).
Proof.
  revert acc. induction segs as [|s segs IH]; intros acc Ha; cbn [normalize]; [done|].
  destruct (bool_decide_reflect (s = [])); [by apply IH|]. destruct (bool_decide_reflect (s = bytes_of ".")); [by apply IH|]. cbn [orb].
  destruct (bool_decide_reflect (s = bytes_of "..")); apply IH; [by destruct Ha|]. constructor; [|done]. unfold plain_segment. set_solver.
Qed.

Lemma resolve_plain base p : ∃ segs, resolve base p = abs_path segs ∧ Forall plain_segment segs.
Proof.
  unfold resolve. eexists. split; [done|]. apply normalize_plain. destruct (starts_with _ p); [done|]. by apply normalize_plain.
Qed.

(** C23. No bundle writes outside its root.  Whatever an archive's paths are and whatever the file
    system answers, every file is written under the fresh staging directory, at a path without
    [.] and [..]; the root appears only by a rename of a staging directory that holds every file
    of the bundle, one of whose paths escaping stops that; only the staging directory is ever
    removed; and the configuration is returned only when the root is in place. *)
Theorem unpack_contained entries digest baseDir tr o :
  runs (unpackBundle entries digest baseDir) tr o →
  (∀ tr1 c r tr2, tr = tr1 ++ ev c r :: tr2 →
     match c with
     | WriteFile p _ _ => ∃ staging segs, staged tr1 staging ∧ (p = staging ∨ ∃ rest, p = staging ++ bytes_of "/" ++ rest)
                          ∧ p = abs_path segs ∧ Forall plain_segment segs
     | RenameSync a b => b = join baseDir (digestDirName digest) ∧ staged tr1 a ∧ Forall (unpacked tr1 a) entries
     | RmRf p => staged tr1 p
     | _ => True
     end)
  ∧ (∀ config, o = Ok config → valid_digest digest = true ∧ installed (join baseDir (digestDirName digest)) tr
       ∧ pr_root config = join baseDir (digestDirName digest) ∧ pr_entries config = entries).
Proof.
  unfold unpackBundle, assertValidDigest. destruct (valid_digest digest) eqn:Ed; [|by intros [-> ->]%runs_inv; split; [intros []|]].
  cbv zeta. set (root := join _ _). intros Hr.
  assert (Hs : spec (unpack_allowed root entries) (fun h c => installed root h ∧ pr_root c = root ∧ pr_entries c = entries) (fun _ _ => True) []
     (await _ <- unpack_files root baseDir entries; Ret (promoted_of digest root entries))).
  { apply spec_bind. eapply spec_mono; [done| |done|apply unpack_spec]. intros h [] Hi. cbn. done. }
  destruct (spec_runs _ _ _ _ _ _ _ Hs Hr) as [Hc Ho]. split.
  - intros tr1 c r tr2 Htr. specialize (Hc _ _ _ _ Htr). destruct c; try done. destruct Hc as (staging & e & Hst & _ & _ & -> & Hin & _).
    destruct (resolve_plain staging (path e)) as (segs & Heq & Hpl). exists staging, segs. split_and!; [done| |done|done].
    unfold inside in Hin. apply orb_prop in Hin as [Hin|Hin]; [left; by apply bool_decide_eq_true in Hin|right].
    apply starts_with_spec in Hin as [rest Hrest]. exists rest. by rewrite app_assoc.
  - intros config ->. by destruct Ho as (? & ? & ?).
Qed.

(** ** The order of what is injected *)

Definition frag_path (i : Z) : bytes := bytes_of "prompt/append-" ++ dec i ++ bytes_of ".md".

Lemma trailing_digits_app ds r :
  Forall (fun c => is_digit c = true) ds → trailing_digits (rev ds ++ "-"%char :: r) = (ds, "-"%char :: r).
Proof.
  induction ds as [|c ds IH] using rev_ind; intros Hd; [done|]. apply Forall_app in Hd as [Hd Hc]. rewrite Forall_singleton in Hc.
  rewrite rev_app_distr. cbn [rev app trailing_digits]. rewrite Hc. by rewrite IH.
Qed.

Lemma strip_suffix_app s suf : strip_suffix suf (s ++ suf) = Some s.
Proof.
  unfold strip_suffix. rewrite length_app. replace (length s + length suf - length suf)%nat with (length s) by lia.
  rewrite drop_app_length, take_app_length. by rewrite bool_decide_eq_true_2.
Qed.

Lemma frag_index i : 0 ≤ i → indexOf (frag_path i) = Some i.
Proof.
  intros Hi. unfold indexOf, frag_path. rewrite app_assoc, strip_suffix_app, rev_app_distr.
  change (rev (bytes_of "prompt/append-")) with ("-"%char :: rev (bytes_of "prompt/append")).
  rewrite trailing_digits_app by (eapply Forall_impl; [by apply dec_plain|]; by intros c [? _]).
  pose proof (dec_nonempty i) as Hne. destruct (dec i) as [|c ds] eqn:E; [done|]. rewrite bool_decide_eq_true_2 by done. rewrite <-E.
  by apply dec_value.
Qed.

Definition frag_entry (m : option Z) (p : nat * bytes) : TarEntry := mkEntry (frag_path (Z.of_nat p.1)) p.2 m.
Definition numbered (frags : list bytes) : list (nat * bytes) := zip (seq 0 (length frags)) frags.
Definition before (p q : nat * bytes) : bool := (p.1 <=? q.1)%nat.

#[local] Instance before_order : TotalPreorder before.
Proof. split; unfold before; intros *; rewrite ?Nat.leb_le, ?Nat.leb_gt; lia. Qed.

Lemma numbered_sorted k frags : StronglySorted (fun p q => before p q = true) (zip (seq k (length frags)) frags).
Proof.
  revert k. induction frags as [|x frags IH]; intros k; cbn; [constructor|]. constructor; [apply IH|].
  apply Forall_forall. intros [i y] Hin%elem_of_zip_l. apply elem_of_seq in Hin. apply Nat.leb_le. simpl. lia.
Qed.

Lemma numbered_inj frags p q : p ∈ numbered frags → q ∈ numbered frags → p.1 = q.1 → p = q.
Proof.
  unfold numbered. intros (i & Hi)%list_elem_of_lookup (j & Hj)%list_elem_of_lookup Heq.
  destruct p as [a x], q as [b y]. apply lookup_zip_Some in Hi as [Hi1 Hi2], Hj as [Hj1 Hj2]. apply lookup_seq in Hi1 as [Hi1 _], Hj1 as [Hj1 _].
  assert (i = j) as <- by (simpl in *; lia). simpl in *. congruence.
Qed.

Lemma filter_perm {A} (f : A → bool) l l' : l ≡ₚ l' → List.filter f l ≡ₚ List.filter f l'.
Proof.
  induction 1 as [|x l l' _ IH|x y l|l l' l'' _ IH1 _ IH2]; cbn; [done| | |by rewrite IH1].
  - destruct (f x); by rewrite IH.
  - destruct (f x), (f y); done || constructor.
Qed.

Lemma filter_all {A} (f : A → bool) b l : Forall (fun x => f x = b) l → List.filter f l = if b then l else [].
Proof. induction 1 as [|x l Hx _ IH]; cbn; [by destruct b|]. rewrite Hx, IH. by destruct b. Qed.

(** The notes are injected in the order they were given, however many there are and in whatever
    order the archive holds them. *)
Lemma fragments_in_order es frags m others :
  es ≡ₚ (frag_entry m <$> numbered frags) ++ others →
  Forall (fun e => starts_with (bytes_of "prompt/") (path e) = false) others →
  content <$> text es (bytes_of "prompt/") = frags.
Proof.
  intros Hp Ho. unfold text. set (keep := fun e => _).
  assert (Hf : List.filter keep es ≡ₚ frag_entry m <$> numbered frags).
  { rewrite (filter_perm keep _ _ Hp), List.filter_app, (filter_all keep false others Ho), app_nil_r.
    rewrite (filter_all keep true); [done|]. apply Forall_fmap, Forall_forall. intros p _. reflexivity. }
  apply Permutation_map_inv in Hf as (l & -> & Hl).
  assert (Hsort : sort text_le (frag_entry m <$> l) = frag_entry m <$> sort before l).
  { apply sort_map. intros [a x] [b y] _ _. unfold text_le, frag_entry, before. cbn [path fst]. rewrite !frag_index by lia.
    destruct (Z.eqb_spec (Z.of_nat a) (Z.of_nat b)) as [E|E].
    - assert (a = b) as <- by lia. rewrite bytes_le_refl. symmetry. by apply Nat.leb_le.
    - destruct (Z.ltb_spec (Z.of_nat a) (Z.of_nat b)); symmetry; [apply Nat.leb_le|apply Nat.leb_gt]; lia. }
  change (List.map (frag_entry m) l) with (frag_entry m <$> l). rewrite Hsort.
  rewrite <-(sort_unique before (numbered frags) l Hl).
  - rewrite sort_sorted_id by apply numbered_sorted. rewrite <-list_fmap_compose.
    change (content ∘ frag_entry m) with (@snd nat bytes). unfold numbered. apply snd_zip. by rewrite length_seq.
  - intros p q Hpin Hq H1 H2. apply (numbered_inj frags); [done..|]. unfold before in *. apply Nat.leb_le in H1, H2. lia.
Qed.

(** The context files carry their index in front of their name, where it is not looked for: from
    the eleventh on they are injected out of order. *)
Lemma context_out_of_order :
  let file i := mkEntry (bytes_of "context/agents/" ++ dec i ++ bytes_of "-CLAUDE.md") (dec i) None in
  content <$> text (file <$> [0; 1; 2; 3; 4; 5; 6; 7; 8; 9; 10]) (bytes_of "context/") = dec <$> [0; 1; 10; 2; 3; 4; 5; 6; 7; 8; 9].
Proof. by vm_compute. Qed.

(** * The sandbox's copy *)

(** ** Names *)

Definition SH_CONFIG : bytes := bytes_of "/workspace/.sh-config".

Definition configCacheDir (digest : bytes) : result string bytes :=
  try d <- assertValidDigest digest; Ok (join SH_CONFIG (digestDirName d)).

Definition configRefsDir (digest : bytes) : result string bytes :=
  try d <- assertValidDigest digest; Ok (join (join SH_CONFIG (bytes_of ".refs")) (digestDirName d)).

Definition leafConfigDir (sessionId : bytes) : bytes :=
  bytes_of "/workspace/leaves/" ++ sessionId ++ bytes_of "/.sh-config".

Definition REF_STALE_MINUTES : Z := 1440.

(** [/^[A-Za-z0-9._-]+$/], and not a name of a directory. *)
Definition assertSafeSessionId (sessionId : bytes) : result string bytes :=
  if bool_decide (sessionId = []) || negb (forallb id_char sessionId) || bool_decide (sessionId = bytes_of ".")
     || bool_decide (sessionId = bytes_of "..")
  then Throw ("invalid sessionId for a config ref: " +:+ string_of sessionId)
  else Ok sessionId.

(** ** The scripts

    What is on the pod's disk: the cached bundles, the refs on each with the minutes since they
    were written, and the links of the leaves. *)
Record Pod := mkPod {
  caches : gset bytes;
  refs : gmap bytes (gmap bytes Z);
  links : gmap bytes bytes;
}.

Definition refs_of (p : Pod) (digest : bytes) : gmap bytes Z := default ∅ (refs p !! digest).

(** [find "$REFS" -mmin +1440 -delete] *)
Definition sweep (r : gmap bytes Z) : gmap bytes Z := filter (fun kv => kv.2 ≤ REF_STALE_MINUTES) r.

(** [buildCacheAcquireScript]: whether it printed [hit]. *)
Definition cacheAcquire (digest sessionId : bytes) (p : Pod) : bool * Pod :=
  (bool_decide (digest ∈ caches p),
   mkPod (caches p) (<[digest := <[sessionId := 0]> (sweep (refs_of p digest))]> (refs p)) (links p)).

(** [buildCachePopulateScript], when the archive arrives whole; otherwise nothing changes. *)
Definition cachePopulate (digest : bytes) (p : Pod) : Pod := mkPod ({[digest]} ∪ caches p) (refs p) (links p).

(** [buildLeafBindScript] *)
Definition leafBind (digest sessionId : bytes) (p : Pod) : Pod := mkPod (caches p) (refs p) (<[sessionId := digest]> (links p)).

(** [buildConfigCleanupScript] *)
Definition configCleanup (sessionId digest : bytes) (p : Pod) : Pod :=
  let r := sweep (delete sessionId (refs_of p digest)) in
  if decide (r = ∅) then mkPod (caches p ∖ {[digest]}) (delete digest (refs p)) (delete sessionId (links p))
  else mkPod (caches p) (<[digest := r]> (refs p)) (delete sessionId (links p)).

(** ** One leaf *)

Inductive script :=
| Acquire (digest sessionId : bytes)
| Populate (digest stdin : bytes)
| Bind (digest sessionId : bytes).

Record ExecResult := mkExec { ex_stdout : bytes; ex_exitCode : Z; ex_truncated : bool }.

Definition exec_reply (_ : script) : Type := result string ExecResult.

Definition run (s : script) : prog script exec_reply string bytes :=
  Call s (fun r : result string ExecResult =>
    match r with
    | Throw e => Err e
    | Ok x => if ex_truncated x then Err "config overlay exceeded the sandbox output cap"
              else if negb (ex_exitCode x =? 0) then Err ("config overlay failed (exit " +:+ string_of (dec_signed (ex_exitCode x)) +:+ ")")
              else Ret (ex_stdout x)
    end).

(** [base64] is [tarGz.toString('base64')].  A script is built, and its names checked, before it
    runs; the paths are those of the skills and the memory. *)
Definition overlayConfig (digest sessionId base64 : bytes) : prog script exec_reply string (bytes * bytes) :=
  match configCacheDir digest, assertSafeSessionId sessionId with
  | Throw e, _ | _, Throw e => Err e
  | Ok _, Ok _ =>
      await acquired <- run (Acquire digest sessionId);
      await _ <- (if bool_decide (trim acquired = bytes_of "hit") then Ret [] else run (Populate digest base64));
      await _ <- run (Bind digest sessionId);
      let root := leafConfigDir sessionId in
      Ret (root ++ bytes_of "/skills", root ++ bytes_of "/memory")
  end.

(** The pod runs a script to its end. *)
Definition pod_exec (s : script) (p : Pod) : exec_reply s * Pod :=
  let done out := Ok (mkExec (bytes_of out) 0 false) in
  match s with
  | Acquire d id => let '(hit, p') := cacheAcquire d id p in (done (if hit then "hit" else "miss"), p')
  | Populate d _ => (done "ok", cachePopulate d p)
  | Bind d id => (Ok (mkExec (leafConfigDir id) 0 false), leafBind d id p)
  end.

(** ** All the leaves of a pod *)

(** How far a leaf has come; a leaf that was answered [hit], or has sent the bundle, is ready. *)
Inductive progress := Missed | Prepared | Linked.

Record Leaf := mkLeaf { l_session : bytes; l_digest : bytes; l_progress : progress }.

(** A ref and a link carry the session's name, so two leaves of one session on a pod share them.
    Ghost state: what each session claimed, and the sessions that had two leaves at once. *)
Record Sys := mkSys {
  pod : Pod;
  leaves : gmap nat Leaf;
  claimed : gset (bytes * bytes);
  crowded : gset bytes;
}.

(** A minute passes.  Teardown removes what is older than a day, so a leaf is taken to end
    within one. *)
Definition in_time (s : Sys) : Prop :=
  ∀ l lf a, leaves s !! l = Some lf → refs_of (pod s) (l_digest lf) !! l_session lf = Some a → a < REF_STALE_MINUTES.

Definition minute (p : Pod) : Pod := mkPod (caches p) (fmap (M := gmap bytes) (fmap (M := gmap bytes) Z.succ) (refs p)) (links p).

(** Some other leaf of the session is on the pod. *)
Definition present (id : bytes) (s : Sys) : Prop := map_Exists (fun _ lf => l_session lf = id) (leaves s).

#[export] Instance present_dec id s : base.Decision (present id s).
Proof. unfold present. apply _. Defined.

(** A leaf of any session comes, whether or not the session already has one.  A harness may die
    with a leaf, whose ref is then left behind. *)
Inductive overlay_step : Sys → Sys → Prop :=
| step_acquire s l id d hit p' :
    leaves s !! l = None → cacheAcquire d id (pod s) = (hit, p') →
    overlay_step s (mkSys p' (<[l := mkLeaf id d (if hit then Prepared else Missed)]> (leaves s)) ({[(id, d)]} ∪ claimed s)
                      (if decide (present id s) then {[id]} ∪ crowded s else crowded s))
| step_populate s l id d :
    leaves s !! l = Some (mkLeaf id d Missed) →
    overlay_step s (mkSys (cachePopulate d (pod s)) (<[l := mkLeaf id d Prepared]> (leaves s)) (claimed s) (crowded s))
| step_bind s l id d :
    leaves s !! l = Some (mkLeaf id d Prepared) →
    overlay_step s (mkSys (leafBind d id (pod s)) (<[l := mkLeaf id d Linked]> (leaves s)) (claimed s) (crowded s))
| step_cleanup s l id d ph :
    leaves s !! l = Some (mkLeaf id d ph) →
    overlay_step s (mkSys (configCleanup id d (pod s)) (delete l (leaves s)) (claimed s) (crowded s))
| step_die s l : overlay_step s (mkSys (pod s) (delete l (leaves s)) (claimed s) (crowded s))
| step_minute s : in_time s → overlay_step s (mkSys (minute (pod s)) (leaves s) (claimed s) (crowded s)).

Definition overlay_start : Sys := mkSys (mkPod ∅ ∅ ∅) ∅ ∅ ∅.

(** ** No leaf loses its configuration *)

Record overlay_inv (s : Sys) : Prop := {
  inv_one l l' lf lf' : leaves s !! l = Some lf → leaves s !! l' = Some lf' → l ≠ l' →
    l_session lf = l_session lf' → l_session lf ∈ crowded s;
  inv_claimed l lf : leaves s !! l = Some lf → (l_session lf, l_digest lf) ∈ claimed s;
  inv_ref l id d ph : leaves s !! l = Some (mkLeaf id d ph) → id ∉ crowded s →
    ∃ a, refs_of (pod s) d !! id = Some a ∧ a ≤ REF_STALE_MINUTES;
  inv_cache l id d ph : leaves s !! l = Some (mkLeaf id d ph) → id ∉ crowded s → ph ≠ Missed → d ∈ caches (pod s);
  inv_link l id d : leaves s !! l = Some (mkLeaf id d Linked) → id ∉ crowded s → links (pod s) !! id = Some d;
  inv_held d : d ∈ caches (pod s) → refs_of (pod s) d ≠ ∅ ∨ ∃ id, id ∈ crowded s ∧ (id, d) ∈ claimed s;
}.

Lemma refs_insert p d r d' : refs_of (mkPod (caches p) (<[d := r]> (refs p)) (links p)) d' = if decide (d' = d) then r else refs_of p d'.
Proof. unfold refs_of. cbn. case_decide; [subst; by rewrite lookup_insert_eq|by rewrite lookup_insert_ne]. Qed.

Lemma sweep_lookup r id a : sweep r !! id = Some a ↔ r !! id = Some a ∧ a ≤ REF_STALE_MINUTES.
Proof. unfold sweep. by rewrite map_lookup_filter_Some. Qed.

Lemma acquire_inv s l id d hit p' :
  overlay_inv s → leaves s !! l = None → cacheAcquire d id (pod s) = (hit, p') →
  overlay_inv (mkSys p' (<[l := mkLeaf id d (if hit then Prepared else Missed)]> (leaves s)) ({[(id, d)]} ∪ claimed s)
                 (if decide (present id s) then {[id]} ∪ crowded s else crowded s)).
Proof.
  intros [I0 Ic I1 I2 I3 I4] Hn [= <- <-]. set (cr := if decide _ then _ else _).
  assert (Hsub : crowded s ⊆ cr) by (unfold cr; case_decide; set_solver).
  assert (Hpres : ∀ l' lf, leaves s !! l' = Some lf → l_session lf = id → id ∈ cr).
  { intros l' lf Hl Hid. unfold cr. rewrite decide_True; [set_solver|]. by exists l', lf. }
  assert (Hold : ∀ l' id' d' ph, leaves s !! l' = Some (mkLeaf id' d' ph) → id' ∉ cr → id' ≠ id ∧ id' ∉ crowded s).
  { intros l' id' d' ph Hl Hni. split; [|set_solver]. intros ->. by apply Hni, (Hpres _ _ Hl). }
  constructor; cbn [pod leaves caches links claimed crowded].
  - intros l1 l2 lf1 lf2. rewrite !lookup_insert_Some. intros [[<- <-]|[? H1]] [[<- <-]|[? H2]] Hne Heq; [done|..].
    + by eapply Hpres.
    + rewrite Heq. by eapply Hpres.
    + apply Hsub. by eapply (I0 l1 l2).
  - intros l' lf. rewrite lookup_insert_Some. intros [[<- <-]|[_ Hl]]; [set_solver|]. apply elem_of_union_r. by eapply Ic.
  - intros l' id' d' ph. rewrite refs_insert, lookup_insert_Some. intros [[<- [= <- <- <-]]|[Hne Hl]] Hni.
    + rewrite decide_True, lookup_insert_eq by done. by exists 0.
    + destruct (Hold _ _ _ _ Hl Hni) as [Hid Hc]. destruct (I1 _ _ _ _ Hl Hc) as (a & Ha & Hle).
      case_decide; [subst d'|by exists a]. rewrite lookup_insert_ne by done. exists a. split; [|done]. by apply sweep_lookup.
  - intros l' id' d' ph. rewrite lookup_insert_Some. intros [[<- [= <- <- <-]]|[Hne Hl]] Hni Hph; [by case_bool_decide|].
    eapply I2; [exact Hl|set_solver|done].
  - intros l' id' d'. rewrite lookup_insert_Some. intros [[<- Heq]|[Hne Hl]] Hni; [by case_bool_decide|].
    eapply I3; [exact Hl|set_solver].
  - intros d' Hc. rewrite refs_insert. case_decide; [left; apply insert_non_empty|].
    destruct (I4 d' Hc) as [?|(x & ? & ?)]; [by left|right]. exists x. set_solver.
Qed.

Lemma cleanup_inv s l id d ph :
  overlay_inv s → leaves s !! l = Some (mkLeaf id d ph) →
  overlay_inv (mkSys (configCleanup id d (pod s)) (delete l (leaves s)) (claimed s) (crowded s)).
Proof.
  intros [I0 Ic I1 I2 I3 I4] Hl. unfold configCleanup. set (r := sweep _).
  assert (Hid : ∀ l' id' d' ph', l' ≠ l → leaves s !! l' = Some (mkLeaf id' d' ph') → id' ∉ crowded s → id' ≠ id).
  { intros l' id' d' ph' Hne Hl' Hc ->. apply Hc. exact (I0 l' l _ _ Hl' Hl Hne eq_refl). }
  assert (Hother : ∀ l' id' ph', l' ≠ l → leaves s !! l' = Some (mkLeaf id' d ph') → id' ∉ crowded s →
    ∃ a, r !! id' = Some a ∧ a ≤ REF_STALE_MINUTES).
  { intros l' id' ph' Hne Hl' Hc. destruct (I1 _ _ _ _ Hl' Hc) as (a & Ha & Hle). exists a. split; [|done].
    apply sweep_lookup. rewrite lookup_delete_ne; [done|]. apply not_eq_sym. by eapply Hid. }
  assert (H0 : ∀ l1 l2 lf1 lf2, delete l (leaves s) !! l1 = Some lf1 → delete l (leaves s) !! l2 = Some lf2 → l1 ≠ l2 →
    l_session lf1 = l_session lf2 → l_session lf1 ∈ crowded s).
  { intros l1 l2 lf1 lf2 [_ H1]%lookup_delete_Some [_ H2]%lookup_delete_Some. by apply (I0 l1 l2). }
  assert (H1 : ∀ l' lf, delete l (leaves s) !! l' = Some lf → (l_session lf, l_digest lf) ∈ claimed s)
    by (intros l' lf [_ Hl']%lookup_delete_Some; by eapply Ic).
  assert (H3 : ∀ l' id' d', delete l (leaves s) !! l' = Some (mkLeaf id' d' Linked) → id' ∉ crowded s →
    delete id (links (pod s)) !! id' = Some d').
  { intros l' id' d' [Hne Hl']%lookup_delete_Some Hc. rewrite lookup_delete_ne; [by eapply I3|]. apply not_eq_sym. by eapply Hid. }
  destruct (decide (r = ∅)) as [Hr|Hr]; constructor; cbn [pod leaves caches links claimed crowded]; try assumption.
  - intros l' id' d' ph' [Hne Hl']%lookup_delete_Some Hc. destruct (decide (d' = d)) as [->|Hd].
    + destruct (Hother l' id' ph') as (a & Ha & _); [done..|]. by rewrite Hr in Ha.
    + destruct (I1 _ _ _ _ Hl' Hc) as (a & Ha & Hle). exists a. split; [|done]. unfold refs_of in *. cbn. by rewrite lookup_delete_ne.
  - intros l' id' d' ph' [Hne Hl']%lookup_delete_Some Hc Hph. apply elem_of_difference. split; [by eapply I2|].
    intros ->%elem_of_singleton. destruct (Hother l' id' ph') as (a & Ha & _); [done..|]. by rewrite Hr in Ha.
  - intros d' [Hc Hd]%elem_of_difference. unfold refs_of. cbn. rewrite lookup_delete_ne by set_solver. by apply I4.
  - intros l' id' d' ph' [Hne Hl']%lookup_delete_Some Hc. unfold refs_of. cbn. destruct (decide (d' = d)) as [->|Hd].
    + rewrite lookup_insert_eq. by eapply Hother.
    + rewrite lookup_insert_ne by done. by eapply I1.
  - intros l' id' d' ph' [Hne Hl']%lookup_delete_Some Hc Hph. by eapply I2.
  - intros d' Hc. unfold refs_of. cbn. destruct (decide (d' = d)) as [->|Hd]; [left; by rewrite lookup_insert_eq|].
    rewrite lookup_insert_ne by done. by apply I4.
Qed.

(** A leaf that goes on keeps its session and its bundle. *)
Lemma progress_inv s p' l id d ph ph' :
  overlay_inv s → leaves s !! l = Some (mkLeaf id d ph) →
  (∀ d', refs_of p' d' = refs_of (pod s) d') → caches (pod s) ⊆ caches p' →
  (∀ d', d' ∈ caches p' → d' ∈ caches (pod s) ∨ d' = d) →
  (ph' ≠ Missed → id ∉ crowded s → d ∈ caches p') →
  (∀ l' id' d', leaves s !! l' = Some (mkLeaf id' d' Linked) → l' ≠ l → id' ∉ crowded s → links p' !! id' = Some d') →
  (ph' = Linked → links p' !! id = Some d) →
  overlay_inv (mkSys p' (<[l := mkLeaf id d ph']> (leaves s)) (claimed s) (crowded s)).
Proof.
  intros [I0 Ic I1 I2 I3 I4] Hl Hrefs Hsub Hnew Hc Hlinks Hlink.
  assert (Hback : ∀ l' lf, <[l := mkLeaf id d ph']> (leaves s) !! l' = Some lf →
    ∃ lf0, leaves s !! l' = Some lf0 ∧ l_session lf0 = l_session lf ∧ l_digest lf0 = l_digest lf).
  { intros l' lf. rewrite lookup_insert_Some. intros [[<- <-]|[_ Hl']]; eauto. }
  constructor; cbn [pod leaves claimed crowded].
  - intros l1 l2 lf1 lf2 (x & Hx & <- & _)%Hback (y & Hy & <- & _)%Hback. by apply (I0 l1 l2).
  - intros l' lf (x & Hx & <- & <-)%Hback. by eapply Ic.
  - intros l' id' d' ph1. rewrite Hrefs, lookup_insert_Some. intros [[<- [= <- <- <-]]|[Hne Hl']] ?; by eapply I1.
  - intros l' id' d' ph1. rewrite lookup_insert_Some. intros [[<- [= <- <- <-]]|[Hne Hl']] Hcr Hph; [by apply Hc|].
    apply Hsub. by eapply I2.
  - intros l' id' d'. rewrite lookup_insert_Some. intros [[<- [= <- <- ->]]|[Hne Hl']] Hcr; [by apply Hlink|by eapply Hlinks].
  - intros d' [Hd| ->]%Hnew; rewrite Hrefs; [by apply I4|]. destruct (decide (id ∈ crowded s)) as [Hcr|Hcr].
    + right. exists id. split; [done|]. exact (Ic _ _ Hl).
    + left. destruct (I1 _ _ _ _ Hl Hcr) as (a & Ha & _). intros He. by rewrite He in Ha.
Qed.

Lemma populate_inv s l id d :
  overlay_inv s → leaves s !! l = Some (mkLeaf id d Missed) →
  overlay_inv (mkSys (cachePopulate d (pod s)) (<[l := mkLeaf id d Prepared]> (leaves s)) (claimed s) (crowded s)).
Proof.
  intros I Hl. eapply progress_inv; [done|exact Hl|done|..]; cbn; [set_solver|set_solver|set_solver| |done].
  intros l' id' d' Hl' _ Hc. by eapply (inv_link _ I).
Qed.

Lemma bind_inv s l id d :
  overlay_inv s → leaves s !! l = Some (mkLeaf id d Prepared) →
  overlay_inv (mkSys (leafBind d id (pod s)) (<[l := mkLeaf id d Linked]> (leaves s)) (claimed s) (crowded s)).
Proof.
  intros I Hl. eapply progress_inv; [done|exact Hl|done|done|by left|..]; cbn.
  - intros _ Hc. by eapply (inv_cache _ I).
  - intros l' id' d' Hl' Hne Hc. rewrite lookup_insert_ne; [by eapply (inv_link _ I)|]. intros <-. apply Hc.
    exact (inv_one _ I l' l _ _ Hl' Hl Hne eq_refl).
  - intros _. apply lookup_insert_eq.
Qed.

Lemma refs_minute p d : refs_of (minute p) d = fmap (M := gmap bytes) Z.succ (refs_of p d).
Proof. unfold refs_of, minute. cbn. rewrite lookup_fmap. destruct (refs p !! d); cbn; [done|]. by rewrite fmap_empty. Qed.

Lemma minute_inv s : overlay_inv s → in_time s → overlay_inv (mkSys (minute (pod s)) (leaves s) (claimed s) (crowded s)).
Proof.
  intros [I0 Ic I1 I2 I3 I4] Ht. constructor; cbn [pod leaves claimed crowded]; try done.
  - intros l id d ph Hl Hc. destruct (I1 _ _ _ _ Hl Hc) as (a & Ha & _). specialize (Ht _ _ _ Hl Ha). exists (Z.succ a).
    rewrite refs_minute, lookup_fmap, Ha. split; [done|lia].
  - intros d Hc. destruct (I4 d Hc) as [Hne|?]; [left|by right]. rewrite refs_minute. by intros He%fmap_empty_inv.
Qed.

Lemma die_inv s l : overlay_inv s → overlay_inv (mkSys (pod s) (delete l (leaves s)) (claimed s) (crowded s)).
Proof.
  intros [I0 Ic I1 I2 I3 I4]. constructor; cbn [pod leaves claimed crowded]; try done.
  - intros l1 l2 lf1 lf2 [_ H1]%lookup_delete_Some [_ H2]%lookup_delete_Some. by apply (I0 l1 l2).
  - intros l' lf [_ Hl]%lookup_delete_Some. by eapply Ic.
  - intros l' id d ph [_ Hl]%lookup_delete_Some. by eapply I1.
  - intros l' id d ph [_ Hl]%lookup_delete_Some. by eapply I2.
  - intros l' id d [_ Hl]%lookup_delete_Some. by eapply I3.
Qed.

Lemma overlay_reachable s : rtc overlay_step overlay_start s → overlay_inv s.
Proof.
  revert s. apply (rtc_ind_r overlay_inv).
  - constructor; cbn; intros *; try done; set_solver.
  - intros s s' _ Hs I. destruct Hs; [by apply acquire_inv|by apply populate_inv|by apply bind_inv|by eapply cleanup_inv
                                     |by apply die_inv|by apply minute_inv].
Qed.

(** C17. The shared cache lives exactly as long as it is used, for sessions that have one leaf at a
    time on a pod.  Refs and links are named after the session, so what follows is said of a
    session that never had two leaves on the pod at once (others are left out, and
    do lose their bundle).  Whatever the order in which the leaves of a pod claim, fill, link,
    release and die, as long as none of them is older than a day: such a leaf's link leads to its
    own bundle, which stays cached until the leaf releases it, whatever the leaves of other
    sessions do; a bundle is cached only while some leaf's ref is on it, unless a session with two
    leaves at once ever claimed it; and the release of the last ref removes it, so that a later
    leaf finds nothing of it. *)
Theorem overlay_refcount s :
  rtc overlay_step overlay_start s →
  (∀ l id d ph, leaves s !! l = Some (mkLeaf id d ph) → id ∉ crowded s → ph ≠ Missed →
     d ∈ caches (pod s) ∧ is_Some (refs_of (pod s) d !! id) ∧ (ph = Linked → links (pod s) !! id = Some d))
  ∧ (∀ d, d ∈ caches (pod s) → refs_of (pod s) d ≠ ∅ ∨ ∃ id, id ∈ crowded s ∧ (id, d) ∈ claimed s)
  ∧ (∀ l id d ph, leaves s !! l = Some (mkLeaf id d ph) →
       let p' := configCleanup id d (pod s) in
       (id ∉ dom (links p')) ∧ (d ∉ caches p' ↔ (∀ id' a, id' ≠ id → refs_of (pod s) d !! id' = Some a → REF_STALE_MINUTES < a) ∨ d ∉ caches (pod s))).
Proof.
  intros Hs. apply overlay_reachable in Hs as [I0 Ic I1 I2 I3 I4]. split_and!; [|done|].
  - intros l id d ph Hl Hc Hph. split_and!; [by eapply I2| |by intros ->; eapply I3].
    destruct (I1 _ _ _ _ Hl Hc) as (a & -> & _). done.
  - intros l id d ph Hl. cbv zeta. unfold configCleanup. split; [case_decide; cbn; set_solver|].
    assert (Hempty : sweep (delete id (refs_of (pod s) d)) = ∅ ↔ ∀ id' a, id' ≠ id → refs_of (pod s) d !! id' = Some a → REF_STALE_MINUTES < a).
    { split.
      - intros He id' a Hne Ha. apply Z.nle_gt. intros Hle. assert (Hx : sweep (delete id (refs_of (pod s) d)) !! id' = Some a).
        { apply sweep_lookup. by rewrite lookup_delete_ne. }
        by rewrite He in Hx.
      - intros Hall. apply map_empty. intros id'. apply eq_None_not_Some. intros [a [[Hne Ha]%lookup_delete_Some Hle]%sweep_lookup].
        specialize (Hall id' a ltac:(done) Ha). lia. }
    rewrite <-Hempty. case_decide as Hd; cbn [caches]; [split; [by left|set_solver]|]. split; [by right|by intros [?|?]].
Qed.

(** ** One leaf, in order *)

Abbreviation exec_history := (list (event (C := script) (R := exec_reply))).

Definition answered (h : exec_history) (s : script) (out : bytes) : Prop :=
  ev (R := exec_reply) s (Ok (mkExec out 0 false)) ∈ h.

(** The ref is claimed first, and the leaf is linked only to a bundle that was there under that
    ref, or that was sent and put in place. *)
Lemma overlay_order digest sessionId base64 tr o tr1 c r tr2 :
  runs (overlayConfig digest sessionId base64) tr o → tr = tr1 ++ ev c r :: tr2 →
  match c with
  | Acquire d id => tr1 = [] ∧ d = digest ∧ id = sessionId
  | Populate d text => d = digest ∧ text = base64 ∧ ∃ out, answered tr1 (Acquire digest sessionId) out ∧ trim out ≠ bytes_of "hit"
  | Bind d id => d = digest ∧ id = sessionId ∧ ∃ out, answered tr1 (Acquire digest sessionId) out
                 ∧ (trim out = bytes_of "hit" ∨ ∃ out', answered tr1 (Populate digest base64) out')
  end.
Proof.
  intros Hr Htr. unfold overlayConfig in Hr. destruct (configCacheDir digest) as [dir|e]; [|apply runs_inv in Hr as [-> _]; by destruct tr1].
  destruct (assertSafeSessionId sessionId) as [id|e]; [|apply runs_inv in Hr as [-> _]; by destruct tr1].
  match type of Hr with runs ?p _ _ => assert (Hs : spec (fun h c => match c with
    | Acquire d id => h = [] ∧ d = digest ∧ id = sessionId
    | Populate d text => d = digest ∧ text = base64 ∧ ∃ out, answered h (Acquire digest sessionId) out ∧ trim out ≠ bytes_of "hit"
    | Bind d id => d = digest ∧ id = sessionId ∧ ∃ out, answered h (Acquire digest sessionId) out
                   ∧ (trim out = bytes_of "hit" ∨ ∃ out', answered h (Populate digest base64) out')
    end) (fun _ _ => True) (fun _ _ => True) [] p) end.
  { apply spec_bind. split; [done|]. intros [[out code []]|e]; cbn; [done| |done]. destruct (Z.eqb_spec code 0) as [->|]; cbn; [|done].
    set (h := [ev _ _]). assert (Ha : answered h (Acquire digest sessionId) out) by (unfold h, answered; constructor). clearbody h.
    case_bool_decide as Hhit; cbn; (split; [by eauto 10|]); intros [[out2 code2 []]|e2]; cbn; try done;
      destruct (Z.eqb_spec code2 0) as [->|]; cbn; try done.
    split; [|intros [[out3 code3 []]|e3]; cbn; try done; by destruct (code3 =? 0)].
    split_and!; [done..|]. exists out. split; [unfold answered in *; set_solver|]. right. exists out2. unfold answered. set_solver. }
  destruct (spec_runs _ _ _ _ _ _ _ Hs Hr) as [Hc _]. exact (Hc _ _ _ _ Htr).
Qed.

(** Every session id of a leaf names a ref. *)
Lemma session_ref_safe s : assertSafeSessionId (toSessionId s) = Ok (toSessionId s).
Proof.
  destruct (toSessionId_is_valid s) as (Hall & (c & Hh & Hc) & _). unfold assertSafeSessionId.
  assert (Hf : forallb id_char (toSessionId s) = true).
  { apply forallb_forall. intros x Hx%list_elem_of_In. rewrite Forall_forall in Hall. by apply Hall. }
  rewrite Hf. destruct (toSessionId s) as [|x l] eqn:E; [done|]. injection Hh as ->.
  rewrite !bool_decide_eq_false_2; [done|..]; intros [= -> _]; done.
Qed.

(** A leaf that runs alone to the end of its overlay holds a ref and finds its bundle behind its
    link. *)
Lemma overlay_binds digest sessionId base64 p :
  valid_digest digest = true → assertSafeSessionId sessionId = Ok sessionId →
  let '(o, p') := prun pod_exec (overlayConfig digest sessionId base64) p in
  o = Ok (leafConfigDir sessionId ++ bytes_of "/skills", leafConfigDir sessionId ++ bytes_of "/memory")
  ∧ links p' !! sessionId = Some digest ∧ digest ∈ caches p' ∧ refs_of p' digest !! sessionId = Some 0.
Proof.
  intros Hd Hs. unfold overlayConfig, configCacheDir, assertValidDigest. rewrite Hd, Hs. cbn [result_bind].
  rewrite prun_bind. unfold run at 1. cbn [prun pod_exec cacheAcquire]. case_bool_decide as Hc; cbn -[leafConfigDir];
    (split_and!; [done|apply lookup_insert_eq|set_solver|]); unfold refs_of; cbn; rewrite lookup_insert_eq; cbn; apply lookup_insert_eq.
Qed.

(** ** Witnesses *)

Definition ex_digest : bytes := bytes_of "sha256:" ++ replicate 64 "0"%char.

Definition ex_fs (c : fs_call) (u : unit) : fs_reply c * unit :=
  match c return fs_reply c * unit with
  | ExistsSync _ => (false, u)
  | Mkdtemp p => (Ok (p ++ bytes_of "x1"), u)
  | _ => (Ok tt, u)
  end.

Lemma unpack_contained_witness :
  let tr := (ptrace ex_fs (unpackBundle ex_entries ex_digest DEFAULT_CONFIG_BASE_DIR) tt).1 in
  installed (join DEFAULT_CONFIG_BASE_DIR (digestDirName ex_digest)) tr.
Proof.
  intros tr. pose proof (ptrace_runs ex_fs (unpackBundle ex_entries ex_digest DEFAULT_CONFIG_BASE_DIR) tt) as Hr.
  destruct (unpack_contained _ _ _ _ _ Hr) as [_ Ho].
  destruct (ptrace ex_fs (unpackBundle ex_entries ex_digest DEFAULT_CONFIG_BASE_DIR) tt).2 as [config|e] eqn:E; [|vm_compute in E; discriminate E].
  destruct (Ho config eq_refl) as (_ & Hi & _). exact Hi.
Defined.

(** An entry that climbs out: nothing is written, and nothing is installed. *)
Example escape_refused :
  projT1 <$> (ptrace ex_fs (unpackBundle [mkEntry (bytes_of "skills/../../../evil") [] None] ex_digest DEFAULT_CONFIG_BASE_DIR) tt).1
  = let root := join DEFAULT_CONFIG_BASE_DIR (digestDirName ex_digest) in
    [ExistsSync root; MkdirP DEFAULT_CONFIG_BASE_DIR; Mkdtemp (bytes_of "/tmp/sh-config/.tmp-");
     RmRf (bytes_of "/tmp/sh-config/.tmp-x1"); ExistsSync root].
Proof. vm_compute. reflexivity. Qed.

Definition ex_id : bytes := bytes_of "a".
Definition ex_leaf (ph : progress) : Leaf := mkLeaf ex_id ex_digest ph.

Definition ex_claimed : Sys :=
  mkSys (cacheAcquire ex_digest ex_id (pod overlay_start)).2 (<[0%nat := ex_leaf Missed]> ∅) ({[(ex_id, ex_digest)]} ∪ ∅) ∅.
Definition ex_filled : Sys :=
  mkSys (cachePopulate ex_digest (pod ex_claimed)) (<[0%nat := ex_leaf Prepared]> (leaves ex_claimed)) (claimed ex_claimed) ∅.

Lemma ex_filled_reachable : rtc overlay_step overlay_start ex_filled.
Proof.
  eapply rtc_l; [apply (step_acquire overlay_start 0 ex_id ex_digest false (pod ex_claimed)); reflexivity|].
  rewrite decide_False by (by intros (? & ? & ? & ?)).
  eapply rtc_l; [apply (step_populate ex_claimed 0 ex_id ex_digest); reflexivity|]. apply rtc_refl.
Qed.

Lemma overlay_refcount_witness :
  rtc overlay_step overlay_start ex_filled ∧ ex_digest ∈ caches (pod ex_filled)
  ∧ ex_digest ∉ caches (configCleanup ex_id ex_digest (pod ex_filled)).
Proof.
  pose proof ex_filled_reachable as Hr.
  destruct (overlay_refcount ex_filled Hr) as (H1 & _ & H3). split_and!; [exact Hr| |].
  - apply (H1 0%nat ex_id ex_digest Prepared); [reflexivity|apply not_elem_of_empty|discriminate].
  - apply (H3 0%nat ex_id ex_digest Prepared); [reflexivity|]. left. intros id' x Hne Hx. exfalso.
    assert (Hrefs : refs_of (pod ex_filled) ex_digest = {[ex_id := 0]}) by (apply (bool_decide_unpack _); vm_compute; reflexivity).
    rewrite Hrefs in Hx. apply lookup_singleton_Some in Hx as [Heq _]. by apply Hne.
Defined.

(** ** What the code does that it does not mean to *)

(** The ref is the session's, not the leaf's.  A leaf dispatched again under its session while the
    first still runs on the pod finds the bundle and is told so; when the first one releases,
    the ref goes, and the cache with it, under the second. *)
Lemma second_leaf_loses_cache :
  ∃ s, rtc overlay_step overlay_start s ∧ leaves s !! 1%nat = Some (ex_leaf Prepared)
    ∧ (ex_digest ∉ caches (pod s)) ∧ crowded s = {[ex_id]}.
Proof.
  eexists. split.
  { etrans; [apply ex_filled_reachable|].
    eapply rtc_l; [apply (step_acquire ex_filled 1 ex_id ex_digest true (cacheAcquire ex_digest ex_id (pod ex_filled)).2)|].
    - reflexivity.
    - vm_compute. reflexivity.
    - eapply rtc_l; [apply (step_cleanup _ 0 ex_id ex_digest Prepared); reflexivity|apply rtc_refl]. }
  split_and!; [reflexivity| |].
  - apply (bool_decide_unpack (ex_digest ∉ _)). vm_compute. reflexivity.
  - cbn. rewrite decide_True; [apply (bool_decide_unpack _); vm_compute; reflexivity|].
    exists 0%nat, (ex_leaf Prepared). by split.
Qed.
