(* ===== verification/Regex.v ===== *)
(** * Regular expressions

    The part of JavaScript's regular expressions the sources use, on UTF-8 text: classes of
    characters, alternatives, word boundaries and counted repetitions, greedy or lazy.  [ends]
    lists where a match from a position can end, in the order the backtracking matcher tries
    them, so the first is the one it takes; [rmatch] is the declarative meaning, and the two
    agree ([ends_rmatch]). *)

From S2P Require Import Prelude.

Local Open Scope nat_scope.

(** The character before the position, and the text after it. *)
Abbreviation position := (option ascii * bytes)%type.

Inductive regex :=
| REps
| RChar (f : ascii → bool)
| RSeq (a b : regex)
| RAlt (a b : regex)
| RWordB                                                     (* [\b] *)
| RRep (greedy : bool) (a : regex) (min : nat) (max : option nat).

(** [\w] *)
Definition word_char (c : ascii) : bool :=
  let n := nat_of_ascii c in
  ((48 <=? n) && (n <=? 57) || (65 <=? n) && (n <=? 90) || (97 <=? n) && (n <=? 122) || (n =? 95))%nat.

Definition at_boundary (st : position) : bool :=
  let before := match st.1 with Some c => word_char c | None => false end in
  let after := match st.2 with c :: _ => word_char c | [] => false end in
  xorb before after.

(** A repetition, each turn of which takes something: as many turns as there are characters. *)
Fixpoint rep (greedy : bool) (f : position → list position) (fuel min : nat) (max : option nat) (st : position) : list position :=
  let stop := match min with O => [st] | S _ => [] end in
  match fuel, max with
  | O, _ | _, Some O => stop
  | S fuel, _ =>
      let more := flat_map (rep greedy f fuel (pred min) (pred <$> max))
                    (List.filter (fun st' => (length st'.2 <? length st.2)%nat) (f st)) in
      if greedy then more ++ stop else stop ++ more
  end.

Fixpoint ends (r : regex) (st : position) : list position :=
  match r with
  | REps => [st]
  | RChar f => match st.2 with c :: s => if f c then [(Some c, s)] else [] | [] => [] end
  | RSeq a b => flat_map (ends b) (ends a st)
  | RAlt a b => ends a st ++ ends b st
  | RWordB => if at_boundary st then [st] else []
  | RRep greedy a min max => rep greedy (ends a) (length st.2) min max st
  end.

(** [re.exec(s)]: the start of the first match, and its text. *)
Fixpoint exec_from (r : regex) (prev : option ascii) (s : bytes) : option (nat * bytes) :=
  match ends r (prev, s) with
  | st :: _ => Some (O, take (length s - length st.2) s)
  | [] => match s with
          | c :: s' => (fun m => (S m.1, m.2)) <$> exec_from r (Some c) s'
          | [] => None
          end
  end.

Definition exec (r : regex) (s : bytes) : option (nat * bytes) := exec_from r None s.
Definition test (r : regex) (s : bytes) : bool := bool_decide (is_Some (exec r s)).

(** ** Meaning *)

Inductive rmatch : regex → position → position → Prop :=
| m_eps st : rmatch REps st st
| m_char f c p s : f c = true → rmatch (RChar f) (p, c :: s) (Some c, s)
| m_seq a b st1 st2 st3 : rmatch a st1 st2 → rmatch b st2 st3 → rmatch (RSeq a b) st1 st3
| m_left a b st st' : rmatch a st st' → rmatch (RAlt a b) st st'
| m_right a b st st' : rmatch b st st' → rmatch (RAlt a b) st st'
| m_boundary st : at_boundary st = true → rmatch RWordB st st
| m_stop g a max st : rmatch (RRep g a 0 max) st st
| m_more g a min max st1 st2 st3 :
    max ≠ Some O → rmatch a st1 st2 → rmatch (RRep g a (pred min) (pred <$> max)) st2 st3 → rmatch (RRep g a min max) st1 st3.

(** A match of [r] takes at least one character. *)
Fixpoint consumes (r : regex) : bool :=
  match r with
  | REps | RWordB => false
  | RChar _ => true
  | RSeq a b => consumes a || consumes b
  | RAlt a b => consumes a && consumes b
  | RRep _ a min _ => match min with O => false | S _ => consumes a end
  end.

(** Every repetition is of something that takes a character. *)
Fixpoint wf (r : regex) : bool :=
  match r with
  | REps | RWordB | RChar _ => true
  | RSeq a b | RAlt a b => wf a && wf b
  | RRep _ a _ _ => wf a && consumes a
  end.

Lemma rmatch_length r st st' :
  rmatch r st st' → length st'.2 ≤ length st.2 ∧ (consumes r = true → length st'.2 < length st.2).
Proof.
  induction 1 as [st|f c p s Hf|a b st1 st2 st3 _ [IH1 IH1'] _ [IH2 IH2']|a b st st' _ [IH IH']|a b st st' _ [IH IH']|st Hb
                 |g a max st|g a min max st1 st2 st3 Hmax _ [IH1 IH1'] _ [IH2 IH2']]; cbn [consumes]; simpl; try (split; [lia|done || lia]).
  - split; [lia|]. intros [Hc|Hc]%orb_prop; [specialize (IH1' Hc)|specialize (IH2' Hc)]; lia.
  - split; [lia|]. intros [Hc _]%andb_prop. by apply IH'.
  - split; [lia|]. intros [_ Hc]%andb_prop. by apply IH'.
  - split; [lia|]. destruct min; [done|]. intros Hc. specialize (IH1' Hc). lia.
Qed.

Lemma rep_rmatch g a f fuel min max st st' :
  (∀ st st', st' ∈ f st ↔ rmatch a st st') → consumes a = true → length st.2 ≤ fuel →
  st' ∈ rep g f fuel min max st ↔ rmatch (RRep g a min max) st st'.
Proof.
  intros Hf Hc. revert min max st. induction fuel as [|fuel IH]; intros min max st Hl.
  - assert (Hstop : st' ∈ rep g f 0 min max st ↔ min = O ∧ st' = st) by (cbn; destruct min; set_solver).
    rewrite Hstop. split; [intros [-> ->]; constructor|]. inversion 1 as [| | | | | |? ? ? ? |? ? ? ? ? st2 ? Hmax Ha _]; subst; [done|].
    apply rmatch_length in Ha as [_ Ha]. specialize (Ha Hc). lia.
  - assert (Hrep : st' ∈ rep g f (S fuel) min max st ↔
      (min = O ∧ st' = st) ∨ (max ≠ Some O ∧ ∃ st2, st2 ∈ f st ∧ length st2.2 < length st.2 ∧ st' ∈ rep g f fuel (pred min) (pred <$> max) st2)).
    { set (more := flat_map (rep g f fuel (pred min) (pred <$> max)) (List.filter (fun st' => (length st'.2 <? length st.2)) (f st))).
      assert (Hmore : st' ∈ more ↔ ∃ st2, st2 ∈ f st ∧ length st2.2 < length st.2 ∧ st' ∈ rep g f fuel (pred min) (pred <$> max) st2).
      { unfold more. rewrite list_elem_of_In, in_flat_map. split.
        - intros (st2 & [Hin%list_elem_of_In Hlt%Nat.ltb_lt]%filter_In & H%list_elem_of_In). by exists st2.
        - intros (st2 & Hin%list_elem_of_In & Hlt%Nat.ltb_lt & H%list_elem_of_In). exists st2. by rewrite filter_In. }
      rewrite <-Hmore. cbn [rep]. fold more. destruct max as [[|m]|]; destruct g, min; set_solver. }
    rewrite Hrep. split.
    + intros [[-> ->]|(Hmax & st2 & Hin%Hf & Hlt & Hr)]; [constructor|]. econstructor; [done|exact Hin|]. apply IH; [lia|done].
    + inversion 1 as [| | | | | |? ? ? ? |? ? ? ? ? st2 ? Hmax Ha Hr]; subst; [by left|]. right. split; [done|]. exists st2.
      pose proof (proj2 (rmatch_length _ _ _ Ha) Hc). split_and!; [by apply Hf|done|]. apply IH; [lia|done].
Qed.

(** The matcher finds exactly the matches there are. *)
Lemma ends_rmatch r st st' : wf r = true → st' ∈ ends r st ↔ rmatch r st st'.
Proof.
  revert st st'. induction r as [|f|a IHa b IHb|a IHa b IHb| |g a IHa min max]; intros st st' Hwf; cbn [ends wf] in *.
  - rewrite list_elem_of_singleton. split; [intros ->; constructor|by inversion 1].
  - destruct st as [p [|c s]]; cbn; [split; [set_solver|by inversion 1]|]. destruct (f c) eqn:E.
    + rewrite list_elem_of_singleton. split; [intros ->; by constructor|by inversion 1].
    + split; [set_solver|]. inversion 1; subst; congruence.
  - apply andb_prop in Hwf as [Ha Hb]. rewrite list_elem_of_In, in_flat_map. split.
    + intros (st2 & H1%list_elem_of_In & H2%list_elem_of_In). econstructor; [by apply IHa|by apply IHb].
    + inversion 1 as [| |? ? ? st2| | | | |]; subst. exists st2. rewrite <-!list_elem_of_In. split; [by apply IHa|by apply IHb].
  - apply andb_prop in Hwf as [Ha Hb]. rewrite elem_of_app, IHa, IHb by done. split; [intros [?|?]; [by constructor|by apply m_right]|].
    inversion 1; subst; by auto.
  - destruct (at_boundary st) eqn:E; [rewrite list_elem_of_singleton|]; split; try (by intros ->; constructor); try set_solver; inversion 1; subst; congruence.
  - apply andb_prop in Hwf as [Ha Hc]. apply rep_rmatch; [intros; by apply IHa|done|done].
Qed.

(** The character before a position of a text. *)
Definition before_char (prev : option ascii) (pre : bytes) : option ascii := match last pre with Some c => Some c | None => prev end.

Lemma exec_from_spec r prev s :
  wf r = true →
  is_Some (exec_from r prev s) ↔ ∃ pre post st', s = pre ++ post ∧ rmatch r (before_char prev pre, post) st'.
Proof.
  intros Hwf. revert prev. induction s as [|c s IH]; intros prev; cbn [exec_from].
  - destruct (ends r (prev, [])) as [|st l] eqn:E; split; try done.
    + intros (pre & post & st' & Heq & Hm). symmetry in Heq. apply app_eq_nil in Heq as [-> ->].
      apply ends_rmatch in Hm; [|done]. cbn in Hm. rewrite E in Hm. set_solver.
    + intros _. exists [], [], st. split; [done|]. apply ends_rmatch; [done|]. cbn. rewrite E. constructor.
  - destruct (ends r (prev, c :: s)) as [|st l] eqn:E.
    + rewrite fmap_is_Some, IH. split.
      * intros (pre & post & st' & -> & Hm). exists (c :: pre), post, st'. split; [done|].
        unfold before_char in *. rewrite last_cons. by destruct (last pre).
      * intros ([|c' pre] & post & st' & Heq & Hm).
        -- cbn in Heq. subst post. apply ends_rmatch in Hm; [|done]. cbn in Hm. rewrite E in Hm. set_solver.
        -- injection Heq as <- ->. exists pre, post, st'. split; [done|]. unfold before_char in *. rewrite last_cons in Hm. by destruct (last pre).
    + split; [|done]. intros _. exists [], (c :: s), st. split; [done|]. apply ends_rmatch; [done|]. cbn. rewrite E. constructor.
Qed.

(** Somewhere in the text, the expression matches. *)
Definition occurs (r : regex) (s : bytes) : Prop :=
  ∃ pre post st', s = pre ++ post ∧ rmatch r (last pre, post) st'.

Lemma test_occurs r s : wf r = true → test r s = true ↔ occurs r s.
Proof.
  intros Hwf. unfold test, exec, occurs. rewrite bool_decide_eq_true, exec_from_spec by done. unfold before_char.
  split; intros (pre & post & st' & -> & Hm); exists pre, post, st'; (split; [done|]); by destruct (last pre).
Qed.

(** ** Building expressions *)

Definition among (s : string) (c : ascii) : bool := bool_decide (c ∈ bytes_of s).
Definition between (lo hi : nat) (c : ascii) : bool := ((lo <=? nat_of_ascii c) && (nat_of_ascii c <=? hi)).
Definition digit09 : ascii → bool := between 48 57.
Definition upperAZ : ascii → bool := between 65 90.
Definition lowerAZ : ascii → bool := between 97 122.
Definition alnum_char (c : ascii) : bool := digit09 c || upperAZ c || lowerAZ c.

Definition fold_case (c : ascii) : ascii := if upperAZ c then ascii_of_nat (nat_of_ascii c + 32) else c.

(** A word, and one matched whatever its case. *)
Definition lit (s : string) : regex := foldr (fun c r => RSeq (RChar (fun x => bool_decide (x = c))) r) REps (bytes_of s).
Definition liti (s : string) : regex :=
  foldr (fun c r => RSeq (RChar (fun x => bool_decide (fold_case x = fold_case c))) r) REps (bytes_of s).
Definition opt (r : regex) : regex := RRep true r 0 (Some 1).
Definition many (f : ascii → bool) (min : nat) : regex := RRep true (RChar f) min None.
Definition alts (rs : list regex) : regex := match rs with [] => RChar (fun _ => false) | r :: rs => foldl RAlt r rs end.
Definition seqs (rs : list regex) : regex := foldr RSeq REps rs.
