(* ===== verification/Promote.v ===== *)
(** * Building a bundle

    Models [packages/config-bundle/src/resolve.ts] ([resolveSkills], on what the scan of the
    directories found), [classify.ts], [secret-scan.ts], [notes.ts], the checks of [preflight.ts]
    that need no parser, and [buildBundle] of [build.ts], on the files it reads.  The text of the
    lockfile and the binaries named in it are arguments: nothing here depends on them.  Strings
    are UTF-8 bytes. *)

From S2P Require Import Prelude Base64 Prog StableSort Tar Overlay Regex.

Local Open Scope Z_scope.

(** ** Skills *)

Inductive SkillScope := project | user | plugin.

Definition SCOPE_RANK (s : SkillScope) : nat := match s with project => 0 | user => 1 | plugin => 2 end.

(** A skill with its files, each with its content. *)
Record ResolvedSkill := mkSkill { sk_name : bytes; sk_dir : bytes; sk_scope : SkillScope; sk_files : list (bytes * bytes) }.

(** What the scans of the roots found: each skill and the canonical path of its directory. *)
Record Roots := mkRoots {
  projectSkills : list (ResolvedSkill * bytes);
  userSkills : list (ResolvedSkill * bytes);
  pluginSkills : list (ResolvedSkill * bytes);
}.

Definition load (scope : SkillScope) (s : ResolvedSkill * bytes) : ResolvedSkill * bytes :=
  (mkSkill (sk_name s.1) (sk_dir s.1) scope (sk_files s.1), s.2).

Definition found (r : Roots) : list (ResolvedSkill * bytes) :=
  (load project <$> projectSkills r) ++ (load user <$> userSkills r) ++ (load plugin <$> pluginSkills r).

Record Best := mkBest { best : list (bytes * ResolvedSkill); byCanonical : list (bytes * ResolvedSkill) }.

Definition better (a b : ResolvedSkill) : bool := (SCOPE_RANK (sk_scope a) <? SCOPE_RANK (sk_scope b))%nat.

Definition resolve_step (b : Best) (s : ResolvedSkill * bytes) : Best :=
  let '(skill, canonical) := s in
  match map_get canonical (byCanonical b) with
  | Some prevCanonical =>
      if better skill prevCanonical then
        mkBest (map_set (sk_name skill) skill (map_delete (sk_name prevCanonical) (best b))) (map_set canonical skill (byCanonical b))
      else b
  | None =>
      if match map_get (sk_name skill) (best b) with None => true | Some prev => better skill prev end
      then mkBest (map_set (sk_name skill) skill (best b)) (map_set canonical skill (byCanonical b))
      else b
  end.

Definition name_le (a b : ResolvedSkill) : bool := bytes_le (sk_name a) (sk_name b).

#[export] Instance name_le_order : TotalPreorder name_le := by_key sk_name.

Definition resolveSkills (r : Roots) : list ResolvedSkill :=
  sort name_le ((foldl resolve_step (mkBest [] []) (found r)).(best).*2).

(** ** Which skills travel *)

Definition DEFAULT_DENY_LIST : list bytes :=
  bytes_of <$> ["docx"; "pdf"; "pptx"; "xlsx"; "artifact-design"; "artifact-diagramming"; "fewer-permission-prompts";
                "keybindings-help"; "statusline-setup"; "update-config"].
Definition SUBAGENT_DEPENDENT : list bytes := bytes_of <$> ["dispatching-parallel-agents"; "subagent-driven-development"].
Definition INTERACTION_DEPENDENT : list bytes := bytes_of <$> ["brainstorming"; "receiving-code-review"].

Inductive PromoteMode := unattended | attended.
Inductive DropReason := no_harness_equivalent | needs_subagent | user_denied.

Record Classification := mkClass {
  travels : list ResolvedSkill;
  dropped : list (bytes * DropReason);
  interactionDependent : list bytes;
}.

Definition drop_reason (userDenyList : list bytes) (name : bytes) : option DropReason :=
  if bool_decide (name ∈ userDenyList) then Some user_denied
  else if bool_decide (name ∈ DEFAULT_DENY_LIST) then Some no_harness_equivalent
  else if bool_decide (name ∈ SUBAGENT_DEPENDENT) then Some needs_subagent
  else None.

Fixpoint classify (deny : list bytes) (skills : list ResolvedSkill) : list ResolvedSkill * list (bytes * DropReason) :=
  match skills with
  | [] => ([], [])
  | s :: skills =>
      let '(t, d) := classify deny skills in
      match drop_reason deny (sk_name s) with Some why => (t, (sk_name s, why) :: d) | None => (s :: t, d) end
  end.

Definition classifySkills (skills : list ResolvedSkill) (mode : PromoteMode) (userDenyList : list bytes) : Classification :=
  let '(t, d) := classify userDenyList skills in
  mkClass t d match mode with
              | unattended => List.filter (fun n => bool_decide (n ∈ INTERACTION_DEPENDENT)) (sk_name <$> t)
              | attended => []
              end.

(** ** Secrets *)

Definition raw (l : list nat) : regex := foldr (fun n r => RSeq (RChar (between n n)) r) REps l.

(** [\s] *)
Definition space : regex :=
  alts [RChar (fun c => between 9 13 c || between 32 32 c); raw [194; 160]%nat; raw [225; 154; 128]%nat;
        seqs [raw [226; 128]%nat; RChar (fun c => between 128 138 c || between 168 169 c || between 175 175 c)];
        raw [226; 129; 159]%nat; raw [227; 128; 128]%nat; raw [239; 187; 191]%nat].

Definition spaces (min : nat) : regex := RRep true space min None.

Definition BLOCKING_RULES : list (string * regex) :=
  [("aws-access-key-id", seqs [RWordB; alts [lit "AKIA"; lit "ASIA"]; RRep true (RChar (fun c => digit09 c || upperAZ c)) 16 (Some 16%nat); RWordB]);
   ("private-key-block", seqs [lit "-----BEGIN "; opt (seqs [many (fun c => upperAZ c || among " " c) 1; lit " "]); lit "PRIVATE KEY-----"]);
   ("github-token", seqs [RWordB; lit "gh"; RChar (among "pousr"); lit "_"; many alnum_char 36; RWordB]);
   ("openai-style-key", seqs [RWordB; lit "sk-"; many (fun c => alnum_char c || among "_-" c) 20; RWordB]);
   ("slack-token", seqs [RWordB; lit "xox"; RChar (among "abposr"); lit "-"; many (fun c => alnum_char c || among "-" c) 10; RWordB])].

Definition value_char (c : ascii) : bool := alnum_char c || among "._~+/-" c.
Definition quote_char (c : ascii) : bool := between 34 34 c || between 39 39 c.

Definition WARNING_RULES : list (string * regex) :=
  [("bearer-token", seqs [RWordB; lit "Bearer"; spaces 1; many value_char 20; many (among "=") 0]);
   ("assigned-secret",
      seqs [RWordB; alts [seqs [liti "api"; opt (RChar (among "_-")); liti "key"]; liti "secret"; liti "password"; liti "passwd"; liti "token"];
            RWordB; spaces 0; RChar (among ":="); spaces 0; opt (RChar quote_char); many value_char 12])].

(** A character of a class that leaves out a few of ASCII's: one byte, or the bytes of one. *)
Definition code_unit (f : ascii → bool) : regex :=
  alts [RChar (fun c => between 0 127 c && f c); seqs [RChar (between 192 223); RChar (between 128 191)];
        seqs [RChar (between 224 239); RChar (between 128 191); RChar (between 128 191)]].

Definition PLACEHOLDER : regex :=
  alts [seqs [liti "your"; opt (RChar (among "_-"))]; liti "example"; liti "placeholder";
        seqs [liti "change"; opt (RChar (among "_-")); liti "me"]; seqs [liti "xx"; RRep true (liti "x") 1 None]; liti "dummy"; liti "fake";
        seqs [lit "<"; RRep true (code_unit (fun c => negb (among ">" c) && negb (between 10 10 c))) 1 (Some 200%nat); lit ">"];
        seqs [RWordB; liti "REPLACE"]; seqs [RWordB; liti "TODO"]; lit "..."].

Inductive SecretSeverity := blocking | warning.
Record SecretFinding := mkSecret { sf_path : bytes; sf_line : Z; sf_rule : string; sf_severity : SecretSeverity }.

Definition looksBinary (b : bytes) : bool := existsb (fun c => bool_decide (c = NUL)) (take 4096 b).

Definition scan_line (p : bytes) (i : nat) (line : bytes) : option SecretFinding :=
  match List.find (fun r => test r.2 line) BLOCKING_RULES with
  | Some r => Some (mkSecret p (Z.of_nat i + 1) r.1 blocking)
  | None =>
      match List.find (fun r => test r.2 line) WARNING_RULES with
      | Some r =>
          let matched := match exec r.2 line with Some m => m.2 | None => [] end in
          if test PLACEHOLDER matched then None else Some (mkSecret p (Z.of_nat i + 1) r.1 warning)
      | None => None
      end
  end.

Definition lines_of (e : TarEntry) : list bytes := split_char "010" (to_utf8 (content e)).

Definition scan_entry (e : TarEntry) : list SecretFinding :=
  if looksBinary (content e) then [] else omap (fun x => x) (imap (scan_line (path e)) (lines_of e)).

Definition scanEntriesForSecrets (entries : list TarEntry) : list SecretFinding := flat_map scan_entry entries.

Definition is_blocking (f : SecretFinding) : bool := match sf_severity f with blocking => true | warning => false end.
Definition blockingSecrets (fs : list SecretFinding) : list SecretFinding := List.filter is_blocking fs.

(** ** Notes *)

Definition join_lines (l : list bytes) : bytes := join_char "010" l.
Definition QUOTE : bytes := [ascii_of_nat 34].

Definition toolNameMappingNote : bytes := join_lines (bytes_of <$>
  ["## Tool names in skills"; "";
   "Skill instructions in this session were authored for Claude Code and may name its tools.";
   "The equivalents available here are:"; "";
   "- `Bash` → `bash`"; "- `Read` → `read`"; "- `Write` → `write`"; "- `Edit` → `edit`"; "- `Grep` → `grep`";
   "- `Glob` → `find`"; "- `LS` → `ls`"; "";
   "Treat a skill naming the left-hand tool as naming the right-hand one. Tools with no";
   "equivalent here (subagent dispatch, artifacts, document generation) are unavailable: if a";
   "skill requires one, say so rather than simulating it."]).

Definition skillsRootNote : bytes := join_lines
  [bytes_of "## Where skill files live"; [];
   bytes_of "Elsewhere in this prompt, look for lines starting " ++ QUOTE ++ bytes_of "Skill files:" ++ QUOTE ++ bytes_of " and "
     ++ QUOTE ++ bytes_of "Memory files:" ++ QUOTE ++ bytes_of " —";
   bytes_of "those name the absolute sandbox directories for this session."; [];
   bytes_of "When a skill instructs you to read one of its own files by a path relative to the skill,";
   bytes_of "resolve that path against the skill's own subdirectory under the " ++ QUOTE ++ bytes_of "Skill files:" ++ QUOTE ++ bytes_of " directory";
   bytes_of "— not against the current working directory."; [];
   bytes_of "If no such lines appear, the promoted skill and memory files are NOT reachable in this";
   bytes_of "session. Say so plainly rather than guessing a path or reporting a file as missing."].

(** ** Preflight *)

Inductive severity := sev_error | sev_warn | sev_info.
Record PreflightFinding := mkFinding { pf_severity : severity; pf_code : string; pf_message : bytes }.

(** [l.join(', ')] *)
Fixpoint commas (l : list bytes) : bytes :=
  match l with
  | [] => []
  | [x] => x
  | x :: l' => x ++ bytes_of ", " ++ commas l'
  end.

Definition quoted (s : bytes) : bytes := bytes_of "'" ++ s ++ bytes_of "'".

Definition checkBinaries (detected : list bytes) (inventory : option (list bytes)) : list PreflightFinding :=
  match inventory with
  | None =>
      match detected with
      | [] => []
      | _ => [mkFinding sev_warn "inventory_unavailable"
                (bytes_of "no sandbox inventory available; " ++ JsNumber.dec (Z.of_nat (length detected))
                 ++ bytes_of " detected binary/binaries (" ++ commas detected ++ bytes_of ") could not be verified")]
      end
  | Some have =>
      (fun b => mkFinding sev_warn "missing_binary"
                  (bytes_of "binary " ++ quoted b ++ bytes_of " is used by a skill but is not in the sandbox image inventory"))
      <$> List.filter (fun b => negb (bool_decide (b ∈ have))) detected
  end.

Definition checkEntry (entry : bytes) (promptNames : list bytes) : list PreflightFinding :=
  if bool_decide (entry ∈ promptNames) then []
  else [mkFinding sev_error "unknown_entry"
          (bytes_of "entry prompt " ++ quoted entry ++ bytes_of " is not in the bundle (available: "
           ++ match commas promptNames with [] => bytes_of "none" | l => l end ++ bytes_of ")")].

Definition checkInteraction (c : Classification) : list PreflightFinding :=
  (fun name => mkFinding sev_warn "interaction_dependent"
     (bytes_of "skill " ++ quoted name ++ bytes_of " works by asking questions and waiting; unattended it will invent "
      ++ bytes_of "the answers. Use --mode attended, or exclude it.")) <$> interactionDependent c.

Definition checkNamespacedPrompts (dirs : list bytes) : list PreflightFinding :=
  (fun name => mkFinding sev_warn "namespaced_prompt_skipped"
     (bytes_of "prompts/" ++ name ++ bytes_of "/ holds namespaced command(s) (Claude Code's '/" ++ name ++ bytes_of ":*'); "
      ++ bytes_of "only prompts directly in the prompts directory are promoted, so these are not included")) <$> dirs.

Definition checkExcludedPrompts (entry : bytes) (requested actuallyExcluded : list bytes) : list PreflightFinding :=
  (fun name =>
     if bool_decide (name = entry) then
       mkFinding sev_error "entry_excluded"
         (bytes_of "--exclude-prompt " ++ quoted name ++ bytes_of " names the entry prompt, so the bundle would carry no entry; "
          ++ bytes_of "choose a different entry or drop the exclusion")
     else if bool_decide (name ∈ actuallyExcluded) then
       mkFinding sev_warn "prompt_excluded"
         (bytes_of "prompt " ++ quoted name ++ bytes_of " was excluded by --exclude-prompt and is not in the bundle")
     else
       mkFinding sev_warn "prompt_exclude_unmatched"
         (bytes_of "--exclude-prompt " ++ quoted name ++ bytes_of " matched no prompt, so nothing was excluded for it "
          ++ bytes_of "(check the spelling: an unmatched exclusion ships the prompt you meant to omit)")) <$> requested.

Definition hasErrors (fs : list PreflightFinding) : bool := existsb (fun f => match pf_severity f with sev_error => true | _ => false end) fs.

(** ** The bundle *)

(** What the builder is given, its files read. *)
Record BuildInput := mkBuild {
  bi_roots : Roots;
  bi_mode : PromoteMode;
  bi_userDenyList : list bytes;
  bi_contextFiles : list (bytes * bytes);              (* base name and text *)
  bi_memoryIndex : option bytes;                       (* [MEMORY.md] *)
  bi_memory : list (bytes * bytes);                    (* the other memory files, sorted *)
  bi_prompts : list (bytes * bytes);                   (* the prompts' files, sorted *)
  bi_excludePrompts : list bytes;
  bi_entry : bytes;
  bi_extraPromptFragments : list bytes;
}.

Definition skill_entries (s : ResolvedSkill) : list TarEntry :=
  (fun f => mkEntry (bytes_of "skills/" ++ sk_name s ++ bytes_of "/" ++ f.1) f.2
              (Some (if bool_decide (is_Some (strip_suffix (bytes_of ".sh") f.1)) then 493 else 420))) <$> sk_files s.

Definition context_entries (files : list (bytes * bytes)) : list TarEntry :=
  imap (fun i f => mkEntry (bytes_of "context/agents/" ++ JsNumber.dec (Z.of_nat i) ++ bytes_of "-" ++ f.1) f.2 None) files.

(** [name.replace(/\.md$/, '')] *)
Definition promptName (file : bytes) : bytes := default file (strip_suffix (bytes_of ".md") file).

Definition kept_prompts (i : BuildInput) : list (bytes * bytes) :=
  List.filter (fun p => negb (bool_decide (promptName p.1 ∈ bi_excludePrompts i))) (bi_prompts i).

Definition fragments (i : BuildInput) : list bytes := toolNameMappingNote :: skillsRootNote :: bi_extraPromptFragments i.

Definition classification (i : BuildInput) : Classification :=
  classifySkills (resolveSkills (bi_roots i)) (bi_mode i) (bi_userDenyList i).

Definition bundle_entries (i : BuildInput) : list TarEntry :=
  flat_map skill_entries (travels (classification i))
  ++ context_entries (bi_contextFiles i)
  ++ match bi_memoryIndex i with Some t => [mkEntry (bytes_of "context/MEMORY.md") t None] | None => [] end
  ++ ((fun f => mkEntry (bytes_of "memory/" ++ f.1) f.2 None) <$> bi_memory i)
  ++ ((fun f => mkEntry (bytes_of "prompts/" ++ f.1) f.2 None) <$> kept_prompts i)
  ++ (frag_entry None <$> numbered (fragments i)).

Inductive build_error := SecretScanError (fs : list SecretFinding) | BuildError (message : string).

Section Build.
Context (sha256_hex : bytes → bytes).
(** The text of the lockfile, given the digest. *)
Context (lockfile : bytes → bytes).

Definition built {A} (r : result string A) : result build_error A := match r with Ok a => Ok a | Throw m => Throw (BuildError m) end.

(** The archive, its digest, and the names of the prompts. *)
Definition buildBundle (i : BuildInput) : result build_error (bytes * bytes * list bytes) :=
  let entries := bundle_entries i in
  match blockingSecrets (scanEntriesForSecrets entries) with
  | f :: fs => Throw (SecretScanError (f :: fs))
  | [] =>
      try digest <- built (contentDigest sha256_hex entries);
      try tar <- built (canonicalTar (entries ++ [mkEntry LOCKFILE_PATH (lockfile digest) None]));
      Ok (tar, digest, promptName <$> (kept_prompts i).*1)
  end.
End Build.

(** The findings on the prompts, which decide whether there is an error: the others only warn. *)
Definition prompt_findings (i : BuildInput) : list PreflightFinding :=
  let names := promptName <$> (kept_prompts i).*1 in
  let excluded := List.filter (fun n => bool_decide (n ∈ bi_excludePrompts i)) (promptName <$> (bi_prompts i).*1) in
  (if bool_decide (bi_entry i ∈ bi_excludePrompts i) then [] else checkEntry (bi_entry i) names)
  ++ checkExcludedPrompts (bi_entry i) (bi_excludePrompts i) excluded.

(** ** Skills, once each *)

(** The first of each name and of each directory. *)
Fixpoint keep_first (names canon : list bytes) (l : list (ResolvedSkill * bytes)) : list (ResolvedSkill * bytes) :=
  match l with
  | [] => []
  | s :: l =>
      if bool_decide (s.2 ∈ canon) || bool_decide (sk_name s.1 ∈ names) then keep_first names canon l
      else s :: keep_first (names ++ [sk_name s.1]) (canon ++ [s.2]) l
  end.

Definition named (l : list (ResolvedSkill * bytes)) : list (bytes * ResolvedSkill) := (fun s => (sk_name s.1, s.1)) <$> l.
Definition placed (l : list (ResolvedSkill * bytes)) : list (bytes * ResolvedSkill) := (fun s => (s.2, s.1)) <$> l.

Definition rank (s : ResolvedSkill * bytes) : nat := SCOPE_RANK (sk_scope s.1).

Lemma map_get_in {V} (k : bytes) (m : list (bytes * V)) : is_Some (map_get k m) ↔ k ∈ m.*1.
Proof.
  destruct (map_get k m) as [v|] eqn:E.
  - apply map_get_Some_elem in E. split; [|done]. intros _. apply list_elem_of_fmap. by exists (k, v).
  - apply map_get_None in E. split; [by intros []|done].
Qed.

Lemma resolve_keeps kept l :
  (∀ s t, s ∈ kept → t ∈ l → (rank s ≤ rank t)%nat) → StronglySorted (fun s t => (rank s ≤ rank t)%nat) l →
  foldl resolve_step (mkBest (named kept) (placed kept)) l
  = let k := kept ++ keep_first (sk_name <$> kept.*1) kept.*2 l in mkBest (named k) (placed k).
Proof.
  revert kept. induction l as [|[s c] l IH]; intros kept Hr Hs; cbn [foldl keep_first]; [by rewrite app_nil_r|].
  apply StronglySorted_inv in Hs as [Hs Hfirst].
  assert (Hno : ∀ t d, (t, d) ∈ kept → better s t = false).
  { intros t d Ht. specialize (Hr (t, d) (s, c) Ht ltac:(constructor)). unfold better. apply Nat.ltb_ge. exact Hr. }
  assert (Hskip : foldl resolve_step (mkBest (named kept) (placed kept)) l
     = let k := kept ++ keep_first (sk_name <$> kept.*1) kept.*2 l in mkBest (named k) (placed k)).
  { apply IH; [|done]. intros. apply Hr; [done|by constructor]. }
  assert (Hplaced : (placed kept).*1 = kept.*2) by (unfold placed; rewrite <-list_fmap_compose; done).
  assert (Hnamed : (named kept).*1 = sk_name <$> kept.*1) by (unfold named; rewrite <-!list_fmap_compose; done).
  cbn [resolve_step fst snd best byCanonical]. destruct (map_get c (placed kept)) as [t|] eqn:Ec.
  - assert (Hc : c ∈ kept.*2) by (rewrite <-Hplaced; apply map_get_in; by rewrite Ec).
    rewrite (bool_decide_eq_true_2 _ Hc). cbn [orb]. apply map_get_Some_elem in Ec.
    apply list_elem_of_fmap in Ec as ([t' d] & [= <- <-] & Hin). rewrite (Hno _ _ Hin). exact Hskip.
  - assert (Hc : c ∉ kept.*2) by (rewrite <-Hplaced; by apply map_get_None).
    rewrite (bool_decide_eq_false_2 _ Hc). cbn [orb]. destruct (map_get (sk_name s) (named kept)) as [t|] eqn:En.
    + assert (Hn : sk_name s ∈ sk_name <$> kept.*1) by (rewrite <-Hnamed; apply map_get_in; by rewrite En).
      rewrite (bool_decide_eq_true_2 _ Hn). apply map_get_Some_elem in En.
      apply list_elem_of_fmap in En as ([t' d] & [= _ <-] & Hin). rewrite (Hno _ _ Hin). exact Hskip.
    + assert (Hn : sk_name s ∉ sk_name <$> kept.*1) by (rewrite <-Hnamed; by apply map_get_None).
      rewrite (bool_decide_eq_false_2 _ Hn). rewrite !map_set_fresh by (rewrite ?Hplaced, ?Hnamed; done).
      specialize (IH (kept ++ [(s, c)])). unfold named, placed in *. rewrite !fmap_app in IH. cbn [fmap list_fmap fst snd] in IH.
      rewrite IH; [|intros x t [Hx|Hx]%elem_of_app Ht; [apply Hr; [done|by constructor]|]|done].
      * cbv zeta. by rewrite <-!app_assoc, !fmap_app.
      * apply list_elem_of_singleton in Hx as ->. rewrite Forall_forall in Hfirst. by apply Hfirst.
Qed.

Lemma found_ranked r : StronglySorted (fun s t => (rank s ≤ rank t)%nat) (found r).
Proof.
  assert (Hconst : ∀ sc l, Forall (fun s => rank s = SCOPE_RANK sc) (load sc <$> l)) by (intros sc l; apply Forall_fmap, Forall_forall; done).
  assert (Hone : ∀ n l, Forall (fun s => rank s = n) l → StronglySorted (fun s t => (rank s ≤ rank t)%nat) l).
  { intros n l Hl. induction Hl as [|s l Hs Hl IH]; constructor; [done|]. eapply Forall_impl; [exact Hl|]. intros t Ht. simpl in *. lia. }
  unfold found. rewrite !StronglySorted_app. split_and!.
  - intros x y Hx Hy. pose proof (Hconst project (projectSkills r)) as H. rewrite Forall_forall in H. rewrite (H x Hx). simpl. lia.
  - by eapply Hone, Hconst.
  - intros x y Hx Hy. pose proof (Hconst user (userSkills r)) as H. pose proof (Hconst plugin (pluginSkills r)) as H'.
    rewrite Forall_forall in H, H'. rewrite (H x Hx), (H' y Hy). simpl. lia.
  - by eapply Hone, Hconst.
  - by eapply Hone, Hconst.
Qed.

Lemma sorted_lookup {A} (R : A → A → Prop) l i j x y : StronglySorted R l → (i < j)%nat → l !! i = Some x → l !! j = Some y → R x y.
Proof.
  intros Hs. revert i j. induction Hs as [|z l Hl IH Hz]; intros [|i] [|j] Hij Hx Hy; try done || lia.
  - injection Hx as ->. rewrite Forall_forall in Hz. by eapply Hz, list_elem_of_lookup_2.
  - eapply IH; [|exact Hx|exact Hy]. lia.
Qed.

Definition kept (r : Roots) : list (ResolvedSkill * bytes) := keep_first [] [] (found r).

Lemma resolve_kept r : resolveSkills r = sort name_le (kept r).*1.
Proof.
  unfold resolveSkills. change (mkBest [] []) with (mkBest (named []) (placed [])). rewrite (resolve_keeps [] (found r)) by (set_solver || apply found_ranked).
  cbn. f_equal. unfold named. by rewrite <-list_fmap_compose.
Qed.

Lemma keep_first_spec names canon l :
  let k := keep_first names canon l in
  NoDup (sk_name <$> k.*1) ∧ NoDup k.*2 ∧ (∀ s, s ∈ k → s ∈ l ∧ (sk_name s.1 ∉ names) ∧ (s.2 ∉ canon)).
Proof.
  revert names canon. induction l as [|s l IH]; intros names canon; cbn [keep_first]; cbv zeta.
  - split_and!; [constructor|constructor|set_solver].
  - destruct (bool_decide_reflect (s.2 ∈ canon)) as [Hc|Hc]; cbn [orb].
    { destruct (IH names canon) as (H1 & H2 & H3). split_and!; [done..|]. set_solver. }
    destruct (bool_decide_reflect (sk_name s.1 ∈ names)) as [Hn|Hn].
    { destruct (IH names canon) as (H1 & H2 & H3). split_and!; [done..|]. set_solver. }
    destruct (IH (names ++ [sk_name s.1]) (canon ++ [s.2])) as (H1 & H2 & H3). cbn [fmap list_fmap]. split_and!.
    + constructor; [|done]. intros (t & Heq & (x & -> & Hx)%list_elem_of_fmap)%list_elem_of_fmap. destruct (H3 x Hx) as (_ & Hni & _). set_solver.
    + constructor; [|done]. intros (x & Heq & Hx)%list_elem_of_fmap. destruct (H3 x Hx) as (_ & _ & Hni). set_solver.
    + intros x [->|Hx]%elem_of_cons; [set_solver|]. set_solver.
Qed.

(** Every skill found is there, or another of its name or its directory that was found before. *)
Lemma keep_first_covers names canon l i s :
  l !! i = Some s → (s.2 ∈ canon) ∨ (sk_name s.1 ∈ names) ∨
  ∃ j t, (j ≤ i)%nat ∧ l !! j = Some t ∧ t ∈ keep_first names canon l ∧ (sk_name t.1 = sk_name s.1 ∨ t.2 = s.2).
Proof.
  revert names canon i. induction l as [|x l IH]; intros names canon i Hi; [done|]. cbn [keep_first].
  assert (Hlater : ∀ names' canon', (∀ i', l !! i' = Some s → (s.2 ∈ canon') ∨ (sk_name s.1 ∈ names') ∨ ∃ j t, (j ≤ i')%nat ∧ l !! j = Some t
             ∧ t ∈ keep_first names' canon' l ∧ (sk_name t.1 = sk_name s.1 ∨ t.2 = s.2))) by (intros; by apply IH).
  destruct (bool_decide_reflect (x.2 ∈ canon)) as [Hc|Hc]; cbn [orb].
  { destruct i as [|i]; [injection Hi as ->; by left|]. destruct (Hlater names canon i Hi) as [?|[?|(j & t & Hj & Ht & Hk & Hx)]]; [by auto..|].
    right. right. exists (S j), t. split_and!; [lia|done|done|done]. }
  destruct (bool_decide_reflect (sk_name x.1 ∈ names)) as [Hn|Hn].
  { destruct i as [|i]; [injection Hi as ->; by auto|]. destruct (Hlater names canon i Hi) as [?|[?|(j & t & Hj & Ht & Hk & Hx)]]; [by auto..|].
    right. right. exists (S j), t. split_and!; [lia|done|done|done]. }
  assert (Hx0 : x ∈ x :: keep_first (names ++ [sk_name x.1]) (canon ++ [x.2]) l) by constructor.
  destruct i as [|i].
  { injection Hi as ->. right. right. exists O, s. split_and!; [lia|done|done|by left]. }
  destruct (Hlater (names ++ [sk_name x.1]) (canon ++ [x.2]) i Hi) as [H|[H|(j & t & Hj & Ht & Hk & Hx)]].
  - apply elem_of_app in H as [?|H%list_elem_of_singleton]; [by left|]. right. right. exists O, x. split_and!; [lia|done|done|by right].
  - apply elem_of_app in H as [?|H%list_elem_of_singleton]; [by auto|]. right. right. exists O, x. split_and!; [lia|done|done|by left].
  - right. right. exists (S j), t. split_and!; [lia|done|by constructor|done].
Qed.

(** Each skill travels once, from the nearest place.  Resolving keeps, of the skills found in
    the project, then the user's directory, then the plugins, the first of each name and of each
    directory, however the directories are linked to each other: no name and no directory twice,
    and whatever was left out has another of its name or its directory there that ranks at least
    as high.  (A higher-ranked skill never comes after a lower one, so the code that would replace
    one is never reached.) *)
Theorem skills_resolved_once r :
  resolveSkills r = sort name_le (kept r).*1
  ∧ NoDup (sk_name <$> resolveSkills r) ∧ NoDup (kept r).*2
  ∧ (∀ s, s ∈ found r → ∃ t, t ∈ kept r ∧ (sk_name t.1 = sk_name s.1 ∨ t.2 = s.2) ∧ (rank t ≤ rank s)%nat).
Proof.
  destruct (keep_first_spec [] [] (found r)) as (H1 & H2 & _). split_and!; [apply resolve_kept| |done|].
  - rewrite resolve_kept, (sort_perm name_le). exact H1.
  - intros s (i & Hi)%list_elem_of_lookup.
    destruct (keep_first_covers [] [] _ _ _ Hi) as [H|[H|(j & t & Hj & Ht & Hk & Hx)]]; [set_solver..|].
    exists t. split_and!; [done|done|]. destruct (decide (j = i)) as [->|]; [by simplify_eq|].
    by apply (sorted_lookup _ _ j i t s (found_ranked r)); [lia|..].
Qed.

(** A skill is either packed or reported as dropped, with the reason. *)
Lemma classify_complete deny skills :
  (classify deny skills).1 = List.filter (fun s => bool_decide (drop_reason deny (sk_name s) = None)) skills
  ∧ (∀ s, s ∈ skills → s ∈ (classify deny skills).1 ∨ ∃ why, drop_reason deny (sk_name s) = Some why ∧ (sk_name s, why) ∈ (classify deny skills).2).
Proof.
  induction skills as [|s skills [IH1 IH2]]; [by split; [|set_solver]|]. cbn [classify List.filter].
  destruct (classify deny skills) as [t d]. cbn [fst snd] in *. destruct (drop_reason deny (sk_name s)) as [why|] eqn:E.
  - rewrite bool_decide_eq_false_2 by done. split; [done|]. cbn. intros x [->|Hx]%elem_of_cons; [right; exists why; set_solver|].
    destruct (IH2 x Hx) as [?|(w & ? & ?)]; [by left|right; exists w; set_solver].
  - rewrite bool_decide_eq_true_2 by done. cbn. rewrite IH1. split; [done|]. intros x [->|Hx]%elem_of_cons; [left; set_solver|].
    destruct (IH2 x Hx) as [?|(w & ? & ?)]; [left; set_solver|right; by exists w].
Qed.

(** ** No secret is packed *)




Section Promotion.
Context (sha256_hex : bytes → bytes) (lockfile : bytes → bytes).
Context (gzipSync : bytes → bytes) (gunzipSync : bytes → option bytes) (fromBase64 : bytes → bytes).
Context (gunzip_gzip : ∀ x, gunzipSync (gzipSync x) = Some x) (base64_roundtrip : ∀ l, fromBase64 (b64_encode l) = l).




End Promotion.

(** A prompt that is excluded does not travel, and a bundle without errors has its entry. *)
Lemma entry_present i :
  hasErrors (prompt_findings i) = false ↔ bi_entry i ∈ promptName <$> (kept_prompts i).*1.
Proof.
  unfold hasErrors, prompt_findings. set (isError := fun f => _). rewrite existsb_app, orb_false_iff.
  set (names := promptName <$> (kept_prompts i).*1). set (excluded := List.filter _ _). clearbody excluded. set (B := checkExcludedPrompts _ _ excluded).
  assert (HB : existsb isError B = bool_decide (bi_entry i ∈ bi_excludePrompts i)).
  { unfold B, checkExcludedPrompts. clear. induction (bi_excludePrompts i) as [|n l IH]; [done|]. cbn [fmap list_fmap existsb]. rewrite IH.
    destruct (bool_decide_reflect (n = bi_entry i)) as [->|Hn]; [cbn; symmetry; apply bool_decide_eq_true_2; by constructor|].
    destruct (bool_decide (n ∈ excluded)); cbn [isError pf_severity orb]; apply bool_decide_ext; rewrite elem_of_cons; naive_solver. }
  rewrite HB. destruct (bool_decide_reflect (bi_entry i ∈ bi_excludePrompts i)) as [Hx|Hx].
  - split; [by intros [_ ?]|]. intros Hin. exfalso. unfold names in Hin.
    apply list_elem_of_fmap in Hin as (f & Heq & (p & -> & Hp)%list_elem_of_fmap). apply list_elem_of_In, filter_In in Hp as [_ Hp].
    rewrite <-Heq, bool_decide_eq_true_2 in Hp by done. done.
  - unfold checkEntry. destruct (bool_decide_reflect (bi_entry i ∈ names)); cbn; naive_solver.
Qed.

(** ** Witnesses *)





(** A key in a skill's file stops the promotion. *)
Example secret_stops :
  match buildBundle toy_sha (fun _ => [])
          (mkBuild (mkRoots [] [(mkSkill (bytes_of "a") [] user [(bytes_of "SKILL.md", bytes_of "key AKIA0123456789ABCDEF.")], [])] [])
             unattended [] [] None [] [] [] [] []) with
  | Throw (SecretScanError [f]) => sf_rule f = "aws-access-key-id" ∧ sf_line f = 1
  | _ => False
  end.
Proof. vm_compute. split; reflexivity. Qed.

(** The name of a skill is taken from its own text: one that climbs out of [skills/] is packed
    without a word, and refused only where it is unpacked. *)
Example climbing_skill_packed :
  let i := mkBuild (mkRoots [] [(mkSkill (bytes_of "../../x") [] user [(bytes_of "SKILL.md", [])], [])] []) unattended [] [] None [] [] [] [] [] in
  is_Some (match buildBundle toy_sha (fun _ => []) i with Ok b => Some b | Throw _ => None end)
  ∧ existsb (fun e => negb (inside (bytes_of "/tmp/s") (resolve (bytes_of "/tmp/s") (path e)))) (bundle_entries i) = true.
Proof. vm_compute. split; [by eexists|reflexivity]. Qed.
