(* ===== verification/JsonLines.v ===== *)
(** * Files of JSON lines

    A file to which records are appended, one [JSON.stringify] and a newline each, and which
    is read back by splitting it at newlines and keeping the lines [JSON.parse] accepts
    ([packages/mocactl/src/core/transcripts.ts]).  A record that was only partly written is
    not taken for another one: no proper prefix of an object's text is a JSON text. *)

From Stdlib Require Import QArith.
From S2P Require Import Prelude JsNumber Json JsonText TurnStream.

Local Open Scope Z_scope.

(** One line of the file: [if (!line.trim()) continue], then [JSON.parse] in a [try]. *)
Definition record_of (line : bytes) : option json :=
  if bool_decide (trim line = []) then None else parse line.

Definition records (text : bytes) : list json := omap record_of (split_char LF text).

Definition line (j : json) : bytes := stringify j ++ [LF].

(** Nothing is left open at the end of the text. *)
Definition whole (text : bytes) : Prop := text = [] ∨ ∃ t, text = t ++ [LF].

Definition is_obj (j : json) : bool := match j with JObj _ => true | _ => false end.

(** ** Reading goes on in the same way when text follows

    What has been read stays read, whatever comes after it, when it is a string, an array, an
    object or a literal, or a number that something other than a number follows. *)

Lemma skip_ws_app s t : skip_ws s ≠ [] → skip_ws (s ++ t) = skip_ws s ++ t.
Proof. induction s as [|c s IH]; simpl; [done|]. destruct (json_ws c); [apply IH|done]. Qed.

#[local] Arguments digits_value : simpl never.

Lemma pchars_app s t l r : pchars s = Some (l, r) → pchars (s ++ t) = Some (l, r ++ t).
Proof.
  revert l r. induction s as [s IH] using (induction_ltof1 _ (@length ascii)). unfold ltof in IH.
  intros l r. destruct s as [|c s]; [done|]. simpl. intros H.
  repeat case_bool_decide; simplify_eq/=; try done.
  - destruct s as [|e s]; [done|]. simpl. destruct (simple_escape e) as [d|].
    + apply fmap_Some in H as ([l' r'] & H & ?); simplify_eq/=.
      by rewrite (IH s ltac:(simpl; lia) _ _ H).
    + destruct s as [|h1 [|h2 [|h3 [|h4 s]]]]; simpl; try done.
      case_bool_decide; [|done]. destruct (digits_value 16 0 _) as [v|]; [|done]. destruct (v <? 256); [|done].
      apply fmap_Some in H as ([l' r'] & H & ?); simplify_eq/=.
      by rewrite (IH s ltac:(simpl; lia) _ _ H).
  - destruct (_ <? 32)%nat; [done|]. apply fmap_Some in H as ([l' r'] & H & ?); simplify_eq/=.
    by rewrite (IH s ltac:(simpl; lia) _ _ H).
Qed.

Lemma span_digits_more s t ds r : span_digits s = (ds, r) → r ≠ [] → span_digits (s ++ t) = (ds, r ++ t).
Proof.
  revert ds. induction s as [|c s IH]; simpl; intros ds H Hr; [by simplify_eq/=|].
  destruct (is_digit c); [|by simplify_eq].
  destruct (span_digits s) as [ds' r']. simplify_eq. by rewrite (IH ds').
Qed.

Lemma lex_sign_more s t sg r : lex_sign s = (sg, r) → r ≠ [] → lex_sign (s ++ t) = (sg, r ++ t).
Proof. destruct s as [|c s]; [simpl; intros; by simplify_eq|]. destruct c as [[] [] [] [] [] [] [] []]; simpl; intros; by simplify_eq. Qed.

Lemma lex_int_more s t ip r : lex_int s = (ip, r) → r ≠ [] → lex_int (s ++ t) = (ip, r ++ t).
Proof.
  intros H Hr. destruct s as [|c s]; [by simplify_eq/=|].
  destruct (decide (c = "0"%char)) as [->|Hc]; [simpl in *; by simplify_eq|].
  assert (lex_int (c :: s) = span_digits (c :: s) ∧ lex_int ((c :: s) ++ t) = span_digits ((c :: s) ++ t)) as [E1 E2].
  { clear H. destruct c as [[] [] [] [] [] [] [] []]; by try (exfalso; by apply Hc). }
  rewrite E2. rewrite E1 in H. by apply span_digits_more.
Qed.

Lemma lex_frac_more s t fp r : lex_frac s = (fp, r) → r ≠ [] → head r ≠ Some "."%char → lex_frac (s ++ t) = (fp, r ++ t).
Proof.
  intros H Hr Hp. destruct s as [|c s]; [by simplify_eq/=|].
  destruct (decide (c = "."%char)) as [->|Hc].
  - simpl in *. destruct (span_digits s) as [ds r'] eqn:E. destruct ds as [|d ds]; simplify_eq.
    by rewrite (span_digits_more _ _ _ _ E Hr).
  - assert (∀ u, lex_frac (c :: u) = ([], c :: u)) as E.
    { intros u. destruct c as [[] [] [] [] [] [] [] []]; by try (exfalso; by apply Hc). }
    change ((c :: s) ++ t) with (c :: (s ++ t)). rewrite E. rewrite E in H. by simplify_eq/=.
Qed.

Definition exp_sign (s : bytes) : bytes * bytes :=
  match s with
  | "+"%char :: r => (["+"%char], r)
  | "-"%char :: r => (["-"%char], r)
  | _ => ([], s)
  end.

Lemma lex_exp_cons c s :
  lex_exp (c :: s) =
  if bool_decide (c = "e"%char ∨ c = "E"%char)
  then match span_digits (exp_sign s).2 with
       | ([], _) => ([], c :: s)
       | (ds, r) => (c :: (exp_sign s).1 ++ ds, r)
       end
  else ([], c :: s).
Proof. simpl. destruct (bool_decide _); [|done]. fold (exp_sign s). by destruct (exp_sign s). Qed.

Lemma exp_sign_more s t : (exp_sign s).2 ≠ [] → exp_sign (s ++ t) = ((exp_sign s).1, (exp_sign s).2 ++ t).
Proof. destruct s as [|x s]; [done|]. by destruct x as [[] [] [] [] [] [] [] []]. Qed.

Lemma exp_sign_suffix s : (exp_sign s).2 `suffix_of` s.
Proof. destruct s as [|x s]; [done|]. destruct x as [[] [] [] [] [] [] [] []]; simpl; first [done|by apply suffix_cons_r]. Qed.

Lemma span_digits_nil_r s d ds r : span_digits s = (d :: ds, r) → s ≠ [].
Proof. by intros H ->. Qed.

Lemma lex_exp_more s t ep r : lex_exp s = (ep, r) → r ≠ [] → plain_head r → lex_exp (s ++ t) = (ep, r ++ t).
Proof.
  intros H Hr Hp. destruct s as [|c s]; [by simplify_eq/=|].
  change ((c :: s) ++ t) with (c :: (s ++ t)). rewrite lex_exp_cons in *.
  case_bool_decide; [|by simplify_eq/=].
  destruct (span_digits (exp_sign s).2) as [[|d ds] r2] eqn:Ed; simplify_eq.
  { destruct Hp as [_ Hp]. set_solver. }
  rewrite exp_sign_more by (by eapply span_digits_nil_r). simpl.
  by rewrite (span_digits_more _ _ _ _ Ed Hr).
Qed.

(** Each part of a number token leaves a suffix. *)
Lemma span_digits_suffix s ds r : span_digits s = (ds, r) → r `suffix_of` s.
Proof.
  revert ds. induction s as [|c s IH]; simpl; intros ds H; [by simplify_eq/=|].
  destruct (is_digit c); [|by simplify_eq]. destruct (span_digits s) as [ds' r']. simplify_eq. by apply suffix_cons_r, (IH ds').
Qed.

Lemma lex_exp_suffix s ep r : lex_exp s = (ep, r) → r `suffix_of` s.
Proof.
  destruct s as [|c s]; [simpl; intros; by simplify_eq|]. rewrite lex_exp_cons.
  case_bool_decide; [|intros; by simplify_eq].
  destruct (span_digits (exp_sign s).2) as [[|d ds] r2] eqn:Ed; intros; simplify_eq; [done|].
  apply span_digits_suffix in Ed. apply suffix_cons_r. etrans; [exact Ed|apply exp_sign_suffix].
Qed.

Lemma lex_frac_suffix s fp r : lex_frac s = (fp, r) → r `suffix_of` s.
Proof.
  intros H. destruct s as [|c s]; [by simplify_eq/=|].
  destruct (decide (c = "."%char)) as [->|Hc].
  - simpl in *. destruct (span_digits s) as [ds r'] eqn:E. apply span_digits_suffix in E.
    destruct ds; simplify_eq; [done|by apply suffix_cons_r].
  - assert (lex_frac (c :: s) = ([], c :: s)) as E.
    { clear H. destruct c as [[] [] [] [] [] [] [] []]; by try (exfalso; by apply Hc). }
    rewrite E in H. by simplify_eq.
Qed.

Lemma suffix_nonempty (r s : bytes) : r `suffix_of` s → r ≠ [] → s ≠ [].
Proof. intros [k ->] Hr H%app_eq_nil. by destruct H. Qed.

Lemma lex_number_more s t tok r :
  lex_number s = Some (tok, r) → r ≠ [] → plain_head r → lex_number (s ++ t) = Some (tok, r ++ t).
Proof.
  unfold lex_number. intros H Hr Hp.
  destruct (lex_sign s) as [sg s1] eqn:E1. destruct (lex_int s1) as [ip s2] eqn:E2.
  destruct (lex_frac s2) as [fp s3] eqn:E3. destruct (lex_exp s3) as [ep s4] eqn:E4.
  destruct ip as [|d ip]; [done|]. simplify_eq.
  assert (s3 ≠ []) as H3 by (by eapply suffix_nonempty; [eapply lex_exp_suffix|]).
  assert (s2 ≠ []) as H2 by (by eapply suffix_nonempty; [eapply lex_frac_suffix|]).
  assert (s1 ≠ []) as H1 by (by intros ->; simplify_eq).
  assert (head s3 ≠ Some "."%char) as Hd.
  { destruct s3 as [|c s3]; [done|]. intros [= ->]. vm_compute in E4. simplify_eq. destruct Hp as [_ Hp]. set_solver. }
  rewrite (lex_sign_more _ t _ _ E1 H1), (lex_int_more _ t _ _ E2 H2), (lex_frac_more _ t _ _ E3 H3 Hd),
    (lex_exp_more _ t _ _ E4 Hr Hp). done.
Qed.

Lemma literal_app l s t r : literal l s = Some r → literal l (s ++ t) = Some (r ++ t).
Proof.
  unfold literal. destruct (starts_with (bytes_of l) s) eqn:E; [|done]. intros [= <-].
  rewrite (starts_with_app _ _ _ E). apply starts_with_spec in E as [k ->].
  by rewrite <-app_assoc, !drop_app_length.
Qed.

Lemma literal_head l x c r : bytes_of l = x :: tail (bytes_of l) → c ≠ x → literal l (c :: r) = None.
Proof. intros E Hc. unfold literal. rewrite E. simpl. by rewrite bool_decide_eq_false_2. Qed.

Lemma lex_number_head c r p : lex_number (c :: r) = Some p → c ∉ ["n"%char; "t"%char; "f"%char].
Proof.
  intros H Hc. apply elem_of_cons in Hc as [->|Hc]; [done|]. apply elem_of_cons in Hc as [->|Hc]; [done|].
  apply elem_of_cons in Hc as [->|Hc]; [done|]. by apply elem_of_nil in Hc.
Qed.

(** The last branch of [pvalue]: a literal or a number. *)
Definition scalar (s : bytes) : option (json * bytes) :=
  match literal "null" s, literal "true" s, literal "false" s with
  | Some r', _, _ => Some (JNull, r')
  | _, Some r', _ => Some (JBool true, r')
  | _, _, Some r' => Some (JBool false, r')
  | _, _, _ =>
      match lex_number s with
      | Some (t, r') => (fun q => (JNum q, r')) <$> token_value t
      | None => None
      end
  end.

Lemma literal_first l c r u : literal l (c :: r) = Some u → head (bytes_of l) = Some c ∨ l = "".
Proof.
  unfold literal. destruct l as [|x l]; [by right|]. left. simpl in *. destruct (decide (x = c)) as [->|Hx]; [done|].
  rewrite bool_decide_eq_false_2 in H by done. done.
Qed.

Lemma scalar_app c s t v r :
  scalar (c :: s) = Some (v, r) → r ≠ [] → plain_head r → scalar ((c :: s) ++ t) = Some (v, r ++ t).
Proof.
  unfold scalar. intros H Hr Hp. simpl app.
  destruct (literal "null" (c :: s)) as [r'|] eqn:E1.
  { simplify_eq. pose proof (literal_app _ (c :: s) t _ E1) as E. simpl app in E. by rewrite E. }
  destruct (literal "true" (c :: s)) as [r'|] eqn:E2.
  { simplify_eq. apply literal_first in E2 as Hc. destruct Hc as [[= <-]|[=]].
    rewrite (literal_head "null" "n") by done. pose proof (literal_app _ ("t"%char :: s) t _ E2) as E. simpl app in E. by rewrite E. }
  destruct (literal "false" (c :: s)) as [r'|] eqn:E3.
  { simplify_eq. apply literal_first in E3 as Hc. destruct Hc as [[= <-]|[=]].
    rewrite (literal_head "null" "n"), (literal_head "true" "t") by done. pose proof (literal_app _ ("f"%char :: s) t _ E3) as E. simpl app in E. by rewrite E. }
  destruct (lex_number (c :: s)) as [[tok r']|] eqn:E4; [|done]. apply fmap_Some in H as (q & Hq & ?). simplify_eq.
  pose proof (lex_number_head _ _ _ E4) as Hc.
  rewrite (literal_head "null" "n"), (literal_head "true" "t"), (literal_head "false" "f") by set_solver.
  pose proof (lex_number_more (c :: s) t _ _ E4 Hr Hp) as E. simpl app in E. by rewrite E, Hq.
Qed.

(** ** Values *)

Definition opens (s : bytes) : Prop :=
  match skip_ws s with c :: _ => c ∈ [QUOTE; "["%char; "{"%char] | [] => False end.

Definition settled (s r : bytes) : Prop := opens s ∨ (r ≠ [] ∧ plain_head r).

Lemma skip_ws_plain r c r' : skip_ws r = c :: r' → digit_val 10 c = None → c ∉ ["."%char; "e"%char; "E"%char] → r ≠ [] ∧ plain_head r.
Proof.
  intros H Hd Hc. destruct r as [|x r]; [done|]. split; [done|]. simpl in *.
  destruct (json_ws x) eqn:Ew; [|by simplify_eq]. unfold json_ws in Ew. to_prop.
  repeat (apply elem_of_cons in Ew as [->|Ew]; [split; [done|by apply (bool_decide_unpack _)]|]).
  by apply elem_of_nil in Ew.
Qed.

Lemma pvalue_cons f s c r :
  skip_ws s = c :: r → c ∉ [QUOTE; "["%char; "{"%char] → pvalue (S f) s = scalar (c :: r).
Proof.
  intros E Hc. cbn [pvalue]. rewrite E.
  rewrite !bool_decide_eq_false_2 by set_solver. done.
Qed.

Ltac skip_more E t :=
  match type of E with skip_ws ?u = ?c :: ?v =>
    let H := fresh in
    assert (skip_ws (u ++ t) = c :: v ++ t) as H by (by rewrite skip_ws_app, E by (by rewrite E)); rewrite H; clear H
  end.

(** What was read of [s] with [f] is read of [s ++ t] with any more fuel. *)
Definition read_more (f : nat) : Prop := ∀ f' s t, (f ≤ f')%nat →
  (∀ v r, pvalue f s = Some (v, r) → settled s r → pvalue f' (s ++ t) = Some (v, r ++ t))
  ∧ (∀ l r, pelems f s = Some (l, r) → pelems f' (s ++ t) = Some (l, r ++ t))
  ∧ (∀ acc l r, pmembers f acc s = Some (l, r) → pmembers f' acc (s ++ t) = Some (l, r ++ t)).

Lemma read_more_elems f f' s t l r :
  read_more f → (f ≤ f')%nat → pelems (S f) s = Some (l, r) → pelems (S f') (s ++ t) = Some (l, r ++ t).
Proof.
  intros IH Hf. cbn [pelems]. destruct (pvalue f s) as [[v r1]|] eqn:Ev; [|done].
  destruct (skip_ws r1) as [|c r2] eqn:E; [done|]. intros H.
  assert (c = ","%char ∨ c = "]"%char) as Hc by (destruct c as [[] [] [] [] [] [] [] []]; try done; first [by left|by right]).
  assert (r1 ≠ [] ∧ plain_head r1) as Hp.
  { apply (skip_ws_plain _ _ _ E); destruct Hc as [->| ->]; first [done|by apply (bool_decide_unpack _)]. }
  destruct (IH f' s t Hf) as (Hv & _ & _). rewrite (Hv _ _ Ev) by (by right). skip_more E t.
  destruct Hc as [->| ->]; simplify_eq; [|done].
  apply fmap_Some in H as ([l' r'] & H & ?). simplify_eq/=. destruct (IH f' r2 t Hf) as (_ & He & _).
  rewrite (He _ _ H). done.
Qed.

Lemma read_more_members f f' acc s t l r :
  read_more f → (f ≤ f')%nat → pmembers (S f) acc s = Some (l, r) → pmembers (S f') acc (s ++ t) = Some (l, r ++ t).
Proof.
  intros IH Hf. cbn [pmembers]. destruct (skip_ws s) as [|c s1] eqn:Es; [done|]. skip_more Es t.
  case_bool_decide; [|done]. destruct (pchars s1) as [[name s2]|] eqn:Ec; [|done]. rewrite (pchars_app _ t _ _ Ec).
  destruct (skip_ws s2) as [|c2 s3] eqn:E2; [done|]. skip_more E2 t. intros H1.
  assert (c2 = ":"%char) as -> by (by destruct c2 as [[] [] [] [] [] [] [] []]).
  destruct (pvalue f s3) as [[v r3]|] eqn:Ev; [|done].
  destruct (skip_ws r3) as [|c4 r4] eqn:E; [done|].
  assert (c4 = ","%char ∨ c4 = "}"%char) as Hc by (destruct c4 as [[] [] [] [] [] [] [] []]; try done; first [by left|by right]).
  assert (r3 ≠ [] ∧ plain_head r3) as Hp.
  { apply (skip_ws_plain _ _ _ E); destruct Hc as [->| ->]; first [done|by apply (bool_decide_unpack _)]. }
  destruct (IH f' s3 t Hf) as (Hv & _ & _). rewrite (Hv _ _ Ev) by (by right). skip_more E t.
  destruct Hc as [->| ->]; simplify_eq; [|done]. destruct (IH f' r4 t Hf) as (_ & _ & Hm). by apply Hm.
Qed.

Lemma read_more_value f f' s t v r :
  read_more f → (f ≤ f')%nat → pvalue (S f) s = Some (v, r) → settled s r → pvalue (S f') (s ++ t) = Some (v, r ++ t).
Proof.
  intros IH Hf H Hs. destruct (skip_ws s) as [|c s1] eqn:E; [cbn [pvalue] in H; by rewrite E in H|].
  assert (skip_ws (s ++ t) = c :: s1 ++ t) as Et by (by rewrite skip_ws_app, E by (by rewrite E)).
  destruct (decide (c ∈ [QUOTE; "["%char; "{"%char])) as [Hc|Hc].
  2: { rewrite (pvalue_cons _ _ _ _ E Hc) in H. rewrite (pvalue_cons _ _ _ _ Et Hc).
       destruct Hs as [Ho|[Hr Hp]]; [unfold opens in Ho; by rewrite E in Ho|]. by apply (scalar_app c s1). }
  destruct (IH f' s1 t Hf) as (_ & He & Hm). cbn [pvalue] in *. rewrite Et. rewrite E in H.
  apply elem_of_cons in Hc as [->|Hc]; [|apply elem_of_cons in Hc as [->|Hc]; [|apply elem_of_cons in Hc as [->|Hc]]];
    [..|by apply elem_of_nil in Hc].
  - rewrite bool_decide_eq_true_2 in * by done. apply fmap_Some in H as ([l' r'] & H & ?). simplify_eq/=.
    by rewrite (pchars_app _ t _ _ H).
  - rewrite bool_decide_eq_false_2 in * by done. rewrite bool_decide_eq_true_2 in * by done.
    destruct (skip_ws s1) as [|c2 s2] eqn:E2.
    { apply fmap_Some in H as ([l' r'] & H & _). destruct f; [done|]. cbn [pelems] in H. destruct f; [done|].
      cbn [pvalue] in H. by rewrite E2 in H. }
    skip_more E2 t. destruct (decide (c2 = "]"%char)) as [->|Hc2]; [by simplify_eq|].
    assert (prod_map JArr id <$> pelems f s1 = Some (v, r)) as H'.
    { by destruct c2 as [[] [] [] [] [] [] [] []]. }
    apply fmap_Some in H' as ([l' r'] & H' & ?). simplify_eq/=. rewrite (He _ _ H'). by destruct c2 as [[] [] [] [] [] [] [] []].
  - rewrite !bool_decide_eq_false_2 in * by done. rewrite bool_decide_eq_true_2 in * by done.
    destruct (skip_ws s1) as [|c2 s2] eqn:E2.
    { apply fmap_Some in H as ([l' r'] & H & _). destruct f; [done|]. cbn [pmembers] in H. by rewrite E2 in H. }
    skip_more E2 t. destruct (decide (c2 = "}"%char)) as [->|Hc2]; [by simplify_eq|].
    assert (prod_map JObj id <$> pmembers f [] s1 = Some (v, r)) as H'.
    { by destruct c2 as [[] [] [] [] [] [] [] []]. }
    apply fmap_Some in H' as ([l' r'] & H' & ?). simplify_eq/=. rewrite (Hm _ _ _ H'). by destruct c2 as [[] [] [] [] [] [] [] []].
Qed.

Lemma read_more_all f : read_more f.
Proof.
  induction f as [|f IH]; intros f' s t Hf; [by split_and!|]. destruct f' as [|f']; [lia|].
  split_and!; intros; [eapply read_more_value|eapply read_more_elems|eapply read_more_members]; eauto; lia.
Qed.

(** ** Records *)

Lemma parse_inv s j : parse s = Some j → ∃ r, pvalue (S (S (length s))) s = Some (j, r) ∧ skip_ws r = [].
Proof.
  unfold parse. destruct (pvalue _ s) as [[v r]|]; [|done]. destruct (skip_ws r) eqn:E; [|done].
  intros [= ->]. by exists r.
Qed.

Lemma obj_text j : is_obj j = true → ∃ u, stringify j = "{"%char :: u.
Proof. destruct j; try done. simpl. eauto. Qed.

(** No proper prefix of an object's text is a JSON text. *)
Lemma torn_unparsed j s t :
  is_obj j = true → serialisable j = true → stringify j = s ++ t → t ≠ [] → parse s = None.
Proof.
  intros Ho Hj E Ht. destruct (parse s) as [v|] eqn:Hp; [|done]. exfalso. apply parse_inv in Hp as (r & Hp & _).
  destruct (obj_text _ Ho) as [u Eu]. destruct s as [|c s]; [done|]. rewrite Eu in E. injection E as <- E.
  destruct (read_more_all (S (S (length ("{"%char :: s)))) (S (S (length ("{"%char :: s ++ t)))) ("{"%char :: s) t
              ltac:(simpl; rewrite length_app; lia)) as (Hv & _ & _).
  assert (settled ("{"%char :: s) r) as Hset by (left; do 2 right; left).
  pose proof (Hv _ _ Hp Hset) as Hv'.
  pose proof (stringify_ok j Hj (S (S (length ("{"%char :: s ++ t)))) []) as Hs.
  rewrite Eu, E, app_nil_r in Hs. simpl app in Hv'. rewrite Hs in Hv' by (simpl; try done; lia).
  injection Hv' as _ Hr. symmetry in Hr. apply app_eq_nil in Hr as [_ ?]. done.
Qed.

Lemma stringify_no_break j : LF ∉ stringify j.
Proof. apply plain_not_in; [apply stringify_plain|vm_compute; lia]. Qed.

Lemma split_char_app_sep c s t : split_char c (s ++ c :: t) = split_char c s ++ split_char c t.
Proof.
  induction s as [|x s IH]; simpl; [by rewrite bool_decide_eq_true_2|]. case_bool_decide; [by rewrite IH|].
  rewrite IH. destruct (split_char_cons c s) as (p & rest & ->). done.
Qed.

Lemma records_nil : records [] = [].
Proof. reflexivity. Qed.

Lemma records_break s t : records (s ++ LF :: t) = records s ++ records t.
Proof. unfold records. by rewrite split_char_app_sep, omap_app. Qed.

Lemma records_whole s t : whole s → records (s ++ t) = records s ++ records t.
Proof.
  intros [->|[u ->]]; [done|]. rewrite <-app_assoc. simpl. rewrite !records_break, records_nil, app_nil_r. done.
Qed.

Lemma record_text j : is_obj j = true → serialisable j = true → record_of (stringify j) = Some j.
Proof.
  intros Ho Hj. unfold record_of. rewrite parse_stringify by done. case_bool_decide as Ht; [|done].
  destruct (obj_text _ Ho) as [u Eu]. rewrite Eu in Ht. exfalso. unfold trim in Ht. simpl in Ht.
  apply (f_equal (@length ascii)) in Ht. rewrite length_rev in Ht. simpl in Ht.
  revert Ht. generalize (rev u). intros l. induction l as [|x l IH]; simpl; [done|]. destruct (is_ws x); [done|].
  simpl. rewrite length_app. simpl. lia.
Qed.

Lemma records_text j : is_obj j = true → serialisable j = true → records (stringify j) = [j].
Proof.
  intros Ho Hj. unfold records. rewrite split_char_none by apply stringify_no_break. simpl. by rewrite record_text.
Qed.

Lemma records_torn j s t :
  is_obj j = true → serialisable j = true → stringify j = s ++ t → t ≠ [] → records s = [].
Proof.
  intros Ho Hj E Ht. unfold records. rewrite split_char_none.
  - simpl. unfold record_of. rewrite (torn_unparsed j s t) by done. by case_bool_decide.
  - intros Hin. apply (stringify_no_break j). rewrite E. set_solver.
Qed.

Lemma whole_line s j : whole (s ++ line j).
Proof. right. exists (s ++ stringify j). unfold line. by rewrite app_assoc. Qed.

(** A record added to a text in which nothing is left open is one more record. *)
Lemma records_add s j :
  whole s → is_obj j = true → serialisable j = true → records (s ++ line j) = records s ++ [j].
Proof.
  intros Hs Ho Hj. rewrite records_whole by done. unfold line. by rewrite records_break, records_nil, app_nil_r, records_text.
Qed.

(** A text that does lie open is closed by a newline, at no loss. *)
Lemma records_close s j :
  is_obj j = true → serialisable j = true → records (s ++ LF :: line j) = records s ++ [j].
Proof. intros Ho Hj. rewrite records_break. f_equal. by apply (records_add [] j (or_introl eq_refl)). Qed.

(** Part of a record adds nothing, or the record. *)
Lemma records_part s j n :
  whole s → is_obj j = true → serialisable j = true →
  records (s ++ take n (line j)) = records s ∨ records (s ++ take n (line j)) = records s ++ [j].
Proof.
  intros Hs Ho Hj. rewrite records_whole by done. unfold line.
  destruct (decide (n < length (stringify j))%nat) as [Hn|Hn].
  - left. rewrite take_app_le by lia.
    rewrite (records_torn j (take n (stringify j)) (drop n (stringify j)));
      [by rewrite app_nil_r|done|done|by rewrite take_drop|].
    intros E%(f_equal length). rewrite length_drop in E. simpl in E. lia.
  - right. f_equal. rewrite take_app_ge by lia. destruct (n - length (stringify j))%nat as [|k].
    + simpl. by rewrite app_nil_r, records_text.
    + simpl. by rewrite take_nil, records_break, records_nil, app_nil_r, records_text.
Qed.
