(* ===== verification/Transcript.v ===== *)
(** * Local transcripts

    Models [packages/mocactl/src/core/transcripts.ts]: the terminal client keeps what a session
    showed in a file of JSON lines per session, so that the session can be resumed with its
    history.  Streamed text is held back until something else comes, then written as one
    record.  Files outlive the process; the store's caches do not.  An append may fail after any
    number of bytes (the process dies, or the disk is full); reading does not fail.  Text is
    UTF-8, and a frame has the shape its type declares, as the harness's frames do. *)

From Stdlib Require Import QArith.
From S2P Require Import Prelude JsNumber Json JsonText Leaf TurnStream JsonLines.

Local Open Scope Z_scope.

(** ** Frames, as the client keeps them *)

Inductive CFrame := KnownF (f : TurnStreamFrame) | UnknownF (event : string) (data : json).

Definition cframe_json (f : CFrame) : json :=
  match f with
  | KnownF f => frame_json f
  | UnknownF e d => JObj [("type", JStr "unknown"); ("event", JStr e); ("data", d)]
  end.

(** ** Titles *)

(** The characters of UTF-8 text: an ASCII byte, or another and the continuation bytes after it. *)
Fixpoint chars_of (s : bytes) : list bytes :=
  match s with
  | [] => []
  | c :: r =>
      match chars_of r with
      | (d :: ds) :: rest =>
          if continuation d && (128 <=? nat_of_ascii c)%nat then (c :: d :: ds) :: rest else [c] :: (d :: ds) :: rest
      | other => [c] :: other
      end
  end.

(** [\s]: the ASCII white space, U+00A0, U+1680, U+2000-200A, U+2028, U+2029, U+202F, U+205F,
    U+3000 and U+FEFF. *)
Definition ws_char (c : bytes) : bool :=
  match nat_of_ascii <$> c with
  | [n] => ((9 <=? n) && (n <=? 13) || (n =? 32))%nat
  | [n; m] => ((n =? 194) && (m =? 160))%nat
  | [n; m; k] =>
      ((n =? 225) && (m =? 154) && (k =? 128)
       || (n =? 226) && (m =? 128) && ((k <=? 138) || (k =? 168) || (k =? 169) || (k =? 175))
       || (n =? 226) && (m =? 129) && (k =? 159)
       || (n =? 227) && (m =? 128) && (k =? 128)
       || (n =? 239) && (m =? 187) && (k =? 191))%nat
  | _ => false
  end.

Definition SPACE : bytes := [" "%char].

(** [.replace(/\s+/g, ' ')] *)
Fixpoint squeeze (after_ws : bool) (l : list bytes) : list bytes :=
  match l with
  | [] => []
  | c :: r => if ws_char c then (if after_ws then squeeze true r else SPACE :: squeeze true r) else c :: squeeze false r
  end.

Fixpoint drop_ws (l : list bytes) : list bytes :=
  match l with c :: r => if ws_char c then drop_ws r else l | [] => [] end.

Definition trimEnd (l : list bytes) : list bytes := rev (drop_ws (rev l)).
Definition trim_chars (l : list bytes) : list bytes := trimEnd (drop_ws l).

(** The number of UTF-16 units, in which [length] and [lastIndexOf] count. *)
Definition units (l : list bytes) : nat := foldr (fun c n => (if length c =? 4 then 2 else 1) + n)%nat O l.

(** What is before the last space, if there is one. *)
Definition before_last_space (l : list bytes) : option (list bytes) :=
  match list_find (fun c => c = SPACE) (rev l) with
  | Some (i, _) => Some (take (length l - 1 - i) l)
  | None => None
  end.

Definition ELLIPSIS : bytes := ascii_of_nat <$> [226; 128; 166]%nat.

Definition deriveTitle_chars (prompt : bytes) (max : nat) : list bytes :=
  let flat := trim_chars (squeeze false (chars_of prompt)) in
  if (length flat <=? max)%nat then flat
  else
    let cut := take max flat in
    let kept := match before_last_space cut with
                | Some before => if (units cut <? 2 * units before)%nat then before else cut
                | None => cut
                end in
    trimEnd kept ++ [ELLIPSIS].

Definition deriveTitle (prompt : string) : string := string_of (concat (deriveTitle_chars (bytes_of prompt) 50)).

(** ** Records *)

Record TranscriptOwner := mkOwner { subject : string; controlPlaneUrl : string }.

Inductive source := auto | user.

Inductive Rec :=
| RHeader (createdAt : Z) (o : TranscriptOwner)
| RPrompt (at_ : Z) (text : string)
| RFrame (at_ : Z) (frame : CFrame)
| RTitle (at_ : Z) (title : string) (src : source).

Definition num (n : Z) : json := JNum (inject_Z n).

Definition rec_json (r : Rec) : json :=
  match r with
  | RHeader t o => JObj [("kind", JStr "header"); ("v", num 1); ("createdAt", num t);
                         ("subject", JStr (subject o)); ("controlPlaneUrl", JStr (controlPlaneUrl o))]
  | RPrompt t s => JObj [("kind", JStr "prompt"); ("at", num t); ("text", JStr s)]
  | RFrame t f => JObj [("kind", JStr "frame"); ("at", num t); ("frame", cframe_json f)]
  | RTitle t s src => JObj [("kind", JStr "title"); ("at", num t); ("title", JStr s);
                            ("source", JStr (match src with auto => "auto" | user => "user" end))]
  end.

(** ** The store *)

Inductive ptype := PText | PThinking.
#[global] Instance ptype_eq : EqDecision ptype.
Proof. solve_decision. Defined.

Definition pframe (p : ptype * string) : CFrame :=
  KnownF (match p.1 with PText => FText p.2 | PThinking => FThinking p.2 end).

Record Store := mkStore {
  pending : list (string * (ptype * string));
  titled : list string;
  ownershipCache : list (string * bool);
  tailChecked : list string;
}.

Definition new_store : Store := mkStore [] [] [] [].

(** What the next append meets: nothing, a directory that cannot be made or protected, or a
    failure after some bytes. *)
Inductive fault := Fine | DirFails | Torn (n : nat).

Record World := mkWorld {
  files : gmap string bytes;
  store : Store;
  clock : list Z;
  disk : list fault;
}.

(** Code that reads and changes the world, and may throw with its changes made so far. *)
Definition M (A : Type) : Type := World → result string A * World.

Definition mret {A} (a : A) : M A := fun w => (Ok a, w).
Definition mthrow {A} (e : string) : M A := fun w => (Throw e, w).
Definition mbind {A B} (m : M A) (k : A → M B) : M B :=
  fun w => match m w with (Ok a, w') => k a w' | (Throw e, w') => (Throw e, w') end.

Notation "'do' x <- m ; k" := (mbind m (fun x => k))
  (at level 60, x binder, m at next level, right associativity) : moca_scope.
Notation "'do!' m ; k" := (mbind m (fun _ => k))
  (at level 60, m at next level, right associativity) : moca_scope.
Notation "'when' b 'else' d ; k" := (if b then k else d)
  (at level 60, b at level 59, d at level 59, right associativity, only parsing) : moca_scope.

Definition get_store {A} (f : Store → A) : M A := fun w => (Ok (f (store w)), w).
Definition set_store (f : Store → Store) : M unit :=
  fun w => (Ok tt, mkWorld (files w) (f (store w)) (clock w) (disk w)).

Definition now : M Z := fun w =>
  (Ok (default 0 (head (clock w))), mkWorld (files w) (store w) (tail (clock w)) (disk w)).

Definition set_pending (p : list (string * (ptype * string))) (s : Store) : Store :=
  mkStore p (titled s) (ownershipCache s) (tailChecked s).
Definition set_titled (t : list string) (s : Store) : Store :=
  mkStore (pending s) t (ownershipCache s) (tailChecked s).
Definition set_cache (c : list (string * bool)) (s : Store) : Store :=
  mkStore (pending s) (titled s) c (tailChecked s).
Definition set_checked (c : list string) (s : Store) : Store :=
  mkStore (pending s) (titled s) (ownershipCache s) c.

(** [Set.add], [Set.delete] *)
Definition set_add (x : string) (l : list string) : list string := if bool_decide (x ∈ l) then l else l ++ [x].
Definition set_del (x : string) (l : list string) : list string := filter (fun y => y ≠ x) l.

(** [/^[A-Za-z0-9._-]+$/] *)
Definition safe_char (c : ascii) : bool :=
  let n := nat_of_ascii c in
  ((48 <=? n) && (n <=? 57) || (65 <=? n) && (n <=? 90) || (97 <=? n) && (n <=? 122)
   || (n =? 46) || (n =? 95) || (n =? 45))%nat.

Definition SAFE_ID (id : string) : bool := negb (bool_decide (id = "")) && forallb safe_char (bytes_of id).

Definition file (id : string) : M (option bytes) := fun w =>
  if SAFE_ID id then (Ok (files w !! id), w) else (Throw ("refusing unsafe session id: " +:+ id), w).

Definition endsTorn (content : option bytes) : bool :=
  match content with
  | None | Some [] => false
  | Some l => negb (bool_decide (last l = Some LF))
  end.

Definition of_kind (kind : string) (j : json) : bool := bool_decide (as_string (field "kind" j) = Some kind).

(** [header.subject === owner.subject && header.controlPlaneUrl === owner.controlPlaneUrl] *)
Definition names_owner (o : TranscriptOwner) (j : json) : bool :=
  bool_decide (as_string (field "subject" j) = Some (subject o))
  && bool_decide (as_string (field "controlPlaneUrl" j) = Some (controlPlaneUrl o)).

Section Owner.
Context (owner : TranscriptOwner).

Definition ownsFile (id : string) : M bool :=
  do cache <- get_store ownershipCache;
  match map_get id cache with
  | Some b => mret b
  | None =>
      do content <- file id;
      let owns := match content with
                  | None => true
                  | Some text => match list_find (fun r => of_kind "header" r = true) (records text) with
                                 | Some (_, h) => names_owner owner h
                                 | None => false
                                 end
                  end in
      do! set_store (fun s => set_cache (map_set id owns (ownershipCache s)) s);
      mret owns
  end.

Definition append (id : string) (data : bytes) (f : fault) : M unit := fun w =>
  let old := default [] (files w !! id) in
  match f with
  | Torn n => (Throw "append failed", mkWorld (<[id := old ++ take n data]> (files w)) (store w) (clock w) (disk w))
  | _ => (Ok tt, mkWorld (<[id := old ++ data]> (files w)) (store w) (clock w) (disk w))
  end.

Definition next_fault : M fault := fun w =>
  (Ok (default Fine (head (disk w))), mkWorld (files w) (store w) (clock w) (tail (disk w))).

Definition write (id : string) (rec : Rec) : M unit :=
  do f <- next_fault;
  match f with
  | DirFails => mthrow "mkdir failed"
  | _ =>
      do content <- file id;
      do checked <- get_store tailChecked;
      let sep := if bool_decide (id ∈ checked) then [] else if endsTorn content then [LF] else [] in
      do! set_store (fun s => set_checked (set_add id (tailChecked s)) s);
      append id (sep ++ line (rec_json rec)) f
  end.

Definition has (id : string) : M bool := do content <- file id; mret (bool_decide (is_Some content)).

Definition ensure (id : string) : M unit :=
  do createdAt <- now;
  do owns <- ownsFile id;
  when owns else mret tt;
  do present <- has id;
  if present then mret tt else write id (RHeader createdAt owner).

Definition flush (id : string) : M unit :=
  do owns <- ownsFile id;
  when owns else mret tt;
  do p <- get_store pending;
  match map_get id p with
  | None => mret tt
  | Some p =>
      do! set_store (fun s => set_pending (map_delete id (pending s)) s);
      do at_ <- now;
      write id (RFrame at_ (pframe p))
  end.

(** ** Loading *)

Inductive TranscriptEntry := EPrompt (text : option json) | EFrame (frame : option json).

(** [None] for a total that has stopped being a number. *)
Record UsageTotals := mkTotals {
  input : option Q; output : option Q; cacheRead : option Q; cacheWrite : option Q; total : option Q; turns : Z;
}.

Definition zeroUsage : UsageTotals := mkTotals (Some 0%Q) (Some 0%Q) (Some 0%Q) (Some 0%Q) (Some 0%Q) 0.

Record Transcript := mkTranscript {
  createdAt : option json;
  title : option json;
  titleSource : option json;
  entries : list TranscriptEntry;
  prompts : list (option json);
  usage : UsageTotals;
  header : option json;
}.

Definition no_transcript : Transcript := mkTranscript (Some (num 0)) None None [] [] zeroUsage None.

Definition add_num (acc : option Q) (v : option json) : option Q :=
  match acc, v with Some a, Some (JNum q) => Some (a + q)%Q | _, _ => None end.

(** [t.usage.turns += 1], and the figures of a frame that has any. *)
Definition add_usage (u : option json) (t : UsageTotals) : UsageTotals :=
  match u with
  | Some u =>
      if truthy u
      then mkTotals (add_num (input t) (field "input" u)) (add_num (output t) (field "output" u))
             (add_num (cacheRead t) (field "cacheRead" u)) (add_num (cacheWrite t) (field "cacheWrite" u))
             (add_num (total t) (field "total" u)) (turns t + 1)
      else mkTotals (input t) (output t) (cacheRead t) (cacheWrite t) (total t) (turns t + 1)
  | None => mkTotals (input t) (output t) (cacheRead t) (cacheWrite t) (total t) (turns t + 1)
  end.

Definition terminal_json (f : json) : bool :=
  bool_decide (as_string (field "type" f) = Some "done" ∨ as_string (field "type" f) = Some "error").

(** One record; [None] when it, or its frame, has no fields to read, which throws. *)
Definition load_frame (f : json) (t : Transcript) : option Transcript :=
  match f with
  | JNull => None
  | _ => Some (mkTranscript (createdAt t) (title t) (titleSource t) (entries t ++ [EFrame (Some f)]) (prompts t)
                 (if terminal_json f then add_usage (field "usage" f) (usage t) else usage t) (header t))
  end.

Definition load_fields (rec : json) (t : Transcript) : option Transcript :=
  if of_kind "header" rec then
    Some (mkTranscript (field "createdAt" rec) (title t) (titleSource t) (entries t) (prompts t) (usage t) (Some rec))
  else if of_kind "title" rec then
    Some (mkTranscript (createdAt t) (field "title" rec) (field "source" rec) (entries t) (prompts t) (usage t) (header t))
  else if of_kind "prompt" rec then
    Some (mkTranscript (createdAt t) (title t) (titleSource t) (entries t ++ [EPrompt (field "text" rec)])
            (prompts t ++ [field "text" rec]) (usage t) (header t))
  else if of_kind "frame" rec then field "frame" rec ≫= fun f => load_frame f t
  else Some t.

Definition load_rec (rec : json) (t : Transcript) : option Transcript :=
  match rec with JNull => None | _ => load_fields rec t end.

Fixpoint load_recs (recs : list json) (t : Transcript) : option Transcript :=
  match recs with
  | [] => Some t
  | r :: recs' => load_rec r t ≫= load_recs recs'
  end.

Definition load (id : string) : M (option Transcript) :=
  do content <- file id;
  match content with
  | None => mret None
  | Some text =>
      match load_recs (records text) no_transcript with
      | None => mthrow "Cannot read properties of null"
      | Some t => mret (match header t with
                        | Some h => if names_owner owner h then Some t else None
                        | None => None
                        end)
      end
  end.

(** ** The other operations *)

Definition write_title (id : string) (text : string) : M unit :=
  do t <- load id;
  match t ≫= title with
  | Some _ => mret tt
  | None => do at_ <- now; write id (RTitle at_ (deriveTitle text) auto)
  end.

Definition appendPrompt (id : string) (text : string) : M unit :=
  do owns <- ownsFile id;
  when owns else mret tt;
  do! ensure id;
  do! flush id;
  do names <- get_store titled;
  do! (if bool_decide (id ∈ names) then mret tt
       else do! write_title id text; set_store (fun s => set_titled (set_add id (titled s)) s));
  do at_ <- now;
  write id (RPrompt at_ text).

Definition streamed (f : CFrame) : option (ptype * string) :=
  match f with
  | KnownF (FText d) => Some (PText, d)
  | KnownF (FThinking d) => Some (PThinking, d)
  | _ => None
  end.

Definition appendFrame (id : string) (frame : CFrame) : M unit :=
  do owns <- ownsFile id;
  when owns else mret tt;
  do! ensure id;
  match streamed frame with
  | Some (ty, delta) =>
      do pend <- get_store pending;
      let hold d := set_store (fun s => set_pending (map_set id (ty, d) (pending s)) s) in
      match map_get id pend with
      | Some (ty', d) => if decide (ty' = ty) then hold (d +:+ delta) else do! flush id; hold delta
      | None => do! flush id; hold delta
      end
  | None =>
      do! flush id;
      do at_ <- now;
      write id (RFrame at_ frame)
  end.

Definition rename (id : string) (title : string) : M unit :=
  do owns <- ownsFile id;
  when owns else mret tt;
  do! ensure id;
  do! set_store (fun s => set_titled (set_add id (titled s)) s);
  do at_ <- now;
  write id (RTitle at_ title user).

Definition delete (id : string) : M unit :=
  do! set_store (fun s => mkStore (map_delete id (pending s)) (set_del id (titled s))
                            (map_delete id (ownershipCache s)) (set_del id (tailChecked s)));
  do _ <- file id;
  fun w => (Ok tt, mkWorld (base.delete id (files w)) (store w) (clock w) (disk w)).

(** ** What the session manager does with it *)

Inductive act :=
| APrompt (id text : string)
| AFrame (id : string) (f : CFrame)
| AFlush (id : string)
| ARename (id title : string)
| AEnsure (id : string).

Definition act_id (a : act) : string :=
  match a with APrompt id _ | AFrame id _ | AFlush id | ARename id _ | AEnsure id => id end.

Definition perform (a : act) : M unit :=
  match a with
  | APrompt id t => appendPrompt id t
  | AFrame id f => appendFrame id f
  | AFlush id => flush id
  | ARename id t => rename id t
  | AEnsure id => ensure id
  end.

(** [transcriptSafe]: an error leaves what was done so far. *)
Definition safely (a : act) (w : World) : World := (perform a w).2.

Definition perform_all (l : list act) (w : World) : World := foldl (fun w a => safely a w) w l.

(** The process ends, and another starts. *)
Definition restart (w : World) : World := mkWorld (files w) new_store (clock w) [].

(** ** The state of a session's file *)

Definition content (w : World) (id : string) : bytes := default [] (files w !! id).
Definition hist (w : World) (id : string) : list json := records (content w id).
Definition held (w : World) (id : string) : option (ptype * string) := map_get id (pending (store w)).

(** A header that names this owner. *)
Definition is_header (r : json) : Prop := of_kind "header" r = true ∧ names_owner owner r = true.

(** A record that can be read. *)
Definition rec_good (r : json) : Prop := ∀ t, is_Some (load_rec r t).

(** The headers of a file all name this owner, or none does. *)
Definition one_owner (recs : list json) : Prop :=
  Forall (fun r => of_kind "header" r = true → names_owner owner r = true) recs
  ∨ Forall (fun r => of_kind "header" r = true → names_owner owner r = false) recs.

Definition has_header (w : World) (id : string) : Prop := Exists is_header (hist w id).

Definition safe_int (n : Z) : Prop := Z.abs n ≤ MAX_SAFE_INTEGER.

(** What survives any failure. *)
Definition kept (w : World) : Prop :=
  (∀ id, Forall rec_good (hist w id) ∧ one_owner (hist w id)) ∧ Forall safe_int (clock w).

Record inv (w : World) : Prop := mkInv {
  inv_kept : kept w;
  inv_cache : ∀ id b, map_get id (ownershipCache (store w)) = Some b →
    if b then files w !! id = None ∨ has_header w id else files w !! id ≠ None ∧ ¬ has_header w id;
  inv_pending : ∀ id p, held w id = Some p → has_header w id;
  inv_tail : ∀ id, id ∈ tailChecked (store w) → whole (content w id);
}.

Definition grew (w w' : World) : Prop := ∀ id, hist w id `prefix_of` hist w' id.

Definition elsewhere (id : string) (w w' : World) : Prop :=
  ∀ id', id' ≠ id → files w' !! id' = files w !! id' ∧ held w' id' = held w id'.

(** [m], working on session [id], ends well and then [Q] holds, or fails having lost nothing;
    without a fault it only fails on an id that is refused. *)
Definition goes (id : string) {A} (Q : A → World → Prop) (m : M A) (w : World) : Prop :=
  let '(r, w') := m w in
  grew w w' ∧ elsewhere id w w' ∧ (disk w = [] → disk w' = []) ∧
  match r with
  | Ok a => inv w' ∧ Q a w'
  | Throw _ => kept w' ∧ (disk w = [] → SAFE_ID id = false)
  end.

Lemma grew_refl w : grew w w.
Proof. by intros id. Qed.

Lemma grew_trans w1 w2 w3 : grew w1 w2 → grew w2 w3 → grew w1 w3.
Proof. intros H1 H2 id. by transitivity (hist w2 id). Qed.

Lemma elsewhere_trans id w1 w2 w3 : elsewhere id w1 w2 → elsewhere id w2 w3 → elsewhere id w1 w3.
Proof. intros H1 H2 id' Hne. destruct (H1 id' Hne) as [<- <-]. by apply H2. Qed.

Lemma goes_ret id {A} (Q : A → World → Prop) a w : inv w → Q a w → goes id Q (mret a) w.
Proof. intros Hi HQ. split_and!; [apply grew_refl|done|done|done|done]. Qed.

Lemma goes_bind id {A B} (Q1 : A → World → Prop) (Q : B → World → Prop) m (k : A → M B) w :
  goes id Q1 m w → (∀ a w1, inv w1 → Q1 a w1 → goes id Q (k a) w1) → goes id Q (mbind m k) w.
Proof.
  unfold goes, mbind. destruct (m w) as [[a|e] w1]; [|done]. intros (Hg & He & Hd & Hi & HQ) Hk.
  specialize (Hk a w1 Hi HQ). destruct (k a w1) as [r w2]. destruct Hk as (Hg' & He' & Hd' & Hr).
  split_and!; [by eapply grew_trans|by eapply elsewhere_trans|by auto|].
  destruct r; [done|]. destruct Hr as [Hk Hs]. split; auto.
Qed.

Lemma goes_mono id {A} (Q Q' : A → World → Prop) m w : (∀ a w', Q a w' → Q' a w') → goes id Q m w → goes id Q' m w.
Proof. intros HQ. unfold goes. destruct (m w) as [[a|e] w1]; [|done]. intros (?&?&?&?&?). split_and!; auto. Qed.

(** Changes of the store alone. *)
Lemma goes_set id f w (Q : unit → World → Prop) :
  let w' := mkWorld (files w) (f (store w)) (clock w) (disk w) in
  inv w' → (∀ id', id' ≠ id → held w' id' = held w id') → Q tt w' → goes id Q (set_store f) w.
Proof. intros w' Hi He HQ. split_and!; [intros x; reflexivity|by intros x Hx; split; [|apply He]|done|done|done]. Qed.

Lemma goes_get id {A} (f : Store → A) w (Q : A → World → Prop) : inv w → Q (f (store w)) w → goes id Q (get_store f) w.
Proof. intros Hi HQ. split_and!; [apply grew_refl|done|done|done|done]. Qed.

Lemma goes_now id w (Q : Z → World → Prop) :
  inv w → (∀ n w', safe_int n → files w' = files w → store w' = store w → disk w' = disk w → inv w' → Q n w') →
  goes id Q now w.
Proof.
  intros Hi HQ. pose proof Hi as [[Hg Hc] H1 H2 H3].
  assert (inv (mkWorld (files w) (store w) (tail (clock w)) (disk w))) as Hi'.
  { constructor; [split; [done|]|done|done|done]. simpl. destruct (clock w); [done|]. by inversion Hc. }
  split_and!; [intros x; reflexivity|by intros x Hx|done|done|]. apply HQ; [|done..].
  destruct (clock w); simpl; [done|]. by inversion Hc.
Qed.

Lemma goes_file id w (Q : option bytes → World → Prop) : inv w → (SAFE_ID id = true → Q (files w !! id) w) → goes id Q (file id) w.
Proof.
  intros Hi HQ. unfold goes, file. destruct (SAFE_ID id) eqn:E.
  - split_and!; [apply grew_refl|done|done|done|by apply HQ].
  - split_and!; [apply grew_refl|done|done|by apply Hi|done].
Qed.

Lemma rec_is_obj r : is_obj (rec_json r) = true.
Proof. by destruct r. Qed.

Lemma not_torn_whole c : endsTorn c = false → whole (default [] c).
Proof.
  destruct c as [l|]; [|by left]. destruct l as [|x l _] using rev_ind; [by left|]. simpl.
  intros H. right. exists l. f_equal. f_equal. destruct (l ++ [x]) as [|y r] eqn:E; [by destruct l|].
  rewrite <-E, last_snoc in H. to_prop. by simplify_eq.
Qed.

(** The bytes an append adds, given whether the end of the file was looked at. *)
Definition added (w : World) (id : string) (r : Rec) : bytes :=
  (if bool_decide (id ∈ tailChecked (store w)) then [] else if endsTorn (files w !! id) then [LF] else [])
  ++ line (rec_json r).

Lemma added_hist w id r :
  inv w → serialisable (rec_json r) = true →
  records (content w id ++ added w id r) = hist w id ++ [rec_json r] ∧ whole (content w id ++ added w id r).
Proof.
  intros Hi Hs. unfold added, hist. pose proof (rec_is_obj r) as Ho. split.
  - case_bool_decide as Hc; [apply records_add; [by apply Hi|done|done]|].
    destruct (endsTorn _) eqn:E; [by apply records_close|]. apply records_add; [by apply not_torn_whole|done|done].
  - rewrite app_assoc. apply whole_line.
Qed.

Lemma part_hist w id r n :
  inv w → serialisable (rec_json r) = true →
  records (content w id ++ take n (added w id r)) = hist w id
  ∨ records (content w id ++ take n (added w id r)) = hist w id ++ [rec_json r].
Proof.
  intros Hi Hs. unfold added, hist. pose proof (rec_is_obj r) as Ho.
  case_bool_decide as Hc; [by apply records_part; [apply Hi|..]|].
  destruct (endsTorn _) eqn:E; [|by apply records_part; [apply not_torn_whole|..]].
  destruct n as [|n]; simpl; [left; by rewrite app_nil_r|]. rewrite records_break.
  destruct (records_part [] (rec_json r) n (or_introl eq_refl) Ho Hs) as [H|H]; simpl in H; rewrite H;
    [left; by rewrite app_nil_r|by right].
Qed.

Definition put_file (id : string) (c : bytes) (w : World) : World :=
  mkWorld (<[id := c]> (files w)) (set_checked (set_add id (tailChecked (store w))) (store w)) (clock w) (tail (disk w)).

Lemma put_file_hist id c w id' : hist (put_file id c w) id' = if decide (id' = id) then records c else hist w id'.
Proof.
  unfold hist, content, put_file. simpl. case_decide as Hd; [subst; by rewrite lookup_insert_eq|].
  by rewrite lookup_insert_ne by done.
Qed.

Lemma set_add_in x y l : x ∈ set_add y l → x = y ∨ x ∈ l.
Proof. unfold set_add. case_bool_decide; set_solver. Qed.

Lemma kept_add l r :
  Forall rec_good l ∧ one_owner l → rec_good (rec_json r) →
  (is_header (rec_json r) ∧ l = []) ∨ (of_kind "header" (rec_json r) = false ∧ Exists is_header l) →
  Forall rec_good (l ++ [rec_json r]) ∧ one_owner (l ++ [rec_json r]).
Proof.
  intros [Hg Ho] Hr Hh. split; [apply Forall_app; by split; [|constructor]|].
  destruct Hh as [[[Hk Hn] ->]|[Hk _]]; [left; by constructor|].
  destruct Ho as [Ho|Ho]; [left|right]; apply Forall_app; (split; [done|]); constructor; try done; by rewrite Hk.
Qed.

Lemma put_file_inv id c w r :
  inv w → records c = hist w id ++ [rec_json r] → whole c → rec_good (rec_json r) →
  (is_header (rec_json r) ∧ files w !! id = None) ∨ (of_kind "header" (rec_json r) = false ∧ has_header w id) →
  inv (put_file id c w).
Proof.
  intros [[Hg Hc] H1 H2 H3] Hr Hw Hgood Hh.
  assert (has_header (put_file id c w) id) as Hhd.
  { unfold has_header. rewrite put_file_hist, decide_True, Hr by done. apply Exists_app.
    destruct Hh as [[Hh _]|[_ Hh]]; [right; by constructor|by left]. }
  assert (∀ id', id' ≠ id → has_header (put_file id c w) id' = has_header w id') as Hoth.
  { intros id' Hne. unfold has_header. by rewrite put_file_hist, decide_False. }
  constructor.
  - split; [|done]. intros id'. rewrite put_file_hist. case_decide; [|done]. rewrite Hr. apply kept_add; [done|done|].
    destruct Hh as [[Hh Hn]|Hh]; [left|by right]. split; [done|]. unfold hist, content. by rewrite Hn.
  - intros id' b Hb. simpl in Hb. destruct (decide (id' = id)) as [->|Hne].
    + specialize (H1 _ _ Hb). destruct b; [by right|]. destruct H1 as [Hf Hn].
      destruct Hh as [[_ Hh]|[_ Hh]]; [by destruct Hf|by destruct Hn].
    + specialize (H1 _ _ Hb). rewrite (Hoth _ Hne). unfold put_file. simpl. by rewrite lookup_insert_ne.
  - intros id' p Hp. destruct (decide (id' = id)) as [->|Hne]; [done|]. rewrite (Hoth _ Hne). by eapply H2.
  - intros id' Hin. unfold content, put_file. simpl. destruct (decide (id' = id)) as [->|Hne]; [by rewrite lookup_insert_eq|].
    rewrite lookup_insert_ne by done. apply H3. by apply set_add_in in Hin as [?|?].
Qed.

Lemma goes_write id r w (Q : unit → World → Prop) :
  inv w → serialisable (rec_json r) = true → rec_good (rec_json r) →
  (is_header (rec_json r) ∧ files w !! id = None) ∨ (of_kind "header" (rec_json r) = false ∧ has_header w id) →
  (∀ w', inv w' → hist w' id = hist w id ++ [rec_json r] → held w' id = held w id → is_Some (files w' !! id) → Q tt w') →
  goes id Q (write id r) w.
Proof.
  intros Hi Hs Hgood Hh HQ. destruct (added_hist w id r Hi Hs) as [Hr Hw].
  unfold goes, write, mbind, next_fault, file, get_store, set_store. simpl.
  destruct (default Fine (head (disk w))) as [| |n] eqn:Ef; simpl.
  2: { split_and!; [by intros x|done|intros E; by rewrite E|apply Hi|intros E; by rewrite E in Ef]. }
  - destruct (SAFE_ID id) eqn:Eid; simpl.
    2: { split_and!; [by intros x|done|intros E; by rewrite E|apply Hi|done]. }
    fold (content w id). fold (added w id r). change (mkWorld _ _ _ _) with (put_file id (content w id ++ added w id r) w).
    assert (hist (put_file id (content w id ++ added w id r) w) id = hist w id ++ [rec_json r]) as Hid
      by (by rewrite put_file_hist, decide_True).
    split_and!.
    + intros x. rewrite put_file_hist. case_decide; [subst; rewrite Hr; by eexists|done].
    + intros x Hne. simpl. by rewrite lookup_insert_ne.
    + intros E. simpl. by rewrite E.
    + by eapply put_file_inv.
    + apply HQ; [by eapply put_file_inv|done|done|]. simpl. rewrite lookup_insert_eq. by eexists.
  - destruct (SAFE_ID id) eqn:Eid; simpl.
    2: { split_and!; [by intros x|done|intros E; by rewrite E|apply Hi|done]. }
    fold (content w id). fold (added w id r).
    change (mkWorld _ _ _ _) with (put_file id (content w id ++ take n (added w id r)) w).
    assert (hist w id `prefix_of` hist (put_file id (content w id ++ take n (added w id r)) w) id
            ∧ Forall rec_good (hist (put_file id (content w id ++ take n (added w id r)) w) id)
            ∧ one_owner (hist (put_file id (content w id ++ take n (added w id r)) w) id)) as [Hpre Hgd].
    { rewrite put_file_hist, decide_True by done. destruct (inv_kept _ Hi) as [Hg _].
      destruct (part_hist w id r n Hi Hs) as [->| ->]; [by split|]. split; [by eexists|].
      apply kept_add; [done|done|]. destruct Hh as [[Hh Hn]|Hh]; [left|by right].
      split; [done|]. unfold hist, content. by rewrite Hn. }
    split_and!.
    + intros x. destruct (decide (x = id)) as [->|Hne]; [done|]. by rewrite put_file_hist, decide_False.
    + intros x Hne. simpl. by rewrite lookup_insert_ne.
    + intros E. simpl. by rewrite E.
    + split; [|apply Hi]. intros x. destruct (decide (x = id)) as [->|Hne]; [done|].
      rewrite put_file_hist, decide_False by done. apply Hi.
    + intros E. by rewrite E in Ef.
Qed.

(** ** What a transcript shows, character by character *)

Inductive item := Ch (ty : ptype) (c : ascii) | Whole (e : TranscriptEntry).

Definition delta_of (f : json) : option (ptype * string) :=
  match as_string (field "type" f), as_string (field "delta" f) with
  | Some ty, Some d => if decide (ty = "text") then Some (PText, d)
                       else if decide (ty = "thinking") then Some (PThinking, d) else None
  | _, _ => None
  end.

Definition items (e : TranscriptEntry) : list item :=
  match e with
  | EFrame (Some f) => match delta_of f with Some (ty, d) => Ch ty <$> bytes_of d | None => [Whole e] end
  | _ => [Whole e]
  end.

Definition shows (es : list TranscriptEntry) : list item := es ≫= items.

Definition entry_of (r : json) : option TranscriptEntry :=
  if of_kind "header" r || of_kind "title" r then None
  else if of_kind "prompt" r then Some (EPrompt (field "text" r))
  else if of_kind "frame" r then Some (EFrame (field "frame" r)) else None.

Definition seen (w : World) (id : string) : list item :=
  shows (omap entry_of (hist w id))
  ++ match held w id with Some p => shows [EFrame (Some (cframe_json (pframe p)))] | None => [] end.

Definition shown_act (id : string) (a : act) : list TranscriptEntry :=
  match a with
  | APrompt id' t => if decide (id' = id) then [EPrompt (Some (JStr t))] else []
  | AFrame id' f => if decide (id' = id) then [EFrame (Some (cframe_json f))] else []
  | _ => []
  end.

Lemma shows_app a b : shows (a ++ b) = shows a ++ shows b.
Proof. apply bind_app. Qed.

Lemma shows_streamed f ty d : streamed f = Some (ty, d) → shows [EFrame (Some (cframe_json f))] = Ch ty <$> bytes_of d.
Proof.
  destruct f as [[]|]; try done; simpl; intros [= <- <-]; unfold shows; simpl; by rewrite app_nil_r.
Qed.

Lemma streamed_pframe p : streamed (pframe p) = Some p.
Proof. by destruct p as [[] d]. Qed.

Definition alive (w : World) (id : string) : Prop := files w !! id = None ∨ has_header w id.

Lemma goes_owns id w (Q : bool → World → Prop) :
  inv w →
  (∀ b w', inv w' → files w' = files w → pending (store w') = pending (store w) → disk w' = disk w →
     (b = true → alive w id) → (alive w id → b = true) → Q b w') →
  goes id Q (ownsFile id) w.
Proof.
  intros Hi HQ. unfold ownsFile. eapply goes_bind; [by apply (goes_get _ _ _ (fun a w' => a = ownershipCache (store w) ∧ w' = w))|].
  intros ? ? _ [-> ->]. destruct (map_get id _) as [b|] eqn:Ec.
  { apply goes_ret; [done|]. pose proof (inv_cache _ Hi _ _ Ec) as Hb. apply HQ; [done..| |].
    - by intros ->.
    - destruct b; [done|]. destruct Hb as [? ?]. by intros [?|?]. }
  eapply goes_bind; [by apply (goes_file _ _ (fun a w' => a = files w !! id ∧ w' = w))|]. intros ? ? _ [-> ->].
  set (owns := match files w !! id with Some _ => _ | None => _ end).
  assert (if owns then alive w id else files w !! id ≠ None ∧ ¬ has_header w id) as Ho.
  { subst owns. destruct (files w !! id) as [text|] eqn:Ef; [|by left].
    assert (hist w id = records text) as Eh by (unfold hist, content; by rewrite Ef).
    destruct (list_find _ (records text)) as [[i h]|] eqn:El.
    - apply list_find_Some in El as (Hl & Hh & _). apply list_elem_of_lookup_2 in Hl.
      destruct (names_owner owner h) eqn:En.
      + right. unfold has_header. rewrite Eh. apply Exists_exists. by exists h.
      + split; [done|]. unfold has_header. rewrite Eh. intros [x [Hx [Hk Hn]]]%Exists_exists.
        destruct (inv_kept _ Hi) as [Hg _]. destruct (Hg id) as [_ Ho]. rewrite Eh in Ho.
        destruct Ho as [Ho|Ho]; rewrite Forall_forall in Ho;
          [pose proof (Ho h Hl Hh); congruence|pose proof (Ho x Hx Hk); congruence].
    - split; [done|]. apply list_find_None in El. unfold has_header. rewrite Eh.
      intros [x [Hx [Hh _]]]%Exists_exists. rewrite Forall_forall in El. by apply (El x). }
  assert (inv (mkWorld (files w) (set_cache (map_set id owns (ownershipCache (store w))) (store w)) (clock w) (disk w))) as Hi'.
  { destruct Hi as [Hk H1 H2 H3]. constructor; [done| |done|done]. intros id' b Hb. simpl in Hb. rewrite map_get_set in Hb.
    case_decide as Hd; [|by apply H1 in Hb]. simplify_eq. by destruct b. }
  eapply goes_bind.
  - apply (goes_set _ _ _ (fun _ w' => inv w' ∧ files w' = files w ∧ pending (store w') = pending (store w) ∧ disk w' = disk w));
      [done|done|done].
  - intros _ w' _ (Hw & Hf & Hp & Hd). apply goes_ret; [done|]. apply HQ; [done..| |].
    + intros E. by rewrite E in Ho.
    + intros Ha. destruct owns; [done|]. destruct Ho as [? ?]. by destruct Ha.
Qed.

(** ** The records the store writes *)

Definition rec_ok (r : Rec) : Prop :=
  match r with
  | RHeader n o => safe_int n ∧ o = owner
  | RPrompt n _ | RTitle n _ _ => safe_int n
  | RFrame n f => safe_int n ∧ serialisable (cframe_json f) = true
  end.

Lemma rec_serialisable r : rec_ok r → serialisable (rec_json r) = true.
Proof.
  assert (∀ n, safe_int n → serialisable (num n) = true) as Hn by (intros n Hn; simpl; by apply Z.leb_le).
  destruct r as [n o|n s|n f|n s src]; cbn -[num cframe_json bool_decide]; intros H.
  1: destruct H as [H _]. 3: destruct H as [H ->].
  all: rewrite !Hn by done; by rewrite bool_decide_eq_true_2 by (by apply (bool_decide_unpack _)).
Qed.

Lemma rec_json_good r : rec_ok r → rec_good (rec_json r).
Proof.
  intros H tr. destruct r as [n o|n s|n f|n s src]; simpl; try done. destruct f as [f|e d]; simpl; [|done]. by destruct f.
Qed.

Lemma header_names n : is_header (rec_json (RHeader n owner)).
Proof. split; [done|]. unfold names_owner. simpl. by rewrite !bool_decide_eq_true_2. Qed.

Definition ents (w : World) (id : string) : list TranscriptEntry := omap entry_of (hist w id).

(** An append to a session whose file names its owner. *)
Lemma goes_record id r w (Q : unit → World → Prop) :
  inv w → rec_ok r → of_kind "header" (rec_json r) = false → has_header w id →
  (∀ w', inv w' → has_header w' id → held w' id = held w id → hist w' id = hist w id ++ [rec_json r] → Q tt w') →
  goes id Q (write id r) w.
Proof.
  intros Hi Hr Hk Hh HQ. apply goes_write; [done|by apply rec_serialisable|by apply rec_json_good|by right|].
  intros w' Hi' E Hp _. apply HQ; [done| |done|done]. unfold has_header. rewrite E. apply Exists_app. by left.
Qed.

Lemma same_hist w w' id : files w' = files w → hist w' id = hist w id.
Proof. unfold hist, content. by intros ->. Qed.

Lemma same_held w w' id : pending (store w') = pending (store w) → held w' id = held w id.
Proof. unfold held. by intros ->. Qed.

Lemma goes_ensure id w :
  inv w → goes id (fun _ w' => alive w id → has_header w' id ∧ held w' id = held w id ∧ ents w' id = ents w id) (ensure id) w.
Proof.
  intros Hi. unfold ensure. eapply goes_bind.
  { apply (goes_now id w (fun n w' => safe_int n ∧ files w' = files w ∧ store w' = store w)); [done|]. eauto. }
  intros n w1 Hi1 (Hn & Hf & Hs). eapply goes_bind.
  { apply (goes_owns id w1 (fun b w' => files w' = files w ∧ pending (store w') = pending (store w) ∧ (b = false → ¬ alive w id) ∧ (b = true → alive w id))); [done|].
    intros b w' Hi' Hf' Hp _ H1 H2. rewrite Hf', Hp, Hf, Hs. unfold alive, has_header in *.
    rewrite Hf, (same_hist _ _ _ Hf) in *. split_and!; [done|done| |done]. intros -> Ha. by specialize (H2 Ha). }
  intros b w2 Hi2 (Hf2 & Hp2 & Hb & Hb'). destruct b; [|apply goes_ret; [done|]; intros Ha; by destruct (Hb eq_refl)].
  unfold has, mbind at 1. specialize (Hb' eq_refl).
  eapply (goes_bind _ (fun a w' => w' = w2 ∧ a = bool_decide (is_Some (files w !! id)))).
  { eapply goes_bind; [apply (goes_file _ _ (fun a w' => w' = w2 ∧ a = files w !! id)); [done|by rewrite Hf2]|].
    intros a w' Hi' [-> ->]. by apply goes_ret. }
  intros a w3 _ [-> ->]. case_bool_decide as Hp.
  - apply goes_ret; [done|]. intros [Hn'|Hh]; [rewrite Hn' in Hp; by destruct Hp|]. unfold has_header, ents.
    rewrite (same_hist _ _ _ Hf2), (same_held w _ _ Hp2). done.
  - assert (files w !! id = None) as Hnone by (by apply eq_None_not_Some).
    apply goes_write; [done|by apply rec_serialisable|by apply rec_json_good| |].
    { left. rewrite Hf2. by split; [apply header_names|]. }
    intros w' Hi' E Hp' _ _. unfold has_header, ents. rewrite E, (same_hist w w2 id Hf2). split_and!.
    + apply Exists_app. right. constructor. apply header_names.
    + rewrite Hp'. by apply same_held.
    + rewrite omap_app. simpl. by rewrite app_nil_r.
Qed.

Lemma goes_flush id w :
  inv w →
  goes id (fun _ w' => alive w id → alive w' id ∧ (has_header w id → has_header w' id) ∧ held w' id = None
                       ∧ shows (ents w' id) = seen w id) (flush id) w.
Proof.
  intros Hi. unfold flush. eapply goes_bind.
  { apply (goes_owns id w (fun b w' => files w' = files w ∧ pending (store w') = pending (store w) ∧ (b = false → ¬ alive w id))); [done|].
    intros b w' Hi' Hf' Hp _ H1 H2. split_and!; [done|done|]. intros -> Ha. by specialize (H2 Ha). }
  intros b w1 Hi1 (Hf1 & Hp1 & Hb). destruct b; [|apply goes_ret; [done|]; intros Ha; by destruct (Hb eq_refl)].
  eapply goes_bind; [by apply (goes_get _ _ _ (fun a w' => a = pending (store w1) ∧ w' = w1))|]. intros ? ? _ [-> ->].
  pose proof (same_hist w w1 id Hf1) as Eh. fold (held w1 id). rewrite (same_held w w1 id Hp1).
  destruct (held w id) as [p|] eqn:Eheld.
  2: { apply goes_ret; [done|]. intros Ha. unfold alive, has_header, ents, seen in *.
       rewrite Hf1, Eh, (same_held w w1 id Hp1), Eheld, app_nil_r. done. }
  pose proof (inv_pending _ Hi _ _ Eheld) as Hh.
  set (w2 := mkWorld (files w1) (set_pending (map_delete id (pending (store w1))) (store w1)) (clock w1) (disk w1)).
  eapply (goes_bind _ (fun _ w' => w' = w2)).
  { apply goes_set; [|by intros id' Hne; unfold held; simpl; rewrite map_get_delete, decide_False|done].
    destruct Hi1 as [Hk H1 H2 H3]. constructor; [done|done| |done]. intros id' p' Hp'. unfold held in Hp'. simpl in Hp'.
    rewrite map_get_delete in Hp'. case_decide; [done|]. by eapply H2. }
  intros _ ? Hi2 ->. assert (held w2 id = None) as E2 by (unfold held; simpl; by rewrite map_get_delete, decide_True).
  eapply goes_bind.
  { apply (goes_now id w2 (fun n w' => safe_int n ∧ files w' = files w ∧ store w' = store w2)); [done|].
    intros n w' Hn Hf Hs _ _. by rewrite Hf. }
  intros n w3 Hi3 (Hn & Hf3 & Hs3).
  apply goes_record; [done|split; [done|by destruct p as [[] d]]|done|unfold has_header; by rewrite (same_hist w w3 id Hf3)|].
  intros w' Hi' Hh' Hp' E _. split_and!; [by right|done|by rewrite Hp'; unfold held; rewrite Hs3|].
  unfold ents, seen. rewrite E, (same_hist w w3 id Hf3), omap_app, shows_app, Eheld. simpl. by rewrite app_nil_r.
Qed.

(** A body that runs only when the session's file is the owner's. *)
Lemma goes_owned id w (k : M unit) (Q : World → Prop) :
  inv w →
  (∀ w1, inv w1 → alive w1 id → seen w1 id = seen w id → files w1 = files w → pending (store w1) = pending (store w) →
     goes id (fun _ w' => alive w id → Q w') k w1) →
  goes id (fun _ w' => alive w id → Q w') (do owns <- ownsFile id; if owns then k else mret tt) w.
Proof.
  intros Hi Hk. eapply goes_bind.
  { apply (goes_owns id w (fun b w' => files w' = files w ∧ pending (store w') = pending (store w)
                                       ∧ (b = false → ¬ alive w id) ∧ (b = true → alive w id))); [done|].
    intros b w' Hi' Hf' Hp _ H1 H2. split_and!; [done|done| |done]. intros -> Ha. by specialize (H2 Ha). }
  intros b w1 Hi1 (Hf1 & Hp1 & Hb & Hb'). destruct b; [|apply goes_ret; [done|]; intros Ha; by destruct (Hb eq_refl)].
  specialize (Hb' eq_refl). apply Hk; [done| | |done|done].
  - unfold alive, has_header in *. by rewrite Hf1, (same_hist _ _ _ Hf1).
  - unfold seen. by rewrite (same_hist _ _ _ Hf1), (same_held _ _ _ Hp1).
Qed.

Lemma goes_titled id w (Q : World → Prop) :
  inv w → Q w → (∀ w', files w' = files w → pending (store w') = pending (store w) → Q w → Q w') →
  goes id (fun _ => Q) (set_store (fun s => set_titled (set_add id (titled s)) s)) w.
Proof.
  intros Hi HQ Hs. apply goes_set; [|done|by apply Hs]. by destruct Hi as [Hk H1 H2 H3]; constructor.
Qed.

Lemma seen_none w id : held w id = None → seen w id = shows (ents w id).
Proof. unfold seen. intros ->. by rewrite app_nil_r. Qed.

(** The time is read, then a record appended, to a session with nothing held back. *)
Lemma goes_append id (r : Z → Rec) w (es : list TranscriptEntry) :
  inv w → has_header w id → held w id = None → (∀ n, safe_int n → rec_ok (r n)) →
  (∀ n, of_kind "header" (rec_json (r n)) = false) →
  (∀ n, omap entry_of [rec_json (r n)] = es) →
  goes id (fun _ w' => has_header w' id ∧ held w' id = None ∧ seen w' id = seen w id ++ shows es)
    (do at_ <- now; write id (r at_)) w.
Proof.
  intros Hi Hh Hp Hr Hk Hes. eapply goes_bind.
  { apply (goes_now id w (fun n w' => safe_int n ∧ files w' = files w ∧ store w' = store w)); [done|]. eauto. }
  intros n w1 Hi1 (Hn & Hf & Hs). apply goes_record; [done|by apply Hr|done| |].
  { unfold has_header. by rewrite (same_hist _ _ _ Hf). }
  intros w' Hi' Hh' Hp' E. rewrite (same_held w w1 id) in Hp' by (by rewrite Hs). rewrite Hp in Hp'.
  split_and!; [done|done|]. rewrite !seen_none by done.
  unfold ents. by rewrite E, (same_hist w w1 id Hf), omap_app, shows_app, Hes.
Qed.

Lemma goes_write_title id text w :
  inv w → has_header w id → held w id = None →
  goes id (fun _ w' => has_header w' id ∧ held w' id = None ∧ seen w' id = seen w id) (write_title id text) w.
Proof.
  intros Hi Hh Hp. unfold write_title, load. eapply (goes_bind _ (fun _ w' => w' = w)).
  { eapply goes_bind; [by apply (goes_file _ _ (fun c w' => c = files w !! id ∧ w' = w))|]. intros ? ? _ [-> ->].
    destruct (files w !! id) as [text'|] eqn:Ef; [|by apply goes_ret].
    assert (is_Some (load_recs (records text') no_transcript)) as [tr ->]; [|by apply goes_ret].
    destruct (inv_kept _ Hi) as [Hg _]. destruct (Hg id) as [Hg' _]. unfold hist, content in Hg'. rewrite Ef in Hg'. simpl in Hg'.
    generalize no_transcript. induction Hg' as [|r l Hr _ IH]; intros tr; [by eexists|]. simpl.
    destruct (Hr tr) as [tr' ->]. apply IH. }
  intros tr ? _ ->. destruct (tr ≫= title) as [x|]; [by apply goes_ret|].
  eapply goes_mono; [|apply (goes_append id (fun n => RTitle n (deriveTitle text) auto) w []); try done].
  simpl. intros _ w' (? & ? & E). by rewrite app_nil_r in E.
Qed.

Lemma goes_appendPrompt id text w :
  inv w →
  goes id (fun _ w' => alive w id → alive w' id ∧ seen w' id = seen w id ++ shows [EPrompt (Some (JStr text))])
    (appendPrompt id text) w.
Proof.
  intros Hi. apply goes_owned; [done|]. intros w1 Hi1 Ha1 <- _ _.
  eapply goes_bind; [by apply goes_ensure|]. intros [] w2 Hi2 H2. destruct (H2 Ha1) as (Hh2 & Hp2 & He2).
  eapply goes_bind; [by apply goes_flush|]. intros [] w3 Hi3 H3. destruct (H3 (or_intror Hh2)) as (_ & Hh3 & Hp3 & Hs3).
  specialize (Hh3 Hh2). assert (seen w3 id = seen w1 id) as E3.
  { rewrite seen_none, Hs3 by done. unfold seen. fold (ents w2 id) (ents w1 id). by rewrite He2, Hp2. }
  eapply goes_bind; [by apply (goes_get _ _ _ (fun _ w' => w' = w3))|]. intros names ? _ ->.
  eapply (goes_bind _ (fun _ w' => has_header w' id ∧ held w' id = None ∧ seen w' id = seen w1 id)).
  { case_bool_decide; [by apply goes_ret|]. eapply goes_bind; [by apply goes_write_title|].
    simpl. intros _ w4 Hi4 (Hh4 & Hp4 & Hs4). rewrite E3 in Hs4. apply goes_titled; [done|done|].
    intros w' Hf Hpe _. unfold has_header, seen in *. by rewrite (same_hist _ _ _ Hf), (same_held _ _ _ Hpe). }
  simpl. intros _ w4 Hi4 (Hh4 & Hp4 & <-).
  eapply goes_mono; [|by apply (goes_append id (fun n => RPrompt n text) w4 [EPrompt (Some (JStr text))])].
  simpl. intros _ w' (? & ? & ?) _. split; [by right|done].
Qed.

Lemma goes_hold id ty d w :
  inv w → has_header w id →
  goes id (fun _ w' => has_header w' id ∧ hist w' id = hist w id ∧ held w' id = Some (ty, d))
    (set_store (fun s => set_pending (map_set id (ty, d) (pending s)) s)) w.
Proof.
  intros Hi Hh. apply goes_set.
  - destruct Hi as [Hk H1 H2 H3]. constructor; [done|done| |done]. intros id' p Hp. unfold held in Hp. simpl in Hp.
    rewrite map_get_set in Hp. case_decide as Hd; [by subst|]. by eapply H2.
  - intros id' Hne. unfold held. simpl. by rewrite map_get_set, decide_False.
  - split_and!; [done|done|]. unfold held. simpl. by rewrite map_get_set, decide_True.
Qed.

Lemma goes_appendFrame id f w :
  inv w → serialisable (cframe_json f) = true →
  goes id (fun _ w' => alive w id → alive w' id ∧ seen w' id = seen w id ++ shows [EFrame (Some (cframe_json f))])
    (appendFrame id f) w.
Proof.
  intros Hi Hser. apply goes_owned; [done|]. intros w1 Hi1 Ha1 <- _ _.
  eapply goes_bind; [by apply goes_ensure|]. intros [] w2 Hi2 H2. destruct (H2 Ha1) as (Hh2 & Hp2 & He2).
  assert (seen w2 id = seen w1 id) as E12. { unfold seen. fold (ents w2 id) (ents w1 id). by rewrite He2, Hp2. }
  rewrite <-E12.
  assert (∀ k : M unit, (∀ w3, inv w3 → has_header w3 id → held w3 id = None → seen w3 id = seen w2 id →
     goes id (fun _ w' => has_header w' id ∧ seen w' id = seen w2 id ++ shows [EFrame (Some (cframe_json f))]) k w3) →
     goes id (fun _ w' => alive w id → alive w' id ∧ seen w' id = seen w2 id ++ shows [EFrame (Some (cframe_json f))])
       (do! flush id; k) w2) as Hflush.
  { intros k Hk. eapply goes_bind; [by apply goes_flush|]. intros [] w3 Hi3 H3.
    destruct (H3 (or_intror Hh2)) as (_ & Hh3 & Hp3 & Hs3). eapply goes_mono; [|apply Hk; [done|by auto|done|by rewrite seen_none]].
    simpl. intros _ w' [? ?] _. split; [by right|done]. }
  destruct (streamed f) as [[ty delta]|] eqn:Es.
  2: { apply Hflush. intros w3 Hi3 Hh3 Hp3 <-.
       eapply goes_mono; [|apply (goes_append id (fun n => RFrame n f) w3 [EFrame (Some (cframe_json f))]); try done].
       by intros _ w' (? & ? & ?). }
  rewrite (shows_streamed _ _ _ Es) in *.
  eapply goes_bind; [by apply (goes_get _ _ _ (fun p w' => p = pending (store w2) ∧ w' = w2))|]. intros ? ? _ [-> ->].
  fold (held w2 id).
  assert (∀ w3, inv w3 → has_header w3 id → held w3 id = None → seen w3 id = seen w2 id →
    goes id (fun _ w' => has_header w' id ∧ seen w' id = seen w2 id ++ (Ch ty <$> bytes_of delta))
      (set_store (fun s => set_pending (map_set id (ty, delta) (pending s)) s)) w3) as Hhold.
  { intros w3 Hi3 Hh3 Hp3 <-. eapply goes_mono; [|by apply goes_hold]. simpl. intros _ w' (Hh' & Eh & Hp').
    split; [done|]. rewrite (seen_none w3) by done. unfold seen, ents.
    by rewrite Eh, Hp', (shows_streamed _ _ _ (streamed_pframe _)). }
  destruct (held w2 id) as [[ty' d]|] eqn:Eheld; [|by apply Hflush]. case_decide as Hty; [|by apply Hflush]. subst ty'.
  eapply goes_mono; [|by apply goes_hold]. simpl. intros _ w' (Hh' & Eh & Hp') _. split; [by right|].
  unfold seen. rewrite Eh, Hp', Eheld, !(shows_streamed _ _ _ (streamed_pframe _)), bytes_of_app, fmap_app. by rewrite app_assoc.
Qed.

Lemma goes_rename id s w :
  inv w → goes id (fun _ w' => alive w id → alive w' id ∧ seen w' id = seen w id) (rename id s) w.
Proof.
  intros Hi. apply goes_owned; [done|]. intros w1 Hi1 Ha1 <- _ _.
  eapply goes_bind; [by apply goes_ensure|]. intros [] w2 Hi2 H2. destruct (H2 Ha1) as (Hh2 & Hp2 & He2).
  assert (seen w2 id = seen w1 id) as E12. { unfold seen. fold (ents w2 id) (ents w1 id). by rewrite He2, Hp2. }
  rewrite <-E12. eapply (goes_bind _ (fun _ w' => has_header w' id ∧ seen w' id = seen w2 id)).
  { apply goes_titled; [done|done|]. intros w' Hf Hpe _. unfold has_header, seen in *.
    by rewrite (same_hist _ _ _ Hf), (same_held _ _ _ Hpe). }
  intros [] w3 Hi3 [Hh3 <-]. eapply goes_bind.
  { apply (goes_now id w3 (fun n w' => safe_int n ∧ files w' = files w3 ∧ store w' = store w3)); [done|]. eauto. }
  intros n w4 Hi4 (Hn & Hf & Hs). apply goes_record; [done|done|done| |].
  { unfold has_header. by rewrite (same_hist _ _ _ Hf). }
  intros w' Hi' Hh' Hp' E _. split; [by right|]. unfold seen.
  rewrite E, Hp', (same_hist w3 w4 id Hf), (same_held w3 w4 id) by (by rewrite Hs).
  rewrite omap_app. simpl. by rewrite app_nil_r.
Qed.

(** ** Runs *)

Definition act_ok (a : act) : Prop :=
  SAFE_ID (act_id a) = true ∧ match a with AFrame _ f => serialisable (cframe_json f) = true | _ => True end.

Lemma goes_perform a w :
  inv w → act_ok a →
  goes (act_id a) (fun _ w' => alive w (act_id a) →
    alive w' (act_id a) ∧ seen w' (act_id a) = seen w (act_id a) ++ shows (shown_act (act_id a) a)) (perform a) w.
Proof.
  intros Hi [_ Ha]. destruct a as [id s|id f|id|id s|id]; simpl.
  - rewrite decide_True by done. by apply goes_appendPrompt.
  - rewrite decide_True by done. by apply goes_appendFrame.
  - eapply goes_mono; [|by apply goes_flush]. simpl. intros _ w' H Hal. destruct (H Hal) as (? & ? & ? & ?).
    split; [done|]. rewrite seen_none, app_nil_r by done. done.
  - eapply goes_mono; [|by apply goes_rename]. simpl. intros _ w' H Hal. rewrite app_nil_r. auto.
  - eapply goes_mono; [|by apply goes_ensure]. simpl. intros _ w' H Hal. destruct (H Hal) as (Hh & Hp & He).
    split; [by right|]. rewrite app_nil_r. unfold seen. fold (ents w' id) (ents w id). by rewrite He, Hp.
Qed.

(** A process dies while it performs [a], after some of its appends. *)
Definition crashed (a : act) (d : list fault) (w : World) : World :=
  restart (safely a (mkWorld (files w) (store w) (clock w) d)).

(** Every file is one owner's records. *)
Definition good_files (fs : gmap string bytes) : Prop :=
  ∀ id c, fs !! id = Some c → Forall rec_good (records c) ∧ one_owner (records c).

(** What processes of this owner, one after the other, make of a directory. *)
Inductive reachable : World → Prop :=
| reach_start fs clk : good_files fs → Forall safe_int clk → reachable (mkWorld fs new_store clk [])
| reach_act w a : reachable w → act_ok a → reachable (safely a w)
| reach_crash w a d : reachable w → act_ok a → reachable (crashed a d w)
| reach_delete w id : reachable w → reachable (delete id w).2
| reach_clock w clk : reachable w → Forall safe_int clk → reachable (mkWorld (files w) (store w) clk (disk w)).

Lemma kept_restart w : kept w → inv (restart w).
Proof. intros Hk. constructor; [done|done|done|]. simpl. intros id H. by apply elem_of_nil in H. Qed.

Lemma inv_disk w d : inv w → inv (mkWorld (files w) (store w) (clock w) d).
Proof. by intros [Hk H1 H2 H3]; constructor. Qed.

Lemma safely_ok a w : inv w → disk w = [] → act_ok a → inv (safely a w) ∧ disk (safely a w) = [].
Proof.
  intros Hi Hd Ha. pose proof (goes_perform a w Hi Ha) as H. unfold goes, safely in *.
  destruct (perform a w) as [[u|e] w']; simpl; destruct H as (_ & _ & H1 & H2 & H3); [auto|].
  destruct Ha as [Hs _]. specialize (H3 Hd). congruence.
Qed.

Lemma crashed_ok a d w : inv w → act_ok a → kept (safely a (mkWorld (files w) (store w) (clock w) d)).
Proof.
  intros Hi Ha. pose proof (goes_perform a _ (inv_disk _ d Hi) Ha) as H. unfold goes, safely in *.
  destruct (perform a _) as [[u|e] w']; simpl; destruct H as (_ & _ & H1 & H2 & H3); [apply H2|done].
Qed.

Lemma set_del_in x y l : x ∈ set_del y l ↔ x ∈ l ∧ x ≠ y.
Proof. unfold set_del. rewrite list_elem_of_filter. tauto. Qed.

Lemma delete_inv id w : inv w → inv (delete id w).2.
Proof.
  intros Hi. unfold delete, mbind, set_store, file. simpl. destruct (SAFE_ID id); simpl.
  2: { destruct Hi as [Hk H1 H2 H3]. constructor; [done| | |].
       - intros id' b Hb. simpl in Hb. rewrite map_get_delete in Hb. case_decide; [done|]. by apply H1.
       - intros id' p Hp. unfold held in Hp. simpl in Hp. rewrite map_get_delete in Hp. case_decide; [done|]. by eapply H2.
       - intros id' Hin. simpl in Hin. apply set_del_in in Hin as [Hin _]. by apply H3. }
  set (w' := mkWorld _ _ _ _).
  assert (∀ id', id' ≠ id → files w' !! id' = files w !! id') as Hf by (intros; simpl; by rewrite lookup_delete_ne).
  assert (∀ id', id' ≠ id → hist w' id' = hist w id') as Hh by (intros; unfold hist, content; by rewrite Hf).
  assert (hist w' id = []) as H0 by (unfold hist, content; simpl; by rewrite lookup_delete_eq).
  destruct Hi as [[Hk Hc] H1 H2 H3]. constructor.
  - split; [|done]. intros id'. destruct (decide (id' = id)) as [->|Hne]; [rewrite H0; split; [done|by left]|].
    rewrite Hh by done. apply Hk.
  - intros id' b Hb. simpl in Hb. rewrite map_get_delete in Hb. case_decide as Hd; [done|].
    unfold has_header. rewrite Hf, Hh by done. by apply H1.
  - intros id' p Hp. unfold held in Hp. simpl in Hp. rewrite map_get_delete in Hp. case_decide as Hd; [done|].
    unfold has_header. rewrite Hh by done. by eapply H2.
  - intros id' Hin. simpl in Hin. apply set_del_in in Hin as [Hin Hne]. unfold content. rewrite Hf by done. by apply H3.
Qed.

Lemma reachable_inv w : reachable w → inv w ∧ disk w = [].
Proof.
  induction 1 as [fs clk Hf Hc|w a _ [Hi Hd] Ha|w a d _ [Hi Hd] Ha|w id _ [Hi Hd]|w clk _ [Hi Hd] Hc].
  - split; [|done]. apply (kept_restart (mkWorld fs new_store clk [])). split; [|done]. intros id. unfold hist, content. simpl.
    destruct (fs !! id) as [c|] eqn:E; [by apply (Hf id)|]. split; [done|by left].
  - by apply safely_ok.
  - split; [|done]. by apply kept_restart, crashed_ok.
  - split; [by apply delete_inv|]. unfold delete, mbind, set_store, file. simpl. by destruct (SAFE_ID id).
  - split; [|done]. by destruct Hi as [[Hk _] H1 H2 H3]; constructor.
Qed.

(** ** Loading what was written *)

Definition item_prompt (i : item) : option (option json) :=
  match i with Whole (EPrompt x) => Some x | _ => None end.

Definition item_usage (u : UsageTotals) (i : item) : UsageTotals :=
  match i with
  | Whole (EFrame (Some f)) => if terminal_json f then add_usage (field "usage" f) u else u
  | _ => u
  end.

(** The prompts and the figures are those of what is shown. *)
Definition consistent (t : Transcript) : Prop :=
  prompts t = omap item_prompt (shows (entries t)) ∧ usage t = foldl item_usage zeroUsage (shows (entries t)).

Lemma chars_inert ty d u :
  omap item_prompt (Ch ty <$> d) = [] ∧ foldl item_usage u (Ch ty <$> d) = u.
Proof. induction d as [|c d IH]; [done|]. simpl. apply IH. Qed.

Lemma load_rec_entry r tr tr' :
  load_rec r tr = Some tr' →
  let es := match entry_of r with Some e => [e] | None => [] end in
  entries tr' = entries tr ++ es
  ∧ prompts tr' = prompts tr ++ omap item_prompt (shows es)
  ∧ usage tr' = foldl item_usage (usage tr) (shows es)
  ∧ header tr' = if of_kind "header" r then Some r else header tr.
Proof.
  intros H. assert (H' : load_fields r tr = Some tr') by (by destruct r). clear H. unfold load_fields, entry_of in *.
  destruct (of_kind "header" r); simpl in *; [simplify_eq/=; by rewrite !app_nil_r|].
  destruct (of_kind "title" r); simpl in *; [simplify_eq/=; by rewrite !app_nil_r|].
  destruct (of_kind "prompt" r); simpl in *; [by simplify_eq/=|].
  destruct (of_kind "frame" r); simpl in *; [|simplify_eq/=; by rewrite !app_nil_r].
  destruct (field "frame" r) as [f|]; [|done].
  simpl in H'. assert (Some (mkTranscript (createdAt tr) (title tr) (titleSource tr) (entries tr ++ [EFrame (Some f)]) (prompts tr)
            (if terminal_json f then add_usage (field "usage" f) (usage tr) else usage tr) (header tr)) = Some tr')
    as E by (by destruct f). injection E as <-. clear H'. simpl. split_and!; [done| | |done].
  - unfold shows. simpl. rewrite app_nil_r. destruct (delta_of f) as [[ty d]|]; [|simpl; by rewrite app_nil_r].
    by rewrite (proj1 (chars_inert ty (bytes_of d) zeroUsage)), app_nil_r.
  - unfold shows. simpl. rewrite app_nil_r. destruct (delta_of f) as [[ty d]|] eqn:Ed; [|done].
    rewrite (proj2 (chars_inert ty (bytes_of d) (usage tr))).
    assert (terminal_json f = false) as ->; [|done]. unfold delta_of, terminal_json in *.
    destruct (as_string (field "type" f)) as [s|]; [|done]. destruct (as_string (field "delta" f)); [|done].
    apply bool_decide_eq_false. intros [[= ->]|[= ->]]; done.
Qed.

Lemma load_recs_spec recs tr :
  Forall rec_good recs →
  ∃ tr', load_recs recs tr = Some tr' ∧ entries tr' = entries tr ++ omap entry_of recs
    ∧ prompts tr' = prompts tr ++ omap item_prompt (shows (omap entry_of recs))
    ∧ usage tr' = foldl item_usage (usage tr) (shows (omap entry_of recs))
    ∧ (header tr' = header tr ∧ Forall (fun r => of_kind "header" r = false) recs
       ∨ ∃ h, header tr' = Some h ∧ h ∈ recs ∧ of_kind "header" h = true).
Proof.
  intros Hg. revert tr. induction Hg as [|r recs Hr _ IH]; intros tr.
  { exists tr. simpl. rewrite !app_nil_r. split_and!; try done. by left. }
  destruct (Hr tr) as [tr1 E]. destruct (load_rec_entry _ _ _ E) as (E1 & E2 & E3 & E4).
  destruct (IH tr1) as (tr' & E' & E1' & E2' & E3' & Hh). exists tr'. cbn [load_recs]. rewrite E.
  change (Some tr1 ≫= load_recs recs) with (load_recs recs tr1).
  assert (omap entry_of (r :: recs) = (match entry_of r with Some e => [e] | None => [] end) ++ omap entry_of recs) as ->
    by (simpl; by destruct (entry_of r)).
  rewrite E1', E2', E3', E1, E2, E3, shows_app, omap_app, foldl_app, <-!app_assoc. split_and!; try done.
  destruct Hh as [[Hh Hf]|(h & Hh & Hin & Hk)].
  - rewrite Hh, E4. destruct (of_kind "header" r) eqn:Ek; [right; exists r; split_and!; [done|left|done]|left; split; [done|by constructor]].
  - right. exists h. split_and!; [done|by right|done].
Qed.

Definition loaded (w : World) (id : string) : Transcript :=
  match (load id w).1 with Ok (Some tr) => tr | _ => no_transcript end.

Lemma load_alive w id :
  inv w → SAFE_ID id = true → has_header w id →
  ∃ tr, (load id w).1 = Ok (Some tr) ∧ entries tr = ents w id ∧ consistent tr.
Proof.
  intros Hi Hs Hh. destruct (inv_kept _ Hi) as [Hg _]. destruct (Hg id) as [Hgood Ho].
  unfold load, mbind, file. rewrite Hs. destruct (files w !! id) as [c|] eqn:Ef.
  2: { exfalso. revert Hh. unfold has_header, hist, content. rewrite Ef. by intros ?%Exists_nil. }
  assert (hist w id = records c) as Eh by (unfold hist, content; by rewrite Ef).
  unfold has_header, ents in *. rewrite Eh in *.
  destruct (load_recs_spec (records c) no_transcript Hgood) as (tr & E & E1 & E2 & E3 & Hhd). rewrite E. simpl in *.
  apply Exists_exists in Hh as (h0 & Hin0 & Hk0 & Hn0).
  destruct Hhd as [[_ Hf]|(h & Hhd & Hin & Hk)].
  { rewrite Forall_forall in Hf. specialize (Hf _ Hin0). congruence. }
  rewrite Hhd. assert (names_owner owner h = true) as ->.
  { destruct Ho as [Ho|Ho]; rewrite Forall_forall in Ho; [by apply Ho|]. specialize (Ho _ Hin0 Hk0). congruence. }
  exists tr. split_and!; [done|done|]. unfold consistent. by rewrite E1, E2, E3.
Qed.

Lemma loaded_alive w id :
  inv w → SAFE_ID id = true → alive w id → entries (loaded w id) = ents w id ∧ consistent (loaded w id).
Proof.
  intros Hi Hs [Hn|Hh].
  - unfold loaded, load, mbind, file. rewrite Hs, Hn. simpl. unfold ents, hist, content. rewrite Hn. done.
  - destruct (load_alive w id Hi Hs Hh) as (tr & E & ? & ?). unfold loaded. by rewrite E.
Qed.

Lemma load_some_header w id tr : (load id w).1 = Ok (Some tr) → inv w → has_header w id ∧ SAFE_ID id = true.
Proof.
  intros H Hi. unfold load, mbind, file in H. destruct (SAFE_ID id); [|done]. split; [|done].
  destruct (files w !! id) as [c|] eqn:Ef; [|done].
  assert (hist w id = records c) as Eh by (unfold hist, content; by rewrite Ef).
  destruct (inv_kept _ Hi) as [Hg _]. destruct (Hg id) as [Hgood _]. rewrite Eh in Hgood.
  destruct (load_recs_spec (records c) no_transcript Hgood) as (tr' & E & _ & _ & _ & Hhd). rewrite E in H. simpl in H.
  destruct Hhd as [[Hn _]|(h & Hhd & Hin & Hk)]; [by rewrite Hn in H|]. rewrite Hhd in H.
  destruct (names_owner owner h) eqn:En; [|done]. unfold has_header. rewrite Eh. apply Exists_exists. exists h. done.
Qed.

Lemma perform_all_seen l w id :
  inv w → disk w = [] → Forall act_ok l → alive w id →
  let w' := perform_all l w in
  inv w' ∧ disk w' = [] ∧ alive w' id ∧ seen w' id = seen w id ++ shows (l ≫= shown_act id).
Proof.
  intros Hi Hd Hl. revert w Hi Hd. induction Hl as [|a l Ha _ IH]; intros w Hi Hd Hal; simpl.
  { by rewrite app_nil_r. }
  destruct (safely_ok a w Hi Hd Ha) as [Hi1 Hd1].
  assert (alive (safely a w) id ∧ seen (safely a w) id = seen w id ++ shows (shown_act id a)) as [Hal1 Es].
  { pose proof (goes_perform a w Hi Ha) as H. unfold goes, safely in *. destruct (perform a w) as [r w1]. simpl in *.
    destruct H as (_ & Hel & _ & H). destruct r as [u|e]; [|destruct H as [_ H]; specialize (H Hd); destruct Ha; congruence].
    destruct H as [_ H]. destruct (decide (act_id a = id)) as [<-|Hne]; [by apply H|].
    destruct (Hel id ltac:(done)) as [Ef Eh].
    assert (shown_act id a = []) as ->.
    { destruct a; simpl in *; try done; by rewrite decide_False. }
    assert (hist w1 id = hist w id) as Ehist by (unfold hist, content; by rewrite Ef).
    unfold alive, has_header, seen in *. rewrite Ef, Ehist, Eh. by rewrite app_nil_r. }
  destruct (IH _ Hi1 Hd1 Hal1) as (? & ? & ? & E). split_and!; [done|done|done|].
  change (perform_all (a :: l) w) with (perform_all l (safely a w)). rewrite E, Es, shows_app. by rewrite app_assoc.
Qed.

Lemma flush_entries w id :
  inv w → disk w = [] → SAFE_ID id = true → alive w id →
  let w' := safely (AFlush id) w in
  inv w' ∧ disk w' = [] ∧ alive w' id ∧ shows (ents w' id) = seen w id.
Proof.
  intros Hi Hd Hs Hal. destruct (safely_ok (AFlush id) w Hi Hd ltac:(by split)) as [Hi' Hd'].
  pose proof (goes_flush id w Hi) as H. unfold goes, safely in *. simpl in *. destruct (flush id w) as [[u|e] w']; simpl in *.
  - destruct H as (_ & _ & _ & _ & H). destruct (H Hal) as (? & _ & _ & ?). done.
  - destruct H as (_ & _ & _ & _ & H). specialize (H Hd). congruence.
Qed.

(** C26. A session is resumed with its history.  Start anywhere processes of this owner, ended in
    any way, have brought a directory of transcripts, with a session whose transcript loads or
    that has none.  Whatever prompts and frames are then recorded, in whatever order, mixed with
    those of other sessions, renames and flushes: once the text held back is flushed, the
    transcript shows what it showed before and then exactly what was recorded, character by
    character, and its prompts and totals are those of what it shows.  If instead the process
    dies in the middle of any of it, everything shown before is still there, in the same order. *)
Theorem history_reloads w id l a d :
  reachable w → SAFE_ID id = true → Forall act_ok l → act_ok a →
  files w !! id = None ∨ (∃ tr, (load id w).1 = Ok (Some tr)) →
  let before := loaded (safely (AFlush id) w) id in
  let after := loaded (perform_all (l ++ [AFlush id]) w) id in
  shows (entries after) = shows (entries before) ++ shows (l ≫= shown_act id)
  ∧ consistent after
  ∧ (∀ tr, (load id w).1 = Ok (Some tr) →
     ∃ tr', (load id (crashed a d w)).1 = Ok (Some tr') ∧ entries tr `prefix_of` entries tr' ∧ reachable (crashed a d w)).
Proof.
  intros Hr Hs Hl Ha Hload before after. destruct (reachable_inv _ Hr) as [Hi Hd].
  assert (alive w id) as Hal.
  { destruct Hload as [?|[tr Htr]]; [by left|right]. by apply (load_some_header w id tr). }
  destruct (flush_entries w id Hi Hd Hs Hal) as (Hi1 & Hd1 & Hal1 & E1).
  destruct (perform_all_seen l w id Hi Hd Hl Hal) as (Hi2 & Hd2 & Hal2 & E2).
  destruct (flush_entries (perform_all l w) id Hi2 Hd2 Hs Hal2) as (Hi3 & Hd3 & Hal3 & E3).
  assert (perform_all (l ++ [AFlush id]) w = safely (AFlush id) (perform_all l w)) as Ew
    by (unfold perform_all; by rewrite foldl_snoc).
  subst before after. rewrite Ew. destruct (loaded_alive _ id Hi1 Hs Hal1) as [-> _].
  destruct (loaded_alive _ id Hi3 Hs Hal3) as [-> Hc]. rewrite E1, E3, E2. split_and!; [done|done|].
  intros tr Htr. destruct (load_some_header w id tr Htr Hi) as [Hh _].
  destruct (load_alive w id Hi Hs Hh) as (tr1 & Htr1 & Ent & _). rewrite Htr1 in Htr. simplify_eq.
  assert (reachable (crashed a d w)) as Hrc by (by constructor).
  destruct (reachable_inv _ Hrc) as [Hic _].
  assert (hist w id `prefix_of` hist (crashed a d w) id) as [more Hmore].
  { pose proof (goes_perform a _ (inv_disk _ d Hi) Ha) as H. unfold goes, crashed, safely in *.
    destruct (perform a _) as [r w']. destruct H as (Hg & _). apply (Hg id). }
  destruct (load_alive (crashed a d w) id Hic Hs) as (tr' & Htr' & Ent' & _).
  { unfold has_header. rewrite Hmore. apply Exists_app. by left. }
  exists tr'. split_and!; [done| |done]. rewrite Ent, Ent'. unfold ents. rewrite Hmore, omap_app. by eexists.
Qed.

Lemma owns_dead w id (k : M unit) :
  inv w → SAFE_ID id = true → ¬ alive w id →
  files ((do owns <- ownsFile id; if owns then k else mret tt) w).2 = files w.
Proof.
  intros Hi Hs Hn.
  assert (goes id (fun b w' => b = false ∧ files w' = files w) (ownsFile id) w) as Ho.
  { apply goes_owns; [done|]. intros b w' _ Hf _ _ Hb _. split; [|done]. destruct b; [|done]. by destruct Hn; apply Hb. }
  unfold goes, mbind in *. destruct (ownsFile id w) as [[b|e] w1] eqn:E.
  - destruct Ho as (_ & _ & _ & _ & -> & Hf). done.
  - exfalso. unfold ownsFile, mbind, get_store, file in E. rewrite Hs in E. by destruct (map_get id _).
Qed.

Lemma perform_dead a w :
  inv w → SAFE_ID (act_id a) = true → ¬ alive w (act_id a) → files (perform a w).2 = files w.
Proof.
  intros Hi Hs Hn. destruct a as [id s|id f|id|id s|id]; simpl in *.
  1-4: by apply owns_dead.
  refine (owns_dead (mkWorld (files w) (store w) (tail (clock w)) (disk w)) id _ _ Hs Hn).
  destruct Hi as [[Hk Hc] H1 H2 H3]. constructor; [split; [done|]|done|done|done]. simpl.
  destruct (clock w); [done|]. by inversion Hc.
Qed.

(** A transcript that will not be shown to this owner is not touched either: no recording,
    renaming or flushing changes a byte of the file. *)
Theorem foreign_untouched w id c l :
  reachable w → SAFE_ID id = true → files w !! id = Some c → (load id w).1 = Ok None → Forall act_ok l →
  files (perform_all l w) !! id = Some c.
Proof.
  intros Hr Hs Hc Hn Hl. destruct (reachable_inv _ Hr) as [Hi Hd].
  assert (¬ has_header w id) as Hdead.
  { intros Hh. destruct (load_alive w id Hi Hs Hh) as (tr & E & _). congruence. }
  clear Hn Hr. revert w Hi Hd Hc Hdead. induction Hl as [|a l Ha _ IH]; intros w Hi Hd Hc Hdead; [done|].
  change (perform_all (a :: l) w) with (perform_all l (safely a w)).
  destruct (safely_ok a w Hi Hd Ha) as [Hi1 Hd1].
  assert (files (safely a w) !! id = files w !! id) as E.
  { unfold safely. destruct (decide (act_id a = id)) as [Eid|Hne].
    - rewrite perform_dead; [done|done|by rewrite Eid|]. rewrite Eid. intros [?|?]; [congruence|done].
    - pose proof (goes_perform a w Hi Ha) as H. unfold goes in H.
      destruct (perform a w) as [r w1]. destruct H as (_ & Hel & _). by apply Hel. }
  apply IH; [done|done|congruence|]. unfold has_header, hist, content in *. by rewrite E.
Qed.
End Owner.

(** ** Titles are short and on one line *)

Lemma drop_ws_length l : (length (drop_ws l) ≤ length l)%nat.
Proof. induction l as [|c l IH]; simpl; [done|]. destruct (ws_char c); simpl; lia. Qed.

Lemma trimEnd_length l : (length (trimEnd l) ≤ length l)%nat.
Proof. unfold trimEnd. rewrite length_rev. etrans; [apply drop_ws_length|]. by rewrite length_rev. Qed.

Lemma drop_ws_suffix l : drop_ws l `suffix_of` l.
Proof. induction l as [|c l IH]; simpl; [done|]. destruct (ws_char c); [by apply suffix_cons_r|done]. Qed.

Lemma Forall_drop_ws P l : Forall P l → Forall P (drop_ws l).
Proof. intros H. destruct (drop_ws_suffix l) as [k E]. rewrite E in H. by apply Forall_app in H as [_ ?]. Qed.

Lemma Forall_trimEnd P l : Forall P l → Forall P (trimEnd l).
Proof. intros H. apply Forall_rev, Forall_drop_ws. by apply Forall_rev. Qed.

Definition one_line (c : bytes) : Prop := LF ∉ c.

Lemma chars_of_shape s :
  Forall (fun c => ∃ x r, c = x :: r ∧ (r = [] ∨ 128 ≤ nat_of_ascii x)%nat ∧ Forall (fun y => continuation y = true) r) (chars_of s).
Proof.
  induction s as [|c s IH]; simpl; [done|].
  assert (∃ x r, [c] = x :: r ∧ (r = [] ∨ 128 ≤ nat_of_ascii x)%nat ∧ Forall (fun y => continuation y = true) r) as H1.
  { exists c, []. split_and!; [done|by left|done]. }
  destruct (chars_of s) as [|[|d ds] rest]; [by constructor|by constructor|].
  destruct (continuation d && _) eqn:E; [|by constructor].
  inversion IH as [|? ? (x & r & Ex & _ & Hr) Hrest]; subst. injection Ex as <- <-. apply andb_prop in E as [E1 E2].
  constructor; [|done]. exists c, (d :: ds). split_and!; [done|right; by apply Nat.leb_le|by constructor].
Qed.

Lemma squeeze_one_line b s : Forall one_line (squeeze b (chars_of s)).
Proof.
  pose proof (chars_of_shape s) as H. revert b.
  induction H as [|c l (x & r & -> & Hx & Hr) _ IH]; intros b; [constructor|]. cbn [squeeze].
  destruct (ws_char (x :: r)) eqn:Ew.
  - destruct b; [apply IH|]. constructor; [|apply IH]. by apply (bool_decide_unpack _).
  - constructor; [|apply IH]. intros Hin. apply elem_of_cons in Hin as [<-|Hin].
    + destruct Hx as [->|Hx]; [done|]. vm_compute in Hx. lia.
    + rewrite Forall_forall in Hr. by specialize (Hr _ Hin).
Qed.

(** A title that is made up is one line of at most 50 characters and an ellipsis. *)
Lemma derived_title_short p max :
  (length (deriveTitle_chars p max) ≤ S max)%nat ∧ LF ∉ concat (deriveTitle_chars p max).
Proof.
  assert (Forall one_line (deriveTitle_chars p max) → LF ∉ concat (deriveTitle_chars p max)) as Hl.
  { generalize (deriveTitle_chars p max). intros l H. induction H as [|c l Hc _ IH]; simpl; [by intros ?%elem_of_nil|].
    by intros [?|?]%elem_of_app. }
  cut (length (deriveTitle_chars p max) ≤ S max ∧ Forall one_line (deriveTitle_chars p max))%nat; [naive_solver|]. clear Hl.
  unfold deriveTitle_chars. set (flat := trim_chars _).
  assert (Forall one_line flat) as Hf by (apply Forall_trimEnd, Forall_drop_ws, squeeze_one_line).
  destruct (Nat.leb_spec (length flat) max) as [Hle|Hgt]; [split; [lia|done]|].
  assert (∀ k, Forall one_line k → (length k ≤ max)%nat →
    (length (trimEnd k ++ [ELLIPSIS]) ≤ S max)%nat ∧ Forall one_line (trimEnd k ++ [ELLIPSIS])) as Hk.
  { intros k Hk Hlen. pose proof (trimEnd_length k). split; [rewrite length_app; simpl; lia|]. apply Forall_app.
    split; [by apply Forall_trimEnd|]. constructor; [by apply (bool_decide_unpack _)|done]. }
  assert (Forall one_line (take max flat) ∧ (length (take max flat) ≤ max)%nat) as [Hc Hlen].
  { split; [by apply Forall_take|]. rewrite length_take. lia. }
  apply Hk; unfold before_last_space; destruct (list_find _ _) as [[i x]|]; try done.
  - destruct (_ <? _)%nat; [by apply Forall_take|done].
  - destruct (_ <? _)%nat; [rewrite length_take; lia|done].
Qed.

(** ** Where it falls short *)

Definition ex_owner : TranscriptOwner := mkOwner "alice" "https://cp".
Definition ex_other : TranscriptOwner := mkOwner "bob" "https://cp".
Definition ex_start : World := mkWorld ∅ new_store [1; 2; 3; 4; 5; 6; 7; 8] [].
Definition with_disk (d : list fault) (w : World) : World := mkWorld (files w) (store w) (clock w) d.
Definition prompts_of (w : World) (id : string) : list (option json) := prompts (loaded ex_owner w id).

(** A crash while the very first line is written leaves a file without a header, which its own
    owner does not recognise: nothing of the session is recorded again. *)
Lemma torn_header_disowns :
  let w := crashed ex_owner (APrompt "s1" "hi") [Torn 5] ex_start in
  let w' := perform_all ex_owner [APrompt "s1" "again"; AFlush "s1"] w in
  files w' !! "s1" = files w !! "s1" ∧ (load ex_owner "s1" w').1 = Ok None.
Proof. vm_compute. split; reflexivity. Qed.

(** The end of the file is looked at once per process, before an append that may itself fail:
    when a full disk cuts one short, the next record is glued to the rest and lost as well. *)
Lemma failed_append_loses_next :
  let w := safely ex_owner (APrompt "s1" "one") (with_disk [Fine; Fine; Torn 20] ex_start) in
  let w' := perform_all ex_owner [APrompt "s1" "two"; APrompt "s1" "three"] w in
  prompts_of w' "s1" = [Some (JStr "three")].
Proof. vm_compute. reflexivity. Qed.

(** Deleting does not ask whose file it is, as everything else that changes one does. *)
Lemma delete_removes_foreign :
  let w := restart (safely ex_other (APrompt "s1" "hi") ex_start) in
  (load ex_owner "s1" w).1 = Ok None ∧ files (perform_all ex_owner [ARename "s1" "mine"] w) = files w
  ∧ files (delete "s1" w).2 = ∅.
Proof. vm_compute. split_and!; reflexivity. Qed.

(** ** Witnesses *)

Definition ex_acts : list act :=
  [APrompt "s1" "fix the bug"; AFrame "s1" (KnownF (FText "on ")); AFrame "s2" (KnownF (FText "other"));
   AFrame "s1" (KnownF (FText "it")); AFrame "s1" (KnownF (FDone "s1" "stop" (Some (mkUsage 1 2 0 0 3))))].

Lemma history_reloads_witness :
  shows (entries (loaded ex_owner (perform_all ex_owner (ex_acts ++ [AFlush "s1"]) ex_start) "s1"))
  = Whole (EPrompt (Some (JStr "fix the bug"))) :: (Ch PText <$> bytes_of "on it")
    ++ [Whole (EFrame (Some (cframe_json (KnownF (FDone "s1" "stop" (Some (mkUsage 1 2 0 0 3)))))))].
Proof.
  assert (reachable ex_owner ex_start) as Hr.
  { apply reach_start; [intros id c H; by rewrite lookup_empty in H|]. repeat constructor; vm_compute; discriminate. }
  destruct (history_reloads ex_owner ex_start "s1" ex_acts (AFlush "s1") [] Hr) as [E _].
  - reflexivity.
  - repeat constructor.
  - by repeat constructor.
  - left. reflexivity.
  - etransitivity; [exact E|]. vm_compute. reflexivity.
Defined.

Definition ex_foreign : World :=
  mkWorld {[ "s1" := line (rec_json (RHeader 1 ex_other)) ]} new_store [1] [].

Lemma foreign_untouched_witness :
  files (perform_all ex_owner ex_acts ex_foreign) !! "s1" = Some (line (rec_json (RHeader 1 ex_other))).
Proof.
  apply (foreign_untouched ex_owner ex_foreign "s1").
  - apply reach_start; [|repeat constructor; vm_compute; discriminate].
    intros id c H. apply lookup_singleton_Some in H as [_ <-].
    assert (records (line (rec_json (RHeader 1 ex_other))) = [rec_json (RHeader 1 ex_other)]) as ->
      by (vm_compute; reflexivity).
    split; [constructor; [|constructor]; intros t; eexists; reflexivity|].
    right. constructor; [|constructor]. intros _. reflexivity.
  - reflexivity.
  - reflexivity.
  - vm_compute. reflexivity.
  - repeat constructor.
Defined.
