(* ===== verification/ClientApi.v ===== *)
(** * The terminal client's view of the two servers

    Models [packages/mocactl/src/api]: errors.ts (what a refusal becomes, and what the user is
    told to do about it, with [core/messages.ts] and [core/sanitize.ts]), control-plane.ts and
    harness.ts (one definition per method, as trees of [fetch] calls), discovery.ts and url.ts;
    and [core/auth.ts], the login with a device code.  [fetch], the serialisation of URLs and
    Node's [stripVTControlCharacters] are parameters.  Text is UTF-8. *)

From Stdlib Require Import QArith.
From S2P Require Import Prelude JsNumber Json JsonText Prog CpBase Credentials CpRoutes TurnStream Transcript.

Local Open Scope Z_scope.

(** ** Errors *)

Inductive ErrorSource := from_control_plane | from_harness.

#[export] Instance ErrorSource_eq_dec : EqDecision ErrorSource.
Proof. solve_decision. Defined.

Record ApiError := mkApiError {
  ae_source : ErrorSource;
  ae_status : Z;
  ae_code : string;
  ae_message : string;
  ae_retryAfterS : option Z;
}.

Definition apiError (s : ErrorSource) (status : Z) (code : string) (msg : option string) (retry : option Z) : ApiError :=
  mkApiError s status code (default code msg) retry.

(** What the client throws. *)
Inductive client_error :=
| Api (e : ApiError)
| TurnCancelled
| AnyError (text : string).

(** A response: its body arrives in chunks, and may break off with an error; it may be absent. *)
Record HttpResponse := mkResponse {
  r_status : Z;
  r_headers : http_headers;      (* names in lower case *)
  r_body : option (list bytes);
  r_broken : option string;
}.

Definition res_ok (r : HttpResponse) : bool := (200 <=? r_status r) && (r_status r <=? 299).

(** [res.text()] *)
Definition res_text (r : HttpResponse) : result string bytes :=
  match r_broken r with Some e => Throw e | None => Ok (concat (default [] (r_body r))) end.

(** [res.json()] *)
Definition res_json (r : HttpResponse) : result string json :=
  match res_text r with
  | Throw e => Throw e
  | Ok t => match parse t with Some j => Ok j | None => Throw "Unexpected token in JSON" end
  end.

Definition get_header (name : string) (r : HttpResponse) : option string := map_get name (r_headers r).

(** [Number.isFinite(n) && n >= 0 ? n : undefined] *)
Definition nonneg (x : jsnum Q) : option Z :=
  match x with Fin q => if Qle_bool 0 q then Some (Qnum q / Zpos (Qden q)) else None | _ => None end.

Definition errorFromResponse (s : ErrorSource) (r : HttpResponse) : ApiError :=
  let text := match res_text r with Ok t => t | Throw _ => [] end in
  let body := parse text in
  let str name := body ≫= fun b => as_string (field name b) in
  let code := match str "error" with Some c => c | None => "http_" +:+ dec_str (r_status r) end in
  apiError s (r_status r) code (str "message")
    (nonneg (parseInt (bytes_of (default "" (get_header "retry-after" r))))).

Definition networkError (s : ErrorSource) (message : string) : ApiError :=
  apiError s 0 "network_error" (Some message) None.

Definition TOKEN_CODES : list string := ["token_required"; "token_invalid"; "token_expired"].
Definition UNAVAILABLE : list string := ["redis_unavailable"; "credential_unavailable"; "internal_error"].

Inductive UiAction :=
| ULogin
| UHarnessTokenRejected
| USessionGone
| UEndpointUnresolved (message : string)
| UOperatorMisconfigured (message : string)
| URetryAfter (seconds : Z)
| UUnavailable (source : ErrorSource)
| UConnection (source : ErrorSource) (message : string)
| UShow (message : string).

Definition classify (e : ApiError) : UiAction :=
  if ae_status e =? 0 then UConnection (ae_source e) (ae_message e)
  else if bool_decide (ae_code e ∈ TOKEN_CODES) then
    match ae_source e with from_harness => UHarnessTokenRejected | from_control_plane => ULogin end
  else if bool_decide (ae_code e = "session_not_found") then USessionGone
  else if bool_decide (ae_code e = "endpoint_unresolved") then UEndpointUnresolved (ae_message e)
  else if bool_decide (ae_code e = "identity_provider_misconfigured") then UOperatorMisconfigured (ae_message e)
  else
    match (if bool_decide (ae_source e = from_harness) && (ae_status e =? 503) then ae_retryAfterS e else None) with
    | Some s => URetryAfter s
    | None =>
        if bool_decide (ae_code e ∈ UNAVAILABLE) || (500 <=? ae_status e) then UUnavailable (ae_source e)
        else UShow (ae_message e)
    end.

(** ** Messages *)

Definition source_name (s : ErrorSource) : string :=
  match s with from_harness => "harness" | from_control_plane => "control plane" end.

Definition describe (e : client_error) : string :=
  match e with
  | Api e =>
      match classify e with
      | ULogin => "your login has expired — run `mocactl login` (or restart mocactl) to log in again"
      | UHarnessTokenRejected => "the harness rejected the session token — run `mocactl doctor`"
      | USessionGone => "that session no longer exists, or is not yours"
      | UEndpointUnresolved m => "the inference credential has no gateway endpoint (" +:+ m +:+ ") — edit it in /credentials"
      | UOperatorMisconfigured m => "the control plane cannot log anyone in until its operator fixes it — " +:+ m
      | URetryAfter s => "the harness has no capacity — retry in " +:+ dec_str s +:+ "s"
      | UUnavailable s => "the " +:+ source_name s +:+ " is unavailable — try again shortly"
      | UConnection s m => "cannot reach the " +:+ source_name s +:+ ": " +:+ m
      | UShow m => m
      end
  | TurnCancelled => "turn cancelled"
  | AnyError t => t
  end.

(** [/[\u0000-\u0008\u000b-\u001f\u007f-\u009f]/] *)
Definition control_char (c : bytes) : bool :=
  match nat_of_ascii <$> c with
  | [n] => ((n <=? 8) || (11 <=? n) && (n <=? 31) || (n =? 127))%nat
  | [n; m] => ((n =? 194) && (128 <=? m) && (m <=? 159))%nat
  | _ => false
  end.

Section Sanitize.
Context (stripVTControlCharacters : bytes → bytes).

Definition sanitizeRemote (s : string) : string :=
  string_of (concat (filter (fun c => control_char c = false) (chars_of (stripVTControlCharacters (bytes_of s))))).

Definition describeError (e : client_error) : string := sanitizeRemote (describe e).
End Sanitize.

(** ** Requests *)

Definition drop_slashes (s : bytes) : bytes :=
  (fix go s := match s with c :: r => if bool_decide (c = SLASH) then go r else s | [] => [] end) s.

Definition trimTrailingSlashes (s : string) : string := string_of (rev (drop_slashes (rev (bytes_of s)))).

Record HttpRequest := mkHttp {
  h_method : string;
  h_url : string;
  h_headers : http_headers;
  h_body : option json;          (* what is passed to [JSON.stringify] *)
}.

(** A request is answered, or [fetch] rejects with a message. *)
Inductive net_call := Fetch (r : HttpRequest).
Definition net_reply (c : net_call) : Type := result string HttpResponse.
Definition net_prog : Type → Type := prog net_call net_reply client_error.

Definition fetch (r : HttpRequest) : net_prog (result string HttpResponse) := Call (Fetch r) Ret.

Definition api_err {A} (e : ApiError) : net_prog A := Err (Api e).

(** [await res.json()] *)
Definition read_json (res : HttpResponse) : net_prog json :=
  match res_json res with Ok j => Ret j | Throw m => Err (AnyError m) end.

(** ** The control plane *)

Section ControlPlane.
(** [new URL(s)] with the query's parameters set, serialised; [None] when it throws. *)
Context (new_url : string → list (string * string) → option string).
Context (baseUrl : string) (getToken : option string).

Definition cp_base : string := trimTrailingSlashes baseUrl.

Definition opt_query (name : string) (v : option Z) : list (string * string) :=
  match v with Some n => [(name, dec_str n)] | None => [] end.

Definition cp_headers (body : option json) (auth : bool) : http_headers :=
  [("accept", "application/json")]
  ++ (match body with Some _ => [("content-type", "application/json")] | None => [] end)
  ++ (if auth then match nonempty getToken with Some t => [("authorization", "Bearer " +:+ t)] | None => [] end else []).

Definition request (method path : string) (body : option json) (auth : bool) (q : list (string * string)) : net_prog HttpResponse :=
  match new_url (cp_base +:+ path) q with
  | None => Err (AnyError "Invalid URL")
  | Some url =>
      await r <- fetch (mkHttp method url (cp_headers body auth) body);
      match r with
      | Throw m => api_err (networkError from_control_plane m)
      | Ok res => if res_ok res then Ret res else api_err (errorFromResponse from_control_plane res)
      end
  end.

Definition cp_json (method path : string) (body : option json) (auth : bool) (q : list (string * string)) : net_prog json :=
  await res <- request method path body auth q; read_json res.

Definition encoded (id : string) : string := string_of (encodeURIComponent (bytes_of id)).

Definition cp_healthz : net_prog unit := await _ <- request "GET" "/healthz" None false []; Ret tt.
Definition cp_readyz : net_prog unit := await _ <- request "GET" "/readyz" None false []; Ret tt.
Definition cp_discovery : net_prog json := cp_json "GET" "/v1/discovery" None false [].
Definition cp_startDeviceAuth : net_prog json := cp_json "POST" "/v1/auth/device" None false [].

(** [None] while the code is still waiting for the user. *)
Definition cp_pollDeviceAuth (deviceCode : string) : net_prog (option json) :=
  pcatch (await j <- cp_json "POST" "/v1/auth/device/token" (Some (JObj [("deviceCode", JStr deviceCode)])) false [];
          Ret (Some j))
    (fun e => match e with
              | Api a => if bool_decide (ae_code a = "authorization_pending") then Ret None else Err e
              | _ => Err e
              end).

Definition cp_me : net_prog json := cp_json "GET" "/v1/me" None true [].

Definition cp_listSessions (limit cursor : option Z) : net_prog json :=
  cp_json "GET" "/v1/sessions" None true (opt_query "limit" limit ++ opt_query "cursor" cursor).

Definition cp_createSession (req : json) : net_prog json := cp_json "POST" "/v1/sessions" (Some req) true [].

Definition cp_getSession (id : string) : net_prog json := cp_json "GET" ("/v1/sessions/" +:+ encoded id) None true [].

Inductive deletion := deleted | accepted.

Definition cp_deleteSession (id : string) : net_prog deletion :=
  await res <- request "DELETE" ("/v1/sessions/" +:+ encoded id) None true [];
  Ret (if r_status res =? 202 then accepted else deleted).

Definition cp_mintSessionToken (id : string) : net_prog json :=
  cp_json "POST" ("/v1/sessions/" +:+ encoded id +:+ "/token") None true [].

(** [(await this.json(...)).credentials]; the field of [null] throws. *)
Definition cp_listCredentials : net_prog (option json) :=
  await j <- cp_json "GET" "/v1/credentials" None true [];
  match j with JNull => Err (AnyError "Cannot read properties of null") | _ => Ret (field "credentials" j) end.

Definition cp_putCredential (name : string) (req : json) : net_prog unit :=
  await _ <- request "PUT" ("/v1/credentials/" +:+ encoded name) (Some req) true []; Ret tt.

Definition cp_deleteCredential (name : string) : net_prog unit :=
  await _ <- request "DELETE" ("/v1/credentials/" +:+ encoded name) None true []; Ret tt.
End ControlPlane.

(** ** The harness *)

Definition CLIENT_CLEAN_STOP_REASONS : list string := ["stop"; "length"; "end_turn"; "max_tokens"].

Section Harness.
Context (baseUrl : string).

Definition h_base : string := trimTrailingSlashes baseUrl.

Definition health : net_prog unit :=
  await r <- fetch (mkHttp "GET" (h_base +:+ "/health") [] None);
  match r with
  | Throw m => api_err (networkError from_harness m)
  | Ok res => if res_ok res then Ret tt else api_err (errorFromResponse from_harness res)
  end.

(** A generator that was read to its end: what it yielded, and how it ended. *)
Definition yields : Type := list TurnFrame * result client_error unit.

Definition truncated : client_error :=
  Api (apiError from_harness 0 "stream_truncated" (Some "the harness closed the stream before the turn finished") None).

(** The reply of a harness that does not stream. *)
Definition sync_frames (sessionId : string) (r : json) : yields :=
  match r with
  | JNull => ([], Throw (AnyError "Cannot read properties of null"))
  | _ =>
      let or name d := match field name r with None | Some JNull => d | Some j => j end in
      let reason := or "stopReason" (JStr "end_turn") in
      let sid := or "sessionId" (JStr sessionId) in
      let failed := match field "errorMessage" r with Some m => truthy m | None => false end in
      let clean := match reason with JStr s => bool_decide (s ∈ CLIENT_CLEAN_STOP_REASONS) | _ => false end in
      ((match field "response" r with
        | Some x => if truthy x then [Known "text" (JObj [("type", JStr "text"); ("delta", x)])] else []
        | None => []
        end)
       ++ [if failed || negb clean
           then Known "error" (JObj ([("type", JStr "error"); ("sessionId", sid); ("stopReason", reason)]
                                     ++ opt_field "errorMessage" (field "errorMessage" r)))
           else Known "done" (JObj [("type", JStr "done"); ("sessionId", sid); ("stopReason", reason)])],
       Ok tt)
  end.

(** The events of a body: those of the chunks that came, and of what was left over if it is whole. *)
Definition body_events (chunks : list bytes) (broken : bool) : list SseEvent :=
  if broken then (pushes chunks (mkParser [] false)).1 else readSse chunks.

Definition sse_frames (res : HttpResponse) (chunks : list bytes) (aborted : bool) : yields :=
  let '(fs, how) := stream_frames (body_events chunks (bool_decide (is_Some (r_broken res)))) in
  (fs, match how with
       | Finished => Ok tt
       | StreamTruncated =>
           if aborted then Throw TurnCancelled
           else match r_broken res with Some m => Throw (Api (networkError from_harness m)) | None => Throw truncated end
       end).

(** [aborted]: whether the signal was aborted when the request, or the stream, came to its end. *)
Definition turn_frames (sessionId : string) (r : result string HttpResponse) (aborted : bool) : yields :=
  match r with
  | Throw m => ([], Throw (if aborted then TurnCancelled else Api (networkError from_harness m)))
  | Ok res =>
      if negb (res_ok res) then ([], Throw (Api (errorFromResponse from_harness res)))
      else if negb (contains (bytes_of "text/event-stream") (bytes_of (default "" (get_header "content-type" res)))) then
        match res_json res with
        | Throw m => ([], Throw (AnyError m))
        | Ok j => sync_frames sessionId j
        end
      else match r_body res with
           | None => ([], Throw (Api (apiError from_harness 0 "stream_truncated" (Some "the harness returned no stream") None)))
           | Some chunks => sse_frames res chunks aborted
           end
  end.

Definition turn_request (sessionId prompt token : string) : HttpRequest :=
  mkHttp "POST" (h_base +:+ "/v1/turn")
    [("accept", "text/event-stream"); ("content-type", "application/json"); ("authorization", "Bearer " +:+ token)]
    (Some (JObj [("sessionId", JStr sessionId); ("prompt", JStr prompt)])).

Definition streamTurn (sessionId prompt token : string) (aborted : bool) : net_prog yields :=
  await r <- fetch (turn_request sessionId prompt token);
  Ret (turn_frames sessionId r aborted).

Inductive trust := trusted | untrusted.

Definition probe_session (sessionId : string) : string := sessionId +:+ "-mocactl-probe".

Definition probe_request (token sessionId : string) : HttpRequest :=
  mkHttp "POST" (h_base +:+ "/v1/turn") [("content-type", "application/json"); ("authorization", "Bearer " +:+ token)]
    (Some (JObj [("sessionId", JStr (probe_session sessionId)); ("prompt", JStr "mocactl trust probe")])).

Definition probe_verdict (res : HttpResponse) : result client_error trust :=
  let e := errorFromResponse from_harness res in
  if r_status res =? 400 then (if bool_decide (ae_code e = "session_mismatch") then Ok trusted else Throw (Api e))
  else if (r_status res =? 401) || (r_status res =? 404) || res_ok res then Ok untrusted
  else Throw (Api e).

Definition probeTrust (token sessionId : string) : net_prog trust :=
  await r <- fetch (probe_request token sessionId);
  match r with
  | Throw m => api_err (networkError from_harness m)
  | Ok res => of_result (probe_verdict res)
  end.
End Harness.

(** ** Where the harness is *)

Section Discovery.
(** [new URL(s)] and its [href]. *)
Context `{URLs} (href : string → string).

Definition parseHttpUrl (s : string) : option string :=
  match url_parse s with
  | Some u => if bool_decide (protocol u = "http:" ∨ protocol u = "https:") then Some (href s) else None
  | None => None
  end.

Definition unadvertised (msg : string) : client_error :=
  Api (apiError from_control_plane 404 "harness_unadvertised" (Some msg) None).

(** The reply of [cp.discovery()], or what it threw. *)
Definition discovered (r : result client_error json) : result client_error string :=
  match r with
  | Throw (Api e) =>
      if ae_status e =? 404
      then Throw (Api (apiError from_control_plane 404 "discovery_unsupported"
             (Some "this control plane predates /v1/discovery and cannot say where the harness is — upgrade it, or pass --harness-url") None))
      else Throw (Api e)
  | Throw e => Throw e
  | Ok JNull => Throw (AnyError "Cannot read properties of null")
  | Ok d =>
      match field "harnessUrl" d with
      | None | Some JNull =>
          Throw (unadvertised "the control plane advertises no harness URL — its operator must set SH_PUBLIC_HARNESS_URL, or pass --harness-url")
      | Some v =>
          match (match v with JStr s => parseHttpUrl s | _ => None end) with
          | Some url => Ok (trimTrailingSlashes url)
          | None => Throw (unadvertised "the control plane advertises a harness URL that is not an http(s) URL — its operator must fix SH_PUBLIC_HARNESS_URL, or pass --harness-url")
          end
      end
  end.

Fixpoint observe {A} (p : net_prog A) : net_prog (result client_error A) :=
  match p with
  | Ret a => Ret (Ok a)
  | Err e => Ret (Throw e)
  | Call c k => Call c (fun r => observe (k r))
  end.

Definition discoverHarnessUrl new_url (cp : string) (token : option string) : net_prog string :=
  await r <- observe (cp_discovery new_url cp token); of_result (discovered r).
End Discovery.

(** [DiscoveringHarness]: callers share the discovery that is under way; a success is kept, a
    failure is forgotten before the callers hear of it. *)
Inductive located := Unlocated | Locating (waiting : list nat) | Located (url : string).

Inductive discovery_event := Resolve (caller : nat) | Settled (r : result client_error string).

Inductive discovery_effect := StartDiscovery | Answer (caller : nat) (r : result client_error string).

Definition discovery_step (e : discovery_event) (s : located) : located * list discovery_effect :=
  match e, s with
  | Resolve c, Unlocated => (Locating [c], [StartDiscovery])
  | Resolve c, Locating cs => (Locating (cs ++ [c]), [])
  | Resolve c, Located u => (Located u, [Answer c (Ok u)])
  | Settled r, Locating cs => (match r with Ok u => Located u | Throw _ => Unlocated end, (fun c => Answer c r) <$> cs)
  | Settled _, s => (s, [])
  end.

Fixpoint discovery_run (es : list discovery_event) (s : located) : located * list discovery_effect :=
  match es with
  | [] => (s, [])
  | e :: es' => let '(s1, o1) := discovery_step e s in let '(s2, o2) := discovery_run es' s1 in (s2, o1 ++ o2)
  end.

(** ** Login *)

Record ApiLogin := mkLogin {
  l_token : string;
  l_subject : string;
  l_displayName : option string;
  l_roles : option (list string);
  l_expiresAt : Z;
}.

Record DeviceStart := mkDevice { deviceCode : string; interval : Z; expiresIn : Z }.

(** [ms] of a sleep; whether the signal is aborted; a poll, pending, answered or failed. *)
Inductive login_call :=
| StartDevice
| ShowCode (d : DeviceStart)
| LoginNow
| LoginSleep (ms : Z)
| IsAborted
| Poll (code : string).

Definition login_reply (c : login_call) : Type :=
  match c with
  | StartDevice => result client_error DeviceStart
  | ShowCode _ | LoginSleep _ => unit
  | LoginNow => Z
  | IsAborted => bool
  | Poll _ => result client_error (option ApiLogin)
  end.

Inductive login_error := LoginCancelled | LoginExpired | LoginFailed (e : client_error).

Definition login_prog : Type → Type := prog login_call login_reply login_error.

Definition lcall (c : login_call) : login_prog (login_reply c) := Call c Ret.

Definition lok {A} (r : result client_error A) : login_prog A :=
  match r with Ok a => Ret a | Throw e => Err (LoginFailed e) end.

(** [None] when the rounds are over and the code is still waiting. *)
Fixpoint poll_loop (rounds : nat) (d : DeviceStart) (ms deadline : Z) : login_prog (option ApiLogin) :=
  match rounds with
  | O => Ret None
  | S n =>
      await _ <- lcall (LoginSleep ms);
      await aborted <- lcall IsAborted;
      if aborted : bool then Err LoginCancelled
      else
        await now <- lcall LoginNow;
        if deadline <? now then Err LoginExpired
        else
          await r <- lcall (Poll (deviceCode d));
          await result <- lok r;
          match result with Some login => Ret (Some login) | None => poll_loop n d ms deadline end
  end.

Definition deviceLogin (rounds : nat) : login_prog (option ApiLogin) :=
  await r <- lcall StartDevice;
  await d <- lok r;
  await _ <- lcall (ShowCode d);
  await now <- lcall LoginNow;
  poll_loop rounds d (Z.max 1 (interval d) * 1000) (now + expiresIn d * 1000).

Record CachedAuth := mkAuth {
  apiToken : string;
  au_subject : string;
  displayName : option string;
  roles : list string;
  expiresAt : Z;               (* in seconds *)
  au_controlPlaneUrl : string;
}.

Definition toCachedAuth (login : ApiLogin) (controlPlaneUrl : string) : CachedAuth :=
  mkAuth (l_token login) (l_subject login) (l_displayName login) (default [] (l_roles login)) (l_expiresAt login) controlPlaneUrl.

Definition apiTokenValid (auth : option CachedAuth) (nowMs : Z) : bool :=
  match auth with Some a => nowMs <? expiresAt a * 1000 | None => false end.

Definition loginExpiryMinutes (auth : option CachedAuth) (nowMs : Z) : option Z :=
  match auth with
  | None => None
  | Some a =>
      let left := expiresAt a * 1000 - nowMs in
      if (left <=? 0) || (5 * 60000 <=? left) then None else Some (- (- left / 60000))
  end.

(** ** What reaches the terminal *)

(** A control character other than a tab or a newline: the escape that starts every terminal
    sequence is one. *)
Definition c0_control (c : ascii) : bool :=
  let n := nat_of_ascii c in ((n <=? 8) || (11 <=? n) && (n <=? 31) || (n =? 127))%nat.

Lemma control_alone c r : c0_control c = true → (r = [] ∨ 128 ≤ nat_of_ascii c)%nat → control_char (c :: r) = true.
Proof.
  unfold c0_control. intros Hc [->|Hx]; [done|].
  repeat (apply orb_prop in Hc as [Hc|Hc]); [apply Nat.leb_le in Hc; lia| |apply Nat.eqb_eq in Hc; lia].
  apply andb_prop in Hc as [_ Hc]. apply Nat.leb_le in Hc. lia.
Qed.

Lemma continuation_plain c : continuation c = true → c0_control c = false.
Proof. destruct c as [[] [] [] [] [] [] [] []]; vm_compute; intros; congruence. Qed.

Lemma sanitized_plain strip s : Forall (fun c => c0_control c = false) (bytes_of (sanitizeRemote strip s)).
Proof.
  unfold sanitizeRemote. rewrite bytes_string. pose proof (chars_of_shape (strip (bytes_of s))) as H.
  induction H as [|c l (x & r & -> & Hx & Hr) _ IH]; [done|]. rewrite filter_cons. case_decide as Hc; [|done]. simpl.
  constructor; [|apply Forall_app; split; [|done]].
  - destruct (c0_control x) eqn:E; [|done]. rewrite (control_alone _ _ E Hx) in Hc. done.
  - eapply Forall_impl; [exact Hr|]. simpl. apply continuation_plain.
Qed.

(** ** Sharing a discovery *)

Definition resolved (es : list discovery_event) : list nat :=
  omap (fun e => match e with Resolve c => Some c | Settled _ => None end) es.
Definition answered (o : list discovery_effect) : list nat :=
  omap (fun e => match e with Answer c _ => Some c | StartDiscovery => None end) o.
Definition starts (o : list discovery_effect) : nat :=
  length (omap (fun e => match e with StartDiscovery => Some tt | Answer _ _ => None end) o).
Definition failures (es : list discovery_event) : nat :=
  length (omap (fun e => match e with Settled (Throw _) => Some tt | _ => None end) es).
Definition waiting (s : located) : list nat := match s with Locating cs => cs | _ => [] end.
Definition under_way (s : located) : nat := match s with Unlocated => 0 | _ => 1 end.

(** Every caller is answered once, in the order they asked, and a discovery is started again
    only after one has failed. *)
Lemma discovery_shared es s s' o :
  discovery_run es s = (s', o) →
  answered o ++ waiting s' = waiting s ++ resolved es ∧ (starts o + under_way s ≤ failures es + under_way s')%nat.
Proof.
  revert s s' o. induction es as [|e es IH]; intros s s' o; simpl.
  { intros [= -> <-]. by rewrite app_nil_r. }
  destruct (discovery_step e s) as [s1 o1] eqn:E1. destruct (discovery_run es s1) as [s2 o2] eqn:E2.
  intros [= <- <-]. destruct (IH _ _ _ E2) as [IH1 IH2]. unfold answered, starts in *. rewrite !omap_app, length_app, <-app_assoc, IH1.
  assert (∀ r cs, omap (fun e => match e with Answer c _ => Some c | StartDiscovery => None end) ((fun c => Answer c r) <$> cs) = cs
    ∧ omap (fun e => match e with StartDiscovery => Some tt | Answer _ _ => None end) ((fun c => Answer c r) <$> cs) = []) as Ha.
  { intros r cs. induction cs as [|c cs [Hc1 Hc2]]; [done|]. split; [exact (f_equal (cons c) Hc1)|exact Hc2]. }
  assert (failures (e :: es) = (match e with Settled (Throw _) => 1 | _ => 0 end + failures es))%nat as ->
    by (by destruct e as [c|[u|x]]).
  destruct e as [c|r], s as [|cs|u]; simpl in E1; simplify_eq/=; simpl in IH2.
  - split; [done|]. simpl. lia.
  - split; [by rewrite <-app_assoc|]. simpl. lia.
  - split; [done|]. simpl. lia.
  - split; [done|]. simpl. lia.
  - destruct (Ha r cs) as [Ha1 Ha2]. split; [rewrite Ha1; by destruct r|]. rewrite Ha2. destruct r; simpl in *; lia.
  - split; [done|]. simpl. lia.
Qed.

(** ** Logging in ends *)

Definition login_history := list (event (C := login_call) (R := login_reply)).

(** The clock does not go back, and a sleep that the signal did not cut short lasts its time. *)
Fixpoint clocked (t slept : Z) (tr : login_history) : Prop :=
  match tr with
  | [] => True
  | existT c r :: tr' =>
      match c return login_reply c → Prop with
      | LoginSleep ms => fun _ => clocked t ms tr'
      | IsAborted => fun b => if b then clocked t 0 tr' else clocked (t + slept) 0 tr'
      | LoginNow => fun n => t ≤ n ∧ clocked n 0 tr'
      | _ => fun _ => clocked t 0 tr'
      end r
  end.

Definition polled_in_time (deadline : Z) (h : login_history) (c : login_call) : Prop :=
  match c with
  | Poll _ => ∃ n h', h = h' ++ [ev LoginNow n] ∧ n ≤ deadline
  | _ => True
  end.

Lemma poll_loop_ends rounds d ms deadline t tr :
  0 < ms → runs (poll_loop rounds d ms deadline) tr (Ok None) → clocked t 0 tr → t + Z.of_nat rounds * ms ≤ Z.max t deadline.
Proof.
  intros Hms. revert t tr. induction rounds as [|n IH]; intros t tr Hr Hc; [lia|]. simpl in Hr.
  apply runs_inv in Hr as (u & t1 & -> & Hr). apply runs_inv in Hr as (b & t2 & -> & Hr). simpl in Hc.
  destruct b; [by apply runs_inv in Hr as [_ ?]|]. apply runs_inv in Hr as (now & t3 & -> & Hr). simpl in Hc.
  destruct Hc as [Hn Hc]. destruct (Z.ltb_spec deadline now); [by apply runs_inv in Hr as [_ ?]|].
  apply runs_inv in Hr as (r & t4 & -> & Hr). simpl in Hc. destruct r as [[l|]|e]; simpl in Hr;
    [by apply runs_inv in Hr as [_ ?]| |by apply runs_inv in Hr as [_ ?]].
  specialize (IH now t4 Hr Hc). lia.
Qed.

Lemma poll_loop_in_time rounds d ms deadline h :
  spec (polled_in_time deadline) (fun h o => match o with Some l => ∃ h', h = h' ++ [ev (Poll (deviceCode d)) (Ok (Some l))] | None => True end)
    (fun _ _ => True) h (poll_loop rounds d ms deadline).
Proof.
  revert h. induction rounds as [|n IH]; intros h; [done|]. simpl. split; [done|]. intros u. split; [done|]. intros [|]; simpl; [done|].
  split; [done|]. intros now. destruct (Z.ltb_spec deadline now); [done|]. simpl. split; [by eexists _, _|].
  intros [[l|]|e]; simpl; [by eexists|apply IH|done].
Qed.

(** Logging in always comes to an end: with a clock that runs, the loop that polls for the
    user's approval does not outlast the lifetime of the code, however often the server says it
    is still pending; it never asks again once the code has expired, and it returns a login only
    when the server has just answered with that login. *)
Theorem login_ends rounds t tr o :
  runs (deviceLogin rounds) tr o → clocked t 0 tr →
  (∀ d, ev StartDevice (Ok d) ∈ tr → Z.max 0 (expiresIn d) < Z.of_nat rounds) →
  match o with
  | Ok None => False
  | Ok (Some l) => ∃ tr' code, tr = tr' ++ [ev (Poll code) (Ok (Some l))]
  | Throw _ => True
  end
  ∧ ∀ tr1 code r tr2, tr = tr1 ++ ev (Poll code) r :: tr2 →
     ∃ d began now tr0, tr1 = [ev StartDevice (Ok d); ev (ShowCode d) tt; ev LoginNow began] ++ tr0
       ∧ last tr1 = Some (ev LoginNow now) ∧ now ≤ began + expiresIn d * 1000.
Proof.
  intros Hr Hc Hrounds. unfold deviceLogin in Hr. apply runs_inv in Hr as (r & t1 & -> & Hr). simpl in Hc.
  assert (Hhd : ∀ (e : event (C := login_call) (R := login_reply)) l l' code r', e :: l = ev (Poll code) r' :: l' → projT1 e = Poll code).
  { intros e l l' code r' E. pose proof (f_equal (fun l => projT1 <$> head l) E) as E'. by injection E'. }
  destruct r as [d|e]; simpl in Hr.
  2: { apply runs_inv in Hr as [-> ->]. split; [done|]. intros [|x tr1] code r tr2 H; [by apply Hhd in H|].
       injection H as _ H. by destruct tr1. }
  apply runs_inv in Hr as (u & t2 & -> & Hr). destruct u. simpl in Hc.
  apply runs_inv in Hr as (began & t3 & -> & Hr). simpl in Hc. destruct Hc as [_ Hc].
  specialize (Hrounds d ltac:(left)).
  set (h0 := [ev StartDevice (Ok d); ev (ShowCode d) tt; ev LoginNow began]).
  destruct (spec_runs _ _ _ h0 _ _ _ (poll_loop_in_time rounds d _ _ h0) Hr) as [Hp Ho]. split.
  - destruct o as [[l|]|e]; [| |done].
    + destruct Ho as [h' E]. exists h', (deviceCode d). exact E.
    + assert (0 < Z.max 1 (interval d) * 1000) as Hms by lia.
      pose proof (poll_loop_ends rounds d _ _ began t3 Hms Hr Hc) as Hend. change (login_reply LoginNow) with Z in began. nia.
  - intros tr1 code r tr2 E.
    destruct tr1 as [|x1 tr1]; [by apply Hhd in E|]. injection E as <- E.
    destruct tr1 as [|x2 tr1]; [by apply Hhd in E|]. injection E as <- E.
    destruct tr1 as [|x3 tr1]; [by apply Hhd in E|]. injection E as <- E.
    destruct (Hp _ _ _ _ E) as (n & h' & Eh & Hle). exists d, began, n, tr1. split_and!; [done| |done].
    change (last (h0 ++ tr1) = Some (ev LoginNow n)). by rewrite Eh, last_snoc.
Qed.

Definition ex_device : DeviceStart := mkDevice "c" 5 10.
Definition ex_login : ApiLogin := mkLogin "tok" "alice" None None 99.

(** The user approves between the first poll and the second. *)
Definition ex_login_reply (c : login_call) (s : Z * bool) : login_reply c * (Z * bool) :=
  match c with
  | StartDevice => (Ok ex_device, s)
  | ShowCode _ => (tt, s)
  | LoginNow => (s.1, s)
  | LoginSleep ms => (tt, (s.1 + ms, s.2))
  | IsAborted => (false, s)
  | Poll _ => (Ok (if s.2 then Some ex_login else None), (s.1, true))
  end.

Lemma login_ends_witness :
  ∃ tr code, (ptrace ex_login_reply (deviceLogin 11) (0, false)).1 = tr ++ [ev (Poll code) (Ok (Some ex_login))].
Proof.
  assert (Hr := ptrace_runs ex_login_reply (deviceLogin 11) (0, false)).
  assert (E : (ptrace ex_login_reply (deviceLogin 11) (0, false)).2 = Ok (Some ex_login)) by (vm_compute; reflexivity).
  rewrite E in Hr. refine (proj1 (login_ends 11 0 _ _ Hr _ _)).
  - vm_compute. repeat split; discriminate.
  - intros d Hin.
    pose (P := fun e : event (C := login_call) (R := login_reply) =>
      match e with existT c r =>
        match c return login_reply c → Prop with
        | StartDevice => fun r => match r with Ok d => Z.max 0 (expiresIn d) < 11 | Throw _ => True end
        | _ => fun _ => True
        end r
      end).
    assert (HP : Forall P (ptrace ex_login_reply (deviceLogin 11) (0, false)).1) by (vm_compute; repeat constructor).
    rewrite Forall_forall in HP. exact (HP _ Hin).
Defined.
