(* ===== verification/ClientServer.v ===== *)
(** * The client and the servers together

    The two ends of the interfaces of [ClientApi]: the control plane's error responses
    ([Handlers]), the harness server's refusals, overload replies and turns ([Server]), and what
    the client ([packages/mocactl/src/api/errors.ts], [harness.ts]) makes of them. *)

From Stdlib Require Import QArith.
From S2P Require Import Prelude JsNumber Json JsonText Prog CpBase Token Exchange Handlers TurnStream TurnAuth RunTurn Server ClientApi.

Local Open Scope Z_scope.

(** A response as [fetch] presents it. *)
Definition received (status : Z) (hs : http_headers) (body : bytes) : HttpResponse :=
  mkResponse status ((fun h => (toLowerCase h.1, h.2)) <$> hs) (Some [body]) None.

(** A response of the control plane. *)
Definition cp_received (r : response) : HttpResponse :=
  received r.1 JSON_HEADERS (match r.2 with Some j => stringify j | None => [] end).

Lemma res_text_received status hs b : res_text (received status hs b) = Ok b.
Proof. unfold res_text, received. simpl. by rewrite app_nil_r. Qed.

(** An error body, read back. *)
Lemma error_received s status hs j :
  serialisable j = true →
  errorFromResponse s (received status hs (stringify j)) =
  apiError s status
    (match as_string (field "error" j) with Some c => c | None => "http_" +:+ dec_str status end)
    (as_string (field "message" j))
    (nonneg (parseInt (bytes_of (default "" (get_header "retry-after" (received status hs (stringify j))))))).
Proof.
  intros Hj. unfold errorFromResponse. rewrite res_text_received, parse_stringify by done. done.
Qed.

(** What the user is told for each of the control plane's errors. *)
Definition expected_action (c : CpErrorCode) (message : string) : UiAction :=
  match c with
  | token_required | token_invalid | token_expired => ULogin
  | session_not_found => USessionGone
  | endpoint_unresolved => UEndpointUnresolved message
  | identity_provider_misconfigured => UOperatorMisconfigured message
  | redis_unavailable | credential_unavailable | internal_error => UUnavailable from_control_plane
  | _ => UShow message
  end.

(** The control plane's refusals are understood: whatever error a handler throws, the client
    reads back its status, its code and its message, and the user is told what that error means;
    an error that is not typed is an internal error and tells nothing else. *)
Theorem refusals_understood err :
  let e := errorFromResponse from_control_plane (cp_received (error_response err)) in
  match err with
  | Cp c =>
      ae_status e = statusFor (code c) ∧ ae_code e = code_name (code c)
      ∧ (message c ≠ "" → ae_message e = message c)
      ∧ classify e = expected_action (code c) (ae_message e)
  | Other => ae_code e = "internal_error" ∧ ae_message e = "internal_error" ∧ classify e = UUnavailable from_control_plane
  end.
Proof.
  destruct err as [[c m sid]|]; [|vm_compute; split_and!; reflexivity].
  unfold error_response, writeError, cp_received. cbn [fst snd code message err_sessionId].
  match goal with |- context [stringify ?x] => set (j := x) end. assert (Hser : serialisable j = true).
  { subst j. clear. destruct (bool_decide (m = "") || _); destruct sid as [s|]; simpl; try done; by destruct (bool_decide (s = "")). }
  rewrite error_received by done. cbn [ae_status ae_code ae_message apiError].
  assert (E1 : as_string (field "error" j) = Some (code_name c)) by done. rewrite E1.
  assert (E2 : m ≠ "" → default (code_name c) (as_string (field "message" j)) = m).
  { intros Hm. subst j. clear - Hm. rewrite (bool_decide_eq_false_2 (m = "")) by done. simpl.
    destruct (bool_decide_reflect (m = code_name c)) as [->|Hc]; [|reflexivity].
    destruct sid as [s|]; [|reflexivity]. simpl. by destruct (bool_decide (s = "")). }
  split_and!; [done|done|done|].
  unfold classify. simpl. destruct c; vm_compute; reflexivity.
Qed.

(** ** The probe *)

Definition probe_body (sessionId : string) : json :=
  JObj [("sessionId", JStr (probe_session sessionId)); ("prompt", JStr "mocactl trust probe")].

(** The body a server read. *)
Definition read_of (e : event (C := server_call) (R := server_reply)) : option (option bytes) :=
  match e with existT c r => match c return server_reply c → option (option bytes) with ReadBody => fun r => Some r | _ => fun _ => None end r end.

Section Probe.
Context `{Ed25519}.
Context (env_list : list (string * string)) (proc_cwd : string).
Context (exchange_token : result string (option string)) (other_text : string).

#[local] Arguments reply_json : simpl never.
#[local] Arguments stringify : simpl never.

Lemma deps_ret deps : deps_of env_list exchange_token deps → turnAuthDeps env_list exchange_token other_text = Ret deps.
Proof.
  intros (t & Ht & Hd). unfold turnAuthDeps. rewrite Ht, Hd.
  unfold turnAuthDepsFromEnv in *. by destruct (parseKeyset _).
Qed.

(** C29. The probe tells whether the harness trusts this control plane's tokens, and costs nothing.
    A server that verifies the token of session [s] answers the probe, which names another
    session, with a refusal the client reads as [trusted]; one whose keys do not verify it, with
    one it reads as [untrusted].  Either way the server reads the clock and answers: no credential
    is exchanged and no turn runs. *)
Theorem probe_decides deps hs token sessionId body tr o :
  deps_of env_list exchange_token deps → TurnAuth.bearer hs = Some token →
  parse body = Some (probe_body sessionId) →
  runs (handleTurn env_list proc_cwd exchange_token other_text hs) (ev ReadBody (Some body) :: tr) o →
  ∃ now tr', tr = ev (Caller TurnNow) now :: tr'
    ∧ (∀ payload s,
         verifyToken (bytes_of token) (TurnAuth.keys deps) (now / 1000) (Some "turn:write") = Ok payload →
         sid (claims_of payload) = Some s → s ≠ "" → s ≠ probe_session sessionId →
         ∃ b, tr' = [ev (Respond 400 JSON_HEADERS (Some b)) tt] ∧ probe_verdict (received 400 JSON_HEADERS b) = Ok trusted)
    ∧ (∀ e, verifyToken (bytes_of token) (TurnAuth.keys deps) (now / 1000) (Some "turn:write") = Throw (Cp e) →
         ∃ b, tr' = [ev (Respond 401 JSON_HEADERS (Some b)) tt] ∧ probe_verdict (received 401 JSON_HEADERS b) = Ok untrusted).
Proof.
  intros Hd Hb Hbody Hr. unfold handleTurn in Hr. apply runs_inv in Hr as (b & tr0 & E & Hr).
  pose proof (f_equal (fun l => head l ≫= read_of) E) as Eb. simpl in Eb. injection Eb as <-.
  pose proof (f_equal (fun l => tail l) E) as Et. simpl in Et. subst tr0. clear E. simpl in Hr.
  rewrite Hbody, (deps_ret _ Hd) in Hr. unfold resolveTurnAuth in Hr. rewrite Hb in Hr. simpl in Hr.
  apply runs_inv in Hr as (now & tr' & -> & Hr). exists now, tr'. split_and!; [done| |].
  - intros payload s Hv Hs Hne Hprobe. rewrite Hv in Hr. simpl in Hs, Hr. rewrite Hs in Hr. simpl in Hr.
    rewrite (bool_decide_eq_false_2 (s = "")) in Hr by done. simpl in Hr.
    rewrite bool_decide_eq_false_2 in Hr by (intros ?; congruence). simpl in Hr.
    apply runs_inv in Hr as ([] & tr2 & -> & [-> _]%runs_inv). eexists. split; [reflexivity|]. unfold probe_verdict.
    rewrite error_received by (by destruct (bool_decide (probe_session sessionId = ""))). reflexivity.
  - intros e Hv. pose proof (verify_refusal _ _ _ _ _ Hv) as [H401|]; [|done]. rewrite Hv in Hr. simpl in Hr.
    change (statusFor (code e) = 401) in H401. rewrite H401 in Hr.
    apply runs_inv in Hr as ([] & tr2 & -> & [-> _]%runs_inv). eexists. split; [reflexivity|]. reflexivity.
Qed.
End Probe.

(** ** Overload *)

Lemma parseInt_dec n : 0 ≤ n ≤ MAX_SAFE_INTEGER → nonneg (parseInt (dec_signed n)) = Some n.
Proof.
  intros Hn. unfold dec_signed. destruct (Z.ltb_spec n 0); [lia|].
  assert (Hp : Forall plain_digit (dec n)) by (apply dec_plain; lia).
  assert (Hd : parseInt (dec n) = toDouble (inject_Z n)).
  { unfold parseInt. rewrite trim_start_no_ws by (by apply plain_no_ws).
    destruct (dec n) as [|c r] eqn:E; [by apply dec_nonempty in E|].
    assert (Hc : c ≠ "+"%char ∧ c ≠ "-"%char) by (inversion Hp as [|? ? [Hc _] _]; split; intros ->; vm_compute in Hc; congruence).
    destruct Hc as [Hc1 Hc2]. rewrite <-E in *.
    assert (Hs : (match (span_digits (dec n)).1 with [] => NaN | ds => match digits_value 10 0 ds with Some n => toDouble (inject_Z n) | None => NaN end end)
                 = toDouble (inject_Z n)).
    { rewrite span_digits_all by done. cbn [fst]. rewrite E. rewrite <-E, dec_value by lia. done. }
    rewrite <-Hs. rewrite E. destruct c as [[] [] [] [] [] [] [] []]; first [reflexivity|done]. }
  rewrite Hd. pose proof (toDouble_safe n ltac:(lia)) as Ht. destruct (toDouble (inject_Z n)) as [q| | |]; try done.
  unfold integer_val in Ht. destruct (Z.eqb_spec (Qnum q mod Zpos (Qden q)) 0) as [Hm|]; [|done]. simplify_eq. simpl.
  assert (Qle_bool 0 q = true) as ->; [|done]. apply Qle_bool_iff. unfold Qle. simpl.
  pose proof (Z.div_mod (Qnum q) (Zpos (Qden q)) ltac:(lia)). nia.
Qed.

(** When the harness has no sandbox to run a turn in, the user is told to wait for as long as
    the server's setting says, and not that the harness is down. *)
Theorem overload_retry_after env name m sessionId :
  name ∈ NO_CAPACITY → 0 ≤ retryAfterS (saturationWaitConfig env) ≤ MAX_SAFE_INTEGER →
  m ∉ TOKEN_CODES ++ ["session_not_found"; "endpoint_unresolved"; "identity_provider_misconfigured"] →
  match sessionId with Some j => serialisable j = true | None => True end →
  let status := turnErrorStatus (AnError name m) in
  let e := errorFromResponse from_harness
             (received status (turnErrorHeaders env status) (stringify (turn_error_body (AnError name m) sessionId))) in
  classify e = URetryAfter (retryAfterS (saturationWaitConfig env)).
Proof.
  intros Hname Hr Hm Hs status e.
  assert (Hst : status = 503) by (subst status; simpl; by rewrite bool_decide_eq_true_2).
  subst e. rewrite error_received.
  2: { unfold turn_error_body, truthy_field. destruct sessionId as [j|]; [|done]. destruct (truthy j); [|done].
       simpl. by rewrite Hs. }
  rewrite Hst. change (turnErrorHeaders env 503) with (JSON_HEADERS ++ [("Retry-After", dec_str (retryAfterS (saturationWaitConfig env)))]).
  assert (Hh : get_header "retry-after" (received 503 (JSON_HEADERS ++ [("Retry-After", dec_str (retryAfterS (saturationWaitConfig env)))])
    (stringify (turn_error_body (AnError name m) sessionId))) = Some (dec_str (retryAfterS (saturationWaitConfig env)))) by reflexivity.
  rewrite Hh. simpl default. unfold dec_str at 2. rewrite bytes_string, parseInt_dec by done.
  assert (Hc : as_string (field "error" (turn_error_body (AnError name m) sessionId)) = Some m).
  { unfold turn_error_body. fold status. by rewrite Hst. }
  rewrite Hc. unfold classify, apiError. cbn [ae_status ae_code ae_message ae_source ae_retryAfterS].
  rewrite !bool_decide_eq_false_2 by set_solver. reflexivity.
Qed.

(** ** Witnesses *)

Lemma overload_retry_after_witness :
  classify (errorFromResponse from_harness
    (received 503 (turnErrorHeaders ∅ 503) (stringify (turn_error_body (AnError "SandboxPoolSaturatedError" "all busy") None))))
  = URetryAfter 5.
Proof.
  refine (overload_retry_after ∅ "SandboxPoolSaturatedError" "all busy" None _ _ _ _).
  - left.
  - vm_compute. split; discriminate.
  - apply (bool_decide_unpack _). vm_compute. exact I.
  - exact I.
Defined.

Section Example.
Local Existing Instance toy_ed25519.

Definition ex_probe_body : bytes := stringify (probe_body "s1").
Definition ex_probe_trace := (ptrace (ex_reply ex_probe_body) ex_turn 1000000).1.

Definition now_of (e : event (C := server_call) (R := server_reply)) : option Z :=
  match e with existT c r => match c return server_reply c → option Z with
                             | Caller c => match c return tanswer c → option Z with TurnNow => fun r => Some r | _ => fun _ => None end
                             | _ => fun _ => None end r end.

Lemma probe_decides_witness :
  ∃ b, drop 2 ex_probe_trace = [ev (Respond 400 JSON_HEADERS (Some b)) tt] ∧ probe_verdict (received 400 JSON_HEADERS b) = Ok trusted.
Proof.
  assert (Hr := ptrace_runs (ex_reply ex_probe_body) ex_turn 1000000). fold ex_probe_trace in Hr.
  destruct (turnAuthDepsFromEnv (Server.env ex_env) None) as [deps|] eqn:Ed; [|vm_compute in Ed; discriminate Ed].
  destruct (TurnAuth.bearer toy_headers) as [tok|] eqn:Hb; [|vm_compute in Hb; discriminate Hb].
  assert (Ht : ∃ tr, ex_probe_trace = ev ReadBody (Some ex_probe_body) :: tr ∧ (head tr ≫= now_of) = Some 1000000)
    by (eexists; split; vm_compute; reflexivity).
  destruct Ht as (tr & Ht & Hnow). rewrite Ht in Hr |- *.
  destruct (probe_decides ex_env "/" (Ok None) "" deps toy_headers tok "s1" ex_probe_body _ _
              (ex_intro _ None (conj eq_refl Ed)) Hb ltac:(vm_compute; reflexivity) Hr) as (now & tr' & -> & Hok & _).
  simpl in Hnow. injection Hnow as ->. simpl drop.
  destruct (verifyToken (bytes_of tok) (TurnAuth.keys deps) (1000000 / 1000) (Some "turn:write")) as [payload|e] eqn:Hv.
  - refine (Hok payload "s1" eq_refl _ _ _); [|discriminate|discriminate].
    vm_compute in Ed. injection Ed as <-. vm_compute in Hb. injection Hb as <-. vm_compute in Hv. injection Hv as <-.
    vm_compute. reflexivity.
  - exfalso. vm_compute in Ed. injection Ed as <-. vm_compute in Hb. injection Hb as <-. vm_compute in Hv. discriminate Hv.
Defined.
End Example.
