(* ===== verification/SessionManager.v ===== *)
(** * Sessions of the terminal client

    Models [packages/mocactl/src/core/session-manager.ts].  [ActiveSession] is an event machine:
    its queue, the turn or pause it is in, and who waits for it to be idle; [runTurn] is a tree
    of calls, in which a stream is answered by the frames it yields and how it ends.  The loop
    of [runTurn] has no bound of its own (a harness may stay without capacity): it is unrolled any number of
    times, and the theorems hold for each. *)

From Stdlib Require Import QArith.
From S2P Require Import Prelude JsNumber Json Prog TurnStream ClientApi.

Local Open Scope Z_scope.

Definition DOUBLE_ESC_MS : Z := 1000.

Inductive outcome := o_done | o_error (e : client_error) | o_cancelled.

Inductive SessionEvent :=
| TurnStart (prompt : string)
| FrameEvent (f : TurnFrame)
| Retrying (seconds : Z)
| TurnEnd (o : outcome)
| QueueSize (n : nat).

Record SessionToken := mkSToken { st_token : string; st_expiresAt : Z }.

(** ** One turn *)

Inductive turn_client_call :=
| MintToken                                   (* cp.mintSessionToken(sessionId) *)
| OpenStream (prompt token : string)          (* harness.streamTurn, read to its end *)
| EmitEvent (e : SessionEvent)
| RecordPrompt (prompt : string)
| RecordFrame (f : TurnFrame)
| FlushTranscript
| ClientNow
| ClientSleep (ms : Z)
| SignalAborted.

Definition turn_client_reply (c : turn_client_call) : Type :=
  match c with
  | MintToken => result client_error SessionToken
  | OpenStream _ _ => yields
  | ClientNow => Z
  | SignalAborted => bool
  | _ => unit
  end.

Inductive no_error := .
Definition turn_client_prog : Type → Type := prog turn_client_call turn_client_reply no_error.
Definition do_ (c : turn_client_call) : turn_client_prog (turn_client_reply c) := Call c Ret.

Definition HarnessUntrusted : client_error :=
  AnyError "the harness rejected a freshly minted session token — it is likely missing MU1 auth configuration. Run doctor for details: `/doctor` in the app, or `mocactl doctor`.".

Definition NO_RESULT : client_error := AnyError "the harness ended the turn without a result".

(** [frame.errorMessage ?? frame.stopReason] of an error frame *)
Definition frame_error (f : TurnFrame) : client_error :=
  match f with
  | Known _ d =>
      match field "errorMessage" d with
      | Some (JStr m) => AnyError m
      | _ => AnyError (default "" (as_string (field "stopReason" d)))
      end
  | UnknownFrame _ _ => AnyError ""
  end.

Definition end_of (f : TurnFrame) : outcome :=
  match f with Known t _ => if bool_decide (t = "done") then o_done else o_error (frame_error f) | _ => o_done end.

(** The frames of one stream, recorded and shown; [Some f] when one ended the turn. *)
Fixpoint show_frames (fs : list TurnFrame) : turn_client_prog (option TurnFrame) :=
  match fs with
  | [] => Ret None
  | f :: fs' =>
      await _ <- do_ (RecordFrame f);
      await _ <- do_ (EmitEvent (FrameEvent f));
      if isTerminal f then Ret (Some f) else show_frames fs'
  end.

(** How the attempts ended: with an event already emitted, by throwing, or not yet. *)
Inductive attempt := Emitted | Thrown (e : client_error) | StillTrying.

Section Turn.
Context (remintMarginS : Z) (prompt : string).

Definition ensureToken (tok : SessionToken) : turn_client_prog (result client_error SessionToken) :=
  await now <- do_ ClientNow;
  if st_expiresAt tok * 1000 - now <? remintMarginS * 1000 then do_ MintToken else Ret (Ok tok).

Definition is_cancel (e : client_error) : bool := match e with TurnCancelled => true | _ => false end.

(** What may be tried again: an answer of the harness to a request it has not begun to serve. *)
Definition refusal_of (e : client_error) (streamed : bool) : option ApiError :=
  match e with
  | Api a => if bool_decide (ae_source a = from_harness) && negb streamed then Some a else None
  | _ => None
  end.

Fixpoint attempts (n : nat) (tok : SessionToken) (reminted : bool) : turn_client_prog (attempt * SessionToken) :=
  match n with
  | O => Ret (StillTrying, tok)
  | S n' =>
      await t <- ensureToken tok;
      match t with
      | Throw e => Ret (Thrown e, tok)
      | Ok tok =>
          await s <- do_ (OpenStream prompt (st_token tok));
          let '(frames, how) := s in
          await last <- show_frames frames;
          match last with
          | Some f => await _ <- do_ (EmitEvent (TurnEnd (end_of f))); Ret (Emitted, tok)
          | None =>
              match how with
              | Ok _ => await _ <- do_ (EmitEvent (TurnEnd (o_error NO_RESULT))); Ret (Emitted, tok)
              | Throw e =>
                  await aborted <- do_ SignalAborted;
                  if aborted || is_cancel e then Ret (Thrown TurnCancelled, tok)
                  else
                    match refusal_of e (negb (bool_decide (length frames = O))) with
                    | None => Ret (Thrown e, tok)
                    | Some a =>
                        if bool_decide (ae_code a ∈ TOKEN_CODES) || bool_decide (ae_code a = "session_mismatch") then
                          if reminted : bool
                          then Ret (Thrown (if bool_decide (ae_code a = "session_mismatch") then e else HarnessUntrusted), tok)
                          else await m <- do_ MintToken;
                               match m with
                               | Throw e => Ret (Thrown e, tok)
                               | Ok tok => attempts n' tok true
                               end
                        else
                          match (if ae_status a =? 503 then ae_retryAfterS a else None) with
                          | Some s =>
                              await _ <- do_ (EmitEvent (Retrying s));
                              await _ <- do_ (ClientSleep (s * 1000));
                              await aborted <- do_ SignalAborted;
                              if aborted : bool then Ret (Thrown TurnCancelled, tok) else attempts n' tok reminted
                          | None => Ret (Thrown e, tok)
                          end
                    end
              end
          end
      end
  end.

(** Whether the turn ended cancelled, and the token the session now has; [None] while the
    harness has had no capacity in every attempt. *)
Definition runTurn (n : nat) (tok : SessionToken) (resend : bool) : turn_client_prog (option bool * SessionToken) :=
  await _ <- (if resend then Ret tt else do_ (RecordPrompt prompt));
  await _ <- do_ (EmitEvent (TurnStart prompt));
  await a <- attempts n tok false;
  let '(a, tok) := a in
  match a with
  | StillTrying => Ret (None, tok)
  | Emitted => Ret (Some false, tok)
  | Thrown e =>
      await _ <- do_ FlushTranscript;
      await aborted <- do_ SignalAborted;
      if aborted || is_cancel e
      then await _ <- do_ (EmitEvent (TurnEnd o_cancelled)); Ret (Some true, tok)
      else await _ <- do_ (EmitEvent (TurnEnd (o_error e))); Ret (Some false, tok)
  end.
End Turn.

(** ** What a turn does *)

Abbreviation turn_event := (event (C := turn_client_call) (R := turn_client_reply)).

Definition emits (e : turn_event) : option SessionEvent := match projT1 e with EmitEvent x => Some x | _ => None end.
Definition records (e : turn_event) : option TurnFrame := match projT1 e with RecordFrame f => Some f | _ => None end.
Definition prompts_recorded (e : turn_event) : option string := match projT1 e with RecordPrompt p => Some p | _ => None end.

Definition opens (e : turn_event) : option yields :=
  match e with existT c r =>
    match c return turn_client_reply c → option yields with OpenStream _ _ => fun r => Some r | _ => fun _ => None end r
  end.

(** The signal was found aborted. *)
Definition saw_abort (e : turn_event) : option unit :=
  match e with existT c r =>
    match c return turn_client_reply c → option unit with SignalAborted => fun b => if b : bool then Some tt else None | _ => fun _ => None end r
  end.

(** A stream the harness refused because of the token. *)
Definition token_refusal (y : yields) : bool :=
  match y with
  | ([], Throw (Api a)) =>
      bool_decide (ae_source a = from_harness)
      && (bool_decide (ae_code a ∈ TOKEN_CODES) || bool_decide (ae_code a = "session_mismatch"))
  | _ => false
  end.

Definition during (e : SessionEvent) : bool := match e with FrameEvent _ | Retrying _ => true | _ => false end.
Definition shown (e : SessionEvent) : option TurnFrame := match e with FrameEvent f => Some f | _ => None end.

(** The frames of a stream up to the one that ends the turn. *)
Fixpoint until_terminal (fs : list TurnFrame) : list TurnFrame :=
  match fs with [] => [] | f :: fs' => if isTerminal f then [f] else f :: until_terminal fs' end.

Lemma show_frames_runs fs tr o :
  runs (show_frames fs) tr o →
  omap emits tr = FrameEvent <$> until_terminal fs ∧ omap records tr = until_terminal fs
  ∧ omap opens tr = [] ∧ omap saw_abort tr = [] ∧ omap prompts_recorded tr = []
  ∧ o = Ok (match last (until_terminal fs) with Some f => if isTerminal f then Some f else None | None => None end).
Proof.
  revert tr. induction fs as [|f fs IH]; intros tr Hr; simpl in Hr.
  { apply runs_inv in Hr as [-> ->]. done. }
  apply runs_inv in Hr as (u & t1 & -> & Hr). apply runs_inv in Hr as (u' & t2 & -> & Hr). cbn [until_terminal].
  change (ev (RecordFrame f) u :: ev (EmitEvent (FrameEvent f)) u' :: t2)
    with ([ev (RecordFrame f) u; ev (EmitEvent (FrameEvent f)) u'] ++ t2). rewrite !omap_app.
  destruct (isTerminal f) eqn:Ef.
  { apply runs_inv in Hr as [-> ->]. simpl. by rewrite Ef. }
  destruct (IH _ Hr) as (E1 & E2 & E3 & E4 & E5 & ->). rewrite E1, E2, E3, E4, E5. split_and!; try done.
  destruct (until_terminal fs) as [|g gs] eqn:E; [|done]. simpl. by rewrite Ef.
Qed.

Definition quiet (tr : list turn_event) : Prop :=
  omap emits tr = [] ∧ omap records tr = [] ∧ omap opens tr = [] ∧ omap saw_abort tr = [] ∧ omap prompts_recorded tr = [].

Lemma quiet_app t1 t2 : quiet t1 → quiet t2 → quiet (t1 ++ t2).
Proof.
  intros (A1 & A2 & A3 & A4 & A5) (B1 & B2 & B3 & B4 & B5). unfold quiet.
  by rewrite !omap_app, A1, A2, A3, A4, A5, B1, B2, B3, B4, B5.
Qed.

Lemma ensureToken_runs margin tok tr o : runs (ensureToken margin tok) tr o → quiet tr ∧ ∃ r, o = Ok r.
Proof.
  unfold ensureToken. intros (now & t1 & -> & Hr)%runs_inv. simpl in Hr. destruct (_ <? _).
  - apply runs_inv in Hr as (m & t2 & -> & [-> ->]%runs_inv). split; [done|by eexists].
  - apply runs_inv in Hr as [-> ->]. split; [done|by eexists].
Qed.

(** The attempts of a turn: streams that were refused before anything came, then at most one
    whose frames are shown. *)
Record attempts_ok (reminted : bool) (tr : list turn_event) (a : attempt) : Prop := mkAttempts {
  at_events : ∃ mid fin, omap emits tr = mid ++ fin ∧ forallb during mid = true ∧ omap shown mid = omap records tr
                ∧ match a with Emitted => ∃ o, fin = [TurnEnd o] ∧ o ≠ o_cancelled | _ => fin = [] end;
  at_streams : ∃ ys lst, omap opens tr = ys ++ lst ∧ Forall (fun y : yields => y.1 = []) ys ∧ (length lst ≤ 1)%nat
                ∧ omap records tr = lst ≫= (fun y => until_terminal y.1);
  at_refused : (length (filter (fun y => token_refusal y = true) (omap opens tr)) ≤ if reminted then 1 else 2)%nat;
  at_abort : omap saw_abort tr = [] ∨ a = Thrown TurnCancelled ∧ ∃ t0 r, tr = t0 ++ [ev SignalAborted r] ∧ omap saw_abort t0 = [];
  at_prompts : omap prompts_recorded tr = [];
}.

(** A refused attempt before the others. *)
Lemma attempts_after t0 t1 a (rem rem' : bool) :
  forallb during (omap emits t0) = true → omap shown (omap emits t0) = [] → omap records t0 = [] →
  Forall (fun y : yields => y.1 = []) (omap opens t0) →
  (length (filter (fun y => token_refusal y = true) (omap opens t0)) + (if rem' then 1 else 2) ≤ if rem then 1 else 2)%nat →
  omap saw_abort t0 = [] → omap prompts_recorded t0 = [] →
  attempts_ok rem' t1 a → attempts_ok rem (t0 ++ t1) a.
Proof.
  intros He Hs Hr Ho Hf Ha Hp [(mid & fin & E & Hm & Hsh & Hfin) (ys & lst & Ey & Hy & Hl & Hrec) Href Hab Hpr].
  constructor.
  - exists (omap emits t0 ++ mid), fin. rewrite !omap_app, E, Hs, Hr, forallb_app, He, Hm, Hsh, app_assoc. done.
  - exists (omap opens t0 ++ ys), lst. rewrite !omap_app, Ey, Hr, app_assoc. split_and!; try done. by apply Forall_app.
  - rewrite omap_app, filter_app, length_app. lia.
  - rewrite omap_app, Ha. destruct Hab as [->|(-> & t2 & r & -> & Hb)]; [by left|right]. split; [done|].
    exists (t0 ++ t2), r. by rewrite app_assoc, omap_app, Ha, Hb.
  - by rewrite omap_app, Hp, Hpr.
Qed.

(** An attempt that is the last. *)
Lemma attempts_last t0 ys (fin : list SessionEvent) t1 a (rem : bool) y :
  quiet t0 → omap opens t1 = [y] → ys = until_terminal y.1 →
  omap emits t1 = (FrameEvent <$> ys) ++ fin → omap records t1 = ys →
  match a with Emitted => ∃ o, fin = [TurnEnd o] ∧ o ≠ o_cancelled | _ => fin = [] end →
  omap saw_abort t1 = [] ∨ a = Thrown TurnCancelled ∧ (∃ t2 r, t1 = t2 ++ [ev SignalAborted r] ∧ omap saw_abort t2 = []) →
  omap prompts_recorded t1 = [] →
  attempts_ok rem (t0 ++ t1) a.
Proof.
  intros (A1 & A2 & A3 & A4 & A5) Ho Hys He Hr Hfin Hab Hp. constructor.
  - exists (FrameEvent <$> ys), fin. rewrite !omap_app, A1, A2, He, Hr. split_and!; [done| | |done].
    + clear. induction ys; simpl; auto.
    + clear. induction ys as [|f ys IH]; [done|]. exact (f_equal (cons f) IH).
  - exists [], [y]. rewrite !omap_app, A2, A3, Ho, Hr. split_and!; [done|done|done|]. simpl. by rewrite app_nil_r.
  - rewrite omap_app, A3, Ho. simpl. rewrite filter_cons. case_decide; simpl; destruct rem; lia.
  - rewrite omap_app, A4. destruct Hab as [->|(-> & t2 & r & -> & Hb)]; [by left|right]. split; [done|].
    exists (t0 ++ t2), r. by rewrite app_assoc, omap_app, A4, Hb.
  - by rewrite omap_app, A5, Hp.
Qed.

Lemma attempts_quiet t a rem : quiet t → a ≠ Emitted → attempts_ok rem t a.
Proof.
  intros (A1 & A2 & A3 & A4 & A5) Ha. constructor; rewrite ?A1, ?A2, ?A3, ?A4, ?A5.
  - exists [], []. split_and!; [done|done|done|]. by destruct a.
  - exists [], []. split_and!; [done|done|simpl; lia|done].
  - destruct rem; simpl; lia.
  - by left.
  - done.
Qed.

Lemma until_terminal_nil fs : until_terminal fs = [] ↔ fs = [].
Proof. destruct fs as [|f fs]; simpl; [done|]. by destruct (isTerminal f). Qed.

Ltac trace_facts :=
  rewrite ?omap_app;
  repeat match goal with H : omap ?f ?t = _ |- context [omap ?f ?t] => rewrite H end;
  rewrite ?app_nil_r.

Lemma attempts_runs margin prompt n tok rem tr o :
  runs (attempts margin prompt n tok rem) tr o → ∃ a tok', o = Ok (a, tok') ∧ attempts_ok rem tr a.
Proof.
  revert tok rem tr. induction n as [|n IH]; intros tok rem tr Hr; cbn [attempts] in Hr.
  { apply runs_inv in Hr as [-> ->]. eexists _, _. split; [done|]. by apply attempts_quiet. }
  apply runs_bind in Hr as [([] & _)|(t & t0 & t1 & -> & Ht & Hr)]. destruct (ensureToken_runs _ _ _ _ Ht) as [Hq _]. simpl in Hr.
  destruct t as [tok1|e].
  2: { apply runs_inv in Hr as [-> ->]. eexists _, _. split; [done|]. apply attempts_quiet; [by apply quiet_app|done]. }
  apply runs_inv in Hr as (y & t2 & -> & Hr). destruct y as [fs how] eqn:Ey. cbn [pbind] in Hr.
  apply runs_bind in Hr as [([] & _)|(lst & tf & t3 & -> & Hf & Hr)].
  destruct (show_frames_runs _ _ _ Hf) as (F1 & F2 & F3 & F4 & F5 & [= ->]).
  set (op := ev (OpenStream prompt (st_token tok1)) (fs, how)).
  change (t0 ++ op :: tf ++ t3) with (t0 ++ [op] ++ tf ++ t3).
  assert (Hlast : ∀ t3 fin a, omap emits t3 = fin → omap records t3 = [] → omap opens t3 = [] → omap prompts_recorded t3 = [] →
    match a with Emitted => ∃ o, fin = [TurnEnd o] ∧ o ≠ o_cancelled | _ => fin = [] end →
    omap saw_abort t3 = [] ∨ a = Thrown TurnCancelled ∧ (∃ t r, t3 = t ++ [ev SignalAborted r] ∧ omap saw_abort t = []) →
    attempts_ok rem (t0 ++ [op] ++ tf ++ t3) a).
  { intros t3' fin a E1 E2 E3 E4 Hfin Hab.
    apply (attempts_last t0 (until_terminal fs) fin ([op] ++ tf ++ t3') a rem (fs, how)); try done; try (by trace_facts).
    destruct Hab as [Hab|(-> & t & r & -> & Hab)]; [left; by trace_facts|right]. split; [done|].
    exists ([op] ++ tf ++ t), r. split; [by rewrite <-!app_assoc|]. by trace_facts. }
  destruct (match last (until_terminal fs) with Some f => if isTerminal f then Some f else None | None => None end) as [f|] eqn:El.
  { apply runs_inv in Hr as (u & t4 & -> & [-> ->]%runs_inv). eexists _, _. split; [done|].
    apply (Hlast _ [TurnEnd (end_of f)]); try done; [|by left]. exists (end_of f). split; [done|].
    destruct f as [ty d|]; simpl; [by case_bool_decide|done]. }
  destruct how as [u|e].
  { apply runs_inv in Hr as (u' & t4 & -> & [-> ->]%runs_inv). eexists _, _. split; [done|].
    apply (Hlast _ [TurnEnd (o_error NO_RESULT)]); try done; [|by left]. eexists. by split. }
  apply runs_inv in Hr as (aborted & t4 & -> & Hr). cbn [pbind] in Hr.
  destruct (aborted || is_cancel e) eqn:Eab.
  { apply runs_inv in Hr as [-> ->]. eexists _, _. split; [done|]. apply (Hlast _ []); try done. right. split; [done|].
    by exists [], aborted. }
  apply orb_false_iff in Eab as [-> Ecan].
  assert (Hend : ∀ t a, quiet t → a ≠ Emitted → attempts_ok rem (t0 ++ [op] ++ tf ++ ev SignalAborted false :: t) a).
  { intros t a (Q1 & Q2 & Q3 & Q4 & Q5) Ha. apply (Hlast _ []); [exact Q1|exact Q2|exact Q3|exact Q5|by destruct a|left; exact Q4]. }
  destruct (refusal_of e _) as [a|] eqn:Eref.
  2: { apply runs_inv in Hr as [-> ->]. eexists _, _. split; [done|]. by apply Hend. }
  assert (e = Api a ∧ ae_source a = from_harness ∧ fs = []) as (-> & Hsrc & ->).
  { unfold refusal_of in Eref. destruct e as [a'| |]; [|done..].
    destruct (bool_decide (ae_source a' = from_harness)) eqn:Hs; [|done]. apply bool_decide_eq_true in Hs.
    destruct fs; [|done]. by simplify_eq/=. }
  apply runs_inv in Hf as [-> _]. clear F1 F2 F3 F4 F5.
  assert (Hmore : ∀ tx t' a' (rem' : bool),
    forallb during (omap emits tx) = true → omap shown (omap emits tx) = [] → omap records tx = [] → omap opens tx = [] →
    omap saw_abort tx = [] → omap prompts_recorded tx = [] →
    ((if token_refusal ([], Throw (Api a)) then 1 else 0) + (if rem' then 1 else 2) ≤ if rem then 1 else 2)%nat →
    attempts_ok rem' t' a' → attempts_ok rem (t0 ++ [op] ++ [] ++ ev SignalAborted false :: tx ++ t') a').
  { intros tx t' a' rem' X1 X2 X3 X4 X5 X6 Hcount Hok. destruct Hq as (Q1 & Q2 & Q3 & Q4 & Q5).
    replace (t0 ++ [op] ++ [] ++ ev SignalAborted false :: tx ++ t') with ((t0 ++ [op; ev SignalAborted false] ++ tx) ++ t')
      by (by rewrite <-!app_assoc).
    eapply (attempts_after _ t' a' rem rem'); try done; rewrite !omap_app; rewrite ?Q1, ?Q2, ?Q3, ?Q4, ?Q5, ?X1, ?X2, ?X3, ?X4, ?X5, ?X6; try done.
    - simpl. by constructor.
    - simpl. rewrite filter_cons. destruct (token_refusal ([], Throw (Api a))) eqn:Et; [rewrite decide_True by done|rewrite decide_False by done]; simpl; lia. }
  unfold token_refusal in Hmore. rewrite (bool_decide_eq_true_2 _ Hsrc) in Hmore. cbn [andb] in Hmore.
  destruct (bool_decide (ae_code a ∈ TOKEN_CODES) || bool_decide (ae_code a = "session_mismatch")) eqn:Etok.
  - destruct rem.
    { apply runs_inv in Hr as [-> ->]. eexists _, _. split; [done|]. by apply Hend. }
    apply runs_inv in Hr as (m & t5 & -> & Hr). cbn [pbind] in Hr. destruct m as [tok2|e].
    2: { apply runs_inv in Hr as [-> ->]. eexists _, _. split; [done|]. by apply (Hend [ev MintToken (Throw e)]). }
    destruct (IH _ _ _ Hr) as (a' & tok' & -> & Hok). eexists _, _. split; [done|].
    by apply (Hmore [ev MintToken (Ok tok2)] t5 a' true).
  - destruct (if ae_status a =? 503 then ae_retryAfterS a else None) as [s|] eqn:Es.
    2: { apply runs_inv in Hr as [-> ->]. eexists _, _. split; [done|]. by apply Hend. }
    apply runs_inv in Hr as (u1 & t5 & -> & Hr). apply runs_inv in Hr as (u2 & t6 & -> & Hr).
    apply runs_inv in Hr as (ab2 & t7 & -> & Hr). cbn [pbind] in Hr. destruct ab2.
    + apply runs_inv in Hr as [-> ->]. eexists _, _. split; [done|].
      replace (ev SignalAborted false :: ev (EmitEvent (Retrying s)) u1 :: ev (ClientSleep (s * 1000)) u2 :: [ev SignalAborted true])
        with (ev SignalAborted false :: [ev (EmitEvent (Retrying s)) u1; ev (ClientSleep (s * 1000)) u2] ++ [ev SignalAborted true]) by done.
      apply (Hmore _ _ _ rem); try done. constructor; [by exists [], []|exists [], []; split_and!; [done|done|simpl; lia|done]|destruct rem; simpl; lia| |done].
      right. split; [done|]. by exists [], true.
    + destruct (IH _ _ _ Hr) as (a' & tok' & -> & Hok). eexists _, _. split; [done|].
      by apply (Hmore [ev (EmitEvent (Retrying s)) u1; ev (ClientSleep (s * 1000)) u2; ev SignalAborted false] t7 a' rem).
Qed.

(** The turn goes on only while the harness answers each attempt with a refusal. *)
Lemma attempts_trying margin prompt n tok rem tr tok' :
  runs (attempts margin prompt n tok rem) tr (Ok (StillTrying, tok')) → length (omap opens tr) = n.
Proof.
  revert tok rem tr. induction n as [|n IH]; intros tok rem tr Hr; cbn [attempts] in Hr.
  { by apply runs_inv in Hr as [-> _]. }
  apply runs_bind in Hr as [([] & _)|(t & t0 & t1 & -> & Ht & Hr)]. destruct (ensureToken_runs _ _ _ _ Ht) as [Hq _]. simpl in Hr.
  destruct Hq as (_ & _ & Q & _). rewrite omap_app, Q. clear Q.
  destruct t as [tok1|e]; [|by apply runs_inv in Hr as [_ ?]].
  apply runs_inv in Hr as ([fs how] & t2 & -> & Hr). cbn [pbind] in Hr.
  apply runs_bind in Hr as [([] & _)|(lst & tf & t3 & -> & Hf & Hr)].
  destruct (show_frames_runs _ _ _ Hf) as (_ & _ & F & _). destruct lst as [f|].
  { apply runs_inv in Hr as (u & t4 & -> & [_ ?]%runs_inv). done. }
  assert (Hn : ∀ t4, length (omap opens t4) = n →
    length (omap opens ([] ++ ev (OpenStream prompt (st_token tok1)) (fs, how) :: tf ++ t4)) = S n).
  { intros t4 Hn. simpl. f_equal. by rewrite omap_app, F. }
  apply Hn. clear Hn F Hf. destruct how as [u|e].
  { apply runs_inv in Hr as (u' & t4 & -> & [_ ?]%runs_inv). done. }
  apply runs_inv in Hr as (ab & t4 & -> & Hr). cbn [pbind] in Hr.
  destruct (_ || _); [by apply runs_inv in Hr as [_ ?]|]. destruct (refusal_of _ _) as [a|]; [|by apply runs_inv in Hr as [_ ?]].
  destruct (_ || _).
  - destruct rem; [by apply runs_inv in Hr as [_ ?]|]. apply runs_inv in Hr as (m & t5 & -> & Hr). cbn [pbind] in Hr.
    destruct m as [tok2|e']; [|by apply runs_inv in Hr as [_ ?]]. exact (IH _ _ _ Hr).
  - destruct (if _ =? _ then _ else _) as [s|]; [|by apply runs_inv in Hr as [_ ?]].
    apply runs_inv in Hr as (u1 & t5 & -> & Hr). apply runs_inv in Hr as (u2 & t6 & -> & Hr).
    apply runs_inv in Hr as (ab2 & t7 & -> & Hr). cbn [pbind] in Hr.
    destruct ab2; [by apply runs_inv in Hr as [_ ?]|]. exact (IH _ _ _ Hr).
Qed.

(** What a turn of the client promises its screen, its transcript and the harness. *)
Record turn_ok (prompt : string) (n : nat) (resend : bool) (tr : list turn_event) (c : option bool) : Prop := mkTurnOk {
  tk_prompt : omap prompts_recorded tr = if resend then [] else [prompt];
  tk_events : ∃ mid fin, omap emits tr = TurnStart prompt :: mid ++ fin ∧ forallb during mid = true
                ∧ omap shown mid = omap records tr
                ∧ match c with Some b => ∃ o, fin = [TurnEnd o] ∧ (b = true ↔ o = o_cancelled) | None => fin = [] end;
  tk_streams : ∃ ys lst, omap opens tr = ys ++ lst ∧ Forall (fun y : yields => y.1 = []) ys ∧ (length lst ≤ 1)%nat
                ∧ omap records tr = lst ≫= (fun y => until_terminal y.1);
  tk_refused : (length (filter (fun y => token_refusal y = true) (omap opens tr)) ≤ 2)%nat;
  tk_abort : ∀ t1 t2, tr = t1 ++ t2 → omap saw_abort t1 ≠ [] → omap opens t2 = [] ∧ c = Some true;
  tk_waiting : c = None → length (omap opens tr) = n;
}.

(** What follows the attempts: the turn's last event. *)
Definition closing (tr : list turn_event) (fin : list SessionEvent) : Prop :=
  omap emits tr = fin ∧ omap records tr = [] ∧ omap opens tr = [] ∧ omap prompts_recorded tr = [].

Lemma turn_ok_close prompt n (resend : bool) t0 t1 t2 a (c : option bool) fin :
  omap emits t0 = [TurnStart prompt] → omap records t0 = [] → omap opens t0 = [] → omap saw_abort t0 = [] →
  omap prompts_recorded t0 = (if resend then [] else [prompt]) →
  attempts_ok false t1 a → closing t2 fin →
  match c with
  | Some b => ∃ o, omap emits t1 ++ fin = omap emits t1 ++ [TurnEnd o] ∧ (b = true ↔ o = o_cancelled) ∧ a ≠ Emitted
              ∨ a = Emitted ∧ fin = [] ∧ b = false
  | None => a = StillTrying ∧ fin = [] ∧ length (omap opens t1) = n
  end →
  (omap saw_abort t1 ≠ [] ∨ omap saw_abort t2 ≠ [] → c = Some true) →
  turn_ok prompt n resend (t0 ++ t1 ++ t2) c.
Proof.
  intros Z1 Z2 Z3 Z4 Z5 [(mid & f1 & E & Hm & Hs & Hf) (ys & lst & Ey & Hy & Hl & Hrec) Href Hab Hpr] (C1 & C2 & C3 & C4) Hc Ha.
  constructor.
  - by rewrite !omap_app, Z5, Hpr, C4, !app_nil_r.
  - exists mid, (f1 ++ fin). rewrite !omap_app, Z1, Z2, C1, C2, E, app_nil_r. split_and!; [simpl; by rewrite app_assoc|done|done|].
    destruct c as [b|].
    + destruct Hc as [o [(Ho & Hb & Hne)|(-> & -> & ->)]].
      * exists o. apply app_inv_head in Ho as ->. split; [|done]. by destruct a; rewrite ?Hf.
      * destruct Hf as (o' & -> & Hne). exists o'. by split.
    + destruct Hc as (-> & -> & _). by rewrite Hf.
  - exists ys, lst. by rewrite !omap_app, Z3, Z2, C3, C2, Ey, Hrec, !app_nil_r.
  - by rewrite !omap_app, Z3, C3, app_nil_r.
  - intros s1 s2 Htr Hsaw.
    assert (Hall : omap saw_abort t1 ≠ [] ∨ omap saw_abort t2 ≠ []).
    { destruct (omap saw_abort t1) eqn:E1; [|by left]. right. intros E2. apply Hsaw.
      assert (Hnil : omap saw_abort (s1 ++ s2) = []) by (by rewrite <-Htr, !omap_app, Z4, E1, E2).
      rewrite omap_app in Hnil. by apply app_nil in Hnil as [? _]. }
    split; [|by apply Ha]. apply app_eq_app in Htr as (l & [[E1 E2]|[E1 E2]]).
    + exfalso. apply Hsaw. rewrite E1, omap_app in Z4. by apply app_nil in Z4 as [? _].
    + rewrite E1 in Hsaw. rewrite omap_app, Z4 in Hsaw. simpl in Hsaw.
      apply app_eq_app in E2 as (l' & [[E2 E3]|[E2 E3]]).
      * rewrite E3, omap_app, C3, app_nil_r. destruct Hab as [Hn|(_ & u & r & Hu & Hn)].
        { exfalso. apply Hsaw. rewrite E2, omap_app in Hn. by apply app_nil in Hn as [? _]. }
        rewrite E2 in Hu. destruct l' as [|x l' _] using rev_ind; [done|]. rewrite app_assoc in Hu.
        apply app_inj_tail in Hu as [Hu ->]. exfalso. apply Hsaw. rewrite <-Hu, omap_app in Hn. by apply app_nil in Hn as [? _].
      * rewrite E3, omap_app in C3. by apply app_nil in C3 as [_ ?].
  - intros ->. destruct Hc as (_ & _ & Hlen). by rewrite !omap_app, Z3, C3, app_nil_r.
Qed.

Lemma runTurn_ok margin prompt n tok resend tr o :
  runs (runTurn margin prompt n tok resend) tr o → ∃ c tok', o = Ok (c, tok') ∧ turn_ok prompt n resend tr c.
Proof.
  unfold runTurn. intros Hr. apply runs_bind in Hr as [([] & _)|(u & t0 & t1 & -> & Hp & Hr)].
  apply runs_inv in Hr as (u' & t2 & -> & Hr). cbn [pbind] in Hr.
  apply runs_bind in Hr as [([] & _)|([a tok'] & ta & tb & -> & Hat & Hr)].
  destruct (attempts_runs _ _ _ _ _ _ _ Hat) as (a' & tok'' & [= <- <-] & Hok).
  change (t0 ++ ev (EmitEvent (TurnStart prompt)) u' :: ta ++ tb) with (t0 ++ [ev (EmitEvent (TurnStart prompt)) u'] ++ ta ++ tb).
  rewrite app_assoc.
  assert (Hclose : ∀ c fin, closing tb fin →
    match c with
    | Some b => ∃ o, omap emits ta ++ fin = omap emits ta ++ [TurnEnd o] ∧ (b = true ↔ o = o_cancelled) ∧ a ≠ Emitted
                ∨ a = Emitted ∧ fin = [] ∧ b = false
    | None => a = StillTrying ∧ fin = [] ∧ length (omap opens ta) = n
    end →
    (omap saw_abort ta ≠ [] ∨ omap saw_abort tb ≠ [] → c = Some true) →
    turn_ok prompt n resend ((t0 ++ [ev (EmitEvent (TurnStart prompt)) u']) ++ ta ++ tb) c).
  { intros c fin Hc Hm Hs. apply (turn_ok_close _ _ _ _ _ _ a c fin); try done.
    all: destruct resend; [apply runs_inv in Hp as [-> _]|apply runs_inv in Hp as (? & ? & -> & [-> _]%runs_inv)]; done. }
  pose proof (at_abort _ _ _ Hok) as Hab. destruct a as [|e|].
  - apply runs_inv in Hr as [-> ->]. eexists _, _. split; [done|]. apply (Hclose (Some false) []); [done| |].
    { exists o_done. by right. }
    intros [?|?]; [|done]. destruct Hab as [?|[? _]]; done.
  - apply runs_inv in Hr as (f & t3 & -> & Hr). apply runs_inv in Hr as (ab & t4 & -> & Hr). cbn [pbind] in Hr.
    destruct (ab || is_cancel e) eqn:Ec.
    + apply runs_inv in Hr as (f' & t5 & -> & [-> ->]%runs_inv). eexists _, _. split; [done|].
      apply (Hclose (Some true) [TurnEnd o_cancelled]); [done| |done]. exists o_cancelled. by left.
    + apply orb_false_iff in Ec as [-> Ec]. apply runs_inv in Hr as (f' & t5 & -> & [-> ->]%runs_inv). eexists _, _. split; [done|].
      apply (Hclose (Some false) [TurnEnd (o_error e)]); [done| |].
      { exists (o_error e). by left. }
      intros [?|?]; [|done]. destruct Hab as [?|[[= ->] _]]; done.
  - apply runs_inv in Hr as [-> ->]. eexists _, _. split; [done|]. apply (Hclose None []); [done| |].
    { split_and!; [done|done|]. by eapply attempts_trying. }
    intros [?|?]; [|done]. destruct Hab as [?|[? _]]; done.
Qed.

(** C24. A turn of the client: it shows one start and then, unless the harness has had no capacity in
    any of the attempts so far, one end; between them come only frames and notices of retries,
    and the transcript records exactly the frames that are shown, those of one stream up to the
    one that ends the turn.  The prompt is recorded once, or not at all when it is sent again
    after a login.  No request follows a stream that has yielded a frame, at most two are refused
    for their token, and once the turn is seen to be cancelled no request is made and it ends as
    cancelled. *)
Theorem turn_protocol margin prompt n tok resend tr o :
  runs (runTurn margin prompt n tok resend) tr o → ∃ c tok', o = Ok (c, tok') ∧ turn_ok prompt n resend tr c.
Proof. apply runTurn_ok. Qed.

(** A turn refused once for its token, retried with a new one, cancelled while it streams. *)
Definition example_frame : TurnFrame := UnknownFrame "note" JNull.
Definition refused_once : list turn_event :=
  [ev (RecordPrompt "hi") tt; ev (EmitEvent (TurnStart "hi")) tt; ev ClientNow 0;
   ev (OpenStream "hi" "old") ([], Throw (Api (mkApiError from_harness 401 "token_expired" "" None)));
   ev SignalAborted false; ev MintToken (Ok (mkSToken "new" 100)); ev ClientNow 0;
   ev (OpenStream "hi" "new") ([example_frame], Throw TurnCancelled);
   ev (RecordFrame example_frame) tt; ev (EmitEvent (FrameEvent example_frame)) tt; ev SignalAborted true;
   ev FlushTranscript tt; ev SignalAborted true; ev (EmitEvent (TurnEnd o_cancelled)) tt].

Lemma turn_protocol_witness :
  runs (runTurn 30 "hi" 5 (mkSToken "old" 100) false) refused_once (Ok (Some true, mkSToken "new" 100))
  ∧ turn_ok "hi" 5 false refused_once (Some true).
Proof.
  assert (H : runs (runTurn 30 "hi" 5 (mkSToken "old" 100) false) refused_once (Ok (Some true, mkSToken "new" 100))).
  { repeat constructor. }
  split; [exact H|]. destruct (turn_protocol _ _ _ _ _ _ _ H) as (c & tok' & [= <- <-] & Hok). exact Hok.
Defined.

(** ** Sessions *)

Inductive manager_call :=
| CpCreate (req : json)           (* cp.createSession: the session and its first token *)
| CpMint (sessionId : string)
| CpDelete (sessionId : string)
| EnsureTranscript (sessionId : string)
| DeleteTranscript (sessionId : string).

Definition manager_reply (c : manager_call) : Type :=
  match c with
  | CpCreate _ => result client_error (string * SessionToken)
  | CpMint _ => result client_error SessionToken
  | CpDelete _ => result client_error deletion
  | _ => result client_error unit
  end.

Definition manager_prog : Type → Type := prog manager_call manager_reply client_error.

(** An awaited call whose rejection is thrown. *)
Definition lift {A} (r : result client_error A) : manager_prog A := match r with Ok a => Ret a | Throw e => Err e end.

(** A new session, or one that is resumed, is its id and its token. *)
Definition create (req : json) : manager_prog (string * SessionToken) :=
  await r <- Call (CpCreate req) Ret;
  await created <- lift r;
  await t <- Call (EnsureTranscript created.1) Ret;
  await _ <- lift t;
  Ret created.

Definition resume (sessionId : string) : manager_prog (string * SessionToken) :=
  await r <- Call (CpMint sessionId) Ret;
  await tok <- lift r;
  Ret (sessionId, tok).

Definition gone (e : client_error) : bool :=
  match e with Api a => bool_decide (ae_code a = "session_not_found") | _ => false end.

Definition remove (sessionId : string) : manager_prog deletion :=
  await r <- Call (CpDelete sessionId) Ret;
  match r with
  | Throw e =>
      await _ <- (if gone e then await t <- Call (DeleteTranscript sessionId) Ret; lift t else Ret tt);
      Err e
  | Ok d =>
      await t <- Call (DeleteTranscript sessionId) Ret;
      await _ <- lift t;
      Ret d
  end.

Definition transcript_deleted (e : event (C := manager_call) (R := manager_reply)) : option string :=
  match projT1 e with DeleteTranscript id => Some id | _ => None end.

(** The local history of a session goes exactly when the control plane says that the session is
    deleted, being deleted, or not there; any other refusal leaves it and is thrown. *)
Lemma removal_follows_server id tr o :
  runs (remove id) tr o →
  ∃ r, head tr = Some (ev (CpDelete id) r)
    ∧ omap transcript_deleted tr = (if match r with Ok _ => true | Throw e => gone e end then [id] else [])
    ∧ (∀ e, r = Throw e → gone e = false → o = Throw e).
Proof.
  unfold remove. intros (r & t1 & -> & Hr)%runs_inv. exists r. split; [done|]. cbn [pbind] in Hr. destruct r as [d|e].
  - apply runs_inv in Hr as (t & t2 & -> & Hr). cbn [pbind] in Hr. split; [|done].
    destruct t; cbn [lift pbind] in Hr; by apply runs_inv in Hr as [-> _].
  - destruct (gone e) eqn:Eg.
    + apply runs_inv in Hr as (t & t2 & -> & Hr). cbn [pbind] in Hr. split; [|intros e' [= <-] ?; congruence].
      destruct t; cbn [lift pbind] in Hr; by apply runs_inv in Hr as [-> _].
    + apply runs_inv in Hr as [-> ->]. split; [done|]. by intros e' [= <-] _.
Qed.
