(* ===== verification/ActiveSession.v ===== *)
(** * The queue of a client session

    Models the queue of [ActiveSession] in [packages/mocactl/src/core/session-manager.ts]: the
    fields [queue], [controller], [running], [idleWaiters] and [endPause], and the activations of
    [drain] that are suspended at one of its [await]s.  Nothing in the state says that there is
    at most one activation: that is what the flag [running] is for, and a theorem here.  What a
    turn does is [runTurn] of [SessionManager]; here it is an activation that comes back at some
    point, cancelled or not.  The server does not serialise the turns of a session; this queue
    does. *)

From S2P Require Import Prelude.

Local Open Scope nat_scope.

Record item := mkItem { it_prompt : string; it_resend : bool }.

(** Where an activation of [drain] is suspended; turns and pauses have identities. *)
Inductive drain_at :=
| AwaitTurn (turn : nat)
| TurnReturned (cancelled : bool)
| AwaitPause (pause : nat)
| PauseOver.

Record Active := mkActive {
  queue : list item;
  controller : option nat;
  running : bool;
  idleWaiters : list nat;
  endPause : option nat;
  drains : list drain_at;
  fresh_id : nat;
}.

Definition new_session : Active := mkActive [] None false [] None [] 0.

Inductive output :=
| QueueEvent (size : nat)
| StartTurn (i : item)
| AbortTurn (turn : nat)
| Resolve (waiter : nat).

Inductive input :=
| submit (i : item)
| cancel
| clearQueue
| idle (waiter : nat)
| turn_returns (act : nat) (cancelled : bool)
| goes_on (act : nat)
| pause_timer (act : nat).

(** [cancelPauseMs], 1000 unless set *)
Section Session.
Context (cancelPauseMs : Z).

(** The [while] of [drain] up to its next [await], or its end: the activation's new place. *)
Definition drain_loop (s : Active) : Active * option drain_at * list output :=
  match queue s with
  | i :: q =>
      let id := fresh_id s in
      (mkActive q (Some id) (running s) (idleWaiters s) (endPause s) (drains s) (S id), Some (AwaitTurn id),
       [QueueEvent (length q); StartTurn i])
  | [] =>
      (mkActive [] (controller s) false [] (endPause s) (drains s) (fresh_id s), None, Resolve <$> idleWaiters s)
  end.

Definition set_drains (s : Active) (l : list drain_at) : Active :=
  mkActive (queue s) (controller s) (running s) (idleWaiters s) (endPause s) l (fresh_id s).

(** Activation [k] moves to where the loop left it. *)
Definition resume_at (s : Active) (k : nat) : Active * list output :=
  let '(s', at_, out) := drain_loop s in
  (set_drains s' (match at_ with Some d => <[k := d]> (drains s') | None => delete k (drains s') end), out).

Definition drain (s : Active) : Active * list output :=
  if running s then (s, [])
  else
    let s := mkActive (queue s) (controller s) true (idleWaiters s) (endPause s) (drains s) (fresh_id s) in
    let '(s', at_, out) := drain_loop s in
    (set_drains s' (drains s' ++ match at_ with Some d => [d] | None => [] end), out).

(** [end] of a pause: the activation waiting for it may go on. *)
Definition end_pause (s : Active) (id : nat) : Active :=
  mkActive (queue s) (controller s) (running s) (idleWaiters s) None
    ((fun d => match d with AwaitPause p => if bool_decide (p = id) then PauseOver else d | _ => d end) <$> drains s)
    (fresh_id s).

Definition step (s : Active) (i : input) : option (Active * list output) :=
  match i with
  | submit it =>
      let q := queue s ++ [it] in
      let '(s', out) := drain (mkActive q (controller s) (running s) (idleWaiters s) (endPause s) (drains s) (fresh_id s)) in
      Some (s', QueueEvent (length q) :: out)
  | cancel => Some (s, match controller s with Some t => [AbortTurn t] | None => [] end)
  | clearQueue =>
      let s := mkActive [] (controller s) (running s) (idleWaiters s) (endPause s) (drains s) (fresh_id s) in
      Some (match endPause s with Some p => end_pause s p | None => s end, [QueueEvent 0])
  | idle w =>
      if negb (running s) && bool_decide (length (queue s) = 0) then Some (s, [Resolve w])
      else Some (mkActive (queue s) (controller s) (running s) (idleWaiters s ++ [w]) (endPause s) (drains s) (fresh_id s), [])
  | turn_returns k c =>
      match drains s !! k with
      | Some (AwaitTurn t) =>
          Some (mkActive (queue s) (if bool_decide (controller s = Some t) then None else controller s)
                  (running s) (idleWaiters s) (endPause s) (<[k := TurnReturned c]> (drains s)) (fresh_id s), [])
      | _ => None
      end
  | goes_on k =>
      match drains s !! k with
      | Some (TurnReturned c) =>
          if c && negb (bool_decide (length (queue s) = 0)) && negb (cancelPauseMs =? 0)%Z
          then let id := fresh_id s in
               Some (mkActive (queue s) (controller s) (running s) (idleWaiters s) (Some id)
                       (<[k := AwaitPause id]> (drains s)) (S id), [])
          else Some (resume_at s k)
      | Some PauseOver => Some (resume_at s k)
      | _ => None
      end
  | pause_timer k => match drains s !! k with Some (AwaitPause p) => Some (end_pause s p, []) | _ => None end
  end.

Inductive steps : Active → list input → list output → Active → Prop :=
| steps_nil s : steps s [] [] s
| steps_cons s i s1 o1 ins os s2 : step s i = Some (s1, o1) → steps s1 ins os s2 → steps s (i :: ins) (o1 ++ os) s2.

Fixpoint play (s : Active) (ins : list input) : option (Active * list output) :=
  match ins with
  | [] => Some (s, [])
  | i :: ins' =>
      '(s1, o1) ← step s i;
      '(s2, o2) ← play s1 ins';
      Some (s2, o1 ++ o2)
  end.

Lemma play_steps s ins s' os : play s ins = Some (s', os) → steps s ins os s'.
Proof.
  revert s os. induction ins as [|i ins IH]; intros s os; simpl; [intros [= -> <-]; constructor|].
  destruct (step s i) as [[s1 o1]|] eqn:E; [|done]. simpl. destruct (play s1 ins) as [[s2 o2]|] eqn:E2; [|done]. simpl.
  intros [= -> <-]. econstructor; [done|by apply IH].
Qed.

(** ** What holds of every session *)

Definition sound (s : Active) : Prop :=
  match drains s with
  | [] => running s = false ∧ queue s = [] ∧ idleWaiters s = [] ∧ controller s = None ∧ endPause s = None
  | [d] =>
      running s = true
      ∧ match d with
        | AwaitTurn t => controller s = Some t ∧ endPause s = None
        | AwaitPause p => controller s = None ∧ endPause s = Some p ∧ queue s ≠ []
        | _ => controller s = None ∧ endPause s = None
        end
  | _ => False
  end.

Definition submitted (i : input) : option item := match i with submit it => Some it | _ => None end.
Definition asked (i : input) : option nat := match i with idle w => Some w | _ => None end.
Definition started (o : output) : option item := match o with StartTurn it => Some it | _ => None end.
Definition resolved (o : output) : option nat := match o with Resolve w => Some w | _ => None end.

(** Everything queued is started, in its order, unless the queue is cleared. *)
Definition accounts (s : Active) (ins : list input) (os : list output) (s' : Active) : Prop :=
  (clearQueue ∉ ins → queue s ++ omap submitted ins = omap started os ++ queue s')
  ∧ omap started os ++ queue s' `sublist_of` queue s ++ omap submitted ins
  ∧ idleWaiters s ++ omap asked ins = omap resolved os ++ idleWaiters s'.

Lemma started_resolve (l : list nat) : omap started (Resolve <$> l) = [].
Proof. induction l; simpl; auto. Qed.

Lemma resolved_resolve (l : list nat) : omap resolved (Resolve <$> l) = l.
Proof. induction l as [|w l IH]; [done|]. exact (f_equal (cons w) IH). Qed.

(** What the loop does for the one activation there is. *)
Lemma drain_loop_ok s s' at_ os :
  drain_loop s = (s', at_, os) → running s = true → controller s = None → endPause s = None →
  sound (set_drains s' match at_ with Some d => [d] | None => [] end)
  ∧ queue s = omap started os ++ queue s' ∧ idleWaiters s = omap resolved os ++ idleWaiters s'
  ∧ drains s' = drains s.
Proof.
  unfold drain_loop. intros E Hr Hc Hp. destruct (queue s) as [|i q] eqn:Eq; simplify_eq; simpl.
  - unfold sound; simpl. rewrite started_resolve, resolved_resolve, !app_nil_r. done.
  - done.
Qed.

(** A step keeps the session sound and accounts for what it moves. *)
Lemma session_step_ok s i s' os : sound s → step s i = Some (s', os) → sound s' ∧ accounts s [i] os s'.
Proof.
  intros Hs Hst. unfold accounts.
  assert (Hone : ∀ d, drains s = [d] → ∀ k d', drains s !! k = Some d' → k = 0 ∧ d' = d).
  { intros d Hd k d' Hk. rewrite Hd in Hk. by destruct k; simplify_eq/=. }
  assert (Hres : ∀ k d, drains s = [d] → drains s !! k = Some d → running s = true → controller s = None → endPause s = None →
            resume_at s k = (s', os) → omap submitted [i] = [] → omap asked [i] = [] →
            sound s' ∧ accounts s [i] os s').
  { intros k d Hd Hk Hr Hc Hp E Hi Ha. destruct (Hone _ Hd _ _ Hk) as [-> _]. unfold resume_at in E.
    destruct (drain_loop s) as [[s1 at_] o1] eqn:El. injection E as <- <-.
    destruct (drain_loop_ok _ _ _ _ El Hr Hc Hp) as (Hs1 & Hq & Hw & Hdr). rewrite Hdr, Hd.
    split; [by destruct at_|]. unfold accounts. rewrite Hi, Ha, !app_nil_r. by rewrite Hq, Hw. }
  destruct i as [it| | |w|k c|k|k]; unfold step in Hst.
  - unfold drain in Hst. simpl in Hst. destruct (drains s) as [|d [|]] eqn:Ed; unfold sound in Hs; rewrite Ed in Hs; [| |done].
    + destruct Hs as (Hr & Hq & Hw & Hc & Hp). rewrite Hr, Hq in Hst. simplify_eq/=. rewrite Hq, Hw, Hp. split; [done|].
      split_and!; [done|done|done].
    + destruct Hs as (Hr & Hd). rewrite Hr in Hst. simplify_eq/=. unfold sound. simpl. rewrite ?Ed, ?app_nil_r. split; [|done].
      split; [done|]. destruct d; try done. destruct Hd as (? & ? & ?). split_and!; [done|done|]. by destruct (queue s).
  - injection Hst as <- <-. split; [done|]. rewrite !app_nil_r. by destruct (controller s).
  - injection Hst as <- <-. clear Hres. rewrite !app_nil_r. split; [|split_and!; [intros H; destruct H; left|destruct (endPause s); apply sublist_nil_l|]].
    + unfold sound in *. destruct (drains s) as [|d [|]] eqn:Ed; simpl; [|destruct Hs as [Hr Hd]|done].
      { destruct Hs as (? & ? & ? & ? & ->). simpl. by rewrite ?Ed. }
      destruct d as [t|c|p|]; destruct Hd as [Hc Hp]; [rewrite Hp|rewrite Hp|destruct Hp as [Hp _]; rewrite Hp|rewrite Hp]; simpl; rewrite ?Ed; try done.
      simpl. by rewrite bool_decide_eq_true_2.
    + simpl. by destruct (endPause s).
  - destruct (negb (running s) && _) eqn:E; injection Hst as <- <-.
    + split; [done|]. apply andb_true_iff in E as [E1 _]. apply negb_true_iff in E1. unfold sound in Hs.
      destruct (drains s) as [|d [|]] eqn:Ed; [|by destruct Hs as [Hr _]; rewrite Hr in E1|done].
      destruct Hs as (_ & -> & -> & _). done.
    + split; [|by rewrite !app_nil_r]. unfold sound in *. simpl. destruct (drains s) as [|d [|]]; [|done|done].
      destruct Hs as (Hr & Hq & _). rewrite Hr, Hq in E. done.
  - destruct (drains s !! k) as [[t| | |]|] eqn:Ek; [|done..]. injection Hst as <- <-. split; [|by rewrite !app_nil_r].
    unfold sound in *. simpl. destruct (drains s) as [|d [|]] eqn:Ed; [done| |done].
    destruct (Hone _ eq_refl _ _ Ek) as [-> <-]. destruct Hs as (Hr & Hc & Hp). simpl. by rewrite bool_decide_eq_true_2.
  - destruct (drains s !! k) as [[t|c|p|]|] eqn:Ek; [done| |done| |done].
    + unfold sound in Hs. destruct (drains s) as [|d [|]] eqn:Ed; [done| |done].
      destruct (Hone _ eq_refl _ _ Ek) as [-> <-]. destruct Hs as (Hr & Hc & Hp).
      destruct (c && _ && _) eqn:E; injection Hst as Hst.
      * subst s' os. split; [|by rewrite !app_nil_r]. unfold sound. simpl. split_and!; try done.
        intros Eq. rewrite Eq in E. by rewrite andb_false_r in E.
      * by apply (Hres 0 (TurnReturned c)).
    + unfold sound in Hs. destruct (drains s) as [|d [|]] eqn:Ed; [done| |done].
      destruct (Hone _ eq_refl _ _ Ek) as [-> <-]. destruct Hs as (Hr & Hc & Hp). injection Hst as Hst.
      by apply (Hres 0 PauseOver).
  - destruct (drains s !! k) as [[| |p|]|] eqn:Ek; [done|done| |done|done]. injection Hst as <- <-. split; [|by rewrite !app_nil_r].
    unfold sound in *. simpl. destruct (drains s) as [|d [|]] eqn:Ed; [done| |done].
    destruct (Hone _ eq_refl _ _ Ek) as [-> <-]. destruct Hs as (Hr & Hc & Hp & _). simpl. by rewrite bool_decide_eq_true_2.
Qed.

Lemma accounts_trans s ins1 os1 s1 ins2 os2 s2 :
  accounts s ins1 os1 s1 → accounts s1 ins2 os2 s2 → accounts s (ins1 ++ ins2) (os1 ++ os2) s2.
Proof.
  intros (A1 & A2 & A3) (B1 & B2 & B3). unfold accounts. rewrite !omap_app. split_and!.
  - intros [H1 H2]%not_elem_of_app. by rewrite app_assoc, (A1 H1), <-!app_assoc, (B1 H2).
  - rewrite <-app_assoc. etrans; [apply sublist_app; [done|exact B2]|]. rewrite !app_assoc. by apply sublist_app.
  - by rewrite app_assoc, A3, <-!app_assoc, B3.
Qed.

Lemma steps_ok s ins os s' : sound s → steps s ins os s' → sound s' ∧ accounts s ins os s'.
Proof.
  intros Hs Hst. revert Hs. induction Hst as [s|s i s1 o1 ins os s2 Hi _ IH]; intros Hs.
  { split; [done|]. split_and!; simpl; by rewrite ?app_nil_r. }
  destruct (session_step_ok _ _ _ _ Hs Hi) as [Hs1 Ha]. destruct (IH Hs1) as [Hs2 Hb]. split; [done|].
  exact (accounts_trans _ [i] _ _ _ _ _ Ha Hb).
Qed.

(** Steps the session takes by itself once what it waits for is over. *)
Definition internal (i : input) : bool :=
  match i with turn_returns _ _ | goes_on _ | pause_timer _ => true | _ => false end.

Definition distance (s : Active) : nat :=
  match drains s with
  | [] => 0
  | d :: _ => 4 * length (queue s) + match d with AwaitTurn _ => 4 | TurnReturned _ => 3 | AwaitPause _ => 2 | PauseOver => 1 end
  end.

Lemma resume_nearer s k d s' os :
  drains s = [d] → drains s !! k = Some d → (∀ t, d ≠ AwaitTurn t) → resume_at s k = (s', os) → distance s' < distance s.
Proof.
  intros Hd Hk Hne. rewrite Hd in Hk. destruct k; [|done]. unfold resume_at, drain_loop, distance. rewrite Hd.
  destruct (queue s) as [|i q]; intros [= <- <-]; simpl; rewrite ?Hd; simpl; destruct d; try lia; naive_solver.
Qed.

Lemma internal_nearer s i s' os : sound s → internal i = true → step s i = Some (s', os) → distance s' < distance s.
Proof.
  intros Hs Hi Hst. destruct i as [| | | |k c|k|k]; try done; unfold step in Hst;
    destruct (drains s !! k) as [[t|c'|p|]|] eqn:Ek; try done;
    unfold sound in Hs; destruct (drains s) as [|d [|]] eqn:Ed; try done; destruct k as [|k]; simplify_eq/=.
  - unfold distance. simpl. rewrite Ed. simpl. lia.
  - destruct (c' && _ && _); injection Hst as Hst; [subst; unfold distance; simpl; rewrite Ed; simpl; lia|].
    by eapply (resume_nearer s 0 (TurnReturned c')); rewrite ?Ed.
  - by eapply (resume_nearer s 0 PauseOver); rewrite ?Ed.
  - unfold distance. simpl. rewrite Ed. simpl. rewrite bool_decide_eq_true_2 by done. lia.
Qed.

Lemma internal_enabled s : sound s → drains s ≠ [] → ∃ i s' os, internal i = true ∧ step s i = Some (s', os).
Proof.
  intros Hs Hd. unfold sound in Hs. destruct (drains s) as [|d [|]] eqn:Ed; [done| |done].
  destruct d as [t|c|p|].
  - exists (turn_returns 0 false). simpl. rewrite Ed. simpl. eauto.
  - exists (goes_on 0). simpl. rewrite Ed. simpl. destruct (_ && _ && _); [eauto|]. destruct (resume_at s 0) eqn:E. eauto.
  - exists (pause_timer 0). simpl. rewrite Ed. simpl. eauto.
  - exists (goes_on 0). simpl. rewrite Ed. simpl. destruct (resume_at s 0) eqn:E. eauto.
Qed.

(** Left alone, the session becomes idle within its distance. *)
Lemma internal_steps_idle s :
  sound s → ∃ ins os s', steps s ins os s' ∧ forallb internal ins = true ∧ length ins ≤ distance s ∧ drains s' = [].
Proof.
  remember (distance s) as n eqn:En. revert s En. induction n as [n IH] using lt_wf_ind. intros s -> Hs.
  destruct (decide (drains s = [])) as [Hd|Hd].
  { exists [], [], s. split_and!; [constructor|done|simpl; lia|done]. }
  destruct (internal_enabled s Hs Hd) as (i & s1 & o1 & Hi & Hst). pose proof (internal_nearer _ _ _ _ Hs Hi Hst) as Hlt.
  destruct (session_step_ok _ _ _ _ Hs Hst) as [Hs1 _].
  destruct (IH (distance s1) Hlt s1 eq_refl Hs1) as (ins & os & s2 & Hss & Hint & Hlen & Hidle).
  exists (i :: ins), (o1 ++ os), s2. split_and!; [by econstructor|simpl; by rewrite Hi|simpl; lia|done].
Qed.

Lemma internal_bounded s ins os s' : sound s → steps s ins os s' → forallb internal ins = true → length ins ≤ distance s.
Proof.
  intros Hs Hst. revert Hs. induction Hst as [s|s i s1 o1 ins os s2 Hi _ IH]; intros Hs Hint; [simpl; lia|].
  simpl in Hint. apply andb_true_iff in Hint as [H1 H2]. destruct (session_step_ok _ _ _ _ Hs Hi) as [Hs1 _].
  specialize (IH Hs1 H2). pose proof (internal_nearer _ _ _ _ Hs H1 Hi). simpl. lia.
Qed.
End Session.

Lemma new_sound : sound new_session.
Proof. done. Qed.

(** C25. The queue of a session: however submissions, cancellations, clearings and the ends of turns
    and pauses interleave, at most one activation of [drain] exists, so at most one turn runs, and
    the one that [cancel] aborts is the one that runs.  From any moment on, the prompts started
    are, in order, those queued then and those submitted since, but for the ones a [clearQueue]
    drops: after clearing, nothing starts that is not submitted again.  After a cancelled turn the
    next prompt waits for the pause.  Those who ask for the session to be idle are answered in
    their order, and none is left waiting when it is. *)
Theorem session_serialises pauseMs ins0 os0 s ins os s' :
  steps pauseMs new_session ins0 os0 s → steps pauseMs s ins os s' →
  length (drains s) ≤ 1
  ∧ (running s = true ↔ drains s ≠ [])
  ∧ (∀ t, controller s = Some t ↔ drains s = [AwaitTurn t])
  ∧ (drains s = [] → queue s = [] ∧ idleWaiters s = [])
  ∧ (clearQueue ∉ ins → queue s ++ omap submitted ins = omap started os ++ queue s')
  ∧ (omap started os ++ queue s' `sublist_of` queue s ++ omap submitted ins)
  ∧ idleWaiters s ++ omap asked ins = omap resolved os ++ idleWaiters s'
  ∧ (∀ k s1 o1, pauseMs ≠ 0%Z → drains s !! k = Some (TurnReturned true) → step pauseMs s (goes_on k) = Some (s1, o1) →
      omap started o1 = []).
Proof.
  intros H0 H. destruct (steps_ok _ _ _ _ _ new_sound H0) as [Hs _]. destruct (steps_ok _ _ _ _ _ Hs H) as [_ (A1 & A2 & A3)].
  assert (Hp : ∀ k s1 o1, pauseMs ≠ 0%Z → drains s !! k = Some (TurnReturned true) → step pauseMs s (goes_on k) = Some (s1, o1) →
      omap started o1 = []).
  { intros k s1 o1 Hne Hk Hst. unfold step in Hst. rewrite Hk in Hst. apply Z.eqb_neq in Hne. rewrite Hne in Hst. simpl in Hst.
    unfold resume_at, drain_loop in Hst. destruct (queue s) as [|i q]; simplify_eq/=; [apply started_resolve|done]. }
  unfold sound in Hs. destruct (drains s) as [|d [|]] eqn:Ed; [| |done].
  - destruct Hs as (Hr & Hq & Hw & Hc & _). rewrite Hr, Hc. split; [simpl; lia|]. split; [naive_solver|]. split; [naive_solver|].
    by split_and!.
  - destruct Hs as (Hr & Hd). rewrite Hr. split; [simpl; lia|]. split; [naive_solver|].
    split; [|by split_and!]. intros t. destruct d; destruct Hd as [-> _]; naive_solver.
Qed.

Definition hello : item := mkItem "hello" false.
Definition again : item := mkItem "again" false.

(** Two prompts, the first cancelled, the second cleared during the pause. *)
Definition paused : Active := mkActive [again] None true [7] (Some 1) [AwaitPause 1] 2.
Definition waiting : Active := mkActive [again] (Some 0) true [7] None [AwaitTurn 0] 1.

Lemma session_serialises_witness :
  steps 1000 new_session [submit hello; submit again; idle 7; cancel; turn_returns 0 true; goes_on 0]
    [QueueEvent 1; QueueEvent 0; StartTurn hello; QueueEvent 1; AbortTurn 0] paused
  ∧ ∃ s', steps 1000 paused [clearQueue; goes_on 0] [QueueEvent 0; Resolve 7] s'
    ∧ omap started [QueueEvent 0; Resolve 7] ++ queue s' `sublist_of` [again].
Proof.
  assert (H0 : steps 1000 new_session [submit hello; submit again; idle 7; cancel; turn_returns 0 true; goes_on 0]
    [QueueEvent 1; QueueEvent 0; StartTurn hello; QueueEvent 1; AbortTurn 0] paused) by (apply play_steps; reflexivity).
  split; [exact H0|]. eexists.
  assert (H : steps 1000 paused [clearQueue; goes_on 0] [QueueEvent 0; Resolve 7] (mkActive [] None false [] None [] 2))
    by (apply play_steps; reflexivity).
  split; [exact H|]. destruct (session_serialises _ _ _ _ _ _ _ H0 H) as (_ & _ & _ & _ & _ & Hsub & _). exact Hsub.
Defined.

(** C30. A session left alone: its turns and pauses, each ending some time, lead it to be idle, in at
    most four steps per prompt and whatever order they come in, and then everyone who waited
    has been answered and every queued prompt has been started. *)
Theorem session_becomes_idle pauseMs ins0 os0 s :
  steps pauseMs new_session ins0 os0 s →
  (∃ ins os s', steps pauseMs s ins os s' ∧ forallb internal ins = true ∧ drains s' = [] ∧ running s' = false
     ∧ omap started os = queue s ∧ omap resolved os = idleWaiters s)
  ∧ (∀ ins os s', steps pauseMs s ins os s' → forallb internal ins = true →
       length ins ≤ 4 * (length (queue s) + 1)
       ∧ (drains s' ≠ [] → ∃ i s'' o, internal i = true ∧ step pauseMs s' i = Some (s'', o))).
Proof.
  intros H0. destruct (steps_ok _ _ _ _ _ new_sound H0) as [Hs _].
  assert (Hint : ∀ ins, forallb internal ins = true → omap submitted ins = [] ∧ omap asked ins = [] ∧ clearQueue ∉ ins).
  { intros ins. induction ins as [|i ins IH]; [intros _; split_and!; [done|done|set_solver]|]. simpl. intros [Hi Hr]%andb_true_iff.
    destruct (IH Hr) as (I1 & I2 & I3). by destruct i; try done; split_and!; try done; apply not_elem_of_cons. }
  split.
  - destruct (internal_steps_idle pauseMs s Hs) as (ins & os & s' & Hst & Hi & _ & Hd). exists ins, os, s'.
    destruct (steps_ok _ _ _ _ _ Hs Hst) as [Hs' (A1 & _ & A3)]. destruct (Hint _ Hi) as (I1 & I2 & I3).
    unfold sound in Hs'. rewrite Hd in Hs'. destruct Hs' as (Hr & Hq & Hw & _).
    specialize (A1 I3). rewrite I1, Hq, !app_nil_r in A1. rewrite I2, Hw, !app_nil_r in A3. done.
  - intros ins os s' Hst Hi. pose proof (internal_bounded _ _ _ _ _ Hs Hst Hi) as Hlen.
    destruct (steps_ok _ _ _ _ _ Hs Hst) as [Hs' _]. split; [|by intros ?; apply internal_enabled].
    etrans; [exact Hlen|]. unfold distance. destruct (drains s) as [|[] ?]; lia.
Qed.

Lemma session_becomes_idle_witness :
  ∃ ins os s', steps 1000 waiting ins os s' ∧ running s' = false ∧ omap started os = [again] ∧ omap resolved os = [7].
Proof.
  assert (H0 : steps 1000 new_session [submit hello; submit again; idle 7]
    [QueueEvent 1; QueueEvent 0; StartTurn hello; QueueEvent 1] waiting) by (apply play_steps; reflexivity).
  destruct (session_becomes_idle _ _ _ _ H0) as [(ins & os & s' & Hst & _ & _ & Hr & Hq & Hw) _].
  exists ins, os, s'. split_and!; [exact Hst|exact Hr|exact Hq|exact Hw].
Defined.
