(* ===== verification/Blocks.v ===== *)
(** * What the terminal client shows

    Models [packages/mocactl/src/render/blocks.ts], the blocks a conversation is shown as, and
    the state of [views/useSession.ts], which turns the events of a session into blocks.  The
    blocks at the front that are settled are printed once, above the part of the screen that is
    redrawn; so nothing may ever change in them.  A frame has the shape its type declares. *)

From Stdlib Require Import QArith.
From S2P Require Import Prelude JsNumber Json Prog TurnStream ActiveSession Transcript ClientApi SessionManager.

Local Open Scope nat_scope.

(** ** Blocks *)

Inductive tone := t_info | t_warning | t_error.
Inductive end_kind := e_done | e_error | e_cancelled.

Inductive block_body :=
| BUser (text : string) (queued : bool)
| BAssistant (text thinking : string) (final : bool)
| BTool (toolId : option string) (name args : option json) (result : option (option json * option json))
| BTurnEnd (outcome : end_kind) (message : option json) (usage : option json)
| BEvent (label : string) (data : json)
| BNotice (text : string) (tn : tone).

Record Block := mkBlock { b_id : nat; b_body : block_body }.

Record BlockState := mkBlocks { blocks : list Block; nextId : nat }.

Definition EMPTY_BLOCKS : BlockState := mkBlocks [] 0.

Definition queued_user (b : Block) : bool := match b_body b with BUser _ q => q | _ => false end.

Fixpoint tail_from (bs : list Block) (i : nat) : nat :=
  match i with
  | O => O
  | S j => match bs !! j with Some b => if queued_user b then tail_from bs j else i | None => i end
  end.

Definition tailStart (bs : list Block) : nat := tail_from bs (length bs).

Definition insert_block (s : BlockState) (at_ : nat) (body : block_body) : BlockState :=
  mkBlocks (take at_ (blocks s) ++ [mkBlock (nextId s) body] ++ drop at_ (blocks s)) (S (nextId s)).

Definition push (s : BlockState) (body : block_body) : BlockState :=
  insert_block s
    (if match body with BUser _ q => q | _ => false end then length (blocks s) else tailStart (blocks s)) body.

(** [blocks[i] = { ...b, ... }]: the block keeps its id. *)
Definition replaceAt (s : BlockState) (i : nat) (body : block_body) : BlockState :=
  mkBlocks (alter (fun b => mkBlock (b_id b) body) i (blocks s)) (nextId s).

(** The assistant block text goes to: the last one before the queued prompts, if it is open. *)
Definition open_assistant (s : BlockState) : option (nat * string * string) :=
  match tailStart (blocks s) with
  | O => None
  | S i =>
      match b_body <$> blocks s !! i with
      | Some (BAssistant t k false) => Some (i, t, k)
      | _ => None
      end
  end.

Definition finalizeOpen (s : BlockState) : BlockState :=
  match open_assistant s with Some (i, t, k) => replaceAt s i (BAssistant t k true) | None => s end.

Inductive delta_field := d_text | d_thinking.

Definition appendToAssistant (s : BlockState) (fd : delta_field) (delta : string) : BlockState :=
  match open_assistant s with
  | Some (i, t, k) =>
      replaceAt s i (match fd with d_text => BAssistant (t +:+ delta) k false | d_thinking => BAssistant t (k +:+ delta) false end)
  | None =>
      push s (match fd with d_text => BAssistant delta "" false | d_thinking => BAssistant "" delta false end)
  end.

Definition eventReducer (s : BlockState) (f : TurnFrame) : BlockState :=
  push (finalizeOpen s) (match f with Known t d => BEvent t d | UnknownFrame e d => BEvent e d end).

Definition delta_of (d : json) : string := default "" (as_string (field "delta" d)).

(** The last tool block of that id, and whether it has its result. *)
Definition is_tool (id : option string) (b : Block) : bool :=
  match b_body b with BTool i _ _ _ => bool_decide (i = id) | _ => false end.

Fixpoint last_tool (bs : list Block) (id : option string) (i : nat) : option (nat * Block) :=
  match i with
  | O => None
  | S j =>
      match bs !! j with
      | Some b => if is_tool id b then Some (j, b) else last_tool bs id j
      | None => last_tool bs id j
      end
  end.

Definition nullish (v : option json) : bool := match v with None | Some JNull => true | _ => false end.

Definition FRAME_REDUCERS (t : string) (d : json) (s : BlockState) : BlockState :=
  if bool_decide (t = "text") then appendToAssistant s d_text (delta_of d)
  else if bool_decide (t = "thinking") then appendToAssistant s d_thinking (delta_of d)
  else if bool_decide (t = "tool_use") then
    push (finalizeOpen s) (BTool (as_string (field "id" d)) (field "name" d) (field "args" d) None)
  else if bool_decide (t = "tool_result") then
    match last_tool (blocks s) (as_string (field "id" d)) (length (blocks s)) with
    | Some (i, mkBlock _ (BTool id n a None)) => replaceAt s i (BTool id n a (Some (field "isError" d, field "preview" d)))
    | _ => eventReducer s (Known t d)
    end
  else if bool_decide (t = "done") then push (finalizeOpen s) (BTurnEnd e_done None (field "usage" d))
  else if bool_decide (t = "error") then
    push (finalizeOpen s)
      (BTurnEnd e_error (if nullish (field "errorMessage" d) then field "stopReason" d else field "errorMessage" d) (field "usage" d))
  else eventReducer s (Known t d).

Definition reduceFrame (s : BlockState) (f : TurnFrame) : BlockState :=
  match f with
  | Known t d => FRAME_REDUCERS t d s
  | UnknownFrame _ _ => eventReducer s f
  end.

Definition addUser (s : BlockState) (text : string) (queued : bool) : BlockState :=
  push (if queued then s else finalizeOpen s) (BUser text queued).

Definition markSent (s : BlockState) : BlockState :=
  match list_find (fun b => queued_user b = true) (blocks s) with
  | Some (i, mkBlock _ (BUser t _)) => replaceAt s i (BUser t false)
  | _ => s
  end.

Definition addNotice (s : BlockState) (text : string) (tn : tone) : BlockState :=
  match open_assistant s with
  | Some (i, _, _) => insert_block s i (BNotice text tn)
  | None => push (finalizeOpen s) (BNotice text tn)
  end.

Definition endTurn (s : BlockState) (o : end_kind) (message : option json) : BlockState :=
  push (finalizeOpen s) (BTurnEnd o message None).

(** The blocks of a transcript that is loaded. *)
Inductive entry := e_prompt (text : string) | e_frame (f : TurnFrame).

Definition add_entry (s : BlockState) (e : entry) : BlockState :=
  match e with e_prompt t => addUser s t false | e_frame f => reduceFrame s f end.

Definition interrupt (b : Block) : Block :=
  match b_body b with
  | BTool i n a None => mkBlock (b_id b) (BTool i n a (Some (Some (JBool true), Some (JStr "interrupted"))))
  | _ => b
  end.

Definition fromTranscript (entries : list entry) : BlockState :=
  let s := finalizeOpen (foldl add_entry EMPTY_BLOCKS entries) in
  mkBlocks (interrupt <$> blocks s) (nextId s).

Definition isSettled (b : Block) : bool :=
  match b_body b with
  | BAssistant _ _ final => final
  | BTool _ _ _ r => bool_decide (is_Some r)
  | BUser _ q => negb q
  | _ => true
  end.

Definition splitStatic (bs : list Block) : list Block * list Block :=
  match list_find (fun b => isSettled b = false) bs with
  | None => (bs, [])
  | Some (i, _) => (take i bs, drop i bs)
  end.

(** [clearQueue] of [useSession], on the blocks. *)
Definition drop_queued (s : BlockState) : BlockState :=
  mkBlocks (filter (fun b => queued_user b = false) (blocks s)) (nextId s).

(** ** Printed once *)

(** The blocks that are printed and not drawn again. *)
Definition printed (bs : list Block) : list Block := (splitStatic bs).1.

Lemma printed_spec bs :
  printed bs `prefix_of` bs ∧ Forall (fun b => isSettled b = true) (printed bs)
  ∧ (∀ b, bs !! length (printed bs) = Some b → isSettled b = false).
Proof.
  unfold printed, splitStatic. destruct (list_find _ bs) as [[i b]|] eqn:E; simpl.
  - apply list_find_Some in E as (Hb & Hf & Hbefore). pose proof (lookup_lt_Some _ _ _ Hb).
    split_and!; [apply prefix_take| |].
    + apply Forall_lookup_2. intros j b' [Hj Hlt]%lookup_take_Some. apply not_false_is_true. intros Hc. by apply (Hbefore j b').
    + rewrite length_take, Nat.min_l by lia. intros b'. by rewrite Hb; intros [= <-].
  - apply list_find_None in E. split_and!; [done| |].
    + eapply Forall_impl; [exact E|]. intros b. simpl. by destruct (isSettled b).
    + intros b. by rewrite lookup_ge_None_2 by lia.
Qed.

(** A prefix that is settled is part of what is printed. *)
Lemma settled_prefix_printed l bs : l `prefix_of` bs → Forall (fun b => isSettled b = true) l → l `prefix_of` printed bs.
Proof.
  intros Hl Hs. destruct (printed_spec bs) as (Hp & _ & Hnext). destruct (prefix_weak_total _ _ _ Hl Hp) as [?|[k Hk]]; [done|].
  destruct k as [|b k]; [rewrite app_nil_r in Hk; by rewrite Hk|]. exfalso. destruct Hl as [k' Hl].
  assert (Hb : isSettled b = true). { rewrite Hk in Hs. apply Forall_app in Hs as [_ Hs]. by apply Forall_cons in Hs as [? _]. }
  rewrite (Hnext b) in Hb; [done|]. rewrite Hk in Hl. revert Hl. generalize (printed bs). intros p ->. rewrite <-app_assoc. by apply list_lookup_middle.
Qed.

(** What keeps the printed blocks in place keeps them printed. *)
Lemma printed_grows bs bs' : printed bs `prefix_of` bs' → printed bs `prefix_of` printed bs'.
Proof. intros H. apply settled_prefix_printed; [done|]. by apply (printed_spec bs). Qed.

Lemma unsettled_beyond bs i b : bs !! i = Some b → isSettled b = false → length (printed bs) ≤ i.
Proof.
  intros Hi Hb. destruct (printed_spec bs) as ([k Hk] & Hs & _). destruct (decide (length (printed bs) ≤ i)) as [?|Hlt]; [done|].
  rewrite Hk, lookup_app_l in Hi by lia. pose proof (Forall_lookup_1 _ _ _ _ Hs Hi) as H. simpl in H. congruence.
Qed.

Lemma printed_take bs i : length (printed bs) ≤ i → printed bs `prefix_of` take i bs.
Proof.
  intros Hi. destruct (printed_spec bs) as ([k Hk] & _). rewrite Hk at 2. rewrite take_app_ge by done. by exists (take (i - length (printed bs)) k).
Qed.

Lemma insert_printed s i body : length (printed (blocks s)) ≤ i → printed (blocks s) `prefix_of` printed (blocks (insert_block s i body)).
Proof. intros Hi. apply printed_grows. simpl. by apply prefix_app_r, printed_take. Qed.

Lemma replace_printed s i b body :
  blocks s !! i = Some b → isSettled b = false → printed (blocks s) `prefix_of` printed (blocks (replaceAt s i body)).
Proof.
  intros Hi Hb. apply printed_grows. simpl. pose proof (unsettled_beyond _ _ _ Hi Hb) as Hle.
  etrans; [apply (printed_take _ _ Hle)|]. exists (drop i (alter (fun b => mkBlock (b_id b) body) i (blocks s))).
  by rewrite <-(take_alter_ge (fun b => mkBlock (b_id b) body) (blocks s) i i (Nat.le_refl _)), take_drop.
Qed.

(** *** Where blocks go *)

Lemma tail_from_spec bs i :
  i ≤ length bs →
  tail_from bs i ≤ i
  ∧ (∀ j b, tail_from bs i ≤ j < i → bs !! j = Some b → queued_user b = true)
  ∧ (∀ k b, tail_from bs i = S k → bs !! k = Some b → queued_user b = false).
Proof.
  induction i as [|i IH]; intros Hi; simpl.
  { split_and!; [done|intros; lia|done]. }
  destruct (bs !! i) as [b|] eqn:Eb; [|apply lookup_ge_None_1 in Eb; lia].
  destruct (queued_user b) eqn:Eq.
  - destruct IH as (H1 & H2 & H3); [lia|]. split_and!; [lia| |done].
    intros j b' Hj Hb. destruct (decide (j = i)) as [->|]; [congruence|]. apply (H2 j); [lia|done].
  - split_and!; [done|intros; lia|]. intros k b' [= <-] Hb. congruence.
Qed.

Lemma queued_unsettled b : queued_user b = true → isSettled b = false.
Proof. unfold queued_user, isSettled. destruct (b_body b); try done. by intros ->. Qed.

Lemma tail_beyond bs : length (printed bs) ≤ tailStart bs ≤ length bs.
Proof.
  destruct (tail_from_spec bs (length bs) (Nat.le_refl _)) as (H1 & H2 & _). fold (tailStart bs) in *. split; [|done].
  destruct (decide (tailStart bs = length bs)) as [->|Hne].
  { apply prefix_length, (proj1 (printed_spec bs)). }
  destruct (lookup_lt_is_Some_2 bs (tailStart bs)) as [b Hb]; [lia|].
  apply (unsettled_beyond _ _ _ Hb), queued_unsettled, (H2 (tailStart bs)); [lia|done].
Qed.

Lemma push_printed s body : printed (blocks s) `prefix_of` printed (blocks (push s body)).
Proof.
  apply insert_printed. pose proof (tail_beyond (blocks s)). destruct (match body with BUser _ q => q | _ => false end); lia.
Qed.

Lemma open_assistant_spec s i t k :
  open_assistant s = Some (i, t, k) →
  tailStart (blocks s) = S i ∧ ∃ id, blocks s !! i = Some (mkBlock id (BAssistant t k false)).
Proof.
  unfold open_assistant. destruct (tailStart (blocks s)) as [|j]; [done|].
  destruct (blocks s !! j) as [[id body]|] eqn:E; [|done]. simpl. destruct body as [|t' k' []| | | |]; try done.
  intros [= -> -> ->]. split; [done|]. by exists id.
Qed.

Lemma finalize_printed s : printed (blocks s) `prefix_of` printed (blocks (finalizeOpen s)).
Proof.
  unfold finalizeOpen. destruct (open_assistant s) as [[[i t] k]|] eqn:E; [|done].
  apply open_assistant_spec in E as (_ & id & Hb). by eapply replace_printed.
Qed.

Lemma push_final_printed s body : printed (blocks s) `prefix_of` printed (blocks (push (finalizeOpen s) body)).
Proof. etrans; [apply finalize_printed|apply push_printed]. Qed.

Lemma append_printed s fd d : printed (blocks s) `prefix_of` printed (blocks (appendToAssistant s fd d)).
Proof.
  unfold appendToAssistant. destruct (open_assistant s) as [[[i t] k]|] eqn:E; [|apply push_printed].
  apply open_assistant_spec in E as (_ & id & Hb). by eapply replace_printed.
Qed.

Lemma last_tool_spec bs id i j b : last_tool bs id i = Some (j, b) → bs !! j = Some b ∧ is_tool id b = true.
Proof.
  induction i as [|i IH]; simpl; [done|]. destruct (bs !! i) as [b'|] eqn:Eb; [|done].
  destruct (is_tool id b') eqn:Et; [|done]. by intros [= <- <-].
Qed.

(** ** Every change of the blocks *)

Inductive screen_op :=
| op_frame (f : TurnFrame)
| op_user (text : string) (queued : bool)
| op_sent
| op_notice (text : string) (tn : tone)
| op_end (o : end_kind) (message : option json)
| op_clear.

Definition apply_op (s : BlockState) (o : screen_op) : BlockState :=
  match o with
  | op_frame f => reduceFrame s f
  | op_user t q => addUser s t q
  | op_sent => markSent s
  | op_notice t tn => addNotice s t tn
  | op_end o m => endTurn s o m
  | op_clear => drop_queued s
  end.

Lemma reduce_printed s f : printed (blocks s) `prefix_of` printed (blocks (reduceFrame s f)).
Proof.
  destruct f as [t d|]; cbn [reduceFrame]; [|apply push_final_printed]. unfold FRAME_REDUCERS.
  repeat (case_bool_decide; [first [apply append_printed|apply push_final_printed|idtac]|]); [|apply push_final_printed].
  destruct (last_tool _ _ _) as [[i [id []]]|] eqn:E; try apply push_final_printed.
  destruct result; [apply push_final_printed|]. apply last_tool_spec in E as [E _]. by eapply replace_printed.
Qed.

Lemma sent_printed s : printed (blocks s) `prefix_of` printed (blocks (markSent s)).
Proof.
  unfold markSent. destruct (list_find _ _) as [[i [id []]]|] eqn:E; try done.
  apply list_find_Some in E as (Hb & Hq & _). by eapply replace_printed, queued_unsettled.
Qed.

Lemma notice_printed s t tn : printed (blocks s) `prefix_of` printed (blocks (addNotice s t tn)).
Proof.
  unfold addNotice. destruct (open_assistant s) as [[[i t'] k]|] eqn:E; [|apply push_final_printed].
  apply open_assistant_spec in E as (_ & id & Hb). by eapply insert_printed, unsettled_beyond.
Qed.

Lemma clear_printed s : printed (blocks s) `prefix_of` printed (blocks (drop_queued s)).
Proof.
  apply printed_grows. simpl. destruct (printed_spec (blocks s)) as ([k Hk] & Hs & _). revert Hk Hs. generalize (printed (blocks s)).
  intros p -> Hs. rewrite filter_app. apply prefix_app_r. induction Hs as [|b l Hb _ IH]; [done|].
  rewrite filter_cons_True; [by apply prefix_cons|]. apply not_true_is_false. intros E. by rewrite queued_unsettled in Hb.
Qed.

Lemma op_printed s o : printed (blocks s) `prefix_of` printed (blocks (apply_op s o)).
Proof.
  destruct o as [f|t [] | |t tn|e m|]; cbn [apply_op].
  - apply reduce_printed.
  - apply push_printed.
  - apply push_final_printed.
  - apply sent_printed.
  - apply notice_printed.
  - apply push_final_printed.
  - apply clear_printed.
Qed.

(** Blocks are told apart by their ids. *)
Definition ids_ok (s : BlockState) : Prop := NoDup (b_id <$> blocks s) ∧ Forall (fun b => b_id b < nextId s) (blocks s).

Lemma insert_ids s i body : ids_ok s → ids_ok (insert_block s i body).
Proof.
  intros [Hn Hf]. unfold ids_ok, insert_block. simpl. rewrite <-(take_drop i (blocks s)) in Hn, Hf. rewrite fmap_app in *.
  apply NoDup_app in Hn as (N1 & N2 & N3). apply Forall_app in Hf as [F1 F2]. split.
  - rewrite fmap_cons, NoDup_app, NoDup_cons. simpl. split_and!; [done| | |done].
    + intros x Hx [->|Hx']%elem_of_cons; [|by apply (N2 x)]. apply list_elem_of_fmap in Hx as (b & Hid & Hb).
      rewrite Forall_forall in F1. specialize (F1 b Hb). lia.
    + intros (b & Hid & Hb)%list_elem_of_fmap. rewrite Forall_forall in F2. specialize (F2 b Hb). lia.
  - apply Forall_app. split; [|constructor; [simpl; lia|]]; eapply Forall_impl; [exact F1| |exact F2|]; intros b; simpl; lia.
Qed.

Lemma replace_ids s i body : ids_ok s → ids_ok (replaceAt s i body).
Proof.
  intros [Hn Hf]. unfold ids_ok, replaceAt. simpl. split; [|by apply Forall_alter].
  replace (b_id <$> alter _ i (blocks s)) with (b_id <$> blocks s); [done|]. apply list_eq. intros j.
  rewrite !list_lookup_fmap. destruct (decide (i = j)) as [->|]; [rewrite list_lookup_alter_eq|by rewrite list_lookup_alter_ne].
  by destruct (blocks s !! j).
Qed.

Lemma finalize_ids s : ids_ok s → ids_ok (finalizeOpen s).
Proof. unfold finalizeOpen. intros H. destruct (open_assistant s) as [[[i t] k]|]; [by apply replace_ids|done]. Qed.

Lemma op_ids s o : ids_ok s → ids_ok (apply_op s o).
Proof.
  intros H. pose proof (finalize_ids s H) as Hf. destruct o as [f|t [] | |t tn|e m|]; cbn [apply_op].
  - destruct f as [t d|]; cbn [reduceFrame]; [|by apply insert_ids]. unfold FRAME_REDUCERS, appendToAssistant.
    repeat (case_bool_decide; [first [by apply insert_ids|destruct (open_assistant s) as [[[i t'] k]|]; [by apply replace_ids|by apply insert_ids]|idtac]|]);
      [|by apply insert_ids].
    destruct (last_tool _ _ _) as [[i [id []]]|]; try by apply insert_ids. destruct result; [by apply insert_ids|by apply replace_ids].
  - by apply insert_ids.
  - by apply insert_ids.
  - unfold markSent. destruct (list_find _ _) as [[i [id []]]|]; try done. by apply replace_ids.
  - unfold addNotice. destruct (open_assistant s) as [[[i t'] k]|]; by apply insert_ids.
  - by apply insert_ids.
  - destruct H as [Hn Hl]. split; simpl.
    + eapply sublist_NoDup; [exact Hn|]. generalize (blocks s). induction l as [|b l IH]; [done|].
      rewrite filter_cons. case_decide; simpl; [by apply sublist_skip|by apply sublist_cons].
    + rewrite Forall_forall in *. intros b [_ Hb]%list_elem_of_filter. auto.
Qed.

(** What is printed stays: whatever happens on the screen after some point (frames, prompts,
    queued prompts that are sent or dropped, notices, ends of turns), the blocks printed by then
    are, in place and unchanged, the first of those printed later; and ids stay distinct. *)
Theorem printed_stays ops1 ops2 :
  let s := foldl apply_op EMPTY_BLOCKS ops1 in
  let s' := foldl apply_op s ops2 in
  printed (blocks s) `prefix_of` printed (blocks s') ∧ Forall (fun b => isSettled b = true) (printed (blocks s'))
  ∧ NoDup (b_id <$> blocks s').
Proof.
  intros s s'. split_and!; [|by apply printed_spec|].
  - unfold s'. clear s'. generalize s. clear s. induction ops2 as [|o ops IH]; intros s; [done|].
    simpl. etrans; [apply (op_printed s o)|apply IH].
  - unfold s', s. rewrite <-foldl_app. generalize (ops1 ++ ops2). intros ops.
    assert (H : ∀ t, ids_ok t → ids_ok (foldl apply_op t ops)).
    { induction ops as [|o ops' IH]; intros t Ht; [done|]. simpl. apply IH. by apply op_ids. }
    apply (H EMPTY_BLOCKS). split; constructor.
Qed.

(** ** Text in pieces *)

Lemma tailStart_ext bs bs' : queued_user <$> bs = queued_user <$> bs' → tailStart bs = tailStart bs'.
Proof.
  intros H. unfold tailStart. rewrite <-(length_fmap queued_user bs), <-(length_fmap queued_user bs'), H.
  generalize (length (queued_user <$> bs')). intros i. induction i as [|i IH]; [done|]. simpl.
  assert (Hi : queued_user <$> bs !! i = queued_user <$> bs' !! i) by (by rewrite <-!list_lookup_fmap, H).
  destruct (bs !! i), (bs' !! i); simplify_eq/=; [|done]. by rewrite Hi, IH.
Qed.

Lemma tail_from_app l1 l2 k :
  Forall (fun b => queued_user b = true) l2 → k ≤ length l2 → tail_from (l1 ++ l2) (length l1 + k) = tail_from (l1 ++ l2) (length l1).
Proof.
  intros Hq. induction k as [|k IH]; intros Hk; [by rewrite Nat.add_0_r|]. rewrite Nat.add_succ_r. simpl.
  rewrite lookup_app_r by lia. replace (length l1 + k - length l1) with k by lia.
  destruct (lookup_lt_is_Some_2 l2 k) as [b Hb]; [lia|]. rewrite Hb. pose proof (Forall_lookup_1 _ _ _ _ Hq Hb) as E. simpl in E.
  rewrite E. apply IH. lia.
Qed.

Lemma tailStart_snoc l1 b l2 :
  queued_user b = false → Forall (fun b => queued_user b = true) l2 → tailStart (l1 ++ b :: l2) = S (length l1).
Proof.
  intros Hb Hq. unfold tailStart. replace (l1 ++ b :: l2) with ((l1 ++ [b]) ++ l2) by (by rewrite <-app_assoc).
  rewrite (length_app (l1 ++ [b])), tail_from_app, length_app, Nat.add_1_r by done. simpl.
  rewrite lookup_app_l by (rewrite length_app; simpl; lia). rewrite list_lookup_middle by done. by rewrite Hb.
Qed.

Lemma drop_tail_queued bs : Forall (fun b => queued_user b = true) (drop (tailStart bs) bs).
Proof.
  destruct (tail_from_spec bs (length bs) (Nat.le_refl _)) as (H1 & H2 & _). fold (tailStart bs) in *.
  apply Forall_lookup_2. intros j b Hj. rewrite lookup_drop in Hj. apply (H2 (tailStart bs + j)); [|done].
  apply lookup_lt_Some in Hj. lia.
Qed.

Lemma open_after_push s t k : open_assistant (push s (BAssistant t k false)) = Some (tailStart (blocks s), t, k).
Proof.
  pose proof (tail_beyond (blocks s)) as [_ Hle]. unfold open_assistant, push, insert_block. simpl.
  rewrite tailStart_snoc by (done || apply drop_tail_queued). rewrite length_take, Nat.min_l by done.
  by rewrite list_lookup_middle by (rewrite length_take; lia).
Qed.

Lemma open_after_replace s i t k t' k' :
  open_assistant s = Some (i, t, k) → open_assistant (replaceAt s i (BAssistant t' k' false)) = Some (i, t', k').
Proof.
  intros (Htail & id & Hb)%open_assistant_spec. unfold open_assistant, replaceAt. simpl.
  rewrite (tailStart_ext _ (blocks s)), Htail, list_lookup_alter_eq, Hb; [done|].
  apply list_eq. intros j. rewrite !list_lookup_fmap.
  destruct (decide (i = j)) as [<-|]; [by rewrite list_lookup_alter_eq, Hb|by rewrite list_lookup_alter_ne].
Qed.

Lemma replace_replace s i b1 b2 : replaceAt (replaceAt s i b1) i b2 = replaceAt s i b2.
Proof. unfold replaceAt. simpl. f_equal. revert i. induction (blocks s); intros [|i]; f_equal/=; auto. Qed.

Lemma replace_pushed s t k t' k' :
  replaceAt (push s (BAssistant t k false)) (tailStart (blocks s)) (BAssistant t' k' false) = push s (BAssistant t' k' false).
Proof.
  pose proof (tail_beyond (blocks s)) as [_ Hle]. unfold replaceAt, push, insert_block. simpl. f_equal.
  rewrite <-(length_take_le (blocks s) (tailStart (blocks s)) Hle) at 1. by rewrite alter_app_r_alt, Nat.sub_diag by lia.
Qed.

Lemma string_append_assoc (a b c : string) : (a +:+ b) +:+ c = a +:+ (b +:+ c).
Proof. induction a as [|x a IH]; [done|]. exact (f_equal (String x) IH). Qed.

(** Text arrives in pieces or at once. *)
Lemma append_append s fd d1 d2 : appendToAssistant (appendToAssistant s fd d1) fd d2 = appendToAssistant s fd (d1 +:+ d2).
Proof.
  unfold appendToAssistant at 2 3. destruct (open_assistant s) as [[[i t] k]|] eqn:E.
  - unfold appendToAssistant. destruct fd; erewrite open_after_replace by done; rewrite replace_replace; by rewrite string_append_assoc.
  - unfold appendToAssistant. destruct fd; rewrite open_after_push, replace_pushed; done.
Qed.

(** The text a frame carries. *)
Definition streams (f : TurnFrame) : option (delta_field * string) :=
  match f with
  | Known t d =>
      if bool_decide (t = "text") then Some (d_text, delta_of d)
      else if bool_decide (t = "thinking") then Some (d_thinking, delta_of d)
      else None
  | UnknownFrame _ _ => None
  end.

Lemma reduce_streams s f fd d : streams f = Some (fd, d) → reduceFrame s f = appendToAssistant s fd d.
Proof.
  destruct f as [t j|]; [|done]. unfold streams. cbn [reduceFrame]. unfold FRAME_REDUCERS.
  case_bool_decide; [by intros [= <- <-]|]. case_bool_decide; [by intros [= <- <-]|done].
Qed.

#[global] Instance delta_field_eq : EqDecision delta_field.
Proof. solve_decision. Defined.

(** What the transcript keeps of the entries of a session: text that comes in a row is one frame. *)
Definition kept_frame (p : delta_field * string) : TurnFrame :=
  let t := match p.1 with d_text => "text" | d_thinking => "thinking" end in
  Known t (JObj [("type", JStr t); ("delta", JStr p.2)]).

Definition held_back (p : option (delta_field * string)) : list entry :=
  match p with Some p => [e_frame (kept_frame p)] | None => [] end.

Fixpoint coalesce (p : option (delta_field * string)) (es : list entry) : list entry :=
  match es with
  | [] => held_back p
  | e :: es' =>
      match e with
      | e_frame f =>
          match streams f with
          | Some (fd, d) =>
              match p with
              | Some (fd', d') =>
                  if bool_decide (fd' = fd) then coalesce (Some (fd, d' +:+ d)) es'
                  else e_frame (kept_frame (fd', d')) :: coalesce (Some (fd, d)) es'
              | None => coalesce (Some (fd, d)) es'
              end
          | None => held_back p ++ e :: coalesce None es'
          end
      | e_prompt _ => held_back p ++ e :: coalesce None es'
      end
  end.

Definition show_held (s : BlockState) (p : option (delta_field * string)) : BlockState :=
  match p with Some (fd, d) => appendToAssistant s fd d | None => s end.

Lemma show_kept s fd d : reduceFrame s (kept_frame (fd, d)) = appendToAssistant s fd d.
Proof. by destruct fd. Qed.

Lemma held_shown s p : foldl add_entry s (held_back p) = show_held s p.
Proof. destruct p as [[fd d]|]; [|done]. apply show_kept. Qed.

Lemma coalesce_shows s p es : foldl add_entry s (coalesce p es) = foldl add_entry (show_held s p) es.
Proof.
  revert s p. induction es as [|e es IH]; intros s p; [apply held_shown|].
  assert (Hsame : foldl add_entry s (held_back p ++ e :: coalesce None es) = foldl add_entry (show_held s p) (e :: es)).
  { rewrite foldl_app, held_shown. simpl. by rewrite IH. }
  cbn [coalesce]. destruct e as [t|f]; [done|]. destruct (streams f) as [[fd d]|] eqn:Es; [|done].
  cbn [foldl add_entry]. rewrite (reduce_streams _ _ _ _ Es).
  destruct p as [[fd' d']|]; [|by rewrite IH]. case_bool_decide as Hd.
  - subst fd'. rewrite IH. cbn [show_held]. by rewrite append_append.
  - cbn [foldl add_entry]. by rewrite show_kept, IH.
Qed.

(** *** Loaded blocks: none is queued, and only the last may be open *)

Definition closed (b : Block) : bool :=
  match b_body b with BUser _ q => negb q | BAssistant _ _ f => f | _ => true end.

Definition closed_body (b : block_body) : bool := closed (mkBlock 0 b).

Definition flows (bs : list Block) : Prop :=
  ∃ l o, bs = l ++ o ∧ Forall (fun b => closed b = true) l
    ∧ (o = [] ∨ ∃ id t k, o = [mkBlock id (BAssistant t k false)]).

Lemma flows_tail bs : flows bs → tailStart bs = length bs.
Proof.
  intros (l & o & -> & Hl & Ho). destruct Ho as [->|(id & t & k & ->)].
  - rewrite app_nil_r. destruct l as [|b l _] using rev_ind; [done|]. apply Forall_app in Hl as [_ Hb].
    rewrite tailStart_snoc, length_app; [simpl; lia| |done]. apply Forall_cons in Hb as [Hb _]. unfold closed in Hb. unfold queued_user.
    destruct (b_body b); try done. by apply negb_true_iff.
  - rewrite tailStart_snoc, length_app by done. simpl. lia.
Qed.

Lemma flows_open s :
  flows (blocks s) →
  (∃ i t k, open_assistant s = Some (i, t, k) ∧ ∃ l id, blocks s = l ++ [mkBlock id (BAssistant t k false)] ∧ i = length l ∧ Forall (fun b => closed b = true) l)
  ∨ open_assistant s = None ∧ Forall (fun b => closed b = true) (blocks s).
Proof.
  intros Hf. unfold open_assistant. rewrite (flows_tail _ Hf). destruct Hf as (l & o & E & Hl & [->|(id & t & k & ->)]); rewrite E.
  - right. rewrite app_nil_r. split; [|done]. destruct l as [|b l _] using rev_ind; [done|]. rewrite length_app, Nat.add_1_r.
    rewrite list_lookup_middle by done. apply Forall_app in Hl as [_ Hb]. apply Forall_cons in Hb as [Hb _]. unfold closed in Hb.
    simpl. destruct (b_body b) as [|? ? f| | | |]; try done. by rewrite Hb.
  - left. rewrite length_app, Nat.add_1_r, list_lookup_middle by done. simpl. eexists _, _, _. split; [done|]. eauto.
Qed.

Lemma flows_finalize s : flows (blocks s) → Forall (fun b => closed b = true) (blocks (finalizeOpen s)).
Proof.
  intros Hf. unfold finalizeOpen. destruct (flows_open s Hf) as [(i & t & k & -> & l & id & E & -> & Hl)|[-> Hl]]; [|done].
  simpl. rewrite E, alter_app_r_alt, Nat.sub_diag by lia. simpl. apply Forall_app. split; [done|]. by constructor.
Qed.

Lemma flows_all l : Forall (fun b => closed b = true) l → flows l.
Proof. intros Hl. exists l, []. rewrite app_nil_r. auto. Qed.

Lemma closed_push s body :
  Forall (fun b => closed b = true) (blocks s) → closed_body body = true ∨ (∃ t k, body = BAssistant t k false) →
  flows (blocks (push s body)).
Proof.
  intros Hl Hb. assert (E : blocks (push s body) = blocks s ++ [mkBlock (nextId s) body]).
  { unfold push, insert_block. simpl. rewrite flows_tail by (by apply flows_all).
    destruct (match body with BUser _ q => q | _ => false end); by rewrite take_ge, drop_ge by lia. }
  rewrite E. destruct Hb as [Hb|(t & k & ->)].
  - apply flows_all, Forall_app. split; [done|]. by constructor.
  - exists (blocks s), [mkBlock (nextId s) (BAssistant t k false)]. eauto 10.
Qed.

Lemma flows_append s fd d : flows (blocks s) → flows (blocks (appendToAssistant s fd d)).
Proof.
  intros Hf. unfold appendToAssistant. destruct (flows_open s Hf) as [(i & t & k & -> & l & id & E & -> & Hl)|[-> Hl]].
  - simpl. rewrite E, alter_app_r_alt, Nat.sub_diag by lia. simpl.
    destruct fd; [exists l, [mkBlock id (BAssistant (t +:+ d) k false)]|exists l, [mkBlock id (BAssistant t (k +:+ d) false)]]; eauto 10.
  - apply closed_push; [done|]. destruct fd; eauto.
Qed.

Lemma flows_tool s i id ti n a r r' :
  flows (blocks s) → blocks s !! i = Some (mkBlock id (BTool ti n a r)) → flows (blocks (replaceAt s i (BTool ti n a r'))).
Proof.
  intros (l & o & E & Hl & Ho) Hi. simpl. rewrite E in *. destruct (decide (i < length l)) as [Hlt|Hge].
  - rewrite alter_app_l by done. exists (alter (fun b => mkBlock (b_id b) (BTool ti n a r')) i l), o. split_and!; [done| |done].
    by apply Forall_alter.
  - exfalso. rewrite lookup_app_r in Hi by lia. destruct Ho as [->|(id' & t & k & ->)]; [done|].
    destruct (i - length l); simplify_eq/=.
Qed.

Lemma flows_entry s e : flows (blocks s) → flows (blocks (add_entry s e)).
Proof.
  intros Hf. pose proof (flows_finalize s Hf) as Hfin. destruct e as [t|f]; cbn [add_entry].
  { apply closed_push; [done|]. by left. }
  destruct f as [t d|]; cbn [reduceFrame]; [|apply closed_push; [done|by left]]. unfold FRAME_REDUCERS.
  repeat (case_bool_decide; [first [by apply flows_append|by (apply closed_push; [done|left])|idtac]|]);
    [|by (apply closed_push; [done|left])].
  destruct (last_tool _ _ _) as [[i [id []]]|] eqn:E; try (by (apply closed_push; [done|left])).
  destruct result; [by (apply closed_push; [done|left])|]. apply last_tool_spec in E as [E _]. by eapply flows_tool.
Qed.

(** Resuming a session shows it as it was: the transcript keeps text that came in a row as one
    frame, and the blocks of what it keeps are those of the prompts and frames as they came. *)
Theorem resumed_as_shown es :
  fromTranscript (coalesce None es) = fromTranscript es
  ∧ Forall (fun b => isSettled b = true) (blocks (fromTranscript es)).
Proof.
  split; [unfold fromTranscript; by rewrite coalesce_shows|].
  assert (Hf : flows (blocks (foldl add_entry EMPTY_BLOCKS es))).
  { assert (H : ∀ s, flows (blocks s) → flows (blocks (foldl add_entry s es))).
    { induction es as [|e es' IH]; intros s Hs; [done|]. simpl. by apply IH, flows_entry. }
    apply H. exists [], []. auto. }
  apply flows_finalize in Hf. unfold fromTranscript. simpl. apply Forall_fmap. eapply Forall_impl; [exact Hf|].
  intros [id []]; unfold closed, isSettled, interrupt; simpl; try done. by destruct result.
Qed.

(** ** The view of a session *)

Inductive TurnPhase := p_idle | p_waiting | p_streaming | p_retrying.

Record TurnState := mkTurnState {
  ts_phase : TurnPhase;
  ts_startedAt : option Z;
  ts_retryUntil : option Z;
  ts_queued : nat;
  ts_lastTtftMs : option Z;
}.

(** The state of [useSession], and the variables of its listener. *)
Record View := mkView {
  v_state : BlockState;
  v_turn : TurnState;
  v_usage : UsageTotals;
  v_pending : list TurnFrame;
  v_startedAt : Z;
  v_firstFrame : bool;
  v_sawTerminal : bool;
}.

Definition set_state (f : BlockState → BlockState) (v : View) : View :=
  mkView (f (v_state v)) (v_turn v) (v_usage v) (v_pending v) (v_startedAt v) (v_firstFrame v) (v_sawTerminal v).

Definition set_turn (f : TurnState → TurnState) (v : View) : View :=
  mkView (v_state v) (f (v_turn v)) (v_usage v) (v_pending v) (v_startedAt v) (v_firstFrame v) (v_sawTerminal v).

Definition set_phase (p : TurnPhase) (t : TurnState) : TurnState :=
  mkTurnState p (ts_startedAt t) (ts_retryUntil t) (ts_queued t) (ts_lastTtftMs t).

Definition flush_pending (v : View) : View :=
  mkView (foldl reduceFrame (v_state v) (v_pending v)) (v_turn v) (v_usage v) [] (v_startedAt v) (v_firstFrame v) (v_sawTerminal v).

(** [setUsage] of a frame that ends a turn. *)
Definition count_usage (u : option json) (v : View) : View :=
  match u with
  | Some u =>
      if truthy u
      then
        let t := v_usage v in
        mkView (v_state v) (v_turn v)
          (mkTotals (add_num (input t) (field "input" u)) (add_num (output t) (field "output" u))
             (add_num (cacheRead t) (field "cacheRead" u)) (add_num (cacheWrite t) (field "cacheWrite" u))
             (add_num (total t) (field "total" u)) (turns t))
          (v_pending v) (v_startedAt v) (v_firstFrame v) (v_sawTerminal v)
      else v
  | None => v
  end.

Definition frame_data (f : TurnFrame) : json := match f with Known _ d | UnknownFrame _ d => d end.

Definition on_frame (now : Z) (f : TurnFrame) (v : View) : View :=
  let v :=
    match streams f with
    | Some _ => mkView (v_state v) (v_turn v) (v_usage v) (v_pending v ++ [f]) (v_startedAt v) (v_firstFrame v) (v_sawTerminal v)
    | None => set_state (fun s => reduceFrame s f) (flush_pending v)
    end in
  let v :=
    if isTerminal f
    then count_usage (field "usage" (frame_data f))
           (mkView (v_state v) (v_turn v) (v_usage v) (v_pending v) (v_startedAt v) (v_firstFrame v) true)
    else v in
  if v_firstFrame v
  then
    mkView (v_state v)
      (mkTurnState p_streaming (ts_startedAt (v_turn v)) (ts_retryUntil (v_turn v)) (ts_queued (v_turn v)) (Some (now - v_startedAt v)%Z))
      (v_usage v) (v_pending v) (v_startedAt v) false (v_sawTerminal v)
  else set_turn (set_phase p_streaming) v.

Section View.
Context (strip : bytes → bytes).

Definition end_message (o : outcome) : end_kind * option json :=
  match o with
  | o_done => (e_done, None)
  | o_error e => (e_error, Some (JStr (describeError strip e)))
  | o_cancelled => (e_cancelled, None)
  end.

Definition on_event (now : Z) (e : SessionEvent) (v : View) : View :=
  match e with
  | TurnStart _ =>
      mkView (markSent (v_state v))
        (mkTurnState p_waiting (Some now) (ts_retryUntil (v_turn v)) (ts_queued (v_turn v)) (ts_lastTtftMs (v_turn v)))
        (v_usage v) (v_pending v) now true false
  | FrameEvent f => on_frame now f v
  | Retrying s =>
      set_turn (fun t => mkTurnState p_retrying (ts_startedAt t) (Some (now + s * 1000)%Z) (ts_queued t) (ts_lastTtftMs t)) v
  | QueueSize n => set_turn (fun t => mkTurnState (ts_phase t) (ts_startedAt t) (ts_retryUntil t) n (ts_lastTtftMs t)) v
  | TurnEnd o =>
      let v := flush_pending v in
      let v := if v_sawTerminal v then v else set_state (fun s => endTurn s (end_message o).1 (end_message o).2) v in
      set_turn (fun t => mkTurnState p_idle None None (ts_queued t) (ts_lastTtftMs t)) v
  end.

(** What reaches the view: an event of the session, or the timer of [flush]. *)
Inductive view_input := v_event (now : Z) (e : SessionEvent) | v_tick.

Definition view_step (v : View) (i : view_input) : View :=
  match i with v_event now e => on_event now e v | v_tick => flush_pending v end.

Definition happened (i : view_input) : option SessionEvent := match i with v_event _ e => Some e | v_tick => None end.

(** The blocks once the timer has run. *)
Definition settle (v : View) : BlockState := foldl reduceFrame (v_state v) (v_pending v).

Lemma frame_settles now f v :
  settle (on_frame now f v) = reduceFrame (settle v) f ∧ v_sawTerminal (on_frame now f v) = v_sawTerminal v || isTerminal f.
Proof.
  unfold on_frame, settle. destruct (streams f) as [p|] eqn:Es.
  - assert (Ht : isTerminal f = false).
    { destruct f as [t d|]; [|done]. unfold streams in Es. simpl. apply bool_decide_eq_false. intros [->| ->]; done. }
    rewrite Ht, orb_false_r. simpl. by destruct (v_firstFrame v); simpl; rewrite foldl_app.
  - destruct (isTerminal f); simpl; rewrite ?orb_true_r, ?orb_false_r; [|by destruct (v_firstFrame v)].
    unfold count_usage. destruct (field "usage" (frame_data f)) as [u|]; [destruct (truthy u)|]; simpl; by destruct (v_firstFrame v).
Qed.

(** Between the start and the end of a turn. *)
Lemma during_settles ins v mid :
  omap happened ins = mid → forallb during mid = true →
  settle (foldl view_step v ins) = foldl reduceFrame (settle v) (omap shown mid)
  ∧ v_sawTerminal (foldl view_step v ins) = v_sawTerminal v || existsb isTerminal (omap shown mid).
Proof.
  revert v mid. induction ins as [|i ins IH]; intros v mid <- Hm; [simpl; by rewrite orb_false_r|].
  destruct i as [now e|]; cbn [foldl view_step].
  - simpl in Hm. apply andb_true_iff in Hm as [He Hm]. destruct (IH (on_event now e v) _ eq_refl Hm) as [-> ->].
    destruct e as [|f|sec| |]; try done. cbn [on_event]. destruct (frame_settles now f v) as [-> ->]. simpl. by rewrite orb_assoc.
  - destruct (IH (flush_pending v) _ eq_refl Hm) as [-> ->]. done.
Qed.

Lemma ticks_rest ins v : omap happened ins = [] → v_pending v = [] → foldl view_step v ins = v.
Proof.
  induction ins as [|[now e|] ins IH]; intros Hi Hp; [done|done|]. simpl in *. destruct v. simpl in Hp. subst. exact (IH Hi eq_refl).
Qed.

(** The marks of turns that ended. *)
Definition is_turn_end (b : Block) : bool := match b_body b with BTurnEnd _ _ _ => true | _ => false end.
Definition turn_ends (s : BlockState) : nat := length (filter (fun b => is_turn_end b = true) (blocks s)).
Definition ends_turn (b : block_body) : nat := if is_turn_end (mkBlock 0 b) then 1 else 0.

Lemma insert_ends s i body : turn_ends (insert_block s i body) = ends_turn body + turn_ends s.
Proof.
  unfold turn_ends, insert_block, ends_turn. simpl. rewrite <-(take_drop i (blocks s)) at 3.
  rewrite !filter_app, filter_cons, !length_app. unfold is_turn_end. simpl. case_decide as Hd.
  - rewrite Hd. simpl. lia.
  - destruct (match body with BTurnEnd _ _ _ => true | _ => false end); [done|]. simpl. lia.
Qed.

Lemma push_ends s body : turn_ends (push s body) = ends_turn body + turn_ends s.
Proof. apply insert_ends. Qed.

Lemma replace_ends s i b body :
  blocks s !! i = Some b → is_turn_end b = false → ends_turn body = 0 → turn_ends (replaceAt s i body) = turn_ends s.
Proof.
  intros Hi Hb Hbody. unfold turn_ends, replaceAt. simpl. rewrite <-(take_drop_middle _ _ _ Hi). pose proof (lookup_lt_Some _ _ _ Hi).
  rewrite alter_app_r_alt by (rewrite length_take; lia). rewrite length_take, Nat.min_l, Nat.sub_diag by lia. simpl.
  rewrite !filter_app, !filter_cons. unfold ends_turn, is_turn_end in *. simpl in *. rewrite Hb.
  destruct (match body with BTurnEnd _ _ _ => true | _ => false end); [done|]. done.
Qed.

Lemma finalize_ends s : turn_ends (finalizeOpen s) = turn_ends s.
Proof.
  unfold finalizeOpen. destruct (open_assistant s) as [[[i t] k]|] eqn:E; [|done].
  apply open_assistant_spec in E as (_ & id & Hb). by eapply replace_ends.
Qed.

Lemma append_ends s fd d : turn_ends (appendToAssistant s fd d) = turn_ends s.
Proof.
  unfold appendToAssistant. destruct (open_assistant s) as [[[i t] k]|] eqn:E.
  - apply open_assistant_spec in E as (_ & id & Hb). eapply replace_ends; [done|done|by destruct fd].
  - rewrite push_ends. by destruct fd.
Qed.

Lemma event_ends s f : turn_ends (eventReducer s f) = turn_ends s.
Proof. unfold eventReducer. rewrite push_ends, finalize_ends. by destruct f. Qed.

Lemma reduce_ends s f : turn_ends (reduceFrame s f) = (if isTerminal f then 1 else 0) + turn_ends s.
Proof.
  destruct f as [t d|]; cbn [reduceFrame isTerminal]; [|apply event_ends]. unfold FRAME_REDUCERS.
  destruct (decide (t = "done")) as [->|Hd].
  { etrans; [exact (push_ends (finalizeOpen s) (BTurnEnd e_done None _))|by rewrite finalize_ends]. }
  destruct (decide (t = "error")) as [->|He].
  { etrans; [exact (push_ends (finalizeOpen s) (BTurnEnd e_error _ _))|by rewrite finalize_ends]. }
  rewrite (bool_decide_eq_false_2 (t = "done" ∨ t = "error")), (bool_decide_eq_false_2 (t = "done")), (bool_decide_eq_false_2 (t = "error"))
    by naive_solver.
  case_bool_decide; [apply append_ends|]. case_bool_decide; [apply append_ends|].
  case_bool_decide; [by rewrite push_ends, finalize_ends|]. case_bool_decide; [|apply event_ends].
  destruct (last_tool _ _ _) as [[i [id []]]|] eqn:E; try apply event_ends. destruct result; [apply event_ends|].
  apply last_tool_spec in E as [E _]. by eapply replace_ends.
Qed.

Lemma sent_ends s : turn_ends (markSent s) = turn_ends s.
Proof.
  unfold markSent. destruct (list_find _ _) as [[i [id []]]|] eqn:E; try done.
  apply list_find_Some in E as (Hb & _). by eapply replace_ends.
Qed.

Lemma frames_ends s fs :
  turn_ends (foldl reduceFrame s (until_terminal fs)) = (if existsb isTerminal (until_terminal fs) then 1 else 0) + turn_ends s.
Proof.
  revert s. induction fs as [|f fs IH]; intros s; [done|]. cbn [until_terminal]. destruct (isTerminal f) eqn:E; cbn [foldl existsb].
  - by rewrite reduce_ends, E.
  - by rewrite IH, reduce_ends, E.
Qed.

Lemma omap_app_inv {A B} (f : A → option B) l k1 k2 :
  omap f l = k1 ++ k2 → ∃ l1 l2, l = l1 ++ l2 ∧ omap f l1 = k1 ∧ omap f l2 = k2.
Proof.
  revert l. induction k1 as [|y k1 IH]; intros l H; [by exists [], l|].
  induction l as [|x l IHl]; [done|]. simpl in H. destruct (f x) as [y'|] eqn:E.
  - injection H as -> H. destruct (IH _ H) as (l1 & l2 & -> & E1 & E2). exists (x :: l1), l2. simpl. rewrite E. split_and!; [done|exact (f_equal (cons y) E1)|done].
  - destruct (IHl H) as (l1 & l2 & -> & E1 & E2). exists (x :: l1), l2. simpl. by rewrite E.
Qed.

Lemma omap_one_inv {A B} (f : A → option B) l y :
  omap f l = [y] → ∃ l1 x l2, l = l1 ++ x :: l2 ∧ omap f l1 = [] ∧ f x = Some y ∧ omap f l2 = [].
Proof.
  induction l as [|x l IH]; [done|]. simpl. destruct (f x) as [y'|] eqn:E.
  - intros [= -> H]. by exists [], x, l.
  - intros (l1 & x' & l2 & -> & E1 & E2 & E3)%IH. exists (x :: l1), x', l2. simpl. by rewrite E.
Qed.

Lemma ticks_settle ins v :
  omap happened ins = [] → settle (foldl view_step v ins) = settle v ∧ v_sawTerminal (foldl view_step v ins) = v_sawTerminal v.
Proof.
  intros Hi. destruct (during_settles ins v [] Hi eq_refl) as [-> ->]. by rewrite orb_false_r.
Qed.
End View.

(** A turn on the screen: whenever the timer runs among the events of a turn of the client, the
    blocks at its end are those of the frames in their order, each applied once, after the prompt
    is marked as sent; they have one more mark of an ended turn, by the frame that ended it or,
    where none did, for the outcome; and nothing is left to show. *)
Theorem turn_displayed strip margin prompt n tok resend tr b tok' v ins :
  runs (runTurn margin prompt n tok resend) tr (Ok (Some b, tok')) → v_pending v = [] →
  omap happened ins = omap emits tr →
  let v' := foldl (view_step strip) v ins in
  let frames := omap records tr in
  let shown_frames := foldl reduceFrame (markSent (v_state v)) frames in
  v_pending v' = [] ∧ ts_phase (v_turn v') = p_idle
  ∧ turn_ends (v_state v') = S (turn_ends (v_state v))
  ∧ (v_state v' = shown_frames ∨ ∃ o m, v_state v' = endTurn shown_frames o m ∧ (o = e_cancelled ↔ b = true)).
Proof.
  intros Hr Hp Hin v' frames shown_frames. apply runTurn_ok in Hr as (c & tk & [= <- <-] & Hok).
  destruct (tk_events _ _ _ _ _ Hok) as (mid & fin & E & Hm & Hs & (o & -> & Ho)).
  destruct (tk_streams _ _ _ _ _ Hok) as (ys & lst & _ & _ & Hl & Hrec).
  assert (∃ fs, frames = until_terminal fs) as [fs Hfs].
  { unfold frames. rewrite Hrec. destruct lst as [|y [|]]; [by exists []|exists y.1; simpl; by rewrite app_nil_r|simpl in Hl; lia]. }
  rewrite E in Hin. change (TurnStart prompt :: mid ++ [TurnEnd o]) with ([TurnStart prompt] ++ mid ++ [TurnEnd o]) in Hin.
  apply omap_app_inv in Hin as (i1 & i2 & -> & H1 & H2). apply omap_app_inv in H2 as (i3 & i4 & -> & H3 & H4).
  apply omap_one_inv in H1 as (a1 & x1 & a2 & -> & A1 & X1 & A2). apply omap_one_inv in H4 as (b1 & x2 & b2 & -> & B1 & X2 & B2).
  destruct x1 as [now1 e1|]; [|done]. destruct x2 as [now2 e2|]; [|done]. injection X1 as ->. injection X2 as ->.
  set (v1 := foldl (view_step strip) (on_event strip now1 (TurnStart prompt) v) (a2 ++ i3 ++ b1)).
  assert (Hv1 : settle v1 = shown_frames ∧ v_sawTerminal v1 = existsb isTerminal frames).
  { assert (Hmid : omap happened (a2 ++ i3 ++ b1) = mid) by (by rewrite !omap_app, A2, H3, B1, app_nil_r).
    destruct (during_settles strip _ (on_event strip now1 (TurnStart prompt) v) mid Hmid Hm) as [S1 S2].
    unfold v1. rewrite S1, S2, Hs. unfold shown_frames, frames, settle. simpl. by rewrite Hp. }
  assert (Hv' : v' = on_event strip now2 (TurnEnd o) v1).
  { unfold v', v1.
    replace ((a1 ++ v_event now1 (TurnStart prompt) :: a2) ++ i3 ++ b1 ++ v_event now2 (TurnEnd o) :: b2)
      with (a1 ++ [v_event now1 (TurnStart prompt)] ++ (a2 ++ i3 ++ b1) ++ [v_event now2 (TurnEnd o)] ++ b2)
      by (by rewrite <-!app_assoc).
    rewrite (foldl_app _ a1), (ticks_rest strip a1) by done.
    rewrite (foldl_app _ [_]), (foldl_app _ (a2 ++ i3 ++ b1)), (foldl_app _ [_] b2). apply ticks_rest; [done|].
    simpl. by destruct (v_sawTerminal _). }
  destruct Hv1 as [S1 S2]. unfold settle in S1.
  assert (Hends : turn_ends shown_frames = (if existsb isTerminal frames then 1 else 0) + turn_ends (v_state v)).
  { unfold shown_frames. by rewrite Hfs, frames_ends, sent_ends. }
  rewrite Hv'. cbn [on_event]. unfold flush_pending. rewrite S1. simpl. rewrite S2. destruct (existsb isTerminal frames) eqn:Et; simpl.
  - split_and!; [done|done|done|by left].
  - split_and!; [done|done| |].
    + unfold endTurn. by rewrite push_ends, finalize_ends, Hends.
    + right. eexists _, _. split; [done|]. destruct Ho as [Ho1 Ho2]. destruct o; simpl; naive_solver.
Qed.

Definition fresh_view (s : BlockState) : View := mkView s (mkTurnState p_idle None None 0 None) zeroUsage [] 0 false false.

Lemma turn_displayed_witness :
  let ins := [v_event 0 (TurnStart "hi"); v_tick; v_event 5 (FrameEvent example_frame); v_tick; v_event 9 (TurnEnd o_cancelled)] in
  let v' := foldl (view_step id) (fresh_view (addUser EMPTY_BLOCKS "hi" false)) ins in
  v_pending v' = [] ∧ turn_ends (v_state v') = 1.
Proof.
  intros ins v'.
  assert (H : runs (runTurn 30 "hi" 5 (mkSToken "old" 100) false) refused_once (Ok (Some true, mkSToken "new" 100))) by repeat constructor.
  destruct (turn_displayed id 30 "hi" 5 (mkSToken "old" 100) false refused_once true (mkSToken "new" 100)
              (fresh_view (addUser EMPTY_BLOCKS "hi" false)) ins H eq_refl eq_refl) as (H1 & _ & H2 & _).
  split; [exact H1|exact H2].
Defined.

(** ** Submitting from the view *)

(** [submit] and [resend] of [useSession]: what they do to the blocks, and the item they queue. *)
Definition view_submit (text : string) (s : Active) (v : View) : View * ActiveSession.item :=
  (set_state (fun b => addUser b text (running s)) v, mkItem text false).

Definition view_resend (text : string) (v : View) : View * ActiveSession.item := (v, mkItem text true).

Definition view_clearQueue (v : View) : View := set_state drop_queued v.

Definition assistant_text (b : Block) : option string :=
  match b_body b with BAssistant t _ _ => if bool_decide (t = "") then None else Some t | _ => None end.

Definition lastReply (v : View) : option string := head (omap assistant_text (reverse (blocks (v_state v)))).

(** The prompts shown as queued. *)
Definition queued_text (b : Block) : option string := match b_body b with BUser t true => Some t | _ => None end.
Definition queued_texts (s : BlockState) : list string := omap queued_text (blocks s).

Lemma queued_insert s i body : queued_text (mkBlock 0 body) = None → queued_texts (insert_block s i body) = queued_texts s.
Proof.
  intros Hb. unfold queued_texts, insert_block. cbn [blocks]. rewrite !omap_app.
  assert (E : omap queued_text [mkBlock (nextId s) body] = []). { unfold queued_text in *. simpl in *. by rewrite Hb. }
  rewrite E, app_nil_l, <-omap_app. by rewrite take_drop.
Qed.

Lemma queued_push_other s body : queued_text (mkBlock 0 body) = None → queued_texts (push s body) = queued_texts s.
Proof. apply queued_insert. Qed.

Lemma queued_push s t : queued_texts (push s (BUser t true)) = queued_texts s ++ [t].
Proof. unfold queued_texts, push, insert_block. cbn [blocks]. by rewrite take_ge, drop_ge, !omap_app by lia. Qed.

Lemma queued_replace s i b body :
  blocks s !! i = Some b → queued_text b = None → queued_text (mkBlock 0 body) = None → queued_texts (replaceAt s i body) = queued_texts s.
Proof.
  intros Hi Hb Hbody. unfold queued_texts, replaceAt. cbn [blocks]. rewrite <-(take_drop_middle _ _ _ Hi).
  pose proof (lookup_lt_Some _ _ _ Hi).
  rewrite alter_app_r_alt by (rewrite length_take; lia). rewrite length_take, Nat.min_l, Nat.sub_diag by lia.
  rewrite !omap_app. f_equal. simpl. rewrite Hb. unfold queued_text in *. simpl in *. by rewrite Hbody.
Qed.

Lemma queued_finalize s : queued_texts (finalizeOpen s) = queued_texts s.
Proof.
  unfold finalizeOpen. destruct (open_assistant s) as [[[i t] k]|] eqn:E; [|done].
  apply open_assistant_spec in E as (_ & id & Hb). by eapply queued_replace.
Qed.

Lemma queued_event s f : queued_texts (eventReducer s f) = queued_texts s.
Proof. unfold eventReducer. rewrite queued_push_other, queued_finalize; [done|by destruct f]. Qed.

Lemma queued_append s fd d : queued_texts (appendToAssistant s fd d) = queued_texts s.
Proof.
  unfold appendToAssistant. destruct (open_assistant s) as [[[i t] k]|] eqn:E.
  - apply open_assistant_spec in E as (_ & id & Hb). eapply queued_replace; [done|done|by destruct fd].
  - apply queued_push_other. by destruct fd.
Qed.

Lemma queued_reduce s f : queued_texts (reduceFrame s f) = queued_texts s.
Proof.
  destruct f as [t d|]; cbn [reduceFrame]; [|apply queued_event]. unfold FRAME_REDUCERS.
  repeat (case_bool_decide; [first [apply queued_append|by rewrite queued_push_other, queued_finalize|idtac]|]); [|apply queued_event].
  destruct (last_tool _ _ _) as [[i [id []]]|] eqn:E; try apply queued_event. destruct result; [apply queued_event|].
  apply last_tool_spec in E as [E _]. by eapply queued_replace.
Qed.

Lemma queued_reduces s fs : queued_texts (foldl reduceFrame s fs) = queued_texts s.
Proof. revert s. induction fs as [|f fs IH]; intros s; [done|]. simpl. by rewrite IH, queued_reduce. Qed.

Lemma queued_flush v : queued_texts (v_state (flush_pending v)) = queued_texts (v_state v).
Proof. apply queued_reduces. Qed.

Lemma list_omap_none {A B} (f : A → option B) l : (∀ x, x ∈ l → f x = None) → omap f l = [].
Proof. induction l as [|x l IH]; intros H; [done|]. simpl. rewrite H by left. apply IH. intros y Hy. apply H. by right. Qed.

(** The start of a turn takes the first of them. *)
Lemma queued_sent s : queued_texts (markSent s) = tail (queued_texts s).
Proof.
  unfold markSent. destruct (list_find _ (blocks s)) as [[i b]|] eqn:E.
  - apply list_find_Some in E as (Hb & Hq & Hbefore). destruct b as [id body]. unfold queued_user in Hq. simpl in Hq.
    destruct body as [t q| | | | |]; try done. subst q. unfold queued_texts, replaceAt. cbn [blocks].
    assert (Hpre : omap queued_text (take i (blocks s)) = []).
    { apply list_omap_none. intros b Hin. apply list_elem_of_lookup in Hin as [j [Hj Hlt]%lookup_take_Some].
      specialize (Hbefore j b Hj Hlt). unfold queued_user in Hbefore. unfold queued_text. destruct (b_body b) as [? []| | | | |]; done. }
    rewrite <-(take_drop_middle _ _ _ Hb). pose proof (lookup_lt_Some _ _ _ Hb).
    rewrite alter_app_r_alt by (rewrite length_take; lia). rewrite length_take, Nat.min_l, Nat.sub_diag by lia.
    rewrite !omap_app, Hpre. done.
  - apply list_find_None in E. replace (queued_texts s) with (@nil string); [done|]. symmetry. apply list_omap_none. intros b Hin.
    rewrite Forall_forall in E. specialize (E b Hin). unfold queued_user in E. unfold queued_text. destruct (b_body b) as [? []| | | | |]; done.
Qed.

Lemma queued_dropped s : queued_texts (drop_queued s) = [].
Proof.
  apply list_omap_none. intros b [Hq _]%list_elem_of_filter. unfold queued_user in Hq. unfold queued_text.
  destruct (b_body b) as [? []| | | | |]; done.
Qed.

(** *** The view and the session together *)

(** The listener of the view, on what the session puts out. *)
Definition show_output (v : View) (o : ActiveSession.output) : View :=
  match o with
  | QueueEvent n => on_event id 0 (QueueSize n) v
  | StartTurn i => on_event id 0 (TurnStart (it_prompt i)) v
  | _ => v
  end.

Inductive ui_input :=
| ui_submit (text : string)
| ui_cancel
| ui_clear
| ui_internal (i : ActiveSession.input)     (* a turn or a pause of the session ends *)
| ui_frames (now : Z) (e : SessionEvent)    (* what a running turn emits *)
| ui_tick.

Definition in_turn (e : SessionEvent) : bool := match e with FrameEvent _ | Retrying _ | TurnEnd _ => true | _ => false end.

Definition session_step (pauseMs : Z) (i : ActiveSession.input) (s : Active) (v : View) : option (Active * View) :=
  '(s', out) ← step pauseMs s i; Some (s', foldl show_output v out).

Definition ui_step (pauseMs : Z) (c : Active * View) (i : ui_input) : option (Active * View) :=
  let '(s, v) := c in
  match i with
  | ui_submit t => let '(v, it) := view_submit t s v in session_step pauseMs (submit it) s v
  | ui_cancel => session_step pauseMs cancel s v
  | ui_clear => '(s', v') ← session_step pauseMs clearQueue s v; Some (s', view_clearQueue v')
  | ui_internal i => if internal i then session_step pauseMs i s v else None
  | ui_frames now e => if in_turn e then Some (s, on_event id now e v) else None
  | ui_tick => Some (s, flush_pending v)
  end.

Inductive ui_steps (pauseMs : Z) : Active * View → list ui_input → Active * View → Prop :=
| ui_nil c : ui_steps pauseMs c [] c
| ui_cons c i c1 ins c2 : ui_step pauseMs c i = Some c1 → ui_steps pauseMs c1 ins c2 → ui_steps pauseMs c (i :: ins) c2.

Definition mirrors (c : Active * View) : Prop := sound c.1 ∧ queued_texts (v_state c.2) = it_prompt <$> queue c.1.

Lemma show_outputs v os : queued_texts (v_state (foldl show_output v os)) = drop (length (omap started os)) (queued_texts (v_state v)).
Proof.
  revert v. induction os as [|o os IH]; intros v; [by rewrite drop_0|]. cbn [foldl]. rewrite IH. destruct o as [n|i|t|w]; simpl; try done.
  rewrite queued_sent. by destruct (queued_texts (v_state v)); simpl; rewrite ?drop_nil.
Qed.

Lemma session_mirrors pauseMs i s v s' v' :
  mirrors (s, v) → session_step pauseMs i s v = Some (s', v') → omap submitted [i] = [] → i ≠ clearQueue → mirrors (s', v').
Proof.
  intros [Hs Hm] Hst Hi Hne. unfold session_step in Hst. destruct (step pauseMs s i) as [[s1 os]|] eqn:E; [|done]. injection Hst as -> <-.
  destruct (session_step_ok _ _ _ _ _ Hs E) as [Hs' (A & _)]. split; [done|]. cbn [snd fst]. rewrite show_outputs.
  specialize (A ltac:(set_solver)).
  assert (E2 : queue s = omap started os ++ queue s'). { by rewrite <-A, Hi, app_nil_r. }
  simpl in Hm. rewrite Hm, E2, fmap_app, drop_app_length'; [done|by rewrite length_fmap].
Qed.

Lemma submit_mirrors pauseMs t s v c : mirrors (s, v) → ui_step pauseMs (s, v) (ui_submit t) = Some c → mirrors c.
Proof.
  intros [Hs Hm] Hst. unfold ui_step, session_step in Hst. cbn [view_submit] in Hst.
  destruct (step pauseMs s (submit (mkItem t false))) as [[s1 os]|] eqn:E; [|done]. injection Hst as <-.
  destruct (session_step_ok _ _ _ _ _ Hs E) as [Hs' (A & _)]. split; [done|]. cbn [snd fst] in *. rewrite show_outputs.
  specialize (A ltac:(set_solver)). simpl in A.
  assert (Hq : queued_texts (addUser (v_state v) t (running s)) = (it_prompt <$> queue s) ++ if running s then [t] else []).
  { unfold addUser. destruct (running s); [by rewrite queued_push, Hm|].
    by rewrite queued_push_other, queued_finalize, Hm, app_nil_r. }
  change (queued_texts (v_state (set_state (fun b => addUser b t (running s)) v)))
    with (queued_texts (addUser (v_state v) t (running s))). rewrite Hq.
  destruct (running s) eqn:Er.
  - assert (E2 : (it_prompt <$> queue s) ++ [t] = it_prompt <$> queue s ++ [mkItem t false]) by (by rewrite fmap_app).
    rewrite E2, A, fmap_app, drop_app_length'; [done|by rewrite length_fmap].
  - assert (Hempty : queue s = []). { unfold sound in Hs. destruct (drains s) as [|d [|]]; [by destruct Hs as (_ & ? & _)|destruct Hs; congruence|done]. }
    assert (Hq' : queue s1 = []).
    { unfold step, drain in E. rewrite Er, Hempty in E. simpl in E. by simplify_eq/=. }
    rewrite Hempty, Hq'. simpl. by rewrite drop_nil.
Qed.

Lemma ui_mirrors pauseMs c i c' : mirrors c → ui_step pauseMs c i = Some c' → mirrors c'.
Proof.
  destruct c as [s v]. intros Hm Hst. destruct i as [t| | |i|now e|].
  - by eapply submit_mirrors.
  - destruct c'. by eapply session_mirrors.
  - unfold ui_step in Hst. destruct (session_step pauseMs clearQueue s v) as [[s1 v1]|] eqn:E; [|done]. injection Hst as <-.
    destruct Hm as [Hs _]. unfold session_step in E. destruct (step pauseMs s clearQueue) as [[s2 os]|] eqn:E2; [|done]. injection E as -> <-.
    destruct (session_step_ok _ _ _ _ _ Hs E2) as [Hs' _]. split; [done|]. cbn [snd fst]. etrans; [apply queued_dropped|].
    unfold step in E2. injection E2 as <- _. by destruct (endPause s).
  - unfold ui_step in Hst. destruct (internal i) eqn:Ei; [|done]. destruct c'. eapply session_mirrors; [done|done|by destruct i|by destruct i].
  - unfold ui_step in Hst. destruct (in_turn e) eqn:Ei; [|done]. injection Hst as <-. destruct Hm as [Hs Hm]. split; [done|].
    cbn [snd fst] in *. rewrite <-Hm. destruct e as [|f|sec|o|]; try done; cbn [on_event].
    + unfold on_frame. destruct (streams f), (isTerminal f); cbn [v_state]; unfold count_usage;
        try (destruct (field "usage" (frame_data f)) as [u|]; [destruct (truthy u)|]); simpl; destruct (v_firstFrame v); simpl;
        rewrite ?queued_reduce, ?queued_reduces; done.
    + simpl. destruct (v_sawTerminal v); simpl; rewrite ?queued_reduces; [done|]. unfold endTurn.
      by rewrite queued_push_other, queued_finalize, queued_reduces.
  - injection Hst as <-. destruct Hm as [Hs Hm]. split; [done|]. cbn [snd fst] in *. by rewrite queued_flush.
Qed.

(** The screen tells which prompts wait: whatever the user submits, cancels and clears, and
    however turns, pauses, frames and the timer interleave, the prompts shown as queued are,
    in order, those in the queue of the session. *)
Theorem queue_shown pauseMs ins s v :
  ui_steps pauseMs (new_session, fresh_view EMPTY_BLOCKS) ins (s, v) →
  queued_texts (v_state v) = it_prompt <$> queue s.
Proof.
  intros H. assert (Hm : mirrors (s, v)); [|by destruct Hm]. revert H.
  assert (Hi : mirrors (new_session, fresh_view EMPTY_BLOCKS)) by done. revert Hi. generalize (new_session, fresh_view EMPTY_BLOCKS).
  generalize (s, v). intros c' c Hi Hst. induction Hst as [c|c i c1 ins c2 H1 _ IH]; [done|]. by apply IH, (ui_mirrors _ _ _ _ Hi H1).
Qed.

(** A prompt that is being answered, and one that waits for it. *)
Definition example_inputs : list ui_input := [ui_submit "one"; ui_submit "two"; ui_frames 3 (FrameEvent example_frame)].
Definition example_ui : Active * View :=
  default (new_session, fresh_view EMPTY_BLOCKS)
    (foldl (fun c i => c ≫= fun c => ui_step 1000 c i) (Some (new_session, fresh_view EMPTY_BLOCKS)) example_inputs).

Lemma queue_shown_witness :
  ui_steps 1000 (new_session, fresh_view EMPTY_BLOCKS) example_inputs (example_ui.1, example_ui.2)
  ∧ queued_texts (v_state example_ui.2) = ["two"].
Proof.
  assert (H : ui_steps 1000 (new_session, fresh_view EMPTY_BLOCKS) example_inputs (example_ui.1, example_ui.2)).
  { eapply ui_cons; [reflexivity|]. eapply ui_cons; [reflexivity|]. eapply ui_cons; [reflexivity|]. apply ui_nil. }
  split; [exact H|]. exact (queue_shown _ _ _ _ H).
Defined.

(** A prompt that is sent again after a login has no block of its own, so the start of its turn
    marks the next queued prompt as sent while that prompt still waits. *)
Lemma resend_marks_another :
  let run := play 1000 new_session [submit (mkItem "first" false); submit (mkItem "again" true); submit (mkItem "later" false);
               turn_returns 0 false; goes_on 0] in
  let shown := on_event id 0 (TurnStart "again")
                 (fresh_view (addUser (addUser EMPTY_BLOCKS "first" false) "later" true)) in
  (fun r => queue r.1) <$> run = Some [mkItem "later" false]
  ∧ (fun r => last r.2) <$> run = Some (Some (StartTurn (mkItem "again" true)))
  ∧ queued_texts (v_state shown) = [].
Proof. by vm_compute. Qed.
