(* ===== verification/ClientConfig.v ===== *)
(** * The terminal client's configuration and wiring

    Models [packages/mocactl/src/config.ts] (the two files the client keeps, how a hand-edited one
    is read, how they are written) and [packages/mocactl/src/runtime.ts] (the runtime: endpoints,
    login, clients and transcripts, and every way they change).  The runtime's clients are given by the URL
    they call; a control-plane client reads the runtime's login on each request.  Names of files
    and directories ([resolvePaths]) are left out. *)

From Stdlib Require Import QArith.
From S2P Require Import Prelude JsNumber Json JsonText JsonPretty TurnStream Transcript ClientApi.

Local Open Scope Z_scope.

(** ** config.json *)

Definition fields : Type := list (string * json).

(** [DEFAULT_CONFIG]; the two URLs have no default. *)
Definition DEFAULT_CONFIG : fields :=
  [("theme", JStr "system"); ("details", JBool false); ("thinking", JBool true); ("reducedMotion", JBool false);
   ("bell", JBool true); ("keybinds", JObj []); ("presets", JArr []); ("lastUsed", JObj [])].

Definition is_str (v : json) : bool := match v with JStr _ => true | _ => false end.
Definition is_bool (v : json) : bool := match v with JBool _ => true | _ => false end.
Definition isStringRecord (v : json) : bool := match v with JObj fs => forallb (fun f => is_str f.2) fs | _ => false end.

Definition isPreset (v : json) : bool :=
  match v with
  | JObj _ => bool_decide (is_Some (as_string (field "name" v))) && match field "values" v with Some x => isStringRecord x | None => false end
  | _ => false
  end.

Definition FIELD_CHECKS : list (string * (json → bool)) :=
  [("controlPlaneUrl", is_str); ("harnessUrl", is_str);
   ("theme", fun v => match v with JStr s => bool_decide (s = "system" ∨ s = "dark") | _ => false end);
   ("details", is_bool); ("thinking", is_bool); ("reducedMotion", is_bool); ("bell", is_bool);
   ("keybinds", isStringRecord);
   ("presets", fun v => match v with JArr l => forallb isPreset l | _ => false end);
   ("lastUsed", isStringRecord)].

(** [{ ...a, ...b }] *)
Definition spread (a b : fields) : fields := foldl (fun m f => map_set f.1 f.2 m) a b.

(** One turn of the loop: a field of the wrong type gets its default (a URL, none). *)
Definition check_field (raw : fields) (acc : fields * list string) (c : string * (json → bool)) : fields * list string :=
  match map_get c.1 raw with
  | Some v =>
      if c.2 v then acc
      else (match map_get c.1 DEFAULT_CONFIG with Some d => map_set c.1 d acc.1 | None => map_delete c.1 acc.1 end, acc.2 ++ [c.1])
  | None => acc
  end.

Definition validateConfig (raw : fields) : fields * list string := foldl (check_field raw) (spread DEFAULT_CONFIG raw, []) FIELD_CHECKS.

Inductive config_warning := IgnoredFields (keys : list string) | Unreadable.

Definition loadConfig (file : option bytes) : fields * bool * option config_warning :=
  match file with
  | None => (DEFAULT_CONFIG, false, None)
  | Some text =>
      match parse text with
      | Some (JObj raw) =>
          let '(config, ignored) := validateConfig raw in
          (config, true, if bool_decide (length ignored = 0%nat) then None else Some (IgnoredFields ignored))
      | _ => (DEFAULT_CONFIG, true, Some Unreadable)
      end
  end.

(** ** auth.json *)

Definition auth_json (a : CachedAuth) : json :=
  JObj ([("apiToken", JStr (apiToken a)); ("subject", JStr (au_subject a))]
        ++ (match displayName a with Some n => [("displayName", JStr n)] | None => [] end)
        ++ [("roles", JArr (JStr <$> roles a)); ("expiresAt", JNum (inject_Z (expiresAt a)));
            ("controlPlaneUrl", JStr (au_controlPlaneUrl a))]).

(** The login cached for that control plane, as it was parsed. *)
Definition loadAuth (file : option bytes) (url : string) : option json :=
  match file with
  | None => None
  | Some text =>
      match parse text with
      | Some j =>
          match as_string (field "apiToken" j) with
          | Some _ => if bool_decide (as_string (field "controlPlaneUrl" j) = Some url) then Some j else None
          | None => None
          end
      | None => None
      end
  end.

Definition NEWLINE : ascii := ascii_of_nat 10.
Definition saved_auth (a : CachedAuth) : bytes := stringify (auth_json a) ++ [NEWLINE].

(** ** Endpoints *)

Record Endpoints := mkEndpoints { ep_controlPlaneUrl : option string; ep_harnessUrl : option string }.

Definition trim (s : string) : string := string_of (concat (trim_chars (chars_of (bytes_of s)))).

Definition normalizeUrl (u : option string) : option string :=
  match trim <$> u with
  | Some t => if bool_decide (t = "") then None else Some (trimTrailingSlashes t)
  | None => None
  end.

(** [a || b] of strings that may be missing *)
Definition or_else (a b : option string) : option string :=
  match a with Some s => if bool_decide (s = "") then b else a | None => b end.

Definition resolveEndpoints (flags env : Endpoints) (config : fields) : Endpoints :=
  mkEndpoints
    (normalizeUrl (or_else (ep_controlPlaneUrl flags) (or_else (ep_controlPlaneUrl env) (as_string (map_get "controlPlaneUrl" config)))))
    (normalizeUrl (or_else (ep_harnessUrl flags) (or_else (ep_harnessUrl env) (as_string (map_get "harnessUrl" config))))).

(** ** The runtime *)

Inductive harness_client := AtUrl (url : string) | Discovering (cp : string).

Record Connection := mkConnection {
  c_endpoints : Endpoints;
  c_auth : option json;
  c_cp : option string;
  c_harness : option harness_client;
  c_transcripts : option (option string * string);   (* subject and control plane *)
}.

Record Runtime := mkRuntime {
  rt_config : fields;
  rt_configExists : bool;
  rt_conn : Connection;
}.

(** The two files. *)
Record Home := mkHome { configFile : option bytes; authFile : option bytes }.

Definition wireTranscripts (c : Connection) : Connection :=
  mkConnection (c_endpoints c) (c_auth c) (c_cp c) (c_harness c)
    (match c_auth c, ep_controlPlaneUrl (c_endpoints c) with
     | Some a, Some u => Some (as_string (field "subject" a), u)
     | _, _ => None
     end).

Definition wire (e : Endpoints) (auth : option json) : Connection :=
  wireTranscripts
    (mkConnection e auth (ep_controlPlaneUrl e)
       (match ep_harnessUrl e with
        | Some h => Some (AtUrl h)
        | None => Discovering <$> ep_controlPlaneUrl e
        end) None).

Definition cached (h : Home) (e : Endpoints) : option json := ep_controlPlaneUrl e ≫= loadAuth (authFile h).

Definition buildRuntime (flags env : Endpoints) (h : Home) : Runtime :=
  let '(config, exists_, _) := loadConfig (configFile h) in
  let e := resolveEndpoints flags env config in
  mkRuntime config exists_ (wire e (cached h e)).

Definition setAuth (auth : option CachedAuth) (rt : Runtime) (h : Home) : Runtime * Home :=
  let c := rt_conn rt in
  (mkRuntime (rt_config rt) (rt_configExists rt)
     (wireTranscripts (mkConnection (c_endpoints c) (auth_json <$> auth) (c_cp c) (c_harness c) (c_transcripts c))),
   mkHome (configFile h) (saved_auth <$> auth)).

Definition saveRuntimeConfig (rt : Runtime) (h : Home) : Runtime * Home :=
  (mkRuntime (rt_config rt) true (rt_conn rt), mkHome (Some (pretty 0 (JObj (rt_config rt)) ++ [NEWLINE])) (authFile h)).

Definition applyEndpoints (e : Endpoints) (rt : Runtime) (h : Home) : Runtime :=
  let e := mkEndpoints (normalizeUrl (ep_controlPlaneUrl e)) (normalizeUrl (ep_harnessUrl e)) in
  mkRuntime (rt_config rt) (rt_configExists rt) (wire e (cached h e)).

(** [{ ...rt.config, ...rt.endpoints }]: an endpoint that is not set leaves no field. *)
Definition with_endpoint (key : string) (u : option string) (m : fields) : fields :=
  match u with Some s => map_set key (JStr s) m | None => map_delete key m end.

Definition persistEndpoints (rt : Runtime) (h : Home) : Runtime * Home :=
  let e := c_endpoints (rt_conn rt) in
  saveRuntimeConfig
    (mkRuntime (with_endpoint "harnessUrl" (ep_harnessUrl e) (with_endpoint "controlPlaneUrl" (ep_controlPlaneUrl e) (rt_config rt)))
       (rt_configExists rt) (rt_conn rt)) h.

Definition connectionOf (rt : Runtime) : Connection := rt_conn rt.
Definition restoreConnection (c : Connection) (rt : Runtime) : Runtime := mkRuntime (rt_config rt) (rt_configExists rt) c.

(** ** Reading config.json *)

(** The value of a field once checked: the file's, where it has one of the right type. *)
Definition checked_field (raw : fields) (cs : list (string * (json → bool))) (k : string) (otherwise : option json) : option json :=
  match map_get k cs, map_get k raw with
  | Some check, Some v => if check v then otherwise else map_get k DEFAULT_CONFIG
  | _, _ => otherwise
  end.

Lemma spread_get a b k : NoDup b.*1 → map_get k (spread a b) = match map_get k b with Some v => Some v | None => map_get k a end.
Proof.
  unfold spread. revert a. induction b as [|[k' v] b IH]; intros a Hn; [done|]. simpl in Hn. apply NoDup_cons in Hn as [Hk Hn].
  cbn [foldl]. rewrite IH by done. simpl. rewrite map_get_set. destruct (decide (k = k')) as [->|]; [|done].
  by rewrite (proj2 (map_get_None k' b) Hk).
Qed.

Lemma check_fields_get raw cs m ig k :
  NoDup cs.*1 →
  map_get k (foldl (check_field raw) (m, ig) cs).1 = checked_field raw cs k (map_get k m)
  ∧ ∃ more, (foldl (check_field raw) (m, ig) cs).2 = ig ++ more
      ∧ (k ∈ more ↔ ∃ check v, map_get k cs = Some check ∧ map_get k raw = Some v ∧ check v = false).
Proof.
  revert m ig. induction cs as [|[k' check] cs IH]; intros m ig Hn.
  { split; [done|]. exists []. rewrite app_nil_r. split; [done|]. split; [set_solver|]. intros (? & ? & [=] & _). }
  simpl in Hn. apply NoDup_cons in Hn as [Hk Hn]. cbn [foldl].
  unfold checked_field in *.
  change (map_get k ((k', check) :: cs)) with (if decide (k = k') then Some check else map_get k cs).
  assert (Hother : k = k' → map_get k cs = None) by (intros ->; by apply map_get_None).
  assert (Hstep : check_field raw (m, ig) (k', check) =
    match map_get k' raw with
    | Some v => if check v then (m, ig)
                else (match map_get k' DEFAULT_CONFIG with Some d => map_set k' d m | None => map_delete k' m end, ig ++ [k'])
    | None => (m, ig)
    end) by done.
  rewrite Hstep. clear Hstep. destruct (map_get k' raw) as [v|] eqn:Ev.
  - destruct (check v) eqn:Ec.
    + destruct (IH m ig Hn) as [-> Hig]. destruct (decide (k = k')) as [->|Hne]; [|by split].
      rewrite (Hother eq_refl) in *. rewrite Ev, Ec. split; [done|]. destruct Hig as (more & -> & Hmore). exists more. split; [done|].
      split; [intros (? & ? & [=] & _)%Hmore|intros (c & w & [= <-] & [= <-] & Hf); congruence].
    + match goal with |- context [foldl _ (?m', _) _] => destruct (IH m' (ig ++ [k']) Hn) as [E1 (more & E2 & Hmore)] end.
      split; [etrans; [exact E1|]|exists (k' :: more); split; [etrans; [exact E2|by rewrite <-app_assoc]|]]; destruct (decide (k = k')) as [->|Hne].
      * rewrite (Hother eq_refl), Ev, Ec.
        destruct (map_get k' DEFAULT_CONFIG) as [d|]; [rewrite map_get_set|rewrite map_get_delete]; by rewrite decide_True.
      * destruct (map_get k' DEFAULT_CONFIG); [rewrite map_get_set|rewrite map_get_delete]; by rewrite decide_False.
      * split; [intros _; eauto|intros _; left].
      * rewrite elem_of_cons, <-Hmore. split; [by intros [?|?]|by right].
  - destruct (IH m ig Hn) as [-> Hig]. destruct (decide (k = k')) as [->|Hne]; [|by split].
    rewrite (Hother eq_refl) in *. rewrite Ev. split; [done|]. destruct Hig as (more & -> & Hmore). exists more. split; [done|].
    split; [intros (? & ? & [=] & _)%Hmore|intros (c & w & _ & [=] & _)].
Qed.

(** A hand-edited configuration: each field this version knows has the value in the file when it
    is of the right type, and its default otherwise; the fields it does not know are kept; and the
    warning names exactly those that were set aside. *)
Lemma validated_get raw k :
  NoDup raw.*1 →
  map_get k (validateConfig raw).1
    = match map_get k raw with
      | Some v => match map_get k FIELD_CHECKS with Some check => if check v then Some v else map_get k DEFAULT_CONFIG | None => Some v end
      | None => map_get k DEFAULT_CONFIG
      end
  ∧ (k ∈ (validateConfig raw).2 ↔ ∃ check v, map_get k FIELD_CHECKS = Some check ∧ map_get k raw = Some v ∧ check v = false).
Proof.
  intros Hn. unfold validateConfig.
  assert (Hc : NoDup FIELD_CHECKS.*1) by (apply (bool_decide_unpack _); by vm_compute).
  destruct (check_fields_get raw FIELD_CHECKS (spread DEFAULT_CONFIG raw) [] k Hc) as [-> (more & -> & Hmore)].
  split; [|exact Hmore]. unfold checked_field. rewrite spread_get by done.
  destruct (map_get k FIELD_CHECKS) as [check|], (map_get k raw) as [v|]; try done.
Qed.

(** A configuration that is complete and of the right types, such as the client keeps in memory, is
    read back from the file it was saved to, field by field and without a warning. *)
Theorem config_saved rt h k :
  serialisable (JObj (rt_config rt)) = true →
  (∀ d, d ∈ DEFAULT_CONFIG.*1 → is_Some (map_get d (rt_config rt))) →
  (∀ n check v, map_get n FIELD_CHECKS = Some check → map_get n (rt_config rt) = Some v → check v = true) →
  let '(config, exists_, warning) := loadConfig (configFile (saveRuntimeConfig rt h).2) in
  map_get k config = map_get k (rt_config rt) ∧ exists_ = true ∧ warning = None.
Proof.
  intros Hs Hd Hc. cbn [saveRuntimeConfig snd configFile]. unfold loadConfig.
  change [NEWLINE] with (nl 0). rewrite parse_pretty by done.
  apply andb_prop in Hs as [Hn%bool_decide_eq_true _]. pose proof (validated_get (rt_config rt)) as Hv.
  destruct (validateConfig (rt_config rt)) as [config ignored]. cbn [fst snd] in Hv. split_and!; [|done|].
  - destruct (Hv k Hn) as [-> _]. destruct (map_get k (rt_config rt)) as [v|] eqn:Ek.
    + destruct (map_get k FIELD_CHECKS) as [check|] eqn:Ec; [|done]. by rewrite (Hc _ _ _ Ec Ek).
    + apply map_get_None. intros Hin. destruct (Hd k Hin) as [v Hv']. congruence.
  - rewrite bool_decide_eq_true_2; [done|]. destruct ignored as [|n ignored]; [done|].
    destruct (Hv n Hn) as [_ [(check & v & H1 & H2 & H3) _]]; [by left|]. rewrite (Hc _ _ _ H1 H2) in H3. done.
Qed.

(** ** Where tokens go *)

(** The client as a whole: its runtime, its two files, the connection last known to work, and
    every token that was issued, with the control plane that issued it. *)
Record Client := mkClient {
  cl_rt : Runtime;
  cl_home : Home;
  cl_committed : Connection;
  cl_issued : list (string * string);
}.

(** What changes a client.  A login is one step here: it ends while the endpoints it was started
    for are still those of the runtime, since the screens that change them cannot be open at the
    same time.  Its URL is the runtime's, which is normalised twice; the first screen of the client
    caches the login under the URL as normalised once, which is the same for every URL that
    the second pass leaves alone. *)
Inductive client_op :=
| op_login (login : ApiLogin)
| op_logout
| op_apply (e : Endpoints)
| op_connected
| op_abandon
| op_save
| op_restart (flags env : Endpoints).

Definition client_step (c : Client) (o : client_op) : Client :=
  let rt := cl_rt c in
  match o with
  | op_login login =>
      match ep_controlPlaneUrl (c_endpoints (rt_conn rt)) with
      | Some u =>
          let '(rt', h') := setAuth (Some (toCachedAuth login u)) rt (cl_home c) in
          mkClient rt' h' (cl_committed c) ((l_token login, u) :: cl_issued c)
      | None => c
      end
  | op_logout => let '(rt', h') := setAuth None rt (cl_home c) in mkClient rt' h' (cl_committed c) (cl_issued c)
  | op_apply e => mkClient (applyEndpoints e rt (cl_home c)) (cl_home c) (cl_committed c) (cl_issued c)
  | op_connected =>
      let '(rt', h') := persistEndpoints rt (cl_home c) in mkClient rt' h' (connectionOf rt') (cl_issued c)
  | op_abandon => mkClient (restoreConnection (cl_committed c) rt) (cl_home c) (cl_committed c) (cl_issued c)
  | op_save => let '(rt', h') := saveRuntimeConfig rt (cl_home c) in mkClient rt' h' (cl_committed c) (cl_issued c)
  | op_restart flags env =>
      let rt' := buildRuntime flags env (cl_home c) in mkClient rt' (cl_home c) (connectionOf rt') (cl_issued c)
  end.

(** A first start. *)
Definition installed (flags env : Endpoints) (config : option bytes) : Client :=
  let h := mkHome config None in
  let rt := buildRuntime flags env h in
  mkClient rt h (connectionOf rt) [].

(** What a request of the runtime's control-plane client carries, and where it goes. *)
Definition sends (c : Connection) : option (string * string) :=
  match c_cp c, c_auth c with
  | Some u, Some a => (fun t => (t, u)) <$> as_string (field "apiToken" a)
  | _, _ => None
  end.

Definition login_of (issued : list (string * string)) (u : string) (a : json) : Prop :=
  as_string (field "controlPlaneUrl" a) = Some u ∧ ∃ t, as_string (field "apiToken" a) = Some t ∧ (t, u) ∈ issued.

Definition wired (issued : list (string * string)) (c : Connection) : Prop :=
  c_cp c = ep_controlPlaneUrl (c_endpoints c)
  ∧ (∀ a, c_auth c = Some a → ∃ u, ep_controlPlaneUrl (c_endpoints c) = Some u ∧ login_of issued u a)
  ∧ (∀ s u, c_transcripts c = Some (s, u) →
       c_cp c = Some u ∧ ∃ a, c_auth c = Some a ∧ s = as_string (field "subject" a)).

Definition home_ok (issued : list (string * string)) (h : Home) : Prop := ∀ u a, loadAuth (authFile h) u = Some a → login_of issued u a.

Lemma wired_mono i i' c : i ⊆ i' → wired i c → wired i' c.
Proof.
  intros Hi (H1 & H2 & H3). split_and!; [done| |done]. intros a (u & Hu & He & t & Ht & Hin)%H2. exists u. split; [done|].
  split; [done|]. exists t. split; [done|]. by apply Hi.
Qed.

Lemma wire_wired i e auth :
  (∀ a, auth = Some a → ∃ u, ep_controlPlaneUrl e = Some u ∧ login_of i u a) → wired i (wire e auth).
Proof.
  intros Ha. split_and!; simpl; [done|done|]. intros s u. destruct auth as [a|]; [|done].
  destruct (ep_controlPlaneUrl e) as [u'|]; [|done]. intros [= <- <-]. split; [done|]. by exists a.
Qed.

Lemma cached_wired i h e : home_ok i h → wired i (wire e (cached h e)).
Proof.
  intros Hh. apply wire_wired. intros a Ha. unfold cached in Ha. destruct (ep_controlPlaneUrl e) as [u|]; [|done].
  exists u. split; [done|]. by apply Hh.
Qed.

Lemma parse_newline j : serialisable j = true → parse (stringify j ++ [NEWLINE]) = Some j.
Proof.
  intros Hj. unfold parse. rewrite (stringify_ok j Hj); [done|rewrite length_app; lia|]. simpl. set_solver.
Qed.

Definition op_ok (o : client_op) : Prop :=
  match o with op_login login => Z.abs (l_expiresAt login) ≤ MAX_SAFE_INTEGER | _ => True end.

Lemma auth_serialisable a : Z.abs (expiresAt a) ≤ MAX_SAFE_INTEGER → serialisable (auth_json a) = true.
Proof.
  intros He. apply Z.leb_le in He. assert (Hr : forallb serialisable (JStr <$> roles a) = true) by (induction (roles a); done).
  unfold auth_json. destruct (displayName a); cbn [app serialisable forallb snd]; rewrite Hr; cbn [andb inject_Z Qden Qnum Pos.eqb];
    rewrite He; apply andb_true_iff; (split; [|done]); by vm_compute.
Qed.

Lemma auth_fields a :
  as_string (field "apiToken" (auth_json a)) = Some (apiToken a)
  ∧ as_string (field "controlPlaneUrl" (auth_json a)) = Some (au_controlPlaneUrl a)
  ∧ as_string (field "subject" (auth_json a)) = Some (au_subject a).
Proof. unfold auth_json. by destruct (displayName a). Qed.

Lemma load_saved a u :
  Z.abs (expiresAt a) ≤ MAX_SAFE_INTEGER →
  loadAuth (Some (saved_auth a)) u = if bool_decide (au_controlPlaneUrl a = u) then Some (auth_json a) else None.
Proof.
  intros He. unfold loadAuth, saved_auth. rewrite parse_newline by (by apply auth_serialisable).
  destruct (auth_fields a) as (-> & -> & _). repeat case_bool_decide; naive_solver.
Qed.

Record client_ok (c : Client) : Prop := mkClientOk {
  ok_rt : wired (cl_issued c) (rt_conn (cl_rt c));
  ok_committed : wired (cl_issued c) (cl_committed c);
  ok_home : home_ok (cl_issued c) (cl_home c);
}.

Lemma step_client_ok c o : op_ok o → client_ok c → client_ok (client_step c o).
Proof.
  intros Ho [Hr Hc Hh]. destruct o as [login| |e| | | |flags env]; unfold client_step.
  - destruct (ep_controlPlaneUrl (c_endpoints (rt_conn (cl_rt c)))) as [u|] eqn:Eu; [|done].
    set (a := toCachedAuth login u). destruct (auth_fields a) as (Ft & Fu & Fs). simpl in Ft, Fu, Fs.
    assert (Hl : login_of ((l_token login, u) :: cl_issued c) u (auth_json a)) by (split; [done|]; exists (l_token login); split; [done|left]).
    constructor; simpl.
    + destruct Hr as (R1 & _ & _). split_and!; simpl; [done| |].
      * intros x [= <-]. by exists u.
      * rewrite Eu. intros s u' [= <- <-]. rewrite R1, Eu. split; [done|]. by exists (auth_json a).
    + eapply wired_mono; [|done]. set_solver.
    + intros u' x. cbn [authFile]. rewrite load_saved by done. case_bool_decide as Hu; [|done]. intros [= <-]. subst u'. exact Hl.
  - constructor; simpl; [|done|done]. destruct Hr as (R1 & _ & _). by split_and!.
  - constructor; simpl; [by apply cached_wired|done|done].
  - by constructor.
  - by constructor.
  - by constructor.
  - assert (wired (cl_issued c) (rt_conn (buildRuntime flags env (cl_home c)))).
    { unfold buildRuntime. destruct (loadConfig _) as [[cfg ex] w]. by apply cached_wired. }
    by constructor.
Qed.

Lemma client_run_ok flags env config ops :
  Forall op_ok ops → client_ok (foldl client_step (installed flags env config) ops).
Proof.
  intros Ho. assert (Hi : client_ok (installed flags env config)).
  { assert (Hh : home_ok [] (mkHome config None)) by (intros u a; done).
    assert (Hw : wired [] (rt_conn (buildRuntime flags env (mkHome config None)))).
    { unfold buildRuntime. destruct (loadConfig _) as [[cfg ex] w]. by apply cached_wired. }
    by constructor. }
  revert Hi. generalize (installed flags env config). induction Ho as [|o ops Ho _ IH]; intros c Hc; [done|].
  simpl. apply IH. by apply step_client_ok.
Qed.
(** C27. A token is only ever sent to the control plane that issued it.  Whatever logins, changes of
    the endpoints (kept, or tried and abandoned), saves and restarts a client goes through, a request of
    its control-plane client carries a token that the control plane it goes to has issued, and
    the transcripts in use are those of that login's subject there.  A login is one step: it is
    issued by the control plane the runtime is at when it ends. *)
Theorem token_stays_home flags env config ops :
  Forall op_ok ops →
  let c := foldl client_step (installed flags env config) ops in
  let conn := rt_conn (cl_rt c) in
  (∀ t u, sends conn = Some (t, u) → (t, u) ∈ cl_issued c)
  ∧ (∀ s u, c_transcripts conn = Some (s, u) → c_cp conn = Some u ∧ ∃ a, c_auth conn = Some a ∧ s = as_string (field "subject" a)).
Proof.
  intros Ho c conn. destruct (client_run_ok flags env config ops Ho) as [(H1 & H2 & H3) _ _]. split; [|exact H3].
  intros t u. unfold sends. fold c in H1, H2. fold conn in H1, H2. destruct (c_cp conn) as [u'|] eqn:Ec; [|done].
  destruct (c_auth conn) as [a|] eqn:Ea; [|done]. destruct (H2 a eq_refl) as (u'' & Hu & _ & t' & Ht & Hin).
  rewrite Ht. intros [= <- <-]. rewrite Hu in H1. by injection H1 as ->.
Qed.

(** Logging in, trying another control plane, and giving that up. *)
Definition ex_login : ApiLogin := mkLogin "tok" "alice" None None 100.
Definition at_cp (u : string) : Endpoints := mkEndpoints (Some u) None.
Definition no_endpoints : Endpoints := mkEndpoints None None.
Definition ex_ops : list client_op :=
  [op_apply (at_cp " https://a/ "); op_connected; op_login ex_login; op_connected; op_apply (at_cp "https://b"); op_abandon].

Lemma token_stays_home_witness :
  let c := foldl client_step (installed no_endpoints no_endpoints None) ex_ops in
  sends (rt_conn (cl_rt c)) = Some ("tok", "https://a") ∧ ("tok", "https://a") ∈ cl_issued c.
Proof.
  intros c. assert (Ho : Forall op_ok ex_ops) by (repeat constructor; vm_compute; congruence).
  assert (E : sends (rt_conn (cl_rt c)) = Some ("tok", "https://a")) by (by vm_compute).
  split; [exact E|]. exact (proj1 (token_stays_home no_endpoints no_endpoints None ex_ops Ho) "tok" "https://a" E).
Defined.

(** A login is found again by the next start against the same control plane, and by no other. *)
Lemma login_survives login u c flags env :
  op_ok (op_login login) → ep_controlPlaneUrl (c_endpoints (rt_conn (cl_rt c))) = Some u →
  let c1 := client_step c (op_login login) in
  let c2 := client_step c1 (op_restart flags env) in
  c_auth (rt_conn (cl_rt c2))
  = if bool_decide (ep_controlPlaneUrl (c_endpoints (rt_conn (cl_rt c2))) = Some u)
    then Some (auth_json (toCachedAuth login u)) else None.
Proof.
  intros Ho Hu c1 c2. unfold c2, c1. cbn [client_step]. rewrite Hu. cbn [setAuth fst snd cl_home cl_rt]. unfold buildRuntime.
  destruct (loadConfig _) as [[cfg ex] w]. cbn [cl_rt rt_conn c_auth wire wireTranscripts c_endpoints].
  unfold cached. cbn [authFile]. destruct (ep_controlPlaneUrl (resolveEndpoints _ _ _)) as [u'|]; [|done].
  etrans; [exact (load_saved (toCachedAuth login u) u' Ho)|]. cbn [toCachedAuth au_controlPlaneUrl]. repeat case_bool_decide; naive_solver.
Qed.

(** The server URL is normalised twice on its way into the runtime and once on its way into the
    login: where the two differ, the login is cached under a URL no start looks for. *)
Lemma normalise_twice_differs :
  normalizeUrl (Some "https://a/ /") = Some "https://a/ "
  ∧ (normalizeUrl (Some "https://a/ /") ≫= fun u => normalizeUrl (Some u)) = Some "https://a".
Proof. by vm_compute. Qed.

(** ** Writing a private file *)

(** A directory: its mode, and its files with theirs. *)
Record Dir := mkDir { dir_mode : option Z; dir_files : gmap string (bytes * Z) }.

Definition PRIVATE_DIR : Z := 448.    (* 0o700 *)
Definition PRIVATE_FILE : Z := 384.   (* 0o600 *)

(** The calls of [writePrivate] in their order; a create mode loses the bits of the umask, and an
    existing file or directory keeps its mode. *)
Inductive private_call := CallMkdir | CallChmodDir | CallWriteTmp (data : bytes) | CallChmodTmp | CallRename.

Definition writePrivate (data : bytes) : list private_call := [CallMkdir; CallChmodDir; CallWriteTmp data; CallChmodTmp; CallRename].

Section Private.
Context (umask : Z) (path tmp : string).

Definition created (mode : Z) : Z := Z.land mode (Z.lnot umask).

Definition private_do (d : Dir) (c : private_call) : Dir :=
  match c with
  | CallMkdir => mkDir (Some (default (created PRIVATE_DIR) (dir_mode d))) (dir_files d)
  | CallChmodDir => mkDir (Some PRIVATE_DIR) (dir_files d)
  | CallWriteTmp data =>
      mkDir (dir_mode d) (<[tmp := (data, default (created PRIVATE_FILE) (snd <$> dir_files d !! tmp))]> (dir_files d))
  | CallChmodTmp =>
      mkDir (dir_mode d) (match dir_files d !! tmp with Some (x, _) => <[tmp := (x, PRIVATE_FILE)]> (dir_files d) | None => dir_files d end)
  | CallRename =>
      mkDir (dir_mode d) (match dir_files d !! tmp with Some f => <[path := f]> (base.delete tmp (dir_files d)) | None => dir_files d end)
  end.

(** A process that dies: some of the calls are done, and a write of the temporary file that was
    under way may have got only a part of its bytes down. *)
Definition died (d : Dir) (data : bytes) (n : nat) (part : option bytes) : Dir :=
  let d' := foldl private_do d (take n (writePrivate data)) in
  match part, nth_error (writePrivate data) n with
  | Some p, Some (CallWriteTmp _) => private_do d' (CallWriteTmp p)
  | _, _ => d'
  end.

(** Whenever the process dies, the file is as it was or is the new one, whole and readable by
    its owner only; once all is done it is the new one in a directory of its owner's. *)
Lemma private_write d data :
  path ≠ tmp →
  (∀ n part, dir_files (died d data n part) !! path = dir_files d !! path
             ∨ dir_files (died d data n part) !! path = Some (data, PRIVATE_FILE))
  ∧ (let d' := foldl private_do d (writePrivate data) in
     dir_mode d' = Some PRIVATE_DIR ∧ dir_files d' !! path = Some (data, PRIVATE_FILE) ∧ dir_files d' !! tmp = None
     ∧ ∀ other, other ≠ path → other ≠ tmp → dir_files d' !! other = dir_files d !! other).
Proof.
  intros Hne. split.
  - intros n part. do 5 (destruct n as [|n]; [destruct part; simpl; left + right; by simplify_map_eq|]).
    unfold died. simpl. rewrite (take_ge _ n) by (simpl; lia). simpl.
    replace (nth_error [] n) with (@None private_call) by (by destruct n).
    right. destruct part; by simplify_map_eq.
  - simpl. split_and!; [done|by simplify_map_eq|by simplify_map_eq|]. intros other Ho1 Ho2. by simplify_map_eq.
Qed.
End Private.
