(* ===== verification/CredentialForm.v ===== *)
(** * What the terminal client checks of a credential

    Models [packages/mocactl/src/core/credential-checks.ts], which the form and [credentials add]
    both check with before they send a credential, and compares it with the control plane's own
    [parseCredentialBody] ([Credentials]) and the handler around it ([Handlers]).  [new URL] is the parameter of [Credentials].  A
    problem is a value, and [form_message] and [stdin_message] are what the client says of it. *)

From S2P Require Import Prelude JsNumber Json Prog Transcript CpBase Token Credentials Exchange CpRoutes Handlers.

Local Open Scope Z_scope.

Definition KNOWN_KINDS : list (string * list string) :=
  [("bearer", ["token"]); ("basic", ["username"; "password"]); ("api-key", ["key"]); ("oauth2-token", ["accessToken"])].

Definition kindFields (kind : string) : option (list string) := map_get kind KNOWN_KINDS.

Definition CLIENT_CONSUMERS : list string := ["inference"; "sandbox-egress"; "control-plane"].

Definition BEARER_KINDS : list string := ["bearer"; "oauth2-token"].

(** The values of the form, or of the command line. *)
Record Values := mkValues {
  fv_name : string;
  fv_kind : string;
  fv_consumer : string;
  fv_hosts : string;
  fv_endpoint : option string;
}.

Definition secret_fields : Type := list (string * string).

Definition trim_str (s : string) : string := string_of (concat (trim_chars (chars_of (bytes_of s)))).

(** Why a credential is not sent. *)
Inductive form_problem :=
| bad_name | bad_consumer | no_hosts
| not_single (kind : string) (keys : list string)
| endpoint_not_url | host_reads_api_key | endpoint_not_origin
| oauth_token | key_as_bearer.

Definition form_message (p : form_problem) : string :=
  match p with
  | bad_name => "name: lower-case letters, digits and dashes, 1-40 characters"
  | bad_consumer => "consumer must be one of " +:+ join_str ", " CLIENT_CONSUMERS
  | no_hosts => "destination hosts: at least one host is required"
  | not_single k keys =>
      "an inference credential needs a single-secret kind; '" +:+ k +:+ "' has " +:+ string_of (dec (Z.of_nat (length keys)))
      +:+ " (" +:+ join_str ", " keys +:+ ")"
  | endpoint_not_url => "endpoint must be an absolute URL, e.g. https://api.anthropic.com"
  | host_reads_api_key => ANTHROPIC_API_HOST +:+ " reads API keys from x-api-key: choose kind api-key"
  | endpoint_not_origin => "use https://" +:+ ANTHROPIC_API_HOST +:+ " as the endpoint (no /v1)"
  | oauth_token => "Anthropic OAuth tokens (sk-ant-oat…) are not supported: use an API key (sk-ant-api…) with kind api-key"
  | key_as_bearer =>
      "an Anthropic API key (sk-ant-api…) is sent as x-api-key: choose kind api-key, endpoint https://api.anthropic.com"
  end.

Definition COMMA : ascii := ",".

(** [text.split(',')]: what is before the first comma, and the rest. *)
Fixpoint split_on (sep : ascii) (s : bytes) : list bytes :=
  match s with
  | [] => [[]]
  | c :: r =>
      if bool_decide (c = sep) then [] :: split_on sep r
      else match split_on sep r with x :: xs => (c :: x) :: xs | [] => [[c]] end
  end.

Definition parseHosts (text : string) : list string :=
  filter (fun h => h ≠ "") ((fun p => trim_str (string_of p)) <$> split_on COMMA (bytes_of text)).

Definition EQUALS : ascii := "=".

(** [s.indexOf('=')]: what is before it and after it. *)
Fixpoint cut_at (c : ascii) (s : bytes) : option (bytes * bytes) :=
  match s with
  | [] => None
  | x :: r => if bool_decide (x = c) then Some ([], r) else prod_map (cons x) id <$> cut_at c r
  end.

Definition parsePairs (text : string) : secret_fields :=
  foldl (fun out part =>
    match cut_at EQUALS part with
    | Some (c :: k, v) => map_set (trim_str (string_of (c :: k))) (trim_str (string_of v)) out
    | _ => out
    end) [] (split_on COMMA (bytes_of text)).

(** The form's secret: the values of its fields for a known kind, else free-form pairs. *)
Definition formSecret (kind : string) (value_of : string → option string) (pairs : option string) : secret_fields :=
  match kindFields kind with
  | Some known => (fun k => (k, default "" (value_of k))) <$> known
  | None => parsePairs (default "" pairs)
  end.

Section Checks.
Context `{URLs}.

Definition trimmed_endpoint (v : Values) : string := default "" (trim_str <$> fv_endpoint v).

Definition inferenceEndpointProblem (v : Values) : option form_problem :=
  match kindFields (fv_kind v) with
  | Some [_] =>
      let bearer := bool_decide (fv_kind v ∈ BEARER_KINDS) in
      let ep := trimmed_endpoint v in
      if bool_decide (ep = "") then None
      else
        match url_parse ep with
        | None => Some endpoint_not_url
        | Some url =>
            if negb (bool_decide (hostname url = ANTHROPIC_API_HOST)) then None
            else if bearer : bool then Some host_reads_api_key
            else if negb (bool_decide (pathname url = "/")) || negb (bool_decide (search url = "")) then Some endpoint_not_origin
            else None
        end
  | _ => None
  end.

Definition inferenceSecretProblem (v : Values) (s : secret_fields) : option form_problem :=
  match kindFields (fv_kind v) with
  | Some [f] =>
      let value := default "" (map_get f s) in
      if startsWith value "sk-ant-oat" then Some oauth_token
      else if bool_decide (fv_kind v ∈ BEARER_KINDS) && startsWith value "sk-ant-api" then Some key_as_bearer
      else None
  | _ => None
  end.

(** The client's [CREDENTIAL_NAME] is the expression of the control plane. *)
Definition CREDENTIAL_NAME (s : string) : bool := valid_name s.

Definition descriptionProblem (v : Values) : option form_problem :=
  if negb (CREDENTIAL_NAME (fv_name v)) then Some bad_name
  else if negb (bool_decide (fv_consumer v ∈ CLIENT_CONSUMERS)) then Some bad_consumer
  else if bool_decide (length (parseHosts (fv_hosts v)) = 0%nat) then Some no_hosts
  else if negb (bool_decide (fv_consumer v = "inference")) then None
  else
    match kindFields (fv_kind v) with
    | Some fields => if negb (bool_decide (length fields = 1%nat)) then Some (not_single (fv_kind v) fields) else inferenceEndpointProblem v
    | None => inferenceEndpointProblem v
    end.

Definition credentialProblem (v : Values) (s : secret_fields) : option form_problem :=
  match descriptionProblem v with
  | Some p => Some p
  | None =>
      if negb (bool_decide (fv_consumer v = "inference")) then None
      else
        let keys := match kindFields (fv_kind v) with Some ks => ks | None => s.*1 end in
        if negb (bool_decide (length keys = 1%nat)) then Some (not_single (fv_kind v) keys)
        else inferenceSecretProblem v s
  end.
End Checks.

(** The body that is sent. *)
Definition request_body (v : Values) (s : secret_fields) : json :=
  JObj ([("kind", JStr (fv_kind v)); ("consumer", JStr (fv_consumer v));
         ("destination", JObj [("hosts", JArr (JStr <$> parseHosts (fv_hosts v)))]);
         ("secret", JObj (prod_map id JStr <$> s))]
        ++ if bool_decide (fv_consumer v = "inference") && negb (bool_decide (trimmed_endpoint v = ""))
           then [("endpoint", JStr (trimmed_endpoint v))] else []).

Definition credentialRequest (v : Values) (s : secret_fields) : string * json := (fv_name v, request_body v s).

(** ** The secret on standard input *)

Inductive stdin_problem := no_secret | not_one_line (field : string) | padded (field : string) | prefixed (field : string) | not_pairs | missing_fields (fs : list string).

(** The quotation mark. *)
Definition DQ : string := string_of [ascii_of_nat 34].

Definition stdin_message (p : stdin_problem) : string :=
  match p with
  | no_secret => "no secret on stdin"
  | not_one_line f => "the " +:+ f +:+ " must be one line"
  | padded f => "the " +:+ f +:+ " starts or ends with whitespace; pipe it with printf %s"
  | prefixed f => "pipe the " +:+ f +:+ " itself, without a leading " +:+ DQ +:+ f +:+ "=" +:+ DQ
  | not_pairs => "stdin must be one field=value per line"
  | missing_fields fs => "stdin is missing " +:+ join_str ", " ((fun f => f +:+ "=…") <$> fs)
  end.

Definition CR : ascii := ascii_of_nat 13.
Definition LF : ascii := ascii_of_nat 10.

(** [text.replace(/\r?\n$/, '')] *)
Definition chomp (text : bytes) : bytes :=
  match rev text with
  | c :: d :: r => if bool_decide (c = LF) then (if bool_decide (d = CR) then rev r else rev (d :: r)) else text
  | [c] => if bool_decide (c = LF) then [] else text
  | [] => []
  end.

(** [text.split(/\r?\n/)]: a carriage return before the line feed goes with it. *)
Definition strip_cr (l : bytes) : bytes :=
  match rev l with c :: r => if bool_decide (c = CR) then rev r else l | [] => [] end.

Definition stdin_lines (text : bytes) : list bytes :=
  match rev (split_on LF text) with
  | lst :: before => (strip_cr <$> rev before) ++ [lst]
  | [] => []
  end.

Fixpoint read_pairs (lines : list bytes) (out : secret_fields) : option secret_fields :=
  match lines with
  | [] => Some out
  | l :: ls =>
      if bool_decide (trim_str (string_of l) = "") then read_pairs ls out
      else
        match cut_at EQUALS l with
        | Some (c :: k, v) => read_pairs ls (map_set (trim_str (string_of (c :: k))) (string_of v) out)
        | _ => None
        end
  end.

Definition secretFromStdin (kind : string) (text : bytes) : result stdin_problem secret_fields :=
  match kindFields kind with
  | Some [f] =>
      let value := chomp text in
      if bool_decide (trim_str (string_of value) = "") then Throw no_secret
      else if bool_decide (CR ∈ value) || bool_decide (LF ∈ value) then Throw (not_one_line f)
      else if negb (bool_decide (trim_str (string_of value) = string_of value)) then Throw (padded f)
      else if startsWith (string_of value) (f +:+ "=") then Throw (prefixed f)
      else Ok [(f, string_of value)]
  | fields =>
      match read_pairs (stdin_lines text) [] with
      | None => Throw not_pairs
      | Some s =>
          let absent := filter (fun f => default "" (map_get f s) = "") (default [] fields) in
          if negb (bool_decide (length absent = 0%nat)) then Throw (missing_fields absent)
          else if bool_decide (length s = 0%nat) then Throw no_secret
          else Ok s
      end
  end.

(** ** The client and the control plane *)

Section Agree.
Context `{URLs}.

(** What only the control plane checks: hosts are bare names, and an endpoint is a web address. *)
Definition hosts_bare (v : Values) : Prop := Forall bare_host (parseHosts (fv_hosts v)).

Definition endpoint_sent (v : Values) : bool := bool_decide (fv_consumer v = "inference") && negb (bool_decide (trimmed_endpoint v = "")).

Definition endpoint_web (v : Values) : Prop :=
  endpoint_sent v = true → ∃ url, url_parse (trimmed_endpoint v) = Some url ∧ (protocol url = "https:" ∨ protocol url = "http:").

Lemma bare_validated h : bare_host h → validateHost (JStr h) = Ok h.
Proof.
  intros [Hne Hb]. simpl. rewrite bool_decide_eq_false_2 by done. simpl. destruct (existsb _ _) eqn:E; [|done].
  apply existsb_exists in E as (c & Hc & Hin). apply list_elem_of_In in Hc. apply bool_decide_eq_true in Hin. by destruct (Hb c Hc).
Qed.

Lemma validate_hosts_ok hs : Forall bare_host hs → validate_hosts (JStr <$> hs) = Ok hs.
Proof.
  induction 1 as [|h hs Hh _ IH]; [done|]. cbn [fmap list_fmap validate_hosts]. rewrite bare_validated by done.
  change (list_fmap _ _ JStr hs) with (JStr <$> hs). by rewrite IH.
Qed.

Lemma validate_hosts_same hs r : validate_hosts (JStr <$> hs) = Ok r → r = hs.
Proof.
  revert r. induction hs as [|h hs IH]; intros r; cbn [fmap list_fmap validate_hosts]; [by intros [= <-]|].
  destruct (validateHost (JStr h)) as [x|] eqn:E; [|done]. change (list_fmap _ _ JStr hs) with (JStr <$> hs).
  destruct (validate_hosts (JStr <$> hs)) as [r'|]; [|done]. intros [= <-]. rewrite (IH r' eq_refl).
  unfold validateHost in E. destruct (_ || _); [done|]. by injection E as ->.
Qed.

(** The outcome of the control plane's checks of the parts in turn. *)
Definition is_ok {E A} (r : result E A) : bool := match r with Ok _ => true | Throw _ => false end.

Lemma parse_endpoint_ok c v s :
  consumer_of (fv_consumer v) = Some c →
  match parse_endpoint c (request_body v s) with
  | Ok ep => endpoint_web v ∧ ep = if endpoint_sent v then Some (trimmed_endpoint v) else None
  | Throw _ => ¬ endpoint_web v
  end.
Proof.
  intros Hc. unfold parse_endpoint, request_body, endpoint_web. fold (endpoint_sent v). destruct (endpoint_sent v) eqn:Es; simpl; [|done].
  unfold endpoint_sent in Es. apply andb_true_iff in Es as [Ei _]. apply bool_decide_eq_true in Ei. rewrite Ei in Hc. simpl in Hc.
  injection Hc as <-. simpl. destruct (url_parse (trimmed_endpoint v)) as [url|] eqn:Eu.
  - destruct (bool_decide (protocol url = "https:") || bool_decide (protocol url = "http:")) eqn:Ep; simpl.
    + split; [|done]. intros _. exists url. split; [done|]. apply orb_true_iff in Ep as [Ep|Ep]; apply bool_decide_eq_true in Ep; auto.
    + intros Hw. destruct (Hw eq_refl) as (url' & [= <-] & Hp). apply orb_false_iff in Ep as [E1 E2].
      apply bool_decide_eq_false in E1, E2. naive_solver.
  - intros Hw. destruct (Hw eq_refl) as (url' & ? & _). done.
Qed.

(** The header a kind with one secret field is sent in. *)
Definition kind_header (k : string) : InferenceAuthHeader := if bool_decide (k ∈ BEARER_KINDS) then authorization else x_api_key.

Lemma shape_agrees v f value b ep :
  kindFields (fv_kind v) = Some [f] → fv_consumer v = "inference" → inferenceAuthHeader b f = Some (kind_header (fv_kind v)) →
  endpoint_web v → ep = (if endpoint_sent v then Some (trimmed_endpoint v) else None) →
  is_ok (checkInferenceShape f b ep value) = true
  ↔ inferenceEndpointProblem v = None ∧ inferenceSecretProblem v [(f, value)] = None.
Proof.
  intros Hk Hc Hh Hw ->. unfold checkInferenceShape, inferenceEndpointProblem, inferenceSecretProblem. rewrite Hk, Hh. simpl map_get.
  rewrite decide_True by done. cbn [default]. unfold id.
  assert (Hb : bool_decide (kind_header (fv_kind v) = authorization) = bool_decide (fv_kind v ∈ BEARER_KINDS)).
  { unfold kind_header. by destruct (bool_decide (fv_kind v ∈ BEARER_KINDS)). }
  rewrite Hb. generalize (bool_decide (fv_kind v ∈ BEARER_KINDS)). intros bearer.
  destruct (startsWith value "sk-ant-oat"); cbn [negb is_ok]; [intuition congruence|].
  rewrite andb_comm. destruct (bearer && startsWith value "sk-ant-api") eqn:Ekey; cbn [negb is_ok]; [intuition congruence|].
  assert (Hsent : endpoint_sent v = negb (bool_decide (trimmed_endpoint v = ""))) by (unfold endpoint_sent; by rewrite Hc).
  rewrite Hsent in *. destruct (bool_decide (trimmed_endpoint v = "")) eqn:Ee; cbn [negb] in *; [intuition congruence|].
  destruct (Hw Hsent) as (url & Hu & _). apply bool_decide_eq_false in Ee.
  destruct (trimmed_endpoint v) as [|c ep] eqn:Et; [done|]. rewrite Hu.
  destruct (bool_decide (hostname url = ANTHROPIC_API_HOST)); cbn [negb is_ok]; [|intuition congruence].
  destruct bearer; cbn [negb is_ok]; [intuition congruence|].
  destruct (bool_decide (pathname url = "/")), (bool_decide (search url = "")); cbn; intuition congruence.
Qed.

(** A known kind, its fields and its binding. *)
Lemma known_kind k fields :
  kindFields k = Some fields →
  ∃ b, map_get k KINDS = Some (mkKind fields b)
    ∧ (∀ f, fields = [f] → inferenceAuthHeader b f = Some (kind_header k))
    ∧ (fields = ["username"; "password"] ∨ ∃ f, fields = [f]).
Proof.
  unfold kindFields. cbn [KNOWN_KINDS map_get].
  repeat (destruct (decide _) as [->|]; [intros [= <-]; eexists; split; [by vm_compute|split; [by intros f [= <-]|by eauto]]|]). done.
Qed.

(** The secret as the control plane reads it. *)
Lemma parse_secret_ok k fields b v s :
  kindFields k = Some fields → s.*1 = fields → Forall (fun x => x ≠ "") s.*2 →
  parse_secret k (mkKind fields b) (request_body v s) = Ok s.
Proof.
  intros Hk Hs Hne. destruct (known_kind _ _ Hk) as (_ & _ & _ & Hf). unfold parse_secret.
  assert (Hsec : field "secret" (request_body v s) = Some (JObj (prod_map id JStr <$> s))) by done. rewrite Hsec. cbn [secretFields].
  assert (Hkeys : (prod_map id JStr <$> s).*1 = fields). { rewrite <-Hs, <-list_fmap_compose. by apply list_fmap_ext. }
  rewrite Hkeys, bool_decide_eq_true_2 by done.
  destruct Hf as [->|[f ->]].
  - destruct s as [|[f1 v1] [|[f2 v2] [|]]]; simplify_eq/=. inversion Hne as [|? ? H1 H2]; subst. inversion H2; subst.
    rewrite !bool_decide_eq_false_2 by done. done.
  - destruct s as [|[f1 v1] [|]]; simplify_eq/=. inversion Hne; subst. rewrite decide_True by done. by rewrite bool_decide_eq_false_2.
Qed.

Lemma consumer_known c : c ∈ CLIENT_CONSUMERS ↔ is_Some (consumer_of c).
Proof.
  unfold CLIENT_CONSUMERS, consumer_of. simpl. rewrite !elem_of_cons, elem_of_nil. repeat case_bool_decide; subst; split; try (by eauto); try (by intros [? ?]); naive_solver.
Qed.

Lemma consumer_inference c x : consumer_of c = Some x → (x = inference ↔ c = "inference").
Proof. unfold consumer_of. simpl. repeat case_bool_decide; intros [= <-]; subst; split; congruence. Qed.

(** The checks of the body. *)
Lemma body_agrees v s fields :
  kindFields (fv_kind v) = Some fields → s.*1 = fields → Forall (fun x => x ≠ "") s.*2 →
  (∃ cred, parseCredentialBody KINDS (credentialRequest v s).1 (credentialRequest v s).2 = Ok cred)
  ↔ credentialProblem v s = None ∧ hosts_bare v ∧ endpoint_web v.
Proof.
  intros Hk Hs Hne. destruct (known_kind _ _ Hk) as (b & Hspec & Hhdr & Hfields).
  unfold credentialRequest, parseCredentialBody, validateCredentialName, kindSpec. cbn [fst snd].
  unfold credentialProblem, descriptionProblem, CREDENTIAL_NAME.
  destruct (valid_name (fv_name v)); cbn [negb]; [|split; [by intros [? ?]|by intros [? _]]].
  change (as_string (field "kind" (request_body v s))) with (Some (fv_kind v)).
  change (as_string (field "consumer" (request_body v s))) with (Some (fv_consumer v)).
  change (isRecord (request_body v s)) with true. cbv iota. rewrite Hspec, Hk.
  change (Some (fv_consumer v) ≫= consumer_of) with (consumer_of (fv_consumer v)).
  destruct (consumer_of (fv_consumer v)) as [c|] eqn:Ec.
  2: { rewrite bool_decide_eq_false_2; [split; [by intros [? ?]|by intros [? _]]|]. rewrite consumer_known, Ec. by intros [? ?]. }
  rewrite (bool_decide_eq_true_2 (fv_consumer v ∈ CLIENT_CONSUMERS)) by (rewrite consumer_known, Ec; eauto). cbn [negb secretFields].
  pose proof (consumer_inference _ _ Ec) as Hci. pose proof (parse_endpoint_ok c v s Ec) as Hep.
  change (field "destination" (request_body v s)) with (Some (JObj [("hosts", JArr (JStr <$> parseHosts (fv_hosts v)))])).
  cbn [result_bind secretFields map_get]. rewrite decide_True by done. cbv iota.
  pose proof (parse_secret_ok _ _ b v s Hk Hs Hne) as Hsec.
  destruct (parseHosts (fv_hosts v)) as [|h hs] eqn:Eh.
  { cbn [length fmap list_fmap]. rewrite (bool_decide_eq_true_2 (0%nat = 0%nat)) by done. cbv iota.
    split; [intros [cred Hx]; by destruct (negb _)|by intros [? _]]. }
  assert (Hbare : (∃ r, validate_hosts (JStr <$> h :: hs) = Ok r) ↔ hosts_bare v).
  { unfold hosts_bare. rewrite Eh. split; [|intros Hb; eexists; by apply validate_hosts_ok].
    intros [r Hr]. pose proof (validate_hosts_same _ _ Hr) as ->. by apply validate_hosts_bare in Hr as [_ ?]. }
  change (JStr <$> h :: hs) with (JStr h :: (JStr <$> hs)) in *. cbv iota.
  rewrite (bool_decide_eq_false_2 (length (h :: hs) = 0%nat)) by done.
  assert (Hci' : bool_decide (fv_consumer v = "inference") = bool_decide (c = inference)) by (apply bool_decide_ext; naive_solver).
  assert (Hbind : parse_binding (mkKind fields b) (request_body v s) = Ok b)
    by (unfold parse_binding, request_body; by destruct (bool_decide (fv_consumer v = "inference") && _)).
  rewrite Hci', Hsec, Hbind. cbn [result_bind].
  destruct (validate_hosts (JStr h :: (JStr <$> hs))) as [r|e].
  2: { split; [intros [cred Hx]; by destruct (negb _)|]. intros (_ & Hb & _). by apply Hbare in Hb as [? ?]. }
  assert (Hb : hosts_bare v) by (apply Hbare; by exists r). cbn [result_bind].
  destruct (parse_endpoint c (request_body v s)) as [ep|e].
  2: { split; [intros [cred Hx]; by destruct (negb _)|]. by intros (_ & _ & Hw). }
  destruct Hep as [Hw Hep]. cbn [result_bind]. destruct (bool_decide (c = inference)) eqn:Eci; cbn [negb andb].
  2: { apply bool_decide_eq_false in Eci. split; [intros _; by split_and!|]. intros _. destruct c; [done|..]; by eexists. }
  apply bool_decide_eq_true in Eci. subst c. destruct Hfields as [->|[f ->]]; [split; [by intros [? ?]|by intros [? _]]|].
  destruct s as [|[f' value] [|]]; simplify_eq/=.
  pose proof (shape_agrees v f value b (if endpoint_sent v then Some (trimmed_endpoint v) else None) Hk (proj1 Hci eq_refl) (Hhdr f eq_refl) Hw eq_refl) as Hsh.
  destruct (checkInferenceShape f b _ value) as [[]|e]; cbn [result_bind is_ok] in *.
  - destruct Hsh as [Hsh _]. destruct (Hsh eq_refl) as [-> ->]. split; [intros _; by split_and!|]. intros _. by eexists.
  - split; [by intros [? ?]|]. intros (Hp & _ & _). exfalso. destruct Hsh as [_ Hsh].
    destruct (inferenceEndpointProblem v) as [p|]; [done|]. by discriminate (Hsh (conj eq_refl Hp)).
Qed.

(** C28. The checks of the client are those of the control plane, but for one name: for a kind both
    know, with the secret fields of that kind, none empty, the control plane's handler goes on to
    store what the client would send if and only if the client has nothing to object to, the hosts
    are bare names and the endpoint is a web address, which only the control plane checks,
    and the name is not the reserved [operator-fallback], which the client lets through and the
    handler refuses.  In every other case the handler refuses without calling anything. *)
Theorem form_agrees ctx p v s fields :
  principal ctx = Some p → map_get "name" (params ctx) = Some (credentialRequest v s).1 →
  body ctx = Some (credentialRequest v s).2 →
  kindFields (fv_kind v) = Some fields → s.*1 = fields → Forall (fun x => x ≠ "") s.*2 →
  let agreed := credentialProblem v s = None ∧ hosts_bare v ∧ endpoint_web v ∧ fv_name v ≠ "operator-fallback" in
  ((∃ cred k, parseCredentialBody KINDS (fv_name v) (credentialRequest v s).2 = Ok cred
      ∧ putCredential KINDS ctx = Call (CredPut (sub p) cred) k) ↔ agreed)
  ∧ ((∃ e, putCredential KINDS ctx = Err e) ↔ ¬ agreed).
Proof.
  intros Hp Hn Hb Hk Hs Hne agreed. pose proof (body_agrees v s fields Hk Hs Hne) as Hbody.
  change (credentialRequest v s).1 with (fv_name v) in *.
  assert (Hcases : (agreed ∧ ∃ cred k, parseCredentialBody KINDS (fv_name v) (credentialRequest v s).2 = Ok cred
                               ∧ putCredential KINDS ctx = Call (CredPut (sub p) cred) k)
                   ∨ (¬ agreed ∧ ∃ e, putCredential KINDS ctx = Err e)).
  { unfold putCredential, requirePrincipal. rewrite Hp, Hn, Hb. cbn [of_result pbind].
    change (default "" (Some (fv_name v))) with (fv_name v).
    change (default JNull (Some (credentialRequest v s).2)) with (credentialRequest v s).2.
    destruct (parseCredentialBody KINDS (fv_name v) (credentialRequest v s).2) as [cred|e] eqn:Epc.
    - assert (Hname : validateCredentialName (fv_name v) = Ok (fv_name v)).
      { revert Epc. unfold parseCredentialBody, validateCredentialName. by destruct (valid_name (fv_name v)). }
      rewrite Hname. cbn [of_result pbind]. case_bool_decide as Hr.
      + right. split; [|by eexists]. intros (_ & _ & _ & Hx). by apply Hx.
      + left. destruct (proj1 Hbody ltac:(by eexists)) as (H1 & H2 & H3). split; [by split_and!|].
        exists cred. eexists. split; [done|]. rewrite Epc. reflexivity.
    - right. split.
      + intros (H1 & H2 & H3 & _). by destruct (proj2 Hbody (conj H1 (conj H2 H3))).
      + destruct (validateCredentialName (fv_name v)) as [n|e'] eqn:En; [|by eexists].
        assert (n = fv_name v) as -> by (unfold validateCredentialName in En; by destruct (valid_name (fv_name v)); simplify_eq).
        cbn [of_result pbind]. case_bool_decide; [by eexists|]. rewrite Epc. by eexists. }
  destruct Hcases as [[Ha (cred & k & H1 & H2)]|[Ha [e He]]]; split; split; try done.
  - intros _. by exists cred, k.
  - intros [e He]. by rewrite H2 in He.
  - intros (cred & k & _ & Hx). by rewrite He in Hx.
  - intros _. by eexists.
Qed.
End Agree.

(** What [credentials add] reads for a kind with one field is that field, on one line, not empty
    and with no white space around it; for another known kind it has all of its fields. *)
Lemma stdin_fits kind text s fields :
  kindFields kind = Some fields → secretFromStdin kind text = Ok s →
  Forall (fun f => ∃ v, map_get f s = Some v ∧ v ≠ "") fields
  ∧ (∀ f, fields = [f] → ∃ v, s = [(f, v)] ∧ (LF ∉ bytes_of v) ∧ (CR ∉ bytes_of v) ∧ trim_str v = v).
Proof.
  intros Hk. unfold secretFromStdin. rewrite Hk.
  assert (Hmany : ∀ r, match read_pairs (stdin_lines text) [] with
    | None => Throw not_pairs
    | Some s =>
        let absent := filter (fun f => default "" (map_get f s) = "") (default [] (Some fields)) in
        if negb (bool_decide (length absent = 0%nat)) then Throw (missing_fields absent)
        else if bool_decide (length s = 0%nat) then Throw no_secret
        else Ok s
    end = Ok r → Forall (fun f => ∃ v, map_get f r = Some v ∧ v ≠ "") fields).
  { intros r. destruct (read_pairs _ _) as [p|]; [|done]. simpl. case_bool_decide as Ha; [|done]. simpl. case_bool_decide; [done|].
    intros [= <-]. apply nil_length_inv in Ha. apply Forall_forall. intros f Hf.
    destruct (map_get f p) as [v|] eqn:Ev; [exists v; split; [done|]|]; [intros ->|];
      (assert (Hin : f ∈ filter (fun f => default "" (map_get f p) = "") fields) by (apply list_elem_of_filter; by rewrite Ev));
      unfold id in *; rewrite Ha in Hin; by apply not_elem_of_nil in Hin. }
  destruct fields as [|f [|g fs]].
  - intros Hr. split; [by apply Hmany|done].
  - case_bool_decide as H1; [done|]. destruct (_ || _) eqn:H2; [done|]. destruct (bool_decide (trim_str _ = string_of _)) eqn:H3; cbn [negb]; [|done]. apply bool_decide_eq_true in H3.
    destruct (startsWith _ _); [done|]. intros [= <-]. apply orb_false_iff in H2 as [H2 H2']. apply bool_decide_eq_false in H2, H2'.
    split.
    + constructor; [|constructor]. exists (string_of (chomp text)). simpl. rewrite decide_True by done. split; [done|].
      intros E. apply H1. by rewrite E.
    + intros f' [= <-]. exists (string_of (chomp text)). rewrite bytes_string. by split_and!.
  - intros Hr. split; [by apply Hmany|done].
Qed.

#[local] Instance example_urls : URLs := fun s =>
  if startsWith s "https://" then Some (mkURL "https:" "gateway.internal" "/" "") else None.

Definition example_values : Values := mkValues "main" "bearer" "inference" "gateway.internal" (Some "https://gateway.internal").

Definition example_claims : TokenClaims := mkClaims "github:1" None None None.

Definition example_ctx (v : Values) (s : secret_fields) : RequestCtx :=
  mkCtx [("name", (credentialRequest v s).1)] [] (Some (credentialRequest v s).2) (Some example_claims) false.

Lemma form_agrees_witness :
  credentialProblem example_values [("token", "abc")] = None
  ∧ ∃ cred k, putCredential KINDS (example_ctx example_values [("token", "abc")]) = Call (CredPut "github:1" cred) k.
Proof.
  assert (E : credentialProblem example_values [("token", "abc")] = None) by (by vm_compute).
  split; [exact E|].
  destruct (form_agrees (example_ctx example_values [("token", "abc")]) example_claims example_values [("token", "abc")] ["token"]
    eq_refl eq_refl eq_refl eq_refl eq_refl ltac:(by repeat constructor)) as [[_ Hgo] _].
  destruct Hgo as (cred & k & _ & Hk); [|exists cred, k; exact Hk]. split_and!; [exact E| | |discriminate].
  - apply (validate_hosts_bare (JStr <$> ["gateway.internal"])). by vm_compute.
  - intros _. exists (mkURL "https:" "gateway.internal" "/" ""). split; [reflexivity|]. by left.
Defined.

(** The client offers to store a credential under the name that is reserved. *)
Lemma reserved_name_offered :
  let v := mkValues "operator-fallback" "bearer" "inference" "gateway.internal" (Some "https://gateway.internal") in
  credentialProblem v [("token", "abc")] = None
  ∧ ∃ e, putCredential KINDS (example_ctx v [("token", "abc")]) = Err e.
Proof. split; [by vm_compute|]. by eexists. Qed.
