(* ===== verification/Headless.v ===== *)
(** * The commands of the terminal client

    Models [packages/mocactl/src/headless.ts] (the commands that run without a screen, as trees of
    calls), [core/session-options.ts], [core/diagnostics.ts] and the dispatch of [cli.ts].  A
    request that [cancellable] wraps is answered by its result, its error, or the cancellation.
    Standard output is what a command prints: a JSON document, the rows of a table (their alignment
    is left out), or text.  Node's [stripVTControlCharacters] and the format of a time are
    parameters. *)

From Stdlib Require Import QArith.
From S2P Require Import Prelude JsNumber Json Prog TurnStream Transcript ClientApi SessionManager ClientConfig CredentialForm.

Local Open Scope Z_scope.

(** ** Session options *)

Record Choice := mkChoice { ch_value : string; ch_label : string }.

(** A field of a new session; [sof_offers] is what its [source] offers. *)
Record OptionField := mkField { sof_key : string; sof_label : string; sof_emptyHint : string; sof_serverMayResolve : bool }.

Definition inferenceCredentialField : OptionField :=
  mkField "inferenceCredential" "Inference credential" "add an inference credential to start" true.

Definition SESSION_OPTION_FIELDS : list OptionField := [inferenceCredentialField].

Inductive Resolution :=
| r_ready (values : list (string * string))
| r_needs_input (f : OptionField) (choices : list Choice) (default_ : option string)
| r_blocked (f : OptionField).

Definition offered (v : string) (l : list Choice) : bool := existsb (fun c => bool_decide (ch_value c = v)) l.

(** One field of the loop: a value, none (the server decides), or an end of the resolution. *)
Definition resolve_field (f : OptionField) (choices : list Choice) (given lastUsed : list (string * string)) :
    option string + Resolution :=
  match map_get (sof_key f) given with
  | Some w =>
      if offered w choices then inl (Some w)
      else match choices with
           | [] => inr (r_blocked f)
           | _ => inr (r_needs_input f choices
                    (match map_get (sof_key f) lastUsed with Some l => if offered l choices then Some l else None | None => None end))
           end
  | None =>
      match choices with
      | [] => if sof_serverMayResolve f then inl None else inr (r_blocked f)
      | [c] => inl (Some (ch_value c))
      | _ => inr (r_needs_input f choices
               (match map_get (sof_key f) lastUsed with Some l => if offered l choices then Some l else None | None => None end))
      end
  end.

(** The request of the one field there is. *)
Definition option_request (values : list (string * string)) : json :=
  match map_get "inferenceCredential" values with
  | Some v => JObj [("credentials", JObj [("inference", JStr v)])]
  | None => JObj []
  end.

Definition fieldRefusedByServer (e : client_error) (fields : list OptionField) : option OptionField :=
  match e with
  | Api a => if bool_decide (ae_code a = "credential_required") then List.find sof_serverMayResolve fields else None
  | _ => None
  end.

(** [--option key=value]; [None] when one has no key or no [=]. *)
Fixpoint parse_flags (flags : list string) (out : list (string * string)) : option (list (string * string)) :=
  match flags with
  | [] => Some out
  | f :: fs =>
      match cut_at EQUALS (bytes_of f) with
      | Some (c :: k, v) => parse_flags fs (map_set (string_of (c :: k)) (string_of v) out)
      | _ => None
      end
  end.

Definition parseOptionFlags (flags : list string) : option (list (string * string)) := parse_flags flags [].

(** A preset: the values of fields this version knows, and the keys of the others. *)
Definition checkPreset (values : list (string * string)) (fields : list OptionField) : list (string * string) * list string :=
  (filter (fun kv => kv.1 ∈ sof_key <$> fields) values, (filter (fun kv => kv.1 ∉ sof_key <$> fields) values).*1).

(** ** The calls of commands *)

Inductive h_error := Cancelled | Failed (e : client_error).

Record CredentialRow := mkRow { cr_name : string; cr_kind : string; cr_consumer : string; cr_hosts : list string; cr_endpoint : option string }.

Record SessionRow := mkSession { sr_id : string; sr_state : string; sr_createdAt : Z; sr_lastTurnAt : option Z }.

Record Page := mkPage { pg_sessions : list SessionRow; pg_next : option Z }.

Inductive printed_out := PJson (j : json) | PTable (rows : list (list string)) | PText (s : string).

Inductive h_call :=
| ListSessions (limit : Z) (cursor : option Z)
| RemoveSession (id : string)
| ListCredentials
| PutCredential (name : string) (req : json)
| DeleteCredential (name : string)
| ReadStdin
| TitleOf (id : string)
| Print (o : printed_out)
| Complain (s : string)
| SourceChoices (key : string)
| NewSession (req : json)
| ResumeSession (id : string)
| SubmitAndWait (id prompt : string)
| WasAborted
| DeviceLogin
| CacheLogin (l : ApiLogin)
| CpHealthz | CpReadyz | CpMe | DoctorCredentials
| HarnessBaseUrl | HarnessHealth
| CreateScratch (credential : string)
| ProbeTrust (token id : string)
| DeleteScratch (id : string).

Inductive login_failure := LoginCancelled | LoginFailed (e : client_error).

Definition h_reply (c : h_call) : Type :=
  match c with
  | ListSessions _ _ => result h_error Page
  | RemoveSession _ => result h_error deletion
  | ListCredentials => result h_error (list CredentialRow)
  | PutCredential _ _ | DeleteCredential _ => result h_error unit
  | ReadStdin => result h_error bytes
  | TitleOf _ => option string
  | SourceChoices _ => result client_error (list Choice)
  | NewSession _ => result client_error string
  | ResumeSession _ => result client_error string
  | SubmitAndWait _ _ => list SessionEvent
  | WasAborted => bool
  | DeviceLogin => result login_failure ApiLogin
  | CpHealthz | CpReadyz | CpMe | HarnessHealth => result client_error unit
  | DoctorCredentials => result client_error (list CredentialRow)
  | HarnessBaseUrl => result client_error string
  | CreateScratch _ => result client_error (string * string)
  | ProbeTrust _ _ => result client_error bool
  | _ => unit
  end.

Definition h_prog : Type → Type := prog h_call h_reply no_error.
Definition hdo (c : h_call) : h_prog (h_reply c) := Call c Ret.

Section Commands.
Context (strip : bytes → bytes) (conn : Connection) (nowMs : Z).

Definition clean (s : string) : string := sanitizeRemote strip s.

(** The exit code of a failed request. *)
Definition failed (e : h_error) : h_prog Z :=
  match e with
  | Cancelled => Ret 130
  | Failed e => await _ <- hdo (Complain (describeError strip e)); Ret 1
  end.

(** [apiTokenValid] of the cached login, whose expiry is a number of seconds *)
Definition token_valid : bool :=
  match c_auth conn with
  | Some a => match as_number (field "expiresAt" a) with Some q => negb (Qle_bool (q * 1000) (inject_Z nowMs)) | None => false end
  | None => false
  end.

Definition ready : h_prog bool :=
  match c_cp conn, c_harness conn with
  | Some _, Some _ =>
      if token_valid then Ret true
      else await _ <- hdo (Complain "not logged in — run `mocactl login` first"); Ret false
  | _, _ =>
      await _ <- hdo (Complain "missing control-plane URL — pass --control-plane-url or set SH_CONTROL_PLANE_URL"); Ret false
  end.

(** *** Listing *)

Definition repeated_cursor (c : Z) : h_error :=
  Failed (AnyError ("the control plane repeated the page cursor " +:+ string_of (dec_signed c))).

(** The pages of a listing; [n] bounds the requests, and [None] is what is left when it is spent. *)
Fixpoint allSessions (n : nat) (seen : list Z) (cursor : option Z) (acc : list SessionRow) : h_prog (option (result h_error (list SessionRow))) :=
  match n with
  | O => Ret None
  | S n' =>
      await r <- hdo (ListSessions 200 cursor);
      match r with
      | Throw e => Ret (Some (Throw e))
      | Ok page =>
          let acc := acc ++ pg_sessions page in
          match pg_next page with
          | None => Ret (Some (Ok acc))
          | Some c =>
              if bool_decide (c ∈ seen) then Ret (Some (Throw (repeated_cursor c)))
              else allSessions n' (c :: seen) (Some c) acc
          end
      end
  end.

Fixpoint with_titles (l : list SessionRow) : h_prog (list (SessionRow * option string)) :=
  match l with
  | [] => Ret []
  | s :: l' => await t <- hdo (TitleOf (sr_id s)); await r <- with_titles l'; Ret ((s, t) :: r)
  end.

Definition opt_json {A} (f : A → json) (o : option A) : json := match o with Some a => f a | None => JNull end.
Definition jz (n : Z) : json := JNum (inject_Z n).

Definition session_json (s : SessionRow * option string) : json :=
  JObj [("sessionId", JStr (sr_id s.1)); ("title", opt_json JStr s.2); ("state", JStr (sr_state s.1));
        ("createdAt", jz (sr_createdAt s.1)); ("lastTurnAt", opt_json jz (sr_lastTurnAt s.1))].

Definition session_cells (utc : Z → string) (s : SessionRow * option string) : list string :=
  clean <$> [sr_id s.1; sr_state s.1; utc (sr_createdAt s.1); (match sr_lastTurnAt s.1 with Some t => utc t | None => "-" end); default "" s.2].

Definition cmdSessions (utc : Z → string) (pages : nat) (json : bool) : h_prog (option Z) :=
  await ok <- ready;
  if negb ok then Ret (Some 2)
  else
    await r <- allSessions pages [] None [];
    match r with
    | None => Ret None
    | Some (Throw e) => await c <- failed e; Ret (Some c)
    | Some (Ok l) =>
        await rows <- with_titles l;
        if json : bool then await _ <- hdo (Print (PJson (JObj [("sessions", JArr (session_json <$> rows))]))); Ret (Some 0)
        else if bool_decide (length rows = 0%nat) then await _ <- hdo (Complain "no sessions"); Ret (Some 0)
        else
          await _ <- hdo (Print (PTable (["ID"; "STATE"; "CREATED (UTC)"; "LAST TURN (UTC)"; "TITLE"] :: (session_cells utc <$> rows))));
          Ret (Some 0)
    end.

Definition cmdSessionDelete (id : string) (json : bool) : h_prog Z :=
  await ok <- ready;
  if negb ok then Ret 2
  else
    await r <- hdo (RemoveSession id);
    match r with
    | Throw e => failed e
    | Ok status =>
        await _ <- hdo (Complain (match status with
                            | deleted => "deleted session " +:+ clean id
                            | accepted => "deleting session " +:+ clean id +:+ "; the control plane finishes in the background"
                            end));
        await _ <- (if json : bool
                    then hdo (Print (PJson (JObj [("sessionId", JStr id); ("status", JStr (match status with deleted => "deleted" | accepted => "accepted" end))])))
                    else Ret tt);
        Ret 0
    end.

Definition credential_json (c : CredentialRow) : json :=
  JObj [("name", JStr (cr_name c)); ("kind", JStr (cr_kind c)); ("consumer", JStr (cr_consumer c));
        ("hosts", JArr (JStr <$> cr_hosts c)); ("endpoint", opt_json JStr (cr_endpoint c))].

Definition credential_cells (c : CredentialRow) : list string :=
  clean <$> [cr_name c; cr_kind c; cr_consumer c; Credentials.join_str "," (cr_hosts c); default "-" (cr_endpoint c)].

Definition cmdCredentials (json : bool) : h_prog Z :=
  await ok <- ready;
  if negb ok then Ret 2
  else
    await r <- hdo ListCredentials;
    match r with
    | Throw e => failed e
    | Ok rows =>
        if json : bool then await _ <- hdo (Print (PJson (JObj [("credentials", JArr (credential_json <$> rows))]))); Ret 0
        else if bool_decide (length rows = 0%nat) then await _ <- hdo (Complain "no credentials"); Ret 0
        else await _ <- hdo (Print (PTable (["NAME"; "KIND"; "CONSUMER"; "HOSTS"; "ENDPOINT"] :: (credential_cells <$> rows)))); Ret 0
    end.

(** *** Credentials *)

Definition cmdCredentialAdd `{Credentials.URLs} (name kind consumer : string) (hosts : list string) (endpoint : option string)
    (json stdinIsTTY : bool) : h_prog Z :=
  await ok <- ready;
  if negb ok then Ret 2
  else
    let values := mkValues name kind consumer (Credentials.join_str "," hosts) (Some (default "" endpoint)) in
    let early :=
      if bool_decide (is_Some endpoint) && negb (bool_decide (consumer = "inference"))
      then Some "--endpoint only applies to --consumer inference"
      else form_message <$> descriptionProblem values in
    match early with
    | Some problem => await _ <- hdo (Complain problem); Ret 2
    | None =>
    if stdinIsTTY
    then
      await _ <- hdo (Complain ("pipe the secret on stdin, e.g. `printf %s " +:+ DQ +:+ "$KEY" +:+ DQ
                                +:+ " | mocactl credentials add …` (or use /credentials in the TUI)"));
      Ret 2
    else
      await _ <- hdo (Complain "reading the secret from stdin…");
      await r <- hdo ReadStdin;
      match r with
      | Throw e => failed e
      | Ok text =>
          match secretFromStdin kind text with
          | Throw problem => await _ <- hdo (Complain (stdin_message problem)); Ret 2
          | Ok secret =>
              match credentialProblem values secret with
              | Some problem => await _ <- hdo (Complain (form_message problem)); Ret 2
              | None =>
                  let '(n, req) := credentialRequest values secret in
                  await p <- hdo (PutCredential n req);
                  match p with
                  | Throw e => failed e
                  | Ok _ =>
                      await _ <- hdo (Complain ("stored credential " +:+ clean n));
                      await _ <- (if json then hdo (Print (PJson (JObj [("name", JStr n); ("status", JStr "stored")]))) else Ret tt);
                      Ret 0
                  end
              end
          end
      end
    end.

Definition cmdCredentialDelete (name : string) (json : bool) : h_prog Z :=
  await ok <- ready;
  if negb ok then Ret 2
  else
    await r <- hdo ListCredentials;
    match r with
    | Throw e => failed e
    | Ok owned =>
        if negb (existsb (fun c => bool_decide (cr_name c = name)) owned)
        then await _ <- hdo (Complain ("no credential named " +:+ clean name)); Ret 1
        else
          await d <- hdo (DeleteCredential name);
          match d with
          | Throw e => failed e
          | Ok _ =>
              await _ <- hdo (Complain ("deleted credential " +:+ clean name));
              await _ <- (if json : bool then hdo (Print (PJson (JObj [("name", JStr name); ("status", JStr "deleted")]))) else Ret tt);
              Ret 0
          end
    end.

(** *** Sessions that are new *)

Fixpoint resolve_fields (fields : list OptionField) (given lastUsed values : list (string * string)) :
    h_prog (result client_error Resolution) :=
  match fields with
  | [] => Ret (Ok (r_ready values))
  | f :: fs =>
      await c <- hdo (SourceChoices (sof_key f));
      match c with
      | Throw e => Ret (Throw e)
      | Ok choices =>
          match resolve_field f choices given lastUsed with
          | inl (Some v) => resolve_fields fs given lastUsed (map_set (sof_key f) v values)
          | inl None => resolve_fields fs given lastUsed values
          | inr r => Ret (Ok r)
          end
      end
  end.

Definition resolveSessionOptions (given lastUsed : list (string * string)) : h_prog (result client_error Resolution) :=
  resolve_fields SESSION_OPTION_FIELDS given lastUsed [].

(** [opts.session] when it is not empty, else a new session; the exit code when there is none. *)
Definition open_session (session : option string) (options lastUsed : list (string * string)) : h_prog (string + Z) :=
  match session with
  | Some (String _ _ as id) =>
      await r <- hdo (ResumeSession id);
      match r with Ok id => Ret (inl id) | Throw e => await _ <- hdo (Complain (describeError strip e)); Ret (inr 1) end
  | _ =>
      await r <- resolveSessionOptions options lastUsed;
      match r with
      | Throw e => await _ <- hdo (Complain (describeError strip e)); Ret (inr 1)
      | Ok (r_blocked f) => await _ <- hdo (Complain ("cannot start a session: " +:+ sof_emptyHint f)); Ret (inr 2)
      | Ok (r_needs_input f choices _) =>
          await _ <- hdo (Complain ("choose the " +:+ toLowerCase (sof_label f) +:+ " with --option " +:+ sof_key f +:+ "=<value>: "
                                    +:+ Credentials.join_str ", " (ch_value <$> choices)));
          Ret (inr 2)
      | Ok (r_ready values) =>
          await r <- hdo (NewSession (option_request values));
          match r with
          | Ok id => Ret (inl id)
          | Throw e =>
              match fieldRefusedByServer e SESSION_OPTION_FIELDS with
              | Some f => await _ <- hdo (Complain ("cannot start a session: " +:+ sof_emptyHint f)); Ret (inr 2)
              | None => await _ <- hdo (Complain (describeError strip e)); Ret (inr 1)
              end
          end
      end
  end.

(** *** One prompt *)

Definition frame_text (f : TurnFrame) : option string :=
  match f with Known t d => if bool_decide (t = "text") then Some (default "" (as_string (field "delta" d))) else None | _ => None end.

Definition tjson (f : TurnFrame) : json :=
  match f with Known _ d => d | UnknownFrame e d => JObj [("type", JStr "unknown"); ("event", JStr e); ("data", d)] end.

(** The listener, on each event of the session. *)
Fixpoint listen (json : bool) (es : list SessionEvent) : h_prog unit :=
  match es with
  | [] => Ret tt
  | e :: es' =>
      await _ <- match e with
                 | FrameEvent f =>
                     if json then hdo (Print (PJson (tjson f)))
                     else match frame_text f with Some t => hdo (Print (PText (clean t))) | None => Ret tt end
                 | Retrying n => hdo (Complain ("the harness has no capacity — retrying in " +:+ dec_str n +:+ "s"))
                 | _ => Ret tt
                 end;
      listen json es'
  end.

Definition turn_outcome (e : SessionEvent) : option outcome := match e with TurnEnd o => Some o | _ => None end.

(** The outcome left by the last turn that ended. *)
Definition final_outcome (es : list SessionEvent) : outcome := default o_done (last (omap turn_outcome es)).

Definition cmdRun (prompt : string) (session : option string) (options lastUsed : list (string * string)) (json : bool) : h_prog Z :=
  await ok <- ready;
  if negb ok then Ret 2
  else
    await s <- open_session session options lastUsed;
    match s with
    | inr code => Ret code
    | inl id =>
        await _ <- hdo (Complain ("session " +:+ id));
        await _ <- (if json then hdo (Print (PJson (JObj [("type", JStr "session"); ("sessionId", JStr id)]))) else Ret tt);
        await aborted <- hdo WasAborted;
        if aborted : bool then Ret 130
        else
          await es <- hdo (SubmitAndWait id prompt);
          await _ <- listen json es;
          await _ <- (if json then Ret tt else hdo (Print (PText (string_of [LF]))));
          match final_outcome es with
          | o_error e => await _ <- hdo (Complain (describeError strip e)); Ret 1
          | o_cancelled => Ret 130
          | o_done => Ret 0
          end
    end.

Definition cmdLogin : h_prog Z :=
  match c_cp conn with
  | None => await _ <- hdo (Complain "missing control-plane URL — pass --control-plane-url or set SH_CONTROL_PLANE_URL"); Ret 2
  | Some _ =>
      await r <- hdo DeviceLogin;
      match r with
      | Ok l => await _ <- hdo (CacheLogin l); await _ <- hdo (Complain ("logged in as " +:+ default (l_subject l) (l_displayName l))); Ret 0
      | Throw LoginCancelled => Ret 130
      | Throw (LoginFailed e) => await _ <- hdo (Complain ("login failed: " +:+ describeError strip e)); Ret 1
      end
  end.

(** *** Diagnostics *)

Inductive check_status := c_pass | c_fail.
Record CheckResult := mkCheck {
  ck_id : nat; ck_name : string; ck_status : check_status; ck_fix : option string; ck_detail : option string;
}.

(** The checks in their order. *)
Inductive check := k_healthz | k_readyz | k_me | k_credential | k_located | k_health | k_trust.
Definition CHECKS : list check := [k_healthz; k_readyz; k_me; k_credential; k_located; k_health; k_trust].

Definition diagnostic_name (k : check) : string :=
  match k with
  | k_healthz => "control plane reachable"
  | k_readyz => "control plane ready"
  | k_me => "logged in"
  | k_credential => "inference credential present"
  | k_located => "harness located"
  | k_health => "harness reachable"
  | k_trust => "harness trusts this control plane"
  end.

Definition MU1_HARNESS_SETTINGS : string :=
  "SH_SESSION_TOKEN_PUBLIC_KEYS (on the VM path, re-run `sudo ./deploy/vm/setup-vm.sh`: it installs the control plane and wires the harness)".

(** What one check finds, the later ones use: the credential and the harness's URL. *)
Record Found := mkFound { fd_credential : string; fd_harnessUrl : option string }.

(** The one line that says what to do. *)
Definition check_fix (controlPlaneUrl : string) (overridden : bool) (fd : Found) (k : check) (e : client_error) : string :=
  match k with
  | k_healthz => "cannot reach the control plane at " +:+ controlPlaneUrl +:+ " — check --control-plane-url"
  | k_readyz => "the control plane is up but its session store (Redis) is down"
  | k_me => "not logged in — run `mocactl login`, or start `mocactl` to log in"
  | k_credential => "no inference credential — add one with /credentials"
  | k_located => describeError strip e
  | k_health =>
      "cannot reach the harness at " +:+ default "undefined" (fd_harnessUrl fd) +:+ " — "
      +:+ (if overridden then "check --harness-url" else "check SH_PUBLIC_HARNESS_URL on the control plane, or pass --harness-url")
  | k_trust => "the harness does not trust this control plane's tokens — it needs " +:+ MU1_HARNESS_SETTINGS
  end.

(** [err.message] *)
Definition error_message (e : client_error) : string :=
  match e with Api a => ae_message a | TurnCancelled => "turn cancelled" | AnyError t => t end.

Definition find_inference (rows : list CredentialRow) : option string :=
  match List.find (fun c => bool_decide (cr_consumer c = "inference")) rows with
  | Some c => if bool_decide (cr_name c = "") then None else Some (cr_name c)
  | None => None
  end.

Definition nothing_found {A} (fd : Found) (r : result client_error A) : result client_error (Found * option string) :=
  match r with Ok _ => Ok (fd, None) | Throw e => Throw e end.

(** A check: what it leaves to the later ones, and its detail.  The scratch session of the last one
    is deleted whatever the probe says, and an error of that is ignored. *)
Definition run_check (loggedIn overridden : bool) (fd : Found) (k : check) : h_prog (result client_error (Found * option string)) :=
  match k with
  | k_healthz => await r <- hdo CpHealthz; Ret (nothing_found fd r)
  | k_readyz => await r <- hdo CpReadyz; Ret (nothing_found fd r)
  | k_me =>
      if negb loggedIn then Ret (Throw (AnyError "no cached login"))
      else await r <- hdo CpMe; Ret (nothing_found fd r)
  | k_credential =>
      await r <- hdo DoctorCredentials;
      Ret (match r with
           | Throw e => Throw e
           | Ok rows =>
               match find_inference rows with
               | Some n => Ok (mkFound n (fd_harnessUrl fd), None)
               | None => Throw (AnyError ("no credential with consumer " +:+ DQ +:+ "inference" +:+ DQ))
               end
           end)
  | k_located =>
      await r <- hdo HarnessBaseUrl;
      Ret (match r with
           | Ok url => Ok (mkFound (fd_credential fd) (Some url),
                           Some (url +:+ " (" +:+ (if overridden then "local override" else "advertised by the control plane") +:+ ")"))
           | Throw e => Throw e
           end)
  | k_health => await r <- hdo HarnessHealth; Ret (nothing_found fd r)
  | k_trust =>
      await s <- hdo (CreateScratch (fd_credential fd));
      match s with
      | Throw e => Ret (Throw e)
      | Ok (id, token) =>
          await p <- hdo (ProbeTrust token id);
          await _ <- hdo (DeleteScratch id);
          Ret (match p with
               | Ok true => Ok (fd, None)
               | Ok false => Throw (AnyError "the harness rejected a valid session token")
               | Throw e => Throw e
               end)
      end
  end.

Fixpoint run_checks (cpUrl : string) (loggedIn overridden : bool) (ks : list check) (i : nat) (fd : Found) : h_prog (list CheckResult) :=
  match ks with
  | [] => Ret []
  | k :: ks' =>
      await r <- run_check loggedIn overridden fd k;
      match r with
      | Ok (fd, detail) =>
          await rest <- run_checks cpUrl loggedIn overridden ks' (S i) fd;
          Ret (mkCheck i (diagnostic_name k) c_pass None detail :: rest)
      | Throw e => Ret [mkCheck i (diagnostic_name k) c_fail (Some (check_fix cpUrl overridden fd k e)) (Some (error_message e))]
      end
  end.

Definition runDiagnostics (cpUrl : string) (loggedIn overridden : bool) : h_prog (list CheckResult) :=
  run_checks cpUrl loggedIn overridden CHECKS 1 (mkFound "" None).

Definition passed (r : CheckResult) : bool := match ck_status r with c_pass => true | c_fail => false end.

Definition opt_field (k : string) (v : option string) : list (string * json) := match v with Some s => [(k, JStr s)] | None => [] end.

Definition check_json (r : CheckResult) : json :=
  JObj ([("id", jz (Z.of_nat (ck_id r))); ("name", JStr (ck_name r)); ("status", JStr (if passed r then "pass" else "fail"))]
        ++ opt_field "fix" (ck_fix r) ++ opt_field "detail" (ck_detail r)).

Definition format_check (r : CheckResult) : string :=
  if passed r
  then "✓ " +:+ dec_str (Z.of_nat (ck_id r)) +:+ " " +:+ ck_name r +:+ (match ck_detail r with Some d => " — " +:+ d | None => "" end)
  else "✗ " +:+ dec_str (Z.of_nat (ck_id r)) +:+ " " +:+ ck_name r +:+ " — " +:+ default "undefined" (ck_fix r).

Definition NL : string := string_of [LF].

Definition formatDiagnostics (rs : list CheckResult) : string := Credentials.join_str NL (format_check <$> rs).

Definition cmdDoctor (json : bool) : h_prog Z :=
  match c_cp conn, c_harness conn with
  | Some u, Some h =>
      await rs <- runDiagnostics u token_valid (bool_decide (is_Some (ep_harnessUrl (c_endpoints conn))));
      await _ <- hdo (Print (if json then PJson (JArr (check_json <$> rs)) else PText (formatDiagnostics rs +:+ NL)));
      Ret (if forallb passed rs then 0 else 1)
  | _, _ => await _ <- hdo (Complain "missing control-plane URL — pass --control-plane-url or set SH_CONTROL_PLANE_URL"); Ret 2
  end.
End Commands.

(** ** What the commands do *)

Abbreviation h_event := (event (C := h_call) (R := h_reply)).

Definition asked_page (e : h_event) : option (option Z) := match projT1 e with ListSessions _ c => Some c | _ => None end.

Definition got_page (e : h_event) : option (result h_error Page) :=
  match e with existT c r =>
    match c return h_reply c → option (result h_error Page) with ListSessions _ _ => fun r => Some r | _ => fun _ => None end r
  end.

Definition scratch_made (e : h_event) : option string :=
  match e with existT c r =>
    match c return h_reply c → option string with
    | CreateScratch _ => fun r => match r with Ok (id, _) => Some id | Throw _ => None end
    | _ => fun _ => None
    end r
  end.

Definition scratch_deleted (e : h_event) : option string := match projT1 e with DeleteScratch id => Some id | _ => None end.
Definition asks_scratch (e : h_event) : option unit := match projT1 e with CreateScratch _ => Some tt | _ => None end.

(** *** Listing every session *)

Definition page_of (r : result h_error Page) : list SessionRow := match r with Ok p => pg_sessions p | Throw _ => [] end.
Definition cursors_of (r : result h_error Page) : list Z := match r with Ok p => match pg_next p with Some c => [c] | None => [] end | Throw _ => [] end.

Lemma allSessions_runs n seen cursor acc tr o :
  runs (allSessions n seen cursor acc) tr o → NoDup seen → (∀ c, cursor = Some c → c ∈ seen) →
  ∃ r asks, o = Ok r ∧ omap asked_page tr = (if bool_decide (n = 0%nat) then [] else cursor :: (Some <$> asks))
    ∧ NoDup (rev asks ++ seen)
    ∧ (∀ l, r = Some (Ok l) → l = acc ++ (omap got_page tr ≫= page_of))
    ∧ (r = None → length asks = pred n)
    ∧ asks `prefix_of` (omap got_page tr ≫= cursors_of).
Proof.
  revert seen cursor acc tr. induction n as [|n IH]; intros seen cursor acc tr Hr Hs Hc.
  { apply runs_inv in Hr as [-> ->]. exists None, []. split_and!; try done. }
  cbn [allSessions] in Hr. apply runs_inv in Hr as (r & t1 & -> & Hr). cbn [pbind] in Hr.
  assert (Hstop : ∀ x, runs (Ret x : h_prog _) t1 o → (∀ l, x = Some (Ok l) → l = acc ++ page_of r) → x ≠ None →
    ∃ r' asks, o = Ok r' ∧ omap asked_page (ev (ListSessions 200 cursor) r :: t1) = cursor :: (Some <$> asks)
    ∧ NoDup (rev asks ++ seen) ∧ (∀ l, r' = Some (Ok l) → l = acc ++ (omap got_page (ev (ListSessions 200 cursor) r :: t1) ≫= page_of))
    ∧ (r' = None → length asks = n) ∧ asks `prefix_of` (omap got_page (ev (ListSessions 200 cursor) r :: t1) ≫= cursors_of)).
  { intros x [-> ->]%runs_inv Hl Hne. exists x, []. split_and!; try done; [|apply prefix_nil]. intros l E. simpl. rewrite app_nil_r. by apply Hl. }
  cbn [bool_decide]. destruct r as [page|e]; [|by apply (Hstop (Some (Throw e)))].
  destruct (pg_next page) as [c|] eqn:En.
  2: { apply (Hstop (Some (Ok (acc ++ pg_sessions page)))); [done| |done]. by intros l [= <-]. }
  case_bool_decide as Hin; [by apply (Hstop (Some (Throw (repeated_cursor c))))|].
  destruct (IH (c :: seen) (Some c) (acc ++ pg_sessions page) t1 Hr) as (r' & asks & -> & Ha & Hnd & Hl & Hnone & Hpre);
    [by constructor|intros ? [= <-]; left|].
  set (e := ev (ListSessions 200 cursor) (Ok page)).
  assert (E1 : omap asked_page (e :: t1) = cursor :: omap asked_page t1) by done.
  assert (E2 : omap got_page (e :: t1) ≫= page_of = pg_sessions page ++ (omap got_page t1 ≫= page_of)) by done.
  assert (E3 : omap got_page (e :: t1) ≫= cursors_of = c :: (omap got_page t1 ≫= cursors_of)).
  { transitivity (cursors_of (Ok page) ++ (omap got_page t1 ≫= cursors_of)); [done|]. simpl. by rewrite En. }
  rewrite E1, E2, E3, Ha. destruct n as [|n].
  { exists r', []. split_and!; try done; [|apply prefix_nil]. intros l E. by rewrite (Hl l E), app_assoc. }
  exists r', (c :: asks). split_and!; [done|done| | | |].
  - simpl. by rewrite <-app_assoc.
  - intros l E. by rewrite (Hl l E), app_assoc.
  - intros E. simpl. by rewrite (Hnone E).
  - by apply prefix_cons.
Qed.

(** A whole listing from [cursor]: each request carries the cursor the page before it answered
    with, the last page has none, and the sessions are those of the pages in their order. *)
Inductive whole_listing : option Z → list h_event → list SessionRow → Prop :=
| last_page cursor p :
    pg_next p = None → whole_listing cursor [ev (ListSessions 200 cursor) (Ok p)] (pg_sessions p)
| next_page cursor p c tr l :
    pg_next p = Some c → whole_listing (Some c) tr l →
    whole_listing cursor (ev (ListSessions 200 cursor) (Ok p) :: tr) (pg_sessions p ++ l).

(** Why a listing fails: its last request did, or answered with a cursor an earlier page (or one of
    [seen]) had. *)
Definition listing_failed (seen : list Z) (tr : list h_event) (e : h_error) : Prop :=
  ∃ before last_event, tr = before ++ [last_event]
    ∧ (got_page last_event = Some (Throw e)
       ∨ ∃ p c, got_page last_event = Some (Ok p) ∧ pg_next p = Some c
           ∧ (c ∈ seen ∨ c ∈ omap got_page before ≫= cursors_of) ∧ e = repeated_cursor c).

Lemma listing_outcome n seen cursor acc tr r :
  runs (allSessions n seen cursor acc) tr (Ok (Some r)) →
  match r with
  | Ok l => ∃ l', l = acc ++ l' ∧ whole_listing cursor tr l'
  | Throw e => listing_failed seen tr e
  end.
Proof.
  revert seen cursor acc tr. induction n as [|n IH]; intros seen cursor acc tr Hr; [by apply runs_inv in Hr as [_ ?]|].
  cbn [allSessions] in Hr. apply runs_inv in Hr as (x & t1 & -> & Hr). cbn [pbind] in Hr. destruct x as [page|e].
  2:{ apply runs_inv in Hr as [-> [= ->]]. eexists [], _. split; [reflexivity|by left]. }
  destruct (pg_next page) as [c|] eqn:En.
  2:{ apply runs_inv in Hr as [-> [= ->]]. exists (pg_sessions page). split; [done|by constructor]. }
  case_bool_decide as Hin.
  { apply runs_inv in Hr as [-> [= ->]]. eexists [], _. split; [reflexivity|right]. exists page, c. split_and!; [done|done|by left|done]. }
  specialize (IH _ _ _ _ Hr). destruct r as [l|e].
  - destruct IH as (l' & -> & Hw). exists (pg_sessions page ++ l'). split; [by rewrite app_assoc|by econstructor].
  - destruct IH as (before & lst & -> & Hf). exists (ev (ListSessions 200 cursor) (Ok page) :: before), lst. split; [done|].
    destruct Hf as [?|(p & c' & H1 & H2 & Hc & ->)]; [by left|right]. exists p, c'. split_and!; [done|done| |done].
    assert (E : omap got_page (ev (ListSessions 200 cursor) (Ok page) :: before) ≫= cursors_of
                = c :: (omap got_page before ≫= cursors_of)).
    { transitivity (cursors_of (Ok page) ++ (omap got_page before ≫= cursors_of)); [done|]. simpl. by rewrite En. }
    rewrite E, elem_of_cons. rewrite elem_of_cons in Hc. tauto.
Qed.

(** C33. Listing ends and is complete.  If the cursors a control plane answers with are among [cs],
    however it orders or repeats them, a listing makes at most two requests more than there are
    cursors and then has an answer; no cursor is asked for twice.  When it returns sessions, every
    request carried the cursor of the page before it (the first none), the last page had no
    further cursor, and the sessions are those of all the pages in their order; it fails only when a
    request failed or a cursor came back. *)
Theorem listing_ends cs tr o :
  runs (allSessions (2 + length cs) [] None []) tr o →
  Forall (fun c => c ∈ cs) (omap got_page tr ≫= cursors_of) →
  (∃ r, o = Ok (Some r) ∧ match r with Ok l => whole_listing None tr l | Throw e => listing_failed [] tr e end)
  ∧ NoDup (omap asked_page tr) ∧ (length (omap asked_page tr) ≤ 2 + length cs)%nat.
Proof.
  intros Hr Hc. destruct (allSessions_runs _ _ _ _ _ _ Hr) as (r & asks & -> & Ha & Hnd & Hl & Hnone & Hpre); [constructor|done|].
  rewrite app_nil_r in Hnd. rewrite bool_decide_eq_false_2 in Ha by lia.
  assert (Hnd' : NoDup asks). { rewrite <-(rev_involutive asks). by apply NoDup_ListNoDup, NoDup_rev, NoDup_ListNoDup. }
  assert (Hlen : (length asks ≤ length cs)%nat).
  { apply submseteq_length, NoDup_submseteq; [done|]. intros c Hin. destruct Hpre as [k Hk]. rewrite Hk, Forall_app in Hc.
    destruct Hc as [Hc _]. rewrite Forall_forall in Hc. by apply Hc. }
  split_and!.
  - destruct r as [r|]; [|specialize (Hnone eq_refl); simpl in Hnone; lia]. exists r. split; [done|].
    pose proof (listing_outcome _ _ _ _ _ _ Hr) as Ho. destruct r as [l|e]; [|done]. by destruct Ho as (l' & -> & ?).
  - rewrite Ha. constructor; [intros (x & ? & _)%list_elem_of_fmap; done|]. by apply NoDup_fmap_2; [intros ? ? [=]|].
  - rewrite Ha. simpl. rewrite length_fmap. lia.
Qed.

Definition two_pages : list h_event :=
  [ev (ListSessions 200 None) (Ok (mkPage [mkSession "a" "idle" 1 None] (Some 7)));
   ev (ListSessions 200 (Some 7)) (Ok (mkPage [mkSession "b" "idle" 2 None] None))].

Lemma listing_ends_witness :
  runs (allSessions 3 [] None []) two_pages (Ok (Some (Ok [mkSession "a" "idle" 1 None; mkSession "b" "idle" 2 None])))
  ∧ whole_listing None two_pages [mkSession "a" "idle" 1 None; mkSession "b" "idle" 2 None].
Proof.
  assert (H : runs (allSessions (2 + length [7]) [] None []) two_pages
    (Ok (Some (Ok [mkSession "a" "idle" 1 None; mkSession "b" "idle" 2 None])))) by repeat constructor.
  split; [exact H|]. destruct (listing_ends [7] two_pages _ H) as [(r & Ho & Hl) _]; [repeat constructor|].
  injection Ho as <-. exact Hl.
Defined.

(** *** The doctor *)

Lemma check_runs li ov fd k tr o :
  runs (run_check li ov fd k) tr o →
  ∃ r, o = Ok r ∧ omap scratch_made tr = omap scratch_deleted tr
    ∧ omap asks_scratch tr = match k with k_trust => [tt] | _ => [] end.
Proof.
  intros Hr. destruct k; cbn [run_check] in Hr; try (destruct li; cbn [negb] in Hr; [|apply runs_inv in Hr as [-> ->]; by eexists]);
    try (apply runs_inv in Hr as (r & t & -> & [-> ->]%runs_inv); by eexists).
  all: try (by apply runs_inv in Hr as (r & t & -> & Hr); apply runs_inv in Hr as [-> ->]; eexists).
  all: apply runs_inv in Hr as (s & t & -> & Hr); cbn [pbind] in Hr; destruct s as [[id token]|e];
    [|apply runs_inv in Hr as [-> ->]; by eexists];
    apply runs_inv in Hr as (p & t2 & -> & Hr); cbn [pbind] in Hr; apply runs_inv in Hr as (u & t3 & -> & [-> ->]%runs_inv); by eexists.
Qed.

(** Results of checks in a row: passes, and a failure only at the end. *)
Definition checks_ok (ks : list check) (i : nat) (rs : list CheckResult) : Prop :=
  ck_id <$> rs = seq i (length rs) ∧ (length rs ≤ length ks)%nat
  ∧ (∀ j r, rs !! j = Some r → passed r = false → S j = length rs)
  ∧ (forallb passed rs = true → length rs = length ks).

Lemma checks_run strip cp li ov ks i fd tr o :
  runs (run_checks strip cp li ov ks i fd) tr o →
  ∃ rs, o = Ok rs ∧ checks_ok ks i rs ∧ omap scratch_made tr = omap scratch_deleted tr
    ∧ (omap asks_scratch tr ≠ [] → ∃ j, (j ≤ length rs)%nat ∧ ks !! j = Some k_trust ∧ forallb passed (take j rs) = true).
Proof.
  revert i fd tr o. induction ks as [|k ks IH]; intros i fd tr o Hr; cbn [run_checks] in Hr.
  { apply runs_inv in Hr as [-> ->]. exists []. by split_and!. }
  apply runs_bind in Hr as [([] & _)|(r & t1 & t2 & -> & Hk & Hr)]. destruct (check_runs _ _ _ _ _ _ Hk) as (r' & [= <-] & Hm & Ha).
  rewrite !omap_app, Hm, Ha. destruct r as [[fd' d]|e].
  - apply runs_bind in Hr as [([] & _)|(rest & t3 & t4 & -> & Hrest & [-> ->]%runs_inv)].
    destruct (IH _ _ _ _ Hrest) as (rs & [= <-] & (C1 & C2 & C3 & C4) & Hm2 & Ha2). eexists. split; [done|].
    rewrite !app_nil_r, Hm2. split_and!; [|done|].
    + split_and!; [exact (f_equal (cons i) C1)|simpl; lia| |simpl; intros Hp; by rewrite C4].
      intros [|j] r Hj Hp; simplify_eq/=. by rewrite (C3 j r Hj Hp).
    + intros Hne. destruct k; try (destruct (Ha2 Hne) as (j & Hj & Hk' & Ht); exists (S j); simpl; split_and!; [lia|done|done]).
      exists 0%nat. by split_and!; [lia|..].
  - apply runs_inv in Hr as [-> ->]. eexists. split; [done|]. rewrite !app_nil_r. split_and!; [|done|].
    + split_and!; simpl; [done|lia| |done]. intros [|j] r Hj Hp; by simplify_eq/=.
    + intros Hne. destruct k; try done. exists 0%nat. by split_and!; [lia|..].
Qed.

(** The doctor leaves nothing behind: however the two servers answer, every scratch session it
    creates it also deletes; it creates one only after the six checks before have passed; and
    its results are passes in order with a failure only at the end, all seven when it reports
    success. *)
Theorem doctor_cleans_up strip conn nowMs json tr code :
  runs (cmdDoctor strip conn nowMs json) tr (Ok code) →
  omap scratch_made tr = omap scratch_deleted tr
  ∧ (code = 0 → ∃ rs, checks_ok CHECKS 1 rs ∧ length rs = 7%nat ∧ forallb passed rs = true)
  ∧ (omap asks_scratch tr ≠ [] → ∃ rs, checks_ok CHECKS 1 rs ∧ forallb passed (take 6 rs) = true ∧ (6 ≤ length rs)%nat).
Proof.
  unfold cmdDoctor. intros Hr. destruct (c_cp conn) as [u|], (c_harness conn) as [h|].
  2-4: apply runs_inv in Hr as (? & t & -> & [-> [= ->]]%runs_inv); by split_and!.
  apply runs_bind in Hr as [([] & _)|(rs & t1 & t2 & -> & Hd & Hr)]. destruct (checks_run _ _ _ _ _ _ _ _ _ Hd) as (rs' & [= <-] & Hok & Hm & Ha).
  apply runs_inv in Hr as (u' & t3 & -> & [-> [= ->]]%runs_inv). rewrite !omap_app, Hm. cbn [omap list_omap]. rewrite !app_nil_r.
  split_and!; [done| |].
  - intros Hc. destruct (forallb passed rs) eqn:E; [|done]. exists rs. split_and!; [done| |done]. by apply Hok.
  - intros Hne. destruct (Ha Hne) as (j & Hj & Hk & Ht). exists rs.
    assert (j = 6%nat) as ->. { do 7 (destruct j as [|j]; [try done|]). by destruct j. }
    by split_and!.
Qed.

Definition healthy : Connection := wire (at_cp "https://a") (Some (auth_json (toCachedAuth ex_login "https://a"))).

Definition scratch_report : string :=
  "✓ 1 control plane reachable" +:+ NL +:+ "✓ 2 control plane ready" +:+ NL +:+ "✓ 3 logged in" +:+ NL
  +:+ "✓ 4 inference credential present" +:+ NL +:+ "✓ 5 harness located — https://h (advertised by the control plane)" +:+ NL
  +:+ "✓ 6 harness reachable" +:+ NL +:+ "✗ 7 harness trusts this control plane — "
  +:+ check_fix id "https://a" false (mkFound "main" None) k_trust TurnCancelled +:+ NL.

Definition scratch_trace : list h_event :=
  [ev CpHealthz (Ok tt); ev CpReadyz (Ok tt); ev CpMe (Ok tt);
   ev DoctorCredentials (Ok [mkRow "main" "bearer" "inference" ["h"] None]); ev HarnessBaseUrl (Ok "https://h"); ev HarnessHealth (Ok tt);
   ev (CreateScratch "main") (Ok ("s1", "t1")); ev (ProbeTrust "t1" "s1") (Throw TurnCancelled); ev (DeleteScratch "s1") tt;
   ev (Print (PText scratch_report)) tt].

Lemma doctor_cleans_up_witness :
  runs (cmdDoctor id healthy 5 false) scratch_trace (Ok 1) ∧ omap scratch_made scratch_trace = omap scratch_deleted scratch_trace.
Proof.
  assert (H : runs (cmdDoctor id healthy 5 false) scratch_trace (Ok 1)) by repeat constructor.
  split; [exact H|]. exact (proj1 (doctor_cleans_up _ _ _ _ _ _ H)).
Defined.

(** *** Exit codes *)

(** The answer to a request that changes something on the control plane. *)
Definition mutated (e : h_event) : option bool :=
  match e with existT c r =>
    match c return h_reply c → option bool with
    | RemoveSession _ => fun r => Some (match r with Ok _ => true | Throw _ => false end)
    | PutCredential _ _ => fun r => Some (match r with Ok _ => true | Throw _ => false end)
    | DeleteCredential _ => fun r => Some (match r with Ok _ => true | Throw _ => false end)
    | _ => fun _ => None
    end r
  end.

Definition reports (tr : list h_event) (code : Z) : Prop :=
  (code = 0 ↔ omap mutated tr = [true]) ∧ (length (omap mutated tr) ≤ 1)%nat ∧ (code = 0 ∨ code = 1 ∨ code = 2 ∨ code = 130).

Lemma ready_runs conn now tr o : runs (ready conn now) tr o → omap mutated tr = [] ∧ ∃ b, o = Ok b.
Proof.
  unfold ready. intros Hr. destruct (c_cp conn), (c_harness conn); [destruct (token_valid conn now)|..];
    first [apply runs_inv in Hr as [-> ->]|apply runs_inv in Hr as (? & ? & -> & [-> ->]%runs_inv)]; by eauto.
Qed.

Lemma failed_reports strip e t0 tr code :
  runs (failed strip e) tr (Ok code) → omap mutated t0 ≠ [true] → (length (omap mutated t0) ≤ 1)%nat → reports (t0 ++ tr) code.
Proof.
  intros Hr Hne Hl. unfold reports. rewrite omap_app. destruct e as [|e]; simpl in Hr.
  - apply runs_inv in Hr as [-> [= ->]]. simpl. rewrite app_nil_r. split_and!; [split; congruence|done|auto].
  - apply runs_inv in Hr as (? & ? & -> & [-> [= ->]]%runs_inv). simpl. rewrite app_nil_r. split_and!; [split; congruence|done|auto].
Qed.

(** The end of a command that was refused, or that has nothing to say. *)
Lemma ret_reports t0 code :
  omap mutated t0 = [] → code = 1 ∨ code = 2 → reports t0 code.
Proof. intros E Hc. unfold reports. rewrite E. split_and!; [split; intros; by destruct Hc; subst|simpl; lia|tauto]. Qed.

Lemma success_reports t0 : omap mutated t0 = [true] → reports t0 0.
Proof. intros E. unfold reports. rewrite E. split_and!; [done|simpl; lia|auto]. Qed.

Lemma step_in {A} t0 c (k : h_reply c → h_prog A) t1 o :
  runs (Call c k) t1 o →
  ∃ r t2, t0 ++ t1 = (t0 ++ [ev c r]) ++ t2 ∧ runs (k r) t2 o ∧ omap mutated (t0 ++ [ev c r]) = omap mutated t0 ++ omap mutated [ev c r].
Proof. intros (r & t2 & -> & Hr)%runs_inv. exists r, t2. by rewrite <-app_assoc, omap_app. Qed.

(** The next call of the command joins what it has done. *)
Ltac advance r :=
  match goal with Hr : runs _ _ (Ok _) |- reports _ _ => unfold hdo in Hr; cbn [pbind] in Hr end;
  match goal with
  | Hr : runs (Call ?c ?k) ?t1 _, H0 : omap mutated ?t0 = _ |- reports (?t0 ++ ?t1) _ =>
      let t2 := fresh "t" in let E := fresh in let Hm := fresh in let Hn := fresh in
      destruct (step_in t0 c k t1 _ Hr) as (r & t2 & E & Hn & Hm); rewrite E; clear E Hr; rename Hn into Hr;
      rewrite H0 in Hm; clear H0; rename Hm into H0; cbn [pbind] in Hr;
      revert H0; generalize (t0 ++ [ev c r]); clear t0; intros t0 H0
  end.

Ltac finish :=
  match goal with Hr : runs _ _ (Ok _) |- reports _ _ => cbn [pbind] in Hr end;
  match goal with
  | Hr : runs (Ret _) _ _, H0 : omap mutated _ = _ |- _ =>
      apply runs_inv in Hr as [-> [= ->]]; rewrite app_nil_r;
      first [by apply ret_reports; [exact H0|auto]|apply success_reports; exact H0]
  | Hr : runs (failed _ _) _ _, H0 : omap mutated _ = _ |- _ =>
      eapply failed_reports; [exact Hr|rewrite H0; simpl; congruence|rewrite H0; simpl; lia]
  end.

(** A command that changes something exits with 0 if and only if the control plane has confirmed
    the change; it asks for at most one, and not before its own checks have passed. *)
Theorem exit_code_tells `{Credentials.URLs} strip conn now tr code name kind consumer hosts endpoint tty json id :
  runs (cmdCredentialAdd strip conn now name kind consumer hosts endpoint json tty) tr (Ok code)
  ∨ runs (cmdCredentialDelete strip conn now name json) tr (Ok code)
  ∨ runs (cmdSessionDelete strip conn now id json) tr (Ok code) →
  reports tr code.
Proof.
  assert (Hstart : ∀ (k : bool → h_prog Z), runs (await ok <- ready conn now; k ok) tr (Ok code) →
    ∃ ok t0 t1, tr = t0 ++ t1 ∧ omap mutated t0 = [] ∧ runs (k ok) t1 (Ok code)).
  { intros k Hr. apply runs_bind in Hr as [([] & _)|(ok & t0 & t1 & -> & Hk & Hr)]. exists ok, t0, t1. split_and!; [done| |done].
    by apply (ready_runs _ _ _ _ Hk). }
  intros [Hr|[Hr|Hr]]; apply Hstart in Hr as (ok & t0 & t1 & -> & H0 & Hr); clear Hstart; destruct ok; cbn [negb] in Hr; try finish.
  - destruct (if bool_decide (is_Some endpoint) && _ then _ else _) as [problem|] in Hr; [advance r; finish|].
    destruct tty; [advance r; finish|]. advance r. advance r'. destruct r' as [text|e]; [|finish].
    destruct (secretFromStdin kind text) as [sec|p]; [|advance r2; finish].
    destruct (credentialProblem _ sec); [advance r2; finish|]. cbn [credentialRequest] in Hr.
    advance p. destruct p as [[]|e]; [|finish]. advance r2. destruct json; [advance r3|]; finish.
  - advance r. destruct r as [owned|e]; [|finish]. destruct (negb _); [advance r2; finish|].
    advance d. destruct d as [[]|e]; [|finish]. advance r2. destruct json; [advance r3|]; finish.
  - advance r. destruct r as [d|e]; [|finish]. advance r2. destruct json; [advance r3|]; finish.
Qed.

Definition removal_trace : list h_event :=
  [ev (RemoveSession "s1") (Ok accepted); ev (Complain "deleting session s1; the control plane finishes in the background") tt].

Lemma exit_code_tells_witness :
  runs (cmdSessionDelete id healthy 5 "s1" false) removal_trace (Ok 0) ∧ reports removal_trace 0.
Proof.
  assert (H : runs (cmdSessionDelete id healthy 5 "s1" false) removal_trace (Ok 0)) by repeat constructor.
  split; [exact H|].
  apply (exit_code_tells (H := fun _ => None) id healthy 5 removal_trace 0 "" "" "" [] None false false "s1"). right. right. exact H.
Defined.

Definition submitted_run (e : h_event) : option (list SessionEvent) :=
  match e with existT c r =>
    match c return h_reply c → option (list SessionEvent) with SubmitAndWait _ _ => fun r => Some r | _ => fun _ => None end r
  end.

Lemma ready_submits conn now tr o : runs (ready conn now) tr o → omap submitted_run tr = [].
Proof.
  unfold ready. intros Hr. destruct (c_cp conn), (c_harness conn); [destruct (token_valid conn now)|..];
    first [by apply runs_inv in Hr as [-> _]|by apply runs_inv in Hr as (? & ? & -> & [-> _]%runs_inv)].
Qed.

Lemma resolve_submits fields given lastUsed values tr o : runs (resolve_fields fields given lastUsed values) tr o → omap submitted_run tr = [].
Proof.
  revert values tr. induction fields as [|f fs IH]; intros values tr Hr; cbn [resolve_fields] in Hr; [by apply runs_inv in Hr as [-> _]|].
  apply runs_inv in Hr as (c & t & -> & Hr). cbn [pbind] in Hr. destruct c as [choices|e]; [|by apply runs_inv in Hr as [-> _]].
  destruct (resolve_field _ _ _ _) as [[v|]|r]; [exact (IH _ _ Hr)|exact (IH _ _ Hr)|by apply runs_inv in Hr as [-> _]].
Qed.

Lemma open_submits strip session options lastUsed tr s :
  runs (open_session strip session options lastUsed) tr (Ok s) → omap submitted_run tr = [] ∧ match s with inr c => c = 1 ∨ c = 2 | inl _ => True end.
Proof.
  assert (Hret : ∀ (x : string + Z) t, runs (Ret x : h_prog _) t (Ok s) → omap submitted_run t = [] ∧ s = x)
    by (intros x t [-> [= ->]]%runs_inv; done).
  assert (Hsay : ∀ m (x : string + Z) t, runs (await _ <- hdo (Complain m); Ret x) t (Ok s) → omap submitted_run t = [] ∧ s = x)
    by (intros m x t (? & ? & -> & [-> [= ->]]%runs_inv)%runs_inv; done).
  intros Hr. assert (Hnew : ∀ t, runs (open_session strip None options lastUsed) t (Ok s) →
    omap submitted_run t = [] ∧ match s with inr c => c = 1 ∨ c = 2 | inl _ => True end).
  { intros t Ht. apply runs_bind in Ht as [([] & _)|(r & t0 & t1 & -> & Ha & Ht)]. rewrite omap_app, (resolve_submits _ _ _ _ _ _ Ha).
    destruct r as [[values|f l d|f]|e]; try (apply Hsay in Ht as [-> ->]; by auto).
    apply runs_inv in Ht as (r & t2 & -> & Ht). cbn [pbind] in Ht. destruct r as [id|e]; [by apply Hret in Ht as [Ht ->]|].
    destruct (fieldRefusedByServer _ _); apply Hsay in Ht as [Ht ->]; (split; [exact Ht|auto]). }
  destruct session as [[|c id]|]; [by apply Hnew| |by apply Hnew]. cbn [open_session] in Hr.
  apply runs_inv in Hr as (r & t & -> & Hr). cbn [pbind] in Hr.
  destruct r as [i|e]; [apply Hret in Hr as [Hr ->]|apply Hsay in Hr as [Hr ->]]; (split; [exact Hr|auto]).
Qed.

Definition code_of (o : outcome) : Z := match o with o_done => 0 | o_error _ => 1 | o_cancelled => 130 end.

Lemma listen_submits strip json es tr o : runs (listen strip json es) tr o → omap submitted_run tr = [].
Proof.
  revert tr. induction es as [|e es IH]; intros tr Hr; cbn [listen] in Hr; [by apply runs_inv in Hr as [-> _]|].
  apply runs_bind in Hr as [([] & _)|(u & t1 & t2 & -> & He & Hr)]. rewrite omap_app, (IH _ Hr), app_nil_r.
  destruct e as [|f| | |]; try (by apply runs_inv in He as [-> _]); try (by apply runs_inv in He as (? & ? & -> & [-> _]%runs_inv)).
  destruct json; [by apply runs_inv in He as (? & ? & -> & [-> _]%runs_inv)|].
  destruct (frame_text f); [by apply runs_inv in He as (? & ? & -> & [-> _]%runs_inv)|by apply runs_inv in He as [-> _]].
Qed.

Lemma run_exits strip conn now prompt session options lastUsed json tr code :
  runs (cmdRun strip conn now prompt session options lastUsed json) tr (Ok code) →
  match omap submitted_run tr with
  | [] => code = 1 ∨ code = 2 ∨ code = 130
  | [es] => code = code_of (final_outcome es)
  | _ => False
  end.
Proof.
  unfold cmdRun. intros Hr. apply runs_bind in Hr as [([] & _)|(ok & t0 & t1 & -> & Hk & Hr)].
  rewrite omap_app, (ready_submits _ _ _ _ Hk), app_nil_l. clear Hk. destruct ok; cbn [negb] in Hr; [|apply runs_inv in Hr as [-> [= ->]]; simpl; auto].
  apply runs_bind in Hr as [([] & _)|(s & t2 & t3 & -> & Hs & Hr)]. apply open_submits in Hs as [Es Hs]. rewrite omap_app, Es, app_nil_l.
  destruct s as [id|c]; [|apply runs_inv in Hr as [-> [= ->]]; simpl; naive_solver]. clear Hs Es.
  apply runs_inv in Hr as (u & t4 & -> & Hr). cbn [pbind] in Hr.
  apply runs_bind in Hr as [([] & _)|(u' & t5 & t6 & -> & Hj & Hr)].
  assert (Ej : omap submitted_run t5 = []) by (destruct json; [by apply runs_inv in Hj as (? & ? & -> & [-> _]%runs_inv)|by apply runs_inv in Hj as [-> _]]).
  change (omap submitted_run (ev (Complain ("session " +:+ id)) u :: t5 ++ t6)) with (omap submitted_run (t5 ++ t6)).
  rewrite omap_app, Ej, app_nil_l. clear Hj Ej. apply runs_inv in Hr as (ab & t7 & -> & Hr). cbn [pbind] in Hr.
  destruct ab; [apply runs_inv in Hr as [-> [= ->]]; simpl; auto|]. apply runs_inv in Hr as (es & t8 & -> & Hr). cbn [pbind] in Hr.
  change (omap submitted_run (ev WasAborted false :: ev (SubmitAndWait id prompt) es :: t8)) with ((es : list SessionEvent) :: omap submitted_run t8).
  apply runs_bind in Hr as [([] & _)|(u2 & t9 & t10 & -> & Hl & Hr)]. rewrite omap_app, (listen_submits _ _ _ _ _ Hl), app_nil_l.
  apply runs_bind in Hr as [([] & _)|(u3 & t11 & t12 & -> & Hp & Hr)]. rewrite omap_app.
  assert (Ep : omap submitted_run t11 = []) by (destruct json; [by apply runs_inv in Hp as [-> _]|by apply runs_inv in Hp as (? & ? & -> & [-> _]%runs_inv)]).
  rewrite Ep, app_nil_l. destruct (final_outcome es) as [|e|]; [apply runs_inv in Hr as [-> [= ->]]; done| |apply runs_inv in Hr as [-> [= ->]]; done].
  apply runs_inv in Hr as (? & ? & -> & [-> [= ->]]%runs_inv). done.
Qed.

Definition not_queue (e : SessionEvent) : bool := match e with QueueSize _ => false | _ => true end.

(** [mocactl run] exits as the turn ended.  At most one prompt is submitted; when its session emits
    the events of a turn of the client, between changes of its queue, the exit code is 130 if
    the turn was cancelled, and otherwise 0 or 1 as it ended; when none is submitted the
    code is not 0. *)
Theorem run_exit_tells strip conn now prompt session options lastUsed json tr code :
  runs (cmdRun strip conn now prompt session options lastUsed json) tr (Ok code) →
  (omap submitted_run tr = [] ∧ code ≠ 0)
  ∨ ∃ es, omap submitted_run tr = [es] ∧ code = code_of (final_outcome es)
      ∧ ∀ margin n tok resend tr' b tok',
          runs (runTurn margin prompt n tok resend) tr' (Ok (Some b, tok')) →
          filter (fun e => not_queue e = true) es = omap emits tr' →
          (code = 130 ↔ b = true) ∧ ∃ o, last (omap emits tr') = Some (TurnEnd o) ∧ code = code_of o.
Proof.
  intros Hr. pose proof (run_exits _ _ _ _ _ _ _ _ _ _ Hr) as H. destruct (omap submitted_run tr) as [|es [|]]; [left; naive_solver|right|done].
  exists es. split_and!; [done|done|]. intros margin n tok resend tr' b tok' Ht Hes.
  apply runTurn_ok in Ht as (c & tk & [= <- <-] & Hok). destruct (tk_events _ _ _ _ _ Hok) as (mid & fin & E & Hm & _ & (o & -> & Ho)).
  assert (Hfin : final_outcome es = o).
  { unfold final_outcome. replace (omap turn_outcome es) with (omap turn_outcome (filter (fun e => not_queue e = true) es)).
    - rewrite Hes, E. change (TurnStart prompt :: mid ++ [TurnEnd o]) with ((TurnStart prompt :: mid) ++ [TurnEnd o]).
      rewrite omap_app. cbn [omap list_omap turn_outcome]. by rewrite last_snoc.
    - clear. induction es as [|e es IH]; [done|].
      destruct e; first [rewrite filter_cons_True by done|rewrite filter_cons_False by done]; first [exact IH|exact (f_equal (cons _) IH)]. }
  rewrite Hfin in H. split.
  - rewrite H. destruct o; simpl; destruct Ho as [Ho1 Ho2]; split; intros X; try done; try (by apply Ho2); specialize (Ho1 X); done.
  - exists o. split; [|done]. rewrite E. change (TurnStart prompt :: mid ++ [TurnEnd o]) with ((TurnStart prompt :: mid) ++ [TurnEnd o]).
    apply last_snoc.
Qed.

(** A resumed session whose turn is cancelled. *)
Definition cancelled_events : list SessionEvent :=
  [QueueSize 1; QueueSize 0; TurnStart "hi"; FrameEvent example_frame; TurnEnd o_cancelled].

Definition run_trace : list h_event :=
  [ev (ResumeSession "s1") (Ok "s1"); ev (Complain "session s1") tt; ev WasAborted false;
   ev (SubmitAndWait "s1" "hi") cancelled_events; ev (Print (PText NL)) tt].

Lemma run_exit_tells_witness :
  runs (cmdRun id healthy 5 "hi" (Some "s1") [] [] false) run_trace (Ok 130) ∧ (130 = 130 ↔ true = true).
Proof.
  assert (H : runs (cmdRun id healthy 5 "hi" (Some "s1") [] [] false) run_trace (Ok 130)) by repeat constructor.
  assert (Ht : runs (runTurn 30 "hi" 5 (mkSToken "old" 100) false) refused_once (Ok (Some true, mkSToken "new" 100))) by repeat constructor.
  split; [exact H|]. destruct (run_exit_tells _ _ _ _ _ _ _ _ _ _ H) as [[E _]|(es & E & _ & Hes)]; [discriminate E|].
  injection E as <-. exact (proj1 (Hes _ _ _ _ _ _ _ Ht eq_refl)).
Defined.

(** ** The command line *)

(** The options that [parseArgs] found; what it refuses exits with 2. *)
Record CliValues := mkCli {
  cv_help : bool; cv_json : bool; cv_new : bool; cv_setup : bool; cv_noAnimation : bool;
  cv_session : option string; cv_option : list string;
  cv_kind : option string; cv_consumer : option string; cv_host : list string; cv_endpoint : option string;
}.

Inductive cli_action :=
| do_help
| do_exit (code : Z)
| do_login
| do_doctor (json : bool)
| do_run (prompt : string) (session : option string) (options : list (string * string)) (json : bool)
| do_sessions (json : bool)
| do_session_delete (id : string) (json : bool)
| do_credentials (json : bool)
| do_credential_add (name kind consumer : string) (hosts : list string) (endpoint : option string) (json : bool)
| do_credential_delete (name : string) (json : bool)
| do_interactive (setup noAnimation : bool).

(** A flag that only [credentials add] takes. *)
Definition stray_flag (v : CliValues) : bool :=
  bool_decide (is_Some (cv_kind v)) || bool_decide (is_Some (cv_consumer v)) || negb (bool_decide (length (cv_host v) = 0%nat))
  || bool_decide (is_Some (cv_endpoint v)).

(** [.flatMap((h) => h.split(',').map((x) => x.trim())).filter(Boolean)] *)
Definition host_flags (l : list string) : list string := l ≫= parseHosts.

Definition main (v : CliValues) (positionals : list string) (stdinIsTTY : bool) : cli_action :=
  if cv_help v then do_help
  else if negb (match positionals with c :: a :: _ => bool_decide (c = "credentials") && bool_decide (a = "add") | _ => false end)
          && stray_flag v then do_exit 2
  else
    match positionals with
    | [] => if stdinIsTTY then do_interactive (cv_setup v) (cv_noAnimation v) else do_exit 2
    | command :: rest =>
        if bool_decide (command = "login") then do_login
        else if bool_decide (command = "doctor") then do_doctor (cv_json v)
        else if bool_decide (command = "run") then
          let prompt := trim_str (Credentials.join_str " " rest) in
          if bool_decide (prompt = "") then do_exit 2
          else if cv_new v && bool_decide (is_Some (cv_session v)) then do_exit 2
          else match parseOptionFlags (cv_option v) with
               | Some options => do_run prompt (cv_session v) options (cv_json v)
               | None => do_exit 2
               end
        else if bool_decide (command = "sessions") then
          match rest with
          | [] => do_sessions (cv_json v)
          | sub :: args =>
              if negb (bool_decide (sub = "delete")) then do_exit 2
              else match args with [id] => do_session_delete id (cv_json v) | _ => do_exit 2 end
          end
        else if bool_decide (command = "credentials") then
          match rest with
          | [] => do_credentials (cv_json v)
          | sub :: args =>
              if negb (bool_decide (sub = "add")) && negb (bool_decide (sub = "delete")) then do_exit 2
              else match args with
                   | [name] =>
                       if bool_decide (sub = "delete") then do_credential_delete name (cv_json v)
                       else do_credential_add name (default "bearer" (cv_kind v)) (default "inference" (cv_consumer v))
                              (host_flags (cv_host v)) (cv_endpoint v) (cv_json v)
                   | _ => do_exit 2
                   end
          end
        else do_exit 2
    end.

(** A flag of [credentials add] is never silently ignored, and no command line deletes anything
    unless it names one thing to delete. *)
Lemma flags_not_ignored v pos tty :
  cv_help v = false → stray_flag v = true → main v pos tty = do_exit 2 ∨ ∃ args, pos = "credentials" :: "add" :: args.
Proof.
  intros Hh Hs. unfold main. rewrite Hh, Hs. destruct pos as [|c [|a args]]; [by left|by left|].
  destruct (bool_decide (c = "credentials")) eqn:Ec; [|by left]. destruct (bool_decide (a = "add")) eqn:Ea; [|by left].
  apply bool_decide_eq_true in Ec as ->, Ea as ->. right. by exists args.
Qed.
