(* ===== verification/RelayServer.v ===== *)
(** * The relay's server: who may run a command, and how a call ends

    Models [packages/sandbox-relay/src/main.ts]: the two token checks, the gRPC services over
    one relay ([Relay]), and the choice of listeners at start-up.

    An exec call is a consumer of the relay's generator.  [ExecCall] is what its handler keeps
    ([cancelled], [sawExecError], the generator it iterates) together with what the transport
    was told: the events written to the call and how it was ended.  Ends are a list, because
    nothing in the code but its control flow keeps a call from being ended twice.  [serve] is
    one step of the process: a frame or the loss of an attached worker, an incoming call, one
    [next()] of a call's loop, the ['cancelled'] event of a call, an abort. *)

From Stdlib Require Import QArith.
From S2P Require Import Prelude JsNumber Token StableSort Relay.

Local Open Scope Z_scope.

(** ** Tokens *)

Abbreviation environ := (gmap string string).

(** [got.length === want.length && timingSafeEqual(got, want)] on the bytes of both. *)
Definition safe_equal (got want : bytes) : bool :=
  (length got =? length want)%nat && bool_decide (got = want).

Definition sandbox_token_name (k : string) : bool :=
  bool_decide (k = "SH_RELAY_TOKEN") || starts_with (bytes_of "SH_RELAY_TOKEN_") (bytes_of k).

Definition clashes (env : environ) (expected : string) : list string :=
  sort (fun a b => bytes_le (bytes_of a) (bytes_of b))
    (List.filter (fun k => sandbox_token_name k && bool_decide (env !! k = Some expected)) (map_to_list env).*1).

Fixpoint join (sep : string) (l : list string) : string :=
  match l with
  | [] => ""
  | [x] => x
  | x :: l' => x +:+ sep +:+ join sep l'
  end.

Definition makeExecTokenValidator (env : environ) : result string (option string → bool) :=
  match truthy_str (env !! "MOCA_RELAY_EXEC_TOKEN") with
  | None => Throw "MOCA_RELAY_EXEC_TOKEN is required: the relay refuses unauthenticated SandboxExec"
  | Some expected =>
      let c := clashes env expected in
      if (0 <? length c)%nat
      then Throw ("MOCA_RELAY_EXEC_TOKEN must differ from every sandbox token, but equals " +:+ join ", " c)
      else Ok (fun presented => match truthy_str presented with
                                | None => false
                                | Some p => safe_equal (bytes_of p) (bytes_of expected)
                                end)
  end.

Definition makeDefaultValidateToken (env : environ) (token : option string) (sandboxId : string) : bool :=
  let expected := match env !! ("SH_RELAY_TOKEN_" +:+ sandboxId) with
                  | Some v => Some v
                  | None => env !! "SH_RELAY_TOKEN"
                  end in
  match truthy_str expected, truthy_str token with
  | Some want, Some got => safe_equal (bytes_of got) (bytes_of want)
  | _, _ => false
  end.

(** A value of [Metadata.get]. *)
Inductive MetadataValue := MStr (s : bytes) | MBuf (b : bytes).

(** [md] is [md.get('authorization')]. *)
Definition bearerOf (md : list MetadataValue) : option string :=
  match md with
  | MStr v :: _ => if starts_with (bytes_of "Bearer ") v then Some (string_of (drop 7 v)) else None
  | _ => None
  end.

(** ** How a call ends *)

Inductive grpc_status := INTERNAL | INVALID_ARGUMENT | UNAUTHENTICATED.

(** An [Error], with the [code] and [details] some are given. *)
Record RpcError := mkRpcError {
  code : option grpc_status;
  details : option string;
  message : string;
}.

(** [call.end()], and [failExecStream]. *)
Inductive call_end := Ended | Failed (e : RpcError).

Definition execStreamError (m : string) : RpcError := mkRpcError (Some INTERNAL) (Some m) m.

Definition unauthenticated : RpcError :=
  mkRpcError (Some UNAUTHENTICATED) (Some "exec authentication failed") "exec authentication failed".

Definition missing_exec : RpcError :=
  mkRpcError (Some INVALID_ARGUMENT) (Some "ExecRequest missing exec field") "ExecRequest missing exec field".

(** The errors [routeExec] throws. *)
Definition thrown_by_route (e : relay_error) : RpcError :=
  mkRpcError None None
    match e with
    | NoLiveWorker id => "no live worker for sandbox '" +:+ id +:+ "'"
    | ReqIdInFlight r id =>
        "req_id " +:+ string_of (dec_signed r) +:+ " already in flight for sandbox '" +:+ id
        +:+ "': refusing to overwrite the live sink (a collision would detach the first caller and interleave both execs' output — see #179)"
    end.

(** ** The server *)

Record ExecCall := mkCall {
  c_sandbox : string;
  c_req : Z;
  c_gen : option nat;                  (* the generator the handler iterates, while it does *)
  c_listening : bool;                  (* the ['cancelled'] listener *)
  c_cancelled : bool;
  c_sawExecError : bool;
  c_execErrorMessage : string;
  c_written : list ExecEvent;          (* [call.write] *)
  c_ends : list call_end;
}.

Record ExecRequest := mkExecRequest {
  r_sandboxId : string;
  r_exec : option Z;                   (* the request id of the [exec] field *)
}.

Record Serve := mkServe {
  s_relay : RelayState;
  s_calls : gmap nat ExecCall;
  s_next : nat;
}.

Definition serve_init : Serve := mkServe relay_init ∅ 0.

(** What a step does outside the process, apart from the calls' own streams. *)
Inductive serve_effect :=
| Relayed (e : relay_effect)
| AbortReply (err : option RpcError).

Inductive request :=
| Frame (s : nat) (header : option bytes) (f : WorkerFrame)
| Lost (s : nat)
| ExecRpc (md : list MetadataValue) (req : ExecRequest)
| Next (cid : nat)
| Cancelled (cid : nat)
| AbortRpc (md : list MetadataValue) (sandboxId : string) (reqId : Z).

Definition set_call (cid : nat) (c : ExecCall) (st : Serve) : Serve :=
  mkServe (s_relay st) (<[cid := c]> (s_calls st)) (s_next st).

Definition new_call (c : ExecCall) (rs : RelayState) (st : Serve) : Serve :=
  mkServe rs (<[s_next st := c]> (s_calls st)) (S (s_next st)).

(** A call whose handler ends it before its loop starts. *)
Definition refused (sandbox : string) (req : Z) (e : RpcError) : ExecCall :=
  mkCall sandbox req None false false false "" [] [Failed e].

Section Server.
Variable validateToken : option string → string → bool.
Variable validateExecToken : option string → bool.

(** ['data'] on an attached worker's stream. *)
Definition on_frame (s : nat) (header : option bytes) (f : WorkerFrame) (st : Serve) : Serve * list serve_effect :=
  let valid := match f with Hello id => validateToken (string_of <$> bearer header) id | _ => false end in
  let '(rs, effs) := onFrame valid s f (s_relay st) in
  (mkServe rs (s_calls st) (s_next st), Relayed <$> effs).

Definition on_lost (s : nat) (st : Serve) : Serve * list serve_effect :=
  let '(rs, effs) := teardown s (s_relay st) in
  (mkServe rs (s_calls st) (s_next st), Relayed <$> effs).

(** The [exec] handler up to its loop, whose first [next()] runs [routeExec]'s start. *)
Definition exec (md : list MetadataValue) (req : ExecRequest) (st : Serve) : Serve * list serve_effect :=
  if negb (validateExecToken (bearerOf md))
  then (new_call (refused (r_sandboxId req) 0 unauthenticated) (s_relay st) st, [])
  else match r_exec req with
       | None => (new_call (refused (r_sandboxId req) 0 missing_exec) (s_relay st) st, [])
       | Some reqId =>
           match routeExec (r_sandboxId req) reqId (s_relay st) with
           | Throw e => (new_call (refused (r_sandboxId req) reqId (thrown_by_route e)) (s_relay st) st, [])
           | Ok (gid, rs, effs) =>
               (new_call (mkCall (r_sandboxId req) reqId (Some gid) true false false "" [] []) rs st, Relayed <$> effs)
           end
       end.

(** The body of the loop. *)
Definition forward (ev : ExecEvent) (c : ExecCall) : ExecCall :=
  let '(saw, msg) := match ev with
                     | EError m => (true, m)
                     | _ => (c_sawExecError c, c_execErrorMessage c)
                     end in
  mkCall (c_sandbox c) (c_req c) (c_gen c) (c_listening c) (c_cancelled c) saw msg (c_written c ++ [ev]) (c_ends c).

(** After the loop, with the [finally] block. *)
Definition conclude (c : ExecCall) : ExecCall :=
  let o := if c_sawExecError c && negb (c_cancelled c) then Failed (execStreamError (c_execErrorMessage c)) else Ended in
  mkCall (c_sandbox c) (c_req c) None false (c_cancelled c) (c_sawExecError c) (c_execErrorMessage c)
    (c_written c) (c_ends c ++ [o]).

(** One [next()] of the loop of call [cid]. *)
Definition next (cid : nat) (st : Serve) : Serve :=
  match s_calls st !! cid with
  | None => st
  | Some c =>
      match gid ← c_gen c; pull gid (s_relay st) with
      | None | Some (Wait, _) => st
      | Some (Yield ev, rs) => set_call cid (forward ev c) (mkServe rs (s_calls st) (s_next st))
      | Some (Return, rs) => set_call cid (conclude c) (mkServe rs (s_calls st) (s_next st))
      end
  end.

Definition onCancelled (cid : nat) (st : Serve) : Serve * list serve_effect :=
  match s_calls st !! cid with
  | Some c =>
      if c_listening c
      then (set_call cid (mkCall (c_sandbox c) (c_req c) (c_gen c) (c_listening c) true (c_sawExecError c)
                            (c_execErrorMessage c) (c_written c) (c_ends c)) st,
            Relayed <$> routeAbort (c_sandbox c) (c_req c) (s_relay st))
      else (st, [])
  | None => (st, [])
  end.

Definition abort (md : list MetadataValue) (sandboxId : string) (reqId : Z) (st : Serve) : list serve_effect :=
  if negb (validateExecToken (bearerOf md)) then [AbortReply (Some unauthenticated)]
  else (Relayed <$> routeAbort sandboxId reqId (s_relay st)) ++ [AbortReply None].

Definition serve (q : request) (st : Serve) : Serve * list serve_effect :=
  match q with
  | Frame s h f => on_frame s h f st
  | Lost s => on_lost s st
  | ExecRpc md req => exec md req st
  | Next cid => (next cid st, [])
  | Cancelled cid => onCancelled cid st
  | AbortRpc md id r => (st, abort md id r st)
  end.

(** A history of the process, with everything it did. *)
Fixpoint serve_all (qs : list request) (st : Serve) : Serve * list serve_effect :=
  match qs with
  | [] => (st, [])
  | q :: qs' =>
      let '(st1, e1) := serve q st in
      let '(st2, e2) := serve_all qs' st1 in
      (st2, e1 ++ e2)
  end.

Definition serves (qs : list request) : Serve * list serve_effect := serve_all qs serve_init.
End Server.

(** ** Start-up *)

Inductive service := SandboxWorker | SandboxExec.

(** [0.0.0.0:${port}], or an address as configured. *)
Inductive address := Wildcard (port : jsnum Q) | At (addr : string).

(** The listeners, in the order they are bound, each with its address and services. *)
Definition listeners (optPort : option (jsnum Q)) (optExecAddr : option string) (env : environ) :
    list (address * list service) :=
  let port := match optPort with
              | Some p => p
              | None => match env !! "SH_RELAY_PORT" with Some s => Number (bytes_of s) | None => Fin (inject_Z 8443) end
              end in
  let attachAddr := Wildcard port in
  let execAddr := match optExecAddr with Some a => Some a | None => env !! "MOCA_RELAY_EXEC_ADDR" end in
  match truthy_str execAddr with
  | None => [(attachAddr, [SandboxWorker; SandboxExec])]
  | Some a => [(attachAddr, [SandboxWorker]); (At a, [SandboxExec])]
  end.

(** [bindAsync] of each in turn; the first refusal ends the start, with what was bound before it. *)
Fixpoint bind_all (bind : address → result string Z) (ls : list (address * list service)) :
    list (address * Z) * option string :=
  match ls with
  | [] => ([], None)
  | (addr, _) :: ls' =>
      match bind addr with
      | Throw e => ([], Some e)
      | Ok p => let '(bound, e) := bind_all bind ls' in ((addr, p) :: bound, e)
      end
  end.

Record Started := mkStarted {
  st_validateToken : option string → string → bool;
  st_validateExec : option string → bool;
  st_listeners : list (address * list service);
  st_ports : list (address * Z);
}.

(** [startRelay] without injected dependencies. *)
Definition startRelay (optPort : option (jsnum Q)) (optExecAddr : option string) (env : environ)
    (bind : address → result string Z) : result string Started :=
  try v <- makeExecTokenValidator env;
  let ls := listeners optPort optExecAddr env in
  match bind_all bind ls with
  | (_, Some e) => Throw e
  | (ports, None) => Ok (mkStarted (makeDefaultValidateToken env) v ls ports)
  end.

(** ** Generators under a call *)

(** [g'] is [g] after some events reached its sink. *)
Definition fed (g g' : Gen) : Prop := ∃ evs, g' = foldl (fun g ev => sink ev g) g evs.

#[export] Instance fed_refl : Reflexive fed.
Proof. intros g. by exists []. Qed.

#[export] Instance fed_trans : Transitive fed.
Proof. intros g1 g2 g3 [l1 ->] [l2 ->]. exists (l1 ++ l2). by rewrite foldl_app. Qed.

Definition gens_fed (m m' : gmap nat Gen) : Prop := ∀ i g, m !! i = Some g → ∃ g', m' !! i = Some g' ∧ fed g g'.

#[export] Instance gens_fed_refl : Reflexive gens_fed.
Proof. intros m i g Hg. by exists g. Qed.

#[export] Instance gens_fed_trans : Transitive gens_fed.
Proof.
  intros m1 m2 m3 H1 H2 i g (g2 & Hg2 & F2)%H1. destruct (H2 _ _ Hg2) as (g3 & Hg3 & F3).
  exists g3. split; [done|]. by etrans.
Qed.

Lemma gens_fed_deliver gid ev st : gens_fed (gens st) (gens (deliver gid ev st)).
Proof.
  intros i g Hg. simpl. rewrite lookup_alter. case_decide as Hi; [subst i|by exists g].
  rewrite Hg. exists (sink ev g). split; [done|]. by exists [ev].
Qed.

Lemma onFrame_feeds valid s f st : gens_fed (gens st) (gens (onFrame valid s f st).1).
Proof. unfold onFrame. repeat split_match; simpl; try done; apply gens_fed_deliver. Qed.

Lemma deliver_all_feeds ev (l : list (Z * nat)) st :
  gens_fed (gens st) (gens (foldl (fun q '(_, gid) => deliver gid ev q) st l)).
Proof.
  revert st. induction l as [|[r gid] l IH]; intros st; [done|]. cbn [foldl].
  etrans; [apply gens_fed_deliver|apply IH].
Qed.

Lemma teardown_feeds s st : gens_fed (gens st) (gens (teardown s st).1).
Proof.
  unfold teardown. destruct (sandbox_of st s) as [id|]; [|done]. simpl. split_match; [|done].
  apply deliver_all_feeds.
Qed.

(** A generator that has its last event still has it to give. *)
Definition gen_ok (g : Gen) : Prop :=
  g_done g = true → g_final g = false → Exists (fun ev => is_terminal ev = true) (g_queue g).

Lemma fed_same g g' : fed g g' →
  g_parked g' = g_parked g ∧ g_req g' = g_req g ∧ g_over g' = g_over g ∧ g_final g' = g_final g
  ∧ (gen_ok g → gen_ok g').
Proof.
  intros [evs ->]. revert g. induction evs as [|ev evs IH]; intros g; [done|]. simpl.
  destruct (IH (sink ev g)) as (-> & -> & -> & -> & Hok). split_and!; try done.
  intros Hg. apply Hok. intros Hd Hf. simpl in *. apply Exists_app. apply orb_true_iff in Hd as [Hd|Hd].
  - left. by apply Hg.
  - right. by constructor.
Qed.

(** ** The invariant of the server *)

Definition chunks (evs : list ExecEvent) : Prop := Forall (fun ev => is_terminal ev = false) evs.

(** The handler's flag and message are those of the call's last event. *)
Definition noted (c : ExecCall) (last : ExecEvent) : Prop :=
  match last with
  | EError m => c_sawExecError c = true ∧ c_execErrorMessage c = m
  | _ => c_sawExecError c = false
  end.

Definition progress (c : ExecCall) (g : Gen) : Prop :=
  if g_final g
  then ∃ evs t, c_written c = evs ++ [t] ∧ chunks evs ∧ is_terminal t = true ∧ noted c t
  else chunks (c_written c) ∧ c_sawExecError c = false.

(** The reasons for which a handler ends a call without having run anything. *)
Definition refusal (e : RpcError) : Prop :=
  e = unauthenticated ∨ e = missing_exec ∨ ∃ re, e = thrown_by_route re.

(** How a call whose last event was [t] has to end. *)
Definition status_of (cancelled : bool) (t : ExecEvent) : call_end :=
  match t with
  | EError m => if cancelled then Ended else Failed (execStreamError m)
  | _ => Ended
  end.

Definition ended_well (c : ExecCall) : Prop :=
  (∃ e, c_ends c = [Failed e] ∧ refusal e ∧ c_written c = [])
  ∨ ∃ evs t, c_written c = evs ++ [t] ∧ chunks evs ∧ is_terminal t = true
             ∧ c_ends c = [status_of (c_cancelled c) t].

Definition running (st : Serve) (c : ExecCall) (gid : nat) : Prop :=
  ∃ g, gens (s_relay st) !! gid = Some g ∧ g_over g = false ∧ gen_ok g ∧ g_req g = c_req c ∧ progress c g
       ∧ c_listening c = true ∧ c_ends c = [].

Record serve_inv (st : Serve) : Prop := {
  sv_relay : relay_inv (s_relay st);
  sv_fresh : ∀ cid, is_Some (s_calls st !! cid) → (cid < s_next st)%nat;
  sv_run : ∀ cid c gid, s_calls st !! cid = Some c → c_gen c = Some gid → running st c gid;
  sv_own : ∀ cid cid' c c' gid, s_calls st !! cid = Some c → s_calls st !! cid' = Some c' →
    c_gen c = Some gid → c_gen c' = Some gid → cid = cid';
  sv_end : ∀ cid c, s_calls st !! cid = Some c → c_gen c = None → c_listening c = false ∧ ended_well c;
}.

Lemma serve_inv_init : serve_inv serve_init.
Proof.
  split; simpl; [apply relay_reach_inv; constructor|intros ? [? ?]; done|done..].
Qed.

Lemma running_fed st rs c gid :
  gens_fed (gens (s_relay st)) (gens rs) → running st c gid → ∀ m n, running (mkServe rs m n) c gid.
Proof.
  intros Hf (g & Hg & Ho & Hok & Hr & Hp & Hl & He) m n. destruct (Hf _ _ Hg) as (g' & Hg' & F).
  destruct (fed_same _ _ F) as (E1 & E2 & E3 & E4 & Hok'). exists g'. unfold progress in *. rewrite E4.
  split_and!; auto; congruence.
Qed.

(** A change of the relay alone that only feeds generators. *)
Lemma serve_inv_relay rs st :
  serve_inv st → relay_inv rs → gens_fed (gens (s_relay st)) (gens rs) →
  serve_inv (mkServe rs (s_calls st) (s_next st)).
Proof.
  intros Hi Hr Hf. split; simpl; try apply Hi; [done|].
  intros cid c gid Hc Hg. eapply running_fed; [done|]. by eapply sv_run.
Qed.

(** A new call that is refused, or one that runs on a new generator. *)
Lemma serve_inv_new c rs st :
  serve_inv st → relay_inv rs → gens_fed (gens (s_relay st)) (gens rs) →
  match c_gen c with
  | Some gid => gens (s_relay st) !! gid = None ∧ running (mkServe rs ∅ 0) c gid
  | None => c_listening c = false ∧ ended_well c
  end → serve_inv (new_call c rs st).
Proof.
  intros Hi Hr Hf Hc.
  assert (Hfresh : ∀ cid c', s_calls st !! cid = Some c' → cid ≠ s_next st).
  { intros cid c' Hc' ->. assert (s_next st < s_next st)%nat by (apply (sv_fresh _ Hi); eauto). lia. }
  assert (Hgen : ∀ cid c' gid, s_calls st !! cid = Some c' → c_gen c' = Some gid → c_gen c ≠ Some gid).
  { intros cid c' gid Hc' Hg' E. rewrite E in Hc. destruct Hc as [Hn _].
    destruct (sv_run _ Hi _ _ _ Hc' Hg') as (g & Hg & _). congruence. }
  split; simpl.
  - done.
  - intros cid. rewrite lookup_insert_is_Some'. intros [<-|H%(sv_fresh _ Hi)]; lia.
  - intros cid c' gid. rewrite lookup_insert. case_decide.
    + intros [= <-] E. rewrite E in Hc. destruct Hc as [_ (g & ?)]. by exists g.
    + intros Hc' Hg'. eapply running_fed; [done|]. by eapply sv_run.
  - intros cid cid' c1 c2 gid. rewrite !lookup_insert. repeat case_decide; subst; try done.
    + intros [= <-] H2 E1 E2. by destruct (Hgen _ _ _ H2 E2).
    + intros H1 [= <-] E1 E2. by destruct (Hgen _ _ _ H1 E1).
    + by apply (sv_own _ Hi).
  - intros cid c'. rewrite lookup_insert. case_decide; [intros [= <-] E; by rewrite E in Hc|apply (sv_end _ Hi)].
Qed.

(** A call replaced by a later state of it, with a change of its own generator alone. *)
Lemma serve_inv_set cid c c' rs st :
  serve_inv st → s_calls st !! cid = Some c → relay_inv rs →
  (∀ i, c_gen c ≠ Some i → gens rs !! i = gens (s_relay st) !! i) →
  match c_gen c' with
  | Some gid => c_gen c = Some gid ∧ running (mkServe rs ∅ 0) c' gid
  | None => c_listening c' = false ∧ ended_well c'
  end → serve_inv (set_call cid c' (mkServe rs (s_calls st) (s_next st))).
Proof.
  intros Hi Hc Hr Hs Hc'. split; simpl.
  - done.
  - intros i. rewrite lookup_insert_is_Some'. intros [<-|H]; apply (sv_fresh _ Hi); eauto.
  - intros i c1 gid. rewrite lookup_insert. case_decide.
    + intros [= <-] E. rewrite E in Hc'. destruct Hc' as [_ (g & ?)]. by exists g.
    + intros H1 Hg. destruct (sv_run _ Hi _ _ _ H1 Hg) as (g & Hgg & ?). exists g. simpl.
      rewrite Hs; [done|]. intros E. by pose proof (sv_own _ Hi _ _ _ _ _ Hc H1 E Hg).
  - intros i j c1 c2 gid. rewrite !lookup_insert. repeat case_decide; subst; try done.
    + intros [= <-] H2 E1 E2. rewrite E1 in Hc'. by eapply (sv_own _ Hi); [..|apply E2]; [done..|apply Hc'].
    + intros H1 [= <-] E1 E2. rewrite E2 in Hc'. by eapply (sv_own _ Hi); [..|apply Hc'].
    + by apply (sv_own _ Hi).
  - intros i c1. rewrite lookup_insert. case_decide; [intros [= <-] E; by rewrite E in Hc'|apply (sv_end _ Hi)].
Qed.

(** What a [next()] does to the generator it runs, and that it leaves the others alone. *)
Lemma pull_spec gid st p rs :
  relay_inv st → pull gid st = Some (p, rs) →
  relay_inv rs ∧ (∀ i, i ≠ gid → gens rs !! i = gens st !! i)
  ∧ ∀ g, gens st !! gid = Some g → g_over g = false →
    match p with
    | Yield ev => ∃ q, g_queue g = ev :: q ∧ g_final g = false
        ∧ gens rs !! gid = Some (mkGen (g_parked g) (g_req g) q (g_done g) (is_terminal ev) false)
    | Return => g_final g = true ∨ g_queue g = [] ∧ g_done g = true
    | Wait => g_final g = false ∧ g_queue g = [] ∧ g_done g = false ∧ rs = st
    end.
Proof.
  intros Hi Hp. split; [eapply relay_step_inv; [done|by eapply relay_pull]|].
  unfold pull in Hp. destruct (gens st !! gid) as [g|]; [|done].
  destruct (g_over g) eqn:Ho; [simplify_eq; by split; [|intros g' [= <-]; congruence]|].
  destruct (g_final g) eqn:Hf.
  { simplify_eq. split; [intros i Hne; simpl; by rewrite lookup_insert_ne|intros g' [= <-] _; auto]. }
  destruct (g_queue g) as [|ev q] eqn:Hq; [destruct (g_done g) eqn:Hd|]; simplify_eq.
  - split; [intros i Hne; simpl; by rewrite lookup_insert_ne|intros g' [= <-] _; auto].
  - split; [done|intros g' [= <-] _; auto].
  - split; [intros i Hne; simpl; by rewrite lookup_insert_ne|]. intros g' [= <-] _. exists q. simpl.
    by rewrite lookup_insert_eq.
Qed.

Lemma forward_progress ev c g q :
  g_final g = false → progress c g →
  progress (forward ev c) (mkGen (g_parked g) (g_req g) q (g_done g) (is_terminal ev) false).
Proof.
  unfold progress. intros -> [Hw Hs]. simpl. destruct (is_terminal ev) eqn:Ht.
  - exists (c_written c), ev. destruct ev; simpl in *; try done; split_and!; done.
  - destruct ev; simpl in *; try done. split; [apply Forall_app; split; [done|by constructor]|done].
Qed.

Lemma conclude_ended c g : g_final g = true → progress c g → c_ends c = [] → ended_well (conclude c).
Proof.
  unfold progress. intros -> (evs & t & Hw & Hch & Ht & Hn) He. right. exists evs, t. simpl.
  rewrite He. split_and!; try done. destruct t as [|x|m]; simpl in *; [done|by rewrite Hn|].
  destruct Hn as [-> ->]. by destruct (c_cancelled c).
Qed.

Lemma inv_next cid st : serve_inv st → serve_inv (next cid st).
Proof.
  intros Hi. unfold next. destruct (s_calls st !! cid) as [c|] eqn:Hc; [|done].
  destruct (c_gen c) as [gid|] eqn:Hg; [|done]. cbn [mbind option_bind].
  destruct (pull gid (s_relay st)) as [[p rs]|] eqn:Hp; [|done].
  destruct (pull_spec _ _ _ _ (sv_relay _ Hi) Hp) as (Hr & Hs & Hspec).
  destruct (sv_run _ Hi _ _ _ Hc Hg) as (g & Hgg & Ho & Hok & Hreq & Hprog & Hl & He).
  specialize (Hspec g Hgg Ho). destruct p as [ev| |]; [| |done].
  - destruct Hspec as (q & Hq & Hf & Hg'). apply (serve_inv_set cid c); [done..|intros i Hne; apply Hs; congruence|].
    assert (Eg : c_gen (forward ev c) = Some gid) by (by destruct ev). rewrite Eg. split; [done|].
    eexists. split; [exact Hg'|]. split_and!; [done| | |by apply forward_progress| |].
    + intros Hd Ht. simpl in *. specialize (Hok Hd Hf). rewrite Hq in Hok.
      apply Exists_cons in Hok as [?|?]; [congruence|done].
    + by destruct ev.
    + by destruct ev.
    + by destruct ev.
  - apply (serve_inv_set cid c); [done..|intros i Hne; apply Hs; congruence|]. simpl. split; [done|].
    destruct Hspec as [Hf|[Hq Hd]]; [by eapply conclude_ended|].
    destruct (g_final g) eqn:Hf; [by eapply conclude_ended|]. specialize (Hok Hd Hf). rewrite Hq in Hok.
    by apply Exists_nil in Hok.
Qed.

Section Serving.
Variable validateToken : option string → string → bool.
Variable validateExecToken : option string → bool.
Abbreviation srv := (serve validateToken validateExecToken).
Abbreviation srv_all := (serve_all validateToken validateExecToken).
Abbreviation history := (serves validateToken validateExecToken).

Lemma inv_exec md req st : serve_inv st → serve_inv (exec validateExecToken md req st).1.
Proof.
  intros Hi. pose proof (sv_relay _ Hi) as Hr.
  assert (Hrefuse : ∀ r e, refusal e → serve_inv (new_call (refused (r_sandboxId req) r e) (s_relay st) st)).
  { intros r e He. apply serve_inv_new; [done..|]. split; [done|]. left. by exists e. }
  unfold exec. destruct (negb _); [apply Hrefuse; by left|].
  destruct (r_exec req) as [r|]; [|apply Hrefuse; right; by left].
  destruct (routeExec (r_sandboxId req) r (s_relay st)) as [[[gid rs] effs]|e] eqn:E;
    [|apply Hrefuse; right; right; by exists e].
  pose proof (inv_routeExec _ _ _ _ _ _ Hr E) as Hrs. unfold routeExec in E. split_matches.
  assert (Hn : gens (s_relay st) !! nextGen (s_relay st) = None).
  { destruct (gens (s_relay st) !! nextGen (s_relay st)) eqn:E; [|done].
    assert (nextGen (s_relay st) < nextGen (s_relay st))%nat by (apply (ri_fresh_gen _ Hr); eauto). lia. }
  apply serve_inv_new; [done..| |].
  - intros i g Hg. exists g. simpl. rewrite lookup_insert_ne; [done|congruence].
  - simpl. split; [done|]. eexists. simpl. rewrite lookup_insert_eq. split_and!; try done.
    split; [apply Forall_nil_2|done].
Qed.

Lemma serve_step_inv q st : serve_inv st → serve_inv (srv q st).1.
Proof.
  intros Hi. pose proof (sv_relay _ Hi) as Hr. destruct q as [s h f|s|md req|cid|cid|md id r]; simpl.
  - unfold on_frame.
    destruct (onFrame _ s f (s_relay st)) as [rs effs] eqn:E. simpl. apply serve_inv_relay; [done|..].
    + change rs with (rs, effs).1. rewrite <-E. by apply inv_onFrame.
    + change rs with (rs, effs).1. rewrite <-E. apply onFrame_feeds.
  - unfold on_lost. destruct (teardown s (s_relay st)) as [rs effs] eqn:E. simpl. apply serve_inv_relay; [done|..].
    + change rs with (rs, effs).1. rewrite <-E. by apply inv_teardown.
    + change rs with (rs, effs).1. rewrite <-E. apply teardown_feeds.
  - by apply inv_exec.
  - by apply inv_next.
  - unfold onCancelled. destruct (s_calls st !! cid) as [c|] eqn:Hc; [|done].
    destruct (c_listening c) eqn:Hl; [|done]. simpl.
    replace st with (mkServe (s_relay st) (s_calls st) (s_next st)) at 1 by (by destruct st).
    apply (serve_inv_set cid c); [done..|]. simpl. destruct (c_gen c) as [gid|] eqn:Hg.
    + split; [done|]. destruct (sv_run _ Hi _ _ _ Hc Hg) as (g & ? & ? & ? & ? & ? & _ & ?). by exists g.
    + destruct (sv_end _ Hi _ _ Hc Hg) as [? _]. congruence.
  - done.
Qed.

Lemma serve_all_cons q qs st : (srv_all (q :: qs) st).1 = (srv_all qs (srv q st).1).1.
Proof. simpl. destruct (srv q st). simpl. by destruct (srv_all qs s). Qed.

Lemma serve_all_inv qs st : serve_inv st → serve_inv (srv_all qs st).1.
Proof.
  revert st. induction qs as [|q qs IH]; intros st Hi; [done|]. rewrite serve_all_cons.
  by apply IH, serve_step_inv.
Qed.

Lemma history_inv qs : serve_inv (history qs).1.
Proof. apply serve_all_inv, serve_inv_init. Qed.

(** ** How calls end *)

(** C32. A call is ended exactly when its handler returns, once, and the way it is ended is
    the outcome of the exec: without a word when it was refused, and otherwise after one last
    event, the call succeeds if the command exited and fails with the worker's message if the
    exec failed, unless the caller had cancelled.  From then on a ['cancelled'] event of it
    neither reaches a worker nor changes anything. *)
Theorem call_status qs cid c :
  s_calls (history qs).1 !! cid = Some c →
  match c_gen c with
  | Some _ => c_ends c = []
  | None => ended_well c ∧ srv (Cancelled cid) (history qs).1 = ((history qs).1, [])
  end.
Proof.
  intros Hc. pose proof (history_inv qs) as Hi. destruct (c_gen c) as [gid|] eqn:Hg.
  - by destruct (sv_run _ Hi _ _ _ Hc Hg) as (g & _ & _ & _ & _ & _ & _ & ?).
  - destruct (sv_end _ Hi _ _ Hc Hg) as [Hl He]. split; [done|]. simpl. unfold onCancelled. by rewrite Hc, Hl.
Qed.

Lemma next_ended n cid c st :
  s_calls st !! cid = Some c → c_gen c = None → (srv_all (replicate n (Next cid)) st).1 = st.
Proof.
  intros Hc Hg. induction n as [|n IH]; [done|]. cbn [replicate]. rewrite serve_all_cons. simpl.
  unfold next at 1. by rewrite Hc, Hg.
Qed.

(** Once a call's last event is on its way, the call's own loop ends it. *)
Lemma drained n cid c gid g st :
  serve_inv st → s_calls st !! cid = Some c → c_gen c = Some gid → gens (s_relay st) !! gid = Some g →
  g_done g = true → (length (g_queue g) < n)%nat →
  ∃ c', s_calls (srv_all (replicate n (Next cid)) st).1 !! cid = Some c' ∧ c_gen c' = None.
Proof.
  revert c g st. induction n as [|n IH]; intros c g st Hi Hc Hg Hgg Hd Hn; [lia|].
  cbn [replicate]. rewrite serve_all_cons. simpl.
  pose proof (inv_next cid st Hi) as Hi'.
  destruct (sv_run _ Hi _ _ _ Hc Hg) as (g0 & Hg0 & Ho & Hok & _). assert (g0 = g) as -> by congruence.
  assert (Hpull : ∃ p rs, pull gid (s_relay st) = Some (p, rs)).
  { unfold pull. rewrite Hgg. repeat split_match; eauto. }
  destruct Hpull as (p & rs & Hp). destruct (pull_spec _ _ _ _ (sv_relay _ Hi) Hp) as (_ & _ & Hspec).
  specialize (Hspec g Hgg Ho). unfold next in Hi' |- *. rewrite Hc, Hg in *. cbn [mbind option_bind] in *.
  rewrite Hp in *. destruct p as [ev| |].
  - destruct Hspec as (q & Hq & Hf & Hg'). rewrite Hq in Hn. simpl in Hn.
    eapply (IH (forward ev c)); [done|by apply lookup_insert_eq| |exact Hg'|done|simpl; lia].
    by destruct ev.
  - exists (conclude c). erewrite next_ended; [split; [by apply lookup_insert_eq|done]|by apply lookup_insert_eq|done].
  - destruct Hspec as (_ & _ & ? & _). congruence.
Qed.

(** C36. No call hangs on a worker that is gone, if that worker gave an id that is not empty.  At
    any point of any history, the last event of a running call has arrived or the call's worker
    still has its session; the first means that the call's own loop ends it, and so does, in the
    second case, the loss of a stream that attached under that session's id, provided the id is not
    the empty string: a worker may attach under the empty id, but its teardown does nothing, and
    then a call does hang. *)
Theorem call_always_ends qs cid c gid :
  s_calls (history qs).1 !! cid = Some c → c_gen c = Some gid →
  ∃ g, gens (s_relay (history qs).1) !! gid = Some g
  ∧ (g_done g = true ∨ ∃ id, map_get id (sessions (s_relay (history qs).1)) = Some (g_parked g))
  ∧ ∀ s, g_done g = true ∨ (∃ id, bound (s_relay (history qs).1) !! s = Some id ∧ id ≠ ""
           ∧ map_get id (sessions (s_relay (history qs).1)) = Some (g_parked g)) →
    ∃ n c' o, s_calls (srv_all (Lost s :: replicate n (Next cid)) (history qs).1).1 !! cid = Some c'
      ∧ c_gen c' = None ∧ c_ends c' = [o].
Proof.
  intros Hc Hg. pose proof (history_inv qs) as Hi. set (st := (history qs).1) in *.
  destruct (sv_run _ Hi _ _ _ Hc Hg) as (g & Hgg & Ho & _). exists g. split; [done|].
  split; [exact (ri_live _ (sv_relay _ Hi) _ _ Hgg Ho)|]. intros s Hs.
  pose proof (serve_step_inv (Lost s) st Hi) as Hi1.
  assert (Hl : (srv (Lost s) st).1 = mkServe (teardown s (s_relay st)).1 (s_calls st) (s_next st)).
  { simpl. unfold on_lost. by destruct (teardown s (s_relay st)). }
  assert (Hd : ∃ g', gens (teardown s (s_relay st)).1 !! gid = Some g' ∧ g_done g' = true).
  { destruct Hs as [Hd|(id & Hbound & Hne & Hid)].
    - destruct (teardown_feeds s (s_relay st) _ _ Hgg) as (g' & Hg' & evs & ->). eexists. split; [exact Hg'|].
      clear -Hd. revert g Hd. induction evs as [|ev evs IH]; intros g Hd; [done|]. apply IH. simpl. by rewrite Hd.
    - assert (Hsb : sandbox_of (s_relay st) s = Some id) by (unfold sandbox_of; by rewrite Hbound, decide_False).
      destruct (ri_open _ (sv_relay _ Hi) _ _ Hgg Ho) as (p & Hp & Hsk). eexists. split.
      + by eapply teardown_delivers; [apply (sv_relay _ Hi)|..].
      + simpl. by destruct (g_done g). }
  destruct Hd as (g' & Hg' & Hd'). exists (S (length (g_queue g'))). rewrite serve_all_cons.
  destruct (drained (S (length (g_queue g'))) cid c gid g' (srv (Lost s) st).1) as (c' & Hc' & Hn);
    [done|by rewrite Hl|done|by rewrite Hl|done|lia|].
  exists c'. pose proof (serve_all_inv (replicate (S (length (g_queue g'))) (Next cid)) _ Hi1) as Hi2.
  destruct (sv_end _ Hi2 _ _ Hc' Hn) as [_ [(e & He & _)|(evs & t & _ & _ & _ & He)]]; eauto.
Qed.

(** ** Who can reach a worker *)

(** The bearer a request presents on the exec service, and the exec it names. *)
Definition presents (q : request) : option (option string) :=
  match q with ExecRpc md _ | AbortRpc md _ _ => Some (bearerOf md) | _ => None end.

Definition names (q : request) (r : Z) : Prop :=
  match q with ExecRpc _ req => r_exec req = Some r | AbortRpc _ _ r' => r' = r | _ => False end.

Definition authorises (q : request) (r : Z) : Prop :=
  ∃ b, presents q = Some b ∧ validateExecToken b = true ∧ names q r.

(** What is written to workers, and what the calls that can still write may name. *)
Definition allowed (ok : Z → Prop) (es : list serve_effect) : Prop :=
  ∀ s r, (Relayed (WriteExec s r) ∈ es ∨ Relayed (WriteAbort s r) ∈ es) → ok r.

Definition calls_allowed (ok : Z → Prop) (st : Serve) : Prop :=
  ∀ cid c, s_calls st !! cid = Some c → c_listening c = true → ok (c_req c).

Lemma allowed_abort (ok : Z → Prop) id r rs : ok r → allowed ok (Relayed <$> routeAbort id r rs).
Proof.
  intros Hr s r' H. unfold routeAbort in H. split_match; set_solver.
Qed.

Lemma allowed_nil (ok : Z → Prop) : allowed ok [].
Proof. by intros ?? [?%elem_of_nil|?%elem_of_nil]. Qed.

Lemma calls_allowed_init ok : calls_allowed ok serve_init.
Proof. intros cid c Hc. cbn [serve_init s_calls] in Hc. by rewrite lookup_empty in Hc. Qed.

Lemma step_allowed (ok : Z → Prop) q st :
  (∀ r, authorises q r → ok r) → calls_allowed ok st →
  allowed ok (srv q st).2 ∧ calls_allowed ok (srv q st).1.
Proof.
  intros Hq Hok. destruct q as [s h f|s|md req|cid|cid|md id r]; simpl.
  - unfold on_frame. destruct (onFrame _ s f (s_relay st)) as [rs effs] eqn:E. split; [|exact Hok].
    intros s' r H. unfold onFrame in E. repeat (split_match; simplify_eq/=; try set_solver).
  - unfold on_lost. destruct (teardown s (s_relay st)) as [rs effs] eqn:E. split; [|exact Hok].
    intros s' r H. unfold teardown in E. destruct (sandbox_of (s_relay st) s); simplify_eq/=; set_solver.
  - assert (Hnew : ∀ c rs, (c_listening c = true → ok (c_req c)) → calls_allowed ok (new_call c rs st)).
    { intros c rs Hc cid c'. simpl. rewrite lookup_insert. case_decide; [by intros [= <-]|apply Hok]. }
    unfold exec. destruct (negb _) eqn:Hv; [split; [apply allowed_nil|by apply Hnew]|].
    destruct (r_exec req) as [r|] eqn:Hr; [|split; [apply allowed_nil|by apply Hnew]].
    assert (ok r) by (apply Hq; eexists; split; [done|]; split; [by destruct (validateExecToken _)|done]).
    destruct (routeExec (r_sandboxId req) r (s_relay st)) as [[[gid rs] effs]|e] eqn:E; [|split; [apply allowed_nil|by apply Hnew]].
    split; [|by apply Hnew]. unfold routeExec in E. split_matches. intros s r' Hin. simpl in Hin. set_solver.
  - split; [apply allowed_nil|]. unfold next.
    destruct (s_calls st !! cid) as [c|] eqn:Hc; [|done].
    destruct (gid ← c_gen c; pull gid (s_relay st)) as [[[ev| |] rs]|]; try done;
      intros i c' Hl; simpl in Hl; rewrite lookup_insert in Hl; case_decide; try by eapply Hok.
    + injection Hl as <-. intros Hl. specialize (Hok _ _ Hc). destruct ev; by apply Hok.
    + by injection Hl as <-.
  - unfold onCancelled. destruct (s_calls st !! cid) as [c|] eqn:Hc;
      [destruct (c_listening c) eqn:Hl|]; try (split; [apply allowed_nil|done]).
    split; [apply allowed_abort; by eapply Hok|]. intros i c'. simpl. rewrite lookup_insert.
    case_decide; [intros [= <-] _; exact (Hok _ _ Hc Hl)|apply Hok].
  - split; [|done]. unfold abort. destruct (validateExecToken (bearerOf md)) eqn:Hv; simpl; [|intros ?? ?; set_solver].
    intros s r' Hin. apply (allowed_abort ok id r (s_relay st)) with s; [apply Hq; by exists (bearerOf md)|set_solver].
Qed.

Lemma all_allowed (ok : Z → Prop) qs st :
  (∀ q r, q ∈ qs → authorises q r → ok r) → calls_allowed ok st → allowed ok (srv_all qs st).2.
Proof.
  revert st. induction qs as [|q qs IH]; intros st Hq Hok; [apply allowed_nil|].
  destruct (step_allowed ok q st) as [H1 H2]; [intros r; apply Hq; by left|done|]. simpl.
  destruct (srv q st) as [st1 e1]. specialize (IH st1 ltac:(intros; eapply Hq; [by right|done]) H2).
  destruct (srv_all qs st1) as [st2 e2]. simpl in *. intros s r [Hin|Hin]; apply elem_of_app in Hin as [Hin|Hin].
  - apply (H1 s). by left.
  - apply (IH s). by left.
  - apply (H1 s). by right.
  - apply (IH s). by right.
Qed.

(** Nothing reaches a worker without the exec token: in every history, an exec or an
    abort written to a worker's stream, whether by a call, by the cancellation of one or by an
    abort, names a request of a caller that presented a valid token. *)
Theorem exec_needs_token qs s r :
  Relayed (WriteExec s r) ∈ (history qs).2 ∨ Relayed (WriteAbort s r) ∈ (history qs).2 →
  ∃ q, q ∈ qs ∧ authorises q r.
Proof.
  apply (all_allowed (fun r => ∃ q, q ∈ qs ∧ authorises q r) qs serve_init).
  - intros q r' Hq Ha. by exists q.
  - apply calls_allowed_init.
Qed.
End Serving.

Lemma bytes_of_inj s t : bytes_of s = bytes_of t → s = t.
Proof. intros E. by rewrite <-(string_of_bytes s), <-(string_of_bytes t), E. Qed.

Lemma safe_equal_true a b : safe_equal a b = true → a = b.
Proof. unfold safe_equal. intros H. by to_prop. Qed.

Lemma truthy_token o s : truthy_str o = Some s → o = Some s.
Proof. unfold truthy_str. destruct o; [|done]. by case_bool_decide. Qed.

(** A token that lets a worker attach is the value of one of the variables checked at boot. *)
Lemma attach_token_named env t id :
  makeDefaultValidateToken env (Some t) id = true →
  ∃ k, sandbox_token_name k = true ∧ env !! k = Some t.
Proof.
  unfold makeDefaultValidateToken. intros H.
  destruct (truthy_str _) as [want|] eqn:Hw; [|done]. apply truthy_token in Hw.
  destruct (truthy_str (Some t)) as [got|] eqn:Hg; [|done]. apply truthy_token in Hg as [= ->].
  apply safe_equal_true, bytes_of_inj in H as ->.
  destruct (env !! ("SH_RELAY_TOKEN_" +:+ id)) as [v|] eqn:Hv.
  - injection Hw as ->. eexists. split; [|exact Hv]. unfold sandbox_token_name. apply orb_true_iff. right.
    rewrite bytes_of_app. apply starts_with_spec. by eexists.
  - exists "SH_RELAY_TOKEN". split; [by vm_compute|done].
Qed.

Lemma exec_token_distinct env v t id :
  makeExecTokenValidator env = Ok v → makeDefaultValidateToken env (Some t) id = true → v (Some t) = false.
Proof.
  intros Hv (k & Hk & He)%attach_token_named. unfold makeExecTokenValidator in Hv.
  destruct (truthy_str (env !! "MOCA_RELAY_EXEC_TOKEN")) as [e|]; [|done].
  destruct (0 <? length (clashes env e))%nat eqn:Hc; [done|]. injection Hv as <-.
  destruct (truthy_str (Some t)) as [p|] eqn:Hp; [|done]. apply truthy_token in Hp as [= ->].
  destruct (safe_equal (bytes_of p) (bytes_of e)) eqn:Hs; [|done].
  apply safe_equal_true, bytes_of_inj in Hs as ->.
  assert (Hin : k ∈ clashes env e).
  { unfold clashes. rewrite sort_perm. apply list_elem_of_In, filter_In. split.
    - apply list_elem_of_In, list_elem_of_fmap. exists (k, e). split; [done|]. by apply elem_of_map_to_list.
    - rewrite Hk. by apply bool_decide_eq_true. }
  apply Nat.ltb_ge in Hc. destruct (clashes env e); [by apply elem_of_nil in Hin|simpl in Hc; lia].
Qed.

(** C34. Sandboxes run nothing on each other: a relay that started serves no caller whose
    credential is one that lets a sandbox's worker attach, or no credential at all.  In
    any history where every caller of the exec service presents such a credential, no worker
    is sent anything, however workers attach, answer and leave; and where an exec address is
    configured, the listener that workers attach to does not offer the exec service. *)
Theorem sandboxes_run_nothing port execAddr env bind srv qs s r :
  startRelay port execAddr env bind = Ok srv →
  (∀ q b, q ∈ qs → presents q = Some b →
     b = None ∨ (∃ t id, b = Some t ∧ st_validateToken srv (Some t) id = true)) →
  (Relayed (WriteExec s r) ∉ (serves (st_validateToken srv) (st_validateExec srv) qs).2)
  ∧ (Relayed (WriteAbort s r) ∉ (serves (st_validateToken srv) (st_validateExec srv) qs).2)
  ∧ (∀ a, truthy_str (match execAddr with Some a => Some a | None => env !! "MOCA_RELAY_EXEC_ADDR" end) = Some a →
       ∀ l, l ∈ st_listeners srv → SandboxWorker ∈ l.2 → SandboxExec ∉ l.2).
Proof.
  unfold startRelay. destruct (makeExecTokenValidator env) as [v|] eqn:Hv; [|done]. cbn [result_bind].
  destruct (bind_all bind _) as [ports [e|]]; [done|]. intros [= <-]. simpl. intros Hq.
  assert (Hno : ∀ q r', q ∈ qs → ¬ authorises v q r').
  { intros q r' Hin (b & Hb & Hval & _). destruct (Hq q b Hin Hb) as [->|(t & id & -> & Ht)].
    - unfold makeExecTokenValidator in Hv. repeat (split_match; simplify_eq/=).
    - by rewrite (exec_token_distinct _ _ _ _ Hv Ht) in Hval. }
  split_and!.
  - intros Hin. destruct (all_allowed (makeDefaultValidateToken env) v (fun _ => False) qs serve_init) with s r;
      [intros; by eapply Hno|apply calls_allowed_init|by left].
  - intros Hin. destruct (all_allowed (makeDefaultValidateToken env) v (fun _ => False) qs serve_init) with s r;
      [intros; by eapply Hno|apply calls_allowed_init|by right].
  - intros a Ha l. unfold listeners. rewrite Ha. simpl.
    intros [->|[->|[]%elem_of_nil]%elem_of_cons]%elem_of_cons; simpl; by rewrite !list_elem_of_singleton.
Qed.

(** A relay with its workers' token and two sandboxes' tokens, a worker attached and a call
    from a sandbox with its own token, one with the exec token, and the worker's answer. *)
Definition toy_env : environ :=
  {["MOCA_RELAY_EXEC_TOKEN" := "exec"; "SH_RELAY_TOKEN" := "shared"; "SH_RELAY_TOKEN_b" := "own";
    "MOCA_RELAY_EXEC_ADDR" := "127.0.0.1:8444"]}.

Definition bearer_md (t : string) : list MetadataValue := [MStr (bytes_of ("Bearer " +:+ t))].

Definition attach_b : request := Frame 0 (Some (bytes_of "Bearer own")) (Hello "b").
Definition call_b (t : string) : request := ExecRpc (bearer_md t) (mkExecRequest "b" (Some 7)).

Definition toy_valid : option string → bool := fun p => bool_decide (p = Some "exec").

Definition answered : list request :=
  [attach_b; call_b "exec"; Frame 0 None (WError 7 "disk full"); Next 0; Next 0].

Example toy_refuses_clash :
  makeExecTokenValidator (<["SH_RELAY_TOKEN_c" := "exec"]> toy_env)
  = Throw "MOCA_RELAY_EXEC_TOKEN must differ from every sandbox token, but equals SH_RELAY_TOKEN_c".
Proof. by vm_compute. Qed.

Definition answered_call : ExecCall :=
  mkCall "b" 7 None false false true "disk full" [EError "disk full"] [Failed (execStreamError "disk full")].

Lemma call_status_witness :
  s_calls (serves (makeDefaultValidateToken toy_env) toy_valid answered).1 !! 0%nat = Some answered_call
  ∧ ended_well answered_call.
Proof.
  assert (Hc : s_calls (serves (makeDefaultValidateToken toy_env) toy_valid answered).1 !! 0%nat = Some answered_call)
    by (vm_compute; reflexivity).
  split; [exact Hc|]. exact (proj1 (call_status (makeDefaultValidateToken toy_env) toy_valid answered 0 answered_call Hc)).
Defined.

Definition waiting : list request := [attach_b; call_b "exec"; Frame 0 None (WChunk 7 [])].

Lemma call_always_ends_witness :
  ∃ g, gens (s_relay (serves (makeDefaultValidateToken toy_env) toy_valid waiting).1) !! 0%nat = Some g
       ∧ g_done g = false
       ∧ ∃ n c' o, s_calls (serve_all (makeDefaultValidateToken toy_env) toy_valid (Lost 0 :: replicate n (Next 0))
                    (serves (makeDefaultValidateToken toy_env) toy_valid waiting).1).1 !! 0%nat = Some c'
         ∧ c_gen c' = None ∧ c_ends c' = [o].
Proof.
  edestruct (call_always_ends (makeDefaultValidateToken toy_env) toy_valid waiting 0) as (g & Hg & _ & H);
    [vm_compute; reflexivity|reflexivity|].
  exists g. split; [exact Hg|]. vm_compute in Hg. injection Hg as <-. split; [reflexivity|].
  apply H. right. exists "b". split_and!; [vm_compute; reflexivity|discriminate|vm_compute; reflexivity].
Defined.

(** A worker attaches with the shared token under the empty id, and is given an exec. *)
Definition unnamed : list request :=
  [Frame 0 (Some (bytes_of "Bearer shared")) (Hello ""); ExecRpc (bearer_md "exec") (mkExecRequest "" (Some 7))].

(** Teardown takes the empty id for none: when the worker's stream is lost, its session and its
    presence record stay, and the call waits for a frame that will not come, however often its loop
    goes round. *)
Lemma empty_id_never_torn_down n :
  let st := (serve_all (makeDefaultValidateToken toy_env) toy_valid (Lost 0 :: replicate n (Next 0))
               (serves (makeDefaultValidateToken toy_env) toy_valid unnamed).1).1 in
  map_get "" (sessions (s_relay st)) = Some 0%nat
  ∧ ∃ c, s_calls st !! 0%nat = Some c ∧ c_gen c = Some 0%nat ∧ c_ends c = [].
Proof.
  set (s1 := (serves (makeDefaultValidateToken toy_env) toy_valid unnamed).1).
  assert (Hlost : (serve (makeDefaultValidateToken toy_env) toy_valid (Lost 0) s1).1 = s1) by (vm_compute; reflexivity).
  assert (Hnext : (serve (makeDefaultValidateToken toy_env) toy_valid (Next 0) s1).1 = s1) by (vm_compute; reflexivity).
  assert (Hall : ∀ k, (serve_all (makeDefaultValidateToken toy_env) toy_valid (replicate k (Next 0)) s1).1 = s1).
  { induction k as [|k IH]; [done|]. cbn [replicate]. rewrite serve_all_cons, Hnext. exact IH. }
  cbv zeta. rewrite serve_all_cons, Hlost, Hall. split; [vm_compute; reflexivity|].
  eexists. split; [vm_compute; reflexivity|by split].
Qed.

Lemma exec_needs_token_witness :
  ∃ q, q ∈ answered ∧ authorises toy_valid q 7.
Proof.
  apply (exec_needs_token (makeDefaultValidateToken toy_env) toy_valid answered 0 7). left.
  apply list_elem_of_In. vm_compute. right. left. reflexivity.
Defined.

Lemma sandboxes_run_nothing_witness :
  ∃ srv, startRelay None None toy_env (fun _ => Ok 1) = Ok srv
  ∧ Relayed (WriteExec 0 7) ∉ (serves (st_validateToken srv) (st_validateExec srv) [attach_b; call_b "own"; call_b "shared"]).2.
Proof.
  eexists. split; [vm_compute; reflexivity|].
  eapply (sandboxes_run_nothing None None toy_env (fun _ => Ok 1)); [vm_compute; reflexivity|].
  intros q b Hq Hb. right. apply list_elem_of_In in Hq. destruct Hq as [<-|[<-|[<-|[]]]]; [discriminate Hb|..];
    vm_compute in Hb; injection Hb as <-.
  - exists "own", "b". by split; vm_compute.
  - exists "shared", "c". by split; vm_compute.
Defined.
