(* ===== verification/Presence.v ===== *)
(** * Presence records

    Models [harness/src/pool-records.ts], the Redis hash in which the relay announces the
    workers attached to it, and its use by the relay ([RelayServer]).

    Calls of one store share a memoised connection: [ready] is absent, pending (with the calls
    that await it, in order) or settled.  [link] is the client's own state: a socket that drops
    is [Down] until the client has reconnected, and [Shut] once it has given up or was closed;
    a command on a client that is not [Up] rejects.  [log] holds what every call came to, in
    the order of the answers. *)

From Stdlib Require Import QArith.
From S2P Require Import Prelude JsNumber Json JsonText Relay RelayServer.

Local Open Scope Z_scope.

Record SandboxRecord := mkRecord {
  sandboxId : string;
  labels : list (string * string);     (* an object's fields, in its order *)
  capabilities : list string;
  capacityMax : Z;
}.

(** What [JSON.stringify] makes of a record ([transport] is always ['grpc']). *)
Definition record_json (r : SandboxRecord) : json :=
  JObj [("sandboxId", JStr (sandboxId r)); ("labels", JObj (prod_map id JStr <$> labels r));
        ("capabilities", JArr (JStr <$> capabilities r)); ("capacityMax", JNum (inject_Z (capacityMax r)));
        ("transport", JStr "grpc")].

(** [reconnectStrategy]: a delay in milliseconds, or an error that makes the client give up. *)
Definition reconnectStrategy (maxReconnectAttempts retries : Z) : result unit Z :=
  if retries >? maxReconnectAttempts then Throw tt else Ok (Z.min (retries * 100) 1000).

Inductive op := Put (rec : SandboxRecord) | Remove (id : string) | ListAll | Close.

Inductive answer := Done | Listed (l : list json) | Rejected.

Inductive memo := Absent | Pending | Settled.
Inductive link_state := Up | Down | Shut.

Record RedisRecordStore := mkStore {
  ready : memo;
  waiting : list (nat * op);           (* the calls that await [ready] *)
  link : link_state;
  hash : gmap string bytes;            (* the Redis hash, which outlives the store *)
  log : list (nat * op * answer);
}.

(** [h] is what earlier processes left in the hash: nothing clears it at the start. *)
Definition store_init (h : gmap string bytes) : RedisRecordStore := mkStore Absent [] Shut h [].

Definition answered (k : nat) (o : op) (a : answer) (st : RedisRecordStore) : RedisRecordStore :=
  mkStore (ready st) (waiting st) (link st) (hash st) (log st ++ [(k, o, a)]).

Definition with_hash (h : gmap string bytes) (st : RedisRecordStore) : RedisRecordStore :=
  mkStore (ready st) (waiting st) (link st) h (log st).

(** [Object.values(all).map((v) => JSON.parse(v))], which throws if one of them does. *)
Definition parse_values (h : gmap string bytes) : option (list json) := mapM parse (map_to_list h).*2.

(** The rest of [put], [remove], [list] and [close], once connected. *)
Definition command (st : RedisRecordStore) (ko : nat * op) : RedisRecordStore :=
  let '(k, o) := ko in
  match o, link st with
  | Put rec, Up => answered k o Done (with_hash (<[sandboxId rec := stringify (record_json rec)]> (hash st)) st)
  | Remove id, Up => answered k o Done (with_hash (delete id (hash st)) st)
  | ListAll, Up => match parse_values (hash st) with
                   | Some l => answered k o (Listed l) st
                   | None => answered k o Rejected st
                   end
  | Close, Up => answered k o Done (mkStore (ready st) (waiting st) Shut (hash st) (log st))
  | _, _ => answered k o Rejected st
  end.

(** A call, up to its first suspension: [connectOnce] starts one connection at a time. *)
Definition call (k : nat) (o : op) (st : RedisRecordStore) : RedisRecordStore :=
  match ready st, o with
  | Absent, Close => answered k o Done st
  | Absent, _ => mkStore Pending [(k, o)] (link st) (hash st) (log st)
  | Pending, _ => mkStore Pending (waiting st ++ [(k, o)]) (link st) (hash st) (log st)
  | Settled, _ => command st (k, o)
  end.

(** [connect()] resolves: the calls that await it go on, in order. *)
Definition connected (st : RedisRecordStore) : RedisRecordStore :=
  match ready st with
  | Pending => foldl command (mkStore Settled [] Up (hash st) (log st)) (waiting st)
  | _ => st
  end.

(** [connect()] rejects: the memo is cleared and the calls that await it reject; [close]
    takes that for closed. *)
Definition connect_failed (st : RedisRecordStore) : RedisRecordStore :=
  match ready st with
  | Pending => foldl (fun st '(k, o) => answered k o (match o with Close => Done | _ => Rejected end) st)
                 (mkStore Absent [] Shut (hash st) (log st)) (waiting st)
  | _ => st
  end.

(** Besides the calls: the socket of a connected client closes, it comes back, or the client
    gives up on it. *)
Inductive event :=
| Called (k : nat) (o : op)
| Connected | ConnectFailed
| Dropped | Reconnected | GaveUp.

Definition relink (l : link_state) (st : RedisRecordStore) : RedisRecordStore :=
  mkStore (ready st) (waiting st) l (hash st) (log st).

Definition step (st : RedisRecordStore) (e : event) : RedisRecordStore :=
  match e with
  | Called k o => call k o st
  | Connected => connected st
  | ConnectFailed => connect_failed st
  | Dropped => match link st with Up => relink Down st | _ => st end
  | Reconnected => match link st with Down => relink Up st | _ => st end
  | GaveUp => match link st with Down => relink Shut st | _ => st end
  end.

Definition run (h : gmap string bytes) (es : list event) : RedisRecordStore := foldl step (store_init h) es.

(** ** The specification: a map of records *)

(** An operation that is not rejected takes effect on the map and answers from it. *)
Inductive spec_step : gmap string SandboxRecord → op → answer → gmap string SandboxRecord → Prop :=
| spec_put m r : spec_step m (Put r) Done (<[sandboxId r := r]> m)
| spec_remove m id : spec_step m (Remove id) Done (delete id m)
| spec_list m : spec_step m ListAll (Listed (record_json <$> (map_to_list m).*2)) m
| spec_close m : spec_step m Close Done m
| spec_rejected m o : spec_step m o Rejected m.

(** The map after a log of answers, when it was [m0] before. *)
Inductive explained (m0 : gmap string SandboxRecord) : list (nat * op * answer) → gmap string SandboxRecord → Prop :=
| explained_nil : explained m0 [] m0
| explained_snoc l m k o a m' : explained m0 l m → spec_step m o a m' → explained m0 (l ++ [(k, o, a)]) m'.

(** ** The store implements it *)

(** Records as the relay writes them: an object has distinct keys, a count is a safe integer. *)
Definition op_ok (o : op) : bool :=
  match o with Put r => serialisable (record_json r) | _ => true end.

Definition text (r : SandboxRecord) : bytes := stringify (record_json r).

Definition stored (m0 : gmap string SandboxRecord) (st : RedisRecordStore) (m : gmap string SandboxRecord) : Prop :=
  explained m0 (log st) m ∧ hash st = text <$> m ∧ map_Forall (fun _ r => serialisable (record_json r) = true) m.

Lemma parse_values_text m :
  map_Forall (fun _ r => serialisable (record_json r) = true) m →
  parse_values (text <$> m) = Some (record_json <$> (map_to_list m).*2).
Proof.
  intros Hm. unfold parse_values. rewrite map_to_list_fmap, <-list_fmap_compose. apply mapM_Some_2.
  rewrite <-list_fmap_compose. apply Forall2_fmap_2, Forall_Forall2_diag, Forall_forall.
  intros [k r] Hin%elem_of_map_to_list. apply parse_stringify. exact (Hm k r Hin).
Qed.

Lemma stored_answer m0 k o a st m m' st' :
  stored m0 st m → spec_step m o a m' → map_Forall (fun _ r => serialisable (record_json r) = true) m' →
  log st' = log st → hash st' = text <$> m' → stored m0 (answered k o a st') m'.
Proof.
  intros (He & Hh & _) Hs Hw Hl Hh'. split_and!; [|done|done]. simpl. rewrite Hl. by econstructor.
Qed.

Lemma command_stored m0 st m k o : op_ok o = true → stored m0 st m → ∃ m', stored m0 (command st (k, o)) m'.
Proof.
  intros Hok Hst. pose proof Hst as (He & Hh & Hm).
  assert (Hrej : ∃ m', stored m0 (answered k o Rejected st) m').
  { exists m. by eapply stored_answer; [|apply spec_rejected|..]. }
  unfold command. destruct o as [r|id| |], (link st); try exact Hrej.
  - exists (<[sandboxId r := r]> m). eapply stored_answer; [done|constructor|by apply map_Forall_insert_2|done|].
    simpl. by rewrite fmap_insert, Hh.
  - exists (delete id m). eapply stored_answer; [done|constructor|by apply map_Forall_delete|done|].
    simpl. by rewrite fmap_delete, Hh.
  - rewrite Hh, parse_values_text by done. exists m. by eapply stored_answer; [|constructor|..].
  - exists m. by eapply stored_answer; [|constructor|..].
Qed.

(** What was called, in the order of the calls. *)
Definition called (es : list event) : list (nat * op) :=
  omap (fun e => match e with Called k o => Some (k, o) | _ => None end) es.

(** The store has answered the first calls, in order, and the others wait for the connection. *)
Definition in_order (st : RedisRecordStore) (cs : list (nat * op)) : Prop :=
  (log st).*1 ++ waiting st = cs ∧ (ready st ≠ Pending → waiting st = []).

Lemma command_order st ko :
  (log (command st ko)).*1 = (log st).*1 ++ [ko] ∧ waiting (command st ko) = waiting st ∧ ready (command st ko) = ready st.
Proof.
  destruct ko as [k o]. unfold command. destruct o, (link st); repeat split_match; simpl; by rewrite fmap_app.
Qed.

Lemma commands_ok m0 l st m :
  forallb op_ok l.*2 = true → stored m0 st m →
  (∃ m', stored m0 (foldl command st l) m') ∧ (log (foldl command st l)).*1 = (log st).*1 ++ l
  ∧ waiting (foldl command st l) = waiting st ∧ ready (foldl command st l) = ready st.
Proof.
  revert st m. induction l as [|[k o] l IH]; intros st m Hok Hst; [split_and!; [by exists m|by rewrite app_nil_r|done..]|].
  cbn in Hok. cbn [foldl]. apply andb_true_iff in Hok as [Ho Hl]. destruct (command_stored m0 st m k o Ho Hst) as [m1 H1].
  destruct (command_order st (k, o)) as (E1 & E2 & E3). destruct (IH _ m1 Hl H1) as (H & L & W & R).
  split_and!; [done| |congruence..]. by rewrite L, E1, <-app_assoc.
Qed.

Lemma rejects_ok m0 l st m :
  stored m0 st m →
  let st' := foldl (fun st '(k, o) => answered k o (match o with Close => Done | _ => Rejected end) st) st l in
  stored m0 st' m ∧ (log st').*1 = (log st).*1 ++ l ∧ waiting st' = waiting st ∧ ready st' = ready st.
Proof.
  revert st. induction l as [|[k o] l IH]; intros st Hst; [split_and!; [done|by rewrite app_nil_r|done..]|].
  cbn [foldl]. edestruct (IH (answered k o (match o with Close => Done | _ => Rejected end) st)) as (H & L & W & R).
  { eapply stored_answer; [done| |apply Hst|done|apply Hst]. destruct o; constructor. }
  split_and!; [done| |by rewrite W|by rewrite R]. rewrite L. simpl. by rewrite fmap_app, <-app_assoc.
Qed.

Lemma store_step_ok m0 st m cs e :
  (∀ k o, e = Called k o → op_ok o = true) → forallb op_ok cs.*2 = true → stored m0 st m → in_order st cs →
  (∃ m', stored m0 (step st e) m') ∧ in_order (step st e) (cs ++ called [e]).
Proof.
  intros He Hcs Hst [Hl Hw].
  assert (Hlink : ∀ l, (∃ m', stored m0 (relink l st) m') ∧ in_order (relink l st) (cs ++ []))
    by (intros l; rewrite app_nil_r; split; [by exists m|done]).
  assert (Hsame : (∃ m', stored m0 st m') ∧ in_order st (cs ++ [])) by (rewrite app_nil_r; split; [by exists m|done]).
  assert (Hwok : forallb op_ok (waiting st).*2 = true).
  { rewrite <-Hl, fmap_app, forallb_app in Hcs. by apply andb_true_iff in Hcs as [_ ?]. }
  destruct e as [k o| | | | |]; cbn [step called omap].
  - specialize (He k o eq_refl). cbn. unfold call. destruct (ready st) eqn:Hr.
    + rewrite Hw, app_nil_r in Hl by done.
      destruct o; [split; [by exists m|split; simpl; [by rewrite Hl|done]]..|].
      split; [exists m; by eapply stored_answer; [|constructor|apply Hst|done|apply Hst]|].
      split; simpl; [by rewrite fmap_app, Hl, Hw, app_nil_r|intros _; by apply Hw].
    + split; [by exists m|]. split; simpl; [by rewrite app_assoc, Hl|done].
    + split; [by eapply command_stored|]. destruct (command_order st (k, o)) as (L & W & R).
      rewrite Hw, app_nil_r in Hl by done. split; [by rewrite L, W, Hl, Hw, app_nil_r|intros _; rewrite W; by apply Hw].
  - cbn. unfold connected. destruct (ready st) eqn:Hr; try exact Hsame.
    destruct (commands_ok m0 (waiting st) (mkStore Settled [] Up (hash st) (log st)) m Hwok Hst) as (H & L & W & R).
    split; [done|]. split; [by rewrite L, W, app_nil_r, app_nil_r|by rewrite W].
  - cbn. unfold connect_failed. destruct (ready st) eqn:Hr; try exact Hsame.
    destruct (rejects_ok m0 (waiting st) (mkStore Absent [] Shut (hash st) (log st)) m Hst) as (H & L & W & R).
    split; [by exists m|]. split; [by rewrite L, W, app_nil_r, app_nil_r|by rewrite W].
  - destruct (link st); [apply Hlink|exact Hsame..].
  - destruct (link st); [exact Hsame|apply Hlink|exact Hsame].
  - destruct (link st); [exact Hsame|apply Hlink|exact Hsame].
Qed.

Lemma run_snoc h es e : run h (es ++ [e]) = step (run h es) e.
Proof. unfold run. by rewrite foldl_app. Qed.

(** What an earlier process left: records as a relay writes them. *)
Definition left_behind (m0 : gmap string SandboxRecord) : Prop := map_Forall (fun _ r => serialisable (record_json r) = true) m0.

Lemma run_stored m0 es :
  left_behind m0 → forallb op_ok (called es).*2 = true →
  (∃ m, stored m0 (run (text <$> m0) es) m) ∧ in_order (run (text <$> m0) es) (called es).
Proof.
  intros Hm0 Hok. induction es as [|e es IH] using rev_ind.
  - split; [exists m0; split_and!; [constructor|done|done]|done].
  - unfold called in *. rewrite omap_app, fmap_app, forallb_app in Hok. apply andb_true_iff in Hok as [H1 H2].
    destruct (IH H1) as [[m Hm] Hin]. rewrite run_snoc, omap_app. apply (store_step_ok m0 _ m); [|done..].
    intros k o ->. cbn in H2. by apply andb_true_iff in H2 as [? _].
Qed.

(** The store of presence records implements a map: whatever happens to its connection, and
    whatever records were there before, calls are answered in the order they were made, each
    once, and those that are not rejected act on the map of records and read it back as it was
    written. *)
Theorem presence_implements_map m0 es :
  left_behind m0 → forallb op_ok (called es).*2 = true →
  (∃ m, explained m0 (log (run (text <$> m0) es)) m ∧ hash (run (text <$> m0) es) = text <$> m)
  ∧ (log (run (text <$> m0) es)).*1 ++ waiting (run (text <$> m0) es) = called es.
Proof. intros Hm0 Hok. destruct (run_stored m0 es Hm0 Hok) as [(m & ? & ? & _) [? _]]. split; [by exists m|done]. Qed.

(** ** Presence and the relay's sessions *)

(** The calls the relay makes of its store. *)
Definition announce (rec_of : string → SandboxRecord) (e : serve_effect) : option op :=
  match e with
  | Relayed (PutRecord id) => Some (Put (rec_of id))
  | Relayed (RemoveRecord id) => Some (Remove id)
  | _ => None
  end.

Definition ann_ids (ids : gset string) (o : op) : gset string :=
  match o with Put r => {[sandboxId r]} ∪ ids | Remove id => ids ∖ {[id]} | _ => ids end.

Definition session_ids (st : Serve) : gset string := list_to_set (sessions (s_relay st)).*1.

(** The sandboxes this process has announced, or taken back. *)
Definition named_by (ops : list op) : gset string :=
  list_to_set (omap (fun o => match o with Put r => Some (sandboxId r) | Remove id => Some id | _ => None end) ops).

Lemma explained_ids m0 l m :
  explained m0 l m → Forall (fun x => x.2 ≠ Rejected) l → dom m = foldl ann_ids (dom m0) (snd ∘ fst <$> l).
Proof.
  induction 1 as [|l m k o a m' He IH Hs]; intros Hf; [done|].
  apply Forall_app in Hf as [Hf Ha]. apply Forall_cons in Ha as [Ha _]. rewrite fmap_app, foldl_app. cbn.
  rewrite <-(IH Hf). destruct Hs; cbn [ann_ids]; [apply dom_insert_L|apply dom_delete_L|reflexivity..|done].
Qed.

(** What was there before stays, unless it is announced or taken back. *)
Lemma ann_ids_from ids ops : foldl ann_ids ids ops = foldl ann_ids ∅ ops ∪ (ids ∖ named_by ops).
Proof.
  unfold named_by. induction ops as [|o ops IH] using rev_ind; [cbn; set_solver|].
  rewrite !foldl_app, omap_app, list_to_set_app_L. cbn. rewrite IH. destruct o as [r|id| |]; cbn; [|set_solver..].
  apply set_eq. intros x. destruct (decide (x = sandboxId r)); set_solver.
Qed.

Lemma set_keys id (r : nat) m : (list_to_set (map_set id r m).*1 : gset string) = {[id]} ∪ list_to_set m.*1.
Proof.
  destruct (decide (id ∈ m.*1)) as [Hin|Hin].
  - rewrite map_set_keys_in by done. apply set_eq. intros x. rewrite elem_of_union, elem_of_singleton, elem_of_list_to_set.
    naive_solver.
  - rewrite map_set_fresh, fmap_app, list_to_set_app_L by done. set_solver.
Qed.

Lemma delete_keys id (m : list (string * nat)) :
  (list_to_set (map_delete id m).*1 : gset string) = list_to_set m.*1 ∖ {[id]}.
Proof.
  apply set_eq. intros x. rewrite elem_of_difference, elem_of_singleton, !elem_of_list_to_set.
  apply map_delete_keys.
Qed.

Section Announced.
Variable rec_of : string → SandboxRecord.
Hypothesis rec_of_id : ∀ id, sandboxId (rec_of id) = id.
Variable validateToken : option string → string → bool.
Variable validateExecToken : option string → bool.

Lemma routed_sessions id r st gid st' effs :
  routeExec id r st = Ok (gid, st', effs) → sessions st' = sessions st ∧ omap (announce rec_of) (Relayed <$> effs) = [].
Proof. unfold routeExec. intros H. by split_matches. Qed.

Lemma pulled_sessions gid st p st' : pull gid st = Some (p, st') → sessions st' = sessions st.
Proof. unfold pull. intros H. by split_matches. Qed.

Lemma aborts_unannounced id r st : omap (announce rec_of) (Relayed <$> routeAbort id r st) = [].
Proof. unfold routeAbort. by split_match. Qed.

Lemma step_announced q st :
  session_ids (serve validateToken validateExecToken q st).1
  = foldl ann_ids (session_ids st) (omap (announce rec_of) (serve validateToken validateExecToken q st).2).
Proof.
  unfold session_ids. destruct q as [s h f|s|md req|cid|cid|md id r]; simpl.
  - unfold on_frame. destruct (onFrame _ s f (s_relay st)) as [rs effs] eqn:E. unfold onFrame in E.
    repeat (split_match; simplify_eq/=; try done). by rewrite set_keys, rec_of_id.
  - unfold on_lost. destruct (teardown s (s_relay st)) as [rs effs] eqn:E. unfold teardown in E.
    destruct (sandbox_of (s_relay st) s) as [id|]; simplify_eq/=; [|done]. rewrite delete_keys. split_match; [|done].
    match goal with |- context [foldl ?f ?a ?l] => destruct (deliver_all_spec DISCONNECTED l a) as (_ & -> & _) end.
    done.
  - unfold exec. repeat split_match; simplify_eq/=; try done.
    match goal with H : routeExec _ _ _ = Ok _ |- _ => apply routed_sessions in H as [-> ->] end. done.
  - unfold next. repeat split_match; try done; simpl;
      match goal with H : (_ ← c_gen _; _) = Some _ |- _ => apply bind_Some in H as (gid & _ & H) end;
      by erewrite pulled_sessions.
  - unfold onCancelled. repeat split_match; try done. simpl. by rewrite aborts_unannounced.
  - unfold abort. split_match; [done|]. by rewrite omap_app, aborts_unannounced.
Qed.

Lemma history_announced qs st :
  session_ids (serve_all validateToken validateExecToken qs st).1
  = foldl ann_ids (session_ids st) (omap (announce rec_of) (serve_all validateToken validateExecToken qs st).2).
Proof.
  revert st. induction qs as [|q qs IH]; intros st; [done|]. simpl. pose proof (step_announced q st) as Hs.
  destruct (serve _ _ q st) as [st1 e1]. specialize (IH st1). destruct (serve_all _ _ qs st1) as [st2 e2].
  simpl in *. by rewrite IH, Hs, omap_app, foldl_app.
Qed.

(** C31. The presence records are the sessions of the relay and what an earlier process left.
    Take any history of the relay, any records a relay could have written in the hash when it
    started (the hash outlives the process, and starting clears nothing) and any run of its store on
    the calls the relay made of it, in order, with nobody else writing to the hash meanwhile: if
    the store has answered them all and rejected none, then the hash
    names exactly the sandboxes the relay has a session for, and those that were there at the
    start and that this relay has neither announced nor taken back since.  A session is the relay's
    own entry: it is not always a worker that can be reached (one that gave the empty id is
    never torn down). *)
Theorem presence_is_attachment m0 qs es :
  left_behind m0 →
  (called es).*2 = omap (announce rec_of) (serves validateToken validateExecToken qs).2 →
  forallb op_ok (called es).*2 = true → waiting (run (text <$> m0) es) = [] →
  Forall (fun x => x.2 ≠ Rejected) (log (run (text <$> m0) es)) →
  dom (hash (run (text <$> m0) es))
  = session_ids (serves validateToken validateExecToken qs).1 ∪ (dom m0 ∖ named_by (called es).*2).
Proof.
  intros Hm0 Hcalls Hok Hw Hf. destruct (run_stored m0 es Hm0 Hok) as [(m & He & Hh & _) [Hl _]].
  unfold serves. rewrite history_announced. change (omap _ (serve_all _ _ qs serve_init).2) with
    (omap (announce rec_of) (serves validateToken validateExecToken qs).2).
  rewrite <-Hcalls, Hh, dom_fmap_L, (explained_ids m0 _ _ He Hf), ann_ids_from.
  rewrite <-Hl, Hw, app_nil_r, <-list_fmap_compose. done.
Qed.
End Announced.

(** ** The connection *)

(** A failed connection is not remembered: the next call connects again. *)
Lemma connect_retried st k o :
  ready st = Pending → o ≠ Close →
  ready (connect_failed st) = Absent ∧ ready (call k o (connect_failed st)) = Pending.
Proof.
  intros Hp Ho. assert (Ha : ready (connect_failed st) = Absent).
  { unfold connect_failed. rewrite Hp.
    assert (Hr : ∀ l st', ready (foldl (fun st '(k, o) => answered k o (match o with Close => Done | _ => Rejected end) st)
                            st' l) = ready st').
    { induction l as [|[k' o'] l IH]; intros st'; [done|]. cbn [foldl]. by rewrite IH. }
    apply Hr. }
  split; [done|]. unfold call. rewrite Ha. by destruct o.
Qed.

(** A successful one is remembered for ever, also past the end of its client: once a client
    that had connected has given up on its socket, every later call rejects. *)
Lemma given_up_for_good st es :
  ready st = Settled → link st = Shut →
  let st' := foldl step st es in
  ready st' = Settled ∧ link st' = Shut ∧ hash st' = hash st
  ∧ ∃ l, log st' = log st ++ l ∧ Forall (fun x => x.2 = Rejected) l.
Proof.
  revert st. induction es as [|e es IH]; intros st Hr Hl; cbn [foldl].
  { split_and!; [done..|]. exists []. by rewrite app_nil_r. }
  assert (Hs : ready (step st e) = Settled ∧ link (step st e) = Shut ∧ hash (step st e) = hash st
    ∧ ∃ l, log (step st e) = log st ++ l ∧ Forall (fun x => x.2 = Rejected) l).
  { destruct e as [k o| | | | |]; cbn [step]; unfold call, connected, connect_failed; rewrite ?Hr, ?Hl;
      [|split_and!; [done..|exists []; by rewrite app_nil_r]..].
    unfold command. rewrite Hl. destruct o; (split_and!; [done..|]; eexists; split; [done|by constructor]). }
  destruct Hs as (H1 & H2 & H3 & l1 & L1 & F1). destruct (IH _ H1 H2) as (? & ? & H4 & l2 & L2 & F2).
  split_and!; [done..|congruence|]. exists (l1 ++ l2). rewrite L2, L1, app_assoc. split; [done|]. by apply Forall_app.
Qed.

(** The default budget of attempts: the delays before the client gives up add up to 5.5 s. *)
Example reconnect_budget :
  foldr Z.add 0 (map (fun n => match reconnectStrategy 10 (Z.of_nat n) with Ok d => d | Throw _ => 0 end) (seq 0 11)) = 5500
  ∧ reconnectStrategy 10 11 = Throw tt.
Proof. by vm_compute. Qed.

(** A worker attaches while the store is still connecting, is announced, and leaves. *)
Definition toy_record (id : string) : SandboxRecord := mkRecord id [("zone", "a")] ["bash"] 4.

Definition toy_run : list event :=
  [Called 0 (Put (toy_record "b")); Connected; Called 1 (Put (toy_record "c")); Called 2 ListAll;
   Dropped; Called 3 (Remove "b"); Reconnected; Called 4 (Remove "b")].

(** A sandbox that an earlier relay announced and did not live to take back. *)
Definition toy_left : gmap string SandboxRecord := {["old" := toy_record "old"]}.

Lemma toy_left_ok : left_behind toy_left.
Proof. apply map_Forall_singleton. vm_compute. reflexivity. Qed.

Lemma presence_implements_map_witness :
  (∃ m, explained toy_left (log (run (text <$> toy_left) toy_run)) m ∧ hash (run (text <$> toy_left) toy_run) = text <$> m)
  ∧ (log (run (text <$> toy_left) toy_run)).*1 ++ waiting (run (text <$> toy_left) toy_run) = called toy_run.
Proof. apply (presence_implements_map toy_left toy_run); [apply toy_left_ok|vm_compute; reflexivity]. Defined.

Definition attach_c : request := Frame 1 (Some (bytes_of "Bearer shared")) (Hello "c").

Definition toy_calls : list event :=
  [Called 0 (Put (toy_record "b")); Called 1 (Put (toy_record "c")); Connected; Called 2 (Remove "b")].

Lemma presence_is_attachment_witness :
  dom (hash (run (text <$> toy_left) toy_calls))
  = session_ids (serves (makeDefaultValidateToken toy_env) toy_valid [attach_b; attach_c; Lost 0]).1
      ∪ (dom toy_left ∖ named_by (called toy_calls).*2).
Proof.
  apply (presence_is_attachment toy_record (fun _ => eq_refl)); [apply toy_left_ok|vm_compute; reflexivity..|].
  vm_compute. repeat constructor; discriminate.
Defined.

(** A record an earlier relay left names a sandbox no worker of which is attached, for as long as
    none attaches. *)
Lemma stale_record_stays :
  dom (hash (run (text <$> toy_left) toy_calls)) = {["old"; "c"]}
  ∧ session_ids (serves (makeDefaultValidateToken toy_env) toy_valid [attach_b; attach_c; Lost 0]).1 = {["c"]}.
Proof. split; apply (bool_decide_unpack _); vm_compute; reflexivity. Qed.
