(* ===== verification/PromoteCommand.v ===== *)
(** * The promotion command

    Models [harness/src/promote.ts] (the command line, and what of the user's files is promoted),
    [harness/src/promote-cli.ts] (the command itself) and [packages/config-bundle/src/lockfile.ts]
    (the record of a promotion that is committed beside the code).

    A [path] is an absolute path in normal form, the list of its names from the innermost to the
    outermost, so that [dirname] is [tail]; [path.join] and [path.resolve] are those of POSIX.
    The file system is a function from paths to nodes.  [localeCompare] is the platform's, a
    parameter. *)

From Stdlib Require Import QArith.
From S2P Require Import Prelude JsNumber Json JsonText JsonPretty Prog StableSort Tar Promote.

Local Open Scope Z_scope.

(** ** The command line *)

Record PromoteArgs := mkArgs {
  pa_entry : string;
  pa_mode : PromoteMode;
  pa_sandboxImage : string;
  pa_deny : list string;
  pa_excludePrompts : list string;
  pa_dryRun : bool;
  pa_project : option string;
  pa_home : option string;
  pa_redisUrl : option string;
}.

Definition no_args : PromoteArgs :=
  mkArgs "" unattended "ghcr.io/rossoctl/moca-sandbox:latest" [] [] false None None None.

(** [!value] *)
Definition missing (value : option string) : bool :=
  match value with Some s => bool_decide (s = "") | None => true end.

(** One flag with the argument after it: the arguments so far, and whether that one was taken. *)
Definition flag_step (flag : string) (value : option string) (a : PromoteArgs) : result string (PromoteArgs * bool) :=
  let v := default "" value in
  if bool_decide (flag = "--entry") then
    Ok (mkArgs v (pa_mode a) (pa_sandboxImage a) (pa_deny a) (pa_excludePrompts a) (pa_dryRun a) (pa_project a) (pa_home a) (pa_redisUrl a), true)
  else if bool_decide (flag = "--mode") then
    if bool_decide (value = Some "unattended") || bool_decide (value = Some "attended") then
      Ok (mkArgs (pa_entry a) (if bool_decide (value = Some "attended") then attended else unattended) (pa_sandboxImage a) (pa_deny a)
            (pa_excludePrompts a) (pa_dryRun a) (pa_project a) (pa_home a) (pa_redisUrl a), true)
    else Throw ("--mode must be 'unattended' or 'attended', got '" +:+ v +:+ "'")
  else if bool_decide (flag = "--sandbox-image") then
    Ok (mkArgs (pa_entry a) (pa_mode a) v (pa_deny a) (pa_excludePrompts a) (pa_dryRun a) (pa_project a) (pa_home a) (pa_redisUrl a), true)
  else if bool_decide (flag = "--deny") then
    Ok (mkArgs (pa_entry a) (pa_mode a) (pa_sandboxImage a) (pa_deny a ++ [v]) (pa_excludePrompts a) (pa_dryRun a) (pa_project a) (pa_home a) (pa_redisUrl a), true)
  else if bool_decide (flag = "--exclude-prompt") then
    if missing value then Throw "--exclude-prompt requires a prompt name"
    else Ok (mkArgs (pa_entry a) (pa_mode a) (pa_sandboxImage a) (pa_deny a) (pa_excludePrompts a ++ [v]) (pa_dryRun a) (pa_project a) (pa_home a) (pa_redisUrl a), true)
  else if bool_decide (flag = "--project") then
    if missing value then Throw "--project requires a directory"
    else Ok (mkArgs (pa_entry a) (pa_mode a) (pa_sandboxImage a) (pa_deny a) (pa_excludePrompts a) (pa_dryRun a) (Some v) (pa_home a) (pa_redisUrl a), true)
  else if bool_decide (flag = "--home") then
    if missing value then Throw "--home requires a directory"
    else Ok (mkArgs (pa_entry a) (pa_mode a) (pa_sandboxImage a) (pa_deny a) (pa_excludePrompts a) (pa_dryRun a) (pa_project a) (Some v) (pa_redisUrl a), true)
  else if bool_decide (flag = "--redis-url") then
    if missing value then Throw "--redis-url requires a url"
    else Ok (mkArgs (pa_entry a) (pa_mode a) (pa_sandboxImage a) (pa_deny a) (pa_excludePrompts a) (pa_dryRun a) (pa_project a) (pa_home a) (Some v), true)
  else if bool_decide (flag = "--dry-run") then
    Ok (mkArgs (pa_entry a) (pa_mode a) (pa_sandboxImage a) (pa_deny a) (pa_excludePrompts a) true (pa_project a) (pa_home a) (pa_redisUrl a), false)
  else Throw ("unknown flag: " +:+ flag).

Fixpoint parse_flags (argv : list string) (a : PromoteArgs) : result string PromoteArgs :=
  match argv with
  | [] => Ok a
  | flag :: rest =>
      match flag_step flag (head rest) a with
      | Throw e => Throw e
      | Ok (a', true) => match rest with [] => Ok a' | _ :: rest' => parse_flags rest' a' end
      | Ok (a', false) => parse_flags rest a'
      end
  end.

Definition parsePromoteArgs (argv : list string) : result string PromoteArgs :=
  try a <- parse_flags argv no_args;
  require negb (bool_decide (pa_entry a = "")) else
    ("usage: promote --entry <prompt-name> [--project <dir>] [--home <dir>] "
     +:+ "[--redis-url <url>] [--mode attended] [--exclude-prompt <name>]");
  Ok a.

(** ** Paths *)

Definition path : Type := list bytes.

(** [path.resolve], from the process's working directory. *)
Definition resolve (cwd : path) (s : bytes) : path :=
  foldl (fun p name => if bool_decide (name = [] ∨ name = bytes_of ".") then p
                       else if bool_decide (name = bytes_of "..") then tail p
                       else name :: p)
    (if starts_with (bytes_of "/") s then [] else cwd) (split_char "/" s).

Definition path_text (p : path) : bytes := bytes_of "/" ++ join_char "/" (reverse p).

Definition join (p : path) (names : list string) : path := reverse (bytes_of <$> names) ++ p.

Definition resolveProjectDir (a : PromoteArgs) (cwd : path) : path :=
  match pa_project a with Some s => resolve cwd (bytes_of s) | None => cwd end.

Definition resolveHomeDir (a : PromoteArgs) (cwd home : path) : path :=
  match pa_home a with Some s => resolve cwd (bytes_of s) | None => home end.

(** [cwd.split(/[/\\]/).join('-')] *)
Definition slug (cwd : path) : bytes :=
  (fun c => if bool_decide (c = "/"%char ∨ c = "\"%char) then "-"%char else c) <$> path_text cwd.

Definition projectMemoryDir (cwd home : path) : path :=
  bytes_of "memory" :: slug cwd :: join home [".claude"; "projects"].

(** ** The file system *)

Inductive node := File (text : bytes) | Directory.

Section Files.
Variable fs : path → option node.

Definition existsSync (p : path) : bool := bool_decide (is_Some (fs p)).

Definition isDirectory (p : path) : bool := match fs p with Some Directory => true | _ => false end.

Definition readFileSync (p : path) : result string bytes :=
  match fs p with
  | Some (File t) => Ok t
  | Some Directory => Throw "EISDIR: illegal operation on a directory, read"
  | None => Throw "ENOENT: no such file or directory"
  end.

(** *** The inventory of a sandbox image *)

Definition inventoryFileName (image : bytes) : bytes :=
  ((fun c => if bool_decide (c = ":"%char ∨ c = "/"%char) then "_"%char else c) <$> image) ++ bytes_of ".json".

Definition inventory_at (dir : path) (image : bytes) : path :=
  inventoryFileName image :: join dir ["deploy"; "knative"; "sandbox-inventory"].

(** From [dir] to the root. *)
Fixpoint ancestors (dir : path) : list path :=
  dir :: match dir with [] => [] | _ :: parent => ancestors parent end.

Definition inventoryCandidates (image : bytes) (cwd moduleDir : path) : list path :=
  ((fun d => inventory_at d image) <$> ancestors moduleDir) ++ [inventory_at cwd image].

Definition resolveInventoryPath (image : bytes) (cwd moduleDir : path) : option path :=
  List.find existsSync (inventoryCandidates image cwd moduleDir).

(** The inventory's [binaries], which nothing checks. *)
Definition readInventory (image : bytes) (cwd moduleDir : path) : result string (option json) :=
  match resolveInventoryPath image cwd moduleDir with
  | None => Ok None
  | Some p =>
      try text <- readFileSync p;
      match parse text with
      | None => Throw "SyntaxError"
      | Some JNull => Throw "TypeError"
      | Some j => Ok (field "binaries" j)
      end
  end.

(** *** The context files of a project *)

Fixpoint git_above (dir : path) : option path :=
  if existsSync (bytes_of ".git" :: dir) then Some dir
  else match dir with [] => None | _ :: parent => git_above parent end.

Definition projectRoot (cwd : path) : path := default cwd (git_above cwd).

(** The loop up from [dir] to [root]; [None] is the loop that never meets it. *)
Fixpoint dirs_to (root dir : path) (dirs : list path) : option (list path) :=
  if bool_decide (dir = root) then Some (dir :: dirs)
  else match dir with [] => None | _ :: parent => dirs_to root parent (dir :: dirs) end.

Definition CONTEXT_NAMES : list bytes := bytes_of <$> ["AGENTS.md"; "CLAUDE.md"].

Fixpoint read_contexts (dirs : list path) : result string (list (path * bytes)) :=
  match dirs with
  | [] => Ok []
  | dir :: dirs' =>
      match List.find existsSync ((fun n => n :: dir) <$> CONTEXT_NAMES) with
      | None => read_contexts dirs'
      | Some p => try text <- readFileSync p; try rest <- read_contexts dirs'; Ok ((p, text) :: rest)
      end
  end.

(** [None] when the loop does not end. *)
Definition collectContextFiles (cwd : path) : option (result string (list (path * bytes))) :=
  read_contexts <$> dirs_to (projectRoot cwd) cwd [].

(** What [buildBundle] is given. *)
Record BuildBundleInput := mkBundleInput {
  in_projectDir : path;
  in_userDir : path;
  in_pluginDirs : list path;
  in_memoryDir : path;
  in_promptsDir : path;
  in_contextFiles : list (path * bytes);
  in_entry : string;
  in_mode : PromoteMode;
  in_userDenyList : list string;
  in_excludePrompts : list string;
  in_sandboxImage : string;
  in_inventory : option json;
  in_versions : string * string;       (* pi, harness *)
}.

Definition promoteInputs (cwd home : path) (args : PromoteArgs) (inventory : option json) (versions : string * string) :
    option (result string BuildBundleInput) :=
  let userDir := join home [".claude"] in
  (fun r => try files <- r;
            Ok (mkBundleInput (join cwd [".claude"]) userDir [join userDir ["plugins"]] (projectMemoryDir cwd home)
                  (join userDir ["commands"]) files (pa_entry args) (pa_mode args) (pa_deny args) (pa_excludePrompts args)
                  (pa_sandboxImage args) inventory versions)) <$> collectContextFiles cwd.
End Files.

(** ** The lockfile *)

Record LockfileInput := mkLockInput {
  li_digest : bytes;
  li_mode : PromoteMode;
  li_entry : bytes;
  li_classification : Classification;
  li_contextPaths : list bytes;
  li_memoryPaths : list bytes;
  li_sandboxImage : bytes;
  li_binaries : list bytes;
  li_pi : bytes;
  li_harness : bytes;
  li_skillHashes : list (bytes * bytes);
}.

Definition str (b : bytes) : json := JStr (string_of b).
Definition strs (l : list bytes) : json := JArr (str <$> l).

Definition scope_name (s : SkillScope) : string := match s with project => "project" | user => "user" | plugin => "plugin" end.
Definition mode_name (m : PromoteMode) : string := match m with unattended => "unattended" | attended => "attended" end.
Definition reason_name (r : DropReason) : string :=
  match r with
  | no_harness_equivalent => "no_harness_equivalent"
  | needs_subagent => "needs_subagent"
  | user_denied => "user_denied"
  end.

(** The [detail] that goes with each reason. *)
Definition drop_detail (r : DropReason) : string :=
  match r with
  | user_denied => "excluded by the local user deny-list"
  | no_harness_equivalent => "subject matter does not exist in the harness runtime"
  | needs_subagent => "requires a subagent tool; Pi has none (spec §9)"
  end.

Definition dropped_json (d : bytes * DropReason) : json :=
  JObj [("name", str d.1); ("reason", JStr (reason_name d.2)); ("detail", JStr (drop_detail d.2))].

Definition skill_json (hashes : list (bytes * bytes)) (s : ResolvedSkill) : json :=
  JObj [("name", str (sk_name s)); ("scope", JStr (scope_name (sk_scope s))); ("sourceDir", str (sk_dir s));
        ("contentHash", str (default [] (map_get (sk_name s) hashes)))].

Section Lockfile.
(** [a.localeCompare(b) <= 0] *)
Variable locale_le : bytes → bytes → bool.

Definition buildLockfile (i : LockfileInput) : json :=
  let c := li_classification i in
  JObj [("binaries", strs (sort bytes_le (li_binaries i)));
        ("builtAgainst", JObj [("harness", str (li_harness i)); ("pi", str (li_pi i))]);
        ("context", strs (sort bytes_le (li_contextPaths i)));
        ("digest", str (li_digest i));
        ("dropped", JArr (dropped_json <$> sort (fun a b => locale_le a.1 b.1) (dropped c)));
        ("entry", str (li_entry i));
        ("formatVersion", JNum 1);
        ("interactionDependent", strs (sort bytes_le (interactionDependent c)));
        ("memory", strs (sort bytes_le (li_memoryPaths i)));
        ("mode", JStr (mode_name (li_mode i)));
        ("sandboxImage", str (li_sandboxImage i));
        ("skills", JArr (skill_json (li_skillHashes i) <$> sort (fun a b => locale_le (sk_name a) (sk_name b)) (travels c)))].
End Lockfile.

Definition key_le (a b : string * json) : bool := bytes_le (bytes_of a.1) (bytes_of b.1).

Fixpoint sortKeys (j : json) : json :=
  match j with
  | JArr l => JArr (map sortKeys l)
  | JObj fs => JObj (sort key_le (map (fun f => (f.1, sortKeys f.2)) fs))
  | _ => j
  end.

Definition serializeLockfile (lockfile : json) : bytes := pretty 0 (sortKeys lockfile) ++ nl 0.

(** ** The command *)

Inductive failure :=
| Exited (code : Z)
| Blocked (fs : list SecretFinding)     (* [SecretScanError] *)
| Failed (message : string).

(** The directories of a promotion, or why it stops before anything is read. *)
Definition locate (fs : path → option node) (argv : list string) (cwd homedir : path) : result failure (PromoteArgs * path * path) :=
  match parsePromoteArgs argv with
  | Throw m => Throw (Failed m)
  | Ok args =>
      let dir := resolveProjectDir args cwd in
      require isDirectory fs dir else Exited 1;
      let home := resolveHomeDir args cwd homedir in
      require isDirectory fs home else Exited 1;
      Ok (args, dir, home)
  end.

Inductive promote_call :=
| Connect (url : option string)
| PutBundle (digest tar : bytes)
| WriteLockfile (p : path) (text : bytes)
| Quit.

Definition promote_answer (c : promote_call) : Type :=
  match c with PutBundle _ _ => result string bool | _ => result string unit end.

Abbreviation pprog := (prog promote_call promote_answer failure).

Definition awaited {A B} (r : result string A) (k : A → pprog B) : pprog B :=
  match r with Ok a => k a | Throw m => Err (Failed m) end.

Definition LOCKFILE_OUT : list string := [".claude"; "promoted.lock.json"].

(** What [buildBundle] returned. *)
Record BuildResult := mkBuilt {
  br_tar : bytes;
  br_digest : bytes;
  br_lockfile : json;
  br_findings : list PreflightFinding;
}.

(** From the report on: refuse, stop at a dry run, or upload and then write the lockfile. *)
Definition publish (args : PromoteArgs) (redisUrl : option string) (dir : path) (r : BuildResult) : pprog unit :=
  if hasErrors (br_findings r) then Err (Exited 2)
  else if pa_dryRun args then Ret tt
  else
    Call (Connect (match pa_redisUrl args with Some u => Some u | None => redisUrl end)) (fun c =>
    awaited (c : result string unit) (fun _ =>
    pfinally
      (Call (PutBundle (br_digest r) (br_tar r)) (fun u =>
       awaited (u : result string bool) (fun _ =>
       Call (WriteLockfile (join dir LOCKFILE_OUT) (serializeLockfile (br_lockfile r))) (fun w =>
       awaited (w : result string unit) (fun _ => Ret tt)))))
      (Call Quit (fun q => awaited (q : result string unit) (fun _ => Ret tt))))).

(** The process's exit code. *)
Definition exit_code {A} (o : result failure A) : Z :=
  match o with Ok _ => 0 | Throw (Exited n) => n | Throw (Blocked _) => 3 | Throw (Failed _) => 1 end.

(** ** The command line, printed and parsed *)

Definition with_flag (flag : string) (values : list string) : list string := flat_map (fun v => [flag; v]) values.

(** Arguments as a command line. *)
Definition argv_of (a : PromoteArgs) : list string :=
  ["--entry"; pa_entry a; "--mode"; mode_name (pa_mode a); "--sandbox-image"; pa_sandboxImage a]
  ++ with_flag "--deny" (pa_deny a) ++ with_flag "--exclude-prompt" (pa_excludePrompts a)
  ++ with_flag "--project" (option_list (pa_project a)) ++ with_flag "--home" (option_list (pa_home a))
  ++ with_flag "--redis-url" (option_list (pa_redisUrl a)) ++ (if pa_dryRun a then ["--dry-run"] else []).

Definition nonempty (s : string) : Prop := s ≠ "".

Definition args_ok (a : PromoteArgs) : Prop :=
  nonempty (pa_entry a) ∧ Forall nonempty (pa_excludePrompts a) ∧ Forall nonempty (option_list (pa_project a))
  ∧ Forall nonempty (option_list (pa_home a)) ∧ Forall nonempty (option_list (pa_redisUrl a)).

Lemma nonempty_given v : nonempty v → missing (Some v) = false.
Proof. intros H. simpl. by apply bool_decide_eq_false. Qed.

Lemma parse_pair flag v rest a a' :
  flag_step flag (Some v) a = Ok (a', true) → parse_flags (flag :: v :: rest) a = parse_flags rest a'.
Proof. intros H. cbn [parse_flags head]. by rewrite H. Qed.

Lemma parse_deny l rest e m i d x dr p h u :
  parse_flags (with_flag "--deny" l ++ rest) (mkArgs e m i d x dr p h u) = parse_flags rest (mkArgs e m i (d ++ l) x dr p h u).
Proof.
  revert d. induction l as [|v l IH]; intros d; [by rewrite app_nil_r|].
  change (with_flag "--deny" (v :: l) ++ rest) with ("--deny" :: v :: with_flag "--deny" l ++ rest).
  rewrite (parse_pair _ _ _ _ (mkArgs e m i (d ++ [v]) x dr p h u)) by done. by rewrite IH, <-app_assoc.
Qed.

Lemma parse_exclude l rest e m i d x dr p h u :
  Forall nonempty l →
  parse_flags (with_flag "--exclude-prompt" l ++ rest) (mkArgs e m i d x dr p h u) = parse_flags rest (mkArgs e m i d (x ++ l) dr p h u).
Proof.
  intros Hl. revert x. induction Hl as [|v l Hv Hl IH]; intros x; [by rewrite app_nil_r|].
  change (with_flag "--exclude-prompt" (v :: l) ++ rest) with ("--exclude-prompt" :: v :: with_flag "--exclude-prompt" l ++ rest).
  rewrite (parse_pair _ _ _ _ (mkArgs e m i d (x ++ [v]) dr p h u)).
  - by rewrite IH, <-app_assoc.
  - unfold flag_step. by rewrite nonempty_given.
Qed.

(** Each of the options that name one thing. *)
Lemma parse_one flag o rest a a' :
  Forall nonempty (option_list o) →
  match o with
  | Some v => nonempty v → flag_step flag (Some v) a = Ok (a', true)
  | None => a' = a
  end → parse_flags (with_flag flag (option_list o) ++ rest) a = parse_flags rest a'.
Proof.
  destruct o as [v|]; [|by intros _ ->]. intros [Hv _]%Forall_cons H. apply parse_pair. by apply H.
Qed.

(** A command line means what it says: arguments that can be given are read back as they
    were from their flags, in whatever number, and every other flag is refused. *)
Theorem args_roundtrip a flag rest :
  args_ok a →
  parsePromoteArgs (argv_of a) = Ok a
  ∧ (flag ∉ ["--entry"; "--mode"; "--sandbox-image"; "--deny"; "--exclude-prompt"; "--project"; "--home"; "--redis-url"; "--dry-run"] →
     parsePromoteArgs (argv_of a ++ flag :: rest) = Throw ("unknown flag: " +:+ flag)).
Proof.
  destruct a as [e m i d x dr p h u]. intros (He & Hx & Hp & Hh & Hu). simpl in He, Hx, Hp, Hh, Hu.
  assert (Hall : ∀ tl, parse_flags (argv_of (mkArgs e m i d x dr p h u) ++ tl) no_args
                       = parse_flags tl (mkArgs e m i d x dr p h u)).
  { intros tl. unfold argv_of, no_args. cbn [pa_entry pa_mode pa_sandboxImage pa_deny pa_excludePrompts pa_dryRun pa_project pa_home pa_redisUrl].
    rewrite <-!app_assoc. cbn [app].
    etrans; [|etrans; [apply (parse_deny d (with_flag "--exclude-prompt" x ++ with_flag "--project" (option_list p)
       ++ with_flag "--home" (option_list h) ++ with_flag "--redis-url" (option_list u)
       ++ (if dr then ["--dry-run"] else []) ++ tl) e m i [] [] false None None None)|]]; [by destruct m|].
    cbn [app]. rewrite parse_exclude by done. cbn [app].
    rewrite (parse_one "--project" p _ _ (mkArgs e m i d x false p None None));
      [|done|destruct p; [intros Hn; unfold flag_step; by rewrite nonempty_given|done]].
    rewrite (parse_one "--home" h _ _ (mkArgs e m i d x false p h None));
      [|done|destruct h; [intros Hn; unfold flag_step; by rewrite nonempty_given|done]].
    rewrite (parse_one "--redis-url" u _ _ (mkArgs e m i d x false p h u));
      [|done|destruct u; [intros Hn; unfold flag_step; by rewrite nonempty_given|done]].
    by destruct dr. }
  unfold parsePromoteArgs. split.
  - rewrite <-(app_nil_r (argv_of _)), Hall. simpl. by rewrite bool_decide_eq_false_2.
  - intros Hf. rewrite Hall. cbn [parse_flags].
    assert (Hbad : ∀ v a, flag_step flag v a = Throw ("unknown flag: " +:+ flag)).
    { intros v a. unfold flag_step. rewrite !bool_decide_eq_false_2 by set_solver. done. }
    by rewrite Hbad.
Qed.

(** ** What of the user's files is promoted *)

(** The directories from [root] down to [k ++ root]. *)
Fixpoint chain (root k : path) : list path :=
  match k with [] => [root] | x :: k' => chain root k' ++ [x :: k' ++ root] end.

Lemma dirs_to_chain root k acc : dirs_to root (k ++ root) acc = Some (chain root k ++ acc).
Proof.
  revert acc. induction k as [|x k IH]; intros acc.
  - destruct root; cbn [dirs_to app chain]; by rewrite bool_decide_eq_true_2.
  - cbn [dirs_to app]. rewrite bool_decide_eq_false_2.
    + rewrite IH. cbn [chain]. by rewrite <-app_assoc.
    + intros E. apply (f_equal length) in E. simpl in E. rewrite length_app in E. lia.
Qed.

Lemma elem_of_chain root k dir : dir ∈ chain root k ↔ root `suffix_of` dir ∧ dir `suffix_of` k ++ root.
Proof.
  induction k as [|x k IH]; cbn [chain app].
  - rewrite list_elem_of_singleton. split; [by intros ->|]. intros [H1 H2]. by apply (anti_symm suffix).
  - rewrite elem_of_app, list_elem_of_singleton, IH. split.
    + intros [[H1 H2]| ->]; [split; [done|by apply suffix_cons_r]|split; [|done]]. by exists (x :: k).
    + intros [H1 [l E]]. destruct l as [|y l]; [by right|]. left. injection E as -> E. split; [done|by exists l].
Qed.

Lemma chain_deeper root k : StronglySorted (fun a b => (length a < length b)%nat) (chain root k).
Proof.
  induction k as [|x k IH]; cbn [chain]; [by repeat constructor|].
  apply StronglySorted_app_2; [|done|by repeat constructor].
  intros a b [_ Ha%suffix_length]%elem_of_chain ->%list_elem_of_singleton. simpl. lia.
Qed.

Lemma suffix_up (d dir : path) x : d `suffix_of` x :: dir → d = x :: dir ∨ d `suffix_of` dir.
Proof. intros [[|y l] E]; [by left|]. injection E as _ ->. right. by exists l. Qed.

Section Sources.
Variable fs : path → option node.

Lemma git_above_spec dir :
  match git_above fs dir with
  | Some root => root `suffix_of` dir ∧ existsSync fs (bytes_of ".git" :: root) = true
      ∧ ∀ d, d `suffix_of` dir → existsSync fs (bytes_of ".git" :: d) = true → d `suffix_of` root
  | None => ∀ d, d `suffix_of` dir → existsSync fs (bytes_of ".git" :: d) = false
  end.
Proof.
  induction dir as [|x dir IH]; cbn [git_above].
  - destruct (existsSync fs [bytes_of ".git"]) eqn:E; [done|]. by intros d ->%suffix_nil_inv.
  - destruct (existsSync fs (bytes_of ".git" :: x :: dir)) eqn:E; [done|].
    destruct (git_above fs dir) as [root|].
    + destruct IH as (H1 & H2 & H3). split_and!; [by apply suffix_cons_r|done|].
      intros d [->|Hd]%suffix_up; [congruence|by apply H3].
    + intros d [->|Hd]%suffix_up; [done|by apply IH].
Qed.

(** The file of context of a directory, if it has one: [AGENTS.md] before [CLAUDE.md]. *)
Definition context_of (dir p : path) : Prop :=
  p = bytes_of "AGENTS.md" :: dir ∧ is_Some (fs p)
  ∨ p = bytes_of "CLAUDE.md" :: dir ∧ is_Some (fs p) ∧ fs (bytes_of "AGENTS.md" :: dir) = None.

Lemma find_context dir :
  match List.find (existsSync fs) ((fun n => n :: dir) <$> CONTEXT_NAMES) with
  | Some p => context_of dir p ∧ ∀ p', context_of dir p' → p' = p
  | None => ∀ p, ¬ context_of dir p
  end.
Proof.
  unfold context_of, existsSync. cbn [CONTEXT_NAMES fmap list_fmap List.find].
  set (A := bytes_of "AGENTS.md"). set (C := bytes_of "CLAUDE.md").
  destruct (fs (A :: dir)) as [a|] eqn:EA.
  { rewrite bool_decide_eq_true_2 by eauto. split; [by left; rewrite EA|].
    intros p' [[-> _]|(_ & _ & E)]; [done|congruence]. }
  rewrite bool_decide_eq_false_2 by (intros [? ?]; congruence). destruct (fs (C :: dir)) as [c|] eqn:EC.
  { rewrite bool_decide_eq_true_2 by eauto. split; [by right; rewrite EC|].
    intros p' [[-> [? E]]|(-> & _)]; [congruence|done]. }
  rewrite bool_decide_eq_false_2 by (intros [? ?]; congruence).
  intros p [[-> [? E]]|(-> & [? E] & _)]; congruence.
Qed.

Lemma read_contexts_spec dirs files :
  StronglySorted (fun a b => (length a < length b)%nat) dirs → read_contexts fs dirs = Ok files →
  (∀ p text, (p, text) ∈ files ↔ (∃ dir, dir ∈ dirs ∧ context_of dir p) ∧ fs p = Some (File text))
  ∧ StronglySorted (fun a b => (length a.1 < length b.1)%nat) files.
Proof.
  revert files. induction dirs as [|dir dirs IH]; intros files Hs.
  { intros [= <-]. split; [|constructor]. intros p t. rewrite elem_of_nil. naive_solver (set_solver). }
  apply StronglySorted_cons in Hs as [Hd Hs]. cbn [read_contexts]. pose proof (find_context dir) as Hf.
  destruct (List.find (existsSync fs) _) as [p|].
  - destruct Hf as [Hp Huniq]. unfold readFileSync. destruct (fs p) as [[t|]|] eqn:Ep; try done. cbn [result_bind].
    destruct (read_contexts fs dirs) as [rest|] eqn:Er; [|done]. intros [= <-].
    destruct (IH rest Hs eq_refl) as [Hin Hsort]. split.
    + intros p' t'. rewrite elem_of_cons, Hin. split.
      * intros [[= -> ->]|[(d & Hd' & Hc) Ht]]; [split; [by exists dir; split; [left|]|done]|].
        split; [exists d; by split; [right|]|done].
      * intros [(d & [->|Hd']%elem_of_cons & Hc) Ht]; [left; apply Huniq in Hc as ->; congruence|right].
        split; [by exists d|done].
    + apply StronglySorted_cons. split; [|done]. apply Forall_forall. intros [p' t'] [(d & Hd' & Hc) _]%Hin.
      rewrite Forall_forall in Hd. specialize (Hd d Hd'). simpl.
      assert (Hl : ∀ d p, context_of d p → length p = S (length d)) by (by intros ?? [[-> _]|[-> _]]).
      rewrite (Hl _ _ Hp), (Hl _ _ Hc). lia.
  - intros Hr. destruct (IH files Hs Hr) as [Hin Hsort]. split; [|done]. intros p t. rewrite Hin. split.
    + intros [(d & Hd' & Hc) Ht]. split; [exists d; by split; [right|]|done].
    + intros [(d & [->|Hd']%elem_of_cons & Hc) Ht]; [by destruct (Hf p)|]. split; [by exists d|done].
Qed.

Lemma project_root_above cwd : projectRoot fs cwd `suffix_of` cwd.
Proof.
  unfold projectRoot. pose proof (git_above_spec cwd) as H. destruct (git_above fs cwd); simpl; [apply H|done].
Qed.

(** Only a project's own context is promoted: the walk ends; its root is the nearest directory,
    from the one promoted upwards, with a [.git] entry, and the directory itself if there is
    none; the files collected are those of exactly the directories from that root to the one
    promoted, one each, with [AGENTS.md] before [CLAUDE.md]; and outer directories come first. *)
Theorem context_stays_in_project cwd :
  (match git_above fs cwd with
   | Some root => projectRoot fs cwd = root ∧ existsSync fs (bytes_of ".git" :: root) = true
       ∧ ∀ d, d `suffix_of` cwd → existsSync fs (bytes_of ".git" :: d) = true → d `suffix_of` root
   | None => projectRoot fs cwd = cwd ∧ ∀ d, d `suffix_of` cwd → existsSync fs (bytes_of ".git" :: d) = false
   end)
  ∧ ∃ r, collectContextFiles fs cwd = Some r
  ∧ ∀ files, r = Ok files →
    (∀ p text, (p, text) ∈ files ↔
       (∃ dir, projectRoot fs cwd `suffix_of` dir ∧ dir `suffix_of` cwd ∧ context_of dir p) ∧ fs p = Some (File text))
    ∧ StronglySorted (fun a b => (length a.1 < length b.1)%nat) files.
Proof.
  split.
  { pose proof (git_above_spec cwd) as H. unfold projectRoot. destruct (git_above fs cwd); simpl; [|done].
    split; [done|apply H]. }
  destruct (project_root_above cwd) as [k Hk]. unfold collectContextFiles.
  assert (E : dirs_to (projectRoot fs cwd) cwd [] = Some (chain (projectRoot fs cwd) k)).
  { rewrite Hk at 2. by rewrite dirs_to_chain, app_nil_r. }
  rewrite E. eexists. split; [done|]. intros files Hf.
  destruct (read_contexts_spec _ files (chain_deeper _ _) Hf) as [Hin Hs]. split; [|done].
  intros p t. rewrite Hin. setoid_rewrite elem_of_chain. rewrite <-Hk. naive_solver.
Qed.

(** The inventory shipped with the harness outranks one beside the project, and the nearest of the
    shipped ones is the one used. *)
Lemma shipped_inventory_first image cwd moduleDir d :
  d `suffix_of` moduleDir → existsSync fs (inventory_at d image) = true →
  ∃ d', d `suffix_of` d' ∧ d' `suffix_of` moduleDir ∧ resolveInventoryPath fs image cwd moduleDir = Some (inventory_at d' image).
Proof.
  intros Hd He. unfold resolveInventoryPath, inventoryCandidates. induction moduleDir as [|x dir IH].
  - apply suffix_nil_inv in Hd as ->. exists []. cbn. by rewrite He.
  - cbn [ancestors fmap list_fmap app List.find]. destruct (existsSync fs (inventory_at (x :: dir) image)) eqn:E.
    + by exists (x :: dir).
    + apply suffix_up in Hd as [->|Hd]; [congruence|]. destruct (IH Hd) as (d' & H1 & H2 & H3).
      exists d'. split_and!; [done|by apply suffix_cons_r|exact H3].
Qed.
End Sources.

(** ** The lockfile *)

Lemma sortKeys_serialisable j : serialisable j = true → serialisable (sortKeys j) = true.
Proof.
  induction j as [|b|q|s|l IH|fs IH] using json_ind'; intros Hj; try done.
  - cbn [serialisable sortKeys] in *. pose proof (Forall_checked _ _ _ Hj IH) as Hall.
    apply forallb_forall. intros x (y & <- & Hy)%in_map_iff. rewrite Forall_forall in Hall. by apply Hall, list_elem_of_In.
  - cbn [serialisable sortKeys] in *. apply andb_prop in Hj as [Hn%bool_decide_eq_true Hj].
    pose proof (Forall_checked _ _ _ Hj IH) as Hall. rewrite Forall_forall in Hall. apply andb_true_intro. split.
    + apply bool_decide_eq_true. rewrite (sort_perm key_le). by rewrite <-list_fmap_compose.
    + apply forallb_forall. intros x Hx%list_elem_of_In. rewrite (sort_perm key_le) in Hx.
      apply list_elem_of_In, in_map_iff in Hx as (y & <- & Hy). by apply Hall, list_elem_of_In.
Qed.

Lemma strs_serialisable l : serialisable (strs l) = true.
Proof. cbn. apply forallb_forall. by intros x (y & <- & _)%in_map_iff. Qed.

Lemma lockfile_serialisable le i : serialisable (buildLockfile le i) = true.
Proof.
  unfold buildLockfile. cbn [serialisable]. apply andb_true_intro. split; [by vm_compute|].
  cbn [forallb snd serialisable]. rewrite !strs_serialisable. cbn -[forallb].
  rewrite !andb_true_r. repeat (apply andb_true_intro; split); try done;
    apply forallb_forall; by intros x (y & <- & _)%in_map_iff.
Qed.

(** Two accounts of one promotion, found in different orders. *)
Record same_promotion (i i' : LockfileInput) : Prop := {
  same_scalars : (li_digest i, li_mode i, li_entry i, li_sandboxImage i, li_pi i, li_harness i)
                 = (li_digest i', li_mode i', li_entry i', li_sandboxImage i', li_pi i', li_harness i');
  same_context : li_contextPaths i ≡ₚ li_contextPaths i';
  same_memory : li_memoryPaths i ≡ₚ li_memoryPaths i';
  same_binaries : li_binaries i ≡ₚ li_binaries i';
  same_travels : travels (li_classification i) ≡ₚ travels (li_classification i');
  same_dropped : dropped (li_classification i) ≡ₚ dropped (li_classification i');
  same_interaction : interactionDependent (li_classification i) ≡ₚ interactionDependent (li_classification i');
  same_hashes : ∀ n, map_get n (li_skillHashes i) = map_get n (li_skillHashes i');
}.

#[local] Instance bytes_order : TotalPreorder bytes_le := by_key id.

(** An order of names orders what they name. *)
Lemma ordered_by {A} (le : bytes → bytes → bool) (f : A → bytes) :
  TotalPreorder le → TotalPreorder (fun x y => le (f x) (f y)).
Proof. intros Ht. split; [intros x y z; exact (le_trans le _ _ _)|intros x y; exact (le_total le _ _)]. Qed.

Lemma NoDup_by_name {A} (f : A → bytes) l x y : NoDup (f <$> l) → x ∈ l → y ∈ l → f x = f y → x = y.
Proof.
  induction l as [|z l IH]; [by intros _ ?%elem_of_nil|]. cbn. intros [Hz Hl]%NoDup_cons.
  assert (Hin : ∀ w, w ∈ l → f z ≠ f w) by (intros w Hw E; apply Hz; rewrite E; by apply list_elem_of_fmap_2).
  intros [->|Hx]%elem_of_cons [->|Hy]%elem_of_cons E; [done|by destruct (Hin y Hy)|by destruct (Hin x Hx)|by apply IH].
Qed.

(** A lockfile that is committed changes only when the promotion does: its text does not depend on
    the order in which files and skills were found, and it is read back as the record that was
    written, with its keys in order.  The platform's collation is taken to order the skills'
    names, each of which resolves to one skill. *)
Theorem lockfile_stable locale_le i i' :
  TotalPreorder locale_le →
  (∀ a b, a ∈ (sk_name <$> travels (li_classification i)) ++ (dropped (li_classification i)).*1 →
          b ∈ (sk_name <$> travels (li_classification i)) ++ (dropped (li_classification i)).*1 →
          locale_le a b = true → locale_le b a = true → a = b) →
  NoDup (sk_name <$> travels (li_classification i)) → NoDup (dropped (li_classification i)).*1 →
  same_promotion i i' →
  serializeLockfile (buildLockfile locale_le i) = serializeLockfile (buildLockfile locale_le i')
  ∧ parse (serializeLockfile (buildLockfile locale_le i)) = Some (sortKeys (buildLockfile locale_le i)).
Proof.
  intros Ht Hanti Hn1 Hn2 [Hsc Hcx Hm Hb Htr Hdr Hin Hh]. split.
  2:{ apply parse_pretty, sortKeys_serialisable, lockfile_serialisable. }
  f_equal. unfold buildLockfile.
  assert (Hbytes : ∀ l l', l ≡ₚ l' → sort bytes_le l = sort bytes_le l').
  { intros l l' Hp. apply sort_unique; [apply _|done|]. intros x y _ _. apply bytes_le_antisym. }
  assert (Hs : sort (fun a b => locale_le (sk_name a) (sk_name b)) (travels (li_classification i))
             = sort (fun a b => locale_le (sk_name a) (sk_name b)) (travels (li_classification i'))).
  { apply sort_unique; [|done|].
    - by apply ordered_by.
    - intros x y Hx Hy H1 H2. apply (NoDup_by_name sk_name (travels (li_classification i))); [done..|].
      apply Hanti; [set_solver..|done|done]. }
  assert (Hd : sort (fun a b => locale_le a.1 b.1) (dropped (li_classification i))
             = sort (fun a b => locale_le a.1 b.1) (dropped (li_classification i'))).
  { apply sort_unique; [|done|].
    - by apply ordered_by.
    - intros x y Hx Hy H1 H2. apply (NoDup_by_name fst (dropped (li_classification i))); [done..|].
      apply Hanti; [set_solver..|done|done]. }
  rewrite Hs, Hd, (Hbytes _ _ Hcx), (Hbytes _ _ Hm), (Hbytes _ _ Hb), (Hbytes _ _ Hin).
  assert (Hj : ∀ l : list ResolvedSkill, skill_json (li_skillHashes i) <$> l = skill_json (li_skillHashes i') <$> l).
  { intros l. apply list_fmap_ext. intros n s _. unfold skill_json. by rewrite Hh. }
  rewrite Hj. injection Hsc as -> -> -> -> -> ->. done.
Qed.

(** ** The command *)

(** A promotion is recorded only once it is stored.  With errors in the report nothing leaves
    the machine and the exit code says so; a dry run does nothing; otherwise, whatever the store
    and the disk answer, the lockfile is written only after the store took exactly this bundle, a
    connection that was opened is closed, and the command succeeds only if all of it did. *)
Theorem recorded_once_stored args redisUrl dir r tr o :
  runs (publish args redisUrl dir r) tr o →
  let url := match pa_redisUrl args with Some u => Some u | None => redisUrl end in
  let write w := ev (R := promote_answer) (WriteLockfile (join dir LOCKFILE_OUT) (serializeLockfile (br_lockfile r))) w in
  let put u := ev (R := promote_answer) (PutBundle (br_digest r) (br_tar r)) u in
  if hasErrors (br_findings r) then tr = [] ∧ exit_code o = 2
  else if pa_dryRun args then tr = [] ∧ exit_code o = 0
  else
    (∃ m, tr = [ev (R := promote_answer) (Connect url) (Throw m)] ∧ exit_code o = 1)
    ∨ ∃ mid q, tr = ev (R := promote_answer) (Connect url) (Ok tt) :: mid ++ [ev (R := promote_answer) Quit q]
      ∧ ((∃ m, mid = [put (Throw m)] ∧ exit_code o = 1)
         ∨ ∃ u w, mid = [put (Ok u); write w] ∧ (exit_code o = 0 ↔ w = Ok tt ∧ q = Ok tt)).
Proof.
  intros Hr url write put. unfold publish in Hr. destruct (hasErrors (br_findings r)).
  { apply runs_inv in Hr as [-> ->]. done. }
  destruct (pa_dryRun args). { apply runs_inv in Hr as [-> ->]. done. }
  apply runs_inv in Hr as (c & tr1 & -> & Hr). destruct c as [[]|m]; simpl in Hr.
  2:{ apply runs_inv in Hr as [-> ->]. left. by exists m. }
  right. apply runs_inv in Hr as (u & tr2 & -> & Hr). destruct u as [u|m]; simpl in Hr.
  - apply runs_inv in Hr as (w & tr3 & -> & Hr). destruct w as [[]|m]; simpl in Hr;
      apply runs_inv in Hr as (q & tr4 & -> & Hr); destruct q as [[]|m']; simpl in Hr;
      apply runs_inv in Hr as [-> ->].
    + exists [put (Ok u); write (Ok tt)], (Ok tt). split; [done|]. right. by exists u, (Ok tt).
    + exists [put (Ok u); write (Ok tt)], (Throw m'). split; [done|]. right. exists u, (Ok tt). split; [done|].
      split; [done|by intros [_ ?]].
    + exists [put (Ok u); write (Throw m)], (Ok tt). split; [done|]. right. exists u, (Throw m). split; [done|].
      split; [done|by intros [? _]].
    + exists [put (Ok u); write (Throw m)], (Throw m'). split; [done|]. right. exists u, (Throw m). split; [done|].
      split; [done|by intros [? _]].
  - apply runs_inv in Hr as (q & tr4 & -> & Hr). destruct q as [[]|m']; simpl in Hr; apply runs_inv in Hr as [-> ->];
      [exists [put (Throw m)], (Ok tt)|exists [put (Throw m)], (Throw m')]; (split; [done|]); left; by exists m.
Qed.

(** ** Examples *)

Definition dir_of (names : list string) : path := reverse (bytes_of <$> names).

(** A personal file above a linked worktree, whose [.git] is a file, and two in it. *)
Definition toy_fs (p : path) : option node :=
  if bool_decide (p = dir_of ["home"; "u"; "CLAUDE.md"]) then Some (File (bytes_of "personal"))
  else if bool_decide (p = dir_of ["home"; "u"; "p"; ".git"]) then Some (File (bytes_of "gitdir: /g"))
  else if bool_decide (p = dir_of ["home"; "u"; "p"; "CLAUDE.md"]) then Some (File (bytes_of "outer"))
  else if bool_decide (p = dir_of ["home"; "u"; "p"; "a"; "AGENTS.md"]) then Some (File (bytes_of "inner"))
  else if bool_decide (p = dir_of ["home"; "u"; "p"; "a"; "CLAUDE.md"]) then Some (File (bytes_of "unused"))
  else None.

Example worktree_contexts :
  collectContextFiles toy_fs (dir_of ["home"; "u"; "p"; "a"])
  = Some (Ok [(dir_of ["home"; "u"; "p"; "CLAUDE.md"], bytes_of "outer");
              (dir_of ["home"; "u"; "p"; "a"; "AGENTS.md"], bytes_of "inner")]).
Proof. by vm_compute. Qed.

Example slug_is_lossy :
  projectMemoryDir (dir_of ["a"; "my-project"]) (dir_of ["home"]) = projectMemoryDir (dir_of ["a"; "my"; "project"]) (dir_of ["home"]).
Proof. by vm_compute. Qed.

Definition toy_input (order : list bytes → list bytes) : LockfileInput :=
  mkLockInput (bytes_of "sha256:00") unattended (bytes_of "fix") (mkClass [] [] []) (order (bytes_of <$> ["b"; "a"]))
    [] (bytes_of "img") [] (bytes_of "1") (bytes_of "2") [].

Lemma lockfile_stable_witness :
  serializeLockfile (buildLockfile bytes_le (toy_input id)) = serializeLockfile (buildLockfile bytes_le (toy_input (@rev bytes))).
Proof.
  apply (lockfile_stable bytes_le (toy_input id) (toy_input (@rev bytes))).
  - exact (by_key id).
  - intros a b Ha. apply elem_of_nil in Ha as [].
  - apply NoDup_nil_2.
  - apply NoDup_nil_2.
  - split; try done. vm_compute. constructor.
Defined.

Lemma args_roundtrip_witness :
  let a := mkArgs "fix" attended "img" ["x"; "--home"] ["promote"] true (Some "/p") None (Some "redis://r") in
  parsePromoteArgs (argv_of a) = Ok a.
Proof.
  refine (proj1 (args_roundtrip (mkArgs "fix" attended "img" ["x"; "--home"] ["promote"] true (Some "/p") None (Some "redis://r")) "" [] _)).
  repeat split; repeat constructor; discriminate.
Defined.
